(* ===== verification/_CoqProject ===== *)
-Q . S2P
Prelude.v
NodeId.v
Addr.v
IpFilter.v
Contact.v
Record.v
RoutingTable.v
RoutingInv.v
RoutingSafety.v
RoutingAdmission.v
RoutingScale.v
RoutingQuery.v
DhtStore.v
DhtIndex.v
DhtStoreInv.v
DhtRoom.v
DhtStoreOps.v
DhtStoreSafety.v
DhtStoreService.v
DhtVictim.v
Wire.v
Crypto.v
Messages.v
WireFacts.v
MessagesRoundtrip.v
Utf8.v
ConstraintsRoundtrip.v
MessagesSafety.v
MessagesCorrect.v
SearchState.v
Search.v
SearchInv.v
SearchWalk.v
SearchOps.v
SearchStep.v
SearchLive.v
SearchResults.v
SearchManager.v
Float64.v
Protection.v
ProtectionRate.v
ProtectionGate.v
ProtectionSweep.v
MapOrder.v
Observed.v
ObservedVotes.v
GapList.v
PartTracker.v
PartInv.v
PartWrite.v
PartSafety.v
PartClaims.v
PartVerify.v
PartMet.v
PartMetLoad.v
PartMetRoundtrip.v
PartSave.v
PartSaveSafety.v
Blackbox.v
BlackboxFacts.v
BlackboxBlame.v
Reputation.v
ReputationFacts.v
ReputationInv.v
ReputationSafety.v
RateBucket.v
ReplayGuard.v
Mailbox.v
MailboxFacts.v
MailboxEvict.v
MailboxSafety.v
Registry.v
RegistryInv.v
RegistrySteps.v
RegistrySafety.v
RegistryClaims.v
RegistryCount.v
RegistryDisk.v
RegistryPersist.v
RegistryDirectory.v
