(* ===== verification/Prelude.v ===== *)
(** * Ember: a verification of its DHT, its download bookkeeping and its server

    Ember ([src/src-tauri]) is a peer-to-peer file-sharing client with a
    Kademlia-style distributed hash table of its own ([network/ember/dht]), next
    to the eMule networks it joins; a small server ([src/rendezvous-server]) helps
    its clients find each other and keeps the names of their rooms.  This library
    models their data structures and protocols operation by operation, as shallow
    embeddings: a method with [&mut self] is a function from the state to a result and a
    state, an error is a value, a machine integer is a [Z] or [nat] with the
    width and the saturation the code uses, a [HashMap] a [gmap], and a clock
    reading is an argument.

    ** The parts, and which file models which

    Datagrams come in through the flood gate, are decoded and authenticated, and
    reach the routing table, the record store and the searches.
    - Ids, addresses, contacts ([NodeId], [Addr], [Contact]): [kad/dht_common.rs],
      [ember/dht/mod.rs], [ember/dht/scale.rs], [security/mod.rs].  The XOR metric,
      the special-use address classes, the limits that grow with the network.
    - IP filter and admission gate ([IpFilter]): [kad/ip_filter.rs],
      [kad/dht_common.rs].  Sorted range lists searched by bisection.
    - Routing table ([RoutingTable]; invariant [RoutingInv], histories
      [RoutingSafety], admission [RoutingAdmission], diversity caps
      [RoutingScale], reading [RoutingQuery]): [ember/dht/routing.rs].
    - Record store ([Record], [DhtStore]; publisher index [DhtIndex], invariant
      [DhtStoreInv], evictions [DhtRoom], storing [DhtStoreOps], histories
      [DhtStoreSafety], what callers see [DhtStoreService], short cuts
      [DhtVictim]): [ember/dht/store.rs] and the readers of
      [ember/dht/publish.rs] and [ember/feed.rs] it calls.
    - Wire format ([Wire], [Crypto], [Messages]; [WireFacts], [MessagesRoundtrip],
      [Utf8], [ConstraintsRoundtrip], [MessagesSafety], [MessagesCorrect]):
      [ember/dht/messages.rs], [ember/crypto.rs].
    - Searches ([SearchState], [Search]; books of the walk [SearchInv],
      [SearchWalk], [SearchOps], the step relation [SearchStep], progress
      [SearchLive], records [SearchResults], the pool [SearchManager]):
      [ember/dht/search.rs].
    - Flood gate ([Float64], [Protection]; [ProtectionRate], [ProtectionGate],
      [ProtectionSweep]): [ember/dht/protection.rs].
    - Votes on our own address ([Observed], [ObservedVotes]): [ember/dht/observed.rs].
    A download keeps its missing and verified bytes in a part tracker, saved beside
    the data; what corrupt data shows about peers goes to the blackbox and into
    their reputation.  Paths are under [network].
    - Part tracker ([GapList], [PartTracker]; invariant [PartInv],
      reservations [PartWrite], histories [PartSafety], answers [PartClaims],
      withdrawn parts and the upload sessions that must not serve them
      [PartVerify]): [ed2k/part_tracker.rs].
    - The [.part.met] sidecar ([PartMet]; [PartMetLoad], [PartMetRoundtrip]) and the
      tasks that save and remove it ([PartSave], [PartSaveSafety]): the same file.
    - Corruption blackbox ([Blackbox]; [BlackboxFacts], [BlackboxBlame]):
      [ed2k/corruption_blackbox.rs].
    - Reputation ([Reputation]; [ReputationFacts], [ReputationInv],
      [ReputationSafety]): [ember/reputation.rs].
    The server's stores are independent of each other; paths are under
    [rendezvous-server/src].
    - Rate buckets and the two-tier admissions ([RateBucket]), and the replay guard of
      signed requests ([ReplayGuard]): [main.rs].
    - Chat mailboxes ([Mailbox]; sums and invariant [MailboxFacts], evictions
      [MailboxEvict], histories [MailboxSafety]): [chat_mailbox.rs].
    - Channel registry ([Registry]; indexes, invariant and reaping [RegistryInv],
      writes as steps [RegistrySteps], histories and restarts [RegistrySafety],
      answers [RegistryClaims], the public directory [RegistryDirectory]) and its
      persistence (generations [RegistryCount], files [RegistryDisk], jobs and
      acknowledgements [RegistryPersist]): [registry.rs], with the flush tasks of
      [main.rs].
    [MapOrder] is the iteration of hash maps they share.

    ** What the theorems show

    - Routing table: in every reachable table the buckets, the counters and the
      address index agree and the caps hold; what [add_contact] answers is what
      happened; the bounded selections equal sorting everything; [find_closest]
      leaves a contact out only for nearer ones, its own network's or address's
      where that is what the diversity rule counts.
    - Record store: byte total and publisher index equal a recount in every
      reachable store, every limit holds, every record was verified under its own
      key, nothing newer of a publisher's file is replaced by something older, an
      accepted record is served at once unless a richer live one stays, and the
      short cuts of a full store answer as the scans they avoid.
    - Wire: every payload reads back, every accepted frame is authentic and within
      the limits of the format, no input makes the decoder panic or loop.
    - Searches: the books of every reachable search balance, a driven search is
      never left waiting for nothing, its records are signed and within budget.
    - Flood gate: the rates a peer can reach, that a STORE is charged entirely or
      not at all, and that sweeping its tables rarely is a refinement of sweeping
      them on every frame.
    - Own address: a confirmation always has a quorum of live votes from distinct
      networks, and moves only when it is outweighed.
    - Part tracker: the gap list is a set of missing bytes and every operation a set
      operation on it; a verified part is complete; no upload session serves a part
      that was withdrawn, in any interleaving; a saved tracker loads back, but for
      the cases the theorem names; unreadable bytes, a foreign hash, a bad count and
      unusable tags leave everything missing, and other bytes exactly what they
      list; and a removed sidecar stays removed.
    - Blackbox: no honest peer is banned, whatever was recorded, compacted or evicted,
      under the assumption that a failed part holds a byte some dishonest peer sent.
    - Reputation: ranges and caps hold in every reachable table, good conduct never
      offsets strikes, bans run their course, and a restart is a decay tick.
    - Rate buckets: bounded, with an exact age index; a request is charged to both its
      tiers or to neither.
    - Replay guard: no signed request is accepted twice, nor after a newer one of its
      scope, whatever was evicted and however the clocks jump, and nothing at or
      below a floor raised for its key is admitted or raises it again.
    - Mailboxes: every cap and every count exact, waiting entries in the order they
      were left; a refused deposit costs nobody anything, an accepted one is
      collected, by the pages the server hands out.
    - Registry: exact indexes, one current name a room, names that change hands only
      by authority, when abandoned, or when their own room lets an old one go,
      deletions that last, no grant of a lookalike name; and what has
      been acknowledged survives a crash at any point of any write; the pages of the
      directory are exactly its ranking of the oldest listed rooms.

    ** Assumptions

    Code outside the repository appears as classes with named laws, each with an
    instance the examples run on: Ed25519 and BLAKE3 ([Crypto.Ed25519Blake3]),
    signature checks of the store ([DhtStore.StoreEnv]), IEEE doubles
    ([Float64.Binary64]) and two uses of them ([Blackbox.BanRatio],
    [Reputation.DecayScale]), Unicode and hexadecimal ([Registry.RegistryText],
    no law needed), JSON ([RegistryDisk.RegistryJson], its round trip), and the
    iteration order of hash maps and the choice of an unstable sort
    ([DhtStore.HashOrder], [MapOrder.MapOrder], [RoutingQuery.UnstableSlice]),
    which are arbitrary.  Runs of the registry server are of fewer than 2^64
    writes, and its clock is past the epoch; signed timestamps are below the last [i64].

    ** Fuel

    Recursion is structural throughout except for loops over bytes, which take
    the number of bytes left as fuel: every round reads at least two, so the fuel
    is never what ends them ([MessagesCorrect.constraint_loop_terminates]), and
    for walks that take at most as many rounds as the collection they consume has
    entries: the gaps to coalesce, the declared tags of a sidecar, the age index of a
    rate bucket, the keys of the replay guard by horizon.  Making room in the mailbox
    store takes the excess in bytes as fuel, each round freeing at least one
    ([MailboxSafety.deposit_outcome]).

    ** Not modelled

    Sockets, SQLite, the event loop and the user interface (input and output
    throughout); file-system calls other than as outcomes given to the model; the
    loaders' text parsing of the IP filter; the construction and scheduling of
    published records, gossip, and the engine's dispatch of messages to the parts
    above; the eMule networks (KAD and eD2k) except as listed; the relay, channels
    and feeds of the client; bandwidth control; and of the server its HTTP handlers,
    presence, punching, relay tickets, and the caches of the directory pages. *)
From stdpp Require Export sorting base option numbers list gmap.

(** ** Tactics *)

(** Proves a decidable closed proposition by evaluating its decision. *)
Ltac compute_decision := refine (bool_decide_unpack _ _); vm_compute; exact I.

(** ** Machine integers

    The program is built with [overflow-checks = true], so a plain [+] or [*]
    that leaves its type panics; only the [saturating_*] operations have a
    result to model out of range. *)
Definition i64_min : Z := -9223372036854775808.
Definition i64_max : Z := 9223372036854775807.
Definition usize_max : Z := 18446744073709551615.

Definition clamp (lo hi x : Z) : Z := Z.max lo (Z.min hi x).
Definition i64_saturating_add (a b : Z) : Z := clamp i64_min i64_max (a + b).
Definition i64_saturating_sub (a b : Z) : Z := clamp i64_min i64_max (a - b).
Definition u8_saturating_add (a b : Z) : Z := clamp 0 255 (a + b).
Definition usize_saturating_mul (a b : nat) : nat :=
  Z.to_nat (Z.min (Z.of_nat a * Z.of_nat b) usize_max).

Definition in_i64 (x : Z) : Prop := (i64_min ≤ x ≤ i64_max)%Z.

(** ** Slices, [Vec] and [VecDeque]

    A [Vec] or [VecDeque] is a list, its front the head. *)

(** [Iterator::position]. *)
Fixpoint position {A} (p : A → bool) (l : list A) : option nat :=
  match l with
  | [] => None
  | x :: l => if p x then Some 0 else S <$> position p l
  end.

(** [VecDeque::insert]. *)
Definition insert_at {A} (i : nat) (x : A) (l : list A) : list A :=
  take i l ++ x :: drop i l.

(** [Vec::retain]. *)
Definition retain {A} (p : A → bool) (l : list A) : list A :=
  filter (λ x, p x = true) l.

(** [Iterator::count] after a [filter]. *)
Definition count_if {A} (p : A → bool) (l : list A) : nat := length (retain p l).

(** [Vec::swap_remove]: the last element takes the removed one's place. *)
Definition swap_remove {A} (i : nat) (l : list A) : list A :=
  match last l with
  | Some x => if decide (S i = length l) then take i l
              else <[i := x]> (take (length l - 1) l)
  | None => l
  end.

(** ** Counters: [HashMap<K, usize>] as the program uses them *)
Section counters.
Context `{Countable K}.

(** [*m.entry(k).or_insert(0) += 1]. *)
Definition incr (k : K) (m : gmap K nat) : gmap K nat :=
  <[k := S (default 0 (m !! k))]> m.

(** [if let Some(n) = m.get_mut(&k) { *n = n.saturating_sub(1); if *n == 0 { m.remove(&k); } }]. *)
Definition release (k : K) (m : gmap K nat) : gmap K nat :=
  match m !! k with
  | Some n => if decide (n - 1 = 0) then delete k m else <[k := n - 1]> m
  | None => m
  end.

(** [m.get(&k).copied().unwrap_or(0)]. *)
Definition count_at (k : K) (m : gmap K nat) : nat := default 0 (m !! k).

(** The counters a recount of [l] would produce. *)
Definition tally (l : list K) : gmap K nat := foldr incr ∅ l.

Definition occurrences (k : K) (l : list K) : nat :=
  length (filter (λ x, x = k) l).

Lemma occurrences_cons k x l :
  occurrences k (x :: l) = (if decide (x = k) then S (occurrences k l) else occurrences k l).
Proof. unfold occurrences. rewrite filter_cons. by case_decide. Qed.

Lemma lookup_tally l k :
  tally l !! k = (if decide (occurrences k l = 0) then None else Some (occurrences k l)).
Proof.
  induction l as [|x l IH]; [done|].
  change (tally (x :: l)) with (incr x (tally l)). unfold incr.
  rewrite occurrences_cons. destruct (decide (x = k)) as [->|Hne].
  - rewrite lookup_insert_eq, IH. by case_decide as E; [rewrite E|].
  - by rewrite lookup_insert_ne.
Qed.

Lemma count_at_tally l k : count_at k (tally l) = occurrences k l.
Proof. unfold count_at. rewrite lookup_tally. by case_decide as E; [rewrite E|]. Qed.

#[export] Instance occurrences_proper k : Proper ((≡ₚ) ==> (=)) (occurrences k).
Proof. intros l l' Hl. by apply Permutation_length, filter_Permutation. Qed.

#[export] Instance tally_proper : Proper ((≡ₚ) ==> (=)) tally.
Proof. intros l l' Hl. apply map_eq; intros k. by rewrite !lookup_tally, (occurrences_proper k _ _ Hl). Qed.

Lemma tally_cons k l : tally (k :: l) = incr k (tally l).
Proof. done. Qed.

Lemma release_tally k l : release k (tally (k :: l)) = tally l.
Proof.
  apply map_eq; intros j. unfold release.
  assert (Hk : occurrences k (k :: l) = S (occurrences k l))
    by (rewrite occurrences_cons; by case_decide).
  rewrite lookup_tally, Hk. case_decide as E0; [done|]; clear E0.
  assert (Hj : k ≠ j → tally (k :: l) !! j = tally l !! j).
  { intros Hne. rewrite !lookup_tally, occurrences_cons. by destruct (decide (k = j)). }
  replace (S _ - 1) with (occurrences k l) by lia.
  case_decide as E; destruct (decide (k = j)) as [->|Hne].
  - rewrite lookup_delete_eq, lookup_tally. by case_decide.
  - rewrite lookup_delete_ne by done. auto.
  - rewrite lookup_insert_eq, lookup_tally. by case_decide.
  - rewrite lookup_insert_ne by done. auto.
Qed.
End counters.

(** ** Facts on [position], [retain], [insert_at] and [swap_remove] *)
Section list_facts.
Context {A : Type}.
Implicit Types (l : list A) (p : A → bool).

Lemma position_Some p l i :
  position p l = Some i →
  ∃ x, l !! i = Some x ∧ p x = true ∧ ∀ j y, j < i → l !! j = Some y → p y = false.
Proof.
  revert i; induction l as [|x l IH]; intros i; simpl; [done|].
  destruct (p x) eqn:E; [intros [= <-]; exists x; repeat split; [done| lia]|].
  destruct (position p l) as [j|] eqn:Hj; intros [= <-].
  destruct (IH j eq_refl) as (y & Hy & Hp & Hlt).
  exists y; repeat split; try done.
  intros [|k] z Hk Hz; simpl in *; [by simplify_eq|]. apply (Hlt k z); [lia|done].
Qed.

Lemma position_lookup p l i :
  position p l = Some i → ∃ x, l !! i = Some x ∧ p x = true.
Proof. intros (x & ? & ? & _)%position_Some. eauto. Qed.

Lemma position_None p l : position p l = None ↔ Forall (λ x, p x = false) l.
Proof.
  induction l as [|x l IH]; simpl; [by split|].
  rewrite Forall_cons. destruct (p x).
  - split; [done|]. by intros [? _].
  - destruct (position p l); simpl.
    + split; [done|]. intros [_ Hl]. by apply IH in Hl.
    + split; [|done]. intros _. split; [done|]. by apply IH.
Qed.

Lemma position_unique p l i x :
  l !! i = Some x → p x = true →
  (∀ j y, l !! j = Some y → p y = true → j = i) →
  position p l = Some i.
Proof.
  intros Hx Hp Hu. destruct (position p l) as [j|] eqn:E.
  - apply position_lookup in E as (y & Hy & Hpy). f_equal. eauto.
  - apply position_None in E. rewrite Forall_lookup in E. specialize (E _ _ Hx). congruence.
Qed.

Lemma insert_at_delete l i x : l !! i = Some x → insert_at i x (delete i l) = l.
Proof.
  intros H. assert (i < length l) by (eapply lookup_lt_Some; eauto).
  unfold insert_at. rewrite delete_take_drop.
  rewrite take_app_le by (rewrite length_take; lia).
  rewrite drop_app_ge by (rewrite length_take; lia).
  rewrite length_take_le by lia. rewrite take_take, Nat.min_id, Nat.sub_diag.
  simpl. rewrite drop_0. by apply take_drop_middle.
Qed.

Lemma delete_insert_list l i x : delete i (<[i := x]> l) = delete i l.
Proof. revert i; induction l as [|y l IH]; intros [|i]; simpl; try done. f_equal. apply IH. Qed.

Lemma alter_insert_list (f : A → A) l i x : l !! i = Some x → alter f i l = <[i := f x]> l.
Proof.
  revert i; induction l as [|y l IH]; intros [|i]; simpl; intros H; try done; [by simplify_eq|].
  f_equal. by apply IH.
Qed.

Lemma elem_of_retain p l x : x ∈ retain p l ↔ p x = true ∧ x ∈ l.
Proof. unfold retain. by rewrite list_elem_of_filter. Qed.

Lemma retain_sublist p l : retain p l `sublist_of` l.
Proof. apply sublist_filter. Qed.

Lemma Forall_sublist (P : A → Prop) l k : l `sublist_of` k → Forall P k → Forall P l.
Proof. induction 1; [done| |]; intros [? ?]%Forall_cons; auto. Qed.

Lemma length_retain p l : length (retain p l) ≤ length l.
Proof. apply length_filter. Qed.

Lemma retain_all p l : Forall (λ x, p x = true) l → retain p l = l.
Proof.
  unfold retain. induction 1 as [|x l Hx _ IH]; [done|].
  rewrite filter_cons_True by done. by rewrite IH.
Qed.

Lemma retain_cons p x l : retain p (x :: l) = if p x then x :: retain p l else retain p l.
Proof. unfold retain. rewrite filter_cons. by destruct (p x). Qed.

Lemma retain_ext p q l : (∀ x, x ∈ l → p x = q x) → retain p l = retain q l.
Proof.
  unfold retain. induction l as [|x l IH]; intros H; [done|]. rewrite !filter_cons.
  rewrite IH by (intros; apply H; by right). by rewrite (H x) by left.
Qed.

Lemma count_if_app p l k : count_if p (l ++ k) = count_if p l + count_if p k.
Proof. unfold count_if, retain. by rewrite filter_app, length_app. Qed.

#[export] Instance count_if_proper p : Proper ((≡ₚ) ==> (=)) (count_if p).
Proof. intros l l' Hl. by apply Permutation_length, filter_Permutation. Qed.

Lemma count_if_cons p x l :
  count_if p (x :: l) = (if p x then S (count_if p l) else count_if p l).
Proof.
  unfold count_if, retain. rewrite filter_cons.
  destruct (p x); [by rewrite decide_True|by rewrite decide_False].
Qed.

Lemma count_if_submseteq p l k : l ⊆+ k → count_if p l ≤ count_if p k.
Proof.
  intros (m & Hm)%submseteq_Permutation.
  rewrite (count_if_proper p _ _ Hm), count_if_app. lia.
Qed.

Lemma count_if_nil p : count_if p [] = 0.
Proof. done. Qed.

Lemma count_if_delete p l i x :
  l !! i = Some x → count_if p l = (if p x then 1 else 0) + count_if p (delete i l).
Proof.
  intros Hx. rewrite (count_if_proper p _ _ (delete_Permutation _ _ _ Hx)), count_if_cons.
  by destruct (p x).
Qed.

Lemma swap_remove_perm l i x : l !! i = Some x → swap_remove i l ≡ₚ delete i l.
Proof.
  intros Hx. assert (i < length l) as Hi by (eapply lookup_lt_Some; eauto).
  unfold swap_remove. destruct (last l) as [y|] eqn:Hl.
  2:{ apply last_None in Hl as ->. done. }
  apply last_Some in Hl as [k ->]. rewrite length_app in *; simpl in *.
  replace (length k + 1 - 1) with (length k) by lia.
  case_decide.
  - replace i with (length k) by lia.
    rewrite take_app_length, delete_take_drop, take_app_length.
    rewrite drop_ge by (rewrite length_app; simpl; lia). by rewrite app_nil_r.
  - rewrite take_app_length. assert (i < length k) by lia.
    rewrite lookup_app_l in Hx by lia.
    rewrite insert_take_drop by lia.
    rewrite delete_take_drop, take_app_le, drop_app_le by lia.
    rewrite app_assoc, <- !Permutation_cons_append. by rewrite Permutation_middle.
Qed.
End list_facts.

Lemma retain_fmap {A B} (f : A → B) (p : B → bool) (l : list A) :
  retain p (f <$> l) = f <$> retain (p ∘ f) l.
Proof.
  unfold retain. induction l as [|x l IH]; [done|]. rewrite fmap_cons, !filter_cons. simpl.
  rewrite IH. by case_decide.
Qed.

Lemma retain_concat_imap {A B} (p : B → bool) (f : nat → A → list B) (l : list A) :
  concat (imap (λ i x, retain p (f i x)) l) = retain p (concat (imap f l)).
Proof.
  revert f. induction l as [|x l IH]; intros f; [done|]. rewrite !imap_cons. simpl.
  unfold retain at 3. rewrite filter_app. f_equal. apply (IH (f ∘ S)).
Qed.

Lemma retain_none {A} (f : A → bool) l : Forall (λ x, f x = false) l → retain f l = [].
Proof. induction 1 as [|x l Hx _ IH]; [done|]. by rewrite retain_cons, Hx. Qed.

Lemma count_if_none {A} (p : A → bool) l : Forall (λ x, p x = false) l → count_if p l = 0.
Proof. induction 1 as [|x l Hx _ IH]; [done|]. by rewrite count_if_cons, Hx. Qed.

Lemma count_if_fmap {A B} (f : A → B) (p : B → bool) l :
  count_if p (f <$> l) = count_if (p ∘ f) l.
Proof. unfold count_if. by rewrite retain_fmap, length_fmap. Qed.

(** Counting what only the block at index [i] can contribute. *)
Lemma count_if_concat_imap {A B} (p : B → bool) (f : nat → A → list B) (l : list A) i :
  (∀ n x y, n ≠ i → l !! n = Some x → y ∈ f n x → p y = false) →
  count_if p (concat (imap f l)) =
  match l !! i with Some x => count_if p (f i x) | None => 0 end.
Proof.
  revert f i. induction l as [|x l IH]; intros f i Hp; [done|].
  rewrite imap_cons. simpl concat. rewrite count_if_app. destruct i as [|i]; simpl.
  - rewrite (IH _ (length l)) by (intros n y z _ Hy; by apply (Hp (S n))).
    by rewrite lookup_ge_None_2 by lia.
  - rewrite (count_if_none p (f 0 x)) by (apply Forall_forall; intros y; by apply (Hp 0)).
    apply (IH (f ∘ S) i). intros n y z Hn Hy. apply (Hp (S n)); [lia|done].
Qed.

Lemma foldl_inv {A B} (Q : A → Prop) (f : A → B → A) (l : list B) a :
  Q a → (∀ a x, x ∈ l → Q a → Q (f a x)) → Q (foldl f a l).
Proof.
  revert a. induction l as [|x l IH]; intros a Ha Hf; [done|]. simpl.
  apply IH; [apply Hf; [left|done]|]. intros; apply Hf; [by right|done].
Qed.

(** ** [slice::sort_by]: a stable sort *)
Section stable_sort.
Context {A : Type} (le : A → A → bool).

(** [x] goes before the first element it may precede, so elements that compare
    equal keep their order. *)
Fixpoint sort_insert (x : A) (l : list A) : list A :=
  match l with
  | [] => [x]
  | y :: l => if le x y then x :: y :: l else y :: sort_insert x l
  end.

Definition stable_sort (l : list A) : list A := foldr sort_insert [] l.

Lemma sort_insert_perm x l : sort_insert x l ≡ₚ x :: l.
Proof.
  induction l as [|y l IH]; simpl; [done|]. destruct (le x y); [done|].
  rewrite IH. apply Permutation_swap.
Qed.

Lemma stable_sort_perm l : stable_sort l ≡ₚ l.
Proof. induction l as [|x l IH]; simpl; [done|]. by rewrite sort_insert_perm, IH. Qed.

Context (le_total : ∀ x y, le x y = true ∨ le y x = true).
Context (le_trans : ∀ x y z, le x y = true → le y z = true → le x z = true).

Lemma sort_insert_sorted x l :
  StronglySorted (λ a b, le a b = true) l →
  StronglySorted (λ a b, le a b = true) (sort_insert x l).
Proof.
  induction l as [|y l IH]; simpl; intros Hl; [by repeat constructor|].
  apply StronglySorted_cons in Hl as [Hy Hl]. destruct (le x y) eqn:E.
  - constructor; [by constructor|]. constructor; [done|].
    eapply Forall_impl; [exact Hy|]. eauto.
  - constructor; [auto|]. rewrite sort_insert_perm. constructor; [|done].
    destruct (le_total x y); congruence.
Qed.

Lemma stable_sort_sorted l : StronglySorted (λ a b, le a b = true) (stable_sort l).
Proof. induction l; simpl; [constructor|]. by apply sort_insert_sorted. Qed.

(** A sorted permutation of [l] is the sort of [l], when no two different
    elements of [l] compare both ways. *)
Lemma stable_sort_unique l k :
  (∀ x y, x ∈ l → y ∈ l → le x y = true → le y x = true → x = y) →
  StronglySorted (λ a b, le a b = true) k → k ≡ₚ l → stable_sort l = k.
Proof.
  intros Hanti Hk Hp. eapply StronglySorted_unique_strong; [|by apply stable_sort_sorted|exact Hk|].
  - intros x y Hx Hy. apply Hanti; [by rewrite <- stable_sort_perm|by rewrite <- Hp].
  - by rewrite stable_sort_perm.
Qed.
End stable_sort.

(** ** [slice::binary_search_by]

    The standard library's loop: [base] moves to the probe unless it compares
    greater.  [fuel] is the slice's length; [size] shrinks every round.  [Err]
    positions are not used by the program and are not modelled. *)
Section binary_search.
Context {A : Type} (cmp : A → comparison) (l : list A).

Fixpoint binary_search_loop (fuel base size : nat) : nat :=
  match fuel with
  | 0 => base
  | S fuel =>
      if decide (1 < size) then
        let half := size / 2 in
        let mid := base + half in
        let base' := match cmp <$> l !! mid with Some Gt => base | _ => mid end in
        binary_search_loop fuel base' (size - half)
      else base
  end.

Definition binary_search_by : option nat :=
  let base := binary_search_loop (length l) 0 (length l) in
  match cmp <$> l !! base with Some Eq => Some base | _ => None end.

(** The slice is ordered for [cmp]: once greater always greater, and what
    precedes a smaller element is smaller. *)
Definition search_ordered : Prop :=
  ∀ i j x y, i < j → l !! i = Some x → l !! j = Some y →
  (cmp x = Gt → cmp y = Gt) ∧ (cmp y = Lt → cmp x = Lt).

Context (Hord : search_ordered).

Lemma binary_search_loop_spec fuel base size :
  0 < size → size ≤ S fuel → base + size ≤ length l →
  (∀ i x, base + size ≤ i → l !! i = Some x → cmp x = Gt) →
  (base = 0 ∨ ∃ x, l !! base = Some x ∧ cmp x ≠ Gt) →
  let b := binary_search_loop fuel base size in
  b < length l ∧ (∀ i x, b < i → l !! i = Some x → cmp x = Gt) ∧
  (b = 0 ∨ ∃ x, l !! b = Some x ∧ cmp x ≠ Gt).
Proof.
  revert base size; induction fuel as [|fuel IH]; intros base size Hsz Hf Hlen Hgt Hbase;
    cbn [binary_search_loop].
  - repeat split; [lia| |done]. intros i x Hi. apply Hgt. lia.
  - destruct (decide (1 < size)) as [Hs|Hs].
    2:{ repeat split; [lia| |done]. intros i x Hi. apply Hgt. lia. }
    assert (0 < size / 2) by (apply Nat.div_str_pos; lia).
    assert (2 * (size / 2) ≤ size) by apply Nat.Div0.mul_div_le.
    destruct (lookup_lt_is_Some_2 l (base + size / 2) ltac:(lia)) as [m Hm].
    rewrite Hm. cbn [fmap option_fmap option_map]. destruct (cmp m) eqn:Ecm.
    1,2: apply IH; [lia..| |right; exists m; split; [done|congruence]];
         intros i x Hi; apply Hgt; lia.
    apply IH; [lia..| |done]. intros i x Hi Hx.
    destruct (decide (i = base + size / 2)) as [->|]; [congruence|].
    eapply (Hord (base + size / 2) i m x); [lia|done..].
Qed.

Lemma binary_search_by_Some i :
  binary_search_by = Some i → ∃ x, l !! i = Some x ∧ cmp x = Eq.
Proof.
  unfold binary_search_by.
  destruct (l !! binary_search_loop (length l) 0 (length l)) as [x|] eqn:E; simpl; [|done].
  destruct (cmp x) eqn:Ec; [|done..]. intros [= <-]. eauto.
Qed.

Lemma binary_search_by_complete i x :
  l !! i = Some x → cmp x = Eq → is_Some binary_search_by.
Proof.
  intros Hx Hc. assert (i < length l) by (eapply lookup_lt_Some; eauto).
  destruct (binary_search_loop_spec (length l) 0 (length l)) as (Hb & Hgt & Hnot);
    [lia..| |by left|].
  { intros j y Hj Hy. apply lookup_lt_Some in Hy. lia. }
  unfold binary_search_by. set (b := binary_search_loop _ _ _) in *.
  destruct (lookup_lt_is_Some_2 l b Hb) as [y Hy]. rewrite Hy; simpl.
  assert (i ≤ b) as Hib.
  { destruct (decide (b < i)) as [Hlt|]; [|lia]. specialize (Hgt i x Hlt Hx). congruence. }
  destruct (decide (i = b)) as [->|]; [assert (x = y) as -> by congruence; by rewrite Hc|].
  destruct Hnot as [->|(z & Hz & Hzc)]; [lia|]. assert (z = y) as -> by congruence.
  destruct (cmp y) eqn:Ey; [done| |done].
  destruct (Hord i b x y ltac:(lia) Hx Hy) as [_ H2]. rewrite H2 in Hc; done.
Qed.

Lemma binary_search_by_None :
  binary_search_by = None ↔ ∀ x, x ∈ l → cmp x ≠ Eq.
Proof.
  split.
  - intros HN x [i Hi]%list_elem_of_lookup Hc.
    destruct (binary_search_by_complete i x Hi Hc). congruence.
  - intros H. destruct binary_search_by as [i|] eqn:E; [|done].
    apply binary_search_by_Some in E as (x & Hx & Hc).
    destruct (H x); [|done]. apply list_elem_of_lookup. eauto.
Qed.
End binary_search.

Lemma binary_search_by_fmap {A B} (g : A → B) (cmp : B → comparison) (l : list A) :
  binary_search_by cmp (g <$> l) = binary_search_by (λ x, cmp (g x)) l.
Proof.
  unfold binary_search_by. rewrite length_fmap.
  assert (∀ i, cmp <$> (g <$> l) !! i = (λ x, cmp (g x)) <$> l !! i) as Hi.
  { intros i. rewrite list_lookup_fmap. by destruct (l !! i). }
  assert (∀ fuel b n, binary_search_loop cmp (g <$> l) fuel b n =
                      binary_search_loop (λ x, cmp (g x)) l fuel b n) as Hloop.
  { induction fuel as [|fuel IH]; intros b n; cbn [binary_search_loop]; [done|].
    case_decide; [|done]. by rewrite Hi, IH. }
  by rewrite Hloop, Hi.
Qed.
