(* ===== verification/NodeId.v ===== *)
(** * 128-bit node ids and the XOR metric

    [network/kad/dht_common.rs] ([xor16]) and [EmberNodeId] of
    [network/ember/dht/mod.rs].  A byte is a [Z] in [0, 256), an id a list of
    sixteen of them, most significant first; [be_value] is the number
    [u128::from_be_bytes] reads from it. *)
From S2P Require Import Prelude.
Local Open Scope Z_scope.

Abbreviation bytes := (list Z).
Abbreviation EmberNodeId := (list Z).

Definition is_byte (b : Z) : Prop := 0 ≤ b < 256.
Definition wf_bytes (n : nat) (l : bytes) : Prop := length l = n ∧ Forall is_byte l.
Abbreviation wf_id := (wf_bytes 16).

#[export] Instance is_byte_dec b : Decision (is_byte b) := _.
#[export] Instance wf_bytes_dec n l : Decision (wf_bytes n l) := _.

Definition xor16 (a b : bytes) : bytes := zip_with Z.lxor a b.

(** [u8::leading_zeros]. *)
Definition u8_leading_zeros (b : Z) : nat :=
  if b =? 0 then 8%nat else Z.to_nat (7 - Z.log2 b).

Definition distance (self other : EmberNodeId) : EmberNodeId := xor16 self other.

Fixpoint leading_bit_index_from (i : nat) (l : bytes) : option nat :=
  match l with
  | [] => None
  | b :: l =>
      if b =? 0 then leading_bit_index_from (S i) l
      else Some (127 - (i * 8 + u8_leading_zeros b))%nat
  end.

Definition leading_bit_index (l : EmberNodeId) : option nat := leading_bit_index_from 0 l.

Definition bucket_index (self other : EmberNodeId) : option nat :=
  leading_bit_index (distance self other).

(** [<[u8; N] as Ord>::cmp]: lexicographic. *)
Fixpoint bytes_cmp (a b : bytes) : comparison :=
  match a, b with
  | [], [] => Eq
  | [], _ => Lt
  | _, [] => Gt
  | x :: a, y :: b => match Z.compare x y with Eq => bytes_cmp a b | c => c end
  end.
Definition bytes_le (a b : bytes) : bool :=
  match bytes_cmp a b with Gt => false | _ => true end.

(** [u128::from_be_bytes]. *)
Fixpoint be_value (l : bytes) : Z :=
  match l with
  | [] => 0
  | b :: l => b * 256 ^ Z.of_nat (length l) + be_value l
  end.

(** ** The order on bytes *)
Lemma bytes_cmp_eq a b : bytes_cmp a b = Eq ↔ a = b.
Proof.
  revert b; induction a as [|x a IH]; intros [|y b]; simpl; try done.
  destruct (Z.compare_spec x y) as [->|Hlt|Hlt].
  - rewrite IH. split; [by intros ->|by intros [= ->]].
  - split; [done|intros [= -> ?]; lia].
  - split; [done|intros [= -> ?]; lia].
Qed.

Lemma bytes_cmp_antisym a b : bytes_cmp b a = CompOpp (bytes_cmp a b).
Proof.
  revert b; induction a as [|x a IH]; intros [|y b]; simpl; try done.
  rewrite Z.compare_antisym. destruct (x ?= y); simpl; auto.
Qed.

Lemma bytes_le_total a b : bytes_le a b = true ∨ bytes_le b a = true.
Proof. unfold bytes_le. rewrite (bytes_cmp_antisym a b). destruct (bytes_cmp a b); auto. Qed.

Lemma bytes_le_antisym a b : bytes_le a b = true → bytes_le b a = true → a = b.
Proof.
  unfold bytes_le. rewrite (bytes_cmp_antisym a b).
  destruct (bytes_cmp a b) eqn:E; simpl; intros; try done. by apply bytes_cmp_eq.
Qed.

Lemma bytes_le_trans a b c : bytes_le a b = true → bytes_le b c = true → bytes_le a c = true.
Proof.
  unfold bytes_le. revert b c.
  induction a as [|x a IH]; intros [|y b] [|z c]; simpl; try done.
  destruct (Z.compare_spec x y), (Z.compare_spec y z), (Z.compare_spec x z);
    subst; try done; try lia. apply IH.
Qed.

(** ** The number an id stands for *)
Lemma wf_bytes_cons n x l : wf_bytes (S n) (x :: l) ↔ is_byte x ∧ wf_bytes n l.
Proof. unfold wf_bytes. rewrite Forall_cons. simpl. split; [intros (?&?&?)|intros (?&?&?)]; auto. Qed.

Lemma wf_bytes_inv n l : wf_bytes (S n) l → ∃ x k, l = x :: k ∧ is_byte x ∧ wf_bytes n k.
Proof. destruct l as [|x k]; [by intros []|]. intros [??]%wf_bytes_cons. eauto. Qed.

Lemma pow256 n : 256 ^ Z.of_nat n = 2 ^ (8 * Z.of_nat n).
Proof. rewrite Z.pow_mul_r by lia. done. Qed.

Lemma be_value_range n l : wf_bytes n l → 0 ≤ be_value l < 256 ^ Z.of_nat n.
Proof.
  revert l; induction n as [|n IH]; intros l.
  - intros [Hl _]. apply nil_length_inv in Hl as ->. simpl. lia.
  - intros (x & k & -> & Hx & Hk)%wf_bytes_inv. specialize (IH k Hk).
    destruct Hk as [Hk _]. unfold is_byte in Hx. simpl. rewrite Hk.
    rewrite Nat2Z.inj_succ, Z.pow_succ_r by lia. nia.
Qed.

(** Lexicographic comparison of ids is comparison of the numbers they stand for. *)
Lemma bytes_cmp_be_value n a b :
  wf_bytes n a → wf_bytes n b → bytes_cmp a b = (be_value a ?= be_value b).
Proof.
  revert a b; induction n as [|n IH]; intros a b.
  - intros [Ha _] [Hb _]. apply nil_length_inv in Ha as ->. by apply nil_length_inv in Hb as ->.
  - intros (x & k & -> & Hx & Hk)%wf_bytes_inv (y & m & -> & Hy & Hm)%wf_bytes_inv.
    pose proof (be_value_range _ _ Hk). pose proof (be_value_range _ _ Hm).
    simpl. destruct Hk as [Hkl Hkf], Hm as [Hml Hmf]. rewrite Hkl, Hml.
    destruct (Z.compare_spec x y) as [->|Hlt|Hlt]; symmetry.
    + rewrite IH by done. by rewrite Z.add_compare_mono_l.
    + apply Z.compare_lt_iff. nia.
    + apply Z.compare_gt_iff. nia.
Qed.

Lemma be_value_inj n a b : wf_bytes n a → wf_bytes n b → be_value a = be_value b → a = b.
Proof.
  intros Ha Hb E. apply bytes_cmp_eq. rewrite (bytes_cmp_be_value n), E by done.
  apply Z.compare_refl.
Qed.

Lemma byte_testbit_high x i : is_byte x → 8 ≤ i → Z.testbit x i = false.
Proof.
  intros Hx Hi. destruct (decide (x = 0)) as [->|]; [apply Z.bits_0|].
  apply Z.bits_above_log2; [unfold is_byte in Hx; lia|].
  apply (Z.lt_le_trans _ 8); [|done]. apply Z.log2_lt_pow2; unfold is_byte in Hx; lia.
Qed.

Lemma testbit_above x i n : 0 ≤ x < 2 ^ n → 0 ≤ n ≤ i → Z.testbit x i = false.
Proof.
  intros Hx Hi. destruct (decide (x = 0)) as [->|]; [apply Z.bits_0|].
  apply Z.bits_above_log2; [lia|]. apply (Z.lt_le_trans _ n); [|lia].
  apply Z.log2_lt_pow2; lia.
Qed.

Lemma byte_lxor x y : is_byte x → is_byte y → is_byte (Z.lxor x y).
Proof.
  unfold is_byte. intros Hx Hy. split; [apply Z.lxor_nonneg; lia|].
  destruct (decide (Z.lxor x y = 0)) as [->|]; [lia|].
  assert (0 ≤ Z.lxor x y) by (apply Z.lxor_nonneg; lia).
  change 256 with (2 ^ 8). apply Z.log2_lt_pow2; [lia|].
  pose proof (Z.log2_lxor x y ltac:(lia) ltac:(lia)).
  assert (∀ z, 0 ≤ z < 256 → Z.log2 z ≤ 7).
  { intros z Hz. destruct (decide (z = 0)) as [->|]; [done|].
    enough (Z.log2 z < 8) by lia. apply Z.log2_lt_pow2; lia. }
  pose proof (H1 x Hx). pose proof (H1 y Hy). lia.
Qed.

Lemma xor16_wf n a b : wf_bytes n a → wf_bytes n b → wf_bytes n (xor16 a b).
Proof.
  unfold xor16. revert a b; induction n as [|n IH]; intros a b.
  - intros [Ha _] _. apply nil_length_inv in Ha as ->. by split; [|constructor].
  - intros (x & k & -> & Hx & Hk)%wf_bytes_inv (y & m & -> & Hy & Hm)%wf_bytes_inv.
    simpl. apply wf_bytes_cons. auto using byte_lxor.
Qed.

(** ** The metric *)
Lemma be_value_cons_bits x l i :
  is_byte x → Forall is_byte l → 0 ≤ i →
  Z.testbit (be_value (x :: l)) i =
  (if decide (i < 8 * Z.of_nat (length l)) then Z.testbit (be_value l) i
   else Z.testbit x (i - 8 * Z.of_nat (length l))).
Proof.
  intros Hx Hl Hi. simpl. rewrite pow256. set (n := 8 * Z.of_nat (length l)).
  pose proof (be_value_range _ _ (conj eq_refl Hl)) as Hr. rewrite pow256 in Hr. fold n in Hr.
  assert (0 ≤ n) by lia.
  assert (Hland : Z.land (x * 2 ^ n) (be_value l) = 0).
  { apply Z.bits_inj'; intros j Hj. rewrite Z.land_spec, Z.bits_0.
    destruct (decide (j < n)).
    - by rewrite Z.mul_pow2_bits_low.
    - by rewrite (testbit_above (be_value l) j n), andb_false_r by lia. }
  rewrite Z.add_nocarry_lxor by done. rewrite Z.lxor_spec. case_decide.
  - rewrite Z.mul_pow2_bits_low by done. by rewrite xorb_false_l.
  - rewrite (testbit_above (be_value l) i n) by lia. rewrite xorb_false_r.
    replace i with (n + (i - n)) at 1 by lia. by rewrite Z.mul_pow2_bits_add by lia.
Qed.

Lemma be_value_xor16 n a b :
  wf_bytes n a → wf_bytes n b → be_value (xor16 a b) = Z.lxor (be_value a) (be_value b).
Proof.
  revert a b; induction n as [|n IH]; intros a b.
  - intros [Ha _] [Hb _]. apply nil_length_inv in Ha as ->. by apply nil_length_inv in Hb as ->.
  - intros (x & k & -> & Hx & Hk)%wf_bytes_inv (y & m & -> & Hy & Hm)%wf_bytes_inv.
    pose proof (xor16_wf _ _ _ Hk Hm) as [Hxl Hxf]. pose proof (IH _ _ Hk Hm) as E.
    destruct Hk as [Hkl Hkf], Hm as [Hml Hmf].
    apply Z.bits_inj'; intros i Hi. rewrite Z.lxor_spec.
    change (xor16 (x :: k) (y :: m)) with (Z.lxor x y :: xor16 k m).
    rewrite !be_value_cons_bits by auto using byte_lxor.
    rewrite Hxl, Hkl, Hml, E. case_decide; by rewrite Z.lxor_spec.
Qed.

Lemma be_value_distance a b :
  wf_id a → wf_id b → be_value (distance a b) = Z.lxor (be_value a) (be_value b).
Proof. apply be_value_xor16. Qed.

Lemma distance_comm a b : distance a b = distance b a.
Proof.
  unfold distance, xor16. revert b.
  induction a as [|x a IH]; intros [|y b]; simpl; try done. by rewrite Z.lxor_comm, IH.
Qed.

Lemma distance_self_inverse n a b :
  wf_bytes n a → wf_bytes n b → distance (distance a b) b = a.
Proof.
  unfold distance, xor16. revert a b; induction n as [|n IH]; intros a b.
  - intros [Ha _] [Hb _]. apply nil_length_inv in Ha as ->. by apply nil_length_inv in Hb as ->.
  - intros (x & k & -> & Hx & Hk)%wf_bytes_inv (y & m & -> & Hy & Hm)%wf_bytes_inv.
    simpl. by rewrite Z.lxor_assoc, Z.lxor_nilpotent, Z.lxor_0_r, IH.
Qed.

Lemma distance_inj_r a b c :
  wf_id a → wf_id b → wf_id c → distance a b = distance a c → b = c.
Proof.
  intros Ha Hb Hc E. rewrite !(distance_comm a) in E.
  rewrite <- (distance_self_inverse 16 b a), E by done. by apply (distance_self_inverse 16).
Qed.

Lemma leading_bit_index_from_spec n i l k :
  wf_bytes n l → (i + n = 16)%nat →
  leading_bit_index_from i l = Some k ↔
  2 ^ Z.of_nat k ≤ be_value l < 2 ^ (Z.of_nat k + 1).
Proof.
  revert i l; induction n as [|n IH]; intros i l.
  - intros [Hl _] _. apply nil_length_inv in Hl as ->. simpl.
    split; [done|]. intros. assert (0 < 2 ^ Z.of_nat k) by (apply Z.pow_pos_nonneg; lia). lia.
  - intros (x & m & -> & Hx & Hm)%wf_bytes_inv Hi. simpl.
    pose proof (be_value_range _ _ Hm) as Hr. rewrite pow256 in Hr.
    destruct Hm as [Hml Hmf]. rewrite Hml, pow256.
    destruct (Z.eqb_spec x 0) as [->|Hx0].
    + rewrite Z.mul_0_l, Z.add_0_l. apply IH; [done|lia].
    + unfold u8_leading_zeros. rewrite (proj2 (Z.eqb_neq x 0)) by done.
      unfold is_byte in Hx. pose proof (Z.log2_spec x ltac:(lia)) as Hlog.
      assert (0 ≤ Z.log2 x) by apply Z.log2_nonneg.
      assert (Z.log2 x < 8) by (apply Z.log2_lt_pow2; lia).
      set (e := Z.log2 x) in *. set (N := 8 * Z.of_nat n) in *.
      assert (0 ≤ N) by lia.
      assert (Hv : 2 ^ (e + N) ≤ x * 2 ^ N + be_value m < 2 ^ (e + N + 1)).
      { replace (e + N + 1) with (Z.succ e + N) by lia. rewrite !Z.pow_add_r by lia. nia. }
      assert (Hk0 : (127 - (i * 8 + Z.to_nat (7 - e)))%nat = Z.to_nat (e + N)) by lia.
      rewrite Hk0. split.
      * intros [= <-]. rewrite Z2Nat.id by lia. done.
      * intros Hk. f_equal. apply Nat2Z.inj. rewrite Z2Nat.id by lia.
        assert (∀ p q, 0 ≤ p → 0 ≤ q → 2 ^ p < 2 ^ (q + 1) → p ≤ q) as Hmono.
        { intros p q Hp Hq Hpq. apply Z.pow_lt_mono_r_iff in Hpq; lia. }
        apply Z.le_antisymm; apply Hmono; lia.
Qed.

Lemma leading_bit_index_lt l k : leading_bit_index l = Some k → (k < 128)%nat.
Proof.
  enough (∀ i, leading_bit_index_from i l = Some k → (k < 128)%nat) as H by apply H.
  induction l as [|b l IH]; intros i; cbn [leading_bit_index_from]; [done|].
  destruct (b =? 0); [apply IH|]. intros Hk. injection Hk as <-. lia.
Qed.

Lemma bucket_index_lt a b k : bucket_index a b = Some k → (k < 128)%nat.
Proof. apply leading_bit_index_lt. Qed.

Lemma bucket_index_self a : bucket_index a a = None.
Proof.
  enough (∀ i, leading_bit_index_from i (zip_with Z.lxor a a) = None) as H by apply H.
  induction a as [|x a IH]; intros i; cbn [leading_bit_index_from zip_with]; [done|].
  by rewrite Z.lxor_nilpotent, Z.eqb_refl.
Qed.

(** ** Properties *)

(** for well-formed ids, the bucket index of another id is the position of
    the highest bit in which the two differ: [bucket_index a b = Some k] exactly
    when the XOR of the two 128-bit numbers lies in [2^k, 2^(k+1)), and there is
    no bucket ([None]) exactly when the ids are equal. *)
Theorem bucket_index_spec a b :
  wf_id a → wf_id b →
  (∀ k, bucket_index a b = Some k ↔
        2 ^ Z.of_nat k ≤ Z.lxor (be_value a) (be_value b) < 2 ^ (Z.of_nat k + 1)) ∧
  (bucket_index a b = None ↔ a = b).
Proof.
  intros Ha Hb. pose proof (be_value_distance a b Ha Hb) as E.
  pose proof (xor16_wf 16 a b Ha Hb) as Hd. rewrite <- E.
  assert (Hk : ∀ k, bucket_index a b = Some k ↔
    2 ^ Z.of_nat k ≤ be_value (distance a b) < 2 ^ (Z.of_nat k + 1)).
  { intros k. by apply (leading_bit_index_from_spec 16). }
  split; [exact Hk|]. split; [|intros ->; apply bucket_index_self].
  intros HN. apply (be_value_inj 16); [done..|].
  pose proof (be_value_range _ _ Hd) as Hr. fold (distance a b) in Hr.
  destruct (decide (be_value (distance a b) = 0)) as [H0|H0].
  - rewrite E in H0. by apply Z.lxor_eq.
  - exfalso. pose proof (Z.log2_spec (be_value (distance a b)) ltac:(lia)) as Hlog.
    rewrite <- Z.add_1_r in Hlog.
    pose proof (Z.log2_nonneg (be_value (distance a b))).
    rewrite <- (Z2Nat.id (Z.log2 _)) in Hlog by done. apply Hk in Hlog. congruence.
Qed.

Lemma bucket_index_spec_witness :
  let a := repeat 0 16 in let b := repeat 0 15 ++ [5] in
  bucket_index a b = Some 2%nat ∧ 2 ^ 2 ≤ Z.lxor (be_value a) (be_value b) < 2 ^ 3.
Proof.
  split; [reflexivity|].
  destruct (bucket_index_spec (repeat 0 16) (repeat 0 15 ++ [5])) as [H _];
    [compute_decision..|]. by apply (H 2%nat).
Defined.

(** the XOR distance is a metric on ids and is unidirectional: it is zero
    exactly between equal ids, symmetric, satisfies the triangle inequality on
    the numbers it denotes, and for every id and every distance exactly one id
    lies at that distance.  Comparing two distances byte by byte, as every sort
    of contacts does, compares those numbers. *)
Theorem xor_metric a b c :
  wf_id a → wf_id b → wf_id c →
  (be_value (distance a b) = 0 ↔ a = b) ∧
  distance a b = distance b a ∧
  be_value (distance a c) ≤ be_value (distance a b) + be_value (distance b c) ∧
  distance a (distance a b) = b ∧
  bytes_cmp (distance a b) (distance a c) =
    (be_value (distance a b) ?= be_value (distance a c)).
Proof.
  intros Ha Hb Hc. rewrite !be_value_distance by done. repeat split.
  - intros H%Z.lxor_eq. by apply (be_value_inj 16).
  - intros ->. apply Z.lxor_nilpotent.
  - apply distance_comm.
  - pose proof (Z.add_lxor_2land (Z.lxor (be_value a) (be_value b)) (Z.lxor (be_value b) (be_value c)))
      as Hadd.
    rewrite <- Z.lxor_assoc, (Z.lxor_assoc (be_value a)), Z.lxor_nilpotent, Z.lxor_0_r in Hadd.
    assert (∀ x y, wf_id x → wf_id y → 0 ≤ Z.lxor (be_value x) (be_value y)) as Hnn.
    { intros x y Hx%be_value_range Hy%be_value_range. apply Z.lxor_nonneg. lia. }
    assert (0 ≤ Z.land (Z.lxor (be_value a) (be_value b)) (Z.lxor (be_value b) (be_value c))).
    { apply Z.land_nonneg. left. auto. }
    lia.
  - rewrite (distance_comm a b), (distance_comm a). by apply (distance_self_inverse 16).
  - rewrite (bytes_cmp_be_value 16) by (by apply xor16_wf). by rewrite !be_value_distance.
Qed.

Lemma xor_metric_witness :
  be_value (distance (repeat 1 16) (repeat 7 16)) ≤
  be_value (distance (repeat 1 16) (repeat 2 16)) + be_value (distance (repeat 2 16) (repeat 7 16)).
Proof.
  apply (xor_metric (repeat 1 16) (repeat 2 16) (repeat 7 16)); compute_decision.
Defined.
