(* ===== verification/Addr.v ===== *)
(** * Addresses and the special-use classification

    [std::net] addresses, the IPv4 classifiers of [security/mod.rs],
    [subnet_key_of] of [network/ember/dht/mod.rs], [is_valid_contact_ip] of
    [network/kad/ip_filter.rs] and [is_default_bootstrap_ip] of
    [network/kad/bootstrap.rs].  Octets, segments and ports are [Z]. *)
From S2P Require Import Prelude.
Local Open Scope Z_scope.

Record Ipv4Addr := mkV4 { o0 : Z; o1 : Z; o2 : Z; o3 : Z }.

(** [segments : [u16; 8]]. *)
Record Ipv6Addr := mkV6 { segments : list Z }.

Inductive IpAddr :=
| V4 (a : Ipv4Addr)
| V6 (a : Ipv6Addr).

Inductive SocketAddr :=
| SocketAddrV4 (a : Ipv4Addr) (port : Z)
| SocketAddrV6 (a : Ipv6Addr) (port flowinfo scope_id : Z).

#[export] Instance Ipv4Addr_eq_dec : EqDecision Ipv4Addr.
Proof. solve_decision. Defined.
#[export] Instance Ipv6Addr_eq_dec : EqDecision Ipv6Addr.
Proof. solve_decision. Defined.
#[export] Instance IpAddr_eq_dec : EqDecision IpAddr.
Proof. solve_decision. Defined.
#[export] Instance SocketAddr_eq_dec : EqDecision SocketAddr.
Proof. solve_decision. Defined.

#[export] Program Instance Ipv4Addr_countable : Countable Ipv4Addr :=
  inj_countable' (λ a, (o0 a, o1 a, o2 a, o3 a)) (λ '(a, b, c, d), mkV4 a b c d) _.
Next Obligation. by intros []. Qed.
#[export] Program Instance Ipv6Addr_countable : Countable Ipv6Addr :=
  inj_countable' segments mkV6 _.
Next Obligation. by intros []. Qed.
#[export] Program Instance IpAddr_countable : Countable IpAddr :=
  inj_countable' (λ a, match a with V4 a => inl a | V6 a => inr a end)
    (λ s, match s with inl a => V4 a | inr a => V6 a end) _.
Next Obligation. by intros []. Qed.
#[export] Program Instance SocketAddr_countable : Countable SocketAddr :=
  inj_countable'
    (λ a, match a with
          | SocketAddrV4 a p => inl (a, p)
          | SocketAddrV6 a p f s => inr (a, p, f, s)
          end)
    (λ s, match s with
          | inl (a, p) => SocketAddrV4 a p
          | inr (a, p, f, s) => SocketAddrV6 a p f s
          end) _.
Next Obligation. by intros []. Qed.

Definition addr_ip (a : SocketAddr) : IpAddr :=
  match a with SocketAddrV4 a _ => V4 a | SocketAddrV6 a _ _ _ => V6 a end.
Definition addr_port (a : SocketAddr) : Z :=
  match a with SocketAddrV4 _ p => p | SocketAddrV6 _ p _ _ => p end.

(** [u32::from(Ipv4Addr)]. *)
Definition ip_u32 (a : Ipv4Addr) : Z :=
  o0 a * 2 ^ 24 + o1 a * 2 ^ 16 + o2 a * 2 ^ 8 + o3 a.

Definition wf_v4 (a : Ipv4Addr) : Prop :=
  0 ≤ o0 a < 256 ∧ 0 ≤ o1 a < 256 ∧ 0 ≤ o2 a < 256 ∧ 0 ≤ o3 a < 256.

(** ** [std::net::Ipv4Addr] predicates *)
Definition is_loopback (a : Ipv4Addr) : bool := o0 a =? 127.
Definition is_private (a : Ipv4Addr) : bool :=
  (o0 a =? 10) || ((o0 a =? 172) && (16 <=? o1 a) && (o1 a <=? 31))
  || ((o0 a =? 192) && (o1 a =? 168)).
Definition is_link_local (a : Ipv4Addr) : bool := (o0 a =? 169) && (o1 a =? 254).
Definition is_unspecified (a : Ipv4Addr) : bool :=
  (o0 a =? 0) && (o1 a =? 0) && (o2 a =? 0) && (o3 a =? 0).
Definition is_broadcast (a : Ipv4Addr) : bool :=
  (o0 a =? 255) && (o1 a =? 255) && (o2 a =? 255) && (o3 a =? 255).
Definition is_multicast (a : Ipv4Addr) : bool := (224 <=? o0 a) && (o0 a <=? 239).

(** ** [security/mod.rs] *)
Definition is_this_network_v4 (a : Ipv4Addr) : bool := o0 a =? 0.
Definition is_reserved_future_v4 (a : Ipv4Addr) : bool := 240 <=? o0 a.
Definition is_shared_address (a : Ipv4Addr) : bool :=
  (o0 a =? 100) && (Z.land (o1 a) 192 =? 64).
Definition is_documentation_v4 (a : Ipv4Addr) : bool :=
  ((o0 a =? 192) && (o1 a =? 0) && (o2 a =? 2))
  || ((o0 a =? 198) && (o1 a =? 51) && (o2 a =? 100))
  || ((o0 a =? 203) && (o1 a =? 0) && (o2 a =? 113)).
Definition is_benchmarking_v4 (a : Ipv4Addr) : bool :=
  (o0 a =? 198) && (Z.land (o1 a) 254 =? 18).
Definition is_protocol_assignment_v4 (a : Ipv4Addr) : bool :=
  (o0 a =? 192) && (o1 a =? 0) && (o2 a =? 0).
Definition is_6to4_relay_anycast_v4 (a : Ipv4Addr) : bool :=
  (o0 a =? 192) && (o1 a =? 88) && (o2 a =? 99).

Definition is_special_use_v4 (a : Ipv4Addr) : bool :=
  is_loopback a || is_private a || is_link_local a || is_unspecified a
  || is_broadcast a || is_multicast a || is_this_network_v4 a
  || is_reserved_future_v4 a || is_shared_address a || is_documentation_v4 a
  || is_benchmarking_v4 a || is_protocol_assignment_v4 a
  || is_6to4_relay_anycast_v4 a.

Definition is_lan_or_cgnat_v4 (a : Ipv4Addr) : bool :=
  is_private a || is_link_local a || is_shared_address a.

Definition is_bogus_v4 (a : Ipv4Addr) : bool :=
  is_special_use_v4 a && negb (is_lan_or_cgnat_v4 a).

(** ** [network/kad/ip_filter.rs] and [network/kad/bootstrap.rs] *)
Definition is_valid_contact_ip (ip : Ipv4Addr) (block_private : bool) : bool :=
  if is_bogus_v4 ip then false
  else if block_private && is_lan_or_cgnat_v4 ip then false
  else true.

Definition is_default_bootstrap_ip (ip : Ipv4Addr) : bool :=
  bool_decide (ip ∈ [mkV4 212 63 206 35; mkV4 82 141 38 69; mkV4 212 63 206 36;
                     mkV4 94 23 196 180; mkV4 95 217 44 50]).

(** ** [subnet_key_of] of [network/ember/dht/mod.rs]: a /24 or a /48 as a [u64] *)
Definition subnet_key_of (ip : IpAddr) : Z :=
  match ip with
  | V4 a => ip_u32 (mkV4 (o0 a) (o1 a) (o2 a) 0)
  | V6 a =>
      let s i := nth i (segments a) 0 in
      Z.lor (Z.lor (Z.shiftl (s 0%nat) 32) (Z.shiftl (s 1%nat) 16)) (s 2%nat)
  end.

(** ** Facts *)

(** Unblocking private space only ever admits more addresses. *)
Lemma is_valid_contact_ip_mono ip b :
  is_valid_contact_ip ip true = true → is_valid_contact_ip ip b = true.
Proof.
  unfold is_valid_contact_ip. destruct (is_bogus_v4 ip); [done|].
  destruct (is_lan_or_cgnat_v4 ip), b; done.
Qed.

(** With the private block on, exactly the special-use space is refused. *)
Lemma is_valid_contact_ip_special ip :
  is_valid_contact_ip ip true = negb (is_special_use_v4 ip).
Proof.
  unfold is_valid_contact_ip, is_bogus_v4.
  assert (is_lan_or_cgnat_v4 ip = true → is_special_use_v4 ip = true) as H.
  { unfold is_lan_or_cgnat_v4, is_special_use_v4.
    rewrite !orb_true_iff. tauto. }
  destruct (is_special_use_v4 ip), (is_lan_or_cgnat_v4 ip); simpl; try done.
  by specialize (H eq_refl).
Qed.

Lemma ip_u32_range a : wf_v4 a → 0 ≤ ip_u32 a < 2 ^ 32.
Proof. unfold wf_v4, ip_u32. lia. Qed.
