(* ===== verification/IpFilter.v ===== *)
(** * The user's IP range filter

    [IpFilter] and [IpFilterSnapshot] of [network/kad/ip_filter.rs] and the
    [IpAdmissionGate] of [network/kad/dht_common.rs].

    A range list is kept sorted and non-overlapping and searched by bisection.
    The loaders' file reading and line parsing are not modelled: [commit_ranges]
    takes the parsed rows.  Hit counters are [u64] atomics, which wrap. *)
From stdpp Require Import strings.
From S2P Require Import Prelude Addr.
Local Open Scope Z_scope.

Definition u32_max : Z := 4294967295.
Definition u32_saturating_add (a b : Z) : Z := clamp 0 u32_max (a + b).
Definition u64_wrapping_add (a b : Z) : Z := (a + b) mod 2 ^ 64.

Record IpRange := mkRange {
  start : Z;
  end_ : Z;
  description : string;
  access_level : Z;
  hits : Z;
}.

(** [IpRange::new]. *)
Definition IpRange_new (s e : Z) (d : string) : IpRange := mkRange s e d 0 0.
Definition with_hits (r : IpRange) (h : Z) : IpRange :=
  mkRange (start r) (end_ r) (description r) (access_level r) h.

(** [IpRange::add_hits]. *)
Definition add_hits (r : IpRange) (n : Z) : IpRange :=
  if 0 <? n then with_hits r (u64_wrapping_add (hits r) n) else r.

Record IpFilter := mkFilter {
  blocked_ranges : list IpRange;
  permit_ranges : list IpRange;
  enabled : bool;
  block_private : bool;
  ranges_ready : bool;
  loaded_from_disk : bool;
  total_range_hits : Z;
  total_special_hits : Z;
}.

Definition IpFilter_new (en bp : bool) : IpFilter :=
  mkFilter [] [] en bp (negb en) false 0 0.

Definition set_blocked (f : IpFilter) (l : list IpRange) : IpFilter :=
  mkFilter l (permit_ranges f) (enabled f) (block_private f) (ranges_ready f)
    (loaded_from_disk f) (total_range_hits f) (total_special_hits f).
Definition set_permits (f : IpFilter) (l : list IpRange) : IpFilter :=
  mkFilter (blocked_ranges f) l (enabled f) (block_private f) (ranges_ready f)
    (loaded_from_disk f) (total_range_hits f) (total_special_hits f).
Definition set_ready (f : IpFilter) (b : bool) : IpFilter :=
  mkFilter (blocked_ranges f) (permit_ranges f) (enabled f) (block_private f) b
    (loaded_from_disk f) (total_range_hits f) (total_special_hits f).
Definition set_loaded (f : IpFilter) : IpFilter :=
  mkFilter (blocked_ranges f) (permit_ranges f) (enabled f) (block_private f)
    (ranges_ready f) true (total_range_hits f) (total_special_hits f).
Definition set_totals (f : IpFilter) (r s : Z) : IpFilter :=
  mkFilter (blocked_ranges f) (permit_ranges f) (enabled f) (block_private f)
    (ranges_ready f) (loaded_from_disk f) r s.

Definition mark_ranges_ready (f : IpFilter) : IpFilter := set_ready f true.
Definition mark_ranges_not_ready (f : IpFilter) : IpFilter := set_ready f false.
Definition mark_loaded_from_disk (f : IpFilter) : IpFilter := set_loaded f.

(** [sort_by_key(|r| r.start)]. *)
Definition sort_ranges (l : list IpRange) : list IpRange :=
  stable_sort (λ a b, start a <=? start b) l.

(** The loop of [merge_overlapping]: [last] is [merged.last_mut()]. *)
Definition absorb (last r : IpRange) : IpRange :=
  add_hits
    (mkRange (start last) (Z.max (end_ last) (end_ r))
       (if (bool_decide (description last = ""%string)
            && negb (bool_decide (description r = ""%string)))
        then description r else description last)
       (access_level last) (hits last))
    (hits r).
Fixpoint merge_from (last : IpRange) (l : list IpRange) : list IpRange :=
  match l with
  | [] => [last]
  | r :: l =>
      if start r <=? u32_saturating_add (end_ last) 1
      then merge_from (absorb last r) l
      else last :: merge_from r l
  end.

Definition merge_overlapping (f : IpFilter) : IpFilter :=
  match blocked_ranges f with
  | [] => f
  | [_] => f
  | r :: l => set_blocked f (merge_from r l)
  end.

(** [saved_hits.get(&(r.start, r.end))]: keys of [blocked_ranges] may repeat,
    and the last one inserted wins. *)
Definition saved_hits (l : list IpRange) : gmap (Z * Z) Z :=
  foldl (λ m r, if 0 <? hits r then <[(start r, end_ r) := hits r]> m else m) ∅ l.

Definition commit_ranges (f : IpFilter) (new_ranges : list IpRange) : IpFilter * nat :=
  let saved := saved_hits (blocked_ranges f) in
  let f := merge_overlapping (set_blocked f (sort_ranges new_ranges)) in
  let f := set_blocked f
    ((λ r, match saved !! (start r, end_ r) with
           | Some h => with_hits r h
           | None => r
           end) <$> blocked_ranges f) in
  let f := set_loaded (set_ready f true) in
  (f, length (blocked_ranges f)).

Definition replace_permit_ranges (f : IpFilter) (permits : list IpRange) : IpFilter :=
  set_permits f (sort_ranges permits).

(** The three-way comparison the bisections use. *)
Definition range_cmp (ip : Z) (s e : Z) : comparison :=
  if ip <? s then Gt else if e <? ip then Lt else Eq.
Definition find_range (ip : Z) (l : list IpRange) : option nat :=
  binary_search_by (λ r, range_cmp ip (start r) (end_ r)) l.

(** [is_blocked] and [is_blocked_readonly] (the same body, through atomics). *)
Definition is_blocked (f : IpFilter) (ip : Ipv4Addr) : bool * IpFilter :=
  let special := set_totals f (total_range_hits f) (u64_wrapping_add (total_special_hits f) 1) in
  let ranged f := set_totals f (u64_wrapping_add (total_range_hits f) 1) (total_special_hits f) in
  if is_bogus_v4 ip then (true, special)
  else if block_private f && is_lan_or_cgnat_v4 ip then (true, special)
  else if enabled f && negb (ranges_ready f) then (true, ranged f)
  else if enabled f then
    match find_range (ip_u32 ip) (blocked_ranges f) with
    | Some i => (true, ranged (set_blocked f (alter (λ r, add_hits r 1) i (blocked_ranges f))))
    | None => (false, f)
    end
  else (false, f).

Definition is_blocked_readonly_for_kad (f : IpFilter) (ip : Ipv4Addr) : bool * IpFilter :=
  let special := set_totals f (total_range_hits f) (u64_wrapping_add (total_special_hits f) 1) in
  let ranged f := set_totals f (u64_wrapping_add (total_range_hits f) 1) (total_special_hits f) in
  if is_bogus_v4 ip then (true, special)
  else if block_private f && is_lan_or_cgnat_v4 ip then (true, special)
  else if enabled f && negb (ranges_ready f) then (negb (is_default_bootstrap_ip ip), f)
  else if enabled f && ranges_ready f then
    match find_range (ip_u32 ip) (blocked_ranges f) with
    | Some i => (true, ranged (set_blocked f (alter (λ r, add_hits r 1) i (blocked_ranges f))))
    | None => (false, f)
    end
  else (false, f).

Definition set_enabled (f : IpFilter) (en : bool) : IpFilter :=
  let f := mkFilter (blocked_ranges f) (permit_ranges f) en (block_private f)
             (ranges_ready f) (loaded_from_disk f) (total_range_hits f) (total_special_hits f) in
  if negb en then set_ready f true else set_ready f false.

Definition set_block_private (f : IpFilter) (bp : bool) : IpFilter :=
  mkFilter (blocked_ranges f) (permit_ranges f) (enabled f) bp (ranges_ready f)
    (loaded_from_disk f) (total_range_hits f) (total_special_hits f).

(** [Vec::dedup_by] with [same]: drops an element equal to the last one kept. *)
Fixpoint dedup_from {A} (same : A → A → bool) (kept : A) (l : list A) : list A :=
  match l with
  | [] => [kept]
  | x :: l => if same x kept then dedup_from same kept l else kept :: dedup_from same x l
  end.
Definition dedup_by {A} (same : A → A → bool) (l : list A) : list A :=
  match l with [] => [] | x :: l => dedup_from same x l end.

Definition merge_ranges_from (f other : IpFilter) : IpFilter :=
  let f :=
    if bool_decide (blocked_ranges other = []) then f
    else merge_overlapping
           (set_blocked f (sort_ranges (blocked_ranges f ++ blocked_ranges other))) in
  if bool_decide (permit_ranges other = []) then f
  else set_permits f
         (dedup_by (λ a b, (start a =? start b) && (end_ a =? end_ b))
            (sort_ranges (permit_ranges f ++ permit_ranges other))).

Definition add_range (f : IpFilter) (s e : Ipv4Addr) (d : string) : bool * IpFilter :=
  let s := ip_u32 s in
  let e := ip_u32 e in
  if e <? s then (false, f)
  else (true, merge_overlapping
                (set_blocked f (sort_ranges (blocked_ranges f ++ [IpRange_new s e d])))).

(** [remove_range], its two strings already parsed ([None]: not an address). *)
Definition remove_range (f : IpFilter) (s e : option Ipv4Addr) : bool * IpFilter :=
  match s, e with
  | Some s, Some e =>
      let before := length (blocked_ranges f) in
      let f := set_blocked f
        (retain (λ r, negb (start r =? ip_u32 s) || negb (end_ r =? ip_u32 e))
           (blocked_ranges f)) in
      (bool_decide (length (blocked_ranges f) < before)%nat, f)
  | _, _ => (false, f)
  end.

(** What one range leaves outside [start..=end]; [None] when it is untouched. *)
Definition cut_range (s e : Z) (r : IpRange) : option (list IpRange) :=
  if (end_ r <? s) || (e <? start r) then None
  else Some
    ((if start r <? s then [mkRange (start r) (s - 1) (description r) (access_level r) (hits r)]
      else []) ++
     (if e <? end_ r then [mkRange (e + 1) (end_ r) (description r) (access_level r) (hits r)]
      else [])).
Definition remove_ranges_within (f : IpFilter) (s e : Z) : bool * IpFilter :=
  if e <? s then (false, f)
  else
    let changed := existsb (λ r, bool_decide (is_Some (cut_range s e r))) (blocked_ranges f) in
    (changed, set_blocked f (blocked_ranges f ≫= λ r, default [r] (cut_range s e r))).

(** ** The snapshot shared with spawned tasks *)
Record IpFilterSnapshot := mkSnapshot {
  ranges : list (Z * Z);
  range_hits : list Z;
  snap_enabled : bool;
  snap_block_private : bool;
  snap_ranges_ready : bool;
  hit_counter : Z;
  special_hit_counter : Z;
}.

Definition record_range_hit (s : IpFilterSnapshot) (idx : nat) : IpFilterSnapshot :=
  mkSnapshot (ranges s) (alter (λ n, u64_wrapping_add n 1) idx (range_hits s))
    (snap_enabled s) (snap_block_private s) (snap_ranges_ready s)
    (u64_wrapping_add (hit_counter s) 1) (special_hit_counter s).
Definition record_hit (s : IpFilterSnapshot) : IpFilterSnapshot :=
  mkSnapshot (ranges s) (range_hits s) (snap_enabled s) (snap_block_private s)
    (snap_ranges_ready s) (u64_wrapping_add (hit_counter s) 1) (special_hit_counter s).
Definition record_special_hit (s : IpFilterSnapshot) : IpFilterSnapshot :=
  mkSnapshot (ranges s) (range_hits s) (snap_enabled s) (snap_block_private s)
    (snap_ranges_ready s) (hit_counter s) (u64_wrapping_add (special_hit_counter s) 1).

Definition snap_find (ip : Z) (l : list (Z * Z)) : option nat :=
  binary_search_by (λ r, range_cmp ip r.1 r.2) l.

Definition snap_is_blocked (s : IpFilterSnapshot) (ip : Ipv4Addr) : bool * IpFilterSnapshot :=
  if is_bogus_v4 ip then (true, record_special_hit s)
  else if snap_block_private s && is_lan_or_cgnat_v4 ip then (true, record_special_hit s)
  else if snap_enabled s && negb (snap_ranges_ready s) then (true, record_hit s)
  else if snap_enabled s then
    match snap_find (ip_u32 ip) (ranges s) with
    | Some idx => (true, record_range_hit s idx)
    | None => (false, s)
    end
  else (false, s).

Definition snap_is_blocked_for_kad (s : IpFilterSnapshot) (ip : Ipv4Addr)
    : bool * IpFilterSnapshot :=
  if is_bogus_v4 ip then (true, record_special_hit s)
  else if snap_block_private s && is_lan_or_cgnat_v4 ip then (true, record_special_hit s)
  else if snap_enabled s && negb (snap_ranges_ready s)
  then (negb (is_default_bootstrap_ip ip), s)
  else if snap_enabled s && snap_ranges_ready s then
    match snap_find (ip_u32 ip) (ranges s) with
    | Some idx => (true, record_range_hit s idx)
    | None => (false, s)
    end
  else (false, s).

Definition create_shared_snapshot (f : IpFilter) : IpFilterSnapshot :=
  let rs := (λ r, (start r, end_ r)) <$> blocked_ranges f in
  mkSnapshot rs (replicate (length rs) 0) (enabled f) (block_private f) (ranges_ready f) 0 0.

(** The not-yet-collected hits of a snapshot, by range. *)
Definition pending_hits (s : IpFilterSnapshot) : gmap (Z * Z) Z :=
  foldl (λ m rn, if 0 <? rn.2 then <[rn.1 := rn.2]> m else m) ∅ (zip (ranges s) (range_hits s)).

Definition update_shared_snapshot (f : IpFilter) (s : IpFilterSnapshot) : IpFilterSnapshot :=
  let pending := pending_hits s in
  let rs := (λ r, (start r, end_ r)) <$> blocked_ranges f in
  mkSnapshot rs ((λ k, default 0 (pending !! k)) <$> rs) (enabled f) (block_private f)
    (ranges_ready f) (hit_counter s) (special_hit_counter s).

(** One counter of [collect_shared_hits]: its hits go to the first row with the
    snapshot entry's bounds. *)
Definition collect_one (s : IpFilterSnapshot) (rows : list IpRange) (i : nat) (n : Z)
    : list IpRange :=
  if n =? 0 then rows
  else match ranges s !! i with
       | None => rows
       | Some (st, en) =>
           match position (λ r, (start r =? st) && (end_ r =? en)) rows with
           | Some k => alter (λ r, add_hits r n) k rows
           | None => rows
           end
       end.
Definition collect_shared_hits (f : IpFilter) (s : IpFilterSnapshot)
    : IpFilter * IpFilterSnapshot :=
  let tr := if 0 <? hit_counter s then u64_wrapping_add (total_range_hits f) (hit_counter s)
            else total_range_hits f in
  let ts := if 0 <? special_hit_counter s
            then u64_wrapping_add (total_special_hits f) (special_hit_counter s)
            else total_special_hits f in
  let rows := foldl (λ rows '(i, n), collect_one s rows i n) (blocked_ranges f)
                (imap pair (range_hits s)) in
  (set_totals (set_blocked f rows) tr ts,
   mkSnapshot (ranges s) (const 0 <$> range_hits s) (snap_enabled s) (snap_block_private s)
     (snap_ranges_ready s) 0 0).

(** ** The admission gate both routing tables consult

    [range_filter] is an [Arc<RwLock<IpFilterSnapshot>>]; a reader of a poisoned
    lock gets an error. *)
Record SharedIpFilter := mkShared { poisoned : bool; guarded : IpFilterSnapshot }.

Inductive Admission := Allowed | BlockedByPolicy | BlockedByRanges | FilterUnreadable.

Record IpAdmissionGate := mkGate {
  block_private_ips : bool;
  range_filter : option SharedIpFilter;
}.

Definition IpAdmissionGate_new (b : bool) : IpAdmissionGate := mkGate b None.
Definition set_range_filter (g : IpAdmissionGate) (s : SharedIpFilter) : IpAdmissionGate :=
  mkGate (block_private_ips g) (Some s).
Definition gate_set_block_private_ips (g : IpAdmissionGate) (b : bool)
    : bool * IpAdmissionGate :=
  (b && negb (block_private_ips g), mkGate b (range_filter g)).

Definition admits (g : IpAdmissionGate) (ip : Ipv4Addr) : Admission * IpAdmissionGate :=
  if negb (is_valid_contact_ip ip (block_private_ips g)) then (BlockedByPolicy, g)
  else match range_filter g with
       | Some s =>
           if poisoned s then (FilterUnreadable, g)
           else let (b, snap) := snap_is_blocked_for_kad (guarded s) ip in
                (if b then BlockedByRanges else Allowed,
                 mkGate (block_private_ips g) (Some (mkShared false snap)))
       | None => (Allowed, g)
       end.

Definition is_definitely_blocked (g : IpAdmissionGate) (ip : Ipv4Addr)
    : bool * IpAdmissionGate :=
  if negb (is_valid_contact_ip ip (block_private_ips g)) then (true, g)
  else match range_filter g with
       | Some s =>
           if poisoned s then (false, g)
           else if snap_enabled (guarded s) && negb (snap_ranges_ready (guarded s))
           then (false, g)
           else let (b, snap) := snap_is_blocked (guarded s) ip in
                (b, mkGate (block_private_ips g) (Some (mkShared false snap)))
       | None => (false, g)
       end.

(** ** Invariant of the range list and what it covers

    Both the filter's rows and the snapshot's pairs are judged by their bounds. *)
Definition bounds (l : list IpRange) : list (Z * Z) := (λ r, (start r, end_ r)) <$> l.

Definition valid_bounds (r : Z * Z) : Prop := 0 ≤ r.1 ≤ r.2 ∧ r.2 ≤ u32_max.
Definition bounds_ok (l : list (Z * Z)) : Prop :=
  StronglySorted (λ r s, r.2 < s.1) l ∧ Forall valid_bounds l.
Definition filter_ok (f : IpFilter) : Prop := bounds_ok (bounds (blocked_ranges f)).

Definition covers (l : list (Z * Z)) (x : Z) : Prop := ∃ r, r ∈ l ∧ r.1 ≤ x ≤ r.2.

Lemma covers_cons r l x : covers (r :: l) x ↔ r.1 ≤ x ≤ r.2 ∨ covers l x.
Proof.
  unfold covers. setoid_rewrite elem_of_cons. split.
  - intros (y & [->|Hy] & Hx); eauto.
  - intros [Hx|(y & Hy & Hx)]; eauto.
Qed.

Lemma covers_app l k x : covers (l ++ k) x ↔ covers l x ∨ covers k x.
Proof.
  unfold covers. setoid_rewrite elem_of_app. split.
  - intros (y & [Hy|Hy] & Hx); eauto.
  - intros [(y & Hy & Hx)|(y & Hy & Hx)]; eauto.
Qed.

Lemma covers_nil x : covers [] x ↔ False.
Proof. split; [|done]. intros (r & Hr & _). by apply elem_of_nil in Hr. Qed.

#[export] Instance covers_proper : Proper ((≡ₚ) ==> (=) ==> iff) covers.
Proof. intros l k Hlk x ? <-. unfold covers. by setoid_rewrite Hlk. Qed.

Lemma bounds_app l k : bounds (l ++ k) = bounds l ++ bounds k.
Proof. apply fmap_app. Qed.

Lemma bounds_add_hits r n : (start (add_hits r n), end_ (add_hits r n)) = (start r, end_ r).
Proof. unfold add_hits. by destruct (0 <? n). Qed.

Lemma bounds_alter_hits i n l : bounds (alter (λ r, add_hits r n) i l) = bounds l.
Proof.
  unfold bounds. revert i; induction l as [|r l IH]; intros [|i]; try done.
  - simpl. by rewrite bounds_add_hits.
  - simpl. f_equal. apply IH.
Qed.

(** Every lookup decides coverage: bisection agrees with a linear scan. *)
Lemma search_ordered_bounds ip l :
  bounds_ok l → search_ordered (λ r, range_cmp ip r.1 r.2) l.
Proof.
  intros [Hs Hv] i j x y Hij Hx Hy.
  assert (x.2 < y.1) as Hlt.
  { rewrite <- (take_drop_middle l i x Hx) in Hs, Hy.
    apply StronglySorted_app in Hs as (_ & _ & Hs).
    apply StronglySorted_cons in Hs as [Hall _]. rewrite Forall_forall in Hall.
    apply Hall. apply list_elem_of_lookup. exists (j - S i)%nat.
    rewrite lookup_app_r in Hy by (rewrite length_take; lia).
    apply lookup_lt_Some in Hx. rewrite length_take_le in Hy by lia.
    by replace (j - i)%nat with (S (j - S i)) in Hy by lia. }
  rewrite Forall_lookup in Hv. pose proof (Hv _ _ Hx) as [? _]. pose proof (Hv _ _ Hy) as [? _].
  unfold range_cmp.
  destruct (Z.ltb_spec ip x.1), (Z.ltb_spec x.2 ip), (Z.ltb_spec ip y.1), (Z.ltb_spec y.2 ip);
    split; intros; try done; lia.
Qed.

Lemma range_cmp_Eq ip a b : range_cmp ip a b = Eq ↔ a ≤ ip ≤ b.
Proof.
  unfold range_cmp. destruct (Z.ltb_spec ip a); [split; [done|lia]|].
  destruct (Z.ltb_spec b ip); split; intros; try done; lia.
Qed.

Lemma snap_find_covers ip l : bounds_ok l → is_Some (snap_find ip l) ↔ covers l ip.
Proof.
  intros Hok. unfold snap_find. split.
  - intros [i Hi]. apply binary_search_by_Some in Hi as (r & Hr & Hc).
    apply range_cmp_Eq in Hc. exists r. split; [|done]. apply list_elem_of_lookup. eauto.
  - intros (r & [i Hr]%list_elem_of_lookup & Hc). apply range_cmp_Eq in Hc.
    eapply binary_search_by_complete; eauto using search_ordered_bounds.
Qed.

Lemma find_range_bounds ip l : find_range ip l = snap_find ip (bounds l).
Proof. unfold find_range, snap_find, bounds. by rewrite binary_search_by_fmap. Qed.

(** ** Merging *)
Definition by_start (l : list IpRange) : Prop := StronglySorted (λ a b, start a ≤ start b) l.
Definition separated (l : list (Z * Z)) : Prop := StronglySorted (λ r s, r.2 + 1 < s.1) l.
Abbreviation rows_valid l := (Forall valid_bounds (bounds l)).

Lemma by_start_cons a l : by_start (a :: l) ↔ Forall (λ b, start a ≤ start b) l ∧ by_start l.
Proof. apply StronglySorted_cons. Qed.

Lemma sort_ranges_perm l : sort_ranges l ≡ₚ l.
Proof. apply stable_sort_perm. Qed.

Lemma sort_ranges_by_start l : by_start (sort_ranges l).
Proof.
  assert (H : StronglySorted (λ a b, (start a <=? start b) = true) (sort_ranges l)).
  { apply stable_sort_sorted; intros *; rewrite ?Z.leb_le; lia. }
  unfold by_start. induction H as [|a k _ IH Hall]; constructor; [done|].
  eapply Forall_impl; [exact Hall|]. intros b. apply Z.leb_le.
Qed.

Lemma absorb_bounds last r :
  start (absorb last r) = start last ∧ end_ (absorb last r) = Z.max (end_ last) (end_ r).
Proof. unfold absorb, add_hits. by destruct (0 <? hits r). Qed.

Lemma saturating_succ e : 0 ≤ e ≤ u32_max → u32_saturating_add e 1 = Z.min u32_max (e + 1).
Proof. unfold u32_saturating_add, clamp. lia. Qed.

(** [merge_from] on rows sorted by start: the addresses covered do not change,
    no row starts before the first, and the result's rows are pairwise
    separated by at least one address. *)
Lemma merge_from_spec last l :
  rows_valid (last :: l) → by_start (last :: l) →
  (∀ x, covers (bounds (merge_from last l)) x ↔ covers (bounds (last :: l)) x) ∧
  Forall (λ b, start last ≤ b.1) (bounds (merge_from last l)) ∧
  rows_valid (merge_from last l) ∧ separated (bounds (merge_from last l)).
Proof.
  revert last; induction l as [|r l IH]; intros last Hv Hs.
  { simpl. split; [done|]. split; [by repeat constructor|]. split; [done|]. by repeat constructor. }
  apply by_start_cons in Hs as [Hle Hs]. apply Forall_cons in Hle as [Hr Hle].
  apply Forall_cons in Hv as [Hvl Hv]. pose proof Hv as Hv'. apply Forall_cons in Hv as [Hvr Hv].
  pose proof Hs as Hs'. apply by_start_cons in Hs as [Hrl Hs].
  unfold valid_bounds in Hvl, Hvr; simpl in Hvl, Hvr. simpl.
  rewrite saturating_succ by lia. destruct (Z.leb_spec (start r) (Z.min u32_max (end_ last + 1))).
  - destruct (absorb_bounds last r) as [E1 E2].
    destruct (IH (absorb last r)) as (IH1 & IH2 & IH3 & IH4).
    { constructor; [|done]. unfold valid_bounds; simpl. rewrite E1, E2. lia. }
    { apply by_start_cons. split; [by rewrite E1|done]. }
    rewrite E1 in IH2. split; [|done]. intros x. rewrite IH1. simpl.
    rewrite !covers_cons; simpl. rewrite E1, E2. split.
    + intros [Hx|Hx]; [|by auto]. destruct (decide (x ≤ end_ last)); [left; lia|right; left; lia].
    + intros [Hx|[Hx|Hx]]; [left; lia|left; lia|by right].
  - destruct (IH r Hv' Hs') as (IH1 & IH2 & IH3 & IH4). simpl. split; [|split; [|split]].
    + intros x. rewrite !(covers_cons (start last, _)), IH1. done.
    + constructor; [simpl; lia|]. eapply Forall_impl; [exact IH2|]. simpl. lia.
    + by constructor.
    + constructor; [done|]. eapply Forall_impl; [exact IH2|]. simpl. lia.
Qed.

Lemma separated_ok l : separated l → Forall valid_bounds l → bounds_ok l.
Proof.
  intros Hs Hv. split; [|done]. clear Hv.
  induction Hs as [|a k _ IH Hall]; constructor; [done|].
  eapply Forall_impl; [exact Hall|]. simpl. lia.
Qed.

(** Sorting then merging, as every mutation of the list does. *)
Lemma merge_overlapping_spec f l :
  rows_valid l →
  let g := merge_overlapping (set_blocked f (sort_ranges l)) in
  (∀ x, covers (bounds (blocked_ranges g)) x ↔ covers (bounds l) x) ∧
  rows_valid (blocked_ranges g) ∧ separated (bounds (blocked_ranges g)).
Proof.
  intros Hv g.
  assert (Hp : bounds (sort_ranges l) ≡ₚ bounds l) by (by apply fmap_Permutation, sort_ranges_perm).
  assert (Hv' : rows_valid (sort_ranges l)) by (by rewrite Hp).
  pose proof (sort_ranges_by_start l) as Hs.
  subst g. unfold merge_overlapping; cbn [blocked_ranges set_blocked].
  destruct (sort_ranges l) as [|a [|b k]]; cbn [blocked_ranges set_blocked].
  1,2: split; [intros x; by rewrite <- Hp|split; [done|by repeat constructor]].
  destruct (merge_from_spec a (b :: k) Hv' Hs) as (H1 & _ & H3 & H4).
  split; [|done]. intros x. by rewrite H1, <- Hp.
Qed.

(** ** Unblocking a range *)
Definition cut (s e : Z) (r : IpRange) : list IpRange := default [r] (cut_range s e r).

Lemma cut_spec s e r :
  s ≤ e → valid_bounds (start r, end_ r) →
  (∀ x, covers (bounds (cut s e r)) x ↔ start r ≤ x ≤ end_ r ∧ ¬ (s ≤ x ≤ e)) ∧
  Forall (λ b, start r ≤ b.1 ∧ b.2 ≤ end_ r ∧ valid_bounds b) (bounds (cut s e r)) ∧
  StronglySorted (λ a b, a.2 < b.1) (bounds (cut s e r)).
Proof.
  intros Hse Hv. unfold valid_bounds in Hv; simpl in Hv. unfold cut, cut_range.
  destruct (Z.ltb_spec (end_ r) s), (Z.ltb_spec e (start r)); simpl.
  1-3: split; [intros x; rewrite covers_cons, covers_nil; simpl; lia|];
       split; [repeat constructor; simpl; lia|repeat constructor].
  destruct (Z.ltb_spec (start r) s), (Z.ltb_spec e (end_ r)); simpl;
    (split; [intros x; rewrite ?covers_cons, ?covers_nil; simpl; lia|]);
    (split; [repeat constructor; simpl; lia|repeat constructor]); simpl; lia.
Qed.

Lemma cut_all_spec s e l :
  s ≤ e → bounds_ok (bounds l) →
  (∀ x, covers (bounds (l ≫= cut s e)) x ↔ covers (bounds l) x ∧ ¬ (s ≤ x ≤ e)) ∧
  bounds_ok (bounds (l ≫= cut s e)).
Proof.
  intros Hse [Hs Hv]. unfold bounds_ok.
  enough ((∀ x, covers (bounds (l ≫= cut s e)) x ↔ covers (bounds l) x ∧ ¬ (s ≤ x ≤ e)) ∧
          (∀ lo, Forall (λ b, lo < b.1) (bounds l) → Forall (λ b, lo < b.1) (bounds (l ≫= cut s e))) ∧
          StronglySorted (λ a b, a.2 < b.1) (bounds (l ≫= cut s e)) ∧
          Forall valid_bounds (bounds (l ≫= cut s e))) as (H1 & _ & H3 & H4) by done.
  induction l as [|r l IH].
  { split; [intros x; cbn; rewrite covers_nil; tauto|].
    split; [by intros lo _; constructor|]. by split; constructor. }
  apply StronglySorted_cons in Hs as [Hr Hs]. apply Forall_cons in Hv as [Hvr Hv].
  destruct (IH Hs Hv) as (I1 & I2 & I3 & I4).
  destruct (cut_spec s e r Hse Hvr) as (C1 & C2 & C3).
  cbn [mbind list_bind]. rewrite bounds_app. cbn [bounds fmap list_fmap].
  fold (bounds l). rewrite Forall_forall in C2. split; [|split; [|split]].
  - intros x. rewrite covers_app, C1. rewrite covers_cons; simpl.
    unfold mbind in I1. rewrite I1. tauto.
  - intros lo Hlo. apply Forall_cons in Hlo as [Hlo1 Hlo2]. apply Forall_app. split; [|by apply I2].
    apply Forall_forall. intros b Hb. destruct (C2 b Hb) as [? _]. simpl in *. lia.
  - apply StronglySorted_app_2; [|done..]. intros a b Ha Hb.
    specialize (I2 (end_ r) Hr). rewrite Forall_forall in I2. specialize (I2 b Hb).
    destruct (C2 a Ha) as (_ & ? & _). simpl in *. lia.
  - apply Forall_app. split; [|done]. apply Forall_forall. intros b Hb. by destruct (C2 b Hb) as (_ & _ & ?).
Qed.

(** Cutting leaves a gap: pieces of one row are apart by at least what was cut out. *)
Lemma cut_separated s e r : s ≤ e → separated (bounds (cut s e r)).
Proof.
  intros Hse. unfold cut, cut_range. destruct (Z.ltb_spec (end_ r) s), (Z.ltb_spec e (start r)); simpl; [repeat constructor..|].
  destruct (Z.ltb_spec (start r) s), (Z.ltb_spec e (end_ r)); simpl; repeat constructor; simpl; lia.
Qed.

Lemma cut_all_separated s e l : s ≤ e → rows_valid l → separated (bounds l) → separated (bounds (l ≫= cut s e)).
Proof.
  intros Hse Hv Hs. enough ((∀ lo, Forall (λ b, lo < b.1) (bounds l) → Forall (λ b, lo < b.1) (bounds (l ≫= cut s e))) ∧ separated (bounds (l ≫= cut s e))) as [_ H] by done.
  induction l as [|r l IH]; [by split; [intros lo _|]; constructor|].
  apply StronglySorted_cons in Hs as [Hr Hs]. apply Forall_cons in Hv as [Hvr Hv]. destruct (IH Hv Hs) as [I2 I3]. destruct (cut_spec s e r Hse Hvr) as (_ & C2 & _).
  rewrite Forall_forall in C2. cbn [mbind list_bind]. rewrite bounds_app. split.
  - intros lo Hlo. apply Forall_cons in Hlo as [Hlo1 Hlo2]. apply Forall_app. split; [|by apply I2]. apply Forall_forall. intros b Hb. destruct (C2 b Hb) as [? _]. simpl in *. lia.
  - apply StronglySorted_app_2; [|by apply cut_separated|done]. intros a b Ha Hb. specialize (I2 (end_ r + 1) Hr). rewrite Forall_forall in I2. specialize (I2 b Hb). destruct (C2 a Ha) as (_ & ? & _). simpl in *. lia.
Qed.

(** The full invariant: blocked rows valid and in order with at least one address between
    two of them, permit rows valid and in order of their starts. *)
Definition filter_strict (f : IpFilter) : Prop :=
  separated (bounds (blocked_ranges f)) ∧ rows_valid (blocked_ranges f) ∧ by_start (permit_ranges f) ∧ rows_valid (permit_ranges f).

Lemma filter_strict_ok f : filter_strict f → filter_ok f.
Proof. intros (? & ? & _). by apply separated_ok. Qed.

Lemma dedup_from_sublist {A} (same : A → A → bool) kept l : dedup_from same kept l `sublist_of` kept :: l.
Proof.
  revert kept. induction l as [|x l IH]; intros kept; cbn [dedup_from]; [done|]. destruct (same x kept); [|by constructor].
  etransitivity; [apply IH|]. apply sublist_skip, sublist_cons, reflexivity.
Qed.
Lemma dedup_by_sublist {A} (same : A → A → bool) l : dedup_by same l `sublist_of` l.
Proof. destruct l; [done|]. apply dedup_from_sublist. Qed.
Lemma StronglySorted_sublist {A} (R : A → A → Prop) l k : l `sublist_of` k → StronglySorted R k → StronglySorted R l.
Proof. induction 1 as [|x l k Hsub IH|x l k Hsub IH]; intros Hs; [done|..]; apply StronglySorted_cons in Hs as [Hx Hs]; [|by auto]. constructor; [by auto|]. by eapply Forall_sublist. Qed.

(** ** Operations as steps *)
Inductive filter_op :=
| FCommit (rows : list IpRange)
| FPermits (rows : list IpRange)
| FMergeFrom (other : IpFilter)
| FAdd (s e : Ipv4Addr) (d : string)
| FRemove (s e : option Ipv4Addr)
| FRemoveWithin (s e : Z)
| FCheck (ip : Ipv4Addr)
| FCheckKad (ip : Ipv4Addr)
| FCollect (s : IpFilterSnapshot)
| FEnable (b : bool)
| FBlockPrivate (b : bool)
| FReady
| FNotReady
| FLoaded.

Definition run_filter_op (f : IpFilter) (o : filter_op) : IpFilter :=
  match o with
  | FCommit rows => (commit_ranges f rows).1
  | FPermits rows => replace_permit_ranges f rows
  | FMergeFrom other => merge_ranges_from f other
  | FAdd s e d => (add_range f s e d).2
  | FRemove s e => (remove_range f s e).2
  | FRemoveWithin s e => (remove_ranges_within f s e).2
  | FCheck ip => (is_blocked f ip).2
  | FCheckKad ip => (is_blocked_readonly_for_kad f ip).2
  | FCollect s => (collect_shared_hits f s).1
  | FEnable b => set_enabled f b
  | FBlockPrivate b => set_block_private f b
  | FReady => mark_ranges_ready f
  | FNotReady => mark_ranges_not_ready f
  | FLoaded => mark_loaded_from_disk f
  end.

(** What the callers guarantee: rows come from the parsers, which only build
    [start <= end] rows, addresses from [Ipv4Addr]s. *)
Definition filter_op_ok (o : filter_op) : Prop :=
  match o with
  | FCommit rows | FPermits rows => rows_valid rows
  | FMergeFrom other => filter_strict other
  | FAdd s e _ => wf_v4 s ∧ wf_v4 e
  | _ => True
  end.

Lemma rows_valid_app l k : rows_valid l → rows_valid k → rows_valid (l ++ k).
Proof. intros. rewrite bounds_app. by apply Forall_app. Qed.

Lemma rows_valid_new s e d :
  wf_v4 s → wf_v4 e → ip_u32 s ≤ ip_u32 e → rows_valid [IpRange_new (ip_u32 s) (ip_u32 e) d].
Proof.
  intros Hs%ip_u32_range He%ip_u32_range Hle. constructor; [|done].
  unfold valid_bounds, u32_max; simpl. lia.
Qed.

Lemma filter_ok_valid f : filter_ok f → rows_valid (blocked_ranges f).
Proof. by intros [_ ?]. Qed.
Create HintDb ipfilter.
#[export] Hint Resolve filter_ok_valid rows_valid_app rows_valid_new : ipfilter.

Lemma merged_filter_ok f l :
  rows_valid l → filter_ok (merge_overlapping (set_blocked f (sort_ranges l))).
Proof. intros Hl. destruct (merge_overlapping_spec f l Hl) as (_ & ? & ?). by apply separated_ok. Qed.
#[export] Hint Resolve merged_filter_ok : ipfilter.

Lemma collect_one_bounds s rows i n : bounds (collect_one s rows i n) = bounds rows.
Proof.
  unfold collect_one. destruct (n =? 0); [done|]. destruct (ranges s !! i) as [[st en]|]; [|done].
  destruct (position _ rows); [apply bounds_alter_hits|done].
Qed.

Lemma collect_shared_hits_bounds f s :
  bounds (blocked_ranges (collect_shared_hits f s).1) = bounds (blocked_ranges f).
Proof.
  unfold collect_shared_hits; cbn [fst blocked_ranges set_totals set_blocked].
  generalize (imap pair (range_hits s)) as l. generalize (blocked_ranges f) as rows.
  intros rows l; revert rows. induction l as [|[i n] l IH]; intros rows; simpl; [done|].
  by rewrite IH, collect_one_bounds.
Qed.

Lemma commit_ranges_bounds f rows :
  bounds (blocked_ranges (commit_ranges f rows).1) =
  bounds (blocked_ranges (merge_overlapping (set_blocked f (sort_ranges rows)))).
Proof.
  unfold commit_ranges; cbn [fst blocked_ranges set_loaded set_ready set_blocked].
  unfold bounds. rewrite <- list_fmap_compose. apply list_fmap_ext. intros i r _. simpl.
  by destruct (_ !! _).
Qed.

Lemma is_blocked_bounds f ip :
  bounds (blocked_ranges (is_blocked f ip).2) = bounds (blocked_ranges f).
Proof.
  unfold is_blocked. repeat case_match; try done. simpl. apply bounds_alter_hits.
Qed.

Lemma is_blocked_for_kad_bounds f ip :
  bounds (blocked_ranges (is_blocked_readonly_for_kad f ip).2) = bounds (blocked_ranges f).
Proof.
  unfold is_blocked_readonly_for_kad. repeat case_match; try done. simpl. apply bounds_alter_hits.
Qed.

Lemma is_blocked_permits f ip : permit_ranges (is_blocked f ip).2 = permit_ranges f ∧ permit_ranges (is_blocked_readonly_for_kad f ip).2 = permit_ranges f.
Proof. unfold is_blocked, is_blocked_readonly_for_kad. split; repeat case_match; done. Qed.

Lemma merged_permits f l : permit_ranges (merge_overlapping (set_blocked f l)) = permit_ranges f.
Proof. unfold merge_overlapping. cbn [blocked_ranges set_blocked]. by repeat case_match. Qed.

(** An operation that keeps the bounds of the blocked rows, or merges a valid list into
    them, keeps the invariant. *)
Lemma strict_same_bounds f g : bounds (blocked_ranges g) = bounds (blocked_ranges f) → permit_ranges g = permit_ranges f → filter_strict f → filter_strict g.
Proof. unfold filter_strict. by intros -> ->. Qed.
Lemma strict_merged f l : rows_valid l → filter_strict f → filter_strict (merge_overlapping (set_blocked f (sort_ranges l))).
Proof. intros Hl (_ & _ & H3 & H4). destruct (merge_overlapping_spec f l Hl) as (_ & ? & ?). unfold filter_strict. by rewrite merged_permits. Qed.
Lemma sorted_permits l k : l `sublist_of` sort_ranges k → rows_valid k → by_start l ∧ rows_valid l.
Proof.
  intros Hsub Hk. split; [by eapply StronglySorted_sublist, sort_ranges_by_start|]. unfold bounds. eapply Forall_sublist; [by apply fmap_sublist|].
  by rewrite (fmap_Permutation (λ r, (start r, end_ r)) _ _ (sort_ranges_perm k)).
Qed.

Lemma run_filter_op_ok f o : filter_strict f → filter_op_ok o → filter_strict (run_filter_op f o).
Proof.
  intros Hf Ho. pose proof Hf as (F1 & F2 & F3 & F4). destruct o; cbn [run_filter_op filter_op_ok] in *; try done.
  - apply (strict_same_bounds (merge_overlapping (set_blocked f (sort_ranges rows)))); [apply commit_ranges_bounds|done|by apply strict_merged].
  - destruct (sorted_permits (sort_ranges rows) rows) as [? ?]; [done..|]. by split.
  - destruct Ho as (O1 & O2 & O3 & O4). unfold merge_ranges_from.
    assert (filter_strict (if bool_decide (blocked_ranges other = []) then f else merge_overlapping (set_blocked f (sort_ranges (blocked_ranges f ++ blocked_ranges other))))) as (G1 & G2 & G3 & G4)
      by (case_bool_decide; [done|by apply strict_merged; [apply rows_valid_app|]]).
    cbv zeta. set (g := if bool_decide (blocked_ranges other = []) then f else _) in *. clearbody g. case_bool_decide; [by split|]. split; [done|]. split; [done|].
    eapply sorted_permits; [apply dedup_by_sublist|]. by apply rows_valid_app.
  - destruct Ho. unfold add_range. destruct (Z.ltb_spec (ip_u32 e) (ip_u32 s)); simpl; [done|]. apply strict_merged; auto with ipfilter.
  - unfold remove_range. destruct s, e; try done. simpl. unfold filter_strict; cbn [blocked_ranges permit_ranges set_blocked].
    split; [|split; [|done]]; [eapply StronglySorted_sublist; [|exact F1]|eapply Forall_sublist; [|exact F2]]; apply fmap_sublist, retain_sublist.
  - unfold remove_ranges_within. destruct (Z.ltb_spec e s); [done|]. simpl. split; [by apply cut_all_separated|]. split; [|done].
    by apply (cut_all_spec s e), filter_strict_ok.
  - eapply strict_same_bounds; [apply is_blocked_bounds|apply is_blocked_permits|done].
  - eapply strict_same_bounds; [apply is_blocked_for_kad_bounds|apply is_blocked_permits|done].
  - eapply strict_same_bounds; [apply collect_shared_hits_bounds|done|done].
  - by destruct b.
Qed.

(** ** Properties *)

(** C9: every filter reached from a new one by any sequence of loads, merges,
    manual adds and removals, unblockings, checks, snapshot collections and
    setting changes keeps its blocked rows valid, sorted, disjoint and with at least one
    unblocked address between two of them, and so fit for the bisections; and its
    permit rows valid and sorted by their starts.  The rows given to a load are valid
    (the parsers build no other), and so is a filter that is merged in. *)
Theorem ipfilter_reachable_ok en bp (ops : list filter_op) :
  Forall filter_op_ok ops →
  let f := foldl run_filter_op (IpFilter_new en bp) ops in
  filter_ok f ∧ separated (bounds (blocked_ranges f)) ∧ by_start (permit_ranges f) ∧ rows_valid (permit_ranges f).
Proof.
  intros Hops f. enough (filter_strict f) as Hf by (split; [by apply filter_strict_ok|by destruct Hf as (? & _ & ? & ?)]). subst f.
  assert (filter_strict (IpFilter_new en bp)) as H0 by (repeat split; constructor).
  revert H0. generalize (IpFilter_new en bp) as f.
  induction Hops as [|o ops Ho _ IH]; intros f Hf; simpl; [done|].
  by apply IH, run_filter_op_ok.
Qed.

Definition demo_add (a b c d e f g h : Z) : filter_op :=
  FAdd (mkV4 a b c d) (mkV4 e f g h) "x".

Definition demo_ops : list filter_op :=
  [demo_add 5 0 0 0 5 0 0 255; demo_add 5 0 1 0 5 0 1 9; FRemoveWithin 83886085 83886090; FPermits [mkRange 9 12 "p" 0 0; mkRange 3 4 "q" 0 0]].
Lemma ipfilter_reachable_ok_witness :
  let f := foldl run_filter_op (IpFilter_new true true) demo_ops in
  filter_ok f ∧ separated (bounds (blocked_ranges f)) ∧ bounds (blocked_ranges f) = [(83886080, 83886084); (83886091, 83886345)] ∧ bounds (permit_ranges f) = [(3, 4); (9, 12)].
Proof.
  intros f. destruct (ipfilter_reachable_ok true true demo_ops) as (H1 & H2 & _); [repeat constructor; unfold wf_v4; simpl; (lia || vm_compute; discriminate)|].
  split; [exact H1|]. split; [exact H2|]. split; vm_compute; reflexivity.
Defined.

(** C30: the verdict on an address.  On a list that satisfies the invariant,
    [is_blocked] answers true exactly when the address is unroutable, or is
    LAN/CGNAT with the private block on, or the filter is enabled and either
    its rows are still loading (fail-closed) or some row covers the address:
    the bisection misses no row.  A disabled filter still blocks the unroutable, and the
    permit rows are not consulted.  Answering changes no row's bounds. *)
Theorem ipfilter_is_blocked_verdict f ip :
  filter_ok f →
  ((is_blocked f ip).1 = true ↔
   is_bogus_v4 ip = true ∨
   (block_private f = true ∧ is_lan_or_cgnat_v4 ip = true) ∨
   (enabled f = true ∧
    (ranges_ready f = false ∨ covers (bounds (blocked_ranges f)) (ip_u32 ip)))) ∧
  bounds (blocked_ranges (is_blocked f ip).2) = bounds (blocked_ranges f).
Proof.
  intros Hf. split; [|apply is_blocked_bounds].
  pose proof (snap_find_covers (ip_u32 ip) _ Hf) as Hc. unfold is_blocked.
  rewrite find_range_bounds.
  destruct (is_bogus_v4 ip); [simpl; tauto|].
  destruct (block_private f), (is_lan_or_cgnat_v4 ip); simpl; try tauto;
    destruct (enabled f), (ranges_ready f); simpl;
    destruct (snap_find _ _); simpl; rewrite <- Hc;
    (split; [intros; try done; eauto 10|intros; destruct_or?; destruct_and?; try done;
      destruct_or?; try done; by destruct (is_Some_None _)]).
Qed.

Definition demo_filter : IpFilter :=
  set_ready (set_blocked (IpFilter_new true false)
    [mkRange 16777216 16777471 "a" 0 0; mkRange 83886080 83886335 "b" 0 3]) true.

Lemma demo_filter_ok : filter_ok demo_filter.
Proof.
  split; repeat constructor; unfold u32_max; simpl; lia.
Qed.

Lemma ipfilter_is_blocked_verdict_witness :
  (is_blocked demo_filter (mkV4 5 0 0 7)).1 = true ∧
  covers (bounds (blocked_ranges demo_filter)) (ip_u32 (mkV4 5 0 0 7)).
Proof.
  assert (H : (is_blocked demo_filter (mkV4 5 0 0 7)).1 = true) by reflexivity.
  split; [exact H|].
  destruct (ipfilter_is_blocked_verdict demo_filter (mkV4 5 0 0 7) demo_filter_ok) as [Hv _].
  apply Hv in H as [H|[[H _]|[_ [H|H]]]]; [discriminate H..|exact H].
Defined.

(** blocking a range by hand.  [add_range s e] is refused, changing
    nothing, when [s > e]; otherwise afterwards exactly the addresses covered
    before and those of [s..=e] are covered, and no two rows touch or overlap. *)
Theorem ipfilter_add_range_covers f s e d :
  filter_ok f → wf_v4 s → wf_v4 e →
  let r := add_range f s e d in
  (ip_u32 e < ip_u32 s → r = (false, f)) ∧
  (ip_u32 s ≤ ip_u32 e →
     r.1 = true ∧
     (∀ x, covers (bounds (blocked_ranges r.2)) x ↔
           covers (bounds (blocked_ranges f)) x ∨ ip_u32 s ≤ x ≤ ip_u32 e) ∧
     separated (bounds (blocked_ranges r.2))).
Proof.
  intros Hf Hs He r. subst r. unfold add_range.
  destruct (Z.ltb_spec (ip_u32 e) (ip_u32 s)); split; intros; try done; try lia.
  destruct (merge_overlapping_spec f (blocked_ranges f ++ [IpRange_new (ip_u32 s) (ip_u32 e) d]))
    as (H1 & _ & H3); [by auto with ipfilter|].
  split; [done|]. split; [|done]. intros x. cbn [snd].
  rewrite H1, bounds_app, covers_app. cbn [bounds fmap list_fmap IpRange_new start end_].
  rewrite covers_cons, covers_nil. simpl. tauto.
Qed.

Lemma ipfilter_add_range_covers_witness :
  covers (bounds (blocked_ranges
    (add_range demo_filter (mkV4 9 0 0 0) (mkV4 9 0 0 9) "z").2)) 150994948.
Proof.
  destruct (ipfilter_add_range_covers demo_filter (mkV4 9 0 0 0) (mkV4 9 0 0 9) "z" demo_filter_ok)
    as [_ H]; [unfold wf_v4; simpl; lia..|].
  destruct H as (_ & H & _); [vm_compute; discriminate|].
  apply H. right. vm_compute. split; discriminate.
Defined.

(** unblocking a range.  [remove_ranges_within s e] (with [s <= e]) leaves
    covered exactly the previously covered addresses outside [s..=e], cutting
    the rows that reach past either end, keeps the list valid, sorted and
    disjoint, and reports whether any row intersected the range. *)
Theorem ipfilter_remove_within_covers f s e :
  filter_ok f → s ≤ e →
  let r := remove_ranges_within f s e in
  (∀ x, covers (bounds (blocked_ranges r.2)) x ↔
        covers (bounds (blocked_ranges f)) x ∧ ¬ (s ≤ x ≤ e)) ∧
  filter_ok r.2 ∧
  (r.1 = true ↔ ∃ x, covers (bounds (blocked_ranges f)) x ∧ s ≤ x ≤ e).
Proof.
  intros Hf Hse r. subst r. unfold remove_ranges_within.
  destruct (Z.ltb_spec e s); [lia|]. cbn [fst snd].
  destruct (cut_all_spec s e (blocked_ranges f) Hse Hf) as [H1 H2].
  split; [exact H1|]. split; [exact H2|]. clear H1 H2.
  rewrite existsb_exists. pose proof (filter_ok_valid f Hf) as Hv. split.
  - intros (r & Hr & Hc). apply bool_decide_eq_true in Hc as [k Hk].
    rewrite <- list_elem_of_In in Hr.
    assert (Hb : (start r, end_ r) ∈ bounds (blocked_ranges f)).
    { unfold bounds. rewrite list_elem_of_fmap. eauto. }
    rewrite Forall_forall in Hv. pose proof (Hv _ Hb) as [? _]; simpl in *.
    unfold cut_range in Hk. destruct (Z.ltb_spec (end_ r) s), (Z.ltb_spec e (start r)); try done.
    exists (Z.max s (start r)). split; [|lia]. exists (start r, end_ r). split; [done|]. simpl. lia.
  - intros (x & ([a b] & Hb & Hx) & Hse'). unfold bounds in Hb.
    rewrite list_elem_of_fmap in Hb. destruct Hb as (r & [= -> ->] & Hr). simpl in Hx.
    exists r. split; [by rewrite <- list_elem_of_In|]. apply bool_decide_eq_true.
    unfold cut_range. destruct (Z.ltb_spec (end_ r) s), (Z.ltb_spec e (start r)); try lia. eauto.
Qed.

Lemma ipfilter_remove_within_covers_witness :
  ¬ covers (bounds (blocked_ranges (remove_ranges_within demo_filter 83886090 83886100).2)) 83886095.
Proof.
  destruct (ipfilter_remove_within_covers demo_filter 83886090 83886100 demo_filter_ok) as [H _];
    [lia|].
  intros Hc. apply H in Hc as [_ Hc]. apply Hc. lia.
Defined.

(** The shared snapshot gives the filter's verdicts.  After
    [update_shared_snapshot] (or [create_shared_snapshot]) a spawned task's
    [is_blocked] and the KAD variant answer every address as the filter itself
    does, for any filter and whatever the snapshot held before. *)
Theorem snapshot_agrees_with_filter f s ip :
  (snap_is_blocked (update_shared_snapshot f s) ip).1 = (is_blocked f ip).1 ∧
  (snap_is_blocked_for_kad (update_shared_snapshot f s) ip).1 =
    (is_blocked_readonly_for_kad f ip).1 ∧
  (snap_is_blocked (create_shared_snapshot f) ip).1 = (is_blocked f ip).1.
Proof.
  unfold snap_is_blocked, snap_is_blocked_for_kad, is_blocked, is_blocked_readonly_for_kad.
  rewrite !find_range_bounds. unfold bounds. simpl.
  repeat split; repeat case_match; done.
Qed.

(** while the rows are still loading the filter fails closed.  Every
    address is blocked for transfers; for KAD admission only the default
    bootstrap seeds (and of those only routable ones) get through. *)
Theorem ipfilter_fail_closed f ip :
  enabled f = true → ranges_ready f = false →
  (is_blocked f ip).1 = true ∧
  ((is_blocked_readonly_for_kad f ip).1 = false → is_default_bootstrap_ip ip = true).
Proof.
  intros He Hr. unfold is_blocked, is_blocked_readonly_for_kad. rewrite He, Hr. simpl.
  destruct (is_bogus_v4 ip), (block_private f && is_lan_or_cgnat_v4 ip); simpl; try done.
  split; [done|]. by destruct (is_default_bootstrap_ip ip).
Qed.

Lemma ipfilter_fail_closed_witness :
  (is_blocked (IpFilter_new true true) (mkV4 8 8 8 8)).1 = true.
Proof. apply (ipfilter_fail_closed (IpFilter_new true true) (mkV4 8 8 8 8)); reflexivity. Defined.

(** eviction never removes what admission would take.  An address the gate
    calls definitely blocked is one it would also refuse to admit; and when the
    snapshot cannot be read or is still loading, nothing the private-address
    policy allows is definitely blocked, so neither a poisoned lock nor the
    startup window can empty a routing table. *)
Theorem gate_eviction_is_conservative g ip :
  ((is_definitely_blocked g ip).1 = true → (admits g ip).1 ≠ Allowed) ∧
  (is_valid_contact_ip ip (block_private_ips g) = true →
   (∀ s, range_filter g = Some s →
      poisoned s = true ∨ (snap_enabled (guarded s) = true ∧ snap_ranges_ready (guarded s) = false)) →
   (is_definitely_blocked g ip).1 = false).
Proof.
  unfold is_definitely_blocked, admits.
  destruct (is_valid_contact_ip ip (block_private_ips g)) eqn:Ev; simpl; [|done].
  destruct (range_filter g) as [[p s]|]; simpl; [|done]. split.
  - destruct p; [done|]. unfold snap_is_blocked, snap_is_blocked_for_kad.
    destruct (snap_enabled s), (snap_ranges_ready s); simpl; repeat case_match; simpl in *; try done.
  - intros _ H. destruct (H _ eq_refl) as [Hp|[He Hr]]; simpl in *; [by rewrite Hp|].
    rewrite He, Hr. by destruct p.
Qed.
