(* ===== verification/Contact.v ===== *)
(** * Contacts and the size-adaptive limits

    [EmberContact] of [network/ember/dht/mod.rs], [is_stale] of
    [network/kad/dht_common.rs] and [NetworkScale] of
    [network/ember/dht/scale.rs]. *)
From S2P Require Import Prelude NodeId Addr.
Local Open Scope Z_scope.

Definition K_BUCKET_SIZE : nat := 20.
Definition ALPHA : nat := 5.
Definition ID_BITS : nat := 128.
Definition CONTACT_TIMEOUT_SECS : Z := 600.
Definition MAX_FAILED_QUERIES : Z := 3.

Record EmberContact := mkContact {
  node_id : EmberNodeId;
  addr : SocketAddr;
  noise_pub : bytes;
  ed25519_pub : bytes;
  last_seen : Z;
  failed_queries : Z;
}.

#[export] Instance EmberContact_eq_dec : EqDecision EmberContact.
Proof. solve_decision. Defined.

Definition is_verified (c : EmberContact) : bool := 0 <? last_seen c.

Definition is_dialable (c : EmberContact) : bool :=
  match addr_ip (addr c) with
  | V4 v4 => negb (addr_port (addr c) =? 0) && negb (is_bogus_v4 v4)
  | V6 _ => false
  end.

Definition contact_ip (c : EmberContact) : IpAddr := addr_ip (addr c).
Definition subnet_key (c : EmberContact) : Z := subnet_key_of (contact_ip c).

Definition is_stale (now last_seen max_age_secs : Z) : bool :=
  max_age_secs <=? i64_saturating_sub now last_seen.

(** Field updates. *)
Definition with_last_seen (c : EmberContact) (t : Z) : EmberContact :=
  mkContact (node_id c) (addr c) (noise_pub c) (ed25519_pub c) t (failed_queries c).
Definition with_failed (c : EmberContact) (n : Z) : EmberContact :=
  mkContact (node_id c) (addr c) (noise_pub c) (ed25519_pub c) (last_seen c) n.

(** ** [NetworkScale] *)
Inductive NetworkScale := Bootstrap | Small | Established.

#[export] Instance NetworkScale_eq_dec : EqDecision NetworkScale.
Proof. solve_decision. Defined.

(** The derived [Ord]: variant order. *)
Definition scale_rank (s : NetworkScale) : nat :=
  match s with Bootstrap => 0 | Small => 1 | Established => 2 end.
Definition scale_max (a b : NetworkScale) : NetworkScale :=
  if decide (scale_rank a < scale_rank b)%nat then b else a.

Definition BOOTSTRAP_CONTACTS : nat := Eval compute in (K_BUCKET_SIZE / 2)%nat.
Definition ESTABLISHED_CONTACTS : nat := Eval compute in (K_BUCKET_SIZE * 4)%nat.

Definition from_contacts (verified : nat) : NetworkScale :=
  if decide (verified < BOOTSTRAP_CONTACTS)%nat then Bootstrap
  else if decide (verified < ESTABLISHED_CONTACTS)%nat then Small
  else Established.

Definition max_contacts_per_ip (s : NetworkScale) : nat :=
  match s with Bootstrap => 8 | Small => 4 | Established => 2 end.
Definition max_contacts_per_subnet_global (s : NetworkScale) : nat :=
  match s with Bootstrap => 20 | Small => 16 | Established => 10 end.
Definition max_contacts_per_subnet_per_bucket (s : NetworkScale) : nat :=
  match s with Bootstrap => 5 | Small => 4 | Established => 3 end.
Definition max_sources_per_ip (s : NetworkScale) : nat :=
  match s with Bootstrap => 8 | Small => 5 | Established => 3 end.
Definition max_stores_per_minute (s : NetworkScale) : Z :=
  match s with Bootstrap => 300 | Small => 200 | Established => 120 end.

(** ** Facts *)
Lemma subnet_key_ip c d : contact_ip c = contact_ip d → subnet_key c = subnet_key d.
Proof. unfold subnet_key. by intros ->. Qed.

Lemma scale_max_ge_l a b : (scale_rank a ≤ scale_rank (scale_max a b))%nat.
Proof. unfold scale_max. case_decide; lia. Qed.
Lemma scale_max_ge_r a b : (scale_rank b ≤ scale_rank (scale_max a b))%nat.
Proof. unfold scale_max. case_decide; lia. Qed.

(** growth never loosens an abuse limit.  The tier only rises with the
    number of verified contacts, and every limit, per address, per /24 in a
    bucket and in the table, sources per address and stores per minute, is
    non-increasing in the tier. *)
Theorem limits_tighten_with_growth n m :
  (n ≤ m)%nat →
  (scale_rank (from_contacts n) ≤ scale_rank (from_contacts m))%nat ∧
  (max_contacts_per_ip (from_contacts m) ≤ max_contacts_per_ip (from_contacts n))%nat ∧
  (max_contacts_per_subnet_global (from_contacts m) ≤
     max_contacts_per_subnet_global (from_contacts n))%nat ∧
  (max_contacts_per_subnet_per_bucket (from_contacts m) ≤
     max_contacts_per_subnet_per_bucket (from_contacts n))%nat ∧
  (max_sources_per_ip (from_contacts m) ≤ max_sources_per_ip (from_contacts n))%nat ∧
  max_stores_per_minute (from_contacts m) ≤ max_stores_per_minute (from_contacts n).
Proof. unfold from_contacts. intros. repeat case_decide; simpl; lia. Qed.

Lemma limits_tighten_with_growth_witness :
  (max_contacts_per_ip (from_contacts 80) ≤ max_contacts_per_ip (from_contacts 9))%nat.
Proof. apply (limits_tighten_with_growth 9 80). lia. Defined.
