(* ===== verification/Record.v ===== *)
(** * Record bodies

    What the record store reads out of a signed record body at its fixed
    offsets: [network/ember/dht/store.rs] and the readers of
    [network/ember/dht/publish.rs] and [network/ember/feed.rs] it calls.  A body
    is a list of octets; a length is a [nat], a time in seconds a [Z]. *)
From S2P Require Import Prelude NodeId Addr Contact.

(** [data.get(a..b)]. *)
Definition slice (a b : nat) (data : bytes) : option bytes :=
  if decide (a ≤ b ∧ b ≤ length data) then Some (take (b - a) (drop a data)) else None.

(** [u16/u64::from_le_bytes]. *)
Fixpoint le_value (l : bytes) : Z :=
  match l with
  | [] => 0%Z
  | b :: l => (b + 256 * le_value l)%Z
  end.
(** [i64::from_le_bytes]: the same bits, two's complement. *)
Definition i64_le_value (l : bytes) : Z :=
  let v := le_value l in
  if Z.ltb i64_max v then (v - 18446744073709551616)%Z else v.

(** ** Layout *)
Definition RECORD_TYPE_KEYWORD : Z := 1.
Definition RECORD_TYPE_SOURCE : Z := 2.
Definition RECORD_TYPE_CHANNEL : Z := 3.
Definition RECORD_TYPE_FEED : Z := 4.
Definition RECORD_TYPE_FEED_LISTING : Z := 5.
Definition CHANNEL_KIND_INDEX : Z := 1.
Definition CHANNEL_KIND_PRESENCE : Z := 2.
Definition CHANNEL_KIND_MODERATION : Z := 3.
Definition CHANNEL_KIND_HANDOFF : Z := 4.
Definition CHANNEL_KIND_EPOCH : Z := 5.
Definition CHANNEL_KIND_CLAIM : Z := 6.
Definition CHANNEL_KIND_OWNED_ROOMS : Z := 7.
Definition CHANNEL_KIND_SETTINGS : Z := 8.
Definition CHANNEL_FLAG_DEPARTED : Z := 2.
Definition FEED_HEAD_VERSION : Z := 2.
Definition RECORD_HEADER_LEN : nat := 115.
Definition SOURCE_CONTACT_WIRE_LEN : nat := 41.

(** [data.first() == Some(&ty)]. *)
Definition has_type (ty : Z) (data : bytes) : bool := bool_decide (head data = Some ty).

Definition is_feed_head (data : bytes) : bool := has_type RECORD_TYPE_FEED data.

Definition channel_kind_from_data (data : bytes) : option Z :=
  if has_type RECORD_TYPE_CHANNEL data then data !! 65 else None.
Definition channel_flags_from_data (data : bytes) : option Z :=
  if has_type RECORD_TYPE_CHANNEL data then data !! 66 else None.

(** [f & CHANNEL_FLAG_DEPARTED != 0] of the flags, if there are any. *)
Definition departed_flag (data : bytes) : bool :=
  match channel_flags_from_data data with
  | Some f => negb (Z.eqb (Z.land f CHANNEL_FLAG_DEPARTED) 0)
  | None => false
  end.
Definition is_presence_departure (data : bytes) : bool :=
  bool_decide (channel_kind_from_data data = Some CHANNEL_KIND_PRESENCE) && departed_flag data.

(** [publish::file_hash_from_record_data], zero when the body is truncated. *)
Definition file_hash_from_record_data (data : bytes) : bytes :=
  default (repeat 0%Z 16) (slice 17 33 data).
Definition ember_digest_from_record_data (data : bytes) : bytes :=
  if decide (65 ≤ length data) then default (repeat 0%Z 32) (slice 33 65 data) else repeat 0%Z 32.

Definition signed_identity_from_record_data (data : bytes) : option (bytes * bytes * Z) :=
  if decide (length data < 115) then None
  else
    name ← slice 113 115 data;
    if decide (length data < 115 + Z.to_nat (le_value name)) then None
    else
      key ← slice 1 17 data;
      publisher_key ← slice 73 105 data;
      created ← slice 105 113 data;
      Some (key, publisher_key, i64_le_value created).

(** [feed::head_sequence] and [SignedRecord::feed_head_sequence_of]. *)
Definition head_sequence (extra : bytes) : option Z :=
  match head extra with
  | None => None
  | Some version =>
      if Z.ltb version FEED_HEAD_VERSION then None else le_value <$> slice 1 9 extra
  end.
Definition feed_head_sequence_of (data : bytes) : option Z :=
  if negb (has_type RECORD_TYPE_FEED data) then None
  else
    name ← slice 113 115 data;
    let off := 115 + Z.to_nat (le_value name) in
    extra ← slice (off + 1) (off + 3) data;
    body ← slice (off + 3) (off + 3 + Z.to_nat (le_value extra)) data;
    head_sequence body.

Definition source_ip_from_record_data (data : bytes) : option Ipv4Addr :=
  if negb (has_type RECORD_TYPE_SOURCE data) || bool_decide (length data < RECORD_HEADER_LEN) then None
  else
    name ← slice (RECORD_HEADER_LEN - 2) RECORD_HEADER_LEN data;
    let off := RECORD_HEADER_LEN + Z.to_nat (le_value name) in
    if decide (length data < off + SOURCE_CONTACT_WIRE_LEN) then None
    else
      a ← data !! off;
      b ← data !! (off + 1);
      c ← data !! (off + 2);
      d ← data !! (off + 3);
      Some (mkV4 a b c d).

(** ** Life of a record, in seconds *)
Local Open Scope Z_scope.

Definition KEYWORD_RECORD_TTL : Z := 24 * 3600.
Definition SOURCE_RECORD_TTL : Z := 6 * 3600.
Definition CHANNEL_PRESENCE_TTL : Z := 45 * 60.
Definition CHANNEL_PRESENCE_DEPARTED_TTL : Z := CHANNEL_PRESENCE_TTL.
Definition CHANNEL_INDEX_TTL : Z := 7 * 24 * 3600.
Definition CHANNEL_HANDOFF_TTL : Z := 30 * 24 * 3600.
Definition CHANNEL_GOVERNANCE_TTL : Z := CHANNEL_HANDOFF_TTL.
Definition FEED_LISTING_TTL : Z := 7 * 24 * 3600.

Definition record_ttl (data : bytes) : Z :=
  if has_type RECORD_TYPE_SOURCE data then SOURCE_RECORD_TTL
  else if has_type RECORD_TYPE_CHANNEL data then
    match channel_kind_from_data data with
    | Some k =>
        if k =? CHANNEL_KIND_PRESENCE then
          if departed_flag data then CHANNEL_PRESENCE_DEPARTED_TTL else CHANNEL_PRESENCE_TTL
        else if k =? CHANNEL_KIND_INDEX then CHANNEL_INDEX_TTL
        else if (k =? CHANNEL_KIND_HANDOFF) || (k =? CHANNEL_KIND_CLAIM) then CHANNEL_HANDOFF_TTL
        else if (k =? CHANNEL_KIND_MODERATION) || (k =? CHANNEL_KIND_EPOCH)
                || (k =? CHANNEL_KIND_OWNED_ROOMS) || (k =? CHANNEL_KIND_SETTINGS)
        then CHANNEL_GOVERNANCE_TTL
        else KEYWORD_RECORD_TTL
    | None => KEYWORD_RECORD_TTL
    end
  else if has_type RECORD_TYPE_FEED data then CHANNEL_GOVERNANCE_TTL
  else if has_type RECORD_TYPE_FEED_LISTING data then FEED_LISTING_TTL
  else KEYWORD_RECORD_TTL.

Definition CLOCK_SKEW_TOLERANCE_SECS : Z := 3600.
Definition skew_tolerance_secs (ttl_secs : Z) : Z := Z.min CLOCK_SKEW_TOLERANCE_SECS (ttl_secs / 2).

Definition record_is_current (data : bytes) (now_unix : Z) : bool :=
  match slice 105 113 data with
  | None => false
  | Some b =>
      let created_at := i64_le_value b in
      let ttl_secs := record_ttl data in
      let skew := skew_tolerance_secs ttl_secs in
      (created_at <=? now_unix + 2 * skew)
      && (i64_saturating_sub now_unix created_at <? ttl_secs + skew)
  end.

(** [storer_replicates]. *)
Definition storer_replicates (data : bytes) : bool :=
  if has_type RECORD_TYPE_KEYWORD data || has_type RECORD_TYPE_FEED data
     || has_type RECORD_TYPE_FEED_LISTING data
  then true
  else if has_type RECORD_TYPE_CHANNEL data
  then negb (bool_decide (channel_kind_from_data data = Some CHANNEL_KIND_PRESENCE))
  else false.

Lemma record_ttl_bounds data : 2700 <= record_ttl data <= 2592000.
Proof.
  unfold record_ttl, SOURCE_RECORD_TTL, CHANNEL_PRESENCE_DEPARTED_TTL, CHANNEL_PRESENCE_TTL,
    CHANNEL_INDEX_TTL, CHANNEL_GOVERNANCE_TTL, CHANNEL_HANDOFF_TTL, KEYWORD_RECORD_TTL,
    FEED_LISTING_TTL.
  destruct (has_type _ _); [lia|]. destruct (has_type _ _).
  - destruct (channel_kind_from_data data); [|lia].
    repeat match goal with |- context [if ?b then _ else _] => destruct b end; lia.
  - repeat match goal with |- context [if ?b then _ else _] => destruct b end; lia.
Qed.
