(* ===== verification/RoutingTable.v ===== *)
(** * The Ember DHT routing table: state and operations

    [network/ember/dht/routing.rs], one definition per method.  A method with
    [&mut self] takes the table and returns the new one, after its result when
    it has one; a [now] argument is what [chrono::Utc::now().timestamp()]
    returned in the call.  [self.buckets[i]] panics out of range; [bucket_at]
    reads an empty bucket there instead, and the invariant of [RoutingInv]
    ([ID_BITS] buckets, every index below it) shows that this is never used. *)
From S2P Require Import Prelude NodeId Addr IpFilter Contact.

Definition CLOCK_STEP_SLACK_SECS : Z := 60.

Record Bucket := mkBucket {
  contacts : list EmberContact;
  replacement_cache : list EmberContact;
  last_activity : Z;
}.

Definition Bucket_new : Bucket := mkBucket [] [] 0.
Definition is_full (b : Bucket) : bool := bool_decide (K_BUCKET_SIZE ≤ length (contacts b)).
Definition subnet_count (b : Bucket) (subnet : Z) : nat :=
  count_if (λ c, Z.eqb (subnet_key c) subnet) (contacts b).
Definition has_id (id : EmberNodeId) (c : EmberContact) : bool := bool_decide (node_id c = id).
Definition find (b : Bucket) (id : EmberNodeId) : option nat := position (has_id id) (contacts b).
Definition find_in_cache (b : Bucket) (id : EmberNodeId) : option nat :=
  position (has_id id) (replacement_cache b).
Definition oldest_contact (b : Bucket) : option EmberContact := head (contacts b).

Definition set_contacts (b : Bucket) (l : list EmberContact) : Bucket :=
  mkBucket l (replacement_cache b) (last_activity b).
Definition set_cache (b : Bucket) (l : list EmberContact) : Bucket :=
  mkBucket (contacts b) l (last_activity b).
Definition set_activity (b : Bucket) (t : Z) : Bucket :=
  mkBucket (contacts b) (replacement_cache b) t.

(** ** [ResidentIndex] *)
Record ResidentIndex := mkIndex {
  verified : nat;
  by_addr : gmap SocketAddr (list EmberNodeId);
}.

Definition index_unlink (ri : ResidentIndex) (id : EmberNodeId) (a : SocketAddr) : ResidentIndex :=
  match by_addr ri !! a with
  | Some ids =>
      let ids := match position (λ x, bool_decide (x = id)) ids with
                 | Some i => swap_remove i ids
                 | None => ids
                 end in
      mkIndex (verified ri)
        (if bool_decide (ids = []) then delete a (by_addr ri) else <[a := ids]> (by_addr ri))
  | None => ri
  end.
Definition index_link (ri : ResidentIndex) (id : EmberNodeId) (a : SocketAddr) : ResidentIndex :=
  mkIndex (verified ri) (<[a := default [] (by_addr ri !! a) ++ [id]]> (by_addr ri)).
Definition index_insert (ri : ResidentIndex) (c : EmberContact) : ResidentIndex :=
  index_link (mkIndex (if is_verified c then S (verified ri) else verified ri) (by_addr ri))
    (node_id c) (addr c).
Definition index_remove (ri : ResidentIndex) (c : EmberContact) : ResidentIndex :=
  index_unlink (mkIndex (if is_verified c then verified ri - 1 else verified ri) (by_addr ri))
    (node_id c) (addr c).
Definition index_restamp (ri : ResidentIndex) (was is_ : bool) : ResidentIndex :=
  mkIndex (match was, is_ with
           | false, true => S (verified ri)
           | true, false => verified ri - 1
           | _, _ => verified ri
           end) (by_addr ri).
Definition index_readdress (ri : ResidentIndex) (id : EmberNodeId) (from to : SocketAddr)
    : ResidentIndex :=
  if bool_decide (from = to) then ri else index_link (index_unlink ri id from) id to.

Inductive AddResult :=
| Added
| PingOldest (a : SocketAddr) (id : EmberNodeId) (noise : bytes)
| Rejected.

Definition judgeable_ip (a : SocketAddr) : option Ipv4Addr :=
  if Z.eqb (addr_port a) 0 then None
  else match addr_ip a with V4 v4 => Some v4 | V6 _ => None end.

(** The [u64] counters of refused verified newcomers; one reaching [2^64] is
    not modelled. *)
Record AdmissionRefusals := mkRefusals { ip_policy : Z; subnet_refused : Z; per_ip : Z }.

(** ** [RoutingTable] *)
Record RoutingTable := mkTable {
  local_id : EmberNodeId;
  buckets : list Bucket;
  global_subnet_count : gmap Z nat;
  global_ip_count : gmap IpAddr nat;
  ip_gate : IpAdmissionGate;
  refusals : AdmissionRefusals;
  enforced_scale : NetworkScale;
  residents : ResidentIndex;
}.

Definition RoutingTable_new (local : EmberNodeId) (block_private : bool) : RoutingTable :=
  mkTable local (replicate ID_BITS Bucket_new) ∅ ∅ (IpAdmissionGate_new block_private)
    (mkRefusals 0 0 0) Bootstrap (mkIndex 0 ∅).

Definition set_buckets (t : RoutingTable) (bs : list Bucket) : RoutingTable :=
  mkTable (local_id t) bs (global_subnet_count t) (global_ip_count t) (ip_gate t)
    (refusals t) (enforced_scale t) (residents t).
Definition set_subnets (t : RoutingTable) (m : gmap Z nat) : RoutingTable :=
  mkTable (local_id t) (buckets t) m (global_ip_count t) (ip_gate t)
    (refusals t) (enforced_scale t) (residents t).
Definition set_ips (t : RoutingTable) (m : gmap IpAddr nat) : RoutingTable :=
  mkTable (local_id t) (buckets t) (global_subnet_count t) m (ip_gate t)
    (refusals t) (enforced_scale t) (residents t).
Definition set_gate (t : RoutingTable) (g : IpAdmissionGate) : RoutingTable :=
  mkTable (local_id t) (buckets t) (global_subnet_count t) (global_ip_count t) g
    (refusals t) (enforced_scale t) (residents t).
Definition set_refusals (t : RoutingTable) (r : AdmissionRefusals) : RoutingTable :=
  mkTable (local_id t) (buckets t) (global_subnet_count t) (global_ip_count t) (ip_gate t)
    r (enforced_scale t) (residents t).
Definition set_enforced (t : RoutingTable) (s : NetworkScale) : RoutingTable :=
  mkTable (local_id t) (buckets t) (global_subnet_count t) (global_ip_count t) (ip_gate t)
    (refusals t) s (residents t).
Definition set_residents (t : RoutingTable) (ri : ResidentIndex) : RoutingTable :=
  mkTable (local_id t) (buckets t) (global_subnet_count t) (global_ip_count t) (ip_gate t)
    (refusals t) (enforced_scale t) ri.

Definition bucket_at (t : RoutingTable) (i : nat) : Bucket := nth i (buckets t) Bucket_new.
Definition put_bucket (t : RoutingTable) (i : nat) (b : Bucket) : RoutingTable :=
  set_buckets t (<[i := b]> (buckets t)).

Definition verified_len (t : RoutingTable) : nat := verified (residents t).
Definition scale (t : RoutingTable) : NetworkScale := from_contacts (verified_len t).
Definition admission_scale (t : RoutingTable) : NetworkScale :=
  scale_max (scale t) (enforced_scale t).

Definition admits_addr (t : RoutingTable) (a : SocketAddr) : bool :=
  match judgeable_ip a with
  | Some v4 => match (admits (ip_gate t) v4).1 with Allowed => true | _ => false end
  | None => false
  end.
Definition definitely_blocked (t : RoutingTable) (a : SocketAddr) : bool :=
  match judgeable_ip a with
  | Some v4 => (is_definitely_blocked (ip_gate t) v4).1
  | None => true
  end.

Definition all_contacts (t : RoutingTable) : list EmberContact := buckets t ≫= contacts.
Definition cached_contacts (t : RoutingTable) : list EmberContact := buckets t ≫= replacement_cache.
Definition total_contacts (t : RoutingTable) : nat := sum_list (length ∘ contacts <$> buckets t).
Definition cached_len (t : RoutingTable) : nat :=
  sum_list (length ∘ replacement_cache <$> buckets t).
Definition held_len (t : RoutingTable) : nat := total_contacts t + cached_len t.
Definition verified_held (t : RoutingTable) : nat :=
  count_if is_verified (buckets t ≫= λ b, contacts b ++ replacement_cache b).

(** ** Quota bookkeeping *)
Definition release_subnet (t : RoutingTable) (subnet : Z) : RoutingTable :=
  set_subnets t (release subnet (global_subnet_count t)).
Definition release_ip (t : RoutingTable) (ip : IpAddr) : RoutingTable :=
  set_ips t (release ip (global_ip_count t)).
(** [*self.global_subnet_count.entry(subnet).or_insert(0) += 1], and for [ip]. *)
Definition claim_subnet (t : RoutingTable) (subnet : Z) : RoutingTable :=
  set_subnets t (incr subnet (global_subnet_count t)).
Definition claim_ip (t : RoutingTable) (ip : IpAddr) : RoutingTable :=
  set_ips t (incr ip (global_ip_count t)).
Definition residents_insert (t : RoutingTable) (c : EmberContact) : RoutingTable :=
  set_residents t (index_insert (residents t) c).
Definition residents_remove (t : RoutingTable) (c : EmberContact) : RoutingTable :=
  set_residents t (index_remove (residents t) c).

(** The three diversity caps, for a contact that is to occupy a slot of [b]. *)
Definition over_caps (t : RoutingTable) (b : Bucket) (s : NetworkScale) (c : EmberContact) : bool :=
  bool_decide (max_contacts_per_subnet_per_bucket s ≤ subnet_count b (subnet_key c))
  || bool_decide (max_contacts_per_subnet_global s ≤ count_at (subnet_key c) (global_subnet_count t))
  || bool_decide (max_contacts_per_ip s ≤ count_at (contact_ip c) (global_ip_count t)).

(** ** [add_to_cache] *)

(** A contact already cached under the same id. *)
Definition merge_cached (existing contact : EmberContact) : EmberContact :=
  if Z.leb (last_seen contact) 0 then existing
  else if is_verified existing && negb (bool_decide (noise_pub existing = repeat 0%Z 32))
          && negb (bool_decide (noise_pub contact = noise_pub existing))
  then existing
  else if is_verified contact && negb (is_verified existing) then contact
  else if Z.leb (last_seen existing) (last_seen contact)
  then mkContact (node_id existing) (addr contact) (noise_pub contact) (ed25519_pub contact)
         (last_seen contact) 0
  else existing.

(** What a full cache does with a newcomer: [None] refuses it, [Some l] is the
    cache with a place freed. *)
Definition make_cache_room (t : RoutingTable) (b : Bucket) (s : NetworkScale)
    (contact : EmberContact) : option (list EmberContact) :=
  let cache := replacement_cache b in
  let newcomer_unpromotable := over_caps t b s contact in
  match position (over_caps t b s) cache with
  | Some pos =>
      let victim_verified := default false (is_verified <$> cache !! pos) in
      if newcomer_unpromotable && negb (is_verified contact && negb victim_verified)
      then None
      else Some (delete pos cache)
  | None =>
      match position (λ c, negb (is_verified c)) cache with
      | Some pos => Some (delete pos cache)
      | None =>
          if negb (is_verified contact) then None
          else if newcomer_unpromotable then None
          else Some (tail cache)
      end
  end.

Definition add_to_cache (t : RoutingTable) (idx : nat) (contact : EmberContact)
    (s : NetworkScale) : RoutingTable :=
  let b := bucket_at t idx in
  match find b (node_id contact) with
  | Some _ => t
  | None =>
      match find_in_cache b (node_id contact) with
      | Some pos =>
          put_bucket t idx
            (set_cache b (alter (λ e, merge_cached e contact) pos (replacement_cache b)))
      | None =>
          let room :=
            if decide (K_BUCKET_SIZE ≤ length (replacement_cache b))
            then make_cache_room t b s contact
            else Some (replacement_cache b) in
          match room with
          | Some cache => put_bucket t idx (set_cache b (cache ++ [contact]))
          | None => t
          end
      end
  end.

(** ** [apply_resident_contact]

    The resident is taken out of its place and put back in the same place on
    every refusal, so refusals return the table unchanged. *)
Definition refresh_resident (existing contact : EmberContact) (a : SocketAddr) : EmberContact :=
  mkContact (node_id existing) a (noise_pub contact) (ed25519_pub contact) (last_seen contact) 0.

(** The quota moves of an admitted address change. *)
Definition move_quotas (t : RoutingTable) (existing contact : EmberContact) : RoutingTable :=
  let t := if Z.eqb (subnet_key contact) (subnet_key existing) then t
           else claim_subnet (release_subnet t (subnet_key existing)) (subnet_key contact) in
  if bool_decide (contact_ip contact = contact_ip existing) then t
  else claim_ip (release_ip t (contact_ip existing)) (contact_ip contact).

(** Whether a cap refuses the new address; [b] is the bucket
    without the resident. *)
Definition move_refused (t : RoutingTable) (b : Bucket) (existing contact : EmberContact)
    (max_per_ip max_subnet_global max_subnet_bucket : nat) : bool :=
  (negb (Z.eqb (subnet_key contact) (subnet_key existing)) &&
     (bool_decide (max_subnet_bucket ≤ subnet_count b (subnet_key contact))
      || bool_decide (max_subnet_global ≤ count_at (subnet_key contact) (global_subnet_count t))))
  || (negb (bool_decide (contact_ip contact = contact_ip existing)) &&
        bool_decide (max_per_ip ≤ count_at (contact_ip contact) (global_ip_count t))).

Definition apply_resident_contact (t : RoutingTable) (idx : nat) (contact : EmberContact)
    (max_per_ip max_subnet_global max_subnet_bucket : nat) (admit_new_addr : bool)
    : AddResult * RoutingTable :=
  let b := bucket_at t idx in
  match find b (node_id contact) with
  | None => (Rejected, t)
  | Some pos =>
      match contacts b !! pos with
      | None => (Rejected, t)
      | Some existing =>
          let without := set_contacts b (delete pos (contacts b)) in
          let moved := negb (bool_decide (addr contact = addr existing)) in
          if Z.leb (last_seen contact) 0 then (Added, t)
          else if is_verified existing && negb (bool_decide (noise_pub existing = repeat 0%Z 32))
                  && negb (bool_decide (noise_pub contact = noise_pub existing))
          then (Rejected, t)
          else if moved && negb admit_new_addr then (Added, t)
          else if moved && move_refused t without existing contact
                             max_per_ip max_subnet_global max_subnet_bucket
          then (Rejected, t)
          else
            let t := if moved then move_quotas t existing contact else t in
            let updated := refresh_resident existing contact
                             (if moved then addr contact else addr existing) in
            let ri := index_readdress (residents t) (node_id existing) (addr existing)
                        (addr updated) in
            let ri := index_restamp ri (is_verified existing) (is_verified updated) in
            let t := set_residents t ri in
            (Added, put_bucket t idx
                      (set_activity (set_contacts without (contacts without ++ [updated]))
                         (last_seen contact)))
      end
  end.

(** ** [add_contact] *)

(** The lead a verified newcomer may take the slot of: one at its address, else
    one in its /24, else, in a full bucket, any. *)
Definition lead_where (b : Bucket) (p : EmberContact → bool) : option nat :=
  position (λ c, negb (is_verified c) && p c) (contacts b).
Definition displaced_lead (b : Bucket) (contact : EmberContact) : option nat :=
  match lead_where b (λ c, bool_decide (contact_ip c = contact_ip contact)) with
  | Some pos => Some pos
  | None =>
      match lead_where b (λ c, Z.eqb (subnet_key c) (subnet_key contact)) with
      | Some pos => Some pos
      | None => if is_full b then lead_where b (λ _, true) else None
      end
  end.

(** Taking the slot of the lead at [pos]; the lead waits in the cache (lines
    927-942 and 1018-1039). *)
Definition displace (now : Z) (t : RoutingTable) (idx pos : nat) (evicted contact : EmberContact)
    (s : NetworkScale) : RoutingTable :=
  let b := bucket_at t idx in
  let b := set_contacts b (delete pos (contacts b)) in
  let b := set_cache b (retain (λ c, negb (has_id (node_id contact) c)) (replacement_cache b)) in
  let t := residents_insert (residents_remove t evicted) contact in
  let b := set_activity (set_contacts b (contacts b ++ [contact])) now in
  let t := put_bucket t idx b in
  let t := release_ip (release_subnet t (subnet_key evicted)) (contact_ip evicted) in
  let t := claim_ip (claim_subnet t (subnet_key contact)) (contact_ip contact) in
  add_to_cache t idx evicted s.

Definition refuse_policy (t : RoutingTable) : RoutingTable :=
  let r := refusals t in set_refusals t (mkRefusals (ip_policy r + 1) (subnet_refused r) (per_ip r)).
Definition refuse_subnet (t : RoutingTable) : RoutingTable :=
  let r := refusals t in set_refusals t (mkRefusals (ip_policy r) (subnet_refused r + 1) (per_ip r)).
Definition refuse_ip (t : RoutingTable) : RoutingTable :=
  let r := refusals t in set_refusals t (mkRefusals (ip_policy r) (subnet_refused r) (per_ip r + 1)).

(** A new contact the IP policy admits, the outranking of leads done: the caps,
    a free slot, a lead in a full bucket, or the probe of the oldest (lines
    948-1069). *)
Definition add_newcomer (now : Z) (t : RoutingTable) (idx : nat) (contact : EmberContact)
    (s : NetworkScale) : AddResult * RoutingTable :=
  let b := bucket_at t idx in
  let subnet := subnet_key contact in
  let ip := contact_ip contact in
  if decide (max_contacts_per_subnet_per_bucket s ≤ subnet_count b subnet) then
    let t := if is_verified contact then refuse_subnet t else t in
    (Rejected, add_to_cache t idx contact s)
  else if decide (max_contacts_per_subnet_global s ≤ count_at subnet (global_subnet_count t)) then
    let t := if is_verified contact then refuse_subnet t else t in
    (Rejected, add_to_cache t idx contact s)
  else if decide (max_contacts_per_ip s ≤ count_at ip (global_ip_count t)) then
    let t := if is_verified contact then refuse_ip t else t in
    (Rejected, add_to_cache t idx contact s)
  else if negb (is_full b) then
    let b := set_cache b (retain (λ c, negb (has_id (node_id contact) c)) (replacement_cache b)) in
    let t := residents_insert t contact in
    let t := put_bucket t idx (set_activity (set_contacts b (contacts b ++ [contact])) now) in
    (Added, claim_ip (claim_subnet t subnet) ip)
  else
    match (if is_verified contact then lead_where b (λ _, true) else None) with
    | Some pos =>
        match contacts b !! pos with
        | Some evicted => (Added, displace now t idx pos evicted contact s)
        | None => (Rejected, t)
        end
    | None =>
        match oldest_contact b with
        | None => (Rejected, t) (* [unwrap]: a full bucket has a front *)
        | Some oldest =>
            let oldest_in_doubt :=
              negb (is_verified oldest) || Z.ltb 0 (failed_queries oldest)
              || Z.leb CONTACT_TIMEOUT_SECS (i64_saturating_sub now (last_seen oldest)) in
            let t := add_to_cache t idx contact s in
            if negb oldest_in_doubt then (Rejected, t)
            else (PingOldest (addr oldest) (node_id oldest) (noise_pub oldest), t)
        end
    end.

(** Whether displacing the lead [evicted] keeps [contact] within the caps. *)
Definition displacement_ok (t : RoutingTable) (b : Bucket) (evicted contact : EmberContact)
    (s : NetworkScale) : bool :=
  let ip_ok :=
    bool_decide (contact_ip contact = contact_ip evicted)
    || bool_decide (count_at (contact_ip contact) (global_ip_count t) < max_contacts_per_ip s) in
  let subnet_ok :=
    Z.eqb (subnet_key evicted) (subnet_key contact)
    || (bool_decide (subnet_count b (subnet_key contact) < max_contacts_per_subnet_per_bucket s)
        && bool_decide (count_at (subnet_key contact) (global_subnet_count t)
                        < max_contacts_per_subnet_global s)) in
  ip_ok && subnet_ok.

(** Displacing an unverified lead where that makes room, else [add_newcomer]. *)
Definition add_admitted (now : Z) (t : RoutingTable) (idx : nat) (contact : EmberContact)
    (s : NetworkScale) : AddResult * RoutingTable :=
  let b := bucket_at t idx in
  let would_be_refused := is_full b || over_caps t b s contact in
  let victim :=
    if is_verified contact && would_be_refused then
      pos ← displaced_lead b contact;
      evicted ← contacts b !! pos;
      if displacement_ok t b evicted contact s then Some (pos, evicted) else None
    else None in
  match victim with
  | Some (pos, evicted) => (Added, displace now t idx pos evicted contact s)
  | None => add_newcomer now t idx contact s
  end.

Definition add_contact (now : Z) (t : RoutingTable) (contact : EmberContact)
    : AddResult * RoutingTable :=
  if bool_decide (node_id contact = local_id t) then (Rejected, t)
  else match bucket_index (local_id t) (node_id contact) with
  | None => (Rejected, t)
  | Some idx =>
      if decide (ID_BITS ≤ idx) then (Rejected, t)
      else
        let s := admission_scale t in
        let b := bucket_at t idx in
        match (pos ← find b (node_id contact); contacts b !! pos) with
        | Some existing =>
            let admit_new_addr :=
              bool_decide (addr contact = addr existing) || admits_addr t (addr contact) in
            apply_resident_contact t idx contact (max_contacts_per_ip s)
              (max_contacts_per_subnet_global s) (max_contacts_per_subnet_per_bucket s)
              admit_new_addr
        | None =>
            if negb (admits_addr t (addr contact)) then
              (Rejected, if is_verified contact then refuse_policy t else t)
            else add_admitted now t idx contact s
        end
  end.

(** ** Promotion from the replacement cache *)

(** The tests a cache entry must pass. *)
Definition promotable (t : RoutingTable) (b : Bucket) (exclude : option EmberNodeId)
    (s : NetworkScale) (c : EmberContact) : bool :=
  negb (bool_decide (Some (node_id c) = exclude))
  && bool_decide (find b (node_id c) = None)
  && admits_addr t (addr c)
  && negb (over_caps t b s c).

(** The loop over [(0..len).rev()]: [n] entries are left to look at. *)
Fixpoint promotable_scan (t : RoutingTable) (b : Bucket) (exclude : option EmberNodeId)
    (s : NetworkScale) (n : nat) (lead : option nat) : option nat :=
  match n with
  | 0 => lead
  | S i =>
      match replacement_cache b !! i with
      | None => promotable_scan t b exclude s i lead
      | Some c =>
          if negb (promotable t b exclude s c) then promotable_scan t b exclude s i lead
          else if is_verified c then Some i
          else promotable_scan t b exclude s i (match lead with None => Some i | _ => lead end)
      end
  end.
Definition best_promotable_cached (t : RoutingTable) (idx : nat) (exclude : option EmberNodeId)
    (s : NetworkScale) : option nat :=
  let b := bucket_at t idx in
  promotable_scan t b exclude s (length (replacement_cache b)) None.

(** Moving cache entry [i] into the bucket with its quotas and index entries. *)
Definition promote_entry (t : RoutingTable) (idx i : nat) (c : EmberContact) : RoutingTable :=
  let b := bucket_at t idx in
  let b := set_cache b (delete i (replacement_cache b)) in
  let t := claim_ip (claim_subnet t (subnet_key c)) (contact_ip c) in
  let t := residents_insert t c in
  put_bucket t idx (set_contacts b (contacts b ++ [c])).

(** [while !self.buckets[idx].is_full() { ... }]; each round fills one slot, so
    [K_BUCKET_SIZE] rounds are enough. *)
Fixpoint promote_bucket (fuel : nat) (t : RoutingTable) (idx : nat) (s : NetworkScale)
    (promoted : nat) : nat * RoutingTable :=
  match fuel with
  | 0 => (promoted, t)
  | S fuel =>
      if is_full (bucket_at t idx) then (promoted, t)
      else match (i ← best_promotable_cached t idx None s;
                  c ← replacement_cache (bucket_at t idx) !! i; Some (i, c)) with
           | None => (promoted, t)
           | Some (i, c) => promote_bucket fuel (promote_entry t idx i c) idx s (S promoted)
           end
  end.
Definition promote_step (now : Z) (acc : nat * RoutingTable) (idx : nat) : nat * RoutingTable :=
  let '(promoted, t) := acc in
  if bool_decide (replacement_cache (bucket_at t idx) = []) then (promoted, t)
  else
    let '(n, t) := promote_bucket K_BUCKET_SIZE t idx (admission_scale t) 0 in
    let t := if decide (n = 0) then t else put_bucket t idx (set_activity (bucket_at t idx) now) in
    (promoted + n, t).
Definition promote_cached_contacts (now : Z) (t : RoutingTable) : nat * RoutingTable :=
  foldl (promote_step now) (0, t) (seq 0 (length (buckets t))).

(** ** Leaving the table *)

(** A resident taken out of its slot: quotas released, index updated (lines
    485-488, 1263-1266 and 1327-1330). *)
Definition detach (t : RoutingTable) (idx pos : nat) (c : EmberContact) : RoutingTable :=
  let b := bucket_at t idx in
  let t := put_bucket t idx (set_contacts b (delete pos (contacts b))) in
  let t := release_ip (release_subnet t (subnet_key c)) (contact_ip c) in
  residents_remove t c.

(** The resident with an id, with its bucket and position. *)
Definition locate (t : RoutingTable) (id : EmberNodeId) : option (nat * nat * EmberContact) :=
  idx ← bucket_index (local_id t) id;
  if decide (ID_BITS ≤ idx) then None
  else pos ← find (bucket_at t idx) id;
       c ← contacts (bucket_at t idx) !! pos;
       Some (idx, pos, c).

Definition evict_and_replace (now : Z) (t : RoutingTable) (dead_id : EmberNodeId)
    : bool * RoutingTable :=
  match locate t dead_id with
  | None => (false, t)
  | Some (idx, pos, removed) =>
      let t := detach t idx pos removed in
      match (i ← best_promotable_cached t idx (Some dead_id) (admission_scale t);
             c ← replacement_cache (bucket_at t idx) !! i; Some (i, c)) with
      | Some (i, c) =>
          let t := promote_entry t idx i c in
          (true, put_bucket t idx (set_activity (bucket_at t idx) now))
      | None => (false, t)
      end
  end.

Definition remove_contact (t : RoutingTable) (id : EmberNodeId) : bool * RoutingTable :=
  match locate t id with
  | None => (false, t)
  | Some (idx, pos, removed) => (true, detach t idx pos removed)
  end.

(** ** Liveness *)
Definition mark_alive (now : Z) (t : RoutingTable) (id : EmberNodeId) (a : SocketAddr)
    (noise : bytes) : RoutingTable :=
  match locate t id with
  | None => t
  | Some (idx, pos, held) =>
      if bool_decide (addr held = a) && bool_decide (noise_pub held = noise) then
        let b := bucket_at t idx in
        let c := with_failed (with_last_seen held now) 0 in
        let t := set_residents t
                   (index_restamp (residents t) (is_verified held) (is_verified c)) in
        put_bucket t idx (set_activity (set_contacts b (delete pos (contacts b) ++ [c])) now)
      else t
  end.

Definition mark_failed (t : RoutingTable) (id : EmberNodeId) : bool * RoutingTable :=
  match locate t id with
  | None => (false, t)
  | Some (idx, pos, c) =>
      let b := bucket_at t idx in
      let c := with_failed c (u8_saturating_add (failed_queries c) 1) in
      (Z.leb MAX_FAILED_QUERIES (failed_queries c),
       put_bucket t idx (set_contacts b (<[pos := c]> (contacts b))))
  end.

(** ** Staleness *)

(** One contact of [clamp_future_timestamps]: the contact, whether it moved. *)
Definition clamp_contact (limit now : Z) (c : EmberContact) : EmberContact * bool :=
  if Z.ltb limit (last_seen c) then (with_last_seen c now, true) else (c, false).
Definition clamp_residents (limit now : Z) (ri : ResidentIndex) (l : list EmberContact)
    : ResidentIndex :=
  foldl (λ ri c, let '(c', moved) := clamp_contact limit now c in
                 if moved then index_restamp ri (is_verified c) (is_verified c') else ri) ri l.
Definition clamp_bucket (limit now : Z) (acc : nat * ResidentIndex * list Bucket) (b : Bucket)
    : nat * ResidentIndex * list Bucket :=
  let '(clamped, ri, done) := acc in
  let late := Z.ltb limit (last_activity b) in
  let moved l := count_if (λ c, (clamp_contact limit now c).2) l in
  (clamped + (if late then 1 else 0) + moved (contacts b ++ replacement_cache b),
   clamp_residents limit now ri (contacts b),
   done ++ [mkBucket (fst ∘ clamp_contact limit now <$> contacts b)
              (fst ∘ clamp_contact limit now <$> replacement_cache b)
              (if late then now else last_activity b)]).
Definition clamp_future_timestamps (now : Z) (t : RoutingTable) : nat * RoutingTable :=
  let limit := i64_saturating_add now CLOCK_STEP_SLACK_SECS in
  let '(clamped, ri, bs) := foldl (clamp_bucket limit now) (0, residents t, []) (buckets t) in
  (clamped, set_residents (set_buckets t bs) ri).

(** One round of [for id in &doomed { if evict(id) { removed += 1; } }]. *)
Definition count_removed {T ContactId} (evict : T → ContactId → bool * T)
    (acc : nat * T) (id : ContactId) : nat * T :=
  let '(gone, t) := evict acc.2 id in ((if gone then S acc.1 else acc.1), t).
Definition remove_all (t : RoutingTable) (ids : list EmberNodeId) : nat * RoutingTable :=
  foldl (count_removed remove_contact) (0, t) ids.

Definition remove_stale (now max_age_secs : Z) (in_use : gset EmberNodeId) (t : RoutingTable)
    : nat * RoutingTable :=
  let t := (clamp_future_timestamps now t).2 in
  let doomed := node_id <$>
    retain (λ c, is_verified c && is_stale now (last_seen c) max_age_secs
                 && negb (bool_decide (node_id c ∈ in_use))) (all_contacts t) in
  let '(removed, t) := remove_all t doomed in
  let keep c := negb (is_verified c) || negb (is_stale now (last_seen c) max_age_secs)
                || bool_decide (node_id c ∈ in_use) in
  (removed, set_buckets t ((λ b, set_cache b (retain keep (replacement_cache b))) <$> buckets t)).

(** ** The policy sweep

    The [PolicyEvictable] trait of [dht_common.rs] and the sweep generic in it. *)
Class PolicyEvictable (T ContactId : Type) := {
  pe_ip_gate : T → IpAdmissionGate;
  pe_resident_contacts : T → list (ContactId * option Ipv4Addr);
  pe_evict_contact : T → ContactId → bool * T;
}.

Definition evict_blocked_contacts `{PolicyEvictable T ContactId} (table : T) : nat * T :=
  let gate := pe_ip_gate table in
  let doomed := fst <$>
    retain (λ '(_, ip), match ip with
                        | Some ip => (is_definitely_blocked gate ip).1
                        | None => true
                        end) (pe_resident_contacts table) in
  foldl (count_removed pe_evict_contact) (0, table) doomed.

#[export] Instance RoutingTable_PolicyEvictable : PolicyEvictable RoutingTable EmberNodeId := {
  pe_ip_gate := ip_gate;
  pe_resident_contacts t := (λ c, (node_id c, judgeable_ip (addr c))) <$> all_contacts t;
  pe_evict_contact := remove_contact;
}.

Definition drop_cached (t : RoutingTable) (x : nat * EmberNodeId) : RoutingTable :=
  let '(idx, id) := x in
  let b := bucket_at t idx in
  put_bucket t idx (set_cache b (retain (λ c, negb (has_id id c)) (replacement_cache b))).
Definition evict_filtered_contacts (now : Z) (t : RoutingTable) : nat * RoutingTable :=
  let '(removed, t) := evict_blocked_contacts t in
  let blocked_cached :=
    imap (λ idx b, (λ c, (idx, node_id c)) <$>
                   retain (λ c, definitely_blocked t (addr c)) (replacement_cache b)) (buckets t) in
  let t := foldl drop_cached t (concat blocked_cached) in
  (removed, (promote_cached_contacts now t).2).

Definition set_block_private_ips (now : Z) (t : RoutingTable) (block_private : bool)
    : nat * RoutingTable :=
  let '(enabling, g) := gate_set_block_private_ips (ip_gate t) block_private in
  let t := set_gate t g in
  if enabling then evict_filtered_contacts now t else (0, t).

(** ** [enforce_scale_quotas] *)

(** Proven before unproven, then most recently heard from, then by id. *)
Definition ranked_le (a b : nat * EmberContact) : bool :=
  match Bool.compare (is_verified b.2) (is_verified a.2) with
  | Lt => true
  | Gt => false
  | Eq => match Z.compare (last_seen b.2) (last_seen a.2) with
          | Lt => true
          | Gt => false
          | Eq => bytes_le (node_id a.2) (node_id b.2)
          end
  end.
Definition ranked_residents (t : RoutingTable) : list (nat * EmberContact) :=
  stable_sort ranked_le (concat (imap (λ idx b, pair idx <$> contacts b) (buckets t))).

(** The counters of the re-admission pass. *)
Record quota_counts := mkQuota {
  per_bucket_subnet : gmap (nat * Z) nat;
  per_subnet : gmap Z nat;
  per_address : gmap IpAddr nat;
}.
Definition readmit (s : NetworkScale) (acc : quota_counts * list (nat * EmberContact))
    (x : nat * EmberContact) : quota_counts * list (nat * EmberContact) :=
  let '(q, doomed) := acc in
  let '(idx, c) := x in
  let subnet := subnet_key c in
  let ip := contact_ip c in
  if decide (max_contacts_per_subnet_per_bucket s ≤ count_at (idx, subnet) (per_bucket_subnet q)
             ∨ max_contacts_per_subnet_global s ≤ count_at subnet (per_subnet q)
             ∨ max_contacts_per_ip s ≤ count_at ip (per_address q))
  then (q, doomed ++ [(idx, c)])
  else (mkQuota (incr (idx, subnet) (per_bucket_subnet q)) (incr subnet (per_subnet q))
          (incr ip (per_address q)), doomed).
Definition over_quota (s : NetworkScale) (t : RoutingTable) : list (nat * EmberContact) :=
  (foldl (readmit s) (mkQuota ∅ ∅ ∅, []) (ranked_residents t)).2.

(** Demoting one doomed resident. *)
Definition demote (s : NetworkScale) (acc : list (nat * EmberNodeId) * RoutingTable)
    (x : nat * EmberNodeId) : list (nat * EmberNodeId) * RoutingTable :=
  let '(moved, t) := acc in
  let '(idx, id) := x in
  match (pos ← find (bucket_at t idx) id;
         c ← contacts (bucket_at t idx) !! pos; Some (pos, c)) with
  | None => (moved, t)
  | Some (pos, c) => (moved ++ [(idx, id)], add_to_cache (detach t idx pos c) idx c s)
  end.

Definition enforce_scale_quotas (t : RoutingTable) : nat * RoutingTable :=
  let verified := verified_len t in
  let floor := from_contacts (usize_saturating_mul (verified_held t) 5 / 4) in
  let t := if decide (scale_rank floor < scale_rank (enforced_scale t))
           then set_enforced t floor else t in
  let target := from_contacts (verified * 4 / 5) in
  if decide (scale_rank target ≤ scale_rank (enforced_scale t)) then (0, t)
  else
    let t := set_enforced t target in
    let doomed := (λ x, (x.1, node_id x.2)) <$> over_quota target t in
    let '(moved, t) := foldl (demote target) ([], t) doomed in
    let demoted := count_if (λ '(idx, id),
      bool_decide (is_Some (find_in_cache (bucket_at t idx) id))) moved in
    (demoted, t).

(** [load_contacts]; each contact with the clock reading of its insertion. *)
Definition load_contacts (t : RoutingTable) (l : list (Z * EmberContact))
    : list EmberNodeId * RoutingTable :=
  foldl (λ '(admitted, t) '(now, c),
           let '(r, t) := add_contact now t c in
           ((match r with Added => admitted ++ [node_id c] | _ => admitted end), t)) ([], t) l.
