(* ===== verification/RoutingInv.v ===== *)
(** * The routing table's invariant

    Every operation of [RoutingTable] keeps [ID_BITS] buckets, at most
    [K_BUCKET_SIZE] residents and cache entries in each, every contact in the
    bucket its id belongs to, no id held twice, every held address allowed by
    the IP policy, and the incrementally kept counters and address index equal
    to a recount of the residents. *)
From S2P Require Import Prelude NodeId Addr IpFilter Contact RoutingTable.

(** ** The address index and the counters against a recount *)
Definition ids_at (a : SocketAddr) (l : list EmberContact) : list EmberNodeId :=
  node_id <$> filter (λ c, addr c = a) l.

Definition addr_index_ok (m : gmap SocketAddr (list EmberNodeId)) (l : list EmberContact) : Prop :=
  ∀ a, default [] (m !! a) ≡ₚ ids_at a l ∧ m !! a ≠ Some [].

Definition index_ok (ri : ResidentIndex) (l : list EmberContact) : Prop :=
  verified ri = count_if is_verified l ∧ addr_index_ok (by_addr ri) l.

(** The counters and the index describe exactly the residents [l]. *)
Record indexed (t : RoutingTable) (l : list EmberContact) : Prop := mkIndexed {
  indexed_subnets : global_subnet_count t = tally (subnet_key <$> l);
  indexed_ips : global_ip_count t = tally (contact_ip <$> l);
  indexed_residents : index_ok (residents t) l;
}.

Lemma ids_at_cons a c l :
  ids_at a (c :: l) = (if decide (addr c = a) then node_id c :: ids_at a l else ids_at a l).
Proof. unfold ids_at. rewrite filter_cons. by case_decide. Qed.

#[export] Instance ids_at_proper a : Proper ((≡ₚ) ==> (≡ₚ)) (ids_at a).
Proof. intros l k Hlk. unfold ids_at. by apply fmap_Permutation, filter_Permutation. Qed.

#[export] Instance index_ok_proper ri : Proper ((≡ₚ) ==> iff) (index_ok ri).
Proof.
  intros l k Hlk. unfold index_ok, addr_index_ok. rewrite (count_if_proper is_verified _ _ Hlk).
  by setoid_rewrite Hlk.
Qed.

#[export] Instance indexed_proper t : Proper ((≡ₚ) ==> iff) (indexed t).
Proof.
  intros l k Hlk. split; intros [H1 H2 H3]; split; try (by rewrite ?H1, ?H2, Hlk); by rewrite Hlk || rewrite <- Hlk.
Qed.

(** [index_link] and [index_unlink] on the map alone. *)
Definition link (m : gmap SocketAddr (list EmberNodeId)) id a :=
  by_addr (index_link (mkIndex 0 m) id a).
Definition unlink (m : gmap SocketAddr (list EmberNodeId)) id a :=
  by_addr (index_unlink (mkIndex 0 m) id a).

Lemma index_link_eq ri id a : index_link ri id a = mkIndex (verified ri) (link (by_addr ri) id a).
Proof. done. Qed.
Lemma index_unlink_eq ri id a :
  index_unlink ri id a = mkIndex (verified ri) (unlink (by_addr ri) id a).
Proof. unfold unlink, index_unlink. simpl. destruct ri as [v m]; simpl. by destruct (m !! a). Qed.

Lemma link_ok m c l :
  addr_index_ok m l → addr_index_ok (link m (node_id c) (addr c)) (c :: l).
Proof.
  intros Hm a. destruct (Hm a) as [Hp Hne]. unfold link, index_link; simpl. rewrite ids_at_cons.
  destruct (decide (addr c = a)) as [<-|Hna].
  - rewrite lookup_insert_eq; simpl. split; [|intros [= E]; by destruct (default [] _)].
    rewrite Hp. by rewrite <- Permutation_cons_append.
  - by rewrite lookup_insert_ne.
Qed.

Lemma unlink_ok m c l :
  addr_index_ok m (c :: l) → addr_index_ok (unlink m (node_id c) (addr c)) l.
Proof.
  intros Hm a. destruct (Hm a) as [Hp Hne]. unfold unlink, index_unlink; simpl.
  rewrite ids_at_cons in Hp. destruct (decide (addr c = a)) as [<-|Hna].
  - destruct (m !! addr c) as [ids|] eqn:E; simpl in *.
    2:{ by apply Permutation_nil_cons in Hp. }
    destruct (position _ ids) as [i|] eqn:Ei.
    2:{ apply position_None in Ei. assert (node_id c ∈ ids) as Hin by (rewrite Hp; left).
        rewrite Forall_forall in Ei. specialize (Ei _ Hin). by rewrite bool_decide_eq_false in Ei. }
    apply position_lookup in Ei as (x & Hx & ->%bool_decide_eq_true).
    assert (swap_remove i ids ≡ₚ ids_at (addr c) l) as Hs.
    { rewrite (swap_remove_perm _ _ _ Hx). apply (Permutation_cons_inv (a := node_id c)).
      by rewrite <- (delete_Permutation _ _ _ Hx). }
    case_bool_decide as Eb; [rewrite lookup_delete_eq|rewrite lookup_insert_eq]; simpl.
    + split; [|done]. by rewrite <- Hs, Eb.
    + split; [done|]. intros [= ?]. done.
  - destruct (m !! addr c) as [ids|] eqn:E; [|done]. simpl.
    case_bool_decide; [by rewrite lookup_delete_ne|by rewrite lookup_insert_ne].
Qed.

Lemma index_insert_ok ri c l : index_ok ri l → index_ok (index_insert ri c) (c :: l).
Proof.
  intros [Hv Hm]. unfold index_insert. rewrite index_link_eq. split; simpl; [|by apply link_ok].
  rewrite count_if_cons, Hv. done.
Qed.

Lemma index_remove_ok ri c l : index_ok ri (c :: l) → index_ok (index_remove ri c) l.
Proof.
  intros [Hv Hm]. unfold index_remove. rewrite index_unlink_eq. split; simpl; [|by apply unlink_ok].
  rewrite count_if_cons in Hv. destruct (is_verified c); lia.
Qed.

Lemma index_update_ok ri c c' l :
  index_ok ri (c :: l) → node_id c' = node_id c →
  index_ok (index_restamp (index_readdress ri (node_id c) (addr c) (addr c'))
              (is_verified c) (is_verified c')) (c' :: l).
Proof.
  intros [Hv Hm] Hid. split; simpl.
  - assert (verified (index_readdress ri (node_id c) (addr c) (addr c')) = verified ri) as ->.
    { unfold index_readdress. case_bool_decide; [done|]. by rewrite index_link_eq, index_unlink_eq. }
    rewrite count_if_cons in *. destruct (is_verified c), (is_verified c'); lia.
  - unfold index_readdress. case_bool_decide as Ha.
    + intros a. destruct (Hm a) as [Hp Hne]. split; [|done]. rewrite Hp, !ids_at_cons.
      by rewrite Ha, Hid.
    + rewrite index_link_eq, index_unlink_eq; simpl. rewrite <- Hid.
      apply link_ok. rewrite Hid. by apply unlink_ok.
Qed.

Lemma index_restamp_ok ri c c' l :
  index_ok ri (c :: l) → node_id c' = node_id c → addr c' = addr c →
  index_ok (index_restamp ri (is_verified c) (is_verified c')) (c' :: l).
Proof.
  intros H Hid Ha. pose proof (index_update_ok ri c c' l H Hid) as H'.
  unfold index_readdress in H'. by rewrite bool_decide_true in H' by done.
Qed.

(** ** Entering and leaving the indexed set *)

(** [t'] is [t] with [c]'s quotas claimed and [c] entered in the index. *)
Record entered (c : EmberContact) (t t' : RoutingTable) : Prop := mkEntered {
  entered_subnets : global_subnet_count t' = incr (subnet_key c) (global_subnet_count t);
  entered_ips : global_ip_count t' = incr (contact_ip c) (global_ip_count t);
  entered_residents : residents t' = index_insert (residents t) c;
}.

(** [t'] is [t] with [c]'s quotas released and [c] dropped from the index. *)
Record left_index (c : EmberContact) (t t' : RoutingTable) : Prop := mkLeft {
  left_subnets : global_subnet_count t' = release (subnet_key c) (global_subnet_count t);
  left_ips : global_ip_count t' = release (contact_ip c) (global_ip_count t);
  left_residents : residents t' = index_remove (residents t) c;
}.

Lemma indexed_enter c t t' l : entered c t t' → indexed t l → indexed t' (c :: l).
Proof.
  intros [E1 E2 E3] [H1 H2 H3]. split; simpl.
  - by rewrite E1, H1.
  - by rewrite E2, H2.
  - rewrite E3. by apply index_insert_ok.
Qed.

Lemma indexed_leave c t t' l : left_index c t t' → indexed t (c :: l) → indexed t' l.
Proof.
  intros [E1 E2 E3] [H1 H2 H3]. split.
  - by rewrite E1, H1, fmap_cons, release_tally.
  - by rewrite E2, H2, fmap_cons, release_tally.
  - rewrite E3. by apply index_remove_ok.
Qed.

(** The index does not look at buckets, gate, refusals or the enforced tier. *)
Lemma indexed_ext t t' l :
  global_subnet_count t' = global_subnet_count t → global_ip_count t' = global_ip_count t →
  residents t' = residents t → indexed t l → indexed t' l.
Proof. intros E1 E2 E3 [H1 H2 H3]. split; by rewrite ?E1, ?E2, ?E3. Qed.

(** ** One bucket *)
Section held.
Context (P : SocketAddr → Prop) (local : EmberNodeId) (i : nat).

(** What a bucket holds, residents and cache together: distinct ids, all of
    this bucket, every address within the policy [P]. *)
Record held_ok (l : list EmberContact) : Prop := mkHeld {
  held_nodup : NoDup (node_id <$> l);
  held_place : Forall (λ c, bucket_index local (node_id c) = Some i) l;
  held_policy : Forall (λ c, P (addr c)) l;
}.

Record bucket_ok (b : Bucket) : Prop := mkBucketOk {
  bucket_len : length (contacts b) ≤ K_BUCKET_SIZE;
  bucket_cache_len : length (replacement_cache b) ≤ K_BUCKET_SIZE;
  bucket_held : held_ok (contacts b ++ replacement_cache b);
}.

#[export] Instance held_ok_proper : Proper ((≡ₚ) ==> iff) held_ok.
Proof. intros l k H. split; intros [H1 H2 H3]; split; by rewrite H || rewrite <- H. Qed.

Lemma held_ok_submseteq l k : k ⊆+ l → held_ok l → held_ok k.
Proof.
  intros Hs [H1 H2 H3]. apply submseteq_Permutation in Hs as [m Hm].
  rewrite Hm in H2, H3. apply Forall_app in H2 as [? _], H3 as [? _].
  split; [|done..]. rewrite Hm, fmap_app in H1. by apply NoDup_app in H1 as [? _].
Qed.

Lemma held_ok_cons c l :
  held_ok (c :: l) ↔
  node_id c ∉ (node_id <$> l) ∧ bucket_index local (node_id c) = Some i ∧ P (addr c) ∧ held_ok l.
Proof.
  split.
  - intros [[? ?]%NoDup_cons [? ?]%Forall_cons [? ?]%Forall_cons]. done.
  - intros (? & ? & ? & [? ? ?]). split; [by apply NoDup_cons|by apply Forall_cons..].
Qed.

Lemma held_ok_app_r l k : held_ok (l ++ k) → held_ok k.
Proof. apply held_ok_submseteq, submseteq_inserts_l. done. Qed.

(** Replacing an entry by one with the same id and an admitted address. *)
Lemma held_ok_update c c' l :
  held_ok (c :: l) → node_id c' = node_id c → P (addr c') → held_ok (c' :: l).
Proof. rewrite !held_ok_cons. intros (? & ? & _ & ?) -> ?. done. Qed.

Lemma held_ok_elem c l : c ∈ l → held_ok l → bucket_index local (node_id c) = Some i ∧ P (addr c).
Proof. intros Hc [_ Hp Hq]. rewrite Forall_forall in Hp, Hq. auto. Qed.

Lemma held_ok_insert pos c c' l :
  l !! pos = Some c → held_ok l → node_id c' = node_id c → P (addr c') →
  held_ok (<[pos := c']> l).
Proof.
  intros Hc Hl Hid HP. rewrite insert_take_drop by (by eapply lookup_lt_Some).
  rewrite <- (take_drop_middle _ _ _ Hc) in Hl. rewrite <- Permutation_middle in Hl |- *.
  by eapply held_ok_update.
Qed.

Lemma held_ok_insert_r pos c c' k l :
  l !! pos = Some c → held_ok (k ++ l) → node_id c' = node_id c → P (addr c') →
  held_ok (k ++ <[pos := c']> l).
Proof.
  intros Hc Hl Hid HP. replace pos with (length k + pos - length k) in Hc by lia.
  rewrite <- (lookup_app_r k) in Hc by lia. rewrite <- (insert_app_r k).
  by eapply held_ok_insert.
Qed.

Lemma held_ok_insert_l pos c c' k l :
  l !! pos = Some c → held_ok (l ++ k) → node_id c' = node_id c → P (addr c') →
  held_ok (<[pos := c']> l ++ k).
Proof. intros Hc. rewrite !(Permutation_app_comm _ k). by apply held_ok_insert_r. Qed.
End held.

Lemma delete_submseteq {A} (l : list A) i : delete i l ⊆+ l.
Proof. apply sublist_submseteq, sublist_delete. Qed.

Lemma retain_submseteq {A} p (l : list A) : retain p l ⊆+ l.
Proof. apply sublist_submseteq, retain_sublist. Qed.

Lemma find_None b id : find b id = None ↔ id ∉ (node_id <$> contacts b).
Proof.
  unfold find. rewrite position_None, Forall_forall, list_elem_of_fmap. unfold has_id. split.
  - intros H (c & -> & Hc). specialize (H c Hc). by rewrite bool_decide_eq_false in H.
  - intros H c Hc. apply bool_decide_eq_false. intros <-. eauto.
Qed.

Lemma find_in_cache_None b id : find_in_cache b id = None ↔ id ∉ (node_id <$> replacement_cache b).
Proof. apply (find_None (mkBucket (replacement_cache b) [] 0)). Qed.

Lemma find_Some b id pos :
  find b id = Some pos → ∃ c, contacts b !! pos = Some c ∧ node_id c = id.
Proof. intros (c & Hc & E%bool_decide_eq_true)%position_lookup. eauto. Qed.

Lemma find_in_cache_Some b id pos :
  find_in_cache b id = Some pos → ∃ c, replacement_cache b !! pos = Some c ∧ node_id c = id.
Proof. intros (c & Hc & E%bool_decide_eq_true)%position_lookup. eauto. Qed.

(** ** The whole table *)
Definition others (t : RoutingTable) (i : nat) : list EmberContact :=
  delete i (buckets t) ≫= contacts.

(** The invariant of the table of node [L] behind the gate [g], relative to an
    address policy [P]; [wf] below is the table's own. *)
Record wf_for (P : SocketAddr → Prop) (L : EmberNodeId) (g : IpAdmissionGate)
    (t : RoutingTable) : Prop := mkWf {
  wf_local : local_id t = L;
  wf_gate : ip_gate t = g;
  wf_length : length (buckets t) = ID_BITS;
  wf_buckets : ∀ i b, buckets t !! i = Some b → bucket_ok P L i b;
  wf_indexed : indexed t (all_contacts t);
}.

Definition addr_ok (g : IpAdmissionGate) (a : SocketAddr) : Prop :=
  ∃ v4, judgeable_ip a = Some v4 ∧ is_valid_contact_ip v4 (block_private_ips g) = true.

(** No range filter is ever attached to the gate of this table. *)
Record wf (t : RoutingTable) : Prop := mkTableWf {
  wf_no_ranges : range_filter (ip_gate t) = None;
  wf_table : wf_for (addr_ok (ip_gate t)) (local_id t) (ip_gate t) t;
}.

Section wf.
Context {P : SocketAddr → Prop} {L : EmberNodeId} {g : IpAdmissionGate}.
Implicit Types t : RoutingTable.

Lemma bucket_at_lookup t i : i < length (buckets t) → buckets t !! i = Some (bucket_at t i).
Proof.
  intros Hi. unfold bucket_at. destruct (lookup_lt_is_Some_2 _ _ Hi) as [b Hb].
  rewrite Hb. f_equal. symmetry. by apply nth_lookup_Some.
Qed.

Lemma bucket_at_put_eq t i b : i < length (buckets t) → bucket_at (put_bucket t i b) i = b.
Proof.
  intros Hi. unfold bucket_at, put_bucket; simpl. apply nth_lookup_Some.
  by apply list_lookup_insert_eq.
Qed.

Lemma bucket_at_put_ne t i j b : i ≠ j → bucket_at (put_bucket t i b) j = bucket_at t j.
Proof.
  intros Hij. unfold bucket_at, put_bucket; simpl.
  rewrite !nth_lookup. by rewrite list_lookup_insert_ne.
Qed.

Lemma all_contacts_split t i :
  i < length (buckets t) → all_contacts t ≡ₚ contacts (bucket_at t i) ++ others t i.
Proof.
  intros Hi. unfold all_contacts, others.
  rewrite (delete_Permutation _ _ _ (bucket_at_lookup t i Hi)) at 1. done.
Qed.

Lemma all_contacts_put t i b :
  i < length (buckets t) → all_contacts (put_bucket t i b) ≡ₚ contacts b ++ others t i.
Proof.
  intros Hi. rewrite (all_contacts_split _ i) by (simpl; by rewrite length_insert).
  rewrite bucket_at_put_eq by done. unfold others, put_bucket; simpl.
  by rewrite delete_insert_list.
Qed.

Lemma wf_at t i :
  wf_for P L g t → i < ID_BITS →
  i < length (buckets t) ∧ bucket_ok P L i (bucket_at t i) ∧
  indexed t (contacts (bucket_at t i) ++ others t i).
Proof.
  intros [_ _ Hl Hb Hi] H. rewrite <- Hl in H. split; [done|]. split.
  - apply Hb. by apply bucket_at_lookup.
  - by rewrite <- all_contacts_split.
Qed.

(** How every operation on one bucket is shown to keep the invariant: the new
    bucket is sound and the counters and index describe the new residents. *)
Lemma wf_put t t' i b l :
  wf_for P L g t → i < ID_BITS →
  local_id t' = local_id t → ip_gate t' = ip_gate t → buckets t' = <[i := b]> (buckets t) →
  bucket_ok P L i b →
  contacts b ++ others t i ≡ₚ l → indexed t' l → wf_for P L g t'.
Proof.
  intros Hw Hi El Eg Eb Hok Hperm Hidx. destruct (wf_at _ _ Hw Hi) as (Hlt & _ & _).
  destruct Hw as [HL Hg Hl Hb _]. split; [congruence..| | |].
  - by rewrite Eb, length_insert.
  - intros j b' Hj. rewrite Eb in Hj.
    apply list_lookup_insert_Some in Hj as [(-> & -> & _)|[_ Hj]]; auto.
  - assert (all_contacts t' ≡ₚ l) as ->; [|done]. rewrite <- Hperm.
    rewrite <- all_contacts_put by done. unfold all_contacts, put_bucket; simpl. by rewrite Eb.
Qed.

(** ** The replacement cache *)
Lemma make_cache_room_spec t b s c l :
  make_cache_room t b s c = Some l → replacement_cache b ≠ [] →
  l ⊆+ replacement_cache b ∧ S (length l) = length (replacement_cache b).
Proof.
  assert (∀ pos p, position p (replacement_cache b) = Some pos →
    delete pos (replacement_cache b) ⊆+ replacement_cache b ∧
    S (length (delete pos (replacement_cache b))) = length (replacement_cache b)) as Hdel.
  { intros pos p (x & Hx & _)%position_lookup. split; [apply delete_submseteq|].
    rewrite length_delete by eauto. apply lookup_lt_Some in Hx. lia. }
  unfold make_cache_room. destruct (position (over_caps t b s) _) as [pos|] eqn:E1.
  - destruct (_ && _); [done|]. intros [= <-] _. by eapply Hdel.
  - destruct (position (λ c, negb (is_verified c)) _) as [pos|] eqn:E2.
    + intros [= <-] _. by eapply Hdel.
    + destruct (negb _); [done|]. destruct (over_caps t b s c); [done|]. intros [= <-].
      destruct (replacement_cache b) as [|x k]; [done|]. intros _. split; [|done].
      by apply submseteq_cons.
Qed.

Lemma merge_cached_id e c : node_id e = node_id c → node_id (merge_cached e c) = node_id e.
Proof. intros E. unfold merge_cached. by repeat case_match. Qed.

Lemma merge_cached_addr e c : addr (merge_cached e c) = addr e ∨ addr (merge_cached e c) = addr c.
Proof. unfold merge_cached. repeat case_match; auto. Qed.

(** [add_to_cache] either leaves the table or rewrites one bucket's cache, to a
    sound one. *)
Lemma add_to_cache_cases t idx c s :
  bucket_ok P L idx (bucket_at t idx) →
  bucket_index L (node_id c) = Some idx → P (addr c) →
  add_to_cache t idx c s = t ∨
  ∃ l, add_to_cache t idx c s = put_bucket t idx (set_cache (bucket_at t idx) l) ∧
       bucket_ok P L idx (set_cache (bucket_at t idx) l).
Proof.
  intros [Hl Hcl Hh] Hidx HP. unfold add_to_cache. set (b := bucket_at t idx) in *.
  destruct (find b (node_id c)) as [|] eqn:Hf; [by left|]. apply find_None in Hf.
  destruct (find_in_cache b (node_id c)) as [pos|] eqn:Hc.
  - right. eexists; split; [done|]. split; simpl; [done|by rewrite length_alter|].
    apply find_in_cache_Some in Hc as (e & He & Eid).
    rewrite (alter_insert_list _ _ _ _ He). eapply held_ok_insert_r; [exact He|exact Hh|..].
    { by apply merge_cached_id. }
    destruct (held_ok_elem P L idx e (contacts b ++ replacement_cache b)) as [_ ?]; [|done|].
    { apply elem_of_app. right. by eapply list_elem_of_lookup_2. }
    by destruct (merge_cached_addr e c) as [->| ->].
  - apply find_in_cache_None in Hc.
    assert (∀ l, l ⊆+ replacement_cache b → length l < K_BUCKET_SIZE →
      bucket_ok P L idx (set_cache b (l ++ [c]))) as Hadd.
    { intros l Hsub Hlen. split; simpl; [done|rewrite length_app; simpl; lia|].
      rewrite <- Permutation_cons_append, <- Permutation_middle. apply held_ok_cons.
      split; [|split; [done|split; [done|]]].
      - rewrite fmap_app. intros [?|Hin]%elem_of_app; [done|]. apply Hc.
        eapply elem_of_submseteq; [exact Hin|]. by apply fmap_submseteq.
      - eapply held_ok_submseteq; [|exact Hh]. by apply submseteq_skips_l. }
    case_decide.
    + destruct (make_cache_room t b s c) as [l|] eqn:Hr; [|by left].
      right. eexists; split; [done|].
      apply make_cache_room_spec in Hr as [Hsub Hlen]; [|intros E; rewrite E in *; unfold K_BUCKET_SIZE in *; simpl in *; lia].
      apply Hadd; [done|lia].
    + right. eexists; split; [done|]. apply Hadd; [done|lia].
Qed.

Lemma wf_put_cache t i l :
  wf_for P L g t → i < ID_BITS → bucket_ok P L i (set_cache (bucket_at t i) l) →
  wf_for P L g (put_bucket t i (set_cache (bucket_at t i) l)).
Proof.
  intros Hw Hi Hok. destruct (wf_at _ _ Hw Hi) as (_ & _ & Hx).
  eapply wf_put; [exact Hw|exact Hi|done..|exact Hok|done|]. by eapply indexed_ext; [..|exact Hx].
Qed.

Lemma wf_add_to_cache t idx c s :
  wf_for P L g t → bucket_index L (node_id c) = Some idx → P (addr c) →
  wf_for P L g (add_to_cache t idx c s).
Proof.
  intros Hw Hidx HP. pose proof (bucket_index_lt _ _ _ Hidx) as Hi.
  destruct (wf_at _ _ Hw Hi) as (_ & Hok & _).
  destruct (add_to_cache_cases t idx c s Hok Hidx HP) as [->|(l & -> & Hl)]; [done|].
  by apply wf_put_cache.
Qed.

(** ** Residents leaving and entering *)
Lemma wf_detach t idx pos c :
  wf_for P L g t → idx < ID_BITS → contacts (bucket_at t idx) !! pos = Some c →
  wf_for P L g (detach t idx pos c).
Proof.
  intros Hw Hi Hc. destruct (wf_at _ _ Hw Hi) as (_ & [Hl Hcl Hh] & Hx).
  set (b := bucket_at t idx) in *.
  eapply (wf_put t _ idx (set_contacts b (delete pos (contacts b)))); [done..| |done|].
  - split; simpl; [|done|].
    + rewrite length_delete by eauto. lia.
    + eapply held_ok_submseteq; [|exact Hh]. apply submseteq_skips_r, delete_submseteq.
  - rewrite (delete_Permutation _ _ _ Hc) in Hx. simpl in Hx |- *.
    eapply (indexed_leave c t); [|exact Hx]. done.
Qed.

Lemma wf_promote_entry t idx i c :
  wf_for P L g t → idx < ID_BITS → is_full (bucket_at t idx) = false →
  replacement_cache (bucket_at t idx) !! i = Some c →
  wf_for P L g (promote_entry t idx i c).
Proof.
  intros Hw Hi Hfull Hc. destruct (wf_at _ _ Hw Hi) as (_ & [Hl Hcl Hh] & Hx).
  unfold promote_entry. set (b := bucket_at t idx) in *.
  apply bool_decide_eq_false in Hfull.
  eapply (wf_put t _ idx); [done..| |simpl; rewrite <- app_assoc; symmetry; apply Permutation_middle|].
  - split; simpl; [rewrite length_app; simpl; lia|rewrite length_delete by eauto; lia|].
    rewrite <- app_assoc; simpl. by rewrite <- (delete_Permutation _ _ _ Hc).
  - by eapply (indexed_enter c t); [|exact Hx].
Qed.

Lemma wf_set_activity t idx a :
  wf_for P L g t → idx < ID_BITS → wf_for P L g (put_bucket t idx (set_activity (bucket_at t idx) a)).
Proof.
  intros Hw Hi. destruct (wf_at _ _ Hw Hi) as (_ & [Hl Hcl Hh] & Hx).
  eapply wf_put; [exact Hw|exact Hi|done..| |done|by eapply indexed_ext; [..|exact Hx]]. by split.
Qed.

(** ** [add_contact] *)
(** The residents with one more, the cache without the newcomer's id. *)
Lemma held_ok_join i c l k :
  held_ok P L i (l ++ k) → node_id c ∉ (node_id <$> l) →
  bucket_index L (node_id c) = Some i → P (addr c) →
  held_ok P L i ((l ++ [c]) ++ retain (λ x, negb (has_id (node_id c) x)) k).
Proof.
  intros Hh Hl Hi HP. rewrite <- app_assoc; simpl. rewrite <- Permutation_middle.
  apply held_ok_cons. split; [|split; [done|split; [done|]]].
  - rewrite fmap_app, elem_of_app. intros [?|Hin]; [done|].
    apply list_elem_of_fmap in Hin as (x & E & [Hx _]%elem_of_retain).
    unfold has_id in Hx. by rewrite bool_decide_true in Hx.
  - eapply held_ok_submseteq; [|exact Hh]. apply submseteq_skips_l, retain_submseteq.
Qed.

Lemma wf_at_elem t idx c :
  wf_for P L g t → idx < ID_BITS → c ∈ contacts (bucket_at t idx) ++ replacement_cache (bucket_at t idx) →
  bucket_index L (node_id c) = Some idx ∧ P (addr c).
Proof.
  intros Hw Hi Hc. destruct (wf_at _ _ Hw Hi) as (_ & [_ _ Hh] & _). by eapply held_ok_elem.
Qed.

Lemma wf_displace now t idx pos evicted c s :
  wf_for P L g t → bucket_index L (node_id c) = Some idx → P (addr c) →
  node_id c ∉ (node_id <$> contacts (bucket_at t idx)) →
  contacts (bucket_at t idx) !! pos = Some evicted →
  wf_for P L g (displace now t idx pos evicted c s).
Proof.
  intros Hw Hidx HP Hnew Hpos. pose proof (bucket_index_lt _ _ _ Hidx) as Hi.
  destruct (wf_at _ _ Hw Hi) as (_ & [Hl Hcl Hh] & Hx).
  destruct (wf_at_elem t idx evicted Hw Hi) as [Hie HPe].
  { apply elem_of_app; left. by eapply list_elem_of_lookup_2. }
  unfold displace. apply wf_add_to_cache; [|done..]. set (b := bucket_at t idx) in *.
  eapply (wf_put t _ idx); [done..| | |].
  - split; simpl.
    + rewrite length_app, length_delete by eauto. simpl. apply lookup_lt_Some in Hpos. lia.
    + pose proof (length_retain (λ x, negb (has_id (node_id c) x)) (replacement_cache b)). lia.
    + apply held_ok_join; [|  |done..].
      * eapply held_ok_submseteq; [|exact Hh]. apply submseteq_skips_r, delete_submseteq.
      * intros Hin. apply Hnew. eapply elem_of_submseteq; [exact Hin|].
        apply fmap_submseteq, delete_submseteq.
  - simpl. rewrite <- app_assoc. symmetry. apply Permutation_middle.
  - rewrite (delete_Permutation _ _ _ Hpos) in Hx.
    eapply (indexed_enter c (residents_remove (release_ip (release_subnet t (subnet_key evicted))
              (contact_ip evicted)) evicted)); [done|].
    eapply (indexed_leave evicted t); [|exact Hx]. done.
Qed.

Lemma wf_for_refusals t r : wf_for P L g t → wf_for P L g (set_refusals t r).
Proof.
  intros [H1 H2 H3 H4 H5]. split; [done..|]. by eapply indexed_ext; [..|exact H5].
Qed.

Lemma wf_add_newcomer now t idx c s :
  wf_for P L g t → bucket_index L (node_id c) = Some idx → P (addr c) →
  node_id c ∉ (node_id <$> contacts (bucket_at t idx)) →
  wf_for P L g (add_newcomer now t idx c s).2.
Proof.
  intros Hw Hidx HP Hnew. pose proof (bucket_index_lt _ _ _ Hidx) as Hi.
  assert (∀ t', wf_for P L g t' → wf_for P L g (add_to_cache t' idx c s)) as Hcache.
  { intros t' Hw'. by apply wf_add_to_cache. }
  assert (∀ r, wf_for P L g (if is_verified c then set_refusals t r else t)) as Href.
  { intros r. destruct (is_verified c); [by apply wf_for_refusals|done]. }
  unfold add_newcomer. destruct (wf_at _ _ Hw Hi) as (_ & [Hl Hcl Hh] & Hx).
  repeat (case_decide; [by apply Hcache, Href|]).
  destruct (is_full _) eqn:Hfull; cbn [negb].
  - destruct (if is_verified c then _ else _) as [pos|]; [|].
    + destruct (contacts _ !! pos) as [e|] eqn:He; [|done]. by apply wf_displace.
    + destruct (oldest_contact _); [|done]. destruct (negb (_ || _)); by apply Hcache.
  - apply bool_decide_eq_false in Hfull. set (b := bucket_at t idx) in *.
    eapply (wf_put t _ idx); [done..| | |].
    + split; simpl; [rewrite length_app; simpl; lia| |by apply held_ok_join].
      pose proof (length_retain (λ x, negb (has_id (node_id c) x)) (replacement_cache b)). lia.
    + simpl. rewrite <- app_assoc. symmetry. apply Permutation_middle.
    + eapply (indexed_enter c t); [|exact Hx]. done.
Qed.

Lemma wf_add_admitted now t idx c s :
  wf_for P L g t → bucket_index L (node_id c) = Some idx → P (addr c) →
  node_id c ∉ (node_id <$> contacts (bucket_at t idx)) →
  wf_for P L g (add_admitted now t idx c s).2.
Proof.
  intros. unfold add_admitted. case_match eqn:Hv; [|by apply wf_add_newcomer].
  destruct p as [pos e]. apply wf_displace; try done.
  destruct (is_verified c && _); [|done]. apply bind_Some in Hv as (p & _ & Hv).
  apply bind_Some in Hv as (e' & He & Hv). by case_match; simplify_eq.
Qed.

(** Moving the quotas of a resident whose subnet or address changes. *)
Lemma tally_move `{Countable K} (k k' : K) l :
  incr k' (release k (tally (k :: l))) = tally (k' :: l).
Proof. by rewrite release_tally. Qed.

Lemma indexed_move t c c' l :
  indexed t (c :: l) →
  global_subnet_count (move_quotas t c c') = tally (subnet_key <$> c' :: l) ∧
  global_ip_count (move_quotas t c c') = tally (contact_ip <$> c' :: l).
Proof.
  intros [H1 H2 _]. unfold move_quotas. rewrite !fmap_cons in *.
  destruct (Z.eqb_spec (subnet_key c') (subnet_key c)) as [Es|Es];
    case_bool_decide as Ei; simpl; rewrite ?H1, ?H2, ?tally_move, ?Es, ?Ei; done.
Qed.

Lemma move_quotas_frame t c c' :
  residents (move_quotas t c c') = residents t ∧ buckets (move_quotas t c c') = buckets t ∧
  local_id (move_quotas t c c') = local_id t ∧ ip_gate (move_quotas t c c') = ip_gate t.
Proof. unfold move_quotas. by destruct (Z.eqb _ _), (bool_decide _). Qed.

Lemma wf_apply_resident t idx c m1 m2 m3 adm :
  wf_for P L g t → idx < ID_BITS →
  (∀ e, e ∈ contacts (bucket_at t idx) → addr c = addr e ∨ adm = false ∨ P (addr c)) →
  wf_for P L g (apply_resident_contact t idx c m1 m2 m3 adm).2.
Proof.
  intros Hw Hi Hadm. destruct (wf_at _ _ Hw Hi) as (_ & [Hl Hcl Hh] & Hx).
  unfold apply_resident_contact. destruct (find _ _) as [pos|]; [|done].
  destruct (contacts _ !! pos) as [e|] eqn:He; [|done].
  set (moved := negb (bool_decide (addr c = addr e))).
  destruct (Z.leb _ _); [done|]. destruct (is_verified e && _ && _); [done|].
  destruct (moved && negb adm) eqn:Hma; [done|]. destruct (moved && move_refused _ _ _ _ _ _ _); [done|].
  assert (e ∈ contacts (bucket_at t idx)) as Hin by (by eapply list_elem_of_lookup_2).
  destruct (wf_at_elem t idx e Hw Hi) as [Hie HPe]; [by apply elem_of_app; left|].
  specialize (Hadm e Hin). set (b := bucket_at t idx) in *.
  set (u := refresh_resident e c (if moved then addr c else addr e)).
  assert (P (addr u)) as HPu.
  { simpl. unfold moved in *. case_bool_decide; simpl; [done|].
    destruct adm; [|done]. by destruct Hadm as [?|[?|?]]. }
  rewrite (delete_Permutation _ _ _ He) in Hx, Hh. simpl in Hx, Hh.
  set (t1 := if moved then move_quotas t e c else t).
  assert (residents t1 = residents t ∧ buckets t1 = buckets t ∧ local_id t1 = local_id t ∧
          ip_gate t1 = ip_gate t) as (E1 & E2 & E3 & E4).
  { unfold t1. destruct moved; [apply move_quotas_frame|done]. }
  assert (global_subnet_count t1 = tally (subnet_key <$> u :: delete pos (contacts b) ++ others t idx) ∧
          global_ip_count t1 = tally (contact_ip <$> u :: delete pos (contacts b) ++ others t idx))
    as [T1 T2].
  { unfold t1, u. destruct moved; [by apply (indexed_move t e c)|].
    by destruct Hx as [? ? ?]. }
  eapply (wf_put t _ idx); [done|done|done|done| | | |]; simpl.
  - by rewrite E2.
  - split; simpl; [|done|].
    + rewrite length_app, length_delete by eauto. simpl. apply lookup_lt_Some in He. lia.
    + rewrite <- app_assoc; simpl. rewrite <- Permutation_middle. by eapply held_ok_update.
  - simpl. rewrite <- app_assoc. symmetry. apply Permutation_middle.
  - split; simpl; [done|done|]. rewrite E1. apply (index_update_ok _ e u); [|done].
    by destruct Hx.
Qed.

Lemma wf_set_enforced t s : wf_for P L g t → wf_for P L g (set_enforced t s).
Proof. intros [H1 H2 H3 H4 H5]. split; [done..|]. by eapply indexed_ext; [..|exact H5]. Qed.

(** ** Leaving the table *)
Lemma locate_Some t id idx pos c :
  wf_for P L g t → locate t id = Some (idx, pos, c) →
  idx < ID_BITS ∧ bucket_index L id = Some idx ∧ find (bucket_at t idx) id = Some pos ∧
  contacts (bucket_at t idx) !! pos = Some c ∧ node_id c = id.
Proof.
  intros Hw Hl. unfold locate in Hl. rewrite (wf_local _ _ _ _ Hw) in Hl.
  apply bind_Some in Hl as (i & Hi & Hl). case_decide; [done|].
  apply bind_Some in Hl as (p & Hp & Hl). apply bind_Some in Hl as (e & He & Hl). simplify_eq.
  split; [by eapply bucket_index_lt|]. split; [done|]. split; [done|]. split; [done|].
  apply find_Some in Hp as (? & ? & ?). by simplify_eq.
Qed.

Lemma wf_remove_contact t id : wf_for P L g t → wf_for P L g (remove_contact t id).2.
Proof.
  intros Hw. unfold remove_contact. destruct (locate t id) as [[[idx pos] c]|] eqn:Hl; [|done].
  destruct (locate_Some _ _ _ _ _ Hw Hl) as (? & _ & _ & ? & _). by apply wf_detach.
Qed.

(** Replacing a resident by a restamped copy of itself, anywhere in the bucket. *)
Lemma wf_restamp t idx pos c c' l a :
  wf_for P L g t → idx < ID_BITS → contacts (bucket_at t idx) !! pos = Some c →
  node_id c' = node_id c → addr c' = addr c → l ≡ₚ c' :: delete pos (contacts (bucket_at t idx)) →
  wf_for P L g (put_bucket (set_residents t
      (index_restamp (residents t) (is_verified c) (is_verified c'))) idx
      (set_activity (set_contacts (bucket_at t idx) l) a)).
Proof.
  intros Hw Hi Hc Hid Ha Hl. destruct (wf_at _ _ Hw Hi) as (_ & [Hlen Hcl Hh] & Hx).
  destruct (wf_at_elem t idx c Hw Hi) as [_ HPc].
  { apply elem_of_app; left. by eapply list_elem_of_lookup_2. }
  rewrite (delete_Permutation _ _ _ Hc) in Hx, Hh. simpl in Hx, Hh.
  assert (∀ {A} (f : EmberContact → A) k, f c' = f c → f <$> c' :: k = f <$> c :: k) as Hf.
  { intros A f k E. by rewrite !fmap_cons, E. }
  assert (contact_ip c' = contact_ip c) as Eip by (unfold contact_ip; by rewrite Ha).
  eapply (wf_put t _ idx); [done..| |simpl; rewrite Hl; simpl; done|].
  - split; simpl; [|done|].
    + rewrite Hl; simpl. rewrite length_delete by eauto. apply lookup_lt_Some in Hc. lia.
    + rewrite Hl; simpl. eapply held_ok_update; [exact Hh|done|by rewrite Ha].
  - destruct Hx as [H1 H2 H3]. split.
    + rewrite (Hf _ subnet_key); [done|by apply subnet_key_ip].
    + by rewrite (Hf _ contact_ip).
    + by eapply index_restamp_ok.
Qed.

Lemma wf_mark_alive now t id a noise : wf_for P L g t → wf_for P L g (mark_alive now t id a noise).
Proof.
  intros Hw. unfold mark_alive. destruct (locate t id) as [[[idx pos] c]|] eqn:Hl; [|done].
  destruct (locate_Some _ _ _ _ _ Hw Hl) as (? & _ & _ & ? & _). case_match; [|done].
  eapply wf_restamp; [done..|]. symmetry. apply Permutation_cons_append.
Qed.

Lemma wf_mark_failed t id : wf_for P L g t → wf_for P L g (mark_failed t id).2.
Proof.
  intros Hw. unfold mark_failed. destruct (locate t id) as [[[idx pos] c]|] eqn:Hl; [|done].
  destruct (locate_Some _ _ _ _ _ Hw Hl) as (Hi & _ & _ & Hc & _). simpl.
  set (c' := with_failed c _).
  assert (index_restamp (residents t) (is_verified c) (is_verified c') = residents t) as E.
  { unfold index_restamp. change (is_verified c') with (is_verified c).
    by destruct (is_verified c), (residents t). }
  pose proof (wf_restamp t idx pos c c' (<[pos := c']> (contacts (bucket_at t idx)))
                (last_activity (bucket_at t idx)) Hw Hi Hc eq_refl eq_refl) as H.
  rewrite E in H. apply H. rewrite (delete_Permutation _ pos c').
  - by rewrite delete_insert_list.
  - apply list_lookup_insert_eq. by eapply lookup_lt_Some.
Qed.

(** ** Whole-table passes *)
Lemma bind_fmap_commute (h : Bucket → Bucket) (f : EmberContact → EmberContact) bs :
  (∀ b, contacts (h b) = f <$> contacts b) → (h <$> bs) ≫= contacts = f <$> (bs ≫= contacts).
Proof.
  intros E. induction bs as [|b bs IH]; [done|].
  by rewrite fmap_cons, !bind_cons, fmap_app, E, IH.
Qed.

Lemma wf_rebuild t t' (h : Bucket → Bucket) :
  wf_for P L g t → local_id t' = local_id t → ip_gate t' = ip_gate t →
  buckets t' = h <$> buckets t →
  (∀ i b, bucket_ok P L i b → bucket_ok P L i (h b)) →
  indexed t' (all_contacts t') → wf_for P L g t'.
Proof.
  intros [H1 H2 H3 H4 H5] El Eg Eb Hh Hx. split; [congruence..| | |done].
  - by rewrite Eb, length_fmap.
  - intros i b Hb. rewrite Eb, list_lookup_fmap in Hb.
    apply fmap_Some in Hb as (b0 & Hb0 & ->). auto.
Qed.

(** A pass over the caches that only drops entries. *)
Lemma wf_retain_caches t (keep : EmberContact → bool) :
  wf_for P L g t →
  wf_for P L g (set_buckets t
    ((λ b, set_cache b (retain keep (replacement_cache b))) <$> buckets t)).
Proof.
  intros Hw. eapply wf_rebuild; [done..| |].
  - intros i b [Hl Hc Hh]. split; simpl; [done| |].
    + pose proof (length_retain keep (replacement_cache b)). lia.
    + eapply held_ok_submseteq; [|exact Hh]. apply submseteq_skips_l, retain_submseteq.
  - assert (all_contacts (set_buckets t
      ((λ b, set_cache b (retain keep (replacement_cache b))) <$> buckets t)) = all_contacts t) as ->.
    { unfold all_contacts; simpl. by rewrite list_fmap_bind. }
    by eapply indexed_ext; [..|apply Hw].
Qed.

Section clamp.
Context (limit now : Z).
Abbreviation f := (fst ∘ clamp_contact limit now).

Lemma clamp_contact_id c : node_id (f c) = node_id c ∧ addr (f c) = addr c.
Proof. simpl. unfold clamp_contact. by case_match. Qed.

Lemma clamp_residents_ok ri l k :
  index_ok ri (l ++ k) → index_ok (clamp_residents limit now ri l) ((f <$> l) ++ k).
Proof.
  revert ri k. induction l as [|c l IH]; intros ri k H; [done|].
  unfold clamp_residents. cbn [foldl]. fold (clamp_residents limit now).
  rewrite fmap_cons. cbn [app]. rewrite (Permutation_middle (f <$> l) k (f c)).
  apply IH. rewrite <- Permutation_middle. simpl in H |- *.
  unfold clamp_contact in *. destruct (Z.ltb limit (last_seen c)); simpl; [|done].
  by apply index_restamp_ok.
Qed.

Definition clamped_bucket (b : Bucket) : Bucket :=
  mkBucket (f <$> contacts b) (f <$> replacement_cache b)
    (if Z.ltb limit (last_activity b) then now else last_activity b).

Lemma clamp_buckets_ok bs n ri done k :
  index_ok ri ((bs ≫= contacts) ++ k) →
  ∃ n' ri', foldl (clamp_bucket limit now) (n, ri, done) bs = (n', ri', done ++ (clamped_bucket <$> bs)) ∧
            index_ok ri' ((f <$> (bs ≫= contacts)) ++ k).
Proof.
  revert n ri done k. induction bs as [|b bs IH]; intros n ri dn k H.
  { exists n, ri. by rewrite app_nil_r. }
  rewrite bind_cons, <- app_assoc in H. apply clamp_residents_ok in H.
  rewrite app_assoc, (Permutation_app_comm (f <$> contacts b)), <- app_assoc in H.
  cbn [foldl]. destruct (clamp_bucket limit now (n, ri, dn) b) as [[n1 ri1] dn1] eqn:E1.
  unfold clamp_bucket in E1. injection E1 as _ <- <-.
  destruct (IH n1 _ (dn ++ [clamped_bucket b]) _ H) as (n' & ri' & E & Hok).
  exists n', ri'. split.
  - etransitivity; [exact E|]. by rewrite <- app_assoc.
  - by rewrite bind_cons, fmap_app, (Permutation_app_comm (f <$> contacts b)), <- app_assoc.
Qed.
End clamp.

Lemma clamp_buckets t now :
  wf_for P L g t →
  buckets (clamp_future_timestamps now t).2 =
    clamped_bucket (i64_saturating_add now CLOCK_STEP_SLACK_SECS) now <$> buckets t ∧
  wf_for P L g (clamp_future_timestamps now t).2.
Proof.
  intros Hw. unfold clamp_future_timestamps. set (limit := i64_saturating_add _ _).
  destruct (clamp_buckets_ok limit now (buckets t) 0 (residents t) [] []) as (n & ri & E & Hok).
  { rewrite app_nil_r. apply Hw. }
  rewrite app_nil_r in Hok. rewrite E. cbn [snd buckets set_residents set_buckets app].
  split; [done|]. destruct (wf_indexed _ _ _ _ Hw) as [H1 H2 _].
  assert ((clamped_bucket limit now <$> buckets t) ≫= contacts =
          fst ∘ clamp_contact limit now <$> all_contacts t) as Eall.
  { by apply bind_fmap_commute. }
  assert (∀ l : list EmberContact, node_id <$> (fst ∘ clamp_contact limit now <$> l) = node_id <$> l) as Eid.
  { intros l. rewrite <- list_fmap_compose. apply list_fmap_ext. intros i c _.
    apply (clamp_contact_id limit now c). }
  assert (∀ l : list EmberContact, addr <$> (fst ∘ clamp_contact limit now <$> l) = addr <$> l) as Ead.
  { intros l. rewrite <- list_fmap_compose. apply list_fmap_ext. intros i c _.
    apply (clamp_contact_id limit now c). }
  assert (∀ {A} (h : SocketAddr → A) (l l' : list EmberContact), addr <$> l = addr <$> l' → h ∘ addr <$> l = h ∘ addr <$> l')
    as Hh by (intros; rewrite !list_fmap_compose; by f_equal).
  eapply wf_rebuild; [done..| |].
  - intros i b [Hlen Hcl [K1 K2 K3]]. split; simpl; [by rewrite length_fmap..|].
    rewrite <- fmap_app. split; [by rewrite Eid| |].
    + apply Forall_fmap. eapply Forall_impl; [exact K2|]. intros c ?. simpl.
      unfold clamp_contact. by case_match.
    + apply Forall_fmap. eapply Forall_impl; [exact K3|]. intros c ?. simpl.
      unfold clamp_contact. by case_match.
  - unfold all_contacts at 1. cbn [buckets set_residents set_buckets]. rewrite Eall. split; simpl.
    + rewrite H1. f_equal. symmetry. apply (Hh _ (subnet_key_of ∘ addr_ip)), Ead.
    + rewrite H2. f_equal. symmetry. apply (Hh _ addr_ip), Ead.
    + done.
Qed.

(** ** Removing residents by id *)
Lemma elem_of_all_contacts t c :
  c ∈ all_contacts t ↔ ∃ i b, buckets t !! i = Some b ∧ c ∈ contacts b.
Proof.
  unfold all_contacts. rewrite list_elem_of_bind. split.
  - intros (b & Hc & [i Hi]%list_elem_of_lookup). eauto.
  - intros (i & b & Hb & Hc). exists b. split; [done|]. apply list_elem_of_lookup. eauto.
Qed.

Lemma resident_bucket t c :
  wf_for P L g t → c ∈ all_contacts t →
  ∃ i, bucket_index L (node_id c) = Some i ∧ i < ID_BITS ∧ c ∈ contacts (bucket_at t i).
Proof.
  intros Hw (i & b & Hb & Hc)%elem_of_all_contacts. exists i.
  pose proof (lookup_lt_Some _ _ _ Hb) as Hi. rewrite bucket_at_lookup in Hb by done.
  rewrite (wf_length _ _ _ _ Hw) in Hi. simplify_eq.
  destruct (wf_at_elem t i c Hw Hi) as [? _]; [by apply elem_of_app; left|done].
Qed.

Lemma locate_None t id :
  wf_for P L g t → locate t id = None ↔ id ∉ (node_id <$> all_contacts t).
Proof.
  intros Hw. split.
  - intros Hn (c & -> & Hc)%list_elem_of_fmap.
    destruct (resident_bucket t c Hw Hc) as (i & Hi & Hlt & Hin).
    unfold locate in Hn. rewrite (wf_local _ _ _ _ Hw), Hi in Hn. simpl in Hn.
    rewrite decide_False in Hn by (unfold ID_BITS in *; lia).
    destruct (find (bucket_at t i) (node_id c)) as [pos|] eqn:Hf.
    + apply find_Some in Hf as (e & He & _). simpl in Hn. by rewrite He in Hn.
    + apply find_None in Hf. apply Hf, list_elem_of_fmap. eauto.
  - intros Hn. destruct (locate t id) as [[[i pos] c]|] eqn:Hl; [|done]. destruct Hn.
    destruct (locate_Some _ _ _ _ _ Hw Hl) as (Hi & _ & _ & Hc & <-).
    apply list_elem_of_fmap. exists c. split; [done|]. apply elem_of_all_contacts.
    exists i, (bucket_at t i). split; [|by eapply list_elem_of_lookup_2].
    apply bucket_at_lookup. by rewrite (wf_length _ _ _ _ Hw).
Qed.

Definition drop_ids (ids : list EmberNodeId) (b : Bucket) : Bucket :=
  set_contacts b (retain (λ c, negb (bool_decide (node_id c ∈ ids))) (contacts b)).

Lemma delete_position_retain id pos l :
  position (has_id id) l = Some pos → NoDup (node_id <$> l) →
  delete pos l = retain (λ c, negb (bool_decide (node_id c ∈ [id]))) l.
Proof.
  assert (∀ c, bool_decide (node_id c ∈ [id]) = has_id id c) as E.
  { intros c. apply bool_decide_ext. by rewrite list_elem_of_singleton. }
  revert pos. induction l as [|c l IH]; intros pos; [done|]. cbn [position].
  rewrite fmap_cons. intros Hp [Hc Hn]%NoDup_cons. unfold retain. rewrite filter_cons, E.
  destruct (has_id id c) eqn:Hid; simpl in *.
  - simplify_eq. cbn. symmetry. apply retain_all, Forall_forall. intros x Hx.
    apply bool_decide_eq_true in Hid as <-. rewrite E. unfold has_id.
    rewrite bool_decide_false; [done|]. intros Hxc. apply Hc, list_elem_of_fmap. eauto.
  - destruct (position _ l) as [q|] eqn:Hq; [|done]. simpl in Hp. simplify_eq. cbn.
    f_equal. by apply IH.
Qed.

Lemma drop_ids_fresh ids b :
  (∀ c, c ∈ contacts b → node_id c ∉ ids) → drop_ids ids b = b.
Proof.
  intros H. unfold drop_ids. rewrite retain_all; [by destruct b|].
  apply Forall_forall. intros c Hc. by rewrite bool_decide_false by auto.
Qed.

Lemma remove_contact_spec t id :
  wf_for P L g t →
  buckets (remove_contact t id).2 = drop_ids [id] <$> buckets t ∧
  (remove_contact t id).1 = bool_decide (id ∈ (node_id <$> all_contacts t)).
Proof.
  intros Hw. unfold remove_contact.
  destruct (locate t id) as [[[idx pos] c]|] eqn:Hl; simpl.
  2:{ apply locate_None in Hl; [|done]. rewrite bool_decide_false by done. split; [|done].
      rewrite <- (list_fmap_id (buckets t)) at 1. apply list_fmap_ext. intros i b Hb.
      symmetry. apply drop_ids_fresh. intros c Hc Hid%list_elem_of_singleton.
      apply Hl, list_elem_of_fmap. exists c. split; [done|]. apply elem_of_all_contacts. eauto. }
  split.
  - destruct (locate_Some _ _ _ _ _ Hw Hl) as (Hi & Hix & Hf & Hc & <-).
    destruct (wf_at _ _ Hw Hi) as (Hlt & [_ _ [Hnd _ _]] & _).
    rewrite fmap_app in Hnd. apply NoDup_app in Hnd as [Hnd _].
    rewrite (delete_position_retain _ _ _ Hf Hnd). fold (drop_ids [node_id c] (bucket_at t idx)).
    apply list_eq. intros j. rewrite list_lookup_fmap.
    destruct (decide (j = idx)) as [->|Hj].
    { by rewrite list_lookup_insert_eq, bucket_at_lookup. }
    rewrite list_lookup_insert_ne by done. destruct (buckets t !! j) as [b|] eqn:Hb; [|done].
    simpl. f_equal. symmetry. apply drop_ids_fresh. intros e He Hin.
    apply list_elem_of_singleton in Hin. apply Hj.
    destruct (wf_buckets _ _ _ _ Hw j b Hb) as [_ _ Hh].
    destruct (held_ok_elem _ _ _ e _ ltac:(by apply elem_of_app; left) Hh) as [Hej _]. congruence.
  - symmetry. apply bool_decide_true. destruct (decide (id ∈ (node_id <$> all_contacts t))) as [|Hn]; [done|].
    apply (locate_None t id Hw) in Hn. congruence.
Qed.

Lemma drop_ids_app ids ids' b : drop_ids ids' (drop_ids ids b) = drop_ids (ids ++ ids') b.
Proof.
  unfold drop_ids, retain; simpl. unfold set_contacts; simpl. f_equal.
  rewrite list_filter_filter. apply list_filter_iff. intros c.
  rewrite !negb_true_iff, !bool_decide_eq_false, elem_of_app. tauto.
Qed.

Lemma all_contacts_drop t bs ids :
  bs = drop_ids ids <$> buckets t →
  bs ≫= contacts = retain (λ c, negb (bool_decide (node_id c ∈ ids))) (all_contacts t).
Proof.
  intros ->. unfold all_contacts, retain. induction (buckets t) as [|b k IH]; [done|].
  by rewrite fmap_cons, !bind_cons, filter_app, <- IH.
Qed.

(** Removing a list of different ids: exactly those residents leave, and the
    count is how many of them were there. *)
Lemma remove_all_spec t ids :
  wf_for P L g t → NoDup ids →
  wf_for P L g (remove_all t ids).2 ∧
  buckets (remove_all t ids).2 = drop_ids ids <$> buckets t ∧
  (remove_all t ids).1 = count_if (λ id, bool_decide (id ∈ (node_id <$> all_contacts t))) ids.
Proof.
  intros Hw Hnd. unfold remove_all.
  set (step := count_removed remove_contact).
  assert (∀ n t, wf_for P L g t →
    wf_for P L g (foldl step (n, t) ids).2 ∧
    buckets (foldl step (n, t) ids).2 = drop_ids ids <$> buckets t ∧
    (foldl step (n, t) ids).1 = n + count_if (λ id, bool_decide (id ∈ (node_id <$> all_contacts t))) ids)
    as Hgen; [|by apply (Hgen 0)].
  clear t Hw. induction Hnd as [|id ids Hid Hnd IH]; intros n t Hw.
  { simpl. split; [done|]. split; [|unfold count_if; simpl; lia].
    rewrite <- (list_fmap_id (buckets t)) at 1. apply list_fmap_ext. intros i b _.
    symmetry. apply drop_ids_fresh. intros c _. apply not_elem_of_nil. }
  cbn [foldl]. unfold step at 2 4 6, count_removed; cbn [fst snd]. pose proof (wf_remove_contact t id Hw) as Hw1.
  destruct (remove_contact_spec t id Hw) as [Hb Hg].
  destruct (remove_contact t id) as [gone t1]; simpl in *.
  destruct (IH (if gone then S n else n) t1 Hw1) as (H1 & H2 & H3). split; [done|].
  rewrite H2, H3, Hb, <- list_fmap_compose. split.
  - apply list_fmap_ext. intros i b _. apply (drop_ids_app [id] ids).
  - rewrite count_if_cons, <- Hg.
    assert (count_if (λ x, bool_decide (x ∈ (node_id <$> all_contacts t1))) ids =
            count_if (λ x, bool_decide (x ∈ (node_id <$> all_contacts t))) ids) as ->;
      [|destruct gone; lia].
    unfold count_if. f_equal. apply retain_ext. intros x Hx. apply bool_decide_ext.
    unfold all_contacts at 1. rewrite (all_contacts_drop t _ _ Hb).
    rewrite !list_elem_of_fmap. setoid_rewrite elem_of_retain.
    setoid_rewrite negb_true_iff. setoid_rewrite bool_decide_eq_false.
    setoid_rewrite list_elem_of_singleton. split; [naive_solver|].
    intros (c & -> & Hc). exists c. repeat split; [|done]. by intros <-.
Qed.
End wf.
