(* ===== verification/RoutingSafety.v ===== *)
(** * The routing table over its whole life

    [RoutingInv]'s invariant through [add_contact], promotion, the policy
    sweeps and the scale-down of the quotas, and from there every history of
    calls. *)
From S2P Require Import Prelude NodeId Addr IpFilter Contact RoutingTable RoutingInv.

(** ** The IP policy of a gate without a range filter *)
Lemma admits_addr_spec t a :
  range_filter (ip_gate t) = None → admits_addr t a = true ↔ addr_ok (ip_gate t) a.
Proof.
  intros Hr. unfold admits_addr, addr_ok, admits. rewrite Hr.
  destruct (judgeable_ip a) as [v4|]; [|naive_solver].
  destruct (is_valid_contact_ip v4 _) eqn:E; simpl; naive_solver.
Qed.

Lemma definitely_blocked_spec t a :
  range_filter (ip_gate t) = None → definitely_blocked t a = false ↔ addr_ok (ip_gate t) a.
Proof.
  intros Hr. unfold definitely_blocked, addr_ok, is_definitely_blocked. rewrite Hr.
  destruct (judgeable_ip a) as [v4|]; [|naive_solver].
  destruct (is_valid_contact_ip v4 _) eqn:E; simpl; naive_solver.
Qed.

Section ops.
Context {P : SocketAddr → Prop} {L : EmberNodeId} {g : IpAdmissionGate}.
Context (Hadm : ∀ t a, ip_gate t = g → admits_addr t a = true → P a).
Implicit Types t : RoutingTable.

Lemma wf_add_contact now t c : wf_for P L g t → wf_for P L g (add_contact now t c).2.
Proof.
  intros Hw. unfold add_contact. rewrite (wf_local _ _ _ _ Hw).
  case_bool_decide; [done|]. destruct (bucket_index _ _) as [idx|] eqn:Hidx; [|done].
  case_decide; [done|]. pose proof (bucket_index_lt _ _ _ Hidx) as Hi.
  assert (admits_addr t (addr c) = true → P (addr c)) as HP by (apply Hadm, Hw).
  destruct (find (bucket_at t idx) (node_id c)) as [pos|] eqn:Hf; simpl.
  - destruct (find_Some _ _ _ Hf) as (e & He & Eid). rewrite He. apply wf_apply_resident; [done..|].
    intros e' He'. destruct (admits_addr t (addr c)) eqn:Ha; [by auto|].
    rewrite orb_false_r. case_bool_decide as Ea; [|by auto]. right; right. rewrite Ea.
    apply (wf_at_elem t idx e Hw Hi). apply elem_of_app; left. by eapply list_elem_of_lookup_2.
  - destruct (admits_addr t (addr c)) eqn:Ha; simpl.
    + apply find_None in Hf. apply wf_add_admitted; auto.
    + by case_match; [apply wf_for_refusals|].
Qed.

Lemma wf_load_contacts t l : wf_for P L g t → wf_for P L g (load_contacts t l).2.
Proof.
  intros Hw. apply (foldl_inv (λ acc : _ * RoutingTable, wf_for P L g acc.2)); [done|].
  intros [ids t1] [now c] _ H1. pose proof (wf_add_contact now t1 c H1) as H2.
  by destruct (add_contact now t1 c).
Qed.

(** ** Promotion *)
Lemma promotable_scan_Some t b ex s n lead i :
  promotable_scan t b ex s n lead = Some i →
  lead = Some i ∨ ∃ c, replacement_cache b !! i = Some c ∧ promotable t b ex s c = true.
Proof.
  revert lead. induction n as [|n IH]; intros lead; simpl; [by left|].
  destruct (replacement_cache b !! n) as [c|] eqn:Hc; [|apply IH].
  destruct (promotable t b ex s c) eqn:Hp; simpl; [|apply IH].
  destruct (is_verified c); [intros [= <-]; eauto|].
  intros [H|?]%IH; [|by auto]. destruct lead; [by auto|]. simplify_eq. eauto.
Qed.

Lemma best_promotable_cached_Some t idx ex s i :
  best_promotable_cached t idx ex s = Some i →
  ∃ c, replacement_cache (bucket_at t idx) !! i = Some c ∧
       promotable t (bucket_at t idx) ex s c = true.
Proof. by intros [?|?]%promotable_scan_Some. Qed.

Lemma wf_promote_bucket fuel t idx s n :
  wf_for P L g t → idx < ID_BITS → wf_for P L g (promote_bucket fuel t idx s n).2.
Proof.
  revert t n. induction fuel as [|fuel IH]; intros t n Hw Hi; [done|]. cbn [promote_bucket].
  destruct (is_full _) eqn:Hf; [done|].
  destruct (best_promotable_cached _ _ _ _) as [i|]; [|done]. simpl.
  destruct (replacement_cache _ !! i) as [c|] eqn:Hc; [|done]. simpl.
  apply IH; [|done]. by apply wf_promote_entry.
Qed.

Lemma wf_promote_step now acc idx :
  wf_for P L g acc.2 → idx < ID_BITS → wf_for P L g (promote_step now acc idx).2.
Proof.
  destruct acc as [n t]; cbn [snd]. intros Hw Hi. unfold promote_step.
  destruct (bool_decide _); [done|].
  pose proof (wf_promote_bucket K_BUCKET_SIZE t idx (admission_scale t) 0 Hw Hi) as H1.
  destruct (promote_bucket _ _ _ _ _) as [m t1]. cbn [snd] in *.
  destruct (decide _); [done|by apply wf_set_activity].
Qed.

Lemma wf_promote_cached now t : wf_for P L g t → wf_for P L g (promote_cached_contacts now t).2.
Proof.
  intros Hw. unfold promote_cached_contacts. rewrite (wf_length _ _ _ _ Hw).
  apply (foldl_inv (λ acc : nat * RoutingTable, wf_for P L g acc.2)); [done|].
  intros acc i Hi Hacc. apply wf_promote_step; [done|]. apply elem_of_seq in Hi. lia.
Qed.

Lemma wf_evict_and_replace now t id :
  wf_for P L g t → wf_for P L g (evict_and_replace now t id).2.
Proof.
  intros Hw. unfold evict_and_replace. destruct (locate t id) as [[[idx pos] c]|] eqn:Hl; [|done].
  destruct (locate_Some _ _ _ _ _ Hw Hl) as (Hi & _ & _ & Hc & _).
  pose proof (wf_detach t idx pos c Hw Hi Hc) as H1.
  assert (is_full (bucket_at (detach t idx pos c) idx) = false) as Hfull.
  { destruct (wf_at _ _ Hw Hi) as (Hlt & [Hlen _ _] & _). unfold detach.
    apply bool_decide_eq_false. unfold bucket_at at 1; simpl.
    rewrite (nth_lookup_Some _ _ _ _ (list_lookup_insert_eq _ _ _ Hlt)). simpl.
    rewrite length_delete by eauto. apply lookup_lt_Some in Hc. unfold K_BUCKET_SIZE in *. lia. }
  destruct (best_promotable_cached _ _ _ _) as [i|]; [|done]. simpl.
  destruct (replacement_cache _ !! i) as [e|] eqn:He; [|done]. simpl.
  apply wf_set_activity; [|done]. by apply wf_promote_entry.
Qed.

(** ** Scale *)
Lemma wf_demote s acc x :
  wf_for P L g acc.2 → x.1 < ID_BITS → wf_for P L g (demote s acc x).2.
Proof.
  destruct acc as [m t], x as [idx id]; simpl. intros Hw Hi.
  destruct (find _ _) as [pos|]; [|done]. simpl.
  destruct (contacts _ !! pos) as [c|] eqn:Hc; [|done]. simpl.
  destruct (wf_at_elem t idx c Hw Hi) as [? ?].
  { apply elem_of_app; left. by eapply list_elem_of_lookup_2. }
  apply wf_add_to_cache; [by apply wf_detach|done..].
Qed.

Lemma readmit_doomed s acc x y :
  y ∈ (readmit s acc x).2 → y ∈ acc.2 ∨ y = x.
Proof.
  destruct acc as [q d], x as [idx c]. unfold readmit. cbn [snd]. case_decide; cbn [snd]; [|by left].
  rewrite elem_of_app, list_elem_of_singleton. done.
Qed.

Lemma elem_of_over_quota s t x : x ∈ over_quota s t → x ∈ ranked_residents t.
Proof.
  unfold over_quota. generalize (ranked_residents t). intros l.
  assert (∀ acc k, x ∈ (foldl (readmit s) acc k).2 → x ∈ acc.2 ∨ x ∈ k) as H.
  { intros acc k. revert acc. induction k as [|y k IH]; intros acc; [by left|]. simpl.
    intros [[?| ->]%readmit_doomed|?]%IH; [by left|right; left|right; by right]. }
  intros [?%not_elem_of_nil|?]%H; done.
Qed.

Lemma elem_of_imap_concat {A B} (f : nat → A → list B) l y :
  y ∈ concat (imap f l) ↔ ∃ i x, l !! i = Some x ∧ y ∈ f i x.
Proof.
  split.
  - intros (k & Hk & Hy)%list_elem_of_In%in_concat. apply list_elem_of_In in Hk, Hy.
    apply elem_of_lookup_imap in Hk as (i & x & -> & Hx). eauto.
  - intros (i & x & Hx & Hy). apply list_elem_of_In, in_concat. exists (f i x).
    split; apply list_elem_of_In; [|done]. apply elem_of_lookup_imap. eauto.
Qed.

Lemma elem_of_ranked t x :
  x ∈ ranked_residents t ↔ ∃ b, buckets t !! x.1 = Some b ∧ x.2 ∈ contacts b.
Proof.
  unfold ranked_residents. rewrite stable_sort_perm, elem_of_imap_concat.
  setoid_rewrite list_elem_of_fmap. destruct x as [i c]; simpl. naive_solver.
Qed.

Lemma wf_demote_all s t l :
  wf_for P L g t → Forall (λ x, x.1 < ID_BITS) l →
  wf_for P L g (foldl (demote s) ([], t) l).2.
Proof.
  intros Hw Hl. apply (foldl_inv (λ acc : _ * RoutingTable, wf_for P L g acc.2)); [done|].
  rewrite Forall_forall in Hl. intros acc x Hx Hacc. by apply wf_demote; [|apply Hl].
Qed.

Lemma over_quota_bounds s t :
  wf_for P L g t → Forall (λ x : nat * EmberNodeId, x.1 < ID_BITS)
                     ((λ x, (x.1, node_id x.2)) <$> over_quota s t).
Proof.
  intros Hw. apply Forall_fmap, Forall_forall. intros x Hx.
  apply elem_of_over_quota, elem_of_ranked in Hx as (b & Hb & _). simpl.
  apply lookup_lt_Some in Hb. by rewrite (wf_length _ _ _ _ Hw) in Hb.
Qed.

Lemma wf_enforce_scale_quotas t :
  wf_for P L g t → wf_for P L g (enforce_scale_quotas t).2.
Proof.
  intros Hw. unfold enforce_scale_quotas. set (floor := from_contacts (_ / 4)).
  set (t1 := if decide (scale_rank floor < _) then set_enforced t floor else t).
  assert (wf_for P L g t1) as H1 by (unfold t1; case_decide; [by apply wf_set_enforced|done]).
  set (target := from_contacts (_ / 5)). destruct (decide (_ ≤ _)); [done|].
  pose proof (wf_set_enforced t1 target H1) as H2.
  pose proof (wf_demote_all target _ _ H2 (over_quota_bounds target _ H2)) as H3.
  by destruct (foldl _ _ _) as [moved t2].
Qed.

(** ** Ageing *)
Lemma all_ids_nodup t : wf_for P L g t → NoDup (node_id <$> all_contacts t).
Proof.
  intros Hw. pose proof (wf_buckets _ _ _ _ Hw) as Hb. unfold all_contacts.
  assert (∀ bs k, (∀ i b, bs !! i = Some b → bucket_ok P L (k + i) b) →
            NoDup (node_id <$> (bs ≫= contacts))) as H; [|by apply (H _ 0)].
  induction bs as [|b bs IH]; intros k Hok; [constructor|].
  rewrite bind_cons, fmap_app. apply NoDup_app. split; [|split].
  - destruct (Hok 0 b eq_refl) as [_ _ [Hn _ _]]. rewrite fmap_app in Hn.
    by apply NoDup_app in Hn as [? _].
  - intros id (c & -> & Hc)%list_elem_of_fmap (d & E & Hd)%list_elem_of_fmap.
    apply list_elem_of_bind in Hd as (b' & Hd & [i Hi]%list_elem_of_lookup).
    destruct (Hok 0 b eq_refl) as [_ _ H0], (Hok (S i) b' Hi) as [_ _ H1].
    destruct (held_ok_elem _ _ _ c _ ltac:(by apply elem_of_app; left) H0) as [E0 _].
    destruct (held_ok_elem _ _ _ d _ ltac:(by apply elem_of_app; left) H1) as [E1 _].
    rewrite <- E, E0 in E1. simplify_eq. lia.
  - apply (IH (S k)). intros i b' Hi. replace (S k + i) with (k + S i) by lia. by apply Hok.
Qed.

Lemma retain_ids_nodup p t :
  wf_for P L g t → NoDup (node_id <$> retain p (all_contacts t)).
Proof.
  intros Hw. eapply sublist_NoDup; [exact (all_ids_nodup t Hw)|].
  apply fmap_sublist, retain_sublist.
Qed.

Lemma wf_remove_stale now age in_use t :
  wf_for P L g t → wf_for P L g (remove_stale now age in_use t).2.
Proof.
  intros Hw. unfold remove_stale. apply (clamp_buckets t now) in Hw as [_ Hw].
  set (t1 := (clamp_future_timestamps now t).2) in *. set (doomed := node_id <$> _).
  destruct (remove_all_spec t1 doomed Hw) as (H1 & _ & _); [by apply retain_ids_nodup|].
  destruct (remove_all t1 doomed) as [n t2]. by apply wf_retain_caches.
Qed.
End ops.

(** ** The policy sweep *)
Section sweep.
Context {P : SocketAddr → Prop} {L : EmberNodeId} {g : IpAdmissionGate}.
Implicit Types t : RoutingTable.

(** What the sweep of the caches does to one bucket. *)
Lemma drop_cached_all xs t :
  length (buckets t) = ID_BITS → Forall (λ x, x.1 < ID_BITS) xs →
  let t' := foldl drop_cached t xs in
  length (buckets t') = ID_BITS ∧ residents t' = residents t ∧
  global_subnet_count t' = global_subnet_count t ∧ global_ip_count t' = global_ip_count t ∧
  local_id t' = local_id t ∧ ip_gate t' = ip_gate t ∧
  ∀ i, i < ID_BITS → bucket_at t' i =
    set_cache (bucket_at t i)
      (retain (λ c, negb (bool_decide ((i, node_id c) ∈ xs))) (replacement_cache (bucket_at t i))).
Proof.
  revert t. induction xs as [|[j id] xs IH]; intros t Hlen Hxs; cbn [foldl].
  { repeat split; [done|]. intros i Hi. rewrite retain_all; [by destruct (bucket_at t i)|].
    by apply Forall_forall. }
  apply Forall_cons in Hxs as [Hj Hxs]. simpl in Hj.
  destruct (IH (drop_cached t (j, id))) as (H1 & H2 & H3 & H4 & H5 & H6 & H7); [|done|].
  { simpl. by rewrite length_insert. }
  repeat split; try done. intros i Hi. rewrite H7 by done. unfold drop_cached.
  destruct (decide (i = j)) as [->|Hne].
  - rewrite bucket_at_put_eq by lia. unfold set_cache; simpl. f_equal.
    unfold retain. rewrite list_filter_filter. apply list_filter_iff. intros c.
    unfold has_id. rewrite !negb_true_iff, !bool_decide_eq_false, elem_of_cons. naive_solver.
  - rewrite bucket_at_put_ne by done. f_equal. apply retain_ext. intros c _. f_equal.
    apply bool_decide_ext. rewrite elem_of_cons. naive_solver.
Qed.

(** Every contact held, resident or cached. *)
Definition held (t : RoutingTable) (c : EmberContact) : Prop :=
  ∃ i, i < ID_BITS ∧ c ∈ contacts (bucket_at t i) ++ replacement_cache (bucket_at t i).

(** The invariant under another policy, when what is held satisfies it. *)
Lemma wf_for_change (Q : SocketAddr → Prop) t :
  wf_for P L g t → (∀ c, held t c → Q (addr c)) → wf_for Q L g t.
Proof.
  intros [H1 H2 H3 H4 H5] HQ. split; [done..| |done]. intros i b Hb.
  destruct (H4 i b Hb) as [Hl Hc [K1 K2 K3]]. split; [done..|]. split; [done..|].
  apply Forall_forall. intros c Hc'. apply HQ. exists i.
  pose proof (lookup_lt_Some _ _ _ Hb) as Hi. rewrite bucket_at_lookup in Hb by done.
  rewrite H3 in Hi. by simplify_eq.
Qed.

Lemma wf_drop_cached t xs :
  wf_for P L g t → Forall (λ x, x.1 < ID_BITS) xs → wf_for P L g (foldl drop_cached t xs).
Proof.
  intros Hw Hxs.
  destruct (drop_cached_all xs t (wf_length _ _ _ _ Hw) Hxs) as (H1 & H2 & H3 & H4 & H5 & H6 & H7).
  set (t' := foldl drop_cached t xs) in *.
  assert (∀ i b, buckets t' !! i = Some b → i < ID_BITS ∧ b = bucket_at t' i) as Hb.
  { intros i b Hb. pose proof (lookup_lt_Some _ _ _ Hb) as Hi.
    rewrite bucket_at_lookup in Hb by done. simplify_eq. by rewrite H1 in Hi. }
  split; [rewrite H5; apply Hw|rewrite H6; apply Hw|done| |].
  - intros i b (Hi & ->)%Hb. rewrite H7 by done. destruct (wf_at _ _ Hw Hi) as (_ & [Hl Hc Hh] & _).
    split; simpl; [done| |].
    + pose proof (length_retain (λ c, negb (bool_decide ((i, node_id c) ∈ xs)))
                    (replacement_cache (bucket_at t i))). lia.
    + eapply held_ok_submseteq; [|exact Hh]. apply submseteq_skips_l, retain_submseteq.
  - assert (contacts <$> buckets t' = contacts <$> buckets t) as Ec.
    { apply list_eq. intros i. rewrite !list_lookup_fmap. destruct (decide (i < ID_BITS)).
      - rewrite !bucket_at_lookup by (rewrite ?H1, ?(wf_length _ _ _ _ Hw); done). simpl.
        by rewrite H7.
      - rewrite !lookup_ge_None_2; [done|rewrite (wf_length _ _ _ _ Hw)|rewrite H1]; lia. }
    assert (all_contacts t' = all_contacts t) as ->.
    { unfold all_contacts. rewrite <- !(list_fmap_bind contacts id). by rewrite Ec. }
    eapply indexed_ext; [..|apply Hw]; done.
Qed.

Lemma evict_blocked_eq t :
  evict_blocked_contacts t =
  remove_all t (node_id <$> retain (λ c, definitely_blocked t (addr c)) (all_contacts t)).
Proof.
  unfold evict_blocked_contacts, remove_all; simpl. f_equal.
  rewrite retain_fmap, <- list_fmap_compose. f_equal.
Qed.

Lemma wf_evict_blocked t :
  wf_for P L g t →
  wf_for P L g (evict_blocked_contacts t).2 ∧
  ∀ c, c ∈ all_contacts (evict_blocked_contacts t).2 → definitely_blocked t (addr c) = false.
Proof.
  intros Hw. rewrite evict_blocked_eq. set (doomed := node_id <$> _).
  destruct (remove_all_spec t doomed Hw) as (H1 & H2 & _); [by apply (retain_ids_nodup (P:=P) (L:=L) (g:=g))|].
  split; [done|]. intros c. unfold all_contacts. rewrite (all_contacts_drop t _ _ H2).
  intros [Hn Hc]%elem_of_retain. rewrite negb_true_iff, bool_decide_eq_false in Hn.
  destruct (definitely_blocked t (addr c)) eqn:E; [|done]. destruct Hn.
  apply list_elem_of_fmap. exists c. split; [done|]. by apply elem_of_retain.
Qed.

Lemma definitely_blocked_gate t t' a :
  ip_gate t' = ip_gate t → definitely_blocked t' a = definitely_blocked t a.
Proof. unfold definitely_blocked. by intros ->. Qed.

(** After the sweep everything held is within the policy, whatever it was
    before. *)
Lemma wf_evict_filtered now t :
  range_filter g = None → wf_for P L g t →
  wf_for (addr_ok g) L g (evict_filtered_contacts now t).2.
Proof.
  intros Hr Hw. unfold evict_filtered_contacts.
  destruct (wf_evict_blocked t Hw) as [H1 Hres].
  destruct (evict_blocked_contacts t) as [n t1]. cbn [snd] in *. set (xs := concat _).
  assert (ip_gate t1 = g ∧ ip_gate t = g) as [Eg1 Eg] by (split; [apply H1|apply Hw]).
  assert (Forall (λ x : nat * EmberNodeId, x.1 < ID_BITS) xs) as Hxs.
  { apply Forall_forall. intros x (i & b & Hb & Hx)%elem_of_imap_concat.
    apply list_elem_of_fmap in Hx as (c & -> & _). simpl. apply lookup_lt_Some in Hb.
    by rewrite (wf_length _ _ _ _ H1) in Hb. }
  pose proof (wf_drop_cached t1 xs H1 Hxs) as H2.
  destruct (drop_cached_all xs t1 (wf_length _ _ _ _ H1) Hxs) as (_ & _ & _ & _ & _ & _ & H7).
  apply (wf_promote_cached (P := addr_ok g)).
  eapply wf_for_change; [exact H2|]. intros c (i & Hi & Hc). rewrite H7 in Hc by done.
  rewrite <- Eg1. apply definitely_blocked_spec; [by rewrite Eg1|].
  apply elem_of_app in Hc as [Hc|Hc]; simpl in Hc.
  - rewrite (definitely_blocked_gate t t1) by congruence. apply Hres. apply elem_of_all_contacts.
    exists i, (bucket_at t1 i). split; [|done]. apply bucket_at_lookup.
    by rewrite (wf_length _ _ _ _ H1).
  - apply elem_of_retain in Hc as [Hn Hc]. rewrite negb_true_iff, bool_decide_eq_false in Hn.
    destruct (definitely_blocked t1 (addr c)) eqn:E; [|done]. destruct Hn.
    apply elem_of_imap_concat. exists i, (bucket_at t1 i).
    split; [apply bucket_at_lookup; by rewrite (wf_length _ _ _ _ H1)|].
    apply list_elem_of_fmap. exists c. split; [done|]. by apply elem_of_retain.
Qed.
End sweep.

(** ** Every history of calls *)
Inductive table_op :=
| OpAdd (now : Z) (c : EmberContact)
| OpLoad (l : list (Z * EmberContact))
| OpPromote (now : Z)
| OpEvictReplace (now : Z) (id : EmberNodeId)
| OpRemove (id : EmberNodeId)
| OpAlive (now : Z) (id : EmberNodeId) (a : SocketAddr) (noise : bytes)
| OpFailed (id : EmberNodeId)
| OpClamp (now : Z)
| OpStale (now max_age_secs : Z) (in_use : gset EmberNodeId)
| OpFilter (now : Z)
| OpBlockPrivate (now : Z) (block : bool)
| OpEnforce.

Definition run_op (t : RoutingTable) (o : table_op) : RoutingTable :=
  match o with
  | OpAdd now c => (add_contact now t c).2
  | OpLoad l => (load_contacts t l).2
  | OpPromote now => (promote_cached_contacts now t).2
  | OpEvictReplace now id => (evict_and_replace now t id).2
  | OpRemove id => (remove_contact t id).2
  | OpAlive now id a noise => mark_alive now t id a noise
  | OpFailed id => (mark_failed t id).2
  | OpClamp now => (clamp_future_timestamps now t).2
  | OpStale now age in_use => (remove_stale now age in_use t).2
  | OpFilter now => (evict_filtered_contacts now t).2
  | OpBlockPrivate now block => (set_block_private_ips now t block).2
  | OpEnforce => (enforce_scale_quotas t).2
  end.

Lemma wf_of_wf_for t g L :
  range_filter g = None → wf_for (addr_ok g) L g t → wf t.
Proof.
  intros Hr Hw. pose proof (wf_local _ _ _ _ Hw) as El. pose proof (wf_gate _ _ _ _ Hw) as Eg.
  split; rewrite ?El, ?Eg; done.
Qed.

Lemma wf_new local block : wf (RoutingTable_new local block).
Proof.
  split; [done|]. split; [done|done|done| |].
  - intros i b [-> _]%lookup_replicate. by repeat constructor; simpl; lia.
  - assert (all_contacts (RoutingTable_new local block) = []) as -> by (vm_compute; done).
    split; [done|done|]. split; [done|]. intros a. simpl. by rewrite lookup_empty.
Qed.

Lemma wf_gate_change t g' :
  wf t → range_filter g' = None →
  wf_for (addr_ok (ip_gate t)) (local_id t) g' (set_gate t g').
Proof. intros [_ [H1 H2 H3 H4 H5]] Hr. split; try done. by eapply indexed_ext; [..|exact H5]. Qed.

Lemma addr_ok_mono g g' a :
  (block_private_ips g' = true → block_private_ips g = true) → addr_ok g a → addr_ok g' a.
Proof.
  intros Hb (v4 & Hv & Hok). exists v4. split; [done|].
  destruct (block_private_ips g'), (block_private_ips g) eqn:E;
    try done; [by specialize (Hb eq_refl)|by apply is_valid_contact_ip_mono].
Qed.

Lemma wf_run_op t o : wf t → wf (run_op t o).
Proof.
  intros [Hr Hw].
  assert (∀ t' a, ip_gate t' = ip_gate t → admits_addr t' a = true → addr_ok (ip_gate t) a) as Hadm.
  { intros t' a E Ha. rewrite <- E. apply admits_addr_spec; [by rewrite E|done]. }
  assert (∀ t', wf_for (addr_ok (ip_gate t)) (local_id t) (ip_gate t) t' → wf t') as Hof
    by (intros t' Ht'; by eapply wf_of_wf_for).
  destruct o; simpl; [apply Hof..| |apply Hof].
  - by apply wf_add_contact.
  - by apply wf_load_contacts.
  - by apply wf_promote_cached.
  - by apply wf_evict_and_replace.
  - by apply wf_remove_contact.
  - by apply wf_mark_alive.
  - by apply wf_mark_failed.
  - by apply clamp_buckets.
  - by apply wf_remove_stale.
  - by eapply wf_evict_filtered.
  - unfold set_block_private_ips, gate_set_block_private_ips.
    set (g' := mkGate _ _). pose proof (wf_gate_change t g' (mkTableWf _ Hr Hw) Hr) as H1.
    destruct (block && negb _) eqn:En.
    + eapply (wf_of_wf_for _ g'); [exact Hr|by eapply wf_evict_filtered].
    + cbn [snd]. eapply (wf_of_wf_for _ g'); [exact Hr|]. eapply wf_for_change; [exact H1|].
      intros c (i & Hi & Hc). destruct (wf_at_elem _ i c H1 Hi Hc) as [_ Hp].
      eapply addr_ok_mono; [|exact Hp]. simpl. intros ->. by destruct (block_private_ips (ip_gate t)).
  - by apply wf_enforce_scale_quotas.
Qed.

(** C1: the routing table is sound after any history of calls, starting empty.
    It keeps [ID_BITS] buckets of at most [K_BUCKET_SIZE] residents and
    [K_BUCKET_SIZE] cached contacts; every contact is in the bucket of its id,
    no id is held twice, every held address passes the IP policy in force, and
    the quota counters and the address index that the operations update in
    passing equal a recount of the residents. *)
Theorem table_reachable_wf local block ops :
  wf (foldl run_op (RoutingTable_new local block) ops).
Proof.
  apply (foldl_inv wf); [apply wf_new|]. intros t o _. apply wf_run_op.
Qed.

(** ** Small tables, for concrete instances *)
Definition sample_id (k : Z) : EmberNodeId := k :: repeat 0%Z 15.
Definition sample_contact (k host seen : Z) : EmberContact :=
  mkContact (sample_id k) (SocketAddrV4 (mkV4 9 9 k host) 4672) (repeat k 32) (repeat k 32) seen 0.
Definition sample_table (l : list EmberContact) : RoutingTable :=
  foldl (λ t c, run_op t (OpAdd 1000 c)) (RoutingTable_new (sample_id 0) true) l.

Lemma wf_sample_table l : wf (sample_table l).
Proof. apply (foldl_inv wf); [apply wf_new|]. intros t c _. apply wf_run_op. Qed.
