(* ===== verification/RoutingAdmission.v ===== *)
(** * What [add_contact] admits, and at whose expense

    The diversity caps, the resident's pinned identity and the precedence of
    verified contacts. *)
From S2P Require Import Prelude NodeId Addr IpFilter Contact RoutingTable RoutingInv RoutingSafety.

(** ** How the counters move *)
Lemma count_at_incr `{Countable K} (k j : K) m :
  count_at k (incr j m) = (if decide (j = k) then S (count_at k m) else count_at k m).
Proof.
  unfold count_at, incr. case_decide as E; [subst; by rewrite lookup_insert_eq|].
  by rewrite lookup_insert_ne.
Qed.

Lemma count_at_release `{Countable K} (k j : K) m :
  count_at k (release j m) = (if decide (j = k) then count_at k m - 1 else count_at k m).
Proof.
  unfold count_at, release. destruct (decide (j = k)) as [->|Hne].
  - destruct (m !! k) as [n|] eqn:E; [|by rewrite E]. case_decide as Hn.
    + rewrite lookup_delete_eq. simpl. lia.
    + by rewrite lookup_insert_eq.
  - destruct (m !! j) as [n|]; [|done].
    case_decide; [by rewrite lookup_delete_ne|by rewrite lookup_insert_ne].
Qed.

(** Every count of [t'] is within [s]'s caps or no higher than it was in [t]. *)
Record caps_kept (s : NetworkScale) (t t' : RoutingTable) : Prop := mkCapsKept {
  kept_ip : ∀ ip, count_at ip (global_ip_count t') ≤
                  max (count_at ip (global_ip_count t)) (max_contacts_per_ip s);
  kept_subnet : ∀ k, count_at k (global_subnet_count t') ≤
                     max (count_at k (global_subnet_count t)) (max_contacts_per_subnet_global s);
  kept_bucket : ∀ i k, subnet_count (bucket_at t' i) k ≤
                       max (subnet_count (bucket_at t i) k) (max_contacts_per_subnet_per_bucket s);
}.

#[export] Instance caps_kept_refl s : Reflexive (caps_kept s).
Proof. intros t. split; intros; lia. Qed.
#[export] Instance caps_kept_trans s : Transitive (caps_kept s).
Proof.
  intros t1 t2 t3 [A1 A2 A3] [B1 B2 B3]. split.
  - intros ip. specialize (A1 ip). specialize (B1 ip). lia.
  - intros k. specialize (A2 k). specialize (B2 k). lia.
  - intros i k. specialize (A3 i k). specialize (B3 i k). lia.
Qed.

(** What the caps depend on. *)
Lemma caps_kept_same s t t' :
  global_ip_count t' = global_ip_count t → global_subnet_count t' = global_subnet_count t →
  (∀ i, contacts (bucket_at t' i) = contacts (bucket_at t i)) → caps_kept s t t'.
Proof.
  intros E1 E2 E3. split; intros; rewrite ?E1, ?E2; [lia..|].
  unfold subnet_count. rewrite E3. lia.
Qed.

Lemma put_contacts_same t i b :
  contacts b = contacts (bucket_at t i) →
  ∀ j, contacts (bucket_at (put_bucket t i b) j) = contacts (bucket_at t j).
Proof.
  intros E j. destruct (decide (i = j)) as [<-|]; [|by rewrite bucket_at_put_ne].
  destruct (decide (i < length (buckets t))); [by rewrite bucket_at_put_eq|].
  unfold put_bucket, bucket_at; simpl. by rewrite list_insert_ge by lia.
Qed.

Lemma add_to_cache_contacts t idx c s :
  global_ip_count (add_to_cache t idx c s) = global_ip_count t ∧
  global_subnet_count (add_to_cache t idx c s) = global_subnet_count t ∧
  ∀ j, contacts (bucket_at (add_to_cache t idx c s) j) = contacts (bucket_at t j).
Proof.
  unfold add_to_cache. destruct (find _ _); [done|]. destruct (find_in_cache _ _) as [pos|].
  { split; [done|]. split; [done|]. by apply put_contacts_same. }
  case_match; [|done]. split; [done|]. split; [done|]. by apply put_contacts_same.
Qed.

Lemma caps_kept_cache s s' t t' idx c :
  caps_kept s t t' → caps_kept s t (add_to_cache t' idx c s').
Proof.
  intros H. etransitivity; [exact H|].
  destruct (add_to_cache_contacts t' idx c s') as (? & ? & ?). by apply caps_kept_same.
Qed.

Lemma over_caps_false t b s c :
  over_caps t b s c = false →
  subnet_count b (subnet_key c) < max_contacts_per_subnet_per_bucket s ∧
  count_at (subnet_key c) (global_subnet_count t) < max_contacts_per_subnet_global s ∧
  count_at (contact_ip c) (global_ip_count t) < max_contacts_per_ip s.
Proof.
  unfold over_caps. rewrite !orb_false_iff, !bool_decide_eq_false. lia.
Qed.

(** One bucket rewritten, the counters following. *)
Lemma caps_kept_put s t t' idx b :
  (∀ ip, count_at ip (global_ip_count t') ≤
         max (count_at ip (global_ip_count t)) (max_contacts_per_ip s)) →
  (∀ k, count_at k (global_subnet_count t') ≤
        max (count_at k (global_subnet_count t)) (max_contacts_per_subnet_global s)) →
  buckets t' = <[idx := b]> (buckets t) →
  (∀ k, subnet_count b k ≤
        max (subnet_count (bucket_at t idx) k) (max_contacts_per_subnet_per_bucket s)) →
  caps_kept s t t'.
Proof.
  intros H1 H2 E H3. split; [done..|]. intros i k.
  assert (bucket_at t' i = bucket_at (put_bucket t idx b) i) as ->
    by (unfold bucket_at, put_bucket; by rewrite E).
  destruct (decide (idx = i)) as [<-|]; [|rewrite bucket_at_put_ne by done; lia].
  destruct (decide (idx < length (buckets t))); [by rewrite bucket_at_put_eq|].
  unfold put_bucket, bucket_at; simpl. rewrite list_insert_ge by lia. lia.
Qed.

Lemma subnet_count_snoc b l c k :
  subnet_count (set_contacts b (l ++ [c])) k =
  count_if (λ x, Z.eqb (subnet_key x) k) l + (if Z.eqb (subnet_key c) k then 1 else 0).
Proof.
  unfold subnet_count; simpl. rewrite count_if_app, count_if_cons, count_if_nil.
  by destruct (Z.eqb _ _).
Qed.

(** A contact that enters a slot. *)
Lemma caps_kept_enter s t t' idx b c :
  over_caps t (bucket_at t idx) s c = false →
  global_ip_count t' = incr (contact_ip c) (global_ip_count t) →
  global_subnet_count t' = incr (subnet_key c) (global_subnet_count t) →
  buckets t' = <[idx := b]> (buckets t) → contacts b = contacts (bucket_at t idx) ++ [c] →
  caps_kept s t t'.
Proof.
  intros (H1 & H2 & H3)%over_caps_false E1 E2 E3 Eb. eapply caps_kept_put; [| |exact E3|].
  - intros ip. rewrite E1, count_at_incr. case_decide; subst; lia.
  - intros k. rewrite E2, count_at_incr. case_decide; subst; lia.
  - intros k. pose proof (subnet_count_snoc b (contacts (bucket_at t idx)) c k) as Hs.
    unfold subnet_count in *. simpl in Hs. rewrite Eb, Hs.
    destruct (Z.eqb_spec (subnet_key c) k); subst; lia.
Qed.

Lemma caps_positive s :
  0 < max_contacts_per_ip s ∧ 0 < max_contacts_per_subnet_global s ∧
  0 < max_contacts_per_subnet_per_bucket s.
Proof. destruct s; simpl; lia. Qed.

(** A contact that takes the slot of [e]. *)
Lemma caps_kept_swap s t t' idx pos b c e :
  contacts (bucket_at t idx) !! pos = Some e →
  displacement_ok t (bucket_at t idx) e c s = true →
  global_ip_count t' = incr (contact_ip c) (release (contact_ip e) (global_ip_count t)) →
  global_subnet_count t' = incr (subnet_key c) (release (subnet_key e) (global_subnet_count t)) →
  buckets t' = <[idx := b]> (buckets t) →
  contacts b = delete pos (contacts (bucket_at t idx)) ++ [c] →
  caps_kept s t t'.
Proof.
  intros He Hok E1 E2 E3 Eb. unfold displacement_ok in Hok.
  rewrite andb_true_iff, !orb_true_iff, andb_true_iff, !bool_decide_eq_true, Z.eqb_eq in Hok.
  destruct Hok as [Hip Hsub]. destruct (caps_positive s) as (P1 & P2 & P3).
  eapply caps_kept_put; [| |exact E3|].
  - intros ip. rewrite E1, count_at_incr, !count_at_release.
    destruct (decide (contact_ip c = ip)), (decide (contact_ip e = ip)); subst;
      first [lia | destruct Hip; [congruence|lia]].
  - intros k. rewrite E2, count_at_incr, !count_at_release.
    destruct (decide (subnet_key c = k)), (decide (subnet_key e = k)); subst;
      first [lia | destruct Hsub as [|[? ?]]; [congruence|lia]].
  - intros k. pose proof (subnet_count_snoc b (delete pos (contacts (bucket_at t idx))) c k) as Hs.
    unfold subnet_count in *. simpl in Hs. rewrite Eb, Hs, (count_if_delete _ (contacts _) _ _ He).
    rewrite (count_if_delete _ (contacts _) _ _ He) in Hsub.
    destruct (Z.eqb_spec (subnet_key c) k), (Z.eqb_spec (subnet_key e) k); subst; lia.
Qed.

Lemma displacement_within_caps t b e c s :
  over_caps t b s c = false → displacement_ok t b e c s = true.
Proof.
  intros (? & ? & ?)%over_caps_false. unfold displacement_ok.
  rewrite andb_true_iff, !orb_true_iff, andb_true_iff, !bool_decide_eq_true. auto.
Qed.

Lemma caps_kept_displace now s s' t idx pos e c :
  contacts (bucket_at t idx) !! pos = Some e →
  displacement_ok t (bucket_at t idx) e c s = true →
  caps_kept s t (displace now t idx pos e c s').
Proof.
  intros He Hok. unfold displace. apply caps_kept_cache.
  by eapply (caps_kept_swap s t _ idx pos).
Qed.

Lemma caps_kept_newcomer now t idx c s : caps_kept s t (add_newcomer now t idx c s).2.
Proof.
  assert (∀ r, caps_kept s t (if is_verified c then set_refusals t r else t)) as Href.
  { intros r. destruct (is_verified c); [by apply caps_kept_same|done]. }
  unfold add_newcomer. repeat (case_decide; [by apply caps_kept_cache, Href|]).
  assert (over_caps t (bucket_at t idx) s c = false) as Hcaps.
  { unfold over_caps. by rewrite !bool_decide_false by lia. }
  destruct (is_full _); cbn [negb].
  - destruct (if is_verified c then _ else _) as [pos|].
    + destruct (contacts _ !! pos) as [e|] eqn:He; [|done].
      apply caps_kept_displace; [done|]. by apply displacement_within_caps.
    + destruct (oldest_contact _); [|done]. destruct (negb (_ || _)); by apply caps_kept_cache.
  - by eapply caps_kept_enter.
Qed.

Lemma add_admitted_cases now t idx c s :
  (∃ pos e, contacts (bucket_at t idx) !! pos = Some e ∧ is_verified c = true ∧
            is_verified e = false ∧ displacement_ok t (bucket_at t idx) e c s = true ∧
            add_admitted now t idx c s = (Added, displace now t idx pos e c s)) ∨
  add_admitted now t idx c s = add_newcomer now t idx c s.
Proof.
  unfold add_admitted. case_match eqn:Hv; [|by right]. destruct p as [pos e]. left.
  destruct (is_verified c && _) eqn:Hc; [|done]. apply andb_true_iff in Hc as [Hc _].
  apply bind_Some in Hv as (p & Hp & Hv). apply bind_Some in Hv as (e' & He & Hv).
  case_match; [|done]. simplify_eq. exists pos, e. split; [done|]. split; [done|]. split; [|done].
  assert (∀ q, lead_where (bucket_at t idx) q = Some pos → is_verified e = false) as Hlead.
  { intros q (x & Hx & Hq)%position_lookup. simplify_eq.
    by apply andb_true_iff in Hq as [?%negb_true_iff _]. }
  unfold displaced_lead in Hp. repeat case_match; simplify_eq; eauto.
Qed.

Lemma caps_kept_admitted now t idx c s : caps_kept s t (add_admitted now t idx c s).2.
Proof.
  destruct (add_admitted_cases now t idx c s) as [(pos & e & He & _ & _ & Hok & ->)| ->].
  - by apply caps_kept_displace.
  - apply caps_kept_newcomer.
Qed.

Lemma subnet_count_without b pos e k :
  contacts b !! pos = Some e →
  subnet_count b k = (if Z.eqb (subnet_key e) k then 1 else 0) +
                     subnet_count (set_contacts b (delete pos (contacts b))) k.
Proof. intros He. unfold subnet_count. by rewrite (count_if_delete _ _ _ _ He). Qed.

Lemma caps_kept_resident t idx c s adm :
  caps_kept s t (apply_resident_contact t idx c (max_contacts_per_ip s)
    (max_contacts_per_subnet_global s) (max_contacts_per_subnet_per_bucket s) adm).2.
Proof.
  unfold apply_resident_contact. destruct (find _ _) as [pos|]; [|done].
  destruct (contacts _ !! pos) as [e|] eqn:He; [|done].
  set (moved := negb (bool_decide (addr c = addr e))).
  destruct (Z.leb _ _); [done|]. destruct (is_verified e && _ && _); [done|].
  destruct (moved && negb adm); [done|]. destruct (moved && _) eqn:Hm; [done|].
  set (b := bucket_at t idx) in *. cbn [snd].
  destruct (caps_positive s) as (P1 & P2 & P3).
  destruct moved; cbn [andb] in Hm.
  2:{ eapply (caps_kept_put s t _ idx); [intros; simpl; lia..|done|].
      intros k. pose proof (subnet_count_snoc b (delete pos (contacts b))
                              (refresh_resident e c (addr e)) k) as Hs.
      fold b. rewrite (subnet_count_without b pos e k He).
      change (subnet_key (refresh_resident e c (addr e))) with (subnet_key e) in Hs.
      unfold subnet_count in *. simpl in *. rewrite Hs. lia. }
  unfold move_refused in Hm.
  rewrite orb_false_iff, !andb_false_iff, orb_false_iff, !negb_false_iff, !bool_decide_eq_false,
    bool_decide_eq_true, Z.eqb_eq in Hm. destruct Hm as [Hsub Hip].
  destruct (move_quotas_frame t e c) as (_ & Eb & _ & _).
  eapply (caps_kept_put s t _ idx); simpl.
  - intros ip. unfold move_quotas. case_bool_decide; [destruct (Z.eqb _ _); simpl; lia|].
    destruct (Z.eqb _ _); simpl; rewrite count_at_incr, !count_at_release;
      destruct (decide (contact_ip c = ip)), (decide (contact_ip e = ip)); subst;
      first [lia | destruct Hip; [done|lia]].
  - intros k. unfold move_quotas. destruct (Z.eqb_spec (subnet_key c) (subnet_key e)) as [Es|Es];
      [case_bool_decide; simpl; lia|].
    case_bool_decide; simpl; rewrite count_at_incr, !count_at_release;
      destruct (decide (subnet_key c = k)), (decide (subnet_key e = k)); subst;
      first [lia | destruct Hsub as [|[? ?]]; [done|lia]].
  - by rewrite Eb.
  - intros k. pose proof (subnet_count_snoc b (delete pos (contacts b))
                            (refresh_resident e c (addr c)) k) as Hs.
    fold b. rewrite (subnet_count_without b pos e k He).
    change (subnet_key (refresh_resident e c (addr c))) with (subnet_key c) in Hs.
    unfold subnet_count in *. simpl in *. rewrite Hs.
    destruct (Z.eqb_spec (subnet_key c) k), (Z.eqb_spec (subnet_key e) k); subst;
      first [lia | destruct Hsub as [|[? ?]]; [congruence|lia]].
Qed.

(** No call of [add_contact] pushes a diversity count past its cap.  For the
    tier in force, every per-address count, every per-/24 count in the table and
    every per-/24 count in a bucket ends within its cap or no higher than it
    was, for every contact, table and branch, including displacement of a lead,
    an address change of a resident and parking in the cache. *)
Theorem add_contact_keeps_caps now t c :
  caps_kept (admission_scale t) t (add_contact now t c).2.
Proof.
  unfold add_contact. case_bool_decide; [done|].
  destruct (bucket_index _ _) as [idx|]; [|done]. case_decide; [done|].
  destruct (_ ≫= _).
  - apply caps_kept_resident.
  - destruct (negb _); [|apply caps_kept_admitted].
    cbn [snd]. destruct (is_verified c); [by apply caps_kept_same|done].
Qed.

(** ** Promotion *)

(** [t'] has only gained residents over [t]. *)
Record grows (t t' : RoutingTable) : Prop := mkGrows {
  grows_ip : ∀ ip, count_at ip (global_ip_count t) ≤ count_at ip (global_ip_count t');
  grows_subnet : ∀ k, count_at k (global_subnet_count t) ≤ count_at k (global_subnet_count t');
  grows_verified : verified_len t ≤ verified_len t';
  grows_enforced : enforced_scale t' = enforced_scale t;
  grows_gate : ip_gate t' = ip_gate t;
  grows_length : length (buckets t') = length (buckets t);
}.

#[export] Instance grows_preorder : PreOrder grows.
Proof.
  split.
  - intros t. split; intros; lia || done.
  - intros t1 t2 t3 [A1 A2 A3 A4 A5 A6] [B1 B2 B3 B4 B5 B6]. split.
    + intros ip. specialize (A1 ip); specialize (B1 ip); lia.
    + intros k. specialize (A2 k); specialize (B2 k); lia.
    + lia.
    + congruence.
    + congruence.
    + congruence.
Qed.

Definition tier_le (s s' : NetworkScale) : Prop := scale_rank s ≤ scale_rank s'.

Lemma caps_antitone s s' :
  tier_le s s' →
  max_contacts_per_ip s' ≤ max_contacts_per_ip s ∧
  max_contacts_per_subnet_global s' ≤ max_contacts_per_subnet_global s ∧
  max_contacts_per_subnet_per_bucket s' ≤ max_contacts_per_subnet_per_bucket s.
Proof. unfold tier_le. destruct s, s'; simpl; lia. Qed.

Lemma from_contacts_mono n m : n ≤ m → tier_le (from_contacts n) (from_contacts m).
Proof. unfold tier_le, from_contacts. intros. repeat case_decide; simpl; lia. Qed.

Lemma scale_max_mono a a' b : tier_le a a' → tier_le (scale_max a b) (scale_max a' b).
Proof. unfold tier_le, scale_max. intros. repeat case_decide; lia. Qed.

Lemma grows_scale t t' : grows t t' → tier_le (admission_scale t) (admission_scale t').
Proof.
  intros [_ _ H1 H2 _ _]. unfold admission_scale, scale. rewrite H2.
  by apply scale_max_mono, from_contacts_mono.
Qed.

Lemma caps_kept_tier s s' t t' : tier_le s s' → caps_kept s' t t' → caps_kept s t t'.
Proof.
  intros (H1 & H2 & H3)%caps_antitone [A1 A2 A3]. split.
  - intros ip. specialize (A1 ip). lia.
  - intros k. specialize (A2 k). lia.
  - intros i k. specialize (A3 i k). lia.
Qed.

Lemma over_caps_mono t t' b s s' c :
  grows t t' → tier_le s s' → over_caps t b s c = true → over_caps t' b s' c = true.
Proof.
  intros [H1 H2 _ _ _ _] (? & ? & ?)%caps_antitone. unfold over_caps.
  rewrite !orb_true_iff, !bool_decide_eq_true.
  specialize (H1 (contact_ip c)). specialize (H2 (subnet_key c)). lia.
Qed.

Lemma admits_addr_gate t t' a : ip_gate t' = ip_gate t → admits_addr t' a = admits_addr t a.
Proof. unfold admits_addr. by intros ->. Qed.

Lemma promotable_mono t t' b b' ex s s' c :
  grows t t' → tier_le s s' → contacts b' = contacts b →
  promotable t' b' ex s' c = true → promotable t b ex s c = true.
Proof.
  intros Hg Hs Eb. unfold promotable.
  rewrite (admits_addr_gate t t') by apply Hg. unfold find. rewrite Eb.
  rewrite !andb_true_iff. intros [? Hc]. split; [done|].
  destruct (over_caps t b s c) eqn:E; [|done].
  apply (over_caps_mono t t' b s s') in E; [|done..].
  unfold over_caps, subnet_count in *. rewrite Eb in Hc. by rewrite E in Hc.
Qed.

(** A bucket with nothing left to promote: full, or no cached contact passes. *)
Definition settled (s : NetworkScale) (t : RoutingTable) (i : nat) : Prop :=
  is_full (bucket_at t i) = true ∨
  Forall (λ c, promotable t (bucket_at t i) None s c = false)
    (replacement_cache (bucket_at t i)).

Lemma settled_mono t t' s s' i :
  grows t t' → tier_le s s' →
  contacts (bucket_at t' i) = contacts (bucket_at t i) →
  replacement_cache (bucket_at t' i) = replacement_cache (bucket_at t i) →
  settled s t i → settled s' t' i.
Proof.
  intros Hg Hs Ec Er [H|H].
  - left. unfold is_full in *. by rewrite Ec.
  - right. rewrite Er. eapply Forall_impl; [exact H|]. intros c Hc. simpl.
    destruct (promotable t' _ _ _ c) eqn:E; [|done].
    eapply promotable_mono in E; [|exact Hg|exact Hs|exact Ec]. congruence.
Qed.

Lemma promotable_scan_None t b ex s n lead :
  promotable_scan t b ex s n lead = None →
  lead = None ∧ ∀ i c, i < n → replacement_cache b !! i = Some c → promotable t b ex s c = false.
Proof.
  revert lead. induction n as [|n IH]; intros lead; simpl; [intros ->; split; [done|intros; lia]|].
  assert (∀ l, promotable_scan t b ex s n l = None → (l = None → lead = None) →
    (∀ c, replacement_cache b !! n = Some c → promotable t b ex s c = false) →
    lead = None ∧ ∀ i c, i < S n → replacement_cache b !! i = Some c → promotable t b ex s c = false)
    as Hstep.
  { intros l [Hl Hi]%IH H1 H2. split; [auto|]. intros i c Hlt Hc.
    destruct (decide (i = n)) as [->|]; [auto|]. apply (Hi i c); [lia|done]. }
  destruct (replacement_cache b !! n) as [c|] eqn:Hc; [|intros H; by apply (Hstep lead)].
  destruct (promotable t b ex s c) eqn:Hp; simpl.
  - destruct (is_verified c); [done|]. intros [Hl _]%IH. by destruct lead.
  - intros H. apply (Hstep lead); [done..|]. intros ? [= <-]. done.
Qed.

Lemma best_promotable_None t idx ex s :
  best_promotable_cached t idx ex s = None →
  Forall (λ c, promotable t (bucket_at t idx) ex s c = false) (replacement_cache (bucket_at t idx)).
Proof.
  intros [_ H]%promotable_scan_None. apply Forall_forall. intros c [i Hi]%list_elem_of_lookup.
  eapply H; [|exact Hi]. by eapply lookup_lt_Some.
Qed.

Lemma grows_promote_entry t idx i c : grows t (promote_entry t idx i c).
Proof.
  unfold promote_entry, verified_len. split; simpl; try done.
  - intros ip. rewrite count_at_incr. case_decide; lia.
  - intros k. rewrite count_at_incr. case_decide; lia.
  - unfold verified_len; simpl. destruct (is_verified c); lia.
  - apply length_insert.
Qed.

Lemma grows_set_activity t idx a : grows t (put_bucket t idx (set_activity (bucket_at t idx) a)).
Proof. split; try done. apply length_insert. Qed.

Lemma caps_kept_promote_entry s t idx i c :
  promotable t (bucket_at t idx) None s c = true → caps_kept s t (promote_entry t idx i c).
Proof.
  unfold promotable. intros [_ Hc%negb_true_iff]%andb_true_iff. by eapply caps_kept_enter.
Qed.

(** One bucket of the sweep: [fuel] covers the free slots, so the loop ends
    because the bucket is full or nothing more can be promoted. *)
Lemma promote_bucket_spec fuel t idx s n :
  idx < length (buckets t) → K_BUCKET_SIZE ≤ length (contacts (bucket_at t idx)) + fuel →
  let t' := (promote_bucket fuel t idx s n).2 in
  grows t t' ∧ caps_kept s t t' ∧ settled s t' idx ∧
  (∀ j, j ≠ idx → bucket_at t' j = bucket_at t j) ∧
  n ≤ (promote_bucket fuel t idx s n).1 ∧ ((promote_bucket fuel t idx s n).1 = n → t' = t).
Proof.
  revert t n. induction fuel as [|fuel IH]; intros t n Hidx Hf.
  { cbn. split; [done|]. split; [done|]. split; [left; apply bool_decide_eq_true; lia|auto]. }
  cbn [promote_bucket]. destruct (is_full _) eqn:Hfull.
  { cbn. split; [done|]. split; [done|]. split; [by left|auto]. }
  destruct (best_promotable_cached t idx None s) as [i|] eqn:Hb; cbn.
  2:{ split; [done|]. split; [done|]. split; [right; by apply best_promotable_None|auto]. }
  apply best_promotable_cached_Some in Hb as (c & Hc & Hp). rewrite Hc. cbn.
  set (t1 := promote_entry t idx i c). apply bool_decide_eq_false in Hfull.
  assert (bucket_at t1 idx = set_contacts
    (set_cache (bucket_at t idx) (delete i (replacement_cache (bucket_at t idx))))
    (contacts (bucket_at t idx) ++ [c])) as E1.
  { unfold t1, promote_entry. by rewrite bucket_at_put_eq. }
  destruct (IH t1 (S n)) as (H1 & H2 & H3 & H4 & H5).
  { unfold t1; simpl. by rewrite length_insert. }
  { rewrite E1; simpl. rewrite length_app; simpl. lia. }
  split; [by etransitivity; [apply grows_promote_entry|]|].
  split; [by etransitivity; [by apply caps_kept_promote_entry|]|].
  split; [done|]. split.
  - intros j Hj. rewrite H4 by done. unfold t1, promote_entry. by rewrite bucket_at_put_ne.
  - destruct H5 as [H5 _]. split; [lia|]. intros E. exfalso. lia.
Qed.

Definition settled_upto (k : nat) (t : RoutingTable) : Prop :=
  ∀ i, i < k → settled (admission_scale t) t i.

Lemma promote_step_spec now n t idx :
  idx < length (buckets t) → length (contacts (bucket_at t idx)) ≤ K_BUCKET_SIZE →
  let t' := (promote_step now (n, t) idx).2 in
  grows t t' ∧ caps_kept (admission_scale t) t t' ∧ settled (admission_scale t) t' idx ∧
  ∀ j, j ≠ idx → bucket_at t' j = bucket_at t j.
Proof.
  intros Hidx Hlen. unfold promote_step. case_bool_decide as He.
  { cbn. split; [done|]. split; [done|]. split; [|done]. right. by rewrite He. }
  destruct (promote_bucket_spec K_BUCKET_SIZE t idx (admission_scale t) 0 Hidx ltac:(lia))
    as (H1 & H2 & H3 & H4 & _).
  destruct (promote_bucket _ _ _ _ _) as [m t1]. cbn [fst snd] in *.
  destruct (decide (m = 0)); [done|].
  set (t2 := put_bucket t1 idx _).
  assert (idx < length (buckets t1)) by (by rewrite (grows_length _ _ H1)).
  assert (bucket_at t2 idx = set_activity (bucket_at t1 idx) now) as E by (by apply bucket_at_put_eq).
  assert (grows t1 t2) as Hg by apply grows_set_activity.
  split; [by etransitivity|]. split; [|split].
  - etransitivity; [exact H2|]. apply caps_kept_same; [done..|]. by apply put_contacts_same.
  - eapply (settled_mono t1 t2 (admission_scale t)); [done|unfold tier_le; lia|by rewrite E..|done].
  - intros j Hj. rewrite <- (H4 j Hj). by apply bucket_at_put_ne.
Qed.

Lemma promote_fold_spec now l t n :
  Forall (λ i, i < length (buckets t) ∧ length (contacts (bucket_at t i)) ≤ K_BUCKET_SIZE) l →
  NoDup l →
  let t' := (foldl (promote_step now) (n, t) l).2 in
  grows t t' ∧ caps_kept (admission_scale t) t t' ∧
  (∀ i, i ∈ l → settled (admission_scale t') t' i) ∧
  (∀ j, j ∉ l → bucket_at t' j = bucket_at t j).
Proof.
  revert t n. induction l as [|i l IH]; intros t n Hl Hnd; cbn [foldl].
  { split; [done|]. split; [done|]. split; [|done]. by intros i ?%not_elem_of_nil. }
  apply Forall_cons in Hl as [[Hi Hlen] Hl]. apply NoDup_cons in Hnd as [Hil Hnd].
  destruct (promote_step_spec now n t i Hi Hlen) as (H1 & H2 & H3 & H4).
  destruct (promote_step now (n, t) i) as [m t1]. cbn [fst snd] in *.
  destruct (IH t1 m) as (K1 & K2 & K3 & K4); [|done|].
  { rewrite (grows_length _ _ H1). apply Forall_forall. intros j Hj. rewrite Forall_forall in Hl.
    rewrite H4 by (intros ->; done). by apply Hl. }
  split; [by etransitivity|]. split; [|split].
  - etransitivity; [exact H2|]. eapply caps_kept_tier; [by apply grows_scale|done].
  - intros j [->|Hj]%elem_of_cons; [|by apply K3].
    eapply (settled_mono t1 _ (admission_scale t)); [done| |by rewrite K4..|exact H3].
    unfold tier_le in *. pose proof (grows_scale _ _ H1). pose proof (grows_scale _ _ K1).
    unfold tier_le in *. lia.
  - intros j [Hji Hj]%not_elem_of_cons. by rewrite K4, H4.
Qed.

(** Promotion fills every slot it may and no more.  After
    [promote_cached_contacts] on a sound table each bucket is full or holds no
    cached contact the policy and the caps in force would still take in, the loop
    having run to its own end; the caps hold as for [add_contact]; and no
    resident count, per address, per /24 or of verified contacts, has fallen. *)
Theorem promotion_exhausts_vacancies now t :
  wf t →
  let t' := (promote_cached_contacts now t).2 in
  (∀ i, i < ID_BITS → settled (admission_scale t') t' i) ∧
  caps_kept (admission_scale t) t t' ∧ grows t t'.
Proof.
  intros [_ Hw]. unfold promote_cached_contacts. rewrite (wf_length _ _ _ _ Hw).
  destruct (promote_fold_spec now (seq 0 ID_BITS) t 0) as (H1 & H2 & H3 & _).
  - apply Forall_forall. intros i Hi%elem_of_seq. rewrite (wf_length _ _ _ _ Hw).
    destruct (wf_at _ i Hw ltac:(lia)) as (_ & [? _ _] & _). split; [lia|done].
  - apply NoDup_seq.
  - split; [|done]. intros i Hi. apply H3, elem_of_seq. lia.
Qed.


(** ** What one call does to the residents *)

(** The residents of the contact's bucket before and after. *)
Inductive slot_change (c : EmberContact) : list EmberContact → list EmberContact → Prop :=
| slot_same l : slot_change c l l
| slot_enter l : slot_change c l (l ++ [c])
| slot_outrank l pos e :
    l !! pos = Some e → is_verified c = true → is_verified e = false →
    slot_change c l (delete pos l ++ [c])
| slot_refresh l pos e a :
    l !! pos = Some e → node_id e = node_id c → is_verified c = true →
    slot_change c l (delete pos l ++ [refresh_resident e c a]).

(** [c]'s bucket is the only one whose residents change, by [slot_change];
    [Added] means that [c]'s id is resident afterwards, any other answer that
    the residents are as they were. *)
Record add_effect (c : EmberContact) (idx : nat) (t : RoutingTable)
    (r : AddResult) (t' : RoutingTable) : Prop := mkEffect {
  effect_others : ∀ j, j ≠ idx → contacts (bucket_at t' j) = contacts (bucket_at t j);
  effect_slot : slot_change c (contacts (bucket_at t idx)) (contacts (bucket_at t' idx));
  effect_added : r = Added → node_id c ∈ (node_id <$> contacts (bucket_at t' idx));
  effect_refused : r ≠ Added → contacts (bucket_at t' idx) = contacts (bucket_at t idx);
}.

Lemma effect_none c idx t r t' :
  (∀ j, contacts (bucket_at t' j) = contacts (bucket_at t j)) →
  (r = Added → node_id c ∈ (node_id <$> contacts (bucket_at t idx))) → add_effect c idx t r t'.
Proof.
  intros Hs Hr. split; [by auto| |by rewrite Hs|by auto]. rewrite Hs. constructor.
Qed.

Lemma effect_put c idx t t0 t' b :
  idx < length (buckets t) → buckets t0 = <[idx := b]> (buckets t) →
  (∀ j, contacts (bucket_at t' j) = contacts (bucket_at t0 j)) →
  slot_change c (contacts (bucket_at t idx)) (contacts b) →
  node_id c ∈ (node_id <$> contacts b) → add_effect c idx t Added t'.
Proof.
  intros Hi E Hs Hc Hin.
  assert (∀ j, bucket_at t0 j = bucket_at (put_bucket t idx b) j) as E0
    by (intros j; unfold bucket_at, put_bucket; by rewrite E).
  split.
  - intros j Hj. rewrite Hs, E0. by rewrite bucket_at_put_ne.
  - by rewrite Hs, E0, bucket_at_put_eq.
  - by rewrite Hs, E0, bucket_at_put_eq.
  - done.
Qed.

Lemma elem_of_snoc_id c x l : node_id x = node_id c → node_id c ∈ (node_id <$> l ++ [x]).
Proof. intros E. rewrite fmap_app, elem_of_app; simpl. right. rewrite E. left. Qed.

Lemma effect_displace now c idx t pos e s :
  idx < length (buckets t) → contacts (bucket_at t idx) !! pos = Some e →
  is_verified c = true → is_verified e = false →
  add_effect c idx t Added (displace now t idx pos e c s).
Proof.
  intros Hi He Hc Hv. unfold displace. eapply effect_put; [done| |apply add_to_cache_contacts| |].
  - done.
  - by eapply slot_outrank.
  - by apply elem_of_snoc_id.
Qed.

Lemma effect_cached c idx t s r0 :
  r0 ≠ Added → add_effect c idx t r0 (add_to_cache t idx c s).
Proof. intros Hr. by apply effect_none; [apply add_to_cache_contacts|]. Qed.

Lemma effect_newcomer now c idx t s :
  idx < length (buckets t) →
  add_effect c idx t (add_newcomer now t idx c s).1 (add_newcomer now t idx c s).2.
Proof.
  intros Hi.
  assert (∀ r, let t' := if is_verified c then set_refusals t r else t in
    add_effect c idx t Rejected (add_to_cache t' idx c s)) as Href.
  { intros r t'. assert (∀ j, bucket_at t' j = bucket_at t j) as E
      by (intros j; unfold t'; by destruct (is_verified c)).
    apply effect_none; [|done]. intros j. rewrite <- E. apply add_to_cache_contacts. }
  unfold add_newcomer. repeat (case_decide; [apply Href|]).
  destruct (is_full _); cbn [negb].
  - destruct (is_verified c) eqn:Hc.
    + destruct (lead_where _ _) as [pos|] eqn:Hl.
      * destruct (position_lookup _ _ _ Hl) as (e & He & Hq). rewrite He.
        apply effect_displace; [done..|]. by apply andb_true_iff in Hq as [?%negb_true_iff _].
      * destruct (oldest_contact _); [destruct (negb (_ || _)); by apply effect_cached|].
        by apply effect_none.
    + destruct (oldest_contact _); [destruct (negb (_ || _)); by apply effect_cached|].
      by apply effect_none.
  - eapply (effect_put c idx t); [done| |intros j; reflexivity|..].
    + reflexivity.
    + apply slot_enter.
    + by apply elem_of_snoc_id.
Qed.


Lemma effect_admitted now c idx t s :
  idx < length (buckets t) →
  add_effect c idx t (add_admitted now t idx c s).1 (add_admitted now t idx c s).2.
Proof.
  intros Hi. destruct (add_admitted_cases now t idx c s) as [(pos & e & He & Hc & Hv & _ & ->)| ->].
  - by apply effect_displace.
  - by apply effect_newcomer.
Qed.

Lemma effect_resident c idx t m1 m2 m3 adm pos :
  idx < length (buckets t) → find (bucket_at t idx) (node_id c) = Some pos →
  let r := apply_resident_contact t idx c m1 m2 m3 adm in add_effect c idx t r.1 r.2.
Proof.
  intros Hi Hf. destruct (find_Some _ _ _ Hf) as (e & He & Eid).
  assert (node_id c ∈ (node_id <$> contacts (bucket_at t idx))) as Hin.
  { rewrite <- Eid. apply list_elem_of_fmap. exists e. split; [done|].
    by eapply list_elem_of_lookup_2. }
  unfold apply_resident_contact. rewrite Hf, He.
  set (moved := negb (bool_decide (addr c = addr e))).
  destruct (Z.leb_spec (last_seen c) 0); [by apply effect_none|].
  destruct (is_verified e && _ && _); [by apply effect_none|].
  destruct (moved && negb adm); [by apply effect_none|].
  destruct (moved && _); [by apply effect_none|].
  set (t1 := if moved then move_quotas t e c else t).
  assert (buckets t1 = buckets t) as E1.
  { unfold t1. destruct moved; [apply move_quotas_frame|done]. }
  eapply (effect_put c idx t); [done| |intros j; reflexivity|..]; simpl.
  - by rewrite E1.
  - simpl. eapply slot_refresh; [done..|]. unfold is_verified. lia.
  - simpl. by apply elem_of_snoc_id.
Qed.

Lemma add_contact_effect now t c idx :
  wf t → bucket_index (local_id t) (node_id c) = Some idx →
  add_effect c idx t (add_contact now t c).1 (add_contact now t c).2.
Proof.
  intros [_ Hw] Hidx. pose proof (bucket_index_lt _ _ _ Hidx) as Hi.
  assert (idx < length (buckets t)) as Hlt by (by rewrite (wf_length _ _ _ _ Hw)).
  unfold add_contact. rewrite Hidx. case_bool_decide; [by apply effect_none|].
  rewrite decide_False by (unfold ID_BITS; lia).
  destruct (find _ _) as [pos|] eqn:Hf; simpl.
  - destruct (find_Some _ _ _ Hf) as (e & He & _). rewrite He. by eapply effect_resident.
  - destruct (negb _); [|by apply effect_admitted]. apply effect_none; [|done].
    intros j. cbn [snd]. by destruct (is_verified c).
Qed.

Lemma promotion_exhausts_vacancies_witness :
  let t := sample_table [sample_contact 128 1 900; sample_contact 129 2 0] in
  grows t (promote_cached_contacts 1000 t).2.
Proof. apply promotion_exhausts_vacancies, wf_sample_table. Defined.

Lemma all_contacts_ext t t' :
  length (buckets t') = length (buckets t) →
  (∀ i, contacts (bucket_at t' i) = contacts (bucket_at t i)) → all_contacts t' = all_contacts t.
Proof.
  intros Hl Hc. unfold all_contacts.
  assert (contacts <$> buckets t' = contacts <$> buckets t) as E.
  { apply list_eq. intros i. rewrite !list_lookup_fmap.
    destruct (decide (i < length (buckets t))).
    - rewrite !bucket_at_lookup by congruence. simpl. by rewrite Hc.
    - by rewrite !lookup_ge_None_2 by lia. }
  rewrite <- !(list_fmap_bind contacts id). by rewrite E.
Qed.

Lemma elem_of_bucket t i c :
  i < length (buckets t) → c ∈ contacts (bucket_at t i) → c ∈ all_contacts t.
Proof. intros Hi Hc. apply elem_of_all_contacts. eauto using bucket_at_lookup. Qed.

Lemma no_bucket_unchanged now t c :
  bucket_index (local_id t) (node_id c) = None → add_contact now t c = (Rejected, t).
Proof. intros E. unfold add_contact. rewrite E. by case_bool_decide. Qed.

Lemma add_contact_length now t c :
  wf t → length (buckets (add_contact now t c).2) = length (buckets t).
Proof.
  intros Hw. destruct (wf_run_op t (OpAdd now c) Hw) as [_ H1]. destruct Hw as [_ H0].
  simpl in H1. by rewrite (wf_length _ _ _ _ H0), (wf_length _ _ _ _ H1).
Qed.

(** The answer of [add_contact] is the truth about the buckets.  [Added]
    means the contact's id is resident afterwards; [Rejected] and [PingOldest]
    mean the residents are exactly those of before, in the same places. *)
Theorem add_contact_answer now t c :
  wf t →
  let '(r, t') := add_contact now t c in
  (r = Added → node_id c ∈ (node_id <$> all_contacts t')) ∧
  (r ≠ Added → all_contacts t' = all_contacts t).
Proof.
  intros Hw. pose proof (add_contact_length now t c Hw) as Hl.
  destruct (bucket_index (local_id t) (node_id c)) as [idx|] eqn:Hidx.
  2:{ rewrite (no_bucket_unchanged now t c Hidx). done. }
  pose proof (bucket_index_lt _ _ _ Hidx) as Hi.
  destruct (add_contact_effect now t c idx Hw Hidx) as [H1 _ H3 H4].
  destruct (add_contact now t c) as [r t']. simpl in *. split.
  - intros (x & E & Hx)%H3%list_elem_of_fmap. apply list_elem_of_fmap. exists x. split; [done|].
    eapply elem_of_bucket; [|exact Hx]. rewrite Hl, (wf_length _ _ _ _ (wf_table _ Hw)). done.
  - intros Hr. apply all_contacts_ext; [done|]. intros i.
    destruct (decide (i = idx)) as [->|]; auto.
Qed.

Lemma add_contact_answer_witness :
  let '(r, t') := add_contact 1000 (sample_table []) (sample_contact 128 1 900) in
  (r = Added → node_id (sample_contact 128 1 900) ∈ (node_id <$> all_contacts t')) ∧
  (r ≠ Added → all_contacts t' = all_contacts (sample_table [])).
Proof. apply add_contact_answer, wf_sample_table. Defined.

Lemma slot_change_verified c l l' e :
  slot_change c l l' → e ∈ l → is_verified e = true →
  ∃ e', e' ∈ l' ∧ node_id e' = node_id e ∧ (node_id e ≠ node_id c → e' = e).
Proof.
  intros Hc He Hv.
  assert (∀ pos x y, l !! pos = Some x → e ≠ x → e ∈ delete pos l ++ [y]) as Hdel.
  { intros pos x y Hx Hne. apply elem_of_app; left.
    rewrite (delete_Permutation _ _ _ Hx) in He. by apply elem_of_cons in He as [?|?]. }
  destruct Hc as [l|l|l pos x Hx Hvc Hvx|l pos x a Hx Eid Hvc].
  - by exists e.
  - exists e. rewrite elem_of_app. auto.
  - exists e. split; [|done]. eapply Hdel; [done|]. intros ->. congruence.
  - destruct (decide (e = x)) as [->|Hne].
    + exists (refresh_resident x c a). rewrite elem_of_app, list_elem_of_singleton.
      split; [by right|]. by split.
    + exists e. split; [by eapply Hdel|done].
Qed.

(** Nobody loses a slot it has earned.  A verified resident is still
    resident after any call of [add_contact], as it was unless the call was
    about its own id; only leads, contacts never heard from, are displaced. *)
Theorem verified_resident_survives now t c e :
  wf t → e ∈ all_contacts t → is_verified e = true →
  ∃ e', e' ∈ all_contacts (add_contact now t c).2 ∧ node_id e' = node_id e ∧
        (node_id e ≠ node_id c → e' = e).
Proof.
  intros Hw He Hv. pose proof (add_contact_length now t c Hw) as Hl.
  destruct (bucket_index (local_id t) (node_id c)) as [idx|] eqn:Hidx.
  2:{ rewrite (no_bucket_unchanged now t c Hidx). by exists e. }
  destruct (add_contact_effect now t c idx Hw Hidx) as [H1 H2 _ _].
  destruct (resident_bucket t e (wf_table _ Hw) He) as (i & _ & Hi & Hin).
  rewrite <- (wf_length _ _ _ _ (wf_table _ Hw)), <- Hl in Hi.
  destruct (decide (i = idx)) as [->|Hne].
  - destruct (slot_change_verified _ _ _ e H2 Hin Hv) as (e' & He' & ? & ?).
    exists e'. split; [|done]. by eapply elem_of_bucket.
  - exists e. split; [|done]. eapply elem_of_bucket; [done|]. by rewrite H1.
Qed.

Lemma verified_resident_survives_witness :
  let t := sample_table [sample_contact 128 1 900] in
  ∃ e', e' ∈ all_contacts (add_contact 1000 t (sample_contact 129 1 950)).2 ∧
        node_id e' = sample_id 128 ∧ (sample_id 128 ≠ sample_id 129 → e' = sample_contact 128 1 900).
Proof.
  apply (verified_resident_survives 1000 (sample_table [sample_contact 128 1 900])
           (sample_contact 129 1 950) (sample_contact 128 1 900)).
  - apply wf_sample_table.
  - compute_decision.
  - reflexivity.
Defined.

(** The lookup by id finds a resident itself. *)
Lemma find_resident t e :
  wf t → e ∈ all_contacts t →
  ∃ idx pos, bucket_index (local_id t) (node_id e) = Some idx ∧ idx < ID_BITS ∧
    find (bucket_at t idx) (node_id e) = Some pos ∧ contacts (bucket_at t idx) !! pos = Some e.
Proof.
  intros [_ Hw] He. destruct (resident_bucket t e Hw He) as (i & Hi & Hlt & Hin).
  destruct (find (bucket_at t i) (node_id e)) as [pos|] eqn:Hf.
  - exists i, pos. repeat split; [done..|]. destruct (find_Some _ _ _ Hf) as (x & Hx & Eid).
    rewrite Hx. f_equal. destruct (wf_at _ _ Hw Hlt) as (_ & [_ _ [Hn _ _]] & _).
    rewrite fmap_app in Hn. apply NoDup_app in Hn as [Hn _].
    apply list_elem_of_lookup in Hin as [j Hj].
    assert (pos = j) as ->; [|congruence]. apply (NoDup_lookup _ pos j (node_id e) Hn);
      rewrite list_lookup_fmap; [rewrite Hx; simpl; by rewrite Eid|by rewrite Hj].
  - apply find_None in Hf. destruct Hf. apply list_elem_of_fmap. eauto.
Qed.

Lemma locate_resident t e :
  wf t → e ∈ all_contacts t → ∃ idx pos, locate t (node_id e) = Some (idx, pos, e).
Proof.
  intros Hw He. destruct (find_resident t e Hw He) as (idx & pos & H1 & H2 & H3 & H4).
  exists idx, pos. unfold locate. rewrite H1. simpl.
  rewrite decide_False by (unfold ID_BITS in *; lia). by rewrite H3; simpl; rewrite H4.
Qed.

(** a resident's endpoint and keys cannot be moved by hearsay.  Gossip
    about it (a contact never heard from), and a contact under its id with
    another Noise key once a verified resident has pinned one, leave the whole
    table as it is; and a sign of life counts only from the resident's own
    address and key. *)
Theorem resident_identity_pinned now t c e :
  wf t → e ∈ all_contacts t → node_id c = node_id e →
  (is_verified c = false ∨
   (is_verified e = true ∧ noise_pub e ≠ repeat 0%Z 32 ∧ noise_pub c ≠ noise_pub e)) →
  (add_contact now t c).2 = t ∧
  (∀ a noise, (a, noise) ≠ (addr e, noise_pub e) → mark_alive now t (node_id e) a noise = t).
Proof.
  intros Hw He Eid Hc. split.
  - destruct (find_resident t e Hw He) as (idx & pos & H1 & H2 & H3 & H4).
    unfold add_contact. rewrite Eid, H1. case_bool_decide; [done|].
    rewrite decide_False by (unfold ID_BITS in *; lia). rewrite H3. simpl. rewrite H4.
    unfold apply_resident_contact. rewrite Eid, H3, H4.
    destruct (Z.leb_spec (last_seen c) 0) as [Hs|Hs]; [done|].
    destruct Hc as [Hc|(-> & ? & ?)]; [unfold is_verified in Hc; lia|].
    by rewrite (bool_decide_false (noise_pub e = _)), (bool_decide_false (noise_pub c = _)).
  - intros a noise Hne. destruct (locate_resident t e Hw He) as (idx & pos & Hl).
    unfold mark_alive. rewrite Hl. repeat case_bool_decide; try done. congruence.
Qed.

Lemma resident_identity_pinned_witness :
  let t := sample_table [sample_contact 128 1 900] in
  let c := mkContact (sample_id 128) (SocketAddrV4 (mkV4 9 9 9 7) 1) (repeat 5%Z 32) [] 950 0 in
  (add_contact 1000 t c).2 = t.
Proof.
  apply (resident_identity_pinned 1000 (sample_table [sample_contact 128 1 900]) _
           (sample_contact 128 1 900)).
  - apply wf_sample_table.
  - compute_decision.
  - reflexivity.
  - right. split; [reflexivity|]. split; compute_decision.
Defined.
