(* ===== verification/RoutingScale.v ===== *)
(** * The diversity caps at every tier

    The caps of the tier the table has been enforced to hold in every reachable
    state, because [enforce_scale_quotas] establishes them when it raises the
    tier and no other operation exceeds them; and what ageing removes. *)
From S2P Require Import Prelude NodeId Addr IpFilter Contact RoutingTable RoutingInv RoutingSafety RoutingAdmission.

(** Every count within the caps of [s]. *)
Record within_caps (s : NetworkScale) (t : RoutingTable) : Prop := mkWithin {
  within_ip : ∀ ip, count_at ip (global_ip_count t) ≤ max_contacts_per_ip s;
  within_subnet : ∀ k, count_at k (global_subnet_count t) ≤ max_contacts_per_subnet_global s;
  within_bucket : ∀ i k, subnet_count (bucket_at t i) k ≤ max_contacts_per_subnet_per_bucket s;
}.

Definition quota_ok (t : RoutingTable) : Prop := within_caps (enforced_scale t) t.

Lemma within_caps_tier s s' t : tier_le s s' → within_caps s' t → within_caps s t.
Proof.
  intros (H1 & H2 & H3)%caps_antitone [A1 A2 A3]. split.
  - intros ip. specialize (A1 ip). lia.
  - intros k. specialize (A2 k). lia.
  - intros i k. specialize (A3 i k). lia.
Qed.

Lemma within_caps_kept s s' t t' :
  tier_le s s' → caps_kept s' t t' → within_caps s t → within_caps s t'.
Proof.
  intros Hs Hk [A1 A2 A3]. destruct (caps_kept_tier _ _ _ _ Hs Hk) as [B1 B2 B3]. split.
  - intros ip. specialize (A1 ip); specialize (B1 ip). lia.
  - intros k. specialize (A2 k); specialize (B2 k). lia.
  - intros i k. specialize (A3 i k); specialize (B3 i k). lia.
Qed.

Lemma quota_kept s t t' :
  tier_le (enforced_scale t) s → enforced_scale t' = enforced_scale t → caps_kept s t t' →
  quota_ok t → quota_ok t'.
Proof. intros Hs E Hk. unfold quota_ok. rewrite E. by eapply within_caps_kept. Qed.

Lemma admission_ge_enforced t : tier_le (enforced_scale t) (admission_scale t).
Proof. apply scale_max_ge_r. Qed.

(** ** Operations that only lower counts, or none *)
Lemma caps_kept_detach s t idx pos c :
  caps_kept s t (detach t idx pos c).
Proof.
  eapply (caps_kept_put s t _ idx); simpl.
  - intros ip. rewrite count_at_release. case_decide; lia.
  - intros k. rewrite count_at_release. case_decide; lia.
  - reflexivity.
  - intros k. unfold subnet_count; simpl.
    pose proof (count_if_submseteq (λ x, Z.eqb (subnet_key x) k) _ _
                  (delete_submseteq (contacts (bucket_at t idx)) pos)). lia.
Qed.

Lemma caps_kept_remove s t id : caps_kept s t (remove_contact t id).2.
Proof.
  unfold remove_contact. destruct (locate t id) as [[[i p] c]|]; [apply caps_kept_detach|done].
Qed.

Lemma caps_kept_remove_all s t ids : caps_kept s t (remove_all t ids).2.
Proof.
  unfold remove_all. apply (foldl_inv (λ acc : nat * RoutingTable, caps_kept s t acc.2)); [done|].
  intros [n t1] id _ H1. unfold count_removed; cbn [fst snd] in *.
  pose proof (caps_kept_remove s t1 id) as H2. destruct (remove_contact t1 id) as [g t2].
  by etransitivity.
Qed.

Lemma bucket_at_fmap t h i :
  contacts (h Bucket_new) = [] → 
  contacts (bucket_at (set_buckets t (h <$> buckets t)) i) = contacts (h (bucket_at t i)).
Proof.
  intros H0. unfold bucket_at; simpl. rewrite !nth_lookup, list_lookup_fmap.
  by destruct (buckets t !! i).
Qed.

Lemma caps_kept_clamp s t now : caps_kept s t (clamp_future_timestamps now t).2.
Proof.
  unfold clamp_future_timestamps. set (limit := i64_saturating_add _ _).
  assert (∀ bs n ri dn, ∃ n' ri', foldl (clamp_bucket limit now) (n, ri, dn) bs =
            (n', ri', dn ++ (clamped_bucket limit now <$> bs))) as Hf.
  { induction bs as [|b bs IH]; intros n ri dn.
    - exists n, ri. by rewrite app_nil_r.
    - cbn [foldl]. destruct (clamp_bucket limit now (n, ri, dn) b) as [[n1 ri1] dn1] eqn:E1.
      unfold clamp_bucket in E1. injection E1 as _ _ <-.
      destruct (IH n1 ri1 (dn ++ [clamped_bucket limit now b])) as (n' & ri' & E).
      exists n', ri'. etransitivity; [exact E|]. by rewrite <- app_assoc. }
  destruct (Hf (buckets t) 0 (residents t) []) as (n & ri & ->). cbn [snd app].
  split; [simpl; intros; lia..|]. intros i k.
  assert (subnet_count (bucket_at (set_buckets t (clamped_bucket limit now <$> buckets t)) i) k =
          subnet_count (bucket_at t i) k) as E; [|unfold bucket_at in *; simpl in *; lia].
  unfold subnet_count. rewrite bucket_at_fmap by done. simpl. unfold count_if.
  rewrite retain_fmap, length_fmap. f_equal. apply retain_ext. intros c _. simpl.
  unfold clamp_contact. by case_match.
Qed.

(** ** The enforced tier is untouched by everything but [enforce_scale_quotas] *)
Lemma enforced_add_to_cache t idx c s :
  enforced_scale (add_to_cache t idx c s) = enforced_scale t.
Proof. unfold add_to_cache. by repeat case_match. Qed.

Lemma enforced_displace now t idx pos e c s :
  enforced_scale (displace now t idx pos e c s) = enforced_scale t.
Proof. unfold displace. by rewrite enforced_add_to_cache. Qed.

Lemma enforced_newcomer now t idx c s :
  enforced_scale (add_newcomer now t idx c s).2 = enforced_scale t.
Proof.
  assert (∀ r, enforced_scale (add_to_cache (if is_verified c then set_refusals t r else t) idx c s) =
    enforced_scale t) as Href by (intros r; rewrite enforced_add_to_cache; by destruct (is_verified c)).
  unfold add_newcomer. repeat (case_decide; [apply Href|]). destruct (is_full _); [|done]. cbn [negb].
  destruct (if is_verified c then _ else _).
  - destruct (_ !! _); [|done]. apply enforced_displace.
  - destruct (oldest_contact _); [|done]. destruct (negb (_ || _)); apply enforced_add_to_cache.
Qed.

Lemma enforced_add_contact now t c :
  enforced_scale (add_contact now t c).2 = enforced_scale t.
Proof.
  unfold add_contact. case_bool_decide; [done|]. destruct (bucket_index _ _); [|done].
  case_decide; [done|]. destruct (_ ≫= _).
  - unfold apply_resident_contact. repeat (case_match; try done). simpl.
    unfold move_quotas. by repeat case_match.
  - destruct (negb _); [by destruct (is_verified c)|].
    edestruct add_admitted_cases as [(pos & x & _ & _ & _ & _ & ->)| ->];
      [apply enforced_displace|apply enforced_newcomer].
Qed.

Lemma enforced_remove_all t ids : enforced_scale (remove_all t ids).2 = enforced_scale t.
Proof.
  unfold remove_all.
  apply (foldl_inv (λ acc : nat * RoutingTable, enforced_scale acc.2 = enforced_scale t)); [done|].
  intros [n t1] id _ H1. unfold count_removed, remove_contact; cbn [fst snd] in *.
  by destruct (locate t1 id) as [[[? ?] ?]|].
Qed.

Lemma enforced_clamp t now : enforced_scale (clamp_future_timestamps now t).2 = enforced_scale t.
Proof. unfold clamp_future_timestamps. by destruct (foldl _ _ _) as [[? ?] ?]. Qed.

(** ** [quota_ok] through each operation *)
Lemma quota_add now t c : quota_ok t → quota_ok (add_contact now t c).2.
Proof.
  eapply quota_kept; [apply admission_ge_enforced|apply enforced_add_contact|].
  unfold add_contact. case_bool_decide; [done|].
  destruct (bucket_index _ _) as [idx|]; [|done]. case_decide; [done|].
  destruct (_ ≫= _).
  - apply caps_kept_resident.
  - destruct (negb _); [|apply caps_kept_admitted].
    cbn [snd]. destruct (is_verified c); [by apply caps_kept_same|done].
Qed.

Lemma quota_load t l : quota_ok t → quota_ok (load_contacts t l).2.
Proof.
  intros Hq. apply (foldl_inv (λ acc : _ * RoutingTable, quota_ok acc.2)); [done|].
  intros [ids t1] [now c] _ H1. pose proof (quota_add now t1 c H1) as H2.
  by destruct (add_contact now t1 c).
Qed.

Lemma quota_promote now t :
  length (buckets t) = ID_BITS →
  (∀ i, i < ID_BITS → length (contacts (bucket_at t i)) ≤ K_BUCKET_SIZE) →
  quota_ok t → quota_ok (promote_cached_contacts now t).2.
Proof.
  intros Hl Hb. unfold promote_cached_contacts. rewrite Hl.
  destruct (promote_fold_spec now (seq 0 ID_BITS) t 0) as (H1 & H2 & _ & _).
  - apply Forall_forall. intros i Hi%elem_of_seq. rewrite Hl. split; [lia|]. apply Hb. lia.
  - apply NoDup_seq.
  - eapply quota_kept; [apply admission_ge_enforced|apply H1|done].
Qed.

Lemma quota_evict_replace now t id : quota_ok t → quota_ok (evict_and_replace now t id).2.
Proof.
  intros Hq. unfold evict_and_replace. destruct (locate t id) as [[[idx pos] c]|]; [|done].
  set (t1 := detach t idx pos c).
  assert (quota_ok t1) as H1.
  { eapply (quota_kept _ t); [apply admission_ge_enforced|done|apply caps_kept_detach|done]. }
  destruct (best_promotable_cached _ _ _ _) as [i|] eqn:Hb; [|done]. simpl.
  apply best_promotable_cached_Some in Hb as (e & He & Hp). rewrite He. simpl.
  unfold promotable in Hp. apply andb_true_iff in Hp as [_ Hcap%negb_true_iff].
  eapply (quota_kept (admission_scale t1) t1); [apply admission_ge_enforced|done| |exact H1].
  transitivity (promote_entry t1 idx i e); [by eapply caps_kept_enter|].
  apply caps_kept_same; [done..|]. by apply put_contacts_same.
Qed.

Lemma quota_same t t' :
  enforced_scale t' = enforced_scale t → caps_kept (admission_scale t) t t' → quota_ok t → quota_ok t'.
Proof. apply quota_kept, admission_ge_enforced. Qed.

Lemma locate_lookup t id idx pos c :
  locate t id = Some (idx, pos, c) → contacts (bucket_at t idx) !! pos = Some c.
Proof.
  unfold locate. intros Hl. apply bind_Some in Hl as (? & _ & Hl). case_decide; [done|].
  apply bind_Some in Hl as (? & _ & Hl). apply bind_Some in Hl as (? & Hc & Hl). by simplify_eq.
Qed.

Lemma quota_mark_alive now t id a noise : quota_ok t → quota_ok (mark_alive now t id a noise).
Proof.
  intros Hq. unfold mark_alive. destruct (locate t id) as [[[idx pos] c]|] eqn:Hl; [|done].
  apply locate_lookup in Hl as Hc. case_match; [|done]. eapply (quota_same t); [done| |exact Hq].
  eapply (caps_kept_put _ t _ idx); [simpl; intros; lia..|reflexivity|].
  intros k. unfold subnet_count; simpl. rewrite count_if_app, count_if_cons, count_if_nil.
  rewrite (count_if_delete _ (contacts (bucket_at t idx)) _ _ Hc).
  change (subnet_key (with_failed (with_last_seen c now) 0)) with (subnet_key c).
  destruct (Z.eqb _ _); lia.
Qed.

Lemma quota_mark_failed t id : quota_ok t → quota_ok (mark_failed t id).2.
Proof.
  intros Hq. unfold mark_failed. destruct (locate t id) as [[[idx pos] c]|] eqn:Hl; [|done].
  apply locate_lookup in Hl as Hc. eapply (quota_same t); [done| |exact Hq].
  eapply (caps_kept_put _ t _ idx); [simpl; intros; lia..|reflexivity|].
  intros k. unfold subnet_count; simpl.
  rewrite (count_if_delete _ (contacts (bucket_at t idx)) _ _ Hc).
  rewrite (count_if_delete _ (<[pos := _]> _) pos
             (with_failed c (u8_saturating_add (failed_queries c) 1))).
  - rewrite delete_insert_list.
    change (subnet_key (with_failed c (u8_saturating_add (failed_queries c) 1))) with (subnet_key c).
    lia.
  - apply list_lookup_insert_eq. by eapply lookup_lt_Some.
Qed.

Lemma quota_stale now age in_use t : quota_ok t → quota_ok (remove_stale now age in_use t).2.
Proof.
  intros Hq. unfold remove_stale. set (t1 := (clamp_future_timestamps now t).2).
  set (doomed := node_id <$> _).
  assert (quota_ok (remove_all t1 doomed).2) as H1.
  { apply (quota_same t1); [apply enforced_remove_all|apply caps_kept_remove_all|].
    apply (quota_same t); [apply enforced_clamp|apply caps_kept_clamp|done]. }
  destruct (remove_all t1 doomed) as [n t2]. cbn [snd] in *.
  eapply (quota_same t2); [done| |exact H1]. apply caps_kept_same; [done..|].
  intros i. by rewrite bucket_at_fmap.
Qed.

Lemma quota_evict_filtered {P L g} now t :
  wf_for P L g t → quota_ok t → quota_ok (evict_filtered_contacts now t).2.
Proof.
  intros Hw Hq. unfold evict_filtered_contacts.
  destruct (wf_evict_blocked t Hw) as [H1 _].
  assert (quota_ok (evict_blocked_contacts t).2) as Hq1.
  { rewrite evict_blocked_eq. apply (quota_same t); [apply enforced_remove_all|
      apply caps_kept_remove_all|done]. }
  destruct (evict_blocked_contacts t) as [n t1]. cbn [snd] in *. set (xs := concat _).
  assert (Forall (λ x : nat * EmberNodeId, x.1 < ID_BITS) xs) as Hxs.
  { apply Forall_forall. intros x (i & b & Hb & Hx)%elem_of_imap_concat.
    apply list_elem_of_fmap in Hx as (c & -> & _). simpl. apply lookup_lt_Some in Hb.
    by rewrite (wf_length _ _ _ _ H1) in Hb. }
  pose proof (wf_drop_cached t1 xs H1 Hxs) as H2.
  destruct (drop_cached_all xs t1 (wf_length _ _ _ _ H1) Hxs) as (Hl & _ & E1 & E2 & _ & _ & H7).
  set (t2 := foldl drop_cached t1 xs) in *.
  assert (∀ i, contacts (bucket_at t2 i) = contacts (bucket_at t1 i)) as Ec.
  { intros i. destruct (decide (i < ID_BITS)); [by rewrite H7|].
    unfold bucket_at. rewrite !nth_overflow; [done|rewrite (wf_length _ _ _ _ H1); lia|lia]. }
  apply quota_promote; [apply H2| |].
  - intros i Hi. destruct (wf_at _ _ H2 Hi) as (_ & [? _ _] & _). done.
  - apply (quota_same t1); [|by apply caps_kept_same|done].
    apply (foldl_inv (λ t, enforced_scale t = enforced_scale t1)); [done|].
    by intros t3 [i id] _ <-.
Qed.

(** ** Raising the tier

    A resident with the index of its bucket. *)
Definition placed (t : RoutingTable) : list (nat * EmberContact) :=
  concat (imap (λ idx b, pair idx <$> contacts b) (buckets t)).

Lemma ranked_placed t : ranked_residents t ≡ₚ placed t.
Proof. apply stable_sort_perm. Qed.

Lemma placed_snd t : snd <$> placed t = all_contacts t.
Proof.
  unfold placed, all_contacts. generalize (buckets t). intros bs.
  assert (∀ (k : nat → nat), snd <$> concat (imap (λ i b, pair (k i) <$> contacts b) bs) =
            bs ≫= contacts) as H; [|apply (H id)].
  induction bs as [|b bs IH]; intros k; [done|]. rewrite imap_cons, bind_cons; simpl.
  rewrite fmap_app, <- list_fmap_compose. f_equal; [|apply (IH (λ i, k (S i)))].
  apply list_fmap_id.
Qed.

(** The counters of a list of placed residents. *)
Definition slot_key (x : nat * EmberContact) : nat * Z := (x.1, subnet_key x.2).
Definition counts_of (l : list (nat * EmberContact)) : quota_counts :=
  mkQuota (tally (slot_key <$> l)) (tally (subnet_key ∘ snd <$> l)) (tally (contact_ip ∘ snd <$> l)).

Record counts_within (s : NetworkScale) (q : quota_counts) : Prop := mkCountsWithin {
  cw_slot : ∀ k, count_at k (per_bucket_subnet q) ≤ max_contacts_per_subnet_per_bucket s;
  cw_subnet : ∀ k, count_at k (per_subnet q) ≤ max_contacts_per_subnet_global s;
  cw_ip : ∀ k, count_at k (per_address q) ≤ max_contacts_per_ip s;
}.

(** The pass splits what it has seen into the kept, whose counts it carries and
    which are within the caps, and the doomed. *)
Lemma readmit_split s l k q d :
  q = counts_of k → counts_within s q →
  ∃ k', (foldl (readmit s) (q, d) l).1 = counts_of k' ∧
        counts_within s (counts_of k') ∧
        k' ++ (foldl (readmit s) (q, d) l).2 ≡ₚ k ++ d ++ l.
Proof.
  revert k q d. induction l as [|[i c] l IH]; intros k q d Eq Hq.
  { exists k. subst q. by rewrite app_nil_r. }
  cbn [foldl]. unfold readmit at 2 4. case_decide as Hd.
  - destruct (IH k q (d ++ [(i, c)]) Eq Hq) as (k' & H1 & H2 & H3). exists k'.
    split; [done|]. split; [done|]. by rewrite H3, <- app_assoc.
  - apply Decidable.not_or in Hd as [D1 Hd]. apply Decidable.not_or in Hd as [D2 D3].
    set (q' := mkQuota _ _ _). destruct (IH ((i, c) :: k) q' d) as (k' & H1 & H2 & H3).
    + subst q. done.
    + destruct Hq as [Q1 Q2 Q3]. split; simpl; intros x; rewrite count_at_incr; case_decide; subst;
        try (apply Q1 || apply Q2 || apply Q3); lia.
    + exists k'. split; [done|]. split; [done|]. rewrite H3. simpl.
      rewrite !app_assoc. apply Permutation_middle.
Qed.

(** ** Demotion *)
Definition slot_id (x : nat * EmberContact) : nat * EmberNodeId := (x.1, node_id x.2).

Definition keep_others (i : nat) (xs : list (nat * EmberNodeId)) (c : EmberContact) : bool :=
  negb (bool_decide ((i, node_id c) ∈ xs)).

Lemma keep_other_bucket i j id l : i ≠ j → retain (keep_others i [(j, id)]) l = l.
Proof.
  intros Hne. apply retain_all, Forall_forall. intros c _. unfold keep_others.
  rewrite bool_decide_false; [done|]. rewrite list_elem_of_singleton. congruence.
Qed.

Lemma keep_same_bucket j id l :
  retain (keep_others j [(j, id)]) l = retain (λ c, negb (bool_decide (node_id c ∈ [id]))) l.
Proof.
  apply retain_ext. intros c _. unfold keep_others. f_equal. apply bool_decide_ext.
  rewrite !list_elem_of_singleton. naive_solver.
Qed.

Lemma demote_one {P L g} s m t j id :
  wf_for P L g t → j < ID_BITS →
  let t' := (demote s (m, t) (j, id)).2 in
  enforced_scale t' = enforced_scale t ∧
  ∀ i, contacts (bucket_at t' i) = retain (keep_others i [(j, id)]) (contacts (bucket_at t i)).
Proof.
  intros Hw Hj. destruct (wf_at _ _ Hw Hj) as (Hlt & [_ _ [Hnd _ _]] & _).
  rewrite fmap_app in Hnd. apply NoDup_app in Hnd as [Hnd _].
  unfold demote. destruct (find (bucket_at t j) id) as [pos|] eqn:Hf; simpl.
  - destruct (find_Some _ _ _ Hf) as (c & Hc & Eid). rewrite Hc. simpl.
    split; [by rewrite enforced_add_to_cache|]. intros i.
    rewrite (proj2 (proj2 (add_to_cache_contacts _ _ _ _))). unfold detach.
    destruct (decide (i = j)) as [->|Hne].
    + rewrite keep_same_bucket, <- (delete_position_retain _ _ _ Hf Hnd). unfold bucket_at; simpl.
      by rewrite (nth_lookup_Some _ _ _ _ (list_lookup_insert_eq _ _ _ Hlt)).
    + rewrite keep_other_bucket by done. unfold bucket_at; simpl. rewrite !nth_lookup.
      by rewrite list_lookup_insert_ne.
  - split; [done|]. intros i. destruct (decide (i = j)) as [->|Hne]; [|by rewrite keep_other_bucket].
    rewrite keep_same_bucket. symmetry. apply retain_all, Forall_forall. intros c Hc.
    rewrite bool_decide_false; [done|]. rewrite list_elem_of_singleton. intros <-.
    apply find_None in Hf. apply Hf, list_elem_of_fmap. eauto.
Qed.

(** What demoting a list of slots leaves: the other residents, in their places. *)
Lemma demote_residents {P L g} s xs acc :
  wf_for P L g acc.2 → Forall (λ x, x.1 < ID_BITS) xs →
  let t' := (foldl (demote s) acc xs).2 in
  wf_for P L g t' ∧ enforced_scale t' = enforced_scale acc.2 ∧
  ∀ i, contacts (bucket_at t' i) = retain (keep_others i xs) (contacts (bucket_at acc.2 i)).
Proof.
  revert acc. induction xs as [|[j id] xs IH]; intros [m t] Hw Hxs; cbn [foldl].
  { split; [done|]. split; [done|]. intros i. symmetry. apply retain_all. by apply Forall_forall. }
  apply Forall_cons in Hxs as [Hj Hxs]. simpl in Hj, Hw.
  destruct (IH (demote s (m, t) (j, id))) as (H1 & H2 & H3); [by apply wf_demote|done|].
  destruct (demote_one s m t j id Hw Hj) as [E1 E2].
  split; [done|]. split; [by rewrite H2|]. intros i. rewrite H3, E2. cbn [snd].
  unfold retain. rewrite list_filter_filter. apply list_filter_iff. intros c. unfold keep_others.
  rewrite !negb_true_iff, !bool_decide_eq_false, !not_elem_of_cons.
  pose proof (not_elem_of_nil (i, node_id c)). tauto.
Qed.

Lemma placed_retain t t' xs :
  length (buckets t') = length (buckets t) →
  (∀ i, contacts (bucket_at t' i) = retain (keep_others i xs) (contacts (bucket_at t i))) →
  placed t' = retain (λ x, negb (bool_decide (slot_id x ∈ xs))) (placed t).
Proof.
  intros Hl Hc. unfold placed.
  assert (imap (λ idx b, pair idx <$> contacts b) (buckets t') =
          imap (λ idx b, retain (λ x, negb (bool_decide (slot_id x ∈ xs))) (pair idx <$> contacts b))
            (buckets t)) as ->.
  { apply list_eq. intros i. rewrite !list_lookup_imap.
    destruct (decide (i < length (buckets t))).
    - rewrite !bucket_at_lookup by congruence. simpl. by rewrite Hc, retain_fmap.
    - by rewrite !lookup_ge_None_2 by lia. }
  apply retain_concat_imap.
Qed.

Lemma elem_of_placed t x :
  x ∈ placed t ↔ ∃ b, buckets t !! x.1 = Some b ∧ x.2 ∈ contacts b.
Proof. rewrite <- ranked_placed. apply elem_of_ranked. Qed.

Lemma placed_nodup {P L g} t : wf_for P L g t → NoDup (slot_id <$> placed t).
Proof.
  intros Hw. pose proof (all_ids_nodup t Hw) as Hn. rewrite <- placed_snd in Hn.
  rewrite <- list_fmap_compose in Hn.
  apply (NoDup_fmap_1 snd). rewrite <- list_fmap_compose. exact Hn.
Qed.

Lemma retain_split {A} (p : A → bool) (l k : list A) :
  Forall (λ x, p x = true) l → Forall (λ x, p x = false) k → retain p (l ++ k) = l.
Proof.
  intros Hl Hk. unfold retain. rewrite filter_app. fold (retain p l). rewrite retain_all by done.
  rewrite <- (app_nil_r l) at 2. f_equal. induction Hk as [|x k Hx _ IH]; [done|].
  rewrite filter_cons_False by congruence. done.
Qed.

(** The residents left by the demotion of everything over quota are the kept of
    the pass. *)
Lemma demoted_placed {P L g} s t :
  wf_for P L g t →
  let t' := (foldl (demote s) ([], t) (slot_id <$> over_quota s t)).2 in
  wf_for P L g t' ∧ enforced_scale t' = enforced_scale t ∧
  ∃ k, placed t' ≡ₚ k ∧ counts_within s (counts_of k).
Proof.
  intros Hw. set (xs := slot_id <$> over_quota s t).
  assert (Forall (λ x : nat * EmberNodeId, x.1 < ID_BITS) xs) as Hxs by (by apply (over_quota_bounds s t Hw)).
  destruct (demote_residents s xs ([], t) Hw Hxs) as (H1 & H2 & H3). cbn [snd] in *.
  split; [done|]. split; [done|].
  destruct (readmit_split s (ranked_residents t) [] (mkQuota ∅ ∅ ∅) []) as (k & _ & Hk & Hp).
  { done. } { split; intros x; unfold count_at; simpl; rewrite lookup_empty; simpl; lia. }
  fold (over_quota s t) in Hp. simpl in Hp. rewrite ranked_placed in Hp.
  exists k. split; [|done].
  rewrite (placed_retain t _ xs); [|by rewrite (wf_length _ _ _ _ H1), (wf_length _ _ _ _ Hw)|done].
  unfold retain. rewrite <- Hp. fold (retain (λ x, negb (bool_decide (slot_id x ∈ xs))) (k ++ over_quota s t)).
  rewrite retain_split; [done|..].
  - pose proof (placed_nodup t Hw) as Hn. rewrite <- Hp, fmap_app in Hn.
    apply NoDup_app in Hn as (_ & Hn & _). apply Forall_forall. intros x Hx.
    rewrite bool_decide_false; [done|]. apply Hn, list_elem_of_fmap. eauto.
  - apply Forall_forall. intros x Hx. rewrite bool_decide_true; [done|].
    apply list_elem_of_fmap. eauto.
Qed.

Lemma count_if_occurrences {A} `{Countable K} (f : A → K) k l :
  occurrences k (f <$> l) = count_if (λ x, bool_decide (f x = k)) l.
Proof.
  induction l as [|x l IH]; [done|]. rewrite fmap_cons, occurrences_cons, count_if_cons, IH.
  by case_bool_decide; case_decide.
Qed.

Lemma subnet_count_placed t i k :
  subnet_count (bucket_at t i) k = occurrences (i, k) (slot_key <$> placed t).
Proof.
  rewrite count_if_occurrences. unfold placed. rewrite (count_if_concat_imap _ _ _ i).
  - unfold bucket_at, subnet_count. rewrite nth_lookup.
    destruct (buckets t !! i) as [b|]; [|done]. simpl. rewrite count_if_fmap. unfold count_if. f_equal.
    apply retain_ext. intros c _. simpl. unfold slot_key; simpl.
    destruct (Z.eqb_spec (subnet_key c) k), (bool_decide_reflect ((i, subnet_key c) = (i, k))); congruence.
  - intros n b x Hn _ (c & -> & _)%list_elem_of_fmap. apply bool_decide_eq_false.
    unfold slot_key; simpl. congruence.
Qed.

(** Counts of the residents, from their placed list. *)
Lemma within_caps_placed {P L g} s t k :
  wf_for P L g t → placed t ≡ₚ k → counts_within s (counts_of k) → within_caps s t.
Proof.
  intros Hw Hp [H1 H2 H3]. destruct (wf_indexed _ _ _ _ Hw) as [E1 E2 _].
  rewrite <- placed_snd, <- list_fmap_compose in E1, E2. split.
  - intros ip. rewrite E2, Hp. apply H3.
  - intros j. rewrite E1, Hp. apply H2.
  - intros i j. rewrite subnet_count_placed, Hp. specialize (H1 (i, j)).
    simpl in H1. by rewrite count_at_tally in H1.
Qed.

Lemma quota_enforce {P L g} t :
  wf_for P L g t → quota_ok t → quota_ok (enforce_scale_quotas t).2.
Proof.
  intros Hw Hq. unfold enforce_scale_quotas. set (floor := from_contacts (_ / 4)).
  set (t1 := if decide (scale_rank floor < _) then set_enforced t floor else t).
  assert (wf_for P L g t1 ∧ quota_ok t1) as [Hw1 Hq1].
  { unfold t1. case_decide; [|done]. split; [by apply wf_set_enforced|].
    assert (within_caps floor t) as [H1 H2 H3]; [|by split].
    eapply (within_caps_tier _ (enforced_scale t)); [unfold tier_le; lia|done]. }
  set (target := from_contacts (_ / 5)). destruct (decide (_ ≤ _)); [done|].
  pose proof (wf_set_enforced t1 target Hw1) as Hw2.
  destruct (demoted_placed target _ Hw2) as (H1 & H2 & k & Hk & Hc). unfold slot_id in *.
  destruct (foldl _ _ _) as [moved t2]. cbn [snd] in *.
  unfold quota_ok. rewrite H2. by eapply within_caps_placed.
Qed.

Lemma quota_run_op t o : wf t → quota_ok t → quota_ok (run_op t o).
Proof.
  intros [Hr Hw] Hq.
  assert (∀ i, i < ID_BITS → length (contacts (bucket_at t i)) ≤ K_BUCKET_SIZE) as Hlen.
  { intros i Hi. by destruct (wf_at _ _ Hw Hi) as (_ & [? _ _] & _). }
  destruct o; simpl.
  - by apply quota_add.
  - by apply quota_load.
  - by apply quota_promote; [apply Hw|..].
  - by apply quota_evict_replace.
  - apply (quota_same t); [|apply caps_kept_remove|done].
    unfold remove_contact. by destruct (locate t id) as [[[? ?] ?]|].
  - by apply quota_mark_alive.
  - by apply quota_mark_failed.
  - by apply (quota_same t); [apply enforced_clamp|apply caps_kept_clamp|].
  - by apply quota_stale.
  - by eapply quota_evict_filtered.
  - unfold set_block_private_ips, gate_set_block_private_ips. set (g' := mkGate _ _).
    pose proof (wf_gate_change t g' (mkTableWf _ Hr Hw) Hr) as H1.
    assert (quota_ok (set_gate t g')) as H2 by (by apply (quota_same t); [|apply caps_kept_same|]).
    destruct (block && negb _); [by eapply quota_evict_filtered|done].
  - by eapply quota_enforce.
Qed.

(** C19: the diversity caps hold in every reachable state.  After any history of
    calls from an empty table, at most [max_contacts_per_ip] residents share an
    address, at most [max_contacts_per_subnet_global] share a /24 in the table
    and at most [max_contacts_per_subnet_per_bucket] in any bucket, for the tier
    the table has been enforced to, the residents themselves being counted. *)
Theorem diversity_caps_reachable local block ops :
  let t := foldl run_op (RoutingTable_new local block) ops in
  let s := enforced_scale t in
  (∀ ip, occurrences ip (contact_ip <$> all_contacts t) ≤ max_contacts_per_ip s) ∧
  (∀ k, occurrences k (subnet_key <$> all_contacts t) ≤ max_contacts_per_subnet_global s) ∧
  (∀ i k, subnet_count (bucket_at t i) k ≤ max_contacts_per_subnet_per_bucket s).
Proof.
  intros t s. assert (wf t ∧ quota_ok t) as [[_ Hw] [H1 H2 H3]].
  { apply (foldl_inv (λ t, wf t ∧ quota_ok t)).
    - split; [apply wf_new|]. split; [intros; unfold count_at; simpl; rewrite lookup_empty; simpl; lia..|].
      intros i k. unfold bucket_at. rewrite nth_lookup.
      destruct (_ !! i) as [b|] eqn:Hb; [apply lookup_replicate in Hb as [-> _]|];
        unfold subnet_count, count_if; simpl; lia.
    - intros t' o _ [? ?]. split; [by apply wf_run_op|by apply quota_run_op]. }
  destruct (wf_indexed _ _ _ _ Hw) as [E1 E2 _]. split; [|split; [|done]].
  - intros ip. rewrite <- count_at_tally, <- E2. apply H1.
  - intros k. rewrite <- count_at_tally, <- E1. apply H2.
Qed.

(** Raising the tier re-admits the table under the new caps.  When
    [enforce_scale_quotas] raises the enforced tier, every count is within the
    caps of the new tier when it returns, whatever the counts were before, and
    the residents it leaves were residents before, in the same buckets. *)
Theorem enforce_meets_new_caps t :
  wf t → let t' := (enforce_scale_quotas t).2 in
  tier_le (enforced_scale t) (enforced_scale t') → enforced_scale t ≠ enforced_scale t' →
  within_caps (enforced_scale t') t' ∧
  ∀ i, contacts (bucket_at t' i) `sublist_of` contacts (bucket_at t i).
Proof.
  intros [_ Hw]. unfold enforce_scale_quotas. set (floor := from_contacts (_ / 4)).
  set (t1 := if decide (scale_rank floor < _) then set_enforced t floor else t).
  assert (wf_for (addr_ok (ip_gate t)) (local_id t) (ip_gate t) t1 ∧
          tier_le (enforced_scale t1) (enforced_scale t) ∧ buckets t1 = buckets t) as (Hw1 & Ht1 & Eb).
  { unfold t1, tier_le. case_decide; [|done]. split; [by apply wf_set_enforced|]. simpl. split; [lia|done]. }
  set (target := from_contacts (_ / 5)). destruct (decide (_ ≤ _)) as [|Hgt]; cbn [snd].
  { intros Hle Hne. destruct Hne. unfold tier_le in *.
    destruct (enforced_scale t), (enforced_scale t1); simpl in *; lia || done. }
  intros _ _. pose proof (wf_set_enforced t1 target Hw1) as Hw2.
  destruct (demoted_placed target _ Hw2) as (H1 & H2 & k & Hk & Hc).
  destruct (demote_residents target _ ([], set_enforced t1 target) Hw2
              (over_quota_bounds target _ Hw2)) as (_ & _ & H3).
  unfold slot_id in *. destruct (foldl _ _ _) as [moved t2]. cbn [snd] in *. rewrite H2. split.
  - by eapply within_caps_placed.
  - intros i. rewrite H3. unfold bucket_at; simpl. rewrite Eb. apply retain_sublist.
Qed.

Lemma enforce_meets_new_caps_witness :
  let t := sample_table ((λ k, sample_contact (128 + Z.of_nat k) 1 900) <$> seq 0 13) in
  enforced_scale (enforce_scale_quotas t).2 = Small ∧
  within_caps (enforced_scale (enforce_scale_quotas t).2) (enforce_scale_quotas t).2.
Proof.
  split; [vm_compute; reflexivity|].
  apply (enforce_meets_new_caps
           (sample_table ((λ k, sample_contact (128 + Z.of_nat k) 1 900) <$> seq 0 13))).
  - apply wf_sample_table.
  - unfold tier_le. compute_decision.
  - compute_decision.
Defined.

(** ** Ageing *)
Lemma doomed_ids {P L g} p t c :
  wf_for P L g t → c ∈ all_contacts t →
  node_id c ∈ (node_id <$> retain p (all_contacts t)) ↔ p c = true.
Proof.
  intros Hw Hc. rewrite list_elem_of_fmap. split.
  - intros (d & E & [Hp Hd]%elem_of_retain).
    assert (c = d) as ->; [|done].
    pose proof (all_ids_nodup t Hw) as Hn.
    apply list_elem_of_lookup in Hc as [i Hi], Hd as [j Hj].
    assert (i = j) as ->; [|congruence]. apply (NoDup_lookup _ i j (node_id c) Hn);
      rewrite list_lookup_fmap; [by rewrite Hi|by rewrite Hj, E].
  - intros Hp. exists c. split; [done|]. by apply elem_of_retain.
Qed.

Lemma remove_matching {P L g} p t :
  wf_for P L g t →
  let r := remove_all t (node_id <$> retain p (all_contacts t)) in
  buckets r.2 = (λ b, set_contacts b (retain (λ c, negb (p c)) (contacts b))) <$> buckets t ∧
  r.1 = count_if p (all_contacts t).
Proof.
  intros Hw. set (ids := node_id <$> _).
  destruct (remove_all_spec t ids Hw) as (_ & H2 & H3); [by eapply retain_ids_nodup|].
  simpl. rewrite H2, H3. split.
  - apply list_fmap_ext. intros i b Hb. unfold drop_ids. f_equal. apply retain_ext.
    intros c Hc. f_equal. assert (c ∈ all_contacts t) as Hin by (apply elem_of_all_contacts; eauto).
    pose proof (doomed_ids p t c Hw Hin) as Hd. destruct (p c).
    + by apply bool_decide_eq_true, Hd.
    + apply bool_decide_eq_false. intros Hi. by apply Hd in Hi.
  - unfold ids. rewrite count_if_fmap. unfold count_if. rewrite retain_all; [done|].
    apply Forall_forall. intros c [_ Hc]%elem_of_retain. apply bool_decide_eq_true.
    apply list_elem_of_fmap. eauto.
Qed.

Definition outlived (now max_age_secs : Z) (in_use : gset EmberNodeId) (c : EmberContact) : bool :=
  is_verified c && is_stale now (last_seen c) max_age_secs && negb (bool_decide (node_id c ∈ in_use)).

(** What ageing makes of one list of contacts. *)
Definition aged (now max_age_secs : Z) (in_use : gset EmberNodeId) (l : list EmberContact)
    : list EmberContact :=
  retain (λ c, negb (outlived now max_age_secs in_use c))
    (fst ∘ clamp_contact (i64_saturating_add now CLOCK_STEP_SLACK_SECS) now <$> l).

(** ageing removes exactly what has outlived its welcome.  [remove_stale]
    first pulls timestamps more than a minute ahead of the clock back to it;
    then, of residents and cached contacts alike, those leave that were once
    verified, are at least [max_age_secs] old and are not in use, and every
    other contact stays, in order.  The count is the number of residents gone. *)
Theorem remove_stale_exact now age in_use t :
  wf t →
  let '(n, t') := remove_stale now age in_use t in
  (∀ i, contacts (bucket_at t' i) = aged now age in_use (contacts (bucket_at t i)) ∧
        replacement_cache (bucket_at t' i) = aged now age in_use (replacement_cache (bucket_at t i))) ∧
  n + length (all_contacts t') = length (all_contacts t).
Proof.
  intros [_ Hw]. unfold remove_stale.
  destruct (clamp_buckets t now Hw) as [Hb Hw1].
  set (t1 := (clamp_future_timestamps now t).2) in *.
  destruct (remove_matching (outlived now age in_use) t1 Hw1) as [H1 H2].
  change (λ c, is_verified c && _ && _) with (outlived now age in_use).
  destruct (remove_all t1 _) as [n t2]. cbn [fst snd] in *. split.
  - intros i. unfold bucket_at; simpl. rewrite !nth_lookup, list_lookup_fmap, H1, !list_lookup_fmap, Hb,
      list_lookup_fmap. destruct (buckets t !! i) as [b|]; [|done]. simpl. split; [done|].
    unfold aged. apply retain_ext. intros c _. unfold outlived. by rewrite !negb_andb, negb_involutive.
  - assert (length (all_contacts t1) = length (all_contacts t)) as <-.
    { unfold all_contacts. rewrite Hb, (bind_fmap_commute _ (fst ∘ clamp_contact _ now)) by done.
      by rewrite length_fmap. }
    assert (∀ l : list EmberContact, count_if (outlived now age in_use) l +
      length (retain (λ c, negb (outlived now age in_use c)) l) = length l) as Hpart.
    { intros l. fold (count_if (λ c, negb (outlived now age in_use c)) l).
      induction l as [|c l IH]; [done|]. rewrite !count_if_cons. simpl.
      destruct (outlived _ _ _ c); simpl; lia. }
    rewrite H2, <- (Hpart (all_contacts t1)). f_equal. unfold all_contacts; simpl.
    rewrite list_fmap_bind, H1, list_fmap_bind. simpl. f_equal. clear.
    unfold retain. induction (buckets t1) as [|b bs IH]; [done|].
    by rewrite !bind_cons, filter_app, <- IH.
Qed.

Lemma remove_stale_exact_witness :
  let t := sample_table [sample_contact 128 1 100; sample_contact 129 1 900] in
  (∀ i, contacts (bucket_at (remove_stale 1000 600 ∅ t).2 i) =
        aged 1000 600 ∅ (contacts (bucket_at t i))) ∧ (remove_stale 1000 600 ∅ t).1 = 1.
Proof.
  intros t. pose proof (remove_stale_exact 1000 600 ∅ t (wf_sample_table _)) as H.
  split; [|vm_compute; reflexivity].
  destruct (remove_stale 1000 600 ∅ t) as [n t']. intros i. apply H.
Defined.
