(* ===== verification/RoutingQuery.v ===== *)
(** * Reading the routing table

    The k-set selection and the lookups of [network/ember/dht/routing.rs]:
    [keep_nearest], [keep_nearest_diverse], [find_closest] and the queries built
    on them, [contact_at] through the address index, and the exports. *)
From S2P Require Import Prelude NodeId Addr IpFilter Contact RoutingTable RoutingInv RoutingSafety RoutingAdmission RoutingScale.

(** ** Unstable sorting and selection

    [sort_unstable_by_key] and [select_nth_unstable_by_key] promise an order but
    not which one of several; the theorems hold for every implementation of
    that promise. *)
Class UnstableSlice := {
  sort_unstable : ∀ {A}, (A → A → bool) → list A → list A;
  select_nth : ∀ {A}, (A → A → bool) → nat → list A → list A;
  sort_unstable_perm : ∀ {A} (le : A → A → bool) l, sort_unstable le l ≡ₚ l;
  sort_unstable_sorted : ∀ {A} (le : A → A → bool) l,
    (∀ x y, le x y = true ∨ le y x = true) →
    (∀ x y z, le x y = true → le y z = true → le x z = true) →
    StronglySorted (λ a b, le a b = true) (sort_unstable le l);
  select_nth_perm : ∀ {A} (le : A → A → bool) n l, select_nth le n l ≡ₚ l;
  select_nth_parts : ∀ {A} (le : A → A → bool) n l,
    (∀ x y, le x y = true ∨ le y x = true) →
    (∀ x y z, le x y = true → le y z = true → le x z = true) →
    ∀ i j x y, i ≤ n ≤ j → n < length l → i < j →
      select_nth le n l !! i = Some x → select_nth le n l !! j = Some y → le x y = true;
}.

Lemma stable_sort_parts {A} (le : A → A → bool) (l : list A) :
  (∀ x y, le x y = true ∨ le y x = true) →
  (∀ x y z, le x y = true → le y z = true → le x z = true) →
  ∀ i j x y, i < j → stable_sort le l !! i = Some x → stable_sort le l !! j = Some y → le x y = true.
Proof.
  intros Ht Htr i j x y Hij Hx Hy.
  apply (StronglySorted_app_1_elem_of (λ a b, le a b = true) (take j (stable_sort le l))
           (drop j (stable_sort le l)) x y).
  - rewrite take_drop. by apply stable_sort_sorted.
  - apply list_elem_of_lookup. exists i. by rewrite lookup_take_lt.
  - apply list_elem_of_lookup. exists 0. by rewrite lookup_drop, Nat.add_0_r.
Qed.

(** The promise can be kept: sort, and select by sorting. *)
#[export] Instance UnstableSlice_by_sort : UnstableSlice.
Proof.
  refine {| sort_unstable A := stable_sort; select_nth A le n := stable_sort le |}.
  - intros A. apply stable_sort_perm.
  - intros A le l Ht Htr. by apply stable_sort_sorted.
  - intros A le n. apply stable_sort_perm.
  - intros A le n l Ht Htr i j x y _ _ Hij. by apply stable_sort_parts.
Defined.

(** ** The k-set *)
Record entry (T : Type) := mkEntry { e_dist : bytes; e_pos : nat; e_item : T }.
Arguments mkEntry {T}. Arguments e_dist {T}. Arguments e_pos {T}. Arguments e_item {T}.

(** The key [(e.0, e.1)]. *)
Definition entry_le {T} (a b : entry T) : bool :=
  match bytes_cmp (e_dist a) (e_dist b) with
  | Lt => true
  | Gt => false
  | Eq => Nat.leb (e_pos a) (e_pos b)
  end.

Definition K_SET_MAX_PER_SUBNET : nat := 3.
Definition K_SET_MAX_PER_IP : nat := 2.

Section queries.
Context `{US : UnstableSlice}.

Definition keep_nearest {T} (entries : list (entry T)) (count : nat) : list (entry T) :=
  if decide (count = 0) then []
  else
    let entries :=
      if decide (count < length entries)
      then take count (select_nth entry_le (count - 1) entries)
      else entries in
    sort_unstable entry_le entries.

(** The loop of [pick_diverse] with its two maps. *)
Fixpoint pick_diverse_from (count : nat) (per_subnet : gmap Z nat) (per_ip : gmap IpAddr nat)
    (taken passed pool : list (entry EmberContact))
    : list (entry EmberContact) * list (entry EmberContact) :=
  match pool with
  | [] => (taken, passed)
  | e :: pool =>
      if decide (length taken = count) then (taken, passed)
      else
        let subnet := subnet_key (e_item e) in
        let ip := contact_ip (e_item e) in
        if decide (count_at subnet per_subnet < K_SET_MAX_PER_SUBNET ∧
                   count_at ip per_ip < K_SET_MAX_PER_IP)
        then pick_diverse_from count (incr subnet per_subnet) (incr ip per_ip)
               (taken ++ [e]) passed pool
        else pick_diverse_from count per_subnet per_ip taken (passed ++ [e]) pool
  end.
Definition pick_diverse (pool : list (entry EmberContact)) (count : nat)
    : list (entry EmberContact) * list (entry EmberContact) :=
  pick_diverse_from count ∅ ∅ [] [] pool.

Definition keep_nearest_diverse (entries : list (entry EmberContact)) (count : nat)
    : list (entry EmberContact) :=
  if decide (count = 0 ∨ length entries ≤ count) then keep_nearest entries count
  else
    let prefix := min (usize_saturating_mul count 4) (length entries) in
    let entries := select_nth entry_le (prefix - 1) entries in
    let entries := sort_unstable entry_le (take prefix entries) ++ drop prefix entries in
    let '(taken, passed) := pick_diverse (take prefix entries) count in
    let '(taken, passed) :=
      if decide (length taken < count ∧ prefix < length entries)
      then pick_diverse (sort_unstable entry_le entries) count
      else (taken, passed) in
    let short := count - length taken in
    sort_unstable entry_le (taken ++ take short passed).

(** Contacts in scan order with their distance to [target]. *)
Definition scan_entries (target : EmberNodeId) (l : list EmberContact) : list (entry EmberContact) :=
  imap (λ i c, mkEntry (distance target (node_id c)) i c) l.

(** [if verified_only && !contact.is_verified() { continue; }]. *)
Definition eligible (t : RoutingTable) : list EmberContact :=
  retain (λ c, negb (bool_decide (0 < verified_len t)) || is_verified c) (all_contacts t).

Definition find_closest (t : RoutingTable) (target : EmberNodeId) (count : nat)
    : list EmberContact :=
  e_item <$> keep_nearest_diverse (scan_entries target (eligible t)) count.

Definition kth_closest_distance (t : RoutingTable) (target : EmberNodeId) (k : nat)
    : option EmberNodeId :=
  if decide (k = 0) then None
  else
    let all := scan_entries target (eligible t) in
    if decide (length all < k) then None
    else e_dist <$> last (keep_nearest_diverse all k).

Definition find_closest_prefer_verified (t : RoutingTable) (target : EmberNodeId) (count : nat)
    : list EmberContact :=
  if decide (count = 0) then []
  else
    let verified := scan_entries target (retain is_verified (all_contacts t)) in
    let leads := scan_entries target (retain (λ c, negb (is_verified c)) (all_contacts t)) in
    let out := e_item <$> keep_nearest verified count in
    if decide (length out < count)
    then out ++ (e_item <$> keep_nearest leads (count - length out))
    else out.

Definition find_lookup_seeds (t : RoutingTable) (target : EmberNodeId) (count : nat)
    : list EmberContact :=
  let seeds := find_closest_prefer_verified t target count in
  if decide (min ALPHA count ≤ count_if is_verified seeds) then retain is_verified seeds else seeds.
End queries.

(** [verified.sort_by_key(|a| a.0.0)]: stable, by distance. *)
Definition by_distance (target : EmberNodeId) (l : list EmberContact) : list EmberContact :=
  stable_sort (λ a b, bytes_le (distance target (node_id a)) (distance target (node_id b))) l.

Definition export_bootstrap_contacts (t : RoutingTable) (max : nat) : list EmberContact :=
  if decide (max = 0) then []
  else
    let persistable c := Z.ltb (failed_queries c) MAX_FAILED_QUERIES in
    let verified := by_distance (local_id t)
                      (retain (λ c, is_verified c && persistable c) (all_contacts t)) in
    let out := take max verified in
    if decide (length out < max)
    then
      let leads := by_distance (local_id t)
                     (retain (λ c, negb (is_verified c) && persistable c) (all_contacts t)) in
      out ++ take (max - length out) leads
    else out.

Definition get_contact (t : RoutingTable) (id : EmberNodeId) : option EmberContact :=
  idx ← bucket_index (local_id t) id;
  if decide (ID_BITS ≤ idx) then None
  else
    let b := bucket_at t idx in
    match (pos ← find b id; contacts b !! pos) with
    | Some c => Some c
    | None => pos ← find_in_cache b id; replacement_cache b !! pos
    end.

(** [now - b.last_activity] is computed only without [force]; its overflow is
    not modelled. *)
Definition buckets_for_refresh (now : Z) (t : RoutingTable) (threshold_secs : Z) (max : nat)
    (force : bool) : list nat :=
  let candidates :=
    omap (λ '(i, b),
            if negb (bool_decide (contacts b = []))
               && (force || Z.ltb threshold_secs (now - last_activity b))
            then Some (i, last_activity b) else None)
      (imap pair (buckets t)) in
  fst <$> take max (stable_sort (λ a b, Z.leb a.2 b.2) candidates).

(** ** [contact_at] *)

(** The rank [(!contact.is_verified(), idx, pos)]. *)
Definition rank_le (a b : bool * nat * nat) : bool :=
  let '(va, ia, pa) := a in
  let '(vb, ib, pb) := b in
  match Bool.compare va vb with
  | Lt => true
  | Gt => false
  | Eq => match Nat.compare ia ib with
          | Lt => true
          | Gt => false
          | Eq => Nat.leb pa pb
          end
  end.

(** [Iterator::min_by_key]: the first of the least. *)
Fixpoint min_by_key {K A} (le : K → K → bool) (l : list (K * A)) : option (K * A) :=
  match l with
  | [] => None
  | x :: l => match min_by_key le l with
              | Some y => if le x.1 y.1 then Some x else Some y
              | None => Some x
              end
  end.

Definition ranked_resident (t : RoutingTable) (id : EmberNodeId)
    : option (bool * nat * nat * EmberContact) :=
  idx ← bucket_index (local_id t) id;
  b ← buckets t !! idx;
  pos ← find b id;
  c ← contacts b !! pos;
  Some ((negb (is_verified c), idx, pos), c).
Definition contact_at (t : RoutingTable) (a : SocketAddr) : option EmberContact :=
  snd <$> min_by_key rank_le (omap (ranked_resident t) (default [] (by_addr (residents t) !! a))).

(** The scan the index replaces. *)
Fixpoint scan_for (a : SocketAddr) (l : list EmberContact) (fallback : option EmberContact)
    : option EmberContact :=
  match l with
  | [] => fallback
  | c :: l =>
      if negb (bool_decide (addr c = a)) then scan_for a l fallback
      else if is_verified c then Some c
      else scan_for a l (match fallback with None => Some c | _ => fallback end)
  end.
Definition contact_at_by_scan (t : RoutingTable) (a : SocketAddr) : option EmberContact :=
  scan_for a (all_contacts t) None.

Definition verified_len_by_scan (t : RoutingTable) : nat := count_if is_verified (all_contacts t).

Definition verified_connected (t : RoutingTable) (now : Z) : nat :=
  let recent c := is_verified c
                  && Z.ltb (i64_saturating_sub now (last_seen c)) CONTACT_TIMEOUT_SECS in
  verified_len t + count_if recent (cached_contacts t).

(** ** The selection equals a sort *)
Lemma entry_le_total {T} (a b : entry T) : entry_le a b = true ∨ entry_le b a = true.
Proof.
  unfold entry_le. rewrite (bytes_cmp_antisym (e_dist a) (e_dist b)).
  destruct (bytes_cmp (e_dist a) (e_dist b)); simpl; auto.
  destruct (Nat.leb_spec (e_pos a) (e_pos b)); [by left|right]. apply Nat.leb_le. lia.
Qed.

Lemma entry_le_spec {T} (a b : entry T) :
  entry_le a b = true ↔
  bytes_le (e_dist a) (e_dist b) = true ∧ (e_dist a = e_dist b → e_pos a ≤ e_pos b).
Proof.
  unfold entry_le, bytes_le. destruct (bytes_cmp (e_dist a) (e_dist b)) eqn:E.
  - apply bytes_cmp_eq in E. rewrite Nat.leb_le. naive_solver.
  - split; [|done]. split; [done|]. intros Ed. apply bytes_cmp_eq in Ed. congruence.
  - naive_solver.
Qed.

Lemma entry_le_trans {T} (a b c : entry T) :
  entry_le a b = true → entry_le b c = true → entry_le a c = true.
Proof.
  rewrite !entry_le_spec. intros [H1 H2] [H3 H4]. split; [by eapply bytes_le_trans|].
  intros E. assert (e_dist a = e_dist b) as E1.
  { apply bytes_le_antisym; [done|]. by rewrite E. }
  rewrite <- E1 in H4. specialize (H2 E1). specialize (H4 E). lia.
Qed.

(** Scan positions are different, so the key orders the entries strictly. *)
Definition distinct {T} (l : list (entry T)) : Prop := NoDup (e_pos <$> l).

Lemma distinct_antisym {T} (l : list (entry T)) x y :
  distinct l → x ∈ l → y ∈ l → entry_le x y = true → entry_le y x = true → x = y.
Proof.
  intros Hd Hx Hy. rewrite !entry_le_spec. intros [H1 H2] [H3 H4].
  pose proof (bytes_le_antisym _ _ H1 H3) as E. specialize (H2 E). specialize (H4 (eq_sym E)).
  apply list_elem_of_lookup in Hx as [i Hi], Hy as [j Hj].
  assert (i = j) as ->; [|congruence].
  apply (NoDup_lookup _ i j (e_pos x) Hd); rewrite list_lookup_fmap; [by rewrite Hi|].
  rewrite Hj. simpl. f_equal. lia.
Qed.

Lemma distinct_submseteq {T} (l k : list (entry T)) : k ⊆+ l → distinct l → distinct k.
Proof.
  intros (m & Hm)%submseteq_Permutation Hd. unfold distinct in *.
  rewrite Hm, fmap_app in Hd. by apply NoDup_app in Hd as [? _].
Qed.

Lemma scan_entries_distinct target l : distinct (scan_entries target l).
Proof.
  unfold distinct, scan_entries. rewrite fmap_imap. simpl.
  assert (imap (λ i (_ : EmberContact), i) l = seq 0 (length l)) as E.
  { apply list_eq. intros i. rewrite list_lookup_imap. destruct (l !! i) as [c|] eqn:Hc; simpl.
    - symmetry. apply lookup_seq_lt. by eapply lookup_lt_Some.
    - symmetry. apply lookup_seq_ge. by apply lookup_ge_None_1. }
  change (NoDup (imap (λ i (_ : EmberContact), i) l)). rewrite E. apply NoDup_seq.
Qed.

Abbreviation sorted := (StronglySorted (λ a b, entry_le a b = true)).
Abbreviation sort := (stable_sort entry_le).

Lemma sort_spec {T} (l k : list (entry T)) : distinct l → sorted k → k ≡ₚ l → sort l = k.
Proof.
  intros Hd. apply stable_sort_unique.
  - apply entry_le_total.
  - intros x y z. apply entry_le_trans.
  - intros x y. by apply distinct_antisym.
Qed.

Lemma sort_sorted {T} (l : list (entry T)) : sorted (sort l).
Proof.
  apply stable_sort_sorted; [apply entry_le_total|]. intros x y z. apply entry_le_trans.
Qed.

Section reference.
Context `{US : UnstableSlice}.

Lemma sort_unstable_sort {T} (l : list (entry T)) :
  distinct l → sort_unstable entry_le l = sort l.
Proof.
  intros Hd. symmetry. apply sort_spec; [done| |apply sort_unstable_perm].
  apply sort_unstable_sorted; [apply entry_le_total|]. intros x y z. apply entry_le_trans.
Qed.

(** Selection moves the [n] least to the front. *)
Lemma sort_take_select {T} (l : list (entry T)) n :
  distinct l → 0 < n → n ≤ length l →
  sort (take n (select_nth entry_le (n - 1) l)) = take n (sort l) ∧
  sort (take n (select_nth entry_le (n - 1) l) ++ drop n (select_nth entry_le (n - 1) l)) = sort l.
Proof.
  intros Hd Hn Hl. set (k := select_nth entry_le (n - 1) l).
  assert (k ≡ₚ l) as Hp by apply select_nth_perm.
  assert (length k = length l) as Hlen by (by rewrite Hp).
  assert (sort l = sort (take n k) ++ sort (drop n k)) as E.
  { apply sort_spec; [done| |by rewrite !stable_sort_perm, take_drop].
    apply StronglySorted_app. split; [|split; apply sort_sorted].
    intros x y. rewrite !stable_sort_perm. intros Hx Hy.
    apply list_elem_of_lookup in Hx as [i Hi], Hy as [j Hj].
    apply lookup_take_Some in Hi as [Hi Hin]. rewrite lookup_drop in Hj.
    eapply (select_nth_parts entry_le (n - 1) l entry_le_total (λ x y z, entry_le_trans x y z) i (n + j));
      [lia|lia|lia|done..]. }
  split.
  - rewrite E. rewrite take_app_length'; [done|].
    rewrite stable_sort_perm, length_take. lia.
  - rewrite take_drop. apply sort_spec; [by rewrite Hp in Hd || (unfold distinct; rewrite Hp)|apply sort_sorted|].
    by rewrite stable_sort_perm.
Qed.

Lemma keep_nearest_sort {T} (l : list (entry T)) n :
  distinct l → keep_nearest l n = take n (sort l).
Proof.
  intros Hd. unfold keep_nearest. case_decide as H0; [by subst|].
  destruct (decide (n < length l)) as [Hlt|Hge].
  - rewrite sort_unstable_sort.
    + apply sort_take_select; [done|lia|lia].
    + eapply distinct_submseteq; [|exact Hd]. rewrite <- (select_nth_perm entry_le (n - 1) l) at 2.
      apply sublist_submseteq, sublist_take.
  - rewrite sort_unstable_sort by done. rewrite take_ge; [done|]. rewrite stable_sort_perm. lia.
Qed.
End reference.

(** ** The diverse pick *)

(** The /24 or the address of [e] has its share of [taken]. *)
Definition crowded (taken : list (entry EmberContact)) (e : entry EmberContact) : Prop :=
  K_SET_MAX_PER_SUBNET ≤ occurrences (subnet_key (e_item e)) (subnet_key ∘ e_item <$> taken) ∨
  K_SET_MAX_PER_IP ≤ occurrences (contact_ip (e_item e)) (contact_ip ∘ e_item <$> taken).

(** What a run of [pick_diverse_from] has when it stops: [rest] was not looked
    at because [count] were taken. *)
Record picked (count : nat) (pool taken passed rest : list (entry EmberContact)) : Prop := mkPicked {
  picked_perm : taken ++ passed ++ rest ≡ₚ pool;
  picked_len : length taken ≤ count;
  picked_rest : length taken < count → rest = [];
  picked_subnet : ∀ k, occurrences k (subnet_key ∘ e_item <$> taken) ≤ K_SET_MAX_PER_SUBNET;
  picked_ip : ∀ k, occurrences k (contact_ip ∘ e_item <$> taken) ≤ K_SET_MAX_PER_IP;
  picked_blocked : Forall (crowded taken) passed;
}.

Lemma occurrences_snoc `{Countable K} (k x : K) l :
  occurrences k (l ++ [x]) = (if decide (x = k) then S (occurrences k l) else occurrences k l).
Proof.
  rewrite (occurrences_proper k (l ++ [x]) (x :: l)) by (by rewrite <- Permutation_cons_append).
  apply occurrences_cons.
Qed.

Lemma crowded_snoc taken x e : crowded taken e → crowded (taken ++ [x]) e.
Proof.
  unfold crowded. rewrite !fmap_app. simpl. rewrite !occurrences_snoc. repeat case_decide; lia.
Qed.

Lemma pick_diverse_from_spec count seen m1 m2 taken passed pool :
  m1 = tally (subnet_key ∘ e_item <$> taken) → m2 = tally (contact_ip ∘ e_item <$> taken) →
  picked count seen taken passed [] →
  ∃ rest, picked count (seen ++ pool)
            (pick_diverse_from count m1 m2 taken passed pool).1
            (pick_diverse_from count m1 m2 taken passed pool).2 rest.
Proof.
  revert seen m1 m2 taken passed. induction pool as [|e pool IH];
    intros seen m1 m2 taken passed E1 E2 Hp; cbn [pick_diverse_from].
  { exists []. by rewrite app_nil_r. }
  case_decide as Hfull.
  { exists (e :: pool). destruct Hp as [H1 H2 H3 H4 H5 H6]. split; simpl; try done; [|lia].
    rewrite app_nil_r in H1. by rewrite app_assoc, H1. }
  replace (seen ++ e :: pool) with ((seen ++ [e]) ++ pool) by (by rewrite <- app_assoc).
  destruct Hp as [H1 H2 H3 H4 H5 H6]. rewrite app_nil_r in H1. case_decide as Hroom.
  - destruct Hroom as [R1 R2]. apply IH.
    + rewrite E1, fmap_app. simpl. by rewrite <- Permutation_cons_append.
    + rewrite E2, fmap_app. simpl. by rewrite <- Permutation_cons_append.
    + rewrite E1, count_at_tally in R1. rewrite E2, count_at_tally in R2. split; [| |done|..].
      * rewrite app_nil_r, <- app_assoc. simpl.
        by rewrite <- Permutation_middle, H1, Permutation_cons_append.
      * rewrite length_app; simpl. lia.
      * intros k. rewrite fmap_app. simpl. rewrite occurrences_snoc.
        case_decide as E; [rewrite <- E; simpl; lia|done].
      * intros k. rewrite fmap_app. simpl. rewrite occurrences_snoc.
        case_decide as E; [rewrite <- E; simpl; lia|done].
      * eapply Forall_impl; [exact H6|]. intros x. apply crowded_snoc.
  - apply IH; [done..|]. split; try done; [by rewrite app_nil_r, app_assoc, H1|].
    apply Forall_app. split; [done|]. apply Forall_singleton. unfold crowded.
    rewrite E1, E2, !count_at_tally in Hroom. simpl. lia.
Qed.

Lemma pick_diverse_spec count pool :
  ∃ rest, picked count pool (pick_diverse pool count).1 (pick_diverse pool count).2 rest.
Proof.
  apply (pick_diverse_from_spec count []); [done..|]. split; try done; simpl; try lia;
    intros k; unfold occurrences; simpl; unfold K_SET_MAX_PER_SUBNET, K_SET_MAX_PER_IP; lia.
Qed.

(** Once [count] are taken the rest of the pool is not looked at. *)
Lemma pick_diverse_app count l k m1 m2 taken passed :
  length (pick_diverse_from count m1 m2 taken passed l).1 = count →
  pick_diverse_from count m1 m2 taken passed (l ++ k) =
  pick_diverse_from count m1 m2 taken passed l.
Proof.
  revert m1 m2 taken passed. induction l as [|e l IH]; intros m1 m2 taken passed;
    cbn [pick_diverse_from app].
  - simpl. intros Hl. destruct k; simpl; [done|]. by rewrite decide_True.
  - case_decide; [done|]. case_decide; apply IH.
Qed.

Definition diverse_set (entries : list (entry EmberContact)) (count : nat)
    : list (entry EmberContact) :=
  if decide (count = 0 ∨ length entries ≤ count) then take count (sort entries)
  else
    let '(taken, passed) := pick_diverse (sort entries) count in
    sort (taken ++ take (count - length taken) passed).

Lemma picked_distinct count pool taken passed rest n :
  distinct pool → picked count pool taken passed rest → distinct (taken ++ take n passed).
Proof.
  intros Hd [Hp _ _ _ _ _]. eapply distinct_submseteq; [|exact Hd]. rewrite <- Hp.
  apply submseteq_skips_l. etransitivity; [apply sublist_submseteq, (sublist_take passed n)|].
  by apply submseteq_inserts_r.
Qed.

Section diverse.
Context `{US : UnstableSlice}.

Lemma diverse_finish entries count :
  distinct entries →
  (let '(taken, passed) := pick_diverse (sort entries) count in
   sort_unstable entry_le (taken ++ take (count - length taken) passed)) =
  (let '(taken, passed) := pick_diverse (sort entries) count in
   sort (taken ++ take (count - length taken) passed)).
Proof.
  intros Hd. destruct (pick_diverse_spec count (sort entries)) as [rest Hpk].
  destruct (pick_diverse (sort entries) count) as [taken passed]. apply sort_unstable_sort.
  eapply picked_distinct; [|exact Hpk]. unfold distinct. by rewrite stable_sort_perm.
Qed.

Lemma pick_diverse_prefix l n count :
  length (pick_diverse (take n l) count).1 = count ∨ length l ≤ n →
  pick_diverse (take n l) count = pick_diverse l count.
Proof.
  intros [H|H]; [|by rewrite take_ge].
  rewrite <- (take_drop n l) at 2. symmetry. by apply pick_diverse_app.
Qed.

Lemma keep_nearest_diverse_set entries count :
  distinct entries → keep_nearest_diverse entries count = diverse_set entries count.
Proof.
  intros Hd. unfold keep_nearest_diverse, diverse_set.
  destruct (decide (count = 0 ∨ length entries ≤ count)) as [|H]; [by apply keep_nearest_sort|].
  rewrite <- (diverse_finish entries count Hd).
  set (prefix := min (usize_saturating_mul count 4) (length entries)).
  assert (0 < prefix ≤ length entries) as [Hp0 Hpl].
  { unfold prefix, usize_saturating_mul, usize_max. lia. }
  set (sel := select_nth entry_le (prefix - 1) entries).
  destruct (sort_take_select entries prefix Hd Hp0 Hpl) as [Htake _]. fold sel in Htake.
  assert (sel ≡ₚ entries) as Hsel by apply select_nth_perm.
  assert (distinct (take prefix sel)) as Hdt.
  { eapply distinct_submseteq; [|exact Hd]. rewrite <- Hsel. apply sublist_submseteq, sublist_take. }
  rewrite (sort_unstable_sort (take prefix sel)) by done.
  assert (sort (take prefix sel) ++ drop prefix sel ≡ₚ entries) as Hall
    by (by rewrite stable_sort_perm, take_drop).
  set (all := sort (take prefix sel) ++ drop prefix sel) in *.
  assert (take prefix all = take prefix (sort entries)) as ->.
  { unfold all. rewrite <- Htake. apply take_app_length'.
    rewrite stable_sort_perm, length_take, Hsel. lia. }
  destruct (pick_diverse_spec count (take prefix (sort entries))) as [rest Hpk].
  destruct (pick_diverse (take prefix (sort entries)) count) as [taken passed] eqn:Epk.
  case_decide as Hshort.
  - assert (distinct all) as Hda by (unfold distinct; by rewrite Hall).
    rewrite sort_unstable_sort by done.
    by rewrite (sort_spec all (sort entries) Hda (sort_sorted _)) by (by rewrite stable_sort_perm).
  - rewrite <- (pick_diverse_prefix (sort entries) prefix count), Epk; [done|].
    apply picked_len in Hpk. pose proof (Permutation_length (stable_sort_perm entry_le entries)).
    pose proof (Permutation_length Hall). rewrite Epk. simpl in *. lia.
Qed.
End diverse.

Definition dist_le (target : EmberNodeId) (a b : EmberContact) : bool :=
  bytes_le (distance target (node_id a)) (distance target (node_id b)).

(** An entry of a scan toward [target]. *)
Definition scanned (target : EmberNodeId) (e : entry EmberContact) : Prop :=
  e_dist e = distance target (node_id (e_item e)).

Lemma sort_insert_item target e l :
  scanned target e → Forall (λ x, scanned target x ∧ e_pos e ≤ e_pos x) l →
  e_item <$> sort_insert entry_le e l = sort_insert (dist_le target) (e_item e) (e_item <$> l).
Proof.
  intros He. induction 1 as [|x l [Hx Hpos] Hl IH]; [done|].
  rewrite fmap_cons. cbn [sort_insert].
  assert (entry_le e x = dist_le target (e_item e) (e_item x)) as ->.
  { unfold entry_le, dist_le, bytes_le. rewrite He, Hx.
    destruct (bytes_cmp _ _); [|done..]. by apply Nat.leb_le. }
  destruct (dist_le _ _ _); [done|]. by rewrite fmap_cons, IH.
Qed.

Lemma sort_scan_by_distance target l : e_item <$> sort (scan_entries target l) = by_distance target l.
Proof.
  unfold scan_entries, by_distance. fold (dist_le target).
  assert (∀ (k : nat → nat), (∀ i, k 0 ≤ k i) → (∀ i j, i ≤ j → k i ≤ k j) →
    e_item <$> sort (imap (λ i c, mkEntry (distance target (node_id c)) (k i) c) l) =
    stable_sort (dist_le target) l) as H; [|by apply (H id); simpl; intros; lia].
  induction l as [|c l IH]; intros k Hk Hm; [done|].
  rewrite imap_cons. cbn [stable_sort foldr]. fold (sort (imap ((λ i c, mkEntry (distance target (node_id c)) (k i) c) ∘ S) l)).
  rewrite (sort_insert_item target); [|done|].
  - f_equal. apply (IH (k ∘ S)); intros; apply Hm; lia.
  - rewrite stable_sort_perm. apply Forall_forall. intros x (i & d & -> & _)%elem_of_lookup_imap.
    split; [done|]. apply Hk.
Qed.

Lemma scan_items target l : e_item <$> scan_entries target l = l.
Proof.
  apply list_eq. intros i. unfold scan_entries. rewrite list_lookup_fmap, list_lookup_imap.
  by destruct (l !! i).
Qed.

(** ** Claims on the k-set *)

(** [keep_nearest] is a stable sort by distance followed by [take].  With
    the scan positions of the entries different, the partial selection and the
    unstable sort give exactly that list, for every implementation of the
    standard library's contract. *)
Theorem keep_nearest_is_sorted_prefix {US : UnstableSlice} target l count :
  e_item <$> keep_nearest (scan_entries target l) count = take count (by_distance target l).
Proof.
  rewrite keep_nearest_sort by apply scan_entries_distinct.
  by rewrite fmap_take, sort_scan_by_distance.
Qed.

(** The short prefix of [keep_nearest_diverse] is unobservable.  Selecting
    and sorting only four times the result, and sorting everything only when
    that was not enough, gives the same set as picking from the fully sorted
    list, for every table, target and count. *)
Theorem keep_nearest_diverse_is_reference {US : UnstableSlice} target l count :
  keep_nearest_diverse (scan_entries target l) count = diverse_set (scan_entries target l) count.
Proof. apply keep_nearest_diverse_set, scan_entries_distinct. Qed.

Lemma diverse_set_spec entries count :
  distinct entries →
  let r := diverse_set entries count in
  sorted r ∧ length r = min count (length entries) ∧ r ⊆+ entries.
Proof.
  intros Hd. unfold diverse_set. case_decide as H0.
  - split; [|split].
    + apply (StronglySorted_app_1_l _ _ (drop count (sort entries))). rewrite take_drop. apply sort_sorted.
    + by rewrite length_take, stable_sort_perm.
    + rewrite <- (stable_sort_perm entry_le entries) at 2. apply sublist_submseteq, sublist_take.
  - destruct (pick_diverse_spec count (sort entries)) as [rest [H1 H2 H3 _ _ _]].
    destruct (pick_diverse (sort entries) count) as [taken passed]. simpl in *.
    rewrite stable_sort_perm in H1. pose proof (Permutation_length H1) as Hl.
    rewrite !length_app in Hl. split; [apply sort_sorted|]. split.
    + rewrite stable_sort_perm, length_app, length_take.
      destruct (decide (length taken < count)) as [Ht|]; [rewrite (H3 Ht) in Hl; simpl in Hl|]; lia.
    + rewrite stable_sort_perm, <- H1. apply submseteq_skips_l.
      etransitivity; [apply sublist_submseteq, (sublist_take passed _)|]. by apply submseteq_inserts_r.
Qed.

(** The length, origin and order of the result. *)
Lemma find_closest_shape {US : UnstableSlice} t target count :
  wf t →
  let r := find_closest t target count in
  length r = min count (length (eligible t)) ∧
  r ⊆+ all_contacts t ∧
  StronglySorted (λ a b, dist_le target a b = true) r ∧
  ((∃ c, c ∈ all_contacts t ∧ is_verified c = true) → Forall (λ c, is_verified c = true) r).
Proof.
  intros [_ Hw]. unfold find_closest.
  rewrite keep_nearest_diverse_set by apply scan_entries_distinct.
  destruct (diverse_set_spec (scan_entries target (eligible t)) count (scan_entries_distinct _ _))
    as (Hs & Hl & Hsub). set (r := diverse_set _ _) in *.
  assert (e_item <$> r ⊆+ eligible t) as Hre by (rewrite <- (scan_items target (eligible t)); by apply fmap_submseteq).
  split; [|split; [|split]].
  - rewrite length_fmap, Hl. unfold scan_entries. by rewrite length_imap.
  - etransitivity; [exact Hre|apply retain_submseteq].
  - assert (Forall (scanned target) r) as Hsc.
    { apply Forall_forall. intros e He. eapply elem_of_submseteq in Hsub; [|exact He].
      apply elem_of_lookup_imap in Hsub as (i & c & -> & _). done. }
    clear -Hs Hsc. induction Hs as [|e r Hs IH He]; [constructor|].
    apply Forall_cons in Hsc as [Hsce Hsc]. simpl. constructor; [by apply IH|].
    apply Forall_fmap, Forall_forall. intros x Hx. rewrite Forall_forall in He, Hsc.
    specialize (He x Hx). apply entry_le_spec in He as [He _]. simpl. unfold dist_le.
    by rewrite <- Hsce, <- (Hsc x Hx).
  - intros (c & Hc & Hv). apply Forall_forall. intros x Hx.
    eapply elem_of_submseteq in Hre; [|exact Hx]. apply elem_of_retain in Hre as [Hre _].
    assert (0 < verified_len t) as Hpos.
    { unfold verified_len. destruct (wf_indexed _ _ _ _ Hw) as [_ _ [-> _]].
      unfold count_if. assert (c ∈ retain is_verified (all_contacts t)) as Hin by (by apply elem_of_retain).
      destruct (retain _ _); [by apply not_elem_of_nil in Hin|simpl; lia]. }
    by rewrite bool_decide_true in Hre.
Qed.

(** One network cannot crowd a k-set.  In a result of [find_closest] no /24
    has more than [K_SET_MAX_PER_SUBNET] contacts and no address more than
    [K_SET_MAX_PER_IP], unless there was no choice: the eligible contacts are no
    more than asked for, or a part of the result within those shares cannot be
    extended, every other eligible contact being of a /24 or an address that
    already has its share of it. *)
Theorem k_set_diversity {US : UnstableSlice} t target count :
  let r := find_closest t target count in
  ((∀ k, occurrences k (subnet_key <$> r) ≤ K_SET_MAX_PER_SUBNET) ∧
   (∀ ip, occurrences ip (contact_ip <$> r) ≤ K_SET_MAX_PER_IP)) ∨
  length (eligible t) ≤ count ∨
  ∃ core others, core ++ others ≡ₚ eligible t ∧ core ⊆+ r ∧ length core < count ∧
    Forall (λ c, occurrences (subnet_key c) (subnet_key <$> core) = K_SET_MAX_PER_SUBNET ∨
                 occurrences (contact_ip c) (contact_ip <$> core) = K_SET_MAX_PER_IP) others.
Proof.
  unfold find_closest. rewrite keep_nearest_diverse_set by apply scan_entries_distinct.
  set (all := scan_entries target (eligible t)). unfold diverse_set. case_decide as H0.
  { destruct H0 as [->|Hle]; [left|right; left].
    - simpl. unfold occurrences; simpl. split; intros; lia.
    - unfold all, scan_entries in Hle. by rewrite length_imap in Hle. }
  destruct (pick_diverse_spec count (sort all)) as [rest [H1 H2 H3 H4 H5 H6]].
  destruct (pick_diverse (sort all) count) as [taken passed]. simpl in *.
  rewrite !list_fmap_compose in H4, H5.
  destruct (decide (length taken < count)) as [Hs|Hs].
  - right; right. exists (e_item <$> taken), (e_item <$> passed). rewrite (H3 Hs) in H1.
    rewrite app_nil_r, stable_sort_perm in H1. split; [|split; [|split]].
    + rewrite <- fmap_app, H1. unfold all. by rewrite scan_items.
    + rewrite stable_sort_perm, fmap_app. by apply submseteq_inserts_r.
    + by rewrite length_fmap.
    + apply Forall_fmap. eapply Forall_impl; [exact H6|]. intros e He. unfold crowded in He. simpl.
      rewrite !list_fmap_compose in He. specialize (H4 (subnet_key (e_item e))).
      specialize (H5 (contact_ip (e_item e))). lia.
  - left. replace (count - length taken) with 0 by lia. rewrite take_0, app_nil_r.
    split; intros k; rewrite stable_sort_perm; auto.
Qed.

(** ** Who is left out *)
Lemma occurrences_submseteq `{Countable K} (k : K) l l' : l ⊆+ l' → occurrences k l ≤ occurrences k l'.
Proof. intros (m & ->)%submseteq_Permutation. unfold occurrences. rewrite filter_app, length_app. lia. Qed.

Lemma crowded_submseteq taken taken' e : taken ⊆+ taken' → crowded taken e → crowded taken' e.
Proof.
  intros Hs. pose proof (occurrences_submseteq (subnet_key (e_item e)) _ _ (fmap_submseteq (subnet_key ∘ e_item) _ _ Hs)).
  pose proof (occurrences_submseteq (contact_ip (e_item e)) _ _ (fmap_submseteq (contact_ip ∘ e_item) _ _ Hs)). unfold crowded. lia.
Qed.

Lemma retain_weaker {A} (p q : A → bool) l : (∀ x, x ∈ l → p x = true → q x = true) → retain p l ⊆+ retain q l.
Proof.
  induction l as [|x l IH]; intros H; [done|]. rewrite !retain_cons. assert (retain p l ⊆+ retain q l) as Hs by (apply IH; intros y Hy; apply H; by right).
  destruct (p x) eqn:Ep; [rewrite (H x) by (done || left); by apply submseteq_skip|]. destruct (q x); [by apply submseteq_cons|done].
Qed.

(** What is taken or passed over stays so. *)
Lemma pick_diverse_from_keeps count m1 m2 taken passed pool :
  (∀ x, x ∈ taken → x ∈ (pick_diverse_from count m1 m2 taken passed pool).1) ∧ (∀ x, x ∈ passed → x ∈ (pick_diverse_from count m1 m2 taken passed pool).2).
Proof.
  revert m1 m2 taken passed. induction pool as [|e pool IH]; intros m1 m2 taken passed; cbn [pick_diverse_from]; [done|]. case_decide; [done|].
  case_decide; (split; intros x Hx; apply IH; [|try done]; rewrite ?elem_of_app; by auto).
Qed.

(** The entries of [l] no farther than [e]. *)
Abbreviation no_farther e l := (retain (λ y, entry_le y e) l).

(** Walking a sorted pool: what was passed over is crowded by entries taken before it, and
    what was not looked at is no nearer than anything taken. *)
Lemma pick_diverse_from_order count seen m1 m2 taken passed pool :
  m1 = tally (subnet_key ∘ e_item <$> taken) → m2 = tally (contact_ip ∘ e_item <$> taken) →
  sorted (seen ++ pool) → (∀ y, y ∈ taken → y ∈ seen) → Forall (λ e, crowded (no_farther e taken) e) passed →
  let out := pick_diverse_from count m1 m2 taken passed pool in
  Forall (λ e, crowded (no_farther e out.1) e) out.2 ∧ ∀ x, x ∈ pool → x ∈ out.1 ∨ x ∈ out.2 ∨ length out.1 = count ∧ ∀ y, y ∈ out.1 → entry_le y x = true.
Proof.
  revert seen m1 m2 taken passed. induction pool as [|e pool IH]; intros seen m1 m2 taken passed E1 E2 Hs Ht Hp; cbv zeta; cbn [pick_diverse_from].
  { split; [done|]. by intros x ?%not_elem_of_nil. }
  assert (∀ y x, y ∈ taken → x ∈ e :: pool → entry_le y x = true) as Hle by (intros y x Hy Hx; exact (StronglySorted_app_1_elem_of _ _ _ y x Hs (Ht y Hy) Hx)).
  case_decide as Hfull; [split; [done|]; intros x Hx; right; right; split; [done|]; intros y Hy; by apply Hle|].
  rewrite (cons_middle e seen pool), app_assoc in Hs. case_decide as Hroom.
  - destruct (IH (seen ++ [e]) (incr (subnet_key (e_item e)) m1) (incr (contact_ip (e_item e)) m2) (taken ++ [e]) passed) as [I1 I2].
    + rewrite E1, fmap_app. simpl. by rewrite <- Permutation_cons_append.
    + rewrite E2, fmap_app. simpl. by rewrite <- Permutation_cons_append.
    + done.
    + intros y [Hy| ->%list_elem_of_singleton]%elem_of_app; apply elem_of_app; [left; by apply Ht|right; by apply list_elem_of_singleton].
    + eapply Forall_impl; [exact Hp|]. intros x. apply crowded_submseteq. unfold retain. rewrite filter_app. by apply submseteq_inserts_r.
    + split; [exact I1|]. intros x [->|Hx]%elem_of_cons; [left|by apply I2]. apply pick_diverse_from_keeps. apply elem_of_app. right. by apply list_elem_of_singleton.
  - destruct (IH (seen ++ [e]) m1 m2 taken (passed ++ [e])) as [I1 I2]; [done..| | |].
    + intros y Hy. apply elem_of_app. left. by apply Ht.
    + apply Forall_app. split; [done|]. apply Forall_singleton. rewrite retain_all by (apply Forall_forall; intros y Hy; apply Hle; [done|left]).
      unfold crowded. rewrite E1, E2, !count_at_tally in Hroom. simpl. lia.
    + split; [exact I1|]. intros x [->|Hx]%elem_of_cons; [right; left|by apply I2]. apply pick_diverse_from_keeps. apply elem_of_app. right. by apply list_elem_of_singleton.
Qed.

(** An entry left out of a diverse set has everything in the set no farther than it, or its
    share is used up by entries of the set no farther than it. *)
Lemma diverse_set_left_out entries count x :
  x ∈ entries → x ∉ diverse_set entries count →
  (∀ y, y ∈ diverse_set entries count → entry_le y x = true) ∨ crowded (no_farther x (diverse_set entries count)) x.
Proof.
  intros Hx Hout. unfold diverse_set in *. case_decide as H0.
  { left. assert (x ∈ sort entries) as Hxs by by rewrite stable_sort_perm. rewrite <- (take_drop count (sort entries)), elem_of_app in Hxs. destruct Hxs as [?|Hxd]; [done|].
    intros y Hy. apply (StronglySorted_app_1_elem_of (λ a b, entry_le a b = true) (take count (sort entries)) (drop count (sort entries))); [|done..]. rewrite take_drop. apply sort_sorted. }
  destruct (pick_diverse_from_order count [] ∅ ∅ [] [] (sort entries)) as [P1 P2]; [done|done|apply sort_sorted|by intros y ?%not_elem_of_nil|constructor|].
  destruct (pick_diverse_spec count (sort entries)) as [rest [_ Hlen _ _ _ _]]. fold (pick_diverse (sort entries) count) in P1, P2. destruct (pick_diverse (sort entries) count) as [taken passed]. cbn [fst snd] in *.
  rewrite stable_sort_perm, not_elem_of_app in Hout. destruct Hout as [Hnt Hnp]. specialize (P2 x). rewrite stable_sort_perm in P2. destruct (P2 Hx) as [?|[Hpass|[Hfull Hle]]]; [done|right|left].
  - rewrite Forall_forall in P1. eapply crowded_submseteq; [|by apply P1]. unfold retain. rewrite stable_sort_perm, filter_app. by apply submseteq_inserts_r.
  - intros y. rewrite stable_sort_perm. replace (count - length taken) with 0 by lia. rewrite take_0, app_nil_r. apply Hle.
Qed.

(** C10: [find_closest] is a full, ordered, diverse set of the nearest contacts it may hand out.
    The result has [min count eligible] contacts, all different slots of the table,
    nearest first; once any contact has answered, only such contacts are in it.  An
    eligible contact is left out only when everything in the result is at least as near,
    or its /24 or its address already has its share (three, two) among the result's
    contacts at least as near as it; and those shares are exceeded only when there was
    no choice: no more are eligible than asked for, or the part of the result within the
    shares is short and every other eligible contact is of a /24 or address with its
    share of that part. *)
Theorem find_closest_sound {US : UnstableSlice} t target count :
  wf t →
  let r := find_closest t target count in
  let nearer x := retain (λ y, dist_le target y x) r in
  length r = min count (length (eligible t)) ∧
  r ⊆+ all_contacts t ∧
  StronglySorted (λ a b, dist_le target a b = true) r ∧
  ((∃ c, c ∈ all_contacts t ∧ is_verified c = true) → Forall (λ c, is_verified c = true) r) ∧
  (∀ x, x ∈ eligible t → x ∉ r →
     (∀ y, y ∈ r → dist_le target y x = true) ∨
     K_SET_MAX_PER_SUBNET ≤ occurrences (subnet_key x) (subnet_key <$> nearer x) ∨
     K_SET_MAX_PER_IP ≤ occurrences (contact_ip x) (contact_ip <$> nearer x)) ∧
  (((∀ k, occurrences k (subnet_key <$> r) ≤ K_SET_MAX_PER_SUBNET) ∧
    (∀ ip, occurrences ip (contact_ip <$> r) ≤ K_SET_MAX_PER_IP)) ∨
   length (eligible t) ≤ count ∨
   ∃ core others, core ++ others ≡ₚ eligible t ∧ core ⊆+ r ∧ length core < count ∧
     Forall (λ c, occurrences (subnet_key c) (subnet_key <$> core) = K_SET_MAX_PER_SUBNET ∨
                  occurrences (contact_ip c) (contact_ip <$> core) = K_SET_MAX_PER_IP) others).
Proof.
  intros Hw. destruct (find_closest_shape t target count Hw) as (H1 & H2 & H3 & H4). cbv zeta. split; [done|]. split; [done|]. split; [done|]. split; [done|].
  split; [|apply k_set_diversity]. clear H1 H2 H3 H4. unfold find_closest. rewrite keep_nearest_diverse_set by apply scan_entries_distinct.
  set (all := scan_entries target (eligible t)). intros x Hx Hout. rewrite <- (scan_items target (eligible t)) in Hx. apply list_elem_of_fmap in Hx as (e & -> & He). fold all in He.
  assert (∀ y, y ∈ diverse_set all count → entry_le y e = true → dist_le target (e_item y) (e_item e) = true) as Hd.
  { intros y Hy Hle. destruct (diverse_set_spec all count (scan_entries_distinct _ _)) as (_ & _ & Hsub). eapply elem_of_submseteq in Hsub; [|exact Hy].
    apply elem_of_lookup_imap in Hsub as (i & c & -> & _), He as (i' & c' & -> & _). by apply entry_le_spec in Hle as [? _]. }
  destruct (diverse_set_left_out all count e He) as [Hall|Hcr].
  - intros Hin. apply Hout. apply list_elem_of_fmap. by exists e.
  - left. intros y (z & -> & Hz)%list_elem_of_fmap. auto.
  - right. assert (e_item <$> no_farther e (diverse_set all count) ⊆+ retain (λ y, dist_le target y (e_item e)) (e_item <$> diverse_set all count)) as Hsub.
    { rewrite retain_fmap. apply fmap_submseteq. apply retain_weaker. intros y Hy Hle. by apply Hd. }
    unfold crowded in Hcr. rewrite !list_fmap_compose in Hcr.
    pose proof (occurrences_submseteq (subnet_key (e_item e)) _ _ (fmap_submseteq subnet_key _ _ Hsub)). pose proof (occurrences_submseteq (contact_ip (e_item e)) _ _ (fmap_submseteq contact_ip _ _ Hsub)). lia.
Qed.

Definition near_pair : RoutingTable := sample_table [sample_contact 128 1 900; sample_contact 129 2 0].
Lemma find_closest_sound_witness :
  length (find_closest near_pair (sample_id 1) 20) = min 20 (length (eligible near_pair)) ∧
  (∀ x, x ∈ eligible near_pair → x ∉ find_closest near_pair (sample_id 1) 1 →
     (∀ y, y ∈ find_closest near_pair (sample_id 1) 1 → dist_le (sample_id 1) y x = true) ∨
     K_SET_MAX_PER_SUBNET ≤ occurrences (subnet_key x) (subnet_key <$> retain (λ y, dist_le (sample_id 1) y x) (find_closest near_pair (sample_id 1) 1)) ∨
     K_SET_MAX_PER_IP ≤ occurrences (contact_ip x) (contact_ip <$> retain (λ y, dist_le (sample_id 1) y x) (find_closest near_pair (sample_id 1) 1))).
Proof.
  split; [apply (find_closest_sound near_pair (sample_id 1) 20 (wf_sample_table _))|].
  apply (find_closest_sound near_pair (sample_id 1) 1 (wf_sample_table _)).
Defined.

(** the proximity gate reads the distance [find_closest] would put last.
    [kth_closest_distance] is the distance of the last of a [k]-long
    [find_closest] and [None] when that result is shorter. *)
Theorem kth_closest_is_last {US : UnstableSlice} t target k :
  kth_closest_distance t target k =
  if decide (k = 0 ∨ length (find_closest t target k) < k) then None
  else (λ c, distance target (node_id c)) <$> last (find_closest t target k).
Proof.
  unfold kth_closest_distance, find_closest. set (all := scan_entries target (eligible t)).
  assert (distinct all) as Hd by apply scan_entries_distinct.
  rewrite !keep_nearest_diverse_set by done.
  destruct (diverse_set_spec all k Hd) as (_ & Hl & Hsub). set (r := diverse_set all k) in *.
  rewrite length_fmap, Hl. destruct (decide (k = 0)) as [|Hk]; [by rewrite decide_True by auto|].
  destruct (decide (length all < k)); [by rewrite decide_True by lia|].
  rewrite decide_False by lia. rewrite fmap_last. destruct (last r) as [e|] eqn:El; [|done].
  simpl. f_equal. assert (e ∈ all) as He.
  { eapply elem_of_submseteq; [|exact Hsub]. apply last_Some_elem_of in El. done. }
  apply elem_of_lookup_imap in He as (i & c & -> & _). done.
Qed.

(** ** The address index against the scan *)

(** Residents with their bucket and position, in table order. *)
Definition located (t : RoutingTable) : list (nat * nat * EmberContact) :=
  concat (imap (λ i b, imap (λ j c, (i, j, c)) (contacts b)) (buckets t)).

Definition place_lt (x y : nat * nat * EmberContact) : Prop :=
  x.1.1 < y.1.1 ∨ (x.1.1 = y.1.1 ∧ x.1.2 < y.1.2).

Lemma elem_of_located t i j c :
  (i, j, c) ∈ located t ↔ ∃ b, buckets t !! i = Some b ∧ contacts b !! j = Some c.
Proof.
  unfold located. rewrite elem_of_imap_concat. split.
  - intros (i' & b & Hb & (j' & c' & E & Hc)%elem_of_lookup_imap). simplify_eq. eauto.
  - intros (b & Hb & Hc). exists i, b. split; [done|]. apply elem_of_lookup_imap. eauto.
Qed.

Lemma located_snd t : snd <$> located t = all_contacts t.
Proof.
  unfold located, all_contacts. generalize (buckets t). intros bs.
  assert (∀ k : nat → nat, snd <$> concat (imap (λ i b, imap (λ j c, (k i, j, c)) (contacts b)) bs) =
            bs ≫= contacts) as H; [|apply (H id)].
  induction bs as [|b bs IH]; intros k; [done|]. rewrite imap_cons, bind_cons; simpl.
  rewrite fmap_app. f_equal; [|apply (IH (k ∘ S))].
  apply list_eq. intros i. rewrite list_lookup_fmap, list_lookup_imap. by destruct (contacts b !! i).
Qed.

Lemma StronglySorted_imap {A B} (R : relation B) (f : nat → A → B) l :
  (∀ i j x y, i < j → l !! i = Some x → l !! j = Some y → R (f i x) (f j y)) →
  StronglySorted R (imap f l).
Proof.
  revert f. induction l as [|x l IH]; intros f H; [constructor|]. rewrite imap_cons. constructor.
  - apply (IH (f ∘ S)). intros i j a b Hij Ha Hb. apply (H (S i) (S j)); [lia|done..].
  - apply Forall_forall. intros y (i & a & -> & Ha)%elem_of_lookup_imap.
    apply (H 0 (S i)); [lia|done..].
Qed.

Lemma located_sorted t : StronglySorted place_lt (located t).
Proof.
  unfold located. generalize (buckets t). intros bs.
  assert (∀ n, StronglySorted place_lt
    (concat (imap (λ i b, imap (λ j c, (n + i, j, c)) (contacts b)) bs))) as H; [|apply (H 0)].
  induction bs as [|b bs IH]; intros n; [constructor|]. rewrite imap_cons. simpl.
  apply StronglySorted_app. split; [|split].
  - intros x y (i & c & -> & _)%elem_of_lookup_imap (i' & b' & _ & Hy)%elem_of_imap_concat.
    apply elem_of_lookup_imap in Hy as (j & d & -> & _). left. simpl. lia.
  - apply StronglySorted_imap. intros i j x y Hij _ _. right. simpl. lia.
  - specialize (IH (S n)). erewrite imap_ext; [exact IH|].
    intros i b' _. simpl. by replace (n + S i) with (S (n + i)) by lia.
Qed.

(** The rank [contact_at] gives a placed resident. *)
Definition rank_of (x : nat * nat * EmberContact) : bool * nat * nat :=
  (negb (is_verified x.2), x.1.1, x.1.2).

Lemma ranked_resident_located t x :
  wf t → x ∈ located t → ranked_resident t (node_id x.2) = Some (rank_of x, x.2).
Proof.
  intros Hw. destruct x as [[i j] c]. intros (b & Hb & Hc)%elem_of_located.
  pose proof (lookup_lt_Some _ _ _ Hb) as Hi.
  assert (c ∈ contacts b) as Hcb by (by eapply list_elem_of_lookup_2).
  assert (c ∈ all_contacts t) as Hin by (apply elem_of_all_contacts; eauto).
  destruct (find_resident t c Hw Hin) as (idx & pos & H1 & H2 & H3 & H4).
  destruct Hw as [_ Hw]. pose proof (wf_length _ _ _ _ Hw) as Hl.
  assert (idx = i) as ->.
  { destruct (wf_buckets _ _ _ _ Hw i b Hb) as [_ _ Hh].
    destruct (held_ok_elem _ _ _ c _ ltac:(apply elem_of_app; left; exact Hcb) Hh).
    congruence. }
  rewrite bucket_at_lookup in Hb by done. injection Hb as <-.
  unfold ranked_resident. cbn [fst snd]. rewrite H1. simpl. rewrite bucket_at_lookup by done. simpl.
  rewrite H3. simpl. rewrite H4. unfold rank_of. simpl. do 3 f_equal.
  destruct (wf_at _ _ Hw H2) as (_ & [_ _ [Hn _ _]] & _). rewrite fmap_app in Hn.
  apply NoDup_app in Hn as [Hn _]. apply (NoDup_lookup _ pos j (node_id c) Hn);
    rewrite list_lookup_fmap; [by rewrite H4|by rewrite Hc].
Qed.

Lemma rank_le_total a b : rank_le a b = true ∨ rank_le b a = true.
Proof.
  destruct a as [[va ia] pa], b as [[vb ib] pb]. simpl.
  destruct va, vb; simpl; auto; rewrite (Nat.compare_antisym ia ib);
    destruct (Nat.compare ia ib); simpl; auto; rewrite !Nat.leb_le; lia.
Qed.

Lemma rank_le_trans a b c : rank_le a b = true → rank_le b c = true → rank_le a c = true.
Proof.
  destruct a as [[va ia] pa], b as [[vb ib] pb], c as [[vc ic] pc]. simpl.
  destruct va, vb, vc; simpl; try done;
    destruct (Nat.compare_spec ia ib), (Nat.compare_spec ib ic), (Nat.compare_spec ia ic);
    rewrite ?Nat.leb_le; try done; lia.
Qed.

Lemma rank_le_antisym a b : rank_le a b = true → rank_le b a = true → a = b.
Proof.
  destruct a as [[va ia] pa], b as [[vb ib] pb]. simpl.
  destruct va, vb; simpl; try done; rewrite (Nat.compare_antisym ia ib);
    destruct (Nat.compare_spec ia ib); simpl; try done; rewrite !Nat.leb_le; intros;
    subst; do 2 f_equal; lia.
Qed.

Lemma min_by_key_spec {A} (l : list ((bool * nat * nat) * A)) :
  match min_by_key rank_le l with
  | None => l = []
  | Some x => x ∈ l ∧ ∀ y, y ∈ l → rank_le x.1 y.1 = true
  end.
Proof.
  induction l as [|x l IH]; simpl; [done|]. destruct (min_by_key rank_le l) as [m|].
  - destruct IH as [Hm Hle]. destruct (rank_le x.1 m.1) eqn:E.
    + split; [left|]. intros y [->|Hy]%elem_of_cons; [by destruct (rank_le_total x.1 x.1)|].
      eapply rank_le_trans; [exact E|auto].
    + split; [by right|]. intros y [->|Hy]%elem_of_cons; [|auto].
      destruct (rank_le_total x.1 m.1); congruence.
  - subst. split; [left|]. intros y [->|Hy%not_elem_of_nil]%elem_of_cons; [|done].
    by destruct (rank_le_total x.1 x.1).
Qed.

Definition at_addr (a : SocketAddr) (c : EmberContact) : bool := bool_decide (addr c = a).

Lemma scan_for_head a l fb :
  scan_for a l fb =
  match head (retain (λ c, at_addr a c && is_verified c) l), fb with
  | Some c, _ => Some c
  | None, Some f => Some f
  | None, None => head (retain (at_addr a) l)
  end.
Proof.
  revert fb. induction l as [|c l IH]; intros fb; cbn [scan_for]; [by destruct fb|].
  rewrite !retain_cons, !IH. change (bool_decide (addr c = a)) with (at_addr a c).
  destruct (at_addr a c); simpl; [|done].
  destruct (is_verified c); simpl; [done|]. by destruct (head _), fb.
Qed.

(** The first of a kind in table order. *)
Lemma head_retain_located t (p : EmberContact → bool) c :
  head (retain p (all_contacts t)) = Some c →
  ∃ x, x ∈ located t ∧ x.2 = c ∧ p c = true ∧
       ∀ y, y ∈ located t → p y.2 = true → y = x ∨ place_lt x y.
Proof.
  rewrite <- located_snd, retain_fmap. intros H.
  destruct (retain (p ∘ snd) (located t)) as [|x l] eqn:E; [done|]. injection H as <-. exists x.
  assert (x ∈ retain (p ∘ snd) (located t)) as [Hp Hin]%elem_of_retain by (rewrite E; left).
  split; [done|]. split; [done|]. split; [done|]. intros y Hy Hpy.
  assert (y ∈ retain (p ∘ snd) (located t)) as Hyr by (by apply elem_of_retain).
  assert (StronglySorted place_lt (retain (p ∘ snd) (located t))) as Hs.
  { pose proof (located_sorted t) as Hs. clear -Hs. unfold retain.
    induction Hs as [|z l Hl IH Hz]; [constructor|]. rewrite filter_cons. case_decide; [|done].
    constructor; [done|]. eapply Forall_sublist; [apply sublist_filter|done]. }
  rewrite E in Hyr, Hs. apply StronglySorted_cons in Hs as [Hall _].
  apply elem_of_cons in Hyr as [?|Hyl]; [by left|right]. rewrite Forall_forall in Hall. auto.
Qed.

Lemma head_retain_None {A} (p : A → bool) l x :
  head (retain p l) = None → x ∈ l → p x = false.
Proof.
  intros H Hx. destruct (p x) eqn:E; [|done].
  assert (x ∈ retain p l) as Hin by (by apply elem_of_retain).
  destruct (retain p l); [by apply not_elem_of_nil in Hin|done].
Qed.

Lemma located_inj t x y :
  x ∈ located t → y ∈ located t → rank_of x = rank_of y → x = y.
Proof.
  destruct x as [[i j] c], y as [[i' j'] c'].
  intros (b & Hb & Hc)%elem_of_located (b' & Hb' & Hc')%elem_of_located E.
  unfold rank_of in E. simpl in E. simplify_eq. done.
Qed.

Lemma place_rank x y :
  is_verified x.2 = is_verified y.2 → y = x ∨ place_lt x y → rank_le (rank_of x) (rank_of y) = true.
Proof.
  intros Ev [->|H]; [by destruct (rank_le_total (rank_of x) (rank_of x))|].
  unfold rank_le, rank_of. rewrite Ev. destruct (negb _); simpl;
    destruct H as [H|[-> H]]; (rewrite (proj2 (Nat.compare_lt_iff _ _) H) by done) || idtac; try done;
    rewrite Nat.compare_refl; apply Nat.leb_le; lia.
Qed.

(** What the index offers [contact_at] for an address. *)
Lemma elem_of_candidates t a y :
  wf t →
  y ∈ omap (ranked_resident t) (default [] (by_addr (residents t) !! a)) ↔
  ∃ x, x ∈ located t ∧ at_addr a x.2 = true ∧ y = (rank_of x, x.2).
Proof.
  intros Hw. rewrite list_elem_of_omap.
  destruct (wf_indexed _ _ _ _ (wf_table _ Hw)) as [_ _ [_ Hidx]]. destruct (Hidx a) as [Hp _].
  assert (∀ id, id ∈ default [] (by_addr (residents t) !! a) ↔
                ∃ x, x ∈ located t ∧ at_addr a x.2 = true ∧ id = node_id x.2) as Hid.
  { intros id. rewrite Hp. unfold ids_at. rewrite <- located_snd, list_elem_of_fmap.
    setoid_rewrite list_elem_of_filter. setoid_rewrite list_elem_of_fmap. unfold at_addr.
    setoid_rewrite bool_decide_eq_true. naive_solver. }
  setoid_rewrite Hid. split.
  - intros (id & (x & Hx & Ha & ->) & Hr). rewrite ranked_resident_located in Hr by done.
    simplify_eq. eauto.
  - intros (x & Hx & Ha & ->). exists (node_id x.2). split; [by eauto|].
    by apply ranked_resident_located.
Qed.

Lemma elem_located_all t c : c ∈ all_contacts t ↔ ∃ x, x ∈ located t ∧ x.2 = c.
Proof. rewrite <- located_snd, list_elem_of_fmap. naive_solver. Qed.

(** A least-ranked resident at [a] is the scan's answer. *)
Lemma least_is_scanned t a x :
  x ∈ located t → at_addr a x.2 = true →
  (∀ y, y ∈ located t → at_addr a y.2 = true → rank_le (rank_of x) (rank_of y) = true) →
  contact_at_by_scan t a = Some x.2.
Proof.
  intros Hx Ha Hmin. unfold contact_at_by_scan. rewrite scan_for_head.
  assert (∀ z, z ∈ located t → at_addr a z.2 = true → is_verified z.2 = is_verified x.2 →
    (x = z ∨ place_lt z x) → z.2 = x.2) as Hsame.
  { intros z Hz Hza Ev Hpl. f_equal. apply (located_inj t); [done..|].
    apply rank_le_antisym; [by apply place_rank|by apply Hmin]. }
  destruct (head (retain _ (all_contacts t))) as [c|] eqn:Ev.
  - apply head_retain_located in Ev as (z & Hz & <- & [Hza Hzv]%andb_true_iff & Hfirst).
    assert (is_verified x.2 = true) as Hxv.
    { specialize (Hmin z Hz Hza). unfold rank_le, rank_of in Hmin. rewrite Hzv in Hmin.
      by destruct (is_verified x.2). }
    f_equal. apply Hsame; [done..|congruence|]. apply Hfirst; [done|]. by rewrite Ha, Hxv.
  - assert (∀ z, z ∈ located t → at_addr a z.2 = true → is_verified z.2 = false) as Hun.
    { intros z Hz Hza. assert (z.2 ∈ all_contacts t) as Hin by (apply elem_located_all; eauto).
      pose proof (head_retain_None _ _ _ Ev Hin) as H. simpl in H. by rewrite Hza in H. }
    destruct (head (retain (at_addr a) (all_contacts t))) as [c|] eqn:Eh.
    + apply head_retain_located in Eh as (z & Hz & <- & Hza & Hfirst). f_equal.
      apply Hsame; [done..|by rewrite !Hun|]. by apply Hfirst.
    + assert (x.2 ∈ all_contacts t) as Hin by (apply elem_located_all; eauto).
      pose proof (head_retain_None _ _ _ Eh Hin). congruence.
Qed.

(** The address index answers as a scan of the table would.  In every sound
    table, for every address, [contact_at] through the index returns the
    contact [contact_at_by_scan] finds, verified before unverified and in table
    order within each, and the counter behind [verified_len] equals a scan. *)
Theorem index_agrees_with_scan t a :
  wf t → contact_at t a = contact_at_by_scan t a ∧ verified_len t = verified_len_by_scan t.
Proof.
  intros Hw. split.
  - unfold contact_at. set (l := omap _ _). pose proof (min_by_key_spec l) as Hm.
    pose proof (λ y, elem_of_candidates t a y Hw) as Hl. fold l in Hl.
    destruct (min_by_key rank_le l) as [m|]; simpl.
    + destruct Hm as [Hin Hmin]. apply Hl in Hin as (x & Hx & Ha & ->). symmetry. simpl.
      apply least_is_scanned; [done..|]. intros y Hy Hya.
      apply (Hmin (rank_of y, y.2)), Hl. eauto.
    + destruct (contact_at_by_scan t a) as [c|] eqn:Es; [|done].
      assert (c ∈ all_contacts t ∧ at_addr a c = true) as [Hc Ha].
      { unfold contact_at_by_scan in Es. rewrite scan_for_head in Es.
        destruct (head (retain (λ c, at_addr a c && is_verified c) _)) as [d|] eqn:E1.
        - simplify_eq. apply head_Some_elem_of, elem_of_retain in E1 as [[? ?]%andb_true_iff ?]. done.
        - apply head_Some_elem_of, elem_of_retain in Es. tauto. }
      apply elem_located_all in Hc as (x & Hx & <-).
      assert ((rank_of x, x.2) ∈ l) as Hin by (apply Hl; eauto).
      rewrite Hm in Hin. by apply not_elem_of_nil in Hin.
  - unfold verified_len. by destruct (wf_indexed _ _ _ _ (wf_table _ Hw)) as [_ _ [-> _]].
Qed.

Lemma index_agrees_with_scan_witness :
  let t := sample_table [sample_contact 128 1 900; sample_contact 129 2 0] in
  contact_at t (addr (sample_contact 129 2 0)) = Some (sample_contact 129 2 0) ∧
  contact_at t (addr (sample_contact 129 2 0)) =
    contact_at_by_scan t (addr (sample_contact 129 2 0)).
Proof.
  split; [vm_compute; reflexivity|].
  apply (index_agrees_with_scan _ (addr (sample_contact 129 2 0)) (wf_sample_table _)).
Defined.
