(* ===== verification/DhtStore.v ===== *)
(** * The DHT record store: state and operations

    [DhtStore] and [PublisherIndex] of [network/ember/dht/store.rs].  Byte and
    record counts are [Z] with the source's saturating operations; [now_unix] is
    a reading of the wall clock, [now] of the monotonic one, in seconds.  The
    lazily computed [name_keys] of a record is a cache of its body that nothing
    here reads, and is left out. *)
From S2P Require Import Prelude NodeId Addr Contact Record.

(** ** What the store relies on *)

(** [HashMap] iterates in an order of its own choosing. *)
Class HashOrder := {
  hash_iter : ∀ {V}, gmap bytes V → list (bytes * V);
  hash_iter_perm : ∀ {V} (m : gmap bytes V), hash_iter m ≡ₚ map_to_list m;
}.

(** The Ed25519 check ([crypto::verify] under the key [publisher_key] decodes
    to), the size of the record struct the compiler chose, and for records read
    back from disk the per-type key checks of [publish.rs]. *)
Class StoreEnv := {
  verify_record_signature : bytes → bytes → bytes → bool;
  size_of_record : Z;
  channel_store_ok : bytes → bytes → bool;
  feed_store_ok : bytes → bytes → bool;
  feed_listing_store_ok : bytes → bytes → bool;
  is_feed_index_key : bytes → bool;
  size_of_record_ok : (0 < size_of_record ≤ 4096)%Z;
}.

(** ** Limits *)
Definition MAX_RECORDS_PER_KEY : nat := 1000.
Definition MAX_RECORDS_PER_PUBLISHER_PER_KEY : nat := 150.
Definition FEEDS_PER_IDENTITY : nat := 8.
Definition MAX_FEED_LISTINGS_PER_PUBLISHER_PER_KEY : nat := 16.
Definition MAX_FEED_HEADS_PER_PUBLISHER : Z := 64.
Definition MAX_KEYS : Z := 50000.
Definition MAX_STORE_BYTES : Z := 48 * 1024 * 1024.
Definition MAX_KEYS_PER_PUBLISHER : Z := 6250.
Definition MAX_BYTES_PER_PUBLISHER : Z := MAX_STORE_BYTES / 8.
Definition MAX_KEYS_PER_PUBLISHER_UNFILTERED : Z := 25000.
Definition MAX_BYTES_PER_PUBLISHER_UNFILTERED : Z := MAX_STORE_BYTES / 2.
Definition MAX_STORE_RECORD_BYTES : nat := 1165.
Definition MIN_STORE_RECORD_BYTES : nat := RECORD_HEADER_LEN.
Definition RELAYED_SOURCES_PER_IP_FACTOR : nat := 4.

Definition usize_saturating_add (a b : Z) : Z := Z.min usize_max (a + b).
Definition usize_saturating_sub (a b : Z) : Z := Z.max 0 (a - b).

(** ** Records *)
Record DhtRecord := mkRecord {
  data : bytes;
  signature : bytes;
  publisher_key : bytes;
  stored_at : Z;
  created_at : Z;
  attributed_ip : option Ipv4Addr;
  expires_at_unix : Z;
  last_republished : Z;
  republish_due : bool;
}.

Record PersistedRecord := mkPersisted {
  p_key : bytes;
  p_data : bytes;
  p_signature : bytes;
  p_publisher_key : bytes;
  p_created_at : Z;
  p_attributed_ip : option Ipv4Addr;
}.

Definition record_cost `{StoreEnv} (data_len : nat) : Z := Z.of_nat data_len + size_of_record.
Definition cost_of `{StoreEnv} (r : DhtRecord) : Z := record_cost (length (data r)).

(** [resident_gives_way]. *)
Definition resident_gives_way (resident : DhtRecord) (d : bytes) (created : Z) (sig : bytes) : bool :=
  let by_stamp :=
    match Z.compare created (created_at resident) with
    | Gt => true
    | Lt => false
    | Eq => bytes_le (signature resident) sig
    end in
  match feed_head_sequence_of (data resident), feed_head_sequence_of d with
  | Some held, Some incoming => if Z.eqb held incoming then by_stamp else Z.ltb held incoming
  | _, _ => by_stamp
  end.

Definition source_ip_class (r : DhtRecord) : option (Ipv4Addr * bool) :=
  match attributed_ip r with
  | Some ip => Some (ip, true)
  | None => (λ ip, (ip, false)) <$> source_ip_from_record_data (data r)
  end.
Definition source_ip_cap (s : NetworkScale) (c : Ipv4Addr * bool) : nat :=
  if c.2 then max_sources_per_ip s * RELAYED_SOURCES_PER_IP_FACTOR else max_sources_per_ip s.

(** ** [PublisherIndex] *)
Record PublisherLoad := mkLoad { keys : Z; load_bytes : Z; feed_heads : Z }.
Definition PublisherLoad_default : PublisherLoad := mkLoad 0 0 0.

Record PublisherIndex := mkPubIndex {
  load : gmap bytes PublisherLoad;
  over_share_count : Z;
  key_share : Z;
  byte_share : Z;
  local : option bytes;
  no_crowding_victim : bool;
}.

Definition PublisherIndex_new (ks bs : Z) : PublisherIndex := mkPubIndex ∅ 0 ks bs None false.

(** [l.keys >= key_share || l.bytes >= byte_share]. *)
Definition load_over (i : PublisherIndex) (l : PublisherLoad) : bool :=
  Z.leb (key_share i) (keys l) || Z.leb (byte_share i) (load_bytes l).
Definition counted (i : PublisherIndex) (p : bytes) : bool := negb (bool_decide (local i = Some p)).

Definition over_share (i : PublisherIndex) (p : bytes) : bool :=
  if negb (counted i p) then false
  else match load i !! p with Some l => load_over i l | None => false end.
Definition anyone_over_share (i : PublisherIndex) : bool := Z.ltb 0 (over_share_count i).
Definition feed_heads_full (i : PublisherIndex) (p : bytes) : bool :=
  counted i p
  && match load i !! p with
     | Some l => Z.leb MAX_FEED_HEADS_PER_PUBLISHER (feed_heads l)
     | None => false
     end.

Definition charge (i : PublisherIndex) (p : bytes) (n : Z) (first_under_key feed_head : bool)
    : PublisherIndex :=
  let l := default PublisherLoad_default (load i !! p) in
  let was := counted i p && load_over i l in
  let l' := mkLoad (if first_under_key then usize_saturating_add (keys l) 1 else keys l)
              (usize_saturating_add (load_bytes l) n)
              (if feed_head then usize_saturating_add (feed_heads l) 1 else feed_heads l) in
  let now := counted i p && load_over i l' in
  mkPubIndex (<[p := l']> (load i))
    (if now && negb was then usize_saturating_add (over_share_count i) 1 else over_share_count i)
    (key_share i) (byte_share i) (local i) false.

Definition discharge (i : PublisherIndex) (p : bytes) (n : Z) (last_under_key feed_head : bool)
    : PublisherIndex :=
  match load i !! p with
  | None => mkPubIndex (load i) (over_share_count i) (key_share i) (byte_share i) (local i) false
  | Some l =>
      let was := counted i p && load_over i l in
      let l' := mkLoad (if last_under_key then usize_saturating_sub (keys l) 1 else keys l)
                  (usize_saturating_sub (load_bytes l) n)
                  (if feed_head then usize_saturating_sub (feed_heads l) 1 else feed_heads l) in
      let now := counted i p && load_over i l' in
      mkPubIndex
        (if Z.eqb (keys l') 0 && Z.eqb (load_bytes l') 0
         then delete p (load i) else <[p := l']> (load i))
        (if was && negb now then usize_saturating_sub (over_share_count i) 1 else over_share_count i)
        (key_share i) (byte_share i) (local i) false
  end.

(** How many publishers are past a share. *)
Definition crowds (i : PublisherIndex) (x : bytes * PublisherLoad) : bool :=
  counted i x.1 && load_over i x.2.
Definition recount (i : PublisherIndex) : PublisherIndex :=
  mkPubIndex (load i) (Z.of_nat (count_if (crowds i) (map_to_list (load i))))
    (key_share i) (byte_share i) (local i) (no_crowding_victim i).
Definition set_local (i : PublisherIndex) (p : bytes) : PublisherIndex :=
  recount (mkPubIndex (load i) (over_share_count i) (key_share i) (byte_share i) (Some p)
             (no_crowding_victim i)).
Definition set_shares (i : PublisherIndex) (ks bs : Z) : PublisherIndex :=
  recount (mkPubIndex (load i) (over_share_count i) ks bs (local i) false).
Definition set_no_victim (i : PublisherIndex) : PublisherIndex :=
  mkPubIndex (load i) (over_share_count i) (key_share i) (byte_share i) (local i) true.

(** ** [DhtStore] *)
Record Rejections := mkRejections {
  rej_signature : Z;
  rej_timestamp : Z;
  rej_key_cap : Z;
  rej_source_ip_cap : Z;
  rej_publisher_cap : Z;
  rej_per_key_cap : Z;
  rej_unparseable : Z;
}.

Record DhtStore := mkStore {
  entries : gmap bytes (list DhtRecord);
  publisher_index : PublisherIndex;
  responsibility_filtered : bool;
  store_scale : NetworkScale;
  republish_cursor : option (bytes * nat);
  resident_bytes : Z;
  store_local_id : option EmberNodeId;
  byte_budget : Z;
  key_budget : Z;
  rejections : Rejections;
  furthest_key_distance : option bytes;
}.

Definition DhtStore_new : DhtStore :=
  mkStore ∅ (PublisherIndex_new MAX_KEYS_PER_PUBLISHER MAX_BYTES_PER_PUBLISHER) true Bootstrap None 0
    None MAX_STORE_BYTES MAX_KEYS (mkRejections 0 0 0 0 0 0 0) None.

Definition with_entries (s : DhtStore) (m : gmap bytes (list DhtRecord)) : DhtStore :=
  mkStore m (publisher_index s) (responsibility_filtered s) (store_scale s) (republish_cursor s)
    (resident_bytes s) (store_local_id s) (byte_budget s) (key_budget s) (rejections s)
    (furthest_key_distance s).
Definition with_index (s : DhtStore) (i : PublisherIndex) : DhtStore :=
  mkStore (entries s) i (responsibility_filtered s) (store_scale s) (republish_cursor s)
    (resident_bytes s) (store_local_id s) (byte_budget s) (key_budget s) (rejections s)
    (furthest_key_distance s).
Definition with_bytes (s : DhtStore) (n : Z) : DhtStore :=
  mkStore (entries s) (publisher_index s) (responsibility_filtered s) (store_scale s)
    (republish_cursor s) n (store_local_id s) (byte_budget s) (key_budget s) (rejections s)
    (furthest_key_distance s).
Definition with_furthest (s : DhtStore) (d : option bytes) : DhtStore :=
  mkStore (entries s) (publisher_index s) (responsibility_filtered s) (store_scale s)
    (republish_cursor s) (resident_bytes s) (store_local_id s) (byte_budget s) (key_budget s)
    (rejections s) d.
Definition with_rejections (s : DhtStore) (r : Rejections) : DhtStore :=
  mkStore (entries s) (publisher_index s) (responsibility_filtered s) (store_scale s)
    (republish_cursor s) (resident_bytes s) (store_local_id s) (byte_budget s) (key_budget s) r
    (furthest_key_distance s).
Definition with_cursor (s : DhtStore) (c : option (bytes * nat)) : DhtStore :=
  mkStore (entries s) (publisher_index s) (responsibility_filtered s) (store_scale s) c
    (resident_bytes s) (store_local_id s) (byte_budget s) (key_budget s) (rejections s)
    (furthest_key_distance s).

(** One more refusal of a kind; [u64] saturates. *)
Definition bump (n : Z) : Z := Z.min 18446744073709551615 (n + 1).
Definition reject_signature (s : DhtStore) : DhtStore :=
  let r := rejections s in with_rejections s
    (mkRejections (bump (rej_signature r)) (rej_timestamp r) (rej_key_cap r) (rej_source_ip_cap r)
       (rej_publisher_cap r) (rej_per_key_cap r) (rej_unparseable r)).
Definition reject_timestamp (s : DhtStore) : DhtStore :=
  let r := rejections s in with_rejections s
    (mkRejections (rej_signature r) (bump (rej_timestamp r)) (rej_key_cap r) (rej_source_ip_cap r)
       (rej_publisher_cap r) (rej_per_key_cap r) (rej_unparseable r)).
Definition reject_key_cap (s : DhtStore) : DhtStore :=
  let r := rejections s in with_rejections s
    (mkRejections (rej_signature r) (rej_timestamp r) (bump (rej_key_cap r)) (rej_source_ip_cap r)
       (rej_publisher_cap r) (rej_per_key_cap r) (rej_unparseable r)).
Definition reject_source_ip (s : DhtStore) : DhtStore :=
  let r := rejections s in with_rejections s
    (mkRejections (rej_signature r) (rej_timestamp r) (rej_key_cap r) (bump (rej_source_ip_cap r))
       (rej_publisher_cap r) (rej_per_key_cap r) (rej_unparseable r)).
Definition reject_publisher_cap (s : DhtStore) : DhtStore :=
  let r := rejections s in with_rejections s
    (mkRejections (rej_signature r) (rej_timestamp r) (rej_key_cap r) (rej_source_ip_cap r)
       (bump (rej_publisher_cap r)) (rej_per_key_cap r) (rej_unparseable r)).
Definition reject_per_key (s : DhtStore) : DhtStore :=
  let r := rejections s in with_rejections s
    (mkRejections (rej_signature r) (rej_timestamp r) (rej_key_cap r) (rej_source_ip_cap r)
       (rej_publisher_cap r) (bump (rej_per_key_cap r)) (rej_unparseable r)).
Definition reject_unparseable (s : DhtStore) : DhtStore :=
  let r := rejections s in with_rejections s
    (mkRejections (rej_signature r) (rej_timestamp r) (rej_key_cap r) (rej_source_ip_cap r)
       (rej_publisher_cap r) (rej_per_key_cap r) (bump (rej_unparseable r))).

Definition set_scale (s : DhtStore) (t : NetworkScale) : DhtStore :=
  mkStore (entries s) (publisher_index s) (responsibility_filtered s) t (republish_cursor s)
    (resident_bytes s) (store_local_id s) (byte_budget s) (key_budget s) (rejections s)
    (furthest_key_distance s).
Definition set_responsibility_filtered (s : DhtStore) (filtered : bool) : DhtStore :=
  if Bool.eqb (responsibility_filtered s) filtered then s
  else
    let i := if filtered
             then set_shares (publisher_index s) MAX_KEYS_PER_PUBLISHER MAX_BYTES_PER_PUBLISHER
             else set_shares (publisher_index s) MAX_KEYS_PER_PUBLISHER_UNFILTERED
                    MAX_BYTES_PER_PUBLISHER_UNFILTERED in
    mkStore (entries s) i filtered (store_scale s) (republish_cursor s) (resident_bytes s)
      (store_local_id s) (byte_budget s) (key_budget s) (rejections s) (furthest_key_distance s).
Definition set_local_id (s : DhtStore) (id : EmberNodeId) : DhtStore :=
  mkStore (entries s) (publisher_index s) (responsibility_filtered s) (store_scale s)
    (republish_cursor s) (resident_bytes s) (Some id) (byte_budget s) (key_budget s)
    (rejections s) (furthest_key_distance s).
Definition set_local_publisher_key (s : DhtStore) (p : bytes) : DhtStore :=
  with_index s (set_local (publisher_index s) p).

(** ** Records leaving the store *)
Section ops.
Context `{Env : StoreEnv} `{Order : HashOrder}.

(** [records.iter().any(|r| r.publisher_key == p)]. *)
Definition holds (p : bytes) (l : list DhtRecord) : bool :=
  existsb (λ r, bool_decide (publisher_key r = p)) l.

(** A publisher, the bytes it gets back, whether it gives up its key slot, and
    whether a feed head left. *)
Definition release_note : Type := bytes * Z * bool * bool.

(** The notes for the records [gone] from a key that keeps [kept]: a publisher
    gives up its slot once, at the first of its records, unless it keeps one. *)
Fixpoint release_notes (kept : list DhtRecord) (released : gset bytes) (gone : list DhtRecord)
    : list release_note :=
  match gone with
  | [] => []
  | r :: gone =>
      let p := publisher_key r in
      let last := negb (holds p kept) && negb (bool_decide (p ∈ released)) in
      (p, cost_of r, last, is_feed_head (data r)) ::
      release_notes kept (if holds p kept then released else {[p]} ∪ released) gone
  end.
Definition discharge_note (i : PublisherIndex) (n : release_note) : PublisherIndex :=
  let '(p, c, last, head) := n in discharge i p c last head.
Definition discharge_notes (i : PublisherIndex) (l : list release_note) : PublisherIndex :=
  foldl discharge_note i l.
Definition total_cost (l : list DhtRecord) : Z := foldr (λ r n, cost_of r + n)%Z 0%Z l.

Definition drop_key (s : DhtStore) (key : bytes) : DhtStore :=
  match entries s !! key with
  | None => s
  | Some records =>
      let s := with_entries s (delete key (entries s)) in
      let s := with_bytes s (foldl (λ n r, usize_saturating_sub n (cost_of r))
                               (resident_bytes s) records) in
      with_index s (discharge_notes (publisher_index s) (release_notes [] ∅ records))
  end.

(** The shared body of [expire] and [drop_publisher_files]: every record that
    [gone] holds of leaves, keys left empty with it. *)
Definition sweep (gone : DhtRecord → bool) (s : DhtStore) : nat * DhtStore :=
  let rows := hash_iter (entries s) in
  let left (x : bytes * list DhtRecord) := retain gone x.2 in
  let kept (x : bytes * list DhtRecord) := retain (λ r, negb (gone r)) x.2 in
  let removed := sum_list ((λ x, length (left x)) <$> rows) in
  let freed := foldr Z.add 0%Z ((λ x, total_cost (left x)) <$> rows) in
  let notes := rows ≫= λ x, release_notes (kept x) ∅ (left x) in
  let s := with_entries s
    (omap (λ l, let k := retain (λ r, negb (gone r)) l in
                if bool_decide (k = []) then None else Some k) (entries s)) in
  let s := with_bytes s (usize_saturating_sub (resident_bytes s) freed) in
  (removed, with_index s (discharge_notes (publisher_index s) notes)).

Definition expire (now_unix : Z) (s : DhtStore) : nat * DhtStore :=
  sweep (λ r, negb (Z.ltb now_unix (expires_at_unix r))) s.

Definition drop_publisher_files (s : DhtStore) (p : bytes) (file_hashes : gset bytes)
    : nat * DhtStore :=
  if bool_decide (file_hashes = ∅) then (0, s)
  else sweep (λ r, bool_decide (publisher_key r = p)
                   && bool_decide (file_hash_from_record_data (data r) ∈ file_hashes)) s.

(** ** Making room *)

(** [records.iter().all(|r| index.over_share(&r.publisher_key))] of a key that
    is not empty. *)
Definition held_by_crowders (i : PublisherIndex) (l : list DhtRecord) : bool :=
  negb (bool_decide (l = [])) && forallb (λ r, over_share i (publisher_key r)) l.

Definition bytes_gt (a b : bytes) : bool := negb (bytes_le a b).
Definition none_or_gt (d : bytes) (o : option bytes) : bool :=
  match o with None => true | Some h => bytes_gt d h end.

(** The scan for a victim: the furthest key, the runner-up's distance, and the
    furthest key held only by publishers past their share. *)
Record victims := mkVictims {
  furthest : option (bytes * bytes);
  runner_up : option bytes;
  crowding : option (bytes * bytes);
}.
Definition scan_victim (i : PublisherIndex) (look_for_crowding : bool) (local : EmberNodeId)
    (v : victims) (x : bytes * list DhtRecord) : victims :=
  let '(key, records) := x in
  let d := xor16 local key in
  let c := if look_for_crowding && negb (bool_decide (records = []))
              && none_or_gt d (snd <$> crowding v)
              && forallb (λ r, over_share i (publisher_key r)) records
           then Some (key, d) else crowding v in
  match furthest v with
  | Some (_, current) =>
      if bytes_gt d current then mkVictims (Some (key, d)) (Some current) c
      else if none_or_gt d (runner_up v) then mkVictims (furthest v) (Some d) c
      else mkVictims (furthest v) (runner_up v) c
  | None => mkVictims (Some (key, d)) (runner_up v) c
  end.

Definition key_count (s : DhtStore) : Z := Z.of_nat (size (entries s)).

(** Dropping the keys all of whose records have lapsed. *)
Definition lapsed_keys (now_unix : Z) (s : DhtStore) : list bytes :=
  fst <$> retain (λ x, forallb (λ r, Z.leb (expires_at_unix r) now_unix) x.2) (hash_iter (entries s)).

(** The eviction part of [make_room_for_key], after the lapsed keys went. *)
Definition evict_for_key (s : DhtStore) (local : EmberNodeId) (incoming_distance : bytes)
    : bool * DhtStore :=
  let look_for_crowding := anyone_over_share (publisher_index s) in
  let v := foldl (scan_victim (publisher_index s) look_for_crowding local)
             (mkVictims None None None) (hash_iter (entries s)) in
  match crowding v with
  | Some (victim, _) => (true, drop_key s victim)
  | None =>
      let s := if look_for_crowding then with_index s (set_no_victim (publisher_index s)) else s in
      match furthest v with
      | None => (false, s)
      | Some (furthest_key, furthest_distance) =>
          if bytes_le furthest_distance incoming_distance
          then (false, with_furthest s (Some furthest_distance))
          else
            let bound := match runner_up v with
                         | Some r => if bytes_le incoming_distance r then r else incoming_distance
                         | None => incoming_distance
                         end in
            (true, with_furthest (drop_key s furthest_key) (Some bound))
      end
  end.

Definition make_room_for_key (now_unix : Z) (s : DhtStore) (incoming publisher : bytes)
    : bool * DhtStore :=
  if Z.ltb (key_count s) (key_budget s) then (true, s)
  else match store_local_id s with
  | None => (false, s)
  | Some local =>
      if over_share (publisher_index s) publisher then (false, s)
      else
        let incoming_distance := xor16 local incoming in
        let refused_by_bound :=
          match furthest_key_distance s with
          | Some bound =>
              bytes_le bound incoming_distance
              && (negb (anyone_over_share (publisher_index s))
                  || no_crowding_victim (publisher_index s))
          | None => false
          end in
        if refused_by_bound then (false, s)
        else
          let expired := lapsed_keys now_unix s in
          if bool_decide (expired = []) then evict_for_key s local incoming_distance
          else
            let s := with_furthest (foldl drop_key s expired) None in
            if Z.ltb (key_count s) (key_budget s) then (true, s)
            else evict_for_key s local incoming_distance
  end.

(** ** The byte budget *)

(** [records.iter().enumerate().min_by_key(|(_, r)| r.expires_at_unix)]: the
    first of the least. *)
Fixpoint soonest_from (i : nat) (l : list DhtRecord) : option (nat * Z) :=
  match l with
  | [] => None
  | r :: l => match soonest_from (S i) l with
              | Some (j, e) => if Z.leb (expires_at_unix r) e then Some (i, expires_at_unix r)
                               else Some (j, e)
              | None => Some (i, expires_at_unix r)
              end
  end.
Definition soonest (l : list DhtRecord) : option nat := fst <$> soonest_from 0 l.

(** The [while] over one key's records; each round removes one, so their number
    bounds it. *)
Fixpoint trim_key (fuel : nat) (target : Z) (n : Z) (i : PublisherIndex) (records : list DhtRecord)
    : Z * PublisherIndex * list DhtRecord :=
  match fuel with
  | 0 => (n, i, records)
  | S fuel =>
      if Z.leb n target then (n, i, records)
      else match soonest records with
      | None => (n, i, records)
      | Some at_ =>
          match records !! at_ with
          | None => (n, i, records)
          | Some victim =>
              let records := delete at_ records in
              let i := discharge i (publisher_key victim) (cost_of victim)
                         (negb (holds (publisher_key victim) records)) (is_feed_head (data victim)) in
              trim_key fuel target (usize_saturating_sub n (cost_of victim)) i records
          end
      end
  end.

Definition rank_row (s : DhtStore) (x : bytes * list DhtRecord) : bytes * bool * bytes :=
  let d := match store_local_id s with Some id => xor16 id x.1 | None => repeat 0%Z 16 end in
  (x.1, anyone_over_share (publisher_index s) && held_by_crowders (publisher_index s) x.2, d).
(** Crowding first, then furthest. *)
Definition rank_row_le (a b : bytes * bool * bytes) : bool :=
  let '(_, ca, da) := a in
  let '(_, cb, db) := b in
  match Bool.compare cb ca with
  | Lt => true
  | Gt => false
  | Eq => bytes_le db da
  end.

Fixpoint trim_keys (target : Z) (ranked : list bytes) (s : DhtStore) : DhtStore :=
  match ranked with
  | [] => s
  | key :: ranked =>
      match entries s !! key with
      | None => trim_keys target ranked s
      | Some records =>
          let '(n, i, kept) := trim_key (length records) target (resident_bytes s)
                                 (publisher_index s) records in
          let m := if bool_decide (kept = []) then delete key (entries s)
                   else <[key := kept]> (entries s) in
          let s := with_index (with_bytes (with_entries s m) n) i in
          if Z.leb n target then s else trim_keys target ranked s
      end
  end.

Definition enforce_byte_budget (s : DhtStore) (spare : bytes) : DhtStore :=
  if Z.leb (resident_bytes s) (byte_budget s) then s
  else
    let target := (byte_budget s - byte_budget s / 10)%Z in
    let rows := retain (λ x, negb (bool_decide (x.1 = spare))) (hash_iter (entries s)) in
    let ranked := stable_sort rank_row_le (rank_row s <$> rows) in
    trim_keys target ((λ x, x.1.1) <$> ranked) s.

(** ** [store_record] *)
Definition admit_created_at (s : DhtStore) (created ttl_secs now_unix : Z) : bool * DhtStore :=
  if Z.ltb (now_unix + skew_tolerance_secs ttl_secs) created then (false, reject_timestamp s)
  else if Z.leb ttl_secs (Z.max 0 (i64_saturating_sub now_unix created))
  then (false, reject_timestamp s)
  else (true, s).
Definition created_at_admissible (now_unix : Z) (s : DhtStore) (d : bytes) (created : Z)
    : bool * DhtStore := admit_created_at s created (record_ttl d) now_unix.

(** The record of [publisher] for the file [file] under a key. *)
Definition same_slot (publisher file : bytes) (r : DhtRecord) : bool :=
  bool_decide (publisher_key r = publisher)
  && bool_decide (file_hash_from_record_data (data r) = file).

(** A feed head past the publisher's allowance, unless it
    replaces one it holds here. *)
Definition feed_head_refused (s : DhtStore) (key publisher d : bytes) : bool :=
  is_feed_head d && feed_heads_full (publisher_index s) publisher
  && negb (existsb (λ r, same_slot publisher (file_hash_from_record_data d) r
                         && is_feed_head (data r))
             (default [] (entries s !! key))).

(** The checks of [store_record] that need no room: the publisher and stamp the
    signed body names, or the refusal. *)
Definition store_checks (now_unix : Z) (s : DhtStore) (key d sig : bytes) (signature_checked : bool)
    : (bytes * Z) + DhtStore :=
  if decide (MAX_STORE_RECORD_BYTES < length d) then inr s
  else if decide (length d < MIN_STORE_RECORD_BYTES) then inr (reject_unparseable s)
  else match signed_identity_from_record_data d with
  | None => inr (reject_unparseable s)
  | Some (signed_key, publisher, created) =>
      if negb (bool_decide (signed_key = key)) then inr (reject_unparseable s)
      else
        let '(ok, s) := admit_created_at s created (record_ttl d) now_unix in
        if negb ok then inr s
        else if negb signature_checked && negb (verify_record_signature d sig publisher)
        then inr (reject_signature s)
        else if feed_head_refused s key publisher d then inr (reject_publisher_cap s)
        else inl (publisher, created)
  end.

(** Room for a key not held yet, and the bound that follows. *)
Definition admit_key (now_room : Z) (s : DhtStore) (key publisher : bytes) : bool * DhtStore :=
  if bool_decide (is_Some (entries s !! key)) then (true, s)
  else
    let '(ok, s) := make_room_for_key now_room s key publisher in
    if negb ok then (false, reject_key_cap s)
    else
      let bound :=
        match furthest_key_distance s, (λ l, xor16 l key) <$> store_local_id s with
        | Some bound, Some d => Some (if bytes_le bound d then d else bound)
        | _, _ => None
        end in
      (true, with_furthest s bound).

(** The record as it is filed. *)
Definition new_record (now_unix now : Z) (d sig publisher : bytes) (created : Z)
    (ip : option Ipv4Addr) : DhtRecord :=
  let aged_from := if is_presence_departure d then created else Z.min created now_unix in
  mkRecord d sig publisher now created ip (i64_saturating_add aged_from (record_ttl d)) now false.

(** Sources at one address among the live records, [skip] apart. *)
Definition same_ip_live (now_unix : Z) (class : Ipv4Addr * bool) (skip : nat) (l : list DhtRecord) : nat :=
  count_if (λ '(i, r), negb (bool_decide (i = skip)) && Z.ltb now_unix (expires_at_unix r)
                       && bool_decide (source_ip_class r = Some class)) (imap pair l).
(** Whether the address a replacement moves to has no slot left. *)
Definition replacement_refused (now_unix : Z) (s : DhtStore) (pos : nat) (resident r : DhtRecord)
    (l : list DhtRecord) : bool :=
  match source_ip_class r with
  | None => false
  | Some class =>
      negb (bool_decide (source_ip_class resident = Some class))
      && bool_decide (source_ip_cap (store_scale s) class ≤ same_ip_live now_unix class pos l)
  end.

(** The publisher has a record for this file here. *)
Definition replace_record (now_unix : Z) (s : DhtStore) (key : bytes) (r : DhtRecord) (pos : nat)
    (resident : DhtRecord) (records : list DhtRecord) : bool * DhtStore :=
  if negb (resident_gives_way resident (data r) (created_at r) (signature r))
  then (false, reject_timestamp s)
  else if negb (bool_decide (ember_digest_from_record_data (data resident) = repeat 0%Z 32))
          && bool_decide (ember_digest_from_record_data (data r) = repeat 0%Z 32)
          && Z.ltb (now_unix + record_ttl (data r) / 2) (expires_at_unix resident)
  then
    let kept := mkRecord (data resident) (signature resident) (publisher_key resident)
                  (stored_at resident) (created_at resident) (attributed_ip resident)
                  (expires_at_unix resident) (last_republished r) false in
    (true, with_entries s (<[key := <[pos := kept]> records]> (entries s)))
  else if replacement_refused now_unix s pos resident r records
  then (false, reject_source_ip s)
  else
    let old_len := cost_of resident in
    let new_len := cost_of r in
    let s := with_entries s (<[key := <[pos := r]> records]> (entries s)) in
    let s := with_bytes s (resident_bytes s + new_len - Z.min old_len (resident_bytes s))%Z in
    let i := discharge (publisher_index s) (publisher_key r) old_len false
               (is_feed_head (data resident)) in
    let i := charge i (publisher_key r) new_len false (is_feed_head (data r)) in
    (true, enforce_byte_budget (with_index s i) key).

(** This key's lapsed records go before the caps count them. *)
Definition reclaim_lapsed (now_unix : Z) (s : DhtStore) (key : bytes) (records : list DhtRecord)
    : list DhtRecord * DhtStore :=
  let lapsed r := Z.leb (expires_at_unix r) now_unix in
  let kept := retain (λ r, negb (lapsed r)) records in
  let gone := retain lapsed records in
  let s := with_bytes s (usize_saturating_sub (resident_bytes s) (total_cost gone)) in
  let s := with_entries s (<[key := kept]> (entries s)) in
  (kept, with_index s (discharge_notes (publisher_index s) (release_notes kept ∅ gone))).

Definition source_ip_full (s : DhtStore) (r : DhtRecord) (records : list DhtRecord) : bool :=
  match source_ip_class r with
  | None => false
  | Some class =>
      bool_decide (source_ip_cap (store_scale s) class ≤
                   count_if (λ x, bool_decide (source_ip_class x = Some class)) records)
  end.
Definition publisher_cap (d : bytes) : nat :=
  if has_type RECORD_TYPE_FEED_LISTING d
  then MAX_FEED_LISTINGS_PER_PUBLISHER_PER_KEY else MAX_RECORDS_PER_PUBLISHER_PER_KEY.

(** The stalest listing older than [r], of a full index shard. *)
Fixpoint stalest_from (i : nat) (r : DhtRecord) (l : list DhtRecord) : option (nat * Z) :=
  match l with
  | [] => None
  | x :: l =>
      let rest := stalest_from (S i) r l in
      if has_type RECORD_TYPE_FEED_LISTING (data x) && Z.ltb (expires_at_unix x) (expires_at_unix r)
      then match rest with
           | Some (j, e) => if Z.leb (expires_at_unix x) e then Some (i, expires_at_unix x) else rest
           | None => Some (i, expires_at_unix x)
           end
      else rest
  end.

(** A full shard drops its stalest listing. *)
Definition drop_stalest (s : DhtStore) (key : bytes) (r : DhtRecord) (records : list DhtRecord)
    : list DhtRecord * DhtStore :=
  if negb (bool_decide (MAX_RECORDS_PER_KEY ≤ length records)
           && has_type RECORD_TYPE_FEED_LISTING (data r))
  then (records, s)
  else match (at_ ← fst <$> stalest_from 0 r records; x ← records !! at_; Some (at_, x)) with
  | None => (records, s)
  | Some (at_, dropped) =>
      let records := delete at_ records in
      let s := with_bytes s (usize_saturating_sub (resident_bytes s) (cost_of dropped)) in
      let s := with_entries s (<[key := records]> (entries s)) in
      let last := negb (bool_decide (publisher_key dropped = publisher_key r))
                  && negb (holds (publisher_key dropped) records) in
      (records, with_index s (discharge (publisher_index s) (publisher_key dropped)
                                (cost_of dropped) last (is_feed_head (data dropped))))
  end.

(** A record that replaces none. *)
Definition insert_record (now_unix : Z) (s : DhtStore) (key : bytes) (r : DhtRecord)
    (records : list DhtRecord) : bool * DhtStore :=
  let '(records, s) := reclaim_lapsed now_unix s key records in
  if source_ip_full s r records then (false, reject_source_ip s)
  else
    let mine := count_if (λ x, bool_decide (publisher_key x = publisher_key r)) records in
    if decide (publisher_cap (data r) ≤ mine) then (false, reject_publisher_cap s)
    else
      let '(records, s) := drop_stalest s key r records in
      if decide (MAX_RECORDS_PER_KEY ≤ length records) then (false, reject_per_key s)
      else
        let s := with_bytes s (resident_bytes s + cost_of r)%Z in
        let s := with_entries s (<[key := records ++ [r]]> (entries s)) in
        let i := charge (publisher_index s) (publisher_key r) (cost_of r)
                   (bool_decide (mine = 0)) (is_feed_head (data r)) in
        (true, enforce_byte_budget (with_index s i) key).

(** [now_room] is the clock read again in [make_room_for_key]. *)
Definition store_record (now_unix now_room now : Z) (s : DhtStore) (key d sig : bytes)
    (ip : option Ipv4Addr) (signature_checked : bool) : bool * DhtStore :=
  match store_checks now_unix s key d sig signature_checked with
  | inr s => (false, s)
  | inl (publisher, created) =>
      let '(ok, s) := admit_key now_room s key publisher in
      if negb ok then (false, s)
      else
        let r := new_record now_unix now d sig publisher created ip in
        let records := default [] (entries s !! key) in
        match (pos ← position (same_slot publisher (file_hash_from_record_data d)) records;
               x ← records !! pos; Some (pos, x)) with
        | Some (pos, resident) => replace_record now_unix s key r pos resident records
        | None => insert_record now_unix s key r records
        end
  end.
Definition store_attributed (now_unix now_room now : Z) (s : DhtStore) (key d sig : bytes)
    (ip : option Ipv4Addr) : bool * DhtStore :=
  store_record now_unix now_room now s key d sig ip false.
Definition store (now_unix now_room now : Z) (s : DhtStore) (key d sig : bytes) : bool * DhtStore :=
  store_attributed now_unix now_room now s key d sig None.

(** ** Serving *)
Definition live_records (now_unix : Z) (s : DhtStore) (key : bytes) : list DhtRecord :=
  retain (λ r, Z.ltb now_unix (expires_at_unix r)) (default [] (entries s !! key)).
Definition get_live (now_unix : Z) (s : DhtStore) (key : bytes) : list DhtRecord :=
  live_records now_unix s key.
Definition total_records (s : DhtStore) : nat :=
  sum_list ((λ x, length x.2) <$> hash_iter (entries s)).

(** ** Replication *)
Definition republished (now : Z) (r : DhtRecord) : DhtRecord :=
  mkRecord (data r) (signature r) (publisher_key r) (stored_at r) (created_at r)
    (attributed_ip r) (expires_at_unix r) now false.
(** [r.republish_due || now.duration_since(r.last_republished) >= interval]; a
    negative [duration_since] is zero. *)
Definition due (now interval : Z) (r : DhtRecord) : bool :=
  republish_due r || Z.leb interval (Z.max 0 (now - last_republished r)).
Definition republishable (now_unix : Z) (r : DhtRecord) : bool :=
  storer_replicates (data r) && negb (Z.leb (expires_at_unix r) now_unix).

(** The walk over one key's records from index [idx]: the records, the batch,
    and where the batch filled up. *)
Fixpoint republish_walk (now now_unix interval : Z) (max : nat) (force : bool) (skip idx : nat)
    (records : list DhtRecord) (out : list (bytes * bytes))
    : list DhtRecord * list (bytes * bytes) * option nat :=
  match records with
  | [] => ([], out, None)
  | r :: rest =>
      if decide (idx < skip) then
        let '(rest, out, stop) := republish_walk now now_unix interval max force skip (S idx) rest out in
        (r :: rest, out, stop)
      else if decide (max ≤ length out) then (records, out, Some idx)
      else
        let take := republishable now_unix r && (force || due now interval r) in
        let '(rest, out, stop) :=
          republish_walk now now_unix interval max force skip (S idx) rest
            (if take then out ++ [(data r, signature r)] else out) in
        ((if take then republished now r else r) :: rest, out, stop)
  end.

(** The walk over the keys in order. *)
Fixpoint republish_keys (now now_unix interval : Z) (max : nat) (force : bool) (skip : nat)
    (ordered : list bytes) (m : gmap bytes (list DhtRecord)) (out : list (bytes * bytes))
    : gmap bytes (list DhtRecord) * list (bytes * bytes) * option (bytes * nat) :=
  match ordered with
  | [] => (m, out, None)
  | key :: ordered =>
      match m !! key with
      | None => republish_keys now now_unix interval max force 0 ordered m out
      | Some records =>
          let '(records, out, stop) :=
            republish_walk now now_unix interval max force skip 0 records out in
          let m := <[key := records]> m in
          match stop with
          | Some idx => (m, out, Some (key, idx))
          | None => republish_keys now now_unix interval max force 0 ordered m out
          end
      end
  end.

Definition take_republish_batch (now now_unix interval : Z) (max : nat) (force : bool) (s : DhtStore)
    : list (bytes * bytes) * DhtStore :=
  let ordered := fst <$> hash_iter (entries s) in
  if bool_decide (ordered = []) then ([], with_cursor s None)
  else
    let '(start, skip) :=
      match republish_cursor s with
      | Some (key, idx) =>
          match position (λ k, bool_decide (k = key)) ordered with
          | Some at_ => (at_, idx)
          | None => (0, 0)
          end
      | None => (0, 0)
      end in
    let '(m, out, cursor) :=
      republish_keys now now_unix interval max force skip (drop start ordered ++ take start ordered)
        (entries s) [] in
    (out, with_cursor (with_entries s m) cursor).

Definition republish_backlog (now now_unix interval : Z) (s : DhtStore) : nat :=
  count_if (λ r, republishable now_unix r && due now interval r) (hash_iter (entries s) ≫= snd).

Definition mark_republish_due (s : DhtStore) (key sig : bytes) : DhtStore :=
  match entries s !! key with
  | None => s
  | Some records =>
      match position (λ r, bool_decide (signature r = sig)) records with
      | None => s
      | Some pos =>
          with_entries s (<[key := alter (λ r,
            mkRecord (data r) (signature r) (publisher_key r) (stored_at r) (created_at r)
              (attributed_ip r) (expires_at_unix r) (last_republished r) true) pos records]>
            (entries s))
      end
  end.

(** ** Across a restart *)
Definition persist_row (now_unix : Z) (x : bytes * list DhtRecord) : list PersistedRecord :=
  (λ r, mkPersisted x.1 (data r) (signature r) (publisher_key r) (created_at r) (attributed_ip r)) <$>
  retain (λ r, negb (Z.leb (expires_at_unix r) now_unix) && negb (has_type RECORD_TYPE_SOURCE (data r)))
    x.2.
Definition persistable (now_unix : Z) (s : DhtStore) (max : nat) : list PersistedRecord :=
  let rows := hash_iter (entries s) in
  let rows := match store_local_id s with
              | Some local => stable_sort (λ a b, bytes_le (xor16 local a.1) (xor16 local b.1)) rows
              | None => rows
              end in
  take max (rows ≫= persist_row now_unix).

(** [VerifiedRecords::verify]. *)
Definition verify_records (now_unix : Z) (l : list PersistedRecord) : list PersistedRecord :=
  retain (λ r, negb (has_type RECORD_TYPE_SOURCE (p_data r))
    && match signed_identity_from_record_data (p_data r) with
       | Some (_, author, created) =>
           Z.ltb (i64_saturating_sub now_unix created) (record_ttl (p_data r))
           && verify_record_signature (p_data r) (p_signature r) author
       | None => false
       end) l.

(** The checks of [restore_verified] before it stores. *)
Definition restorable (now_unix : Z) (r : PersistedRecord) : option bytes :=
  let d := p_data r in
  if has_type RECORD_TYPE_SOURCE d then None
  else match signed_identity_from_record_data d with
  | None => None
  | Some (key, _, created) =>
      if Z.leb (record_ttl d) (i64_saturating_sub now_unix created) then None
      else if has_type RECORD_TYPE_CHANNEL d && negb (channel_store_ok d (p_signature r)) then None
      else if has_type RECORD_TYPE_FEED d && negb (feed_store_ok d (p_signature r)) then None
      else if has_type RECORD_TYPE_FEED_LISTING d then
        if feed_listing_store_ok d (p_signature r) then Some key else None
      else if is_feed_index_key key then None
      else Some key
  end.
(** Each record with the clock readings of its turn; one wall-clock reading
    stands for the two taken before [make_room_for_key] reads its own. *)
Definition restore_verified (s : DhtStore) (l : list (Z * Z * Z * PersistedRecord)) : nat * DhtStore :=
  foldl (λ (acc : nat * DhtStore) '(now_unix, now_room, now, r),
           match restorable now_unix r with
           | None => acc
           | Some key =>
               let '(ok, s) := store_record now_unix now_room now acc.2 key (p_data r)
                                 (p_signature r) None true in
               ((if ok then S acc.1 else acc.1), s)
           end) (0, s) l.

(** ** Figures *)
Definition foreign_stats (now_unix : Z) (s : DhtStore) (local_publisher : bytes) : nat * nat :=
  let foreign r := Z.ltb now_unix (expires_at_unix r)
                   && negb (bool_decide (publisher_key r = local_publisher)) in
  let counts := (λ x, count_if foreign x.2) <$> hash_iter (entries s) in
  (count_if (λ n, bool_decide (0 < n)) counts, sum_list counts).
End ops.
