(* ===== verification/DhtIndex.v ===== *)
(** * The publisher index against a recount

    [PublisherIndex] is kept by [charge] and [discharge] alone; here each is
    shown to follow the records it is called for, so that the index equals what
    a scan of the store would count. *)
From S2P Require Import Prelude NodeId Addr Contact Record DhtStore.

Section index.
Context `{Env : StoreEnv}.
Local Open Scope Z_scope.

(** ** Sums over records *)
Definition authored (p : bytes) (r : DhtRecord) : bool := bool_decide (publisher_key r = p).
Definition bytes_by (p : bytes) (l : list DhtRecord) : Z := total_cost (retain (authored p) l).
Definition heads_by (p : bytes) (l : list DhtRecord) : Z :=
  Z.of_nat (count_if (λ r, authored p r && is_feed_head (data r)) l).

Lemma cost_of_pos r : 0 < cost_of r.
Proof. unfold cost_of, record_cost. pose proof size_of_record_ok. lia. Qed.

Lemma total_cost_cons r l : total_cost (r :: l) = cost_of r + total_cost l.
Proof. done. Qed.
Lemma total_cost_app l k : total_cost (l ++ k) = total_cost l + total_cost k.
Proof. induction l as [|r l IH]; [done|]. cbn [app]. rewrite !total_cost_cons, IH. lia. Qed.
#[export] Instance total_cost_proper : Proper ((≡ₚ) ==> (=)) total_cost.
Proof. induction 1; rewrite ?total_cost_cons in *; [done|lia..|congruence]. Qed.
Lemma total_cost_nonneg l : 0 ≤ total_cost l.
Proof.
  induction l as [|r l IH]; [done|]. rewrite total_cost_cons. pose proof (cost_of_pos r). lia.
Qed.
Lemma total_cost_retain p l : total_cost (retain p l) ≤ total_cost l.
Proof.
  unfold retain. induction l as [|r l IH]; [done|]. rewrite filter_cons, total_cost_cons.
  pose proof (cost_of_pos r). case_decide; rewrite ?total_cost_cons; lia.
Qed.
Lemma length_total_cost l : Z.of_nat (length l) ≤ total_cost l.
Proof.
  induction l as [|r l IH]; [done|]. rewrite total_cost_cons. cbn [length].
  pose proof (cost_of_pos r). lia.
Qed.

Lemma bytes_by_cons p r l :
  bytes_by p (r :: l) = (if authored p r then cost_of r else 0) + bytes_by p l.
Proof.
  unfold bytes_by, retain. rewrite filter_cons. destruct (authored p r); simpl; lia.
Qed.
#[export] Instance bytes_by_proper p : Proper ((≡ₚ) ==> (=)) (bytes_by p).
Proof. intros l k H. unfold bytes_by, retain. by rewrite H. Qed.
#[export] Instance heads_by_proper p : Proper ((≡ₚ) ==> (=)) (heads_by p).
Proof. intros l k H. unfold heads_by. by rewrite H. Qed.
Lemma heads_by_cons p r l :
  heads_by p (r :: l) = (if authored p r && is_feed_head (data r) then 1 else 0) + heads_by p l.
Proof. unfold heads_by. rewrite count_if_cons. destruct (_ && _); lia. Qed.

Lemma heads_le_bytes p l : 0 ≤ heads_by p l ≤ bytes_by p l.
Proof.
  induction l as [|r l IH]; [done|]. rewrite heads_by_cons, bytes_by_cons.
  pose proof (cost_of_pos r). destruct (authored p r), (is_feed_head (data r)); simpl; lia.
Qed.
Lemma bytes_by_le_total p l : bytes_by p l ≤ total_cost l.
Proof. apply total_cost_retain. Qed.

Lemma holds_cons p r l : holds p (r :: l) = authored p r || holds p l.
Proof. done. Qed.
Lemma holds_app p l k : holds p (l ++ k) = holds p l || holds p k.
Proof. apply existsb_app. Qed.
Lemma holds_spec p l : holds p l = true ↔ ∃ r, r ∈ l ∧ publisher_key r = p.
Proof.
  unfold holds. rewrite existsb_exists. split; intros (r & Hr & Hp); exists r.
  - apply list_elem_of_In in Hr. by apply bool_decide_eq_true in Hp.
  - apply list_elem_of_In in Hr. by rewrite bool_decide_eq_true.
Qed.
#[export] Instance holds_proper p : Proper ((≡ₚ) ==> (=)) (holds p).
Proof.
  intros l k H. apply eq_true_iff_eq. rewrite !holds_spec. by setoid_rewrite H.
Qed.

(** ** Tracking *)
Definition load_of (κ : bytes → Z) (R : list DhtRecord) (p : bytes) : PublisherLoad :=
  mkLoad (κ p) (bytes_by p R) (heads_by p R).

(** [i] counts [κ p] keys and the records [R] for every publisher [p], and how
    many are past a share. *)
Record tracks (i : PublisherIndex) (κ : bytes → Z) (R : list DhtRecord) : Prop := mkTracks {
  tracks_load : ∀ p, load i !! p =
    if decide (κ p = 0 ∧ bytes_by p R = 0) then None else Some (load_of κ R p);
  tracks_over : over_share_count i = Z.of_nat (count_if (crowds i) (map_to_list (load i)));
}.

Lemma tracks_ext i κ κ' R R' :
  (∀ p, κ p = κ' p) → R ≡ₚ R' → tracks i κ R → tracks i κ' R'.
Proof.
  intros Hκ HR [H1 H2]. split; [|done]. intros p. rewrite H1. unfold load_of.
  by rewrite (bytes_by_proper p _ _ HR), (heads_by_proper p _ _ HR), Hκ.
Qed.

(** The index sees a record's publisher and body only. *)
Lemma tracks_same i κ κ' R R' :
  (∀ p, κ p = κ' p) → (∀ p, bytes_by p R = bytes_by p R') → (∀ p, heads_by p R = heads_by p R') →
  tracks i κ R → tracks i κ' R'.
Proof.
  intros Hκ Hb Hh [H1 H2]. split; [|done]. intros p. rewrite H1. unfold load_of. by rewrite Hκ, Hb, Hh.
Qed.

(** The load the index has for [p], zero where it has none. *)
Lemma tracks_default i κ R p :
  tracks i κ R → default PublisherLoad_default (load i !! p) = load_of κ R p.
Proof.
  intros [H _]. rewrite H. case_decide as E; [|done]. destruct E as [E1 E2].
  unfold load_of, PublisherLoad_default. simpl. rewrite E1, E2. f_equal.
  pose proof (heads_le_bytes p R). lia.
Qed.

(** The number of crowding publishers when one load changes. *)
Lemma crowds_insert (i : PublisherIndex) m p l :
  m !! p = None →
  count_if (crowds i) (map_to_list (<[p := l]> m)) =
  ((if crowds i (p, l) then 1 else 0) + count_if (crowds i) (map_to_list m))%nat.
Proof.
  intros Hp. rewrite (count_if_proper _ _ _ (map_to_list_insert m p l Hp)), count_if_cons.
  by destruct (crowds i (p, l)).
Qed.

Lemma crowds_split (i : PublisherIndex) m p :
  count_if (crowds i) (map_to_list m) =
  ((if match m !! p with Some l => crowds i (p, l) | None => false end then 1 else 0) +
   count_if (crowds i) (map_to_list (delete p m)))%nat.
Proof.
  destruct (m !! p) as [l|] eqn:E.
  - rewrite <- (insert_delete_id m p l E) at 1. by rewrite crowds_insert by apply lookup_delete_eq.
  - by rewrite delete_id.
Qed.

Lemma crowds_same (i j : PublisherIndex) l :
  local i = local j → key_share i = key_share j → byte_share i = byte_share j →
  count_if (crowds i) l = count_if (crowds j) l.
Proof.
  intros E1 E2 E3. unfold count_if. f_equal. apply retain_ext. intros x _.
  unfold crowds, counted, load_over. by rewrite E1, E2, E3.
Qed.

(** ** [charge] and [discharge] *)
Definition shifted (κ : bytes → Z) (p : bytes) (n : Z) : bytes → Z :=
  λ q, if decide (q = p) then κ q + n else κ q.

Lemma over_step (i : PublisherIndex) m p o n :
  over_share_count i = Z.of_nat (count_if (crowds i) (map_to_list m)) → m !! p = o →
  let was := match o with Some l => crowds i (p, l) | None => false end in
  let now := match n with Some l => crowds i (p, l) | None => false end in
  let m' := match n with Some l => <[p := l]> m | None => delete p m end in
  Z.of_nat (count_if (crowds i) (map_to_list m')) =
  over_share_count i + (if now && negb was then 1 else if was && negb now then -1 else 0).
Proof.
  intros Hc <-. simpl. rewrite Hc, (crowds_split i m p).
  destruct n as [l|].
  - rewrite <- insert_delete_eq, crowds_insert by apply lookup_delete_eq.
    destruct (crowds i (p, l)), (match m !! p with Some l => _ | None => _ end); simpl; lia.
  - destruct (match m !! p with Some l => _ | None => _ end); simpl; lia.
Qed.

Lemma crowds_empty_load (i : PublisherIndex) p :
  0 < key_share i → 0 < byte_share i → crowds i (p, PublisherLoad_default) = false.
Proof.
  intros Hk Hb. unfold crowds, load_over. simpl.
  rewrite andb_false_iff. right. rewrite orb_false_iff, !Z.leb_gt. lia.
Qed.

Definition shares_ok (i : PublisherIndex) : Prop := 0 < key_share i ∧ 0 < byte_share i.

Lemma authored_self r : authored (publisher_key r) r = true.
Proof. by apply bool_decide_eq_true. Qed.

(** The load of [p] after one record more, or less. *)
Lemma load_of_cons κ R r n :
  load_of (shifted κ (publisher_key r) n) (r :: R) (publisher_key r) =
  mkLoad (κ (publisher_key r) + n) (cost_of r + bytes_by (publisher_key r) R)
    ((if is_feed_head (data r) then 1 else 0) + heads_by (publisher_key r) R).
Proof.
  unfold load_of, shifted. rewrite decide_True by done.
  by rewrite bytes_by_cons, heads_by_cons, authored_self.
Qed.

(** What is recorded for the others does not change. *)
Definition tracked (κ : bytes → Z) (R : list DhtRecord) (p : bytes) : option PublisherLoad :=
  if decide (κ p = 0 ∧ bytes_by p R = 0) then None else Some (load_of κ R p).

Lemma tracked_other κ R r n p :
  p ≠ publisher_key r → tracked (shifted κ (publisher_key r) n) (r :: R) p = tracked κ R p ∧
                        tracked (shifted κ (publisher_key r) n) R p = tracked κ (r :: R) p.
Proof.
  intros Hp. unfold tracked, load_of.
  assert (shifted κ (publisher_key r) n p = κ p) as -> by (by apply decide_False).
  assert (bytes_by p (r :: R) = bytes_by p R ∧ heads_by p (r :: R) = heads_by p R) as [-> ->].
  { rewrite bytes_by_cons, heads_by_cons. unfold authored. by rewrite bool_decide_false. }
  done.
Qed.

Lemma tracks_charge i κ R r first :
  tracks i κ R → shares_ok i → (∀ p, 0 ≤ κ p) →
  κ (publisher_key r) < usize_max → total_cost (r :: R) ≤ usize_max →
  over_share_count i < usize_max →
  tracks (charge i (publisher_key r) (cost_of r) first (is_feed_head (data r)))
    (shifted κ (publisher_key r) (if first then 1 else 0)) (r :: R).
Proof.
  intros Ht [Hks Hbs] Hκ Hk Hb Ho. pose proof (tracks_default i κ R (publisher_key r) Ht) as Hd.
  destruct Ht as [H1 H2]. set (p := publisher_key r) in *.
  set (n := if first then 1 else 0). set (l' := load_of (shifted κ p n) (r :: R) p).
  pose proof (cost_of_pos r) as Hc. pose proof (heads_le_bytes p R) as Hh.
  pose proof (bytes_by_le_total p R) as Hbt. rewrite total_cost_cons in Hb.
  assert (l' = mkLoad (if first then usize_saturating_add (κ p) 1 else κ p)
                 (usize_saturating_add (bytes_by p R) (cost_of r))
                 (if is_feed_head (data r) then usize_saturating_add (heads_by p R) 1
                  else heads_by p R)) as El.
  { unfold l', p. rewrite load_of_cons. unfold usize_saturating_add, n. fold p.
    f_equal; [destruct first; lia|lia|destruct (is_feed_head _); lia]. }
  pose proof (over_step i (load i) p _ (Some l') H2 eq_refl) as Hstep. simpl in Hstep.
  assert (match load i !! p with Some l => crowds i (p, l) | None => false end =
          crowds i (p, load_of κ R p)) as Ewas.
  { rewrite <- Hd. destruct (load i !! p); [done|]. simpl. by rewrite crowds_empty_load. }
  rewrite Ewas in Hstep.
  unfold charge. fold p. rewrite Hd. cbn [keys load_bytes feed_heads load_of]. rewrite <- El. split.
  - intros q. simpl. destruct (decide (q = p)) as [->|Hq].
    + rewrite lookup_insert_eq. fold n. fold l'. rewrite decide_False; [done|].
      rewrite bytes_by_cons. unfold p. rewrite authored_self. fold p. lia.
    + rewrite lookup_insert_ne by done. rewrite H1. symmetry. by apply (tracked_other κ R r n q).
  - simpl. rewrite (crowds_same _ i) by done. rewrite Hstep.
    change (counted i p && load_over i l') with (crowds i (p, l')).
    change (counted i p && load_over i (load_of κ R p)) with (crowds i (p, load_of κ R p)).
    unfold usize_saturating_add.
    assert (crowds i (p, load_of κ R p) = true → crowds i (p, l') = true) as Hmono.
    { unfold crowds, load_over. rewrite El. simpl. rewrite !andb_true_iff, !orb_true_iff, !Z.leb_le.
      unfold usize_saturating_add. intros [? Hor]. split; [done|]. destruct first; lia. }
    destruct (crowds i (p, load_of κ R p)), (crowds i (p, l')); simpl; first [lia|by specialize (Hmono eq_refl)].
Qed.

Lemma tracks_discharge i κ R r last :
  tracks i κ (r :: R) → shares_ok i → (∀ p, 0 ≤ κ p) →
  (last = true → 0 < κ (publisher_key r)) →
  tracks (discharge i (publisher_key r) (cost_of r) last (is_feed_head (data r)))
    (shifted κ (publisher_key r) (if last then -1 else 0)) R.
Proof.
  intros [H1 H2] [Hks Hbs] Hκ Hlast. set (p := publisher_key r) in *.
  set (n := if last then -1 else 0). set (l' := load_of (shifted κ p n) R p).
  pose proof (cost_of_pos r) as Hc. pose proof (heads_le_bytes p R) as Hh.
  assert (bytes_by p (r :: R) = cost_of r + bytes_by p R ∧
          heads_by p (r :: R) = (if is_feed_head (data r) then 1 else 0) + heads_by p R) as [Eb Eh].
  { unfold p. by rewrite bytes_by_cons, heads_by_cons, authored_self. }
  assert (load i !! p = Some (load_of κ (r :: R) p)) as Hp.
  { rewrite H1. apply decide_False. lia. }
  assert (l' = mkLoad (if last then usize_saturating_sub (κ p) 1 else κ p)
                 (usize_saturating_sub (bytes_by p (r :: R)) (cost_of r))
                 (if is_feed_head (data r) then usize_saturating_sub (heads_by p (r :: R)) 1
                  else heads_by p (r :: R))) as El.
  { unfold l', load_of, shifted, usize_saturating_sub, n. rewrite decide_True, Eb, Eh by done.
    f_equal; [destruct last; [specialize (Hlast eq_refl)|]; lia|lia|destruct (is_feed_head _); lia]. }
  assert (keys l' = shifted κ p n p ∧ load_bytes l' = bytes_by p R) as [Ek Elb] by done.
  unfold discharge. rewrite Hp. cbn [keys load_bytes feed_heads load_of]. rewrite <- El.
  set (gone := ((if last then usize_saturating_sub (κ p) 1 else κ p) =? 0) &&
               (usize_saturating_sub (bytes_by p (r :: R)) (cost_of r) =? 0)).
  assert (gone = true ↔ keys l' = 0 ∧ load_bytes l' = 0) as Hgone
    by (rewrite El; unfold gone; rewrite andb_true_iff, !Z.eqb_eq; done).
  pose proof (over_step i (load i) p _ (if gone then None else Some l') H2 Hp) as Hstep.
  cbn [fst snd] in Hstep.
  assert (match (if gone then None else Some l') with Some l => crowds i (p, l) | None => false end =
          crowds i (p, l')) as Enow.
  { destruct gone; [|done]. destruct Hgone as [Hg _]. destruct (Hg eq_refl) as [G1 G2].
    unfold crowds, load_over. cbn [fst snd]. rewrite G1, G2. symmetry.
    rewrite andb_false_iff. right. rewrite orb_false_iff, !Z.leb_gt. lia. }
  rewrite Enow in Hstep. split.
  - intros q. cbn [load]. destruct (decide (q = p)) as [->|Hq].
    + destruct gone; [rewrite lookup_delete_eq|rewrite lookup_insert_eq].
      * symmetry. apply decide_True. by apply Hgone.
      * symmetry. apply decide_False. intros H. by apply Hgone in H.
    + assert ((if gone then delete p (load i) else <[p := l']> (load i)) !! q = load i !! q) as ->
        by (destruct gone; [by rewrite lookup_delete_ne|by rewrite lookup_insert_ne]).
      rewrite H1. symmetry. by apply (tracked_other κ R r n q).
  - cbn [load over_share_count]. rewrite (crowds_same _ i) by done.
    replace (if gone then delete p (load i) else <[p := l']> (load i)) with
      (match (if gone then None else Some l') with
       | Some l => <[p := l]> (load i) | None => delete p (load i) end) by (by destruct gone).
    rewrite Hstep. change (counted i p && load_over i l') with (crowds i (p, l')).
    change (counted i p && load_over i (load_of κ (r :: R) p)) with (crowds i (p, load_of κ (r :: R) p)).
    assert (crowds i (p, l') = true → crowds i (p, load_of κ (r :: R) p) = true) as Hmono.
    { unfold crowds, load_over. rewrite El. simpl. rewrite !andb_true_iff, !orb_true_iff, !Z.leb_le.
      unfold usize_saturating_sub. intros [? Hor]. split; [done|]. specialize (Hκ p).
      destruct last; lia. }
    assert (crowds i (p, load_of κ (r :: R) p) = true → 1 ≤ over_share_count i) as Hpos.
    { intros Hcr. rewrite H2, (crowds_split i (load i) p), Hp, Hcr. lia. }
    unfold usize_saturating_sub.
    destruct (crowds i (p, load_of κ (r :: R) p)), (crowds i (p, l')); simpl;
      first [lia|specialize (Hpos eq_refl); lia|by specialize (Hmono eq_refl)].
Qed.

Lemma discharge_params i p n l h :
  key_share (discharge i p n l h) = key_share i ∧ byte_share (discharge i p n l h) = byte_share i ∧
  local (discharge i p n l h) = local i.
Proof. unfold discharge. by destruct (load i !! p). Qed.

Lemma shares_discharge i p n l h : shares_ok i → shares_ok (discharge i p n l h).
Proof. unfold shares_ok. destruct (discharge_params i p n l h) as (-> & -> & _). done. Qed.

(** What [release_notes] takes off a publisher's key count. *)
Definition gives_up (kept : list DhtRecord) (released : gset bytes) (gone : list DhtRecord)
    (p : bytes) : bool :=
  holds p gone && negb (holds p kept) && negb (bool_decide (p ∈ released)).

Lemma tracks_notes i κ κ' kept released gone R :
  tracks i κ (gone ++ R) → shares_ok i → (∀ p, 0 ≤ κ' p) →
  (∀ p, κ p = κ' p + (if gives_up kept released gone p then 1 else 0)) →
  tracks (discharge_notes i (release_notes kept released gone)) κ' R ∧
  shares_ok (discharge_notes i (release_notes kept released gone)).
Proof.
  revert i κ released. induction gone as [|r gone IH]; intros i κ released Ht Hs Hκ' Hκ.
  { split; [|done]. eapply tracks_ext; [|done|exact Ht]. intros p. rewrite Hκ. simpl. lia. }
  cbn [release_notes]. set (p := publisher_key r).
  set (last := negb (holds p kept) && negb (bool_decide (p ∈ released))).
  unfold discharge_notes. cbn [foldl discharge_note]. fold discharge_notes.
  assert (∀ q, gives_up kept released (r :: gone) q =
    if decide (q = p) then last else gives_up kept released gone q) as Hg.
  { intros q. unfold gives_up, last. rewrite holds_cons. unfold authored. case_decide as E.
    - subst q. by rewrite bool_decide_true.
    - by rewrite bool_decide_false by done. }
  eapply IH; [|by apply shares_discharge|done|].
  - apply tracks_discharge; [done|done| |].
    + intros q. rewrite Hκ. specialize (Hκ' q). destruct (gives_up _ _ _ q); lia.
    + intros Hl. fold p. rewrite Hκ, Hg, decide_True by done. rewrite Hl. specialize (Hκ' p). lia.
  - intros q. unfold shifted. fold p. rewrite Hκ, Hg. unfold gives_up. case_decide as E.
    + subst q. assert ((if holds p kept then released else {[p]} ∪ released) = released ∧ holds p kept = true ∨
        bool_decide (p ∈ (if holds p kept then released else {[p]} ∪ released)) = true) as Hr.
      { destruct (holds p kept); [by left|right]. apply bool_decide_eq_true. set_solver. }
      unfold last. destruct Hr as [[-> Hk]|Hr].
      * rewrite Hk. simpl. destruct (holds p gone); simpl; lia.
      * rewrite Hr. simpl. rewrite andb_false_r. destruct (negb _ && _); lia.
    + assert (bool_decide (q ∈ (if holds p kept then released else {[p]} ∪ released)) =
              bool_decide (q ∈ released)) as ->; [|done].
      apply bool_decide_ext. destruct (holds p kept); [done|set_solver].
Qed.

(** ** The store's records *)
Definition rows (m : gmap bytes (list DhtRecord)) : list (bytes * list DhtRecord) := map_to_list m.
Definition all_records (m : gmap bytes (list DhtRecord)) : list DhtRecord := rows m ≫= snd.
Definition row_keys (l : list (bytes * list DhtRecord)) (p : bytes) : Z :=
  Z.of_nat (count_if (λ x, holds p x.2) l).
Definition keys_of (m : gmap bytes (list DhtRecord)) (p : bytes) : Z := row_keys (rows m) p.

Definition has (p : bytes) (l : list DhtRecord) : Z := if holds p l then 1 else 0.

Lemma rows_insert m k l : rows (<[k := l]> m) ≡ₚ (k, l) :: rows (delete k m).
Proof.
  unfold rows. rewrite <- insert_delete_eq, map_to_list_insert by apply lookup_delete_eq. done.
Qed.
Lemma rows_lookup m k l : m !! k = Some l → rows m ≡ₚ (k, l) :: rows (delete k m).
Proof. intros H. rewrite <- (insert_id m k l H) at 1. apply rows_insert. Qed.

Lemma row_keys_cons x l p : row_keys (x :: l) p = has p x.2 + row_keys l p.
Proof. unfold row_keys, has. rewrite count_if_cons. destruct (holds p x.2); lia. Qed.
#[export] Instance row_keys_proper : Proper ((≡ₚ) ==> pointwise_relation _ (=)) row_keys.
Proof. intros l k H p. unfold row_keys. by rewrite H. Qed.

Lemma keys_of_insert m k l p : keys_of (<[k := l]> m) p = has p l + keys_of (delete k m) p.
Proof. unfold keys_of. rewrite (row_keys_proper _ _ (rows_insert m k l) p). apply row_keys_cons. Qed.
Lemma keys_of_lookup m k l p : m !! k = Some l → keys_of m p = has p l + keys_of (delete k m) p.
Proof.
  intros H. unfold keys_of. rewrite (row_keys_proper _ _ (rows_lookup m k l H) p).
  apply row_keys_cons.
Qed.
Lemma all_records_insert m k l : all_records (<[k := l]> m) ≡ₚ l ++ all_records (delete k m).
Proof. unfold all_records. by rewrite rows_insert, bind_cons. Qed.
Lemma all_records_lookup m k l : m !! k = Some l → all_records m ≡ₚ l ++ all_records (delete k m).
Proof. intros H. unfold all_records. by rewrite (rows_lookup m k l H), bind_cons. Qed.

Lemma keys_of_nonneg m p : 0 ≤ keys_of m p.
Proof. unfold keys_of, row_keys. lia. Qed.
Lemma has_nonneg p l : 0 ≤ has p l.
Proof. unfold has. destruct (holds p l); lia. Qed.
Lemma elem_of_all_records m r :
  r ∈ all_records m ↔ ∃ k l, m !! k = Some l ∧ r ∈ l.
Proof.
  unfold all_records, rows. rewrite list_elem_of_bind. split.
  - intros ([k l] & Hr & Hx%elem_of_map_to_list). eauto.
  - intros (k & l & Hm & Hr). exists (k, l). by rewrite elem_of_map_to_list.
Qed.

(** The index describes the records of the store. *)
Definition index_tracks (i : PublisherIndex) (m : gmap bytes (list DhtRecord)) : Prop :=
  tracks i (keys_of m) (all_records m) ∧ shares_ok i.

(** [m] is [m0] with the records [l] under one more key (none when empty). *)
Record extends (m0 : gmap bytes (list DhtRecord)) (l : list DhtRecord)
    (m : gmap bytes (list DhtRecord)) : Prop := mkExtends {
  extends_keys : ∀ p, keys_of m p = has p l + keys_of m0 p;
  extends_records : all_records m ≡ₚ l ++ all_records m0;
}.

Lemma extends_lookup m k : extends (delete k m) (default [] (m !! k)) m.
Proof.
  destruct (m !! k) as [l|] eqn:E; simpl.
  - split; [intros p; by apply keys_of_lookup|by apply all_records_lookup].
  - rewrite delete_id by done. split; [done|done].
Qed.
Lemma extends_insert m k l : extends (delete k m) l (<[k := l]> m).
Proof. split; [intros p; apply keys_of_insert|apply all_records_insert]. Qed.
Lemma extends_nil m : extends m [] m.
Proof. done. Qed.

Lemma extends_perm m0 l l' m : l ≡ₚ l' → extends m0 l m → extends m0 l' m.
Proof.
  intros Hl [H1 H2]. split; [|by rewrite H2, Hl].
  intros p. rewrite H1. unfold has. by rewrite (holds_proper p _ _ Hl).
Qed.

Lemma extends_total m0 l m : extends m0 l m → total_cost (all_records m) = total_cost l + total_cost (all_records m0).
Proof. intros [_ H]. by rewrite H, total_cost_app. Qed.

(** Records [gone] leaving one key. *)
Lemma index_release i m0 m m' kept gone l :
  index_tracks i m → extends m0 l m → extends m0 kept m' → l ≡ₚ gone ++ kept →
  index_tracks (discharge_notes i (release_notes kept ∅ gone)) m'.
Proof.
  intros [Ht Hs] [K1 R1] [K2 R2] Hl. eapply tracks_notes; [|done| |].
  - eapply tracks_ext; [intros p; reflexivity| |exact Ht].
    rewrite R1, Hl, <- app_assoc. by rewrite <- R2.
  - apply keys_of_nonneg.
  - intros p. rewrite K1, K2. unfold has, gives_up. rewrite (holds_proper p _ _ Hl), holds_app.
    rewrite bool_decide_false by (apply not_elem_of_empty). simpl. rewrite andb_true_r.
    destruct (holds p gone), (holds p kept); simpl; lia.
Qed.

(** One record leaving, [last] saying whether its publisher keeps none here. *)
Lemma index_release_one i m0 m m' r kept :
  index_tracks i m → extends m0 (r :: kept) m → extends m0 kept m' →
  index_tracks (discharge i (publisher_key r) (cost_of r)
                  (negb (holds (publisher_key r) kept)) (is_feed_head (data r))) m'.
Proof.
  intros Hi H1 H2. pose proof (index_release i m0 m m' kept [r] (r :: kept) Hi H1 H2) as H.
  unfold discharge_notes in H. cbn [release_notes foldl discharge_note app] in H.
  rewrite (bool_decide_false (publisher_key r ∈ (∅ : gset bytes))), andb_true_r in H
    by apply not_elem_of_empty. by apply H.
Qed.

Lemma publishers_bound i κ R :
  tracks i κ R → (∀ p, κ p ≠ 0 → holds p R = true) → over_share_count i ≤ total_cost R.
Proof.
  intros [H1 H2] Hκ. rewrite H2. etransitivity; [|apply length_total_cost].
  apply inj_le. unfold count_if. etransitivity; [apply length_retain|].
  rewrite <- (length_fmap fst). rewrite <- (length_fmap publisher_key R).
  apply submseteq_length, NoDup_submseteq; [apply NoDup_fst_map_to_list|].
  intros p (x & -> & Hx)%list_elem_of_fmap. destruct x as [p l]. apply elem_of_map_to_list in Hx.
  rewrite H1 in Hx. case_decide as E; [done|].
  assert (holds p R = true) as (r & Hr & Hp)%holds_spec.
  { destruct (decide (κ p = 0)) as [E0|E0]; [|auto].
    destruct (holds p R) eqn:Hh; [done|]. exfalso. apply E. split; [done|].
    unfold bytes_by. assert (retain (authored p) R = []) as ->; [|done].
    clear -Hh. unfold retain. induction R as [|r R IH]; [done|]. rewrite holds_cons in Hh.
    apply orb_false_iff in Hh as [Ha Hh]. rewrite filter_cons_False by congruence. auto. }
  simpl. apply list_elem_of_fmap. eauto.
Qed.

Lemma keys_of_holds m p : keys_of m p ≠ 0 → holds p (all_records m) = true.
Proof.
  unfold keys_of, row_keys. intros H. destruct (holds p (all_records m)) eqn:E; [done|].
  exfalso. apply H. rewrite count_if_none; [done|]. apply Forall_forall. intros [k l] Hx. simpl.
  destruct (holds p l) eqn:Hl; [|done]. apply holds_spec in Hl as (r & Hr & Hp).
  apply elem_of_map_to_list in Hx.
  assert (holds p (all_records m) = true) by (apply holds_spec; exists r; rewrite elem_of_all_records; eauto).
  congruence.
Qed.

Lemma keys_of_bound m p : keys_of m p ≤ total_cost (all_records m).
Proof.
  unfold keys_of, row_keys, all_records. etransitivity; [|apply length_total_cost].
  induction (rows m) as [|x l IH]; [done|]. rewrite bind_cons, length_app, count_if_cons.
  destruct (holds p x.2) eqn:E; [|lia]. apply holds_spec in E as (r & Hr & _).
  destruct x.2; [by apply not_elem_of_nil in Hr|simpl; lia].
Qed.

(** One record entering under a key. *)
Lemma index_charge i m0 m m' r kept :
  index_tracks i m → extends m0 kept m → extends m0 (r :: kept) m' →
  total_cost (all_records m) + cost_of r < usize_max →
  index_tracks (charge i (publisher_key r) (cost_of r) (negb (holds (publisher_key r) kept))
                  (is_feed_head (data r))) m'.
Proof.
  intros [Ht Hs] [K1 R1] [K2 R2] Hb. pose proof (cost_of_pos r). split; [|done].
  eapply tracks_ext; [| |apply (tracks_charge i (keys_of m) (all_records m) r); [done|done|..]].
  - intros p. unfold shifted. rewrite K2, K1. unfold has. rewrite holds_cons. unfold authored.
    destruct (decide (p = publisher_key r)) as [->|Hp].
    + rewrite bool_decide_true by done. destruct (holds _ kept); simpl; lia.
    + rewrite bool_decide_false by done. simpl. lia.
  - by rewrite R2, R1.
  - apply keys_of_nonneg.
  - pose proof (keys_of_bound m (publisher_key r)). lia.
  - rewrite total_cost_cons. lia.
  - pose proof (publishers_bound i _ _ Ht (keys_of_holds m)). lia.
Qed.

Lemma discharge_over_le i p n l h :
  0 ≤ over_share_count i → over_share_count (discharge i p n l h) ≤ over_share_count i.
Proof.
  intros H. unfold discharge, usize_saturating_sub. destruct (load i !! p); simpl; [|done].
  destruct (_ && negb _); lia.
Qed.

(** One record taking the place of another of the same publisher under a key. *)
Lemma index_swap i m0 m m' old new kept :
  index_tracks i m → extends m0 (old :: kept) m → extends m0 (new :: kept) m' →
  publisher_key old = publisher_key new → total_cost (all_records m) + cost_of new < usize_max →
  index_tracks
    (charge (discharge i (publisher_key new) (cost_of old) false (is_feed_head (data old)))
       (publisher_key new) (cost_of new) false (is_feed_head (data new))) m'.
Proof.
  intros [Ht Hs] [K1 R1] [K2 R2] Hp Hb. pose proof (cost_of_pos old). pose proof (cost_of_pos new).
  pose proof (publishers_bound i _ _ Ht (keys_of_holds m)) as Ho.
  assert (0 ≤ over_share_count i) as Hnn by (rewrite (tracks_over _ _ _ Ht); lia).
  assert (tracks i (keys_of m) (old :: kept ++ all_records m0)) as Ht1
    by (eapply tracks_ext; [reflexivity|exact R1|exact Ht]).
  assert (total_cost (all_records m) = cost_of old + total_cost (kept ++ all_records m0)) as Hc
    by (by rewrite R1).
  pose proof (tracks_discharge _ _ _ old false Ht1 Hs (keys_of_nonneg m) ltac:(done)) as Hd.
  rewrite Hp in Hd. pose proof (discharge_over_le i (publisher_key new) (cost_of old) false
    (is_feed_head (data old)) Hnn) as Hle.
  pose proof (shares_discharge i (publisher_key new) (cost_of old) false (is_feed_head (data old)) Hs) as Hs'.
  assert (∀ p, shifted (keys_of m) (publisher_key new) 0 p = keys_of m p) as Hsh
    by (intros p; unfold shifted; case_decide; lia).
  split; [|done]. eapply tracks_ext; [| |eapply (tracks_charge _ _ _ new false Hd Hs')].
  - intros p. transitivity (keys_of m p); [unfold shifted; repeat case_decide; lia|].
    rewrite K1, K2. unfold has. rewrite !holds_cons. unfold authored. by rewrite Hp.
  - by rewrite R2.
  - intros p. rewrite Hsh. apply keys_of_nonneg.
  - rewrite Hsh. pose proof (keys_of_bound m (publisher_key new)). lia.
  - rewrite total_cost_cons. lia.
  - lia.
Qed.
End index.
