(* ===== verification/DhtStoreInv.v ===== *)
(** * The record store's invariant

    Every operation of [DhtStore] keeps the byte total and the publisher index
    equal to a recount, both budgets, the per-key and per-publisher limits, the
    signed identity of every record, and the over-estimate that lets a full
    store refuse a distant key at once. *)
From S2P Require Import Prelude NodeId Addr Contact Record DhtStore DhtIndex.
Local Open Scope Z_scope.

Section inv.
Context `{Env : StoreEnv} `{Order : HashOrder}.

Definition slot (r : DhtRecord) : bytes * bytes :=
  (publisher_key r, file_hash_from_record_data (data r)).

(** A record is what its signed body says it is, under the key that body names,
    and its signature was verified. *)
Record record_ok (k : bytes) (r : DhtRecord) : Prop := mkRecordOk {
  rec_identity : signed_identity_from_record_data (data r) = Some (k, publisher_key r, created_at r);
  rec_len : (length (data r) ≤ MAX_STORE_RECORD_BYTES)%nat;
  rec_signed : verify_record_signature (data r) (signature r) (publisher_key r) = true;
}.

Record row_ok (k : bytes) (l : list DhtRecord) : Prop := mkRowOk {
  row_records : Forall (record_ok k) l;
  row_len : (length l ≤ MAX_RECORDS_PER_KEY)%nat;
  row_slots : NoDup (slot <$> l);
  row_share : ∀ p, (count_if (authored p) l ≤ MAX_RECORDS_PER_PUBLISHER_PER_KEY)%nat;
}.

Lemma row_ok_sublist k l l' : l' `sublist_of` l → row_ok k l → row_ok k l'.
Proof.
  intros Hs [H1 H2 H3 H4]. split.
  - by eapply Forall_sublist.
  - apply sublist_length in Hs. lia.
  - eapply sublist_NoDup; [exact H3|]. by apply fmap_sublist.
  - intros p. specialize (H4 p). apply sublist_submseteq in Hs.
    pose proof (count_if_submseteq (authored p) _ _ Hs). lia.
Qed.

(** [furthest_key_distance] is at least the distance of every key held. *)
Definition bound_ok (s : DhtStore) : Prop :=
  ∀ b local k, furthest_key_distance s = Some b → store_local_id s = Some local →
    is_Some (entries s !! k) → bytes_le (xor16 local k) b = true.

(** What holds at every point of every operation. *)
Record core (s : DhtStore) : Prop := mkCore {
  core_index : index_tracks (publisher_index s) (entries s);
  core_bytes : resident_bytes s = total_cost (all_records (entries s));
  core_rows : ∀ k l, entries s !! k = Some l → row_ok k l ∧ l ≠ [];
  core_budgets : byte_budget s = MAX_STORE_BYTES ∧ key_budget s = MAX_KEYS;
}.

(** What holds between operations. *)
Record store_ok (s : DhtStore) : Prop := mkStoreOk {
  ok_core : core s;
  ok_bound : bound_ok s;
  ok_bytes : resident_bytes s ≤ MAX_STORE_BYTES;
  ok_keys : key_count s ≤ MAX_KEYS;
}.

Lemma foldl_sub l n :
  total_cost l ≤ n → foldl (λ n r, usize_saturating_sub n (cost_of r)) n l = n - total_cost l.
Proof.
  revert n. induction l as [|r l IH]; intros n Hn; cbn [foldl]; [cbn; lia|].
  rewrite total_cost_cons in *. pose proof (total_cost_nonneg l).
  unfold usize_saturating_sub at 2. rewrite IH; [lia|]. pose proof (cost_of_pos r). lia.
Qed.

(** ** Dropping a key *)
Lemma core_drop_key s k : core s → core (drop_key s k) ∧ entries (drop_key s k) = delete k (entries s).
Proof.
  intros [H1 H2 H3 H4]. unfold drop_key. destruct (entries s !! k) as [l|] eqn:E.
  2:{ split; [by split|]. by rewrite delete_id. }
  pose proof (extends_lookup (entries s) k) as He. rewrite E in He. simpl in He.
  pose proof (extends_total _ _ _ He) as Ht. split; [|done]. split; simpl; [| | |done].
  - eapply index_release; [exact H1|exact He|apply extends_nil|by rewrite app_nil_r].
  - rewrite foldl_sub; [lia|]. pose proof (total_cost_nonneg (all_records (delete k (entries s)))). lia.
  - intros j r [_ Hj]%lookup_delete_Some. auto.
Qed.

Lemma drop_key_frame s k :
  store_local_id (drop_key s k) = store_local_id s ∧
  furthest_key_distance (drop_key s k) = furthest_key_distance s ∧
  store_scale (drop_key s k) = store_scale s.
Proof. unfold drop_key. by destruct (entries s !! k). Qed.

Lemma core_drop_keys ks s :
  core s → core (foldl drop_key s ks) ∧ entries (foldl drop_key s ks) ⊆ entries s ∧
  store_local_id (foldl drop_key s ks) = store_local_id s ∧
  ∀ k, k ∉ ks → entries (foldl drop_key s ks) !! k = entries s !! k.
Proof.
  revert s. induction ks as [|k ks IH]; intros s Hc; simpl; [done|].
  destruct (core_drop_key s k Hc) as [H1 H2]. destruct (IH _ H1) as (K1 & K2 & K3 & K4).
  split; [done|]. split; [|split].
  - etransitivity; [exact K2|]. rewrite H2. apply delete_subseteq.
  - rewrite K3. apply drop_key_frame.
  - intros j [Hj Hjs]%not_elem_of_cons. by rewrite K4, H2, lookup_delete_ne by done.
Qed.

(** Fewer keys keep the bound. *)
Lemma bound_ok_subset s s' :
  bound_ok s → entries s' ⊆ entries s → store_local_id s' = store_local_id s →
  furthest_key_distance s' = furthest_key_distance s → bound_ok s'.
Proof.
  intros Hb Hsub El Ef b lo k H1 H2 [l Hl]. rewrite Ef in H1. rewrite El in H2.
  apply (Hb b lo k); [done..|]. exists l. by eapply lookup_weaken.
Qed.

(** The invariant does not look at refusal counters, cursor or tier. *)
Lemma core_ext s s' :
  entries s' = entries s → publisher_index s' = publisher_index s →
  resident_bytes s' = resident_bytes s → byte_budget s' = byte_budget s → key_budget s' = key_budget s →
  core s → core s'.
Proof. intros E1 E2 E3 E4 E5 [H1 H2 H3 H4]. split; rewrite ?E1, ?E2, ?E3, ?E4, ?E5; done. Qed.

Lemma store_ok_ext s s' :
  entries s' = entries s → publisher_index s' = publisher_index s →
  resident_bytes s' = resident_bytes s → byte_budget s' = byte_budget s → key_budget s' = key_budget s →
  store_local_id s' = store_local_id s → furthest_key_distance s' = furthest_key_distance s →
  store_ok s → store_ok s'.
Proof.
  intros E1 E2 E3 E4 E5 E6 E7 [H1 H2 H3 H4]. split.
  - by eapply core_ext.
  - eapply bound_ok_subset; [exact H2|by rewrite E1|done..].
  - by rewrite E3.
  - unfold key_count in *. by rewrite E1.
Qed.

(** ** The sweeps *)
Lemma tracks_rows i κ κ' (kept left : bytes * list DhtRecord → list DhtRecord) L R :
  tracks i κ ((L ≫= left) ++ R) → shares_ok i → (∀ p, 0 ≤ κ' p) →
  (∀ p, κ p = κ' p + Z.of_nat (count_if (λ x, gives_up (kept x) ∅ (left x) p) L)) →
  tracks (discharge_notes i (L ≫= λ x, release_notes (kept x) ∅ (left x))) κ' R ∧
  shares_ok (discharge_notes i (L ≫= λ x, release_notes (kept x) ∅ (left x))).
Proof.
  revert i κ. induction L as [|x L IH]; intros i κ Ht Hs Hκ' Hκ.
  { split; [|done]. eapply tracks_ext; [|done|exact Ht]. intros p. rewrite Hκ. cbn. lia. }
  rewrite bind_cons, <- app_assoc in Ht. rewrite bind_cons.
  unfold discharge_notes. rewrite foldl_app. fold discharge_notes.
  set (κ1 := λ p, κ' p + Z.of_nat (count_if (λ x, gives_up (kept x) ∅ (left x) p) L)).
  destruct (tracks_notes i κ κ1 (kept x) ∅ (left x) ((L ≫= left) ++ R)) as [H1 H2]; [done|done| | |].
  - intros p. unfold κ1. specialize (Hκ' p). lia.
  - intros p. unfold κ1. rewrite Hκ, count_if_cons. destruct (gives_up _ _ _ p); lia.
  - by apply (IH _ κ1).
Qed.

Lemma rows_omap (f : list DhtRecord → option (list DhtRecord)) m :
  rows (omap f m) ≡ₚ omap (λ x, pair x.1 <$> f x.2) (rows m).
Proof.
  apply NoDup_Permutation.
  - apply NoDup_map_to_list.
  - unfold rows. pose proof (NoDup_fst_map_to_list m) as Hn.
    induction (map_to_list m) as [|[k l] ls IH]; [constructor|].
    rewrite fmap_cons in Hn. apply NoDup_cons in Hn as [Hk Hn]. simpl.
    destruct (f l) as [y|]; simpl; [|auto]. apply NoDup_cons. split; [|auto].
    rewrite list_elem_of_omap. intros ([k' l'] & Hin & Hf). simpl in Hf.
    apply fmap_Some in Hf as (z & _ & E). simplify_eq. apply Hk, list_elem_of_fmap.
    by exists (k', l').
  - intros [k y]. unfold rows. rewrite elem_of_map_to_list, lookup_omap, list_elem_of_omap. split.
    + intros (l & Hl & Hf)%bind_Some. exists (k, l). rewrite elem_of_map_to_list. simpl. by rewrite Hf.
    + intros ([k' l] & Hin%elem_of_map_to_list & Hf). simpl in Hf.
      apply fmap_Some in Hf as (z & Hz & E). simplify_eq. by rewrite Hin.
Qed.

Section sweep.
Context (gone : DhtRecord → bool).
Definition kept_of (l : list DhtRecord) : list DhtRecord := retain (λ r, negb (gone r)) l.
Definition left_of (l : list DhtRecord) : list DhtRecord := retain gone l.
Definition swept (l : list DhtRecord) : option (list DhtRecord) :=
  if bool_decide (kept_of l = []) then None else Some (kept_of l).

Lemma split_perm l : l ≡ₚ left_of l ++ kept_of l.
Proof.
  induction l as [|r l IH]; [done|]. unfold left_of, kept_of, retain in *. rewrite !filter_cons.
  destruct (gone r); simpl; [by rewrite IH at 1|].
  rewrite <- Permutation_middle. by rewrite IH at 1.
Qed.

Lemma kept_rows (L : list (bytes * list DhtRecord)) :
  (omap (λ x, pair x.1 <$> swept x.2) L ≫= snd) = L ≫= (kept_of ∘ snd) ∧
  ∀ p, row_keys (omap (λ x, pair x.1 <$> swept x.2) L) p =
       Z.of_nat (count_if (λ x, holds p (kept_of x.2)) L).
Proof.
  set (g := λ x : bytes * list DhtRecord, pair x.1 <$> swept x.2).
  induction L as [|x L [IH1 IH2]]; [done|].
  assert (omap g (x :: L) = match g x with Some y => y :: omap g L | None => omap g L end) as -> by done.
  rewrite (bind_cons (kept_of ∘ snd)). cbn [compose]. destruct (g x) as [y|] eqn:Eg; unfold g, swept in Eg;
    case_bool_decide as E; try done; simpl in Eg; simplify_eq.
  - rewrite bind_cons, IH1. split; [done|]. intros p. rewrite row_keys_cons, IH2, count_if_cons. cbn [snd].
    unfold has. destruct (holds p (kept_of x.2)); lia.
  - rewrite E, IH1. split; [done|]. intros p. rewrite IH2, count_if_cons. by rewrite E.
Qed.

Lemma sum_total (L : list (bytes * list DhtRecord)) :
  foldr Z.add 0 ((λ x, total_cost (left_of x.2)) <$> L) = total_cost (L ≫= (left_of ∘ snd)).
Proof.
  induction L as [|x L IH]; [done|]. rewrite fmap_cons, bind_cons, total_cost_app. simpl.
  by rewrite <- IH.
Qed.

(** The records a sweep keeps and those it drops. *)
Lemma sweep_records s :
  let L := hash_iter (entries s) in
  rows (entries (sweep gone s).2) ≡ₚ omap (λ x, pair x.1 <$> swept x.2) L ∧
  all_records (entries (sweep gone s).2) ≡ₚ L ≫= (kept_of ∘ snd) ∧
  all_records (entries s) ≡ₚ (L ≫= (left_of ∘ snd)) ++ (L ≫= (kept_of ∘ snd)).
Proof.
  cbv zeta. set (L := hash_iter (entries s)).
  assert (L ≡ₚ rows (entries s)) as HL by apply hash_iter_perm.
  assert (rows (entries (sweep gone s).2) ≡ₚ omap (λ x, pair x.1 <$> swept x.2) L) as Hm'
    by (rewrite HL, <- rows_omap; done).
  split; [done|]. split.
  - unfold all_records. by rewrite Hm', (proj1 (kept_rows L)).
  - unfold all_records. rewrite <- HL. clear. induction L as [|x L IH]; [done|].
    rewrite !bind_cons. simpl. rewrite IH, (split_perm x.2) at 1.
    rewrite <- !app_assoc. apply Permutation_app_head.
    rewrite !app_assoc. apply Permutation_app_tail, Permutation_app_comm.
Qed.

Lemma core_sweep s :
  core s → core (sweep gone s).2 ∧ entries (sweep gone s).2 = omap swept (entries s).
Proof.
  intros [[Ht Hs] H2 H3 H4]. destruct (sweep_records s) as (Hm' & Ha & Hall). unfold sweep in *. split; [|done].
  set (L := hash_iter (entries s)) in *. set (m' := omap _ (entries s)) in *. cbn [snd] in Hm', Ha.
  change (entries _) with m' in Hm', Ha.
  assert (L ≡ₚ rows (entries s)) as HL by apply hash_iter_perm. destruct (kept_rows L) as [_ Eκ].
  split; simpl; [| | |done].
  - eapply (tracks_rows _ (keys_of (entries s)) _ (kept_of ∘ snd) (left_of ∘ snd)); [|done|..].
    + eapply tracks_ext; [reflexivity| |exact Ht]. by rewrite Hall, Ha.
    + apply keys_of_nonneg.
    + intros p. unfold keys_of. rewrite (row_keys_proper _ _ Hm' p), Eκ, <- (row_keys_proper _ _ HL p).
      unfold row_keys. rewrite <- Nat2Z.inj_add. f_equal. clear. induction L as [|x L IH]; [done|].
      rewrite !count_if_cons, IH. unfold gives_up. cbn [compose]. rewrite bool_decide_false by set_solver.
      rewrite (holds_proper p _ _ (split_perm x.2)), holds_app, andb_true_r.
      destruct (holds p (left_of x.2)), (holds p (kept_of x.2)); simpl; lia.
  - change (foldr Z.add 0 ((λ x, total_cost (left_of x.2)) <$> L)) with
      (foldr Z.add 0 ((λ x : bytes * list DhtRecord, total_cost (left_of x.2)) <$> L)).
    rewrite sum_total, H2, Hall, total_cost_app, Ha.
    unfold usize_saturating_sub. pose proof (total_cost_nonneg (L ≫= (kept_of ∘ snd))). lia.
  - intros k l Hl. unfold m' in Hl. rewrite lookup_omap in Hl.
    apply bind_Some in Hl as (l0 & Hl0 & Hl). case_bool_decide; [done|]. simplify_eq.
    split; [|done]. destruct (H3 k l0 Hl0) as [Hr _]. eapply row_ok_sublist; [|exact Hr]. apply retain_sublist.
Qed.
End sweep.

Lemma omap_subset_size (f : list DhtRecord → option (list DhtRecord)) (m : gmap bytes (list DhtRecord)) :
  (size (omap f m) ≤ size m)%nat.
Proof.
  rewrite <- !size_dom. apply subseteq_size. intros k. rewrite !elem_of_dom, lookup_omap.
  intros [y (l & Hl & _)%bind_Some]. eauto.
Qed.

Lemma store_ok_sweep gone s : store_ok s → store_ok (sweep gone s).2.
Proof.
  intros [Hc Hb Hy Hk]. destruct (core_sweep gone s Hc) as [H1 H2]. split; [done| | |].
  - intros b lo k Eb El [l Hl]. apply (Hb b lo k); [done..|]. rewrite H2, lookup_omap in Hl.
    apply bind_Some in Hl as (l0 & Hl0 & _). eauto.
  - simpl. unfold usize_saturating_sub. rewrite sum_total.
    pose proof (total_cost_nonneg (hash_iter (entries s) ≫= (left_of gone ∘ snd))).
    unfold MAX_STORE_BYTES in *. lia.
  - unfold key_count in *. rewrite H2. pose proof (omap_subset_size (swept gone) (entries s)). lia.
Qed.

(** ** Making room for a key *)
Lemma bytes_gt_le a b : bytes_gt a b = true → bytes_le b a = true.
Proof. unfold bytes_gt. intros H%negb_true_iff. destruct (bytes_le_total a b); congruence. Qed.
Lemma bytes_not_gt a b : bytes_gt a b = false → bytes_le a b = true.
Proof. unfold bytes_gt. by intros H%negb_false_iff. Qed.
Lemma bytes_le_refl a : bytes_le a a = true.
Proof. by destruct (bytes_le_total a a). Qed.

(** What the scan knows about the rows [P] it has seen. *)
Record scanned_rows (i : PublisherIndex) (local : EmberNodeId) (P : list (bytes * list DhtRecord))
    (v : victims) : Prop := mkScanned {
  scan_none : furthest v = None → P = [] ∧ runner_up v = None;
  scan_furthest : ∀ k d, furthest v = Some (k, d) →
    d = xor16 local k ∧ k ∈ P.*1 ∧ (∀ x, x ∈ P → bytes_le (xor16 local x.1) d = true) ∧
    (∀ r, runner_up v = Some r → bytes_le r d = true) ∧
    (∀ x, x ∈ P → x.1 = k ∨ ∃ r, runner_up v = Some r ∧ bytes_le (xor16 local x.1) r = true);
  scan_crowding : ∀ k d, crowding v = Some (k, d) →
    ∃ l, (k, l) ∈ P ∧ held_by_crowders i l = true;
}.

Lemma none_or_gt_false d o : none_or_gt d o = false → ∃ r, o = Some r ∧ bytes_le d r = true.
Proof. destruct o as [r|]; simpl; [|done]. intros H%bytes_not_gt. eauto. Qed.
Lemma none_or_gt_true d r : none_or_gt d (Some r) = true → bytes_le r d = true.
Proof. apply bytes_gt_le. Qed.

Lemma scan_victim_step i look local P v x :
  scanned_rows i local P v → scanned_rows i local (P ++ [x]) (scan_victim i look local v x).
Proof.
  intros [H1 H2 H3]. destruct x as [key l]. unfold scan_victim. set (d := xor16 local key).
  set (c := if _ && _ && _ && _ then _ else _).
  assert (∀ k d, c = Some (k, d) → ∃ l', (k, l') ∈ P ++ [(key, l)] ∧ held_by_crowders i l' = true) as Hc.
  { intros k d' E. unfold c in E. destruct (_ && _ && _ && _) eqn:Ec.
    - simplify_eq. exists l. split; [apply elem_of_app; right; by apply list_elem_of_singleton|].
      unfold held_by_crowders. rewrite !andb_true_iff in Ec. by destruct Ec as [[[_ ->] _] ->].
    - destruct (H3 k d' E) as (l' & Hl & Hh). exists l'. rewrite elem_of_app. auto. }
  destruct (furthest v) as [[fk fd]|] eqn:Ef.
  2:{ destruct (H1 eq_refl) as [-> Er]. split; simpl; [done| |done]. intros k d' [= <- <-].
      repeat split; [set_solver|intros x ->%list_elem_of_singleton; apply bytes_le_refl|congruence|].
      intros x ->%list_elem_of_singleton. by left. }
  destruct (H2 fk fd eq_refl) as (E1 & E2 & E3 & E4 & E5).
  assert (∀ (Q : bytes * list DhtRecord → Prop), (∀ x, x ∈ P → Q x) → Q (key, l) →
            ∀ x, x ∈ P ++ [(key, l)] → Q x) as Hall.
  { intros Q HP Hx x. rewrite elem_of_app, list_elem_of_singleton. intros [?| ->]; auto. }
  destruct (bytes_gt d fd) eqn:Hgt; [|destruct (none_or_gt d (runner_up v)) eqn:Hr].
  - apply bytes_gt_le in Hgt. split; simpl; [done| |done]. intros k d' [= <- <-].
    split; [done|]. split; [rewrite fmap_app; set_solver|]. split; [|split].
    + apply Hall; [|apply bytes_le_refl]. intros x Hx. eapply bytes_le_trans; [by apply E3|done].
    + by intros r [= <-].
    + apply Hall; [|by left]. intros x Hx. right. exists fd. auto.
  - apply bytes_not_gt in Hgt. split; simpl; [done| |done]. intros k d' [= <- <-].
    split; [done|]. split; [rewrite fmap_app; set_solver|]. split; [by apply Hall|]. split.
    + by intros r [= <-].
    + apply Hall; [|right; exists d; split; [done|apply bytes_le_refl]]. intros x Hx.
      destruct (E5 x Hx) as [?|(r & Er & Hxr)]; [by left|right]. exists d. split; [done|].
      rewrite Er in Hr. apply none_or_gt_true in Hr. by eapply bytes_le_trans.
  - apply bytes_not_gt in Hgt. apply none_or_gt_false in Hr as (r & Er & Hdr).
    split; simpl; [done| |done]. intros k d' [= <- <-].
    split; [done|]. split; [rewrite fmap_app; set_solver|]. split; [by apply Hall|]. split; [done|].
    apply Hall; [done|]. right. eauto.
Qed.

Lemma scan_victims_rows i look local L P v :
  scanned_rows i local P v → scanned_rows i local (P ++ L) (foldl (scan_victim i look local) v L).
Proof.
  revert P v. induction L as [|x L IH]; intros P v H; simpl; [by rewrite app_nil_r|].
  rewrite cons_middle, app_assoc. by apply IH, scan_victim_step.
Qed.

Lemma elem_of_hash_iter {V} (m : gmap bytes V) k l : (k, l) ∈ hash_iter m ↔ m !! k = Some l.
Proof. by rewrite hash_iter_perm, elem_of_map_to_list. Qed.

(** What the scan of the whole store finds. *)
Lemma scan_store s look local :
  scanned_rows (publisher_index s) local (hash_iter (entries s))
    (foldl (scan_victim (publisher_index s) look local) (mkVictims None None None) (hash_iter (entries s))).
Proof. apply (scan_victims_rows _ _ _ _ []). by split. Qed.

(** ** A store that lost records *)
Record shrunk (s s' : DhtStore) : Prop := mkShrunk {
  shrunk_core : core s';
  shrunk_rows : ∀ k l', entries s' !! k = Some l' → ∃ l, entries s !! k = Some l ∧ l' `sublist_of` l;
  shrunk_local : store_local_id s' = store_local_id s;
  shrunk_bytes : resident_bytes s' ≤ resident_bytes s;
}.

Lemma shrunk_refl s : core s → shrunk s s.
Proof. intros Hc. split; [done| |done|done]. eauto. Qed.
Lemma shrunk_trans s1 s2 s3 : shrunk s1 s2 → shrunk s2 s3 → shrunk s1 s3.
Proof.
  intros [A1 A2 A3 A4] [B1 B2 B3 B4]. split; [done| |congruence|lia].
  intros k l3 H3. destruct (B2 k l3 H3) as (l2 & H2 & S2). destruct (A2 k l2 H2) as (l1 & H1 & S1).
  exists l1. split; [done|]. by etransitivity.
Qed.

Lemma total_cost_submseteq l k : l ⊆+ k → total_cost l ≤ total_cost k.
Proof.
  intros (m & ->)%submseteq_Permutation. rewrite total_cost_app. pose proof (total_cost_nonneg m). lia.
Qed.

Lemma shrunk_drop_key s k : core s → shrunk s (drop_key s k).
Proof.
  intros Hc. destruct (core_drop_key s k Hc) as [H1 H2]. split; [done| |apply drop_key_frame|].
  - rewrite H2. intros j l [_ Hl]%lookup_delete_Some. eauto.
  - rewrite (core_bytes _ H1), (core_bytes _ Hc), H2.
    rewrite (extends_total _ _ _ (extends_lookup (entries s) k)).
    pose proof (total_cost_nonneg (default [] (entries s !! k))). lia.
Qed.

Lemma shrunk_drop_keys ks s : core s → shrunk s (foldl drop_key s ks).
Proof.
  revert s. induction ks as [|k ks IH]; intros s Hc; simpl; [by apply shrunk_refl|].
  pose proof (shrunk_drop_key s k Hc) as H. eapply shrunk_trans; [exact H|]. apply IH, H.
Qed.

Lemma shrunk_key_count s s' : shrunk s s' → key_count s' ≤ key_count s.
Proof.
  intros [_ H _ _]. unfold key_count. apply inj_le. rewrite <- !size_dom. apply subseteq_size.
  intros k. rewrite !elem_of_dom. intros [l' Hl]. destruct (H k l' Hl) as (l & Hk & _). eauto.
Qed.

(** One of its keys gone, the store holds fewer. *)
Lemma shrunk_key_count_lt s s' k :
  shrunk s s' → is_Some (entries s !! k) → entries s' !! k = None → key_count s' < key_count s.
Proof.
  intros [_ H _ _] Hk Hk'. unfold key_count. apply inj_lt. rewrite <- !size_dom. apply subset_size.
  split.
  - intros j. rewrite !elem_of_dom. intros [l' Hl]. destruct (H j l' Hl) as (l & Hj & _). eauto.
  - intros Hsub. assert (k ∈ dom (entries s')) as Hd by (apply Hsub; by apply elem_of_dom).
    apply elem_of_dom in Hd as [l Hl]. congruence.
Qed.

Lemma shrunk_bound s s' :
  shrunk s s' → furthest_key_distance s' = furthest_key_distance s → bound_ok s → bound_ok s'.
Proof.
  intros [_ H El _] Ef Hb b lo k H1 H2 [l' Hl]. destruct (H k l' Hl) as (l & Hk & _).
  apply (Hb b lo k); [congruence..|eauto].
Qed.

(** The bookkeeping of the victim scan leaves the records alone. *)
Lemma core_frame s i f :
  core s → load i = load (publisher_index s) → over_share_count i = over_share_count (publisher_index s) →
  key_share i = key_share (publisher_index s) → byte_share i = byte_share (publisher_index s) →
  local i = local (publisher_index s) → core (with_furthest (with_index s i) f).
Proof.
  intros [[[H1 H1'] Hs] H2 H3 H4] E1 E2 E3 E4 E5. split; simpl; [|done..]. split; [split|].
  - intros p. by rewrite E1.
  - rewrite E1, E2, H1'. f_equal. by apply crowds_same.
  - unfold shares_ok. by rewrite E3, E4.
Qed.

Lemma core_with_furthest s f : core s → core (with_furthest s f).
Proof. by apply core_ext. Qed.
End inv.
