(* ===== verification/DhtRoom.v ===== *)
(** * Making room in the record store

    The two evictions of [DhtStore]: a key slot for a new key
    ([make_room_for_key]) and bytes for a new record ([enforce_byte_budget]). *)
From S2P Require Import Prelude NodeId Addr Contact Record DhtStore DhtIndex DhtStoreInv.
Local Open Scope Z_scope.

Section room.
Context `{Env : StoreEnv} `{Order : HashOrder}.

(** ** A key slot *)

(** A key the eviction may take for a key at distance [d]: one only publishers
    past their share hold, or one further than [d] that no key is further than. *)
Definition fair_victim (s : DhtStore) (local : EmberNodeId) (d k : bytes) (l : list DhtRecord) : Prop :=
  held_by_crowders (publisher_index s) l = true ∨
  (bytes_gt (xor16 local k) d = true ∧
   ∀ j, is_Some (entries s !! j) → bytes_le (xor16 local j) (xor16 local k) = true).

Lemma evict_for_key_core s local d :
  core s → bound_ok s → store_local_id s = Some local →
  core (evict_for_key s local d).2 ∧ bound_ok (evict_for_key s local d).2 ∧
  shrunk s (evict_for_key s local d).2 ∧
  ((evict_for_key s local d).1 = true → key_count (evict_for_key s local d).2 < key_count s).
Proof.
  intros Hc Hb El. unfold evict_for_key. set (look := anyone_over_share _).
  pose proof (scan_store s look local) as Hv. set (v := foldl _ _ _) in *. destruct Hv as [V1 V2 V3].
  destruct (crowding v) as [[k dk]|] eqn:Ec; simpl.
  { pose proof (shrunk_drop_key s k Hc) as Hs. destruct (core_drop_key s k Hc) as [H1 H2].
    destruct (V3 _ _ eq_refl) as (l & Hl%elem_of_hash_iter & _).
    split; [done|]. split; [|split; [done|]].
    - eapply shrunk_bound; [exact Hs|apply drop_key_frame|done].
    - intros _. eapply (shrunk_key_count_lt s _ k); [done|eauto|]. rewrite H2. apply lookup_delete_eq. }
  set (s1 := if look then _ else s).
  assert (core s1 ∧ entries s1 = entries s ∧ store_local_id s1 = store_local_id s ∧
          resident_bytes s1 = resident_bytes s ∧ furthest_key_distance s1 = furthest_key_distance s) as (K1 & K2 & K3 & K4 & K5).
  { unfold s1. destruct look; [|done]. split; [|done].
    by apply (core_frame s (set_no_victim (publisher_index s)) (furthest_key_distance s)). }
  assert (shrunk s s1) as Hs1 by (split; [done|rewrite K2; eauto|done|lia]).
  destruct (furthest v) as [[fk fd]|] eqn:Ef; simpl.
  2:{ split; [done|]. split; [|done]. by eapply shrunk_bound. }
  destruct (V2 _ _ eq_refl) as (E1 & E2 & E3 & E4 & E5).
  assert (∀ j, is_Some (entries s !! j) → bytes_le (xor16 local j) fd = true) as Hfar.
  { intros j [l Hl]. by apply (E3 (j, l)), elem_of_hash_iter. }
  destruct (bytes_le fd d) eqn:Hle; simpl.
  { split; [by apply core_with_furthest|]. split; [|split; [|done]].
    - intros b lo k [= <-] Hlo Hk. simpl in *. rewrite K3, El in Hlo. simplify_eq. rewrite K2 in Hk. auto.
    - split; [by apply core_with_furthest|simpl; rewrite K2; eauto|done|simpl; lia]. }
  pose proof (shrunk_drop_key s1 fk K1) as Hs. destruct (core_drop_key s1 fk K1) as [H1 H2].
  assert (shrunk s (with_furthest (drop_key s1 fk) (Some match runner_up v with
            Some r => if bytes_le d r then r else d | None => d end))) as Hs2.
  { eapply shrunk_trans; [exact Hs1|]. destruct Hs as [A1 A2 A3 A4]. split; [by apply core_with_furthest|done..]. }
  split; [by apply core_with_furthest|]. split; [|split; [exact Hs2|]].
  - intros b lo k [= <-] Hlo Hk. simpl in Hlo, Hk.
    assert (lo = local) as ->. { rewrite (shrunk_local _ _ Hs), K3, El in Hlo. congruence. }
    rewrite H2, K2 in Hk. destruct Hk as [l [Hne Hl]%lookup_delete_Some].
    destruct (E5 (k, l)) as [?|(r & -> & Hr)]; [by apply elem_of_hash_iter|done|]. simpl in Hr.
    destruct (bytes_le d r) eqn:Hdr; [done|]. eapply bytes_le_trans; [exact Hr|].
    destruct (bytes_le_total d r); congruence.
  - intros _. eapply (shrunk_key_count_lt s _ fk); [exact Hs2| |].
    + apply list_elem_of_fmap in E2 as ([k l] & -> & Hx%elem_of_hash_iter). eauto.
    + simpl. rewrite H2, K2. apply lookup_delete_eq.
Qed.

Lemma make_room_core now_unix s k p :
  store_ok s →
  core (make_room_for_key now_unix s k p).2 ∧ bound_ok (make_room_for_key now_unix s k p).2 ∧
  shrunk s (make_room_for_key now_unix s k p).2 ∧
  ((make_room_for_key now_unix s k p).1 = true → key_count (make_room_for_key now_unix s k p).2 < MAX_KEYS).
Proof.
  intros [Hc Hb _ Hk]. pose proof (shrunk_refl s Hc) as Hr. destruct (core_budgets _ Hc) as [_ HB].
  unfold make_room_for_key. rewrite HB. destruct (Z.ltb_spec (key_count s) MAX_KEYS); [done|].
  destruct (store_local_id s) as [local|] eqn:El; [|done].
  destruct (over_share _ p); [done|]. destruct (match furthest_key_distance s with Some _ => _ | None => _ end); [done|].
  case_bool_decide as Ex.
  { destruct (evict_for_key_core s local (xor16 local k) Hc Hb El) as (A1 & A2 & A3 & A4).
    split; [done|]. split; [done|]. split; [done|]. intros Hok. specialize (A4 Hok). lia. }
  set (s1 := with_furthest _ None).
  pose proof (shrunk_drop_keys (lapsed_keys now_unix s) s Hc) as Hs.
  assert (shrunk s s1) as Hs1. { destruct Hs as [B1 B2 B3 B4]. split; [by apply core_with_furthest|done..]. }
  assert (bound_ok s1) as Hb1 by done.
  pose proof (shrunk_core _ _ Hs1) as Hc1. destruct (core_budgets _ Hc1) as [_ HB1]. rewrite HB1.
  destruct (Z.ltb_spec (key_count s1) MAX_KEYS); [done|].
  pose proof (shrunk_key_count _ _ Hs1).
  destruct (evict_for_key_core s1 local (xor16 local k) Hc1 Hb1) as (A1 & A2 & A3 & A4).
  { by rewrite (shrunk_local _ _ Hs1). }
  split; [done|]. split; [done|]. split; [by eapply shrunk_trans|]. intros Hok. specialize (A4 Hok). lia.
Qed.

(** Every other key keeps its records. *)
Lemma evict_for_key_victims s local d k l :
  core s → entries s !! k = Some l →
  entries (evict_for_key s local d).2 !! k = Some l ∨
  entries (evict_for_key s local d).2 !! k = None ∧ fair_victim s local d k l.
Proof.
  intros Hc Hk. unfold evict_for_key. set (look := anyone_over_share _).
  pose proof (scan_store s look local) as Hv. set (v := foldl _ _ _) in *. destruct Hv as [V1 V2 V3].
  assert (∀ j, entries (drop_key s j) !! k = Some l ∨ j = k ∧ entries (drop_key s j) !! k = None) as Hdrop.
  { intros j. destruct (core_drop_key s j Hc) as [_ ->]. destruct (decide (j = k)) as [->|Hne].
    - right. split; [done|]. apply lookup_delete_eq.
    - left. by rewrite lookup_delete_ne. }
  destruct (crowding v) as [[c dc]|] eqn:Ec; simpl.
  { destruct (Hdrop c) as [?|[-> Hn]]; [by left|right]. split; [done|].
    destruct (V3 _ _ eq_refl) as (l' & Hl%elem_of_hash_iter & Hh). left. congruence. }
  set (s1 := if look then _ else s).
  assert (entries (drop_key s1 k) = entries (drop_key s k) ∧ entries s1 = entries s) as [K1 K2].
  { unfold s1. destruct look; [|done]. split; [|done]. unfold drop_key. simpl. by destruct (entries s !! k). }
  destruct (furthest v) as [[fk fd]|] eqn:Ef; cbn [snd]; [|left; by rewrite K2].
  destruct (V2 _ _ eq_refl) as (E1 & E2 & E3 & _).
  destruct (bytes_le fd d) eqn:Hle; cbn [snd entries with_furthest]; [left; by rewrite K2|].
  assert (entries (drop_key s1 fk) = entries (drop_key s fk)) as ->.
  { unfold s1. destruct look; [|done]. unfold drop_key. simpl. by destruct (entries s !! fk). }
  destruct (Hdrop fk) as [?|[-> Hn]]; [by left|right]. split; [done|]. right. subst fd. split.
  - unfold bytes_gt. by rewrite Hle.
  - intros j [lj Hj]. by apply (E3 (j, lj)), elem_of_hash_iter.
Qed.

(** A publisher past its share after keys were dropped was past it before. *)
Lemma over_share_mono i i' m m' p :
  index_tracks i m → index_tracks i' m' → m' ⊆ m →
  key_share i' = key_share i → byte_share i' = byte_share i → local i' = local i →
  over_share i' p = true → over_share i p = true.
Proof.
  intros [[H1 _] [Hs1 Hs2]] [[H1' _] _] Hsub E1 E2 E3. unfold over_share, counted. rewrite E3.
  destruct (negb _); [done|]. rewrite H1, H1'. unfold load_over. rewrite E1, E2.
  assert (rows m' ⊆+ rows m) as Hr by by apply map_to_list_submseteq.
  assert (keys_of m' p ≤ keys_of m p) as Hk by (apply inj_le; by apply count_if_submseteq).
  assert (bytes_by p (all_records m') ≤ bytes_by p (all_records m)) as Hb.
  { assert (all_records m' ⊆+ all_records m) as (R & ->)%submseteq_Permutation by by apply bind_submseteq.
    unfold bytes_by, retain. rewrite filter_app, total_cost_app.
    pose proof (total_cost_nonneg (filter (λ r, authored p r = true) R)). lia. }
  pose proof (keys_of_nonneg m' p). pose proof (heads_le_bytes p (all_records m')).
  destruct (decide _) as [|Hd']; [done|]. simpl. rewrite orb_true_iff, !Z.leb_le. intros Hor.
  rewrite decide_False by lia. simpl. rewrite orb_true_iff, !Z.leb_le. lia.
Qed.

Lemma discharge_notes_params l i :
  key_share (discharge_notes i l) = key_share i ∧ byte_share (discharge_notes i l) = byte_share i ∧
  local (discharge_notes i l) = local i.
Proof.
  revert i. induction l as [|[[[p c] b] h] l IH]; intros i; [done|].
  unfold discharge_notes in *. simpl. destruct (IH (discharge i p c b h)) as (-> & -> & ->).
  apply discharge_params.
Qed.
Lemma drop_keys_params ks s :
  let i := publisher_index (foldl drop_key s ks) in
  key_share i = key_share (publisher_index s) ∧ byte_share i = byte_share (publisher_index s) ∧
  local i = local (publisher_index s).
Proof.
  revert s. induction ks as [|k ks IH]; intros s; [done|]. simpl.
  destruct (IH (drop_key s k)) as (-> & -> & ->). unfold drop_key. destruct (entries s !! k); [|done].
  apply discharge_notes_params.
Qed.


Lemma lapsed_keys_spec now_unix s k l :
  entries s !! k = Some l → k ∈ lapsed_keys now_unix s → Forall (λ r, expires_at_unix r ≤ now_unix) l.
Proof.
  intros Hk ([k' l'] & -> & Hx)%list_elem_of_fmap. apply elem_of_retain in Hx as [Hf Hx%elem_of_hash_iter].
  simpl in *. simplify_eq. apply Forall_forall. intros r Hr.
  rewrite forallb_forall in Hf. apply Z.leb_le, Hf. by apply list_elem_of_In.
Qed.

Lemma drop_keys_gone ks s k : core s → k ∈ ks → entries (foldl drop_key s ks) !! k = None.
Proof.
  revert s. induction ks as [|j ks IH]; intros s Hc; [by intros ?%not_elem_of_nil|]. simpl.
  destruct (core_drop_key s j Hc) as [H1 H2]. intros [->|Hk]%elem_of_cons; [|by apply IH].
  eapply lookup_weaken_None; [|by apply core_drop_keys]. rewrite H2. apply lookup_delete_eq.
Qed.

Lemma drop_key_none s j k : entries s !! k = None → entries (drop_key s j) !! k = None.
Proof.
  intros Hk. unfold drop_key. destruct (entries s !! j); simpl; [|done]. apply lookup_delete_None. by right.
Qed.

Lemma evict_for_key_sub s local d : core s → entries (evict_for_key s local d).2 ⊆ entries s.
Proof.
  intros Hc. apply map_subseteq_spec. intros k l' Hk'.
  destruct (entries s !! k) as [l|] eqn:Hk.
  - destruct (evict_for_key_victims s local d k l Hc Hk) as [?|[? _]]; congruence.
  - assert (entries (evict_for_key s local d).2 !! k = None); [|congruence]. unfold evict_for_key.
    destruct (crowding _) as [[c ?]|]; [by apply drop_key_none|].
    destruct (anyone_over_share _), (furthest _) as [[f ?]|]; simpl; try done;
      destruct (bytes_le _ d); simpl; try done; by apply drop_key_none.
Qed.

(** The eviction after some keys were dropped, judged by the index before. *)
Lemma evict_victims_before s s2 local d k l :
  core s → core s2 → entries s2 ⊆ entries s → entries s2 !! k = Some l →
  key_share (publisher_index s2) = key_share (publisher_index s) ∧
  byte_share (publisher_index s2) = byte_share (publisher_index s) ∧
  DhtStore.local (publisher_index s2) = DhtStore.local (publisher_index s) →
  entries (evict_for_key s2 local d).2 !! k = Some l ∨
  entries (evict_for_key s2 local d).2 !! k = None ∧
  ((l ≠ [] ∧ Forall (λ r, over_share (publisher_index s) (publisher_key r) = true) l) ∨
   (bytes_gt (xor16 local k) d = true ∧
    ∀ j, is_Some (entries (evict_for_key s2 local d).2 !! j) →
         bytes_le (xor16 local j) (xor16 local k) = true)).
Proof.
  intros Hc Hc2 Hsub Hk2 (P1 & P2 & P3).
  destruct (evict_for_key_victims s2 local d k l Hc2 Hk2) as [?|[Hn Hf]]; [by left|right].
  split; [done|]. destruct Hf as [Hf|[Hg Hall]]; [left|right].
  - unfold held_by_crowders in Hf. apply andb_true_iff in Hf as [Hl Hf].
    rewrite negb_true_iff, bool_decide_eq_false in Hl. split; [done|]. rewrite forallb_forall in Hf.
    apply Forall_forall. intros r Hr%list_elem_of_In. specialize (Hf r Hr).
    by eapply (over_share_mono _ _ _ _ _ (core_index _ Hc) (core_index _ Hc2)).
  - split; [done|]. intros j [lj Hj]. apply Hall. exists lj.
    eapply lookup_weaken; [exact Hj|by apply evict_for_key_sub].
Qed.

(** Only for a publisher within its share and only in a full store does
    admitting a key cost another key its records, and then only a key whose
    records have all lapsed, a key held by nobody but publishers past their
    share, or the furthest key, when it is further from this node than the key
    admitted.  Every other key keeps all its records. *)
Theorem make_room_victims now_unix s incoming publisher k l :
  core s → entries s !! k = Some l →
  entries (make_room_for_key now_unix s incoming publisher).2 !! k = Some l ∨
  entries (make_room_for_key now_unix s incoming publisher).2 !! k = None ∧
  MAX_KEYS ≤ key_count s ∧ over_share (publisher_index s) publisher = false ∧
  ∃ local, store_local_id s = Some local ∧
    (Forall (λ r, expires_at_unix r ≤ now_unix) l ∨
     (l ≠ [] ∧ Forall (λ r, over_share (publisher_index s) (publisher_key r) = true) l) ∨
     (bytes_gt (xor16 local k) (xor16 local incoming) = true ∧
      ∀ j, is_Some (entries (make_room_for_key now_unix s incoming publisher).2 !! j) →
           bytes_le (xor16 local j) (xor16 local k) = true)).
Proof.
  intros Hc Hk. destruct (core_budgets _ Hc) as [_ HB]. unfold make_room_for_key. rewrite HB.
  destruct (Z.ltb_spec (key_count s) MAX_KEYS) as [|Hfull]; [by left|].
  destruct (store_local_id s) as [local|] eqn:El; [|by left].
  destruct (over_share _ publisher) eqn:Eo; [by left|].
  destruct (match furthest_key_distance s with Some _ => _ | None => _ end); [by left|].
  set (s1 := with_furthest _ None). set (d := xor16 local incoming).
  pose proof (core_drop_keys (lapsed_keys now_unix s) s Hc) as (D1 & D2 & D3 & D4).
  assert (core s1) as Hc1 by by apply core_with_furthest.
  assert (entries s1 = entries (foldl drop_key s (lapsed_keys now_unix s))) as E1 by done.
  case_bool_decide as Ex.
  { destruct (evict_victims_before s s local d k l) as [?|[Hn Hf]]; [done..|by left|right].
    repeat split; try done. exists local. tauto. }
  destruct (decide (k ∈ lapsed_keys now_unix s)) as [Hin|Hin].
  { assert (∀ s2, entries s2 ⊆ entries s1 → entries s2 !! k = None) as Hgone.
    { intros s2 Hsub. eapply lookup_weaken_None; [|exact Hsub]. by apply drop_keys_gone. }
    right. split; [destruct (Z.ltb _ _); apply Hgone; [done|by apply evict_for_key_sub]|].
    repeat split; try done. exists local. split; [done|]. left. by eapply lapsed_keys_spec. }
  assert (entries s1 !! k = Some l) as Hk1. { rewrite E1, D4 by done. done. }
  destruct (Z.ltb_spec (key_count s1) (key_budget s1)); [by left|].
  destruct (evict_victims_before s s1 local d k l) as [?|[Hn Hf]];
    [done|done|by rewrite E1|done|apply drop_keys_params|by left|right].
  repeat split; try done. exists local. tauto.
Qed.

(** ** Bytes *)
Lemma index_tracks_ext i m m' :
  (∀ p, keys_of m p = keys_of m' p) → all_records m ≡ₚ all_records m' →
  index_tracks i m → index_tracks i m'.
Proof. intros Hk Hr [Ht Hs]. split; [|done]. by eapply tracks_ext. Qed.

Lemma soonest_from_lt l i n e : soonest_from i l = Some (n, e) → (i ≤ n < i + length l)%nat.
Proof.
  revert i n e. induction l as [|r l IH]; intros i n e; cbn [soonest_from length]; [done|].
  destruct (soonest_from (S i) l) as [[j e']|] eqn:E.
  - apply IH in E. case_match; intros [= <- <-]; lia.
  - intros [= <- <-]. lia.
Qed.
Lemma soonest_lookup l n : soonest l = Some n → is_Some (l !! n).
Proof.
  unfold soonest. intros ([j e] & E & ->)%fmap_Some. apply soonest_from_lt in E.
  apply lookup_lt_is_Some. simpl. lia.
Qed.
Lemma soonest_None l : soonest l = None → l = [].
Proof.
  unfold soonest. intros E%fmap_None. destruct l as [|r l]; [done|]. cbn [soonest_from] in E.
  destruct (soonest_from 1 l) as [[j e]|]; [|done]. by destruct (Z.leb _ _).
Qed.

(** The loop over one key's records keeps the totals and ends at the target or
    with nothing left. *)
Lemma trim_key_spec k m0 target fuel n i l :
  m0 !! k = None → (length l ≤ fuel)%nat → index_tracks i (<[k := l]> m0) →
  n = total_cost l + total_cost (all_records m0) →
  let '(n', i', kept) := trim_key fuel target n i l in
  index_tracks i' (<[k := kept]> m0) ∧ n' = total_cost kept + total_cost (all_records m0) ∧
  kept `sublist_of` l ∧ (n' ≤ target ∨ kept = []).
Proof.
  intros Hm. revert n i l. induction fuel as [|fuel IH]; intros n i l Hf Hi Hn; cbn [trim_key].
  { destruct l; [|simpl in Hf; lia]. auto. }
  destruct (Z.leb_spec n target) as [|Hgt]; [auto|].
  destruct (soonest l) as [at_|] eqn:Es; [|apply soonest_None in Es as ->; auto].
  destruct (soonest_lookup l at_ Es) as [v Hv]. rewrite Hv.
  pose proof (delete_Permutation _ _ _ Hv) as Hp.
  assert (total_cost l = cost_of v + total_cost (delete at_ l)) as Hc by (rewrite Hp at 1; done).
  assert (delete k m0 = m0) as Ed by by apply delete_id.
  destruct (trim_key fuel target _ _ _) as [[n' i'] kept] eqn:Et.
  specialize (IH (usize_saturating_sub n (cost_of v)) (discharge i (publisher_key v) (cost_of v)
    (negb (holds (publisher_key v) (delete at_ l))) (is_feed_head (data v))) (delete at_ l)).
  rewrite Et in IH. destruct IH as (A1 & A2 & A3 & A4).
  - rewrite length_delete by eauto. lia.
  - eapply (index_release_one i m0 (<[k := l]> m0)); [exact Hi| |].
    + eapply extends_perm; [exact Hp|]. rewrite <- Ed at 1. apply extends_insert.
    + rewrite <- Ed at 1. apply extends_insert.
  - unfold usize_saturating_sub. pose proof (total_cost_nonneg (delete at_ l)).
    pose proof (total_cost_nonneg (all_records m0)). lia.
  - split; [done|]. split; [done|]. split; [|done]. etransitivity; [exact A3|]. apply sublist_delete.
Qed.

(** One key's turn. *)
Definition trim_row (target : Z) (s : DhtStore) (k : bytes) (records : list DhtRecord) : DhtStore :=
  let '(n, i, kept) := trim_key (length records) target (resident_bytes s) (publisher_index s) records in
  let m := if bool_decide (kept = []) then delete k (entries s) else <[k := kept]> (entries s) in
  with_index (with_bytes (with_entries s m) n) i.

Lemma trim_row_spec target s k l :
  core s → entries s !! k = Some l →
  let s' := trim_row target s k l in
  shrunk s s' ∧ (∀ j, j ≠ k → entries s' !! j = entries s !! j) ∧
  furthest_key_distance s' = furthest_key_distance s ∧ store_scale s' = store_scale s ∧
  (resident_bytes s' ≤ target ∨ entries s' !! k = None).
Proof.
  intros [H1 H2 H3 H4] Hk. cbn zeta. unfold trim_row.
  pose proof (trim_key_spec k (delete k (entries s)) target (length l) (resident_bytes s)
    (publisher_index s) l) as T.
  destruct (trim_key _ _ _ _ _) as [[n i] kept] eqn:Et.
  destruct T as (T1 & T2 & T3 & T4); [apply lookup_delete_eq|done| | |].
  { rewrite insert_delete_eq. by rewrite insert_id. }
  { rewrite H2. by rewrite (all_records_lookup _ _ _ Hk), total_cost_app. }
  set (m := if bool_decide (kept = []) then _ else _).
  assert (index_tracks i m ∧ total_cost (all_records m) = n) as [Hi Hn].
  { unfold m. case_bool_decide as E; [subst kept|].
    - pose proof (extends_insert (delete k (entries s)) k []) as [X1 X2].
      rewrite delete_delete_eq in *. split; [|rewrite T2; simpl; lia].
      eapply index_tracks_ext; [| |exact T1]; [intros p; rewrite X1; unfold has; simpl; lia|done].
    - rewrite insert_delete_eq in T1. split; [done|]. by rewrite all_records_insert, total_cost_app, T2. }
  assert (total_cost kept ≤ total_cost l) by by apply total_cost_submseteq, sublist_submseteq.
  assert (∀ j, j ≠ k → m !! j = entries s !! j) as Hj.
  { intros j Hj. unfold m. case_bool_decide; [by rewrite lookup_delete_ne|by rewrite lookup_insert_ne]. }
  assert (m !! k = if bool_decide (kept = []) then None else Some kept) as Hmk.
  { unfold m. case_bool_decide; [apply lookup_delete_eq|apply lookup_insert_eq]. }
  assert (∀ j l', m !! j = Some l' → l' ≠ [] ∧ ∃ l, entries s !! j = Some l ∧ l' `sublist_of` l) as Hrows.
  { intros j l' Hl'. destruct (decide (j = k)) as [->|Hne].
    - rewrite Hmk in Hl'. case_bool_decide; [done|]. simplify_eq. eauto.
    - rewrite Hj in Hl' by done. split; [by apply (H3 j)|eauto]. }
  split; [split|]; simpl.
  - split; simpl; [done|done| |done]. intros j l' Hl'. destruct (Hrows j l' Hl') as (Hne & l0 & Hl0 & Hs).
    split; [|done]. eapply row_ok_sublist; [exact Hs|]. by apply H3.
  - intros j l' Hl'. by apply Hrows.
  - done.
  - rewrite H2, (all_records_lookup _ _ _ Hk), total_cost_app. lia.
  - repeat split; [done|]. destruct T4 as [?|E]; [by left|right]. rewrite Hmk. by rewrite bool_decide_true.
Qed.

Lemma trim_keys_cons target k ranked s l :
  entries s !! k = Some l →
  trim_keys target (k :: ranked) s =
  let s' := trim_row target s k l in
  if Z.leb (resident_bytes s') target then s' else trim_keys target ranked s'.
Proof.
  intros Hk. cbn [trim_keys]. rewrite Hk. unfold trim_row. by destruct (trim_key _ _ _ _ _) as [[n i] kept].
Qed.

Lemma trim_keys_spec target ranked s :
  core s →
  let s' := trim_keys target ranked s in
  shrunk s s' ∧ (∀ j, j ∉ ranked → entries s' !! j = entries s !! j) ∧
  furthest_key_distance s' = furthest_key_distance s ∧ store_scale s' = store_scale s ∧
  (resident_bytes s' ≤ target ∨ ∀ k, k ∈ ranked → entries s' !! k = None).
Proof.
  revert s. induction ranked as [|k ranked IH]; intros s Hc; cbn zeta.
  { split; [by apply shrunk_refl|]. repeat split. right. by intros k ?%not_elem_of_nil. }
  destruct (entries s !! k) as [l|] eqn:Hk.
  - rewrite (trim_keys_cons _ _ _ _ l Hk). cbv zeta.
    destruct (trim_row_spec target s k l Hc Hk) as (R1 & R2 & R3 & R4 & R5).
    set (s1 := trim_row target s k l) in *. destruct (Z.leb_spec (resident_bytes s1) target).
    + split; [done|]. split; [intros j [? _]%not_elem_of_cons; by apply R2|]. auto.
    + destruct R5 as [|R5]; [lia|]. destruct (IH s1 (shrunk_core _ _ R1)) as (K1 & K2 & K3 & K4 & K5).
      split; [by eapply shrunk_trans|]. split; [intros j [? ?]%not_elem_of_cons; by rewrite K2, R2|].
      split; [congruence|]. split; [congruence|]. destruct K5 as [|K5]; [by left|right].
      intros j [->|Hj]%elem_of_cons; [|auto]. destruct (decide (k ∈ ranked)); [auto|]. by rewrite K2.
  - cbn [trim_keys]. rewrite Hk. destruct (IH s Hc) as (K1 & K2 & K3 & K4 & K5).
    split; [done|]. split; [intros j [_ ?]%not_elem_of_cons; by apply K2|]. repeat split; [done..|].
    destruct K5 as [|K5]; [by left|right]. intros j [->|Hj]%elem_of_cons; [|auto].
    destruct (decide (k ∈ ranked)); [auto|]. by rewrite K2.
Qed.

Lemma row_cost k l : row_ok k l → total_cost l ≤ 1000 * (1165 + 4096).
Proof.
  intros [H1 H2 _ _]. assert (∀ n : nat, (length l ≤ n)%nat → total_cost l ≤ Z.of_nat n * (1165 + 4096)) as H.
  2:{ apply (H 1000%nat H2). }
  clear H2. induction H1 as [|r l [_ Hr _] _ IH]; intros n Hn; [cbn; lia|].
  rewrite total_cost_cons. destruct n as [|n]; [cbn in Hn; lia|]. cbn [length] in Hn.
  specialize (IH n ltac:(lia)). unfold cost_of, record_cost, MAX_STORE_RECORD_BYTES in *.
  pose proof size_of_record_ok. lia.
Qed.

Lemma trim_target : MAX_STORE_BYTES - MAX_STORE_BYTES / 10 ≤ MAX_STORE_BYTES ∧
  1000 * (1165 + 4096) ≤ MAX_STORE_BYTES - MAX_STORE_BYTES / 10.
Proof. by vm_compute. Qed.

(** The budget holds afterwards, and the key just stored to is not touched. *)
Lemma enforce_byte_budget_spec s spare :
  core s →
  let s' := enforce_byte_budget s spare in
  shrunk s s' ∧ entries s' !! spare = entries s !! spare ∧
  furthest_key_distance s' = furthest_key_distance s ∧ store_scale s' = store_scale s ∧
  resident_bytes s' ≤ MAX_STORE_BYTES.
Proof.
  intros Hc. cbn zeta. destruct (core_budgets _ Hc) as [HB _]. unfold enforce_byte_budget. rewrite HB.
  destruct (Z.leb_spec (resident_bytes s) MAX_STORE_BYTES) as [|Hover]; [by split; [apply shrunk_refl|]|].
  set (target := MAX_STORE_BYTES - MAX_STORE_BYTES / 10). set (ranked := _ <$> stable_sort _ _).
  assert (∀ k, k ∈ ranked ↔ is_Some (entries s !! k) ∧ k ≠ spare) as Hr.
  { intros k. unfold ranked. rewrite stable_sort_perm, <- list_fmap_compose, list_elem_of_fmap. split.
    - intros ([k' l] & -> & Hx). apply elem_of_retain in Hx as [Hn Hx%elem_of_hash_iter]. simpl in *.
      apply negb_true_iff, bool_decide_eq_false in Hn. eauto.
    - intros [[l Hl] Hne]. exists (k, l). split; [done|]. apply elem_of_retain. simpl.
      by rewrite bool_decide_false, elem_of_hash_iter by done. }
  destruct (trim_keys_spec target ranked s Hc) as (K1 & K2 & K3 & K4 & K5).
  set (s' := trim_keys target ranked s) in *. destruct trim_target as [T1 T2].
  split; [done|]. split; [apply K2; rewrite Hr; tauto|]. split; [done|]. split; [done|].
  destruct K5 as [|K5]; [unfold target in *; lia|]. etransitivity; [|exact T1]. etransitivity; [|exact T2].
  pose proof (shrunk_core _ _ K1) as Hc'. rewrite (core_bytes _ Hc').
  assert (delete spare (entries s') = ∅) as Hd.
  { apply map_empty. intros k. destruct (decide (k = spare)) as [->|Hne]; [apply lookup_delete_eq|].
    rewrite lookup_delete_ne by done. destruct (entries s' !! k) as [l'|] eqn:E; [|done].
    destruct (shrunk_rows _ _ K1 k l' E) as (l & Hl & _). rewrite <- E. apply K5, Hr. eauto. }
  rewrite (extends_total _ _ _ (extends_lookup (entries s') spare)), Hd.
  change (total_cost (all_records ∅)) with 0. rewrite Z.add_0_r.
  destruct (entries s' !! spare) as [l|] eqn:E; cbn [default]; [|by vm_compute].
  apply (core_rows _ Hc') in E as [E _]. by apply row_cost in E.
Qed.
End room.
