(* ===== verification/DhtStoreOps.v ===== *)
(** * Storing a record

    [store_record] keeps the invariant on every branch, whatever is offered. *)
From S2P Require Import Prelude NodeId Addr Contact Record DhtStore DhtIndex DhtStoreInv DhtRoom.
Local Open Scope Z_scope.

(** Reduces the store's projections and nothing else. *)
Ltac store_cbn :=
  cbn [entries publisher_index resident_bytes byte_budget key_budget store_local_id
       furthest_key_distance store_scale with_entries with_index with_bytes with_furthest
       with_rejections with_cursor].

Section ops.
Context `{Env : StoreEnv} `{Order : HashOrder}.

(** ** Records that change nothing the invariant counts *)
Definition touched (r r' : DhtRecord) : Prop :=
  data r' = data r ∧ signature r' = signature r ∧ publisher_key r' = publisher_key r ∧
  created_at r' = created_at r ∧ expires_at_unix r' = expires_at_unix r ∧
  attributed_ip r' = attributed_ip r.

#[export] Instance touched_reflexive : Reflexive touched.
Proof. done. Qed.
#[export] Instance touched_transitive : Transitive touched.
Proof. intros x y z. unfold touched. intuition congruence. Qed.

Lemma touched_sums l l' :
  Forall2 touched l l' →
  total_cost l' = total_cost l ∧
  ∀ p, bytes_by p l' = bytes_by p l ∧ heads_by p l' = heads_by p l ∧ holds p l' = holds p l.
Proof.
  induction 1 as [|r r' l l' (E1 & E2 & E3 & _) _ [IH1 IH2]]; [done|].
  rewrite !total_cost_cons, IH1. unfold cost_of. rewrite E1. split; [done|]. intros p.
  destruct (IH2 p) as (A1 & A2 & A3). rewrite !bytes_by_cons, !heads_by_cons, !holds_cons, A1, A2, A3.
  unfold authored, cost_of. by rewrite E1, E3.
Qed.

Lemma row_ok_touched k l l' : Forall2 touched l l' → row_ok k l → row_ok k l'.
Proof.
  intros Ht [H1 H2 H3 H4].
  assert (slot <$> l' = slot <$> l ∧ publisher_key <$> l' = publisher_key <$> l) as [Es Ep].
  { clear -Ht. induction Ht as [|r r' l l' (E1 & E2 & E3 & _) _ [IH1 IH2]]; [done|].
    rewrite !fmap_cons, IH1, IH2. unfold slot. by rewrite E1, E3. }
  split.
  - clear -Ht H1. induction Ht as [|r r' l l' (E1 & E2 & E3 & E4 & _) _ IH]; [done|].
    apply Forall_cons in H1 as [[A B C] H1]. constructor; [|auto]. split; by rewrite ?E1, ?E2, ?E3, ?E4.
  - by rewrite <- (Forall2_length _ _ _ Ht).
  - by rewrite Es.
  - intros p. specialize (H4 p).
    assert (∀ l, count_if (authored p) l = count_if (λ q, bool_decide (q = p)) (publisher_key <$> l)) as Hc
      by (intros; by rewrite count_if_fmap).
    by rewrite Hc, Ep, <- Hc.
Qed.

Lemma bytes_by_app p l k : bytes_by p (l ++ k) = bytes_by p l + bytes_by p k.
Proof. unfold bytes_by, retain. by rewrite filter_app, total_cost_app. Qed.
Lemma heads_by_app p l k : heads_by p (l ++ k) = heads_by p l + heads_by p k.
Proof. unfold heads_by. rewrite count_if_app. lia. Qed.

Lemma core_touched s k l l' :
  core s → entries s !! k = Some l → Forall2 touched l l' →
  core (with_entries s (<[k := l']> (entries s))).
Proof.
  intros [[Ht Hs] H2 H3 H4] Hk Hl. destruct (touched_sums l l' Hl) as [Tc Tp].
  pose proof (extends_lookup (entries s) k) as [X1 X2]. rewrite Hk in *. cbn [default] in *.
  pose proof (extends_insert (entries s) k l') as [Y1 Y2].
  split; cbn [with_entries entries publisher_index resident_bytes byte_budget key_budget]; [| | |done].
  - split; [|done]. eapply tracks_same; [| | |exact Ht]; intros p; destruct (Tp p) as (T1 & T2 & T3).
    + rewrite X1, Y1. unfold has. by rewrite T3.
    + by rewrite (bytes_by_proper p _ _ X2), (bytes_by_proper p _ _ Y2), !bytes_by_app, T1.
    + by rewrite (heads_by_proper p _ _ X2), (heads_by_proper p _ _ Y2), !heads_by_app, T2.
  - by rewrite H2, X2, Y2, !total_cost_app, Tc.
  - intros j lj [[<- <-]|[_ Hj]]%lookup_insert_Some; [|auto]. destruct (H3 k l Hk) as [Hr Hne]. split.
    + by eapply row_ok_touched.
    + intros ->. apply Forall2_nil_inv_r in Hl. done.
Qed.

(** ** A store ready to file under [key] *)
Record ready (s : DhtStore) (key : bytes) : Prop := mkReady {
  ready_core : core s;
  ready_bound : ∀ b lo k, furthest_key_distance s = Some b → store_local_id s = Some lo →
    k = key ∨ is_Some (entries s !! k) → bytes_le (xor16 lo k) b = true;
  ready_bytes : resident_bytes s ≤ MAX_STORE_BYTES;
  ready_keys : ∀ l, Z.of_nat (size (<[key := l]> (entries s))) ≤ MAX_KEYS;
}.

(** The row of [key] is [l], everything else is as in [s]. *)
Record staged (s : DhtStore) (key : bytes) (l : list DhtRecord) (s' : DhtStore) : Prop := mkStaged {
  staged_entries : entries s' = <[key := l]> (entries s);
  staged_index : index_tracks (publisher_index s') (entries s');
  staged_total : resident_bytes s' = total_cost (all_records (entries s'));
  staged_row : row_ok key l;
  staged_budgets : byte_budget s' = byte_budget s ∧ key_budget s' = key_budget s;
  staged_frame : store_local_id s' = store_local_id s ∧
    furthest_key_distance s' = furthest_key_distance s ∧ store_scale s' = store_scale s;
}.

Lemma staged_core s key l s' : core s → staged s key l s' → l ≠ [] → core s'.
Proof.
  intros [H1 H2 H3 H4] [E1 E2 E3 E4 [E5 E6] _] Hl. split; [done|done| |by rewrite E5, E6].
  rewrite E1. intros j lj [[<- <-]|[_ Hj]]%lookup_insert_Some; auto.
Qed.

Lemma staged_store_ok s key l s' :
  ready s key → staged s key l s' → l ≠ [] → resident_bytes s' ≤ MAX_STORE_BYTES → store_ok s'.
Proof.
  intros [Hc Hb Hy Hk] Hs Hl Hn. pose proof (staged_core _ _ _ _ Hc Hs Hl) as Hc'.
  destruct Hs as [E1 _ _ _ _ (E2 & E3 & E4)]. split; [done| |done|].
  - intros b lo k Eb El Hks. apply (Hb b lo k); [congruence..|]. rewrite E1 in Hks.
    destruct (decide (k = key)) as [->|Hne]; [by left|right]. by rewrite lookup_insert_ne in Hks.
  - unfold key_count. rewrite E1. apply Hk.
Qed.

Lemma ready_store_ok s key : ready s key → store_ok s.
Proof.
  intros [Hc Hb Hy Hk]. split; [done| |done|].
  - intros b lo k Eb El Hks. apply (Hb b lo k); auto.
  - unfold key_count. etransitivity; [|apply (Hk [])]. apply inj_le. rewrite <- !size_dom.
    apply subseteq_size. rewrite dom_insert. set_solver.
Qed.

(** Filing a record and then trimming. *)
Lemma enforce_store_ok s key l s' :
  ready s key → staged s key l s' → l ≠ [] →
  store_ok (enforce_byte_budget s' key) ∧ entries (enforce_byte_budget s' key) !! key = Some l.
Proof.
  intros Hr Hs Hl. pose proof (staged_core _ _ _ _ (ready_core _ _ Hr) Hs Hl) as Hc'.
  destruct (enforce_byte_budget_spec s' key Hc') as (K1 & K2 & K3 & K4 & K5).
  destruct Hs as [E1 _ _ _ _ (E2 & E3 & E4)]. split.
  - split; [apply K1| |done|].
    + eapply shrunk_bound; [exact K1|done|]. intros b lo k Eb El Hks.
      apply (ready_bound _ _ Hr b lo k); [congruence..|]. rewrite E1 in Hks.
      destruct (decide (k = key)) as [->|Hne]; [by left|right]. by rewrite lookup_insert_ne in Hks.
    + pose proof (shrunk_key_count _ _ K1). unfold key_count in *. rewrite E1 in *.
      pose proof (ready_keys _ _ Hr l). lia.
  - rewrite K2, E1. apply lookup_insert_eq.
Qed.

(** Every record of [s'] was under its key in [s], or is [r] under [key]. *)
Definition comes_from (s : DhtStore) (key : bytes) (r : DhtRecord) (s' : DhtStore) : Prop :=
  ∀ k l' x, entries s' !! k = Some l' → x ∈ l' →
  (∃ l y, entries s !! k = Some l ∧ y ∈ l ∧ touched y x) ∨ (k = key ∧ x = r).

Lemma comes_from_shrunk s0 s key r s' s'' :
  shrunk s0 s → comes_from s key r s' → shrunk s' s'' → comes_from s0 key r s''.
Proof.
  intros H0 H1 H2 k l'' x Hl'' Hx. destruct (shrunk_rows _ _ H2 k l'' Hl'') as (l' & Hl' & Hs').
  assert (x ∈ l') as Hx' by by eapply sublist_subseteq.
  destruct (H1 k l' x Hl' Hx') as [(l & y & Hl & Hy & Ht)|?]; [left|by right].
  destruct (shrunk_rows _ _ H0 k l Hl) as (l0 & Hl0 & Hs). exists l0, y.
  split; [done|]. split; [by eapply sublist_subseteq|done].
Qed.

Lemma comes_from_row s key r l s' :
  entries s' = <[key := l]> (entries s) →
  (∀ x, x ∈ l → x = r ∨ ∃ y, y ∈ default [] (entries s !! key) ∧ touched y x) →
  comes_from s key r s'.
Proof.
  intros E H k l' x. rewrite E. intros [[<- <-]|[_ Hk]]%lookup_insert_Some Hx; [|by left; exists l', x].
  destruct (H x Hx) as [?|(y & Hy & Ht)]; [by right|left].
  destruct (entries s !! key) as [lk|]; [|by apply not_elem_of_nil in Hy]. eauto.
Qed.

(** ** The checks and the key slot *)
Lemma store_checks_inl now_unix s key d sig checked p c :
  store_checks now_unix s key d sig checked = inl (p, c) →
  (length d ≤ MAX_STORE_RECORD_BYTES)%nat ∧ signed_identity_from_record_data d = Some (key, p, c) ∧
  (checked = false → verify_record_signature d sig p = true).
Proof.
  unfold store_checks. case_decide as E1; [done|]. case_decide; [done|].
  destruct (signed_identity_from_record_data d) as [[[k p'] c']|]; [|done].
  case_bool_decide as E2; simpl; [|done].
  assert (∀ o, admit_created_at s c' (record_ttl d) now_unix = o → o.2 = s ∨ o.1 = false) as Ha.
  { intros o <-. unfold admit_created_at. repeat case_match; simpl; auto. }
  destruct (admit_created_at _ _ _ _) as [[] s1]; simpl; [|done].
  destruct (negb checked && negb (verify_record_signature d sig p')) eqn:Ev; [done|].
  destruct (feed_head_refused s1 key p' d); [done|]. intros [= <- <-]. subst k.
  split; [lia|]. split; [done|]. intros ->. by destruct (verify_record_signature d sig p').
Qed.

Lemma store_ok_reject s rj : store_ok s → store_ok (with_rejections s rj).
Proof. by apply store_ok_ext. Qed.

(** A record past the checks has not lapsed when it is filed. *)
Lemma store_checks_live now_unix now s key d sig checked p c ip :
  now_unix < i64_max → store_checks now_unix s key d sig checked = inl (p, c) →
  now_unix < expires_at_unix (new_record now_unix now d sig p c ip).
Proof.
  intros Hn Ec. destruct (store_checks_inl _ _ _ _ _ _ _ _ Ec) as (_ & Hid & _).
  unfold store_checks in Ec. do 2 (case_decide; [done|]). rewrite Hid in Ec.
  rewrite bool_decide_true in Ec by done. cbn [negb] in Ec. unfold admit_created_at in Ec.
  destruct (Z.ltb _ _); [done|]. destruct (Z.leb_spec (record_ttl d) (Z.max 0 (i64_saturating_sub now_unix c))) as [|Hlt]; [done|].
  pose proof (record_ttl_bounds d). cbn [new_record expires_at_unix].
  unfold i64_saturating_sub, i64_saturating_add, clamp, i64_min, i64_max in *.
  destruct (is_presence_departure d); lia.
Qed.

(** A refusal only moves a counter. *)
Lemma store_checks_inr now_unix s key d sig checked s' :
  store_checks now_unix s key d sig checked = inr s' → s' = s ∨ ∃ rj, s' = with_rejections s rj.
Proof.
  unfold store_checks. case_decide; [intros [= <-]; by left|]. case_decide; [intros [= <-]; right; by eexists|].
  destruct (signed_identity_from_record_data d) as [[[k p] c]|]; [|intros [= <-]; right; by eexists].
  destruct (negb (bool_decide (k = key))); [intros [= <-]; right; by eexists|].
  unfold admit_created_at. destruct (Z.ltb _ _); simpl; [intros [= <-]; right; by eexists|].
  destruct (Z.leb _ _); simpl; [intros [= <-]; right; by eexists|].
  destruct (negb checked && _); simpl; [intros [= <-]; right; by eexists|].
  destruct (feed_head_refused _ _ _ _); [intros [= <-]; right; by eexists|done].
Qed.

Lemma admit_key_spec now_room s key p ok s' :
  store_ok s → admit_key now_room s key p = (ok, s') →
  shrunk s s' ∧ store_ok s' ∧ (ok = true → ready s' key) ∧
  (is_Some (entries s !! key) → s' = s).
Proof.
  intros Hs. unfold admit_key. case_bool_decide as Ek.
  { intros [= <- <-]. pose proof Hs as [Hc Hb Hy Hk]. split; [by apply shrunk_refl|]. split; [done|]. split; [|done].
    intros _. split; [done| |done|].
    - intros b lo k Eb El [->|?]; by apply (Hb b lo).
    - intros l. rewrite map_size_insert. destruct Ek as [lk ->]. apply Hk. }
  destruct (make_room_core now_room s key p Hs) as (C1 & C2 & C3 & C4).
  destruct (make_room_for_key now_room s key p) as [ok1 s1]. cbn [fst snd] in *.
  destruct Hs as [_ _ Hy Hk]. pose proof (shrunk_key_count _ _ C3). pose proof (shrunk_bytes _ _ C3).
  assert (store_ok s1) as Hs1 by (split; [done|done|lia|lia]).
  destruct ok1; cbn [negb]; intros [= <- <-].
  2:{ split; [|split; [by apply store_ok_reject|by split]]. destruct C3 as [A B C D].
      split; [by apply (core_ext s1)|done..]. }
  set (f := match furthest_key_distance s1 with Some _ => _ | None => _ end).
  assert (ready (with_furthest s1 f) key) as Hr.
  { split; [by apply core_with_furthest| |simpl; lia|].
    - intros b lo k Eb El Hin. simpl in *. unfold f in Eb. rewrite El in Eb. simpl in Eb.
      destruct (furthest_key_distance s1) as [b0|] eqn:Ef; [|done]. injection Eb as <-.
      assert (k = key ∨ bytes_le (xor16 lo k) b0 = true) as [->|Hle].
      { destruct Hin as [?|Hin]; [by left|right]. by apply (C2 b0 lo k). }
      + destruct (bytes_le b0 (xor16 lo key)) eqn:E; [apply bytes_le_refl|].
        destruct (bytes_le_total b0 (xor16 lo key)); congruence.
      + destruct (bytes_le b0 (xor16 lo key)) eqn:E; [by eapply bytes_le_trans|done].
    - intros l. simpl. specialize (C4 eq_refl). unfold key_count in C4.
      rewrite map_size_insert. destruct (entries s1 !! key); simpl; lia. }
  split; [|split; [by eapply ready_store_ok|split; [done|by intros]]].
  destruct C3 as [A B C D]. split; [by apply core_with_furthest|done..].
Qed.

(** ** Replacing *)
Lemma cost_of_bound k r : record_ok k r → cost_of r ≤ 1165 + 4096.
Proof.
  intros [_ H _]. unfold cost_of, record_cost, MAX_STORE_RECORD_BYTES in *. pose proof size_of_record_ok. lia.
Qed.
Lemma no_overflow s key r :
  ready s key → record_ok key r → total_cost (all_records (entries s)) + cost_of r < usize_max.
Proof.
  intros [Hc _ Hy _] Hr%cost_of_bound. rewrite <- (core_bytes _ Hc).
  assert (MAX_STORE_BYTES + (1165 + 4096) < usize_max) by by vm_compute. lia.
Qed.

Lemma row_ok_insert k l pos r resident :
  row_ok k l → l !! pos = Some resident → record_ok k r → slot r = slot resident →
  row_ok k (<[pos := r]> l).
Proof.
  intros [H1 H2 H3 H4] Hp Hr Hs. split.
  - by apply Forall_insert.
  - by rewrite length_insert.
  - rewrite list_fmap_insert, Hs, list_insert_id; [done|]. by rewrite list_lookup_fmap, Hp.
  - intros p. specialize (H4 p).
    assert (∀ l, count_if (authored p) l = count_if (λ q, bool_decide (q.1 = p)) (slot <$> l)) as Hc
      by (intros; by rewrite count_if_fmap).
    rewrite Hc, list_fmap_insert, Hs, list_insert_id, <- Hc; [done|]. by rewrite list_lookup_fmap, Hp.
Qed.

Lemma insert_Permutation {A} (l : list A) pos x y :
  l !! pos = Some y → <[pos := x]> l ≡ₚ x :: delete pos l.
Proof.
  intros H. rewrite <- (delete_insert_list l pos x). apply delete_Permutation, list_lookup_insert_eq.
  by eapply lookup_lt_Some.
Qed.

(** The state [replace_record] trims when the resident gives way. *)
Definition replaced (s : DhtStore) (key : bytes) (r : DhtRecord) (pos : nat) (resident : DhtRecord)
    (records : list DhtRecord) : DhtStore :=
  let s1 := with_entries s (<[key := <[pos := r]> records]> (entries s)) in
  let s2 := with_bytes s1 (resident_bytes s1 + cost_of r - Z.min (cost_of resident) (resident_bytes s1)) in
  with_index s2 (charge (discharge (publisher_index s2) (publisher_key r) (cost_of resident) false
    (is_feed_head (data resident))) (publisher_key r) (cost_of r) false (is_feed_head (data r))).

Lemma replaced_staged s key r pos resident records :
  ready s key → record_ok key r → entries s !! key = Some records →
  records !! pos = Some resident → slot r = slot resident →
  staged s key (<[pos := r]> records) (replaced s key r pos resident records).
Proof.
  intros Hrd Hr Hk Hp Hs. pose proof (no_overflow _ _ _ Hrd Hr) as Hov. destruct Hrd as [Hc Hb Hy Hn].
  pose proof (extends_lookup (entries s) key) as X. rewrite Hk in X. cbn [default] in X.
  pose proof (extends_perm _ _ _ _ (delete_Permutation _ _ _ Hp) X) as X1.
  pose proof (extends_perm _ _ _ _ (insert_Permutation _ _ r _ Hp)
    (extends_insert (entries s) key (<[pos := r]> records))) as Y1.
  unfold replaced. split; simpl; [done| | | |done|done].
  - injection Hs as Hpk _. by eapply index_swap; [apply Hc|exact X1|exact Y1|done|].
  - rewrite (core_bytes _ Hc), (extends_total _ _ _ X1), (extends_total _ _ _ Y1), !total_cost_cons.
    pose proof (total_cost_nonneg (delete pos records)).
    pose proof (total_cost_nonneg (all_records (delete key (entries s)))). lia.
  - eapply row_ok_insert; [|exact Hp|done|done]. by apply (core_rows _ Hc).
Qed.

Lemma insert_not_nil {A} (l : list A) pos x y : l !! pos = Some y → <[pos := x]> l ≠ [].
Proof. destruct l, pos; done. Qed.

Lemma store_ok_touched s k l l' :
  store_ok s → entries s !! k = Some l → Forall2 touched l l' →
  store_ok (with_entries s (<[k := l']> (entries s))).
Proof.
  intros [Hc Hb Hy Hn] Hk Ht. split; [by eapply core_touched| |done|].
  - intros b lo j Eb El Hj. apply (Hb b lo j); [done..|]. simpl in Hj.
    destruct (decide (j = k)) as [->|Hne]; [eauto|by rewrite lookup_insert_ne in Hj].
  - unfold key_count. simpl. by rewrite map_size_insert, Hk.
Qed.

Lemma touched_insert l pos x y : l !! pos = Some x → touched x y → Forall2 touched l (<[pos := y]> l).
Proof.
  revert pos. induction l as [|z l IH]; intros [|pos]; simpl; intros H Ht; [done|done| |].
  - simplify_eq. constructor; [done|]. by apply Forall_Forall2_diag, Forall_true.
  - constructor; [done|]. by apply IH.
Qed.

(** A resident that has the content digest the offer lacks, and outlives the next
    republish. *)
Definition richer (now_unix : Z) (y r : DhtRecord) : Prop :=
  ember_digest_from_record_data (data y) ≠ repeat 0 32 ∧
  ember_digest_from_record_data (data r) = repeat 0 32 ∧
  now_unix + record_ttl (data r) / 2 < expires_at_unix y.

(** What is left of a [store_record] past the checks: the invariant, where every
    record comes from, and that an accepted record has its slot. *)
Record filed (now_unix : Z) (s : DhtStore) (key : bytes) (r : DhtRecord) (ok : bool) (s' : DhtStore) : Prop := mkFiled {
  filed_ok : store_ok s';
  filed_from : comes_from s key r s';
  filed_gives_way : ∀ l, entries s' !! key = Some l → r ∈ l → ∀ x, x ∈ default [] (entries s !! key) →
    slot x = slot r → touched x r ∨ resident_gives_way x (data r) (created_at r) (signature r) = true;
  filed_held : ok = true → ∃ l x, entries s' !! key = Some l ∧ x ∈ l ∧ slot x = slot r ∧
    (x = r ∧ (∀ y, y ∈ default [] (entries s !! key) → slot y = slot r → ¬ richer now_unix y r) ∨
     ∃ y, y ∈ default [] (entries s !! key) ∧ touched y x ∧ richer now_unix y r);
}.

Lemma richer_spec now_unix y r :
  negb (bool_decide (ember_digest_from_record_data (data y) = repeat 0 32))
  && bool_decide (ember_digest_from_record_data (data r) = repeat 0 32)
  && (now_unix + record_ttl (data r) / 2 <? expires_at_unix y) = true ↔ richer now_unix y r.
Proof.
  unfold richer. rewrite !andb_true_iff, negb_true_iff, bool_decide_eq_false, bool_decide_eq_true, Z.ltb_lt. tauto.
Qed.

Lemma replace_record_filed now_unix s key r pos resident records :
  ready s key → record_ok key r → entries s !! key = Some records →
  records !! pos = Some resident → slot r = slot resident →
  filed now_unix s key r (replace_record now_unix s key r pos resident records).1
    (replace_record now_unix s key r pos resident records).2.
Proof.
  intros Hrd Hr Hk Hp Hs. pose proof (ready_store_ok _ _ Hrd) as Hok.
  assert (∀ s', entries s' = entries s → comes_from s key r s') as Hsame.
  { intros s' E k l x Hl Hx. left. exists l, x. by rewrite <- E. }
  assert (∀ x, x ∈ records → slot x = slot r → x = resident) as Huniq.
  { intros x [j Hj]%list_elem_of_lookup Hx. rewrite Hs in Hx.
    pose proof (row_slots _ _ (proj1 (core_rows _ (ready_core _ _ Hrd) _ _ Hk))) as Hnd.
    assert (j = pos) as ->; [|congruence].
    eapply NoDup_lookup; [exact Hnd|by rewrite list_lookup_fmap, Hj|by rewrite list_lookup_fmap, Hp, Hx]. }
  assert (∀ s', entries s' = entries s → store_ok s' → filed now_unix s key r false s') as Hrefuse.
  { intros s' E Ho. split; [done|by apply Hsame| |done]. rewrite E, Hk. cbn [default].
    intros l [= <-] Hin x Hx Hsx. left. rewrite (Huniq x Hx Hsx). by rewrite (Huniq r Hin eq_refl). }
  unfold replace_record. destruct (resident_gives_way _ _ _ _) eqn:Eg; simpl; [|by apply Hrefuse, store_ok_reject].
  destruct (negb _ && _ && _) eqn:Ed; simpl.
  { set (kept := mkRecord _ _ _ _ _ _ _ _ _). assert (touched resident kept) as Ht by done.
    split; simpl.
    - eapply store_ok_touched; [done|exact Hk|]. by eapply touched_insert.
    - eapply (comes_from_row s key r); [done|]. intros x [j Hj]%list_elem_of_lookup. rewrite Hk. cbn [default].
      right. apply list_lookup_insert_Some in Hj as [(-> & <- & _)|[_ Hj]].
      + exists resident. split; [by eapply list_elem_of_lookup_2|done].
      + exists x. split; [by eapply list_elem_of_lookup_2|done].
    - intros l _ Hl x Hx Hsx. right. rewrite Hk in Hx. cbn [default] in Hx. by rewrite (Huniq x Hx Hsx).
    - intros _. exists (<[pos := kept]> records), kept. rewrite lookup_insert_eq. split; [done|].
      split; [eapply list_elem_of_lookup_2, list_lookup_insert_eq; by eapply lookup_lt_Some|].
      split; [done|]. right. exists resident. rewrite Hk. split; [by eapply list_elem_of_lookup_2|].
      split; [done|]. by apply richer_spec. }
  destruct (replacement_refused _ _ _ _ _ _); simpl; [by apply Hrefuse, store_ok_reject|].
  fold (replaced s key r pos resident records).
  pose proof (replaced_staged s key r pos resident records Hrd Hr Hk Hp Hs) as Hst.
  pose proof (insert_not_nil records pos r resident Hp) as Hne.
  destruct (enforce_store_ok _ _ _ _ Hrd Hst Hne) as [K1 K2]. split; [done| | |].
  - eapply (comes_from_shrunk s s key r (replaced s key r pos resident records)).
    + by apply shrunk_refl, Hrd.
    + eapply comes_from_row; [apply Hst|]. intros x [j Hj]%list_elem_of_lookup. rewrite Hk. cbn [default].
      apply list_lookup_insert_Some in Hj as [(-> & <- & _)|[_ Hj]]; [by left|right].
      exists x. split; [by eapply list_elem_of_lookup_2|done].
    + apply (enforce_byte_budget_spec _ key). by eapply staged_core; [apply Hrd|..].
  - intros l _ Hl x Hx Hsx. right. rewrite Hk in Hx. cbn [default] in Hx. by rewrite (Huniq x Hx Hsx).
  - intros _. exists (<[pos := r]> records), r. split; [done|].
    split; [eapply list_elem_of_lookup_2, list_lookup_insert_eq; by eapply lookup_lt_Some|].
    split; [done|left]. split; [done|]. rewrite Hk. cbn [default]. intros y Hy Hsy Hri.
    rewrite (Huniq y Hy Hsy) in Hri. apply richer_spec in Hri. cbn [repeat] in Hri. congruence.
Qed.

(** ** Inserting *)
Lemma reclaim_staged now_unix s key :
  ready s key →
  let records := default [] (entries s !! key) in
  let kept := retain (λ r, negb (expires_at_unix r <=? now_unix)) records in
  ∃ s1, reclaim_lapsed now_unix s key records = (kept, s1) ∧ staged s key kept s1 ∧
        resident_bytes s1 ≤ resident_bytes s.
Proof.
  intros [Hc Hb Hy Hn]. cbv zeta. set (records := default [] (entries s !! key)).
  set (lapsed := λ r, expires_at_unix r <=? now_unix). unfold reclaim_lapsed. fold lapsed.
  set (kept := retain (λ r, negb (lapsed r)) records). set (gone := retain lapsed records).
  change (retain (λ r, negb (expires_at_unix r <=? now_unix)) records) with kept.
  eexists. split; [reflexivity|].
  pose proof (extends_lookup (entries s) key) as X. fold records in X.
  assert (records ≡ₚ gone ++ kept) as Hp by apply (split_perm lapsed records).
  pose proof (extends_insert (entries s) key kept) as Y.
  pose proof (extends_total _ _ _ (extends_perm _ _ _ _ Hp X)) as T1. rewrite total_cost_app in T1.
  pose proof (extends_total _ _ _ Y) as T2.
  pose proof (total_cost_nonneg gone). pose proof (total_cost_nonneg kept).
  pose proof (total_cost_nonneg (all_records (delete key (entries s)))).
  split; [split|]; store_cbn; [done| | | |done|done|].
  - eapply index_release; [apply Hc|exact X|exact Y|done].
  - rewrite (core_bytes _ Hc). unfold usize_saturating_sub. lia.
  - eapply row_ok_sublist; [apply retain_sublist|]. unfold records.
    destruct (entries s !! key) as [l|] eqn:E; [by apply (core_rows _ Hc)|]. cbn [default].
    split; [done|apply Nat.le_0_l|constructor|intros p; apply Nat.le_0_l].
  - unfold usize_saturating_sub. rewrite (core_bytes _ Hc). lia.
Qed.

Lemma stalest_from_lt r l i n e : stalest_from i r l = Some (n, e) → (i ≤ n < i + length l)%nat.
Proof.
  revert i n e. induction l as [|x l IH]; intros i n e; cbn [stalest_from length]; [done|].
  destruct (stalest_from (S i) r l) as [[j e']|] eqn:E.
  - apply IH in E. repeat case_match; intros [= <- <-]; lia.
  - case_match; [|done]. intros [= <- <-]. lia.
Qed.

(** Filing [r] after the lapsed records went, with one listing dropped or none. *)
Definition pushed (s : DhtStore) (key : bytes) (r : DhtRecord) (mine : nat) (records : list DhtRecord)
    : DhtStore :=
  let s1 := with_bytes s (resident_bytes s + cost_of r) in
  let s2 := with_entries s1 (<[key := records ++ [r]]> (entries s1)) in
  with_index s2 (charge (publisher_index s2) (publisher_key r) (cost_of r) (bool_decide (mine = 0%nat))
                   (is_feed_head (data r))).

Lemma mine_holds r l :
  bool_decide (count_if (λ x, bool_decide (publisher_key x = publisher_key r)) l = 0%nat) =
  negb (holds (publisher_key r) l).
Proof.
  induction l as [|x l IH]; [done|]. rewrite count_if_cons, holds_cons. unfold authored.
  destruct (bool_decide (publisher_key x = publisher_key r)); [by rewrite bool_decide_false|done].
Qed.

Lemma row_ok_push k l r :
  row_ok k l → record_ok k r → (length l < MAX_RECORDS_PER_KEY)%nat → slot r ∉ slot <$> l →
  (count_if (authored (publisher_key r)) l < MAX_RECORDS_PER_PUBLISHER_PER_KEY)%nat →
  row_ok k (l ++ [r]).
Proof.
  intros [H1 H2 H3 H4] Hr Hl Hs Hc. split.
  - apply Forall_app. split; [done|by constructor].
  - rewrite length_app. simpl. lia.
  - rewrite fmap_app. apply NoDup_app. split; [done|]. split; [|apply NoDup_singleton].
    intros x Hx ->%list_elem_of_singleton. done.
  - intros p. rewrite count_if_app, count_if_cons, count_if_nil. specialize (H4 p).
    unfold authored in *. case_bool_decide as E; [subst p|]; lia.
Qed.

Lemma pushed_staged s key r l s1 :
  ready s key → staged s key l s1 → record_ok key r → resident_bytes s1 ≤ resident_bytes s →
  row_ok key (l ++ [r]) →
  staged s key (l ++ [r]) (pushed s1 key r
    (count_if (λ x, bool_decide (publisher_key x = publisher_key r)) l) l).
Proof.
  intros Hrd [E1 E2 E3 E4 E5 E6] Hr Hle Hrow.
  assert (entries (pushed s1 key r (count_if (λ x, bool_decide (publisher_key x = publisher_key r)) l) l)
          = <[key := l ++ [r]]> (entries s)) as Ee.
  { unfold pushed. simpl. by rewrite E1, insert_insert_eq. }
  pose proof (no_overflow _ _ _ Hrd Hr) as Hov. rewrite <- (core_bytes _ (ready_core _ _ Hrd)) in Hov.
  pose proof (extends_insert (entries s) key l) as X. rewrite <- E1 in X.
  pose proof (extends_perm _ _ (r :: l) _ (Permutation_sym (Permutation_cons_append l r))
    (extends_insert (entries s) key (l ++ [r]))) as Y.
  split; [exact Ee| | |done|done|done]; rewrite Ee.
  - unfold pushed. cbn [publisher_index with_index with_entries with_bytes]. rewrite mine_holds.
    eapply (index_charge _ (delete key (entries s))); [exact E2|exact X|exact Y|]. rewrite <- E3. lia.
  - unfold pushed. cbn [resident_bytes with_index with_entries with_bytes].
    rewrite E3, (extends_total _ _ _ X), (extends_total _ _ _ Y), total_cost_cons. lia.
Qed.

(** The state after a full shard dropped its listing at [at_]. *)
Definition dropped_at (s : DhtStore) (key : bytes) (r : DhtRecord) (at_ : nat) (dropped : DhtRecord)
    (records : list DhtRecord) : DhtStore :=
  let kept := delete at_ records in
  let s1 := with_bytes s (usize_saturating_sub (resident_bytes s) (cost_of dropped)) in
  let s2 := with_entries s1 (<[key := kept]> (entries s1)) in
  with_index s2 (discharge (publisher_index s2) (publisher_key dropped) (cost_of dropped)
    (negb (bool_decide (publisher_key dropped = publisher_key r)) && negb (holds (publisher_key dropped) kept))
    (is_feed_head (data dropped))).

Lemma drop_stalest_cases s key r l :
  drop_stalest s key r l = (l, s) ∨
  (MAX_RECORDS_PER_KEY ≤ length l)%nat ∧ ∃ at_ x, l !! at_ = Some x ∧
    drop_stalest s key r l = (delete at_ l, dropped_at s key r at_ x l).
Proof.
  unfold drop_stalest. destruct (bool_decide _ && _) eqn:E; cbn [negb]; [|by left].
  apply andb_true_iff in E as [E%bool_decide_eq_true _].
  destruct (stalest_from 0 r l) as [[n e]|] eqn:Es; simpl; [|by left].
  destruct (l !! n) as [x|] eqn:Ex; simpl; [|by left]. right. split; [done|]. by exists n, x.
Qed.

Lemma dropped_pushed_staged s key r l s1 at_ x :
  ready s key → staged s key l s1 → record_ok key r → resident_bytes s1 ≤ resident_bytes s →
  l !! at_ = Some x → row_ok key (delete at_ l ++ [r]) →
  staged s key (delete at_ l ++ [r]) (pushed (dropped_at s1 key r at_ x l) key r
    (count_if (λ y, bool_decide (publisher_key y = publisher_key r)) l) (delete at_ l)).
Proof.
  intros Hrd Hst Hr Hle Hx Hrow. pose proof (delete_Permutation _ _ _ Hx) as Hp.
  set (kept := delete at_ l) in *. pose proof Hst as [E1 E2 E3 E4 E5 E6].
  pose proof (extends_insert (entries s) key l) as X. rewrite <- E1 in X. apply (extends_perm _ _ _ _ Hp) in X.
  pose proof (extends_insert (entries s) key kept) as Y.
  pose proof (extends_total _ _ _ X) as TX. pose proof (extends_total _ _ _ Y) as TY. rewrite total_cost_cons in TX.
  pose proof (total_cost_nonneg kept). pose proof (total_cost_nonneg (all_records (delete key (entries s)))).
  assert (usize_saturating_sub (resident_bytes s1) (cost_of x) = total_cost (all_records (<[key := kept]> (entries s)))) as Hb
    by (unfold usize_saturating_sub; lia).
  destruct (decide (publisher_key x = publisher_key r)) as [Ep|Ep].
  - pose proof (no_overflow _ _ _ Hrd Hr) as Hov. rewrite <- (core_bytes _ (ready_core _ _ Hrd)) in Hov.
    pose proof (extends_perm _ _ (r :: kept) _ (Permutation_sym (Permutation_cons_append kept r))
      (extends_insert (entries s) key (kept ++ [r]))) as Z.
    assert (<[key := kept ++ [r]]> (<[key := kept]> (entries s1)) = <[key := kept ++ [r]]> (entries s)) as Ee
      by (by rewrite E1, !insert_insert_eq).
    assert (bool_decide (count_if (λ y, bool_decide (publisher_key y = publisher_key r)) l = 0%nat) = false) as Em.
    { rewrite mine_holds, (holds_proper _ _ _ Hp), holds_cons. unfold authored. by rewrite bool_decide_true. }
    unfold pushed, dropped_at. fold kept. rewrite Em, (bool_decide_true (publisher_key x = _)) by done.
    cbn [negb andb]. split; store_cbn; [done| | |done|done|done]; rewrite Ee.
    + rewrite Ep. eapply index_swap; [exact E2|exact X|exact Z|done|]. rewrite <- E3. lia.
    + rewrite Hb, TY, (extends_total _ _ _ Z), total_cost_cons. lia.
  - assert (staged s key kept (dropped_at s1 key r at_ x l)) as Hst2.
    { unfold dropped_at. fold kept. rewrite (bool_decide_false (publisher_key x = _)) by done. cbn [negb andb].
      split; store_cbn; [by rewrite E1, insert_insert_eq| | | |done|done]; rewrite ?E1, ?insert_insert_eq.
      - eapply index_release_one; [exact E2|exact X|exact Y].
      - done.
      - eapply row_ok_sublist; [apply sublist_delete|exact E4]. }
    assert (count_if (λ y, bool_decide (publisher_key y = publisher_key r)) l =
            count_if (λ y, bool_decide (publisher_key y = publisher_key r)) kept) as ->.
    { rewrite Hp, count_if_cons. by rewrite bool_decide_false. }
    apply pushed_staged; [done|done|done| |done]. unfold dropped_at. store_cbn. fold kept.
    unfold usize_saturating_sub. pose proof (cost_of_pos x). rewrite E3 in *. pose proof (total_cost_nonneg (all_records (entries s1))). lia.
Qed.

Lemma publisher_cap_bounds d :
  (0 < publisher_cap d ≤ MAX_RECORDS_PER_PUBLISHER_PER_KEY)%nat.
Proof.
  unfold publisher_cap, MAX_FEED_LISTINGS_PER_PUBLISHER_PER_KEY, MAX_RECORDS_PER_PUBLISHER_PER_KEY.
  destruct (has_type _ _); lia.
Qed.
Lemma source_ip_full_nil s r : source_ip_full s r [] = false.
Proof.
  unfold source_ip_full. destruct (source_ip_class r) as [[ip []]|]; [| |done];
    apply bool_decide_eq_false; unfold source_ip_cap, RELAYED_SOURCES_PER_IP_FACTOR; cbn [snd];
    rewrite count_if_nil; destruct (store_scale s); cbn; lia.
Qed.

Lemma staged_reject s key l s1 rj : staged s key l s1 → staged s key l (with_rejections s1 rj).
Proof. intros [? ? ? ? ? ?]. by split. Qed.

Section insert.
Context (s : DhtStore) (key : bytes) (r : DhtRecord).
Context (Hrd : ready s key) (Hr : record_ok key r).
Let records := default [] (entries s !! key).
Context (Hfresh : slot r ∉ slot <$> records).

Lemma fresh_absent x : x ∈ records → slot x ≠ slot r.
Proof. intros Hx E. apply Hfresh. rewrite <- E. by apply list_elem_of_fmap_2. Qed.

(** A refusal after the lapsed records went. *)
Lemma refused_filed now_unix l s1 rj :
  staged s key l s1 → resident_bytes s1 ≤ resident_bytes s → l `sublist_of` records → l ≠ [] →
  filed now_unix s key r false (with_rejections s1 rj).
Proof.
  intros Hst Hle Hl Hne. split; [| | |done].
  - eapply staged_store_ok; [done|by apply staged_reject|done|].
    pose proof (ready_bytes _ _ Hrd). simpl. lia.
  - eapply comes_from_row; [apply Hst|]. intros x Hx. right. exists x. split; [|done]. by eapply sublist_subseteq.
  - simpl. rewrite (staged_entries _ _ _ _ Hst), lookup_insert_eq. intros l' [= <-] Hin x Hx Hs.
    by destruct (fresh_absent x Hx).
Qed.

Lemma pushed_filed now_unix l s2 :
  staged s key (l ++ [r]) s2 → l `sublist_of` records →
  filed now_unix s key r true (enforce_byte_budget s2 key).
Proof.
  intros Hst Hl. assert (l ++ [r] ≠ []) as Hne by (by destruct l).
  destruct (enforce_store_ok _ _ _ _ Hrd Hst Hne) as [K1 K2]. split; [done| | |].
  - eapply (comes_from_shrunk s s key r s2).
    + by apply shrunk_refl, Hrd.
    + eapply comes_from_row; [apply Hst|]. intros x. rewrite elem_of_app, list_elem_of_singleton.
      intros [Hx| ->]; [right|by left]. exists x. split; [by eapply sublist_subseteq|done].
    + apply (enforce_byte_budget_spec _ key). by eapply staged_core; [apply Hrd|..].
  - intros l' _ _ x Hx Hs. by destruct (fresh_absent x Hx).
  - intros _. exists (l ++ [r]), r. split; [done|]. split; [apply elem_of_app; right; by left|].
    split; [done|left]. split; [done|]. intros y Hy Hsy. by destruct (fresh_absent y Hy).
Qed.

Lemma insert_record_filed now_unix :
  filed now_unix s key r (insert_record now_unix s key r records).1 (insert_record now_unix s key r records).2.
Proof.
  unfold insert_record. destruct (reclaim_staged now_unix s key Hrd) as (s1 & Er & Hst & Hle).
  fold records in Er, Hst. rewrite Er. set (l := retain _ records) in *.
  assert (l `sublist_of` records) as Hl by apply retain_sublist.
  destruct (source_ip_full s1 r l) eqn:Ef; cbn [fst snd].
  { eapply refused_filed; [exact Hst|done|done|]. intros E. by rewrite E, source_ip_full_nil in Ef. }
  set (mine := count_if _ l). pose proof (publisher_cap_bounds (data r)) as Hcap.
  destruct (decide (publisher_cap (data r) ≤ mine)%nat) as [Hm|Hm]; cbn [fst snd].
  { eapply refused_filed; [exact Hst|done|done|]. intros E. unfold mine in Hm. rewrite E, count_if_nil in Hm. lia. }
  pose proof (staged_row _ _ _ _ Hst) as Hrow.
  assert (∀ l', l' `sublist_of` l → (length l' < MAX_RECORDS_PER_KEY)%nat → row_ok key (l' ++ [r])) as Hpush.
  { intros l' Hs Hlen. apply row_ok_push; [by eapply row_ok_sublist|done|done| |].
    - intros Hin. apply Hfresh. eapply sublist_subseteq; [|exact Hin]. apply fmap_sublist. by etransitivity.
    - pose proof (count_if_submseteq (authored (publisher_key r)) _ _ (sublist_submseteq _ _ Hs)).
      unfold mine, authored in *. lia. }
  destruct (drop_stalest_cases s1 key r l) as [->|(Hfull & at_ & x & Hx & ->)].
  - destruct (decide (MAX_RECORDS_PER_KEY ≤ length l)%nat) as [Hlen|Hlen]; cbn [fst snd].
    + eapply refused_filed; [exact Hst|done|done|]. intros E. rewrite E in Hlen. unfold MAX_RECORDS_PER_KEY in Hlen. cbn in Hlen. lia.
    + fold (pushed s1 key r mine l). eapply pushed_filed; [|exact Hl].
      apply pushed_staged; [done..|]. apply Hpush; [done|lia].
  - assert (length (delete at_ l) < MAX_RECORDS_PER_KEY)%nat as Hlen.
    { pose proof (row_len _ _ Hrow). rewrite length_delete by eauto. apply lookup_lt_Some in Hx. lia. }
    rewrite decide_False by lia. cbn [fst snd]. fold (pushed (dropped_at s1 key r at_ x l) key r mine (delete at_ l)).
    assert (delete at_ l `sublist_of` l) as Hd by apply sublist_delete.
    eapply pushed_filed; [|by etransitivity].
    apply dropped_pushed_staged; [done..|]. by apply Hpush.
Qed.
End insert.
End ops.
