(* ===== verification/DhtStoreSafety.v ===== *)
(** * The record store in every reachable state

    The store the engine builds ([engine.rs] sets the node id and the publisher
    key on a new store) and every sequence of its operations. *)
From S2P Require Import Prelude NodeId Addr Contact Record DhtStore DhtIndex DhtStoreInv DhtRoom DhtStoreOps.
Local Open Scope Z_scope.

Section safety.
Context `{Env : StoreEnv} `{Order : HashOrder}.

(** ** [store_record] *)
Lemma filed_before now_unix s0 s key r ok s' :
  shrunk s0 s → (is_Some (entries s0 !! key) → s = s0) → filed now_unix s key r ok s' → filed now_unix s0 key r ok s'.
Proof.
  intros Hs He [F1 F2 F3 F4].
  assert (default [] (entries s !! key) = default [] (entries s0 !! key)) as E.
  { destruct (entries s0 !! key) as [l|] eqn:E0; [by rewrite He by eauto; rewrite E0|].
    destruct (entries s !! key) as [l|] eqn:E1; [|done].
    destruct (shrunk_rows _ _ Hs key l E1) as (? & ? & _). congruence. }
  rewrite E in *. split; [done| |done|done].
  eapply comes_from_shrunk; [exact Hs|exact F2|]. apply shrunk_refl, F1.
Qed.

(** What a [store_record] past its checks amounts to. *)
Lemma store_record_filed now_unix now_room now s key d sig ip checked p c :
  store_ok s → store_checks now_unix s key d sig checked = inl (p, c) →
  (checked = true → verify_record_signature d sig p = true) →
  let r := new_record now_unix now d sig p c ip in
  let o := store_record now_unix now_room now s key d sig ip checked in
  store_ok o.2 ∧ (filed now_unix s key r o.1 o.2 ∨ o.1 = false ∧ shrunk s o.2).
Proof.
  intros Hs Ec Hv. cbv zeta. unfold store_record. rewrite Ec.
  destruct (store_checks_inl _ _ _ _ _ _ _ _ Ec) as (Hlen & Hid & Hv').
  assert (record_ok key (new_record now_unix now d sig p c ip)) as Hr
    by (split; [done|done|by destruct checked; auto]).
  set (r := new_record now_unix now d sig p c ip) in *.
  destruct (admit_key now_room s key p) as [ok s1] eqn:Ea.
  destruct (admit_key_spec _ _ _ _ _ _ Hs Ea) as (A1 & A2 & A3 & A4).
  destruct ok; cbn [negb]; [|by split; [|right]]. specialize (A3 eq_refl).
  set (records := default [] (entries s1 !! key)).
  assert (∀ o, filed now_unix s1 key r o.1 o.2 → store_ok o.2 ∧ (filed now_unix s key r o.1 o.2 ∨ o.1 = false ∧ shrunk s o.2)) as Hgo.
  { intros o Hf. split; [apply Hf|left]. by eapply filed_before. }
  destruct (position _ records) as [pos|] eqn:Ep; cbn [mbind option_bind].
  - apply position_lookup in Ep as (x & Hx & Hsx). rewrite Hx. cbn [mbind option_bind]. apply Hgo.
    apply andb_true_iff in Hsx as [E1%bool_decide_eq_true E2%bool_decide_eq_true].
    unfold records in *. destruct (entries s1 !! key) as [l|] eqn:El; [|done]. cbn [default] in *.
    apply replace_record_filed; [done..|]. unfold slot. by rewrite E1, E2.
  - apply Hgo, insert_record_filed; [done|done|]. fold records. intros (x & Ex & Hx)%list_elem_of_fmap.
    apply position_None in Ep. rewrite Forall_forall in Ep. specialize (Ep x Hx).
    injection Ex as Ex1 Ex2. unfold same_slot in Ep. by rewrite !bool_decide_true in Ep.
Qed.

Lemma store_record_ok now_unix now_room now s key d sig ip checked :
  store_ok s →
  (∀ k p c, checked = true → signed_identity_from_record_data d = Some (k, p, c) →
            verify_record_signature d sig p = true) →
  store_ok (store_record now_unix now_room now s key d sig ip checked).2.
Proof.
  intros Hs Hv. destruct (store_checks now_unix s key d sig checked) as [[p c]|s'] eqn:Ec.
  - apply (store_record_filed now_unix now_room now s key d sig ip checked p c Hs Ec).
    intros Hch. destruct (store_checks_inl _ _ _ _ _ _ _ _ Ec) as (_ & Hid & _). by eapply Hv.
  - unfold store_record. rewrite Ec. apply store_checks_inr in Ec as [->|[rj ->]]; [done|].
    by apply store_ok_reject.
Qed.

(** ** Restoring *)
Lemma restore_verified_ok s l :
  store_ok s →
  (∀ x k p c, x ∈ l → signed_identity_from_record_data (p_data x.2) = Some (k, p, c) →
              verify_record_signature (p_data x.2) (p_signature x.2) p = true) →
  store_ok (restore_verified s l).2.
Proof.
  intros Hs Hv. unfold restore_verified. apply (foldl_inv (λ a, store_ok a.2)); [done|].
  intros [n s1] [[[nu nr] nw] pr] Hin H1. cbn [snd] in *. destruct (restorable nu pr) as [key|]; [|done].
  pose proof (store_record_ok nu nr nw s1 key (p_data pr) (p_signature pr) None true H1
    (λ k p c _, Hv _ k p c Hin)) as H2.
  by destruct (store_record _ _ _ _ _ _ _ _ _) as [[] s2].
Qed.

Lemma verify_records_signed now_unix l r k p c :
  r ∈ verify_records now_unix l → signed_identity_from_record_data (p_data r) = Some (k, p, c) →
  verify_record_signature (p_data r) (p_signature r) p = true.
Proof.
  unfold verify_records. intros [H _]%elem_of_retain E. rewrite E in H.
  rewrite !andb_true_iff in H. tauto.
Qed.

(** ** Republishing *)
Lemma republish_walk_touched now now_unix interval max force skip idx l out :
  Forall2 touched l (republish_walk now now_unix interval max force skip idx l out).1.1.
Proof.
  revert idx out. induction l as [|r l IH]; intros idx out; cbn [republish_walk]; [constructor|].
  case_decide; [|case_decide].
  - specialize (IH (S idx) out). destruct (republish_walk _ _ _ _ _ _ _ l out) as [[l' o'] st].
    by constructor.
  - by apply Forall_Forall2_diag, Forall_true.
  - match goal with |- context [republish_walk _ _ _ _ _ _ _ l ?o] => specialize (IH (S idx) o) end.
    destruct (republish_walk _ _ _ _ _ _ _ l _) as [[l' o'] st]. constructor; [|done].
    by destruct (_ && _).
Qed.

Lemma republish_keys_ok now now_unix interval max force skip ks s out :
  store_ok s →
  store_ok (with_entries s (republish_keys now now_unix interval max force skip ks (entries s) out).1.1).
Proof.
  revert s skip out. induction ks as [|k ks IH]; intros s skip out Hs; cbn [republish_keys].
  { by apply (store_ok_ext s). }
  destruct (entries s !! k) as [l|] eqn:Ek; [|by apply IH].
  pose proof (republish_walk_touched now now_unix interval max force skip 0 l out) as Ht.
  destruct (republish_walk _ _ _ _ _ _ _ _ _) as [[l' out'] stop]. cbn [fst] in Ht.
  pose proof (store_ok_touched s k l l' Hs Ek Ht) as Hs1.
  destruct stop as [idx|]; [done|]. apply (IH _ 0%nat out') in Hs1. exact Hs1.
Qed.

Lemma store_ok_cursor s c : store_ok s → store_ok (with_cursor s c).
Proof. by apply store_ok_ext. Qed.

Lemma take_republish_batch_ok now now_unix interval max force s :
  store_ok s → store_ok (take_republish_batch now now_unix interval max force s).2.
Proof.
  intros Hs. unfold take_republish_batch. case_bool_decide; [by apply store_ok_cursor|].
  destruct (match republish_cursor s with Some _ => _ | None => _ end) as [start skip].
  match goal with |- context [republish_keys ?a ?b ?c ?d ?e ?f ?g ?h ?i] =>
    pose proof (republish_keys_ok a b c d e f g s i Hs) as H' end.
  destruct (republish_keys _ _ _ _ _ _ _ _ _) as [[m out] cur]. by apply store_ok_cursor.
Qed.

Lemma mark_republish_due_ok s key sig : store_ok s → store_ok (mark_republish_due s key sig).
Proof.
  intros Hs. unfold mark_republish_due. destruct (entries s !! key) as [l|] eqn:E; [|done].
  destruct (position _ l) as [pos|] eqn:Ep; [|done].
  apply position_lookup in Ep as (x & Hx & _). rewrite (alter_insert_list _ _ _ x Hx).
  eapply store_ok_touched; [done|exact E|]. by eapply touched_insert.
Qed.

(** ** Settings *)
Lemma index_tracks_recount i m :
  (∀ p, load i !! p = if decide (keys_of m p = 0 ∧ bytes_by p (all_records m) = 0) then None
                      else Some (load_of (keys_of m) (all_records m) p)) →
  shares_ok i → index_tracks (recount i) m.
Proof. intros H Hs. split; [|done]. by split. Qed.

Lemma store_ok_index s i :
  store_ok s → index_tracks i (entries s) → store_ok (with_index s i).
Proof. intros [[H1 H2 H3 H4] Hb Hy Hk] Hi. by split; [split|..]. Qed.

Lemma set_local_publisher_key_ok s p : store_ok s → store_ok (set_local_publisher_key s p).
Proof.
  intros Hs. apply store_ok_index; [done|]. destruct (core_index _ (ok_core _ Hs)) as [[H _] Hsh].
  by apply index_tracks_recount.
Qed.

Lemma shares_settings :
  0 < MAX_KEYS_PER_PUBLISHER ∧ 0 < MAX_BYTES_PER_PUBLISHER ∧
  0 < MAX_KEYS_PER_PUBLISHER_UNFILTERED ∧ 0 < MAX_BYTES_PER_PUBLISHER_UNFILTERED.
Proof. by vm_compute. Qed.

Lemma set_responsibility_filtered_ok s b : store_ok s → store_ok (set_responsibility_filtered s b).
Proof.
  intros Hs. unfold set_responsibility_filtered. destruct (Bool.eqb _ _); [done|].
  destruct (core_index _ (ok_core _ Hs)) as [[H _] Hsh].
  set (i := if b then _ else _). apply (store_ok_ext (with_index s i)); [done..|].
  apply store_ok_index; [done|]. destruct shares_settings as (S1 & S2 & S3 & S4).
  unfold i. destruct b; apply index_tracks_recount; done.
Qed.

(** ** Reachable stores *)

(** The calls the engine makes; [OpRestore] passes what [VerifiedRecords::verify]
    kept, as the type of [restore_verified] demands. *)
Inductive store_op :=
  | OpStore (now_unix now_room now : Z) (key d sig : bytes) (ip : option Ipv4Addr)
  | OpExpire (now_unix : Z)
  | OpDropFiles (p : bytes) (file_hashes : gset bytes)
  | OpRepublish (now now_unix interval : Z) (max : nat) (force : bool)
  | OpMarkDue (key sig : bytes)
  | OpRestore (verified_at : Z) (clock : nat → Z * Z * Z) (l : list PersistedRecord)
  | OpScale (t : NetworkScale)
  | OpFiltered (filtered : bool).

Definition run_op (s : DhtStore) (op : store_op) : DhtStore :=
  match op with
  | OpStore now_unix now_room now key d sig ip =>
      (store_attributed now_unix now_room now s key d sig ip).2
  | OpExpire now_unix => (expire now_unix s).2
  | OpDropFiles p files => (drop_publisher_files s p files).2
  | OpRepublish now now_unix interval max force =>
      (take_republish_batch now now_unix interval max force s).2
  | OpMarkDue key sig => mark_republish_due s key sig
  | OpRestore at_ clock l =>
      (restore_verified s (imap (λ i r, (clock i, r)) (verify_records at_ l))).2
  | OpScale t => set_scale s t
  | OpFiltered b => set_responsibility_filtered s b
  end.

(** The store as [EmberDhtEngine::new] builds it. *)
Definition engine_store (local_id : EmberNodeId) (pk : bytes) : DhtStore :=
  set_local_publisher_key (set_local_id DhtStore_new local_id) pk.
Definition reached (local_id : EmberNodeId) (pk : bytes) (ops : list store_op) : DhtStore :=
  foldl run_op (engine_store local_id pk) ops.

Lemma store_ok_engine local_id pk : store_ok (engine_store local_id pk).
Proof.
  apply set_local_publisher_key_ok. split; [|done|done|done]. split; [|done|done|done].
  split; [|by vm_compute]. split; [|done]. intros p. by rewrite decide_True.
Qed.

Lemma store_ok_run_op s op : store_ok s → store_ok (run_op s op).
Proof.
  intros Hs. destruct op; cbn [run_op].
  - by apply store_record_ok.
  - by apply store_ok_sweep.
  - unfold drop_publisher_files. case_bool_decide; [done|]. by apply store_ok_sweep.
  - by apply take_republish_batch_ok.
  - by apply mark_republish_due_ok.
  - apply restore_verified_ok; [done|]. intros x k p c (i & r & -> & Hr)%elem_of_lookup_imap. cbn [snd].
    apply (verify_records_signed verified_at l r k p c). by eapply list_elem_of_lookup_2.
  - by apply (store_ok_ext s).
  - by apply set_responsibility_filtered_ok.
Qed.

Lemma store_ok_reached local_id pk ops : store_ok (reached local_id pk ops).
Proof.
  apply (foldl_inv store_ok); [apply store_ok_engine|]. intros s op _. apply store_ok_run_op.
Qed.

(** The index's answers are a recount's. *)
Lemma over_share_recount i m p :
  index_tracks i m →
  over_share i p = counted i p && ((key_share i <=? keys_of m p) || (byte_share i <=? bytes_by p (all_records m))).
Proof.
  intros [[H _] [Hk Hb]]. unfold over_share. destruct (counted i p); cbn [negb andb]; [|done].
  rewrite H. case_decide as E; [|done]. destruct E as [-> ->]. symmetry.
  rewrite orb_false_iff, !Z.leb_gt. lia.
Qed.
Lemma over_share_crowds i p : over_share i p = true ↔ ∃ l, load i !! p = Some l ∧ crowds i (p, l) = true.
Proof.
  unfold over_share, crowds. cbn [fst snd]. destruct (counted i p); cbn [negb andb].
  - destruct (load i !! p) as [l|]; [|by split; [|intros (? & ? & _)]].
    split; [eauto|]. by intros (l' & [= ->] & ?).
  - split; [done|]. by intros (? & _ & ?).
Qed.
Lemma anyone_over_share_spec i m :
  index_tracks i m → anyone_over_share i = true ↔ ∃ p, over_share i p = true.
Proof.
  intros [[_ H] _]. unfold anyone_over_share. rewrite H, Z.ltb_lt.
  setoid_rewrite over_share_crowds. split.
  - intros Hpos. destruct (retain (crowds i) (map_to_list (load i))) as [|[p l] L] eqn:E.
    { unfold count_if in Hpos. rewrite E in Hpos. by simpl in Hpos. }
    assert ((p, l) ∈ retain (crowds i) (map_to_list (load i))) as Hin by (rewrite E; left).
    apply elem_of_retain in Hin as [Hc Hin%elem_of_map_to_list]. eauto.
  - intros (p & l & Hl & Hc). assert ((p, l) ∈ retain (crowds i) (map_to_list (load i))) as Hin
      by (apply elem_of_retain; by rewrite elem_of_map_to_list).
    unfold count_if. destruct (retain _ _); [by apply not_elem_of_nil in Hin|simpl; lia].
Qed.

(** C2: the running totals never drift.  After any sequence of operations the
    byte total equals the cost of the records held, and the publisher index
    answers what a scan of the whole store would: a publisher is over its share
    exactly when the keys it has records under, or its bytes, reach the share;
    its feed heads are full exactly when it holds 64 of them; and the count of
    publishers over their share is non-zero exactly when there is one. *)
Theorem store_bookkeeping_exact local_id pk ops p :
  let s := reached local_id pk ops in
  let i := publisher_index s in
  resident_bytes s = total_cost (all_records (entries s)) ∧
  over_share i p = counted i p && ((key_share i <=? keys_of (entries s) p)
                                   || (byte_share i <=? bytes_by p (all_records (entries s)))) ∧
  feed_heads_full i p = counted i p && (64 <=? heads_by p (all_records (entries s))) ∧
  (anyone_over_share i = true ↔ ∃ q, over_share i q = true).
Proof.
  cbv zeta. pose proof (store_ok_reached local_id pk ops) as [[Hi Hb _ _] _ _ _].
  split; [done|]. split; [by apply over_share_recount|]. split; [|by eapply anyone_over_share_spec].
  unfold feed_heads_full. f_equal. rewrite (tracks_load _ _ _ (proj1 Hi)).
  case_decide as E; [|done]. pose proof (heads_le_bytes p (all_records (entries (reached local_id pk ops)))).
  symmetry. apply Z.leb_gt. lia.
Qed.

(** C3: the limits hold in every reachable store: 48 MiB of records, 50,000 keys,
    no key without records, at most 1,000 records under a key and 150 of one
    publisher, and at most one record per publisher and file under a key. *)
Theorem store_limits_reachable local_id pk ops :
  let s := reached local_id pk ops in
  resident_bytes s ≤ 48 * 1024 * 1024 ∧ key_count s ≤ 50000 ∧
  ∀ k l, entries s !! k = Some l →
    l ≠ [] ∧ (length l ≤ 1000)%nat ∧ (∀ p, count_if (authored p) l ≤ 150)%nat ∧ NoDup (slot <$> l).
Proof.
  cbv zeta. pose proof (store_ok_reached local_id pk ops) as [[_ _ Hr _] _ Hy Hk].
  split; [exact Hy|]. split; [exact Hk|]. intros k l Hl. by destruct (Hr k l Hl) as [[H1 H2 H3 H4] Hne].
Qed.

(** C20: no record is attributed to anyone who did not sign it, and none sits
    under a key its signed body does not name: every record of a reachable store
    was verified against the publisher key in its own body, and its key,
    publisher and creation stamp are the ones the body states. *)
Theorem store_provenance_reachable local_id pk ops k l r :
  entries (reached local_id pk ops) !! k = Some l → r ∈ l →
  signed_identity_from_record_data (data r) = Some (k, publisher_key r, created_at r) ∧
  verify_record_signature (data r) (signature r) (publisher_key r) = true ∧
  (length (data r) ≤ MAX_STORE_RECORD_BYTES)%nat.
Proof.
  intros Hl Hr. pose proof (store_ok_reached local_id pk ops) as [[_ _ Hrow _] _ _ _].
  destruct (Hrow k l Hl) as [[H1 _ _ _] _]. rewrite Forall_forall in H1. by destruct (H1 r Hr).
Qed.
End safety.

(** ** A concrete store

    A signature scheme that accepts 64-byte signatures starting with the
    publisher's first byte, and a record struct of 200 bytes. *)
Lemma sample_size_ok : 0 < 200 ≤ 4096.
Proof. lia. Qed.
#[export] Instance sample_order : HashOrder :=
  {| hash_iter := λ V m, map_to_list m; hash_iter_perm := λ V m, reflexivity _ |}.
#[export] Instance sample_env : StoreEnv :=
  {| verify_record_signature := λ d sig p, bool_decide (length sig = 64%nat ∧ head sig = head p);
     size_of_record := 200;
     channel_store_ok := λ _ _, true;
     feed_store_ok := λ _ _, true;
     feed_listing_store_ok := λ _ _, true;
     is_feed_index_key := λ _, false;
     size_of_record_ok := sample_size_ok |}.

(** A keyword record of publisher [p] for file [f] under key [k], created at
    [t] (below 256). *)
Definition sample_body (k f p t : Z) : bytes :=
  [RECORD_TYPE_KEYWORD] ++ repeat k 16 ++ repeat f 16 ++ repeat 0 32 ++ repeat 0 8 ++ repeat p 32
  ++ [t; 0; 0; 0; 0; 0; 0; 0] ++ [0; 0].
Definition sample_store_op (k f p t : Z) : store_op :=
  OpStore 100 100 7 (repeat k 16) (sample_body k f p t) (repeat p 64) None.
Definition sample_ops : list store_op := [sample_store_op 1 9 3 50; sample_store_op 2 9 4 60].
Definition sample_store : DhtStore := reached (repeat 0 16) (repeat 8 32) sample_ops.

Lemma sample_store_ok : store_ok sample_store.
Proof. apply store_ok_reached. Qed.

Definition sample_row : list DhtRecord :=
  Eval vm_compute in default [] (entries sample_store !! repeat 1 16).
Lemma sample_row_lookup : entries sample_store !! repeat 1 16 = Some sample_row.
Proof. vm_compute. reflexivity. Qed.

Lemma store_provenance_reachable_witness :
  ∃ r, r ∈ sample_row ∧ publisher_key r = repeat 3 32 ∧
    signed_identity_from_record_data (data r) = Some (repeat 1 16, publisher_key r, created_at r).
Proof.
  eexists. split; [left|]. split; [reflexivity|].
  refine (proj1 (store_provenance_reachable (repeat 0 16) (repeat 8 32) sample_ops (repeat 1 16) sample_row _
           sample_row_lookup _)). left.
Defined.
