(* ===== verification/DhtStoreService.v ===== *)
(** * What the record store's callers see

    Storing, replacing, expiring and republishing, as statements about the
    records a key serves. *)
From S2P Require Import Prelude NodeId Addr Contact Record DhtStore DhtIndex DhtStoreInv DhtRoom DhtStoreOps DhtStoreSafety.
Local Open Scope Z_scope.

(** ** Which of two records of a slot stays *)

(** [x] is not older than [y]: by feed sequence where both carry one, then by
    stamp. *)
Definition not_older (y x : DhtRecord) : Prop :=
  match feed_head_sequence_of (data y), feed_head_sequence_of (data x) with
  | Some m, Some n => m < n ∨ m = n ∧ created_at y ≤ created_at x
  | _, _ => created_at y ≤ created_at x
  end.

(** [resident_gives_way] between two records. *)
Definition gives_way (y x : DhtRecord) : bool :=
  resident_gives_way y (data x) (created_at x) (signature x).

(** The order by stamp, then by signature. *)
Definition by_stamp (y x : DhtRecord) : bool :=
  match Z.compare (created_at x) (created_at y) with
  | Gt => true
  | Lt => false
  | Eq => bytes_le (signature y) (signature x)
  end.

Lemma by_stamp_total y x : by_stamp y x = true ∨ by_stamp x y = true.
Proof.
  unfold by_stamp. rewrite (Z.compare_antisym (created_at x) (created_at y)).
  destruct (created_at x ?= created_at y); [apply bytes_le_total|by right|by left].
Qed.
Lemma by_stamp_antisym y x :
  by_stamp y x = true → by_stamp x y = true → created_at y = created_at x ∧ signature y = signature x.
Proof.
  unfold by_stamp. rewrite (Z.compare_antisym (created_at x) (created_at y)).
  destruct (Z.compare_spec (created_at x) (created_at y)) as [E|E|E]; [|done..]. simpl. intros H1 H2.
  split; [done|]. by apply bytes_le_antisym.
Qed.
Lemma by_stamp_trans x y z : by_stamp x y = true → by_stamp y z = true → by_stamp x z = true.
Proof.
  unfold by_stamp. destruct (Z.compare_spec (created_at y) (created_at x)) as [E1|E1|E1],
    (Z.compare_spec (created_at z) (created_at y)) as [E2|E2|E2]; try done;
    destruct (Z.compare_spec (created_at z) (created_at x)) as [E3|E3|E3]; try done; try lia.
  apply bytes_le_trans.
Qed.
Lemma by_stamp_le y x : by_stamp y x = true → created_at y ≤ created_at x.
Proof. unfold by_stamp. destruct (Z.compare_spec (created_at x) (created_at y)); [lia|done|lia]. Qed.

Lemma gives_way_unfold y x :
  gives_way y x =
  match feed_head_sequence_of (data y), feed_head_sequence_of (data x) with
  | Some m, Some n => if m =? n then by_stamp y x else m <? n
  | _, _ => by_stamp y x
  end.
Proof. done. Qed.

Lemma gives_way_not_older y x : gives_way y x = true → not_older y x.
Proof.
  rewrite gives_way_unfold. unfold not_older.
  destruct (feed_head_sequence_of (data y)) as [m|], (feed_head_sequence_of (data x)) as [n|];
    try apply by_stamp_le.
  destruct (Z.eqb_spec m n) as [->|]; [intros H%by_stamp_le; auto|]. rewrite Z.ltb_lt. auto.
Qed.

(** Which of two records of one publisher for one file a key keeps does not
    depend on the order they arrive in: one always gives way to the other, both
    ways only when stamp and signature are the same, and among records that all
    carry a feed sequence, or none of which does, giving way is transitive, so a
    third one does not bring back what was superseded. *)
Theorem replacement_order x y z :
  (gives_way x y = true ∨ gives_way y x = true) ∧
  (gives_way x y = true → gives_way y x = true →
   created_at x = created_at y ∧ signature x = signature y) ∧
  ((∀ a, a ∈ [x; y; z] → is_Some (feed_head_sequence_of (data a))) ∨
   (∀ a, a ∈ [x; y; z] → feed_head_sequence_of (data a) = None) →
   gives_way x y = true → gives_way y z = true → gives_way x z = true).
Proof.
  rewrite !gives_way_unfold. split; [|split].
  - destruct (feed_head_sequence_of (data x)) as [m|], (feed_head_sequence_of (data y)) as [n|];
      try apply by_stamp_total. rewrite (Z.eqb_sym n m).
    destruct (Z.eqb_spec m n); [apply by_stamp_total|]. rewrite !Z.ltb_lt. lia.
  - destruct (feed_head_sequence_of (data x)) as [m|], (feed_head_sequence_of (data y)) as [n|];
      try apply by_stamp_antisym. rewrite (Z.eqb_sym n m).
    destruct (Z.eqb_spec m n); [apply by_stamp_antisym|]. rewrite !Z.ltb_lt. lia.
  - intros [H|H].
    + destruct (H x ltac:(set_solver)) as [m ->], (H y ltac:(set_solver)) as [n ->],
        (H z ltac:(set_solver)) as [o ->].
      destruct (Z.eqb_spec m n), (Z.eqb_spec n o), (Z.eqb_spec m o);
        first [lia|apply by_stamp_trans|by subst|rewrite !Z.ltb_lt; lia].
    + rewrite (H x), (H y) by set_solver. apply by_stamp_trans.
Qed.

Section service.
Context `{Env : StoreEnv} `{Order : HashOrder}.

(** ** Storing *)
#[local] Instance touched_dec r r' : Decision (touched r r').
Proof. unfold touched. apply _. Defined.

(** C11: storing never rolls a record back.  Whatever is offered, every record
    held afterwards was held before under the same key, or is the one offered,
    under the key, publisher and stamp its verified body names; and in that case
    any record of the same publisher and file it displaced was not newer. *)
Theorem store_never_rolls_back now_unix now_room now s key d sig ip k l' x :
  store_ok s →
  entries (store_attributed now_unix now_room now s key d sig ip).2 !! k = Some l' → x ∈ l' →
  (∃ l y, entries s !! k = Some l ∧ y ∈ l ∧ touched y x) ∨
  (k = key ∧ data x = d ∧ signature x = sig ∧
   signed_identity_from_record_data d = Some (key, publisher_key x, created_at x) ∧
   verify_record_signature d sig (publisher_key x) = true ∧
   ∀ l y, entries s !! key = Some l → y ∈ l → slot y = slot x → not_older y x).
Proof.
  intros Hs Hl Hx. unfold store_attributed in Hl.
  destruct (store_checks now_unix s key d sig false) as [[p c]|s'] eqn:Ec.
  2:{ left. exists l', x. split; [|done]. unfold store_record in Hl. rewrite Ec in Hl.
      by apply store_checks_inr in Ec as [->|[rj ->]]. }
  destruct (store_checks_inl _ _ _ _ _ _ _ _ Ec) as (_ & Hid & Hv). specialize (Hv eq_refl).
  destruct (store_record_filed now_unix now_room now s key d sig ip false p c Hs Ec ltac:(done))
    as [_ [Hf|[_ Hsh]]].
  2:{ left. destruct (shrunk_rows _ _ Hsh k l' Hl) as (l & Hl0 & Hsub). exists l, x.
      split; [done|]. split; [by eapply sublist_subseteq|done]. }
  set (r := new_record now_unix now d sig p c ip) in *.
  destruct (filed_from _ _ _ _ _ _ Hf k l' x Hl Hx) as [?|[-> ->]]; [by left|].
  set (records := default [] (entries s !! key)).
  destruct (decide (Exists (λ y, touched y r) records)) as [He|He].
  - left. apply Exists_exists in He as (y & Hy & Ht). unfold records in Hy.
    destruct (entries s !! key) as [l|]; [|by apply not_elem_of_nil in Hy]. eauto.
  - right. do 5 (split; [done|]). intros l y Hl0 Hy Hsy. apply gives_way_not_older.
    assert (y ∈ records) as Hyr by (unfold records; by rewrite Hl0).
    destruct (filed_gives_way _ _ _ _ _ _ Hf l' Hl Hx y Hyr Hsy) as [Ht|?]; [|done].
    exfalso. apply He, Exists_exists. eauto.
Qed.

(** C31: an accepted store is served, and nothing richer is lost to it.  When
    [store_attributed] answers [true] the key serves, live at that moment, a
    record of the offer's publisher for the offer's file.  It is the offered one,
    even if filing it went over the byte budget and others were dropped, unless
    the record held before has a content digest, the offer has none, and the held
    one outlives half the offer's lifetime; exactly then the held one stays, with
    its own body and dates.  The clock is below the largest [i64]. *)
Theorem store_accepted_is_held now_unix now_room now s key d sig ip :
  store_ok s → now_unix < i64_max →
  (store_attributed now_unix now_room now s key d sig ip).1 = true →
  ∃ x, x ∈ get_live now_unix (store_attributed now_unix now_room now s key d sig ip).2 key ∧
    Some (publisher_key x) = (snd ∘ fst) <$> signed_identity_from_record_data d ∧
    file_hash_from_record_data (data x) = file_hash_from_record_data d ∧
    let keeps y := slot y = slot x ∧ ember_digest_from_record_data (data y) ≠ repeat 0 32 ∧
      ember_digest_from_record_data d = repeat 0 32 ∧ now_unix + record_ttl d / 2 < expires_at_unix y in
    (data x = d ∧ signature x = sig ∧ ¬ ∃ l0 y, entries s !! key = Some l0 ∧ y ∈ l0 ∧ keeps y) ∨
    ∃ l0 y, entries s !! key = Some l0 ∧ y ∈ l0 ∧ touched y x ∧ keeps y.
Proof.
  intros Hs Hn Hok. unfold store_attributed in *.
  destruct (store_checks now_unix s key d sig false) as [[p c]|s'] eqn:Ec.
  2:{ unfold store_record in Hok. by rewrite Ec in Hok. }
  destruct (store_checks_inl _ _ _ _ _ _ _ _ Ec) as (_ & Hid & _).
  pose proof (store_checks_live _ now _ _ _ _ _ _ _ ip Hn Ec) as Hlive.
  destruct (store_record_filed now_unix now_room now s key d sig ip false p c Hs Ec ltac:(done))
    as [_ [Hf|[Hno _]]]; [|congruence].
  destruct (filed_held _ _ _ _ _ _ Hf Hok) as (l & x & Hl & Hx & Hsl & Hor). pose proof Hsl as [= E1 E2].
  exists x. cbv zeta. split; [|split; [|split; [done|]]].
  - unfold get_live, live_records. rewrite Hl. apply elem_of_retain. rewrite Z.ltb_lt. split; [|done].
    destruct Hor as [[-> _]|(y & _ & Ht & _ & _ & Hlt)]; [done|].
    destruct Ht as (_ & _ & _ & _ & -> & _). pose proof (record_ttl_bounds d) as Hb.
    cbn [new_record data] in Hlt. assert (0 ≤ record_ttl d / 2) by (apply Z.div_pos; lia). lia.
  - rewrite Hid. simpl. by rewrite E1.
  - destruct Hor as [[-> Hno]|(y & Hy & Ht & Hri)]; [left|right].
    + do 2 (split; [done|]). intros (l0 & y & Hl0 & Hy & Hsy & Hk). apply (Hno y); [by rewrite Hl0|done|done].
    + destruct (entries s !! key) as [l0|]; [|by apply not_elem_of_nil in Hy]. exists l0, y.
      do 3 (split; [done|]). split; [|done]. unfold slot. destruct Ht as (-> & _ & -> & _). done.
Qed.

(** ** Expiring *)
Lemma retain_retain {A} (p q : A → bool) l :
  (∀ x, p x = true → q x = true) → retain p (retain q l) = retain p l.
Proof.
  intros H. unfold retain. induction l as [|x l IH]; [done|]. rewrite !filter_cons.
  destruct (q x) eqn:Eq; simpl.
  - rewrite filter_cons. by rewrite IH.
  - rewrite IH. destruct (p x) eqn:Ep; [|done]. by rewrite H in Eq.
Qed.

Lemma total_records_all s : total_records s = length (all_records (entries s)).
Proof.
  unfold total_records, all_records, rows. rewrite <- hash_iter_perm.
  induction (hash_iter (entries s)) as [|x L IH]; [done|].
  rewrite bind_cons, length_app, fmap_cons. simpl. by rewrite IH.
Qed.

(** Expiry removes exactly the lapsed records: a record is held afterwards
    iff it was and has not lapsed, the count returned is the number removed, and
    no reader notices, since what a key serves from then on is unchanged. *)
Theorem expire_exact now_unix s k r t :
  ((∃ l, entries (expire now_unix s).2 !! k = Some l ∧ r ∈ l) ↔
   (∃ l, entries s !! k = Some l ∧ r ∈ l ∧ now_unix < expires_at_unix r)) ∧
  ((expire now_unix s).1 + total_records (expire now_unix s).2 = total_records s)%nat ∧
  (now_unix ≤ t → get_live t (expire now_unix s).2 k = get_live t s k).
Proof.
  unfold expire. set (gone := λ r, negb (now_unix <? expires_at_unix r)).
  assert (entries (sweep gone s).2 !! k = entries s !! k ≫= swept gone) as Ek by apply lookup_omap.
  split; [|split].
  - rewrite Ek. unfold swept, kept_of. split.
    + intros (l & Hl & Hr). apply bind_Some in Hl as (l0 & Hl0 & Hl). exists l0. split; [done|].
      case_bool_decide; [done|]. simplify_eq. apply elem_of_retain in Hr as [Hg Hr].
      unfold gone in Hg. rewrite negb_involutive, Z.ltb_lt in Hg. done.
    + intros (l & -> & Hr & Hlt). exists (kept_of gone l). simpl.
      assert (r ∈ kept_of gone l) as Hin.
      { apply elem_of_retain. unfold gone. by rewrite negb_involutive, Z.ltb_lt. }
      split; [|done]. case_bool_decide as E; [|done]. unfold kept_of in Hin. rewrite E in Hin.
      by apply not_elem_of_nil in Hin.
  - rewrite !total_records_all. destruct (sweep_records gone s) as (_ & Ha & Hall).
    rewrite (Permutation_length Ha), (Permutation_length Hall), length_app. f_equal. unfold sweep.
    cbn [fst]. clear Ha Hall. induction (hash_iter (entries s)) as [|x L IH]; [done|].
    rewrite fmap_cons, bind_cons, length_app. simpl. by rewrite IH.
  - intros Ht. unfold get_live, live_records. rewrite Ek.
    destruct (entries s !! k) as [l|]; simpl; [|done].
    rewrite <- (retain_retain (λ r, t <? expires_at_unix r) (λ r, negb (gone r)) l).
    2:{ intros x. unfold gone. rewrite negb_involutive, !Z.ltb_lt. lia. }
    unfold swept, kept_of. case_bool_decide as E; [by rewrite E|done].
Qed.

(** ** Republishing *)
Section republish.
Context (now now_unix interval : Z) (max : nat) (force : bool).

Definition takes (r : DhtRecord) : bool := republishable now_unix r && (force || due now interval r).
Definition settled (r : DhtRecord) : bool := negb (republishable now_unix r && due now interval r).

Lemma settled_republished r : 0 < interval → settled (republished now r) = true.
Proof.
  intros Hi. unfold settled, due, republished. cbn [republish_due last_republished orb].
  rewrite Z.sub_diag. replace (interval <=? Z.max 0 0) with false; [by rewrite andb_false_r|].
  symmetry. apply Z.leb_gt. lia.
Qed.
Lemma settled_not_taken r : takes r = false → settled r = true.
Proof. unfold takes, settled. destruct (republishable _ _), force, (due _ _ _); done. Qed.

(** One key: the batch stays within [max], gains only records to take, and with
    no stop everything from the start index is settled. *)
Lemma republish_walk_spec skip idx l out :
  (length out ≤ max)%nat → 0 < interval →
  let '(l', out', stop) := republish_walk now now_unix interval max force skip idx l out in
  (length out' ≤ max)%nat ∧
  (∀ e, e ∈ out' → e ∈ out ∨ ∃ r, r ∈ l ∧ takes r = true ∧ e = (data r, signature r)) ∧
  ((skip ≤ idx)%nat → stop = None → Forall (λ r, settled r = true) l').
Proof.
  intros Hout Hi. revert idx out Hout. induction l as [|r l IH]; intros idx out Hout; cbn [republish_walk].
  { repeat split; [done|by left|by constructor]. }
  case_decide as E1; [|case_decide as E2].
  - specialize (IH (S idx) out Hout). destruct (republish_walk _ _ _ _ _ _ _ l out) as [[l' out'] stop].
    destruct IH as (A1 & A2 & A3). repeat split; [done| |lia].
    intros e He. destruct (A2 e He) as [?|(x & Hx & ?)]; [by left|right]. exists x. split; [by right|done].
  - repeat split; [done|by left|done].
  - fold (takes r). set (out1 := if takes r then _ else out).
    assert (length out1 ≤ max)%nat as H1.
    { unfold out1. destruct (takes r); [rewrite length_app; simpl; lia|done]. }
    specialize (IH (S idx) out1 H1). destruct (republish_walk _ _ _ _ _ _ _ l out1) as [[l' out'] stop].
    destruct IH as (A1 & A2 & A3). repeat split; [done| |].
    + intros e He. destruct (A2 e He) as [Ho|(x & Hx & ?)].
      2:{ right. exists x. split; [by right|done]. }
      unfold out1 in Ho. destruct (takes r) eqn:Et; [|by left].
      apply elem_of_app in Ho as [?| ->%list_elem_of_singleton]; [by left|right]. exists r. split; [by left|done].
    + intros Hs Hn. constructor; [|apply A3; [lia|done]].
      destruct (takes r) eqn:Et; [by apply settled_republished|by apply settled_not_taken].
Qed.

Lemma republish_keys_spec ks skip m out :
  (length out ≤ max)%nat → 0 < interval → NoDup ks →
  let '(m', out', cursor) := republish_keys now now_unix interval max force skip ks m out in
  (length out' ≤ max)%nat ∧ (∀ k, k ∉ ks → m' !! k = m !! k) ∧
  (∀ e, e ∈ out' → e ∈ out ∨ ∃ k l r, k ∈ ks ∧ m !! k = Some l ∧ r ∈ l ∧ takes r = true ∧
     e = (data r, signature r)) ∧
  (skip = 0%nat → cursor = None → ∀ k l, k ∈ ks → m' !! k = Some l → Forall (λ r, settled r = true) l).
Proof.
  intros Hout Hi. revert skip m out Hout. induction ks as [|k ks IH]; intros skip m out Hout Hnd; cbn [republish_keys].
  { repeat split; [done|by left|]. by intros _ _ k l ?%not_elem_of_nil. }
  apply NoDup_cons in Hnd as [Hk Hnd]. destruct (m !! k) as [l|] eqn:Ek.
  2:{ specialize (IH 0%nat m out Hout Hnd). destruct (republish_keys _ _ _ _ _ _ ks m out) as [[m' out'] cur].
      destruct IH as (B1 & B2 & B3 & B4). split; [done|]. split; [|split].
      - intros j [_ Hj]%not_elem_of_cons. by apply B2.
      - intros e He. destruct (B3 e He) as [?|(j & lj & r & Hj & ?)]; [by left|right]. exists j, lj, r.
        split; [by right|done].
      - intros _ Hc j lj [->|Hj]%elem_of_cons Hl; [|by apply (B4 eq_refl Hc j)].
        rewrite B2, Ek in Hl by done. done. }
  pose proof (republish_walk_spec skip 0 l out Hout Hi) as W.
  destruct (republish_walk _ _ _ _ _ _ _ l out) as [[l' out1] stop]. destruct W as (W1 & W2 & W3).
  assert (∀ e, e ∈ out1 → e ∈ out ∨ ∃ j l r, j ∈ k :: ks ∧ m !! j = Some l ∧ r ∈ l ∧ takes r = true ∧
            e = (data r, signature r)) as W2'.
  { intros e He. destruct (W2 e He) as [?|(r & Hr)]; [by left|right]. exists k, l, r. split; [by left|done]. }
  destruct stop as [idx|].
  { split; [done|]. split; [|done]. intros j [Hj _]%not_elem_of_cons. by rewrite lookup_insert_ne. }
  specialize (IH 0%nat (<[k := l']> m) out1 W1 Hnd).
  destruct (republish_keys _ _ _ _ _ _ ks _ out1) as [[m' out'] cur]. destruct IH as (B1 & B2 & B3 & B4).
  split; [done|]. split; [|split].
  - intros j [Hj Hjs]%not_elem_of_cons. rewrite B2, lookup_insert_ne by done. done.
  - intros e He. destruct (B3 e He) as [?|(j & lj & r & Hj & Hl & Hr)]; [by apply W2'|right].
    exists j, lj, r. split; [by right|]. rewrite lookup_insert_ne in Hl by (by intros ->). done.
  - intros -> Hc j lj [->|Hj]%elem_of_cons Hl; [|by apply (B4 eq_refl Hc j)].
    rewrite B2, lookup_insert_eq in Hl by done. simplify_eq. by apply W3.
Qed.
End republish.

Lemma hash_keys_NoDup {V} (m : gmap bytes V) : NoDup (hash_iter m).*1.
Proof. rewrite hash_iter_perm. apply NoDup_fst_map_to_list. Qed.

(** Republishing is bounded, sound and complete.  A batch has at most [max]
    records; each is one the storer replicates, not lapsed, and due unless the
    round is forced; and a round that starts at the beginning and comes back
    without a cursor leaves nothing due. *)
Theorem republish_batch_correct now now_unix interval max force s :
  0 < interval →
  let o := take_republish_batch now now_unix interval max force s in
  (length o.1 ≤ max)%nat ∧
  (∀ e, e ∈ o.1 → ∃ k l r, entries s !! k = Some l ∧ r ∈ l ∧ e = (data r, signature r) ∧
     storer_replicates (data r) = true ∧ now_unix < expires_at_unix r ∧
     (force = true ∨ due now interval r = true)) ∧
  (republish_cursor s = None → republish_cursor o.2 = None →
   republish_backlog now now_unix interval o.2 = 0%nat).
Proof.
  intros Hi. cbv zeta. unfold take_republish_batch. case_bool_decide as E.
  { split; [apply Nat.le_0_l|]. split; [by intros e ?%not_elem_of_nil|]. intros _ _.
    unfold republish_backlog. cbn [entries with_cursor snd]. apply fmap_nil_inv in E. by rewrite E. }
  set (ordered := (hash_iter (entries s)).*1) in *.
  destruct (match republish_cursor s with Some _ => _ | None => _ end) as [start skip] eqn:Es.
  assert (drop start ordered ++ take start ordered ≡ₚ ordered) as Hp
    by (by rewrite (Permutation_app_comm _ (take _ _)), take_drop).
  assert (NoDup (drop start ordered ++ take start ordered)) as Hnd by (rewrite Hp; apply hash_keys_NoDup).
  pose proof (republish_keys_spec now now_unix interval max force _ skip (entries s) []
    (Nat.le_0_l _) Hi Hnd) as R.
  destruct (republish_keys _ _ _ _ _ _ _ _ _) as [[m out] cur]. destruct R as (R1 & R2 & R3 & R4). cbn [fst snd].
  split; [done|]. split.
  - intros e He. destruct (R3 e He) as [?%not_elem_of_nil|(k & l & r & _ & Hl & Hr & Ht & ->)]; [done|].
    exists k, l, r. do 3 (split; [done|]). unfold takes, republishable in Ht.
    rewrite !andb_true_iff, negb_true_iff, Z.leb_gt, orb_true_iff in Ht. tauto.
  - intros Hc0 Hc. rewrite Hc0 in Es. injection Es as <- <-. unfold republish_backlog.
    apply count_if_none, Forall_forall. cbn [entries with_cursor with_entries].
    intros r ([k l] & Hr & Hin%elem_of_hash_iter)%list_elem_of_bind. cbn [snd] in Hr.
    assert (k ∈ ordered) as Hko.
    { destruct (decide (k ∈ drop 0 ordered ++ take 0 ordered)) as [Hk|Hk]; [by rewrite <- Hp|].
      rewrite (R2 k Hk) in Hin. apply list_elem_of_fmap. exists (k, l). split; [done|]. by apply elem_of_hash_iter. }
    rewrite <- Hp in Hko. pose proof (R4 eq_refl Hc k l Hko Hin) as Hf. rewrite Forall_forall in Hf.
    specialize (Hf r Hr). by apply negb_true_iff in Hf.
Qed.
End service.

(** ** Witnesses on the concrete store *)
Definition offer : bytes := sample_body 1 9 3 90.
Definition after_offer : bool * DhtStore :=
  store_attributed 100 100 7 sample_store (repeat 1 16) offer (repeat 3 64) None.
Definition offered_row : list DhtRecord := Eval vm_compute in default [] (entries after_offer.2 !! repeat 1 16).
Lemma offered_row_lookup : entries after_offer.2 !! repeat 1 16 = Some offered_row.
Proof. vm_compute. reflexivity. Qed.
Lemma offer_accepted : after_offer.1 = true.
Proof. vm_compute. reflexivity. Qed.

Lemma store_never_rolls_back_witness :
  ∃ x, x ∈ offered_row ∧
  ((∃ l y, entries sample_store !! repeat 1 16 = Some l ∧ y ∈ l ∧ touched y x) ∨
   (repeat 1 16 = repeat 1 16 ∧ data x = offer ∧ signature x = repeat 3 64 ∧
    signed_identity_from_record_data offer = Some (repeat 1 16, publisher_key x, created_at x) ∧
    verify_record_signature offer (repeat 3 64) (publisher_key x) = true ∧
    ∀ l y, entries sample_store !! repeat 1 16 = Some l → y ∈ l → slot y = slot x → not_older y x)).
Proof.
  eexists. split; [left|].
  refine (store_never_rolls_back 100 100 7 sample_store (repeat 1 16) offer (repeat 3 64) None
    (repeat 1 16) offered_row _ sample_store_ok offered_row_lookup _). left.
Defined.

Lemma store_accepted_is_held_witness :
  ∃ x, x ∈ get_live 100 after_offer.2 (repeat 1 16) ∧
    file_hash_from_record_data (data x) = repeat 9 16.
Proof.
  destruct (store_accepted_is_held 100 100 7 sample_store (repeat 1 16) offer (repeat 3 64) None
    sample_store_ok eq_refl offer_accepted) as (x & Hx & _ & Hf & _).
  exists x. split; [exact Hx|]. rewrite Hf. vm_compute. reflexivity.
Defined.

Lemma republish_batch_correct_witness :
  republish_backlog 5000 100 3600 (take_republish_batch 5000 100 3600 10 false sample_store).2 = 0%nat.
Proof.
  apply (republish_batch_correct 5000 100 3600 10 false sample_store); [lia|reflexivity|].
  vm_compute. reflexivity.
Defined.

Lemma make_room_victims_witness :
  entries (make_room_for_key 100 sample_store (repeat 7 16) (repeat 3 32)).2 !! repeat 1 16 = Some sample_row.
Proof.
  destruct (make_room_victims 100 sample_store (repeat 7 16) (repeat 3 32) (repeat 1 16) sample_row
    (ok_core _ sample_store_ok) sample_row_lookup) as [H|[_ [H _]]]; [exact H|].
  exfalso. vm_compute in H. by apply H.
Defined.
