(* ===== verification/DhtVictim.v ===== *)
(** * The short cuts of a full store

    [make_room_for_key] refuses a distant key from two cached facts, the bound on
    the furthest key and [no_crowding_victim], without a scan.  Both facts are
    invariants, so the short cut answers as the scan would. *)
From S2P Require Import Prelude NodeId Addr Contact Record DhtStore DhtIndex DhtStoreInv DhtRoom DhtStoreOps DhtStoreSafety.
Local Open Scope Z_scope.

Section victim.
Context `{Env : StoreEnv} `{Order : HashOrder}.

(** The cached "no key is held by crowders only" is true. *)
Definition flag_ok (s : DhtStore) : Prop :=
  no_crowding_victim (publisher_index s) = true →
  ∀ k l, entries s !! k = Some l → held_by_crowders (publisher_index s) l = false.

(** A step that resets the flag, or leaves the index alone and every row with
    the records it had. *)
Definition calm (s s' : DhtStore) : Prop :=
  no_crowding_victim (publisher_index s') = false ∨
  publisher_index s' = publisher_index s ∧
  ∀ k l', entries s' !! k = Some l' → l' = [] ∨ ∃ l, entries s !! k = Some l ∧ Forall2 touched l l'.

Lemma held_by_crowders_touched i l l' :
  Forall2 touched l l' → held_by_crowders i l' = held_by_crowders i l.
Proof.
  intros H. unfold held_by_crowders. f_equal.
  - by destruct H.
  - induction H as [|r r' l l' (_ & _ & E & _) _ IH]; [done|]. simpl. by rewrite E, IH.
Qed.

Lemma calm_flag s s' : calm s s' → flag_ok s → flag_ok s'.
Proof.
  intros [E|[Ei Hr]] Hf Hn k l' Hl; [congruence|]. rewrite Ei in *.
  destruct (Hr k l' Hl) as [->|(l & Hl0 & Ht)]; [done|].
  rewrite (held_by_crowders_touched _ _ _ Ht). by apply (Hf Hn k).
Qed.

#[export] Instance calm_reflexive : Reflexive calm.
Proof.
  intros s. right. split; [done|]. intros k l Hl. right. exists l. split; [done|].
  by apply Forall_Forall2_diag, Forall_true.
Qed.
#[export] Instance calm_transitive : Transitive calm.
Proof.
  intros s1 s2 s3 H12 [E|[Ei H23]]; [by left|]. destruct H12 as [E|[Ei' H12]]; [left; congruence|].
  right. split; [congruence|]. intros k l3 H3. destruct (H23 k l3 H3) as [->|(l2 & H2 & T2)]; [by left|].
  destruct (H12 k l2 H2) as [->|(l1 & H1 & T1)]; [left; by inversion T2|right].
  exists l1. split; [done|]. etransitivity; [exact T1|exact T2].
Qed.
Lemma calm_foldl {A} (f : DhtStore → A → DhtStore) l s :
  (∀ s x, calm s (f s x)) → calm s (foldl f s l).
Proof. intros H. revert s. induction l as [|x l IH]; intros s; simpl; [done|]. etransitivity; [apply H|apply IH]. Qed.

(** Rows and index as before: counters, cursor, bound and tier do not matter. *)
Lemma calm_same s s' : publisher_index s' = publisher_index s → entries s' = entries s → calm s s'.
Proof.
  intros E1 E2. right. split; [done|]. rewrite E2. intros k l Hl. right. exists l. split; [done|].
  by apply Forall_Forall2_diag, Forall_true.
Qed.
Lemma calm_row s k l l' i :
  i = publisher_index s → entries s !! k = Some l → Forall2 touched l l' →
  calm s (with_index (with_entries s (<[k := l']> (entries s))) i).
Proof.
  intros -> Hk Ht. right. split; [done|]. store_cbn. intros j lj [[<- <-]|[_ Hj]]%lookup_insert_Some; right; [by exists l|].
  exists lj. split; [done|]. by apply Forall_Forall2_diag, Forall_true.
Qed.

Lemma discharge_resets i p n l h : no_crowding_victim (discharge i p n l h) = false.
Proof. unfold discharge. by destruct (load i !! p). Qed.
Lemma discharge_notes_resets i n ns : no_crowding_victim (discharge_notes i (n :: ns)) = false.
Proof.
  destruct n as [[[p c] b] h]. unfold discharge_notes. simpl.
  pose proof (discharge_resets i p c b h) as H. revert H. generalize (discharge i p c b h).
  induction ns as [|[[[q d] e] g] ns IH]; intros j Hj; [done|]. simpl. apply IH, discharge_resets.
Qed.
Lemma release_notes_nil kept rel gone : release_notes kept rel gone = [] → gone = [].
Proof. by destruct gone. Qed.

(** Discharging for [gone] resets the flag unless nothing is gone. *)
Lemma release_resets i kept gone :
  no_crowding_victim (discharge_notes i (release_notes kept ∅ gone)) = false ∨ gone = [].
Proof. destruct gone as [|r gone]; [by right|left]. apply discharge_notes_resets. Qed.

Lemma calm_drop_key s k : calm s (drop_key s k).
Proof.
  unfold drop_key. destruct (entries s !! k) as [l|] eqn:E; [|done].
  destruct (release_resets (publisher_index s) [] l) as [H| ->]; [by left|right]. split; [done|].
  simpl. intros j lj [_ Hj]%lookup_delete_Some. right. exists lj. split; [done|].
  by apply Forall_Forall2_diag, Forall_true.
Qed.

(** ** The scan *)
Lemma scan_crowding_none i local L v :
  crowding (foldl (scan_victim i true local) v L) = None →
  crowding v = None ∧ ∀ x, x ∈ L → held_by_crowders i x.2 = false.
Proof.
  revert v. induction L as [|[k l] L IH]; intros v H; cbn [foldl] in H.
  { split; [done|]. by intros x ?%not_elem_of_nil. }
  destruct (IH _ H) as [Hc HL].
  assert (crowding (scan_victim i true local v (k, l)) =
    if negb (bool_decide (l = [])) && none_or_gt (xor16 local k) (snd <$> crowding v)
       && forallb (λ r, over_share i (publisher_key r)) l then Some (k, xor16 local k) else crowding v) as E.
  { unfold scan_victim. destruct (furthest v) as [[fk fd]|]; [|done].
    destruct (bytes_gt _ _); [done|]. by destruct (none_or_gt _ (runner_up v)). }
  rewrite E in Hc. destruct (negb _ && _ && _) eqn:Eb; [done|]. rewrite Hc in Eb. split; [done|].
  intros x [->|Hx]%elem_of_cons; [|auto]. unfold held_by_crowders. cbn [snd].
  simpl in Eb. by rewrite andb_true_r in Eb.
Qed.
Lemma scan_no_look i local L v :
  crowding (foldl (scan_victim i false local) v L) = crowding v.
Proof.
  revert v. induction L as [|[k l] L IH]; intros v; cbn [foldl]; [done|]. rewrite IH.
  unfold scan_victim. cbn [andb]. destruct (furthest v) as [[fk fd]|]; [|done].
  destruct (bytes_gt _ _); [done|]. by destruct (none_or_gt _ (runner_up v)).
Qed.

Lemma evict_flag s local d : flag_ok s → flag_ok (evict_for_key s local d).2.
Proof.
  intros Hf. unfold evict_for_key. set (look := anyone_over_share _). set (v := foldl _ _ _).
  destruct (crowding v) as [[c dc]|] eqn:Ec; [by eapply calm_flag; [apply calm_drop_key|]|].
  set (s1 := if look then _ else s).
  assert (flag_ok s1) as Hf1.
  { unfold s1. destruct look; [|done]. intros _ k l Hl. apply scan_crowding_none in Ec as [_ Ec].
    apply (Ec (k, l)), elem_of_hash_iter, Hl. }
  destruct (furthest v) as [[fk fd]|]; [|done]. destruct (bytes_le fd d); cbn [snd].
  - eapply calm_flag; [|exact Hf1]. by apply calm_same.
  - eapply calm_flag; [|exact Hf1]. transitivity (drop_key s1 fk); [apply calm_drop_key|by apply calm_same].
Qed.

Lemma make_room_flag now_unix s k p : flag_ok s → flag_ok (make_room_for_key now_unix s k p).2.
Proof.
  intros Hf. unfold make_room_for_key. destruct (Z.ltb _ _); [done|].
  destruct (store_local_id s) as [local|]; [|done]. destruct (over_share _ _); [done|].
  destruct (match furthest_key_distance s with Some _ => _ | None => _ end); [done|].
  case_bool_decide; [by apply evict_flag|]. set (s1 := with_furthest _ None).
  assert (flag_ok s1) as Hf1.
  { eapply calm_flag; [|exact Hf]. transitivity (foldl drop_key s (lapsed_keys now_unix s)).
    - apply calm_foldl. intros. apply calm_drop_key.
    - by apply calm_same. }
  destruct (Z.ltb _ _); [done|by apply evict_flag].
Qed.

Lemma admit_key_flag now_room s key p : flag_ok s → flag_ok (admit_key now_room s key p).2.
Proof.
  intros Hf. unfold admit_key. case_bool_decide; [done|].
  pose proof (make_room_flag now_room s key p Hf) as H1.
  destruct (make_room_for_key now_room s key p) as [ok s1]. destruct ok; cbn [negb snd] in *;
    (eapply calm_flag; [|exact H1]); by apply calm_same.
Qed.

(** ** The byte budget *)
Lemma trim_key_calm fuel target n i l :
  let '(_, i', kept) := trim_key fuel target n i l in
  no_crowding_victim i' = false ∨ i' = i ∧ kept = l.
Proof.
  revert n i l. induction fuel as [|fuel IH]; intros n i l; cbn [trim_key]; [by right|].
  destruct (Z.leb n target); [by right|]. destruct (soonest l) as [at_|]; [|by right].
  destruct (l !! at_) as [x|]; [|by right].
  match goal with |- context [trim_key fuel target ?n' ?i' ?l'] => specialize (IH n' i' l') end.
  destruct (trim_key fuel target _ _ _) as [[n' i'] kept]. left.
  destruct IH as [?|[-> _]]; [done|apply discharge_resets].
Qed.
Lemma trim_row_calm target s k l : entries s !! k = Some l → calm s (trim_row target s k l).
Proof.
  intros Hk. unfold trim_row. pose proof (trim_key_calm (length l) target (resident_bytes s) (publisher_index s) l) as H.
  destruct (trim_key _ _ _ _ _) as [[n i] kept]. destruct H as [H|[-> ->]]; [by left|right].
  split; [done|]. store_cbn. intros j lj Hj. right. exists lj. split; [|by apply Forall_Forall2_diag, Forall_true].
  case_bool_decide; [by apply lookup_delete_Some in Hj as [_ ?]|].
  by apply lookup_insert_Some in Hj as [[<- <-]|[_ ?]].
Qed.
Lemma trim_keys_calm target ranked s : calm s (trim_keys target ranked s).
Proof.
  revert s. induction ranked as [|k ranked IH]; intros s; [done|].
  destruct (entries s !! k) as [l|] eqn:Hk.
  - rewrite (trim_keys_cons _ _ _ _ l Hk). cbv zeta. pose proof (trim_row_calm target s k l Hk) as H.
    destruct (Z.leb _ _); [done|]. etransitivity; [exact H|apply IH].
  - cbn [trim_keys]. rewrite Hk. apply IH.
Qed.
Lemma enforce_calm s spare : calm s (enforce_byte_budget s spare).
Proof. unfold enforce_byte_budget. destruct (Z.leb _ _); [done|apply trim_keys_calm]. Qed.

(** ** Storing *)
Lemma replace_record_calm now_unix s key r pos resident records :
  entries s !! key = Some records → records !! pos = Some resident →
  calm s (replace_record now_unix s key r pos resident records).2.
Proof.
  intros Hk Hp. unfold replace_record. destruct (negb _); [by apply calm_same|].
  destruct (_ && _ && _).
  { eapply (calm_row s key records _ (publisher_index s)); [done..|]. by eapply touched_insert. }
  destruct (replacement_refused _ _ _ _ _ _); [by apply calm_same|]. cbn [snd].
  etransitivity; [|apply enforce_calm]. by left.
Qed.

Lemma reclaim_calm now_unix s key :
  let records := default [] (entries s !! key) in
  calm s (reclaim_lapsed now_unix s key records).2.
Proof.
  cbv zeta. set (records := default [] _). unfold reclaim_lapsed. cbn [snd].
  match goal with |- context [release_notes ?k ∅ ?g] =>
    destruct (release_resets (publisher_index s) k g) as [H|Hg]; [by left|];
    set (kept := k) in *; set (gone := g) in * end.
  right. store_cbn. rewrite Hg. split; [done|]. intros j lj [[<- <-]|[_ Hj]]%lookup_insert_Some.
  2:{ right. exists lj. split; [done|]. by apply Forall_Forall2_diag, Forall_true. }
  assert (kept = records) as ->.
  { apply retain_all, Forall_forall. intros x Hx. apply negb_true_iff. apply not_true_iff_false. intros Hl.
    assert (x ∈ gone) as Hin by (by apply elem_of_retain). rewrite Hg in Hin. by apply not_elem_of_nil in Hin. }
  unfold records. destruct (entries s !! key) as [l|] eqn:E; [right|by left]. exists l.
  split; [done|]. by apply Forall_Forall2_diag, Forall_true.
Qed.

Lemma insert_record_calm now_unix s key r :
  calm s (insert_record now_unix s key r (default [] (entries s !! key))).2.
Proof.
  unfold insert_record. pose proof (reclaim_calm now_unix s key) as Hc. cbv zeta in Hc.
  destruct (reclaim_lapsed _ _ _ _) as [l s1]. cbn [snd] in Hc.
  destruct (source_ip_full s1 r l); [transitivity s1; [done|by apply calm_same]|].
  case_decide; [transitivity s1; [done|by apply calm_same]|].
  destruct (drop_stalest_cases s1 key r l) as [->|(_ & at_ & x & _ & ->)];
    (case_decide; cbn [snd]; [|etransitivity; [|apply enforce_calm]; by left]).
  - transitivity s1; [done|by apply calm_same].
  - left. apply discharge_resets.
Qed.

Lemma store_record_flag now_unix now_room now s key d sig ip checked :
  flag_ok s → flag_ok (store_record now_unix now_room now s key d sig ip checked).2.
Proof.
  intros Hf. unfold store_record.
  destruct (store_checks now_unix s key d sig checked) as [[p c]|s'] eqn:Ec.
  2:{ apply store_checks_inr in Ec as [->|[rj ->]]; [done|]. eapply calm_flag; [|exact Hf]. by apply calm_same. }
  pose proof (admit_key_flag now_room s key p Hf) as H1.
  destruct (admit_key now_room s key p) as [ok s1]. destruct ok; cbn [negb snd] in *; [|done].
  eapply calm_flag; [|exact H1]. destruct (position _ _) as [pos|]; cbn [mbind option_bind].
  - destruct (default [] (entries s1 !! key) !! pos) as [x|] eqn:Ex; cbn [mbind option_bind].
    + destruct (entries s1 !! key) as [l|] eqn:El; [|done]. by apply replace_record_calm.
    + apply insert_record_calm.
  - apply insert_record_calm.
Qed.

(** ** The other operations *)
Lemma sweep_calm gone s : calm s (sweep gone s).2.
Proof.
  unfold sweep. cbn [snd]. match goal with |- context [discharge_notes _ ?n] => set (notes := n) end.
  destruct notes as [|n ns] eqn:En; [|left; apply discharge_notes_resets]. right. split; [done|].
  store_cbn. intros k l'. rewrite lookup_omap. intros (l & Hl & Hs)%bind_Some.
  case_bool_decide; [done|]. simplify_eq. right. exists l. split; [done|].
  rewrite retain_all; [by apply Forall_Forall2_diag, Forall_true|].
  apply Forall_forall. intros r Hr. apply negb_true_iff, not_true_iff_false. intros Hg.
  assert (retain gone l = []) as E0.
  { eapply release_notes_nil, elem_of_nil_inv. intros n Hn.
    assert (n ∈ ([] : list release_note)) as Hin; [|by apply not_elem_of_nil in Hin].
    rewrite <- En. apply list_elem_of_bind. exists (k, l). split; [exact Hn|by apply elem_of_hash_iter]. }
  assert (r ∈ retain gone l) as Hin by (by apply elem_of_retain).
  rewrite E0 in Hin. by apply not_elem_of_nil in Hin.
Qed.

Lemma republish_keys_calm now now_unix interval max force skip ks s out :
  calm s (with_entries s (republish_keys now now_unix interval max force skip ks (entries s) out).1.1).
Proof.
  revert s skip out. induction ks as [|k ks IH]; intros s skip out; cbn [republish_keys]; [by apply calm_same|].
  destruct (entries s !! k) as [l|] eqn:Ek; [|apply IH].
  pose proof (republish_walk_touched now now_unix interval max force skip 0 l out) as Ht.
  destruct (republish_walk _ _ _ _ _ _ _ _ _) as [[l' out'] stop]. cbn [fst] in Ht.
  pose proof (calm_row s k l l' _ eq_refl Ek Ht) as H1.
  destruct stop as [idx|]; [exact H1|]. etransitivity; [exact H1|].
  exact (IH (with_index (with_entries s (<[k := l']> (entries s))) (publisher_index s)) 0%nat out').
Qed.

Lemma take_republish_batch_calm now now_unix interval max force s :
  calm s (take_republish_batch now now_unix interval max force s).2.
Proof.
  unfold take_republish_batch. case_bool_decide; [by apply calm_same|].
  destruct (match republish_cursor s with Some _ => _ | None => _ end) as [start skip].
  match goal with |- context [republish_keys ?a ?b ?c ?d ?e ?f ?g ?h ?i] =>
    pose proof (republish_keys_calm a b c d e f g s i) as H' end.
  destruct (republish_keys _ _ _ _ _ _ _ _ _) as [[m out] cur]. etransitivity; [exact H'|by apply calm_same].
Qed.

Lemma mark_republish_due_calm s key sig : calm s (mark_republish_due s key sig).
Proof.
  unfold mark_republish_due. destruct (entries s !! key) as [l|] eqn:E; [|done].
  destruct (position _ l) as [pos|] eqn:Ep; [|done]. apply position_lookup in Ep as (x & Hx & _).
  rewrite (alter_insert_list _ _ _ x Hx). eapply (calm_row s key l _ (publisher_index s)); [done..|].
  by eapply touched_insert.
Qed.

Lemma flag_ok_run_op s op : flag_ok s → flag_ok (run_op s op).
Proof.
  intros Hf. destruct op; cbn [run_op].
  - by apply store_record_flag.
  - by eapply calm_flag; [apply sweep_calm|].
  - unfold drop_publisher_files. case_bool_decide; [done|]. by eapply calm_flag; [apply sweep_calm|].
  - by eapply calm_flag; [apply take_republish_batch_calm|].
  - by eapply calm_flag; [apply mark_republish_due_calm|].
  - unfold restore_verified. apply (foldl_inv (λ a, flag_ok a.2)); [done|].
    intros [n s1] [[[nu nr] nw] pr] _ H1. cbn [snd] in *. destruct (restorable nu pr) as [key|]; [|done].
    pose proof (store_record_flag nu nr nw s1 key (p_data pr) (p_signature pr) None true H1) as H2.
    by destruct (store_record _ _ _ _ _ _ _ _ _) as [[] s2].
  - by eapply calm_flag; [apply calm_same|].
  - unfold set_responsibility_filtered. destruct (Bool.eqb _ _); [done|]. intros H. by destruct filtered.
Qed.

Lemma flag_ok_reached local_id pk ops : flag_ok (reached local_id pk ops).
Proof. apply (foldl_inv flag_ok); [done|]. intros s op _. apply flag_ok_run_op. Qed.

(** [make_room_for_key] without the short cut. *)
Definition make_room_by_scan (s : DhtStore) (incoming publisher : bytes) : bool * DhtStore :=
  if Z.ltb (key_count s) (key_budget s) then (true, s)
  else match store_local_id s with
  | None => (false, s)
  | Some local =>
      if over_share (publisher_index s) publisher then (false, s)
      else evict_for_key s local (xor16 local incoming)
  end.

(** C36: the short cut of a full store is safe.  In every reachable store with no
    wholly lapsed key, refusing a key from the cached bound on the furthest key
    and the cached absence of a crowding victim gives the answer, and the
    records, that scanning every key would give. *)
Theorem fast_refusal_agrees_with_scan local_id pk ops now_unix incoming publisher :
  let s := reached local_id pk ops in
  lapsed_keys now_unix s = [] →
  (make_room_for_key now_unix s incoming publisher).1 = (make_room_by_scan s incoming publisher).1 ∧
  entries (make_room_for_key now_unix s incoming publisher).2 =
  entries (make_room_by_scan s incoming publisher).2.
Proof.
  cbv zeta. intros Hl. pose proof (store_ok_reached local_id pk ops) as [Hc Hb _ _].
  pose proof (flag_ok_reached local_id pk ops) as Hf. set (s := reached local_id pk ops) in *.
  unfold make_room_for_key, make_room_by_scan. destruct (Z.ltb _ _); [done|].
  destruct (store_local_id s) as [local|] eqn:El; [|done]. destruct (over_share _ _); [done|].
  destruct (match furthest_key_distance s with Some _ => _ | None => _ end) eqn:Es.
  2:{ by rewrite bool_decide_true. }
  destruct (furthest_key_distance s) as [b|] eqn:Eb; [|done].
  apply andb_true_iff in Es as [Hle Hcr]. unfold evict_for_key.
  set (look := anyone_over_share (publisher_index s)) in *.
  pose proof (scan_store s look local) as [V1 V2 V3]. set (v := foldl _ _ _) in *.
  assert (crowding v = None) as ->.
  { destruct (crowding v) as [[k d]|] eqn:Ec; [|done]. destruct (V3 k d eq_refl) as (l & Hin & Hh).
    apply elem_of_hash_iter in Hin. destruct look eqn:Elook.
    - simpl in Hcr. rewrite (Hf Hcr k l Hin) in Hh. done.
    - unfold v in Ec. rewrite scan_no_look in Ec. done. }
  destruct (furthest v) as [[fk fd]|] eqn:Efu; [|by destruct look].
  destruct (V2 fk fd eq_refl) as (-> & Hin & _). apply list_elem_of_fmap in Hin as ([k l] & -> & Hin).
  apply elem_of_hash_iter in Hin.
  rewrite (bytes_le_trans _ b); [by destruct look| |done]. apply (Hb b local k); [done..|eauto].
Qed.
End victim.

Lemma fast_refusal_agrees_with_scan_witness :
  (make_room_for_key 100 sample_store (repeat 7 16) (repeat 3 32)).1 =
  (make_room_by_scan sample_store (repeat 7 16) (repeat 3 32)).1.
Proof.
  apply (fast_refusal_agrees_with_scan (repeat 0 16) (repeat 8 32) sample_ops 100).
  vm_compute. reflexivity.
Defined.
