(* ===== verification/Wire.v ===== *)
(** * Reading and writing wire bytes

    The error monad of the decoders ([anyhow::Result]), slices that panic out of
    range, [byteorder] reads and writes, and the [std::str] functions the DHT
    messages use.  [Panicked] is what an index out of range does; it is a value
    here so that its absence can be proved. *)
From S2P Require Import Prelude NodeId Addr Contact Record.

(** ** Errors *)

(** One constructor per [bail!] of [network/ember/dht/messages.rs], the end of a
    [Cursor], and a panic. *)
Inductive DecodeError :=
  | MessageTooShort | InvalidVersion0 | UnsupportedVersion | PayloadLenExceedsMax | MessageTruncated
  | MessageTrailingBytes | NoPublicKey | InvalidPublicKey | BadSignature | SenderIdMismatch
  | SocketAddrEmpty | SocketAddrTruncatedV4 | SocketAddrTruncatedV6 | UnknownAddressType
  | FindNodeTooShort | StoreTooShort | StoreRecordTooLong | StoreTruncated
  | BatchEmpty | BatchCountExceedsMax | BatchTruncatedHeader | BatchRecordTooLong | BatchTruncatedBody
  | BatchTrailingBytes | BatchAckTooShort | AckTooShort
  | FindValueEmpty | FindValueNoKeys | FindValueCountExceedsMax | FindValueTruncated
  | FoundValueTooShort | FoundValueCountExceedsMax | FoundValueTruncated | FoundValueBlobTooLong
  | FoundValueBlobExceedsBuffer
  | ChannelMsgTooLong | ChannelRelayTooLong | CallbackReqLength | CallbackLength | BuddyEndorseLength
  | ContactCountExceedsMax | ContactListTruncated | ContactTruncatedV4 | ContactTruncatedV6
  | ContactTruncatedKeys
  | UnexpectedEof
  | Panicked.

#[export] Instance DecodeError_eq_dec : EqDecision DecodeError.
Proof. solve_decision. Defined.

Inductive result (A : Type) :=
  | Ok (x : A)
  | Err (e : DecodeError).
Arguments Ok {A} x.
Arguments Err {A} e.

#[export] Instance result_ret : MRet result := @Ok.
#[export] Instance result_bind : MBind result := λ A B f r,
  match r with Ok x => f x | Err e => Err e end.

(** [if c { bail!(e) }]. *)
Definition bail_if (c : bool) (e : DecodeError) : result unit := if c then Err e else Ok tt.

(** ** Reading *)

(** [data[a..b]]. *)
Definition get (a b : nat) (data : bytes) : result bytes :=
  match slice a b data with Some l => Ok l | None => Err Panicked end.
(** [data[i]]. *)
Definition byte_at (i : nat) (data : bytes) : result Z :=
  match data !! i with Some b => Ok b | None => Err Panicked end.
(** [Cursor::read_exact] of [n] bytes at [a]. *)
Definition read (a n : nat) (data : bytes) : result bytes :=
  match slice a (a + n) data with Some l => Ok l | None => Err UnexpectedEof end.

(** [u16::from_le_bytes([data[i], data[i + 1]])]. *)
Definition u16_le_at (i : nat) (data : bytes) : result Z :=
  x ← byte_at i data; y ← byte_at (S i) data; Ok (le_value [x; y]).
(** [u16::from_be_bytes([data[i], data[i + 1]])]. *)
Definition u16_be_at (i : nat) (data : bytes) : result Z :=
  x ← byte_at i data; y ← byte_at (S i) data; Ok (x * 256 + y)%Z.
(** [Cursor::read_u16::<LittleEndian>]. *)
Definition read_u16_le (i : nat) (data : bytes) : result Z := l ← read i 2 data; Ok (le_value l).

(** ** Writing *)

(** [write_uN::<LittleEndian>] and [to_le_bytes]; a value too large loses its
    high bytes, as [as] does. *)
Fixpoint le_bytes (n : nat) (v : Z) : bytes :=
  match n with
  | 0 => []
  | S n => (v mod 256)%Z :: le_bytes n (v / 256)%Z
  end.
(** [write_u16::<BigEndian>]. *)
Definition be16 (v : Z) : bytes := [(v / 256 mod 256)%Z; (v mod 256)%Z].

(** ** [std] *)

(** [slice::chunks_exact]: [fuel] chunks at most; the length of [l] is enough. *)
Fixpoint chunks_from (fuel n : nat) (l : bytes) : list bytes :=
  match fuel with
  | 0 => []
  | S fuel => if decide (n ≤ length l) then take n l :: chunks_from fuel n (drop n l) else []
  end.
Definition chunks_exact (n : nat) (l : bytes) : list bytes := chunks_from (length l) n l.

(** [std::str::from_utf8]: the sequences of RFC 3629, without overlong forms,
    surrogates or values past U+10FFFF. *)
Definition utf8_cont (b : Z) : bool := Z.leb 128 b && Z.leb b 191.
Fixpoint utf8_valid (l : bytes) : bool :=
  match l with
  | [] => true
  | b0 :: l =>
      if Z.ltb b0 128 then Z.leb 0 b0 && utf8_valid l
      else match l with
      | [] => false
      | b1 :: l =>
          if Z.leb 194 b0 && Z.leb b0 223 then utf8_cont b1 && utf8_valid l
          else match l with
          | [] => false
          | b2 :: l =>
              if Z.leb 224 b0 && Z.leb b0 239 then
                (if Z.eqb b0 224 then Z.leb 160 b1 && Z.leb b1 191
                 else if Z.eqb b0 237 then Z.leb 128 b1 && Z.leb b1 159
                 else utf8_cont b1)
                && utf8_cont b2 && utf8_valid l
              else match l with
              | [] => false
              | b3 :: l =>
                  Z.leb 240 b0 && Z.leb b0 244
                  && (if Z.eqb b0 240 then Z.leb 144 b1 && Z.leb b1 191
                      else if Z.eqb b0 244 then Z.leb 128 b1 && Z.leb b1 143
                      else utf8_cont b1)
                  && utf8_cont b2 && utf8_cont b3 && utf8_valid l
              end
          end
      end
  end.

(** [str::trim_start_matches('.')] and [str::to_ascii_lowercase], on the bytes. *)
Fixpoint trim_start_dots (l : bytes) : bytes :=
  match l with
  | b :: l' => if Z.eqb b 46 then trim_start_dots l' else l
  | [] => []
  end.
Definition ascii_lower (b : Z) : Z := if Z.leb 65 b && Z.leb b 90 then (b + 32)%Z else b.
Definition to_ascii_lowercase (l : bytes) : bytes := ascii_lower <$> l.

(** ** Addresses *)
Definition v4_octets (a : Ipv4Addr) : bytes := [o0 a; o1 a; o2 a; o3 a].
Definition v6_octets (a : Ipv6Addr) : bytes := segments a ≫= be16.
Fixpoint segments_of (l : bytes) : list Z :=
  match l with
  | h :: l :: rest => (h * 256 + l)%Z :: segments_of rest
  | _ => []
  end.
(** [Ipv6Addr::from([u8; 16])]. *)
Definition v6_of_octets (l : bytes) : Ipv6Addr := mkV6 (segments_of l).
(** [SocketAddr::new]. *)
Definition SocketAddr_new (ip : IpAddr) (port : Z) : SocketAddr :=
  match ip with V4 a => SocketAddrV4 a port | V6 a => SocketAddrV6 a port 0 0 end.
