(* ===== verification/Crypto.v ===== *)
(** * Identities and signatures

    [network/ember/crypto.rs] over its two libraries: Ed25519 ([ed25519_dalek])
    and BLAKE3.  A [VerifyingKey] is the 32 bytes it was read from. *)
From S2P Require Import Prelude NodeId Contact Record.

Class Ed25519Blake3 := {
  (** [VerifyingKey::from_bytes] succeeds. *)
  valid_point : bytes → bool;
  (** [SigningKey::verifying_key().to_bytes()]. *)
  public_of : bytes → bytes;
  ed25519_sign : bytes → bytes → bytes;
  verify_strict : bytes → bytes → bytes → bool;
  blake3_hash : bytes → bytes;
  public_of_valid : ∀ sk, valid_point (public_of sk) = true;
  public_of_len : ∀ sk, length (public_of sk) = 32;
  sign_len : ∀ sk m, length (ed25519_sign sk m) = 64;
  hash_len : ∀ m, length (blake3_hash m) = 32;
  verify_sign : ∀ sk m, verify_strict (public_of sk) m (ed25519_sign sk m) = true;
}.

Section crypto.
Context `{Crypto : Ed25519Blake3}.

Definition verifying_key_from_bytes (b : bytes) : option bytes :=
  if valid_point b then Some b else None.
Definition node_id_from_public_key (pk : bytes) : bytes := take 16 (blake3_hash pk).
Definition node_id_from_ed25519_bytes (b : bytes) : option bytes :=
  node_id_from_public_key <$> verifying_key_from_bytes b.
Definition verify_ember_hash_binding (pubkey advertised : bytes) : bool :=
  valid_point pubkey && bool_decide (node_id_from_public_key pubkey = advertised).
Definition sign (sk m : bytes) : bytes := ed25519_sign sk m.
Definition verify (pk m sig : bytes) : bool := verify_strict pk m sig.
End crypto.

(** The laws are consistent: a toy scheme whose signature is the key and a
    checksum.  It stands for nothing but their satisfiability. *)
Definition toy_sum (m : bytes) : Z := foldr Z.add 0%Z m.
Definition toy_signature (pk m : bytes) : bytes := resize 64 0%Z (resize 32 0%Z pk ++ [(toy_sum m mod 256)%Z]).
Program Definition toy_crypto : Ed25519Blake3 := {|
  valid_point := λ b, bool_decide (length b = 32);
  public_of := λ sk, resize 32 0%Z sk;
  ed25519_sign := λ sk m, toy_signature (resize 32 0%Z sk) m;
  verify_strict := λ pk m sig, bool_decide (sig = toy_signature pk m);
  blake3_hash := λ m, resize 32 0%Z m;
|}.
Next Obligation. intros sk. apply bool_decide_eq_true, length_resize. Qed.
Next Obligation. intros sk. apply length_resize. Qed.
Next Obligation. intros sk m. apply length_resize. Qed.
Next Obligation. intros m. apply length_resize. Qed.
Next Obligation. intros sk m. by apply bool_decide_eq_true. Qed.
