(* ===== verification/Messages.v ===== *)
(** * The DHT wire format

    [network/ember/dht/messages.rs]: the messages, their builders, and the
    encoder and decoder of payloads and of signed frames.  An offset into a
    payload is the source's, so an index out of range shows up as [Panicked]. *)
From S2P Require Import Prelude NodeId Addr Contact Record Wire Crypto.

(** ** Limits *)
Definition EMBER_DHT_VERSION : Z := 4.
Definition EMBER_DHT_MIN_VERSION : Z := 4.
Definition MAX_CONTACTS_PER_RESPONSE : nat := 20.
Definition MAX_EMBER_DATAGRAM_BYTES : nat := 4096.

Definition MSG_PING : Z := 1.
Definition MSG_PONG : Z := 2.
Definition MSG_FIND_NODE : Z := 3.
Definition MSG_FOUND_NODE : Z := 4.
Definition MSG_STORE_RECORD : Z := 5.
Definition MSG_STORE_ACK : Z := 6.
Definition MSG_FIND_VALUE : Z := 7.
Definition MSG_FOUND_VALUE : Z := 8.
Definition MSG_ANNOUNCE_PEER : Z := 9.
Definition MSG_PEER_LIST : Z := 10.
Definition MSG_PROXY_STORE : Z := 11.
Definition MSG_PROXY_STORE_ACK : Z := 12.
Definition MSG_STORE_BATCH : Z := 13.
Definition MSG_STORE_BATCH_ACK : Z := 14.
Definition MSG_CALLBACK_REQ : Z := 15.
Definition MSG_CALLBACK : Z := 16.
Definition MSG_CHANNEL_MSG : Z := 17.
Definition MSG_CHANNEL_RELAY : Z := 18.
Definition MSG_BUDDY_ENDORSE_REQ : Z := 19.
Definition MSG_BUDDY_ENDORSE : Z := 20.

Definition CALLBACK_REQ_WIRE_LEN : nat := 16 + 16 + 2 + 1 + 16 + 16.
Definition CALLBACK_WIRE_LEN : nat := 16 + 4 + 2 + 1 + 16 + 16.
Definition BUDDY_ENDORSE_WIRE_LEN : nat := 4 + 2 + 32 + 8 + 64.
Definition MAX_STORE_BATCH_RECORDS : nat := 64.
Definition MAX_FIND_VALUE_KEYS : nat := 8.
Definition MAX_FIND_VALUE_EXTRA_KEYS : nat := 15.
Definition MAX_FOUND_VALUE_RECORDS : nat := 300.
Definition VALUE_EXT_MAGIC : Z := 58817.
Definition VALUE_EXT_TAG_MIN_SIZE : Z := 1.
Definition VALUE_EXT_TAG_MAX_SIZE : Z := 2.
Definition VALUE_EXT_TAG_FILE_TYPE : Z := 3.
Definition VALUE_EXT_TAG_EXTRA_KEYS : Z := 4.
Definition VALUE_EXT_TAG_FILE_EXTENSION : Z := 5.
Definition VALUE_EXT_TAG_RESUME_AFTER : Z := 6.
Definition MAX_RESUME_ANCHORS : nat := 3.
Definition RESUME_ANCHOR_LEN : nat := 8.
Definition MAX_VALUE_FILE_TYPE_BYTES : nat := 16.
Definition MAX_VALUE_FILE_EXTENSION_BYTES : nat := 16.

Definition HEADER_MIN_SIZE : nat := 22.
Definition FRAME_OVERHEAD : nat := HEADER_MIN_SIZE + 32 + 2 + 64.
Definition TRANSPORT_OVERHEAD : nat := 3 + 8 + 16.
Definition MAX_DELIVERABLE_PAYLOAD : nat :=
  MAX_EMBER_DATAGRAM_BYTES - TRANSPORT_OVERHEAD - FRAME_OVERHEAD.
Definition MAX_DHT_PAYLOAD : nat := MAX_DELIVERABLE_PAYLOAD.
Definition MAX_UNFRAGMENTED_DATAGRAM : nat := 1400.
Definition MAX_UNFRAGMENTED_PAYLOAD : nat :=
  MAX_UNFRAGMENTED_DATAGRAM - TRANSPORT_OVERHEAD - FRAME_OVERHEAD.
Definition FOUND_VALUE_HEADER_LEN : nat := 16 + 2 + 2 + 2.
Definition MAX_FOUND_VALUE_RECORD_BYTES : nat :=
  MAX_UNFRAGMENTED_PAYLOAD - FOUND_VALUE_HEADER_LEN.
Definition FOUND_VALUE_BLOB_LEN_PREFIX : nat := 2.
Definition FOUND_VALUE_BLOB_SIGNATURE_LEN : nat := 64.
Definition WIRE_MAX_STORE_RECORD_BYTES : nat :=
  MAX_FOUND_VALUE_RECORD_BYTES - FOUND_VALUE_BLOB_LEN_PREFIX - FOUND_VALUE_BLOB_SIGNATURE_LEN.
Definition MAX_FOUND_VALUE_BLOB_BYTES : nat :=
  WIRE_MAX_STORE_RECORD_BYTES + FOUND_VALUE_BLOB_SIGNATURE_LEN.
Definition ADDR_IPV4 : Z := 4.
Definition ADDR_IPV6 : Z := 6.

(** ** Messages *)

(** The anchors in use, nearest first. *)
Abbreviation ResumeAnchors := (list bytes).
Definition anchor_push (r : ResumeAnchors) (a : bytes) : ResumeAnchors :=
  if decide (length r < MAX_RESUME_ANCHORS) then r ++ [a] else r.

(** [record_anchor]. *)
Definition record_anchor (data : bytes) : option bytes :=
  if decide (length data < RECORD_HEADER_LEN) then None
  else a ← slice 17 21 data; b ← slice 73 77 data; Some (a ++ b).

(** A [String] is its bytes. *)
Record ValueConstraints := mkConstraints {
  min_size : option Z;
  max_size : option Z;
  file_type : option bytes;
  file_extension : option bytes;
  extra_keys : list bytes;
}.
Definition ValueConstraints_default : ValueConstraints := mkConstraints None None None None [].
Definition constraints_is_empty (c : ValueConstraints) : bool :=
  bool_decide (min_size c = None) && bool_decide (max_size c = None)
  && bool_decide (file_type c = None) && bool_decide (file_extension c = None)
  && bool_decide (extra_keys c = []).

Record VersionRange := mkRange { range_min : Z; range_max : Z }.
Definition range_accepts (r : VersionRange) (v : Z) : bool :=
  Z.leb (range_min r) v && Z.leb v (range_max r).
Definition OUR_VERSION_RANGE : VersionRange := mkRange EMBER_DHT_MIN_VERSION EMBER_DHT_VERSION.

Record BatchedRecord := mkBatched { b_key : bytes; b_record : bytes; b_signature : bytes }.

Inductive DhtPayload :=
  | Ping (versions : option VersionRange)
  | Pong (observed : option SocketAddr) (versions : option VersionRange)
  | FindNode (target : EmberNodeId)
  | FoundNode (contacts : list EmberContact)
  | StoreRecord (key record record_signature : bytes)
  | StoreAck (key : bytes)
  | ProxyStore (key record record_signature : bytes)
  | ProxyStoreAck (key : bytes)
  | StoreBatch (records : list BatchedRecord)
  | StoreBatchAck (accepted : Z)
  | FindValue (keys : list bytes) (start_position : Z) (constraints : ValueConstraints)
      (resume_after : ResumeAnchors)
  | FoundValue (key : bytes) (records : list bytes) (next_position total_available : Z)
  | AnnouncePeer (contacts : list EmberContact)
  | PeerList (contacts : list EmberContact)
  | ChannelMsg (body : bytes)
  | ChannelRelay (body : bytes)
  | CallbackReq (publisher_id : EmberNodeId) (file_hash : bytes) (searcher_tcp_port crypt_options : Z)
      (searcher_user_hash callback_token : bytes)
  | Callback (file_hash : bytes) (searcher_ip : Ipv4Addr) (searcher_tcp_port crypt_options : Z)
      (searcher_user_hash callback_token : bytes)
  | BuddyEndorseReq
  | BuddyEndorse (ip : Ipv4Addr) (udp_port : Z) (noise_pub : bytes) (expires_at : Z) (signature : bytes)
  | Unknown (data : bytes).

Record DhtMessage := mkMessage {
  version : Z;
  msg_type : Z;
  request_id : Z;
  sender_id : EmberNodeId;
  sender_pub_key : option bytes;
  payload : DhtPayload;
  msg_signature : bytes;
}.

(** ** Builders *)
Section builders.
Context (sender : EmberNodeId) (request : Z).
Definition build (ty : Z) (p : DhtPayload) : DhtMessage :=
  mkMessage EMBER_DHT_VERSION ty request sender None p (repeat 0%Z 64).

Definition build_ping : DhtMessage := build MSG_PING (Ping (Some OUR_VERSION_RANGE)).
Definition build_pong (observed : SocketAddr) : DhtMessage :=
  build MSG_PONG (Pong (Some observed) (Some OUR_VERSION_RANGE)).
Definition build_find_node (target : EmberNodeId) : DhtMessage := build MSG_FIND_NODE (FindNode target).
Definition build_found_node (contacts : list EmberContact) : DhtMessage :=
  build MSG_FOUND_NODE (FoundNode contacts).
Definition build_announce_peer (contacts : list EmberContact) : DhtMessage :=
  build MSG_ANNOUNCE_PEER (AnnouncePeer contacts).
Definition build_peer_list (contacts : list EmberContact) : DhtMessage :=
  build MSG_PEER_LIST (PeerList contacts).
Definition build_store_record (key record sig : bytes) : DhtMessage :=
  build MSG_STORE_RECORD (StoreRecord key record sig).
Definition build_store_ack (key : bytes) : DhtMessage := build MSG_STORE_ACK (StoreAck key).
Definition build_proxy_store (key record sig : bytes) : DhtMessage :=
  build MSG_PROXY_STORE (ProxyStore key record sig).
Definition build_proxy_store_ack (key : bytes) : DhtMessage :=
  build MSG_PROXY_STORE_ACK (ProxyStoreAck key).
Definition build_store_batch (records : list BatchedRecord) : DhtMessage :=
  build MSG_STORE_BATCH (StoreBatch records).
Definition build_store_batch_ack (accepted : Z) : DhtMessage :=
  build MSG_STORE_BATCH_ACK (StoreBatchAck accepted).
Definition build_channel_msg (body : bytes) : DhtMessage := build MSG_CHANNEL_MSG (ChannelMsg body).
Definition build_channel_relay (body : bytes) : DhtMessage := build MSG_CHANNEL_RELAY (ChannelRelay body).
Definition build_callback_req (publisher_id file_hash : bytes) (port crypt : Z) (user token : bytes)
    : DhtMessage :=
  build MSG_CALLBACK_REQ (CallbackReq publisher_id file_hash port crypt user token).
Definition build_buddy_endorse_req : DhtMessage := build MSG_BUDDY_ENDORSE_REQ BuddyEndorseReq.
Definition build_buddy_endorse (ip : Ipv4Addr) (port : Z) (noise : bytes) (expires : Z) (sig : bytes)
    : DhtMessage :=
  build MSG_BUDDY_ENDORSE (BuddyEndorse ip port noise expires sig).
Definition build_callback (file_hash : bytes) (ip : Ipv4Addr) (port crypt : Z) (user token : bytes)
    : DhtMessage :=
  build MSG_CALLBACK (Callback file_hash ip port crypt user token).
Definition build_find_value_resuming (keys : list bytes) (start : Z) (c : ValueConstraints)
    (r : ResumeAnchors) : DhtMessage :=
  build MSG_FIND_VALUE (FindValue keys start c r).
Definition build_found_value (key : bytes) (records : list bytes) (next total : Z) : DhtMessage :=
  build MSG_FOUND_VALUE (FoundValue key records next total).
End builders.

(** ** Encoding *)
Definition VERSION_RANGE_TAG : Z := 1.
Definition VERSION_RANGE_VALUE_LEN : Z := 2.
Definition encode_version_block (r : VersionRange) : bytes :=
  [VERSION_RANGE_TAG; VERSION_RANGE_VALUE_LEN; range_min r; range_max r].
Definition encode_versions (v : option VersionRange) : bytes :=
  match v with Some r => encode_version_block r | None => [] end.

Definition encode_socket_addr (a : SocketAddr) : bytes :=
  match addr_ip a with
  | V4 ip => ADDR_IPV4 :: v4_octets ip
  | V6 ip => ADDR_IPV6 :: v6_octets ip
  end ++ be16 (addr_port a).

(** One entry, left out when its length does not fit a byte. *)
Definition tlv_entry (tag : Z) (value : bytes) : bytes :=
  if decide (length value ≤ 255) then tag :: Z.of_nat (length value) :: value else [].
Definition tlv_text (tag : Z) (max : nat) (text : option bytes) : bytes :=
  match text with
  | Some t => if decide (length t ≤ max) then tlv_entry tag t else []
  | None => []
  end.
Definition encode_tlv (c : ValueConstraints) (r : ResumeAnchors) : bytes :=
  match min_size c with Some v => tlv_entry VALUE_EXT_TAG_MIN_SIZE (le_bytes 8 v) | None => [] end
  ++ match max_size c with Some v => tlv_entry VALUE_EXT_TAG_MAX_SIZE (le_bytes 8 v) | None => [] end
  ++ tlv_text VALUE_EXT_TAG_FILE_TYPE MAX_VALUE_FILE_TYPE_BYTES (file_type c)
  ++ tlv_text VALUE_EXT_TAG_FILE_EXTENSION MAX_VALUE_FILE_EXTENSION_BYTES (file_extension c)
  ++ (if bool_decide (extra_keys c = []) then []
      else tlv_entry VALUE_EXT_TAG_EXTRA_KEYS (concat (take MAX_FIND_VALUE_EXTRA_KEYS (extra_keys c))))
  ++ (if bool_decide (r = []) then [] else tlv_entry VALUE_EXT_TAG_RESUME_AFTER (concat r)).
Definition encode_value_constraints (c : ValueConstraints) (r : ResumeAnchors) : bytes :=
  if constraints_is_empty c && bool_decide (r = []) then []
  else
    let tlv := encode_tlv c r in
    if decide (Z.of_nat (length tlv) ≤ 65535)%Z
    then le_bytes 2 VALUE_EXT_MAGIC ++ le_bytes 2 (Z.of_nat (length tlv)) ++ tlv
    else [].

Definition encode_contact (c : EmberContact) : bytes :=
  encode_socket_addr (addr c) ++ Contact.noise_pub c ++ ed25519_pub c.
(** The loop: the bytes and the count, stopped by the byte budget. *)
Fixpoint encode_contacts (buf : bytes) (count : nat) (l : list EmberContact) : bytes * nat :=
  match l with
  | [] => (buf, count)
  | c :: l =>
      let buf' := buf ++ encode_contact c in
      if decide (MAX_UNFRAGMENTED_PAYLOAD < length buf') then (buf, count)
      else encode_contacts buf' (S count) l
  end.
(** The count byte is written first as a placeholder. *)
Definition encode_contact_list (l : list EmberContact) : bytes :=
  let '(buf, count) := encode_contacts [0%Z] 0 (take MAX_CONTACTS_PER_RESPONSE l) in
  <[0 := (Z.of_nat count mod 256)%Z]> buf.

Definition encode_store (key record sig : bytes) : bytes :=
  key ++ le_bytes 2 (Z.of_nat (length record)) ++ record ++ sig.

Definition encode_payload (p : DhtPayload) : bytes :=
  match p with
  | Ping versions => encode_versions versions
  | Pong observed versions =>
      match observed with
      | Some a => encode_socket_addr a ++ encode_versions versions
      | None => []
      end
  | FindNode target => target
  | FoundNode contacts | AnnouncePeer contacts | PeerList contacts => encode_contact_list contacts
  | StoreRecord key record sig | ProxyStore key record sig => encode_store key record sig
  | StoreAck key | ProxyStoreAck key => key
  | StoreBatch records =>
      let count := Nat.min (length records) MAX_STORE_BATCH_RECORDS in
      (Z.of_nat count mod 256)%Z ::
      (take count records ≫= λ r, encode_store (b_key r) (b_record r) (b_signature r))
  | StoreBatchAck accepted => le_bytes 8 accepted
  | FindValue keys start c r =>
      let count := Nat.min (length keys) MAX_FIND_VALUE_KEYS in
      (Z.of_nat count mod 256)%Z :: concat (take count keys) ++ le_bytes 2 start
      ++ encode_value_constraints c r
  | FoundValue key records next total =>
      let count := Nat.min (length records) MAX_FOUND_VALUE_RECORDS in
      key ++ le_bytes 2 next ++ le_bytes 2 total ++ le_bytes 2 (Z.of_nat count)
      ++ (take count records ≫= λ r, le_bytes 2 (Z.of_nat (length r)) ++ r)
  | ChannelMsg body | ChannelRelay body => body
  | CallbackReq publisher hash port crypt user token =>
      publisher ++ hash ++ le_bytes 2 port ++ [crypt] ++ user ++ token
  | Callback hash ip port crypt user token =>
      hash ++ v4_octets ip ++ le_bytes 2 port ++ [crypt] ++ user ++ token
  | BuddyEndorseReq => []
  | BuddyEndorse ip port noise expires sig =>
      v4_octets ip ++ le_bytes 2 port ++ noise ++ le_bytes 8 expires ++ sig
  | Unknown data => data
  end.

(** ** Decoding *)

(** The [while] over the block: two bytes at least are consumed a round, so the
    length of [data] bounds the rounds. *)
Fixpoint decode_version_loop (fuel : nat) (data : bytes) (at_ : nat) : result (option VersionRange) :=
  match fuel with
  | 0 => Ok None
  | S fuel =>
      if decide (at_ + 2 ≤ length data) then
        tag ← byte_at at_ data;
        len ← byte_at (at_ + 1) data;
        let value := at_ + 2 in
        let end_ := value + Z.to_nat len in
        if decide (length data < end_) then Ok None
        else if Z.eqb tag VERSION_RANGE_TAG then
          if negb (Z.eqb len VERSION_RANGE_VALUE_LEN) then Ok None
          else
            mn ← byte_at value data;
            mx ← byte_at (value + 1) data;
            if Z.eqb mn 0 || Z.ltb mx mn then Ok None else Ok (Some (mkRange mn mx))
        else decode_version_loop fuel data end_
      else Ok None
  end.
Definition decode_version_block (data : bytes) : result (option VersionRange) :=
  decode_version_loop (S (length data)) data 0.

Definition decode_socket_addr (data : bytes) : result (SocketAddr * nat) :=
  _ ← bail_if (bool_decide (data = [])) SocketAddrEmpty;
  addr_type ← byte_at 0 data;
  '(ip, ip_len) ←
    (if Z.eqb addr_type ADDR_IPV4 then
       _ ← bail_if (bool_decide (length data < 1 + 4 + 2)) SocketAddrTruncatedV4;
       a ← byte_at 1 data; b ← byte_at 2 data; c ← byte_at 3 data; d ← byte_at 4 data;
       Ok (V4 (mkV4 a b c d), 4)
     else if Z.eqb addr_type ADDR_IPV6 then
       _ ← bail_if (bool_decide (length data < 1 + 16 + 2)) SocketAddrTruncatedV6;
       octets ← get 1 17 data;
       Ok (V6 (v6_of_octets octets), 16)
     else Err UnknownAddressType : result (IpAddr * nat));
  let port_off := 1 + ip_len in
  port ← u16_be_at port_off data;
  Ok (SocketAddr_new ip port, port_off + 2).

(** One entry of the constraint block, by its tag. *)
Definition set_min (c : ValueConstraints) (v : Z) : ValueConstraints :=
  mkConstraints (Some v) (max_size c) (file_type c) (file_extension c) (extra_keys c).
Definition set_max (c : ValueConstraints) (v : Z) : ValueConstraints :=
  mkConstraints (min_size c) (Some v) (file_type c) (file_extension c) (extra_keys c).
Definition set_type (c : ValueConstraints) (t : bytes) : ValueConstraints :=
  mkConstraints (min_size c) (max_size c) (Some t) (file_extension c) (extra_keys c).
Definition set_extension (c : ValueConstraints) (t : bytes) : ValueConstraints :=
  mkConstraints (min_size c) (max_size c) (file_type c) (Some t) (extra_keys c).
Definition add_keys (c : ValueConstraints) (l : list bytes) : ValueConstraints :=
  mkConstraints (min_size c) (max_size c) (file_type c) (file_extension c) (extra_keys c ++ l).

Definition decode_entry (tag : Z) (value : bytes) (acc : ValueConstraints * ResumeAnchors)
    : ValueConstraints * ResumeAnchors :=
  let '(out, resume) := acc in
  if Z.eqb tag VALUE_EXT_TAG_MIN_SIZE then
    if decide (length value = 8) then (set_min out (le_value value), resume) else acc
  else if Z.eqb tag VALUE_EXT_TAG_MAX_SIZE then
    if decide (length value = 8) then (set_max out (le_value value), resume) else acc
  else if Z.eqb tag VALUE_EXT_TAG_FILE_TYPE then
    if decide (length value ≤ MAX_VALUE_FILE_TYPE_BYTES) then
      if utf8_valid value && negb (bool_decide (value = [])) then (set_type out value, resume) else acc
    else acc
  else if Z.eqb tag VALUE_EXT_TAG_FILE_EXTENSION then
    if decide (length value ≤ MAX_VALUE_FILE_EXTENSION_BYTES) then
      if utf8_valid value then
        let text := to_ascii_lowercase (trim_start_dots value) in
        if bool_decide (text = []) then acc else (set_extension out text, resume)
      else acc
    else acc
  else if Z.eqb tag VALUE_EXT_TAG_EXTRA_KEYS then
    let room := MAX_FIND_VALUE_EXTRA_KEYS - length (extra_keys out) in
    (add_keys out (take room (chunks_exact 16 value)), resume)
  else if Z.eqb tag VALUE_EXT_TAG_RESUME_AFTER then
    (out, foldl anchor_push resume (chunks_exact RESUME_ANCHOR_LEN value))
  else acc.

(** The [while] over the entries; again two bytes a round at least. *)
Fixpoint decode_entries (fuel : nat) (tlv : bytes) (i : nat) (acc : ValueConstraints * ResumeAnchors)
    : result (ValueConstraints * ResumeAnchors) :=
  match fuel with
  | 0 => Ok acc
  | S fuel =>
      if decide (i + 2 ≤ length tlv) then
        tag ← byte_at i tlv;
        len ← byte_at (i + 1) tlv;
        match slice (i + 2) (i + 2 + Z.to_nat len) tlv with
        | None => Ok acc
        | Some value => decode_entries fuel tlv (i + (2 + Z.to_nat len)) (decode_entry tag value acc)
        end
      else Ok acc
  end.
Definition decode_value_constraints (rest : bytes) : result (ValueConstraints * ResumeAnchors) :=
  let none := (ValueConstraints_default, []) in
  if decide (length rest < 4) then Ok none
  else
    magic ← u16_le_at 0 rest;
    if negb (Z.eqb magic VALUE_EXT_MAGIC) then Ok none
    else
      len ← u16_le_at 2 rest;
      match slice 4 (4 + Z.to_nat len) rest with
      | None => Ok none
      | Some tlv => decode_entries (S (length tlv)) tlv 0 none
      end.

Section decoding.
Context `{Crypto : Ed25519Blake3}.

(** One contact of a list at [offset]; [None] for a key that is no curve point. *)
Definition decode_contact (data : bytes) (offset : nat) : result (option EmberContact * nat) :=
  _ ← bail_if (bool_decide (length data < offset + 1)) ContactListTruncated;
  addr_type ← byte_at offset data;
  let offset := offset + 1 in
  '(ip, ip_len) ←
    (if Z.eqb addr_type ADDR_IPV4 then
       _ ← bail_if (bool_decide (length data < offset + 4)) ContactTruncatedV4;
       a ← byte_at offset data; b ← byte_at (offset + 1) data;
       c ← byte_at (offset + 2) data; d ← byte_at (offset + 3) data;
       Ok (V4 (mkV4 a b c d), 4)
     else if Z.eqb addr_type ADDR_IPV6 then
       _ ← bail_if (bool_decide (length data < offset + 16)) ContactTruncatedV6;
       octets ← get offset (offset + 16) data;
       Ok (V6 (v6_of_octets octets), 16)
     else Err UnknownAddressType : result (IpAddr * nat));
  let offset := offset + ip_len in
  _ ← bail_if (bool_decide (length data < offset + 2 + 32 + 32)) ContactTruncatedKeys;
  port ← u16_be_at offset data;
  let offset := offset + 2 in
  noise ← get offset (offset + 32) data;
  let offset := offset + 32 in
  ed ← get offset (offset + 32) data;
  let offset := offset + 32 in
  Ok ((λ id, mkContact id (SocketAddr_new ip port) noise ed 0 0) <$> node_id_from_ed25519_bytes ed, offset).

Fixpoint decode_contacts (count : nat) (data : bytes) (offset : nat) (acc : list EmberContact)
    : result (list EmberContact) :=
  match count with
  | 0 => Ok acc
  | S count =>
      '(c, offset) ← decode_contact data offset;
      decode_contacts count data offset (match c with Some c => acc ++ [c] | None => acc end)
  end.
Definition decode_contact_list (data : bytes) : result (list EmberContact) :=
  if decide (data = []) then Ok []
  else
    count ← byte_at 0 data;
    _ ← bail_if (bool_decide (MAX_CONTACTS_PER_RESPONSE < Z.to_nat count)) ContactCountExceedsMax;
    decode_contacts (Z.to_nat count) data 1 [].

(** [STORE_RECORD] and [PROXY_STORE]. *)
Definition decode_store (data : bytes) : result (bytes * bytes * bytes) :=
  _ ← bail_if (bool_decide (length data < 16 + 2 + 64)) StoreTooShort;
  key ← get 0 16 data;
  len ← read_u16_le 16 data;
  let record_len := Z.to_nat len in
  _ ← bail_if (bool_decide (WIRE_MAX_STORE_RECORD_BYTES < record_len)) StoreRecordTooLong;
  let offset := 18 in
  _ ← bail_if (bool_decide (length data < offset + record_len + 64)) StoreTruncated;
  record ← get offset (offset + record_len) data;
  sig ← get (offset + record_len) (offset + record_len + 64) data;
  Ok (key, record, sig).

Fixpoint decode_batch (count : nat) (data : bytes) (offset : nat) (acc : list BatchedRecord)
    : result (list BatchedRecord * nat) :=
  match count with
  | 0 => Ok (acc, offset)
  | S count =>
      _ ← bail_if (bool_decide (length data < offset + 16 + 2)) BatchTruncatedHeader;
      key ← get offset (offset + 16) data;
      let offset := offset + 16 in
      len ← u16_le_at offset data;
      let record_len := Z.to_nat len in
      let offset := offset + 2 in
      _ ← bail_if (bool_decide (WIRE_MAX_STORE_RECORD_BYTES < record_len)) BatchRecordTooLong;
      _ ← bail_if (bool_decide (length data < offset + record_len + 64)) BatchTruncatedBody;
      record ← get offset (offset + record_len) data;
      let offset := offset + record_len in
      sig ← get offset (offset + 64) data;
      decode_batch count data (offset + 64) (acc ++ [mkBatched key record sig])
  end.

Fixpoint decode_keys (count i : nat) (data : bytes) : result (list bytes) :=
  match count with
  | 0 => Ok []
  | S count =>
      key ← get (1 + i * 16) (1 + (i + 1) * 16) data;
      keys ← decode_keys count (S i) data;
      Ok (key :: keys)
  end.

Fixpoint decode_blobs (count : nat) (data : bytes) (offset : nat) (acc : list bytes)
    : result (list bytes) :=
  match count with
  | 0 => Ok acc
  | S count =>
      _ ← bail_if (bool_decide (length data < offset + 2)) FoundValueTruncated;
      len ← u16_le_at offset data;
      let rlen := Z.to_nat len in
      _ ← bail_if (bool_decide (MAX_FOUND_VALUE_BLOB_BYTES < rlen)) FoundValueBlobTooLong;
      let offset := offset + 2 in
      _ ← bail_if (bool_decide (length data < offset + rlen)) FoundValueBlobExceedsBuffer;
      blob ← get offset (offset + rlen) data;
      decode_blobs count data (offset + rlen) (acc ++ [blob])
  end.

Definition decode_find_value (data : bytes) : result DhtPayload :=
  _ ← bail_if (bool_decide (data = [])) FindValueEmpty;
  c ← byte_at 0 data;
  let count := Z.to_nat c in
  _ ← bail_if (bool_decide (count = 0)) FindValueNoKeys;
  _ ← bail_if (bool_decide (MAX_FIND_VALUE_KEYS < count)) FindValueCountExceedsMax;
  _ ← bail_if (bool_decide (length data < 1 + count * 16 + 2)) FindValueTruncated;
  keys ← decode_keys count 0 data;
  let pos_at := 1 + count * 16 in
  start ← u16_le_at pos_at data;
  rest ← get (pos_at + 2) (length data) data;
  '(constraints, resume) ← decode_value_constraints rest;
  Ok (FindValue keys start constraints resume).

Definition decode_found_value (data : bytes) : result DhtPayload :=
  _ ← bail_if (bool_decide (length data < FOUND_VALUE_HEADER_LEN)) FoundValueTooShort;
  key ← get 0 16 data;
  next ← read_u16_le 16 data;
  total ← read_u16_le 18 data;
  n ← read_u16_le 20 data;
  let count := Z.to_nat n in
  _ ← bail_if (bool_decide (MAX_FOUND_VALUE_RECORDS < count)) FoundValueCountExceedsMax;
  records ← decode_blobs count data FOUND_VALUE_HEADER_LEN [];
  Ok (FoundValue key records next total).

Definition decode_callback_req (data : bytes) : result DhtPayload :=
  _ ← bail_if (negb (bool_decide (length data = CALLBACK_REQ_WIRE_LEN))) CallbackReqLength;
  publisher ← get 0 16 data;
  hash ← get 16 32 data;
  port ← u16_le_at 32 data;
  crypt ← byte_at 34 data;
  user ← get 35 51 data;
  token ← get 51 67 data;
  Ok (CallbackReq publisher hash port crypt user token).

Definition decode_callback (data : bytes) : result DhtPayload :=
  _ ← bail_if (negb (bool_decide (length data = CALLBACK_WIRE_LEN))) CallbackLength;
  hash ← get 0 16 data;
  a ← byte_at 16 data; b ← byte_at 17 data; c ← byte_at 18 data; d ← byte_at 19 data;
  port ← u16_le_at 20 data;
  crypt ← byte_at 22 data;
  user ← get 23 39 data;
  token ← get 39 55 data;
  Ok (Callback hash (mkV4 a b c d) port crypt user token).

Definition decode_buddy_endorse (data : bytes) : result DhtPayload :=
  _ ← bail_if (negb (bool_decide (length data = BUDDY_ENDORSE_WIRE_LEN))) BuddyEndorseLength;
  a ← byte_at 0 data; b ← byte_at 1 data; c ← byte_at 2 data; d ← byte_at 3 data;
  port ← u16_le_at 4 data;
  noise ← get 6 38 data;
  expires ← get 38 46 data;
  sig ← get 46 110 data;
  Ok (BuddyEndorse (mkV4 a b c d) port noise (i64_le_value expires) sig).

Definition decode_payload (ty : Z) (data : bytes) : result DhtPayload :=
  if Z.eqb ty MSG_PING then versions ← decode_version_block data; Ok (Ping versions)
  else if Z.eqb ty MSG_PONG then
    if decide (data = []) then Ok (Pong None None)
    else
      '(a, consumed) ← decode_socket_addr data;
      rest ← get consumed (length data) data;
      versions ← decode_version_block rest;
      Ok (Pong (Some a) versions)
  else if Z.eqb ty MSG_FIND_NODE then
    _ ← bail_if (bool_decide (length data < 16)) FindNodeTooShort;
    target ← get 0 16 data;
    Ok (FindNode target)
  else if Z.eqb ty MSG_FOUND_NODE then contacts ← decode_contact_list data; Ok (FoundNode contacts)
  else if Z.eqb ty MSG_ANNOUNCE_PEER then contacts ← decode_contact_list data; Ok (AnnouncePeer contacts)
  else if Z.eqb ty MSG_PEER_LIST then contacts ← decode_contact_list data; Ok (PeerList contacts)
  else if Z.eqb ty MSG_STORE_RECORD then
    '(key, record, sig) ← decode_store data; Ok (StoreRecord key record sig)
  else if Z.eqb ty MSG_PROXY_STORE then
    '(key, record, sig) ← decode_store data; Ok (ProxyStore key record sig)
  else if Z.eqb ty MSG_STORE_BATCH then
    _ ← bail_if (bool_decide (data = [])) BatchEmpty;
    count ← byte_at 0 data;
    _ ← bail_if (bool_decide (MAX_STORE_BATCH_RECORDS < Z.to_nat count)) BatchCountExceedsMax;
    '(records, offset) ← decode_batch (Z.to_nat count) data 1 [];
    _ ← bail_if (negb (bool_decide (offset = length data))) BatchTrailingBytes;
    Ok (StoreBatch records)
  else if Z.eqb ty MSG_STORE_BATCH_ACK then
    _ ← bail_if (bool_decide (length data < 8)) BatchAckTooShort;
    bits ← get 0 8 data;
    Ok (StoreBatchAck (le_value bits))
  else if Z.eqb ty MSG_STORE_ACK then
    _ ← bail_if (bool_decide (length data < 16)) AckTooShort;
    key ← get 0 16 data;
    Ok (StoreAck key)
  else if Z.eqb ty MSG_PROXY_STORE_ACK then
    _ ← bail_if (bool_decide (length data < 16)) AckTooShort;
    key ← get 0 16 data;
    Ok (ProxyStoreAck key)
  else if Z.eqb ty MSG_FIND_VALUE then decode_find_value data
  else if Z.eqb ty MSG_FOUND_VALUE then decode_found_value data
  else if Z.eqb ty MSG_CHANNEL_MSG then
    _ ← bail_if (bool_decide (MAX_DHT_PAYLOAD < length data)) ChannelMsgTooLong;
    Ok (ChannelMsg data)
  else if Z.eqb ty MSG_CHANNEL_RELAY then
    _ ← bail_if (bool_decide (MAX_DHT_PAYLOAD < length data)) ChannelRelayTooLong;
    Ok (ChannelRelay data)
  else if Z.eqb ty MSG_CALLBACK_REQ then decode_callback_req data
  else if Z.eqb ty MSG_CALLBACK then decode_callback data
  else if Z.eqb ty MSG_BUDDY_ENDORSE_REQ then Ok BuddyEndorseReq
  else if Z.eqb ty MSG_BUDDY_ENDORSE then decode_buddy_endorse data
  else Ok (Unknown data).

(** ** Signed frames *)
Definition oversized_store_record (p : DhtPayload) : option nat :=
  match p with
  | StoreRecord _ record _ | ProxyStore _ record _ =>
      if decide (WIRE_MAX_STORE_RECORD_BYTES < length record) then Some (length record) else None
  | StoreBatch records =>
      head (retain (λ n, bool_decide (WIRE_MAX_STORE_RECORD_BYTES < n))
              ((λ r, length (b_record r)) <$> records))
  | _ => None
  end.

(** b"ember-dht-frame-v4". *)
Definition DHT_FRAME_DOMAIN : bytes := [101; 109; 98; 101; 114; 45; 100; 104; 116; 45; 102; 114; 97; 109; 101; 45; 118; 52]%Z.
Definition frame_signing_suffix (noise : bytes) : bytes := DHT_FRAME_DOMAIN ++ noise.

(** The frame up to its signature. *)
Definition frame_body (m : DhtMessage) (sk : bytes) (include_pub_key : bool) (payload_bytes : bytes) : bytes :=
  [version m; msg_type m] ++ le_bytes 4 (request_id m) ++ sender_id m
  ++ (if include_pub_key then public_of sk else [])
  ++ le_bytes 2 (Z.of_nat (length payload_bytes)) ++ payload_bytes.
Definition encode_message (m : DhtMessage) (sk : bytes) (include_pub_key : bool) (sender_noise : bytes)
    : bytes :=
  let payload_bytes := encode_payload (payload m) in
  if decide (MAX_DELIVERABLE_PAYLOAD < length payload_bytes) then []
  else match oversized_store_record (payload m) with
  | Some _ => []
  | None =>
      let buf := frame_body m sk include_pub_key payload_bytes in
      buf ++ sign sk (buf ++ frame_signing_suffix sender_noise)
  end.

Definition decode_message (data : bytes) (has_pub_key : bool) (session_noise : bytes) : result DhtMessage :=
  let pub_key_size := if has_pub_key then 32 else 0 in
  let min_size := HEADER_MIN_SIZE + pub_key_size + 2 + 64 in
  _ ← bail_if (bool_decide (length data < min_size)) MessageTooShort;
  v ← read 0 1 data;
  let version := le_value v in
  _ ← bail_if (Z.eqb version 0) InvalidVersion0;
  _ ← bail_if (Z.ltb version EMBER_DHT_MIN_VERSION || Z.ltb EMBER_DHT_VERSION version) UnsupportedVersion;
  t ← read 1 1 data;
  let ty := le_value t in
  r ← read 2 4 data;
  let request_id := le_value r in
  sender ← read 6 16 data;
  pk ← (if has_pub_key then k ← read 22 32 data; Ok (Some k) else Ok None : result (option bytes));
  let at_ := 22 + pub_key_size in
  n ← read_u16_le at_ data;
  let payload_len := Z.to_nat n in
  _ ← bail_if (bool_decide (MAX_DHT_PAYLOAD < payload_len)) PayloadLenExceedsMax;
  let pos := at_ + 2 in
  _ ← bail_if (bool_decide (length data < pos + payload_len + 64)) MessageTruncated;
  payload_data ← get pos (pos + payload_len) data;
  let sig_offset := pos + payload_len in
  _ ← bail_if (negb (bool_decide (length data = sig_offset + 64))) MessageTrailingBytes;
  sig ← get sig_offset (sig_offset + 64) data;
  match pk with
  | None => Err NoPublicKey
  | Some pk_bytes =>
      match verifying_key_from_bytes pk_bytes with
      | None => Err InvalidPublicKey
      | Some key =>
          signed ← get 0 sig_offset data;
          _ ← bail_if (negb (verify key (signed ++ frame_signing_suffix session_noise) sig)) BadSignature;
          _ ← bail_if (negb (verify_ember_hash_binding pk_bytes sender)) SenderIdMismatch;
          p ← decode_payload ty payload_data;
          Ok (mkMessage version ty request_id sender pk p sig)
      end
  end.
End decoding.

(** ** Reading a frame without decoding it *)
Definition unsupported_dht_version (data : bytes) : option Z :=
  match head data with
  | None => None
  | Some v =>
      if Z.eqb v 0 then None
      else if Z.ltb v EMBER_DHT_MIN_VERSION || Z.ltb EMBER_DHT_VERSION v then Some v else None
  end.
Definition dht_version_is_newer_than_us (v : Z) : bool := Z.ltb EMBER_DHT_VERSION v.
Definition batched_record_wire_len (record_len : nat) : nat := 16 + 2 + record_len + 64.
Definition peek_store_batch_count (frame : bytes) : option Z :=
  let len_at := HEADER_MIN_SIZE + 32 in
  let offset := len_at + 2 in
  a ← frame !! len_at;
  b ← frame !! (len_at + 1);
  if Z.eqb (le_value [a; b]) 0 then None
  else (λ count, Z.min count (Z.of_nat MAX_STORE_BATCH_RECORDS)) <$> frame !! offset.
