(* ===== verification/WireFacts.v ===== *)
(** * Facts about readers and writers

    How each reader moves over a concatenation, so that a decoder can be run
    symbolically on what an encoder wrote ([wire]). *)
From S2P Require Import Prelude NodeId Addr Contact Record Wire Crypto Messages.

(** ** Slices of a concatenation *)
Lemma slice_eq a b d l :
  slice a b d = Some l ↔ a ≤ b ∧ b ≤ length d ∧ l = take (b - a) (drop a d).
Proof. unfold slice. case_decide; split; [intros [= <-]; tauto|naive_solver|done|tauto]. Qed.

Lemma slice_here (x d : bytes) a b : a = 0 → b = length x → slice a b (x ++ d) = Some x.
Proof.
  intros -> ->. apply slice_eq. rewrite length_app, Nat.sub_0_r, drop_0, take_app_length. split; [lia|]. split; [lia|done].
Qed.
Lemma slice_skip (x d : bytes) a b :
  length x ≤ a → a ≤ b → slice a b (x ++ d) = slice (a - length x) (b - length x) d.
Proof.
  intros Ha Hab. unfold slice. rewrite length_app. do 2 case_decide; try lia; try done.
  rewrite drop_app_ge by done. f_equal. f_equal. lia.
Qed.
Lemma slice_all (x : bytes) a b : a = 0 → b = length x → slice a b x = Some x.
Proof. intros -> ->. rewrite <- (app_nil_r x) at 2. by apply slice_here. Qed.

Lemma get_here (x d : bytes) a b : a = 0 → b = length x → get a b (x ++ d) = Ok x.
Proof. intros. unfold get. by rewrite slice_here. Qed.
Lemma get_skip (x d : bytes) a b :
  length x ≤ a → a ≤ b → get a b (x ++ d) = get (a - length x) (b - length x) d.
Proof. intros. unfold get. by rewrite slice_skip. Qed.
Lemma get_all (x : bytes) a b : a = 0 → b = length x → get a b x = Ok x.
Proof. intros. unfold get. by rewrite slice_all. Qed.
Lemma get_cons b0 (d : bytes) a b : 1 ≤ a → a ≤ b → get a b (b0 :: d) = get (a - 1) (b - 1) d.
Proof. intros. by apply (get_skip [b0]). Qed.

Lemma byte_here b0 (d : bytes) i : i = 0 → byte_at i (b0 :: d) = Ok b0.
Proof. by intros ->. Qed.
Lemma byte_skip (x d : bytes) i : length x ≤ i → byte_at i (x ++ d) = byte_at (i - length x) d.
Proof. intros. unfold byte_at. by rewrite lookup_app_r. Qed.
Lemma byte_cons b0 (d : bytes) i : 1 ≤ i → byte_at i (b0 :: d) = byte_at (i - 1) d.
Proof. intros. by apply (byte_skip [b0]). Qed.

Lemma read_here (x d : bytes) a n : a = 0 → n = length x → read a n (x ++ d) = Ok x.
Proof. intros. unfold read. by rewrite slice_here by lia. Qed.
Lemma read_skip (x d : bytes) a n : length x ≤ a → read a n (x ++ d) = read (a - length x) n d.
Proof.
  intros. unfold read. rewrite slice_skip by lia.
  by replace (a + n - length x) with (a - length x + n) by lia.
Qed.
Lemma read_cons b0 (d : bytes) a n : 1 ≤ a → read a n (b0 :: d) = read (a - 1) n d.
Proof. intros. by apply (read_skip [b0]). Qed.
Lemma read_head b0 (d : bytes) a n : a = 0 → n = 1 → read a n (b0 :: d) = Ok [b0].
Proof. intros -> ->. by apply (read_here [b0]). Qed.

(** ** Integers *)
Lemma length_le_bytes n v : length (le_bytes n v) = n.
Proof. revert v. induction n as [|n IH]; intros v; cbn [le_bytes length]; [done|]. by rewrite IH. Qed.

Lemma le_value_le_bytes n v : (0 ≤ v < 256 ^ Z.of_nat n)%Z → le_value (le_bytes n v) = v.
Proof.
  revert v. induction n as [|n IH]; intros v Hv; cbn [le_bytes le_value].
  { change (256 ^ Z.of_nat 0)%Z with 1%Z in Hv. lia. }
  rewrite Nat2Z.inj_succ, Z.pow_succ_r in Hv by lia.
  rewrite IH; [pose proof (Z.div_mod v 256); lia|]. split; [apply Z.div_pos; lia|].
  apply Z.div_lt_upper_bound; lia.
Qed.

Lemma le_bytes_mod n v : le_value (le_bytes n v) = (v mod 256 ^ Z.of_nat n)%Z.
Proof.
  revert v. induction n as [|n IH]; intros v; cbn [le_bytes le_value].
  { change (256 ^ Z.of_nat 0)%Z with 1%Z. by rewrite Z.mod_1_r. }
  rewrite IH, Nat2Z.inj_succ, Z.pow_succ_r by lia.
  rewrite Z.rem_mul_r by (try apply Z.pow_pos_nonneg; lia). done.
Qed.

Lemma le_value_range l : Forall is_byte l → (0 ≤ le_value l < 256 ^ Z.of_nat (length l))%Z.
Proof.
  induction 1 as [|b l Hb _ IH]; cbn [le_value length]; [lia|].
  rewrite Nat2Z.inj_succ, Z.pow_succ_r by lia. unfold is_byte in Hb. lia.
Qed.

(** The value keeps all of its bytes. *)
Lemma le_bytes_le_value l : Forall is_byte l → le_bytes (length l) (le_value l) = l.
Proof.
  induction 1 as [|b l Hb _ IH]; [done|]. cbn [le_value length le_bytes]. unfold is_byte in Hb.
  rewrite Z.mul_comm, Z.mod_add, Z.div_add, Z.mod_small, Z.div_small by lia. by rewrite Z.add_0_l, IH.
Qed.

(** A pair of little-endian bytes read back, at any offset. *)
Lemma u16_le_skip (x d : bytes) i : length x ≤ i → u16_le_at i (x ++ d) = u16_le_at (i - length x) d.
Proof.
  intros. unfold u16_le_at. rewrite !byte_skip by lia.
  by replace (S i - length x) with (S (i - length x)) by lia.
Qed.
Lemma u16_le_cons b0 (d : bytes) i : 1 ≤ i → u16_le_at i (b0 :: d) = u16_le_at (i - 1) d.
Proof. intros. by apply (u16_le_skip [b0]). Qed.
Lemma u16_le_here v (d : bytes) i :
  i = 0 → (0 ≤ v < 65536)%Z → u16_le_at i (le_bytes 2 v ++ d) = Ok v.
Proof. intros -> Hv. unfold u16_le_at. simpl. f_equal. by apply (le_value_le_bytes 2). Qed.
Lemma u16_be_skip (x d : bytes) i : length x ≤ i → u16_be_at i (x ++ d) = u16_be_at (i - length x) d.
Proof.
  intros. unfold u16_be_at. rewrite !byte_skip by lia.
  by replace (S i - length x) with (S (i - length x)) by lia.
Qed.
Lemma u16_be_cons b0 (d : bytes) i : 1 ≤ i → u16_be_at i (b0 :: d) = u16_be_at (i - 1) d.
Proof. intros. by apply (u16_be_skip [b0]). Qed.
Lemma u16_be_here v (d : bytes) i :
  i = 0 → (0 ≤ v < 65536)%Z → u16_be_at i (be16 v ++ d) = Ok v.
Proof.
  intros -> Hv. unfold u16_be_at, be16. simpl. f_equal. rewrite (Z.mod_small (v / 256)).
  - pose proof (Z.div_mod v 256). lia.
  - split; [apply Z.div_pos; lia|apply Z.div_lt_upper_bound; lia].
Qed.
Lemma read_u16_here v (d : bytes) i :
  i = 0 → (0 ≤ v < 65536)%Z → read_u16_le i (le_bytes 2 v ++ d) = Ok v.
Proof. intros -> Hv. unfold read_u16_le. rewrite read_here by done. simpl. f_equal. by apply (le_value_le_bytes 2). Qed.
Lemma read_u16_skip (x d : bytes) i : length x ≤ i → read_u16_le i (x ++ d) = read_u16_le (i - length x) d.
Proof. intros. unfold read_u16_le. by rewrite read_skip. Qed.

(** ** Running a decoder *)
Lemma bail_pass {A} (c : bool) e (k : unit → result A) : c = false → (bail_if c e ≫= k) = k tt.
Proof. by intros ->. Qed.
Lemma bind_ok {A B} (x : A) (k : A → result B) : (Ok x ≫= k) = k x.
Proof. done. Qed.

Lemma length_be16 v : length (be16 v) = 2.
Proof. done. Qed.
Lemma length_v4 a : length (v4_octets a) = 4.
Proof. done. Qed.

(** ** Inverting a decoder *)
Lemma bind_inv {A B} (r : result A) (k : A → result B) y : (r ≫= k) = Ok y → ∃ x, r = Ok x ∧ k x = Ok y.
Proof. destruct r as [x|]; [eauto|discriminate]. Qed.
Lemma bail_inv {B} c e (k : unit → result B) y : (bail_if c e ≫= k) = Ok y → c = false ∧ k tt = Ok y.
Proof. destruct c; [discriminate|done]. Qed.
Lemma read_inv a n d l : read a n d = Ok l → drop a d = l ++ drop (a + n) d ∧ length l = n ∧ a + n ≤ length d.
Proof.
  unfold read. destruct (slice a (a + n) d) eqn:E; [|done]. intros [= <-]. apply slice_eq in E as (? & ? & ->).
  replace (a + n - a) with n by lia. rewrite <- drop_drop, take_drop, length_take, length_drop. split; [done|lia].
Qed.
Lemma read_bytes a n d l : Forall is_byte d → read a n d = Ok l → Forall is_byte l.
Proof.
  intros Hd H. apply read_inv in H as [H _]. apply (Forall_drop _ a) in Hd. rewrite H in Hd.
  by apply Forall_app in Hd as [? _].
Qed.
Lemma get_inv a b d l :
  get a b d = Ok l → drop a d = l ++ drop b d ∧ length l = b - a ∧ a ≤ b ≤ length d.
Proof.
  unfold get. destruct (slice a b d) eqn:E; [|done]. intros [= <-]. apply slice_eq in E as (? & ? & ->).
  assert (drop b d = drop (b - a) (drop a d)) as -> by (rewrite drop_drop; f_equal; lia).
  rewrite take_drop, length_take, length_drop. split; [done|lia].
Qed.

(** Length arithmetic: the lengths of what the encoders write, then [lia]. *)
Create HintDb wire_len.
#[export] Hint Rewrite @length_app @length_le_bytes length_be16 length_v4 @length_cons @length_nil : wire_len.
Ltac len := autorewrite with wire_len in *; lia.

(** One reading step of a decoder that runs on encoded bytes. *)
Ltac wire_step :=
  first
    [ rewrite bail_pass by (apply bool_decide_eq_false; len)
    | rewrite bail_pass by (apply negb_false_iff, bool_decide_eq_true; len)
    | rewrite bind_ok
    | rewrite get_here by len
    | rewrite get_all by len
    | rewrite get_skip by len
    | rewrite get_cons by len
    | rewrite byte_here by len
    | rewrite byte_cons by len
    | rewrite byte_skip by len
    | rewrite u16_le_here by len
    | rewrite u16_le_cons by len
    | rewrite u16_le_skip by len
    | rewrite u16_be_here by len
    | rewrite u16_be_cons by len
    | rewrite u16_be_skip by len
    | rewrite read_here by len
    | rewrite read_skip by len
    | rewrite read_u16_here by len
    | rewrite read_u16_skip by len ].
Ltac wire := repeat (wire_step; cbv beta zeta).
