(* ===== verification/MessagesRoundtrip.v ===== *)
(** * What the DHT encoder writes the decoder reads back

    Well-formed payloads, and for each the decoder run on its encoding followed
    by any further bytes. *)
From S2P Require Import Prelude NodeId Addr Contact Record Wire Crypto Messages WireFacts.

Section roundtrip.
Context `{Crypto : Ed25519Blake3}.

(** ** Well-formed payloads *)
Definition is_u16 (v : Z) : Prop := (0 ≤ v < 65536)%Z.
Definition is_u64 (v : Z) : Prop := (0 ≤ v < 18446744073709551616)%Z.

Definition range_ok (r : VersionRange) : Prop := (0 < range_min r ≤ range_max r ∧ range_max r < 256)%Z.
Definition versions_ok (v : option VersionRange) : Prop := match v with Some r => range_ok r | None => True end.

Definition socket_ok (a : SocketAddr) : Prop :=
  match a with
  | SocketAddrV4 _ p => is_u16 p
  | SocketAddrV6 ip p flow scope =>
      length (segments ip) = 8 ∧ Forall is_u16 (segments ip) ∧ is_u16 p ∧ flow = 0%Z ∧ scope = 0%Z
  end.

(** A contact as a list carries it: the id its key gives, nothing observed. *)
Definition contact_ok (c : EmberContact) : Prop :=
  socket_ok (addr c) ∧ length (Contact.noise_pub c) = 32 ∧ length (ed25519_pub c) = 32 ∧
  node_id_from_ed25519_bytes (ed25519_pub c) = Some (node_id c) ∧
  last_seen c = 0%Z ∧ failed_queries c = 0%Z.

Definition stored_ok (key record sig : bytes) : Prop :=
  length key = 16 ∧ length record ≤ WIRE_MAX_STORE_RECORD_BYTES ∧ length sig = 64.

Definition constraints_ok (c : ValueConstraints) : Prop :=
  match min_size c with Some v => is_u64 v | None => True end ∧
  match max_size c with Some v => is_u64 v | None => True end ∧
  match file_type c with
  | Some t => t ≠ [] ∧ length t ≤ MAX_VALUE_FILE_TYPE_BYTES ∧ utf8_valid t = true
  | None => True
  end ∧
  match file_extension c with
  | Some t => t ≠ [] ∧ length t ≤ MAX_VALUE_FILE_EXTENSION_BYTES ∧ utf8_valid t = true ∧
      trim_start_dots t = t ∧ to_ascii_lowercase t = t
  | None => True
  end ∧
  length (extra_keys c) ≤ MAX_FIND_VALUE_EXTRA_KEYS ∧ Forall (λ k, length k = 16) (extra_keys c).
Definition anchors_ok (r : ResumeAnchors) : Prop :=
  length r ≤ MAX_RESUME_ANCHORS ∧ Forall (λ a, length a = RESUME_ANCHOR_LEN) r.

(** What every decoded payload satisfies. *)
Definition payload_ok (p : DhtPayload) : Prop :=
  match p with
  | Ping v => versions_ok v
  | Pong (Some a) v => socket_ok a ∧ versions_ok v
  | Pong None v => v = None
  | FindNode t => length t = 16
  | FoundNode l | AnnouncePeer l | PeerList l =>
      length l ≤ MAX_CONTACTS_PER_RESPONSE ∧ Forall contact_ok l
  | StoreRecord key record sig | ProxyStore key record sig => stored_ok key record sig
  | StoreAck key | ProxyStoreAck key => length key = 16
  | StoreBatch l =>
      length l ≤ MAX_STORE_BATCH_RECORDS ∧
      Forall (λ r, stored_ok (b_key r) (b_record r) (b_signature r)) l
  | StoreBatchAck v => is_u64 v
  | FindValue keys start c r =>
      0 < length keys ≤ MAX_FIND_VALUE_KEYS ∧ Forall (λ k, length k = 16) keys ∧ is_u16 start ∧
      constraints_ok c ∧ anchors_ok r
  | FoundValue key l next total =>
      length key = 16 ∧ length l ≤ MAX_FOUND_VALUE_RECORDS ∧
      Forall (λ b, length b ≤ MAX_FOUND_VALUE_BLOB_BYTES) l ∧ is_u16 next ∧ is_u16 total
  | ChannelMsg body | ChannelRelay body => length body ≤ MAX_DHT_PAYLOAD
  | CallbackReq publisher hash port crypt user token =>
      length publisher = 16 ∧ length hash = 16 ∧ is_u16 port ∧ length user = 16 ∧ length token = 16
  | Callback hash ip port crypt user token =>
      length hash = 16 ∧ is_u16 port ∧ length user = 16 ∧ length token = 16
  | BuddyEndorseReq => True
  | BuddyEndorse ip port noise expires sig =>
      is_u16 port ∧ length noise = 32 ∧ in_i64 expires ∧ length sig = 64
  | Unknown _ => True
  end.

(** The contacts of a list fit one unfragmented datagram. *)
Definition fits (l : list EmberContact) : Prop :=
  S (length (l ≫= encode_contact)) ≤ MAX_UNFRAGMENTED_PAYLOAD.
Definition payload_fits (p : DhtPayload) : Prop :=
  match p with FoundNode l | AnnouncePeer l | PeerList l => fits l | _ => True end.

(** The message type each payload travels under. *)
Definition type_of (p : DhtPayload) : option Z :=
  match p with
  | Ping _ => Some MSG_PING
  | Pong _ _ => Some MSG_PONG
  | FindNode _ => Some MSG_FIND_NODE
  | FoundNode _ => Some MSG_FOUND_NODE
  | StoreRecord _ _ _ => Some MSG_STORE_RECORD
  | StoreAck _ => Some MSG_STORE_ACK
  | ProxyStore _ _ _ => Some MSG_PROXY_STORE
  | ProxyStoreAck _ => Some MSG_PROXY_STORE_ACK
  | StoreBatch _ => Some MSG_STORE_BATCH
  | StoreBatchAck _ => Some MSG_STORE_BATCH_ACK
  | FindValue _ _ _ _ => Some MSG_FIND_VALUE
  | FoundValue _ _ _ _ => Some MSG_FOUND_VALUE
  | AnnouncePeer _ => Some MSG_ANNOUNCE_PEER
  | PeerList _ => Some MSG_PEER_LIST
  | ChannelMsg _ => Some MSG_CHANNEL_MSG
  | ChannelRelay _ => Some MSG_CHANNEL_RELAY
  | CallbackReq _ _ _ _ _ _ => Some MSG_CALLBACK_REQ
  | Callback _ _ _ _ _ _ => Some MSG_CALLBACK
  | BuddyEndorseReq => Some MSG_BUDDY_ENDORSE_REQ
  | BuddyEndorse _ _ _ _ _ => Some MSG_BUDDY_ENDORSE
  | Unknown _ => None
  end.

(** ** The limits as numbers *)
Definition wire_limits :
  Z.of_nat WIRE_MAX_STORE_RECORD_BYTES = 1165%Z ∧ Z.of_nat MAX_FOUND_VALUE_BLOB_BYTES = 1229%Z ∧
  Z.of_nat MAX_DHT_PAYLOAD = 3949%Z ∧ Z.of_nat MAX_UNFRAGMENTED_PAYLOAD = 1253%Z :=
  conj eq_refl (conj eq_refl (conj eq_refl eq_refl)).

(** ** Records *)
Lemma length_encode_store key record sig :
  length (encode_store key record sig) = length key + 2 + length record + length sig.
Proof. unfold encode_store. len. Qed.

Lemma decode_store_app key record sig extra :
  stored_ok key record sig →
  decode_store (encode_store key record sig ++ extra) = Ok (key, record, sig).
Proof.
  intros (Hk & Hr & Hs). pose proof wire_limits as (? & _). unfold decode_store, encode_store.
  rewrite <- !app_assoc. wire. done.
Qed.

Definition encode_batched (r : BatchedRecord) : bytes := encode_store (b_key r) (b_record r) (b_signature r).

Lemma decode_batch_app l pre post acc :
  Forall (λ r, stored_ok (b_key r) (b_record r) (b_signature r)) l →
  decode_batch (length l) (pre ++ (l ≫= encode_batched) ++ post) (length pre) acc =
  Ok (acc ++ l, length pre + length (l ≫= encode_batched)).
Proof.
  pose proof wire_limits as (? & _). revert pre acc. induction l as [|r l IH]; intros pre acc Hl.
  { cbn. by rewrite app_nil_r, Nat.add_0_r. }
  apply Forall_cons in Hl as [(Hk & Hr & Hs) Hl]. rewrite bind_cons. cbn [length decode_batch].
  destruct r as [key record sig]. cbn [b_key b_record b_signature] in *.
  specialize (IH (pre ++ encode_store key record sig) (acc ++ [mkBatched key record sig]) Hl).
  change (encode_batched (mkBatched key record sig)) with (encode_store key record sig).
  unfold encode_store in *. rewrite <- !app_assoc in *. cbn [app] in IH. wire.
  etransitivity; [|etransitivity; [exact IH|]]; [f_equal; len|]. f_equal. f_equal. len.
Qed.

(** ** Blobs and keys *)
Definition encode_blob (b : bytes) : bytes := le_bytes 2 (Z.of_nat (length b)) ++ b.

Lemma decode_blobs_app l pre post acc :
  Forall (λ b, length b ≤ MAX_FOUND_VALUE_BLOB_BYTES) l →
  decode_blobs (length l) (pre ++ (l ≫= encode_blob) ++ post) (length pre) acc = Ok (acc ++ l).
Proof.
  pose proof wire_limits as (_ & ? & _). revert pre acc. induction l as [|b l IH]; intros pre acc Hl.
  { cbn. by rewrite app_nil_r. }
  apply Forall_cons in Hl as [Hb Hl]. rewrite bind_cons. cbn [length decode_blobs].
  specialize (IH (pre ++ encode_blob b) (acc ++ [b]) Hl).
  assert (encode_blob b = le_bytes 2 (Z.of_nat (length b)) ++ b) as Hb' by done. rewrite Hb' in *.
  rewrite <- !app_assoc in *. cbn [app] in IH. wire.
  etransitivity; [|exact IH]. f_equal. len.
Qed.

Lemma decode_keys_app l c i done_ post :
  Forall (λ k, length k = 16) (done_ ++ l) → i = length done_ →
  decode_keys (length l) i (c :: concat done_ ++ concat l ++ post) = Ok l.
Proof.
  revert i done_. induction l as [|k l IH]; intros i done_ Hl ->; [done|].
  assert (length (concat done_) = length done_ * 16) as Hd.
  { apply Forall_app in Hl as [Hl _]. clear -Hl. induction Hl as [|x l Hx _ IH]; [done|].
    cbn [concat length]. rewrite length_app. lia. }
  assert (length k = 16) as Hk by (rewrite Forall_app, Forall_cons in Hl; tauto).
  cbn [length decode_keys concat]. rewrite <- app_assoc. wire.
  specialize (IH (S (length done_)) (done_ ++ [k])).
  rewrite concat_app in IH. cbn [concat] in IH. rewrite app_nil_r, <- !app_assoc in IH.
  rewrite IH; [done|done|rewrite length_app; simpl; lia].
Qed.
(** ** Addresses and version blocks *)
Lemma segments_of_octets l : Forall is_u16 l → segments_of (l ≫= be16) = l.
Proof.
  induction 1 as [|v l Hv _ IH]; [done|]. rewrite bind_cons. unfold be16 at 1. cbn [app segments_of].
  rewrite IH. f_equal. unfold is_u16 in Hv. rewrite (Z.mod_small (v / 256)).
  - pose proof (Z.div_mod v 256). lia.
  - split; [apply Z.div_pos; lia|apply Z.div_lt_upper_bound; lia].
Qed.
Lemma length_octets l : length (l ≫= be16) = 2 * length l.
Proof. induction l as [|v l IH]; [done|]. rewrite bind_cons. len. Qed.

Lemma length_encode_socket_addr a :
  socket_ok a → length (encode_socket_addr a) = match a with SocketAddrV4 _ _ => 7 | _ => 19 end.
Proof.
  destruct a as [ip p|ip p flow scope]; [done|]. intros (Hl & _). unfold encode_socket_addr, v6_octets.
  cbn [addr_ip app length]. rewrite !length_app, length_octets, Hl. done.
Qed.

Lemma decode_socket_addr_app a extra :
  socket_ok a →
  decode_socket_addr (encode_socket_addr a ++ extra) = Ok (a, length (encode_socket_addr a)).
Proof.
  intros Ha. rewrite length_encode_socket_addr by done. unfold decode_socket_addr, encode_socket_addr.
  destruct a as [[a b c d] p|ip p flow scope]; cbn [addr_ip addr_port socket_ok] in *.
  - unfold v4_octets, is_u16 in *. cbn [o0 o1 o2 o3 app]. rewrite bail_pass by done. wire.
    cbn [Z.eqb ADDR_IPV4 Pos.eqb]. wire. done.
  - destruct Ha as (Hl & Hs & Hp & -> & ->). unfold is_u16 in Hp.
    assert (length (v6_octets ip) = 16) as Ho by (unfold v6_octets; rewrite length_octets; lia).
    cbn [app]. rewrite <- app_assoc, bail_pass by done. wire.
    cbn [Z.eqb ADDR_IPV4 ADDR_IPV6 Pos.eqb]. wire. unfold v6_of_octets, v6_octets.
    rewrite segments_of_octets by done. by destruct ip.
Qed.

Lemma decode_version_app r extra :
  range_ok r → decode_version_block (encode_version_block r ++ extra) = Ok (Some r).
Proof.
  destruct r as [mn mx]. unfold range_ok. cbn [range_min range_max]. intros Hr.
  unfold decode_version_block, encode_version_block. cbn [range_min range_max app length decode_version_loop].
  rewrite decide_True by (cbn [length]; lia). wire. change (Z.to_nat VERSION_RANGE_VALUE_LEN) with 2.
  rewrite decide_False by (cbn [length]; lia). cbn [Z.eqb VERSION_RANGE_TAG Pos.eqb negb]. wire.
  rewrite Z.eqb_refl. cbn [negb]. by rewrite (proj2 (Z.eqb_neq mn 0)), (proj2 (Z.ltb_ge mx mn)) by lia.
Qed.
Lemma decode_versions v : versions_ok v → decode_version_block (encode_versions v) = Ok v.
Proof.
  destruct v as [r|]; [|done]. intros Hr. cbn [encode_versions].
  rewrite <- (app_nil_r (encode_version_block r)). by apply decode_version_app.
Qed.
(** ** Contact lists *)
Lemma decode_contact_app c pre post :
  contact_ok c →
  decode_contact (pre ++ encode_contact c ++ post) (length pre) =
  Ok (Some c, length pre + length (encode_contact c)).
Proof.
  destruct c as [id a noise ed seen failed]. unfold contact_ok, encode_contact.
  cbn [addr Contact.noise_pub ed25519_pub node_id last_seen failed_queries].
  intros (Ha & Hn & He & Hid & -> & ->). rewrite !length_app, length_encode_socket_addr by done.
  unfold decode_contact, encode_socket_addr. rewrite <- !app_assoc.
  destruct a as [[a b c d] p|ip p flow scope]; cbn [addr_ip addr_port socket_ok] in *.
  - unfold v4_octets, is_u16 in *. cbn [o0 o1 o2 o3 app]. wire.
    cbn [Z.eqb ADDR_IPV4 Pos.eqb]. wire. rewrite Hid. cbn [fmap option_fmap option_map].
    f_equal. f_equal. lia.
  - destruct Ha as (Hl & Hs & Hp & -> & ->). unfold is_u16 in Hp.
    assert (length (v6_octets ip) = 16) as Ho by (unfold v6_octets; rewrite length_octets; lia).
    cbn [app]. rewrite bail_pass by (apply bool_decide_eq_false; len).
    rewrite (byte_skip pre _ (length pre)), byte_here, bind_ok by len.
    cbn [Z.eqb ADDR_IPV4 ADDR_IPV6 Pos.eqb]. wire. rewrite Hid.
    unfold v6_of_octets, v6_octets. rewrite segments_of_octets by done. destruct ip as [segs].
    cbn [fmap option_fmap option_map]. f_equal. f_equal. lia.
Qed.

Lemma decode_contacts_app l pre post acc :
  Forall contact_ok l →
  decode_contacts (length l) (pre ++ (l ≫= encode_contact) ++ post) (length pre) acc = Ok (acc ++ l).
Proof.
  revert pre acc. induction l as [|c l IH]; intros pre acc Hl.
  { cbn. by rewrite app_nil_r. }
  apply Forall_cons in Hl as [Hc Hl]. rewrite bind_cons, <- app_assoc. cbn [length decode_contacts].
  rewrite decode_contact_app by done. cbn [mbind result_bind].
  specialize (IH (pre ++ encode_contact c) (acc ++ [c]) Hl). rewrite <- !app_assoc, length_app in IH. exact IH.
Qed.

Lemma encode_contacts_fit l buf n :
  length buf + length (l ≫= encode_contact) ≤ MAX_UNFRAGMENTED_PAYLOAD →
  encode_contacts buf n l = (buf ++ (l ≫= encode_contact), n + length l).
Proof.
  revert buf n. induction l as [|c l IH]; intros buf n Hfit.
  { cbn. by rewrite app_nil_r, Nat.add_0_r. }
  rewrite bind_cons, length_app in Hfit. cbn [encode_contacts].
  rewrite decide_False by (rewrite length_app; lia). rewrite IH by (rewrite length_app; lia).
  rewrite bind_cons, <- app_assoc. f_equal. cbn [length]. lia.
Qed.

Lemma encode_contact_list_fit l :
  length l ≤ MAX_CONTACTS_PER_RESPONSE → fits l →
  encode_contact_list l = Z.of_nat (length l) :: (l ≫= encode_contact).
Proof.
  intros Hl Hf. unfold encode_contact_list. rewrite take_ge by done.
  rewrite encode_contacts_fit by (cbn [length]; exact Hf). cbn [app insert list_insert Nat.add].
  f_equal. unfold MAX_CONTACTS_PER_RESPONSE in Hl. apply Z.mod_small. lia.
Qed.

Lemma decode_contact_list_app l extra :
  length l ≤ MAX_CONTACTS_PER_RESPONSE → Forall contact_ok l → fits l →
  decode_contact_list (encode_contact_list l ++ extra) = Ok l.
Proof.
  intros Hl Hok Hf. rewrite encode_contact_list_fit by done. unfold decode_contact_list. cbn [app].
  rewrite decide_False by done. wire. rewrite Nat2Z.id.
  exact (decode_contacts_app l [Z.of_nat (length l)] extra [] Hok).
Qed.
End roundtrip.
