(* ===== verification/Utf8.v ===== *)
(** * Canonical file extensions are UTF-8

    [str::trim_start_matches('.')] and [str::to_ascii_lowercase] keep a valid
    string valid, so the canonical form the decoder stores is its own canonical
    form. *)
From S2P Require Import Prelude NodeId Addr Contact Record Wire.

Lemma ascii_lower_high b : (128 ≤ b)%Z → ascii_lower b = b.
Proof. intros Hb. unfold ascii_lower. rewrite (proj2 (Z.leb_gt b 90)) by lia. by rewrite andb_false_r. Qed.
Lemma ascii_lower_low b : (b < 128)%Z → (ascii_lower b < 128)%Z ∧ (0 ≤ ascii_lower b ↔ 0 ≤ b)%Z.
Proof. intros Hb. unfold ascii_lower. case_match eqn:E; [|done]. apply andb_true_iff in E as [?%Z.leb_le ?%Z.leb_le]. lia. Qed.
Lemma ascii_lower_idem b : ascii_lower (ascii_lower b) = ascii_lower b.
Proof.
  unfold ascii_lower. destruct (Z.leb_spec 65 b), (Z.leb_spec b 90); cbn [andb]; try done.
  - by rewrite (proj2 (Z.leb_gt (b + 32) 90)), andb_false_r by lia.
  - by rewrite (proj2 (Z.leb_gt b 90)), andb_false_r by lia.
  - by rewrite (proj2 (Z.leb_gt 65 b)) by lia.
  - by rewrite (proj2 (Z.leb_gt 65 b)) by lia.
Qed.

(** A range above ASCII does not see the change of case. *)
Lemma range_lower lo hi b :
  (128 ≤ lo)%Z → Z.leb lo (ascii_lower b) && Z.leb (ascii_lower b) hi = Z.leb lo b && Z.leb b hi.
Proof.
  intros Hlo. destruct (decide (128 ≤ b)%Z) as [Hb|Hb]; [by rewrite ascii_lower_high|].
  assert (ascii_lower b < 128)%Z by (apply ascii_lower_low; lia).
  by rewrite !(proj2 (Z.leb_gt lo _)) by lia.
Qed.

(** One sequence and what follows it. *)
Definition utf8_two (b0 b1 : Z) : bool := Z.leb 194 b0 && Z.leb b0 223 && utf8_cont b1.
Definition utf8_three (b0 b1 b2 : Z) : bool :=
  Z.leb 224 b0 && Z.leb b0 239
  && (if Z.eqb b0 224 then Z.leb 160 b1 && Z.leb b1 191
      else if Z.eqb b0 237 then Z.leb 128 b1 && Z.leb b1 159 else utf8_cont b1)
  && utf8_cont b2.
Definition utf8_four (b0 b1 b2 b3 : Z) : bool :=
  Z.leb 240 b0 && Z.leb b0 244
  && (if Z.eqb b0 240 then Z.leb 144 b1 && Z.leb b1 191
      else if Z.eqb b0 244 then Z.leb 128 b1 && Z.leb b1 143 else utf8_cont b1)
  && utf8_cont b2 && utf8_cont b3.
Definition utf8_split (v : bytes → bool) (l : bytes) : bool :=
  match l with
  | [] => true
  | b0 :: l =>
      (Z.leb 0 b0 && Z.ltb b0 128 && v l)
      || match l with
         | [] => false
         | b1 :: l =>
             (utf8_two b0 b1 && v l)
             || match l with
                | [] => false
                | b2 :: l =>
                    (utf8_three b0 b1 b2 && v l)
                    || match l with [] => false | b3 :: l => utf8_four b0 b1 b2 b3 && v l end
                end
         end
  end.
Lemma utf8_valid_split l : utf8_valid l = utf8_split utf8_valid l.
Proof.
  destruct l as [|b0 l]; [done|]. cbn [utf8_valid utf8_split]. unfold utf8_two, utf8_three, utf8_four.
  destruct (Z.ltb_spec b0 128).
  { rewrite !(proj2 (Z.leb_gt 194 b0)), !(proj2 (Z.leb_gt 224 b0)), !(proj2 (Z.leb_gt 240 b0)) by lia.
    cbn [andb orb]. rewrite andb_true_r.
    destruct l as [|b1 [|b2 [|b3 l]]]; cbn [orb]; by rewrite ?orb_false_r. }
  rewrite andb_false_r. cbn [andb orb]. destruct l as [|b1 l]; [done|].
  destruct (Z.leb_spec 194 b0), (Z.leb_spec b0 223); cbn [andb orb].
  1: rewrite !(proj2 (Z.leb_gt 224 b0)), !(proj2 (Z.leb_gt 240 b0)) by lia; cbn [andb orb];
     destruct l as [|b2 [|b3 l]]; by rewrite ?orb_false_r.
  all: destruct l as [|b2 l]; [done|]; destruct (Z.leb_spec 224 b0), (Z.leb_spec b0 239); cbn [andb orb].
  all: try (rewrite !(proj2 (Z.leb_gt 240 b0)) by lia; cbn [andb orb]; destruct l; by rewrite ?orb_false_r).
  all: destruct l; [done|]; by rewrite ?andb_assoc.
Qed.

Lemma cont_lower b : utf8_cont (ascii_lower b) = utf8_cont b.
Proof. unfold utf8_cont. by apply range_lower. Qed.
Lemma lead_lower lo hi b0 (f : Z → bool) :
  (128 ≤ lo)%Z →
  Z.leb lo (ascii_lower b0) && Z.leb (ascii_lower b0) hi && f (ascii_lower b0) = Z.leb lo b0 && Z.leb b0 hi && f b0.
Proof.
  intros Hlo. destruct (decide (128 ≤ b0)%Z) as [Hb|Hb]; [by rewrite ascii_lower_high|].
  assert (ascii_lower b0 < 128)%Z by (apply ascii_lower_low; lia). by rewrite !(proj2 (Z.leb_gt lo _)) by lia.
Qed.
Lemma two_lower b0 b1 : utf8_two (ascii_lower b0) (ascii_lower b1) = utf8_two b0 b1.
Proof. unfold utf8_two. by rewrite range_lower, cont_lower. Qed.
Lemma three_lower b0 b1 b2 : utf8_three (ascii_lower b0) (ascii_lower b1) (ascii_lower b2) = utf8_three b0 b1 b2.
Proof.
  unfold utf8_three. rewrite !cont_lower, !(range_lower _ _ b1) by lia. f_equal.
  apply (lead_lower 224 239 b0 (λ b, if Z.eqb b 224 then _ else if Z.eqb b 237 then _ else _)). lia.
Qed.
Lemma four_lower b0 b1 b2 b3 :
  utf8_four (ascii_lower b0) (ascii_lower b1) (ascii_lower b2) (ascii_lower b3) = utf8_four b0 b1 b2 b3.
Proof.
  unfold utf8_four. rewrite !cont_lower, !(range_lower _ _ b1) by lia. f_equal. f_equal.
  apply (lead_lower 240 244 b0 (λ b, if Z.eqb b 240 then _ else if Z.eqb b 244 then _ else _)). lia.
Qed.
Lemma one_lower b : Z.leb 0 (ascii_lower b) && Z.ltb (ascii_lower b) 128 = Z.leb 0 b && Z.ltb b 128.
Proof.
  destruct (decide (128 ≤ b)%Z) as [Hb|Hb]; [by rewrite ascii_lower_high|].
  destruct (ascii_lower_low b) as [Hl Hz]; [lia|]. rewrite !(proj2 (Z.ltb_lt _ 128)), !andb_true_r by lia.
  destruct (Z.leb_spec 0 b), (Z.leb_spec 0 (ascii_lower b)); (done || lia).
Qed.

Lemma utf8_valid_lower l : utf8_valid (to_ascii_lowercase l) = utf8_valid l.
Proof.
  induction l as [l IH] using (induction_ltof1 _ length). unfold ltof, to_ascii_lowercase in *.
  rewrite !utf8_valid_split. unfold utf8_split.
  destruct l as [|b0 [|b1 [|b2 [|b3 l]]]]; [done|..].
  all: rewrite !fmap_cons, one_lower, ?two_lower, ?three_lower, ?four_lower.
  all: rewrite <- ?fmap_cons. all: rewrite ?IH by (cbn [length]; lia); done.
Qed.

(** ** Trimming *)
Lemma utf8_valid_trim l : utf8_valid l = true → utf8_valid (trim_start_dots l) = true.
Proof.
  induction l as [|b l IH]; [done|]. intros Hv. cbn [trim_start_dots]. destruct (Z.eqb_spec b 46) as [->|]; [|done].
  apply IH. exact Hv.
Qed.
Lemma length_trim l : length (trim_start_dots l) ≤ length l.
Proof. induction l as [|b l IH]; [done|]. cbn [trim_start_dots]. case_match; cbn [length]; lia. Qed.
Lemma ascii_lower_dot b : ascii_lower b = 46%Z ↔ b = 46%Z.
Proof.
  unfold ascii_lower. destruct (Z.leb_spec 65 b), (Z.leb_spec b 90); cbn [andb]; lia.
Qed.
Lemma trim_canonical l :
  trim_start_dots (to_ascii_lowercase (trim_start_dots l)) = to_ascii_lowercase (trim_start_dots l).
Proof.
  induction l as [|b l IH]; [done|]. cbn [trim_start_dots]. destruct (Z.eqb_spec b 46) as [|Hb]; [done|].
  unfold to_ascii_lowercase. rewrite fmap_cons. cbn [trim_start_dots].
  rewrite (proj2 (Z.eqb_neq _ 46)); [done|]. by rewrite ascii_lower_dot.
Qed.
Lemma lower_idem l : to_ascii_lowercase (to_ascii_lowercase l) = to_ascii_lowercase l.
Proof. unfold to_ascii_lowercase. rewrite <- list_fmap_compose. apply list_fmap_ext. intros. apply ascii_lower_idem. Qed.
