(* ===== verification/ConstraintsRoundtrip.v ===== *)
(** * The constraint block of FIND_VALUE reads back

    The block is a list of tagged entries; the decoder's loop folds
    [decode_entry] over them, whatever its fuel above their number. *)
From S2P Require Import Prelude NodeId Addr Contact Record Wire Crypto Messages WireFacts MessagesRoundtrip.

(** ** The loop over the entries *)
Definition entry_bytes (e : Z * bytes) : bytes := e.1 :: Z.of_nat (length e.2) :: e.2.
Definition fold_entries (l : list (Z * bytes)) (acc : ValueConstraints * ResumeAnchors) :=
  foldl (λ acc e, decode_entry e.1 e.2 acc) acc l.

Lemma length_entries l : 2 * length l ≤ length (l ≫= entry_bytes).
Proof. induction l as [|e l IH]; [done|]. rewrite bind_cons, length_app. unfold entry_bytes at 1. cbn [length]. lia. Qed.

Lemma decode_entries_fold l fuel pre acc :
  length l < fuel →
  decode_entries fuel (pre ++ (l ≫= entry_bytes)) (length pre) acc = Ok (fold_entries l acc).
Proof.
  revert fuel pre acc. induction l as [|[tag value] l IH]; intros fuel pre acc Hfuel;
    (destruct fuel as [|fuel]; [cbn [length] in Hfuel; lia|]); cbn [decode_entries].
  { cbn [mbind list_bind]. rewrite app_nil_r. rewrite decide_False by lia. done. }
  assert (entry_bytes (tag, value) = tag :: Z.of_nat (length value) :: value) as He by done.
  rewrite bind_cons, He. cbn [app].
  rewrite decide_True by len. wire. rewrite Nat2Z.id.
  rewrite slice_skip by len. replace (length pre + 2 - length pre) with 2 by lia.
  replace (length pre + 2 + length value - length pre) with (2 + length value) by lia.
  pose proof (slice_skip [tag; Z.of_nat (length value)] (value ++ (l ≫= entry_bytes)) 2 (2 + length value)) as Hs.
  cbn [length app] in Hs. rewrite Hs, slice_here by lia. clear Hs.
  specialize (IH fuel (pre ++ entry_bytes (tag, value)) (decode_entry tag value acc)).
  rewrite He, <- app_assoc in IH. cbn [app] in IH.
  etransitivity; [|apply IH; cbn [length] in Hfuel; lia]. f_equal. len.
Qed.

(** ** Splitting what [concat] joined *)
Lemma chunks_from_concat n l fuel :
  0 < n → Forall (λ k, length k = n) l → length l ≤ fuel → chunks_from fuel n (concat l) = l.
Proof.
  intros Hn Hl. revert fuel. induction Hl as [|k l Hk _ IH]; intros fuel Hf.
  { destruct fuel; [done|]. cbn [chunks_from concat]. rewrite decide_False by (cbn [length]; lia). done. }
  destruct fuel as [|fuel]; [cbn [length] in Hf; lia|]. cbn [chunks_from concat].
  rewrite decide_True by (rewrite length_app; lia). rewrite take_app_length', drop_app_length' by done.
  rewrite IH; [done|]. cbn [length] in Hf. lia.
Qed.
Lemma length_concat_same (n : nat) (l : list bytes) : Forall (λ k, length k = n) l → length (concat l) = length l * n.
Proof. induction 1 as [|k l Hk _ IH]; [done|]. cbn [concat length]. rewrite length_app. lia. Qed.
Lemma chunks_exact_concat n l : 0 < n → Forall (λ k, length k = n) l → chunks_exact n (concat l) = l.
Proof.
  intros Hn Hl. apply chunks_from_concat; [done..|]. rewrite (length_concat_same n) by done. nia.
Qed.
Lemma foldl_anchor_push l r :
  length r + length l ≤ MAX_RESUME_ANCHORS → foldl anchor_push r l = r ++ l.
Proof.
  revert r. induction l as [|a l IH]; intros r Hl; cbn [foldl length] in *; [by rewrite app_nil_r|].
  unfold anchor_push at 2. rewrite decide_True by lia. rewrite IH by (rewrite length_app; cbn [length]; lia).
  by rewrite <- app_assoc.
Qed.

(** ** The entries of well-formed constraints *)
Definition opt_entry (tag : Z) (o : option bytes) : list (Z * bytes) :=
  match o with Some v => [(tag, v)] | None => [] end.
Definition joined (l : list bytes) : option bytes := if bool_decide (l = []) then None else Some (concat l).
Definition entries_of (c : ValueConstraints) (r : ResumeAnchors) : list (Z * bytes) :=
  opt_entry VALUE_EXT_TAG_MIN_SIZE (le_bytes 8 <$> min_size c)
  ++ opt_entry VALUE_EXT_TAG_MAX_SIZE (le_bytes 8 <$> max_size c)
  ++ opt_entry VALUE_EXT_TAG_FILE_TYPE (file_type c)
  ++ opt_entry VALUE_EXT_TAG_FILE_EXTENSION (file_extension c)
  ++ opt_entry VALUE_EXT_TAG_EXTRA_KEYS (joined (extra_keys c))
  ++ opt_entry VALUE_EXT_TAG_RESUME_AFTER (joined r).

Definition opt_short (n : nat) (o : option bytes) : Prop :=
  match o with Some v => length v ≤ n | None => True end.

Lemma joined_short n m l :
  Forall (λ k, length k = n) l → length l ≤ m → opt_short (m * n) (joined l).
Proof.
  intros Hl Hm. unfold joined. case_bool_decide; [done|]. cbn. rewrite (length_concat_same n) by done. nia.
Qed.
Lemma entry_opt tag n o :
  opt_short n o → n ≤ 255 →
  match o with Some v => tlv_entry tag v | None => [] end = opt_entry tag o ≫= entry_bytes.
Proof.
  intros Ho Hn. destruct o as [v|]; [|done]. cbn in Ho. unfold tlv_entry. rewrite decide_True by lia.
  cbn [opt_entry mbind list_bind]. by rewrite app_nil_r.
Qed.
Lemma text_opt tag n o :
  opt_short n o → n ≤ 255 → tlv_text tag n o = opt_entry tag o ≫= entry_bytes.
Proof.
  intros Ho Hn. rewrite <- (entry_opt tag n) by done. destruct o as [v|]; [|done]. cbn [tlv_text].
  by rewrite decide_True.
Qed.
Lemma joined_opt tag n m l :
  Forall (λ k, length k = n) l → length l ≤ m → m * n ≤ 255 →
  (if bool_decide (l = []) then [] else tlv_entry tag (concat l)) = opt_entry tag (joined l) ≫= entry_bytes.
Proof.
  intros Hl Hm Hn. rewrite <- (entry_opt tag (m * n)) by eauto using joined_short.
  unfold joined. by case_bool_decide.
Qed.

(** Each entry sets its own field and no other. *)
Lemma fold_entries_app l l' acc : fold_entries (l ++ l') acc = fold_entries l' (fold_entries l acc).
Proof. apply foldl_app. Qed.

Section fields.
Context (mn mx : option Z) (ft fe : option bytes) (ks : list bytes) (r : ResumeAnchors).
Let opt_u64 (o : option Z) : Prop := match o with Some v => is_u64 v | None => True end.

Lemma fold_min :
  opt_u64 mn →
  fold_entries (opt_entry VALUE_EXT_TAG_MIN_SIZE (le_bytes 8 <$> mn)) (mkConstraints None mx ft fe ks, r) =
  (mkConstraints mn mx ft fe ks, r).
Proof.
  destruct mn as [v|]; [|done]. intros Hv.
  cbn -[le_bytes le_value]. by rewrite (le_value_le_bytes 8) by exact Hv.
Qed.
Lemma fold_max :
  opt_u64 mx →
  fold_entries (opt_entry VALUE_EXT_TAG_MAX_SIZE (le_bytes 8 <$> mx)) (mkConstraints mn None ft fe ks, r) =
  (mkConstraints mn mx ft fe ks, r).
Proof.
  destruct mx as [v|]; [|done]. intros Hv.
  cbn -[le_bytes le_value]. by rewrite (le_value_le_bytes 8) by exact Hv.
Qed.
Lemma fold_type :
  match ft with
  | Some t => t ≠ [] ∧ length t ≤ MAX_VALUE_FILE_TYPE_BYTES ∧ utf8_valid t = true
  | None => True
  end →
  fold_entries (opt_entry VALUE_EXT_TAG_FILE_TYPE ft) (mkConstraints mn mx None fe ks, r) =
  (mkConstraints mn mx ft fe ks, r).
Proof.
  destruct ft as [t|]; [|done]. intros (Hn & Hl & Hu). cbn -[MAX_VALUE_FILE_TYPE_BYTES utf8_valid].
  by rewrite decide_True, Hu, bool_decide_eq_false_2.
Qed.
Lemma fold_extension :
  match fe with
  | Some t => t ≠ [] ∧ length t ≤ MAX_VALUE_FILE_EXTENSION_BYTES ∧ utf8_valid t = true ∧
      trim_start_dots t = t ∧ to_ascii_lowercase t = t
  | None => True
  end →
  fold_entries (opt_entry VALUE_EXT_TAG_FILE_EXTENSION fe) (mkConstraints mn mx ft None ks, r) =
  (mkConstraints mn mx ft fe ks, r).
Proof.
  destruct fe as [t|]; [|done]. intros (Hn & Hl & Hu & Htr & Hlo).
  cbn -[MAX_VALUE_FILE_EXTENSION_BYTES utf8_valid trim_start_dots to_ascii_lowercase].
  by rewrite decide_True, Hu, Htr, Hlo, bool_decide_eq_false_2.
Qed.
Lemma fold_keys :
  length ks ≤ MAX_FIND_VALUE_EXTRA_KEYS → Forall (λ k, length k = 16) ks →
  fold_entries (opt_entry VALUE_EXT_TAG_EXTRA_KEYS (joined ks)) (mkConstraints mn mx ft fe [], r) =
  (mkConstraints mn mx ft fe ks, r).
Proof.
  intros Hl Hk. unfold joined. case_bool_decide as Hn; [by rewrite Hn|].
  cbn -[MAX_FIND_VALUE_EXTRA_KEYS chunks_exact]. rewrite chunks_exact_concat by (done || lia).
  by rewrite take_ge by (rewrite Nat.sub_0_r; done).
Qed.
Lemma fold_resume :
  length r ≤ MAX_RESUME_ANCHORS → Forall (λ a, length a = RESUME_ANCHOR_LEN) r →
  fold_entries (opt_entry VALUE_EXT_TAG_RESUME_AFTER (joined r)) (mkConstraints mn mx ft fe ks, []) =
  (mkConstraints mn mx ft fe ks, r).
Proof.
  intros Hl Hk. unfold joined. case_bool_decide as Hn; [by rewrite Hn|].
  cbn -[MAX_RESUME_ANCHORS RESUME_ANCHOR_LEN chunks_exact].
  rewrite chunks_exact_concat by (done || (unfold RESUME_ANCHOR_LEN; lia)). by rewrite foldl_anchor_push.
Qed.
End fields.

Section canonical.
Context (c : ValueConstraints) (r : ResumeAnchors) (Hc : constraints_ok c) (Hr : anchors_ok r).

Lemma entries_short :
  opt_short 8 (le_bytes 8 <$> min_size c) ∧ opt_short 8 (le_bytes 8 <$> max_size c) ∧
  opt_short 16 (file_type c) ∧ opt_short 16 (file_extension c) ∧
  opt_short 240 (joined (extra_keys c)) ∧ opt_short 24 (joined r).
Proof.
  destruct Hc as (_ & _ & Ht & He & Hk & Hk16), Hr as [Ha Ha8].
  split; [destruct (min_size c); cbn; [lia|done]|].
  split; [destruct (max_size c); cbn; [lia|done]|].
  split; [destruct (file_type c); cbn; tauto|]. split; [destruct (file_extension c); cbn; tauto|].
  split; [exact (joined_short 16 15 _ Hk16 Hk)|exact (joined_short 8 3 _ Ha8 Ha)].
Qed.

Lemma encode_tlv_entries : encode_tlv c r = entries_of c r ≫= entry_bytes.
Proof.
  pose proof entries_short as (H1 & H2 & H3 & H4 & H5 & H6).
  destruct Hc as (_ & _ & _ & _ & Hk & Hk16), Hr as [Ha Ha8].
  unfold encode_tlv, entries_of. rewrite !bind_app.
  rewrite <- (entry_opt _ 8 _ H1), <- (entry_opt _ 8 _ H2), <- (text_opt _ 16 _ H3), <- (text_opt _ 16 _ H4) by lia.
  rewrite <- (joined_opt _ 16 15 _ Hk16 Hk), <- (joined_opt _ 8 3 _ Ha8 Ha) by lia.
  rewrite take_ge by done. by destruct (min_size c), (max_size c).
Qed.

Lemma length_opt_entry tag n o : opt_short n o → length (opt_entry tag o ≫= entry_bytes) ≤ n + 2.
Proof.
  destruct o as [v|]; cbn; [|lia]. rewrite app_nil_r. lia.
Qed.
Lemma encode_tlv_short : length (encode_tlv c r) ≤ 400.
Proof.
  pose proof entries_short as (H1 & H2 & H3 & H4 & H5 & H6). rewrite encode_tlv_entries. unfold entries_of.
  rewrite !bind_app, !length_app.
  apply (length_opt_entry VALUE_EXT_TAG_MIN_SIZE) in H1. apply (length_opt_entry VALUE_EXT_TAG_MAX_SIZE) in H2.
  apply (length_opt_entry VALUE_EXT_TAG_FILE_TYPE) in H3. apply (length_opt_entry VALUE_EXT_TAG_FILE_EXTENSION) in H4.
  apply (length_opt_entry VALUE_EXT_TAG_EXTRA_KEYS) in H5. apply (length_opt_entry VALUE_EXT_TAG_RESUME_AFTER) in H6.
  lia.
Qed.

Lemma fold_entries_canonical : fold_entries (entries_of c r) (ValueConstraints_default, []) = (c, r).
Proof.
  destruct Hc as (Hmin & Hmax & Ht & He & Hk & Hk16), Hr as [Ha Ha8]. unfold entries_of, ValueConstraints_default.
  rewrite !fold_entries_app, fold_min, fold_max, fold_type, fold_extension, fold_keys, fold_resume by done.
  by destruct c.
Qed.

Lemma decode_constraints_app : decode_value_constraints (encode_value_constraints c r) = Ok (c, r).
Proof.
  unfold encode_value_constraints. destruct (constraints_is_empty c && bool_decide (r = [])) eqn:Hempty.
  - apply andb_true_iff in Hempty as [Hempty ->%bool_decide_eq_true]. unfold constraints_is_empty in Hempty.
    rewrite !andb_true_iff, !bool_decide_eq_true in Hempty. destruct c as [mn mx ft fe ks].
    cbn in Hempty. destruct Hempty as ((((-> & ->) & ->) & ->) & ->). done.
  - pose proof encode_tlv_short as Hs. assert (0 ≤ VALUE_EXT_MAGIC < 65536)%Z as Hm by done. rewrite decide_True by lia. unfold decode_value_constraints.
    rewrite decide_False by len. wire. rewrite Z.eqb_refl. cbn [negb]. wire. rewrite Nat2Z.id.
    rewrite slice_skip, slice_skip, slice_all by len. rewrite encode_tlv_entries.
    etransitivity; [apply (decode_entries_fold _ _ [])|by rewrite fold_entries_canonical].
    pose proof (length_entries (entries_of c r)). cbn [app]. lia.
Qed.
End canonical.

(** ** Every payload *)
Section payload.
Context `{Crypto : Ed25519Blake3}.

Lemma decode_find_value_app keys start c r :
  0 < length keys ≤ MAX_FIND_VALUE_KEYS → Forall (λ k, length k = 16) keys → is_u16 start →
  constraints_ok c → anchors_ok r →
  decode_find_value (encode_payload (FindValue keys start c r)) = Ok (FindValue keys start c r).
Proof.
  intros Hn Hk Hs Hc Hr. unfold is_u16 in Hs. cbn [encode_payload]. rewrite Nat.min_l, take_ge by lia.
  assert (length (concat keys) = length keys * 16) as Hlen by by apply length_concat_same.
  assert (Z.of_nat (length keys) mod 256 = Z.of_nat (length keys))%Z as ->.
  { unfold MAX_FIND_VALUE_KEYS in Hn. apply Z.mod_small. lia. }
  unfold decode_find_value. rewrite bail_pass by done. wire. rewrite Nat2Z.id.
  pose proof (decode_keys_app keys (Z.of_nat (length keys)) 0 [] (le_bytes 2 start ++ encode_value_constraints c r)) as Hkeys.
  cbn [app concat] in Hkeys. rewrite Hkeys by done. wire. by rewrite decode_constraints_app.
Qed.

Lemma decode_found_value_app key l next total extra :
  length key = 16 → length l ≤ MAX_FOUND_VALUE_RECORDS → Forall (λ b, length b ≤ MAX_FOUND_VALUE_BLOB_BYTES) l →
  is_u16 next → is_u16 total →
  decode_found_value (encode_payload (FoundValue key l next total) ++ extra) = Ok (FoundValue key l next total).
Proof.
  intros Hk Hn Hl Hx Ht. unfold is_u16 in *. cbn [encode_payload]. rewrite Nat.min_l, take_ge by lia.
  assert (Z.of_nat (length l) < 65536)%Z by (unfold MAX_FOUND_VALUE_RECORDS in Hn; lia).
  rewrite <- !app_assoc. unfold decode_found_value.
  rewrite bail_pass by (apply bool_decide_eq_false; unfold FOUND_VALUE_HEADER_LEN; len). wire. rewrite Nat2Z.id.
  pose proof (decode_blobs_app l (key ++ le_bytes 2 next ++ le_bytes 2 total ++ le_bytes 2 (Z.of_nat (length l))) extra [] Hl) as Hb.
  rewrite <- !app_assoc in Hb. rewrite !length_app, !length_le_bytes, Hk in Hb.
  unfold encode_blob in Hb. change (16 + (2 + (2 + 2))) with FOUND_VALUE_HEADER_LEN in Hb. rewrite Hb. done.
Qed.
End payload.
