(* ===== verification/MessagesSafety.v ===== *)
(** * What the DHT decoder accepts is well formed, and nothing makes it panic

    A small weakest-precondition calculus for decoders: [wp r Q] says that [r] is
    a value satisfying [Q] or a refusal, never a panic.  Its rules carry the
    bounds each slice needs and the width of what it reads. *)
From S2P Require Import Prelude NodeId Addr Contact Record Wire Crypto Messages WireFacts MessagesRoundtrip Utf8 ConstraintsRoundtrip.

Definition wp {A} (r : result A) (Q : A → Prop) : Prop :=
  match r with Ok x => Q x | Err e => e ≠ Panicked end.

(** ** Rules *)
Lemma wp_ok {A} (x : A) (Q : A → Prop) : Q x → wp (Ok x) Q.
Proof. done. Qed.
Lemma wp_bind {A B} (r : result A) (k : A → result B) Q :
  wp r (λ x, wp (k x) Q) → wp (r ≫= k) Q.
Proof. by destruct r. Qed.
Lemma wp_mono {A} (r : result A) (P Q : A → Prop) : wp r P → (∀ x, P x → Q x) → wp r Q.
Proof. destruct r; cbn; auto. Qed.
Lemma wp_bail {B} c e (k : unit → result B) Q :
  e ≠ Panicked → (c = false → wp (k tt) Q) → wp (bail_if c e ≫= k) Q.
Proof. destruct c; cbn; auto. Qed.

Section reading.
Context (d : bytes) (Hd : Forall is_byte d).
Context {B : Type} (Q : B → Prop).

Lemma slice_bytes a b l : slice a b d = Some l → length l = b - a ∧ Forall is_byte l.
Proof.
  intros (Hab & Hb & ->)%slice_eq. split; [rewrite length_take, length_drop; lia|].
  by apply Forall_take, Forall_drop.
Qed.
Lemma wp_get a b (k : bytes → result B) :
  a ≤ b → b ≤ length d → (∀ l, length l = b - a → Forall is_byte l → wp (k l) Q) → wp (get a b d ≫= k) Q.
Proof.
  intros Hab Hb Hk. unfold get. destruct (slice a b d) eqn:E.
  - apply slice_bytes in E as [? ?]. by apply Hk.
  - unfold slice in E. rewrite decide_True in E by done. done.
Qed.
Lemma wp_byte i (k : Z → result B) :
  i < length d → (∀ b, is_byte b → wp (k b) Q) → wp (byte_at i d ≫= k) Q.
Proof.
  intros Hi Hk. unfold byte_at. destruct (lookup_lt_is_Some_2 d i Hi) as [b Hb]. rewrite Hb. cbn.
  apply Hk. by eapply Forall_lookup_1.
Qed.
Lemma wp_u16_le i (k : Z → result B) :
  S i < length d → (∀ v, is_u16 v → wp (k v) Q) → wp (u16_le_at i d ≫= k) Q.
Proof.
  intros Hi Hk. unfold u16_le_at. destruct (lookup_lt_is_Some_2 d i) as [x Hx]; [lia|].
  destruct (lookup_lt_is_Some_2 d (S i)) as [y Hy]; [lia|]. unfold byte_at. rewrite Hx, Hy.
  cbn -[Z.mul Z.add]. apply Hk. eapply Forall_lookup_1 in Hx; [|done]. eapply Forall_lookup_1 in Hy; [|done].
  unfold is_u16, is_byte in *. lia.
Qed.
Lemma wp_u16_be i (k : Z → result B) :
  S i < length d → (∀ v, is_u16 v → wp (k v) Q) → wp (u16_be_at i d ≫= k) Q.
Proof.
  intros Hi Hk. unfold u16_be_at. destruct (lookup_lt_is_Some_2 d i) as [x Hx]; [lia|].
  destruct (lookup_lt_is_Some_2 d (S i)) as [y Hy]; [lia|]. unfold byte_at. rewrite Hx, Hy.
  cbn -[Z.mul Z.add]. apply Hk. eapply Forall_lookup_1 in Hx; [|done]. eapply Forall_lookup_1 in Hy; [|done].
  unfold is_u16, is_byte in *. lia.
Qed.
Lemma wp_read a n (k : bytes → result B) :
  (∀ l, a + n ≤ length d → length l = n → Forall is_byte l → wp (k l) Q) → wp (read a n d ≫= k) Q.
Proof.
  intros Hk. unfold read. destruct (slice a (a + n) d) as [l|] eqn:E; [|done]. cbn.
  pose proof E as (? & ? & _)%slice_eq. apply slice_bytes in E as [? ?]. apply Hk; [done|lia|done].
Qed.
Lemma wp_read_u16 i (k : Z → result B) :
  (∀ v, i + 2 ≤ length d → is_u16 v → wp (k v) Q) → wp (read_u16_le i d ≫= k) Q.
Proof.
  intros Hk. unfold read_u16_le, read. destruct (slice i (i + 2) d) as [l|] eqn:E; [|done].
  cbn -[le_value]. pose proof E as (? & ? & _)%slice_eq. apply slice_bytes in E as [Hl Hb]. apply Hk; [done|].
  pose proof (le_value_range l Hb) as Hr. rewrite Hl in Hr. replace (i + 2 - i) with 2 in Hr by lia. exact Hr.
Qed.
End reading.

(** Runs the rules; side conditions are length arithmetic. *)
Ltac wp_bail_step :=
  apply wp_bail; [done|]; let H := fresh "Hlen" in intros H;
  first [apply bool_decide_eq_false in H | apply negb_false_iff, bool_decide_eq_true in H | idtac].
Ltac wp_step :=
  first
    [ wp_bail_step
    | apply wp_get; [assumption | lia | lia | intros ? ? ?]
    | apply wp_byte; [assumption | lia | intros ? ?]
    | apply wp_u16_le; [assumption | lia | intros ? ?]
    | apply wp_u16_be; [assumption | lia | intros ? ?]
    | apply wp_read_u16; [assumption | intros ? ? ?]
    | apply wp_read; [assumption | intros ? ? ? ?] ].
Ltac wp_run := repeat (wp_step; cbv beta zeta).

(** ** The constraint block *)
Lemma chunks_exact_len n l : Forall (λ k, length k = n) (chunks_exact n l).
Proof.
  unfold chunks_exact. generalize (length l) at 1 as fuel. intros fuel. revert l.
  induction fuel as [|fuel IH]; intros l; cbn [chunks_from]; [constructor|]. case_decide; [|constructor].
  constructor; [rewrite length_take; lia|apply IH].
Qed.
Lemma anchors_push_ok r l :
  anchors_ok r → Forall (λ a, length a = RESUME_ANCHOR_LEN) l → anchors_ok (foldl anchor_push r l).
Proof.
  intros Hr Hl. revert r Hr. induction Hl as [|a l Ha _ IH]; intros r [Hn Hr]; [done|]. cbn [foldl]. apply IH.
  unfold anchor_push. case_decide; [|done]. split; [rewrite length_app; cbn [length]; lia|].
  apply Forall_app. split; [done|by apply Forall_singleton].
Qed.
Lemma le_value_u64 l : length l = 8 → Forall is_byte l → is_u64 (le_value l).
Proof. intros Hl Hb. pose proof (le_value_range l Hb) as Hr. rewrite Hl in Hr. exact Hr. Qed.

Lemma decode_entry_ok tag value c r :
  Forall is_byte value → constraints_ok c → anchors_ok r →
  let '(c', r') := decode_entry tag value (c, r) in constraints_ok c' ∧ anchors_ok r'.
Proof.
  intros Hb Hc Hr. assert (constraints_ok c ∧ anchors_ok r) as Hcr by done.
  destruct Hc as (Hmin & Hmax & Ht & He & Hk & Hk16). unfold decode_entry.
  destruct (Z.eqb tag VALUE_EXT_TAG_MIN_SIZE). { case_decide; [|exact Hcr]. split; [|done]. split; [by apply le_value_u64|done]. }
  destruct (Z.eqb tag VALUE_EXT_TAG_MAX_SIZE). { case_decide; [|exact Hcr]. split; [|done]. split; [done|]. split; [by apply le_value_u64|done]. }
  destruct (Z.eqb tag VALUE_EXT_TAG_FILE_TYPE).
  { case_decide; [|exact Hcr]. destruct (utf8_valid value) eqn:Hu; [|exact Hcr]. case_bool_decide; [exact Hcr|]. cbn [negb andb].
    split; [|done]. split; [done|]. split; [done|]. split; done. }
  destruct (Z.eqb tag VALUE_EXT_TAG_FILE_EXTENSION).
  { case_decide as Hl; [|exact Hcr]. destruct (utf8_valid value) eqn:Hu; [|exact Hcr]. cbv zeta. case_bool_decide; [exact Hcr|].
    split; [|done]. split; [done|]. split; [done|]. split; [done|]. cbn [set_extension file_extension].
    split; [|done]. split; [done|]. split.
    { unfold to_ascii_lowercase. rewrite length_fmap. pose proof (length_trim value). lia. }
    split; [by rewrite utf8_valid_lower, utf8_valid_trim|]. by rewrite trim_canonical, lower_idem. }
  destruct (Z.eqb tag VALUE_EXT_TAG_EXTRA_KEYS).
  { split; [|done]. do 4 (split; [done|]). cbn [add_keys extra_keys]. split.
    - rewrite length_app, length_take. lia.
    - apply Forall_app. split; [done|]. apply Forall_take, chunks_exact_len. }
  destruct (Z.eqb tag VALUE_EXT_TAG_RESUME_AFTER); [|exact Hcr]. split; [done|]. apply anchors_push_ok; [done|apply chunks_exact_len].
Qed.

Lemma wp_decode_entries fuel tlv i acc :
  Forall is_byte tlv → constraints_ok acc.1 → anchors_ok acc.2 →
  wp (decode_entries fuel tlv i acc) (λ '(c, r), constraints_ok c ∧ anchors_ok r).
Proof.
  intros Hb. revert i acc. induction fuel as [|fuel IH]; intros i [c r] Hc Hr; cbn [decode_entries]; [done|].
  case_decide; [|done]. wp_run. destruct (slice _ _ tlv) as [value|] eqn:E; [|done].
  apply slice_bytes in E as [_ Hv]; [|done]. pose proof (decode_entry_ok b value c r Hv Hc Hr) as He.
  destruct (decode_entry b value (c, r)) as [c' r']. destruct He. by apply IH.
Qed.
Lemma default_ok : constraints_ok ValueConstraints_default ∧ anchors_ok [].
Proof.
  unfold constraints_ok, anchors_ok, MAX_FIND_VALUE_EXTRA_KEYS, MAX_RESUME_ANCHORS. cbn.
  repeat split; try lia; constructor.
Qed.
Lemma wp_decode_constraints rest :
  Forall is_byte rest → wp (decode_value_constraints rest) (λ '(c, r), constraints_ok c ∧ anchors_ok r).
Proof.
  intros Hb. pose proof default_ok as [Hc Hr]. unfold decode_value_constraints. case_decide; [done|]. cbv zeta.
  wp_run. case_match; [done|]. wp_run. destruct (slice _ _ rest) as [tlv|] eqn:E; [|done].
  apply slice_bytes in E as [_ Hv]; [|done]. by apply wp_decode_entries.
Qed.

Section decoders.
Context `{Crypto : Ed25519Blake3}.
Context (d : bytes) (Hd : Forall is_byte d).

Lemma wp_decode_store : wp (decode_store d) (λ '(key, record, sig), stored_ok key record sig).
Proof. unfold decode_store. wp_run. apply wp_ok. split; [lia|]. split; lia. Qed.

Lemma wp_decode_batch count offset acc :
  Forall (λ r, stored_ok (b_key r) (b_record r) (b_signature r)) acc →
  wp (decode_batch count d offset acc) (λ '(l, _),
    length l = length acc + count ∧ Forall (λ r, stored_ok (b_key r) (b_record r) (b_signature r)) l).
Proof.
  revert offset acc. induction count as [|count IH]; intros offset acc Hacc; cbn [decode_batch].
  { apply wp_ok. split; [lia|done]. }
  wp_run. eapply wp_mono; [apply IH|].
  - apply Forall_app. split; [done|]. apply Forall_singleton. cbn. split; [lia|]. split; lia.
  - intros [l' off]. rewrite length_app. cbn [length]. intros [? ?]. split; [lia|done].
Qed.

Lemma wp_decode_keys count i :
  1 + (i + count) * 16 ≤ length d →
  wp (decode_keys count i d) (λ l, length l = count ∧ Forall (λ k, length k = 16) l).
Proof.
  revert i. induction count as [|count IH]; intros i Hl; cbn [decode_keys]; [done|].
  wp_run. apply wp_bind. eapply wp_mono; [apply IH; lia|]. intros l' [Hn Hk]. cbn. split; [lia|].
  apply Forall_cons. split; [lia|done].
Qed.

Lemma wp_decode_blobs count offset acc :
  Forall (λ b, length b ≤ MAX_FOUND_VALUE_BLOB_BYTES) acc →
  wp (decode_blobs count d offset acc) (λ l,
    length l = length acc + count ∧ Forall (λ b, length b ≤ MAX_FOUND_VALUE_BLOB_BYTES) l).
Proof.
  revert offset acc. induction count as [|count IH]; intros offset acc Hacc; cbn [decode_blobs].
  { apply wp_ok. split; [lia|done]. }
  wp_run. eapply wp_mono; [apply IH|].
  - apply Forall_app. split; [done|]. apply Forall_singleton. lia.
  - intros l'. rewrite length_app. cbn [length]. intros [? ?]. split; [lia|done].
Qed.

Lemma wp_decode_version_loop fuel i : wp (decode_version_loop fuel d i) versions_ok.
Proof.
  revert i. induction fuel as [|fuel IH]; intros i; cbn [decode_version_loop]; [done|].
  case_decide; [|done]. wp_run. case_decide; [done|]. case_match; [|apply IH].
  destruct (Z.eqb_spec b0 VERSION_RANGE_VALUE_LEN) as [->|]; [|done]. cbn [negb].
  change (Z.to_nat VERSION_RANGE_VALUE_LEN) with 2 in *. wp_run.
  destruct (Z.eqb_spec b0 0); [done|]. destruct (Z.ltb_spec b1 b0); [done|]. cbn. unfold range_ok, is_byte in *.
  cbn. lia.
Qed.
Lemma wp_decode_version : wp (decode_version_block d) versions_ok.
Proof. apply wp_decode_version_loop. Qed.

Lemma segments_of_ok l n :
  length l = 2 * n → Forall is_byte l → length (segments_of l) = n ∧ Forall is_u16 (segments_of l).
Proof.
  revert l. induction n as [|n IH]; intros l Hl Hb.
  { destruct l; [done|discriminate]. }
  destruct l as [|h [|x l]]; [discriminate|cbn in Hl; lia|]. cbn [segments_of length].
  rewrite !Forall_cons in Hb. destruct Hb as (Hh & Hx & Hb). destruct (IH l) as [<- Hf]; [cbn in Hl; lia|done|].
  split; [done|]. apply Forall_cons. split; [unfold is_u16, is_byte in *; lia|done].
Qed.
Lemma socket_new_v6 l port :
  length l = 16 → Forall is_byte l → is_u16 port → socket_ok (SocketAddr_new (V6 (v6_of_octets l)) port).
Proof.
  intros Hl Hb Hp. destruct (segments_of_ok l 8) as [? ?]; [done..|]. cbn. done.
Qed.

Lemma wp_decode_socket_addr :
  wp (decode_socket_addr d) (λ '(a, n), socket_ok a ∧ n ≤ length d).
Proof.
  unfold decode_socket_addr. wp_bail_step. assert (0 < length d) by (destruct d; [done|cbn; lia]). wp_step.
  apply wp_bind. case_match; [|case_match; [|done]].
  - wp_run. apply wp_ok. wp_run. apply wp_ok. split; [done|lia].
  - wp_run. apply wp_ok. wp_run. apply wp_ok. split; [by apply socket_new_v6|lia].
Qed.

Lemma wp_decode_contact offset :
  wp (decode_contact d offset) (λ '(c, _), match c with Some c => contact_ok c | None => True end).
Proof.
  unfold decode_contact. wp_run. apply wp_bind. case_match; [|case_match; [|done]].
  - wp_run. apply wp_ok. wp_run. unfold wp. destruct (node_id_from_ed25519_bytes _) eqn:E; [|done].
    cbn. split; [done|]. split; [cbn; lia|]. split; [cbn; lia|]. done.
  - wp_run. apply wp_ok. wp_run. unfold wp. destruct (node_id_from_ed25519_bytes _) eqn:E; [|done].
    cbn -[SocketAddr_new v6_of_octets]. split; [apply socket_new_v6; (done || lia)|].
    split; [cbn; lia|]. split; [cbn; lia|]. done.
Qed.
Lemma wp_decode_contacts count offset acc :
  Forall contact_ok acc →
  wp (decode_contacts count d offset acc) (λ l, length l ≤ length acc + count ∧ Forall contact_ok l).
Proof.
  revert offset acc. induction count as [|count IH]; intros offset acc Hacc; cbn [decode_contacts].
  { apply wp_ok. split; [lia|done]. }
  apply wp_bind. eapply wp_mono; [apply wp_decode_contact|]. intros [[c|] off] Hc; cbn beta iota.
  - eapply wp_mono; [apply IH|].
    + apply Forall_app. split; [done|by apply Forall_singleton].
    + intros l. rewrite length_app. cbn [length]. intros [? ?]. split; [lia|done].
  - eapply wp_mono; [by apply IH|]. intros l [? ?]. split; [lia|done].
Qed.
Lemma wp_decode_contact_list :
  wp (decode_contact_list d) (λ l, length l ≤ MAX_CONTACTS_PER_RESPONSE ∧ Forall contact_ok l).
Proof.
  unfold decode_contact_list. case_decide as Hn.
  { apply wp_ok. split; [cbn; unfold MAX_CONTACTS_PER_RESPONSE; lia|done]. }
  assert (0 < length d) by (destruct d; [done|cbn; lia]). wp_run.
  eapply wp_mono; [by apply wp_decode_contacts|]. intros l [? ?]. cbn in *. split; [lia|done].
Qed.

Lemma wp_decode_find_value : wp (decode_find_value d) payload_ok.
Proof.
  unfold decode_find_value. wp_bail_step. assert (0 < length d) by (destruct d; [done|cbn; lia]). wp_run.
  apply wp_bind. eapply wp_mono; [apply wp_decode_keys; lia|]. intros keys [Hn Hk]. wp_run.
  apply wp_bind. eapply wp_mono; [by apply wp_decode_constraints|]. intros [c r] [Hc Hr].
  apply wp_ok. cbn. split; [lia|done].
Qed.
Lemma wp_decode_found_value : wp (decode_found_value d) payload_ok.
Proof.
  unfold decode_found_value. wp_bail_step. unfold FOUND_VALUE_HEADER_LEN in *. wp_run.
  apply wp_bind. eapply wp_mono; [by apply wp_decode_blobs|]. intros bl [Hn Hk].
  apply wp_ok. cbn in *. split; [lia|]. split; [lia|done].
Qed.
Lemma wp_decode_callback_req : wp (decode_callback_req d) payload_ok.
Proof.
  unfold decode_callback_req. wp_bail_step. unfold CALLBACK_REQ_WIRE_LEN in *. wp_run. apply wp_ok. cbn.
  split; [lia|]. split; [lia|]. split; [done|]. split; lia.
Qed.
Lemma wp_decode_callback : wp (decode_callback d) payload_ok.
Proof.
  unfold decode_callback. wp_bail_step. unfold CALLBACK_WIRE_LEN in *. wp_run. apply wp_ok. cbn.
  split; [lia|]. split; [done|]. split; lia.
Qed.
Lemma i64_le_value_in l : length l = 8 → Forall is_byte l → in_i64 (i64_le_value l).
Proof.
  intros Hl Hb. pose proof (le_value_u64 l Hl Hb) as Hv. unfold is_u64 in Hv.
  unfold i64_le_value, in_i64, i64_min, i64_max. cbv zeta. destruct (Z.ltb_spec 9223372036854775807 (le_value l)); lia.
Qed.
Lemma wp_decode_buddy_endorse : wp (decode_buddy_endorse d) payload_ok.
Proof.
  unfold decode_buddy_endorse. wp_bail_step. unfold BUDDY_ENDORSE_WIRE_LEN in *. wp_run. apply wp_ok. cbn -[i64_le_value].
  split; [done|]. split; [lia|]. split; [apply i64_le_value_in; (done || lia)|lia].
Qed.

End decoders.

Section payloads.
Context `{Crypto : Ed25519Blake3}.
Context (d : bytes) (Hd : Forall is_byte d).

(** Every decoded payload is well formed and no payload makes the decoder panic. *)
Lemma wp_decode_payload ty : wp (decode_payload ty d) payload_ok.
Proof.
  unfold decode_payload.
  case_match. { apply wp_bind. eapply wp_mono; [by apply wp_decode_version|done]. }
  case_match.
  { case_decide; [done|]. apply wp_bind. eapply wp_mono; [by apply wp_decode_socket_addr|]. intros [a n] [Ha Hn].
    wp_run. apply wp_bind. eapply wp_mono; [by apply wp_decode_version|]. done. }
  case_match. { wp_run. apply wp_ok. cbn. lia. }
  do 3 (case_match; [apply wp_bind; eapply wp_mono; [by apply wp_decode_contact_list|done]|]).
  do 2 (case_match; [apply wp_bind; eapply wp_mono; [by apply wp_decode_store|]; by intros [[??]?]|]).
  case_match.
  { wp_bail_step. assert (0 < length d) by (destruct d; [done|cbn; lia]). wp_run. apply wp_bind.
    eapply wp_mono; [by apply wp_decode_batch|]. intros [l off] [Hn Hl]. wp_run. apply wp_ok. cbn in *.
    split; [lia|done]. }
  case_match. { wp_run. apply wp_ok. apply le_value_u64; [lia|done]. }
  do 2 (case_match; [wp_run; apply wp_ok; cbn; lia|]).
  case_match; [by apply wp_decode_find_value|]. case_match; [by apply wp_decode_found_value|].
  do 2 (case_match; [wp_run; apply wp_ok; unfold payload_ok; lia|]).
  case_match; [by apply wp_decode_callback_req|]. case_match; [by apply wp_decode_callback|].
  case_match; [done|]. case_match; [by apply wp_decode_buddy_endorse|done].
Qed.
End payloads.
