(* ===== verification/MessagesCorrect.v ===== *)
(** * The DHT wire format is correct

    Payloads read back ([payload_roundtrip]); what follows a payload is ignored
    or refused by its type ([surplus_rule]). *)
From S2P Require Import Prelude NodeId Addr Contact Record Wire Crypto Messages WireFacts MessagesRoundtrip Utf8 ConstraintsRoundtrip MessagesSafety.

Lemma i64_le_bytes v : in_i64 v → i64_le_value (le_bytes 8 v) = v.
Proof.
  intros Hv. unfold in_i64, i64_min, i64_max in Hv. unfold i64_le_value, i64_max. rewrite le_bytes_mod.
  change (256 ^ Z.of_nat 8)%Z with 18446744073709551616%Z. cbv zeta.
  destruct (decide (0 ≤ v)%Z).
  - rewrite Z.mod_small by lia. by rewrite (proj2 (Z.ltb_ge _ _)) by lia.
  - replace (v mod 18446744073709551616)%Z with (v + 18446744073709551616)%Z.
    + rewrite (proj2 (Z.ltb_lt _ _)) by lia. lia.
    + rewrite <- (Z.mod_add v 1) by lia. rewrite Z.mod_small; lia.
Qed.

(** Selects the branch of [decode_payload] for a known type. *)
Ltac pick_type :=
  unfold decode_payload, MSG_PING, MSG_PONG, MSG_FIND_NODE, MSG_FOUND_NODE, MSG_STORE_RECORD, MSG_STORE_ACK,
    MSG_FIND_VALUE, MSG_FOUND_VALUE, MSG_ANNOUNCE_PEER, MSG_PEER_LIST, MSG_PROXY_STORE, MSG_PROXY_STORE_ACK,
    MSG_STORE_BATCH, MSG_STORE_BATCH_ACK, MSG_CALLBACK_REQ, MSG_CALLBACK, MSG_CHANNEL_MSG, MSG_CHANNEL_RELAY,
    MSG_BUDDY_ENDORSE_REQ, MSG_BUDDY_ENDORSE in *; cbn [Z.eqb Pos.eqb].

Section correct.
Context `{Crypto : Ed25519Blake3}.

(** ** Payloads that end where their fields do *)
Definition surplus_ignored (p : DhtPayload) : bool :=
  match p with
  | Ping (Some _) | Pong (Some _) (Some _) | FindNode _ | FoundNode _ | AnnouncePeer _ | PeerList _
  | StoreRecord _ _ _ | ProxyStore _ _ _ | StoreAck _ | ProxyStoreAck _ | StoreBatchAck _
  | FoundValue _ _ _ _ | BuddyEndorseReq => true
  | _ => false
  end.
Definition surplus_refused (p : DhtPayload) : bool :=
  match p with
  | StoreBatch _ | CallbackReq _ _ _ _ _ _ | Callback _ _ _ _ _ _ | BuddyEndorse _ _ _ _ _ => true
  | _ => false
  end.

Lemma decode_pong a r extra :
  socket_ok a → range_ok r →
  decode_payload MSG_PONG (encode_payload (Pong (Some a) (Some r)) ++ extra) = Ok (Pong (Some a) (Some r)).
Proof.
  intros Ha Hr. pick_type. cbn [encode_payload encode_versions]. rewrite <- app_assoc.
  rewrite decide_False by (destruct a; done). rewrite decode_socket_addr_app by done.
  rewrite bind_ok. cbv beta iota. rewrite get_skip, get_all, bind_ok by len. by rewrite decode_version_app.
Qed.
Lemma decode_pong_plain a :
  socket_ok a → decode_payload MSG_PONG (encode_socket_addr a) = Ok (Pong (Some a) None).
Proof.
  intros Ha. pick_type. rewrite decide_False by (destruct a; done).
  pose proof (decode_socket_addr_app a [] Ha) as Hd. rewrite app_nil_r in Hd. rewrite Hd, bind_ok.
  cbv beta iota. pose proof (get_skip (encode_socket_addr a) [] (length (encode_socket_addr a)) (length (encode_socket_addr a))) as Hg.
  rewrite app_nil_r in Hg. by rewrite Hg, Nat.sub_diag by lia.
Qed.

Lemma decode_surplus p ty extra :
  payload_ok p → payload_fits p → type_of p = Some ty → surplus_ignored p = true →
  decode_payload ty (encode_payload p ++ extra) = Ok p.
Proof.
  intros Hok Hfits Hty Hs. destruct p; try discriminate; injection Hty as <-; cbn [payload_ok payload_fits] in *.
  - destruct versions as [r|]; [|done]. pick_type. cbn [encode_payload encode_versions].
    by rewrite decode_version_app.
  - destruct observed as [a|], versions as [r|]; try done. destruct Hok. by apply decode_pong.
  - pick_type. cbn [encode_payload]. wire. done.
  - pick_type. cbn [encode_payload]. destruct Hok. by rewrite decode_contact_list_app.
  - pick_type. cbn [encode_payload]. by rewrite decode_store_app.
  - pick_type. cbn [encode_payload]. wire. done.
  - pick_type. cbn [encode_payload]. by rewrite decode_store_app.
  - pick_type. cbn [encode_payload]. wire. done.
  - pick_type. cbn [encode_payload]. wire. by rewrite le_value_le_bytes by exact Hok.
  - pick_type. destruct Hok as (? & ? & ? & ? & ?). by apply decode_found_value_app.
  - pick_type. cbn [encode_payload]. destruct Hok. by rewrite decode_contact_list_app.
  - pick_type. cbn [encode_payload]. destruct Hok. by rewrite decode_contact_list_app.
  - done.
Qed.

Lemma decode_exact p ty :
  payload_ok p → type_of p = Some ty → surplus_ignored p = false →
  decode_payload ty (encode_payload p) = Ok p.
Proof.
  intros Hok Hty Hs. destruct p; try discriminate; injection Hty as <-; cbn [payload_ok payload_fits] in *.
  - by destruct versions.
  - destruct observed as [a|], versions as [r|]; try done. destruct Hok as [Ha _].
    cbn [encode_payload encode_versions]. rewrite app_nil_r. by apply decode_pong_plain.
  - destruct Hok as [Hn Hl]. pick_type. cbn [encode_payload]. rewrite Nat.min_l, take_ge by done.
    assert (Z.of_nat (length records) mod 256 = Z.of_nat (length records))%Z as ->.
    { unfold MAX_STORE_BATCH_RECORDS in Hn. apply Z.mod_small. lia. }
    rewrite bail_pass by done. wire. rewrite Nat2Z.id.
    pose proof (decode_batch_app records [Z.of_nat (length records)] [] [] Hl) as Hb.
    rewrite app_nil_r in Hb. cbn [app length] in Hb. unfold encode_batched in Hb. rewrite Hb.
    cbn [mbind result_bind]. wire. done.
  - destruct Hok as (? & ? & ? & ? & ?). by apply decode_find_value_app.
  - pick_type. cbn [encode_payload]. wire. done.
  - pick_type. cbn [encode_payload]. wire. done.
  - destruct Hok as (? & ? & ? & ? & ?). pick_type. cbn [encode_payload]. unfold decode_callback_req, is_u16 in *.
    rewrite bail_pass by (apply negb_false_iff, bool_decide_eq_true; unfold CALLBACK_REQ_WIRE_LEN; len).
    cbn [app]. wire. done.
  - destruct Hok as (? & ? & ? & ?). pick_type. cbn [encode_payload]. unfold decode_callback, is_u16 in *.
    rewrite bail_pass by (apply negb_false_iff, bool_decide_eq_true; unfold CALLBACK_WIRE_LEN; len).
    destruct searcher_ip as [a b c d]. unfold v4_octets. cbn [app o0 o1 o2 o3]. wire. done.
  - destruct Hok as (? & ? & ? & ?). pick_type. cbn [encode_payload]. unfold decode_buddy_endorse, is_u16 in *.
    rewrite bail_pass by (apply negb_false_iff, bool_decide_eq_true; unfold BUDDY_ENDORSE_WIRE_LEN; len).
    destruct ip as [a b c d]. unfold v4_octets. cbn [app o0 o1 o2 o3]. wire. by rewrite i64_le_bytes.
Qed.

Lemma decode_refused p ty extra :
  payload_ok p → type_of p = Some ty → surplus_refused p = true → extra ≠ [] →
  ∃ e, decode_payload ty (encode_payload p ++ extra) = Err e ∧
    e ∈ [BatchTrailingBytes; CallbackReqLength; CallbackLength; BuddyEndorseLength].
Proof.
  intros Hok Hty Hs Hx. assert (0 < length extra) as Hlx by (destruct extra; [done|cbn; lia]).
  destruct p; try discriminate; injection Hty as <-; cbn [payload_ok] in *.
  - destruct Hok as [Hn Hl]. exists BatchTrailingBytes. split; [|set_solver].
    pick_type. cbn [encode_payload app]. rewrite Nat.min_l, take_ge by done.
    assert (Z.of_nat (length records) mod 256 = Z.of_nat (length records))%Z as ->.
    { unfold MAX_STORE_BATCH_RECORDS in Hn. apply Z.mod_small. lia. }
    rewrite bail_pass by done. wire. rewrite Nat2Z.id.
    pose proof (decode_batch_app records [Z.of_nat (length records)] extra [] Hl) as Hb.
    cbn [app length] in Hb. unfold encode_batched in Hb. rewrite Hb. cbn [mbind result_bind].
    unfold bail_if. rewrite bool_decide_eq_false_2; [done|]. len.
  - destruct Hok as (? & ? & ? & ? & ?). exists CallbackReqLength. split; [|set_solver]. pick_type.
    cbn [encode_payload]. unfold decode_callback_req, bail_if. rewrite bool_decide_eq_false_2; [done|].
    unfold CALLBACK_REQ_WIRE_LEN. len.
  - destruct Hok as (? & ? & ? & ?). exists CallbackLength. split; [|set_solver]. pick_type.
    cbn [encode_payload]. unfold decode_callback, bail_if. rewrite bool_decide_eq_false_2; [done|].
    unfold CALLBACK_WIRE_LEN. len.
  - destruct Hok as (? & ? & ? & ?). exists BuddyEndorseLength. split; [|set_solver]. pick_type.
    cbn [encode_payload]. unfold decode_buddy_endorse, bail_if. rewrite bool_decide_eq_false_2; [done|].
    unfold BUDDY_ENDORSE_WIRE_LEN. len.
Qed.

Lemma decode_encode_payload p ty :
  payload_ok p → payload_fits p → type_of p = Some ty → decode_payload ty (encode_payload p) = Ok p.
Proof.
  intros Hok Hf Hty. destruct (surplus_ignored p) eqn:Hs; [|by apply decode_exact].
  rewrite <- (app_nil_r (encode_payload p)). by apply decode_surplus.
Qed.

(** ** Frames *)
Definition is_u32 (v : Z) : Prop := (0 ≤ v < 4294967296)%Z.

(** A message its builder made and its key can sign. *)
Definition sendable (m : DhtMessage) (sk : bytes) : Prop :=
  (EMBER_DHT_MIN_VERSION ≤ version m ≤ EMBER_DHT_VERSION)%Z ∧ type_of (payload m) = Some (msg_type m) ∧
  is_u32 (request_id m) ∧ length (sender_id m) = 16 ∧ sender_id m = node_id_from_public_key (public_of sk) ∧
  payload_ok (payload m) ∧ payload_fits (payload m) ∧ length (encode_payload (payload m)) ≤ MAX_DELIVERABLE_PAYLOAD.

Lemma payload_ok_not_oversized p : payload_ok p → oversized_store_record p = None.
Proof.
  destruct p; try done; cbn [payload_ok oversized_store_record].
  - intros (_ & Hr & _). by rewrite decide_False by lia.
  - intros (_ & Hr & _). by rewrite decide_False by lia.
  - intros [_ Hl]. rewrite retain_none; [done|]. apply Forall_fmap. eapply Forall_impl; [exact Hl|].
    intros r (_ & Hr & _). unfold compose. apply bool_decide_eq_false. lia.
Qed.

Lemma length_frame_body m sk payload_bytes :
  length (sender_id m) = 16 →
  length (frame_body m sk true payload_bytes) = HEADER_MIN_SIZE + 32 + 2 + length payload_bytes.
Proof. intros Hs. unfold frame_body. pose proof (public_of_len sk). unfold HEADER_MIN_SIZE. len. Qed.

(** A signed frame is its body and a signature over it. *)
Lemma encode_message_sendable m sk noise :
  sendable m sk →
  encode_message m sk true noise =
  frame_body m sk true (encode_payload (payload m)) ++
  sign sk (frame_body m sk true (encode_payload (payload m)) ++ frame_signing_suffix noise).
Proof.
  intros (_ & _ & _ & _ & _ & Hok & _ & Hlen). unfold encode_message.
  rewrite decide_False by lia. by rewrite payload_ok_not_oversized.
Qed.

(** The reads of [decode_message] on a frame, one by one. *)
Lemma frame_reads (v ty : Z) (req sender pk pd sig : bytes) :
  let n := Z.of_nat (length pd) in
  let body := [v] ++ [ty] ++ req ++ sender ++ pk ++ le_bytes 2 n ++ pd in
  let data := body ++ sig in
  length req = 4 → length sender = 16 → length pk = 32 → length sig = 64 → (n < 65536)%Z →
  read 0 1 data = Ok [v] ∧ read 1 1 data = Ok [ty] ∧ read 2 4 data = Ok req ∧ read 6 16 data = Ok sender ∧
  read 22 32 data = Ok pk ∧ read_u16_le 54 data = Ok n ∧ get 56 (56 + length pd) data = Ok pd ∧
  get (56 + length pd) (56 + length pd + 64) data = Ok sig ∧ get 0 (56 + length pd) data = Ok body ∧
  length data = 56 + length pd + 64.
Proof.
  intros n body data Hreq Hs Hpk Hsig Hn.
  assert (length body = 56 + length pd) as Hbody by (unfold body; len).
  assert (get (56 + length pd) (56 + length pd + 64) data = Ok sig ∧ get 0 (56 + length pd) data = Ok body ∧
    length data = 56 + length pd + 64) as Hend.
  { unfold data. clearbody body. rewrite length_app. split; [by wire|]. split; [by wire|lia]. }
  unfold data, body in *. rewrite <- !app_assoc in *. clear Hbody.
  do 7 (split; [by wire|]). exact Hend.
Qed.

Lemma decode_encode_message m sk noise :
  sendable m sk →
  decode_message (encode_message m sk true noise) true noise =
  Ok (mkMessage (version m) (msg_type m) (request_id m) (sender_id m) (Some (public_of sk)) (payload m)
        (sign sk (frame_body m sk true (encode_payload (payload m)) ++ frame_signing_suffix noise))).
Proof.
  intros Hm. rewrite encode_message_sendable by done. destruct Hm as (Hv & Hty & Hreq & Hsl & Hsid & Hok & Hfit & Hlen).
  set (pd := encode_payload (payload m)) in *. set (body := frame_body m sk true pd).
  set (sig := sign sk (body ++ frame_signing_suffix noise)).
  pose proof wire_limits as (_ & _ & Hmax & _). unfold MAX_DHT_PAYLOAD in Hmax.
  destruct (frame_reads (version m) (msg_type m) (le_bytes 4 (request_id m)) (sender_id m) (public_of sk) pd sig)
    as (R1 & R2 & R3 & R4 & R5 & R6 & R7 & R8 & R9 & Hdata);
    [apply length_le_bytes|done|apply public_of_len|apply sign_len|lia|].
  change ([version m] ++ [msg_type m] ++ le_bytes 4 (request_id m) ++ sender_id m ++ public_of sk ++
    le_bytes 2 (Z.of_nat (length pd)) ++ pd) with body in *.
  assert (le_value [version m] = version m ∧ le_value [msg_type m] = msg_type m) as [Hlv Hlt] by (cbn [le_value]; lia).
  unfold EMBER_DHT_MIN_VERSION, EMBER_DHT_VERSION in Hv. set (data := body ++ sig) in *. clearbody data.
  unfold decode_message, HEADER_MIN_SIZE, EMBER_DHT_MIN_VERSION, EMBER_DHT_VERSION. cbv zeta.
  rewrite bail_pass by (apply bool_decide_eq_false; lia). rewrite R1, bind_ok, Hlv.
  rewrite bail_pass by (apply Z.eqb_neq; lia).
  rewrite bail_pass by (apply orb_false_iff; split; apply Z.ltb_ge; lia).
  rewrite R2, bind_ok, R3, bind_ok, R4, bind_ok, R5, Hlt, !bind_ok.
  change (22 + 32) with 54. rewrite R6, bind_ok, Nat2Z.id. change (54 + 2) with 56.
  rewrite bail_pass by (apply bool_decide_eq_false; unfold MAX_DHT_PAYLOAD; lia).
  rewrite bail_pass by (apply bool_decide_eq_false; lia). rewrite R7, bind_ok.
  rewrite bail_pass by (apply negb_false_iff, bool_decide_eq_true; lia). rewrite R8, bind_ok.
  unfold verifying_key_from_bytes. rewrite public_of_valid, R9, bind_ok.
  rewrite bail_pass by (unfold verify; apply negb_false_iff, verify_sign).
  rewrite bail_pass by (unfold verify_ember_hash_binding; rewrite public_of_valid, bool_decide_eq_true_2 by done; done).
  unfold pd. rewrite decode_encode_payload by done. rewrite bind_ok, le_value_le_bytes by exact Hreq. done.
Qed.

(** ** What acceptance means *)

(** The frame [d] is this message, signed by [pk] for the session key [noise]. *)
Definition frame_of (m : DhtMessage) (noise d pk pd : bytes) : Prop :=
  let body := [version m] ++ [msg_type m] ++ le_bytes 4 (request_id m) ++ sender_id m ++ pk ++
    le_bytes 2 (Z.of_nat (length pd)) ++ pd in
  d = body ++ msg_signature m ∧ length (msg_signature m) = 64 ∧ length pd ≤ MAX_DHT_PAYLOAD ∧
  length pk = 32 ∧ valid_point pk = true ∧
  verify_strict pk (body ++ DHT_FRAME_DOMAIN ++ noise) (msg_signature m) = true ∧
  decode_payload (msg_type m) pd = Ok (payload m).

Lemma frame_split d v t r sender k l pd sig signed n :
  read 0 1 d = Ok v → read 1 1 d = Ok t → read 2 4 d = Ok r → read 6 16 d = Ok sender → read 22 32 d = Ok k →
  read 54 2 d = Ok l → get 56 (56 + n) d = Ok pd → get (56 + n) (56 + n + 64) d = Ok sig →
  length d = 56 + n + 64 → get 0 (56 + n) d = Ok signed →
  signed = v ++ t ++ r ++ sender ++ k ++ l ++ pd ∧ d = signed ++ sig ∧
  length v = 1 ∧ length t = 1 ∧ length r = 4 ∧ length k = 32 ∧ length l = 2 ∧ length pd = n ∧ length sig = 64.
Proof.
  intros (R1 & L1 & _)%read_inv (R2 & L2 & _)%read_inv (R3 & L3 & _)%read_inv (R4 & L4 & _)%read_inv
    (R5 & L5 & _)%read_inv (R6 & L6 & _)%read_inv (R7 & L7 & _)%get_inv (R8 & L8 & _)%get_inv Hd
    (R9 & L9 & _)%get_inv.
  cbn [Nat.add] in R1, R2, R3, R4, R5, R6. rewrite drop_0 in R1, R9.
  rewrite (drop_ge d (56 + n + 64)), app_nil_r in R8 by lia. rewrite R8 in R9.
  rewrite R2, R3, R4, R5, R6, R7, R8 in R1. split.
  - rewrite R9 in R1. rewrite !app_assoc in R1. apply app_inj_2 in R1 as [R1 _]; [|done]. by rewrite R1, <- !app_assoc.
  - split; [done|]. lia.
Qed.

Lemma one_byte l : length l = 1 → l = [le_value l].
Proof. destruct l as [|x [|]]; try discriminate. intros _. cbn [le_value]. f_equal. lia. Qed.

Lemma decode_message_inv d has_pub_key noise m :
  Forall is_byte d → decode_message d has_pub_key noise = Ok m →
  has_pub_key = true ∧ ∃ pk pd, frame_of m noise d pk pd ∧ sender_pub_key m = Some pk ∧
    sender_id m = node_id_from_public_key pk ∧
    (EMBER_DHT_MIN_VERSION ≤ version m ≤ EMBER_DHT_VERSION)%Z.
Proof.
  intros Hd H. unfold decode_message in H. cbv zeta in H.
  apply bail_inv in H as [_ H]. apply bind_inv in H as (v & R1 & H). apply bail_inv in H as [Hv0 H].
  apply bail_inv in H as [Hv H]. apply bind_inv in H as (t & R2 & H). apply bind_inv in H as (r & R3 & H).
  apply bind_inv in H as (sender & R4 & H). apply bind_inv in H as (pk & R5 & H).
  apply bind_inv in H as (n & R6 & H). apply bail_inv in H as [Hmax H]. apply bail_inv in H as [_ H].
  apply bind_inv in H as (pd & R7 & H). apply bail_inv in H as [Hend H]. apply bind_inv in H as (sig & R8 & H).
  destruct has_pub_key; [|injection R5 as <-; discriminate].
  apply bind_inv in R5 as (k & R5 & [= <-]). unfold verifying_key_from_bytes in H.
  destruct (valid_point k) eqn:Hpt; [|done]. apply bind_inv in H as (signed & R9 & H).
  apply bail_inv in H as [Hsig H]. apply bail_inv in H as [Hid H]. apply bind_inv in H as (p & Hp & [= <-]).
  split; [done|]. exists k, pd. unfold frame_of.
  cbn [version msg_type request_id sender_id sender_pub_key payload msg_signature].
  apply negb_false_iff in Hsig, Hid, Hend. apply bool_decide_eq_true in Hend. apply bool_decide_eq_false in Hmax.
  unfold verify_ember_hash_binding in Hid. rewrite Hpt in Hid. apply bool_decide_eq_true in Hid.
  apply orb_false_iff in Hv as [Hv1%Z.ltb_ge Hv2%Z.ltb_ge].
  unfold read_u16_le in R6. apply bind_inv in R6 as (l & R6 & [= <-]).
  assert (Forall is_byte d ∧ Forall is_byte r ∧ Forall is_byte l) as (_ & Hrb & Hlb).
  { split; [done|]. split; eauto using read_bytes. }
  destruct (frame_split d v t r sender k l pd sig signed (Z.to_nat (le_value l)) R1 R2 R3 R4 R5 R6 R7 R8 Hend R9)
    as (Hbody & Hsplit & L1 & L2 & L3 & L5 & L6 & L7 & L8).
  pose proof (le_value_range l Hlb) as Hrange.
  pose proof (le_bytes_le_value r Hrb) as Er. pose proof (le_bytes_le_value l Hlb) as El. rewrite L3 in Er. rewrite L6 in El.
  rewrite <- (one_byte v), <- (one_byte t) by done. rewrite Er, L7, Z2Nat.id, El, <- Hbody by lia.
  split; [split; [done|]; split; [done|]; split; [lia|done]|].
  split; [done|]. split; [done|]. split; assumption.
Qed.

(** A known payload came under its own type. *)
Ltac inv_result H :=
  repeat match type of H with
    | (bail_if _ _ ≫= _) = Ok _ => apply bail_inv in H as [_ H]
    | (_ ≫= _) = Ok _ => apply bind_inv in H as (? & _ & H)
    | (let '(_, _) := ?x in _) = Ok _ => destruct x
    | match ?x with left _ => _ | right _ => _ end = Ok _ => destruct x
    end.
Lemma decode_payload_tag ty d p :
  decode_payload ty d = Ok p → type_of p = Some ty ∨ p = Unknown d.
Proof.
  unfold decode_payload, decode_find_value, decode_found_value, decode_callback_req, decode_callback, decode_buddy_endorse.
  intros H.
  repeat match type of H with
    | (if Z.eqb ?a ?b then _ else _) = _ =>
        destruct (Z.eqb_spec a b) as [->|_]; [left; inv_result H; by injection H as <-|]
    end.
  injection H as <-. by right.
Qed.

(** The message types this build reads. *)
Definition known_types : list Z :=
  [MSG_PING; MSG_PONG; MSG_FIND_NODE; MSG_FOUND_NODE; MSG_STORE_RECORD; MSG_STORE_ACK; MSG_FIND_VALUE;
   MSG_FOUND_VALUE; MSG_ANNOUNCE_PEER; MSG_PEER_LIST; MSG_PROXY_STORE; MSG_PROXY_STORE_ACK;
   MSG_STORE_BATCH; MSG_STORE_BATCH_ACK; MSG_CALLBACK_REQ; MSG_CALLBACK; MSG_CHANNEL_MSG;
   MSG_CHANNEL_RELAY; MSG_BUDDY_ENDORSE_REQ; MSG_BUDDY_ENDORSE].

(** Which types it reads, and as what. *)
Lemma decode_unknown_type ty d : ty ∉ known_types → decode_payload ty d = Ok (Unknown d).
Proof.
  unfold known_types. rewrite !not_elem_of_cons. intros H. unfold decode_payload.
  repeat match goal with
    | |- context [Z.eqb ?a ?b] => destruct (Z.eqb_spec a b) as [->|_]; [exfalso; tauto|]
    end.
  done.
Qed.
Lemma decode_known_type ty d p : decode_payload ty d = Ok p → ty ∈ known_types → type_of p = Some ty.
Proof.
  intros H Hin. destruct (decode_payload_tag ty d p H) as [?| ->]; [done|exfalso].
  revert Hin H. unfold known_types. rewrite !elem_of_cons, elem_of_nil. intros Hin.
  repeat (destruct Hin as [->|Hin]; [pick_type; unfold decode_find_value, decode_found_value, decode_callback_req, decode_callback, decode_buddy_endorse; intros H; inv_result H; done|]). done.
Qed.

Lemma peek_frame m noise d pk pd :
  frame_of m noise d pk pd → length (sender_id m) = 16 → 0 < length pd →
  peek_store_batch_count d = (λ c, Z.min c (Z.of_nat MAX_STORE_BATCH_RECORDS)) <$> head pd.
Proof.
  intros (-> & _ & Hlen & Hpk & _) Hs Hpd. pose proof wire_limits as (_ & _ & Hmax & _).
  unfold peek_store_batch_count, HEADER_MIN_SIZE. set (n := Z.of_nat (length pd)).
  set (pre := [version m] ++ [msg_type m] ++ le_bytes 4 (request_id m) ++ sender_id m ++ pk).
  assert (length pre = 54) as Hpre by (unfold pre; len).
  assert (([version m] ++ [msg_type m] ++ le_bytes 4 (request_id m) ++ sender_id m ++ pk ++
    le_bytes 2 n ++ pd) ++ msg_signature m = pre ++ le_bytes 2 n ++ pd ++ msg_signature m) as ->.
  { unfold pre. by rewrite <- !app_assoc. }
  assert (∀ X i, (pre ++ X) !! (54 + i) = X !! i) as Hat.
  { intros X i. rewrite lookup_app_r by lia. f_equal. lia. }
  clearbody pre. pose proof (Hat (le_bytes 2 n ++ pd ++ msg_signature m)) as Hat'.
  pose proof (Hat' 0) as H0. pose proof (Hat' 1) as H1. pose proof (Hat' 2) as H2. cbn [Nat.add] in H0, H1, H2 |- *.
  rewrite H0, H1, H2. clear H0 H1 H2 Hat Hat'.
  assert (le_value (le_bytes 2 n) = n) as Hn by (apply le_value_le_bytes; lia).
  destruct pd as [|c pd]; [cbn in Hpd; lia|]. cbn -[le_value Z.mul Z.modulo Z.div].
  cbn [le_bytes] in Hn. rewrite Hn. rewrite (proj2 (Z.eqb_neq n 0)) by (unfold n; cbn [length]; lia). done.
Qed.
End correct.

(** ** The constraint loop as the source's [while] *)
Inductive entries_run (tlv : bytes) :
    nat → ValueConstraints * ResumeAnchors → ValueConstraints * ResumeAnchors → Prop :=
  | entries_end i acc : length tlv < i + 2 → entries_run tlv i acc acc
  | entries_cut i acc tag len :
      tlv !! i = Some tag → tlv !! (i + 1) = Some len → length tlv < i + 2 + Z.to_nat len →
      entries_run tlv i acc acc
  | entries_next i acc tag len value res :
      tlv !! i = Some tag → tlv !! (i + 1) = Some len → slice (i + 2) (i + 2 + Z.to_nat len) tlv = Some value →
      entries_run tlv (i + (2 + Z.to_nat len)) (decode_entry tag value acc) res →
      entries_run tlv i acc res.

Lemma entries_total tlv n i acc :
  length tlv - i ≤ n →
  ∃ res, entries_run tlv i acc res ∧ ∀ fuel, n < fuel → decode_entries fuel tlv i acc = Ok res.
Proof.
  revert i acc. induction n as [n IH] using lt_wf_ind. intros i acc Hn.
  destruct (decide (i + 2 ≤ length tlv)) as [Hi|Hi].
  2: { exists acc. split; [constructor; lia|]. intros [|fuel] Hf; [lia|]. cbn [decode_entries].
       by rewrite decide_False by lia. }
  destruct (lookup_lt_is_Some_2 tlv i) as [tag Ht]; [lia|].
  destruct (lookup_lt_is_Some_2 tlv (i + 1)) as [len Hl]; [lia|].
  destruct (slice (i + 2) (i + 2 + Z.to_nat len) tlv) as [value|] eqn:Hs.
  - destruct (IH (n - 2) ltac:(lia) (i + (2 + Z.to_nat len)) (decode_entry tag value acc)) as (res & Hr & Hd); [lia|].
    exists res. split; [by eapply entries_next|]. intros [|fuel] Hf; [lia|]. cbn [decode_entries].
    rewrite decide_True by lia. unfold byte_at. rewrite Ht, Hl. cbn [mbind result_bind]. rewrite Hs. apply Hd. lia.
  - exists acc. split.
    + eapply entries_cut; [done..|]. unfold slice in Hs. case_decide; [done|]. lia.
    + intros [|fuel] Hf; [lia|]. cbn [decode_entries]. rewrite decide_True by lia. unfold byte_at.
      rewrite Ht, Hl. cbn [mbind result_bind]. by rewrite Hs.
Qed.

(** ** Theorems *)
Section theorems.
Context `{Crypto : Ed25519Blake3}.

(** C21: every well-formed payload whose contacts fit one datagram decodes, under
    its own message type, to itself. *)
Theorem payload_roundtrip p ty :
  payload_ok p → payload_fits p → type_of p = Some ty → decode_payload ty (encode_payload p) = Ok p.
Proof. apply decode_encode_payload. Qed.

(** Bytes after a payload are ignored by the types that may grow, so a newer
    peer's message still reads, and refused with their own error by the types
    whose length is exact. *)
Theorem surplus_rule p ty extra :
  payload_ok p → payload_fits p → type_of p = Some ty →
  (surplus_ignored p = true → decode_payload ty (encode_payload p ++ extra) = Ok p) ∧
  (surplus_refused p = true → extra ≠ [] →
   ∃ e, decode_payload ty (encode_payload p ++ extra) = Err e ∧
     e ∈ [BatchTrailingBytes; CallbackReqLength; CallbackLength; BuddyEndorseLength]).
Proof. intros Hok Hf Hty. split; intros; [by apply decode_surplus|by apply decode_refused]. Qed.

(** C38: whatever the bytes, [decode_payload] answers, and no index is ever out of
    range.  Bytes of a type this build reads give a payload of that very type
    within every limit of the format, or one of the format's errors; bytes of any
    other type are handed on whole and never refused. *)
Theorem decode_payload_typed ty d :
  Forall is_byte d →
  match decode_payload ty d with
  | Ok p => payload_ok p ∧ (ty ∈ known_types → type_of p = Some ty) ∧ (ty ∉ known_types → p = Unknown d)
  | Err e => e ≠ Panicked ∧ ty ∈ known_types
  end.
Proof.
  intros Hd. pose proof (wp_decode_payload d Hd ty) as Hp.
  destruct (decode_payload ty d) as [p|e] eqn:E.
  - split; [done|]. split; [by apply decode_known_type with (d := d)|]. intros Hn. rewrite decode_unknown_type in E by done. congruence.
  - split; [done|]. destruct (decide (ty ∈ known_types)) as [|Hn]; [done|]. by rewrite decode_unknown_type in E.
Qed.

(** A message a node built and signed is accepted by its peer, with every
    field as it was and the sender's key and signature filled in. *)
Theorem message_roundtrip m sk noise :
  sendable m sk →
  decode_message (encode_message m sk true noise) true noise =
  Ok (mkMessage (version m) (msg_type m) (request_id m) (sender_id m) (Some (public_of sk)) (payload m)
        (sign sk (frame_body m sk true (encode_payload (payload m)) ++ frame_signing_suffix noise))).
Proof. apply decode_encode_message. Qed.

(** C22: an accepted frame is exactly header, key, payload and signature with
    nothing left over; the signature covers every other byte of it, the frame
    domain and the session's noise key, under a key whose hash is the sender id,
    and the version is one this build speaks. *)
Theorem accepted_frame_is_authentic d has_pub_key noise m :
  Forall is_byte d → decode_message d has_pub_key noise = Ok m →
  has_pub_key = true ∧ ∃ pk pd, frame_of m noise d pk pd ∧ sender_pub_key m = Some pk ∧
    sender_id m = node_id_from_public_key pk ∧
    (EMBER_DHT_MIN_VERSION ≤ version m ≤ EMBER_DHT_VERSION)%Z.
Proof. apply decode_message_inv. Qed.

(** For any accepted STORE_BATCH frame the count read without decoding is the
    number of records decoded. *)
Theorem peek_agrees_with_decode d noise m records :
  Forall is_byte d → decode_message d true noise = Ok m → payload m = StoreBatch records →
  peek_store_batch_count d = Some (Z.of_nat (length records)).
Proof.
  intros Hd Hm Hp. destruct (decode_message_inv d true noise m Hd Hm) as (_ & pk & pd & Hf & _ & Hid & _).
  assert (length (sender_id m) = 16) as Hs.
  { rewrite Hid. unfold node_id_from_public_key. rewrite length_take, hash_len. lia. }
  pose proof Hf as (Hd' & _ & _ & _ & _ & _ & Hpd). rewrite Hp in Hpd.
  assert (Forall is_byte pd) as Hb.
  { rewrite Hd', !Forall_app in Hd. naive_solver. }
  assert (msg_type m = MSG_STORE_BATCH) as Hty.
  { destruct (decode_payload_tag _ _ _ Hpd) as [[= <-]|]; done. }
  rewrite Hty in Hpd. revert Hpd. pick_type. intros H. apply bail_inv in H as [Hne H]. apply bool_decide_eq_false in Hne.
  assert (0 < length pd) as Hlen by (destruct pd; [done|cbn; lia]).
  rewrite (peek_frame m noise d pk pd Hf Hs Hlen). destruct pd as [|c pd]; [done|].
  rewrite byte_here, bind_ok in H by done. apply bail_inv in H as [Hmax H]. apply bool_decide_eq_false in Hmax.
  apply bind_inv in H as ([l off] & Hdec & H). apply bail_inv in H as [_ [= ->]].
  pose proof (wp_decode_batch (c :: pd) Hb (Z.to_nat c) 1 [] (Forall_nil_2 _)) as Hw. rewrite Hdec in Hw.
  destruct Hw as [Hw _]. cbn [length Nat.add] in Hw. cbn [head fmap option_fmap option_map]. f_equal.
  apply Forall_cons in Hb as [[Hc _] _]. lia.
Qed.
End theorems.

(** C39: the loop over a constraint block ends on any bytes, and the decoder's
    bound on its rounds is never what stops it. *)
Theorem constraint_loop_terminates tlv acc :
  ∃ res, entries_run tlv 0 acc res ∧
    ∀ fuel, length tlv < fuel → decode_entries fuel tlv 0 acc = Ok res.
Proof. apply entries_total. lia. Qed.

(** ** Concrete messages *)
Definition sample_query : DhtPayload :=
  FindValue [repeat 1%Z 16; repeat 2%Z 16] 7
    (mkConstraints (Some 1048576%Z) None (Some [97; 117; 100; 105; 111]%Z) (Some [109; 112; 51]%Z) [repeat 9%Z 16])
    [repeat 3%Z 8].
Definition sample_batch : DhtPayload := StoreBatch [mkBatched (repeat 1%Z 16) [1; 2; 3]%Z (repeat 4%Z 64)].
Definition sample_key : bytes := repeat 5%Z 32.
Definition sample_message : DhtMessage := build_store_batch (repeat 5%Z 16) 77
  [mkBatched (repeat 1%Z 16) [1; 2; 3]%Z (repeat 4%Z 64)].
Definition sample_frame : bytes := @encode_message toy_crypto sample_message sample_key true (repeat 6%Z 32).

Ltac concrete_ok :=
  repeat match goal with
    | |- _ ∧ _ => split
    | |- Forall _ [] => constructor
    | |- Forall _ (_ :: _) => constructor
    | |- _ ≠ _ => discriminate
    | |- (_ < _)%Z => reflexivity
    | |- (_ ≤ _)%Z => vm_compute; discriminate
    | |- (_ ≤ _)%nat => apply Nat.leb_le; vm_compute; reflexivity
    | |- (_ < _)%nat => apply Nat.ltb_lt; vm_compute; reflexivity
    | |- True => exact I
    | |- _ = _ => vm_compute; reflexivity
    end.

Lemma payload_roundtrip_witness :
  @decode_payload toy_crypto MSG_FIND_VALUE (encode_payload sample_query) = Ok sample_query.
Proof. apply (@payload_roundtrip toy_crypto sample_query MSG_FIND_VALUE); cbn [payload_ok payload_fits sample_query]; unfold constraints_ok, anchors_ok, is_u16, is_u64; cbn [min_size max_size file_type file_extension extra_keys]; concrete_ok. Defined.
Lemma sample_batch_ok : @payload_ok toy_crypto sample_batch ∧ payload_fits sample_batch.
Proof.
  cbn [payload_ok payload_fits sample_batch]. concrete_ok. all: cbn [b_key b_record b_signature]; unfold stored_ok; concrete_ok.
Qed.
Lemma surplus_rule_witness :
  ∃ e, @decode_payload toy_crypto MSG_STORE_BATCH (encode_payload sample_batch ++ [0%Z]) = Err e ∧
    e ∈ [BatchTrailingBytes; CallbackReqLength; CallbackLength; BuddyEndorseLength].
Proof.
  apply (@surplus_rule toy_crypto sample_batch MSG_STORE_BATCH [0%Z] (proj1 sample_batch_ok) (proj2 sample_batch_ok) eq_refl);
    [reflexivity|discriminate].
Defined.
Lemma decode_payload_typed_witness :
  @decode_payload toy_crypto MSG_FIND_NODE (repeat 1%Z 16) = Ok (FindNode (repeat 1%Z 16)) ∧
  @payload_ok toy_crypto (FindNode (repeat 1%Z 16)) ∧ type_of (FindNode (repeat 1%Z 16)) = Some MSG_FIND_NODE.
Proof.
  pose proof (@decode_payload_typed toy_crypto MSG_FIND_NODE (repeat 1%Z 16)
    ltac:(unfold is_byte; cbn; concrete_ok)) as H.
  assert (@decode_payload toy_crypto MSG_FIND_NODE (repeat 1%Z 16) = Ok (FindNode (repeat 1%Z 16))) as E
    by (vm_compute; reflexivity).
  rewrite E in H. destruct H as (H1 & H2 & _). split; [exact E|]. split; [exact H1|]. apply H2.
  right; right; left.
Defined.

Lemma sample_sendable : @sendable toy_crypto sample_message sample_key.
Proof. unfold sendable, is_u32. cbn [payload payload_ok payload_fits sample_message build_store_batch build]. concrete_ok.
  all: cbn [b_key b_record b_signature]; unfold stored_ok; concrete_ok. Qed.
Lemma message_roundtrip_witness :
  @decode_message toy_crypto sample_frame true (repeat 6%Z 32) =
  Ok (mkMessage 4 MSG_STORE_BATCH 77 (repeat 5%Z 16) (Some sample_key) sample_batch
        (@sign toy_crypto sample_key (@frame_body toy_crypto sample_message sample_key true (encode_payload sample_batch)
           ++ frame_signing_suffix (repeat 6%Z 32)))).
Proof. apply (@message_roundtrip toy_crypto sample_message sample_key (repeat 6%Z 32)). exact sample_sendable. Defined.
Lemma sample_frame_bytes : Forall is_byte sample_frame.
Proof.
  assert (forallb (λ b, Z.leb 0 b && Z.ltb b 256) sample_frame = true) as H by (vm_compute; reflexivity).
  apply Forall_forall. intros b Hb. rewrite forallb_forall in H. apply list_elem_of_In in Hb. apply H in Hb.
  apply andb_true_iff in Hb as [?%Z.leb_le ?%Z.ltb_lt]. by split.
Qed.
Lemma accepted_frame_is_authentic_witness :
  ∃ m, @decode_message toy_crypto sample_frame true (repeat 6%Z 32) = Ok m ∧
    sender_id m = @node_id_from_public_key toy_crypto sample_key.
Proof.
  eexists. split; [vm_compute; reflexivity|].
  edestruct (@accepted_frame_is_authentic toy_crypto sample_frame true (repeat 6%Z 32)) as (_ & pk & pd & _ & Hpk & Hid & _);
    [exact sample_frame_bytes|vm_compute; reflexivity|]. rewrite Hid. injection Hpk as <-. vm_compute. reflexivity.
Defined.
Lemma peek_agrees_with_decode_witness : peek_store_batch_count sample_frame = Some 1%Z.
Proof.
  eapply (@peek_agrees_with_decode toy_crypto sample_frame (repeat 6%Z 32) _ [mkBatched (repeat 1%Z 16) [1; 2; 3]%Z (repeat 4%Z 64)]);
    [exact sample_frame_bytes|vm_compute; reflexivity|vm_compute; reflexivity].
Defined.
Lemma constraint_loop_terminates_witness :
  ∃ res, entries_run [1; 200; 3]%Z 0 (ValueConstraints_default, []) res ∧
    ∀ fuel, 3 < fuel → decode_entries fuel [1; 200; 3]%Z 0 (ValueConstraints_default, []) = Ok res.
Proof. apply (constraint_loop_terminates [1; 200; 3]%Z). Defined.
