(* ===== verification/SearchState.v ===== *)
(** * The state of an iterative search

    The types of [network/ember/dht/search.rs].  [IterativeSearch] is one struct
    there; here its fields are split in two records by what they serve, the walk
    over the shortlist ([Walk]) and the records gathered on the way ([Gathered]).
    The fields of the user interface ([keyword_readings]) and the links between
    the walks of one query ([companion], [branch_walks]), which no method reads,
    are left out.  A [HashMap] is a [gmap] and a [HashSet] a [gset]; the methods
    only ask them for members, counts and existence.  An [Instant] is a number of
    nanoseconds. *)
From S2P Require Import Prelude NodeId Addr Contact Record Wire Crypto Messages.

Definition MAX_ACTIVE_SEARCHES : nat := 64.
Definition MAX_BACKGROUND_SEARCHES : nat := 48.
Definition MAX_FEEDING_SEARCHES : nat := 60.
Definition SEARCH_TIMEOUT_SECS : Z := 60.
Definition MAX_SEARCH_RESULTS : nat := 300.
Definition MAX_SEARCH_RESULT_BLOBS : nat := 1200.
Definition MAX_LOCAL_SEED_RESULTS : nat := 150.
Definition MAX_RESULTS_PER_NODE : nat := 75.
Definition MAX_PUBLISHERS_PER_FILE_PER_NODE : nat := 5.
Definition MAX_CONFIRMED_PER_FILE_PER_NODE : nat := 20.
Definition MAX_QUERY_ATTEMPTS : nat := 2.
Definition MAX_SHORTLIST_ENTRIES_PER_REFERRER : nat := 4.
Definition MAX_PINNED_EXTRA_CONTACTS : nat := 10.
Definition STALE_RESPONSES_TO_CONVERGE : Z := 5.
Definition MIN_RECORDS_PER_PAGE_TO_CONTINUE : nat := 2.
Definition MAX_PAGES_PER_NODE : nat := 25.
Definition MAX_PAGES_PER_NODE_EXHAUSTED : nat := 100.
Definition MIN_RESPONSES_TO_CONVERGE : nat := 10.
Definition KEYWORD_SETTLE_SECS : Z := 5.

(** ** The small types *)
Record ResponseOutcome := mkOutcome { accepted : bool; new_closer : bool }.
Definition REFUSED : ResponseOutcome := mkOutcome false false.

Inductive QueryFailure := TimedOut | NotSent | HandshakeNeverCompleted.
Inductive NodeState := Pending | InFlight | Responded | Failed.
(** Shadows the message constructors of the same names. *)
Inductive SearchType := FindNode | FindValue.

#[export] Instance QueryFailure_eq_dec : EqDecision QueryFailure.
Proof. solve_decision. Defined.
#[export] Instance NodeState_eq_dec : EqDecision NodeState.
Proof. solve_decision. Defined.
#[export] Instance SearchType_eq_dec : EqDecision SearchType.
Proof. solve_decision. Defined.

Record ShortlistEntry := mkEntry {
  e_contact : EmberContact;
  e_distance : EmberNodeId;
  e_state : NodeState;
  pinned : bool;
  referrer : option EmberNodeId;
}.
#[export] Instance ShortlistEntry_eq_dec : EqDecision ShortlistEntry.
Proof. solve_decision. Defined.
Definition with_state (e : ShortlistEntry) (st : NodeState) : ShortlistEntry :=
  mkEntry (e_contact e) (e_distance e) st (pinned e) (referrer e).
Definition with_pin (e : ShortlistEntry) : ShortlistEntry :=
  mkEntry (e_contact e) (e_distance e) (e_state e) true (referrer e).
Definition e_id (e : ShortlistEntry) : EmberNodeId := node_id (e_contact e).

Record ValuePage := mkPage { next_position : Z; total_available : Z }.
Record QueryTarget := mkTarget {
  t_contact : EmberContact;
  t_request_id : Z;
  t_start_position : Z;
  t_resume_after : ResumeAnchors;
  find_node : bool;
  narrow : bool;
}.
Record PendingQuery := mkPending {
  p_node : EmberNodeId;
  p_start_position : Z;
  p_resume_after : ResumeAnchors;
  p_backed : bool;
  p_referral : bool;
}.
#[export] Instance PendingQuery_eq_dec : EqDecision PendingQuery.
Proof. solve_decision. Defined.
Definition is_page (p : PendingQuery) : bool := Z.ltb 0 (p_start_position p).
Definition is_follow_up (p : PendingQuery) : bool := is_page p || p_referral p.
Record OwedPage := mkOwed {
  o_node : EmberNodeId;
  o_start : Z;
  o_resume_after : ResumeAnchors;
  o_backed : bool;
}.
#[export] Instance OwedPage_eq_dec : EqDecision OwedPage.
Proof. solve_decision. Defined.
Record SearchResultRecord := mkResult {
  r_data : bytes;
  from_node : EmberNodeId;
  confirmed_by : option EmberNodeId;
  r_from_subnet : option Z;
  confirmed_subnet : option Z;
  from_local_store : bool;
}.
Definition with_confirmation (r : SearchResultRecord) (node : EmberNodeId) (subnet : option Z) : SearchResultRecord :=
  mkResult (r_data r) (from_node r) (Some node) (r_from_subnet r) subnet (from_local_store r).

(** ** The walk *)
Record Walk := mkWalk {
  shortlist : list ShortlistEntry;
  queried : gset EmberNodeId;
  attempts : gmap EmberNodeId nat;
  pending_requests : gmap Z PendingQuery;
  next_request_id : Z;
  page_queue : list OwedPage;
  parked_pages : list OwedPage;
  page_turn_owed : bool;
  pages_queued : gmap EmberNodeId nat;
  page_attempts : gmap (EmberNodeId * Z) nat;
  stale_responses : Z;
  seed_round_done : bool;
  referral_queue : list EmberNodeId;
  referred : gset EmberNodeId;
  broad_nodes : gset EmberNodeId;
  complete : bool;
}.

(** Field updates. *)
Definition set_shortlist (w : Walk) (v : list ShortlistEntry) : Walk :=
  mkWalk v (queried w) (attempts w) (pending_requests w) (next_request_id w) (page_queue w) (parked_pages w)
    (page_turn_owed w) (pages_queued w) (page_attempts w) (stale_responses w) (seed_round_done w)
    (referral_queue w) (referred w) (broad_nodes w) (complete w).
Definition set_queried (w : Walk) (v : gset EmberNodeId) : Walk :=
  mkWalk (shortlist w) v (attempts w) (pending_requests w) (next_request_id w) (page_queue w)
    (parked_pages w) (page_turn_owed w) (pages_queued w) (page_attempts w) (stale_responses w)
    (seed_round_done w) (referral_queue w) (referred w) (broad_nodes w) (complete w).
Definition set_attempts (w : Walk) (v : gmap EmberNodeId nat) : Walk :=
  mkWalk (shortlist w) (queried w) v (pending_requests w) (next_request_id w) (page_queue w)
    (parked_pages w) (page_turn_owed w) (pages_queued w) (page_attempts w) (stale_responses w)
    (seed_round_done w) (referral_queue w) (referred w) (broad_nodes w) (complete w).
Definition set_pending_requests (w : Walk) (v : gmap Z PendingQuery) : Walk :=
  mkWalk (shortlist w) (queried w) (attempts w) v (next_request_id w) (page_queue w) (parked_pages w)
    (page_turn_owed w) (pages_queued w) (page_attempts w) (stale_responses w) (seed_round_done w)
    (referral_queue w) (referred w) (broad_nodes w) (complete w).
Definition set_next_request_id (w : Walk) (v : Z) : Walk :=
  mkWalk (shortlist w) (queried w) (attempts w) (pending_requests w) v (page_queue w) (parked_pages w)
    (page_turn_owed w) (pages_queued w) (page_attempts w) (stale_responses w) (seed_round_done w)
    (referral_queue w) (referred w) (broad_nodes w) (complete w).
Definition set_page_queue (w : Walk) (v : list OwedPage) : Walk :=
  mkWalk (shortlist w) (queried w) (attempts w) (pending_requests w) (next_request_id w) v (parked_pages w)
    (page_turn_owed w) (pages_queued w) (page_attempts w) (stale_responses w) (seed_round_done w)
    (referral_queue w) (referred w) (broad_nodes w) (complete w).
Definition set_parked_pages (w : Walk) (v : list OwedPage) : Walk :=
  mkWalk (shortlist w) (queried w) (attempts w) (pending_requests w) (next_request_id w) (page_queue w) v
    (page_turn_owed w) (pages_queued w) (page_attempts w) (stale_responses w) (seed_round_done w)
    (referral_queue w) (referred w) (broad_nodes w) (complete w).
Definition set_page_turn_owed (w : Walk) (v : bool) : Walk :=
  mkWalk (shortlist w) (queried w) (attempts w) (pending_requests w) (next_request_id w) (page_queue w)
    (parked_pages w) v (pages_queued w) (page_attempts w) (stale_responses w) (seed_round_done w)
    (referral_queue w) (referred w) (broad_nodes w) (complete w).
Definition set_pages_queued (w : Walk) (v : gmap EmberNodeId nat) : Walk :=
  mkWalk (shortlist w) (queried w) (attempts w) (pending_requests w) (next_request_id w) (page_queue w)
    (parked_pages w) (page_turn_owed w) v (page_attempts w) (stale_responses w) (seed_round_done w)
    (referral_queue w) (referred w) (broad_nodes w) (complete w).
Definition set_page_attempts (w : Walk) (v : gmap (EmberNodeId * Z) nat) : Walk :=
  mkWalk (shortlist w) (queried w) (attempts w) (pending_requests w) (next_request_id w) (page_queue w)
    (parked_pages w) (page_turn_owed w) (pages_queued w) v (stale_responses w) (seed_round_done w)
    (referral_queue w) (referred w) (broad_nodes w) (complete w).
Definition set_stale_responses (w : Walk) (v : Z) : Walk :=
  mkWalk (shortlist w) (queried w) (attempts w) (pending_requests w) (next_request_id w) (page_queue w)
    (parked_pages w) (page_turn_owed w) (pages_queued w) (page_attempts w) v (seed_round_done w)
    (referral_queue w) (referred w) (broad_nodes w) (complete w).
Definition set_seed_round_done (w : Walk) (v : bool) : Walk :=
  mkWalk (shortlist w) (queried w) (attempts w) (pending_requests w) (next_request_id w) (page_queue w)
    (parked_pages w) (page_turn_owed w) (pages_queued w) (page_attempts w) (stale_responses w) v
    (referral_queue w) (referred w) (broad_nodes w) (complete w).
Definition set_referral_queue (w : Walk) (v : list EmberNodeId) : Walk :=
  mkWalk (shortlist w) (queried w) (attempts w) (pending_requests w) (next_request_id w) (page_queue w)
    (parked_pages w) (page_turn_owed w) (pages_queued w) (page_attempts w) (stale_responses w)
    (seed_round_done w) v (referred w) (broad_nodes w) (complete w).
Definition set_referred (w : Walk) (v : gset EmberNodeId) : Walk :=
  mkWalk (shortlist w) (queried w) (attempts w) (pending_requests w) (next_request_id w) (page_queue w)
    (parked_pages w) (page_turn_owed w) (pages_queued w) (page_attempts w) (stale_responses w)
    (seed_round_done w) (referral_queue w) v (broad_nodes w) (complete w).
Definition set_broad_nodes (w : Walk) (v : gset EmberNodeId) : Walk :=
  mkWalk (shortlist w) (queried w) (attempts w) (pending_requests w) (next_request_id w) (page_queue w)
    (parked_pages w) (page_turn_owed w) (pages_queued w) (page_attempts w) (stale_responses w)
    (seed_round_done w) (referral_queue w) (referred w) v (complete w).
Definition set_complete (w : Walk) (v : bool) : Walk :=
  mkWalk (shortlist w) (queried w) (attempts w) (pending_requests w) (next_request_id w) (page_queue w)
    (parked_pages w) (page_turn_owed w) (pages_queued w) (page_attempts w) (stale_responses w)
    (seed_round_done w) (referral_queue w) (referred w) (broad_nodes w) v.

(** ** What was gathered *)
Record Gathered := mkGathered {
  results : list SearchResultRecord;
  seen_results : gset bytes;
  result_slots : gmap bytes nat;
  publishers_taken : gmap (EmberNodeId * bytes * bytes) nat;
  turned_away : gmap bytes (EmberNodeId * option Z);
  confirmations_taken : gmap (EmberNodeId * bytes * bytes) nat;
  responder_subnets : gmap EmberNodeId Z;
  sole_held : list (bytes * bytes);
  contributors : gset EmberNodeId;
  local_node : option EmberNodeId;
  held_delivered : gmap EmberNodeId nat;
  offered_results : gmap EmberNodeId nat;
  delivered_results : gmap EmberNodeId nat;
  seeded_count : nat;
  budget_spent : gset bytes;
  absorbed_count : nat;
  last_new_record : Z;
  absorbed_nodes : nat;
}.

(** Field updates. *)
Definition set_results (g : Gathered) (v : list SearchResultRecord) : Gathered :=
  mkGathered v (seen_results g) (result_slots g) (publishers_taken g) (turned_away g)
    (confirmations_taken g) (responder_subnets g) (sole_held g) (contributors g) (local_node g)
    (held_delivered g) (offered_results g) (delivered_results g) (seeded_count g) (budget_spent g)
    (absorbed_count g) (last_new_record g) (absorbed_nodes g).
Definition set_seen_results (g : Gathered) (v : gset bytes) : Gathered :=
  mkGathered (results g) v (result_slots g) (publishers_taken g) (turned_away g) (confirmations_taken g)
    (responder_subnets g) (sole_held g) (contributors g) (local_node g) (held_delivered g)
    (offered_results g) (delivered_results g) (seeded_count g) (budget_spent g) (absorbed_count g)
    (last_new_record g) (absorbed_nodes g).
Definition set_result_slots (g : Gathered) (v : gmap bytes nat) : Gathered :=
  mkGathered (results g) (seen_results g) v (publishers_taken g) (turned_away g) (confirmations_taken g)
    (responder_subnets g) (sole_held g) (contributors g) (local_node g) (held_delivered g)
    (offered_results g) (delivered_results g) (seeded_count g) (budget_spent g) (absorbed_count g)
    (last_new_record g) (absorbed_nodes g).
Definition set_publishers_taken (g : Gathered) (v : gmap (EmberNodeId * bytes * bytes) nat) : Gathered :=
  mkGathered (results g) (seen_results g) (result_slots g) v (turned_away g) (confirmations_taken g)
    (responder_subnets g) (sole_held g) (contributors g) (local_node g) (held_delivered g)
    (offered_results g) (delivered_results g) (seeded_count g) (budget_spent g) (absorbed_count g)
    (last_new_record g) (absorbed_nodes g).
Definition set_turned_away (g : Gathered) (v : gmap bytes (EmberNodeId * option Z)) : Gathered :=
  mkGathered (results g) (seen_results g) (result_slots g) (publishers_taken g) v (confirmations_taken g)
    (responder_subnets g) (sole_held g) (contributors g) (local_node g) (held_delivered g)
    (offered_results g) (delivered_results g) (seeded_count g) (budget_spent g) (absorbed_count g)
    (last_new_record g) (absorbed_nodes g).
Definition set_confirmations_taken (g : Gathered) (v : gmap (EmberNodeId * bytes * bytes) nat) : Gathered :=
  mkGathered (results g) (seen_results g) (result_slots g) (publishers_taken g) (turned_away g) v
    (responder_subnets g) (sole_held g) (contributors g) (local_node g) (held_delivered g)
    (offered_results g) (delivered_results g) (seeded_count g) (budget_spent g) (absorbed_count g)
    (last_new_record g) (absorbed_nodes g).
Definition set_responder_subnets (g : Gathered) (v : gmap EmberNodeId Z) : Gathered :=
  mkGathered (results g) (seen_results g) (result_slots g) (publishers_taken g) (turned_away g)
    (confirmations_taken g) v (sole_held g) (contributors g) (local_node g) (held_delivered g)
    (offered_results g) (delivered_results g) (seeded_count g) (budget_spent g) (absorbed_count g)
    (last_new_record g) (absorbed_nodes g).
Definition set_sole_held (g : Gathered) (v : list (bytes * bytes)) : Gathered :=
  mkGathered (results g) (seen_results g) (result_slots g) (publishers_taken g) (turned_away g)
    (confirmations_taken g) (responder_subnets g) v (contributors g) (local_node g) (held_delivered g)
    (offered_results g) (delivered_results g) (seeded_count g) (budget_spent g) (absorbed_count g)
    (last_new_record g) (absorbed_nodes g).
Definition set_contributors (g : Gathered) (v : gset EmberNodeId) : Gathered :=
  mkGathered (results g) (seen_results g) (result_slots g) (publishers_taken g) (turned_away g)
    (confirmations_taken g) (responder_subnets g) (sole_held g) v (local_node g) (held_delivered g)
    (offered_results g) (delivered_results g) (seeded_count g) (budget_spent g) (absorbed_count g)
    (last_new_record g) (absorbed_nodes g).
Definition set_local_node (g : Gathered) (v : option EmberNodeId) : Gathered :=
  mkGathered (results g) (seen_results g) (result_slots g) (publishers_taken g) (turned_away g)
    (confirmations_taken g) (responder_subnets g) (sole_held g) (contributors g) v (held_delivered g)
    (offered_results g) (delivered_results g) (seeded_count g) (budget_spent g) (absorbed_count g)
    (last_new_record g) (absorbed_nodes g).
Definition set_held_delivered (g : Gathered) (v : gmap EmberNodeId nat) : Gathered :=
  mkGathered (results g) (seen_results g) (result_slots g) (publishers_taken g) (turned_away g)
    (confirmations_taken g) (responder_subnets g) (sole_held g) (contributors g) (local_node g) v
    (offered_results g) (delivered_results g) (seeded_count g) (budget_spent g) (absorbed_count g)
    (last_new_record g) (absorbed_nodes g).
Definition set_offered_results (g : Gathered) (v : gmap EmberNodeId nat) : Gathered :=
  mkGathered (results g) (seen_results g) (result_slots g) (publishers_taken g) (turned_away g)
    (confirmations_taken g) (responder_subnets g) (sole_held g) (contributors g) (local_node g)
    (held_delivered g) v (delivered_results g) (seeded_count g) (budget_spent g) (absorbed_count g)
    (last_new_record g) (absorbed_nodes g).
Definition set_delivered_results (g : Gathered) (v : gmap EmberNodeId nat) : Gathered :=
  mkGathered (results g) (seen_results g) (result_slots g) (publishers_taken g) (turned_away g)
    (confirmations_taken g) (responder_subnets g) (sole_held g) (contributors g) (local_node g)
    (held_delivered g) (offered_results g) v (seeded_count g) (budget_spent g) (absorbed_count g)
    (last_new_record g) (absorbed_nodes g).
Definition set_seeded_count (g : Gathered) (v : nat) : Gathered :=
  mkGathered (results g) (seen_results g) (result_slots g) (publishers_taken g) (turned_away g)
    (confirmations_taken g) (responder_subnets g) (sole_held g) (contributors g) (local_node g)
    (held_delivered g) (offered_results g) (delivered_results g) v (budget_spent g) (absorbed_count g)
    (last_new_record g) (absorbed_nodes g).
Definition set_budget_spent (g : Gathered) (v : gset bytes) : Gathered :=
  mkGathered (results g) (seen_results g) (result_slots g) (publishers_taken g) (turned_away g)
    (confirmations_taken g) (responder_subnets g) (sole_held g) (contributors g) (local_node g)
    (held_delivered g) (offered_results g) (delivered_results g) (seeded_count g) v (absorbed_count g)
    (last_new_record g) (absorbed_nodes g).
Definition set_absorbed_count (g : Gathered) (v : nat) : Gathered :=
  mkGathered (results g) (seen_results g) (result_slots g) (publishers_taken g) (turned_away g)
    (confirmations_taken g) (responder_subnets g) (sole_held g) (contributors g) (local_node g)
    (held_delivered g) (offered_results g) (delivered_results g) (seeded_count g) (budget_spent g) v
    (last_new_record g) (absorbed_nodes g).
Definition set_last_new_record (g : Gathered) (v : Z) : Gathered :=
  mkGathered (results g) (seen_results g) (result_slots g) (publishers_taken g) (turned_away g)
    (confirmations_taken g) (responder_subnets g) (sole_held g) (contributors g) (local_node g)
    (held_delivered g) (offered_results g) (delivered_results g) (seeded_count g) (budget_spent g)
    (absorbed_count g) v (absorbed_nodes g).
Definition set_absorbed_nodes (g : Gathered) (v : nat) : Gathered :=
  mkGathered (results g) (seen_results g) (result_slots g) (publishers_taken g) (turned_away g)
    (confirmations_taken g) (responder_subnets g) (sole_held g) (contributors g) (local_node g)
    (held_delivered g) (offered_results g) (delivered_results g) (seeded_count g) (budget_spent g)
    (absorbed_count g) (last_new_record g) v.

(** ** A search *)
Record IterativeSearch := mkSearch {
  s_id : Z;
  search_type : SearchType;
  target : EmberNodeId;
  keyword_hashes : list bytes;
  value_constraints : ValueConstraints;
  keyword_lookup : bool;
  started_at : Z;
  walk : Walk;
  got : Gathered;
}.
Definition with_walk (s : IterativeSearch) (w : Walk) : IterativeSearch :=
  mkSearch (s_id s) (search_type s) (target s) (keyword_hashes s) (value_constraints s) (keyword_lookup s)
    (started_at s) w (got s).
Definition with_got (s : IterativeSearch) (g : Gathered) : IterativeSearch :=
  mkSearch (s_id s) (search_type s) (target s) (keyword_hashes s) (value_constraints s) (keyword_lookup s)
    (started_at s) (walk s) g.
Definition mark_keyword_lookup (s : IterativeSearch) : IterativeSearch :=
  mkSearch (s_id s) (search_type s) (target s) (keyword_hashes s) (value_constraints s) true
    (started_at s) (walk s) (got s).
Definition set_value_constraints (s : IterativeSearch) (c : ValueConstraints) : IterativeSearch :=
  mkSearch (s_id s) (search_type s) (target s) (keyword_hashes s) c (keyword_lookup s)
    (started_at s) (walk s) (got s).
