(* ===== verification/Search.v ===== *)
(** * The iterative search

    [IterativeSearch] of [network/ember/dht/search.rs], operation by operation.
    [now] is [Instant::now()], [now_unix] the wall clock in seconds. *)
From S2P Require Import Prelude NodeId Addr Contact Record Wire Crypto Messages SearchState.

(** [t.elapsed().as_secs()] at [now]. *)
Definition elapsed_secs (now t : Z) : Z := (Z.max 0 (now - t) / 1000000000)%Z.

(** [map.values().any(f)] and [map.values().filter(f).count()]. *)
Definition pending_any (f : PendingQuery → bool) (m : gmap Z PendingQuery) : bool :=
  existsb (λ kp, f kp.2) (map_to_list m).
Definition pending_count (f : PendingQuery → bool) (m : gmap Z PendingQuery) : nat :=
  count_if (λ kp, f kp.2) (map_to_list m).

(** [shortlist.sort_by_key(|a| a.distance.0)]. *)
Definition sort_shortlist (l : list ShortlistEntry) : list ShortlistEntry :=
  stable_sort (λ a b, bytes_le (e_distance a) (e_distance b)) l.

(** The first entry with this id changed, as the [for .. break] loops do. *)
Fixpoint update_entry (id : EmberNodeId) (f : ShortlistEntry → ShortlistEntry) (l : list ShortlistEntry)
    : list ShortlistEntry :=
  match l with
  | [] => []
  | e :: l => if bool_decide (e_id e = id) then f e :: l else e :: update_entry id f l
  end.
Definition find_entry (id : EmberNodeId) (l : list ShortlistEntry) : option ShortlistEntry :=
  head (retain (λ e, bool_decide (e_id e = id)) l).
Definition in_state (st : NodeState) (e : ShortlistEntry) : bool := bool_decide (e_state e = st).

Section search.
Context `{Crypto : Ed25519Blake3}.

(** ** Records *)
Definition CHANNEL_TRAILER_MIN_LEN : nat := 3.
Definition channel_trailer_len (data : bytes) (name_len : nat) : option nat :=
  let off := 115 + name_len in
  if decide (length data < off + CHANNEL_TRAILER_MIN_LEN) then None
  else
    extra ← slice (off + 1) (off + 3) data;
    Some (CHANNEL_TRAILER_MIN_LEN + Z.to_nat (le_value extra)).

Definition value_blob_is_current (blob : bytes) (now_unix : Z) : bool :=
  bool_decide (64 ≤ length blob) && record_is_current (take (length blob - 64) blob) now_unix.

Definition value_blob_is_authentic (blob : bytes) : bool :=
  if decide (length blob < 115 + 64) then false
  else
    let data := take (length blob - 64) blob in
    let signature := drop (length blob - 64) blob in
    match slice 113 115 data, slice 73 105 data with
    | Some name, Some publisher_key =>
        let name_len := Z.to_nat (le_value name) in
        if decide (length data < 115 + name_len) then false
        else if has_type RECORD_TYPE_SOURCE data && bool_decide (length data < 115 + name_len + SOURCE_CONTACT_WIRE_LEN)
        then false
        else if (has_type RECORD_TYPE_CHANNEL data || has_type RECORD_TYPE_FEED data
                 || has_type RECORD_TYPE_FEED_LISTING data)
                && negb (match channel_trailer_len data name_len with
                         | Some n => bool_decide (length data = 115 + name_len + n)
                         | None => false
                         end)
        then false
        else match verifying_key_from_bytes publisher_key with
        | Some pk => verify pk data signature
        | None => false
        end
    | _, _ => false
    end.

(** [publish::file_hash_from_record_data] and [ember_digest_from_record_data]. *)
Definition record_file_hash (data : bytes) : option bytes := slice 17 33 data.
Definition record_digest (data : bytes) : option bytes := slice 33 65 data.

Definition budget_identity (data blob_digest : bytes) : bytes :=
  match (if has_type RECORD_TYPE_KEYWORD data then record_file_hash data else None) with
  | Some file_hash => file_hash
  | None => take 16 blob_digest
  end.
Definition publisher_share (data : bytes) : option (bytes * bytes) :=
  if negb (has_type RECORD_TYPE_KEYWORD data) then None
  else file ← record_file_hash data; digest ← record_digest data; Some (file, digest).

(** The anchors of the page after one asked to begin at [asked_start]. *)
Fixpoint push_anchors (blobs : list bytes) (anchors : ResumeAnchors) : ResumeAnchors :=
  match blobs with
  | [] => anchors
  | blob :: blobs =>
      if decide (length blob < 64) then anchors
      else match record_anchor (take (length blob - 64) blob) with
      | Some anchor => push_anchors blobs (anchor_push anchors anchor)
      | None => anchors
      end
  end.
Definition page_resume_anchors (blobs : list bytes) (asked_start next_position : Z) : ResumeAnchors :=
  let span := (next_position - asked_start)%Z in
  if Z.ltb span 1 then []
  else
    let ended_on := Z.to_nat (span - 1) in
    if decide (ended_on < length blobs)
    then push_anchors (take MAX_RESUME_ANCHORS (reverse (take (S ended_on) blobs))) []
    else [].

(** ** Starting *)
Definition new_entry (tgt : EmberNodeId) (pin : bool) (ref : option EmberNodeId) (c : EmberContact)
    : ShortlistEntry :=
  mkEntry c (distance tgt (node_id c)) Pending pin ref.
Definition Walk_new (l : list ShortlistEntry) : Walk :=
  mkWalk l ∅ ∅ ∅ 1 [] [] false ∅ ∅ 0 false [] ∅ ∅ false.
Definition Gathered_new (now : Z) : Gathered :=
  mkGathered [] ∅ ∅ ∅ ∅ ∅ ∅ [] ∅ None ∅ ∅ ∅ 0 ∅ 0 now 0.
Definition IterativeSearch_new (now id : Z) (ty : SearchType) (tgt : EmberNodeId) (hashes : list bytes)
    (initial : list EmberContact) : IterativeSearch :=
  let l := sort_shortlist (new_entry tgt false None <$> retain is_dialable initial) in
  mkSearch id ty tgt hashes ValueConstraints_default false now (Walk_new (take K_BUCKET_SIZE l)) (Gathered_new now).

(** ** What was gathered *)
Definition remote_blobs (g : Gathered) : nat := length (results g) - seeded_count g - absorbed_count g.
Definition value_budget_full (g : Gathered) : bool :=
  bool_decide (MAX_SEARCH_RESULTS ≤ size (budget_spent g)) || bool_decide (MAX_SEARCH_RESULT_BLOBS ≤ remote_blobs g).

Definition push_result (g : Gathered) (digest : bytes) (r : SearchResultRecord) : Gathered :=
  let g := set_result_slots g (<[digest := length (results g)]> (result_slots g)) in
  set_results g (results g ++ [r]).

Definition absorb_one (g : Gathered) (r : SearchResultRecord) : Gathered :=
  let digest := blake3_hash (r_data r) in
  if decide (digest ∈ seen_results g) then g
  else
    let g := set_seen_results g ({[digest]} ∪ seen_results g) in
    let g := push_result g digest r in
    set_absorbed_count g (S (absorbed_count g)).
Definition absorb_results (s : IterativeSearch) (records : list SearchResultRecord) : IterativeSearch :=
  with_got s (foldl absorb_one (got s) records).

Definition note_contributor (g : Gathered) (node : EmberNodeId) : Gathered :=
  if bool_decide (local_node g = Some node) then g
  else if decide (node ∈ contributors g) then g
  else set_sole_held (set_contributors g ({[node]} ∪ contributors g)) [].

Definition node_subnet (s : IterativeSearch) (node : EmberNodeId) : option Z :=
  if bool_decide (local_node (got s) = Some node) then None
  else match responder_subnets (got s) !! node with
  | Some subnet => Some subnet
  | None => (λ e, subnet_key (e_contact e)) <$> find_entry node (shortlist (walk s))
  end.

Definition holds_sole_word (g : Gathered) (node : EmberNodeId) : bool :=
  if bool_decide (local_node g = Some node) then bool_decide (contributors g = ∅)
  else bool_decide (seeded_count g = 0) && bool_decide (size (contributors g) = 1)
       && bool_decide (node ∈ contributors g).

Definition hold_turned_away (s : IterativeSearch) (node : EmberNodeId) (digest data : bytes) : IterativeSearch :=
  let s := with_got s (note_contributor (got s) node) in
  let subnet := node_subnet s node in
  let g := got s in
  let g := set_turned_away g (<[digest := (node, subnet)]> (turned_away g)) in
  let g := set_held_delivered g (incr node (held_delivered g)) in
  with_got s (if holds_sole_word g node then set_sole_held g (sole_held g ++ [(digest, data)]) else g).

(** The held records taken, until the budget is full. *)
Fixpoint take_held (s : IterativeSearch) (node : EmberNodeId) (held : list (bytes * bytes)) : IterativeSearch :=
  match held with
  | [] => s
  | (digest, data) :: held =>
      let g := got s in
      let seeded := bool_decide (local_node g = Some node) in
      let full := if seeded then bool_decide (MAX_LOCAL_SEED_RESULTS ≤ seeded_count g) else value_budget_full g in
      if full then s
      else match turned_away g !! digest with
      | None => take_held s node held
      | Some _ =>
          let g := set_turned_away g (delete digest (turned_away g)) in
          if decide (digest ∈ seen_results g) then take_held (with_got s g) node held
          else
            let g := set_seen_results g ({[digest]} ∪ seen_results g) in
            let g := if seeded then set_seeded_count g (S (seeded_count g))
                     else set_budget_spent g ({[budget_identity data digest]} ∪ budget_spent g) in
            let g := push_result g digest (mkResult data node None (node_subnet (with_got s g) node) None seeded) in
            take_held (with_got s g) node held
      end
  end.
Definition take_sole_contributors_held (s : IterativeSearch) : IterativeSearch :=
  let g := got s in
  if negb (bool_decide (search_type s = FindValue)) || bool_decide (sole_held g = []) then s
  else
    let node := match elements (contributors g) with
      | [] => local_node g
      | [only] => Some only
      | _ => None
      end in
    match node with
    | None => s
    | Some node =>
        if holds_sole_word g node then take_held (with_got s (set_sole_held g [])) node (sole_held g)
        else with_got s (set_sole_held g [])
    end.

(** ** What the walk still has to do *)
Definition pages_in_flight (w : Walk) : nat := pending_count is_page (pending_requests w).
Definition referrals_in_flight (w : Walk) : nat := pending_count p_referral (pending_requests w).

Definition unasked (w : Walk) (e : ShortlistEntry) : bool :=
  in_state Pending e && negb (bool_decide (e_id e ∈ queried w)).
Definition can_still_descend (w : Walk) : bool :=
  negb (bool_decide (referral_queue w = [])) || bool_decide (0 < referrals_in_flight w)
  || existsb (λ e, in_state InFlight e || unasked w e) (shortlist w).
Definition pages_owed_elsewhere (w : Walk) (node : EmberNodeId) : bool :=
  existsb (λ p, o_backed p && negb (bool_decide (o_node p = node))) (page_queue w)
  || pending_any (λ p, is_page p && p_backed p && negb (bool_decide (p_node p = node))) (pending_requests w).
Definition share_binds (w : Walk) (node : EmberNodeId) : bool :=
  can_still_descend w || pages_owed_elsewhere w node.

Definition offers_mostly_admissible (g : Gathered) (node : EmberNodeId) : bool :=
  let offered := count_at node (offered_results g) in
  let admissible := count_at node (delivered_results g)
    + (if holds_sole_word g node then count_at node (held_delivered g) else 0) in
  bool_decide (offered ≤ admissible * 2).
Definition per_node_result_allowance (s : IterativeSearch) (node : EmberNodeId) : nat :=
  if share_binds (walk s) node || negb (offers_mostly_admissible (got s) node)
  then MAX_RESULTS_PER_NODE else MAX_SEARCH_RESULTS.
Definition per_node_page_allowance (s : IterativeSearch) (node : EmberNodeId) : nat :=
  if share_binds (walk s) node then MAX_PAGES_PER_NODE
  else
    let queued := count_at node (pages_queued (walk s)) in
    if decide (queued < MAX_PAGES_PER_NODE) then MAX_PAGES_PER_NODE
    else
      let served := queued + 1 in
      let delivered := count_at node (delivered_results (got s))
        + (if holds_sole_word (got s) node then count_at node (held_delivered (got s)) else 0) in
      if decide (served * MIN_RECORDS_PER_PAGE_TO_CONTINUE ≤ delivered)
      then MAX_PAGES_PER_NODE_EXHAUSTED else MAX_PAGES_PER_NODE.

(** The k closest entries that can still answer. *)
Definition live_near (l : list ShortlistEntry) : list ShortlistEntry :=
  take K_BUCKET_SIZE (retain (λ e, negb (in_state Failed e)) l).
Definition maybe_queue_referral (s : IterativeSearch) (node : EmberNodeId) : IterativeSearch :=
  let w := walk s in
  if negb (bool_decide (search_type s = FindValue)) || bool_decide (node ∈ referred w) then s
  else if existsb (λ e, bool_decide (e_id e = node)) (live_near (shortlist w)) then
    with_walk s (set_referral_queue (set_referred w ({[node]} ∪ referred w)) (referral_queue w ++ [node]))
  else s.

(** ** Pages *)
Definition park_page (w : Walk) (node : EmberNodeId) (start : Z) (resume : ResumeAnchors) : Walk :=
  if existsb (λ p, bool_decide (o_node p = node)) (parked_pages w) then w
  else set_parked_pages w (parked_pages w ++ [mkOwed node start resume false]).

Definition queue_next_page (s : IterativeSearch) (node : EmberNodeId) (asked_start : Z) (asked_resume : ResumeAnchors)
    (page : ValuePage) (next_resume : ResumeAnchors) (cut_short backed : bool) : IterativeSearch :=
  if negb (bool_decide (search_type s = FindValue)) then s
  else if Z.leb (total_available page) (next_position page) then s
  else if Z.leb (next_position page) asked_start then s
  else if value_budget_full (got s) then s
  else
    let w := walk s in
    let '(start, resume) :=
      if cut_short && Z.ltb 0 asked_start then (asked_start, asked_resume)
      else (next_position page, next_resume) in
    let offered := count_at node (offered_results (got s)) in
    if decide (per_node_result_allowance s node ≤ offered) then
      if share_binds w node && bool_decide (offered < MAX_SEARCH_RESULTS)
      then with_walk s (park_page w node start resume) else s
    else
      let queued := count_at node (pages_queued w) in
      if decide (per_node_page_allowance s node ≤ queued) then
        if share_binds w node && bool_decide (queued < MAX_PAGES_PER_NODE_EXHAUSTED)
        then with_walk s (park_page w node start resume) else s
      else
        with_walk s (set_page_queue (set_pages_queued w (incr node (pages_queued w)))
                       (page_queue w ++ [mkOwed node (next_position page) next_resume backed])).

(** The [while let] over the parked pages; the list is what is left of them. *)
Fixpoint release_from (s : IterativeSearch) (parked : list OwedPage) : IterativeSearch :=
  match parked with
  | [] => with_walk s (set_parked_pages (walk s) [])
  | p :: parked =>
      let node := o_node p in
      let s' := with_walk s (set_parked_pages (walk s) parked) in
      if decide (per_node_result_allowance s' node ≤ count_at node (offered_results (got s))) then release_from s parked
      else if decide (per_node_page_allowance s' node ≤ count_at node (pages_queued (walk s))) then release_from s parked
      else
        let w := walk s' in
        let w := set_pages_queued w (incr node (pages_queued w)) in
        let w := set_page_attempts w (delete (node, o_start p) (page_attempts w)) in
        let backed := bool_decide (0 < count_at node (delivered_results (got s))) in
        with_walk s (set_page_queue w (page_queue w ++ [mkOwed node (o_start p) (o_resume_after p) backed]))
  end.
Definition release_parked_page (s : IterativeSearch) : IterativeSearch :=
  let w := walk s in
  if negb (bool_decide (search_type s = FindValue)) || complete w || bool_decide (parked_pages w = []) then s
  else if value_budget_full (got s) then with_walk s (set_parked_pages w [])
  else
    let backed_page_owed := existsb o_backed (page_queue w)
      || pending_any (λ p, is_page p && p_backed p) (pending_requests w) in
    if can_still_descend w || backed_page_owed then s
    else release_from s (parked_pages w).

(** ** The next batch of queries *)
Definition wrap_u32 (v : Z) : Z := (v mod 4294967296)%Z.
Definition take_request_id (w : Walk) : Z * Walk :=
  (next_request_id w, set_next_request_id w (wrap_u32 (next_request_id w + 1))).

(** The pages: pops [queue] until [budget] queries are in the batch; the pages
    whose node the shortlist no longer holds go to [skipped].  What is left of
    the queue is returned. *)
Fixpoint send_pages (budget : nat) (queue : list OwedPage) (w : Walk) (batch : list QueryTarget)
    (skipped : list OwedPage) : Walk * list QueryTarget * list OwedPage :=
  match queue with
  | [] => (w, batch, skipped)
  | owed :: rest =>
      if decide (budget ≤ length batch) then (w, batch, queue ++ skipped)
      else match find_entry (o_node owed) (shortlist w) with
      | None => send_pages budget rest w batch (skipped ++ [owed])
      | Some e =>
          let '(req, w) := take_request_id w in
          let w := set_page_attempts w (incr (o_node owed, o_start owed) (page_attempts w)) in
          let w := set_pending_requests w
            (<[req := mkPending (o_node owed) (o_start owed) (o_resume_after owed) (o_backed owed) false]>
               (pending_requests w)) in
          let t := mkTarget (e_contact e) req (o_start owed) (o_resume_after owed) false
                     (negb (bool_decide (o_node owed ∈ broad_nodes w))) in
          send_pages budget rest w (batch ++ [t]) skipped
      end
  end.

(** The referrals: pops [queue] until the batch is full; a node no longer on the
    shortlist as [Responded] is passed over. *)
Fixpoint send_referrals (can_send : nat) (queue : list EmberNodeId) (w : Walk) (batch : list QueryTarget)
    : Walk * list QueryTarget * list EmberNodeId :=
  match queue with
  | [] => (w, batch, [])
  | node :: rest =>
      if decide (can_send ≤ length batch) then (w, batch, queue)
      else match head (retain (λ e, bool_decide (e_id e = node) && in_state Responded e) (shortlist w)) with
      | None => send_referrals can_send rest w batch
      | Some e =>
          let '(req, w) := take_request_id w in
          let w := set_pending_requests w (<[req := mkPending node 0 [] false true]> (pending_requests w)) in
          send_referrals can_send rest w (batch ++ [mkTarget (e_contact e) req 0 [] true false])
      end
  end.

(** One pass over the shortlist: the entries of class [prefer] that were never
    asked.  [class] is off after the opening batch. *)
Definition seed_class (e : ShortlistEntry) : nat :=
  if pinned e then 0 else if is_verified (e_contact e) then 1 else 2.
Definition dispatch (ty : SearchType) (near : gset EmberNodeId) (w : Walk) (e : ShortlistEntry) : Walk * QueryTarget :=
  let id := e_id e in
  let w := set_queried w ({[id]} ∪ queried w) in
  let w := set_attempts w (incr id (attempts w)) in
  let narrow := pinned e || bool_decide (id ∈ near) in
  let w := if narrow then set_broad_nodes w (broad_nodes w ∖ {[id]})
           else if bool_decide (ty = FindValue) then set_broad_nodes w ({[id]} ∪ broad_nodes w) else w in
  let '(req, w) := take_request_id w in
  let w := set_pending_requests w (<[req := mkPending id 0 [] false false]> (pending_requests w)) in
  (w, mkTarget (e_contact e) req 0 [] false narrow).
Fixpoint dispatch_pass (ty : SearchType) (near : gset EmberNodeId) (can_send : nat) (class : option nat)
    (w : Walk) (l : list ShortlistEntry) (batch : list QueryTarget) : Walk * list ShortlistEntry * list QueryTarget :=
  match l with
  | [] => (w, [], batch)
  | e :: rest =>
      if decide (can_send ≤ length batch) then (w, l, batch)
      else if (match class with Some c => bool_decide (seed_class e = c) | None => true end) && unasked w e then
        let '(w, t) := dispatch ty near w e in
        let '(w, rest, batch) := dispatch_pass ty near can_send class w rest (batch ++ [t]) in
        (w, with_state e InFlight :: rest, batch)
      else
        let '(w, rest, batch) := dispatch_pass ty near can_send class w rest batch in
        (w, e :: rest, batch)
  end.
Fixpoint dispatch_passes (ty : SearchType) (near : gset EmberNodeId) (can_send : nat) (classes : list (option nat))
    (w : Walk) (batch : list QueryTarget) : Walk * list QueryTarget :=
  match classes with
  | [] => (w, batch)
  | class :: classes =>
      let '(w, l, batch) := dispatch_pass ty near can_send class w (shortlist w) batch in
      let w := set_shortlist w l in
      if decide (can_send ≤ length batch) then (w, batch)
      else dispatch_passes ty near can_send classes w batch
  end.

Definition in_flight (w : Walk) : nat :=
  count_if (in_state InFlight) (shortlist w) + pages_in_flight w + referrals_in_flight w.
(** The page half of a batch. *)
Definition page_budget (w : Walk) (can_send : nat) : nat :=
  let has_descent := negb (bool_decide (referral_queue w = [])) || existsb (unasked w) (shortlist w) in
  let budget := if has_descent then can_send / 2 else can_send in
  if bool_decide (budget = 0) && page_turn_owed w then 1 else budget.
Definition send_page_share (w : Walk) (can_send : nat) : Walk * list QueryTarget :=
  let '(w', batch, queue) := send_pages (page_budget w can_send) (page_queue w) w [] [] in
  let w' := set_page_queue w' queue in
  (if bool_decide (0 < length batch) then set_page_turn_owed w' false else w', batch).
(** The descent half: the referrals, then the shortlist. *)
Definition send_descent (ty : SearchType) (w : Walk) (can_send : nat) (pages : list QueryTarget)
    : Walk * list QueryTarget :=
  let page_waiting := negb (bool_decide (page_queue w = [])) in
  let '(w, batch, referrals) := send_referrals can_send (referral_queue w) w pages in
  let w := set_referral_queue w referrals in
  let classes := if seed_round_done w then [None] else [Some 0; Some 1; Some 2] in
  let near : gset EmberNodeId :=
    if bool_decide (ty = FindValue) then list_to_set (e_id <$> live_near (shortlist w)) else ∅ in
  let '(w, batch) := dispatch_passes ty near can_send classes w batch in
  (if bool_decide (length pages < length batch) then
     let w := set_seed_round_done w true in
     if page_waiting then set_page_turn_owed w true else w
   else w, batch).
Definition next_to_query (s : IterativeSearch) : IterativeSearch * list QueryTarget :=
  if complete (walk s) then (s, [])
  else
    let can_send := ALPHA - in_flight (walk s) in
    if decide (can_send = 0) then (s, [])
    else
      let s := release_parked_page s in
      let '(w, batch) := send_page_share (walk s) can_send in
      if decide (can_send ≤ length batch) then (with_walk s w, batch)
      else
        let '(w, batch) := send_descent (search_type s) w can_send batch in
        (with_walk s w, batch).

(** ** Session peers *)
Fixpoint pin_contacts (tgt : EmberNodeId) (asked : gset EmberNodeId) (contacts : list EmberContact)
    (l : list ShortlistEntry) (added : nat) : list ShortlistEntry * nat :=
  match contacts with
  | [] => (l, added)
  | c :: contacts =>
      if decide (MAX_PINNED_EXTRA_CONTACTS ≤ added) then (l, added)
      else if negb (is_dialable c) || bool_decide (node_id c = tgt) then pin_contacts tgt asked contacts l added
      else match find_entry (node_id c) l with
      | Some _ => pin_contacts tgt asked contacts (update_entry (node_id c) with_pin l) added
      | None =>
          if decide (node_id c ∈ asked) then pin_contacts tgt asked contacts l added
          else pin_contacts tgt asked contacts (l ++ [new_entry tgt true None c]) (S added)
      end
  end.
Definition seed_extra_contacts (s : IterativeSearch) (contacts : list EmberContact) : IterativeSearch * nat :=
  let ranked := stable_sort (λ a b, Z.leb (last_seen b) (last_seen a)) contacts in
  let '(l, added) := pin_contacts (target s) (queried (walk s)) ranked (shortlist (walk s)) 0 in
  (with_walk s (set_shortlist (walk s) (sort_shortlist l)), added).

(** ** One offered record *)

(** What the loop over a reply's records carries: the search, whether the
    allowance cut it short, the records delivered and those for our key. *)
Record Offer := mkOffer { of_search : IterativeSearch; cut_short : bool; delivered_now : nat; carried : nat }.

Definition subnets_differ (a b : option Z) : bool :=
  match a, b with Some a, Some b => negb (Z.eqb a b) | _, _ => false end.
(** The blob is for this search at all. *)
Definition blob_for_us (s : IterativeSearch) (data : bytes) : bool :=
  if bool_decide (search_type s = FindValue) then
    negb (bool_decide (length data < 17 + 64))
    && bool_decide (slice 1 17 data = Some (target s))
    && negb (keyword_lookup s && negb (has_type RECORD_TYPE_KEYWORD data))
  else true.

(** A blob already held: a second node's copy confirms it. *)
Definition note_repeat (s : IterativeSearch) (from : EmberNodeId) (from_subnet : option Z) (digest : bytes)
    : IterativeSearch :=
  let g := got s in
  match result_slots g !! digest with
  | None => s
  | Some slot =>
      match results g !! slot with
      | None => s
      | Some held =>
          let first := from_node held in
          let independent := bool_decide (local_node g = Some first)
            || subnets_differ (node_subnet s first) from_subnet in
          let g :=
            if independent && negb (bool_decide (first = from)) && bool_decide (confirmed_by held = None)
            then set_results g (<[slot := with_confirmation held from from_subnet]> (results g)) else g in
          with_got s (note_contributor g from)
      end
  end.

Definition confirmations_left (g : Gathered) (from : EmberNodeId) (data : bytes) : bool :=
  match publisher_share data with
  | None => true
  | Some (file, digest) =>
      bool_decide (count_at (from, file, digest) (confirmations_taken g) < MAX_CONFIRMED_PER_FILE_PER_NODE)
  end.
Definition over_publisher_share (g : Gathered) (from : EmberNodeId) (share : option (bytes * bytes)) : bool :=
  match share with
  | None => false
  | Some (file, digest) =>
      bool_decide (MAX_PUBLISHERS_PER_FILE_PER_NODE ≤ count_at (from, file, digest) (publishers_taken g))
  end.
Definition charge_offer (g : Gathered) (from : EmberNodeId) : Gathered :=
  set_offered_results g (incr from (offered_results g)).

(** An authentic record within its share takes a slot, if the budget has one. *)
Definition take_record (s : IterativeSearch) (now : Z) (from : EmberNodeId) (from_subnet : option Z)
    (digest data : bytes) (share : option (bytes * bytes)) (first_offered_by prior_offerer : option EmberNodeId)
    : IterativeSearch :=
  let g := got s in
  if value_budget_full g then s
  else
    let g := set_budget_spent g ({[budget_identity data digest]} ∪ budget_spent g) in
    let g := match share with
      | Some (file, d) => set_publishers_taken g (incr (from, file, d) (publishers_taken g))
      | None => g
      end in
    let prior_subnet := turned_away g !! digest ≫= snd in
    let g := set_turned_away g (delete digest (turned_away g)) in
    let '(g, r) := match first_offered_by with
      | Some first =>
          let g := match publisher_share data with
            | Some (file, d) => set_confirmations_taken g (incr (from, file, d) (confirmations_taken g))
            | None => g
            end in
          (g, mkResult data first (Some from) prior_subnet from_subnet (bool_decide (local_node g = Some first)))
      | None =>
          (g, mkResult data from prior_offerer from_subnet
                (match prior_offerer with Some _ => prior_subnet | None => None end)
                (bool_decide (local_node g = Some from)))
      end in
    let g := push_result g digest r in
    with_got s (set_last_new_record g now).

Definition offer_blob (now now_unix : Z) (from : EmberNodeId) (allowance : nat) (from_subnet : option Z)
    (o : Offer) (data : bytes) : Offer :=
  let s := of_search o in
  if negb (blob_for_us s data) then o
  else
    let n := S (carried o) in
    let g := got s in
    let offered := count_at from (offered_results g) in
    let g := set_offered_results g (<[from := offered]> (offered_results g)) in
    let s := with_got s g in
    if decide (allowance ≤ offered) then mkOffer s true (delivered_now o) n
    else
      let digest := blake3_hash data in
      let pass (s : IterativeSearch) := mkOffer s (cut_short o) (delivered_now o) n in
      if decide (digest ∈ seen_results g) then pass (note_repeat s from from_subnet digest)
      else
        (** The offerer whose copy this one confirms, and the one before it. *)
        let prior := turned_away g !! digest in
        let own := match prior with Some (first, _) => bool_decide (first = from) | None => false end in
        let dependent := match prior with
          | Some (first, subnet) =>
              negb (bool_decide (local_node g = Some first) || subnets_differ subnet from_subnet)
          | None => false
          end in
        if own then pass s
        else if dependent then pass (with_got s (charge_offer g from))
        else
          let first_offered_by :=
            if confirmations_left g from data then fst <$> prior else None in
          let prior_offerer := fst <$> prior in
          let share := match first_offered_by with Some _ => None | None => publisher_share data end in
          let over := over_publisher_share g from share in
          let s := with_got s (charge_offer g from) in
          if negb (value_blob_is_current data now_unix) then pass s
          else if over then
            pass (if value_blob_is_authentic data then hold_turned_away s from digest data else s)
          else
            let s := with_got s (set_seen_results (got s) ({[digest]} ∪ seen_results (got s))) in
            if negb (value_blob_is_authentic data) then pass s
            else
              let s := with_got s (set_delivered_results (got s) (incr from (delivered_results (got s)))) in
              let s := with_got s (note_contributor (got s) from) in
              let s := take_record s now from from_subnet digest data share first_offered_by prior_offerer in
              mkOffer s (cut_short o) (S (delivered_now o)) n.

(** ** A response *)

(** The contacts it named, nearest first, within the responder's quota. *)
Fixpoint merge_closer (tgt from : EmberNodeId) (asked : gset EmberNodeId) (best : EmberNodeId)
    (contacts : list EmberContact) (l : list ShortlistEntry) (referred_n : nat) (closer : bool)
    : list ShortlistEntry * bool :=
  match contacts with
  | [] => (l, closer)
  | c :: contacts =>
      if negb (is_dialable c) || bool_decide (node_id c ∈ asked) || bool_decide (node_id c = tgt)
         || existsb (λ e, bool_decide (e_id e = node_id c)) l
      then merge_closer tgt from asked best contacts l referred_n closer
      else if decide (MAX_SHORTLIST_ENTRIES_PER_REFERRER ≤ referred_n) then (l, closer)
      else
        let nearer := negb (bytes_le best (distance tgt (node_id c))) in
        merge_closer tgt from asked best contacts (l ++ [new_entry tgt false (Some from) c]) (S referred_n)
          (closer || nearer)
  end.

(** The k closest, and past them only what the walk still needs. *)
Definition owed_nodes (w : Walk) : list EmberNodeId :=
  (o_node <$> page_queue w) ++ (o_node <$> parked_pages w)
  ++ (p_node <$> retain is_page (snd <$> map_to_list (pending_requests w))).
Definition keep_past_k (owed : list EmberNodeId) (e : ShortlistEntry) : bool :=
  in_state InFlight e || pinned e || is_verified (e_contact e) || bool_decide (e_id e ∈ owed).
Definition trim_shortlist (w : Walk) (l : list ShortlistEntry) : list ShortlistEntry :=
  if decide (length l ≤ K_BUCKET_SIZE) then l
  else take K_BUCKET_SIZE l ++ retain (keep_past_k (owed_nodes w)) (drop K_BUCKET_SIZE l).

(** ** Completion *)
Definition responded_count (w : Walk) : nat := count_if (in_state Responded) (shortlist w).
Definition closest_have_responded (w : Walk) : bool := forallb (in_state Responded) (live_near (shortlist w)).
Definition keyword_walk_settled (now : Z) (s : IterativeSearch) : bool :=
  let w := walk s in
  keyword_lookup s && bool_decide (search_type s = FindValue)
  && bool_decide (page_queue w = []) && bool_decide (parked_pages w = []) && bool_decide (referral_queue w = [])
  && negb (pending_any is_follow_up (pending_requests w))
  && forallb (λ e, in_state Responded e || in_state Failed e) (retain pinned (shortlist w))
  && closest_have_responded w
  && Z.leb KEYWORD_SETTLE_SECS (elapsed_secs now (last_new_record (got s))).
Definition mark_complete (s : IterativeSearch) : IterativeSearch := with_walk s (set_complete (walk s) true).
Definition has_work (w : Walk) : bool :=
  existsb (in_state Pending) (shortlist w) || existsb (in_state InFlight) (shortlist w)
  || (negb (bool_decide (page_queue w = [])) || bool_decide (0 < pages_in_flight w))
  || (negb (bool_decide (referral_queue w = [])) || bool_decide (0 < referrals_in_flight w)).
Definition converged (s : IterativeSearch) : bool :=
  bool_decide (search_type s = FindNode) && closest_have_responded (walk s)
  && Z.leb STALE_RESPONSES_TO_CONVERGE (stale_responses (walk s))
  && bool_decide (MIN_RESPONSES_TO_CONVERGE ≤ responded_count (walk s)).
Definition check_complete (now : Z) (s : IterativeSearch) : IterativeSearch :=
  if complete (walk s) then s
  else if Z.ltb SEARCH_TIMEOUT_SECS (elapsed_secs now (started_at s)) then
    mark_complete (take_sole_contributors_held s)
  else
    let s := release_parked_page s in
    if negb (has_work (walk s)) then mark_complete (take_sole_contributors_held s)
    else if converged s then mark_complete s
    else if keyword_walk_settled now s then mark_complete (take_sole_contributors_held s)
    else if bool_decide (search_type s = FindValue) && value_budget_full (got s) then mark_complete s
    else s.
Definition poll_complete (now : Z) (s : IterativeSearch) : IterativeSearch * bool :=
  let s := check_complete now s in (s, complete (walk s)).

(** The reply of the node we asked, correlated already. *)
Definition mark_responded (s : IterativeSearch) (from : EmberNodeId) : IterativeSearch :=
  with_walk s (set_shortlist (walk s) (update_entry from (λ e, with_state e Responded) (shortlist (walk s)))).

Definition take_values (now now_unix : Z) (s : IterativeSearch) (from : EmberNodeId) (asked : PendingQuery)
    (no_contacts : bool) (value_records : list bytes) (page : option ValuePage) : IterativeSearch :=
  let expected := bool_decide (search_type s = FindValue) && negb (p_referral asked) in
  let value_records := if expected then value_records else [] in
  let page := if expected then page else None in
  let allowance := per_node_result_allowance s from in
  let from_subnet := node_subnet s from in
  let s := match from_subnet with
    | Some subnet =>
        if expected then with_got s (set_responder_subnets (got s) (<[from := subnet]> (responder_subnets (got s)))) else s
    | None => s
    end in
  let next_resume := match page with
    | Some page => page_resume_anchors value_records (p_start_position asked) (next_position page)
    | None => []
    end in
  let o := foldl (offer_blob now now_unix from allowance from_subnet) (mkOffer s false 0 0) value_records in
  let s := of_search o in
  let s := match page with
    | Some page =>
        if decide (0 < carried o) then
          queue_next_page s from (p_start_position asked) (p_resume_after asked) page next_resume (cut_short o)
            (bool_decide (0 < delivered_now o))
        else s
    | None => s
    end in
  if negb (is_follow_up asked) && bool_decide (0 < carried o) && no_contacts then maybe_queue_referral s from else s.

Definition take_contacts (s : IterativeSearch) (from : EmberNodeId) (closer_nodes : list EmberContact)
    : IterativeSearch * bool :=
  let w := walk s in
  let best := match shortlist w with e :: _ => e_distance e | [] => repeat 255%Z 16 end in
  let sorted := stable_sort (λ a b, bytes_le (distance (target s) (node_id a)) (distance (target s) (node_id b)))
                  closer_nodes in
  let referred_n := count_if (λ e, bool_decide (referrer e = Some from)) (shortlist w) in
  let '(l, closer) := merge_closer (target s) from (queried w) best sorted (shortlist w) referred_n false in
  let w := set_shortlist w (trim_shortlist w (sort_shortlist l)) in
  let w := set_stale_responses w (if closer then 0%Z else u8_saturating_add (stale_responses w) 1) in
  (with_walk s w, closer).

Definition process_response (now now_unix : Z) (s : IterativeSearch) (request_id : Z) (from : EmberNodeId)
    (closer_nodes : list EmberContact) (value_records : list bytes) (page : option ValuePage)
    : IterativeSearch * ResponseOutcome :=
  match pending_requests (walk s) !! request_id with
  | None => (s, REFUSED)
  | Some asked =>
      if negb (bool_decide (p_node asked = from)) then (s, REFUSED)
      else
        let s := with_walk s (set_pending_requests (walk s) (delete request_id (pending_requests (walk s)))) in
        let s := mark_responded s from in
        let s := take_values now now_unix s from asked (bool_decide (closer_nodes = [])) value_records page in
        let '(s, closer) := take_contacts s from closer_nodes in
        (check_complete now s, mkOutcome true closer)
  end.

(** ** A query that will not be answered *)
Definition mark_failed_with (now : Z) (s : IterativeSearch) (request_id : Z) (failure : QueryFailure)
    : IterativeSearch * option EmberNodeId :=
  match pending_requests (walk s) !! request_id with
  | None => (check_complete now s, None)
  | Some pending =>
      let w := set_pending_requests (walk s) (delete request_id (pending_requests (walk s))) in
      let id := p_node pending in
      let fault_worthy := negb (is_follow_up pending) in
      let w :=
        if fault_worthy then
          let spent := default MAX_QUERY_ATTEMPTS (attempts w !! id) in
          let retryable := bool_decide (spent < MAX_QUERY_ATTEMPTS) && bool_decide (failure = TimedOut) in
          let w := set_shortlist w
            (update_entry id (λ e, with_state e (if retryable then Pending else Failed)) (shortlist w)) in
          if retryable then set_queried w (queried w ∖ {[id]}) else w
        else if is_page pending && negb (bool_decide (failure = NotSent)) then
          let start := p_start_position pending in
          let spent := default MAX_QUERY_ATTEMPTS (page_attempts w !! (id, start)) in
          if decide (spent < MAX_QUERY_ATTEMPTS) then
            set_page_queue w (page_queue w ++ [mkOwed id start (p_resume_after pending) (p_backed pending)])
          else w
        else w in
      (check_complete now (with_walk s w), if fault_worthy then Some id else None)
  end.
Definition mark_failed (now : Z) (s : IterativeSearch) (request_id : Z) : IterativeSearch * option EmberNodeId :=
  mark_failed_with now s request_id TimedOut.

(** ** Queries *)
Definition pending_query (s : IterativeSearch) (request_id : Z) : option (EmberNodeId * bool) :=
  (λ p, (p_node p, is_follow_up p)) <$> pending_requests (walk s) !! request_id.
Definition queried_contact (s : IterativeSearch) (request_id : Z) : option EmberContact :=
  pending ← pending_requests (walk s) !! request_id;
  if is_follow_up pending then None
  else e_contact <$> find_entry (p_node pending) (shortlist (walk s)).
Definition stalled (s : IterativeSearch) : bool :=
  let w := walk s in
  negb (complete w) && bool_decide (pending_requests w = ∅)
  && (negb (bool_decide (page_queue w = [])) || negb (bool_decide (parked_pages w = []))
      || negb (bool_decide (referral_queue w = [])) || existsb (unasked w) (shortlist w)).
Definition queried_count (s : IterativeSearch) : nat := size (attempts (walk s)) + absorbed_nodes (got s).
Definition absorb_walk (s other : IterativeSearch) : IterativeSearch :=
  absorb_results (with_got s (set_absorbed_nodes (got s) (absorbed_nodes (got s) + queried_count other)))
    (results (got other)).
Definition closest_responded (s : IterativeSearch) : list EmberContact :=
  e_contact <$> take K_BUCKET_SIZE (retain (in_state Responded) (shortlist (walk s))).

(** ** Our own store's records *)
Fixpoint seed_local (s : IterativeSearch) (local_id : EmberNodeId) (records : list bytes) (added : nat)
    : IterativeSearch * nat :=
  match records with
  | [] => (s, added)
  | data :: records =>
      let g := got s in
      if decide (MAX_LOCAL_SEED_RESULTS ≤ length (results g)) then (s, added)
      else if bool_decide (length data < 17 + 64) || negb (bool_decide (slice 1 17 data = Some (target s)))
      then seed_local s local_id records added
      else
        let digest := blake3_hash data in
        if bool_decide (digest ∈ seen_results g) || bool_decide (is_Some (turned_away g !! digest))
        then seed_local s local_id records added
        else
          let share := publisher_share data in
          if over_publisher_share g local_id share then
            seed_local (hold_turned_away s local_id digest data) local_id records added
          else
            let g := match share with
              | Some (file, d) => set_publishers_taken g (incr (local_id, file, d) (publishers_taken g))
              | None => g
              end in
            let g := set_seen_results g ({[digest]} ∪ seen_results g) in
            let g := push_result g digest (mkResult data local_id None None None true) in
            let g := set_seeded_count g (S (seeded_count g)) in
            seed_local (with_got s g) local_id records (S added)
  end.
Definition seed_local_results (s : IterativeSearch) (local_id : EmberNodeId) (records : list bytes)
    : IterativeSearch * nat :=
  seed_local (with_got s (set_local_node (got s) (Some local_id))) local_id records 0.
End search.
