(* ===== verification/SearchInv.v ===== *)
(** * The bookkeeping of a walk

    [core] ties the shortlist, the nodes asked, the outstanding requests and the
    pages and referrals owed to each other; each lemma is one elementary move of
    the search. *)
From S2P Require Import Prelude NodeId Addr Contact Record Wire Crypto Messages SearchState Search.

Definition first_query (p : PendingQuery) : Prop := is_follow_up p = false.

(** A node with a follow-up owed, queued or outstanding; and one with a page. *)
Definition follows (n : EmberNodeId) (P : gmap Z PendingQuery) (pg rf : list EmberNodeId) : Prop :=
  (∃ r p, P !! r = Some p ∧ is_follow_up p = true ∧ p_node p = n) ∨ n ∈ pg ∨ n ∈ rf.
Definition owes_page (n : EmberNodeId) (P : gmap Z PendingQuery) (pg : list EmberNodeId) : Prop :=
  (∃ r p, P !! r = Some p ∧ is_page p = true ∧ p_node p = n) ∨ n ∈ pg.

Record core (l : list ShortlistEntry) (q : gset EmberNodeId) (P : gmap Z PendingQuery) (pg rf : list EmberNodeId)
    : Prop := mkCore {
  c_nodup : NoDup (e_id <$> l);
  c_pend : ∀ e, e ∈ l → e_state e = Pending → e_id e ∉ q;
  c_asked : ∀ e, e ∈ l → e_state e ≠ Pending → e_id e ∈ q;
  c_inflight : ∀ e, e ∈ l → e_state e = InFlight → ∃ r p, P !! r = Some p ∧ first_query p ∧ p_node p = e_id e;
  c_first : ∀ r p, P !! r = Some p → first_query p → ∃ e, e ∈ l ∧ e_id e = p_node p ∧ e_state e = InFlight;
  c_uniq : ∀ r r' p p', P !! r = Some p → P !! r' = Some p' → first_query p → first_query p' →
    p_node p = p_node p' → r = r';
  c_follow : ∀ n, follows n P pg rf → n ∈ q ∧ ∀ e, e ∈ l → e_id e = n → e_state e = Responded;
  c_owed : ∀ n, owes_page n P pg → n ∈ e_id <$> l;
}.

Section moves.
Context (l : list ShortlistEntry) (q : gset EmberNodeId) (P : gmap Z PendingQuery) (pg rf : list EmberNodeId).
Context (H : core l q P pg rf).

(** Two entries of one node are one entry. *)
Lemma core_inj e e' : e ∈ l → e' ∈ l → e_id e = e_id e' → e = e'.
Proof.
  intros He He' Hid. apply list_elem_of_lookup in He as [i Hi]. apply list_elem_of_lookup in He' as [j Hj].
  assert (i = j) as ->.
  { eapply (NoDup_lookup (e_id <$> l)); [apply H|..]; rewrite list_lookup_fmap; [by rewrite Hi|].
    rewrite Hj. cbn. by rewrite Hid. }
  by simplify_eq.
Qed.

(** A node whose first query is outstanding owes no follow-up. *)
Lemma first_no_follow r p : P !! r = Some p → first_query p → ¬ follows (p_node p) P pg rf.
Proof.
  intros Hr Hp Hf. destruct (c_first _ _ _ _ _ H r p Hr Hp) as (e & He & Hid & Hst).
  destruct (c_follow _ _ _ _ _ H _ Hf) as [_ Hresp]. specialize (Hresp e He Hid). congruence.
Qed.

Lemma core_perm l' : l' ≡ₚ l → core l' q P pg rf.
Proof.
  intros Hp. destruct H as [H1 H2 H3 H4 H5 H6 H7 H8]. split.
  - by rewrite Hp.
  - intros e. rewrite Hp. auto.
  - intros e. rewrite Hp. auto.
  - intros e. rewrite Hp. auto.
  - intros r p Hr Hf. destruct (H5 r p Hr Hf) as (e & ? & ?). exists e. by rewrite Hp.
  - done.
  - intros n Hn. destruct (H7 n Hn) as [? Hs]. split; [done|]. intros e. rewrite Hp. auto.
  - intros n Hn. rewrite Hp. auto.
Qed.

(** The trim drops neither an entry in flight nor one that owes a page. *)
Lemma core_trim l' :
  l' `sublist_of` l →
  (∀ e, e ∈ l → e_state e = InFlight ∨ owes_page (e_id e) P pg → e ∈ l') →
  core l' q P pg rf.
Proof.
  intros Hsub Hkeep. assert (∀ e, e ∈ l' → e ∈ l) as Hin by (intros e He; by eapply elem_of_sublist).
  destruct H as [H1 H2 H3 H4 H5 H6 H7 H8]. split; try (intros; eauto; fail).
  - eapply sublist_NoDup; [exact H1|]. by apply fmap_sublist.
  - intros r p Hr Hf. destruct (H5 r p Hr Hf) as (e & ? & ? & ?). exists e. split; [|done]. apply Hkeep; auto.
  - intros n Hn. destruct (H7 n Hn) as [? Hs]. split; [done|]. eauto.
  - intros n Hn. pose proof (H8 n Hn) as (e & -> & He)%list_elem_of_fmap. apply list_elem_of_fmap_2. apply Hkeep; auto.
Qed.

Lemma core_add e :
  e_state e = Pending → e_id e ∉ (e_id <$> l) → e_id e ∉ q → core (l ++ [e]) q P pg rf.
Proof.
  intros Hst Hid Hq. destruct H as [H1 H2 H3 H4 H5 H6 H7 H8]. split.
  - rewrite fmap_app, NoDup_app. split; [done|]. split; [|apply NoDup_singleton].
    intros x Hx ->%list_elem_of_singleton. done.
  - intros e'. rewrite elem_of_app, list_elem_of_singleton. intros [He| ->]; auto.
  - intros e'. rewrite elem_of_app, list_elem_of_singleton. intros [He| ->]; [auto|done].
  - intros e'. rewrite elem_of_app, list_elem_of_singleton. intros [He| ->]; [auto|congruence].
  - intros r p Hr Hf. destruct (H5 r p Hr Hf) as (e' & ? & ?). exists e'. rewrite elem_of_app. auto.
  - done.
  - intros n Hn. destruct (H7 n Hn) as [Hnq Hs]. split; [done|]. intros e'.
    rewrite elem_of_app, list_elem_of_singleton. intros [He| ->]; [auto|]. intros <-. done.
  - intros n Hn. rewrite fmap_app, elem_of_app. left. auto.
Qed.

(** Fewer pages or referrals owed. *)
Lemma core_drop pg' rf' : (∀ n, n ∈ pg' → n ∈ pg) → (∀ n, n ∈ rf' → n ∈ rf) → core l q P pg' rf'.
Proof.
  intros Hpg Hrf. destruct H as [H1 H2 H3 H4 H5 H6 H7 H8]. split; try done.
  - intros n [?|[?|?]]; apply H7; [by left|right; left; auto|right; right; auto].
  - intros n [?|?]; apply H8; [by left|right; auto].
Qed.

(** A page or a referral owed by a node that has answered. *)
Lemma core_owe n pg' rf' :
  (∀ x, x ∈ pg' → x ∈ pg ∨ x = n ∧ n ∈ (e_id <$> l)) → (∀ x, x ∈ rf' → x ∈ rf ∨ x = n) →
  n ∈ q → (∀ e, e ∈ l → e_id e = n → e_state e = Responded) → core l q P pg' rf'.
Proof.
  intros Hpg Hrf Hq Hst. destruct H as [H1 H2 H3 H4 H5 H6 H7 H8]. split; try done.
  - intros x [?|[Hx|Hx]]; [apply H7; by left|..].
    + destruct (Hpg x Hx) as [?|[-> _]]; [apply H7; right; by left|done].
    + destruct (Hrf x Hx) as [?| ->]; [apply H7; right; by right|done].
  - intros x [?|Hx]; [apply H8; by left|]. destruct (Hpg x Hx) as [?|[-> ?]]; [apply H8; by right|done].
Qed.

(** A page or a referral sent. *)
Lemma core_send_follow req p :
  P !! req = None → is_follow_up p = true → follows (p_node p) P pg rf →
  (is_page p = true → p_node p ∈ (e_id <$> l)) → core l q (<[req := p]> P) pg rf.
Proof.
  intros Hfresh Hp Hf Hpage. destruct H as [H1 H2 H3 H4 H5 H6 H7 H8].
  assert (∀ r p', <[req := p]> P !! r = Some p' → first_query p' → P !! r = Some p') as Hold.
  { intros r p' Hr Hp'. apply lookup_insert_Some in Hr as [[<- <-]|[_ ?]]; [|done].
    unfold first_query in Hp'. congruence. }
  split; try done.
  - intros e He Hst. destruct (H4 e He Hst) as (r & p' & Hr & ? & ?). exists r, p'. split; [|done].
    rewrite lookup_insert_ne; [done|congruence].
  - intros r p' Hr Hp'. eauto.
  - intros r r' p1 p2 Hr Hr' Hp1 Hp2. eauto.
  - intros n [(r & p' & Hr & Hp' & <-)|Hn]; [|apply H7; by right].
    apply lookup_insert_Some in Hr as [[<- <-]|[_ ?]]; [by apply H7|]. apply H7. left. eauto.
  - intros n [(r & p' & Hr & Hp' & <-)|Hn]; [|apply H8; by right].
    apply lookup_insert_Some in Hr as [[<- <-]|[_ ?]]; [auto|]. apply H8. left. eauto.
Qed.
End moves.

(** ** Moves that change one entry *)
Section entry_moves.
Context (pre post : list ShortlistEntry) (e : ShortlistEntry).
Context (q : gset EmberNodeId) (P : gmap Z PendingQuery) (pg rf : list EmberNodeId).
Context (H : core (pre ++ e :: post) q P pg rf).

Lemma entry_here : e ∈ pre ++ e :: post.
Proof. rewrite elem_of_app, elem_of_cons. auto. Qed.
(** Any other entry of the list has another id. *)
Lemma other_id e' st : e' ∈ pre ++ with_state e st :: post → e' ≠ with_state e st → e' ∈ pre ++ e :: post ∧ e_id e' ≠ e_id e.
Proof.
  intros He' Hne. assert (e' ∈ pre ∨ e' ∈ post) as Hin by (rewrite elem_of_app, elem_of_cons in He'; tauto).
  split; [rewrite elem_of_app, elem_of_cons; tauto|].
  pose proof (c_nodup _ _ _ _ _ H) as Hnd. rewrite fmap_app, fmap_cons in Hnd. intros Hid.
  rewrite NoDup_app in Hnd. destruct Hnd as (_ & Hd & Hnd). apply NoDup_cons in Hnd as [Hnot _].
  destruct Hin as [Hin|Hin].
  - apply (Hd (e_id e')); [by apply list_elem_of_fmap_2|]. rewrite Hid. left.
  - apply Hnot. rewrite <- Hid. by apply list_elem_of_fmap_2.
Qed.
Lemma ids_same st : e_id <$> pre ++ with_state e st :: post = e_id <$> pre ++ e :: post.
Proof. by rewrite !fmap_app, !fmap_cons. Qed.

(** The entry is asked for the first time, or again. *)
Lemma core_dispatch req p :
  e_state e = Pending → P !! req = None → first_query p → p_node p = e_id e →
  core (pre ++ with_state e InFlight :: post) ({[e_id e]} ∪ q) (<[req := p]> P) pg rf.
Proof.
  intros Hst Hfresh Hp Hn. pose proof (c_pend _ _ _ _ _ H e entry_here Hst) as Hq.
  assert (¬ follows (e_id e) P pg rf) as Hnf.
  { intros Hf. by apply (c_follow _ _ _ _ _ H) in Hf as [? _]. }
  assert (∀ r p', P !! r = Some p' → first_query p' → p_node p' ≠ e_id e) as Hnofirst.
  { intros r p' Hr Hp' Hid. destruct (c_first _ _ _ _ _ H r p' Hr Hp') as (e' & He' & Hid' & Hst').
    assert (e' = e) as -> by (eapply core_inj; [exact H|done|apply entry_here|congruence]). congruence. }
  assert (is_page p = false) as Hpp.
  { unfold first_query, is_follow_up in Hp. by apply orb_false_iff in Hp as [? _]. }
  destruct H as [H1 H2 H3 H4 H5 H6 H7 H8]. split.
  - by rewrite ids_same.
  - intros e' He' Hst'. destruct (decide (e' = with_state e InFlight)) as [->|Hne]; [done|].
    destruct (other_id e' InFlight He' Hne) as [Hin Hid]. specialize (H2 e' Hin Hst'). set_solver.
  - intros e' He' Hst'. destruct (decide (e' = with_state e InFlight)) as [->|Hne]; [set_solver|].
    destruct (other_id e' InFlight He' Hne) as [Hin Hid]. specialize (H3 e' Hin Hst'). set_solver.
  - intros e' He' Hst'. destruct (decide (e' = with_state e InFlight)) as [->|Hne].
    { exists req, p. by rewrite lookup_insert_eq. }
    destruct (other_id e' InFlight He' Hne) as [Hin Hid]. destruct (H4 e' Hin Hst') as (r & p' & Hr & ? & ?).
    exists r, p'. split; [|done]. rewrite lookup_insert_ne; [done|congruence].
  - intros r p' Hr Hp'. apply lookup_insert_Some in Hr as [[<- <-]|[_ Hr]].
    { exists (with_state e InFlight). split; [rewrite elem_of_app, elem_of_cons; auto|]. done. }
    destruct (H5 r p' Hr Hp') as (e' & He' & Hid & Hst'). exists e'. split; [|done].
    rewrite elem_of_app, elem_of_cons in *. destruct He' as [?|[->|?]]; [auto| |auto]. congruence.
  - intros r r' p1 p2 Hr Hr' Hp1 Hp2 Hnn. apply lookup_insert_Some in Hr as [[<- <-]|[_ Hr]];
      apply lookup_insert_Some in Hr' as [[<- <-]|[_ Hr']]; [done|..].
    + exfalso. eapply (Hnofirst r' p2); [done..|congruence].
    + exfalso. eapply (Hnofirst r p1); [done..|congruence].
    + eauto.
  - intros n Hf. assert (follows n P pg rf) as Hf'.
    { destruct Hf as [(r & p' & Hr & Hp' & Hpn)|?]; [|by right]. left.
      apply lookup_insert_Some in Hr as [[<- <-]|[_ Hr]]; [unfold first_query in Hp; congruence|eauto]. }
    destruct (H7 n Hf') as [Hnq Hresp]. split; [set_solver|]. intros e' He' Hid'.
    destruct (decide (e' = with_state e InFlight)) as [->|Hne]; [|].
    { exfalso. apply Hnf. cbn in Hid'. by rewrite <- Hid' in Hf'. }
    destruct (other_id e' InFlight He' Hne) as [Hin _]. auto.
  - intros n Hf. rewrite ids_same. apply H8. destruct Hf as [(r & p' & Hr & Hp' & Hpn)|?]; [|by right]. left.
    apply lookup_insert_Some in Hr as [[<- <-]|[_ Hr]]; [congruence|eauto].
Qed.

(** Its first query is settled: answered, given up, or to be asked again. *)
Lemma core_settle r p st q' :
  P !! r = Some p → first_query p → p_node p = e_id e → st ≠ InFlight →
  q' = (if decide (st = Pending) then q ∖ {[e_id e]} else q) →
  core (pre ++ with_state e st :: post) q' (delete r P) pg rf.
Proof.
  intros Hr Hp Hn Hst ->. pose proof (first_no_follow _ _ _ _ _ H r p Hr Hp) as Hnf. rewrite Hn in Hnf.
  destruct (c_first _ _ _ _ _ H r p Hr Hp) as (e0 & He0 & Hid0 & Hst0).
  assert (e0 = e) as -> by (eapply core_inj; [exact H|done|apply entry_here|congruence]). clear He0 Hid0.
  pose proof (c_asked _ _ _ _ _ H e entry_here ltac:(congruence)) as Hq.
  destruct H as [H1 H2 H3 H4 H5 H6 H7 H8].
  assert (∀ x : EmberNodeId, x ≠ e_id e → x ∈ (if decide (st = Pending) then q ∖ {[e_id e]} else q) ↔ x ∈ q) as Hq'.
  { intros x Hx. case_decide; set_solver. }
  assert (∀ n P' , (∀ r' p', P' !! r' = Some p' → P !! r' = Some p') → follows n P' pg rf → n ≠ e_id e ∧ follows n P pg rf) as Hfol.
  { intros n P' HP Hf. assert (follows n P pg rf) as Hf' by (destruct Hf as [(r' & p' & ? & ?)|?]; [left; eauto|by right]).
    split; [|done]. by intros ->. }
  assert (∀ r' p', delete r P !! r' = Some p' → P !! r' = Some p' ∧ r ≠ r') as Hdel.
  { intros r' p' [Hne Hr']%lookup_delete_Some. done. }
  split.
  - by rewrite ids_same.
  - intros e' He' Hst'. destruct (decide (e' = with_state e st)) as [->|Hne].
    { cbn in Hst'. subst st. rewrite decide_True by done. cbn. set_solver. }
    destruct (other_id e' st He' Hne) as [Hin Hid]. rewrite Hq' by done. auto.
  - intros e' He' Hst'. destruct (decide (e' = with_state e st)) as [->|Hne].
    { cbn in Hst'. rewrite decide_False by done. done. }
    destruct (other_id e' st He' Hne) as [Hin Hid]. rewrite Hq' by done. auto.
  - intros e' He' Hst'. destruct (decide (e' = with_state e st)) as [->|Hne]; [done|].
    destruct (other_id e' st He' Hne) as [Hin Hid]. destruct (H4 e' Hin Hst') as (r' & p' & Hr' & Hp' & Hn').
    exists r', p'. split; [|done]. rewrite lookup_delete_ne; [done|]. intros <-. congruence.
  - intros r' p' Hr' Hp'. apply Hdel in Hr' as [Hr' Hne]. destruct (H5 r' p' Hr' Hp') as (e' & He' & Hid' & Hst').
    exists e'. split; [|done]. rewrite elem_of_app, elem_of_cons in *. destruct He' as [?|[->|?]]; [auto| |auto].
    exfalso. apply Hne. eapply (H6 r r' p p'); [done..|congruence].
  - intros r1 r2 p1 p2 [Hr1 _]%Hdel [Hr2 _]%Hdel. eauto.
  - intros n Hf. destruct (Hfol n (delete r P)) as [Hne Hf']; [intros r' p' [? _]%Hdel; done|done|].
    destruct (H7 n Hf') as [Hnq Hs]. split; [by rewrite Hq'|]. intros e' He' Hid'.
    destruct (decide (e' = with_state e st)) as [->|Hne']; [cbn in Hid'; by subst n|].
    destruct (other_id e' st He' Hne') as [Hin _]. auto.
  - intros n Hf. rewrite ids_same. apply H8. destruct Hf as [(r' & p' & [Hr' _]%Hdel & ?)|?]; [left; eauto|by right].
Qed.
End entry_moves.

(** Pinning an entry changes nothing here. *)
Lemma core_pin pre post e q P pg rf : core (pre ++ e :: post) q P pg rf → core (pre ++ with_pin e :: post) q P pg rf.
Proof.
  intros [H1 H2 H3 H4 H5 H6 H7 H8].
  assert (∀ e', e' ∈ pre ++ with_pin e :: post → ∃ e0, e0 ∈ pre ++ e :: post ∧ e_id e0 = e_id e' ∧ e_state e0 = e_state e') as Hback.
  { intros e'. rewrite elem_of_app, elem_of_cons. intros [?|[->|?]]; [exists e'|exists e|exists e'];
      rewrite elem_of_app, elem_of_cons; auto. }
  assert (e_id <$> pre ++ with_pin e :: post = e_id <$> pre ++ e :: post) as Hids by by rewrite !fmap_app, !fmap_cons.
  split.
  - by rewrite Hids.
  - intros e' (e0 & Hin & <- & <-)%Hback. auto.
  - intros e' (e0 & Hin & <- & <-)%Hback. auto.
  - intros e' (e0 & Hin & <- & <-)%Hback. auto.
  - intros r p Hr Hp. destruct (H5 r p Hr Hp) as (e0 & He0 & ? & ?). rewrite elem_of_app, elem_of_cons in He0.
    destruct He0 as [?|[->|?]]; [exists e0|exists (with_pin e)|exists e0]; rewrite elem_of_app, elem_of_cons; auto.
  - done.
  - intros n Hn. destruct (H7 n Hn) as [? Hs]. split; [done|]. intros e' (e0 & Hin & Hid & <-)%Hback ?. apply Hs; congruence.
  - by rewrite Hids.
Qed.

(** A follow-up is settled: the page it owed may go back to the queue. *)
Lemma core_settle_follow l q P pg rf r p pg' :
  core l q P pg rf → P !! r = Some p → is_follow_up p = true →
  (∀ n, n ∈ pg' → n ∈ pg ∨ n = p_node p ∧ is_page p = true) → core l q (delete r P) pg' rf.
Proof.
  intros H Hr Hp Hpg. assert (follows (p_node p) P pg rf) as Hf by (left; eauto).
  destruct H as [H1 H2 H3 H4 H5 H6 H7 H8].
  assert (∀ r' p', delete r P !! r' = Some p' → P !! r' = Some p' ∧ r ≠ r') as Hdel.
  { intros r' p' [Hne Hr']%lookup_delete_Some. done. }
  split; try done.
  - intros e He Hst. destruct (H4 e He Hst) as (r' & p' & Hr' & Hp' & Hn'). exists r', p'. split; [|done].
    rewrite lookup_delete_ne; [done|]. intros <-. unfold first_query in Hp'. congruence.
  - intros r' p' [Hr' _]%Hdel. eauto.
  - intros r1 r2 p1 p2 [Hr1 _]%Hdel [Hr2 _]%Hdel. eauto.
  - intros n Hn. apply H7. destruct Hn as [(r' & p' & [Hr' _]%Hdel & ?)|[Hn|?]]; [left; eauto| |right; by right].
    destruct (Hpg n Hn) as [?|[-> _]]; [right; by left|done].
  - intros n Hn. apply H8. destruct Hn as [(r' & p' & [Hr' _]%Hdel & ?)|Hn]; [left; eauto|].
    destruct (Hpg n Hn) as [?|[-> ?]]; [by right|left; eauto].
Qed.

(** ** [update_entry] *)
Lemma update_entry_here id f pre e post :
  e_id e = id → id ∉ (e_id <$> pre) → update_entry id f (pre ++ e :: post) = pre ++ f e :: post.
Proof.
  intros Hid. induction pre as [|x pre IH]; intros Hn; cbn [app update_entry].
  - by rewrite bool_decide_eq_true_2.
  - rewrite fmap_cons, not_elem_of_cons in Hn. destruct Hn as [Hx Hn].
    rewrite bool_decide_eq_false_2 by congruence. by rewrite IH.
Qed.
Lemma update_entry_absent id f l : id ∉ (e_id <$> l) → update_entry id f l = l.
Proof.
  induction l as [|x l IH]; intros Hn; [done|]. rewrite fmap_cons, not_elem_of_cons in Hn. destruct Hn as [Hx Hn].
  cbn [update_entry]. rewrite bool_decide_eq_false_2 by congruence. by rewrite IH.
Qed.
(** The entry of a node, with the list around it. *)
Lemma entry_split l id :
  NoDup (e_id <$> l) → id ∈ (e_id <$> l) → ∃ pre e post, l = pre ++ e :: post ∧ e_id e = id ∧ id ∉ (e_id <$> pre).
Proof.
  intros Hnd (e & -> & He)%list_elem_of_fmap. apply list_elem_of_split in He as (pre & post & ->).
  exists pre, e, post. split; [done|]. split; [done|]. rewrite fmap_app, fmap_cons in Hnd.
  apply NoDup_app in Hnd as (_ & Hd & _). intros Hin. apply (Hd _ Hin). left.
Qed.
Lemma update_entry_noop id st l :
  (∀ e, e ∈ l → e_id e = id → e_state e = st) → update_entry id (λ e, with_state e st) l = l.
Proof.
  induction l as [|x l IH]; intros Hl; [done|]. cbn [update_entry]. case_bool_decide as Hid.
  - f_equal. assert (e_state x = st) as <- by (apply Hl; [left|done]). by destruct x.
  - f_equal. apply IH. intros e He. apply Hl. by right.
Qed.
Lemma update_entry_ids id f l : (∀ e, e_id (f e) = e_id e) → e_id <$> update_entry id f l = e_id <$> l.
Proof.
  intros Hf. induction l as [|x l IH]; [done|]. cbn [update_entry]. case_bool_decide; cbn; [by rewrite Hf|].
  by f_equal.
Qed.
