(* ===== verification/SearchWalk.v ===== *)
(** * The walk keeps its books

    [parts] is what holds of a walk at every point of every operation, its
    shortlist given apart because a pass rebuilds it entry by entry; [walk_ok]
    is [parts] at rest. *)
From S2P Require Import Prelude NodeId Addr Contact Record Wire Crypto Messages SearchState Search SearchInv.

(** ** Counting outstanding requests *)
Lemma count_if_add {A} (f : A → bool) x l : count_if f (x :: l) = (if f x then 1 else 0) + count_if f l.
Proof. unfold count_if, retain. rewrite filter_cons. by destruct (f x). Qed.
Lemma count_if_perm {A} (f : A → bool) l l' : l ≡ₚ l' → count_if f l = count_if f l'.
Proof. intros Hp. unfold count_if, retain. by rewrite Hp. Qed.
Lemma count_if_sublist {A} (f : A → bool) l l' : l `sublist_of` l' → count_if f l ≤ count_if f l'.
Proof.
  induction 1 as [|x l l' _ IH|x l l' _ IH]; [done|..]; rewrite ?count_if_add; [|destruct (f x)]; lia.
Qed.
Lemma existsb_count {A} (f : A → bool) l : existsb f l = bool_decide (0 < count_if f l).
Proof.
  induction l as [|x l IH]; [done|]. cbn [existsb]. rewrite count_if_add, IH.
  destruct (f x); cbn [orb]; [symmetry; apply bool_decide_eq_true_2; lia|done].
Qed.

Lemma pending_count_insert f r p P :
  P !! r = None → pending_count f (<[r := p]> P) = (if f p then 1 else 0) + pending_count f P.
Proof.
  intros Hr. unfold pending_count. rewrite (count_if_perm _ _ _ (map_to_list_insert _ _ _ Hr)). by rewrite count_if_add.
Qed.
Lemma pending_count_delete f r p P :
  P !! r = Some p → pending_count f P = (if f p then 1 else 0) + pending_count f (delete r P).
Proof.
  intros Hr. rewrite <- (insert_delete_id _ _ _ Hr) at 1. apply pending_count_insert. apply lookup_delete_eq.
Qed.
Lemma pending_count_pos f P : 0 < pending_count f P → ∃ r p, P !! r = Some p ∧ f p = true.
Proof.
  unfold pending_count, count_if. intros Hc. destruct (retain _ _) as [|[r p] l] eqn:E; [cbn in Hc; lia|].
  assert ((r, p) ∈ retain (λ kp : Z * PendingQuery, f kp.2) (map_to_list P)) as Hin by (rewrite E; left).
  apply elem_of_retain in Hin as [Hf Hin]. apply elem_of_map_to_list in Hin. eauto.
Qed.
Lemma pending_count_member f r p P : P !! r = Some p → f p = true → 0 < pending_count f P.
Proof. intros Hr Hf. rewrite (pending_count_delete f r p P Hr), Hf. lia. Qed.
Lemma pending_any_spec f P : pending_any f P = true ↔ ∃ r p, P !! r = Some p ∧ f p = true.
Proof.
  unfold pending_any. rewrite existsb_exists. split.
  - intros ([r p] & Hin%list_elem_of_In & Hf). apply elem_of_map_to_list in Hin. eauto.
  - intros (r & p & Hr & Hf). exists (r, p). split; [|done]. by apply list_elem_of_In, elem_of_map_to_list.
Qed.

(** ** The invariant *)
Definition dist_le (a b : ShortlistEntry) : Prop := bytes_le (e_distance a) (e_distance b) = true.
Definition referred_by (n : EmberNodeId) (l : list ShortlistEntry) : nat :=
  count_if (λ e, bool_decide (referrer e = Some n)) l.
Definition flight (l : list ShortlistEntry) (w : Walk) : nat :=
  count_if (in_state InFlight) l + pages_in_flight w + referrals_in_flight w.
Definition page_nodes (w : Walk) : list EmberNodeId := o_node <$> page_queue w ++ parked_pages w.

Record parts (tgt : EmberNodeId) (l : list ShortlistEntry) (w : Walk) : Prop := mkParts {
  k_core : core l (queried w) (pending_requests w) (page_nodes w) (referral_queue w);
  k_dist : Forall (λ e, e_distance e = distance tgt (e_id e)) l;
  k_fresh : ∀ r p, pending_requests w !! r = Some p → (r < next_request_id w)%Z;
  k_quota : ∀ n, referred_by n l ≤ MAX_SHORTLIST_ENTRIES_PER_REFERRER;
  k_attempts : ∀ n, count_at n (attempts w) ≤ MAX_QUERY_ATTEMPTS ∧
    (n ∉ queried w → count_at n (attempts w) < MAX_QUERY_ATTEMPTS);
  k_pages : ∀ n, count_at n (pages_queued w) ≤ MAX_PAGES_PER_NODE_EXHAUSTED;
  k_starts : Forall (λ p, (0 < o_start p)%Z) (page_queue w ++ parked_pages w);
  k_asked : ∀ r p, pending_requests w !! r = Some p →
    (0 ≤ p_start_position p)%Z ∧ (p_referral p = true → p_start_position p = 0%Z);
}.
Record walk_ok (tgt : EmberNodeId) (w : Walk) : Prop := mkWalkOk {
  wk_parts : parts tgt (shortlist w) w;
  wk_sorted : StronglySorted dist_le (shortlist w);
  wk_flight : in_flight w ≤ ALPHA;
}.

(** ** Counters *)
Lemma count_incr_eq `{Countable K} (k : K) m : count_at k (incr k m) = S (count_at k m).
Proof. unfold count_at, incr. by rewrite lookup_insert_eq. Qed.
Lemma count_incr_ne `{Countable K} (k j : K) m : j ≠ k → count_at j (incr k m) = count_at j m.
Proof. intros Hne. unfold count_at, incr. by rewrite lookup_insert_ne. Qed.

(** ** Dispatching *)
Lemma in_state_true st e : in_state st e = true ↔ e_state e = st.
Proof. unfold in_state. by rewrite bool_decide_eq_true. Qed.
Lemma unasked_true w e : unasked w e = true ↔ e_state e = Pending ∧ e_id e ∉ queried w.
Proof. unfold unasked. rewrite andb_true_iff, in_state_true, negb_true_iff, bool_decide_eq_false. done. Qed.

(** What one dispatch leaves alone. *)
Definition same_queues (w w' : Walk) : Prop :=
  page_queue w' = page_queue w ∧ parked_pages w' = parked_pages w ∧ referral_queue w' = referral_queue w ∧
  pages_queued w' = pages_queued w ∧ complete w' = complete w ∧ shortlist w' = shortlist w ∧
  seed_round_done w' = seed_round_done w.
Lemma same_queues_refl w : same_queues w w.
Proof. unfold same_queues. tauto. Qed.
Lemma same_queues_trans w1 w2 w3 : same_queues w1 w2 → same_queues w2 w3 → same_queues w1 w3.
Proof. unfold same_queues. intuition congruence. Qed.

Section dispatching.
Context (tgt : EmberNodeId) (ty : SearchType) (near : gset EmberNodeId).

Lemma dispatch_fields w e :
  (next_request_id w + 1 < 4294967296)%Z → (0 ≤ next_request_id w)%Z →
  let '(w', t) := dispatch ty near w e in
  same_queues w w' ∧ queried w' = {[e_id e]} ∪ queried w ∧ attempts w' = incr (e_id e) (attempts w) ∧
  pending_requests w' = <[next_request_id w := mkPending (e_id e) 0 [] false false]> (pending_requests w) ∧
  next_request_id w' = (next_request_id w + 1)%Z.
Proof.
  intros Hn H0. unfold dispatch. cbn zeta. unfold take_request_id, wrap_u32, same_queues.
  case_match; [|case_match]; cbn; rewrite Z.mod_small by lia; tauto.
Qed.

Lemma dispatch_parts pre post e w :
  parts tgt (pre ++ e :: post) w → unasked w e = true →
  (next_request_id w + 1 < 4294967296)%Z → (0 ≤ next_request_id w)%Z →
  let '(w', t) := dispatch ty near w e in
  parts tgt (pre ++ with_state e InFlight :: post) w' ∧ same_queues w w' ∧
  flight (pre ++ with_state e InFlight :: post) w' = S (flight (pre ++ e :: post) w) ∧
  next_request_id w' = (next_request_id w + 1)%Z ∧ pending_requests w' ≠ ∅.
Proof.
  intros Hw Hun Hn H0. pose proof (dispatch_fields w e Hn H0) as Hf. destruct (dispatch ty near w e) as [w' t].
  destruct Hf as (Hsame & Hq & Ha & Hp & Hnext). apply unasked_true in Hun as [Hst Hnq].
  assert (pending_requests w !! next_request_id w = None) as Hfresh.
  { apply eq_None_not_Some. intros [p Hr]. apply (k_fresh _ _ _ Hw) in Hr. lia. }
  pose proof Hsame as (Hpq & Hpark & Href & Hpages & _).
  destruct Hw as [K1 K2 K3 K4 K5 K6 K7 K8]. split; [|split; [done|split; [|split; [done|]]]].
  - split.
    + unfold page_nodes. rewrite Hq, Hp, Hpq, Hpark, Href. by apply core_dispatch.
    + rewrite Forall_app, Forall_cons in *. done.
    + intros r p. rewrite Hp, Hnext. intros [[<- <-]|[_ Hr]]%lookup_insert_Some; [lia|]. apply K3 in Hr. lia.
    + intros n. specialize (K4 n). unfold referred_by in *. rewrite count_if_app, count_if_add in *. exact K4.
    + intros n. rewrite Ha, Hq. destruct (K5 n) as [Hle Hlt]. destruct (decide (n = e_id e)) as [->|Hne].
      * rewrite count_incr_eq. specialize (Hlt Hnq). split; [lia|set_solver].
      * rewrite count_incr_ne by done. split; [done|]. intros ?. apply Hlt. set_solver.
    + by rewrite Hpages.
    + by rewrite Hpq, Hpark.
    + intros r p. rewrite Hp. intros [[<- <-]|[_ Hr]]%lookup_insert_Some; [done|]. eauto.
  - unfold flight, pages_in_flight, referrals_in_flight. rewrite Hp, !pending_count_insert by done.
    assert (in_state InFlight e = false) as He by (unfold in_state; apply bool_decide_eq_false; congruence).
    rewrite !count_if_app, !count_if_add, He. change (in_state InFlight (with_state e InFlight)) with true.
    change (is_page (mkPending (e_id e) 0 [] false false)) with false. cbn [p_referral]. lia.
  - rewrite Hp. apply insert_non_empty.
Qed.

(** A pass either queries something or finds nothing of its class to query. *)
Lemma dispatch_pass_parts can_send class l pre w batch :
  parts tgt (pre ++ l) w → (0 ≤ next_request_id w)%Z →
  (next_request_id w + Z.of_nat (can_send - length batch) < 4294967296)%Z →
  let '(w', l', batch') := dispatch_pass ty near can_send class w l batch in
  parts tgt (pre ++ l') w' ∧ same_queues w w' ∧ e_distance <$> l' = e_distance <$> l ∧
  flight (pre ++ l') w' + length batch = flight (pre ++ l) w + length batch' ∧
  length batch ≤ length batch' ∧ (length batch ≤ can_send → length batch' ≤ can_send) ∧
  next_request_id w' = (next_request_id w + Z.of_nat (length batch' - length batch))%Z ∧
  (length batch < length batch' → pending_requests w' ≠ ∅) ∧
  (length batch' = length batch → w' = w ∧ l' = l ∧
   (length batch < can_send → ∀ e, e ∈ l → unasked w e = true → ∃ c, class = Some c ∧ seed_class e ≠ c)).
Proof.
  revert pre w batch. induction l as [|e l IH]; intros pre w batch Hw H0 Hn; cbn [dispatch_pass].
  { split; [done|]. split; [apply same_queues_refl|]. split; [done|]. split; [lia|]. split; [lia|]. split; [lia|].
    split; [lia|]. split; [lia|]. intros _. split; [done|]. split; [done|]. intros _ e He. by apply elem_of_nil in He. }
  case_decide as Hfull.
  { split; [done|]. split; [apply same_queues_refl|]. split; [done|]. split; [lia|]. split; [lia|]. split; [lia|].
    split; [lia|]. split; [lia|]. intros _. split; [done|]. split; [done|]. lia. }
  set (guard := match class with Some c => _ | None => _ end).
  destruct (guard && unasked w e) eqn:Hg.
  - apply andb_true_iff in Hg as [_ Hun].
    pose proof (dispatch_parts pre l e w Hw Hun ltac:(lia) H0) as Hd. destruct (dispatch ty near w e) as [w1 t].
    destruct Hd as (Hw1 & Hs1 & Hf1 & Hn1 & Hne1).
    rewrite cons_middle, app_assoc in Hw1, Hf1.
    specialize (IH (pre ++ [with_state e InFlight]) w1 (batch ++ [t]) Hw1 ltac:(lia)).
    rewrite length_app in IH. cbn [length] in IH. specialize (IH ltac:(lia)).
    destruct (dispatch_pass ty near can_send class w1 l (batch ++ [t])) as [[w2 l2] b2].
    destruct IH as (Hw2 & Hs2 & Hd2 & Hf2 & Hl2 & Hc2 & Hn2 & Hp2 & Hz2).
    rewrite <- app_assoc in Hw2, Hf2. cbn [app] in Hw2, Hf2.
    split; [done|]. split; [by eapply same_queues_trans|]. split; [by rewrite !fmap_cons, Hd2|].
    split; [lia|]. split; [lia|]. split; [lia|]. split; [lia|]. split; [|lia].
    intros _. destruct (decide (length b2 = length batch + 1)) as [Heq|Hneq]; [|apply Hp2; lia].
    destruct (Hz2 Heq) as [-> _]. done.
  - rewrite cons_middle, app_assoc in Hw. specialize (IH (pre ++ [e]) w batch Hw H0 Hn).
    destruct (dispatch_pass ty near can_send class w l batch) as [[w2 l2] b2].
    destruct IH as (Hw2 & Hs2 & Hd2 & Hf2 & Hl2 & Hc2 & Hn2 & Hp2 & Hz2).
    rewrite <- app_assoc in Hw2. rewrite <- (app_assoc pre [e] l), <- (app_assoc pre [e] l2) in Hf2.
    cbn [app] in Hw2, Hf2.
    split; [done|]. split; [done|]. split; [by rewrite !fmap_cons, Hd2|]. split; [lia|]. split; [lia|]. split; [lia|].
    split; [lia|]. split; [done|]. intros Heq. destruct (Hz2 Heq) as (-> & -> & Hnone).
    split; [done|]. split; [done|]. intros Hlt e' [->|He']%elem_of_cons Hun; [|by apply Hnone].
    rewrite Hun, andb_true_r in Hg. unfold guard in Hg. destruct class as [c|]; [|done].
    apply bool_decide_eq_false in Hg. eauto.
Qed.

(** What the passes leave alone. *)
Definition same_owed (w w' : Walk) : Prop :=
  page_queue w' = page_queue w ∧ parked_pages w' = parked_pages w ∧ referral_queue w' = referral_queue w ∧
  pages_queued w' = pages_queued w ∧ complete w' = complete w ∧ seed_round_done w' = seed_round_done w.

Lemma set_shortlist_id w : set_shortlist w (shortlist w) = w.
Proof. by destruct w. Qed.
Lemma parts_set_shortlist l w : parts tgt l w → parts tgt l (set_shortlist w l).
Proof. intros [K1 K2 K3 K4 K5 K6 K7 K8]. split; done. Qed.

Lemma dispatch_passes_parts can_send classes w batch :
  parts tgt (shortlist w) w → (0 ≤ next_request_id w)%Z →
  (next_request_id w + Z.of_nat (can_send - length batch) < 4294967296)%Z → length batch ≤ can_send →
  let '(w', batch') := dispatch_passes ty near can_send classes w batch in
  parts tgt (shortlist w') w' ∧ same_owed w w' ∧ e_distance <$> shortlist w' = e_distance <$> shortlist w ∧
  flight (shortlist w') w' + length batch = flight (shortlist w) w + length batch' ∧
  length batch ≤ length batch' ≤ can_send ∧
  next_request_id w' = (next_request_id w + Z.of_nat (length batch' - length batch))%Z ∧
  (length batch < length batch' → pending_requests w' ≠ ∅) ∧
  (length batch' = length batch → w' = w ∧
   (length batch < can_send → ∀ e, e ∈ shortlist w → unasked w e = true →
    Forall (λ class, ∃ c, class = Some c ∧ seed_class e ≠ c) classes)).
Proof.
  revert w batch. induction classes as [|class classes IH]; intros w batch Hw H0 Hn Hc; cbn [dispatch_passes].
  { split; [done|]. split; [unfold same_owed; tauto|]. split; [done|]. split; [lia|]. split; [lia|]. split; [lia|].
    split; [lia|]. intros _. split; [done|]. intros _ e _ _. constructor. }
  pose proof (dispatch_pass_parts can_send class (shortlist w) [] w batch Hw H0 Hn) as Hp.
  destruct (dispatch_pass ty near can_send class w (shortlist w) batch) as [[w1 l1] b1]. cbn [app] in Hp.
  destruct Hp as (Hw1 & (S1 & S2 & S3 & S4 & S5 & S6 & S7) & Hd1 & Hf1 & Hl1 & Hc1 & Hn1 & Hp1 & Hz1).
  specialize (Hc1 Hc). apply parts_set_shortlist in Hw1.
  assert (flight l1 (set_shortlist w1 l1) = flight l1 w1) as Hfl by done.
  case_decide as Hfull.
  { split; [done|]. split; [done|]. split; [done|]. cbn [shortlist set_shortlist]. split; [lia|]. split; [lia|].
    split; [done|]. split; [done|]. intros Heq. destruct (Hz1 Heq) as (-> & -> & _).
    split; [apply set_shortlist_id|]. lia. }
  specialize (IH (set_shortlist w1 l1) b1 Hw1). cbn [next_request_id set_shortlist shortlist] in IH.
  specialize (IH ltac:(lia) ltac:(lia) ltac:(lia)).
  destruct (dispatch_passes ty near can_send classes (set_shortlist w1 l1) b1) as [w2 b2].
  destruct IH as (Hw2 & Hs2 & Hd2 & Hf2 & Hl2 & Hn2 & Hp2 & Hz2).
  split; [done|]. split; [unfold same_owed in *; cbn in Hs2; intuition congruence|]. split; [congruence|].
  split; [lia|]. split; [lia|]. split; [lia|]. split.
  - intros Hlt. destruct (decide (length b2 = length b1)) as [Heq|]; [|apply Hp2; lia].
    destruct (Hz2 Heq) as [-> _]. apply Hp1. lia.
  - intros Heq. destruct (Hz1 ltac:(lia)) as (-> & -> & Hnone). destruct (Hz2 ltac:(lia)) as [-> Hrest].
    rewrite set_shortlist_id in *. split; [done|]. intros Hlt e He Hun. constructor; [by apply Hnone|].
    apply Hrest; [lia|done..].
Qed.
End dispatching.

(** ** Pages and referrals *)
Lemma find_entry_spec id l : match find_entry id l with
  | Some e => e ∈ l ∧ e_id e = id
  | None => id ∉ (e_id <$> l)
  end.
Proof.
  unfold find_entry, retain. induction l as [|x l IH]; [apply not_elem_of_nil|].
  rewrite filter_cons. case_decide as Hx; [apply bool_decide_eq_true in Hx; split; [left|done]|].
  destruct (head _); [split; [right|]; tauto|]. rewrite fmap_cons, not_elem_of_cons. split; [|done].
  intros ->. apply Hx. by apply bool_decide_eq_true.
Qed.

Lemma page_is_follow p : is_page p = true → is_follow_up p = true.
Proof. unfold is_follow_up. by intros ->. Qed.
Lemma started_is_page n s a b r : (0 < s)%Z → is_page (mkPending n s a b r) = true.
Proof. intros Hs. unfold is_page. cbn. by apply Z.ltb_lt. Qed.

Section sending.
Context (tgt : EmberNodeId).

(** A follow-up goes out: the books afterwards. *)
Lemma parts_send w w' l p :
  parts tgt l w → (0 ≤ next_request_id w)%Z → is_follow_up p = true →
  follows (p_node p) (pending_requests w) (page_nodes w) (referral_queue w) →
  (is_page p = true → p_node p ∈ (e_id <$> l)) → (0 ≤ p_start_position p)%Z →
  (p_referral p = true → p_start_position p = 0%Z) →
  pending_requests w' = <[next_request_id w := p]> (pending_requests w) →
  next_request_id w' = (next_request_id w + 1)%Z →
  queried w' = queried w → attempts w' = attempts w → pages_queued w' = pages_queued w →
  page_queue w' = page_queue w → parked_pages w' = parked_pages w → referral_queue w' = referral_queue w →
  parts tgt l w' ∧ flight l w' = S (flight l w).
Proof.
  intros Hw H0 Hp Hf Hpage Hst Hr HP Hn Hq Ha Hpg E1 E2 E3.
  assert (pending_requests w !! next_request_id w = None) as Hfresh.
  { apply eq_None_not_Some. intros [p' Hr']. apply (k_fresh _ _ _ Hw) in Hr'. lia. }
  destruct Hw as [K1 K2 K3 K4 K5 K6 K7 K8]. split; [split|].
  - unfold page_nodes. rewrite HP, Hq, E1, E2, E3. by apply core_send_follow.
  - done.
  - intros r p'. rewrite HP, Hn. intros [[<- <-]|[_ Hr']]%lookup_insert_Some; [lia|]. apply K3 in Hr'. lia.
  - done.
  - by rewrite Ha, Hq.
  - by rewrite Hpg.
  - by rewrite E1, E2.
  - intros r p'. rewrite HP. intros [[<- <-]|[_ Hr']]%lookup_insert_Some; [done|]. eauto.
  - unfold flight, pages_in_flight, referrals_in_flight. rewrite HP, !pending_count_insert by done.
    assert ((if is_page p then 1 else 0) + (if p_referral p then 1 else 0) = 1) as Hone.
    { unfold is_follow_up in Hp. destruct (p_referral p) eqn:E.
      - unfold is_page. rewrite (Hr eq_refl). done.
      - rewrite orb_false_r in Hp. by rewrite Hp. }
    lia.
Qed.

Definition same_rest (w w' : Walk) : Prop :=
  shortlist w' = shortlist w ∧ same_owed w w' ∧ queried w' = queried w ∧ attempts w' = attempts w.
Lemma same_rest_refl w : same_rest w w.
Proof. unfold same_rest, same_owed. tauto. Qed.
Lemma same_rest_trans w1 w2 w3 : same_rest w1 w2 → same_rest w2 w3 → same_rest w1 w3.
Proof. unfold same_rest, same_owed. intuition congruence. Qed.

Lemma send_pages_parts budget queue w batch skipped :
  parts tgt (shortlist w) w → (0 ≤ next_request_id w)%Z →
  (next_request_id w + Z.of_nat (budget - length batch) < 4294967296)%Z →
  (∀ p, p ∈ queue → p ∈ page_queue w) →
  let '(w', batch', left_) := send_pages budget queue w batch skipped in
  parts tgt (shortlist w') w' ∧ same_rest w w' ∧
  flight (shortlist w') w' + length batch = flight (shortlist w) w + length batch' ∧
  length batch ≤ length batch' ∧ (length batch ≤ budget → length batch' ≤ budget) ∧
  next_request_id w' = (next_request_id w + Z.of_nat (length batch' - length batch))%Z ∧
  (length batch < length batch' → pending_requests w' ≠ ∅) ∧
  (∀ p, p ∈ left_ → p ∈ queue ++ skipped) ∧
  (length batch' = length batch → w' = w ∧ left_ = queue ++ skipped ∧ (queue = [] ∨ budget ≤ length batch)).
Proof.
  revert w batch. induction queue as [|o queue IH]; intros w batch Hw H0 Hn Hin; cbn [send_pages].
  { split; [done|]. split; [apply same_rest_refl|]. split; [lia|]. split; [lia|]. split; [lia|]. split; [lia|].
    split; [lia|]. split; [done|]. auto. }
  case_decide as Hfull.
  { split; [done|]. split; [apply same_rest_refl|]. split; [lia|]. split; [lia|]. split; [lia|]. split; [lia|].
    split; [lia|]. split; [done|]. auto. }
  assert (o ∈ page_queue w) as Ho by (apply Hin; left).
  assert (o_node o ∈ page_nodes w) as Hpn.
  { unfold page_nodes. apply list_elem_of_fmap_2. rewrite elem_of_app. by left. }
  assert (o_node o ∈ (e_id <$> shortlist w)) as Hids by (apply (c_owed _ _ _ _ _ (k_core _ _ _ Hw)); by right).
  assert (0 < o_start o)%Z as Hst.
  { pose proof (k_starts _ _ _ Hw) as Hs. rewrite Forall_forall in Hs. apply Hs. rewrite elem_of_app. by left. }
  pose proof (find_entry_spec (o_node o) (shortlist w)) as Hfind. destruct (find_entry _ _) as [e|]; [|done].
  unfold take_request_id, wrap_u32. rewrite Z.mod_small by lia. cbv beta iota zeta.
  set (p := mkPending (o_node o) (o_start o) (o_resume_after o) (o_backed o) false).
  match goal with |- context [send_pages budget queue ?x _ skipped] => set (w1 := x) end.
  destruct (parts_send w w1 (shortlist w) p) as [Hw1 Hf1]; try done.
  { by apply page_is_follow, started_is_page. }
  { right; by left. }
  { cbn. lia. }
  match goal with |- context [send_pages budget queue w1 ?b skipped] => set (b1 := b) end.
  assert (length b1 = S (length batch)) as Hb1 by (unfold b1; rewrite length_app; cbn; lia).
  specialize (IH w1 b1 Hw1). change (next_request_id w1) with (next_request_id w + 1)%Z in IH.
  specialize (IH ltac:(lia) ltac:(lia) ltac:(intros; apply Hin; by right)).
  destruct (send_pages budget queue w1 b1 skipped) as [[w2 b2] left2].
  destruct IH as (Hw2 & Hs2 & Hf2 & Hl2 & Hc2 & Hn2 & Hp2 & Hleft2 & Hz2).
  assert (same_rest w w1) as Hs1 by (unfold same_rest, same_owed; done).
  split; [done|]. split; [by eapply same_rest_trans|]. change (shortlist w1) with (shortlist w) in Hf2.
  split; [lia|]. split; [lia|]. split; [lia|]. split; [lia|]. split.
  { intros _. destruct (decide (length b2 = length b1)) as [Heq|]; [|apply Hp2; lia].
    destruct (Hz2 Heq) as [-> _]. apply insert_non_empty. }
  split; [intros x Hx; right; auto|lia].
Qed.

Lemma send_referrals_parts can_send queue w batch :
  parts tgt (shortlist w) w → (0 ≤ next_request_id w)%Z →
  (next_request_id w + Z.of_nat (can_send - length batch) < 4294967296)%Z →
  (∀ n, n ∈ queue → n ∈ referral_queue w) →
  let '(w', batch', left_) := send_referrals can_send queue w batch in
  parts tgt (shortlist w') w' ∧ same_rest w w' ∧
  flight (shortlist w') w' + length batch = flight (shortlist w) w + length batch' ∧
  length batch ≤ length batch' ∧ (length batch ≤ can_send → length batch' ≤ can_send) ∧
  next_request_id w' = (next_request_id w + Z.of_nat (length batch' - length batch))%Z ∧
  (length batch < length batch' → pending_requests w' ≠ ∅) ∧
  (∀ n, n ∈ left_ → n ∈ queue) ∧
  (length batch' = length batch → w' = w ∧ (length batch < can_send → left_ = [])).
Proof.
  revert w batch. induction queue as [|n queue IH]; intros w batch Hw H0 Hn Hin; cbn [send_referrals].
  { split; [done|]. split; [apply same_rest_refl|]. split; [lia|]. split; [lia|]. split; [lia|]. split; [lia|].
    split; [lia|]. auto. }
  case_decide as Hfull.
  { split; [done|]. split; [apply same_rest_refl|]. split; [lia|]. split; [lia|]. split; [lia|]. split; [lia|].
    split; [lia|]. split; [done|]. split; [done|lia]. }
  destruct (head _) as [e|].
  2: { specialize (IH w batch Hw H0 Hn ltac:(intros; apply Hin; by right)).
       destruct (send_referrals can_send queue w batch) as [[w2 b2] left2].
       destruct IH as (? & ? & ? & ? & ? & ? & ? & Hleft & ?). do 7 (split; [done|]). split; [|done].
       intros x Hx. right. auto. }
  assert (n ∈ referral_queue w) as Hrn by (apply Hin; left).
  unfold take_request_id, wrap_u32. rewrite Z.mod_small by lia. cbv beta iota zeta.
  set (p := mkPending n 0 [] false true).
  match goal with |- context [send_referrals can_send queue ?x _] => set (w1 := x) end.
  destruct (parts_send w w1 (shortlist w) p) as [Hw1 Hf1]; try done.
  { right; by right. }
  match goal with |- context [send_referrals can_send queue w1 ?b] => set (b1 := b) end.
  assert (length b1 = S (length batch)) as Hb1 by (unfold b1; rewrite length_app; cbn; lia).
  specialize (IH w1 b1 Hw1). change (next_request_id w1) with (next_request_id w + 1)%Z in IH.
  specialize (IH ltac:(lia) ltac:(lia) ltac:(intros; apply Hin; by right)).
  destruct (send_referrals can_send queue w1 b1) as [[w2 b2] left2].
  destruct IH as (Hw2 & Hs2 & Hf2 & Hl2 & Hc2 & Hn2 & Hp2 & Hleft2 & Hz2).
  assert (same_rest w w1) as Hs1 by (unfold same_rest, same_owed; done).
  split; [done|]. split; [by eapply same_rest_trans|]. change (shortlist w1) with (shortlist w) in Hf2.
  split; [lia|]. split; [lia|]. split; [lia|]. split; [lia|]. split.
  { intros _. destruct (decide (length b2 = length b1)) as [Heq|]; [|apply Hp2; lia].
    destruct (Hz2 Heq) as [-> _]. apply insert_non_empty. }
  split; [intros x Hx; right; auto|lia].
Qed.

(** Fewer pages and referrals left to send. *)
Lemma parts_set_queues w q r :
  parts tgt (shortlist w) w → (∀ p, p ∈ q → p ∈ page_queue w) → (∀ n, n ∈ r → n ∈ referral_queue w) →
  parts tgt (shortlist w) (set_referral_queue (set_page_queue w q) r).
Proof.
  intros [K1 K2 K3 K4 K5 K6 K7 K8] Hq Hr. split; try done.
  - eapply core_drop; [exact K1| |done]. intros n. unfold page_nodes. cbn.
    rewrite !list_elem_of_fmap. intros (p & -> & Hp). exists p. split; [done|].
    rewrite elem_of_app in *. cbn in Hp. destruct Hp; auto.
  - cbn. rewrite Forall_forall in *. intros p. rewrite elem_of_app. intros [?|?]; apply K7; rewrite elem_of_app; auto.
Qed.
End sending.
