(* ===== verification/SearchOps.v ===== *)
(** * Every operation of a search keeps its books *)
From S2P Require Import Prelude NodeId Addr Contact Record Wire Crypto Messages SearchState Search SearchInv SearchWalk.

Section ops.
Context `{Crypto : Ed25519Blake3}.

(** ** Releasing parked pages *)
Lemma page_allowance_le s n : per_node_page_allowance s n ≤ MAX_PAGES_PER_NODE_EXHAUSTED.
Proof.
  unfold per_node_page_allowance, MAX_PAGES_PER_NODE, MAX_PAGES_PER_NODE_EXHAUSTED. repeat case_match; lia.
Qed.

(** What a release leaves alone. *)
Definition same_but_pages (w w' : Walk) : Prop :=
  shortlist w' = shortlist w ∧ queried w' = queried w ∧ attempts w' = attempts w ∧
  pending_requests w' = pending_requests w ∧ next_request_id w' = next_request_id w ∧
  referral_queue w' = referral_queue w ∧ seed_round_done w' = seed_round_done w ∧ complete w' = complete w ∧
  stale_responses w' = stale_responses w.

(** The parked pages shrink to [rest]; at most one of them is queued. *)
Lemma parts_release tgt w w' rest :
  parts tgt (shortlist w) w → same_but_pages w w' →
  (∀ p, p ∈ rest → p ∈ parked_pages w) → parked_pages w' = rest →
  (page_queue w' = page_queue w ∧ pages_queued w' = pages_queued w) ∨
  (∃ p b, p ∈ parked_pages w ∧ page_queue w' = page_queue w ++ [mkOwed (o_node p) (o_start p) (o_resume_after p) b] ∧
     pages_queued w' = incr (o_node p) (pages_queued w) ∧
     count_at (o_node p) (pages_queued w) < MAX_PAGES_PER_NODE_EXHAUSTED) →
  parts tgt (shortlist w') w'.
Proof.
  intros [K1 K2 K3 K4 K5 K6 K7 K8] (S1 & S2 & S3 & S4 & S5 & S6 & _) Hrest Hpark Hq.
  assert (∀ n, n ∈ page_nodes w' → n ∈ page_nodes w) as Hpn.
  { unfold page_nodes. intros n (p & -> & Hp)%list_elem_of_fmap. rewrite Hpark, elem_of_app in Hp.
    destruct Hp as [Hp|Hp]; [|apply list_elem_of_fmap_2; rewrite elem_of_app; right; auto].
    destruct Hq as [[Hq _]|(p0 & b & Hp0 & Hq & _)]; rewrite Hq in Hp.
    - apply list_elem_of_fmap_2. rewrite elem_of_app. by left.
    - rewrite elem_of_app, list_elem_of_singleton in Hp. destruct Hp as [Hp| ->].
      + apply list_elem_of_fmap_2. rewrite elem_of_app. by left.
      + cbn. apply list_elem_of_fmap_2. rewrite elem_of_app. by right. }
  rewrite S1. split; [|done|..].
  - rewrite S2, S4, S6. eapply core_drop; [exact K1|done|done].
  - by rewrite S4, S5.
  - done.
  - by rewrite S2, S3.
  - intros n. destruct Hq as [[_ Hq]|(p0 & b & _ & _ & Hq & Hlt)]; rewrite Hq; [done|].
    destruct (decide (n = o_node p0)) as [->|Hne]; [rewrite count_incr_eq; lia|by rewrite count_incr_ne].
  - rewrite Forall_forall in *. intros p. rewrite Hpark, elem_of_app.
    intros [Hp|Hp]; [|apply K7; rewrite elem_of_app; right; auto].
    destruct Hq as [[Hq _]|(p0 & b & Hp0 & Hq & _)]; rewrite Hq in Hp.
    + apply K7. rewrite elem_of_app. by left.
    + rewrite elem_of_app, list_elem_of_singleton in Hp. destruct Hp as [Hp| ->]; [apply K7; rewrite elem_of_app; by left|].
      cbn. apply K7. rewrite elem_of_app. by right.
  - by rewrite S4.
Qed.

Lemma release_from_parts s parked :
  parts (target s) (shortlist (walk s)) (walk s) → (∀ p, p ∈ parked → p ∈ parked_pages (walk s)) →
  let s' := release_from s parked in
  parts (target s) (shortlist (walk s')) (walk s') ∧ same_but_pages (walk s) (walk s') ∧
  s' = with_walk s (walk s') ∧ ∃ extra, page_queue (walk s') = page_queue (walk s) ++ extra.
Proof.
  intros Hw. induction parked as [|p parked IH]; intros Hin; cbn [release_from].
  { split; [|split; [done|]; split; [done|]; exists []; by rewrite app_nil_r].
    eapply (parts_release _ (walk s) _ []); [done|done| |done|by left].
    intros p Hp. by apply elem_of_nil in Hp. }
  case_decide; [apply IH; intros; apply Hin; by right|].
  case_decide as Ha; [apply IH; intros; apply Hin; by right|].
  split; [|split; [done|]; split; [done|]].
  - eapply (parts_release _ (walk s) _ parked); [done|done| |done|]; [intros x Hx; apply Hin; by right|].
    right. exists p. eexists. split; [apply Hin; left|]. split; [reflexivity|]. split; [done|].
    pose proof (page_allowance_le (with_walk s (set_parked_pages (walk s) parked)) (o_node p)). lia.
  - by eexists.
Qed.

Lemma release_parked_parts s :
  parts (target s) (shortlist (walk s)) (walk s) →
  let s' := release_parked_page s in
  parts (target s) (shortlist (walk s')) (walk s') ∧ same_but_pages (walk s) (walk s') ∧
  s' = with_walk s (walk s') ∧ ∃ extra, page_queue (walk s') = page_queue (walk s) ++ extra.
Proof.
  assert (s = with_walk s (walk s)) as Hid by by destruct s.
  assert (∃ extra, page_queue (walk s) = page_queue (walk s) ++ extra) as Hq by (exists []; by rewrite app_nil_r).
  intros Hw. unfold release_parked_page. destruct (_ || _); [done|]. destruct (value_budget_full (got s)).
  { split; [|done]. eapply (parts_release _ (walk s) _ []); [done|done| |done|by left].
    intros p Hp. by apply elem_of_nil in Hp. }
  cbv zeta. destruct (_ || _); [done|]. pose proof (release_from_parts s (parked_pages (walk s)) Hw ltac:(done)) as H.
  cbv zeta in H. tauto.
Qed.

(** ** Sending *)
Lemma sorted_distances l l' : e_distance <$> l' = e_distance <$> l → StronglySorted dist_le l → StronglySorted dist_le l'.
Proof.
  revert l'. induction l as [|x l IH]; intros [|y l'] Hd Hs; try discriminate; [constructor|].
  rewrite !fmap_cons in Hd. injection Hd as Hxy Hd. apply StronglySorted_cons in Hs as [Hx Hs].
  constructor; [by apply IH|]. unfold dist_le in *. rewrite Hxy. clear -Hx Hd. revert l' Hd.
  induction Hx as [|z l Hz _ IH]; intros [|y' l'] Hd; try discriminate; [constructor|].
  rewrite !fmap_cons in Hd. injection Hd as Hyz Hd. constructor; [by rewrite Hyz|auto].
Qed.

Lemma flight_in_flight w : flight (shortlist w) w = in_flight w.
Proof. done. Qed.

(** Nothing is outstanding exactly when nothing is in flight. *)
Lemma pending_empty_flight tgt w : parts tgt (shortlist w) w → pending_requests w = ∅ → in_flight w = 0.
Proof.
  intros Hw He. unfold in_flight, pages_in_flight, referrals_in_flight. rewrite He.
  assert (count_if (in_state InFlight) (shortlist w) = 0) as ->; [|done].
  destruct (count_if _ _) eqn:E; [done|]. exfalso.
  assert (existsb (in_state InFlight) (shortlist w) = true) as Hex.
  { rewrite existsb_count, E. apply bool_decide_eq_true. lia. }
  apply existsb_exists in Hex as (e & Hin%list_elem_of_In & Hst%in_state_true).
  destruct (c_inflight _ _ _ _ _ (k_core _ _ _ Hw) e Hin Hst) as (r & p & Hr & _). rewrite He in Hr.
  by rewrite lookup_empty in Hr.
Qed.

(** Nothing queued, and nobody left to ask. *)
Definition idle (w : Walk) : Prop :=
  page_queue w = [] ∧ referral_queue w = [] ∧ ∀ e, e ∈ shortlist w → unasked w e = false.

(** Changes to the turn flags do not matter. *)
Lemma parts_flags tgt w w' :
  parts tgt (shortlist w) w → same_rest w w' → pending_requests w' = pending_requests w →
  next_request_id w' = next_request_id w → parts tgt (shortlist w') w'.
Proof.
  intros [K1 K2 K3 K4 K5 K6 K7 K8] (S1 & (O1 & O2 & O3 & O4 & _) & S3 & S4) Hp Hn.
  rewrite S1. split; unfold page_nodes; rewrite ?S3, ?S4, ?O1, ?O2, ?O3, ?O4, ?Hp, ?Hn; done.
Qed.

Record sent (s s' : IterativeSearch) (batch : list QueryTarget) : Prop := mkSent {
  sent_parts : parts (target s) (shortlist (walk s')) (walk s');
  sent_dist : e_distance <$> shortlist (walk s') = e_distance <$> shortlist (walk s);
  sent_flight : in_flight (walk s') = in_flight (walk s) + length batch;
  sent_next : next_request_id (walk s') = (next_request_id (walk s) + Z.of_nat (length batch))%Z;
  sent_same : s' = with_walk s (walk s');
  sent_complete : complete (walk s') = complete (walk s);
  sent_bound : batch ≠ [] → in_flight (walk s') ≤ ALPHA;
  sent_some : batch ≠ [] → pending_requests (walk s') ≠ ∅;
  sent_none : batch = [] → complete (walk s) = true ∨ pending_requests (walk s) ≠ ∅ ∨
    idle (walk s') ∧ page_queue (walk s) = [];
}.

(** One half of a batch: from [w] with [b] queries to [w'] with [b']. *)
Record half (tgt : EmberNodeId) (cap : nat) (w w' : Walk) (b b' : list QueryTarget) : Prop := mkHalf {
  h_parts : parts tgt (shortlist w') w';
  h_dist : e_distance <$> shortlist w' = e_distance <$> shortlist w;
  h_flight : in_flight w' + length b = in_flight w + length b';
  h_next : next_request_id w' = (next_request_id w + Z.of_nat (length b' - length b))%Z;
  h_complete : complete w' = complete w;
  h_len : length b ≤ length b' ≤ cap;
  h_some : length b < length b' → pending_requests w' ≠ ∅;
}.

Lemma page_budget_le w can_send : can_send ≠ 0 → page_budget w can_send ≤ can_send ∧ (2 ≤ can_send → 0 < page_budget w can_send).
Proof.
  intros Hc. unfold page_budget. assert (can_send / 2 ≤ can_send) by (apply Nat.div_le_upper_bound; lia).
  assert (2 ≤ can_send → 0 < can_send / 2) by (intros; apply Nat.div_str_pos; lia). cbv zeta.
  destruct (negb _ || _); case_bool_decide; destruct (page_turn_owed w); cbn [andb]; lia.
Qed.

Lemma send_page_share_half tgt w can_send :
  parts tgt (shortlist w) w → (0 ≤ next_request_id w)%Z → can_send ≠ 0 →
  (next_request_id w + Z.of_nat can_send < 4294967296)%Z →
  let '(w', b) := send_page_share w can_send in
  half tgt can_send w w' [] b ∧
  (b = [] → shortlist w' = shortlist w ∧ queried w' = queried w ∧ page_queue w' = page_queue w ∧
   (2 ≤ can_send → page_queue w' = [])).
Proof.
  intros Hw H0 Hc Hn. destruct (page_budget_le w can_send Hc) as [Hb Hb2]. unfold send_page_share.
  pose proof (send_pages_parts tgt (page_budget w can_send) (page_queue w) w [] [] Hw H0 ltac:(cbn [length]; lia) ltac:(done)) as Hp.
  destruct (send_pages _ (page_queue w) w [] []) as [[w2 b2] q2]. cbn [length] in Hp. rewrite app_nil_r in Hp.
  destruct Hp as (Hw2 & (S1 & (O1 & O2 & O3 & O4 & O5 & O6) & S3 & S4) & Hf2 & _ & Hl2 & Hn2 & Hp2 & Hq2 & Hz2).
  assert (parts tgt (shortlist (set_page_queue w2 q2)) (set_page_queue w2 q2)) as Hw3.
  { apply (parts_set_queues _ _ q2 (referral_queue w2)) in Hw2; [|by rewrite O1|done]. exact Hw2. }
  set (w3 := set_page_queue w2 q2) in *. set (w4 := if bool_decide _ then _ else _).
  assert (shortlist w4 = shortlist w2 ∧ pending_requests w4 = pending_requests w2 ∧ next_request_id w4 = next_request_id w2 ∧
    page_queue w4 = q2 ∧ complete w4 = complete w2 ∧ queried w4 = queried w2) as
    (F1 & F2 & F3 & F5 & F6 & F7) by (unfold w4, w3; case_match; done).
  split; [split|].
  - unfold w4. case_match; [|done]. by apply (parts_flags _ w3).
  - by rewrite F1, S1.
  - rewrite <- !flight_in_flight. rewrite <- Hf2. unfold flight, pages_in_flight, referrals_in_flight. by rewrite F1, F2.
  - rewrite F3. cbn [length]. done.
  - by rewrite F6.
  - cbn [length]. split; [lia|]. etransitivity; [|exact Hb]. apply Hl2. lia.
  - rewrite F2. done.
  - intros ->. destruct (Hz2 eq_refl) as (-> & -> & Hor). rewrite F1, F7, F5. split; [done|]. split; [done|]. split; [done|].
    intros H2. destruct Hor as [?|Hle]; [done|]. cbn in Hle. specialize (Hb2 H2). lia.
Qed.

Lemma send_descent_half tgt ty w can_send b :
  parts tgt (shortlist w) w → (0 ≤ next_request_id w)%Z → length b < can_send →
  (next_request_id w + Z.of_nat (can_send - length b) < 4294967296)%Z →
  let '(w', b') := send_descent ty w can_send b in
  half tgt can_send w w' b b' ∧
  (length b' = length b → page_queue w' = page_queue w ∧ referral_queue w' = [] ∧ shortlist w' = shortlist w ∧
   queried w' = queried w ∧ pending_requests w' = pending_requests w ∧ ∀ e, e ∈ shortlist w → unasked w e = false).
Proof.
  intros Hw H0 Hlt Hn. unfold send_descent.
  pose proof (send_referrals_parts tgt can_send (referral_queue w) w b Hw H0 Hn ltac:(done)) as Hr.
  destruct (send_referrals can_send (referral_queue w) w b) as [[w5 b5] r5].
  destruct Hr as (Hw5 & (S1 & (O1 & O2 & O3 & O4 & O5 & O6) & S3 & S4) & Hf5 & Hl5 & Hc5 & Hn5 & Hp5 & Hr5 & Hz5).
  specialize (Hc5 ltac:(lia)). set (w6 := set_referral_queue w5 r5).
  assert (parts tgt (shortlist w6) w6) as Hw6.
  { apply (parts_set_queues _ _ (page_queue w5) r5) in Hw5; [|done|by rewrite O3]. destruct w5; exact Hw5. }
  set (classes := if seed_round_done w6 then _ else _). set (near := if bool_decide _ then _ else _).
  pose proof (dispatch_passes_parts tgt ty near can_send classes w6 b5 Hw6) as Hd.
  change (next_request_id w6) with (next_request_id w5) in Hd.
  specialize (Hd ltac:(lia) ltac:(lia) ltac:(lia)).
  destruct (dispatch_passes ty near can_send classes w6 b5) as [w7 b7].
  destruct Hd as (Hw7 & (P1 & P2 & P3 & P4 & P5 & P6) & Hd7 & Hf7 & Hl7 & Hn7 & Hp7 & Hz7).
  change (shortlist w6) with (shortlist w5) in Hd7. set (w8 := if bool_decide _ then _ else _).
  assert (shortlist w8 = shortlist w7 ∧ pending_requests w8 = pending_requests w7 ∧ next_request_id w8 = next_request_id w7 ∧
    page_queue w8 = page_queue w7 ∧ parked_pages w8 = parked_pages w7 ∧ referral_queue w8 = referral_queue w7 ∧
    pages_queued w8 = pages_queued w7 ∧ complete w8 = complete w7 ∧ queried w8 = queried w7 ∧ attempts w8 = attempts w7)
    as (G1 & G2 & G3 & G4 & G5 & G6 & G7 & G8 & G9 & G10) by (unfold w8; repeat case_match; done).
  split; [split|].
  - destruct Hw7 as [K1 K2 K3 K4 K5 K6 K7 K8]. rewrite G1.
    split; unfold page_nodes; rewrite ?G2, ?G3, ?G4, ?G5, ?G6, ?G7, ?G9, ?G10; done.
  - rewrite G1, Hd7, S1. done.
  - assert (in_flight w8 = flight (shortlist w7) w7) as -> by (unfold in_flight, flight, pages_in_flight, referrals_in_flight; by rewrite G1, G2).
    rewrite <- (flight_in_flight w). change (flight (shortlist w6) w6) with (flight (shortlist w5) w5) in Hf7. lia.
  - rewrite G3, Hn7, Hn5. lia.
  - rewrite G8, P5. exact O5.
  - lia.
  - intros Hb. rewrite G2. destruct (decide (length b7 = length b5)) as [Heq|]; [|apply Hp7; lia].
    destruct (Hz7 Heq) as [-> _]. apply Hp5. lia.
  - intros Heq. destruct (Hz5 ltac:(lia)) as [-> Hleft]. destruct (Hz7 ltac:(lia)) as [-> Hnone].
    rewrite G1, G2, G4, G6, G9. split; [done|]. split; [apply Hleft; lia|]. do 3 (split; [done|]).
    intros e He. destruct (unasked w e) eqn:Hun; [|done]. exfalso.
    specialize (Hnone ltac:(lia) e He Hun). unfold classes in Hnone. cbn [seed_round_done set_referral_queue w6] in Hnone.
    destruct (seed_round_done w).
    + apply Forall_cons in Hnone as [(c & ? & _) _]. discriminate.
    + rewrite !Forall_cons in Hnone. destruct Hnone as ((c0 & [= <-] & H0') & (c1 & [= <-] & H1') & (c2 & [= <-] & H2') & _).
      unfold seed_class in *. destruct (pinned e), (is_verified (e_contact e)); done.
Qed.

Lemma next_to_query_sent s :
  parts (target s) (shortlist (walk s)) (walk s) → (0 ≤ next_request_id (walk s))%Z →
  (next_request_id (walk s) + Z.of_nat ALPHA < 4294967296)%Z →
  sent s (next_to_query s).1 (next_to_query s).2.
Proof.
  intros Hw H0 Hn. unfold next_to_query.
  assert (s = with_walk s (walk s)) as Hid by by destruct s.
  destruct (complete (walk s)) eqn:Hcomp.
  { split; cbn [fst snd length]; first [done|lia|by auto|by intros []]. }
  case_decide as Hcs.
  { split; cbn [fst snd length]; first [done|lia|by intros []|idtac]. intros _. right; left. intros He.
    rewrite (pending_empty_flight (target s) (walk s) Hw He) in Hcs. done. }
  destruct (release_parked_parts s Hw) as (Hw1 & (R1 & R2 & R3 & R4 & R5 & R6 & R7 & R8 & R9) & Hid1 & extra & Hextra).
  set (s1 := release_parked_page s) in *. set (w1 := walk s1) in *.
  assert (in_flight w1 = in_flight (walk s)) as Hf1.
  { unfold in_flight, pages_in_flight, referrals_in_flight. by rewrite R1, R4. }
  set (can_send := ALPHA - in_flight (walk s)) in *. cbv zeta.
  pose proof (send_page_share_half (target s) w1 can_send Hw1 ltac:(lia) Hcs ltac:(lia)) as Hp.
  destruct (send_page_share w1 can_send) as [w2 b2]. destruct Hp as [[A1 A2 A3 A4 A5 A6 A7] Hnone2]. cbn [length] in *.
  case_decide as Hfull.
  { split; cbn [fst snd walk with_walk target]; try lia.
    - done.
    - congruence.
    - by rewrite Hid1.
    - congruence.
    - intros _. apply A7. lia.
    - intros ->. cbn [length] in Hfull. lia. }
  pose proof (send_descent_half (target s) (search_type s1) w2 can_send b2 A1 ltac:(lia) ltac:(lia) ltac:(lia)) as Hd.
  destruct (send_descent (search_type s1) w2 can_send b2) as [w3 b3]. destruct Hd as [[B1 B2 B3 B4 B5 B6 B7] Hnone3].
  split; cbn [fst snd walk with_walk target]; try lia.
  - done.
  - congruence.
  - by rewrite Hid1.
  - congruence.
  - intros Hb. assert (length b3 ≠ 0) by (destruct b3; [done|cbn; lia]).
    destruct (decide (length b3 = length b2)) as [Heq|]; [|apply B7; lia].
    destruct (Hnone3 Heq) as (_ & _ & _ & _ & -> & _). apply A7. lia.
  - intros ->. cbn [length] in *. destruct b2 as [|]; [|cbn [length] in B6; lia].
    destruct (Hnone2 eq_refl) as (E1 & E2 & E3 & Hpages). destruct (Hnone3 eq_refl) as (Q1 & Q2 & Q3 & Q4 & Q5 & Q6).
    destruct (decide (pending_requests (walk s) = ∅)) as [He|]; [|auto]. right; right.
    pose proof (pending_empty_flight (target s) (walk s) Hw He) as Hzero. unfold idle.
    assert (page_queue w2 = []) as Hempty by (apply Hpages; unfold can_send, ALPHA; lia).
    rewrite Q1, Q2, Q3. split; [split; [done|]; split; [done|]|].
    + intros e Hein. specialize (Q6 e Hein). unfold unasked in *. by rewrite Q4.
    + rewrite E3, Hextra in Hempty. by apply app_eq_nil in Hempty as [? _].
Qed.
End ops.

(** ** Entries that change state *)
Lemma update_entry_count (g : ShortlistEntry → bool) id f l :
  (∀ e, g (f e) = g e) → count_if g (update_entry id f l) = count_if g l.
Proof.
  intros Hg. induction l as [|x l IH]; [done|]. cbn [update_entry].
  case_bool_decide; rewrite !count_if_add; [by rewrite Hg|by rewrite IH].
Qed.
Lemma update_entry_count_le (g : ShortlistEntry → bool) id f l :
  (∀ e, g (f e) = true → g e = true) → count_if g (update_entry id f l) ≤ count_if g l.
Proof.
  intros Hg. induction l as [|x l IH]; [done|]. cbn [update_entry]. case_bool_decide; rewrite !count_if_add; [|lia].
  destruct (g (f x)) eqn:E; [rewrite (Hg x E)|destruct (g x)]; lia.
Qed.
Lemma update_entry_Forall (Q : ShortlistEntry → Prop) id f l :
  (∀ e, Q e → Q (f e)) → Forall Q l → Forall Q (update_entry id f l).
Proof.
  intros Hf. induction 1 as [|x l Hx Hl IH]; [constructor|]. cbn [update_entry]. case_bool_decide; constructor; auto.
Qed.
Lemma update_entry_distances id f l :
  (∀ e, e_distance (f e) = e_distance e) → e_distance <$> update_entry id f l = e_distance <$> l.
Proof.
  intros Hf. induction l as [|x l IH]; [done|]. cbn [update_entry]. case_bool_decide; cbn; [by rewrite Hf|by f_equal].
Qed.

(** [n] has answered: its entries say so and it will not be asked anew. *)
Definition answered (n : EmberNodeId) (w : Walk) : Prop :=
  n ∈ queried w ∧ ∀ e, e ∈ shortlist w → e_id e = n → e_state e = Responded.

(** The books after one request left the table and one entry changed state. *)
Lemma parts_settle tgt w w' id st q' pg' :
  parts tgt (shortlist w) w → st ≠ InFlight →
  core (update_entry id (λ e, with_state e st) (shortlist w)) q' (pending_requests w') pg' (referral_queue w) →
  shortlist w' = update_entry id (λ e, with_state e st) (shortlist w) →
  (∀ r p, pending_requests w' !! r = Some p → pending_requests w !! r = Some p) →
  queried w' = q' → (∀ n, n ∈ queried w → n ∈ q' ∨ count_at n (attempts w) < MAX_QUERY_ATTEMPTS) →
  page_nodes w' = pg' → Forall (λ p, (0 < o_start p)%Z) (page_queue w' ++ parked_pages w') →
  referral_queue w' = referral_queue w → next_request_id w' = next_request_id w → attempts w' = attempts w →
  pages_queued w' = pages_queued w → parts tgt (shortlist w') w'.
Proof.
  intros [K1 K2 K3 K4 K5 K6 K7 K8] Hst Hcore Hl HP Hq Hq' Hpg Hstart Hr Hn Ha Hpages. rewrite Hl. split.
  - by rewrite Hq, Hpg, Hr.
  - by apply update_entry_Forall.
  - intros r p Hp. rewrite Hn. eauto.
  - intros n. unfold referred_by. rewrite update_entry_count by done. apply K4.
  - intros n. rewrite Ha, Hq. destruct (K5 n) as [Hle Hlt]. split; [done|]. intros Hnq.
    destruct (decide (n ∈ queried w)) as [Hin|]; [|auto]. destruct (Hq' n Hin); done.
  - by rewrite Hpages.
  - done.
  - intros r p Hp. eauto.
Qed.

Lemma count_inflight_update st id l :
  st ≠ InFlight → count_if (in_state InFlight) (update_entry id (λ e, with_state e st) l) ≤ count_if (in_state InFlight) l.
Proof. intros Hst. apply update_entry_count_le. intros e He%in_state_true. cbn in He. congruence. Qed.

Lemma pending_count_delete_le f r P : pending_count f (delete r P) ≤ pending_count f P.
Proof.
  destruct (P !! r) as [p|] eqn:E; [rewrite (pending_count_delete f r p P E); lia|by rewrite delete_id].
Qed.

Definition settle_answer (w : Walk) (r : Z) (p : PendingQuery) : Walk :=
  set_shortlist (set_pending_requests w (delete r (pending_requests w)))
    (update_entry (p_node p) (λ e, with_state e Responded) (shortlist w)).

Lemma answer_parts tgt w r p :
  parts tgt (shortlist w) w → pending_requests w !! r = Some p →
  let w' := settle_answer w r p in
  parts tgt (shortlist w') w' ∧ answered (p_node p) w' ∧
  (p_referral p = false → p_node p ∈ (e_id <$> shortlist w')) ∧ in_flight w' ≤ in_flight w.
Proof.
  intros Hw Hr w'. pose proof (k_core _ _ _ Hw) as Hc.
  assert (∀ r' p', pending_requests w' !! r' = Some p' → pending_requests w !! r' = Some p') as Hdel.
  { intros r' p'. cbn. rewrite lookup_delete_Some. tauto. }
  assert (in_flight w' ≤ in_flight w) as Hfl.
  { unfold in_flight, pages_in_flight, referrals_in_flight, w', settle_answer.
    cbn [shortlist set_shortlist pending_requests set_pending_requests].
    pose proof (count_inflight_update Responded (p_node p) (shortlist w) ltac:(done)).
    pose proof (pending_count_delete_le is_page r (pending_requests w)).
    pose proof (pending_count_delete_le p_referral r (pending_requests w)). lia. }
  destruct (is_follow_up p) eqn:Hp.
  - assert (answered (p_node p) w) as [Hq Hst] by (apply (c_follow _ _ _ _ _ Hc); left; eauto).
    assert (shortlist w' = shortlist w) as Hsl by (unfold w'; cbn; by apply update_entry_noop).
    split; [|split; [|split; [|done]]].
    + eapply (parts_settle tgt w w' (p_node p) Responded (queried w) (page_nodes w)); try done; [|auto|apply Hw].
      rewrite update_entry_noop by done. eapply core_settle_follow; [exact Hc|done|done|auto].
    + unfold answered. rewrite Hsl. done.
    + intros Href. rewrite Hsl. apply (c_owed _ _ _ _ _ Hc). left. exists r, p. split; [done|]. split; [|done].
      unfold is_follow_up in Hp. by rewrite Href, orb_false_r in Hp.
  - destruct (c_first _ _ _ _ _ Hc r p Hr Hp) as (e0 & He0 & Hid0 & Hst0).
    assert (p_node p ∈ (e_id <$> shortlist w)) as Hin by (rewrite <- Hid0; by apply list_elem_of_fmap_2).
    destruct (entry_split _ _ (c_nodup _ _ _ _ _ Hc) Hin) as (pre & e & post & Hl & Hid & Hpre).
    assert (shortlist w' = pre ++ with_state e Responded :: post) as Hsl.
    { unfold w'. cbn. rewrite Hl. by apply update_entry_here. }
    assert (core (shortlist w') (queried w) (pending_requests w') (page_nodes w) (referral_queue w)) as Hc'.
    { rewrite Hsl. rewrite Hl in Hc. by eapply core_settle. }
    split; [|split; [|split; [|done]]].
    + eapply (parts_settle tgt w w' (p_node p) Responded (queried w) (page_nodes w)); try done; [auto|apply Hw].
    + split.
      * cbn. rewrite <- Hid0. apply (c_asked _ _ _ _ _ Hc); [done|congruence].
      * intros e' He' Hid'. assert (e' = with_state e Responded) as ->; [|done].
        eapply core_inj; [exact Hc'|done| |change (e_id e' = e_id e); congruence]. rewrite Hsl, elem_of_app, elem_of_cons. auto.
    + intros _. unfold w'. cbn. by rewrite update_entry_ids.
Qed.

Section ops2.
Context `{Crypto : Ed25519Blake3}.

(** ** Pages and referrals earned by an answer *)
Lemma parts_owe tgt w w' n :
  parts tgt (shortlist w) w → answered n w →
  shortlist w' = shortlist w → queried w' = queried w → attempts w' = attempts w →
  pending_requests w' = pending_requests w → next_request_id w' = next_request_id w →
  (∀ m, count_at m (pages_queued w') ≤ MAX_PAGES_PER_NODE_EXHAUSTED) →
  (∀ p, p ∈ page_queue w' ++ parked_pages w' → p ∈ page_queue w ++ parked_pages w ∨
     o_node p = n ∧ (0 < o_start p)%Z ∧ n ∈ (e_id <$> shortlist w)) →
  (∀ m, m ∈ referral_queue w' → m ∈ referral_queue w ∨ m = n) → parts tgt (shortlist w') w'.
Proof.
  intros [K1 K2 K3 K4 K5 K6 K7 K8] [Hq Hst] E1 E2 E3 E4 E5 Hpages Hpg Hrf. rewrite E1. split; rewrite ?E2, ?E3, ?E4, ?E5; try done.
  - eapply core_owe; [exact K1| |exact Hrf|done|done].
    unfold page_nodes. intros x (p & -> & Hp)%list_elem_of_fmap.
    destruct (Hpg p Hp) as [?|(-> & _ & ?)]; [left; by apply list_elem_of_fmap_2|by right].
  - rewrite Forall_forall in *. intros p Hp. destruct (Hpg p Hp) as [?|(_ & ? & _)]; auto.
Qed.

Lemma queue_next_page_parts s node asked_start asked_resume page next_resume cut backed :
  parts (target s) (shortlist (walk s)) (walk s) → answered node (walk s) → node ∈ (e_id <$> shortlist (walk s)) →
  (0 ≤ asked_start)%Z →
  let s' := queue_next_page s node asked_start asked_resume page next_resume cut backed in
  parts (target s) (shortlist (walk s')) (walk s') ∧ s' = with_walk s (walk s') ∧
  shortlist (walk s') = shortlist (walk s) ∧ queried (walk s') = queried (walk s) ∧
  pending_requests (walk s') = pending_requests (walk s) ∧ next_request_id (walk s') = next_request_id (walk s) ∧
  complete (walk s') = complete (walk s).
Proof.
  intros Hw Ha Hin H0. assert (s = with_walk s (walk s)) as Hid by by destruct s.
  unfold queue_next_page. destruct (negb _); [done|].
  destruct (Z.leb_spec (total_available page) (next_position page)); [done|].
  destruct (Z.leb_spec (next_position page) asked_start) as [|Hnext]; [done|].
  destruct (value_budget_full (got s)); [done|]. cbv zeta.
  set (resume := if cut && Z.ltb 0 asked_start then _ else _).
  assert (0 < resume.1)%Z as Hres.
  { unfold resume. destruct cut; [|cbn; lia]. destruct (Z.ltb_spec 0 asked_start); cbn; lia. }
  destruct resume as [start rs]. cbn [fst] in Hres.
  assert (∀ w', w' = park_page (walk s) node start rs →
    parts (target s) (shortlist w') w' ∧ shortlist w' = shortlist (walk s) ∧ queried w' = queried (walk s) ∧
    pending_requests w' = pending_requests (walk s) ∧ next_request_id w' = next_request_id (walk s) ∧
    complete w' = complete (walk s)) as Hpark.
  { intros w' ->. unfold park_page. destruct (existsb _ _); [done|]. split; [|done].
    eapply (parts_owe _ (walk s)); try done; [apply Hw| |auto].
    intros p. cbn. rewrite !elem_of_app, list_elem_of_singleton. intros [?|[?| ->]]; [auto..|]. right. done. }
  case_decide.
  { destruct (_ && _); [|done]. cbn [walk with_walk target]. destruct (Hpark _ eq_refl) as (? & ? & ? & ? & ? & ?). done. }
  case_decide as Hq.
  { destruct (_ && _); [|done]. cbn [walk with_walk target]. destruct (Hpark _ eq_refl) as (? & ? & ? & ? & ? & ?). done. }
  split; [|done]. cbn [walk with_walk target]. eapply (parts_owe _ (walk s)); try done; [..|auto].
  - intros m. cbn. destruct (decide (m = node)) as [->|Hne]; [|rewrite count_incr_ne by done; apply Hw].
    rewrite count_incr_eq. pose proof (page_allowance_le s node). lia.
  - intros p. cbn. rewrite !elem_of_app, list_elem_of_singleton. intros [[?| ->]|?]; [auto| |auto].
    right. split; [done|]. split; [cbn; lia|done].
Qed.

Lemma maybe_queue_referral_parts s node :
  parts (target s) (shortlist (walk s)) (walk s) → answered node (walk s) →
  let s' := maybe_queue_referral s node in
  parts (target s) (shortlist (walk s')) (walk s') ∧ s' = with_walk s (walk s') ∧
  shortlist (walk s') = shortlist (walk s) ∧ queried (walk s') = queried (walk s) ∧
  pending_requests (walk s') = pending_requests (walk s) ∧ next_request_id (walk s') = next_request_id (walk s) ∧
  complete (walk s') = complete (walk s).
Proof.
  intros Hw Ha. assert (s = with_walk s (walk s)) as Hid by by destruct s. unfold maybe_queue_referral.
  destruct (_ || _); [done|]. destruct (existsb _ _); [|done]. split; [|done].
  cbn [walk with_walk target]. eapply (parts_owe _ (walk s)); try done; [apply Hw|auto|].
  intros m. cbn. rewrite elem_of_app, list_elem_of_singleton. done.
Qed.
End ops2.
