(* ===== verification/SearchStep.v ===== *)
(** * A search as a step relation

    The remaining operations, the steps a search takes, and the invariant of
    every reachable search. *)
From S2P Require Import Prelude NodeId Addr Contact Record Wire Crypto Messages SearchState Search SearchInv SearchWalk SearchOps.

(** ** The shortlist alone *)

(** What [parts] says of the shortlist, the rest of the walk fixed. *)
Lemma parts_shortlist tgt w l l' :
  parts tgt l w → core l' (queried w) (pending_requests w) (page_nodes w) (referral_queue w) →
  Forall (λ e, e_distance e = distance tgt (e_id e)) l' → (∀ n, referred_by n l' ≤ MAX_SHORTLIST_ENTRIES_PER_REFERRER) →
  parts tgt l' w.
Proof. intros [K1 K2 K3 K4 K5 K6 K7 K8] ???. by split. Qed.

Lemma parts_perm tgt w l l' : parts tgt l w → l' ≡ₚ l → parts tgt l' w.
Proof.
  intros Hw Hp. eapply parts_shortlist; [exact Hw|..].
  - eapply core_perm; [apply Hw|done].
  - rewrite Hp. apply Hw.
  - intros n. unfold referred_by. rewrite (count_if_perm _ _ _ Hp). apply Hw.
Qed.
Lemma sort_shortlist_perm l : sort_shortlist l ≡ₚ l.
Proof. apply stable_sort_perm. Qed.
Lemma sort_shortlist_sorted l : StronglySorted dist_le (sort_shortlist l).
Proof. apply stable_sort_sorted; intros *; [apply bytes_le_total|apply bytes_le_trans]. Qed.

Lemma parts_sublist tgt w l l' :
  parts tgt l w → l' `sublist_of` l →
  (∀ e, e ∈ l → e_state e = InFlight ∨ owes_page (e_id e) (pending_requests w) (page_nodes w) → e ∈ l') → parts tgt l' w.
Proof.
  intros Hw Hs Hk. eapply parts_shortlist; [exact Hw|..].
  - eapply core_trim; [apply Hw|done|done].
  - eapply Forall_sublist; [exact Hs|apply Hw].
  - intros n. etransitivity; [apply (count_if_sublist _ _ _ Hs)|apply Hw].
Qed.

Lemma owed_nodes_spec w n :
  owes_page n (pending_requests w) (page_nodes w) → n ∈ owed_nodes w.
Proof.
  unfold owed_nodes, owes_page, page_nodes. rewrite fmap_app, !elem_of_app. intros [(r & p & Hr & Hp & <-)|[?|?]]; [|auto..].
  right; right. apply list_elem_of_fmap_2. apply elem_of_retain. split; [done|]. apply list_elem_of_fmap.
  exists (r, p). split; [done|]. by apply elem_of_map_to_list.
Qed.

Lemma trim_shortlist_sublist w l : trim_shortlist w l `sublist_of` l.
Proof.
  unfold trim_shortlist. case_decide; [done|]. rewrite <- (take_drop K_BUCKET_SIZE l) at 3.
  apply sublist_app; [done|apply retain_sublist].
Qed.
Lemma trim_parts tgt w l : parts tgt l w → parts tgt (trim_shortlist w l) w.
Proof.
  intros Hw. eapply parts_sublist; [exact Hw|apply trim_shortlist_sublist|]. intros e He Hk.
  unfold trim_shortlist. case_decide; [done|]. rewrite <- (take_drop K_BUCKET_SIZE l) in He.
  rewrite elem_of_app in *. destruct He as [?|He]; [by left|right]. apply elem_of_retain. split; [|done].
  unfold keep_past_k. destruct Hk as [Hst|Ho%owed_nodes_spec].
  - by rewrite (proj2 (in_state_true _ _) Hst).
  - rewrite (bool_decide_eq_true_2 _ Ho). by rewrite orb_true_r.
Qed.
Lemma sublist_sorted l l' : l' `sublist_of` l → StronglySorted dist_le l → StronglySorted dist_le l'.
Proof.
  induction 1 as [|x l1 l2 Hs IH|x l1 l2 Hs IH]; intros H; [done|..]; apply StronglySorted_cons in H as [Hx H]; [|auto].
  constructor; [auto|]. by eapply Forall_sublist.
Qed.

(** ** Contacts named by a responder *)
Section contacts.
Context (tgt : EmberNodeId) (w : Walk).

Lemma parts_add l c pin ref :
  parts tgt l w → node_id c ∉ (e_id <$> l) → node_id c ∉ queried w →
  match ref with Some n => referred_by n l < MAX_SHORTLIST_ENTRIES_PER_REFERRER | None => True end →
  parts tgt (l ++ [new_entry tgt pin ref c]) w.
Proof.
  intros Hw Hid Hq Href. eapply parts_shortlist; [exact Hw|..].
  - apply core_add; [apply Hw|done..].
  - apply Forall_app. split; [apply Hw|]. by apply Forall_singleton.
  - intros n. unfold referred_by in *. rewrite count_if_app, count_if_add, count_if_nil. cbn [referrer new_entry].
    case_bool_decide as E; [subst ref; lia|]. pose proof (k_quota _ _ _ Hw n) as Hn. unfold referred_by in Hn. lia.
Qed.

Lemma merge_closer_parts from best contacts l n closer :
  parts tgt l w → n = referred_by from l →
  let '(l', _) := merge_closer tgt from (queried w) best contacts l n closer in
  parts tgt l' w ∧ ∃ added, l' = l ++ added ∧ Forall (λ e, e_state e = Pending) added.
Proof.
  revert l n closer. induction contacts as [|c contacts IH]; intros l n closer Hw Hn; cbn [merge_closer].
  { split; [done|]. exists []. by rewrite app_nil_r. }
  destruct (_ || _) eqn:Hskip; [by apply IH|]. rewrite !orb_false_iff in Hskip.
  destruct Hskip as [[[_ Hq%bool_decide_eq_false] _] Hex]. case_decide; [split; [done|]; exists []; by rewrite app_nil_r|].
  assert (node_id c ∉ (e_id <$> l)) as Hid.
  { intros (e & He & Hin)%list_elem_of_fmap. assert (existsb (λ e, bool_decide (e_id e = node_id c)) l = true); [|congruence].
    apply existsb_exists. exists e. split; [by apply list_elem_of_In|]. by apply bool_decide_eq_true. }
  specialize (IH (l ++ [new_entry tgt false (Some from) c]) (S n)
    (closer || negb (bytes_le best (distance tgt (node_id c))))).
  destruct (merge_closer _ _ _ _ contacts _ _ _) as [l' cl].
  destruct IH as (Hw' & added & -> & Hadd).
  - apply parts_add; [done..|lia].
  - rewrite Hn. unfold referred_by. rewrite count_if_app, count_if_add, count_if_nil. cbn [referrer new_entry].
    rewrite bool_decide_eq_true_2 by done. lia.
  - split; [done|]. exists (new_entry tgt false (Some from) c :: added). split; [by rewrite <- app_assoc|].
    by constructor.
Qed.

Lemma pin_contacts_parts contacts l added :
  parts tgt l w → let '(l', _) := pin_contacts tgt (queried w) contacts l added in
  parts tgt l' w ∧ count_if (in_state InFlight) l' = count_if (in_state InFlight) l.
Proof.
  revert l added. induction contacts as [|c contacts IH]; intros l added Hw; cbn [pin_contacts]; [done|].
  case_decide; [done|]. destruct (_ || _); [by apply IH|].
  pose proof (find_entry_spec (node_id c) l) as Hf. destruct (find_entry (node_id c) l) as [e|].
  - assert (∀ e, (e_id (with_pin e), e_state (with_pin e)) = (e_id e, e_state e)) as Hsame by done.
    destruct (entry_split l (node_id c) (c_nodup _ _ _ _ _ (k_core _ _ _ Hw))) as (pre & x & post & Hl & Hid & Hpre).
    { destruct Hf as [? <-]. by apply list_elem_of_fmap_2. }
    assert (parts tgt (update_entry (node_id c) with_pin l) w) as Hw'.
    { eapply parts_shortlist; [exact Hw|..].
      - rewrite Hl in *. rewrite update_entry_here by done. apply (core_pin pre post x). apply Hw.
      - apply update_entry_Forall; [done|apply Hw].
      - intros n. unfold referred_by. rewrite update_entry_count by done. apply Hw. }
    specialize (IH _ added Hw'). destruct (pin_contacts _ _ contacts _ _) as [l' a]. destruct IH as [? IH]. split; [done|].
    rewrite IH. by apply update_entry_count.
  - case_decide as Hq; [by apply IH|].
    specialize (IH (l ++ [new_entry tgt true None c]) (S added) (parts_add l c true None Hw Hf Hq I)).
    destruct (pin_contacts _ _ contacts _ _) as [l' a]. destruct IH as [? IH]. split; [done|].
    rewrite IH, count_if_app, count_if_add, count_if_nil. apply Nat.add_0_r.
Qed.
End contacts.

(** ** Operations that only gather *)
Section gather.
Context `{Crypto : Ed25519Blake3}.

Definition got_only (s s' : IterativeSearch) : Prop := s' = with_got s (got s').
Lemma got_only_refl s : got_only s s.
Proof. by destruct s. Qed.
Lemma got_only_with s g : got_only s (with_got s g).
Proof. done. Qed.
Lemma got_only_trans s1 s2 s3 : got_only s1 s2 → got_only s2 s3 → got_only s1 s3.
Proof. unfold got_only. intros -> ->. done. Qed.
Lemma got_only_step s s' g : got_only s s' → got_only s (with_got s' g).
Proof. by intros ->. Qed.
Lemma got_only_walk s s' : got_only s s' → walk s' = walk s ∧ target s' = target s ∧ search_type s' = search_type s ∧
  started_at s' = started_at s ∧ keyword_lookup s' = keyword_lookup s.
Proof. by intros ->. Qed.

Lemma note_repeat_got s from sub d : got_only s (note_repeat s from sub d).
Proof. unfold note_repeat. destruct (_ !! d) as [slot|]; [|apply got_only_refl]. destruct (_ !! slot); [done|apply got_only_refl]. Qed.
Lemma hold_turned_away_got s n d b : got_only s (hold_turned_away s n d b).
Proof. done. Qed.
Lemma take_record_got s now from sub d b share f p : got_only s (take_record s now from sub d b share f p).
Proof. unfold take_record. destruct (value_budget_full _); [apply got_only_refl|]. destruct f; done. Qed.
Lemma offer_blob_got now now_unix from allowance sub o data :
  got_only (of_search o) (of_search (offer_blob now now_unix from allowance sub o data)).
Proof.
  unfold offer_blob. destruct (negb (blob_for_us _ _)); [apply got_only_refl|]. cbv zeta.
  case_decide; [apply got_only_with|]. case_decide; [eapply got_only_trans; [apply got_only_with|apply note_repeat_got]|].
  destruct (match turned_away _ !! _ with Some (first, _) => bool_decide (first = from) | None => false end); [apply got_only_with|].
  destruct (match turned_away _ !! _ with Some (first, subnet) => _ | None => false end); [by do 2 apply got_only_step; apply got_only_refl|].
  destruct (negb (value_blob_is_current _ _)); [by do 2 apply got_only_step; apply got_only_refl|].
  destruct (over_publisher_share _ _ _).
  { destruct (value_blob_is_authentic data); [eapply got_only_trans; [|apply hold_turned_away_got]|];
      do 2 apply got_only_step; apply got_only_refl. }
  destruct (negb (value_blob_is_authentic data)); [by do 3 apply got_only_step; apply got_only_refl|].
  eapply got_only_trans; [|apply take_record_got]. do 5 apply got_only_step. apply got_only_refl.
Qed.
Lemma offers_got now now_unix from allowance sub l o :
  got_only (of_search o) (of_search (foldl (offer_blob now now_unix from allowance sub) o l)).
Proof.
  revert o. induction l as [|data l IH]; intros o; [apply got_only_refl|]. cbn [foldl].
  eapply got_only_trans; [apply offer_blob_got|apply IH].
Qed.
Lemma take_held_got s node held : got_only s (take_held s node held).
Proof.
  revert s. induction held as [|[d data] held IH]; intros s; cbn [take_held]; [apply got_only_refl|].
  destruct (if bool_decide _ then _ else _); [apply got_only_refl|]. destruct (_ !! d); [|apply IH].
  case_decide; eapply got_only_trans; [apply got_only_with|apply IH|apply got_only_with|apply IH].
Qed.
Lemma take_sole_got s : got_only s (take_sole_contributors_held s).
Proof.
  unfold take_sole_contributors_held. destruct (_ || _); [apply got_only_refl|].
  destruct (match elements _ with [] => _ | _ => _ end) as [n|]; [|apply got_only_refl].
  destruct (holds_sole_word _ _); [|done]. eapply got_only_trans; [apply got_only_with|apply take_held_got].
Qed.
Lemma absorb_got s l : got_only s (absorb_results s l).
Proof. done. Qed.
Lemma seed_local_got s id l n : got_only s (seed_local s id l n).1.
Proof.
  revert s n. induction l as [|data l IH]; intros s n; cbn [seed_local]; [apply got_only_refl|].
  case_decide; [apply got_only_refl|]. destruct (_ || _); [apply IH|]. cbv zeta.
  destruct (_ || _); [apply IH|]. destruct (over_publisher_share _ _ _); (eapply got_only_trans; [|apply IH]); done.
Qed.
Lemma seed_local_results_got s id l : got_only s (seed_local_results s id l).1.
Proof. unfold seed_local_results. eapply got_only_trans; [apply got_only_with|apply seed_local_got]. Qed.

(** ** Completion *)
Lemma parts_complete tgt w b : parts tgt (shortlist w) w → parts tgt (shortlist w) (set_complete w b).
Proof. intros [K1 K2 K3 K4 K5 K6 K7 K8]. by split. Qed.

(** What a check leaves alone. *)
Definition same_walk (w w' : Walk) : Prop :=
  shortlist w' = shortlist w ∧ queried w' = queried w ∧ attempts w' = attempts w ∧
  pending_requests w' = pending_requests w ∧ next_request_id w' = next_request_id w ∧
  referral_queue w' = referral_queue w ∧ stale_responses w' = stale_responses w.

Lemma check_complete_parts now s :
  parts (target s) (shortlist (walk s)) (walk s) →
  let s' := check_complete now s in
  parts (target s) (shortlist (walk s')) (walk s') ∧ same_walk (walk s) (walk s') ∧
  target s' = target s ∧ search_type s' = search_type s ∧ started_at s' = started_at s ∧ keyword_lookup s' = keyword_lookup s.
Proof.
  intros Hw. unfold check_complete. destruct (complete (walk s)); [done|].
  assert (∀ s0, parts (target s0) (shortlist (walk s0)) (walk s0) →
    let s' := mark_complete (take_sole_contributors_held s0) in
    parts (target s0) (shortlist (walk s')) (walk s') ∧ same_walk (walk s0) (walk s') ∧
    target s' = target s0 ∧ search_type s' = search_type s0 ∧ started_at s' = started_at s0 ∧
    keyword_lookup s' = keyword_lookup s0) as Hmark.
  { intros s0 H0. rewrite (take_sole_got s0). cbn. split; [by apply parts_complete|done]. }
  destruct (Z.ltb _ _); [by apply Hmark|].
  destruct (release_parked_parts s Hw) as (Hw1 & (R1 & R2 & R3 & R4 & R5 & R6 & R7 & R8 & R9) & Hid & _).
  cbv zeta. set (s1 := release_parked_page s) in *. clearbody s1. rewrite Hid in *. cbn [walk with_walk target] in *.
  set (w1 := walk s1) in *. clearbody w1.
  specialize (Hmark (with_walk s w1) Hw1). cbn [walk with_walk target search_type started_at keyword_lookup] in Hmark.
  assert (∀ w', same_walk w1 w' → same_walk (walk s) w') as Hsame by (unfold same_walk; intuition congruence).
  assert (∀ w', w' = w1 ∨ w' = set_complete w1 true → parts (target s) (shortlist w') w' ∧ same_walk (walk s) w') as Hend.
  { intros w' [->| ->]; (split; [|apply Hsame; by unfold same_walk]); first [exact Hw1|exact (parts_complete _ _ _ Hw1)]. }
  destruct (negb (has_work w1)); [destruct Hmark as (? & ?%Hsame & ?); done|].
  destruct (converged (with_walk s w1)); [destruct (Hend (set_complete w1 true)); [by right|done]|].
  destruct (keyword_walk_settled now (with_walk s w1)); [destruct Hmark as (? & ?%Hsame & ?); done|].
  destruct (_ && _); [destruct (Hend (set_complete w1 true)); [by right|done]|].
  destruct (Hend w1); [by left|done].
Qed.

(** ** A response *)

(** What the values of a response leave alone. *)
Definition same_frame (s s' : IterativeSearch) : Prop :=
  target s' = target s ∧ search_type s' = search_type s ∧ started_at s' = started_at s ∧ keyword_lookup s' = keyword_lookup s.
Definition same_base (s s' : IterativeSearch) : Prop :=
  same_frame s s' ∧ shortlist (walk s') = shortlist (walk s) ∧ queried (walk s') = queried (walk s) ∧
  pending_requests (walk s') = pending_requests (walk s) ∧ next_request_id (walk s') = next_request_id (walk s) ∧
  complete (walk s') = complete (walk s).
Lemma same_base_refl s : same_base s s.
Proof. unfold same_base, same_frame. tauto. Qed.
Lemma same_base_trans s1 s2 s3 : same_base s1 s2 → same_base s2 s3 → same_base s1 s3.
Proof. unfold same_base, same_frame. intuition congruence. Qed.
Lemma got_only_base s s' : got_only s s' → same_base s s'.
Proof. unfold got_only, same_base, same_frame. intros ->. done. Qed.
Lemma got_only_parts s s' :
  got_only s s' → parts (target s) (shortlist (walk s)) (walk s) → parts (target s') (shortlist (walk s')) (walk s').
Proof. by intros ->. Qed.

Lemma take_values_parts now now_unix s from asked no_contacts values page :
  parts (target s) (shortlist (walk s)) (walk s) → answered from (walk s) →
  (p_referral asked = false → from ∈ (e_id <$> shortlist (walk s))) → (0 ≤ p_start_position asked)%Z →
  let s' := take_values now now_unix s from asked no_contacts values page in
  parts (target s') (shortlist (walk s')) (walk s') ∧ same_base s s'.
Proof.
  intros Hw Ha Hin H0. unfold take_values. set (expected := bool_decide (search_type s = FindValue) && negb (p_referral asked)). cbv zeta.
  set (values' := if expected then values else []). set (page' := if expected then page else None).
  set (s1 := match node_subnet s from with Some _ => _ | None => _ end).
  assert (got_only s s1) as G1 by (unfold s1; repeat case_match; first [apply got_only_with|apply got_only_refl]).
  set (o := foldl _ _ values').
  assert (got_only s (of_search o)) as G2 by (eapply got_only_trans; [exact G1|]; exact (offers_got _ _ _ _ _ values' (mkOffer s1 false 0 0))).
  clearbody o. clear s1 G1. set (s2 := of_search o) in *. clearbody s2.
  pose proof (got_only_base _ _ G2) as B2. pose proof (got_only_parts _ _ G2 Hw) as Hw2.
  assert (answered from (walk s2)) as Ha2 by (rewrite G2; exact Ha).
  match goal with |- context [maybe_queue_referral ?x from] => set (s3 := x) end.
  assert (parts (target s3) (shortlist (walk s3)) (walk s3) ∧ same_base s s3) as [Hw3 B3].
  { unfold s3. destruct page' as [pg|] eqn:Hp; [|done]. case_decide; [|done].
    assert (from ∈ (e_id <$> shortlist (walk s2))) as Hin2.
    { rewrite G2. cbn. apply Hin. unfold page', expected in Hp. destruct (p_referral asked); [|done].
      rewrite andb_false_r in Hp. done. }
    destruct (queue_next_page_parts s2 from (p_start_position asked) (p_resume_after asked) pg
      (page_resume_anchors values' (p_start_position asked) (next_position pg)) (cut_short o)
      (bool_decide (0 < delivered_now o)) Hw2 Ha2 Hin2 H0) as (Q1 & Q2 & Q3).
    split; [by rewrite Q2|]. eapply same_base_trans; [exact B2|]. split; [by rewrite Q2|done]. }
  assert (answered from (walk s3)) as Ha3.
  { destruct B3 as (_ & E1 & E2 & _). unfold answered. rewrite E1, E2. exact Ha. }
  clearbody s3. destruct (_ && _ && _); [|done].
  destruct (maybe_queue_referral_parts s3 from Hw3 Ha3) as (Q1 & Q2 & Q3).
  split; [by rewrite Q2|]. eapply same_base_trans; [exact B3|]. split; [by rewrite Q2|done].
Qed.

Lemma parts_stale tgt l w v : parts tgt l w → parts tgt l (set_stale_responses w v).
Proof. intros [K1 K2 K3 K4 K5 K6 K7 K8]. by split. Qed.

Lemma pending_no_inflight l : Forall (λ e, e_state e = Pending) l → count_if (in_state InFlight) l = 0.
Proof.
  induction 1 as [|e l He _ IH]; [done|]. rewrite count_if_add, IH.
  assert (in_state InFlight e = false) as ->; [|done]. unfold in_state. apply bool_decide_eq_false. congruence.
Qed.

Lemma take_contacts_ok s from contacts :
  parts (target s) (shortlist (walk s)) (walk s) → in_flight (walk s) ≤ ALPHA →
  let s' := (take_contacts s from contacts).1 in
  walk_ok (target s') (walk s') ∧ same_frame s s' ∧ next_request_id (walk s') = next_request_id (walk s) ∧
  complete (walk s') = complete (walk s).
Proof.
  intros Hw Hf. unfold take_contacts. cbv zeta. set (best := match shortlist _ with [] => _ | _ => _ end).
  set (sorted := stable_sort _ _).
  pose proof (merge_closer_parts (target s) (walk s) from best sorted (shortlist (walk s)) _ false Hw eq_refl) as Hm.
  unfold referred_by in Hm. destruct (merge_closer _ _ _ _ _ _ _ _) as [l closer]. destruct Hm as (Hl & added & Hadd & Hpend).
  cbn [fst walk with_walk]. set (l' := trim_shortlist _ _).
  assert (l' `sublist_of` sort_shortlist l) as Hsub by apply trim_shortlist_sublist.
  assert (parts (target s) l' (walk s)) as Hl'.
  { apply trim_parts. eapply parts_perm; [exact Hl|apply sort_shortlist_perm]. }
  split; [split|done].
  - apply parts_stale, parts_set_shortlist. done.
  - eapply sublist_sorted; [exact Hsub|apply sort_shortlist_sorted].
  - etransitivity; [|exact Hf]. unfold in_flight, pages_in_flight, referrals_in_flight.
    cbn [shortlist pending_requests set_stale_responses set_shortlist].
    pose proof (count_if_sublist (in_state InFlight) _ _ Hsub) as Hc.
    rewrite (count_if_perm _ _ _ (sort_shortlist_perm l)), Hadd, count_if_app, (pending_no_inflight added Hpend) in Hc. lia.
Qed.

Lemma check_complete_ok now s :
  walk_ok (target s) (walk s) →
  let s' := check_complete now s in walk_ok (target s') (walk s') ∧ same_frame s s' ∧
    next_request_id (walk s') = next_request_id (walk s).
Proof.
  intros [Hw Hs Hf]. destruct (check_complete_parts now s Hw) as (Hw' & (E1 & E2 & E3 & E4 & E5 & E6 & E7) & E8 & E9).
  cbv zeta. split; [split|done].
  - by rewrite E8.
  - by rewrite E1.
  - unfold in_flight, pages_in_flight, referrals_in_flight in *. by rewrite E1, E4.
Qed.

(** An operation that changes nothing, or ends with a check. *)
Definition ends_with_check (now : Z) (s s' : IterativeSearch) : Prop :=
  s' = s ∨ ∃ s1, walk_ok (target s1) (walk s1) ∧ same_frame s s1 ∧ next_request_id (walk s1) = next_request_id (walk s) ∧
    complete (walk s1) = complete (walk s) ∧ s' = check_complete now s1.
Lemma ends_with_check_ok now s s' :
  walk_ok (target s) (walk s) → ends_with_check now s s' →
  walk_ok (target s') (walk s') ∧ same_frame s s' ∧ next_request_id (walk s') = next_request_id (walk s).
Proof.
  intros Hok [->|(s1 & Hok1 & F1 & N1 & _ & ->)]; [done|]. destruct (check_complete_ok now s1 Hok1) as (Hok2 & F2 & N2).
  split; [done|]. split; [|congruence]. unfold same_frame in *. intuition congruence.
Qed.

Lemma process_response_checked now now_unix s r from contacts values page :
  walk_ok (target s) (walk s) →
  ends_with_check now s (process_response now now_unix s r from contacts values page).1.
Proof.
  intros Hok. pose proof Hok as [Hw Hs Hf]. unfold process_response.
  destruct (pending_requests (walk s) !! r) as [asked|] eqn:Hr; [|by left].
  destruct (bool_decide _) eqn:Hfrom; [|by left]. right. apply bool_decide_eq_true in Hfrom as <-. cbn [negb]. cbv zeta.
  destruct (answer_parts (target s) (walk s) r asked Hw Hr) as (Hw1 & Ha1 & Hin1 & Hf1).
  match goal with |- context [mark_responded ?x _] => set (s1 := mark_responded x (p_node asked)) end.
  change (settle_answer (walk s) r asked) with (walk s1) in *.
  assert (same_frame s s1 ∧ next_request_id (walk s1) = next_request_id (walk s) ∧ complete (walk s1) = complete (walk s)) as (F1 & N1 & C1) by done.
  change (target s) with (target s1) in Hw1. clearbody s1.
  destruct (k_asked _ _ _ Hw r asked Hr) as [H0 _].
  destruct (take_values_parts now now_unix s1 (p_node asked) asked (bool_decide (contacts = [])) values page Hw1 Ha1 Hin1 H0)
    as [Hw2 B2].
  set (s2 := take_values _ _ _ _ _ _ _ _) in *. clearbody s2. destruct B2 as (F2 & E1 & E2 & E3 & E4 & E5).
  assert (in_flight (walk s2) ≤ ALPHA) as Hf2.
  { unfold in_flight, pages_in_flight, referrals_in_flight in *. rewrite E1, E3. lia. }
  destruct (take_contacts_ok s2 (p_node asked) contacts Hw2 Hf2) as (Hok3 & F3 & N3 & C3).
  destruct (take_contacts s2 (p_node asked) contacts) as [s3 closer]. cbn [fst] in *.
  exists s3. split; [done|]. unfold same_frame in *. intuition congruence.
Qed.

(** ** A query given up *)
Lemma fail_first_parts tgt w r p st :
  parts tgt (shortlist w) w → pending_requests w !! r = Some p → is_follow_up p = false → st ≠ InFlight →
  (st = Pending → count_at (p_node p) (attempts w) < MAX_QUERY_ATTEMPTS) →
  let w' := set_shortlist (set_pending_requests w (delete r (pending_requests w)))
    (update_entry (p_node p) (λ e, with_state e st) (shortlist w)) in
  let w' := if decide (st = Pending) then set_queried w' (queried w ∖ {[p_node p]}) else w' in
  parts tgt (shortlist w') w'.
Proof.
  intros Hw Hr Hp Hst Hatt w0 w'. pose proof (k_core _ _ _ Hw) as Hc.
  destruct (c_first _ _ _ _ _ Hc r p Hr Hp) as (e0 & He0 & Hid0 & Hst0).
  assert (p_node p ∈ (e_id <$> shortlist w)) as Hin by (rewrite <- Hid0; by apply list_elem_of_fmap_2).
  destruct (entry_split _ _ (c_nodup _ _ _ _ _ Hc) Hin) as (pre & e & post & Hl & Hid & Hpre).
  eapply (parts_settle tgt w w' (p_node p) st (if decide (st = Pending) then queried w ∖ {[p_node p]} else queried w) (page_nodes w));
    try done; try (unfold w'; case_decide; done).
  - rewrite Hl in *. rewrite update_entry_here by done.
    assert (pending_requests w' = delete r (pending_requests w)) as -> by (unfold w'; case_decide; done).
    eapply core_settle; [exact Hc|exact Hr|done|done|done|]. by rewrite Hid.
  - assert (pending_requests w' = delete r (pending_requests w)) as -> by (unfold w'; case_decide; done).
    intros r' p'. rewrite lookup_delete_Some. tauto.
  - intros n Hn. case_decide as E; [|by left]. destruct (decide (n = p_node p)) as [->|]; [right; auto|left; set_solver].
  - unfold w'; case_decide; apply Hw.
Qed.

Lemma fail_page_parts tgt w r p (again : bool) :
  parts tgt (shortlist w) w → pending_requests w !! r = Some p → is_follow_up p = true →
  let w' := set_pending_requests w (delete r (pending_requests w)) in
  let w' := if again && is_page p
    then set_page_queue w' (page_queue w ++ [mkOwed (p_node p) (p_start_position p) (p_resume_after p) (p_backed p)]) else w' in
  parts tgt (shortlist w') w'.
Proof.
  intros Hw Hr Hp w0 w'. destruct Hw as [K1 K2 K3 K4 K5 K6 K7 K8].
  assert (∀ r' p', pending_requests w' !! r' = Some p' → pending_requests w !! r' = Some p') as Hdel.
  { intros r' p'. unfold w'. case_match; cbn; rewrite lookup_delete_Some; tauto. }
  assert (shortlist w' = shortlist w ∧ queried w' = queried w ∧ attempts w' = attempts w ∧ referral_queue w' = referral_queue w ∧
    next_request_id w' = next_request_id w ∧ pages_queued w' = pages_queued w ∧ pending_requests w' = delete r (pending_requests w))
    as (E1 & E2 & E3 & E4 & E5 & E6 & E7) by (unfold w'; case_match; done).
  rewrite E1. split; rewrite ?E2, ?E3, ?E4, ?E5, ?E6; try done.
  - rewrite E7. eapply core_settle_follow; [exact K1|done|done|]. unfold page_nodes, w'.
    case_match eqn:E; [|auto]. apply andb_true_iff in E as [_ E].
    intros n (p' & -> & Hp')%list_elem_of_fmap. cbn [page_queue set_page_queue parked_pages set_pending_requests w0] in Hp'.
    rewrite !elem_of_app, list_elem_of_singleton in Hp'. destruct Hp' as [[Hq| ->]|Hq]; [left|by right|left];
      apply list_elem_of_fmap_2; rewrite elem_of_app; auto.
  - intros r' p' H. eauto.
  - unfold w'. case_match eqn:E; [|done]. apply andb_true_iff in E as [_ E].
    cbn [page_queue set_page_queue parked_pages set_pending_requests w0]. rewrite !Forall_app, Forall_singleton in *. cbn. split; [|tauto]. split; [tauto|]. by apply Z.ltb_lt.
  - intros r' p' H. eauto.
Qed.

Ltac walk_cbn :=
  cbn [shortlist pending_requests next_request_id complete set_pending_requests set_page_queue set_shortlist set_queried].
Lemma mark_failed_checked now s r failure :
  walk_ok (target s) (walk s) → ends_with_check now s (mark_failed_with now s r failure).1.
Proof.
  intros Hok. pose proof Hok as [Hw Hs Hf]. unfold mark_failed_with.
  destruct (pending_requests (walk s) !! r) as [p|] eqn:Hr; [|right; by exists s]. right. cbv zeta. cbn [fst].
  set (w := walk s) in *.
  match goal with |- context [check_complete now (with_walk s ?x)] => set (w' := x) end.
  assert (parts (target s) (shortlist w') w' ∧ e_distance <$> shortlist w' = e_distance <$> shortlist w ∧
    in_flight w' ≤ in_flight w ∧ next_request_id w' = next_request_id w ∧ complete w' = complete w) as (Hw' & Hd' & Hf' & Hn' & Hc').
  { unfold w'. cbv zeta. destruct (is_follow_up p) eqn:Hp; cbn [negb].
    - pose proof (fail_page_parts (target s) w r p (negb (bool_decide (failure = NotSent)) &&
        bool_decide (default MAX_QUERY_ATTEMPTS (page_attempts w !! (p_node p, p_start_position p)) < MAX_QUERY_ATTEMPTS)) Hw Hr Hp) as Hpg.
      pose proof (pending_count_delete_le is_page r (pending_requests w)).
      pose proof (pending_count_delete_le p_referral r (pending_requests w)).
      unfold in_flight, pages_in_flight, referrals_in_flight.
      destruct (is_page p), (bool_decide (failure = NotSent)); cbn [andb negb] in *; rewrite ?andb_false_r in Hpg;
        try (split; [exact Hpg|walk_cbn; split; [done|split; [lia|done]]]).
      cbn [page_attempts set_pending_requests] in *.
      destruct (decide (default MAX_QUERY_ATTEMPTS (page_attempts w !! (p_node p, p_start_position p)) < MAX_QUERY_ATTEMPTS)) as [E|E].
      + rewrite bool_decide_eq_true_2 in Hpg by done. split; [exact Hpg|walk_cbn; split; [done|split; [lia|done]]].
      + rewrite bool_decide_eq_false_2 in Hpg by done. split; [exact Hpg|walk_cbn; split; [done|split; [lia|done]]].
    - set (retry := _ && _). pose proof (fail_first_parts (target s) w r p (if retry then Pending else Failed) Hw Hr Hp) as Hff.
      cbv zeta in Hff. specialize (Hff ltac:(by destruct retry)). cbn [attempts set_pending_requests] in retry.
      pose proof (pending_count_delete_le is_page r (pending_requests w)).
      pose proof (pending_count_delete_le p_referral r (pending_requests w)).
      pose proof (count_inflight_update (if retry then Pending else Failed) (p_node p) (shortlist w) ltac:(by destruct retry)).
      assert (retry = true → count_at (p_node p) (attempts w) < MAX_QUERY_ATTEMPTS) as Hatt.
      { unfold retry, count_at. intros [Hlt%bool_decide_eq_true _]%andb_true_iff.
        destruct (attempts w !! p_node p); cbn in *; lia. }
      unfold in_flight, pages_in_flight, referrals_in_flight. clearbody retry. destruct retry.
      + specialize (Hff ltac:(auto)). cbn [decide NodeState_eq_dec] in Hff. split; [exact Hff|]. walk_cbn.
        split; [by apply update_entry_distances|]. split; [lia|done].
      + specialize (Hff ltac:(done)). split; [exact Hff|]. walk_cbn.
        split; [by apply update_entry_distances|]. split; [lia|done]. }
  clearbody w'. exists (with_walk s w'). split; [|done].
  split; cbn; [done| |lia]. by eapply sorted_distances.
Qed.

(** ** Session peers *)
Lemma seed_extra_ok s contacts :
  walk_ok (target s) (walk s) →
  let s' := (seed_extra_contacts s contacts).1 in
  walk_ok (target s') (walk s') ∧ same_frame s s' ∧ next_request_id (walk s') = next_request_id (walk s).
Proof.
  intros [Hw Hs Hf]. unfold seed_extra_contacts. cbv zeta. set (ranked := stable_sort _ _).
  pose proof (pin_contacts_parts (target s) (walk s) ranked (shortlist (walk s)) 0 Hw) as Hp.
  destruct (pin_contacts _ _ _ _ _) as [l added]. destruct Hp as [Hl Hc]. split; [|done]. cbn [fst walk with_walk target]. split.
  - apply parts_set_shortlist. eapply parts_perm; [exact Hl|apply sort_shortlist_perm].
  - apply sort_shortlist_sorted.
  - unfold in_flight, pages_in_flight, referrals_in_flight in *. cbn [shortlist pending_requests set_shortlist].
    rewrite (count_if_perm _ _ _ (sort_shortlist_perm l)), Hc. done.
Qed.

(** ** The opening state *)
Lemma search_new_ok now id ty tgt hashes initial :
  NoDup (node_id <$> initial) → walk_ok tgt (walk (IterativeSearch_new now id ty tgt hashes initial)).
Proof.
  intros Hnd. unfold IterativeSearch_new. cbn [walk]. set (l0 := new_entry tgt false None <$> retain is_dialable initial).
  set (l := take K_BUCKET_SIZE (sort_shortlist l0)).
  assert (l `sublist_of` sort_shortlist l0) as Hsub by apply sublist_take.
  assert (∀ e, e ∈ l → e ∈ l0) as Hin.
  { intros e He. eapply elem_of_sublist in He; [|exact Hsub]. by rewrite sort_shortlist_perm in He. }
  assert (Forall (λ e, e_state e = Pending ∧ referrer e = None ∧ e_distance e = distance tgt (e_id e)) l) as Hall.
  { apply Forall_forall. intros e (c & -> & _)%Hin%list_elem_of_fmap. done. }
  assert (NoDup (e_id <$> l)) as Hids.
  { eapply sublist_NoDup; [|apply fmap_sublist, Hsub]. rewrite sort_shortlist_perm. unfold l0.
    rewrite <- list_fmap_compose. eapply sublist_NoDup; [exact Hnd|]. apply (fmap_sublist node_id), retain_sublist. }
  rewrite Forall_forall in Hall.
  split; [split| |]; cbn [Walk_new shortlist queried pending_requests page_queue parked_pages referral_queue attempts pages_queued
    next_request_id].
  - split; [done|..].
    + intros e _ _. set_solver.
    + intros e He Hst. by destruct (Hall e He) as [? _].
    + intros e He Hst. destruct (Hall e He) as [? _]. congruence.
    + intros r p. by rewrite lookup_empty.
    + intros r r' p p'. by rewrite lookup_empty.
    + intros n [(r & p & Hr & _)|[Hn|Hn]]; [by rewrite lookup_empty in Hr|by apply elem_of_nil in Hn..].
    + intros n [(r & p & Hr & _)|Hn]; [by rewrite lookup_empty in Hr|by apply elem_of_nil in Hn].
  - apply Forall_forall. intros e He. by apply Hall.
  - intros r p. by rewrite lookup_empty.
  - intros n. unfold referred_by. assert (count_if (λ e, bool_decide (referrer e = Some n)) l = 0) as ->; [|lia].
    clear -Hall. induction l as [|e l IH]; [done|]. rewrite count_if_add, IH by (intros; apply Hall; by right).
    rewrite bool_decide_eq_false_2; [done|]. destruct (Hall e) as (_ & -> & _); [left|done].
  - intros n. unfold count_at, MAX_QUERY_ATTEMPTS. rewrite lookup_empty. cbn. lia.
  - intros n. unfold count_at, MAX_PAGES_PER_NODE_EXHAUSTED. rewrite lookup_empty. cbn. lia.
  - constructor.
  - intros r p. by rewrite lookup_empty.
  - eapply sublist_sorted; [exact Hsub|apply sort_shortlist_sorted].
  - unfold in_flight, pages_in_flight, referrals_in_flight, pending_count. cbn [Walk_new shortlist pending_requests].
    rewrite !map_to_list_empty, !count_if_nil. rewrite pending_no_inflight; [unfold ALPHA; lia|].
    apply Forall_forall. intros e He. by apply Hall.
Qed.

(** ** Steps *)

(** What can happen to a search.  A batch is sent while the request counter is
    short of wrapping; a search lives a minute, so it never gets there. *)
Inductive step : IterativeSearch → IterativeSearch → Prop :=
  | step_query s : (next_request_id (walk s) + Z.of_nat ALPHA < 4294967296)%Z → step s (next_to_query s).1
  | step_response now now_unix s r from contacts values page :
      step s (process_response now now_unix s r from contacts values page).1
  | step_failed now s r failure : step s (mark_failed_with now s r failure).1
  | step_poll now s : step s (poll_complete now s).1
  | step_session_peers s contacts : step s (seed_extra_contacts s contacts).1
  | step_local_records s id records : step s (seed_local_results s id records).1
  | step_keyword s : step s (mark_keyword_lookup s)
  | step_constraints s c : step s (set_value_constraints s c).

Definition started (s : IterativeSearch) : Prop :=
  ∃ now id ty tgt hashes initial, NoDup (node_id <$> initial) ∧ s = IterativeSearch_new now id ty tgt hashes initial.
(** The searches there can be; one takes over a finished walk of its query with
    [absorb_walk]. *)
Inductive reachable : IterativeSearch → Prop :=
  | reach_start s : started s → reachable s
  | reach_step s s' : reachable s → step s s' → reachable s'
  | reach_absorb s other : reachable s → reachable other → reachable (absorb_walk s other).

Definition search_ok (s : IterativeSearch) : Prop :=
  walk_ok (target s) (walk s) ∧ (0 ≤ next_request_id (walk s))%Z.

Lemma step_ok s s' : search_ok s → step s s' → search_ok s'.
Proof.
  intros [Hw H0] Hstep. destruct Hstep as [s Hn|now nu s r from cs vs pg|now s r f|now s|s cs|s id rs|s|s c].
  - destruct Hw as [Hp Hs Hf]. destruct (next_to_query_sent s Hp H0 Hn) as [A1 A2 A3 A4 A5 A6 A7 A8 A9].
    split; [|rewrite A4; lia]. split.
    + rewrite A5. exact A1.
    + by eapply sorted_distances.
    + destruct ((next_to_query s).2); [cbn in A3; lia|by apply A7].
  - destruct (ends_with_check_ok _ _ _ Hw (process_response_checked now nu s r from cs vs pg Hw)) as (? & _ & N). split; [done|by rewrite N].
  - destruct (ends_with_check_ok _ _ _ Hw (mark_failed_checked now s r f Hw)) as (? & _ & N). split; [done|by rewrite N].
  - destruct (check_complete_ok now s Hw) as (? & _ & N). split; [done|]. cbn [poll_complete fst]. by rewrite N.
  - destruct (seed_extra_ok s cs Hw) as (? & _ & N). split; [done|by rewrite N].
  - pose proof (seed_local_results_got s id rs) as G. unfold search_ok. by rewrite G.
  - done.
  - done.
Qed.
Lemma reachable_ok s : reachable s → search_ok s.
Proof.
  induction 1 as [s (now & id & ty & tgt & hs & init & Hnd & ->)|s s' _ IH Hstep|s other _ IH _ _].
  - split; [by apply search_new_ok|done].
  - by eapply step_ok.
  - done.
Qed.
End gather.

(** ** A concrete search *)
Definition sample_peer (k : Z) : EmberContact :=
  mkContact (repeat k 16) (SocketAddrV4 (mkV4 9 9 k 7) 4672) (repeat k 32) (repeat k 32) 0 0.
Definition sample_key_record : bytes :=
  let body := ([1] ++ repeat 7 16 ++ repeat 9 16 ++ repeat 0 32 ++ repeat 0 8 ++ repeat 3 32
    ++ [50; 0; 0; 0; 0; 0; 0; 0] ++ [0; 0])%Z in
  body ++ toy_signature (repeat 3%Z 32) body.
(** A key looked up among two peers; one has answered with a record. *)
Definition sample_started (ty : SearchType) : IterativeSearch :=
  IterativeSearch_new 0 1 ty (repeat 7%Z 16) [] [sample_peer 5; sample_peer 6].
Definition sample_asked (ty : SearchType) : IterativeSearch := (@next_to_query (sample_started ty)).1.
Definition sample_answered : IterativeSearch :=
  (@process_response toy_crypto 0 60 (sample_asked FindValue) 1 (repeat 6%Z 16) [] [sample_key_record] None).1.

Lemma sample_started_reachable ty : @reachable toy_crypto (sample_started ty).
Proof.
  apply reach_start. exists 0%Z, 1%Z, ty, (repeat 7%Z 16), [], [sample_peer 5; sample_peer 6]. split; [|done].
  cbn. repeat constructor; set_solver.
Qed.
Lemma sample_asked_reachable ty : @reachable toy_crypto (sample_asked ty).
Proof. eapply reach_step; [apply (sample_started_reachable ty)|]. apply step_query. vm_compute. done. Qed.
Lemma sample_answered_reachable : @reachable toy_crypto sample_answered.
Proof. eapply reach_step; [apply (sample_asked_reachable FindValue)|]. apply step_response. Qed.
