(* ===== verification/SearchLive.v ===== *)
(** * A search makes progress and answers what it found

    The theorems on the walk: its books in every reachable search, that driving
    it never leaves it waiting for nothing, and what a node lookup answers. *)
From S2P Require Import Prelude NodeId Addr Contact Record Wire Crypto Messages SearchState Search SearchInv SearchWalk SearchOps SearchStep.

Lemma existsb_false {A} (f : A → bool) l : (∀ x, x ∈ l → f x = false) → existsb f l = false.
Proof.
  intros Hf. destruct (existsb f l) eqn:E; [|done]. apply existsb_exists in E as (x & Hx%list_elem_of_In & Hfx).
  rewrite Hf in Hfx; done.
Qed.

Section live.
Context `{Crypto : Ed25519Blake3}.

(** An outstanding request is in flight. *)
Lemma pending_in_flight tgt w : parts tgt (shortlist w) w → pending_requests w ≠ ∅ → 0 < in_flight w.
Proof.
  intros Hw (r & p & Hr)%map_choose. unfold in_flight, pages_in_flight, referrals_in_flight.
  destruct (is_page p) eqn:Hp; [pose proof (pending_count_member is_page r p _ Hr Hp); lia|].
  destruct (p_referral p) eqn:Hrf; [pose proof (pending_count_member p_referral r p _ Hr Hrf); lia|].
  destruct (c_first _ _ _ _ _ (k_core _ _ _ Hw) r p Hr) as (e & He & _ & Hst).
  { unfold first_query, is_follow_up. by rewrite Hp, Hrf. }
  assert (existsb (in_state InFlight) (shortlist w) = true) as Hex.
  { apply existsb_exists. exists e. split; [by apply list_elem_of_In|by apply in_state_true]. }
  rewrite existsb_count in Hex. apply bool_decide_eq_true in Hex. lia.
Qed.

(** With nothing queued, nobody to ask and nothing outstanding there is no work. *)
Lemma idle_no_work tgt w :
  parts tgt (shortlist w) w → idle w → pending_requests w = ∅ → has_work w = false.
Proof.
  intros Hw (Hq & Hr & Hun) Hp. pose proof (pending_empty_flight tgt w Hw Hp) as Hf. unfold in_flight in Hf.
  unfold has_work. rewrite Hq, Hr, (existsb_count (in_state InFlight)).
  rewrite (bool_decide_eq_true_2 (@nil OwedPage = [])), (bool_decide_eq_true_2 (@nil EmberNodeId = [])) by done.
  rewrite !bool_decide_eq_false_2 by lia. cbn [negb orb].
  rewrite existsb_false; [done|]. intros e He. specialize (Hun e He).
  destruct (in_state Pending e) eqn:E; [|done]. apply in_state_true in E.
  pose proof (c_pend _ _ _ _ _ (k_core _ _ _ Hw) e He E) as Hnq.
  assert (unasked w e = true) by (by apply unasked_true). congruence.
Qed.

(** A check that finds no work completes the search, unless it released a page. *)
Lemma check_complete_idle now s :
  search_ok s → idle (walk s) → pending_requests (walk s) = ∅ →
  let s' := check_complete now s in complete (walk s') = true ∨ page_queue (walk s') ≠ [].
Proof.
  intros [[Hw Hs Hf] H0] (Hq & Hr & Hun) Hp. unfold check_complete.
  destruct (complete (walk s)) eqn:Hc; [by left|]. destruct (Z.ltb _ _).
  { left. done. }
  destruct (release_parked_parts s Hw) as (Hw1 & (R1 & R2 & R3 & R4 & R5 & R6 & R7 & R8 & R9) & Hid & extra & Hextra).
  cbv zeta. set (s1 := release_parked_page s) in *. rewrite Hq in Hextra. cbn in Hextra.
  assert (extra = [] → has_work (walk s1) = false) as Hnw.
  { intros ->. apply (idle_no_work (target s)); [done| |by rewrite R4]. split; [done|]. split; [by rewrite R6|].
    intros e. rewrite R1. intros He. specialize (Hun e He). unfold unasked in *. by rewrite R2. }
  destruct extra as [|p extra].
  - rewrite Hnw by done. left. done.
  - assert (∀ s2, page_queue (walk s2) = p :: extra → complete (walk (mark_complete s2)) = true) as Hm by done.
    repeat (match goal with |- context [if ?b then mark_complete _ else _] => destruct b; [by left|] end). right. by rewrite Hextra.
Qed.

(** When the nearest live entries have all answered they are the answer. *)
Lemma answered_are_live n l :
  Forall (λ e, e_state e = Responded) (take n (retain (λ e, negb (in_state Failed e)) l)) →
  take n (retain (in_state Responded) l) = take n (retain (λ e, negb (in_state Failed e)) l).
Proof.
  revert n. induction l as [|e l IH]; intros n; [done|]. rewrite !retain_cons.
  assert (∀ st, in_state st e = bool_decide (e_state e = st)) as Hst by done. rewrite !Hst. clear Hst.
  destruct (e_state e) eqn:He; repeat (rewrite bool_decide_eq_false_2 by done); repeat (rewrite bool_decide_eq_true_2 by done);
    cbn [negb]; [| | |apply IH]; (destruct n as [|n]; [done|]); cbn [take]; intros [Hr Hf]%Forall_cons; try congruence.
  f_equal. by apply IH.
Qed.
Lemma no_work_answered w :
  has_work w = false → Forall (λ e, e_state e = Responded) (live_near (shortlist w)).
Proof.
  unfold has_work. intros [[[Hp Hi]%orb_false_iff _]%orb_false_iff _]%orb_false_iff.
  apply Forall_forall. intros e He. eapply elem_of_sublist in He; [|apply sublist_take].
  apply elem_of_retain in He as [Hnf He].
  assert (∀ st, existsb (in_state st) (shortlist w) = false → e_state e ≠ st) as Hno.
  { intros st Hst Hes. assert (existsb (in_state st) (shortlist w) = true); [|congruence].
    apply existsb_exists. exists e. split; [by apply list_elem_of_In|]. unfold in_state. by apply bool_decide_eq_true. }
  apply Hno in Hp, Hi. unfold in_state in Hnf. apply negb_true_iff, bool_decide_eq_false in Hnf. by destruct (e_state e).
Qed.
Lemma all_answered w : closest_have_responded w = true → Forall (λ e, e_state e = Responded) (live_near (shortlist w)).
Proof.
  unfold closest_have_responded. rewrite forallb_forall. intros H. apply Forall_forall. intros e He%list_elem_of_In.
  by apply H, bool_decide_eq_true in He.
Qed.

(** A check that ends a node lookup in time leaves its answer. *)
Lemma lookup_check_answer now s :
  walk_ok (target s) (walk s) → search_type s = FindNode → complete (walk s) = false →
  complete (walk (check_complete now s)) = true → (elapsed_secs now (started_at s) ≤ SEARCH_TIMEOUT_SECS)%Z →
  Forall (λ e, e_state e = Responded) (live_near (shortlist (walk (check_complete now s)))).
Proof.
  intros [Hw Hs _] Hty Hc Hdone Ht. destruct (check_complete_parts now s Hw) as (_ & (-> & _) & _).
  unfold check_complete in Hdone. rewrite Hc in Hdone. rewrite (proj2 (Z.ltb_ge _ _) Ht) in Hdone.
  assert (release_parked_page s = s) as E by (unfold release_parked_page; by rewrite Hty, (bool_decide_eq_false_2 (FindNode = FindValue))).
  rewrite E in Hdone. destruct (has_work (walk s)) eqn:Hwork; [|by apply no_work_answered].
  cbn [negb] in Hdone. destruct (converged s) eqn:Hconv.
  - unfold converged in Hconv. apply andb_true_iff in Hconv as [[[_ Hcl]%andb_true_iff _]%andb_true_iff _]. by apply all_answered.
  - unfold keyword_walk_settled in Hdone. rewrite Hty, (bool_decide_eq_false_2 (FindNode = FindValue)) in Hdone by done.
    rewrite andb_false_r in Hdone. cbn [andb] in Hdone. congruence.
Qed.

(** The operations that can end a search. *)
Inductive checked (now : Z) (s : IterativeSearch) : IterativeSearch → Prop :=
  | checked_response now_unix r from contacts values page :
      checked now s (process_response now now_unix s r from contacts values page).1
  | checked_failed r failure : checked now s (mark_failed_with now s r failure).1
  | checked_poll : checked now s (poll_complete now s).1.

Lemma checked_is_check now s s' : walk_ok (target s) (walk s) → checked now s s' → ends_with_check now s s'.
Proof.
  intros Hok [nu r from cs vs pg|r f|]; [by apply process_response_checked|by apply mark_failed_checked|]. right. by exists s.
Qed.

(** ** Theorems *)

(** C8: in every reachable search the shortlist is sorted by distance with one
    entry a node, at most ALPHA queries are in flight, an entry is in flight
    exactly when its first query is outstanding, a node owing pages is on the
    shortlist as [Responded], no responder's contacts exceed its quota, and no
    node is asked a third time or paged past the ceiling. *)
Theorem search_books_reachable s :
  reachable s →
  let w := walk s in
  StronglySorted dist_le (shortlist w) ∧ NoDup (e_id <$> shortlist w) ∧
  Forall (λ e, e_distance e = distance (target s) (e_id e)) (shortlist w) ∧
  in_flight w ≤ ALPHA ∧
  (∀ e, e ∈ shortlist w → (e_state e = InFlight ↔
     ∃ r p, pending_requests w !! r = Some p ∧ is_follow_up p = false ∧ p_node p = e_id e)) ∧
  (∀ o, o ∈ page_queue w ++ parked_pages w → ∃ e, e ∈ shortlist w ∧ e_id e = o_node o ∧ e_state e = Responded) ∧
  (∀ n, referred_by n (shortlist w) ≤ MAX_SHORTLIST_ENTRIES_PER_REFERRER) ∧
  (∀ n, count_at n (attempts w) ≤ MAX_QUERY_ATTEMPTS) ∧
  (∀ n, count_at n (pages_queued w) ≤ MAX_PAGES_PER_NODE_EXHAUSTED).
Proof.
  intros Hr w. destruct (reachable_ok s Hr) as [[Hw Hs Hf] _]. pose proof (k_core _ _ _ Hw) as Hc.
  split; [done|]. split; [apply Hc|]. split; [apply Hw|]. split; [done|]. split; [|split; [|split; [apply Hw|split; [|apply Hw]]]].
  - intros e He. split; [by apply Hc|]. intros (r & p & Hp & Hfirst & Hid).
    destruct (c_first _ _ _ _ _ Hc r p Hp Hfirst) as (e' & He' & Hid' & Hst).
    assert (e' = e) as <- by (eapply core_inj; [exact Hc|done|done|congruence]). done.
  - intros o Ho. assert (o_node o ∈ page_nodes w) as Hn by by apply list_elem_of_fmap_2.
    assert (o_node o ∈ (e_id <$> shortlist w)) as Hin by (apply (c_owed _ _ _ _ _ Hc); by right).
    apply list_elem_of_fmap in Hin as (e & Hid & He). exists e. split; [done|]. split; [done|].
    destruct (c_follow _ _ _ _ _ Hc (o_node o)) as [_ Hst]; [right; by left|]. by apply Hst.
  - intros n. apply Hw.
Qed.

(** C17: sending the next batch and then checking leaves a search complete, or
    waiting for an outstanding query, or with a page just released that the next
    batch does send; and any check past the timeout completes it. *)
Theorem drive_makes_progress now s :
  reachable s → (next_request_id (walk s) + 2 * Z.of_nat ALPHA < 4294967296)%Z →
  let s' := (poll_complete now (next_to_query s).1).1 in
  (complete (walk s') = true ∨ pending_requests (walk s') ≠ ∅ ∨ (next_to_query s').2 ≠ []) ∧
  ((SEARCH_TIMEOUT_SECS < elapsed_secs now (started_at s))%Z → complete (walk s') = true).
Proof.
  intros Hr Hn. pose proof (reachable_ok s Hr) as [[Hw Hs Hf] H0].
  destruct (next_to_query_sent s Hw H0 ltac:(lia)) as [A1 A2 A3 A4 A5 A6 A7 A8 A9].
  pose proof (step_ok s (next_to_query s).1 (reachable_ok s Hr) (step_query s ltac:(lia))) as Hok1.
  set (s1 := (next_to_query s).1) in *. set (batch := (next_to_query s).2) in *. cbv zeta. cbn [poll_complete fst].
  pose proof Hok1 as [Hok1' H01]. destruct (check_complete_ok now s1 Hok1') as (Hok2 & (F1 & F2 & F3 & F4) & N2).
  pose proof Hok1' as [Hw1 _ Hf1]. destruct (check_complete_parts now s1 Hw1) as (_ & (E1 & E2 & E3 & E4 & _) & _).
  split.
  - destruct (decide (pending_requests (walk s1) = ∅)) as [He|Hne]; [|right; left; congruence].
    destruct (decide (batch = [])) as [Hb|Hb]; [|exfalso; by apply A8].
    assert (pending_requests (walk s) = ∅) as He0.
    { destruct (decide (pending_requests (walk s) = ∅)) as [|Hne]; [done|].
      pose proof (pending_in_flight _ _ Hw Hne). pose proof (pending_empty_flight _ _ Hw1 He).
      rewrite Hb in A3. cbn [length] in A3. lia. }
    destruct (A9 Hb) as [Hc|[?|[Hidle _]]]; [| |].
    + left. unfold check_complete. rewrite A6, Hc. by rewrite A6.
    + done.
    + destruct (check_complete_idle now s1 Hok1 Hidle He) as [?|Hpq]; [by left|].
      set (s2 := check_complete now s1) in *. destruct (complete (walk s2)) eqn:Hc2; [by left|].
      right; right. intros Hnone.
      destruct Hok2 as [Hw2 _ _].
      destruct (next_to_query_sent s2) as [_ _ _ _ _ _ _ _ B9]; [by rewrite F1 in *|lia|rewrite N2, A4, Hb; cbn; lia|].
      destruct (B9 Hnone) as [Hc|[Hp|[_ Hq]]].
      * congruence.
      * apply Hp. rewrite E4. done.
      * done.
  - intros Ht. unfold check_complete. destruct (complete (walk s1)) eqn:Hc; [done|].
    rewrite A5 at 1. cbn [started_at with_walk]. by rewrite (proj2 (Z.ltb_lt _ _) Ht).
Qed.

(** A node lookup that ends within its time, on an answer, a lost query or a
    poll, answers the K nearest nodes of its shortlist that have not failed,
    nearest first, and each of them has answered: no live node nearer than one it
    returns was passed over. *)
Theorem node_lookup_answer now s s' :
  reachable s → search_type s = FindNode → checked now s s' → complete (walk s) = false → complete (walk s') = true →
  (elapsed_secs now (started_at s) ≤ SEARCH_TIMEOUT_SECS)%Z →
  let near := live_near (shortlist (walk s')) in
  closest_responded s' = e_contact <$> near ∧ Forall (λ e, e_state e = Responded) near ∧ StronglySorted dist_le near.
Proof.
  intros Hr Hty Hch Hc Hdone Ht near. destruct (reachable_ok s Hr) as [Hok _].
  destruct (checked_is_check now s s' Hok Hch) as [->|(s1 & Hok1 & (F1 & F2 & F3 & _) & _ & Hc1 & ->)]; [congruence|].
  assert (Forall (λ e, e_state e = Responded) near) as Hall by (apply lookup_check_answer; congruence).
  split; [|split; [done|]].
  - unfold closest_responded. by rewrite answered_are_live.
  - destruct (check_complete_ok now s1 Hok1) as ([_ Hs _] & _). eapply sublist_sorted; [|exact Hs].
    etransitivity; [apply sublist_take|apply retain_sublist].
Qed.
End live.

(** ** Witnesses *)
Lemma search_books_reachable_witness : in_flight (walk (sample_asked FindNode)) = 2 ∧ in_flight (walk (sample_asked FindNode)) ≤ ALPHA.
Proof.
  split; [vm_compute; reflexivity|].
  exact (proj1 (proj2 (proj2 (proj2 (@search_books_reachable toy_crypto _ (sample_asked_reachable FindNode)))))).
Defined.
Lemma drive_makes_progress_witness :
  let s' := (poll_complete 5 (next_to_query (sample_started FindNode)).1).1 in
  complete (walk s') = false ∧
  (complete (walk s') = true ∨ pending_requests (walk s') ≠ ∅ ∨ (next_to_query s').2 ≠ []).
Proof.
  split; [vm_compute; reflexivity|].
  apply (@drive_makes_progress toy_crypto 5 (sample_started FindNode) (sample_started_reachable FindNode)). vm_compute. reflexivity.
Defined.
(** Two peers asked; the nearer one is lost, the other answers. *)
Definition sample_half : IterativeSearch :=
  (mark_failed_with 5 (sample_asked FindNode) 1 NotSent).1.
Definition sample_done : IterativeSearch :=
  (@process_response toy_crypto 5 60 sample_half 2 (repeat 5%Z 16) [] [] None).1.
Lemma node_lookup_answer_witness : closest_responded sample_done = [sample_peer 5] ∧
  closest_responded sample_done = e_contact <$> live_near (shortlist (walk sample_done)).
Proof.
  split; [vm_compute; reflexivity|].
  apply (@node_lookup_answer toy_crypto 5 sample_half sample_done); try (vm_compute; reflexivity).
  - eapply reach_step; [apply (sample_asked_reachable FindNode)|apply step_failed].
  - apply checked_response.
  - vm_compute. discriminate.
Defined.
