(* ===== verification/SearchResults.v ===== *)
(** * The records a search gathers

    Two invariants of the [Gathered] half of a search: what its results are
    ([records_ok]) and what they may cost ([budgets_ok]), kept by every operation
    that takes records, and the theorems on reachable searches. *)
From S2P Require Import Prelude NodeId Addr Contact Record Wire Crypto Messages SearchState Search SearchInv SearchWalk SearchOps SearchStep.

(** [map.entry(k).or_insert(0) += 1]: the other counts stand. *)
Lemma count_at_incr_le `{Countable K} (k k' : K) (m : gmap K nat) b :
  count_at k m < b → (∀ x, count_at x m ≤ b) → count_at k' (incr k m) ≤ b.
Proof.
  intros Hk Hall. unfold count_at, incr in *. destruct (decide (k' = k)) as [->|Hne].
  - rewrite lookup_insert_eq. unfold count_at. cbn. lia.
  - rewrite lookup_insert_ne by done. apply Hall.
Qed.

Section results.
Context `{Crypto : Ed25519Blake3}.

Definition keyed (tgt : EmberNodeId) (data : bytes) : Prop := slice 1 17 data = Some tgt.
(** Only our own store's records go unchecked. *)
Definition vouched (r : SearchResultRecord) : Prop :=
  from_local_store r = false → value_blob_is_authentic (r_data r) = true.

Record records_ok (tgt : EmberNodeId) (g : Gathered) : Prop := {
  g_slot : ∀ i r, results g !! i = Some r → result_slots g !! blake3_hash (r_data r) = Some i;
  g_back : ∀ d i, result_slots g !! d = Some i → ∃ r, results g !! i = Some r ∧ blake3_hash (r_data r) = d;
  g_seen : ∀ r, r ∈ results g → blake3_hash (r_data r) ∈ seen_results g;
  g_vouched : ∀ r, r ∈ results g → vouched r;
  g_keyed : absorbed_count g = 0 → ∀ r, r ∈ results g → keyed tgt (r_data r);
  g_held : ∀ d b, (d, b) ∈ sole_held g → d = blake3_hash b ∧ keyed tgt b;
  g_sole : contributors g = ∅ ∨ ∀ d b, (d, b) ∈ sole_held g → value_blob_is_authentic b = true;
}.
Record budgets_ok (g : Gathered) : Prop := {
  b_spent : size (budget_spent g) ≤ MAX_SEARCH_RESULTS;
  b_local : seeded_count g + absorbed_count g ≤ length (results g);
  b_remote : remote_blobs g ≤ MAX_SEARCH_RESULT_BLOBS;
  b_seeded : seeded_count g ≤ MAX_LOCAL_SEED_RESULTS;
  b_publishers : ∀ k, count_at k (publishers_taken g) ≤ MAX_PUBLISHERS_PER_FILE_PER_NODE;
  b_confirmed : ∀ k, count_at k (confirmations_taken g) ≤ MAX_CONFIRMED_PER_FILE_PER_NODE;
  b_offered : ∀ n, count_at n (offered_results g) ≤ MAX_SEARCH_RESULTS;
}.
Record gathered_ok (tgt : EmberNodeId) (g : Gathered) : Prop := {
  g_records : records_ok tgt g;
  g_budgets : budgets_ok g;
}.

(** ** Moves *)

(** Fields the invariants do not mention. *)
Lemma gathered_frame tgt g g' :
  gathered_ok tgt g →
  results g' = results g → result_slots g' = result_slots g → seen_results g ⊆ seen_results g' →
  absorbed_count g' = absorbed_count g → sole_held g' = sole_held g → contributors g' = contributors g →
  budget_spent g' = budget_spent g → seeded_count g' = seeded_count g → publishers_taken g' = publishers_taken g →
  confirmations_taken g' = confirmations_taken g → (∀ n, count_at n (offered_results g') ≤ MAX_SEARCH_RESULTS) →
  gathered_ok tgt g'.
Proof.
  intros [[R1 R2 R3 R4 R5 R6 R7] [B1 B2 B3 B4 B5 B6 B7]] E1 E2 E3 E4 E5 E6 E7 E8 E9 E10 E11.
  split; split; unfold remote_blobs in *; rewrite ?E1, ?E2, ?E4, ?E5, ?E6, ?E7, ?E8, ?E9, ?E10; try done.
  intros r Hr. by apply E3, R3.
Qed.

(** A new record appended, its charges paid. *)
Lemma push_records tgt g g' r :
  records_ok tgt g → (∀ r', r' ∈ results g → blake3_hash (r_data r') ≠ blake3_hash (r_data r)) →
  results g' = results g ++ [r] → result_slots g' = <[blake3_hash (r_data r) := length (results g)]> (result_slots g) →
  {[blake3_hash (r_data r)]} ∪ seen_results g ⊆ seen_results g' →
  sole_held g' = sole_held g → contributors g' = contributors g →
  absorbed_count g ≤ absorbed_count g' → vouched r → (absorbed_count g' = 0 → keyed tgt (r_data r)) →
  records_ok tgt g'.
Proof.
  intros [R1 R2 R3 R4 R5 R6 R7] Hnew E1 E2 E3 E4 E5 E6 Hv Hk. split; rewrite ?E1, ?E2, ?E4, ?E5; try done.
  - intros i r' [Hi|[Hi Hr']]%lookup_app_Some.
    + rewrite lookup_insert_ne; [by apply R1|]. intros E. eapply Hnew; [by eapply list_elem_of_lookup_2|done].
    + apply list_lookup_singleton_Some in Hr' as [Hz ->]. rewrite lookup_insert_eq. f_equal. lia.
  - intros d i. destruct (decide (d = blake3_hash (r_data r))) as [->|Hne].
    + rewrite lookup_insert_eq. intros [= <-]. exists r. split; [|done].
      rewrite lookup_app_r by done. by rewrite Nat.sub_diag.
    + rewrite lookup_insert_ne by done. intros (r' & Hr' & Hd)%R2. exists r'. split; [|done].
      rewrite lookup_app_l; [done|]. by eapply lookup_lt_Some.
  - intros r' [Hr'| ->%list_elem_of_singleton]%elem_of_app; apply E3; [pose proof (R3 _ Hr')|]; set_solver.
  - intros r' [Hr'| ->%list_elem_of_singleton]%elem_of_app; auto.
  - intros H0 r' [Hr'| ->%list_elem_of_singleton]%elem_of_app; [apply R5; [lia|done]|auto].
Qed.

Lemma unseen_new tgt g d : records_ok tgt g → d ∉ seen_results g → ∀ r', r' ∈ results g → blake3_hash (r_data r') ≠ d.
Proof. intros Hg Hd r' Hr' <-. by apply Hd, Hg. Qed.

Lemma note_contributor_ok tgt g node : gathered_ok tgt g → gathered_ok tgt (note_contributor g node).
Proof.
  intros Hg. unfold note_contributor. destruct (bool_decide _); [done|]. case_decide; [done|].
  destruct Hg as [[R1 R2 R3 R4 R5 R6 R7] [B1 B2 B3 B4 B5 B6 B7]]. split; split; try done.
  - intros d b Hb. by apply elem_of_nil in Hb.
  - right. intros d b Hb. by apply elem_of_nil in Hb.
Qed.

(** ** A record held back *)
Lemma hold_turned_away_ok tgt s node data :
  gathered_ok tgt (got s) → keyed tgt data →
  (value_blob_is_authentic data = true ∨ local_node (got s) = Some node) →
  gathered_ok tgt (got (hold_turned_away s node (blake3_hash data) data)).
Proof.
  intros Hg Hk Hv. unfold hold_turned_away. cbn [got with_got].
  pose proof (note_contributor_ok tgt _ node Hg) as Hg1.
  assert (local_node (note_contributor (got s) node) = local_node (got s)) as Hl by (unfold note_contributor; by repeat case_match).
  set (g1 := note_contributor (got s) node) in *. clearbody g1.
  set (subnet := node_subnet _ node). clearbody subnet.
  set (g2 := set_held_delivered _ _).
  assert (gathered_ok tgt g2) as Hg2 by (eapply gathered_frame; try exact Hg1; try done; apply Hg1).
  destruct (holds_sole_word g2 node) eqn:Hs; [|done].
  destruct Hg2 as [[R1 R2 R3 R4 R5 R6 R7] [B1 B2 B3 B4 B5 B6 B7]]. split; split; try done.
  - intros d b [Hb|[= -> ->]%list_elem_of_singleton]%elem_of_app; [by apply R6|done].
  - cbn [contributors set_sole_held]. destruct R7 as [?|R7]; [by left|]. destruct Hv as [Hv|Hv].
    + right. intros d b [Hb|[= -> ->]%list_elem_of_singleton]%elem_of_app; [by eapply R7|done].
    + left. unfold holds_sole_word in Hs. rewrite bool_decide_eq_true_2 in Hs; [by apply bool_decide_eq_true in Hs|].
      unfold g2. cbn. congruence.
Qed.

(** ** What a record costs *)
Lemma push_budget_remote g g' r x :
  budgets_ok g → value_budget_full g = false → results g' = results g ++ [r] →
  seeded_count g' = seeded_count g → absorbed_count g' = absorbed_count g → budget_spent g' = {[x]} ∪ budget_spent g →
  (∀ k, count_at k (publishers_taken g') ≤ MAX_PUBLISHERS_PER_FILE_PER_NODE) →
  (∀ k, count_at k (confirmations_taken g') ≤ MAX_CONFIRMED_PER_FILE_PER_NODE) →
  offered_results g' = offered_results g → budgets_ok g'.
Proof.
  intros [B1 B2 B3 B4 B5 B6 B7] Hfull E1 E2 E3 E4 Hp Hc E5.
  apply orb_false_iff in Hfull as [F1 F2]. apply bool_decide_eq_false in F1, F2.
  split; unfold remote_blobs in *; rewrite ?E1, ?E2, ?E3, ?E4, ?E5, ?length_app; cbn [length]; try done; try lia.
  pose proof (size_union_alt {[x]} (budget_spent g)) as Hs. rewrite size_singleton in Hs.
  pose proof (subseteq_size (budget_spent g ∖ {[x]}) (budget_spent g) ltac:(set_solver)). lia.
Qed.
Lemma push_budget_seed g g' r :
  budgets_ok g → seeded_count g < MAX_LOCAL_SEED_RESULTS → results g' = results g ++ [r] →
  seeded_count g' = S (seeded_count g) → absorbed_count g' = absorbed_count g → budget_spent g' = budget_spent g →
  (∀ k, count_at k (publishers_taken g') ≤ MAX_PUBLISHERS_PER_FILE_PER_NODE) →
  confirmations_taken g' = confirmations_taken g → offered_results g' = offered_results g → budgets_ok g'.
Proof.
  intros [B1 B2 B3 B4 B5 B6 B7] Hs E1 E2 E3 E4 Hp E5 E6.
  split; unfold remote_blobs in *; rewrite ?E1, ?E2, ?E3, ?E4, ?E5, ?E6, ?length_app; cbn [length]; try done; lia.
Qed.

(** ** The sole contributor's records, when the search ends *)
Lemma take_held_ok tgt s node held :
  gathered_ok tgt (got s) → (∀ d b, (d, b) ∈ held → d = blake3_hash b ∧ keyed tgt b) →
  (local_node (got s) = Some node ∨ ∀ d b, (d, b) ∈ held → value_blob_is_authentic b = true) →
  gathered_ok tgt (got (take_held s node held)).
Proof.
  revert s. induction held as [|[d data] held IH]; intros s Hg Hk Hv; [done|].
  assert (∀ s', gathered_ok tgt (got s') → local_node (got s') = local_node (got s) →
    gathered_ok tgt (got (take_held s' node held))) as IH'.
  { intros s' Hs' Hl. apply IH; [done|intros; apply Hk; by right|]. rewrite Hl.
    destruct Hv as [?|Hv]; [by left|right; intros; eapply Hv; by right]. }
  destruct (Hk d data) as [-> Hkd]; [left|]. cbn [take_held].
  set (seeded := bool_decide (local_node (got s) = Some node)).
  destruct (if seeded then _ else _) eqn:Hfull; [done|]. destruct (turned_away (got s) !! _) as [p|]; [|by apply IH'].
  assert (gathered_ok tgt (set_turned_away (got s) (delete (blake3_hash data) (turned_away (got s))))) as Hg1
    by (eapply gathered_frame; try exact Hg; try done; apply Hg).
  destruct (decide (blake3_hash data ∈ _)) as [|Hseen]; [by apply IH'|]. cbn [seen_results set_turned_away] in Hseen.
  assert (vouched (mkResult data node None None None seeded)) as Hvr.
  { intros Hf. cbn in *. destruct Hv as [Hv|Hv]; [|by eapply Hv; left]. unfold seeded in Hf. by rewrite bool_decide_eq_true_2 in Hf. }
  pose proof (unseen_new _ _ _ (g_records _ _ Hg) Hseen) as Hnew.
  apply IH'; cbn [got with_got]; [|by destruct seeded]. clear IH' IH. set (sub := node_subnet _ _). clearbody sub. split.
  - eapply (push_records tgt (got s) _ (mkResult data node None sub None seeded)); try done;
      try (by destruct seeded). by apply Hg.
  - destruct seeded.
    + eapply (push_budget_seed (got s)); try done; try (by apply Hg). apply bool_decide_eq_false in Hfull. lia.
    + eapply (push_budget_remote (got s)); try done; by apply Hg.
Qed.
Lemma take_sole_ok tgt s : gathered_ok tgt (got s) → gathered_ok tgt (got (take_sole_contributors_held s)).
Proof.
  intros Hg. unfold take_sole_contributors_held. destruct (_ || _); [done|].
  assert (gathered_ok tgt (set_sole_held (got s) [])) as Hg0.
  { destruct Hg as [[R1 R2 R3 R4 R5 R6 R7] [B1 B2 B3 B4 B5 B6 B7]]. split; split; try done.
    - intros d b Hb. by apply elem_of_nil in Hb.
    - right. intros d b Hb. by apply elem_of_nil in Hb. }
  destruct (match elements _ with [] => _ | _ => _ end) as [n|] eqn:Hn; [|done].
  destruct (holds_sole_word _ n); [|done]. apply take_held_ok; [done|apply Hg|].
  cbn [local_node got with_got set_sole_held].
  destruct (g_sole _ _ (g_records _ _ Hg)) as [He|?]; [|by right]. rewrite He, elements_empty in Hn. by left.
Qed.

(** ** A second copy *)
Lemma note_repeat_ok tgt s from sub d : gathered_ok tgt (got s) → gathered_ok tgt (got (note_repeat s from sub d)).
Proof.
  intros Hg. unfold note_repeat. destruct (result_slots _ !! d) as [i|] eqn:Hi; [|done].
  destruct (results _ !! i) as [held|] eqn:Hr; [|done]. cbn [got with_got]. apply note_contributor_ok.
  destruct (_ && _ && _); [|done]. destruct Hg as [[R1 R2 R3 R4 R5 R6 R7] [B1 B2 B3 B4 B5 B6 B7]].
  set (r' := with_confirmation held from sub).
  assert (∀ j r, <[i := r']> (results (got s)) !! j = Some r →
    ∃ r0, results (got s) !! j = Some r0 ∧ r_data r = r_data r0 ∧ from_local_store r = from_local_store r0) as Hback.
  { intros j r [(<- & <- & _)|[_ Hj]]%list_lookup_insert_Some; eauto. }
  assert (∀ r, r ∈ <[i := r']> (results (got s)) →
    ∃ r0, r0 ∈ results (got s) ∧ r_data r = r_data r0 ∧ from_local_store r = from_local_store r0) as Hin.
  { intros r (j & (r0 & Hr0 & E)%Hback)%list_elem_of_lookup. exists r0. split; [by eapply list_elem_of_lookup_2|done]. }
  split; split; unfold remote_blobs in *; cbn [results result_slots seen_results absorbed_count sole_held contributors set_results
    budget_spent seeded_count publishers_taken confirmations_taken offered_results]; rewrite ?length_insert; try done.
  - intros j r (r0 & Hr0 & -> & _)%Hback. by apply R1.
  - intros d' j (r & Hj & Hd)%R2. destruct (decide (j = i)) as [->|Hne].
    + exists r'. split; [apply list_lookup_insert_eq; by eapply lookup_lt_Some|]. simplify_eq. done.
    + exists r. by rewrite list_lookup_insert_ne.
  - intros r (r0 & Hr0 & -> & _)%Hin. by apply R3.
  - intros r (r0 & Hr0 & E & El)%Hin Hl. rewrite E. apply (R4 r0); congruence.
  - intros H0 r (r0 & Hr0 & -> & _)%Hin. by apply R5.
Qed.

(** ** A record offered *)
Lemma take_record_ok tgt s now from sub data share first prior :
  gathered_ok tgt (got s) → (∀ r', r' ∈ results (got s) → blake3_hash (r_data r') ≠ blake3_hash data) →
  blake3_hash data ∈ seen_results (got s) → value_blob_is_authentic data = true → keyed tgt data →
  over_publisher_share (got s) from share = false →
  (is_Some first → confirmations_left (got s) from data = true) →
  gathered_ok tgt (got (take_record s now from sub (blake3_hash data) data share first prior)).
Proof.
  intros Hg Hnew Hseen Hauth Hk Hshare Hconf. unfold take_record. destruct (value_budget_full _) eqn:Hfull; [done|].
  set (g1 := match share with Some _ => _ | None => _ end).
  assert (∀ k, count_at k (publishers_taken g1) ≤ MAX_PUBLISHERS_PER_FILE_PER_NODE) as Hp1.
  { unfold g1. destruct share as [[file d]|]; [|apply Hg]. intros k. apply count_at_incr_le; [|apply Hg].
    cbn in *. apply bool_decide_eq_false in Hshare. lia. }
  set (g2 := match first with Some f => _ | None => _ end).
  assert (r_data g2.2 = data) as Hd by (unfold g2; by destruct first).
  assert (∀ k, count_at k (confirmations_taken g2.1) ≤ MAX_CONFIRMED_PER_FILE_PER_NODE) as Hc2.
  { assert (confirmations_taken g1 = confirmations_taken (got s)) as E by (unfold g1; by destruct share as [[]|]).
    unfold g2. destruct first as [f|]; cbn [fst confirmations_taken set_turned_away]; [|rewrite E; apply Hg].
    specialize (Hconf ltac:(eauto)). unfold confirmations_left in Hconf.
    destruct (publisher_share data) as [[file d]|]; [|cbn; rewrite E; apply Hg].
    intros k. cbn. rewrite E. apply count_at_incr_le; [by apply bool_decide_eq_true in Hconf|apply Hg]. }
  assert (results g2.1 = results (got s) ∧ result_slots g2.1 = result_slots (got s) ∧ seen_results g2.1 = seen_results (got s) ∧
    sole_held g2.1 = sole_held (got s) ∧ contributors g2.1 = contributors (got s) ∧ absorbed_count g2.1 = absorbed_count (got s) ∧
    seeded_count g2.1 = seeded_count (got s) ∧ offered_results g2.1 = offered_results (got s) ∧
    publishers_taken g2.1 = publishers_taken g1 ∧ budget_spent g2.1 = {[budget_identity data (blake3_hash data)]} ∪ budget_spent (got s))
    as (E1 & E2 & E3 & E4 & E5 & E6 & E7 & E8 & E9 & E10).
  { unfold g2, g1. destruct first, share as [[]|], (publisher_share data) as [[]|]; done. }
  clearbody g2. destruct g2 as [g r]. cbn [fst snd] in *. cbn [got with_got]. split.
  - eapply (push_records tgt (got s) _ r); try done; try (by apply Hg).
    + by rewrite Hd.
    + cbn. by rewrite E1.
    + cbn. by rewrite E1, E2, Hd.
    + cbn. rewrite E3, Hd. set_solver.
    + cbn. rewrite E6. lia.
    + intros _. by rewrite Hd.
    + by rewrite Hd.
  - eapply (push_budget_remote (got s) _ r); try done; try (by apply Hg).
    + cbn. by rewrite E1.
    + cbn. by rewrite E9.
Qed.

Lemma over_share_frame g g' from share :
  publishers_taken g' = publishers_taken g → over_publisher_share g' from share = over_publisher_share g from share.
Proof. unfold over_publisher_share. by intros ->. Qed.

Lemma offer_blob_ok tgt now now_unix from allowance sub o data :
  gathered_ok tgt (got (of_search o)) → search_type (of_search o) = FindValue → target (of_search o) = tgt →
  allowance ≤ MAX_SEARCH_RESULTS →
  gathered_ok tgt (got (of_search (offer_blob now now_unix from allowance sub o data))).
Proof.
  intros Hg Hty Htgt Hall. unfold offer_blob. destruct (blob_for_us (of_search o) data) eqn:Hus; [|done]. cbn [negb].
  unfold blob_for_us in Hus. rewrite bool_decide_eq_true_2 in Hus by done.
  apply andb_true_iff in Hus as [[_ Hk]%andb_true_iff _]. apply bool_decide_eq_true in Hk. rewrite Htgt in Hk.
  fold (keyed tgt data) in Hk. clear Hty Htgt. destruct o as [s cs dn cr]. cbn [of_search cut_short delivered_now carried] in *. cbv zeta.
  set (offered := count_at from (offered_results (got s))).
  set (g1 := set_offered_results (got s) (<[from := offered]> (offered_results (got s)))).
  assert (∀ n, count_at n (offered_results g1) = count_at n (offered_results (got s))) as Hof.
  { intros n. unfold g1, count_at. cbn. destruct (decide (n = from)) as [->|]; [by rewrite lookup_insert_eq|by rewrite lookup_insert_ne]. }
  assert (gathered_ok tgt g1) as Hg1.
  { eapply gathered_frame; try exact Hg; try done. intros n. rewrite Hof. apply Hg. }
  destruct (decide (allowance ≤ offered)) as [|Hlt]; [done|]. cbn [got with_got] in *.
  assert (gathered_ok tgt (charge_offer g1 from)) as Hcharge.
  { eapply gathered_frame; try exact Hg1; try done. intros n. apply count_at_incr_le; [rewrite Hof; lia|].
    intros k. rewrite Hof. apply Hg. }
  destruct (decide (blake3_hash data ∈ seen_results g1)) as [|Hseen]; [by apply note_repeat_ok|].
  destruct (match turned_away g1 !! _ with Some (first, _) => bool_decide (first = from) | None => false end); [done|].
  destruct (match turned_away g1 !! _ with Some (first, subnet) => _ | None => false end); [done|].
  set (first := if confirmations_left g1 from data then _ else None).
  assert (is_Some first → confirmations_left g1 from data = true) as Hfirst.
  { unfold first. destruct (confirmations_left g1 from data); [done|]. intros [? [=]]. }
  set (share := match first with Some _ => None | None => publisher_share data end).
  destruct (value_blob_is_current data now_unix); [|done]. cbn [negb].
  destruct (over_publisher_share g1 from share) eqn:Hover.
  { destruct (value_blob_is_authentic data) eqn:Ha; [|done]. apply hold_turned_away_ok; auto. }
  destruct (value_blob_is_authentic data) eqn:Ha; cbn [negb of_search got with_got];
    [|eapply gathered_frame; try exact Hcharge; try done; [cbn; set_solver|apply Hcharge]].
  set (g4 := set_delivered_results _ _).
  assert (gathered_ok tgt g4) as Hg4 by (eapply gathered_frame; try exact Hcharge; try done; [cbn; set_solver|apply Hcharge]).
  pose proof (note_contributor_ok tgt g4 from Hg4) as Hg5.
  assert (results (note_contributor g4 from) = results g1 ∧ blake3_hash data ∈ seen_results (note_contributor g4 from) ∧
    publishers_taken (note_contributor g4 from) = publishers_taken g1 ∧
    confirmations_taken (note_contributor g4 from) = confirmations_taken g1) as (E1 & E2 & E3 & E4).
  { unfold note_contributor. repeat case_match; (split; [done|]); (split; [cbn; set_solver|done]). }
  apply take_record_ok; cbn [got with_got]; try done.
  - rewrite E1. by eapply unseen_new; [apply Hg1|].
  - by rewrite (over_share_frame _ _ _ _ E3).
  - intros Hs. unfold confirmations_left. rewrite E4. by apply Hfirst.
Qed.
Lemma offers_ok tgt now now_unix from allowance sub l o :
  gathered_ok tgt (got (of_search o)) → search_type (of_search o) = FindValue → target (of_search o) = tgt →
  allowance ≤ MAX_SEARCH_RESULTS →
  gathered_ok tgt (got (of_search (foldl (offer_blob now now_unix from allowance sub) o l))).
Proof.
  revert o. induction l as [|data l IH]; intros o Hg Hty Htgt Hall; [done|]. cbn [foldl].
  pose proof (offer_blob_got now now_unix from allowance sub o data) as G.
  apply IH; [by apply offer_blob_ok|by rewrite G|by rewrite G|done].
Qed.

(** ** Records of another walk, and of our own store *)
Lemma absorb_ok tgt g rs :
  gathered_ok tgt g → (∀ r, r ∈ rs → vouched r) → gathered_ok tgt (foldl absorb_one g rs).
Proof.
  revert g. induction rs as [|r rs IH]; intros g Hg Hv; [done|]. cbn [foldl].
  apply IH; [|intros; apply Hv; by right]. unfold absorb_one. case_decide as Hseen; [done|]. split.
  - eapply (push_records tgt g _ r); try done; try (by apply Hg); [by eapply unseen_new; [apply Hg|]|cbn; lia|].
    apply Hv. left.
  - destruct Hg as [_ [B1 B2 B3 B4 B5 B6 B7]]. split; try done; unfold remote_blobs in *; cbn in *; rewrite length_app; cbn; lia.
Qed.

Lemma seed_local_ok tgt s id l n :
  gathered_ok tgt (got s) → target s = tgt → local_node (got s) = Some id →
  gathered_ok tgt (got (seed_local s id l n).1).
Proof.
  revert s n. induction l as [|data l IH]; intros s n Hg Htgt Hloc; cbn [seed_local]; [done|].
  destruct (decide (MAX_LOCAL_SEED_RESULTS ≤ _)) as [|Hroom]; [done|].
  destruct (_ || negb _) eqn:Hk; [by apply IH|]. apply orb_false_iff in Hk as [_ Hk].
  apply negb_false_iff, bool_decide_eq_true in Hk. rewrite Htgt in Hk. fold (keyed tgt data) in Hk.
  destruct (_ || _) eqn:Hseen; [by apply IH|]. apply orb_false_iff in Hseen as [Hseen _]. apply bool_decide_eq_false in Hseen.
  destruct (over_publisher_share _ _ _) eqn:Hover.
  { apply IH; [by apply hold_turned_away_ok; auto|done|]. unfold hold_turned_away, note_contributor. by repeat case_match. }
  set (g1 := match publisher_share data with Some _ => _ | None => _ end).
  assert (∀ k, count_at k (publishers_taken g1) ≤ MAX_PUBLISHERS_PER_FILE_PER_NODE) as Hp1.
  { unfold g1. destruct (publisher_share data) as [[file d]|]; [|apply Hg]. intros k. apply count_at_incr_le; [|apply Hg].
    cbn in *. apply bool_decide_eq_false in Hover. lia. }
  apply IH; [|done|unfold g1; by destruct (publisher_share data) as [[]|]]. cbn [got with_got]. split.
  - eapply (push_records tgt (got s) _ (mkResult data id None None None true)); try done; try (by apply Hg);
      try (unfold g1; by destruct (publisher_share data) as [[]|]).
    by eapply unseen_new; [apply Hg|].
  - eapply (push_budget_seed (got s)); try done; try (by apply Hg); try (unfold g1; by destruct (publisher_share data) as [[]|]).
    destruct Hg as [_ [_ B2 _ _ _ _ _]]. lia.
Qed.

(** ** Whole operations *)
Lemma release_got s : got (release_parked_page s) = got s.
Proof.
  unfold release_parked_page. repeat case_match; try done. generalize (parked_pages (walk s)).
  intros l. induction l as [|p l IH]; [done|]. cbn [release_from]. repeat case_match; try done; apply IH.
Qed.
Lemma next_to_query_got s : got (next_to_query s).1 = got s.
Proof.
  unfold next_to_query. destruct (complete _); [done|]. case_decide; [done|].
  destruct (send_page_share _ _) as [w batch]. case_decide; [apply release_got|].
  destruct (send_descent _ _ _ _) as [w' b']. apply release_got.
Qed.
Lemma queue_next_page_got s node st rs page nr cut backed : got (queue_next_page s node st rs page nr cut backed) = got s.
Proof. unfold queue_next_page. repeat case_match; done. Qed.
Lemma maybe_queue_referral_got s node : got (maybe_queue_referral s node) = got s.
Proof. unfold maybe_queue_referral. repeat case_match; done. Qed.
Lemma take_contacts_got s from cs : got (take_contacts s from cs).1 = got s.
Proof. unfold take_contacts. cbv zeta. destruct (merge_closer _ _ _ _ _ _ _ _). done. Qed.
Lemma seed_extra_got s cs : got (seed_extra_contacts s cs).1 = got s.
Proof. unfold seed_extra_contacts. cbv zeta. destruct (pin_contacts _ _ _ _ _). done. Qed.

Lemma check_complete_gathered tgt now s : gathered_ok tgt (got s) → gathered_ok tgt (got (check_complete now s)).
Proof.
  intros Hg. unfold check_complete. destruct (complete _); [done|]. destruct (Z.ltb _ _); [by apply take_sole_ok|].
  pose proof (release_got s) as E. cbv zeta. set (s1 := release_parked_page s) in *. rewrite <- E in Hg. clearbody s1.
  destruct (negb _); [by apply take_sole_ok|]. destruct (converged _); [done|].
  destruct (keyword_walk_settled _ _); [by apply take_sole_ok|]. by destruct (_ && _).
Qed.

Lemma take_values_gathered now now_unix s from asked nc values page :
  gathered_ok (target s) (got s) → gathered_ok (target s) (got (take_values now now_unix s from asked nc values page)).
Proof.
  intros Hg. unfold take_values. set (expected := bool_decide (search_type s = FindValue) && negb (p_referral asked)). cbv zeta.
  assert (per_node_result_allowance s from ≤ MAX_SEARCH_RESULTS) as Hall.
  { unfold per_node_result_allowance, MAX_RESULTS_PER_NODE, MAX_SEARCH_RESULTS. destruct (_ || _); lia. }
  set (s1 := match node_subnet s from with Some _ => _ | None => _ end).
  assert (got_only s s1 ∧ gathered_ok (target s) (got s1)) as [G1 Hg1].
  { unfold s1. destruct (node_subnet s from); [|split; [apply got_only_refl|done]].
    destruct expected; [|split; [apply got_only_refl|done]]. split; [apply got_only_with|].
    eapply gathered_frame; try exact Hg; try done. apply Hg. }
  set (o := foldl _ _ _). assert (gathered_ok (target s) (got (of_search o))) as Ho.
  { unfold o. destruct expected eqn:He; [|exact Hg1]. apply andb_true_iff in He as [He _]. apply bool_decide_eq_true in He.
    apply offers_ok; cbn [of_search]; [done|by rewrite G1|by rewrite G1|done]. }
  destruct (negb _ && _ && _); [rewrite maybe_queue_referral_got|];
    (destruct (if expected then page else None); [case_decide; [rewrite queue_next_page_got|]|]); exact Ho.
Qed.

Lemma process_response_gathered now now_unix s r from cs vs pg :
  gathered_ok (target s) (got s) → gathered_ok (target s) (got (process_response now now_unix s r from cs vs pg).1).
Proof.
  intros Hg. unfold process_response. destruct (_ !! r) as [asked|]; [|done]. destruct (negb _); [done|]. cbv zeta.
  set (s1 := mark_responded _ from). change (target s) with (target s1) in *. assert (got s1 = got s) as E by done.
  rewrite <- E in Hg. clearbody s1. apply (take_values_gathered now now_unix _ from asked (bool_decide (cs = [])) vs pg) in Hg.
  set (s2 := take_values _ _ _ _ _ _ _ _) in *. clearbody s2.
  pose proof (take_contacts_got s2 from cs) as E2. destruct (take_contacts s2 from cs) as [s3 closer]. cbn [fst] in *.
  apply check_complete_gathered. by rewrite E2.
Qed.
Lemma mark_failed_gathered tgt now s r f : gathered_ok tgt (got s) → gathered_ok tgt (got (mark_failed_with now s r f).1).
Proof. intros Hg. unfold mark_failed_with. destruct (_ !! r); by apply check_complete_gathered. Qed.

Lemma step_gathered s s' :
  search_ok s → gathered_ok (target s) (got s) → step s s' → gathered_ok (target s') (got s').
Proof.
  intros [Hw H0] Hg Hstep. destruct Hstep as [s Hn|now nu s r from cs vs pg|now s r f|now s|s cs|s id rs|s|s c].
  - destruct Hw as [Hp Hs Hf]. destruct (next_to_query_sent s Hp H0 Hn) as [A1 A2 A3 A4 A5 A6 A7 A8 A9].
    rewrite next_to_query_got. by rewrite A5.
  - destruct (ends_with_check_ok _ _ _ Hw (process_response_checked now nu s r from cs vs pg Hw)) as (_ & (-> & _) & _). by apply process_response_gathered.
  - destruct (ends_with_check_ok _ _ _ Hw (mark_failed_checked now s r f Hw)) as (_ & (-> & _) & _). by apply mark_failed_gathered.
  - destruct (check_complete_ok now s Hw) as (_ & (E & _) & _). cbn [poll_complete fst]. rewrite E. by apply check_complete_gathered.
  - destruct (seed_extra_ok s cs Hw) as (_ & (-> & _) & _). by rewrite seed_extra_got.
  - pose proof (seed_local_results_got s id rs) as G. assert (target (seed_local_results s id rs).1 = target s) as -> by by rewrite G.
    unfold seed_local_results. apply seed_local_ok; [|done|done]. eapply gathered_frame; try exact Hg; try done. apply Hg.
  - done.
  - done.
Qed.

Lemma new_gathered tgt now : gathered_ok tgt (Gathered_new now).
Proof.
  split; split; cbn; try done; try lia; try (by intros; exfalso; eapply not_elem_of_nil); try (by left);
    try (intros k; unfold count_at; rewrite lookup_empty; cbn; lia).
  rewrite size_empty. lia.
Qed.
Lemma reachable_gathered s : reachable s → gathered_ok (target s) (got s).
Proof.
  induction 1 as [s (now & id & ty & tgt & hs & init & Hnd & ->)|s s' Hr IH Hstep|s other _ IH _ IHo].
  - apply new_gathered.
  - eapply step_gathered; [by apply reachable_ok|done|done].
  - unfold absorb_walk, absorb_results. cbn [target got with_got]. apply absorb_ok; [|apply IHo].
    eapply gathered_frame; try exact IH; try done. apply IH.
Qed.

(** ** Nothing taken is lost *)

(** The blobs of [g] lead those of [g'], in order. *)
Definition extends (g g' : Gathered) : Prop := (r_data <$> results g) `prefix_of` (r_data <$> results g').
#[local] Instance extends_preorder : PreOrder extends.
Proof. unfold extends. split; [intros g; reflexivity|]. intros g1 g2 g3 H1 H2. by etransitivity. Qed.
Lemma extends_same g g' : results g' = results g → extends g g'.
Proof. unfold extends. by intros ->. Qed.
Lemma extends_push g g' r : results g' = results g ++ [r] → extends g g'.
Proof. unfold extends. intros ->. rewrite fmap_app. by apply prefix_app_r. Qed.

Lemma note_contributor_results g node : results (note_contributor g node) = results g.
Proof. unfold note_contributor. by repeat case_match. Qed.
Lemma hold_results s node d data : results (got (hold_turned_away s node d data)) = results (got s).
Proof.
  unfold hold_turned_away. cbn [got with_got]. set (g := set_held_delivered _ _).
  assert (results g = results (got s)) as E by (unfold g; cbn; by rewrite note_contributor_results).
  by destruct (holds_sole_word g node).
Qed.
Lemma take_held_extends s node held : extends (got s) (got (take_held s node held)).
Proof.
  revert s. induction held as [|[d data] held IH]; intros s; cbn [take_held]; [reflexivity|].
  destruct (if bool_decide _ then _ else _); [reflexivity|]. destruct (_ !! d); [|apply IH].
  destruct (decide (d ∈ _)); (etransitivity; [|apply IH]); [by apply extends_same|].
  destruct (bool_decide _); by eapply extends_push.
Qed.
Lemma take_sole_extends s : extends (got s) (got (take_sole_contributors_held s)).
Proof.
  unfold take_sole_contributors_held. destruct (_ || _); [reflexivity|].
  destruct (match elements _ with [] => _ | _ => _ end) as [n|]; [|reflexivity].
  destruct (holds_sole_word _ n); [|by apply extends_same]. etransitivity; [|apply take_held_extends]. by apply extends_same.
Qed.
Lemma note_repeat_extends s from sub d : extends (got s) (got (note_repeat s from sub d)).
Proof.
  unfold note_repeat. destruct (_ !! d) as [i|]; [|reflexivity]. destruct (results _ !! i) as [held|] eqn:Hi; [|reflexivity].
  cbn [got with_got]. unfold extends. rewrite note_contributor_results. destruct (_ && _ && _); [|done].
  cbn [results set_results]. rewrite list_fmap_insert. cbn [r_data with_confirmation].
  rewrite list_insert_id; [done|]. by rewrite list_lookup_fmap, Hi.
Qed.
Lemma take_record_extends s now from sub d data share first prior :
  extends (got s) (got (take_record s now from sub d data share first prior)).
Proof.
  unfold take_record. destruct (value_budget_full _); [reflexivity|].
  destruct share as [[]|], first, (publisher_share data) as [[]|]; by eapply extends_push.
Qed.
Lemma offer_blob_extends now now_unix from allowance sub o data :
  extends (got (of_search o)) (got (of_search (offer_blob now now_unix from allowance sub o data))).
Proof.
  unfold offer_blob. destruct (negb (blob_for_us _ _)); [reflexivity|]. cbv zeta.
  set (g1 := set_offered_results _ _). assert (extends (got (of_search o)) g1) as E1 by by apply extends_same.
  case_decide; [done|]. case_decide; [etransitivity; [exact E1|apply note_repeat_extends]|].
  destruct (match turned_away g1 !! _ with Some (first, _) => bool_decide (first = from) | None => false end); [done|].
  destruct (match turned_away g1 !! _ with Some (first, subnet) => _ | None => false end); [done|].
  destruct (negb (value_blob_is_current _ _)); [done|].
  destruct (over_publisher_share g1 from _).
  { destruct (value_blob_is_authentic data); [|done]. apply extends_same. exact (hold_results _ from _ data). }
  destruct (negb (value_blob_is_authentic data)); [done|]. etransitivity; [|apply take_record_extends].
  apply extends_same. cbn. by rewrite note_contributor_results.
Qed.
Lemma offers_extends now now_unix from allowance sub l o :
  extends (got (of_search o)) (got (of_search (foldl (offer_blob now now_unix from allowance sub) o l))).
Proof.
  revert o. induction l as [|data l IH]; intros o; [reflexivity|]. cbn [foldl].
  etransitivity; [apply offer_blob_extends|apply IH].
Qed.
Lemma seed_local_extends s id l n : extends (got s) (got (seed_local s id l n).1).
Proof.
  revert s n. induction l as [|data l IH]; intros s n; cbn [seed_local]; [reflexivity|].
  case_decide; [reflexivity|]. destruct (_ || negb _); [apply IH|]. destruct (_ || _); [apply IH|].
  destruct (over_publisher_share _ _ _); (etransitivity; [|apply IH]).
  - apply extends_same, hold_results.
  - destruct (publisher_share data) as [[]|]; by eapply extends_push.
Qed.
Lemma absorb_extends g rs : extends g (foldl absorb_one g rs).
Proof.
  revert g. induction rs as [|r rs IH]; intros g; [reflexivity|]. cbn [foldl]. etransitivity; [|apply IH].
  unfold absorb_one. case_decide; [reflexivity|]. by eapply extends_push.
Qed.
Lemma check_complete_extends now s : extends (got s) (got (check_complete now s)).
Proof.
  unfold check_complete. destruct (complete _); [reflexivity|]. destruct (Z.ltb _ _); [apply take_sole_extends|].
  cbv zeta. rewrite <- (release_got s). generalize (release_parked_page s). intros s1.
  destruct (negb _); [apply take_sole_extends|]. destruct (converged _); [reflexivity|].
  destruct (keyword_walk_settled _ _); [apply take_sole_extends|]. by destruct (_ && _).
Qed.
Lemma take_values_extends now now_unix s from asked nc values page :
  extends (got s) (got (take_values now now_unix s from asked nc values page)).
Proof.
  unfold take_values. set (expected := bool_decide _ && _). cbv zeta.
  set (s1 := match node_subnet s from with Some _ => _ | None => _ end).
  assert (extends (got s) (got s1)) as E1 by (unfold s1; destruct (node_subnet s from), expected; by apply extends_same).
  set (o := foldl _ _ _). assert (extends (got s) (got (of_search o))) as Eo.
  { etransitivity; [exact E1|]. unfold o. exact (offers_extends _ _ _ _ _ _ (mkOffer s1 false 0 0)). }
  destruct (negb _ && _ && _); [rewrite maybe_queue_referral_got|];
    (destruct (if expected then page else None); [case_decide; [rewrite queue_next_page_got|]|]); exact Eo.
Qed.
Lemma process_response_extends now now_unix s r from cs vs pg :
  extends (got s) (got (process_response now now_unix s r from cs vs pg).1).
Proof.
  unfold process_response. destruct (_ !! r) as [asked|]; [|reflexivity]. destruct (negb _); [reflexivity|]. cbv zeta.
  set (s1 := mark_responded _ from). assert (got s1 = got s) as <- by done. clearbody s1.
  set (s2 := take_values _ _ _ _ _ _ _ _). assert (extends (got s1) (got s2)) as E2 by apply take_values_extends. clearbody s2.
  pose proof (take_contacts_got s2 from cs) as E3. destruct (take_contacts s2 from cs) as [s3 closer]. cbn [fst] in *.
  etransitivity; [exact E2|]. rewrite <- E3. apply check_complete_extends.
Qed.

(** ** Theorems *)

(** C18: the records of a search, however it came about: no blob is listed twice
    and each one's slot finds it; every record that is not from our own store
    carries a valid signature of the publisher it names; and all of them are
    under the key searched for, unless another walk's were taken over. *)
Theorem search_results_sound s :
  reachable s →
  NoDup (r_data <$> results (got s)) ∧
  (∀ i r, results (got s) !! i = Some r → result_slots (got s) !! blake3_hash (r_data r) = Some i) ∧
  (∀ r, r ∈ results (got s) → from_local_store r = false → value_blob_is_authentic (r_data r) = true) ∧
  (absorbed_count (got s) = 0 → ∀ r, r ∈ results (got s) → slice 1 17 (r_data r) = Some (target s)).
Proof.
  intros Hr. destruct (reachable_gathered s Hr) as [[R1 R2 R3 R4 R5 R6 R7] _]. split; [|done].
  apply NoDup_alt. intros i j b. rewrite !list_lookup_fmap, !fmap_Some. intros (ri & Hi & ->) (rj & Hj & E).
  pose proof (R1 i ri Hi) as H1. pose proof (R1 j rj Hj) as H2. rewrite E in H1. congruence.
Qed.

(** No peer and no file can spend a search: the files charged, the blobs
    taken from the network and the records of our own store stay within their
    budgets, and per responder so do the publishers of one file taken on its word
    alone, the records its copies confirmed, and the records it offered. *)
Theorem search_budgets_hold s :
  reachable s →
  let g := got s in
  size (budget_spent g) ≤ MAX_SEARCH_RESULTS ∧
  length (results g) ≤ MAX_SEARCH_RESULT_BLOBS + seeded_count g + absorbed_count g ∧
  seeded_count g ≤ MAX_LOCAL_SEED_RESULTS ∧
  (∀ node file digest, count_at (node, file, digest) (publishers_taken g) ≤ MAX_PUBLISHERS_PER_FILE_PER_NODE) ∧
  (∀ node file digest, count_at (node, file, digest) (confirmations_taken g) ≤ MAX_CONFIRMED_PER_FILE_PER_NODE) ∧
  (∀ node, count_at node (offered_results g) ≤ MAX_SEARCH_RESULTS).
Proof.
  intros Hr. destruct (reachable_gathered s Hr) as [_ [B1 B2 B3 B4 B5 B6 B7]]. unfold remote_blobs in B3. cbv zeta.
  split; [done|]. split; [lia|]. done.
Qed.

(** A record a search has taken stays in its place: every operation, and
    taking over another walk, only appends.  What was read from the first
    records therefore stays true of them. *)
Theorem results_append_only s s' :
  step s s' ∨ (∃ other, s' = absorb_walk s other) →
  (r_data <$> results (got s)) `prefix_of` (r_data <$> results (got s')).
Proof.
  change (_ `prefix_of` _) with (extends (got s) (got s')). intros [Hstep|[other ->]].
  - destruct Hstep as [s Hn|now nu s r from cs vs pg|now s r f|now s|s cs|s id rs|s|s c].
    + by rewrite next_to_query_got.
    + apply process_response_extends.
    + unfold mark_failed_with. destruct (_ !! r); [etransitivity; [|apply check_complete_extends]; reflexivity|apply check_complete_extends].
    + apply check_complete_extends.
    + by rewrite seed_extra_got.
    + etransitivity; [|apply seed_local_extends]. by apply extends_same.
    + reflexivity.
    + reflexivity.
  - unfold absorb_walk, absorb_results. cbn [got with_got]. etransitivity; [|apply absorb_extends]. by apply extends_same.
Qed.
End results.

(** ** A concrete search *)
Lemma search_results_sound_witness :
  results (got sample_answered) = [mkResult sample_key_record (repeat 6%Z 16) None (Some 151586304%Z) None false] ∧
  @value_blob_is_authentic toy_crypto sample_key_record = true.
Proof.
  split; [vm_compute; reflexivity|].
  destruct (@search_results_sound toy_crypto sample_answered sample_answered_reachable) as (_ & _ & Hauth & _).
  apply (Hauth (mkResult sample_key_record (repeat 6%Z 16) None (Some 151586304%Z) None false)); [|reflexivity].
  apply list_elem_of_lookup. exists 0. vm_compute. reflexivity.
Defined.
Lemma search_budgets_hold_witness :
  size (budget_spent (got sample_answered)) = 1 ∧ length (results (got sample_answered)) ≤ MAX_SEARCH_RESULT_BLOBS + 0 + 0.
Proof.
  split; [vm_compute; reflexivity|].
  exact (proj1 (proj2 (@search_budgets_hold toy_crypto sample_answered sample_answered_reachable))).
Defined.
Lemma results_append_only_witness :
  (r_data <$> results (got sample_answered)) `prefix_of`
  (r_data <$> results (got (@absorb_walk toy_crypto sample_answered sample_answered))) ∧
  length (results (got sample_answered)) = 1.
Proof.
  split; [|vm_compute; reflexivity]. apply (@results_append_only toy_crypto). right. exists sample_answered. reflexivity.
Defined.
