(* ===== verification/SearchManager.v ===== *)
(** * The searches of a node

    [SearchManager] of [network/ember/dht/search.rs]: the pool of running searches,
    started from the routing table's contacts.  [get_mut] hands out a search to
    drive; here that is an insert of the driven search. *)
From S2P Require Import Prelude NodeId Addr Contact Record RoutingTable RoutingInv RoutingSafety RoutingScale RoutingQuery Wire Crypto Messages SearchState Search SearchInv SearchWalk SearchOps SearchStep.

Record SearchManager := mkManager {
  searches : gmap Z IterativeSearch;
  next_id : Z;
}.
Definition SearchManager_new : SearchManager := mkManager ∅ 1.

(** The [for _ in 0..=MAX_ACTIVE_SEARCHES] loop. *)
Fixpoint alloc_from (rounds : nat) (m : SearchManager) : option Z * SearchManager :=
  match rounds with
  | 0 => (None, m)
  | S rounds =>
      let id := next_id m in
      let m := mkManager (searches m) (wrap_u32 (next_id m + 1)) in
      if decide (is_Some (searches m !! id)) then alloc_from rounds m else (Some id, m)
  end.
Definition alloc_id (cap : nat) (m : SearchManager) : option Z * SearchManager :=
  if decide (cap ≤ size (searches m)) then (None, m) else alloc_from (S MAX_ACTIVE_SEARCHES) m.

Section manager.
Context `{US : UnstableSlice}.

Definition start_within (now : Z) (ty : SearchType) (tgt : EmberNodeId) (hashes : list bytes) (t : RoutingTable)
    (cap : nat) (m : SearchManager) : option Z * SearchManager :=
  let initial := find_lookup_seeds t tgt K_BUCKET_SIZE in
  match alloc_id cap m with
  | (None, m) => (None, m)
  | (Some id, m) =>
      (Some id, mkManager (<[id := IterativeSearch_new now id ty tgt hashes initial]> (searches m)) (next_id m))
  end.
Definition start_find_node_within (now : Z) (tgt : EmberNodeId) := start_within now FindNode tgt [].
Definition start_find_value_within (now : Z) := start_within now FindValue.
Definition start_find_node now tgt t := start_find_node_within now tgt t MAX_ACTIVE_SEARCHES.
Definition start_background_find_node now tgt t := start_find_node_within now tgt t MAX_BACKGROUND_SEARCHES.
Definition start_find_value now key hashes t := start_find_value_within now key hashes t MAX_ACTIVE_SEARCHES.
Definition start_feeding_find_value now key hashes t := start_find_value_within now key hashes t MAX_FEEDING_SEARCHES.
Definition start_background_find_value now key hashes t := start_find_value_within now key hashes t MAX_BACKGROUND_SEARCHES.
End manager.

Definition put_search (m : SearchManager) (id : Z) (s : IterativeSearch) : SearchManager :=
  mkManager (<[id := s]> (searches m)) (next_id m).
Definition remove (m : SearchManager) (id : Z) : SearchManager := mkManager (delete id (searches m)) (next_id m).
Definition is_expired (now : Z) (s : IterativeSearch) : bool :=
  Z.ltb (SEARCH_TIMEOUT_SECS * 2) (elapsed_secs now (started_at s)).
(** The expired ids collected, then removed one by one. *)
Definition cleanup_expired (now : Z) (m : SearchManager) : SearchManager * list IterativeSearch :=
  let expired := fst <$> retain (λ ks, is_expired now ks.2) (map_to_list (searches m)) in
  foldl (λ '(m, removed) id,
           match searches m !! id with
           | Some s => (remove m id, removed ++ [s])
           | None => (m, removed)
           end) (m, []) expired.
Definition active_count (m : SearchManager) : nat := size (searches m).
Definition nodes_in_use (m : SearchManager) : gset EmberNodeId :=
  list_to_set (
    retain (λ s, negb (complete (walk s))) (snd <$> map_to_list (searches m)) ≫= λ s,
    e_id <$> retain (λ e, in_state Pending e || in_state InFlight e) (shortlist (walk s))).

Section manager_records.
Context `{Crypto : Ed25519Blake3}.
Definition manager_seed_extra (m : SearchManager) (id : Z) (contacts : list EmberContact) : SearchManager * nat :=
  match searches m !! id with
  | Some s => let '(s, n) := seed_extra_contacts s contacts in (put_search m id s, n)
  | None => (m, 0)
  end.
Definition manager_seed_local (m : SearchManager) (id : Z) (local_id : EmberNodeId) (records : list bytes)
    : SearchManager * nat :=
  match searches m !! id with
  | Some s => let '(s, n) := seed_local_results s local_id records in (put_search m id s, n)
  | None => (m, 0)
  end.
End manager_records.

(** ** Ids *)
Definition is_u32_id (v : Z) : Prop := (0 ≤ v < 4294967296)%Z.
Lemma wrap_u32_range v : is_u32_id (wrap_u32 v).
Proof. unfold wrap_u32, is_u32_id. apply Z.mod_pos_bound. lia. Qed.
Lemma wrap_u32_succ v i : wrap_u32 (wrap_u32 (v + 1) + i) = wrap_u32 (v + (1 + i)).
Proof. unfold wrap_u32. rewrite Zplus_mod_idemp_l. f_equal. lia. Qed.

(** A loop that fails has met a live search at each of its ids. *)
Lemma alloc_from_spec n m :
  is_u32_id (next_id m) →
  let '(r, m') := alloc_from n m in
  searches m' = searches m ∧ is_u32_id (next_id m') ∧
  match r with
  | Some id => searches m !! id = None ∧ is_u32_id id
  | None => ∀ i, (0 ≤ i < Z.of_nat n)%Z → is_Some (searches m !! wrap_u32 (next_id m + i))
  end.
Proof.
  revert m. induction n as [|n IH]; intros m Hm; [cbn; split; [done|split; [done|lia]]|].
  cbn [alloc_from searches next_id]. case_decide as Hd.
  - specialize (IH (mkManager (searches m) (wrap_u32 (next_id m + 1))) (wrap_u32_range _)).
    destruct (alloc_from n _) as [[id|] m']; [exact IH|]. destruct IH as (E & Hn & Hall). split; [done|]. split; [done|].
    intros i Hi. destruct (decide (i = 0%Z)) as [->|Hne].
    + rewrite Z.add_0_r. unfold wrap_u32. rewrite Z.mod_small by exact Hm. exact Hd.
    + specialize (Hall (i - 1)%Z ltac:(lia)). cbn [searches next_id] in Hall. rewrite wrap_u32_succ in Hall.
      replace (1 + (i - 1))%Z with i in Hall by lia. exact Hall.
  - split; [done|]. split; [apply wrap_u32_range|]. split; [by apply eq_None_not_Some|done].
Qed.

(** That many different ids would be more searches than there are. *)
Lemma ids_pigeonhole (m : gmap Z IterativeSearch) v n :
  (Z.of_nat n ≤ 4294967296)%Z → (∀ i, (0 ≤ i < Z.of_nat n)%Z → is_Some (m !! wrap_u32 (v + i))) → n ≤ size m.
Proof.
  intros Hn Hall. set (ids := (λ i, wrap_u32 (v + Z.of_nat i)) <$> seq 0 n).
  assert (NoDup ids) as Hnd.
  { apply NoDup_alt. intros i j x. unfold ids. rewrite !list_lookup_fmap, !fmap_Some.
    intros (a & [-> Ha]%lookup_seq & ->) (b & [-> Hb]%lookup_seq & E). cbn in E. unfold wrap_u32 in E.
    apply (f_equal (λ z, (z - v) mod 4294967296)%Z) in E. rewrite !Zminus_mod_idemp_l in E.
    replace (v + Z.of_nat i - v)%Z with (Z.of_nat i) in E by lia. replace (v + Z.of_nat j - v)%Z with (Z.of_nat j) in E by lia.
    rewrite !Z.mod_small in E by lia. lia. }
  assert (list_to_set ids ⊆ dom m) as Hsub.
  { intros x (y & -> & Hy%elem_of_seq)%elem_of_list_to_set%list_elem_of_fmap. apply elem_of_dom, Hall. lia. }
  apply subseteq_size in Hsub. rewrite size_list_to_set in Hsub by done. rewrite size_dom in Hsub.
  unfold ids in Hsub. rewrite length_fmap, length_seq in Hsub. done.
Qed.

(** ** Seeds *)
Section seeds.
Context `{US : UnstableSlice}.
Lemma keep_nearest_submseteq tgt l n : e_item <$> keep_nearest (scan_entries tgt l) n ⊆+ l.
Proof.
  rewrite keep_nearest_sort by apply scan_entries_distinct. rewrite <- (scan_items tgt l) at 2. apply fmap_submseteq.
  etransitivity; [apply sublist_submseteq, sublist_take|]. by rewrite stable_sort_perm.
Qed.
Lemma lookup_seeds_submseteq t tgt n : find_lookup_seeds t tgt n ⊆+ all_contacts t.
Proof.
  assert (find_closest_prefer_verified t tgt n ⊆+ all_contacts t) as Hp.
  { unfold find_closest_prefer_verified. case_decide; [apply submseteq_nil_l|]. cbv zeta.
    assert (retain is_verified (all_contacts t) ++ retain (λ c, negb (is_verified c)) (all_contacts t) ≡ₚ all_contacts t) as E.
    { induction (all_contacts t) as [|c l IH]; [done|]. rewrite !retain_cons. destruct (is_verified c); cbn [negb app].
      - by rewrite IH.
      - rewrite <- Permutation_middle. by rewrite IH. }
    etransitivity; [|apply Permutation_submseteq, E]. case_decide; [apply submseteq_app; apply keep_nearest_submseteq|].
    etransitivity; [apply keep_nearest_submseteq|]. by apply submseteq_inserts_r. }
  unfold find_lookup_seeds. case_decide; [|done]. etransitivity; [apply sublist_submseteq, retain_sublist|done].
Qed.
Lemma lookup_seeds_nodup t tgt n : wf t → NoDup (node_id <$> find_lookup_seeds t tgt n).
Proof.
  intros [_ Hw]. pose proof (all_ids_nodup t Hw) as Hnd.
  pose proof (lookup_seeds_submseteq t tgt n) as (k & Hk)%submseteq_Permutation.
  rewrite Hk, fmap_app in Hnd. by apply NoDup_app in Hnd as [? _].
Qed.
End seeds.

(** ** The pool *)
Section pool.
Context `{US : UnstableSlice} `{Crypto : Ed25519Blake3}.

(** What happens to the pool.  [pool_drive] is an operation on a search that
    [get_mut] lent, [pool_absorb] the end of an extra walk of a query. *)
Inductive pool_step : SearchManager → SearchManager → Prop :=
  | pool_start m now ty tgt hashes t cap : wf t → cap ≤ MAX_ACTIVE_SEARCHES →
      pool_step m (start_within now ty tgt hashes t cap m).2
  | pool_drive m id s s' : searches m !! id = Some s → step s s' → pool_step m (put_search m id s')
  | pool_seed_extra m id contacts : pool_step m (manager_seed_extra m id contacts).1
  | pool_seed_local m id local records : pool_step m (manager_seed_local m id local records).1
  | pool_absorb m id s other_id other : searches m !! id = Some s → searches (remove m id) !! other_id = Some other →
      pool_step m (remove (put_search m id (absorb_walk s other)) other_id)
  | pool_remove m id : pool_step m (remove m id)
  | pool_cleanup m now : pool_step m (cleanup_expired now m).1.

Record manager_ok (m : SearchManager) : Prop := {
  m_size : size (searches m) ≤ MAX_ACTIVE_SEARCHES;
  m_next : is_u32_id (next_id m);
  m_searches : ∀ id s, searches m !! id = Some s → reachable s;
}.

Lemma put_ok m id s s' : manager_ok m → searches m !! id = Some s → reachable s' → manager_ok (put_search m id s').
Proof.
  intros [M1 M2 M3] Hs Hr. split; cbn [searches next_id put_search]; [|done|].
  - by rewrite map_size_insert_Some by eauto.
  - intros i x [[<- <-]|[_ Hx]]%lookup_insert_Some; [done|by eapply M3].
Qed.
Lemma remove_ok m id : manager_ok m → manager_ok (remove m id).
Proof.
  intros [M1 M2 M3]. split; cbn [searches next_id remove]; [|done|].
  - rewrite map_size_delete. case_match; unfold Datatypes.id; lia.
  - intros i x [_ Hx]%lookup_delete_Some. by eapply M3.
Qed.
Lemma cleanup_fold_ok m removed ids :
  manager_ok m →
  let '(m', _) := foldl (λ '(m, removed) id, match searches m !! id with
    | Some s => (remove m id, removed ++ [s]) | None => (m, removed) end) (m, removed) ids in manager_ok m'.
Proof.
  revert m removed. induction ids as [|id ids IH]; intros m removed Hm; [done|]. cbn [foldl].
  destruct (searches m !! id); [apply IH, remove_ok|apply IH]; done.
Qed.

Lemma alloc_id_spec cap m :
  manager_ok m → cap ≤ MAX_ACTIVE_SEARCHES →
  let '(r, m') := alloc_id cap m in
  searches m' = searches m ∧ is_u32_id (next_id m') ∧
  (r = None ↔ cap ≤ size (searches m)) ∧ (∀ id, r = Some id → searches m !! id = None ∧ is_u32_id id).
Proof.
  intros [M1 M2 M3] Hcap. unfold alloc_id. case_decide as Hd; [done|].
  pose proof (alloc_from_spec (S MAX_ACTIVE_SEARCHES) m M2) as H. destruct (alloc_from _ m) as [[id|] m'].
  - destruct H as (E1 & E2 & E3). split; [done|]. split; [done|]. split; [split; [done|lia]|]. by intros ? [= <-].
  - destruct H as (_ & _ & H). exfalso. apply ids_pigeonhole in H; [lia|unfold MAX_ACTIVE_SEARCHES; lia].
Qed.

Lemma pool_step_ok m m' : manager_ok m → pool_step m m' → manager_ok m'.
Proof.
  intros Hm Hstep. destruct Hstep as [m now ty tgt hashes t cap Ht Hcap|m id s s' Hs Hstep|m id cs|m id local rs|m id s oid other Hs Ho|m id|m now].
  - unfold start_within. pose proof (alloc_id_spec cap m Hm Hcap) as H. destruct (alloc_id cap m) as [[id|] m1].
    + destruct H as (E1 & E2 & E3 & E4). destruct (E4 id eq_refl) as [Hfresh Hid]. destruct Hm as [M1 M2 M3].
      split; cbn [snd searches next_id]; rewrite ?E1; [|done|].
      * rewrite map_size_insert_None by done. destruct E3 as [_ E3]. assert (¬ cap ≤ size (searches m)) by (intros ?%E3; done). lia.
      * intros i x [[<- <-]|[_ Hx]]%lookup_insert_Some; [|by eapply M3].
        apply reach_start. eexists _, _, _, _, _, _. split; [|reflexivity]. by apply lookup_seeds_nodup.
    + destruct H as (E1 & E2 & _). destruct Hm as [M1 M2 M3]. split; cbn [snd]; by rewrite ?E1.
  - eapply put_ok; [done|done|]. eapply reach_step; [by eapply Hm|done].
  - unfold manager_seed_extra. destruct (searches m !! id) as [s|] eqn:Hs; [|done].
    destruct (seed_extra_contacts s cs) as [s' n] eqn:E. eapply put_ok; [done|done|].
    eapply reach_step; [by eapply Hm|]. change s' with (s', n).1. rewrite <- E. constructor.
  - unfold manager_seed_local. destruct (searches m !! id) as [s|] eqn:Hs; [|done].
    destruct (seed_local_results s local rs) as [s' n] eqn:E. eapply put_ok; [done|done|].
    eapply reach_step; [by eapply Hm|]. change s' with (s', n).1. rewrite <- E. constructor.
  - apply remove_ok. eapply put_ok; [done|done|]. apply reach_absorb; [by eapply Hm|].
    cbn [searches remove] in Ho. apply lookup_delete_Some in Ho as [_ Ho]. by eapply Hm.
  - by apply remove_ok.
  - unfold cleanup_expired. pose proof (cleanup_fold_ok m [] (fst <$> retain (λ ks, is_expired now ks.2) (map_to_list (searches m))) Hm) as H.
    by destruct (foldl _ _ _).
Qed.

Lemma new_manager_ok : manager_ok SearchManager_new.
Proof.
  split; cbn; [rewrite map_size_empty; unfold MAX_ACTIVE_SEARCHES; lia|unfold is_u32_id; lia|intros id s; by rewrite lookup_empty].
Qed.
Lemma pool_reachable_ok m : rtc pool_step SearchManager_new m → manager_ok m.
Proof.
  intros H. pose proof new_manager_ok as H0. revert H0. induction H as [|m1 m2 m3 Hs _ IH]; [done|].
  intros Hm. by eapply IH, pool_step_ok.
Qed.

(** ** Cleaning up *)
Lemma cleanup_fold m removed l :
  NoDup l.*1 → (∀ id s, (id, s) ∈ l → searches m !! id = Some s) →
  let '(m', removed') := foldl (λ '(m, removed) id, match searches m !! id with
    | Some s => (remove m id, removed ++ [s]) | None => (m, removed) end) (m, removed) (fst <$> l) in
  removed' = removed ++ (snd <$> l) ∧ next_id m' = next_id m ∧
  ∀ id, searches m' !! id = if decide (id ∈ l.*1) then None else searches m !! id.
Proof.
  revert m removed. induction l as [|[id s] l IH]; intros m removed Hnd Hin; cbn [fmap list_fmap foldl fst snd].
  { rewrite app_nil_r. split; [done|]. split; [done|]. intros id. rewrite decide_False by (intros H; by apply elem_of_nil in H). done. }
  rewrite (Hin id s) by left. cbn [fmap list_fmap fst] in Hnd. apply NoDup_cons in Hnd as [Hnew Hnd].
  specialize (IH (remove m id) (removed ++ [s]) Hnd). destruct (foldl _ _ _) as [m' removed'].
  destruct IH as (E1 & E2 & E3).
  { intros id' s' Hl. cbn. rewrite lookup_delete_ne; [apply Hin; by right|].
    intros ->. apply Hnew. apply list_elem_of_fmap. by exists (id', s'). }
  split; [by rewrite E1, <- app_assoc|]. split; [done|]. intros id'. rewrite E3. cbn [remove searches].
  destruct (decide (id' = id)) as [->|Hne].
  - rewrite decide_False by done. rewrite decide_True by left. apply lookup_delete_eq.
  - rewrite lookup_delete_ne by done. destruct (decide (id' ∈ l.*1)).
    + rewrite decide_True by (by right). done.
    + rewrite decide_False; [done|]. by intros [?|?]%elem_of_cons.
Qed.

(** ** Theorems *)

(** The pool of searches never exceeds its ceiling and everything in it is a
    search the theorems on searches apply to.  A user's lookup is turned away
    only by a pool that is full, background work already when it would take
    the reserve; a lookup that is not turned away gets an id no running search
    has, starts from the routing table's seeds, and disturbs no other. *)
Theorem search_pool_serves now key hashes t m :
  rtc pool_step SearchManager_new m → wf t →
  size (searches m) ≤ MAX_ACTIVE_SEARCHES ∧ (∀ id s, searches m !! id = Some s → reachable s) ∧
  ((start_find_value now key hashes t m).1 = None ↔ size (searches m) = MAX_ACTIVE_SEARCHES) ∧
  ((start_background_find_value now key hashes t m).1 = None ↔ MAX_BACKGROUND_SEARCHES ≤ size (searches m)) ∧
  (∀ id, (start_find_value now key hashes t m).1 = Some id →
     searches m !! id = None ∧
     searches (start_find_value now key hashes t m).2 =
       <[id := IterativeSearch_new now id FindValue key hashes (find_lookup_seeds t key K_BUCKET_SIZE)]> (searches m)).
Proof.
  intros Hm%pool_reachable_ok Ht. split; [apply Hm|]. split; [apply Hm|].
  assert (∀ cap, cap ≤ MAX_ACTIVE_SEARCHES →
    ((start_find_value_within now key hashes t cap m).1 = None ↔ cap ≤ size (searches m)) ∧
    (∀ id, (start_find_value_within now key hashes t cap m).1 = Some id → searches m !! id = None ∧
      searches (start_find_value_within now key hashes t cap m).2 =
       <[id := IterativeSearch_new now id FindValue key hashes (find_lookup_seeds t key K_BUCKET_SIZE)]> (searches m))) as Hcap.
  { intros cap Hle. unfold start_find_value_within, start_within. pose proof (alloc_id_spec cap m Hm Hle) as H.
    destruct (alloc_id cap m) as [[id|] m1]; destruct H as (E1 & E2 & E3 & E4); cbn [fst snd searches]; [|done].
    split; [done|]. intros ? [= <-]. rewrite E1. split; [by apply E4|done]. }
  destruct (Hcap MAX_ACTIVE_SEARCHES ltac:(done)) as [H1 H2].
  destruct (Hcap MAX_BACKGROUND_SEARCHES ltac:(unfold MAX_BACKGROUND_SEARCHES, MAX_ACTIVE_SEARCHES; lia)) as [H3 _].
  split; [|done]. pose proof (m_size _ Hm). unfold start_find_value. rewrite H1. lia.
Qed.

(** [cleanup_expired] takes exactly the searches older than twice the
    timeout out of the pool, hands each of them back once, and leaves the
    others. *)
Theorem cleanup_expired_exact now m :
  let '(m', removed) := cleanup_expired now m in
  removed ≡ₚ retain (is_expired now) (snd <$> map_to_list (searches m)) ∧ next_id m' = next_id m ∧
  (∀ id, searches m' !! id = (s ← searches m !! id; if is_expired now s then None else Some s)).
Proof.
  unfold cleanup_expired. set (l := retain (λ ks, is_expired now ks.2) (map_to_list (searches m))).
  assert (NoDup l.*1) as Hnd.
  { eapply sublist_NoDup; [exact (NoDup_fst_map_to_list (searches m))|]. apply fmap_sublist, retain_sublist. }
  pose proof (cleanup_fold m [] l Hnd) as H. destruct (foldl _ _ _) as [m' removed]. destruct H as (E1 & E2 & E3).
  { intros id s Hl. apply elem_of_retain in Hl as [_ Hl]. by apply elem_of_map_to_list. }
  split; [|split; [done|]].
  - rewrite E1. cbn [app]. unfold l. rewrite retain_fmap. done.
  - intros id. rewrite E3. destruct (searches m !! id) as [s|] eqn:Hs; cbn.
    + destruct (is_expired now s) eqn:He.
      * rewrite decide_True; [done|]. apply list_elem_of_fmap. exists (id, s). split; [done|].
        apply elem_of_retain. split; [done|]. by apply elem_of_map_to_list.
      * rewrite decide_False; [done|]. intros ([id' s'] & -> & [He' Hs']%elem_of_retain)%list_elem_of_fmap.
        apply elem_of_map_to_list in Hs'. cbn in *. congruence.
    + case_decide; done.
Qed.

(** Ageing the routing table never costs a running lookup a node it still
    means to ask or is waiting for, however long ago that node was heard of. *)
Theorem lookup_survives_ageing now age m t id s e c :
  wf t → searches m !! id = Some s → complete (walk s) = false →
  e ∈ shortlist (walk s) → e_state e = Pending ∨ e_state e = InFlight →
  c ∈ all_contacts t → node_id c = e_id e →
  ∃ c', c' ∈ all_contacts (remove_stale now age (nodes_in_use m) t).2 ∧ node_id c' = node_id c ∧ addr c' = addr c.
Proof.
  intros Ht Hs Hc He Hst Hin Hid.
  assert (node_id c ∈ nodes_in_use m) as Huse.
  { unfold nodes_in_use. apply elem_of_list_to_set, list_elem_of_bind. exists s. split.
    - apply list_elem_of_fmap. exists e. split; [done|]. apply elem_of_retain. split; [|done].
      unfold in_state. destruct Hst as [-> | ->]; done.
    - apply elem_of_retain. rewrite Hc. split; [done|]. apply list_elem_of_fmap. exists (id, s). split; [done|].
      by apply elem_of_map_to_list. }
  pose proof (remove_stale_exact now age (nodes_in_use m) t Ht) as H. destruct (remove_stale _ _ _ t) as [n t']. destruct H as [Hb _].
  cbn [snd]. unfold all_contacts in Hin. apply list_elem_of_bind in Hin as (b & Hcb & (i & Hi)%list_elem_of_lookup).
  set (c' := (clamp_contact (i64_saturating_add now CLOCK_STEP_SLACK_SECS) now c).1).
  assert (node_id c' = node_id c ∧ addr c' = addr c) as [Hid' Ha'] by (unfold c', clamp_contact; by case_match).
  exists c'. split; [|done]. assert (c' ∈ contacts (bucket_at t' i)) as Hc'.
  { rewrite (proj1 (Hb i)). unfold aged. apply elem_of_retain. split.
    - unfold outlived. rewrite Hid'. by rewrite (bool_decide_eq_true_2 (node_id c ∈ _)), andb_false_r by done.
    - apply list_elem_of_fmap. exists c. split; [done|]. unfold bucket_at. by rewrite (nth_lookup_Some _ _ _ b Hi). }
  unfold all_contacts. apply list_elem_of_bind. unfold bucket_at in Hc'. rewrite nth_lookup in Hc'.
  destruct (buckets t' !! i) as [b'|] eqn:Hb'; cbn in Hc'; [|by apply elem_of_nil in Hc'].
  exists b'. split; [done|]. by eapply list_elem_of_lookup_2.
Qed.
End pool.

(** ** Witnesses *)
Definition sample_pool : SearchManager :=
  (start_background_find_value 0 (sample_id 7) [] (sample_table [sample_contact 128 1 900; sample_contact 129 2 0])
     SearchManager_new).2.
Lemma sample_pool_reachable : @rtc SearchManager (@pool_step _ toy_crypto) SearchManager_new sample_pool.
Proof.
  apply rtc_once. apply (@pool_start _ toy_crypto SearchManager_new 0 FindValue (sample_id 7) []); [apply wf_sample_table|].
  unfold MAX_BACKGROUND_SEARCHES, MAX_ACTIVE_SEARCHES. lia.
Qed.
Lemma search_pool_serves_witness :
  size (searches sample_pool) = 1 ∧
  (start_find_value 5 (sample_id 9) [] (sample_table []) sample_pool).1 = Some 2%Z ∧ searches sample_pool !! 2%Z = None.
Proof.
  split; [vm_compute; reflexivity|]. split; [vm_compute; reflexivity|].
  destruct (@search_pool_serves _ toy_crypto 5 (sample_id 9) [] (sample_table []) sample_pool sample_pool_reachable (wf_sample_table _))
    as (_ & _ & _ & _ & H). apply H. vm_compute. reflexivity.
Defined.
Lemma lookup_survives_ageing_witness :
  ∃ c', c' ∈ all_contacts (remove_stale 100000 600 (nodes_in_use sample_pool) (sample_table [sample_contact 128 1 900])).2 ∧
    node_id c' = sample_id 128 ∧ addr c' = addr (sample_contact 128 1 900).
Proof.
  set (s := IterativeSearch_new 0 1 FindValue (sample_id 7) []
    (find_lookup_seeds (sample_table [sample_contact 128 1 900; sample_contact 129 2 0]) (sample_id 7) K_BUCKET_SIZE)).
  apply (lookup_survives_ageing 100000 600 sample_pool (sample_table [sample_contact 128 1 900]) 1 s
    (new_entry (sample_id 7) false None (sample_contact 128 1 900)) (sample_contact 128 1 900)).
  - apply wf_sample_table.
  - vm_compute. reflexivity.
  - reflexivity.
  - apply list_elem_of_lookup. exists 1. vm_compute. reflexivity.
  - left. reflexivity.
  - apply list_elem_of_lookup. exists 0. vm_compute. reflexivity.
  - reflexivity.
Defined.
