(* ===== verification/Float64.v ===== *)
(** * Double-precision numbers

    What the rate limiter computes with [f64]: conversions of [u32] and of
    durations, the four operations and the comparison.  The class states facts
    of IEEE 754 arithmetic with rounding to nearest: integers below 2^53 are
    exact and so are their sums, rounding is monotone, and a quotient of two
    ordered non-negative numbers is in the unit interval.  Nothing else about
    rounding is used. *)
From S2P Require Import Prelude.
From Stdlib Require Import QArith Qcanon.

Definition EXACT : Z := 9007199254740992.

Class Binary64 := {
  f64 : Type;
  (** [n as f64]. *)
  f_of : Z → f64;
  (** [Duration::as_secs_f64] of a number of nanoseconds. *)
  as_secs_f64 : Z → f64;
  F64_EPSILON : f64;
  fadd : f64 → f64 → f64;
  fsub : f64 → f64 → f64;
  fmul : f64 → f64 → f64;
  fdiv : f64 → f64 → f64;
  fmax : f64 → f64 → f64;
  fle : f64 → f64 → bool;
  fle_trans : ∀ x y z, fle x y = true → fle y z = true → fle x z = true;
  f_of_le : ∀ a b, (0 ≤ a < EXACT)%Z → (0 ≤ b < EXACT)%Z → fle (f_of a) (f_of b) = Z.leb a b;
  fadd_of : ∀ a b, (0 ≤ a)%Z → (0 ≤ b)%Z → (a + b < EXACT)%Z → fadd (f_of a) (f_of b) = f_of (a + b);
  fadd_mono : ∀ x y z, fle (f_of 0) x = true → fle x y = true → fle (f_of 0) z = true →
    fle (fadd x z) (fadd y z) = true;
  fle_add : ∀ x y, fle (f_of 0) x = true → fle (f_of 0) y = true → fle x (fadd x y) = true;
  fmul_nonneg : ∀ a c, (0 ≤ a < EXACT)%Z → fle (f_of 0) c = true → fle c (f_of 1) = true →
    fle (f_of 0) (fmul (f_of a) c) = true;
  fmul_0 : ∀ c, fle (f_of 0) c = true → fle c (f_of 1) = true → fmul (f_of 0) c = f_of 0;
  fmul_by_0 : ∀ a, (0 ≤ a < EXACT)%Z → fmul (f_of a) (f_of 0) = f_of 0;
  fmul_by_1 : ∀ a, (0 ≤ a < EXACT)%Z → fmul (f_of a) (f_of 1) = f_of a;
  as_secs_0 : as_secs_f64 0 = f_of 0;
  as_secs_mono : ∀ a b, (0 ≤ a ≤ b)%Z → fle (as_secs_f64 a) (as_secs_f64 b) = true;
  fmax_secs : ∀ d, (1000000 ≤ d)%Z → fmax (as_secs_f64 d) F64_EPSILON = as_secs_f64 d;
  fdiv_secs : ∀ a b, (0 ≤ a ≤ b)%Z → (0 < b)%Z →
    fle (f_of 0) (fdiv (as_secs_f64 a) (as_secs_f64 b)) = true ∧
    fle (fdiv (as_secs_f64 a) (as_secs_f64 b)) (f_of 1) = true;
  fdiv_0 : ∀ b, (0 < b)%Z → fdiv (f_of 0) (as_secs_f64 b) = f_of 0;
  fdiv_self : ∀ b, (0 < b)%Z → fdiv (as_secs_f64 b) (as_secs_f64 b) = f_of 1;
  fsub_unit : ∀ q, fle (f_of 0) q = true → fle q (f_of 1) = true →
    fle (f_of 0) (fsub (f_of 1) q) = true ∧ fle (fsub (f_of 1) q) (f_of 1) = true;
  fsub_of : ∀ a b, (0 ≤ b ≤ a)%Z → (a < EXACT)%Z → fsub (f_of a) (f_of b) = f_of (a - b);
}.

(** The laws are consistent: the rational numbers, where nothing is rounded. *)
Definition qc_of (z : Z) : Qc := Q2Qc (inject_Z z).
Definition qc_le (x y : Qc) : bool := Qle_bool x y.
Definition qc_max (x y : Qc) : Qc := if qc_le x y then y else x.

Lemma qc_le_spec x y : qc_le x y = true ↔ (x <= y)%Qc.
Proof. unfold qc_le, Qcle. apply Qle_bool_iff. Qed.
Lemma qc_of_le a b : (qc_of a <= qc_of b)%Qc ↔ (a ≤ b)%Z.
Proof. unfold qc_of, Qcle. cbn. rewrite !Qred_correct. by rewrite <- Zle_Qle. Qed.
Lemma qc_of_add a b : (qc_of a + qc_of b = qc_of (a + b))%Qc.
Proof. apply Qc_is_canon. unfold qc_of. cbn. rewrite !Qred_correct. by rewrite inject_Z_plus. Qed.
Lemma qc_of_sub a b : (qc_of a - qc_of b = qc_of (a - b))%Qc.
Proof.
  apply Qc_is_canon. unfold qc_of, Qcminus, Qcopp, Qcplus. cbn [this Q2Qc]. rewrite !Qred_correct.
  unfold Qeq, inject_Z, Qplus, Qopp. cbn. lia.
Qed.
Lemma qc_of_0 : qc_of 0 = 0%Qc.
Proof. done. Qed.
Lemma qc_of_1 : qc_of 1 = 1%Qc.
Proof. done. Qed.
Definition qc_secs (d : Z) : Qc := (qc_of d / qc_of 1000000000)%Qc.

Lemma qc_secs_le a b : (a ≤ b)%Z → (qc_secs a <= qc_secs b)%Qc.
Proof.
  intros H. unfold qc_secs, Qcdiv. apply Qcmult_le_compat_r; [by apply qc_of_le|]. unfold Qcle. vm_compute. discriminate.
Qed.
Lemma qc_secs_pos b : (0 < b)%Z → (0 < qc_secs b)%Qc.
Proof.
  intros H. apply Qcnot_le_lt. intros Hle. unfold qc_secs, Qcdiv in Hle.
  assert (qc_of b <= 0)%Qc as Hb.
  { rewrite <- (Qcmult_1_r (qc_of b)). assert (1 = / qc_of 1000000000 * qc_of 1000000000)%Qc as E by (by apply Qc_is_canon; vm_compute).
    rewrite E, Qcmult_assoc. rewrite <- (Qcmult_0_l (qc_of 1000000000)). apply Qcmult_le_compat_r; [done|].
    apply (qc_of_le 0). lia. }
  apply (qc_of_le b 0) in Hb. lia.
Qed.
Lemma qc_div_unit x y : (0 <= x)%Qc → (x <= y)%Qc → (0 < y)%Qc → (0 <= x / y)%Qc ∧ (x / y <= 1)%Qc.
Proof.
  intros Hx Hxy Hy. assert (0 <= / y)%Qc as Hi.
  { unfold Qclt, Qcle, Qcinv in *. cbn [this Q2Qc] in *. change (Qred 0) with 0%Q in *. rewrite Qred_correct.
    by apply Qlt_le_weak, Qinv_lt_0_compat. }
  assert (y ≠ 0%Qc) as Hne by (intros ->; by apply Qclt_not_eq in Hy). split; unfold Qcdiv.
  - rewrite <- (Qcmult_0_l (/ y)). by apply Qcmult_le_compat_r.
  - rewrite <- (Qcmult_inv_r y Hne). by apply Qcmult_le_compat_r.
Qed.

#[export] Instance Binary64_exact : Binary64.
Proof.
  refine {| f64 := Qc; f_of := qc_of; as_secs_f64 := qc_secs; F64_EPSILON := (qc_of 1 / qc_of 4503599627370496)%Qc;
            fadd := Qcplus; fsub := Qcminus; fmul := Qcmult; fdiv := Qcdiv; fmax := qc_max; fle := qc_le |}.
  - intros x y z. rewrite !qc_le_spec. apply Qcle_trans.
  - intros a b _ _. apply eq_bool_prop_intro. rewrite !Is_true_true, qc_le_spec, qc_of_le. by rewrite Z.leb_le.
  - intros a b _ _ _. apply qc_of_add.
  - intros x y z _ H _. apply qc_le_spec in H. apply qc_le_spec, Qcplus_le_compat; [done|apply Qcle_refl].
  - intros x y _ H. apply qc_le_spec in H. apply qc_le_spec. rewrite <- (Qcplus_0_r x) at 1.
    apply Qcplus_le_compat; [apply Qcle_refl|done].
  - intros a c Ha Hc _. apply qc_le_spec in Hc. apply qc_le_spec. rewrite qc_of_0, <- (Qcmult_0_l c).
    apply Qcmult_le_compat_r; [apply (qc_of_le 0); lia|done].
  - intros c _ _. apply Qcmult_0_l.
  - intros a _. apply Qcmult_0_r.
  - intros a _. apply Qcmult_1_r.
  - unfold qc_secs. apply Qcmult_0_l.
  - intros a b H. apply qc_le_spec, qc_secs_le. lia.
  - intros d Hd. unfold qc_max. destruct (qc_le _ _) eqn:E; [|done]. apply qc_le_spec in E. exfalso.
    pose proof (qc_secs_le 1000000 d Hd) as H. pose proof (Qcle_trans _ _ _ H E) as Hb. vm_compute in Hb. by apply Hb.
  - intros a b Hab Hb. rewrite !qc_le_spec. apply qc_div_unit; [|apply qc_secs_le; lia|by apply qc_secs_pos].
    assert (qc_secs 0 = 0%Qc) as <- by apply Qcmult_0_l. apply qc_secs_le. lia.
  - intros b _. apply Qcmult_0_l.
  - intros b Hb. apply Qcmult_inv_r. intros E. pose proof (qc_secs_pos b Hb) as H. rewrite E in H. by apply Qclt_not_eq in H.
  - intros q H0 H1. rewrite !qc_le_spec in *. rewrite qc_of_0, qc_of_1 in *. split.
    + by apply Qcle_minus_iff in H1.
    + apply Qcle_minus_iff. replace (1 + - (1 - q))%Qc with q by ring. done.
  - intros a b _ _. apply qc_of_sub.
Defined.
