(* ===== verification/Protection.v ===== *)
(** * Rate limits

    [network/ember/dht/protection.rs]: the window counter, and [DhtProtection], the
    flood gate in front of the message handler.  An [Instant] and a [Duration] are
    numbers of nanoseconds.  The operations take the instant the source reads
    with [Instant::now()]. *)
From S2P Require Import Prelude NodeId Addr Contact Messages Float64.

Definition SECS (n : Z) : Z := (n * 1000000000)%Z.
Definition MSG_WINDOW : Z := SECS 1.
Definition MAX_MSGS_PER_WINDOW : Z := 40.
Definition CHANNEL_GOSSIP_OUT_PER_SEC : Z := 16.
Definition CHANNEL_HISTORY_SYNC_MAX : Z := 32.
Definition XFER_BLOCKS_OUT_PER_SEC : Z := 192.
Definition CHANNEL_GOSSIP_IN_PER_PEER_PER_SEC : Z := (CHANNEL_GOSSIP_OUT_PER_SEC + CHANNEL_HISTORY_SYNC_MAX)%Z.
Definition CHANNEL_XFER_IN_PER_PEER_PER_SEC : Z := XFER_BLOCKS_OUT_PER_SEC.
Definition MAX_CHANNEL_FRAMES_PER_WINDOW : Z :=
  (CHANNEL_GOSSIP_IN_PER_PEER_PER_SEC + CHANNEL_XFER_IN_PER_PEER_PER_SEC)%Z.
Definition LOOKUP_WINDOW : Z := SECS 10.
Definition MAX_LOOKUPS_PER_WINDOW : Z := 60.
Definition STORE_WINDOW : Z := SECS 60.
Definition MAX_STORE_IDENTITIES_PER_ADDR : Z := 8.
Definition MAX_IP_ENTRIES : Z := 10000.
Definition TRIM_INTERVAL : Z := SECS 1.
Definition TRIM_EVERY_FRAME_AT : Z := (MAX_IP_ENTRIES - 2)%Z.

Definition U32_MAX : Z := 4294967295.
Definition u32_sat_add (a b : Z) : Z := Z.min U32_MAX (a + b).
Definition u32_sat_sub (a b : Z) : Z := Z.max 0 (a - b).
Definition u32_sat_mul (a b : Z) : Z := Z.min U32_MAX (a * b).
Definition u64_sat_inc (a : Z) : Z := Z.min 18446744073709551615 (a + 1).
(** [now.saturating_duration_since(t)]. *)
Definition since (now t : Z) : Z := Z.max 0 (now - t).

(** ** The window counter *)
Record WindowCounter := mkCounter { count : Z; previous : Z; window_start : option Z }.
Definition WindowCounter_default : WindowCounter := mkCounter 0 0 None.

Section counter.
Context `{F : Binary64}.

Definition age (now window : Z) (c : WindowCounter) : WindowCounter :=
  let half := (window / 2)%Z in
  match window_start c with
  | Some start =>
      if Z.ltb (since now start) half then c
      else if Z.ltb (since now start) window then mkCounter 0 (count c) (Some (start + half)%Z)
      else mkCounter 0 0 (Some now)
  | None => mkCounter 0 0 (Some now)
  end.
(** [effective + cost as f64 <= limit as f64]. *)
Definition fits (now window limit cost : Z) (c : WindowCounter) : bool :=
  let half := (window / 2)%Z in
  let start := default now (window_start c) in
  let elapsed := Z.min (since now start) half in
  let carry_fraction := fsub (f_of 1) (fdiv (as_secs_f64 elapsed) (fmax (as_secs_f64 half) F64_EPSILON)) in
  let effective := fadd (f_of (count c)) (fmul (f_of (previous c)) carry_fraction) in
  fle (fadd effective (f_of cost)) (f_of limit).
Definition would_allow_n (now window limit cost : Z) (c : WindowCounter) : bool * WindowCounter :=
  let c := age now window c in (fits now window limit cost c, c).
Definition commit_n (cost : Z) (c : WindowCounter) : WindowCounter :=
  mkCounter (u32_sat_add (count c) cost) (previous c) (window_start c).
Definition refund_n (cost : Z) (c : WindowCounter) : WindowCounter :=
  mkCounter (u32_sat_sub (count c) cost) (previous c) (window_start c).
Definition allow_n (now window limit cost : Z) (c : WindowCounter) : bool * WindowCounter :=
  let '(ok, c) := would_allow_n now window limit cost c in
  if ok then (true, commit_n cost c) else (false, c).
Definition allow (now window limit : Z) (c : WindowCounter) : bool * WindowCounter := allow_n now window limit 1 c.

(** [retain(|_, c| c.last_activity() .. < keep)]. *)
Definition is_live (now keep : Z) (c : WindowCounter) : bool :=
  match window_start c with Some s => Z.ltb (since now s) keep | None => false end.
Definition sweep `{Countable K} (now keep : Z) (m : gmap K WindowCounter) : gmap K WindowCounter :=
  filter (λ kc, is_live now keep kc.2 = true) m.
(** [m.len() >= MAX_IP_ENTRIES && !m.contains_key(&k)]. *)
Definition table_full `{Countable K} (k : K) (m : gmap K WindowCounter) : bool :=
  Z.leb MAX_IP_ENTRIES (Z.of_nat (size m)) && bool_decide (m !! k = None).
(** [m.entry(k).or_default()] given to a counter operation. *)
Definition on_entry `{Countable K} (f : WindowCounter → bool * WindowCounter) (k : K) (m : gmap K WindowCounter)
    : bool * gmap K WindowCounter :=
  let '(ok, c) := f (default WindowCounter_default (m !! k)) in (ok, <[k := c]> m).

(** ** The gate *)
Inductive StoreBudgetKey := Node (id : bytes) | Addr (ip : IpAddr).
#[export] Instance StoreBudgetKey_eq_dec : EqDecision StoreBudgetKey.
Proof. solve_decision. Defined.
#[export] Instance StoreBudgetKey_countable : Countable StoreBudgetKey.
Proof.
  apply (inj_countable' (λ k, match k with Node id => inl id | Addr ip => inr ip end)
    (λ x, match x with inl id => Node id | inr ip => Addr ip end)). by intros [].
Defined.

Record DhtProtection := mkProtection {
  msg_counters : gmap IpAddr WindowCounter;
  channel_counters : gmap IpAddr WindowCounter;
  store_counters : gmap StoreBudgetKey WindowCounter;
  lookup_counters : gmap StoreBudgetKey WindowCounter;
  dropped_rate : Z;
  dropped_store_addr_ceiling : Z;
  max_stores : Z;
  trimmed_at : option Z;
  trim_interval : Z;
}.
Definition DhtProtection_new : DhtProtection :=
  mkProtection ∅ ∅ ∅ ∅ 0 0 (max_stores_per_minute Bootstrap) None TRIM_INTERVAL.
(** The field a test sets to sweep on every frame. *)
Definition with_interval (p : DhtProtection) (d : Z) : DhtProtection :=
  mkProtection (msg_counters p) (channel_counters p) (store_counters p) (lookup_counters p) (dropped_rate p)
    (dropped_store_addr_ceiling p) (max_stores p) (trimmed_at p) d.
Definition set_msg p m : DhtProtection :=
  mkProtection m (channel_counters p) (store_counters p) (lookup_counters p) (dropped_rate p)
    (dropped_store_addr_ceiling p) (max_stores p) (trimmed_at p) (trim_interval p).
Definition set_channel p m : DhtProtection :=
  mkProtection (msg_counters p) m (store_counters p) (lookup_counters p) (dropped_rate p)
    (dropped_store_addr_ceiling p) (max_stores p) (trimmed_at p) (trim_interval p).
Definition set_store p m : DhtProtection :=
  mkProtection (msg_counters p) (channel_counters p) m (lookup_counters p) (dropped_rate p)
    (dropped_store_addr_ceiling p) (max_stores p) (trimmed_at p) (trim_interval p).
Definition set_lookup p m : DhtProtection :=
  mkProtection (msg_counters p) (channel_counters p) (store_counters p) m (dropped_rate p)
    (dropped_store_addr_ceiling p) (max_stores p) (trimmed_at p) (trim_interval p).
Definition drop_frame p : DhtProtection :=
  mkProtection (msg_counters p) (channel_counters p) (store_counters p) (lookup_counters p) (u64_sat_inc (dropped_rate p))
    (dropped_store_addr_ceiling p) (max_stores p) (trimmed_at p) (trim_interval p).
Definition note_ceiling p : DhtProtection :=
  mkProtection (msg_counters p) (channel_counters p) (store_counters p) (lookup_counters p) (dropped_rate p)
    (u64_sat_inc (dropped_store_addr_ceiling p)) (max_stores p) (trimmed_at p) (trim_interval p).
Definition protection_set_scale (s : NetworkScale) (p : DhtProtection) : DhtProtection :=
  mkProtection (msg_counters p) (channel_counters p) (store_counters p) (lookup_counters p) (dropped_rate p)
    (dropped_store_addr_ceiling p) (max_stores_per_minute s) (trimmed_at p) (trim_interval p).

Definition wants (due : bool) (len : Z) : bool :=
  Z.ltb (MAX_IP_ENTRIES / 2) len && (due || Z.leb TRIM_EVERY_FRAME_AT len).
Definition trim_map `{Countable K} (due : bool) (now keep : Z) (m : gmap K WindowCounter) : gmap K WindowCounter :=
  if wants due (Z.of_nat (size m)) then sweep now keep m else m.
Definition maybe_trim (now : Z) (p : DhtProtection) : DhtProtection :=
  let due := match trimmed_at p with Some at_ => Z.leb (trim_interval p) (since now at_) | None => true end in
  let any := wants due (Z.of_nat (size (msg_counters p))) || wants due (Z.of_nat (size (channel_counters p)))
             || wants due (Z.of_nat (size (store_counters p))) || wants due (Z.of_nat (size (lookup_counters p))) in
  mkProtection (trim_map due now (MSG_WINDOW * 4) (msg_counters p)) (trim_map due now (MSG_WINDOW * 4) (channel_counters p))
    (trim_map due now (STORE_WINDOW * 2) (store_counters p)) (trim_map due now (LOOKUP_WINDOW * 2) (lookup_counters p))
    (dropped_rate p) (dropped_store_addr_ceiling p) (max_stores p)
    (if due && any then Some now else trimmed_at p) (trim_interval p).

Definition allow_frame_at (ip : IpAddr) (now : Z) (p : DhtProtection) : bool * DhtProtection :=
  let p := maybe_trim now p in
  if table_full ip (msg_counters p) then (false, drop_frame p)
  else
    let '(ok, m) := on_entry (allow now MSG_WINDOW MAX_MSGS_PER_WINDOW) ip (msg_counters p) in
    let p := set_msg p m in
    if ok then (true, p) else (false, drop_frame p).
Definition allow_channel_frame_at (ip : IpAddr) (now : Z) (p : DhtProtection) : bool * DhtProtection :=
  let p := maybe_trim now p in
  if table_full ip (channel_counters p) then (false, drop_frame p)
  else
    let '(ok, m) := on_entry (allow now MSG_WINDOW MAX_CHANNEL_FRAMES_PER_WINDOW) ip (channel_counters p) in
    let p := set_channel p m in
    if ok then (true, p) else (false, drop_frame p).

Definition is_store_type (msg_type : Z) : bool :=
  bool_decide (msg_type = MSG_STORE_RECORD) || bool_decide (msg_type = MSG_PROXY_STORE) || bool_decide (msg_type = MSG_STORE_BATCH).
Definition is_lookup_type (msg_type : Z) : bool :=
  bool_decide (msg_type = MSG_FIND_NODE) || bool_decide (msg_type = MSG_FIND_VALUE) || bool_decide (msg_type = MSG_CALLBACK_REQ)
  || bool_decide (msg_type = MSG_BUDDY_ENDORSE_REQ) || bool_decide (msg_type = MSG_ANNOUNCE_PEER).
Definition budget_key (ip : IpAddr) (sender_id : option bytes) : StoreBudgetKey :=
  match sender_id with Some id => Node id | None => Addr ip end.
Definition addr_key (ip : IpAddr) (sender_id : option bytes) : option StoreBudgetKey :=
  match sender_id with Some _ => Some (Addr ip) | None => None end.

(** [if let Some(counter) = self.store_counters.get_mut(&key)]. *)
Definition on_store (f : WindowCounter → WindowCounter) (key : StoreBudgetKey) (p : DhtProtection) : DhtProtection :=
  match store_counters p !! key with
  | Some c => set_store p (<[key := f c]> (store_counters p))
  | None => p
  end.
Definition charge_store (key : StoreBudgetKey) (cost : Z) (p : DhtProtection) : DhtProtection := on_store (commit_n cost) key p.

Definition peek_store (key : StoreBudgetKey) (now limit cost : Z) (p : DhtProtection) : bool * DhtProtection :=
  let '(ok, m) := on_entry (would_allow_n now STORE_WINDOW limit cost) key (store_counters p) in (ok, set_store p m).
Definition allow_store (ip : IpAddr) (sender_id : option bytes) (store_records now : Z) (p : DhtProtection)
    : bool * DhtProtection :=
  let key := budget_key ip sender_id in
  if table_full key (store_counters p) then (false, drop_frame p)
  else
    let cost := Z.max store_records 1 in
    let '(store_ok, p) := peek_store key now (max_stores p) cost p in
    if negb store_ok then (false, drop_frame p)
    else match addr_key ip sender_id with
    | None => (true, charge_store key cost p)
    | Some akey =>
        if table_full akey (store_counters p) then (false, drop_frame p)
        else
          let '(addr_ok, p) := peek_store akey now (u32_sat_mul (max_stores p) MAX_STORE_IDENTITIES_PER_ADDR) cost p in
          if negb addr_ok then (false, note_ceiling (drop_frame p))
          else (true, charge_store akey cost (charge_store key cost p))
    end.
Definition allow_lookup (ip : IpAddr) (sender_id : option bytes) (now : Z) (p : DhtProtection) : bool * DhtProtection :=
  let key := budget_key ip sender_id in
  if table_full key (lookup_counters p) then (false, drop_frame p)
  else
    let '(ok, m) := on_entry (allow now LOOKUP_WINDOW MAX_LOOKUPS_PER_WINDOW) key (lookup_counters p) in
    let p := set_lookup p m in
    if ok then (true, p) else (false, drop_frame p).
Definition allow_typed_at (ip : IpAddr) (msg_type : Z) (sender_id : option bytes) (store_records now : Z)
    (p : DhtProtection) : bool * DhtProtection :=
  let '(ok, p) := if is_store_type msg_type then allow_store ip sender_id store_records now p else (true, p) in
  if negb ok then (false, p)
  else if is_lookup_type msg_type then allow_lookup ip sender_id now p else (true, p).

Definition refund_store (ip : IpAddr) (msg_type : Z) (sender_id : option bytes) (store_records : Z) (p : DhtProtection)
    : DhtProtection :=
  if negb (is_store_type msg_type) then p
  else
    let cost := Z.max store_records 1 in
    let p := on_store (refund_n cost) (budget_key ip sender_id) p in
    match sender_id with
    | Some _ => on_store (refund_n cost) (Addr ip) p
    | None => p
    end.
End counter.
