(* ===== verification/ProtectionRate.v ===== *)
(** * What a window counter admits

    The counter's arithmetic over any [Binary64], and the rate it enforces: the
    charges of one half-window never exceed the limit, the half-windows a counter
    opens are a half apart, so the charges in any interval are bounded. *)
From S2P Require Import Prelude NodeId Addr Contact Messages Float64 Protection.

Definition is_count (v : Z) : Prop := (0 ≤ v ≤ U32_MAX)%Z.
Record counter_ok (c : WindowCounter) : Prop := { c_count : is_count (count c); c_previous : is_count (previous c) }.
(** A window of some milliseconds, of even length. *)
Definition window_ok (window : Z) : Prop := (2000000 ≤ window)%Z ∧ (window = 2 * (window / 2))%Z.

Lemma fresh_counter_ok : counter_ok WindowCounter_default.
Proof. split; unfold is_count, U32_MAX; cbn; lia. Qed.

Section rate.
Context `{F : Binary64}.

Lemma count_exact v : is_count v → (0 ≤ v < EXACT)%Z.
Proof. unfold is_count, U32_MAX, EXACT. lia. Qed.

Lemma age_ok now window c : counter_ok c → counter_ok (age now window c).
Proof.
  intros [H1 H2]. unfold age. assert (is_count 0) by (unfold is_count, U32_MAX; lia).
  destruct (window_start c); [|by split]. destruct (Z.ltb _ _); [by split|]. by destruct (Z.ltb _ _).
Qed.
Lemma would_allow_ok now window limit cost c : counter_ok c → counter_ok (would_allow_n now window limit cost c).2.
Proof. apply age_ok. Qed.
Lemma commit_ok cost c : counter_ok c → (0 ≤ cost)%Z → counter_ok (commit_n cost c).
Proof. intros [[H1 H1'] H2] H. split; [|done]. unfold is_count, commit_n, u32_sat_add in *. cbn. lia. Qed.
Lemma refund_ok cost c : counter_ok c → (0 ≤ cost)%Z → counter_ok (refund_n cost c).
Proof. intros [[H1 H1'] H2] H. split; [|done]. unfold is_count, refund_n, u32_sat_sub, U32_MAX in *. cbn. lia. Qed.
Lemma allow_n_ok now window limit cost c : counter_ok c → (0 ≤ cost)%Z → counter_ok (allow_n now window limit cost c).2.
Proof.
  intros Hc H. unfold allow_n, would_allow_n. destruct (fits _ _ _ _ _); cbn; [apply commit_ok|]; by try apply age_ok.
Qed.

(** ** The weighting *)
Definition carry_of (elapsed half : Z) : f64 :=
  fsub (f_of 1) (fdiv (as_secs_f64 elapsed) (fmax (as_secs_f64 half) F64_EPSILON)).
Lemma carry_unit elapsed half :
  (0 ≤ elapsed ≤ half)%Z → (1000000 ≤ half)%Z →
  fle (f_of 0) (carry_of elapsed half) = true ∧ fle (carry_of elapsed half) (f_of 1) = true.
Proof.
  intros He Hh. unfold carry_of. rewrite fmax_secs by done.
  destruct (fdiv_secs elapsed half He ltac:(lia)). by apply fsub_unit.
Qed.

(** What fits leaves room for the cost in the limit, whatever the carry. *)
Lemma fits_sound now window limit cost c :
  window_ok window → counter_ok c → is_count cost → is_count limit →
  fits now window limit cost c = true → (count c + cost ≤ limit)%Z.
Proof.
  intros [Hw Hw2] [Hc Hp] Hcost Hlim. unfold fits.
  set (elapsed := Z.min _ _). assert (0 ≤ elapsed ≤ window / 2)%Z as He by (unfold elapsed, since; lia).
  fold (carry_of elapsed (window / 2)). destruct (carry_unit elapsed (window / 2) He ltac:(lia)) as [Hc0 Hc1].
  set (carry := carry_of _ _) in *. clearbody carry. intros Hfit.
  pose proof (count_exact _ Hc) as Xc. pose proof (count_exact _ Hp) as Xp. pose proof (count_exact _ Hcost) as Xk.
  assert (∀ v, (0 ≤ v < EXACT)%Z → fle (f_of 0) (f_of v) = true) as Hnn.
  { intros v Hv. rewrite f_of_le by (unfold EXACT in *; lia). lia. }
  assert (fle (f_of (count c)) (fadd (f_of (count c)) (fmul (f_of (previous c)) carry)) = true) as H1.
  { apply fle_add; [by apply Hnn|by apply fmul_nonneg]. }
  assert (fle (fadd (f_of (count c)) (f_of cost)) (fadd (fadd (f_of (count c)) (fmul (f_of (previous c)) carry)) (f_of cost)) = true) as H2.
  { apply fadd_mono; [by apply Hnn|done|by apply Hnn]. }
  pose proof (fle_trans _ _ _ H2 Hfit) as H3.
  rewrite fadd_of in H3 by (unfold is_count, U32_MAX, EXACT in *; lia).
  rewrite f_of_le in H3 by (unfold is_count, U32_MAX, EXACT in *; lia). lia.
Qed.

(** With nothing carried over the rule is the plain one. *)
Lemma fits_plain now window limit cost c :
  window_ok window → counter_ok c → is_count cost → is_count limit → previous c = 0%Z →
  fits now window limit cost c = Z.leb (count c + cost) limit.
Proof.
  intros [Hw Hw2] [Hc Hp] Hcost Hlim Hz. unfold fits.
  set (elapsed := Z.min _ _). assert (0 ≤ elapsed ≤ window / 2)%Z as He by (unfold elapsed, since; lia).
  fold (carry_of elapsed (window / 2)). destruct (carry_unit elapsed (window / 2) He ltac:(lia)) as [Hc0 Hc1].
  rewrite Hz, fmul_0 by done. rewrite !fadd_of, f_of_le, Z.add_0_r by (unfold is_count, U32_MAX, EXACT in *; lia). done.
Qed.

(** ** Idle counters *)
Definition idle (window now : Z) (c : WindowCounter) : Prop :=
  match window_start c with Some s => (window ≤ since now s)%Z | None => True end.
Lemma age_idle now window c : (0 ≤ window)%Z → idle window now c → age now window c = mkCounter 0 0 (Some now).
Proof.
  unfold idle, age. intros Hw. destruct (window_start c) as [s|]; [|done]. intros H.
  assert (window / 2 ≤ window)%Z by (apply Z.div_le_upper_bound; lia).
  rewrite (proj2 (Z.ltb_ge _ _)) by lia. by rewrite (proj2 (Z.ltb_ge _ _)) by lia.
Qed.
Lemma idle_as_fresh now window limit cost c :
  (0 ≤ window)%Z → idle window now c →
  would_allow_n now window limit cost c = would_allow_n now window limit cost WindowCounter_default.
Proof. intros Hw Hi. unfold would_allow_n. by rewrite !age_idle. Qed.
Lemma idle_later window now now' c : idle window now c → (now ≤ now')%Z → idle window now' c.
Proof. unfold idle, since. destruct (window_start c); lia. Qed.

(** ** Histories

    The admissions of one counter: when, and in which half-window. *)
Section history.
Context (window limit : Z) (Hwin : window_ok window) (Hlim : is_count limit).

Definition charges (s : Z) (h : list (Z * Z)) : Z := Z.of_nat (count_if (λ x, Z.eqb x.2 s) h).
Record hist_ok (now : Z) (h : list (Z * Z)) (oc : option WindowCounter) : Prop := {
  h_time : ∀ t s, (t, s) ∈ h → (s ≤ t < s + window / 2 ∧ t ≤ now)%Z;
  h_limit : ∀ s, (charges s h ≤ limit)%Z;
  h_spaced : ∀ x y, x ∈ h → y ∈ h → x.2 = y.2 ∨ (x.2 + window / 2 ≤ y.2)%Z ∨ (y.2 + window / 2 ≤ x.2)%Z;
  h_ok : ∀ c, oc = Some c → counter_ok c;
  h_now : match oc ≫= window_start with
    | Some s0 => (s0 ≤ now)%Z ∧ (∀ c, oc = Some c → count c = charges s0 h) ∧
        ∀ x, x ∈ h → x.2 = s0 ∨ (x.2 + window / 2 ≤ s0)%Z
    | None => ∀ x, x ∈ h → (x.2 + window / 2 ≤ now)%Z
    end;
}.

Lemma half_pos : (1000000 ≤ window / 2)%Z.
Proof. destruct Hwin. lia. Qed.
Lemma charges_none s h : (∀ x, x ∈ h → x.2 ≠ s) → charges s h = 0%Z.
Proof.
  intros H. unfold charges. rewrite count_if_none; [done|]. apply Forall_forall. intros x Hx. apply Z.eqb_neq. by apply H.
Qed.
Lemma charges_cons s t s' h : charges s ((t, s') :: h) = (charges s h + (if Z.eqb s' s then 1 else 0))%Z.
Proof. unfold charges. rewrite count_if_cons. cbn [snd]. destruct (Z.eqb s' s); lia. Qed.

Lemma hist_new now : hist_ok now [] None.
Proof.
  assert (∀ (x : Z * Z), x ∈ @nil (Z * Z) → False) as Hnil by (intros x Hx; by apply elem_of_nil in Hx).
  destruct Hlim. split.
  - intros t s []%Hnil.
  - intros s. rewrite charges_none; [lia|]. intros x []%Hnil.
  - intros x y []%Hnil.
  - done.
  - intros x []%Hnil.
Qed.
Lemma hist_later now now' h oc : hist_ok now h oc → (now ≤ now')%Z → hist_ok now' h oc.
Proof.
  intros [H1 H2 H3 H4 H5] Hle. split; try done.
  - intros t s Ht. destruct (H1 t s Ht). split; lia.
  - destruct (oc ≫= window_start); [|intros x Hx; specialize (H5 x Hx); lia]. destruct H5 as (? & ? & ?). split; [lia|done].
Qed.
Lemma hist_swept now keep h c :
  (window ≤ keep)%Z → hist_ok now h (Some c) → is_live now keep c = false → hist_ok now h None.
Proof.
  intros Hk [H1 H2 H3 H4 H5] Hl. pose proof half_pos. destruct Hwin. split; try done. cbn in *.
  unfold is_live in Hl. destruct (window_start c) as [s0|]; [|done]. apply Z.ltb_ge in Hl. unfold since in Hl.
  destruct H5 as (Hs & _ & Hall). intros x Hx. destruct (Hall x Hx); lia.
Qed.

(** The counter an admission is asked of, aged. *)
Lemma hist_aged now h oc :
  hist_ok now h oc →
  let c := age now window (default WindowCounter_default oc) in
  hist_ok now h (Some c) ∧ ∃ s, window_start c = Some s ∧ (s ≤ now < s + window / 2)%Z.
Proof.
  intros [H1 H2 H3 H4 H5]. cbv zeta. pose proof half_pos as Hh. destruct Hwin as [Hw Hw2].
  assert (counter_ok (default WindowCounter_default oc)) as Hc by (destruct oc; [by apply H4|apply fresh_counter_ok]).
  pose proof (age_ok now window _ Hc) as Hc'.
  assert ((∀ x, x ∈ h → (x.2 + window / 2 ≤ now)%Z) →
    hist_ok now h (Some (mkCounter 0 0 (Some now))) ∧ ∃ s, Some now = Some s ∧ (s ≤ now < s + window / 2)%Z) as Hreset.
  { intros Hall. split; [|exists now; split; [done|lia]]. split; try done.
    - intros c [= <-]. split; unfold is_count, U32_MAX; cbn; lia.
    - cbn. split; [lia|]. split; [|auto]. intros c [= <-]. rewrite charges_none; [done|].
      intros x Hx E. specialize (Hall x Hx). lia. }
  destruct oc as [c|]; cbn [default from_option id mbind option_bind] in *; [|by apply Hreset].
  unfold age in *. destruct (window_start c) as [s0|] eqn:Hs; [|by apply Hreset]. destruct H5 as (Hle & Hcount & Hall).
  unfold since. destruct (Z.ltb_spec (Z.max 0 (now - s0)) (window / 2)).
  { split; [|exists s0; split; [done|lia]]. split; try done. cbn. by rewrite Hs. }
  destruct (Z.ltb_spec (Z.max 0 (now - s0)) window).
  - split; [|exists (s0 + window / 2)%Z; split; [done|lia]]. split; try done.
    + intros c' [= <-]. rewrite !(proj2 (Z.ltb_ge _ _)), (proj2 (Z.ltb_lt _ _)) in Hc' by (unfold since; lia). done.
    + cbn. split; [lia|]. split.
      * intros c' [= <-]. rewrite charges_none; [done|]. intros x Hx E. destruct (Hall x Hx); lia.
      * intros x Hx. right. destruct (Hall x Hx); lia.
  - apply Hreset. intros x Hx. destruct (Hall x Hx); lia.
Qed.

(** An admission extends the history; a refusal only ages the counter. *)
Lemma hist_allow now h oc :
  hist_ok now h oc →
  let '(ok, c) := allow now window limit (default WindowCounter_default oc) in
  ∃ s, hist_ok now (if ok then (now, s) :: h else h) (Some c).
Proof.
  intros Hh. unfold allow, allow_n, would_allow_n. destruct (hist_aged now h oc Hh) as (Hh1 & s & Hs & Hr). cbv zeta in *.
  set (c := age now window _) in *. destruct (fits now window limit 1 c) eqn:Hfit; [|by exists s].
  exists s. destruct Hh1 as [H1 H2 H3 H4 H5]. specialize (H4 c eq_refl). cbn [mbind option_bind] in H5. rewrite Hs in H5.
  destruct H5 as (Hle & Hcount & Hall). specialize (Hcount c eq_refl).
  assert (count c + 1 ≤ limit)%Z as Hroom.
  { eapply fits_sound; [exact Hwin|exact H4| |done|exact Hfit]. unfold is_count, U32_MAX. lia. }
  split.
  - intros t s' [[= -> ->]|Ht]%elem_of_cons; [lia|by apply H1].
  - intros s'. rewrite charges_cons. specialize (H2 s'). destruct (Z.eqb_spec s s') as [<-|]; lia.
  - intros x y [->|Hx]%elem_of_cons [->|Hy]%elem_of_cons; cbn [snd]; [by left| | |by apply H3].
    + destruct (Hall y Hy); [left; congruence|right; by right].
    + destruct (Hall x Hx); [by left|right; by left].
  - intros c' [= <-]. apply commit_ok; [done|lia].
  - cbn [mbind option_bind commit_n window_start]. rewrite Hs. split; [done|]. split.
    + intros c' [= <-]. rewrite charges_cons, Z.eqb_refl. cbn. unfold u32_sat_add. destruct Hlim. lia.
    + intros x [->|Hx]%elem_of_cons; [by left|by apply Hall].
Qed.

(** ** The bound *)
Lemma keys_bound {A} (f : A → Z) (b : nat) (keys : list Z) (l : list A) :
  (∀ x, x ∈ l → f x ∈ keys) → (∀ k, count_if (λ x, Z.eqb (f x) k) l ≤ b) → length l ≤ b * length keys.
Proof.
  revert l. induction keys as [|k keys IH]; intros l Hin Hb.
  { destruct l as [|x l]; [cbn; lia|]. exfalso. eapply not_elem_of_nil, Hin. left. }
  assert (length l = count_if (λ x, Z.eqb (f x) k) l + length (retain (λ x, negb (Z.eqb (f x) k)) l)) as ->.
  { clear. unfold count_if. induction l as [|x l IH]; [done|]. rewrite !retain_cons. destruct (Z.eqb (f x) k); cbn [negb length]; lia. }
  specialize (IH (retain (λ x, negb (Z.eqb (f x) k)) l)). pose proof (Hb k). cbn [length].
  assert (length (retain (λ x, negb (Z.eqb (f x) k)) l) ≤ b * length keys); [|lia]. apply IH.
  - intros x [Hx Hl]%elem_of_retain. apply negb_true_iff, Z.eqb_neq in Hx. specialize (Hin x Hl). by apply elem_of_cons in Hin as [?|?].
  - intros k'. etransitivity; [|apply (Hb k')]. apply count_if_submseteq, sublist_submseteq, retain_sublist.
Qed.

Lemma spaced_count (starts : list Z) (base len half : Z) :
  (0 < half)%Z → (0 ≤ len)%Z → NoDup starts → (∀ s, s ∈ starts → (base ≤ s ≤ base + len)%Z) →
  (∀ s s', s ∈ starts → s' ∈ starts → s = s' ∨ (s + half ≤ s')%Z ∨ (s' + half ≤ s)%Z) →
  (Z.of_nat (length starts) ≤ len / half + 1)%Z.
Proof.
  intros Hh Hlen Hnd Hrange Hsp. set (f := λ s, Z.to_nat ((s - base) / half)).
  assert (NoDup (f <$> starts)) as Hnd'.
  { apply NoDup_fmap_2_strong; [|done]. intros s s' Hs Hs' E. unfold f in E.
    pose proof (Hrange s Hs). pose proof (Hrange s' Hs').
    assert ((s - base) / half = (s' - base) / half)%Z as E'.
    { apply Z2Nat.inj in E; [done|apply Z.div_pos; lia|apply Z.div_pos; lia]. }
    pose proof (Z.div_mod (s - base) half ltac:(lia)). pose proof (Z.div_mod (s' - base) half ltac:(lia)).
    pose proof (Z.mod_pos_bound (s - base) half Hh). pose proof (Z.mod_pos_bound (s' - base) half Hh).
    rewrite E' in *. destruct (Hsp s s' Hs Hs') as [?|[?|?]]; [done|lia|lia]. }
  assert ((f <$> starts) ⊆+ seq 0 (S (Z.to_nat (len / half)))) as Hsub.
  { apply NoDup_submseteq; [done|]. intros n (s & -> & Hs)%list_elem_of_fmap. apply elem_of_seq. unfold f.
    pose proof (Hrange s Hs). assert ((s - base) / half ≤ len / half)%Z by (apply Z.div_le_mono; lia).
    assert (0 ≤ (s - base) / half)%Z by (apply Z.div_pos; lia). lia. }
  apply submseteq_length in Hsub. rewrite length_fmap, length_seq in Hsub.
  assert (0 ≤ len / half)%Z by (apply Z.div_pos; lia). lia.
Qed.

(** In [len] nanoseconds a counter admits at most its limit times the
    half-windows that can touch the interval. *)
Lemma hist_bound now h oc a len :
  hist_ok now h oc → (0 ≤ len)%Z →
  (Z.of_nat (count_if (λ t, Z.leb a t && Z.leb t (a + len)) (h.*1)) ≤ limit * (len / (window / 2) + 2))%Z.
Proof.
  intros [H1 H2 H3 H4 H5] Hlen. pose proof half_pos as Hh. set (half := (window / 2)%Z) in *.
  rewrite count_if_fmap. set (g := retain ((λ t, Z.leb a t && Z.leb t (a + len)) ∘ fst) h).
  change (count_if _ h) with (length g). set (starts := remove_dups (g.*2)).
  assert (∀ x, x ∈ g → x ∈ h ∧ (a ≤ x.1 ≤ a + len)%Z) as Hg.
  { intros x [Hx Hin]%elem_of_retain. cbn in Hx. apply andb_true_iff in Hx as [?%Z.leb_le ?%Z.leb_le]. by split. }
  assert (∀ s, s ∈ starts → ∃ x, x ∈ g ∧ x.2 = s) as Hst.
  { intros s (x & -> & Hx)%elem_of_remove_dups%list_elem_of_fmap. by exists x. }
  assert (length g ≤ Z.to_nat limit * length starts) as Hlg.
  { apply (keys_bound snd); [intros x Hx; apply elem_of_remove_dups; by apply list_elem_of_fmap_2|].
    intros k. specialize (H2 k). unfold charges in H2.
    assert (count_if (λ x, Z.eqb x.2 k) g ≤ count_if (λ x, Z.eqb x.2 k) h); [|destruct Hlim; lia].
    apply count_if_submseteq, sublist_submseteq, retain_sublist. }
  assert (Z.of_nat (length starts) ≤ (len + (half - 1)) / half + 1)%Z as Hn.
  { apply (spaced_count starts (a - half + 1) (len + (half - 1)) half); [lia|lia|apply NoDup_remove_dups| |].
    - intros s ([t s'] & [Hx Ht]%Hg & <-)%Hst. destruct (H1 t s' Hx). cbn in *. lia.
    - intros s s' (x & [Hx _]%Hg & <-)%Hst (y & [Hy _]%Hg & <-)%Hst. by apply H3. }
  assert ((len + (half - 1)) / half ≤ len / half + 1)%Z.
  { replace (len / half + 1)%Z with ((len + 1 * half) / half)%Z by (rewrite Z.div_add by lia; lia). apply Z.div_le_mono; lia. }
  destruct Hlim. nia.
Qed.
End history.
End rate.
