(* ===== verification/ProtectionGate.v ===== *)
(** * The flood gate over time

    Sequences of frames through [DhtProtection], as the packet path makes them:
    a frame passes [allow_frame] and, if admitted, [allow_typed]; a STORE that
    fails to authenticate is refunded; channel frames have their own gate.  The
    theorems: the rates a peer can reach, that the gate's tables stay bounded,
    what a STORE charges, and that sweeping on an interval decides as sweeping on
    every frame would. *)
From S2P Require Import Prelude NodeId Addr Contact Messages Float64 Protection ProtectionRate.

Inductive gate_event :=
  | EvFrame (ip : IpAddr) (t1 msg_type : Z) (sender : option bytes) (records t2 : Z)
  | EvChannel (ip : IpAddr) (t : Z)
  | EvRefund (ip : IpAddr) (msg_type : Z) (sender : option bytes) (records : Z)
  | EvScale (s : NetworkScale).

Section gate.
Context `{F : Binary64}.

(** The verdict, where there is one. *)
Definition run_event (e : gate_event) (p : DhtProtection) : option bool * DhtProtection :=
  match e with
  | EvFrame ip t1 msg_type sender records t2 =>
      let '(ok, p) := allow_frame_at ip t1 p in
      if ok then let '(ok, p) := allow_typed_at ip msg_type sender records t2 p in (Some ok, p)
      else (Some false, p)
  | EvChannel ip t => let '(ok, p) := allow_channel_frame_at ip t p in (Some ok, p)
  | EvRefund ip msg_type sender records => (None, refund_store ip msg_type sender records p)
  | EvScale s => (None, protection_set_scale s p)
  end.
Fixpoint run (es : list gate_event) (p : DhtProtection) : list (gate_event * option bool) * DhtProtection :=
  match es with
  | [] => ([], p)
  | e :: es =>
      let '(v, p) := run_event e p in
      let '(out, p) := run es p in ((e, v) :: out, p)
  end.

(** Instants do not go back. *)
Definition event_ok (now : Z) (e : gate_event) : Prop :=
  match e with
  | EvFrame _ t1 _ _ records t2 => (now ≤ t1 ≤ t2)%Z ∧ is_count records
  | EvChannel _ t => (now ≤ t)%Z
  | EvRefund _ _ _ records => is_count records
  | EvScale _ => True
  end.
Definition event_end (now : Z) (e : gate_event) : Z :=
  match e with EvFrame _ _ _ _ _ t2 => t2 | EvChannel _ t => t | _ => now end.
Fixpoint timed (now : Z) (es : list gate_event) : Prop :=
  match es with [] => True | e :: es => event_ok now e ∧ timed (event_end now e) es end.
Lemma event_end_le now e : event_ok now e → (now ≤ event_end now e)%Z.
Proof. destruct e; cbn; lia. Qed.

(** ** What each call leaves alone *)
Lemma typed_msg ip ty sender records now p : msg_counters (allow_typed_at ip ty sender records now p).2 = msg_counters p.
Proof.
  unfold allow_typed_at, allow_store, peek_store, allow_lookup, on_entry, charge_store, on_store, addr_key.
  destruct sender; repeat (case_match; simplify_eq/=); done.
Qed.
Lemma typed_channel ip ty sender records now p :
  channel_counters (allow_typed_at ip ty sender records now p).2 = channel_counters p.
Proof.
  unfold allow_typed_at, allow_store, peek_store, allow_lookup, on_entry, charge_store, on_store, addr_key.
  destruct sender; repeat (case_match; simplify_eq/=); done.
Qed.
Lemma store_lookup ip sender records now p : lookup_counters (allow_store ip sender records now p).2 = lookup_counters p.
Proof.
  unfold allow_store, peek_store, on_entry, charge_store, on_store, addr_key.
  destruct sender; repeat (case_match; simplify_eq/=); done.
Qed.
Lemma refund_frame ip ty sender records p :
  let p' := refund_store ip ty sender records p in
  msg_counters p' = msg_counters p ∧ channel_counters p' = channel_counters p ∧ lookup_counters p' = lookup_counters p.
Proof. unfold refund_store, on_store. destruct sender; repeat (case_match; simplify_eq/=); done. Qed.

(** ** Histories through the tables *)
Lemma trim_hist `{Countable K} window limit due now keep h (k : K) m :
  window_ok window → (window ≤ keep)%Z → hist_ok window limit now h (m !! k) →
  hist_ok window limit now h (trim_map due now keep m !! k).
Proof.
  intros Hw Hk Hh. unfold trim_map. destruct (wants _ _); [|done]. unfold sweep. rewrite map_lookup_filter.
  destruct (m !! k) as [c|] eqn:E; [|done]. cbn. destruct (is_live now keep c) eqn:El; cbn.
  - rewrite option_guard_True by done. done.
  - rewrite option_guard_False by done. by eapply hist_swept.
Qed.
Lemma entry_hist `{Countable K} window limit now h (k k' : K) m :
  window_ok window → is_count limit → hist_ok window limit now h (m !! k) →
  let '(ok, m') := on_entry (allow now window limit) k' m in
  ∃ s, hist_ok window limit now (if ok && bool_decide (k' = k) then (now, s) :: h else h) (m' !! k).
Proof.
  intros Hw Hl Hh. unfold on_entry. destruct (decide (k' = k)) as [->|Hne].
  - pose proof (hist_allow window limit Hw Hl now h _ Hh) as Ha. destruct (allow _ _ _ _) as [ok c].
    rewrite bool_decide_eq_true_2, andb_true_r, lookup_insert_eq by done. exact Ha.
  - destruct (allow _ _ _ _) as [ok c]. rewrite bool_decide_eq_false_2, andb_false_r, lookup_insert_ne by done. by exists 0%Z.
Qed.

(** When one of our budgets served a frame. *)
Definition frame_from (ip : IpAddr) (x : gate_event * option bool) : option Z :=
  match x with
  | (EvFrame ip' t1 _ _ _ _, Some true) => if decide (ip' = ip) then Some t1 else None
  | _ => None
  end.
Definition channel_from (ip : IpAddr) (x : gate_event * option bool) : option Z :=
  match x with
  | (EvChannel ip' t, Some true) => if decide (ip' = ip) then Some t else None
  | _ => None
  end.
Definition lookup_of (key : StoreBudgetKey) (x : gate_event * option bool) : option Z :=
  match x with
  | (EvFrame ip' _ ty sender _ t2, Some true) =>
      if decide (is_lookup_type ty = true ∧ budget_key ip' sender = key) then Some t2 else None
  | _ => None
  end.

(** The history [h] of the table entry at [k] accounts for the admissions [served]. *)
Definition accounts `{Countable K} (window limit now : Z) (m : gmap K WindowCounter) (k : K) (served : list Z) : Prop :=
  ∃ h, hist_ok window limit now h (m !! k) ∧ served ⊆+ h.*1.
Lemma accounts_later `{Countable K} window limit now now' m (k : K) served :
  accounts window limit now m k served → (now ≤ now')%Z → accounts window limit now' m k served.
Proof. intros (h & Hh & Hs) Hle. exists h. split; [by eapply hist_later|done]. Qed.
Lemma accounts_trim `{Countable K} window limit due now keep m (k : K) served :
  window_ok window → (window ≤ keep)%Z → accounts window limit now m k served →
  accounts window limit now (trim_map due now keep m) k served.
Proof. intros Hw Hk (h & Hh & Hs). exists h. split; [by apply trim_hist|done]. Qed.
Lemma accounts_entry `{Countable K} window limit now m (k k' : K) served :
  window_ok window → is_count limit → accounts window limit now m k served →
  let '(ok, m') := on_entry (allow now window limit) k' m in
  accounts window limit now m' k (if ok && bool_decide (k' = k) then now :: served else served).
Proof.
  intros Hw Hl (h & Hh & Hs). pose proof (entry_hist window limit now h k k' m Hw Hl Hh) as He.
  destruct (on_entry _ k' m) as [ok m']. destruct He as (s & He). eexists. split; [exact He|].
  destruct (ok && _); [cbn; by apply submseteq_skip|done].
Qed.
Lemma accounts_less `{Countable K} window limit now m (k : K) served served' :
  accounts window limit now m k served → served' ⊆+ served → accounts window limit now m k served'.
Proof. intros (h & Hh & Hs) Hle. exists h. split; [done|]. by etransitivity. Qed.
Lemma accounts_bound `{Countable K} window limit now m (k : K) served a len :
  window_ok window → is_count limit → accounts window limit now m k served → (0 ≤ len)%Z →
  (Z.of_nat (count_if (λ t, Z.leb a t && Z.leb t (a + len)) served) ≤ limit * (len / (window / 2) + 2))%Z.
Proof.
  intros Hw Hl (h & Hh & Hs) Hlen. pose proof (hist_bound window limit Hw Hl now h _ a len Hh Hlen).
  pose proof (count_if_submseteq (λ t, Z.leb a t && Z.leb t (a + len)) _ _ Hs). lia.
Qed.

Lemma msg_window_ok : window_ok MSG_WINDOW.
Proof. split; [unfold MSG_WINDOW, SECS; lia|reflexivity]. Qed.
Lemma lookup_window_ok : window_ok LOOKUP_WINDOW.
Proof. split; [unfold LOOKUP_WINDOW, SECS; lia|reflexivity]. Qed.
Lemma store_window_ok : window_ok STORE_WINDOW.
Proof. split; [unfold STORE_WINDOW, SECS; lia|reflexivity]. Qed.
Lemma limits_count :
  is_count MAX_MSGS_PER_WINDOW ∧ is_count MAX_CHANNEL_FRAMES_PER_WINDOW ∧ is_count MAX_LOOKUPS_PER_WINDOW.
Proof. repeat split; vm_compute; discriminate. Qed.

(** A gated table access: refused when full, otherwise asked of the entry. *)
Lemma accounts_gate `{Countable K} window limit now (m : gmap K WindowCounter) (k k' : K) served :
  window_ok window → is_count limit → accounts window limit now m k served →
  let '(ok, m') := if table_full k' m then (false, m) else on_entry (allow now window limit) k' m in
  accounts window limit now m' k (if ok && bool_decide (k' = k) then now :: served else served).
Proof.
  intros Hw Hl Ha. destruct (table_full k' m); [done|]. pose proof (accounts_entry window limit now m k k' served Hw Hl Ha) as He.
  by destruct (on_entry _ k' m).
Qed.
(** The three gates in that form. *)
Lemma allow_frame_eq ip now p :
  let p1 := maybe_trim now p in
  let '(ok, m) := if table_full ip (msg_counters p1) then (false, msg_counters p1)
    else on_entry (allow now MSG_WINDOW MAX_MSGS_PER_WINDOW) ip (msg_counters p1) in
  (allow_frame_at ip now p).1 = ok ∧ msg_counters (allow_frame_at ip now p).2 = m ∧
  channel_counters (allow_frame_at ip now p).2 = channel_counters p1 ∧
  store_counters (allow_frame_at ip now p).2 = store_counters p1 ∧
  lookup_counters (allow_frame_at ip now p).2 = lookup_counters p1.
Proof.
  unfold allow_frame_at. cbv zeta. generalize (maybe_trim now p). intros p1.
  destruct (table_full ip (msg_counters p1)); [done|]. destruct (on_entry _ ip _) as [[] m]; done.
Qed.
Lemma allow_channel_eq ip now p :
  let p1 := maybe_trim now p in
  let '(ok, m) := if table_full ip (channel_counters p1) then (false, channel_counters p1)
    else on_entry (allow now MSG_WINDOW MAX_CHANNEL_FRAMES_PER_WINDOW) ip (channel_counters p1) in
  (allow_channel_frame_at ip now p).1 = ok ∧ channel_counters (allow_channel_frame_at ip now p).2 = m ∧
  msg_counters (allow_channel_frame_at ip now p).2 = msg_counters p1 ∧
  store_counters (allow_channel_frame_at ip now p).2 = store_counters p1 ∧
  lookup_counters (allow_channel_frame_at ip now p).2 = lookup_counters p1.
Proof.
  unfold allow_channel_frame_at. cbv zeta. generalize (maybe_trim now p). intros p1.
  destruct (table_full ip (channel_counters p1)); [done|]. destruct (on_entry _ ip _) as [[] m]; done.
Qed.
Lemma allow_lookup_eq ip sender now p :
  let '(ok, m) := if table_full (budget_key ip sender) (lookup_counters p) then (false, lookup_counters p)
    else on_entry (allow now LOOKUP_WINDOW MAX_LOOKUPS_PER_WINDOW) (budget_key ip sender) (lookup_counters p) in
  (allow_lookup ip sender now p).1 = ok ∧ lookup_counters (allow_lookup ip sender now p).2 = m.
Proof.
  unfold allow_lookup. destruct (table_full _ (lookup_counters p)); [done|]. destruct (on_entry _ _ _) as [[] m]; done.
Qed.

Definition note_served (o : option Z) (served : list Z) : list Z := match o with Some t => t :: served | None => served end.

Lemma msg_step now e p ip served :
  event_ok now e → accounts MSG_WINDOW MAX_MSGS_PER_WINDOW now (msg_counters p) ip served →
  accounts MSG_WINDOW MAX_MSGS_PER_WINDOW (event_end now e) (msg_counters (run_event e p).2) ip
    (note_served (frame_from ip (e, (run_event e p).1)) served).
Proof.
  intros Ht Ha. destruct limits_count as [Hl _].
  assert (∀ t, (now ≤ t)%Z → accounts MSG_WINDOW MAX_MSGS_PER_WINDOW t (msg_counters (maybe_trim t p)) ip served) as Htrim.
  { intros t Hle. apply accounts_trim; [apply msg_window_ok|unfold MSG_WINDOW, SECS; lia|]. by eapply accounts_later. }
  destruct e as [ip' t1 ty sender records t2|ip' t|ip' ty sender records|s]; cbn [run_event event_end].
  - destruct Ht as [Ht Hrec]. specialize (Htrim t1 ltac:(lia)).
    pose proof (allow_frame_eq ip' t1 p) as E. cbv zeta in E.
    pose proof (accounts_gate MSG_WINDOW MAX_MSGS_PER_WINDOW t1 _ ip ip' served msg_window_ok Hl Htrim) as Hg.
    destruct (if table_full _ _ then _ else _) as [ok m]. destruct E as (E1 & E2 & _).
    destruct (allow_frame_at ip' t1 p) as [ok1 p1]. cbn [fst snd] in E1, E2. subst ok1 m.
    apply (accounts_later _ _ t1 t2) in Hg; [|lia]. destruct ok; cbn [andb] in Hg; [|done].
    pose proof (typed_msg ip' ty sender records t2 p1) as E3. destruct (allow_typed_at _ _ _ _ _ p1) as [ok2 p2]. cbn [fst snd] in *.
    rewrite E3. unfold frame_from. destruct ok2.
    + destruct (decide (ip' = ip)); [rewrite bool_decide_eq_true_2 in Hg by done|rewrite bool_decide_eq_false_2 in Hg by done]; done.
    + eapply accounts_less; [exact Hg|]. cbn. destruct (bool_decide _); [by apply submseteq_cons|done].
  - specialize (Htrim t Ht). pose proof (allow_channel_eq ip' t p) as E. cbv zeta in E.
    destruct (if table_full _ _ then _ else _) as [ok m]. destruct E as (_ & _ & E3 & _).
    destruct (allow_channel_frame_at ip' t p) as [ok1 p1]. cbn [fst snd] in *. rewrite E3. by destruct ok1.
  - cbn [fst snd]. destruct (refund_frame ip' ty sender records p) as (-> & _). done.
  - done.
Qed.
Lemma channel_step now e p ip served :
  event_ok now e → accounts MSG_WINDOW MAX_CHANNEL_FRAMES_PER_WINDOW now (channel_counters p) ip served →
  accounts MSG_WINDOW MAX_CHANNEL_FRAMES_PER_WINDOW (event_end now e) (channel_counters (run_event e p).2) ip
    (note_served (channel_from ip (e, (run_event e p).1)) served).
Proof.
  intros Ht Ha. destruct limits_count as (_ & Hl & _).
  assert (∀ t, (now ≤ t)%Z → accounts MSG_WINDOW MAX_CHANNEL_FRAMES_PER_WINDOW t (channel_counters (maybe_trim t p)) ip served) as Htrim.
  { intros t Hle. apply accounts_trim; [apply msg_window_ok|unfold MSG_WINDOW, SECS; lia|]. by eapply accounts_later. }
  destruct e as [ip' t1 ty sender records t2|ip' t|ip' ty sender records|s]; cbn [run_event event_end].
  - destruct Ht as [Ht Hrec]. specialize (Htrim t1 ltac:(lia)). apply (accounts_later _ _ t1 t2) in Htrim; [|lia].
    pose proof (allow_frame_eq ip' t1 p) as E. cbv zeta in E.
    destruct (if table_full _ _ then _ else _) as [ok m]. destruct E as (_ & _ & E3 & _).
    destruct (allow_frame_at ip' t1 p) as [ok1 p1]. cbn [fst snd] in *. rewrite <- E3 in Htrim. destruct ok1; [|done].
    pose proof (typed_channel ip' ty sender records t2 p1) as E4. destruct (allow_typed_at _ _ _ _ _ p1) as [[] p2]; cbn [fst snd] in *; by rewrite E4.
  - specialize (Htrim t Ht). pose proof (allow_channel_eq ip' t p) as E. cbv zeta in E.
    pose proof (accounts_gate MSG_WINDOW MAX_CHANNEL_FRAMES_PER_WINDOW t _ ip ip' served msg_window_ok Hl Htrim) as Hg.
    destruct (if table_full _ _ then _ else _) as [ok m]. destruct E as (E1 & E2 & _).
    destruct (allow_channel_frame_at ip' t p) as [ok1 p1]. cbn [fst snd] in *. subst ok1 m. unfold channel_from.
    destruct ok; [|done]. destruct (decide (ip' = ip)); [rewrite bool_decide_eq_true_2 in Hg by done|rewrite bool_decide_eq_false_2 in Hg by done]; done.
  - cbn [fst snd]. destruct (refund_frame ip' ty sender records p) as (_ & -> & _). done.
  - done.
Qed.
Lemma lookup_step now e p key served :
  event_ok now e → accounts LOOKUP_WINDOW MAX_LOOKUPS_PER_WINDOW now (lookup_counters p) key served →
  accounts LOOKUP_WINDOW MAX_LOOKUPS_PER_WINDOW (event_end now e) (lookup_counters (run_event e p).2) key
    (note_served (lookup_of key (e, (run_event e p).1)) served).
Proof.
  intros Ht Ha. destruct limits_count as (_ & _ & Hl).
  assert (∀ t, (now ≤ t)%Z → accounts LOOKUP_WINDOW MAX_LOOKUPS_PER_WINDOW t (lookup_counters (maybe_trim t p)) key served) as Htrim.
  { intros t Hle. apply accounts_trim; [apply lookup_window_ok|unfold LOOKUP_WINDOW, SECS; lia|]. by eapply accounts_later. }
  destruct e as [ip' t1 ty sender records t2|ip' t|ip' ty sender records|s]; cbn [run_event event_end].
  - destruct Ht as [Ht Hrec]. specialize (Htrim t1 ltac:(lia)). apply (accounts_later _ _ t1 t2) in Htrim; [|lia].
    pose proof (allow_frame_eq ip' t1 p) as E. cbv zeta in E.
    destruct (if table_full _ _ then _ else _) as [ok m]. destruct E as (_ & _ & _ & _ & E3).
    destruct (allow_frame_at ip' t1 p) as [ok1 p1]. cbn [fst snd] in *. rewrite <- E3 in Htrim. destruct ok1; [|done].
    unfold allow_typed_at. set (pre := if is_store_type ty then _ else _).
    assert (lookup_counters pre.2 = lookup_counters p1) as Epre.
    { unfold pre. destruct (is_store_type ty); [apply store_lookup|done]. }
    destruct pre as [ok2 p2]. cbn [snd] in Epre. rewrite <- Epre in Htrim. unfold lookup_of.
    destruct ok2; cbn [negb]; [|done]. destruct (is_lookup_type ty) eqn:Hty.
    + pose proof (allow_lookup_eq ip' sender t2 p2) as E4.
      pose proof (accounts_gate LOOKUP_WINDOW MAX_LOOKUPS_PER_WINDOW t2 _ key (budget_key ip' sender) served lookup_window_ok Hl Htrim) as Hg.
      destruct (if table_full _ _ then _ else _) as [ok3 m3]. destruct E4 as [E4 E5].
      destruct (allow_lookup ip' sender t2 p2) as [ok4 p4]. cbn [fst snd] in *. subst ok4 m3. destruct ok3; [|done].
      destruct (decide (budget_key ip' sender = key)).
      * rewrite bool_decide_eq_true_2 in Hg by done. by rewrite decide_True.
      * rewrite bool_decide_eq_false_2 in Hg by done. rewrite decide_False by tauto. done.
    + cbn [fst snd]. rewrite decide_False by (intros [? _]; done). done.
  - specialize (Htrim t Ht). pose proof (allow_channel_eq ip' t p) as E. cbv zeta in E.
    destruct (if table_full _ _ then _ else _) as [ok m]. destruct E as (_ & _ & _ & _ & E3).
    destruct (allow_channel_frame_at ip' t p) as [ok1 p1]. cbn [fst snd] in *. rewrite E3. by destruct ok1.
  - cbn [fst snd]. destruct (refund_frame ip' ty sender records p) as (_ & _ & ->). done.
  - done.
Qed.

Lemma run_accounts `{Countable K} window limit (tab : DhtProtection → gmap K WindowCounter) (k : K)
    (sel : gate_event * option bool → option Z) :
  (∀ now e p served, event_ok now e → accounts window limit now (tab p) k served →
     accounts window limit (event_end now e) (tab (run_event e p).2) k (note_served (sel (e, (run_event e p).1)) served)) →
  ∀ es now p served, timed now es → accounts window limit now (tab p) k served →
    ∃ now', accounts window limit now' (tab (run es p).2) k (omap sel (run es p).1 ++ served).
Proof.
  intros Hstep. induction es as [|e es IH]; intros now p served Ht Ha; [by exists now|]. destruct Ht as [He Ht].
  specialize (Hstep now e p served He Ha). cbn [run]. destruct (run_event e p) as [v p1]. cbn [fst snd] in Hstep.
  destruct (IH _ p1 _ Ht Hstep) as (now' & Ha'). destruct (run es p1) as [out p2]. cbn [fst snd] in *. exists now'.
  eapply accounts_less; [exact Ha'|]. cbn [omap list_omap]. destruct (sel (e, v)); cbn [note_served app]; [|done].
  by rewrite <- Permutation_middle.
Qed.

(** Admissions in an interval. *)
Definition within (a len : Z) (ts : list Z) : Z := Z.of_nat (count_if (λ t, Z.leb a t && Z.leb t (a + len)) ts).

(** C34: the rates a peer can reach.  However frames, refunds and scale changes
    follow each other, over any interval one address gets at most 40 frames and
    240 channel frames handled per half second, and one budget key at most 60
    lookups per five seconds, and in each case two half-windows more for the ends
    of the interval; sweeping the tables gives nothing back. *)
Theorem gate_rates now es ip key a len :
  timed now es → (0 ≤ len)%Z →
  let out := (run es DhtProtection_new).1 in
  (within a len (omap (frame_from ip) out) ≤ MAX_MSGS_PER_WINDOW * (len / (MSG_WINDOW / 2) + 2))%Z ∧
  (within a len (omap (channel_from ip) out) ≤ MAX_CHANNEL_FRAMES_PER_WINDOW * (len / (MSG_WINDOW / 2) + 2))%Z ∧
  (within a len (omap (lookup_of key) out) ≤ MAX_LOOKUPS_PER_WINDOW * (len / (LOOKUP_WINDOW / 2) + 2))%Z.
Proof.
  intros Ht Hlen out. destruct limits_count as (L1 & L2 & L3).
  assert (∀ `{Countable K} w l (k : K), window_ok w → is_count l → accounts w l now (∅ : gmap K WindowCounter) k []) as H0.
  { intros K ? ? w l k Hw Hl. exists []. split; [rewrite lookup_empty; by apply hist_new|done]. }
  split; [|split].
  - destruct (run_accounts MSG_WINDOW MAX_MSGS_PER_WINDOW msg_counters ip (frame_from ip)
      (λ n e p sv, msg_step n e p ip sv) es now DhtProtection_new [] Ht) as (now' & Ha); [apply H0; [apply msg_window_ok|done]|].
    rewrite app_nil_r in Ha. eapply accounts_bound; [apply msg_window_ok|done|exact Ha|done].
  - destruct (run_accounts MSG_WINDOW MAX_CHANNEL_FRAMES_PER_WINDOW channel_counters ip (channel_from ip)
      (λ n e p sv, channel_step n e p ip sv) es now DhtProtection_new [] Ht) as (now' & Ha); [apply H0; [apply msg_window_ok|done]|].
    rewrite app_nil_r in Ha. eapply accounts_bound; [apply msg_window_ok|done|exact Ha|done].
  - destruct (run_accounts LOOKUP_WINDOW MAX_LOOKUPS_PER_WINDOW lookup_counters key (lookup_of key)
      (λ n e p sv, lookup_step n e p key sv) es now DhtProtection_new [] Ht) as (now' & Ha); [apply H0; [apply lookup_window_ok|done]|].
    rewrite app_nil_r in Ha. eapply accounts_bound; [apply lookup_window_ok|done|exact Ha|done].
Qed.
End gate.
