(* ===== verification/ProtectionSweep.v ===== *)
(** * The gate's tables

    That the tables stay within their bound, that a sweep never changes a verdict,
    however rarely it runs, and what a STORE charges and gets back. *)
From S2P Require Import Prelude NodeId Addr Contact Messages Float64 Protection ProtectionRate ProtectionGate.

Section sweep.
Context `{F : Binary64}.

(** ** Tables that agree on what is live *)
Definition gone (keep now : Z) (oc : option WindowCounter) : Prop := ∀ c, oc = Some c → is_live now keep c = false.
Definition agree `{Countable K} (keep now : Z) (m m' : gmap K WindowCounter) : Prop :=
  ∀ k, m !! k = m' !! k ∨ (gone keep now (m !! k) ∧ gone keep now (m' !! k)).

Lemma not_live keep now c : is_live now keep c = false ↔ idle keep now c.
Proof. unfold is_live, idle. destruct (window_start c); [by rewrite Z.ltb_ge|done]. Qed.
Lemma gone_later keep now now' oc : gone keep now oc → (now ≤ now')%Z → gone keep now' oc.
Proof. intros H Hle c Hc. apply not_live. eapply idle_later; [by apply not_live, H|done]. Qed.
Lemma gone_None keep now : gone keep now None.
Proof. by intros c. Qed.
Lemma agree_refl `{Countable K} keep now (m : gmap K WindowCounter) : agree keep now m m.
Proof. intros k. by left. Qed.
Lemma agree_later `{Countable K} keep now now' (m m' : gmap K WindowCounter) :
  agree keep now m m' → (now ≤ now')%Z → agree keep now' m m'.
Proof. intros Ha Hle k. destruct (Ha k) as [?|[H1 H2]]; [by left|right; split; by eapply gone_later]. Qed.

Lemma lookup_sweep `{Countable K} now keep (m : gmap K WindowCounter) k :
  (is_live now keep <$> m !! k = Some true ∧ sweep now keep m !! k = m !! k) ∨
  (gone keep now (m !! k) ∧ sweep now keep m !! k = None).
Proof.
  unfold sweep. rewrite map_lookup_filter. destruct (m !! k) as [c|]; cbn; [|right; split; [apply gone_None|done]].
  destruct (is_live now keep c) eqn:E.
  - left. by rewrite option_guard_True.
  - right. rewrite option_guard_False by done. split; [by intros c' [= <-]|done].
Qed.
Lemma sweep_agree `{Countable K} now keep (m m' : gmap K WindowCounter) :
  agree keep now m m' → agree keep now (sweep now keep m) m'.
Proof.
  intros Ha k. destruct (lookup_sweep now keep m k) as [[_ ->]|[Hg ->]]; [apply Ha|].
  destruct (Ha k) as [<-|[_ ?]]; right; (split; [apply gone_None|done]).
Qed.
Lemma agree_sym `{Countable K} keep now (m m' : gmap K WindowCounter) : agree keep now m m' → agree keep now m' m.
Proof. intros Ha k. destruct (Ha k) as [?|[? ?]]; [by left|by right]. Qed.
Lemma trim_agree `{Countable K} due due' now keep (m m' : gmap K WindowCounter) :
  agree keep now m m' → agree keep now (trim_map due now keep m) (trim_map due' now keep m').
Proof.
  intros Ha. unfold trim_map. destruct (wants due _), (wants due' _); [| | |done].
  - apply sweep_agree, agree_sym, sweep_agree, agree_sym, Ha.
  - by apply sweep_agree.
  - by apply agree_sym, sweep_agree, agree_sym.
Qed.

(** ** Room *)
Abbreviation len m := (Z.of_nat (size m)).
Definition all_live `{Countable K} (keep now : Z) (m : gmap K WindowCounter) : Prop :=
  ∀ k c, m !! k = Some c → is_live now keep c = true.
(** Room for [n] more keys in both, or the very same table. *)
Definition tight `{Countable K} (n : Z) (m m' : gmap K WindowCounter) : Prop :=
  (len m + n < MAX_IP_ENTRIES ∧ len m' + n < MAX_IP_ENTRIES)%Z ∨ m = m'.

Lemma trimmed `{Countable K} due now keep (m : gmap K WindowCounter) :
  (len (trim_map due now keep m) < TRIM_EVERY_FRAME_AT)%Z ∨ all_live keep now (trim_map due now keep m).
Proof.
  unfold trim_map. destruct (wants due (len m)) eqn:E.
  - right. intros k c. unfold sweep. by intros [_ ?]%map_lookup_filter_Some.
  - left. unfold wants in E. destruct (Z.ltb_spec (MAX_IP_ENTRIES / 2) (len m)) as [Hl|Hl]; cbn [andb] in E.
    + apply orb_false_iff in E as [_ E]. by apply Z.leb_gt in E.
    + unfold TRIM_EVERY_FRAME_AT, MAX_IP_ENTRIES in *. change (10000 / 2)%Z with 5000%Z in Hl. lia.
Qed.
Lemma live_subset `{Countable K} keep now (m m' : gmap K WindowCounter) :
  agree keep now m m' → all_live keep now m' → m' ⊆ m.
Proof.
  intros Ha Hl. apply map_subseteq_spec. intros k c Hc. destruct (Ha k) as [->|[_ Hg]]; [done|].
  specialize (Hg c Hc). rewrite (Hl k c Hc) in Hg. done.
Qed.
Lemma trim_tight `{Countable K} due due' now keep (m m' : gmap K WindowCounter) :
  agree keep now m m' → tight 2 (trim_map due now keep m) (trim_map due' now keep m').
Proof.
  intros Ha. apply (trim_agree due due') in Ha. pose proof (trimmed due now keep m) as H1. pose proof (trimmed due' now keep m') as H2.
  set (t := trim_map due now keep m) in *. set (t' := trim_map due' now keep m') in *. clearbody t t'.
  unfold tight, TRIM_EVERY_FRAME_AT in *. destruct H1 as [H1|H1], H2 as [H2|H2].
  - left. lia.
  - pose proof (live_subset _ _ _ _ Ha H2) as Hs%map_subseteq_size. left. lia.
  - pose proof (live_subset _ _ _ _ (agree_sym _ _ _ _ Ha) H1) as Hs%map_subseteq_size. left. lia.
  - right. apply (map_subseteq_po); [by eapply live_subset, H1; apply agree_sym|by eapply live_subset].
Qed.
Lemma full_agree `{Countable K} n k (m m' : gmap K WindowCounter) :
  (0 ≤ n)%Z → tight n m m' → table_full k m = table_full k m'.
Proof.
  intros Hn [[H1 H2]| ->]; [|done]. unfold table_full. by rewrite !(proj2 (Z.leb_gt _ _)) by lia.
Qed.
Lemma tight_less `{Countable K} n n' (m m' : gmap K WindowCounter) : tight n m m' → (n' ≤ n)%Z → tight n' m m'.
Proof. intros [?|?] ?; [left; lia|by right]. Qed.
Lemma insert_tight `{Countable K} n k c (m m' : gmap K WindowCounter) :
  tight n m m' → tight (n - 1) (<[k := c]> m) (<[k := c]> m').
Proof.
  intros [[H1 H2]| ->]; [left|by right]. rewrite !map_size_insert. split; case_match; unfold id; lia.
Qed.

(** A counter operation that cannot tell an idle counter from a fresh one. *)
Definition forgets (window now : Z) (f : WindowCounter → bool * WindowCounter) : Prop :=
  ∀ c, idle window now c → f c = f WindowCounter_default.
Lemma would_allow_forgets now window limit cost : (0 ≤ window)%Z → forgets window now (would_allow_n now window limit cost).
Proof. intros Hw c Hc. by apply idle_as_fresh. Qed.
Lemma allow_forgets now window limit : (0 ≤ window)%Z → forgets window now (allow now window limit).
Proof. intros Hw c Hc. unfold allow, allow_n. by rewrite (idle_as_fresh _ _ _ _ _ Hw Hc). Qed.

Lemma entry_agree `{Countable K} window keep now f k n (m m' : gmap K WindowCounter) :
  forgets window now f → (window ≤ keep)%Z → agree keep now m m' → tight n m m' →
  (on_entry f k m).1 = (on_entry f k m').1 ∧
  agree keep now (on_entry f k m).2 (on_entry f k m').2 ∧ tight (n - 1) (on_entry f k m).2 (on_entry f k m').2 ∧
  (on_entry f k m).2 !! k = (on_entry f k m').2 !! k.
Proof.
  intros Hf Hk Ha Ht.
  assert (f (default WindowCounter_default (m !! k)) = f (default WindowCounter_default (m' !! k))) as E.
  { destruct (Ha k) as [->|[H1 H2]]; [done|].
    assert (∀ oc, gone keep now oc → f (default WindowCounter_default oc) = f WindowCounter_default) as Hd.
    { intros [c|] Hc; [|done]. apply Hf. specialize (Hc c eq_refl). apply not_live in Hc.
      revert Hc. change (default _ (Some c)) with c. unfold idle. destruct (window_start c); [intros; lia|done]. }
    by rewrite !Hd. }
  unfold on_entry. rewrite E. destruct (f (default _ (m' !! k))) as [ok c]. cbn [fst snd]. split; [done|]. split.
  - intros k'. destruct (decide (k' = k)) as [->|Hne]; [left; by rewrite !lookup_insert_eq|].
    rewrite !lookup_insert_ne by done. apply Ha.
  - split; [by apply insert_tight|by rewrite !lookup_insert_eq].
Qed.

(** ** Two gates side by side *)
Record twins (now : Z) (p q : DhtProtection) : Prop := {
  w_msg : agree (MSG_WINDOW * 4) now (msg_counters p) (msg_counters q);
  w_channel : agree (MSG_WINDOW * 4) now (channel_counters p) (channel_counters q);
  w_store : agree (STORE_WINDOW * 2) now (store_counters p) (store_counters q);
  w_lookup : agree (LOOKUP_WINDOW * 2) now (lookup_counters p) (lookup_counters q);
  w_dropped : dropped_rate p = dropped_rate q;
  w_ceiling : dropped_store_addr_ceiling p = dropped_store_addr_ceiling q;
  w_max : max_stores p = max_stores q;
}.
Lemma twins_later now now' p q : twins now p q → (now ≤ now')%Z → twins now' p q.
Proof. intros [W1 W2 W3 W4 W5 W6 W7] Hle. split; try done; by eapply agree_later. Qed.
Lemma twins_drop now p q : twins now p q → twins now (drop_frame p) (drop_frame q).
Proof. intros [W1 W2 W3 W4 W5 W6 W7]. split; try done. cbn. by rewrite W5. Qed.
Lemma twins_ceiling now p q : twins now p q → twins now (note_ceiling p) (note_ceiling q).
Proof. intros [W1 W2 W3 W4 W5 W6 W7]. split; try done. cbn. by rewrite W6. Qed.
Lemma twins_trim now p q :
  twins now p q →
  let p' := maybe_trim now p in let q' := maybe_trim now q in
  twins now p' q' ∧ tight 2 (msg_counters p') (msg_counters q') ∧ tight 2 (channel_counters p') (channel_counters q') ∧
  tight 2 (store_counters p') (store_counters q') ∧ tight 2 (lookup_counters p') (lookup_counters q').
Proof.
  intros [W1 W2 W3 W4 W5 W6 W7]. split; [split; try done; by apply trim_agree|]. by repeat split; apply trim_tight.
Qed.

(** The keeping times outlast the windows. *)
Lemma keeps_outlast : (MSG_WINDOW ≤ MSG_WINDOW * 4 ∧ STORE_WINDOW ≤ STORE_WINDOW * 2 ∧ LOOKUP_WINDOW ≤ LOOKUP_WINDOW * 2 ∧
  0 ≤ MSG_WINDOW ∧ 0 ≤ STORE_WINDOW ∧ 0 ≤ LOOKUP_WINDOW)%Z.
Proof. repeat split; vm_compute; discriminate. Qed.

Lemma allow_frame_twins ip now p q :
  twins now p q →
  let '(ok, p') := allow_frame_at ip now p in let '(ok', q') := allow_frame_at ip now q in
  ok = ok' ∧ twins now p' q' ∧ tight 2 (store_counters p') (store_counters q') ∧ tight 2 (lookup_counters p') (lookup_counters q').
Proof.
  intros Hw. destruct keeps_outlast as (K1 & _ & _ & K4 & _). destruct (twins_trim now p q Hw) as (Hw1 & T1 & _ & T3 & T4).
  unfold allow_frame_at. cbv zeta in *. set (p1 := maybe_trim now p) in *. set (q1 := maybe_trim now q) in *. clearbody p1 q1.
  rewrite (full_agree 2 ip _ _ ltac:(lia) T1). destruct (table_full ip (msg_counters q1)); [split; [done|]; split; [by apply twins_drop|done]|].
  destruct (entry_agree MSG_WINDOW (MSG_WINDOW * 4) now (allow now MSG_WINDOW MAX_MSGS_PER_WINDOW) ip 2 _ _
    (allow_forgets now _ _ K4) K1 (w_msg _ _ _ Hw1) T1) as (E1 & E2 & _).
  destruct (on_entry _ ip (msg_counters p1)) as [ok m], (on_entry _ ip (msg_counters q1)) as [ok' m']. cbn [fst snd] in *. subst ok'.
  assert (twins now (set_msg p1 m) (set_msg q1 m')) as Hw2 by (destruct Hw1; by split).
  destruct ok; (split; [done|]); (split; [|done]); [done|by apply twins_drop].
Qed.
Lemma allow_channel_twins ip now p q :
  twins now p q →
  let '(ok, p') := allow_channel_frame_at ip now p in let '(ok', q') := allow_channel_frame_at ip now q in
  ok = ok' ∧ twins now p' q'.
Proof.
  intros Hw. destruct keeps_outlast as (K1 & _ & _ & K4 & _). destruct (twins_trim now p q Hw) as (Hw1 & _ & T2 & _).
  unfold allow_channel_frame_at. cbv zeta in *. set (p1 := maybe_trim now p) in *. set (q1 := maybe_trim now q) in *. clearbody p1 q1.
  rewrite (full_agree 2 ip _ _ ltac:(lia) T2). destruct (table_full ip (channel_counters q1)); [split; [done|by apply twins_drop]|].
  destruct (entry_agree MSG_WINDOW (MSG_WINDOW * 4) now (allow now MSG_WINDOW MAX_CHANNEL_FRAMES_PER_WINDOW) ip 2 _ _
    (allow_forgets now _ _ K4) K1 (w_channel _ _ _ Hw1) T2) as (E1 & E2 & _).
  destruct (on_entry _ ip (channel_counters p1)) as [ok m], (on_entry _ ip (channel_counters q1)) as [ok' m']. cbn [fst snd] in *. subst ok'.
  assert (twins now (set_channel p1 m) (set_channel q1 m')) as Hw2 by (destruct Hw1; by split).
  destruct ok; (split; [done|]); [done|by apply twins_drop].
Qed.
Lemma peek_twins key now limit cost n p q :
  twins now p q → tight n (store_counters p) (store_counters q) →
  let '(ok, p') := peek_store key now limit cost p in let '(ok', q') := peek_store key now limit cost q in
  ok = ok' ∧ twins now p' q' ∧ tight (n - 1) (store_counters p') (store_counters q').
Proof.
  intros Hw T. destruct keeps_outlast as (_ & K2 & _ & _ & K5 & _). unfold peek_store.
  destruct (entry_agree STORE_WINDOW (STORE_WINDOW * 2) now (would_allow_n now STORE_WINDOW limit cost) key n _ _
    (would_allow_forgets now _ _ _ K5) K2 (w_store _ _ _ Hw) T) as (E1 & E2 & E3 & _).
  destruct (on_entry _ key (store_counters p)) as [ok m], (on_entry _ key (store_counters q)) as [ok' m']. cbn [fst snd] in *. subst ok'.
  split; [done|]. split; [destruct Hw; by split|done].
Qed.
Lemma on_store_twins now f key p q :
  (∀ c, window_start (f c) = window_start c) → twins now p q → twins now (on_store f key p) (on_store f key q).
Proof.
  intros Hf Hw. assert (agree (STORE_WINDOW * 2) now (store_counters (on_store f key p)) (store_counters (on_store f key q))) as Ha.
  { pose proof (w_store _ _ _ Hw) as Ha. intros k.
    assert (∀ r, store_counters (on_store f key r) !! k = if decide (k = key) then f <$> store_counters r !! key else store_counters r !! k) as E.
    { intros r. unfold on_store. case_decide as Hk; [subst k|]; destruct (store_counters r !! key) as [c|] eqn:Hc; cbn; try done.
      - apply lookup_insert_eq.
      - by apply lookup_insert_ne. }
    rewrite !E. case_decide; [|apply Ha]. destruct (Ha key) as [->|[H1 H2]]; [by left|right].
    assert (∀ oc, gone (STORE_WINDOW * 2) now oc → gone (STORE_WINDOW * 2) now (f <$> oc)) as Hg.
    { intros oc Hg c (c0 & -> & ->)%fmap_Some. unfold is_live. rewrite Hf. by apply (Hg c0). }
    auto. }
  destruct Hw as [W1 W2 W3 W4 W5 W6 W7]. unfold on_store in *.
  destruct (store_counters p !! key), (store_counters q !! key); by split.
Qed.
Lemma allow_store_twins ip sender records now p q :
  twins now p q → tight 2 (store_counters p) (store_counters q) →
  let '(ok, p') := allow_store ip sender records now p in let '(ok', q') := allow_store ip sender records now q in
  ok = ok' ∧ twins now p' q'.
Proof.
  intros Hw T. unfold allow_store. rewrite (full_agree 2 _ _ _ ltac:(lia) T), (w_max _ _ _ Hw).
  destruct (table_full _ (store_counters q)); [split; [done|by apply twins_drop]|]. cbv zeta. set (cost := Z.max records 1).
  pose proof (peek_twins (budget_key ip sender) now (max_stores q) cost 2 p q Hw T) as Hp.
  destruct (peek_store _ _ _ _ p) as [ok p1], (peek_store _ _ _ _ q) as [ok' q1]. destruct Hp as (<- & Hw1 & T1).
  destruct ok; cbn [negb]; [|split; [done|by apply twins_drop]]. destruct (addr_key ip sender) as [akey|]; cbn [fst snd].
  2:{ split; [done|]. by apply on_store_twins. }
  rewrite (full_agree (2 - 1) _ _ _ ltac:(lia) T1), (w_max _ _ _ Hw1).
  destruct (table_full akey (store_counters q1)); [split; [done|by apply twins_drop]|].
  pose proof (peek_twins akey now (u32_sat_mul (max_stores q1) MAX_STORE_IDENTITIES_PER_ADDR) cost (2 - 1) p1 q1 Hw1 T1) as Hp.
  destruct (peek_store _ _ _ _ p1) as [ok p2], (peek_store _ _ _ _ q1) as [ok' q2]. destruct Hp as (<- & Hw2 & _).
  destruct ok; cbn [negb]; (split; [done|]); [apply on_store_twins; [done|]; by apply on_store_twins|by apply twins_ceiling, twins_drop].
Qed.
Lemma allow_lookup_twins ip sender now p q :
  twins now p q → tight 2 (lookup_counters p) (lookup_counters q) →
  let '(ok, p') := allow_lookup ip sender now p in let '(ok', q') := allow_lookup ip sender now q in
  ok = ok' ∧ twins now p' q'.
Proof.
  intros Hw T. destruct keeps_outlast as (_ & _ & K3 & _ & _ & K6). unfold allow_lookup.
  rewrite (full_agree 2 _ _ _ ltac:(lia) T). destruct (table_full _ (lookup_counters q)); [split; [done|by apply twins_drop]|].
  destruct (entry_agree LOOKUP_WINDOW (LOOKUP_WINDOW * 2) now (allow now LOOKUP_WINDOW MAX_LOOKUPS_PER_WINDOW) (budget_key ip sender) 2 _ _
    (allow_forgets now _ _ K6) K3 (w_lookup _ _ _ Hw) T) as (E1 & E2 & _).
  destruct (on_entry _ _ (lookup_counters p)) as [ok m], (on_entry _ _ (lookup_counters q)) as [ok' m']. cbn [fst snd] in *. subst ok'.
  assert (twins now (set_lookup p m) (set_lookup q m')) as Hw2 by (destruct Hw; by split).
  destruct ok; (split; [done|]); [done|by apply twins_drop].
Qed.

Lemma event_twins now e p q :
  event_ok now e → twins now p q →
  (run_event e p).1 = (run_event e q).1 ∧ twins (event_end now e) (run_event e p).2 (run_event e q).2.
Proof.
  intros Ht Hw. destruct e as [ip t1 ty sender records t2|ip t|ip ty sender records|s]; cbn [run_event event_end] in *.
  - destruct Ht as [Ht _]. pose proof (allow_frame_twins ip t1 p q (twins_later _ t1 _ _ Hw ltac:(lia))) as Hf.
    destruct (allow_frame_at ip t1 p) as [ok p1], (allow_frame_at ip t1 q) as [ok' q1]. destruct Hf as (<- & Hw1 & T3 & T4).
    apply (twins_later _ t2) in Hw1; [|lia]. destruct ok; [|done]. unfold allow_typed_at.
    assert (let '(ok, p') := if is_store_type ty then allow_store ip sender records t2 p1 else (true, p1) in
            let '(ok', q') := if is_store_type ty then allow_store ip sender records t2 q1 else (true, q1) in
            ok = ok' ∧ twins t2 p' q' ∧ tight 2 (lookup_counters p') (lookup_counters q')) as Hs.
    { destruct (is_store_type ty); [|done]. pose proof (allow_store_twins ip sender records t2 p1 q1 Hw1 T3) as Hs.
      pose proof (store_lookup ip sender records t2 p1) as E1. pose proof (store_lookup ip sender records t2 q1) as E2.
      destruct (allow_store _ _ _ _ p1) as [ok p2], (allow_store _ _ _ _ q1) as [ok' q2]. cbn [snd] in *. rewrite E1, E2. by destruct Hs. }
    destruct (if is_store_type ty then _ else _) as [ok p2], (if is_store_type ty then _ else _) as [ok' q2].
    destruct Hs as (<- & Hw2 & T5). destruct ok; cbn [negb]; [|done]. destruct (is_lookup_type ty); [|done].
    pose proof (allow_lookup_twins ip sender t2 p2 q2 Hw2 T5) as Hl.
    destruct (allow_lookup _ _ _ p2), (allow_lookup _ _ _ q2). by destruct Hl as [<- ?].
  - pose proof (allow_channel_twins ip t p q (twins_later _ t _ _ Hw Ht)) as Hc.
    destruct (allow_channel_frame_at ip t p), (allow_channel_frame_at ip t q). by destruct Hc as [<- ?].
  - split; [done|]. cbn [snd]. unfold refund_store. destruct (negb _); [done|].
    destruct sender; [apply on_store_twins; [done|]|]; by apply on_store_twins.
  - split; [done|]. destruct Hw as [W1 W2 W3 W4 W5 W6 W7]. by split.
Qed.

(** C33: how often the gate sweeps its tables is unobservable.  Sweeping once an
    interval, whatever the interval, answers every frame and counts every drop as
    sweeping on each frame does: an entry swept late is one the next frame would
    have reset, and a table near its bound is swept at once. *)
Theorem sweep_interval_unobservable now es interval :
  timed now es →
  (run es (with_interval DhtProtection_new interval)).1 = (run es (with_interval DhtProtection_new 0)).1 ∧
  dropped_rate (run es (with_interval DhtProtection_new interval)).2 =
    dropped_rate (run es (with_interval DhtProtection_new 0)).2.
Proof.
  assert (∀ p q, timed now es → twins now p q → (run es p).1 = (run es q).1 ∧ dropped_rate (run es p).2 = dropped_rate (run es q).2) as Hgen.
  { revert now. induction es as [|e es IH]; intros now p q Ht Hw; [split; [done|apply Hw]|]. destruct Ht as [He Ht].
    destruct (event_twins now e p q He Hw) as [E Hw1]. cbn [run].
    destruct (run_event e p) as [v p1], (run_event e q) as [v' q1]. cbn [fst snd] in *. subst v'.
    destruct (IH _ p1 q1 Ht Hw1) as [E1 E2]. destruct (run es p1), (run es q1). cbn [fst snd] in *. by subst. }
  intros Ht. apply Hgen; [done|]. split; try done; apply agree_refl.
Qed.

(** ** Sound tables *)
Record table_ok `{Countable K} (m : gmap K WindowCounter) : Prop := {
  t_size : (len m ≤ MAX_IP_ENTRIES)%Z;
  t_counters : ∀ k c, m !! k = Some c → counter_ok c;
}.
Record gate_ok (p : DhtProtection) : Prop := {
  g_msg : table_ok (msg_counters p);
  g_channel : table_ok (channel_counters p);
  g_store : table_ok (store_counters p);
  g_lookup : table_ok (lookup_counters p);
  g_max : (0 ≤ max_stores p ≤ 300)%Z;
}.
Lemma trim_table_ok `{Countable K} due now keep (m : gmap K WindowCounter) : table_ok m → table_ok (trim_map due now keep m).
Proof.
  intros [H1 H2]. unfold trim_map. destruct (wants _ _); [|done]. split.
  - pose proof (map_subseteq_size _ _ (map_filter_subseteq (λ kc, is_live now keep kc.2 = true) m)). unfold sweep. lia.
  - intros k c [Hc _]%map_lookup_filter_Some. by eapply H2.
Qed.
Lemma trim_gate_ok now p : gate_ok p → gate_ok (maybe_trim now p).
Proof. intros [G1 G2 G3 G4 G5]. split; try done; by apply trim_table_ok. Qed.
Lemma default_counter_ok `{Countable K} (m : gmap K WindowCounter) k :
  table_ok m → counter_ok (default WindowCounter_default (m !! k)).
Proof. intros Hm. destruct (m !! k) eqn:E; [by eapply Hm|apply fresh_counter_ok]. Qed.
Lemma entry_table_ok `{Countable K} f k (m : gmap K WindowCounter) :
  table_ok m → table_full k m = false → (∀ c, counter_ok c → counter_ok (f c).2) → table_ok (on_entry f k m).2.
Proof.
  intros Hm Hf Hc. unfold on_entry. pose proof (Hc _ (default_counter_ok m k Hm)) as Hnew.
  destruct (f _) as [ok c]. cbn [snd] in *. destruct Hm as [H1 H2]. split.
  - rewrite map_size_insert. unfold table_full in Hf. destruct (m !! k) eqn:E; unfold id; [done|].
    rewrite bool_decide_eq_true_2, andb_true_r in Hf by done. apply Z.leb_gt in Hf. lia.
  - intros k' c' [[<- <-]|[_ Hk]]%lookup_insert_Some; [done|by eapply H2].
Qed.
Lemma on_store_gate_ok f key p : gate_ok p → (∀ c, counter_ok c → counter_ok (f c)) → gate_ok (on_store f key p).
Proof.
  intros [G1 G2 [S1 S2] G4 G5] Hf. unfold on_store. destruct (store_counters p !! key) as [c|] eqn:E; [|by split].
  split; try done. cbn [store_counters set_store]. split.
  - rewrite map_size_insert_Some by eauto. done.
  - intros k' c' [[<- <-]|[_ Hk]]%lookup_insert_Some; [by eapply Hf, S2|by eapply S2].
Qed.
Lemma peek_gate_ok key now limit cost p :
  gate_ok p → table_full key (store_counters p) = false → gate_ok (peek_store key now limit cost p).2.
Proof.
  intros [G1 G2 G3 G4 G5] Hf. unfold peek_store.
  pose proof (entry_table_ok (would_allow_n now STORE_WINDOW limit cost) key _ G3 Hf (λ c Hc, would_allow_ok _ _ _ _ c Hc)) as Hm.
  destruct (on_entry _ key _) as [ok m]. by split.
Qed.
Lemma drop_gate_ok p : gate_ok p → gate_ok (drop_frame p) ∧ gate_ok (note_ceiling p).
Proof. intros [G1 G2 G3 G4 G5]. split; by split. Qed.
Lemma allow_store_gate_ok ip sender records now p : gate_ok p → gate_ok (allow_store ip sender records now p).2.
Proof.
  intros Hg. unfold allow_store. destruct (table_full _ _) eqn:Hf; [by apply drop_gate_ok|]. cbv zeta.
  set (cost := Z.max records 1). assert (0 ≤ cost)%Z by (unfold cost; lia).
  pose proof (peek_gate_ok _ now (max_stores p) cost p Hg Hf) as Hg1. destruct (peek_store _ _ _ _ p) as [ok p1]. cbn [snd] in Hg1.
  destruct (negb ok); [by apply drop_gate_ok|]. destruct (addr_key ip sender) as [akey|].
  - destruct (table_full akey _) eqn:Hf'; [by apply drop_gate_ok|].
    pose proof (peek_gate_ok akey now (u32_sat_mul (max_stores p1) MAX_STORE_IDENTITIES_PER_ADDR) cost p1 Hg1 Hf') as Hg2.
    destruct (peek_store _ _ _ _ p1) as [ok' p2]. cbn [snd] in Hg2. destruct (negb ok'); [by do 2 apply drop_gate_ok|].
    apply on_store_gate_ok; [apply on_store_gate_ok; [done|]|]; intros c Hc; by apply commit_ok.
  - apply on_store_gate_ok; [done|]. intros c Hc. by apply commit_ok.
Qed.
Lemma allow_counter_ok now window limit c : counter_ok c → counter_ok (allow now window limit c).2.
Proof. intros Hc. apply allow_n_ok; [done|lia]. Qed.
Lemma allow_frame_gate_ok ip now p : gate_ok p → gate_ok (allow_frame_at ip now p).2.
Proof.
  intros Hg%(trim_gate_ok now). unfold allow_frame_at. cbv zeta. set (p1 := maybe_trim now p) in *. clearbody p1.
  destruct (table_full ip _) eqn:Hf; [by apply drop_gate_ok|].
  pose proof (entry_table_ok (allow now MSG_WINDOW MAX_MSGS_PER_WINDOW) ip _ (g_msg _ Hg) Hf (λ c Hc, allow_counter_ok _ _ _ c Hc)) as Hm.
  destruct (on_entry _ ip _) as [ok m]. assert (gate_ok (set_msg p1 m)) by (destruct Hg; by split).
  destruct ok; [done|by apply drop_gate_ok].
Qed.
Lemma allow_channel_gate_ok ip now p : gate_ok p → gate_ok (allow_channel_frame_at ip now p).2.
Proof.
  intros Hg%(trim_gate_ok now). unfold allow_channel_frame_at. cbv zeta. set (p1 := maybe_trim now p) in *. clearbody p1.
  destruct (table_full ip _) eqn:Hf; [by apply drop_gate_ok|].
  pose proof (entry_table_ok (allow now MSG_WINDOW MAX_CHANNEL_FRAMES_PER_WINDOW) ip _ (g_channel _ Hg) Hf (λ c Hc, allow_counter_ok _ _ _ c Hc)) as Hm.
  destruct (on_entry _ ip _) as [ok m]. assert (gate_ok (set_channel p1 m)) by (destruct Hg; by split).
  destruct ok; [done|by apply drop_gate_ok].
Qed.
Lemma allow_lookup_gate_ok ip sender now p : gate_ok p → gate_ok (allow_lookup ip sender now p).2.
Proof.
  intros Hg. unfold allow_lookup. destruct (table_full _ (lookup_counters p)) eqn:Hf; [by apply drop_gate_ok|].
  pose proof (entry_table_ok (allow now LOOKUP_WINDOW MAX_LOOKUPS_PER_WINDOW) _ _ (g_lookup _ Hg) Hf (λ c Hc, allow_counter_ok _ _ _ c Hc)) as Hm.
  destruct (on_entry _ _ _) as [ok m]. assert (gate_ok (set_lookup p m)) by (destruct Hg; by split).
  destruct ok; [done|by apply drop_gate_ok].
Qed.
Lemma event_gate_ok e p : gate_ok p → gate_ok (run_event e p).2.
Proof.
  intros Hg. destruct e as [ip t1 ty sender records t2|ip t|ip ty sender records|s]; cbn [run_event].
  - pose proof (allow_frame_gate_ok ip t1 p Hg) as Hg1. destruct (allow_frame_at ip t1 p) as [[] p1]; [|done]. cbn [snd] in Hg1.
    unfold allow_typed_at. assert (gate_ok (if is_store_type ty then allow_store ip sender records t2 p1 else (true, p1)).2) as Hg2.
    { destruct (is_store_type ty); [by apply allow_store_gate_ok|done]. }
    destruct (if is_store_type ty then _ else _) as [ok p2]. cbn [snd] in Hg2. destruct (negb ok); [done|].
    destruct (is_lookup_type ty); [|done]. pose proof (allow_lookup_gate_ok ip sender t2 p2 Hg2). by destruct (allow_lookup _ _ _ p2).
  - pose proof (allow_channel_gate_ok ip t p Hg). by destruct (allow_channel_frame_at ip t p).
  - cbn [snd]. unfold refund_store. destruct (negb _); [done|].
    assert (∀ c, counter_ok c → counter_ok (refund_n (Z.max records 1) c)) as Hr by (intros c Hc; apply refund_ok; [done|lia]).
    destruct sender; [apply on_store_gate_ok; [|done]|]; by apply on_store_gate_ok.
  - destruct Hg as [G1 G2 G3 G4 G5]. split; try done. cbn. destruct s; cbn; lia.
Qed.
Lemma run_gate_ok es : gate_ok (run es DhtProtection_new).2.
Proof.
  assert (gate_ok DhtProtection_new) as H0.
  { assert (∀ `{Countable K}, table_ok (∅ : gmap K WindowCounter)) as He.
    { intros K ? ?. split; [rewrite map_size_empty; vm_compute; discriminate|]. intros k c. by rewrite lookup_empty. }
    split; try apply He. cbn. lia. }
  revert H0. generalize DhtProtection_new. induction es as [|e es IH]; intros p Hp; [done|]. cbn [run].
  pose proof (event_gate_ok e p Hp) as Hp1. destruct (run_event e p) as [v p1]. specialize (IH p1 Hp1). by destruct (run es p1).
Qed.

(** ** What a STORE pays *)
Definition aged_at (now : Z) (p : DhtProtection) (k : StoreBudgetKey) : WindowCounter :=
  age now STORE_WINDOW (default WindowCounter_default (store_counters p !! k)).
(** The budgets a STORE is charged to, with their limits. *)
Definition store_budgets (ip : IpAddr) (sender : option bytes) (p : DhtProtection) : list (StoreBudgetKey * Z) :=
  match sender with
  | Some id => [(Node id, max_stores p); (Addr ip, u32_sat_mul (max_stores p) MAX_STORE_IDENTITIES_PER_ADDR)]
  | None => [(Addr ip, max_stores p)]
  end.
Lemma peek_lookup key now limit cost p :
  (peek_store key now limit cost p).1 = fits now STORE_WINDOW limit cost (aged_at now p key) ∧
  (∀ k, store_counters (peek_store key now limit cost p).2 !! k =
     if decide (k = key) then Some (aged_at now p key) else store_counters p !! k) ∧
  max_stores (peek_store key now limit cost p).2 = max_stores p.
Proof.
  unfold peek_store, on_entry, would_allow_n, aged_at. cbn. split; [done|]. split; [|done]. intros k.
  case_decide; [subst; apply lookup_insert_eq|by apply lookup_insert_ne].
Qed.
Lemma on_store_lookup f key p k :
  store_counters (on_store f key p) !! k = if decide (k = key) then f <$> store_counters p !! key else store_counters p !! k.
Proof.
  unfold on_store. case_decide as Hk; [subst k|]; destruct (store_counters p !! key) as [c|] eqn:Hc; cbn; try done.
  - apply lookup_insert_eq.
  - by apply lookup_insert_ne.
Qed.
Lemma refund_commit cost limit c :
  counter_ok c → (0 ≤ cost)%Z → (count c + cost ≤ limit)%Z → is_count limit → refund_n cost (commit_n cost c) = c.
Proof.
  intros [[Hc _] _] H0 Hl [_ Hu]. destruct c as [n pr st]. unfold refund_n, commit_n, u32_sat_sub, u32_sat_add. cbn in *. f_equal. lia.
Qed.
Lemma budget_limits p : gate_ok p →
  is_count (max_stores p) ∧ is_count (u32_sat_mul (max_stores p) MAX_STORE_IDENTITIES_PER_ADDR).
Proof.
  intros [_ _ _ _ Hm]. unfold is_count, u32_sat_mul, MAX_STORE_IDENTITIES_PER_ADDR, U32_MAX. lia.
Qed.

(** A STORE pays all of its budgets or none.  In a gate reached by any
    traffic, an admitted frame of [records] records charges that many, at least
    one, to its sender's budget and, when the sender is identified, to its
    address's ceiling, stays within both, and touches no other budget; refunding
    it restores both exactly; a refused frame is charged to nobody. *)
Theorem store_charges_all_or_nothing es ip ty sender records now :
  is_count records → is_store_type ty = true →
  let p := (run es DhtProtection_new).2 in
  let cost := Z.max records 1 in
  let '(ok, p') := allow_store ip sender records now p in
  if ok then
    (∀ k limit, (k, limit) ∈ store_budgets ip sender p →
       store_counters p' !! k = Some (commit_n cost (aged_at now p k)) ∧ (count (aged_at now p k) + cost ≤ limit)%Z ∧
       store_counters (refund_store ip ty sender records p') !! k = Some (aged_at now p k)) ∧
    (∀ k, k ∉ (store_budgets ip sender p).*1 → store_counters p' !! k = store_counters p !! k)
  else ∀ k, store_counters p' !! k = store_counters p !! k ∨ store_counters p' !! k = Some (aged_at now p k).
Proof.
  intros Hrec Hty p cost. pose proof (run_gate_ok es) as Hg. fold p in Hg. clearbody p.
  assert (is_count cost) as Hcost by (unfold is_count, cost, U32_MAX in *; lia).
  assert (∀ k, counter_ok (aged_at now p k)) as Hok by (intros k; apply age_ok, default_counter_ok, Hg).
  destruct (budget_limits p Hg) as [L1 L2]. unfold allow_store. fold cost.
  destruct (table_full (budget_key ip sender) (store_counters p)); [intros k; by left|]. cbv zeta.
  destruct (peek_lookup (budget_key ip sender) now (max_stores p) cost p) as (E1 & E2 & E3).
  destruct (peek_store _ _ _ _ p) as [ok p1]. cbn [fst snd] in *. subst ok.
  destruct (fits _ _ _ _ _) eqn:Hf1; cbn [negb].
  2:{ intros k. cbn [store_counters drop_frame]. rewrite E2. case_decide; [subst; by right|by left]. }
  apply fits_sound in Hf1; [|apply store_window_ok|done|done|done].
  assert (cost = Z.max records 1) as Ec by done. assert (0 ≤ cost)%Z as Hc0 by (destruct Hcost; lia). clearbody cost.
  destruct sender as [id|]; cbn [addr_key budget_key] in *.
  - destruct (table_full (Addr ip) (store_counters p1)).
    { intros k. cbn [store_counters drop_frame]. rewrite E2. case_decide; [subst; by right|by left]. }
    rewrite E3. destruct (peek_lookup (Addr ip) now (u32_sat_mul (max_stores p) MAX_STORE_IDENTITIES_PER_ADDR) cost p1) as (A1 & A2 & A3).
    assert (aged_at now p1 (Addr ip) = aged_at now p (Addr ip)) as Ea by (unfold aged_at; by rewrite E2, decide_False).
    rewrite Ea in *. destruct (peek_store (Addr ip) _ _ _ p1) as [ok p2]. cbn [fst snd] in *. subst ok.
    destruct (fits _ _ _ _ _) eqn:Hf2; cbn [negb].
    2:{ intros k. cbn [store_counters drop_frame note_ceiling]. rewrite A2. case_decide; [subst; by right|].
        rewrite E2. case_decide; [subst; by right|by left]. }
    apply fits_sound in Hf2; [|apply store_window_ok|done|done|done]. unfold charge_store.
    assert (∀ k, store_counters (on_store (commit_n cost) (Addr ip) (on_store (commit_n cost) (Node id) p2)) !! k =
      if decide (k = Addr ip ∨ k = Node id) then Some (commit_n cost (aged_at now p k)) else store_counters p !! k) as Hall.
    { intros k. rewrite !on_store_lookup, !A2, !E2. destruct (decide (k = Addr ip)) as [->|H1]; [|destruct (decide (k = Node id)) as [->|H2]];
        repeat first [rewrite decide_True by auto|rewrite decide_False by (try done; intros [?|?]; done)]; done. }
    set (p3 := on_store _ (Addr ip) _) in *. clearbody p3. split.
    + intros k limit Hk. assert ((k = Addr ip ∨ k = Node id) ∧ (count (aged_at now p k) + cost ≤ limit)%Z ∧ is_count limit) as (Hkk & Hl & Hlc).
      { cbn in Hk. apply elem_of_cons in Hk as [[= -> ->]|[[= -> ->]|Hk]%elem_of_cons]; [by auto|by auto|by apply elem_of_nil in Hk]. }
      rewrite Hall, decide_True by done. split; [done|]. split; [done|].
      unfold refund_store. rewrite Hty. cbn [negb budget_key]. rewrite <- Ec, !on_store_lookup, !Hall.
      rewrite !(decide_True (P := _ ∨ _)) by auto. cbn [fmap option_fmap option_map].
      destruct Hkk as [-> | ->]; rewrite ?(decide_True (P := Addr ip = Addr ip)), ?(decide_False (P := Node id = Addr ip)),
        ?(decide_False (P := Addr ip = Node id)), ?(decide_True (P := Node id = Node id)) by done; cbn [fmap option_fmap option_map];
        f_equal; by eapply refund_commit.
    + intros k Hk. cbn in Hk. rewrite Hall, decide_False; [done|]. intros [-> | ->]; apply Hk; [right; left|left].
  - assert (∀ k, store_counters (charge_store (Addr ip) cost p1) !! k =
      if decide (k = Addr ip) then Some (commit_n cost (aged_at now p k)) else store_counters p !! k) as Hall.
    { intros k. unfold charge_store. rewrite on_store_lookup, !E2, (decide_True (P := Addr ip = Addr ip)) by done.
      by case_decide; [subst|]. }
    set (p3 := charge_store _ _ _) in *. clearbody p3. split.
    + intros k limit Hk. cbn in Hk. apply list_elem_of_singleton in Hk as [= -> ->]. rewrite Hall, decide_True by done.
      split; [done|]. split; [done|]. unfold refund_store. rewrite Hty. cbn [negb budget_key].
      rewrite <- Ec, on_store_lookup, Hall, !decide_True by done. cbn. f_equal. by eapply refund_commit.
    + intros k Hk. rewrite Hall, decide_False; [done|]. intros ->. apply Hk. cbn. left.
Qed.

(** The tables of a gate never hold more than their bound. *)
Lemma gate_tables_bounded es :
  let p := (run es DhtProtection_new).2 in
  (len (msg_counters p) ≤ MAX_IP_ENTRIES ∧ len (channel_counters p) ≤ MAX_IP_ENTRIES ∧
   len (store_counters p) ≤ MAX_IP_ENTRIES ∧ len (lookup_counters p) ≤ MAX_IP_ENTRIES)%Z.
Proof. destruct (run_gate_ok es) as [[? _] [? _] [? _] [? _] _]. done. Qed.
End sweep.

(** ** A little traffic *)
Definition sample_ip : IpAddr := V4 (mkV4 9 9 9 9).
Definition sample_traffic : list gate_event :=
  [EvFrame sample_ip 0 MSG_FIND_VALUE None 1 0; EvFrame sample_ip 5 MSG_STORE_BATCH (Some (repeat 1%Z 16)) 20 7;
   EvChannel sample_ip 9; EvScale Established; EvRefund sample_ip MSG_STORE_BATCH (Some (repeat 1%Z 16)) 20;
   EvFrame sample_ip 600000000 MSG_PING None 1 600000000].
Lemma sample_traffic_timed : timed 0 sample_traffic.
Proof. cbn. unfold is_count, U32_MAX. lia. Qed.

Lemma gate_rates_witness :
  snd <$> (run sample_traffic DhtProtection_new).1 = [Some true; Some true; Some true; None; None; Some true] ∧
  (within 0 1000000000 (omap (frame_from sample_ip) (run sample_traffic DhtProtection_new).1) ≤ 40 * (2 + 2))%Z.
Proof.
  split; [vm_compute; reflexivity|].
  exact (proj1 (gate_rates 0 sample_traffic sample_ip (Addr sample_ip) 0 1000000000 sample_traffic_timed ltac:(lia))).
Defined.
Lemma sweep_interval_unobservable_witness :
  (run sample_traffic (with_interval DhtProtection_new 1000000000)).1 = (run sample_traffic (with_interval DhtProtection_new 0)).1.
Proof. exact (proj1 (sweep_interval_unobservable 0 sample_traffic 1000000000 sample_traffic_timed)). Defined.
Lemma store_charges_all_or_nothing_witness :
  let p := (run sample_traffic DhtProtection_new).2 in
  let r := allow_store sample_ip None 20 700000000 p in
  r.1 = true ∧ store_counters r.2 !! Addr sample_ip = Some (commit_n 20 (aged_at 700000000 p (Addr sample_ip))).
Proof.
  intros p r. assert (r.1 = true) as E by (vm_compute; reflexivity). split; [exact E|].
  pose proof (store_charges_all_or_nothing sample_traffic sample_ip MSG_STORE_BATCH None 20 700000000
    ltac:(unfold is_count, U32_MAX; lia) ltac:(reflexivity)) as H. cbv zeta in H.
  change (allow_store sample_ip None 20 700000000 (run sample_traffic DhtProtection_new).2) with r in H.
  destruct r as [ok p']. cbn [fst] in E. rewrite E in H. destruct H as [H _].
  apply (H (Addr sample_ip) (max_stores p)). cbn [store_budgets]. apply list_elem_of_singleton. reflexivity.
Defined.
