(* ===== verification/MapOrder.v ===== *)
(** * Iterating over a hash map, and the least element of a set

    [HashMap::iter] visits the entries in an order of its own; code that may depend
    on it takes the order from this class. *)
From S2P Require Import Prelude.

(** A [HashMap] iterates in an order of its own choosing. *)
Class MapOrder := {
  map_iter : ∀ {K} `{Countable K} {V}, gmap K V → list (K * V);
  map_iter_perm : ∀ {K} `{Countable K} {V} (m : gmap K V), map_iter m ≡ₚ map_to_list m;
}.
#[export] Instance MapOrder_by_key : MapOrder.
Proof. refine {| map_iter := λ K _ _ V m, map_to_list m |}. done. Defined.

Section iter.
Context `{Ord : MapOrder}.
Lemma elem_of_map_iter `{Countable K} {V} (m : gmap K V) k v : (k, v) ∈ map_iter m ↔ m !! k = Some v.
Proof. rewrite map_iter_perm. apply elem_of_map_to_list. Qed.
Lemma length_map_iter `{Countable K} {V} (m : gmap K V) : length (map_iter m) = size m.
Proof. rewrite map_iter_perm. apply length_map_to_list. Qed.
Lemma NoDup_fst_map_iter `{Countable K} {V} (m : gmap K V) : NoDup (map_iter m).*1.
Proof. rewrite map_iter_perm. apply NoDup_fst_map_to_list. Qed.
End iter.

(** ** The least element *)

(** [BTreeSet::first] over the elements in any order. *)
Definition least {A} (le : A → A → bool) (l : list A) : option A :=
  foldl (λ best x, match best with Some b => if le b x then Some b else Some x | None => Some x end) None l.
Section least.
Context {A} (le : A → A → bool) (le_total : ∀ x y, le x y = true ∨ le y x = true) (le_trans : ∀ x y z, le x y = true → le y z = true → le x z = true).
Lemma least_from l x0 :
  let r := foldl (λ best x, match best with Some b => if le b x then Some b else Some x | None => Some x end) (Some x0) l in
  ∃ x, r = Some x ∧ (x = x0 ∨ x ∈ l) ∧ le x x0 = true ∧ ∀ y, y ∈ l → le x y = true.
Proof.
  revert x0. induction l as [|y l IH]; intros x0; cbn [foldl].
  - exists x0. split; [done|]. split; [by left|]. split; [by destruct (le_total x0 x0)|]. by intros y ?%elem_of_nil.
  - destruct (le x0 y) eqn:E.
    + destruct (IH x0) as (x & Hr & Hx & Hle & Hall). exists x. split; [exact Hr|]. split; [destruct Hx; [by left|right; by right]|]. split; [done|].
      intros z [->|Hz]%elem_of_cons; [by apply (le_trans x x0)|by apply Hall].
    + assert (le y x0 = true) as E' by (destruct (le_total x0 y) as [H|H]; [congruence|done]).
      destruct (IH y) as (x & Hr & Hx & Hle & Hall). exists x. split; [exact Hr|]. split; [right; destruct Hx as [->|Hx]; [left|by right]|].
      split; [by apply (le_trans x y)|]. intros z [->|Hz]%elem_of_cons; [done|by apply Hall].
Qed.
Lemma least_spec `{Countable A} (s : gset A) : match least le (elements s) with Some x => x ∈ s ∧ ∀ y, y ∈ s → le x y = true | None => s = ∅ end.
Proof.
  unfold least. destruct (elements s) as [|x0 l] eqn:E; cbn [foldl].
  - by apply elements_empty_inv, leibniz_equiv in E.
  - destruct (least_from l x0) as (x & Hr & Hx & Hle & Hall). rewrite Hr.
    assert (∀ y, y ∈ s ↔ y ∈ x0 :: l) as Hin by (intros y; rewrite <- E; by rewrite elem_of_elements).
    split; [apply Hin, elem_of_cons; destruct Hx; auto|]. intros y [->|Hy]%Hin%elem_of_cons; [done|by apply Hall].
Qed.
End least.
