(* ===== verification/Observed.v ===== *)
(** * Votes on our own address

    [EmberObservedIpVotes] of [network/ember/dht/observed.rs]: peers report the
    address they see us at, each network has one vote an address, and an address
    is confirmed by a quorum of networks.  [HashMap] iteration is an arbitrary
    order of the map's entries ([MapOrder]); an [Instant] is a number of
    nanoseconds. *)
From S2P Require Import Prelude Addr MapOrder.

Definition MIN_OBSERVED_IP_VOTES : nat := 3.
Definition VOTE_TTL : Z := (15 * 60 * 1000000000)%Z.
Definition MAX_TRACKED_ADDRS : nat := 64.
Definition MAX_TRACKED_BACKERS : nat := 256.

(** [now.saturating_duration_since(at)]. *)
Definition age_of (now at_ : Z) : Z := Z.max 0 (now - at_).

Inductive ReporterNet := NetV4 (o : list Z) | NetV6 (o : list Z).
#[export] Instance ReporterNet_eq_dec : EqDecision ReporterNet.
Proof. solve_decision. Defined.
#[export] Instance ReporterNet_countable : Countable ReporterNet.
Proof.
  apply (inj_countable' (λ n, match n with NetV4 o => inl o | NetV6 o => inr o end)
    (λ x, match x with inl o => NetV4 o | inr o => NetV6 o end)). by intros [].
Defined.

(** ** Iterator helpers *)

(** [min_by_key]: the first of the least; [max_by_key]: the last of the greatest. *)
Fixpoint first_min {A K} (key : A → K) (le : K → K → bool) (l : list A) : option A :=
  match l with
  | [] => None
  | x :: l => match first_min key le l with
              | Some y => if le (key x) (key y) then Some x else Some y
              | None => Some x
              end
  end.
Fixpoint last_max {A K} (key : A → K) (le : K → K → bool) (l : list A) : option A :=
  match l with
  | [] => None
  | x :: l => match last_max key le l with
              | Some y => if le (key x) (key y) then Some y else Some x
              | None => Some x
              end
  end.
(** [None] comes before every [Some]. *)
Definition opt_le (a b : option Z) : bool :=
  match a, b with None, _ => true | Some _, None => false | Some a, Some b => Z.leb a b end.

(** ** Votes for one address *)
Record AddrVotes := mkVotes { nets : gmap ReporterNet (Z * Z); last_update : option Z }.
Definition AddrVotes_default : AddrVotes := mkVotes ∅ None.

(** The lexicographic order of [(count, is_incumbent, at)]. *)
Definition port_rank : Type := nat * bool * Z.
Definition port_rank_le (a b : port_rank) : bool :=
  let '(ca, ia, ta) := a in
  let '(cb, ib, tb) := b in
  match Nat.compare ca cb with
  | Lt => true
  | Gt => false
  | Eq => match ia, ib with
          | false, true => true
          | true, false => false
          | _, _ => Z.leb ta tb
          end
  end.

Section observed.
Context `{Ord : MapOrder}.

Definition tally_one (tally : gmap Z (nat * Z)) (v : Z * Z) : gmap Z (nat * Z) :=
  let '(at_, port) := v in
  match tally !! port with
  | Some (n, last) => <[port := (S n, Z.max last at_)]> tally
  | None => <[port := (1, at_)]> tally
  end.
Definition leading_port (v : AddrVotes) (incumbent : option Z) : option (Z * nat) :=
  let tally := foldl tally_one ∅ (snd <$> map_iter (nets v)) in
  (λ x : Z * (nat * Z), (x.1, x.2.1)) <$>
    last_max (λ x : Z * (nat * Z), (x.2.1, bool_decide (incumbent = Some x.1), x.2.2)) port_rank_le (map_iter tally).
Definition votes_for_port (v : AddrVotes) (port : Z) : nat :=
  count_if (λ x : Z * Z, Z.eqb x.2 port) (snd <$> map_iter (nets v)).

Record LapsedConfirmation := mkLapsed { l_addr : IpAddr; peak : nat; backers : gset ReporterNet; l_at : Z }.
Record EmberObservedIpVotes := mkObserved {
  votes : gmap IpAddr AddrVotes;
  confirmed_ip : option IpAddr;
  confirmed_port : option Z;
  confirmed_peak : nat;
  confirmed_backers : gmap ReporterNet Z;
  lapsed : option LapsedConfirmation;
}.
Definition EmberObservedIpVotes_new : EmberObservedIpVotes := mkObserved ∅ None None 0 ∅ None.
Definition set_votes s v := mkObserved v (confirmed_ip s) (confirmed_port s) (confirmed_peak s) (confirmed_backers s) (lapsed s).
Definition set_port s v := mkObserved (votes s) (confirmed_ip s) v (confirmed_peak s) (confirmed_backers s) (lapsed s).
Definition set_backing s pk b := mkObserved (votes s) (confirmed_ip s) (confirmed_port s) pk b (lapsed s).
Definition set_lapsed s v := mkObserved (votes s) (confirmed_ip s) (confirmed_port s) (confirmed_peak s) (confirmed_backers s) v.

(** [SocketAddr::new(ip, port)]. *)
Definition socket_addr_new (ip : IpAddr) (port : Z) : SocketAddr :=
  match ip with V4 a => SocketAddrV4 a port | V6 a => SocketAddrV6 a port 0 0 end.
Definition confirmed (s : EmberObservedIpVotes) : option SocketAddr :=
  ip ← confirmed_ip s; port ← confirmed_port s; Some (socket_addr_new ip port).
Definition confirmed_port_has_quorum (s : EmberObservedIpVotes) : bool :=
  match confirmed_ip s ≫= λ ip, votes s !! ip, confirmed_port s with
  | Some v, Some port => bool_decide (MIN_OBSERVED_IP_VOTES ≤ votes_for_port v port)
  | _, _ => false
  end.
Definition refresh_confirmed_port (s : EmberObservedIpVotes) : EmberObservedIpVotes :=
  set_port s (fst <$> ((confirmed_ip s ≫= λ ip, votes s !! ip) ≫= λ v, leading_port v (confirmed_port s))).

(** ** Expiry *)
Definition live_nets (now : Z) (n : gmap ReporterNet (Z * Z)) : gmap ReporterNet (Z * Z) :=
  filter (λ kv, (age_of now kv.2.1 < VOTE_TTL)%Z) n.
Definition prune_votes (now : Z) (v : AddrVotes) : option AddrVotes :=
  let n := live_nets now (nets v) in if decide (n = ∅) then None else Some (mkVotes n (last_update v)).
(** A confirmation only stands while its quorum does. *)
Definition lapse_unbacked (now : Z) (s : EmberObservedIpVotes) : EmberObservedIpVotes :=
  match confirmed_ip s with
  | Some addr =>
      let still_backed := match votes s !! addr with
        | Some v => bool_decide (MIN_OBSERVED_IP_VOTES ≤ size (nets v))
        | None => false
        end in
      if still_backed then s
      else mkObserved (votes s) None (confirmed_port s) 0 ∅
             (Some (mkLapsed addr (confirmed_peak s) (dom (confirmed_backers s)) now))
  | None => s
  end.
Definition forget_lapse (now : Z) (s : EmberObservedIpVotes) : EmberObservedIpVotes :=
  match lapsed s with
  | Some l => if Z.leb VOTE_TTL (age_of now (l_at l)) then set_lapsed s None else s
  | None => s
  end.
Definition prune (now : Z) (s : EmberObservedIpVotes) : EmberObservedIpVotes :=
  let s := set_votes s (omap (prune_votes now) (votes s)) in
  refresh_confirmed_port (forget_lapse now (lapse_unbacked now s)).

(** ** Who may vote, and for what *)
Definition v6_segment (a : Ipv6Addr) (i : nat) : Z := nth i (segments a) 0%Z.
Definition is_public_v4 (a : Ipv4Addr) : bool := negb (is_special_use_v4 a).
Definition is_public_vote_addr (a : SocketAddr) : bool :=
  match addr_ip a with
  | V4 ip => is_public_v4 ip && negb (Z.eqb (addr_port a) 0)
  | V6 _ => false
  end.
Definition is_public_reporter (ip : IpAddr) : bool :=
  match ip with
  | V4 v4 => is_public_v4 v4
  | V6 v6 =>
      let s := v6_segment v6 in
      negb (bool_decide (s <$> seq 0 8 = [0; 0; 0; 0; 0; 0; 0; 1]%Z))
      && negb (bool_decide (s <$> seq 0 8 = [0; 0; 0; 0; 0; 0; 0; 0]%Z))
      && negb (Z.eqb (Z.shiftr (s 0) 8) 255)
      && negb (Z.eqb (Z.land (s 0) 65472) 65152)
      && negb (Z.eqb (Z.land (s 0) 65024) 64512)
  end.
Definition reporter_net (ip : IpAddr) : ReporterNet :=
  match ip with
  | V4 a => NetV4 [o0 a; o1 a; o2 a]
  | V6 a => NetV6 (flat_map (λ i, [Z.shiftr (v6_segment a i) 8; Z.land (v6_segment a i) 255]) [0; 1; 2])
  end.

(** ** A vote *)

(** The address dropped to keep the map within its cap. *)
Definition vote_victim (s : EmberObservedIpVotes) : option IpAddr :=
  let oldest l := fst <$> first_min (λ kv : IpAddr * AddrVotes, last_update kv.2) opt_le l in
  match oldest (retain (λ kv, negb (bool_decide (Some kv.1 = confirmed_ip s))) (map_iter (votes s))) with
  | Some k => Some k
  | None => oldest (map_iter (votes s))
  end.
Definition make_vote_room (ip : IpAddr) (s : EmberObservedIpVotes) : EmberObservedIpVotes :=
  if bool_decide (MAX_TRACKED_ADDRS ≤ size (votes s)) && bool_decide (votes s !! ip = None)
  then match vote_victim s with Some k => set_votes s (delete k (votes s)) | None => s end
  else s.
Definition cast_vote (ip : IpAddr) (net : ReporterNet) (port now : Z) (s : EmberObservedIpVotes) : EmberObservedIpVotes :=
  let v := default AddrVotes_default (votes s !! ip) in
  set_votes s (<[ip := mkVotes (<[net := (now, port)]> (nets v)) (Some now)]> (votes s)).
(** A vote for the confirmed address: the peak, and the nets remembered. *)
Definition note_backer (net : ReporterNet) (now : Z) (new_count : nat) (s : EmberObservedIpVotes) : EmberObservedIpVotes :=
  let b := confirmed_backers s in
  let b := if bool_decide (MAX_TRACKED_BACKERS ≤ size b) && bool_decide (b !! net = None)
    then match first_min (λ kv : ReporterNet * Z, kv.2) Z.leb (map_iter b) with
         | Some (oldest, _) => delete oldest b
         | None => b
         end
    else b in
  set_backing s (max (confirmed_peak s) new_count) (<[net := now]> b).
(** The nets behind an address, with the time of their vote. *)
Definition rival_nets (ip : IpAddr) (s : EmberObservedIpVotes) : list (ReporterNet * Z) :=
  match votes s !! ip with Some v => (λ kv : ReporterNet * (Z * Z), (kv.1, kv.2.1)) <$> map_iter (nets v) | None => [] end.
Definition displaces (ip : IpAddr) (new_count : nat) (s : EmberObservedIpVotes) : bool :=
  match confirmed_ip s with
  | Some cur => bool_decide (match votes s !! cur with Some v => size (nets v) | None => 0 end < new_count)
  | None =>
      match lapsed s with
      | Some l =>
          if decide (l_addr l = ip) then true
          else bool_decide (peak l < new_count)
               || bool_decide (MIN_OBSERVED_IP_VOTES ≤ count_if (λ x, bool_decide (x.1 ∈ backers l)) (rival_nets ip s))
      | None => true
      end
  end.
Definition take_over (ip : IpAddr) (new_count : nat) (s : EmberObservedIpVotes) : EmberObservedIpVotes :=
  refresh_confirmed_port
    (mkObserved (votes s) (Some ip) None new_count (list_to_map (take MAX_TRACKED_BACKERS (rival_nets ip s))) None).
Definition record_vote_at (reported : SocketAddr) (reporter : IpAddr) (now : Z) (s : EmberObservedIpVotes)
    : option SocketAddr * EmberObservedIpVotes :=
  if negb (is_public_vote_addr reported) then (None, s)
  else if negb (is_public_reporter reporter) then (None, s)
  else
    let net := reporter_net reporter in
    let ip := addr_ip reported in
    let s := prune now s in
    let s := make_vote_room ip s in
    let s := cast_vote ip net (addr_port reported) now s in
    let new_count := match votes s !! ip with Some v => size (nets v) | None => 0 end in
    let quorum := bool_decide (MIN_OBSERVED_IP_VOTES ≤ new_count) in
    let s := if decide (confirmed_ip s = Some ip) then note_backer net now new_count s else s in
    if quorum && negb (bool_decide (confirmed_ip s = Some ip)) && displaces ip new_count s
    then let s := take_over ip new_count s in (confirmed s, s)
    else (None, refresh_confirmed_port s).
Definition expire (now : Z) (s : EmberObservedIpVotes) : EmberObservedIpVotes := prune now s.
End observed.
