(* ===== verification/ObservedVotes.v ===== *)
(** * What a confirmed address means

    The invariant of the votes on our own address and the theorems: a confirmed
    address has a quorum of networks behind it, each of which cast a public vote
    for it within the last quarter of an hour; and what it takes to move one. *)
From S2P Require Import Prelude Addr MapOrder Observed.

Lemma first_min_elem {A K} (key : A → K) le l x : first_min key le l = Some x → x ∈ l.
Proof.
  revert x. induction l as [|y l IH]; intros x; cbn; [done|]. destruct (first_min key le l) as [z|].
  - destruct (le _ _); intros [= <-]; [left|right; by apply IH].
  - intros [= <-]. left.
Qed.
Lemma first_min_nonempty {A K} (key : A → K) le l : l ≠ [] → is_Some (first_min key le l).
Proof. destruct l as [|x l]; [done|]. intros _. cbn. destruct (first_min key le l); [destruct (le _ _)|]; eauto. Qed.
Lemma last_max_nonempty {A K} (key : A → K) le l : l ≠ [] → is_Some (last_max key le l).
Proof. destruct l as [|x l]; [done|]. intros _. cbn. destruct (last_max key le l); [destruct (le _ _)|]; eauto. Qed.

Lemma size_list_to_map `{Countable K} {V} (l : list (K * V)) : size (list_to_map l : gmap K V) ≤ length l.
Proof.
  induction l as [|[k v] l IH]; cbn; [by rewrite map_size_empty|]. rewrite map_size_insert. case_match; unfold Datatypes.id; lia.
Qed.

Lemma size_list_to_map_take `{Countable K} {V} n (l : list (K * V)) : size (list_to_map (take n l) : gmap K V) ≤ n.
Proof. etransitivity; [apply size_list_to_map|]. rewrite length_take. lia. Qed.

(** ** Histories of votes *)
Record vote := mkVote { v_reported : SocketAddr; v_reporter : IpAddr; v_at : Z }.
(** A vote the rules accept. *)
Definition admissible (x : vote) : Prop :=
  is_public_vote_addr (v_reported x) = true ∧ is_public_reporter (v_reporter x) = true.

Section votes.
Context `{Ord : MapOrder}.

Inductive obs_op := ObsVote (x : vote) | ObsExpire (now : Z).
Definition op_time (o : obs_op) : Z := match o with ObsVote x => v_at x | ObsExpire now => now end.
Definition run_obs (s : EmberObservedIpVotes) (o : obs_op) : EmberObservedIpVotes :=
  match o with
  | ObsVote x => (record_vote_at (v_reported x) (v_reporter x) (v_at x) s).2
  | ObsExpire now => expire now s
  end.
(** The votes among the operations. *)
Definition votes_of (os : list obs_op) : list vote := omap (λ o, match o with ObsVote x => Some x | _ => None end) os.

(** Every vote counted was cast. *)
Definition counted_votes (h : list vote) (m : gmap IpAddr AddrVotes) : Prop :=
  ∀ ip v net at_ port, m !! ip = Some v → nets v !! net = Some (at_, port) →
    ∃ x, x ∈ h ∧ admissible x ∧ addr_ip (v_reported x) = ip ∧ reporter_net (v_reporter x) = net ∧ v_at x = at_.
Definition backing (ip : IpAddr) (s : EmberObservedIpVotes) : nat :=
  match votes s !! ip with Some v => size (nets v) | None => 0 end.
Record obs_ok (h : list vote) (s : EmberObservedIpVotes) : Prop := {
  o_counted : counted_votes h (votes s);
  o_quorum : ∀ ip, confirmed_ip s = Some ip → MIN_OBSERVED_IP_VOTES ≤ backing ip s;
  o_addrs : size (votes s) ≤ MAX_TRACKED_ADDRS;
  o_backers : size (confirmed_backers s) ≤ MAX_TRACKED_BACKERS;
}.

(** ** Refreshing and expiry *)
Lemma refresh_same s : votes (refresh_confirmed_port s) = votes s ∧ confirmed_ip (refresh_confirmed_port s) = confirmed_ip s ∧
  confirmed_backers (refresh_confirmed_port s) = confirmed_backers s ∧ lapsed (refresh_confirmed_port s) = lapsed s ∧
  confirmed_peak (refresh_confirmed_port s) = confirmed_peak s.
Proof. done. Qed.
Lemma refresh_ok h s : obs_ok h s → obs_ok h (refresh_confirmed_port s).
Proof. by intros [O1 O2 O3 O4]. Qed.

Lemma tally_nonempty l m : l ≠ [] ∨ m ≠ ∅ → foldl tally_one m l ≠ ∅.
Proof.
  revert m. induction l as [|[at_ port] l IH]; intros m H; cbn; [by destruct H|]. apply IH. right.
  destruct (m !! port) as [[n last]|]; apply insert_non_empty.
Qed.
Lemma leading_port_some v inc : nets v ≠ ∅ → is_Some (leading_port v inc).
Proof.
  intros Hn. unfold leading_port. apply fmap_is_Some, last_max_nonempty. intros E.
  apply (f_equal length) in E. rewrite length_map_iter in E. apply map_size_empty_inv in E.
  revert E. apply tally_nonempty. left. intros E. apply (f_equal length) in E. rewrite length_fmap, length_map_iter in E.
  by apply map_size_empty_inv in E.
Qed.
(** A confirmed address has a port. *)
Lemma refresh_port h s ip : obs_ok h s → confirmed_ip s = Some ip → is_Some (confirmed_port (refresh_confirmed_port s)).
Proof.
  intros Hs Hip. unfold refresh_confirmed_port. cbn. rewrite Hip. cbn. pose proof (o_quorum _ _ Hs ip Hip) as Hq. unfold backing in Hq.
  destruct (votes s !! ip) as [v|]; [|unfold MIN_OBSERVED_IP_VOTES in Hq; lia]. cbn. apply fmap_is_Some, leading_port_some.
  intros E. rewrite E, map_size_empty in Hq. unfold MIN_OBSERVED_IP_VOTES in Hq. lia.
Qed.

Lemma lapse_votes now s : votes (lapse_unbacked now s) = votes s.
Proof. unfold lapse_unbacked. destruct (confirmed_ip s); [|done]. by destruct (match votes s !! _ with Some _ => _ | None => _ end). Qed.
Lemma forget_same now s :
  votes (forget_lapse now s) = votes s ∧ confirmed_ip (forget_lapse now s) = confirmed_ip s ∧
  confirmed_backers (forget_lapse now s) = confirmed_backers s.
Proof. unfold forget_lapse. destruct (lapsed s); [destruct (Z.leb _ _)|]; done. Qed.
Lemma lapse_confirmed now s ip :
  confirmed_ip (lapse_unbacked now s) = Some ip ↔ confirmed_ip s = Some ip ∧ MIN_OBSERVED_IP_VOTES ≤ backing ip s.
Proof.
  unfold lapse_unbacked, backing. destruct (confirmed_ip s) as [addr|] eqn:E; [|rewrite E; naive_solver].
  destruct (votes s !! addr) as [v|] eqn:Ev.
  - case_bool_decide as Hq; cbn.
    + rewrite E. split; [|tauto]. intros [= ->]. by rewrite Ev.
    + split; [done|]. intros [[= ->] H]. rewrite Ev in H. done.
  - cbn. split; [done|]. intros [[= ->] H]. rewrite Ev in H. unfold MIN_OBSERVED_IP_VOTES in H. lia.
Qed.

Lemma prune_lookup now s ip : votes (prune now s) !! ip = votes s !! ip ≫= prune_votes now.
Proof.
  unfold prune. cbv zeta. rewrite (proj1 (refresh_same _)), (proj1 (forget_same _ _)), lapse_votes. cbn. by rewrite lookup_omap.
Qed.
Lemma prune_confirmed now s ip :
  confirmed_ip (prune now s) = Some ip ↔ confirmed_ip s = Some ip ∧ MIN_OBSERVED_IP_VOTES ≤ backing ip (prune now s).
Proof.
  unfold prune. cbv zeta. set (s1 := set_votes s _).
  rewrite (proj1 (proj2 (refresh_same _))), (proj1 (proj2 (forget_same _ _))), lapse_confirmed.
  unfold backing. rewrite (proj1 (refresh_same _)), (proj1 (forget_same _ _)), lapse_votes. done.
Qed.
Lemma prune_nets now v v' : prune_votes now v = Some v' → nets v' = live_nets now (nets v) ∧ nets v' ≠ ∅.
Proof. unfold prune_votes. case_decide; [done|]. by intros [= <-]. Qed.

(** ** The invariant *)
Lemma prune_ok h now s : obs_ok h s → obs_ok h (prune now s).
Proof.
  intros [O1 O2 O3 O4]. split.
  - intros ip v net at_ port. rewrite prune_lookup. intros (v0 & Hv0 & [Hn _]%prune_nets)%bind_Some Hnet.
    rewrite Hn in Hnet. apply map_lookup_filter_Some in Hnet as [Hnet _]. by eapply O1.
  - intros ip Hip. by apply prune_confirmed in Hip as [_ ?].
  - assert (votes (prune now s) = omap (prune_votes now) (votes s)) as ->.
    { apply map_eq. intros ip. by rewrite prune_lookup, lookup_omap. }
    etransitivity; [|exact O3]. rewrite <- !size_dom. apply subseteq_size. intros ip. rewrite !elem_of_dom, lookup_omap.
    intros [v (v0 & Hv0 & _)%bind_Some]. by eexists.
  - unfold prune. cbv zeta. rewrite (proj1 (proj2 (proj2 (refresh_same _)))), (proj2 (proj2 (forget_same _ _))).
    unfold lapse_unbacked. cbn [confirmed_ip set_votes votes]. destruct (confirmed_ip s); [|done].
    destruct (match omap _ _ !! _ with Some _ => _ | None => _ end); [done|]. cbn. rewrite map_size_empty. unfold MAX_TRACKED_BACKERS. lia.
Qed.
(** After a prune every vote counted is young. *)
Definition young (now : Z) (m : gmap IpAddr AddrVotes) : Prop :=
  ∀ ip v net at_ port, m !! ip = Some v → nets v !! net = Some (at_, port) → (age_of now at_ < VOTE_TTL)%Z.
Lemma prune_young now s : young now (votes (prune now s)).
Proof.
  intros ip v net at_ port. rewrite prune_lookup. intros (v0 & Hv0 & [Hn _]%prune_nets)%bind_Some Hnet.
  rewrite Hn in Hnet. by apply map_lookup_filter_Some in Hnet as [_ ?].
Qed.

Lemma room_victim s k : vote_victim s = Some k → is_Some (votes s !! k).
Proof.
  unfold vote_victim. set (l := retain _ _).
  assert (∀ l', l' ⊆ map_iter (votes s) → fst <$> first_min (λ kv : IpAddr * AddrVotes, last_update kv.2) opt_le l' = Some k →
    is_Some (votes s !! k)) as H.
  { intros l' Hsub ([k' v] & Hm & ->)%fmap_Some. apply first_min_elem in Hm. apply Hsub, elem_of_map_iter in Hm. by eexists. }
  destruct (fst <$> first_min _ _ l) eqn:E; [|by apply H]. intros [= ->]. eapply H; [|done].
  intros x Hx. by apply elem_of_retain in Hx as [_ ?].
Qed.
Lemma room_spares_confirmed s ip k :
  2 ≤ size (votes s) → confirmed_ip s = Some ip → vote_victim s = Some k → k ≠ ip.
Proof.
  intros Hs Hip. unfold vote_victim. set (l := retain _ _). intros Hv ->.
  assert (l ≠ []) as Hl.
  { intros E. assert (∀ kv, kv ∈ map_iter (votes s) → kv.1 = ip) as Hall.
    { intros kv Hkv. destruct (decide (kv.1 = ip)) as [|Hne]; [done|]. assert (kv ∈ l) as Hin; [|rewrite E in Hin; by apply elem_of_nil in Hin].
      apply elem_of_retain. rewrite Hip, bool_decide_eq_false_2; [done|]. congruence. }
    pose proof (length_map_iter (votes s)) as Hlen. pose proof (NoDup_fst_map_iter (votes s)) as Hnd.
    destruct (map_iter (votes s)) as [|a [|b r]]; cbn in *; [lia|lia|].
    apply NoDup_cons in Hnd as [Hn _]. apply Hn. rewrite (Hall a), (Hall b); [left|right; left|left]. }
  destruct (first_min_nonempty (λ kv : IpAddr * AddrVotes, last_update kv.2) opt_le l Hl) as ([k v] & Hk). rewrite Hk in Hv. cbn in Hv.
  injection Hv as ->. apply first_min_elem, elem_of_retain in Hk as [Hk _]. cbn in Hk. rewrite Hip, bool_decide_eq_true_2 in Hk; done.
Qed.
Lemma make_room_ok h ip s :
  obs_ok h s →
  let s' := make_vote_room ip s in
  obs_ok h s' ∧ confirmed_ip s' = confirmed_ip s ∧ lapsed s' = lapsed s ∧
  (size (votes s') < MAX_TRACKED_ADDRS ∨ is_Some (votes s' !! ip)) ∧
  (∀ k, votes s' !! k = votes s !! k ∨ votes s' !! k = None ∧ confirmed_ip s ≠ Some k ∧ k ≠ ip) ∧ confirmed_backers s' = confirmed_backers s.
Proof.
  intros [O1 O2 O3 O4]. unfold make_vote_room.
  destruct (bool_decide_reflect (MAX_TRACKED_ADDRS ≤ size (votes s))) as [Hfull|Hroom]; cbn [andb].
  2:{ cbv zeta. split; [done|]. repeat (split; [done|]). split; [left; lia|]. split; [intros k; by left|done]. }
  case_bool_decide as Hip.
  2:{ cbv zeta. split; [done|]. repeat (split; [done|]). split; [right; by apply not_eq_None_Some|]. split; [intros k; by left|done]. }
  destruct (vote_victim s) as [k|] eqn:Hk.
  - pose proof (room_victim s k Hk) as Hin.
    assert (∀ c, confirmed_ip s = Some c → k ≠ c) as Hsp.
    { intros c Hc. eapply room_spares_confirmed; [|done|done]. unfold MAX_TRACKED_ADDRS in Hfull. lia. }
    assert (k ≠ ip) as Hne by (intros ->; rewrite Hip in Hin; by destruct Hin).
    assert (size (delete k (votes s)) < MAX_TRACKED_ADDRS) as Hsz.
    { rewrite map_size_delete. destruct Hin as [v ->]. unfold MAX_TRACKED_ADDRS in *. lia. }
    cbv zeta. split; [|split; [done|split; [done|]]].
    + split; cbn [votes set_votes confirmed_ip confirmed_backers]; [| |lia|done].
      * intros ip' v net at_ port [_ Hv]%lookup_delete_Some. by eapply O1.
      * intros ip' Hc. unfold backing. cbn. rewrite lookup_delete_ne by (by apply Hsp). by apply O2.
    + split; [by left|]. split; [|done]. intros k'. cbn. destruct (decide (k' = k)) as [->|Hn].
      * right. rewrite lookup_delete_eq. split; [done|]. split; [|done]. intros Hc. by apply (Hsp k Hc).
      * left. by rewrite lookup_delete_ne.
  - exfalso. unfold vote_victim in Hk. destruct (fst <$> first_min _ _ (retain _ _)); [done|].
    assert (map_iter (votes s) ≠ []) as Hne.
    { intros E. pose proof (length_map_iter (votes s)) as Hl. rewrite E in Hl. cbn in Hl. unfold MAX_TRACKED_ADDRS in Hfull. lia. }
    destruct (first_min_nonempty (λ kv : IpAddr * AddrVotes, last_update kv.2) opt_le _ Hne) as [x Hx]. rewrite Hx in Hk. done.
Qed.

(** ** A vote *)
Lemma cast_lookup ip net port now s k :
  votes (cast_vote ip net port now s) !! k =
  if decide (k = ip) then Some (mkVotes (<[net := (now, port)]> (nets (default AddrVotes_default (votes s !! ip)))) (Some now))
  else votes s !! k.
Proof. unfold cast_vote. cbn. case_decide; [subst; apply lookup_insert_eq|by apply lookup_insert_ne]. Qed.
Lemma cast_backing ip net port now s k : backing k s ≤ backing k (cast_vote ip net port now s).
Proof.
  unfold backing. rewrite cast_lookup. case_decide; [subst|done]. cbn [nets]. rewrite map_size_insert.
  destruct (votes s !! ip) as [v|]; cbn [default from_option nets AddrVotes_default]; [|lia].
  change (default AddrVotes_default (Some v)) with v. case_match; unfold id; lia.
Qed.
Lemma counted_mono h h' m : counted_votes h m → h ⊆ h' → counted_votes h' m.
Proof. intros Hc Hs ip v net at_ port Hv Hn. destruct (Hc ip v net at_ port Hv Hn) as (x & Hx & ?). exists x. split; [by apply Hs|done]. Qed.
Lemma cast_ok h x s :
  let ip := addr_ip (v_reported x) in
  obs_ok h s → admissible x → (size (votes s) < MAX_TRACKED_ADDRS ∨ is_Some (votes s !! ip)) →
  obs_ok (x :: h) (cast_vote ip (reporter_net (v_reporter x)) (addr_port (v_reported x)) (v_at x) s).
Proof.
  intros ip [O1 O2 O3 O4] Hx Hroom. split.
  - intros k v net at_ port. rewrite cast_lookup. case_decide as Hk; [subst k|].
    + intros [= <-]. cbn [nets]. intros [[<- [= <- <-]]|[Hne Hn]]%lookup_insert_Some; [exists x; split; [left|done]|].
      destruct (votes s !! ip) as [v0|] eqn:E; cbn in Hn; [|by rewrite lookup_empty in Hn].
      destruct (O1 ip v0 net at_ port E Hn) as (y & Hy & ?). exists y. split; [by right|done].
    + intros Hv Hn. destruct (O1 k v net at_ port Hv Hn) as (y & Hy & ?). exists y. split; [by right|done].
  - intros k Hk. etransitivity; [|apply cast_backing]. by apply O2.
  - unfold cast_vote. cbn [votes set_votes]. rewrite map_size_insert. destruct (votes s !! ip) as [v|] eqn:E.
    + unfold id. done.
    + destruct Hroom as [?|[? ?]]; [lia|done].
  - done.
Qed.
Lemma note_backer_ok h net now n s :
  obs_ok h s → obs_ok h (note_backer net now n s) ∧ votes (note_backer net now n s) = votes s ∧
  confirmed_ip (note_backer net now n s) = confirmed_ip s ∧ lapsed (note_backer net now n s) = lapsed s.
Proof.
  intros [O1 O2 O3 O4]. split; [|done]. split; try done. unfold note_backer. cbn [confirmed_backers set_backing].
  set (b := confirmed_backers s) in *. destruct (bool_decide_reflect (MAX_TRACKED_BACKERS ≤ size b)) as [Hfull|Hroom]; cbn [andb].
  2:{ rewrite map_size_insert. case_match; unfold id; lia. }
  case_bool_decide as Hn; [|rewrite map_size_insert_Some by (by apply not_eq_None_Some); done].
  assert (map_iter b ≠ []) as Hne.
  { intros E. pose proof (length_map_iter b) as Hl. rewrite E in Hl. cbn in Hl. unfold MAX_TRACKED_BACKERS in *. lia. }
  destruct (first_min_nonempty (λ kv : ReporterNet * Z, kv.2) Z.leb _ Hne) as ([k t] & Hk). rewrite Hk.
  apply first_min_elem, elem_of_map_iter in Hk.
  rewrite map_size_insert_None by (rewrite lookup_delete_None; by right). rewrite map_size_delete, Hk. unfold MAX_TRACKED_BACKERS in *. lia.
Qed.
Lemma take_over_ok h ip n s :
  obs_ok h s → MIN_OBSERVED_IP_VOTES ≤ backing ip s →
  obs_ok h (take_over ip n s) ∧ votes (take_over ip n s) = votes s ∧ confirmed_ip (take_over ip n s) = Some ip.
Proof.
  intros [O1 O2 O3 O4] Hq. split; [|done]. unfold take_over. apply refresh_ok. split; try done.
  - by intros k [= <-].
  - apply size_list_to_map_take.
Qed.

(** The state the rules of a vote are applied to, and the state they are judged in. *)
Definition before (x : vote) (s : EmberObservedIpVotes) : EmberObservedIpVotes := prune (v_at x) s.
Definition ballot (x : vote) (s : EmberObservedIpVotes) : EmberObservedIpVotes :=
  let ip := addr_ip (v_reported x) in
  cast_vote ip (reporter_net (v_reporter x)) (addr_port (v_reported x)) (v_at x) (make_vote_room ip (before x s)).
Definition moves (x : vote) (s : EmberObservedIpVotes) : bool :=
  let ip := addr_ip (v_reported x) in
  bool_decide (MIN_OBSERVED_IP_VOTES ≤ backing ip (ballot x s)) && negb (bool_decide (confirmed_ip (before x s) = Some ip))
  && displaces ip (backing ip (ballot x s)) (ballot x s).

Lemma ballot_ok h x s :
  obs_ok h s → admissible x →
  obs_ok (x :: h) (ballot x s) ∧ confirmed_ip (ballot x s) = confirmed_ip (before x s) ∧ lapsed (ballot x s) = lapsed (before x s) ∧
  young (v_at x) (votes (ballot x s)).
Proof.
  intros Hs Hx. apply (prune_ok h (v_at x)) in Hs. fold (before x s) in Hs.
  destruct (make_room_ok h (addr_ip (v_reported x)) (before x s) Hs) as (Hs1 & E1 & E2 & Hroom & Hv & _). cbv zeta in *.
  split; [by apply cast_ok|]. split; [done|]. split; [done|].
  intros k v net at_ port. unfold ballot. rewrite cast_lookup.
  assert (∀ k v net at_ port, votes (make_vote_room (addr_ip (v_reported x)) (before x s)) !! k = Some v → nets v !! net = Some (at_, port) →
    (age_of (v_at x) at_ < VOTE_TTL)%Z) as Hold.
  { intros k' v' net' a' p' Hv' Hn'. destruct (Hv k') as [E|[E _]]; rewrite E in Hv'; [|done]. by eapply (prune_young (v_at x) s). }
  case_decide; [|apply Hold]. intros [= <-]. cbn [nets]. intros [[_ [= <- <-]]|[_ Hn]]%lookup_insert_Some.
  - unfold age_of, VOTE_TTL. lia.
  - destruct (votes _ !! addr_ip (v_reported x)) as [v0|] eqn:E; cbn in Hn; [by eapply Hold|by rewrite lookup_empty in Hn].
Qed.

(** What [record_vote_at] does with an admissible vote. *)
Lemma record_vote_spec h x s :
  obs_ok h s → admissible x →
  let '(r, s') := record_vote_at (v_reported x) (v_reporter x) (v_at x) s in
  obs_ok (x :: h) s' ∧ votes s' = votes (ballot x s) ∧
  (if moves x s then confirmed_ip s' = Some (addr_ip (v_reported x)) ∧ r = confirmed s'
   else confirmed_ip s' = confirmed_ip (before x s) ∧ r = None) ∧ (∀ ip, confirmed_ip s' = Some ip → is_Some (confirmed_port s')).
Proof.
  intros Hs Hx. destruct (ballot_ok h x s Hs Hx) as (Hb & E1 & E2 & _). unfold record_vote_at. destruct Hx as [-> ->]. cbn [negb].
  fold (before x s). set (ip := addr_ip (v_reported x)) in *. change (cast_vote _ _ _ _ _) with (ballot x s). cbv zeta.
  fold (backing ip (ballot x s)). set (n := backing ip (ballot x s)).
  set (s3 := if decide (confirmed_ip (ballot x s) = Some ip) then _ else _).
  assert (obs_ok (x :: h) s3 ∧ votes s3 = votes (ballot x s) ∧ confirmed_ip s3 = confirmed_ip (before x s) ∧ lapsed s3 = lapsed (ballot x s)) as (H3 & V3 & C3 & L3).
  { unfold s3. case_decide; [|by rewrite E1].
    destruct (note_backer_ok (x :: h) (reporter_net (v_reporter x)) (v_at x) n (ballot x s) Hb) as (? & ? & -> & ?). by rewrite E1. }
  assert (displaces ip n s3 = displaces ip n (ballot x s)) as Hd by (unfold displaces, rival_nets; by rewrite V3, C3, L3, E1).
  rewrite Hd, C3. unfold moves. fold ip n. clearbody s3.
  destruct (bool_decide _ && negb _ && _) eqn:Hm.
  - apply andb_true_iff in Hm as [[Hq%bool_decide_eq_true _]%andb_true_iff _].
    assert (MIN_OBSERVED_IP_VOTES ≤ backing ip s3) as Hq3 by (unfold backing; by rewrite V3).
    destruct (take_over_ok (x :: h) ip n s3 H3 Hq3) as (Ht & Vt & Ct). split; [done|]. split; [by rewrite Vt|]. split; [done|].
    intros ip' Hip'. unfold take_over. eapply refresh_port; [|reflexivity]. split; try apply H3; [by intros k [= <-]|].
    apply size_list_to_map_take.
  - split; [by apply refresh_ok|]. split; [done|]. split; [done|]. intros ip' Hip'. by eapply refresh_port.
Qed.

(** ** Runs *)
Lemma obs_ok_mono h h' s : obs_ok h s → h ⊆ h' → obs_ok h' s.
Proof. intros [O1 O2 O3 O4] Hs. split; [by eapply counted_mono|done..]. Qed.
Definition rejected (x : vote) : bool := negb (is_public_vote_addr (v_reported x)) || negb (is_public_reporter (v_reporter x)).
Lemma rejected_spec x : rejected x = false ↔ admissible x.
Proof. unfold rejected, admissible. rewrite orb_false_iff, !negb_false_iff. done. Qed.
Lemma rejected_vote x s : rejected x = true → record_vote_at (v_reported x) (v_reporter x) (v_at x) s = (None, s).
Proof. unfold rejected, record_vote_at. destruct (is_public_vote_addr _); [|done]. cbn [orb negb]. by intros ->. Qed.
Lemma run_obs_ok h o s : obs_ok h s → obs_ok (votes_of [o] ++ h) (run_obs s o).
Proof.
  intros Hs. destruct o as [x|now]; cbn; [|by apply prune_ok]. destruct (rejected x) eqn:Hr.
  - rewrite rejected_vote by done. eapply obs_ok_mono; [done|]. intros y ?. by right.
  - apply rejected_spec in Hr. pose proof (record_vote_spec h x s Hs Hr) as H. destruct (record_vote_at _ _ _ _). by destruct H.
Qed.
Lemma new_ok : obs_ok [] EmberObservedIpVotes_new.
Proof. split; cbn; [|done|rewrite map_size_empty; unfold MAX_TRACKED_ADDRS; lia|rewrite map_size_empty; unfold MAX_TRACKED_BACKERS; lia].
  intros ip v net at_ port. by rewrite lookup_empty. Qed.
Lemma votes_of_app os os' : votes_of (os ++ os') = votes_of os ++ votes_of os'.
Proof. apply omap_app. Qed.
Definition reach (os : list obs_op) : EmberObservedIpVotes := foldl run_obs EmberObservedIpVotes_new os.
Lemma reach_snoc os o : reach (os ++ [o]) = run_obs (reach os) o.
Proof. unfold reach. by rewrite foldl_app. Qed.
Lemma reach_ok os : obs_ok (votes_of os) (reach os).
Proof.
  induction os as [|o os IH] using rev_ind; [apply new_ok|]. rewrite reach_snoc, votes_of_app.
  eapply obs_ok_mono; [by apply run_obs_ok|]. intros x. rewrite !elem_of_app. tauto.
Qed.

(** Operations that touch the state: an expiry, or a vote the rules accept. *)
Definition effective (o : obs_op) : bool := match o with ObsVote x => negb (rejected x) | ObsExpire _ => true end.
Lemma run_young h o s : obs_ok h s → effective o = true → young (op_time o) (votes (run_obs s o)).
Proof.
  intros Hs He. destruct o as [x|now]; cbn; [|apply prune_young]. apply negb_true_iff, rejected_spec in He.
  pose proof (record_vote_spec h x s Hs He) as H. destruct (record_vote_at _ _ _ _) as [r s']. destruct H as (_ & Hv & _). cbn.
  rewrite Hv. by eapply ballot_ok.
Qed.

Lemma refresh_ok_inv h s : obs_ok h (refresh_confirmed_port s) → obs_ok h s.
Proof. by intros [O1 O2 O3 O4]. Qed.
Lemma expire_port h now s ip : obs_ok h s → confirmed_ip (expire now s) = Some ip → is_Some (confirmed_port (expire now s)).
Proof.
  intros Hs Hip. apply (prune_ok h now) in Hs. unfold expire, prune in *. cbv zeta in *.
  eapply refresh_port; [by eapply refresh_ok_inv|done].
Qed.

(** One vote for every network counted. *)
Lemma ballots (Q : ReporterNet → vote → Prop) (l : list (ReporterNet * (Z * Z))) :
  NoDup l.*1 → (∀ net at_ port, (net, (at_, port)) ∈ l → ∃ x, reporter_net (v_reporter x) = net ∧ Q net x) →
  ∃ xs, length xs = length l ∧ NoDup ((λ x, reporter_net (v_reporter x)) <$> xs) ∧
    (∀ x, x ∈ xs → Q (reporter_net (v_reporter x)) x) ∧ (λ x, reporter_net (v_reporter x)) <$> xs ⊆ l.*1.
Proof.
  induction l as [|[net [t p]] l IH]; intros Hnd Hl.
  - exists []. split; [done|]. split; [constructor|]. split; [|done]. intros x Hx. by apply elem_of_nil in Hx.
  - apply NoDup_cons in Hnd as [Hn Hnd]. destruct IH as (xs & Hlen & Hxs & HQ & Hsub); [done| |].
    { intros n a b Hin. apply (Hl n a b). by right. }
    destruct (Hl net t p) as (x & Hx & HQx); [left|]. exists (x :: xs). cbn [length fmap list_fmap]. split; [by f_equal|].
    split; [apply NoDup_cons; split; [|done]; rewrite Hx; intros H; by apply Hn, Hsub|]. split.
    + intros y [->|Hy]%elem_of_cons; [by rewrite Hx|by apply HQ].
    + rewrite Hx. intros n [->|Hin]%elem_of_cons; [left|right; by apply Hsub].
Qed.
(** What stands behind an address: distinct networks, each with an accepted vote of its own, still young. *)
Definition quorum_for (h : list vote) (now : Z) (ip : IpAddr) (n : nat) : Prop :=
  ∃ xs, length xs = n ∧ NoDup ((λ x, reporter_net (v_reporter x)) <$> xs) ∧
    ∀ x, x ∈ xs → x ∈ h ∧ admissible x ∧ addr_ip (v_reported x) = ip ∧ (age_of now (v_at x) < VOTE_TTL)%Z.
Lemma backing_quorum h now s ip : obs_ok h s → young now (votes s) → quorum_for h now ip (backing ip s).
Proof.
  intros Hs Hy. unfold backing. destruct (votes s !! ip) as [v|] eqn:E.
  2:{ exists []. split; [done|]. split; [constructor|]. intros x Hx. by apply elem_of_nil in Hx. }
  destruct (ballots (λ _ x, x ∈ h ∧ admissible x ∧ addr_ip (v_reported x) = ip ∧ (age_of now (v_at x) < VOTE_TTL)%Z) (map_iter (nets v)))
    as (xs & Hlen & Hnd & HQ & _).
  - apply NoDup_fst_map_iter.
  - intros net t p Hin%elem_of_map_iter. destruct (o_counted h s Hs ip v net t p E Hin) as (x & Hx & Ha & Hip & Hn & Ht).
    exists x. repeat split; try done; try apply Ha. rewrite Ht. by eapply Hy.
  - exists xs. by rewrite Hlen, length_map_iter.
Qed.

(** An address is confirmed only on the word of a quorum, at every moment.
    After any sequence of votes and expiries ending in an operation that touched
    the state, a confirmed address has at least three votes behind it in the
    history, from three different networks, every one of them from a public
    reporter, for that public address, and younger than a quarter of an hour; and
    the answer to "what is our address" is that address with a port. *)
Theorem confirmation_has_quorum os o ip :
  effective o = true →
  confirmed_ip (reach (os ++ [o])) = Some ip →
  ∃ n, MIN_OBSERVED_IP_VOTES ≤ n ∧ quorum_for (votes_of (os ++ [o])) (op_time o) ip n ∧
    ∃ port, confirmed (reach (os ++ [o])) = Some (socket_addr_new ip port).
Proof.
  intros He Hip. pose proof (reach_ok os) as Hs. pose proof (reach_ok (os ++ [o])) as Hs'. exists (backing ip (reach (os ++ [o]))).
  split; [by apply (o_quorum _ _ Hs')|]. split.
  - apply backing_quorum; [done|]. rewrite reach_snoc. by eapply run_young.
  - unfold confirmed. rewrite Hip. cbn. assert (is_Some (confirmed_port (reach (os ++ [o])))) as [port ->]; [|by exists port].
    rewrite reach_snoc in Hip |- *. destruct o as [x|now]; cbn in *.
    + apply negb_true_iff, rejected_spec in He. pose proof (record_vote_spec _ x _ Hs He) as H.
      destruct (record_vote_at _ _ _ _) as [r s']. destruct H as (_ & _ & _ & Hp). by eapply Hp.
    + eapply expire_port; done.
Qed.

(** What a rival address needs, by what it stands against. *)
Definition outweighs (ip : IpAddr) (before after : EmberObservedIpVotes) : Prop :=
  match confirmed_ip before, lapsed before with
  | Some cur, _ => backing cur after < backing ip after
  | None, Some l =>
      l_addr l = ip ∨ peak l < backing ip after ∨
      MIN_OBSERVED_IP_VOTES ≤ count_if (λ x, bool_decide (x.1 ∈ backers l)) (rival_nets ip after)
  | None, None => True
  end.
Lemma displaces_spec ip s s' b :
  votes s' = votes s → confirmed_ip s = confirmed_ip b → lapsed s = lapsed b →
  displaces ip (backing ip s) s = true ↔ outweighs ip b s'.
Proof.
  intros Hv Hc Hl. unfold displaces, outweighs, backing, rival_nets. rewrite Hv, Hc, Hl.
  destruct (confirmed_ip b) as [cur|]; [by rewrite bool_decide_eq_true|].
  destruct (lapsed b) as [l|]; [|done]. destruct (decide (l_addr l = ip)) as [He|He]; [by split; [left|]|].
  rewrite orb_true_iff, !bool_decide_eq_true. tauto.
Qed.

(** When the confirmation moves.  A vote the rules accept first expires the
    book; it then moves the confirmation exactly when its address is not the
    confirmed one, has a quorum, and outweighs what it stands against: strictly
    more networks than the standing confirmation, or, where a confirmation lapsed,
    the lapsed address itself, more networks than it ever had, or a quorum of the
    networks that backed it.  A move confirms the address voted for and is
    reported with its port; every other vote reports nothing and leaves the
    confirmation alone, and a vote the rules refuse changes nothing. *)
Theorem confirmation_moves os x r s' :
  record_vote_at (v_reported x) (v_reporter x) (v_at x) (reach os) = (r, s') →
  let ip := addr_ip (v_reported x) in
  let b := expire (v_at x) (reach os) in
  if rejected x then r = None ∧ s' = reach os
  else
    (is_Some r ↔ confirmed_ip b ≠ Some ip ∧ MIN_OBSERVED_IP_VOTES ≤ backing ip s' ∧ outweighs ip b s') ∧
    (is_Some r → confirmed_ip s' = Some ip ∧ r = confirmed s') ∧
    (r = None → confirmed_ip s' = confirmed_ip b).
Proof.
  intros Hr ip b. destruct (rejected x) eqn:Hx; [rewrite rejected_vote in Hr by done; by injection Hr as <- <-|].
  apply rejected_spec in Hx. pose proof (reach_ok os) as Hs.
  destruct (ballot_ok _ x _ Hs Hx) as (_ & Hc & Hl & _). change (before x (reach os)) with b in Hc, Hl.
  pose proof (record_vote_spec _ x _ Hs Hx) as H. rewrite Hr in H. destruct H as (Hs' & Hv & Hm & Hp).
  assert (moves x (reach os) = true ↔ confirmed_ip b ≠ Some ip ∧ MIN_OBSERVED_IP_VOTES ≤ backing ip s' ∧ outweighs ip b s') as Hmv.
  { unfold moves. change (before x (reach os)) with b. fold ip.
    rewrite !andb_true_iff, negb_true_iff, bool_decide_eq_true, bool_decide_eq_false, (displaces_spec ip _ s' b Hv Hc Hl).
    unfold backing at 1. rewrite <- Hv. fold (backing ip s'). tauto. }
  destruct (moves x (reach os)); destruct Hm as [Hcf ->].
  - destruct (Hp _ Hcf) as [port Hport]. assert (is_Some (confirmed s')) as Hsm by (unfold confirmed; rewrite Hcf, Hport; by eexists).
    split; [tauto|]. split; [done|]. intros E. rewrite E in Hsm. by destruct Hsm.
  - split; [|split; [by intros [? ?]|done]]. split; [by intros [? ?]|]. intros H%Hmv. done.
Qed.
End votes.

(** ** Examples *)
Definition sample_vote (host net : Z) (t : Z) : vote :=
  mkVote (SocketAddrV4 (mkV4 93 184 216 host) 4662) (V4 (mkV4 81 2 net 9)) t.
Definition sample_history : list obs_op :=
  [ObsVote (sample_vote 34 1 0); ObsVote (sample_vote 34 2 10); ObsVote (sample_vote 34 2 20)].
Lemma confirmation_has_quorum_witness :
  confirmed_ip (reach sample_history) = None ∧
  ∃ n, MIN_OBSERVED_IP_VOTES ≤ n ∧
    quorum_for (votes_of (sample_history ++ [ObsVote (sample_vote 34 3 30)])) 30 (V4 (mkV4 93 184 216 34)) n ∧
    ∃ port, confirmed (reach (sample_history ++ [ObsVote (sample_vote 34 3 30)])) = Some (socket_addr_new (V4 (mkV4 93 184 216 34)) port).
Proof.
  split; [vm_compute; reflexivity|].
  apply (confirmation_has_quorum sample_history (ObsVote (sample_vote 34 3 30))); vm_compute; reflexivity.
Defined.
Lemma confirmation_moves_witness :
  let '(r, s') := record_vote_at (v_reported (sample_vote 34 3 30)) (v_reporter (sample_vote 34 3 30)) 30 (reach sample_history) in
  r = Some (SocketAddrV4 (mkV4 93 184 216 34) 4662) ∧ MIN_OBSERVED_IP_VOTES ≤ backing (V4 (mkV4 93 184 216 34)) s'.
Proof.
  destruct (record_vote_at _ _ _ _) as [r s'] eqn:E.
  pose proof (confirmation_moves sample_history (sample_vote 34 3 30) r s' E) as (Hr & _ & _).
  assert (r = Some (SocketAddrV4 (mkV4 93 184 216 34) 4662)) as Er by (vm_compute in E; congruence).
  split; [exact Er|]. destruct (proj1 Hr) as (_ & Hq & _); [rewrite Er; by eexists|exact Hq].
Defined.
