(* ===== verification/GapList.v ===== *)
(** * Byte ranges still missing

    The gap list of [PartTracker] ([network/ed2k/part_tracker.rs]), eMule's
    [m_gaplist]: the loops of [fill_range], [add_gap] and their kin over a sorted
    list of half-open ranges, and what they do to the set of missing bytes.  An
    offset is a [u64], here a [Z]. *)
From S2P Require Import Prelude.
Local Open Scope Z_scope.

Notation range := (Z * Z)%type.

(** ** [slice::partition_point] *)
Definition partition_point {A} (p : A → bool) (l : list A) : nat :=
  let cmp x := if p x then Lt else Gt in
  let base := binary_search_loop cmp l (length l) 0 (length l) in
  match l !! base with Some x => if p x then S base else base | None => 0%nat end.
(** Once the predicate fails it fails for the rest. *)
Definition prefix_true {A} (p : A → bool) (l : list A) : Prop :=
  ∀ i j x y, (i < j)%nat → l !! i = Some x → l !! j = Some y → p y = true → p x = true.
Lemma partition_point_spec {A} (p : A → bool) (l : list A) i x :
  prefix_true p l → l !! i = Some x → p x = true ↔ (i < partition_point p l)%nat.
Proof.
  intros Hp Hx. assert (i < length l)%nat as Hi by (by eapply lookup_lt_Some).
  set (cmp := λ x, if p x then Lt else Gt).
  assert (search_ordered cmp l) as Hord.
  { intros a b y z Hab Hy Hz. unfold cmp. split.
    - destruct (p y) eqn:Ey; [done|]. destruct (p z) eqn:Ez; [|done]. by rewrite (Hp a b y z) in Ey.
    - destruct (p z) eqn:Ez; [|done]. by rewrite (Hp a b y z). }
  destruct (binary_search_loop_spec cmp l Hord (length l) 0 (length l)) as (Hb & Hgt & Hnot); [lia..| |by left|].
  { intros j y Hj Hy. apply lookup_lt_Some in Hy. lia. }
  unfold partition_point. fold cmp. set (b := binary_search_loop cmp l (length l) 0 (length l)) in *.
  destruct (lookup_lt_is_Some_2 l b Hb) as [y Hy]. rewrite Hy.
  assert (∀ j z, (b < j)%nat → l !! j = Some z → p z = false) as Hfalse.
  { intros j z Hj Hz. specialize (Hgt j z Hj Hz). unfold cmp in Hgt. by destruct (p z). }
  destruct (p y) eqn:Ey.
  - split.
    + intros Hpx. destruct (decide (b < i)%nat) as [Hlt|]; [|lia]. by rewrite (Hfalse i x Hlt Hx) in Hpx.
    + intros Hle. destruct (decide (i = b)) as [->|]; [congruence|]. by apply (Hp i b x y); [lia|..].
  - destruct Hnot as [E0|(z & Hz & Hzc)].
    + rewrite E0 in *. split; [|lia]. intros Hpx. destruct i as [|i]; [congruence|]. rewrite (Hfalse (S i) x) in Hpx; [done|lia|done].
    + unfold cmp in Hzc. assert (z = y) as -> by congruence. by rewrite Ey in Hzc.
Qed.

(** ** The loops *)

(** [fill_range]: what is left of a gap, and how much of it was filled. *)
Definition cut_gap (start stop : Z) (g : range) : list range :=
  let '(gs, ge) := g in
  if (ge <=? start) || (stop <=? gs) then [(gs, ge)]
  else (if gs <? start then [(gs, start)] else []) ++ (if stop <? ge then [(stop, ge)] else []).
Definition overlap (start stop : Z) (g : range) : Z :=
  let '(gs, ge) := g in
  if (ge <=? start) || (stop <=? gs) then 0 else Z.min ge stop - Z.max gs start.
Definition cut_gaps (start stop : Z) (gs : list range) : list range := gs ≫= cut_gap start stop.
Definition overlap_bytes (start stop : Z) (gs : list range) : Z := foldr (λ g n, overlap start stop g + n) 0 gs.

(** [add_gap]: every gap the new one touches is merged into it. *)
Definition merge_step (acc : range * list range) (g : range) : range * list range :=
  let '((ms, me), out) := acc in
  let '(gs, ge) := g in
  if (ge <? ms) || (me <? gs) then ((ms, me), out ++ [(gs, ge)])
  else ((Z.min ms gs, Z.max me ge), out).
Definition range_le (a b : range) : bool := a.1 <=? b.1.
Definition insert_gap (start stop : Z) (gs : list range) : list range :=
  let '(m, out) := foldl merge_step ((start, stop), []) gs in
  stable_sort range_le (out ++ [m]).

(** [find_smallest_coalesce_candidate]. *)
Fixpoint smallest_between (i : nat) (gs : list range) (best : option (nat * Z)) : option (nat * Z) :=
  match gs with
  | a :: ((b :: _) as rest) =>
      let gap_between := Z.max 0 (b.1 - a.2) in
      let best := match best with
                  | None => Some (i, gap_between)
                  | Some (_, cur) => if gap_between <? cur then Some (i, gap_between) else best
                  end in
      smallest_between (S i) rest best
  | _ => best
  end.
Definition find_smallest_coalesce_candidate (gs : list range) : option nat := fst <$> smallest_between 0 gs None.

(** [fillable_subranges]. *)
Definition fillable (start stop : Z) (gs : list range) : list range :=
  if stop <=? start then []
  else omap (λ g : range, let '(gs, ge) := g in
    if (ge <=? start) || (stop <=? gs) then None
    else let s := Z.max gs start in
         let e := Z.min ge stop in
         if s <? e then Some (s, e) else None) gs.

(** ** The set of missing bytes *)
Definition inside (x : Z) (g : range) : bool := (g.1 <=? x) && (x <? g.2).
Definition missing (gs : list range) (x : Z) : bool := existsb (inside x) gs.

(** Sorted, not empty, not touching, within [lo] and [hi]. *)
Fixpoint gaps_ok (lo hi : Z) (gs : list range) : Prop :=
  match gs with
  | [] => True
  | (s, e) :: rest => lo ≤ s ∧ s < e ∧ e ≤ hi ∧ gaps_ok (e + 1) hi rest
  end.

Lemma inside_spec x g : inside x g = true ↔ g.1 ≤ x < g.2.
Proof. unfold inside. rewrite andb_true_iff, Z.leb_le, Z.ltb_lt. done. Qed.
Lemma missing_spec gs x : missing gs x = true ↔ ∃ g, g ∈ gs ∧ g.1 ≤ x < g.2.
Proof.
  unfold missing. rewrite existsb_exists. split; intros (g & Hg & Hx); exists g; (split; [by apply list_elem_of_In|by apply inside_spec]).
Qed.
Lemma missing_cons g gs x : missing (g :: gs) x = inside x g || missing gs x.
Proof. done. Qed.
Lemma missing_app gs gs' x : missing (gs ++ gs') x = missing gs x || missing gs' x.
Proof. apply existsb_app. Qed.
Lemma gaps_ok_weaken lo lo' hi gs : gaps_ok lo hi gs → lo' ≤ lo → gaps_ok lo' hi gs.
Proof. destruct gs as [|[s e] gs]; cbn; [done|]. intros (? & ? & ? & ?) ?. repeat split; try done; lia. Qed.
Lemma gaps_ok_bounds lo hi gs g : gaps_ok lo hi gs → g ∈ gs → lo ≤ g.1 ∧ g.1 < g.2 ∧ g.2 ≤ hi.
Proof.
  revert lo. induction gs as [|[s e] gs IH]; intros lo Hok Hg; [by apply elem_of_nil in Hg|].
  destruct Hok as (H1 & H2 & H3 & H4). apply elem_of_cons in Hg as [->|Hg]; [cbn; lia|].
  destruct (IH _ H4 Hg) as (? & ? & ?). lia.
Qed.
Lemma missing_bounds lo hi gs x : gaps_ok lo hi gs → missing gs x = true → lo ≤ x < hi.
Proof. intros Hok (g & Hg & Hx)%missing_spec. pose proof (gaps_ok_bounds lo hi gs g Hok Hg). lia. Qed.
Lemma missing_below lo hi gs x : gaps_ok lo hi gs → x < lo → missing gs x = false.
Proof. intros Hok Hx. destruct (missing gs x) eqn:E; [|done]. apply (missing_bounds lo hi) in E; [lia|done]. Qed.

(** * What the loops do to the missing bytes

    Each loop keeps the list sorted and separated and is a set operation on the bytes it
    covers; sums of lengths are numbers of bytes. *)
(** Decides a boolean equation between comparisons by cases on their outcome. *)
Ltac zcases :=
  repeat match goal with
  | |- context [Z.leb ?a ?b] => destruct (Z.leb_spec a b)
  | |- context [Z.ltb ?a ?b] => destruct (Z.ltb_spec a b)
  end; cbn in *; first [done | lia | by rewrite ?orb_true_r, ?orb_false_r, ?andb_false_r, ?andb_true_r].

(** ** Filling *)
Lemma cut_gap_missing start stop g x :
  start < stop → missing (cut_gap start stop g) x = inside x g && negb ((start <=? x) && (x <? stop)).
Proof.
  destruct g as [gs ge]. intros Hs. unfold cut_gap, inside. cbn [fst snd].
  destruct (Z.leb_spec ge start), (Z.leb_spec stop gs); cbn [orb]; [unfold missing, inside; cbn; zcases..|].
  rewrite missing_app. destruct (Z.ltb_spec gs start), (Z.ltb_spec stop ge); unfold missing, inside; cbn; zcases.
Qed.
Lemma cut_gaps_missing start stop gs x :
  start < stop → missing (cut_gaps start stop gs) x = missing gs x && negb ((start <=? x) && (x <? stop)).
Proof.
  intros Hs. induction gs as [|g gs IH]; [done|]. unfold cut_gaps in *. rewrite bind_cons, missing_app, IH, cut_gap_missing, missing_cons by done.
  by destruct (inside x g), (missing gs x), ((start <=? x) && (x <? stop)).
Qed.
Lemma cut_gap_ok start stop lo hi s e rest :
  start < stop → lo ≤ s → s < e → e ≤ hi → gaps_ok (e + 1) hi rest → gaps_ok lo hi (cut_gap start stop (s, e) ++ rest).
Proof.
  intros Hss H1 H2 H3 Hr. unfold cut_gap.
  destruct ((e <=? start) || (stop <=? s)) eqn:E; [cbn; by repeat split|].
  apply orb_false_iff in E. rewrite !Z.leb_gt in E.
  destruct (Z.ltb_spec s start), (Z.ltb_spec stop e); cbn; repeat split; try lia; try done;
    (eapply gaps_ok_weaken; [exact Hr|lia]).
Qed.
Lemma cut_gaps_ok start stop lo hi gs : start < stop → gaps_ok lo hi gs → gaps_ok lo hi (cut_gaps start stop gs).
Proof.
  intros Hs. revert lo. induction gs as [|[s e] gs IH]; intros lo; [done|]. intros (H1 & H2 & H3 & Hr).
  unfold cut_gaps. rewrite bind_cons. apply cut_gap_ok; try done. by apply IH.
Qed.

(** ** Opening *)

(** The merge as one pass over a sorted list. *)
Fixpoint widen (s e : Z) (gs : list range) : list range :=
  match gs with
  | [] => [(s, e)]
  | (gs1, ge1) :: rest =>
      if ge1 <? s then (gs1, ge1) :: widen s e rest
      else if e <? gs1 then (s, e) :: gs
      else widen (Z.min s gs1) (Z.max e ge1) rest
  end.
Lemma merge_tail lo hi ms me out gs :
  gaps_ok lo hi gs → me < lo → foldl merge_step ((ms, me), out) gs = ((ms, me), out ++ gs).
Proof.
  revert lo out. induction gs as [|[s e] gs IH]; intros lo out Hok Hlo; [cbn; by rewrite app_nil_r|].
  destruct Hok as (H1 & H2 & H3 & Hr). cbn [foldl merge_step]. rewrite (proj2 (Z.ltb_lt me s)) by lia. rewrite orb_true_r.
  rewrite (IH (e + 1)); [|done|lia]. by rewrite <- app_assoc.
Qed.
Lemma merge_widen lo hi s e out gs :
  gaps_ok lo hi gs → s < e →
  let '(m, out') := foldl merge_step ((s, e), out) gs in out' ++ [m] ≡ₚ out ++ widen s e gs.
Proof.
  revert lo s e out. induction gs as [|[gs1 ge1] gs IH]; intros lo s e out Hok Hse; [by cbn|].
  destruct Hok as (H1 & H2 & H3 & Hr). cbn [foldl merge_step widen].
  destruct (Z.ltb_spec ge1 s); cbn [orb].
  - specialize (IH (ge1 + 1) s e (out ++ [(gs1, ge1)]) Hr Hse). destruct (foldl _ _ _) as [m out']. rewrite IH. by rewrite <- app_assoc.
  - destruct (Z.ltb_spec e gs1).
    + rewrite (merge_tail (ge1 + 1) hi); [|done|lia]. rewrite <- !app_assoc. apply Permutation_app_head.
      symmetry. apply (Permutation_cons_append ((gs1, ge1) :: gs)).
    + apply (IH (ge1 + 1)); [done|lia].
Qed.
Lemma widen_ok lo hi s e gs : gaps_ok lo hi gs → lo ≤ s → s < e → e ≤ hi → gaps_ok lo hi (widen s e gs).
Proof.
  revert lo s e. induction gs as [|[gs1 ge1] gs IH]; intros lo s e Hok Hlo Hse Hhi; [cbn; by repeat split|].
  destruct Hok as (H1 & H2 & H3 & Hr). cbn [widen]. destruct (Z.ltb_spec ge1 s).
  - cbn. repeat split; try done. apply IH; [done|lia..].
  - destruct (Z.ltb_spec e gs1).
    + cbn. repeat split; try done; lia.
    + apply IH; [eapply gaps_ok_weaken; [done|lia]|lia..].
Qed.
Lemma widen_missing s e gs x :
  s < e → missing (widen s e gs) x = missing gs x || ((s <=? x) && (x <? e)).
Proof.
  revert s e. induction gs as [|[gs1 ge1] gs IH]; intros s e Hse; [cbn; unfold inside; by rewrite orb_false_r|].
  cbn [widen]. destruct (Z.ltb_spec ge1 s).
  - rewrite !missing_cons, IH by done. by rewrite orb_assoc.
  - destruct (Z.ltb_spec e gs1).
    + rewrite !missing_cons. unfold inside at 1. cbn [fst snd]. apply orb_comm.
    + rewrite IH by lia. rewrite missing_cons. unfold inside. cbn [fst snd]. destruct (missing gs x); zcases.
Qed.
Lemma gaps_ok_sorted lo hi gs : gaps_ok lo hi gs → StronglySorted (λ a b, range_le a b = true) gs.
Proof.
  revert lo. induction gs as [|[s e] gs IH]; intros lo Hok; [constructor|]. destruct Hok as (H1 & H2 & H3 & Hr).
  constructor; [by eapply IH|]. apply Forall_forall. intros g Hg. destruct (gaps_ok_bounds _ _ _ _ Hr Hg). apply Z.leb_le. cbn. lia.
Qed.
Lemma gaps_ok_fst_inj lo hi gs g g' : gaps_ok lo hi gs → g ∈ gs → g' ∈ gs → g.1 = g'.1 → g = g'.
Proof.
  revert lo. induction gs as [|[s e] gs IH]; intros lo Hok Hg Hg' E; [by apply elem_of_nil in Hg|]. destruct Hok as (H1 & H2 & H3 & Hr).
  apply elem_of_cons in Hg as [->|Hg], Hg' as [->|Hg']; [done|..]; [| |by eapply IH].
  - destruct (gaps_ok_bounds _ _ _ _ Hr Hg'). cbn in *. lia.
  - destruct (gaps_ok_bounds _ _ _ _ Hr Hg). cbn in *. lia.
Qed.
Lemma sort_gaps lo hi gs l : gaps_ok lo hi gs → gs ≡ₚ l → stable_sort range_le l = gs.
Proof.
  intros Hok Hp. apply stable_sort_unique; [..|by eapply gaps_ok_sorted|done].
  - intros x y. unfold range_le. rewrite !Z.leb_le. lia.
  - intros x y z. unfold range_le. rewrite !Z.leb_le. lia.
  - intros x y Hx Hy. unfold range_le. rewrite !Z.leb_le. rewrite <- Hp in Hx, Hy. intros ? ?. eapply gaps_ok_fst_inj; [exact Hok|done..|lia].
Qed.
Lemma insert_gap_widen lo hi s e gs :
  gaps_ok lo hi gs → lo ≤ s → s < e → e ≤ hi → insert_gap s e gs = widen s e gs.
Proof.
  intros Hok Hlo Hse Hhi. unfold insert_gap. pose proof (merge_widen lo hi s e [] gs Hok Hse) as Hp.
  destruct (foldl _ _ _) as [m out]. eapply sort_gaps; [by eapply widen_ok|by rewrite Hp].
Qed.
Lemma insert_gap_ok lo hi s e gs : gaps_ok lo hi gs → lo ≤ s → s < e → e ≤ hi → gaps_ok lo hi (insert_gap s e gs).
Proof. intros ? ? ? ?. erewrite insert_gap_widen by done. by apply widen_ok. Qed.
Lemma insert_gap_missing lo hi s e gs x :
  gaps_ok lo hi gs → lo ≤ s → s < e → e ≤ hi → missing (insert_gap s e gs) x = missing gs x || ((s <=? x) && (x <? e)).
Proof. intros ? ? ? ?. erewrite insert_gap_widen by done. by apply widen_missing. Qed.

(** Closing the run between two neighbours makes them one. *)
Lemma widen_joint lo hi a s1 e1 s2 e2 b :
  gaps_ok lo hi (a ++ (s1, e1) :: (s2, e2) :: b) → widen e1 s2 (a ++ (s1, e1) :: (s2, e2) :: b) = a ++ (s1, e2) :: b.
Proof.
  revert lo. induction a as [|[as1 ae1] a IH]; intros lo Hok.
  - cbn in Hok. destruct Hok as (H1 & H2 & H3 & H4 & H5 & H6 & Hb). cbn [app widen].
    rewrite (proj2 (Z.ltb_ge e1 e1)), (proj2 (Z.ltb_ge s2 s1)) by lia.
    rewrite (proj2 (Z.ltb_ge e2 _)), (proj2 (Z.ltb_ge _ s2)) by lia.
    replace (Z.min (Z.min e1 s1) s2) with s1 by lia. replace (Z.max (Z.max s2 e1) e2) with e2 by lia.
    destruct b as [|[bs be] b]; [done|]. cbn in Hb. destruct Hb as (? & ? & ? & ?). cbn [widen].
    rewrite (proj2 (Z.ltb_ge be s1)), (proj2 (Z.ltb_lt e2 bs)) by lia. done.
  - destruct Hok as (H1 & H2 & H3 & Hr). cbn [app widen].
    assert (ae1 < e1) as Hlt.
    { destruct (gaps_ok_bounds _ _ _ (s1, e1) Hr) as (? & ? & ?); [apply elem_of_app; right; left|]. cbn in *. lia. }
    rewrite (proj2 (Z.ltb_lt ae1 e1)) by done. f_equal. by eapply IH.
Qed.

(** ** The pair to join *)
Lemma smallest_between_bound i gs best j d :
  smallest_between i gs best = Some (j, d) → (∃ d', best = Some (j, d')) ∨ (i ≤ j ∧ S (j - i) < length gs)%nat.
Proof.
  revert i best. induction gs as [|a gs IH]; intros i best; [cbn; intros ->; left; by eexists|].
  destruct gs as [|b gs]; [cbn; intros ->; left; by eexists|].
  remember (b :: gs) as r eqn:Er. cbn [smallest_between]. rewrite Er at 1. cbn [smallest_between]. intros H.
  apply IH in H as [(d' & Hd)|Hd].
  - destruct best as [[k c]|]; [destruct (_ <? c)|]; [|left; by eexists|]; injection Hd as <- _; right; subst r; cbn; lia.
  - right. subst r. cbn in *. lia.
Qed.
Lemma smallest_between_some i a b gs best : is_Some (smallest_between i (a :: b :: gs) best).
Proof.
  revert i a b best. induction gs as [|c gs IH]; intros i a b best; [cbn; destruct best as [[? ?]|]; [destruct (_ <? _)|]; by eexists|].
  remember (b :: c :: gs) as r eqn:Er. cbn [smallest_between]. rewrite Er. cbv zeta. apply IH.
Qed.
Lemma coalesce_pair gs :
  (2 ≤ length gs)%nat → ∃ i a g1 g2 b, find_smallest_coalesce_candidate gs = Some i ∧ gs = a ++ g1 :: g2 :: b ∧ length a = i.
Proof.
  intros Hl. destruct gs as [|x [|y gs]]; cbn in Hl; [lia..|]. unfold find_smallest_coalesce_candidate.
  destruct (smallest_between_some 0 x y gs None) as [[i d] Hs]. rewrite Hs.
  apply smallest_between_bound in Hs as [(d' & ?)|(_ & Hi)]; [done|]. rewrite Nat.sub_0_r in Hi.
  set (l := x :: y :: gs) in *. destruct (lookup_lt_is_Some_2 l i ltac:(lia)) as [g1 H1].
  destruct (lookup_lt_is_Some_2 l (S i) ltac:(lia)) as [g2 H2].
  exists i, (take i l), g1, g2, (drop (S (S i)) l). split; [done|]. split; [|rewrite length_take; lia].
  rewrite <- (take_drop i l) at 1. f_equal. rewrite (drop_S l g1 i H1). f_equal. by apply drop_S.
Qed.

(** ** Counting *)
Definition gap_bytes (gs : list range) : Z := foldr (λ g n, g.2 - g.1 + n) 0 gs.
Lemma gap_bytes_cons g gs : gap_bytes (g :: gs) = g.2 - g.1 + gap_bytes gs.
Proof. done. Qed.
Lemma gap_bytes_app gs gs' : gap_bytes (gs ++ gs') = gap_bytes gs + gap_bytes gs'.
Proof. induction gs as [|g gs IH]; [done|]. rewrite <- app_comm_cons, !gap_bytes_cons, IH. lia. Qed.
Lemma gap_bytes_pos lo hi gs : gaps_ok lo hi gs → 0 ≤ gap_bytes gs.
Proof.
  revert lo. induction gs as [|[s e] gs IH]; intros lo; [done|]. intros (H1 & H2 & H3 & Hr). specialize (IH _ Hr).
  rewrite gap_bytes_cons. cbn [fst snd]. lia.
Qed.
Lemma gap_bytes_le lo hi gs : gaps_ok lo hi gs → lo ≤ hi → gap_bytes gs ≤ hi - lo.
Proof.
  revert lo. induction gs as [|[s e] gs IH]; intros lo; [cbn; lia|]. intros (H1 & H2 & H3 & Hr) _.
  assert (gaps_ok e hi gs) as Hr' by (eapply gaps_ok_weaken; [done|lia]). specialize (IH e Hr' ltac:(lia)).
  rewrite gap_bytes_cons. cbn [fst snd]. lia.
Qed.
Lemma cut_gap_bytes start stop s e : start < stop → s < e → gap_bytes (cut_gap start stop (s, e)) = e - s - overlap start stop (s, e).
Proof.
  intros Hs He. unfold cut_gap, overlap. destruct (Z.leb_spec e start), (Z.leb_spec stop s); cbn [orb]; [cbn; lia..|].
  rewrite gap_bytes_app. destruct (Z.ltb_spec s start), (Z.ltb_spec stop e); cbn; lia.
Qed.
Lemma cut_gaps_bytes start stop lo hi gs :
  start < stop → gaps_ok lo hi gs → gap_bytes (cut_gaps start stop gs) = gap_bytes gs - overlap_bytes start stop gs.
Proof.
  intros Hs. revert lo. induction gs as [|[s e] gs IH]; intros lo; [done|]. intros (H1 & H2 & H3 & Hr).
  unfold cut_gaps. rewrite bind_cons, gap_bytes_app, cut_gap_bytes by lia. rewrite gap_bytes_cons. cbn [overlap_bytes foldr fst snd].
  fold (overlap_bytes start stop gs). specialize (IH _ Hr). unfold cut_gaps in IH. lia.
Qed.
Lemma overlap_pos start stop s e : start < stop → s < e → 0 ≤ overlap start stop (s, e).
Proof. intros. unfold overlap. destruct (Z.leb_spec e start), (Z.leb_spec stop s); cbn; lia. Qed.
Lemma overlap_bytes_pos start stop lo hi gs : start < stop → gaps_ok lo hi gs → 0 ≤ overlap_bytes start stop gs.
Proof.
  intros Hs. revert lo. induction gs as [|[s e] gs IH]; intros lo; [done|]. intros (H1 & H2 & H3 & Hr). specialize (IH _ Hr).
  pose proof (overlap_pos start stop s e Hs H2). cbn [overlap_bytes foldr]. fold (overlap_bytes start stop gs). lia.
Qed.
(** Nothing filled: nothing changed. *)
Lemma overlap_none start stop lo hi gs :
  start < stop → gaps_ok lo hi gs → overlap_bytes start stop gs = 0 → cut_gaps start stop gs = gs.
Proof.
  intros Hs. revert lo. induction gs as [|[s e] gs IH]; intros lo; [done|]. intros (H1 & H2 & H3 & Hr).
  cbn [overlap_bytes foldr]. fold (overlap_bytes start stop gs). intros E.
  pose proof (overlap_pos start stop s e Hs H2). pose proof (overlap_bytes_pos start stop _ _ gs Hs Hr).
  unfold cut_gaps. rewrite bind_cons. change (gs ≫= cut_gap start stop) with (cut_gaps start stop gs).
  rewrite (IH _ Hr) by lia. assert (overlap start stop (s, e) = 0) as E0 by lia.
  unfold cut_gap, overlap in *. destruct ((e <=? start) || (stop <=? s)) eqn:Ec; [done|].
  apply orb_false_iff in Ec. rewrite !Z.leb_gt in Ec. lia.
Qed.

Lemma count_if_ext {A} (p q : A → bool) l : (∀ x, x ∈ l → p x = q x) → count_if p l = count_if q l.
Proof. intros H. unfold count_if. by rewrite (retain_ext p q l H). Qed.
Lemma count_if_seqZ_all (p : Z → bool) a n : 0 ≤ n → (∀ x, a ≤ x < a + n → p x = true) → count_if p (seqZ a n) = Z.to_nat n.
Proof.
  intros Hn Hp. unfold count_if. rewrite retain_all; [apply length_seqZ|]. apply Forall_forall. intros x Hx%elem_of_seqZ. by apply Hp.
Qed.
Lemma count_if_seqZ_none (p : Z → bool) a n : (∀ x, a ≤ x < a + n → p x = false) → count_if p (seqZ a n) = 0%nat.
Proof. intros Hp. apply count_if_none, Forall_forall. intros x Hx%elem_of_seqZ. by apply Hp. Qed.
(** The sum of the lengths is the number of missing bytes. *)
Lemma gap_bytes_count lo hi gs :
  gaps_ok lo hi gs → lo ≤ hi → gap_bytes gs = Z.of_nat (count_if (missing gs) (seqZ lo (hi - lo))).
Proof.
  revert lo. induction gs as [|[s e] gs IH]; intros lo Hok Hlo.
  - rewrite count_if_seqZ_none; done.
  - destruct Hok as (H1 & H2 & H3 & Hr). assert (gaps_ok e hi gs) as Hr' by (eapply gaps_ok_weaken; [done|lia]).
    replace (hi - lo) with ((s - lo) + ((e - s) + (hi - e))) by lia. rewrite !seqZ_app by lia.
    replace (lo + (s - lo)) with s by lia. replace (s + (e - s)) with e by lia. rewrite !count_if_app.
    rewrite (count_if_seqZ_none _ lo), (count_if_seqZ_all _ s).
    + rewrite gap_bytes_cons, (IH e Hr' H3). cbn [fst snd].
      rewrite (count_if_ext (missing ((s, e) :: gs)) (missing gs) (seqZ e (hi - e))); [lia|]. intros x Hx%elem_of_seqZ. rewrite missing_cons. unfold inside. cbn.
      rewrite (proj2 (Z.ltb_ge x e)) by lia. by rewrite andb_false_r.
    + lia.
    + intros x Hx. rewrite missing_cons. assert (inside x (s, e) = true) as -> by (apply inside_spec; cbn; lia). done.
    + intros x Hx. rewrite missing_cons. assert (inside x (s, e) = false) as ->.
      { unfold inside. cbn. rewrite (proj2 (Z.leb_gt s x)) by lia. done. }
      cbn. by apply (missing_below (e + 1) hi); [|lia].
Qed.

(** ** Searching *)
Lemma gaps_ok_lookup lo hi gs i j x y :
  gaps_ok lo hi gs → (i < j)%nat → gs !! i = Some x → gs !! j = Some y → x.2 < y.1.
Proof.
  revert lo i j. induction gs as [|[s e] gs IH]; intros lo i j Hok Hij Hx Hy; [done|].
  destruct Hok as (H1 & H2 & H3 & Hr). destruct j as [|j]; [lia|]. cbn in Hy. destruct i as [|i].
  - injection Hx as <-. destruct (gaps_ok_bounds _ _ _ y Hr) as (? & ? & ?); [by eapply list_elem_of_lookup_2|]. cbn. lia.
  - by apply (IH (e + 1) i j); [|lia|..].
Qed.
Lemma gap_ends_prefix lo hi start gs : gaps_ok lo hi gs → prefix_true (λ g : range, g.2 <=? start) gs.
Proof.
  intros Hok i j x y Hij Hx Hy. rewrite !Z.leb_le. intros Hle. pose proof (gaps_ok_lookup _ _ _ _ _ _ _ Hok Hij Hx Hy).
  destruct (gaps_ok_bounds _ _ _ y Hok) as (? & ? & ?); [by eapply list_elem_of_lookup_2|]. lia.
Qed.
(** The gap at the partition point starts before [stop] exactly when a byte of the range is missing. *)
Lemma reaching_gap lo hi start stop gs i :
  gaps_ok lo hi gs → start < stop →
  (∀ j g, gs !! j = Some g → g.2 ≤ start ↔ (j < i)%nat) →
  (match gs !! i with Some g => g.1 <? stop | None => false end) = true ↔
  ∃ x, start ≤ x < stop ∧ missing gs x = true.
Proof.
  intros Hok Hs Hi. split.
  - destruct (gs !! i) as [[s e]|] eqn:E; [|done]. cbn. rewrite Z.ltb_lt. intros Hlt.
    destruct (gaps_ok_bounds _ _ _ (s, e) Hok) as (H1 & H2 & H3); [by eapply list_elem_of_lookup_2|]. cbn in *.
    pose proof (Hi i (s, e) E) as He. cbn in He.
    exists (Z.max s start). split; [lia|]. apply missing_spec. exists (s, e). split; [by eapply list_elem_of_lookup_2|]. cbn. lia.
  - intros (x & Hx & (g & [j Hj]%list_elem_of_lookup & Hg)%missing_spec).
    assert (i ≤ j)%nat as Hij. { destruct (decide (j < i)%nat) as [Hlt|]; [|lia]. apply (Hi j g Hj) in Hlt. lia. }
    assert (i < length gs)%nat as Hlen by (apply lookup_lt_Some in Hj; lia).
    destruct (lookup_lt_is_Some_2 gs i Hlen) as [g' Hg']. rewrite Hg'. apply Z.ltb_lt.
    assert (g'.1 ≤ g.1); [|lia]. destruct (decide (i = j)) as [->|Hne]; [assert (g = g') as -> by congruence; lia|].
    pose proof (gaps_ok_lookup lo hi gs i j g' g Hok ltac:(lia) Hg' Hj).
    destruct (gaps_ok_bounds _ _ _ g' Hok) as (? & ? & ?); [by eapply list_elem_of_lookup_2|]. lia.
Qed.
