(* ===== verification/PartTracker.v ===== *)
(** * Bookkeeping of a partial download

    [PartTracker] of [network/ed2k/part_tracker.rs], one definition per method: the
    gaps of a [.part] file, the parts verified, claimed and being written, and
    the two process-wide statics every tracker shares, the verification epoch and
    the parts withdrawn since they were last verified ([Shared]).  A method that
    touches the statics takes and returns them.  Offsets and counters are [Z] with
    their [u64] or [u16] wrap-around or saturation; a path is its bytes; logging
    and the file system are elsewhere. *)
From S2P Require Import Prelude NodeId GapList.
Local Open Scope Z_scope.

Definition PARTSIZE : Z := 9728000.
Definition ED2K_MAX_WIRE_PARTS : Z := 65535.
Definition ED2K_MAX_FILE_SIZE_BYTES : Z := ED2K_MAX_WIRE_PARTS * PARTSIZE - 1.
Definition MAX_GAP_ENTRIES : Z := 8192.
Definition MAX_WRITE_RESERVATIONS : nat := 1024.
Definition MAX_IN_FLIGHT_PER_WORKER : nat := 64.
Definition IN_FLIGHT_TTL : Z := 180 * 1000000000.
Definition ZERO_HASH : bytes := replicate 16 0.

Definition u64_wrapping_inc (x : Z) : Z := (x + 1) mod 18446744073709551616.
(** [u64::div_ceil]. *)
Definition div_ceil (a b : Z) : Z := a / b + (if a mod b =? 0 then 0 else 1).

(** ** What every tracker shares *)
Record Shared := mkShared { epoch : Z; by_path : gmap bytes (gset nat); by_hash : gmap bytes (gset nat) }.
Definition Shared_init : Shared := mkShared 0 ∅ ∅.
Definition bump_verification_epoch (g : Shared) : Shared := mkShared (u64_wrapping_inc (epoch g)) (by_path g) (by_hash g).
Definition extend_at (k : bytes) (parts : list nat) (m : gmap bytes (gset nat)) : gmap bytes (gset nat) :=
  <[k := default ∅ (m !! k) ∪ list_to_set parts]> m.
Definition drop_at (k : bytes) (part : nat) (m : gmap bytes (gset nat)) : gmap bytes (gset nat) :=
  match m !! k with
  | Some s => let s := s ∖ {[part]} in if decide (s = ∅) then delete k m else <[k := s]> m
  | None => m
  end.
Definition usc_record (path hash : bytes) (parts : list nat) (g : Shared) : Shared :=
  match parts with
  | [] => g
  | _ => mkShared (epoch g) (extend_at path parts (by_path g))
           (if decide (hash = ZERO_HASH) then by_hash g else extend_at hash parts (by_hash g))
  end.
Definition usc_clear_part (path hash : bytes) (part : nat) (g : Shared) : Shared :=
  mkShared (epoch g) (drop_at path part (by_path g)) (drop_at hash part (by_hash g)).
Definition usc_clear_all (path hash : bytes) (g : Shared) : Shared :=
  mkShared (epoch g) (delete path (by_path g)) (delete hash (by_hash g)).
Definition usc_parts_for (path hash : bytes) (g : Shared) : list nat :=
  elements (default ∅ (by_path g !! path)) ++
  (if decide (hash = ZERO_HASH) then [] else elements (default ∅ (by_hash g !! hash))).

(** ** A tracker *)
Record PartTracker := mkTracker {
  file_size : Z;
  part_count : nat;
  gaps : list range;
  in_progress_claims : list Z;
  write_reservations : list range;
  in_flight_requests : gmap nat (list range * Z);
  met_path : bytes;
  file_hash : bytes;
  file_name : bytes;
  part_hashes : list bytes;
  part_verified : list bool;
  transferred : Z;
  file_hash_verified : bool;
  part_content_generation : list Z;
}.
Definition with_gaps t v := mkTracker (file_size t) (part_count t) v (in_progress_claims t) (write_reservations t)
  (in_flight_requests t) (met_path t) (file_hash t) (file_name t) (part_hashes t) (part_verified t) (transferred t)
  (file_hash_verified t) (part_content_generation t).
Definition with_claims t v := mkTracker (file_size t) (part_count t) (gaps t) v (write_reservations t)
  (in_flight_requests t) (met_path t) (file_hash t) (file_name t) (part_hashes t) (part_verified t) (transferred t)
  (file_hash_verified t) (part_content_generation t).
Definition with_reservations t v := mkTracker (file_size t) (part_count t) (gaps t) (in_progress_claims t) v
  (in_flight_requests t) (met_path t) (file_hash t) (file_name t) (part_hashes t) (part_verified t) (transferred t)
  (file_hash_verified t) (part_content_generation t).
Definition with_in_flight t v := mkTracker (file_size t) (part_count t) (gaps t) (in_progress_claims t) (write_reservations t)
  v (met_path t) (file_hash t) (file_name t) (part_hashes t) (part_verified t) (transferred t)
  (file_hash_verified t) (part_content_generation t).
(** The four fields a sidecar donates. *)
Definition with_identity t hash name hashes bytes_in := mkTracker (file_size t) (part_count t) (gaps t) (in_progress_claims t)
  (write_reservations t) (in_flight_requests t) (met_path t) hash name hashes (part_verified t) bytes_in
  (file_hash_verified t) (part_content_generation t).
Definition with_verified t v whole := mkTracker (file_size t) (part_count t) (gaps t) (in_progress_claims t) (write_reservations t)
  (in_flight_requests t) (met_path t) (file_hash t) (file_name t) (part_hashes t) v (transferred t)
  whole (part_content_generation t).
Definition with_generations t v := mkTracker (file_size t) (part_count t) (gaps t) (in_progress_claims t) (write_reservations t)
  (in_flight_requests t) (met_path t) (file_hash t) (file_name t) (part_hashes t) (part_verified t) (transferred t)
  (file_hash_verified t) v.

Definition tracked_part_count (size : Z) : option nat :=
  if size =? 0 then Some 0%nat
  else if ED2K_MAX_FILE_SIZE_BYTES <? size then None
  else Some (Z.to_nat (div_ceil size PARTSIZE)).
Definition all_missing (size : Z) : list range := if 0 <? size then [(0, size)] else [].
Definition blank_tracker (size : Z) (path hash : bytes) : PartTracker :=
  let n := default 0%nat (tracked_part_count size) in
  mkTracker size n (all_missing size) (replicate n 0) [] ∅ path hash [] [] (replicate n false) 0 false (replicate n 0).
Definition PartTracker_new_empty (size : Z) (path : bytes) : PartTracker := blank_tracker size path ZERO_HASH.
Definition set_file_hash (hash : bytes) t := with_identity t hash (file_name t) (part_hashes t) (transferred t).
Definition set_file_name (name : bytes) t := with_identity t (file_hash t) name (part_hashes t) (transferred t).
Definition set_part_hashes (hashes : list bytes) t := with_identity t (file_hash t) (file_name t) hashes (transferred t).
(** A packet arrived: the shared counter behind [transferred_counter]. *)
Definition count_transferred (n : Z) t :=
  with_identity t (file_hash t) (file_name t) (part_hashes t) ((transferred t + n) mod 18446744073709551616).

(** ** Withdrawn parts *)

(** What [delete_met] does to the state all trackers share; the rest of it, on the
    saves and the file, is in the component of the saves. *)
Definition delete_met_forget (t : PartTracker) (g : Shared) : Shared := usc_clear_all (met_path t) (file_hash t) g.
Definition record_unverified (parts : list nat) (t : PartTracker) (g : Shared) : Shared :=
  usc_record (met_path t) (file_hash t) parts g.
(** Publishes parts just withdrawn, and then moves the epoch. *)
Definition withdraw (cleared : list nat) (t : PartTracker) (g : Shared) : Shared :=
  match cleared with [] => g | _ => bump_verification_epoch (record_unverified cleared t g) end.
Definition verified_indices (flags : list bool) : list nat :=
  omap (λ p : nat * bool, if p.2 then Some p.1 else None) (imap pair flags).
Definition clear_part_hashes_and_verified (t : PartTracker) (g : Shared) : PartTracker * Shared :=
  let t' := with_verified (set_part_hashes [] t) (const false <$> part_verified t) false in
  (t', withdraw (verified_indices (part_verified t)) t' g).
Definition apply_pending_invalidations (g : Shared) (t : PartTracker) : PartTracker :=
  let parts := usc_parts_for (met_path t) (file_hash t) g in
  let cleared := existsb (λ p, match part_verified t !! p with Some b => b | None => false end) parts in
  with_verified t (foldl (λ v p, <[p := false]> v) (part_verified t) parts) (file_hash_verified t && negb cleared).

(** ** Parts *)
Definition part_range (t : PartTracker) (idx : nat) : range :=
  (Z.of_nat idx * PARTSIZE, Z.min ((Z.of_nat idx + 1) * PARTSIZE) (file_size t)).
Definition first_gap_reaching (t : PartTracker) (start : Z) : nat := partition_point (λ g : range, g.2 <=? start) (gaps t).
Definition gap_overlaps_from (t : PartTracker) (from : nat) (stop : Z) : bool :=
  match gaps t !! from with Some g => g.1 <? stop | None => false end.
Definition is_part_complete (t : PartTracker) (idx : nat) : bool :=
  if decide (part_count t ≤ idx)%nat then false
  else let '(start, stop) := part_range t idx in negb (gap_overlaps_from t (first_gap_reaching t start) stop).
Definition is_part_verified (t : PartTracker) (idx : nat) : bool := default false (part_verified t !! idx).

(** The parts a range touches, capped at [cap]: [first..=last.min(cap)]. *)
Definition touches (start stop : Z) (cap p : nat) : bool :=
  bool_decide (Z.to_nat (start / PARTSIZE) ≤ p ∧ p ≤ Nat.min (Z.to_nat ((stop - 1) / PARTSIZE)) cap)%nat.
Definition bump_content_generation (start stop : Z) (t : PartTracker) : PartTracker :=
  if stop <=? start then t
  else match part_content_generation t with
       | [] => t
       | gens => with_generations t (imap (λ p (x : Z), if touches start stop (length gens - 1) p then u64_wrapping_inc x else x) gens)
       end.
Definition generation_of (t : PartTracker) (idx : nat) : Z := default 0 (part_content_generation t !! idx).
Definition part_verdict_superseded (t : PartTracker) (idx : nat) (hashed_generation : Z) : bool :=
  negb (generation_of t idx =? hashed_generation) || is_part_verified t idx.

(** ** Opening gaps *)
Definition add_gap (start stop : Z) (t : PartTracker) : PartTracker :=
  let stop := Z.min stop (file_size t) in
  if stop <=? start then t
  else bump_content_generation start stop (with_gaps t (insert_gap start stop (gaps t))).
Definition mark_incomplete (idx : nat) (t : PartTracker) (g : Shared) : PartTracker * Shared :=
  let '(start, stop) := part_range t idx in
  let t := add_gap start stop t in
  match part_verified t !! idx with
  | Some v => (with_verified t (<[idx := false]> (part_verified t)) (file_hash_verified t), withdraw (if (v : bool) then [idx] else []) t g)
  | None => (t, g)
  end.
Definition invalidate_range (start stop : Z) (t : PartTracker) (g : Shared) : PartTracker * Shared :=
  let stop := Z.min stop (file_size t) in
  let t := add_gap start stop t in
  match part_verified t with
  | [] => (t, g)
  | flags =>
      if stop <=? start then (t, g)
      else
        let hit := touches start stop (part_count t - 1) in
        let cleared := retain hit (verified_indices flags) in
        (with_verified t (imap (λ p (v : bool), if hit p then false else v) flags) (file_hash_verified t), withdraw cleared t g)
  end.
Definition invalidate_unreadable (readable_len : Z) (t : PartTracker) (g : Shared) : PartTracker * Shared :=
  if readable_len <? file_size t then
    let '(t, g) := invalidate_range readable_len (file_size t) t g in
    (with_verified t (part_verified t) false, g)
  else (t, g).

(** ** Filling gaps *)

(** The loop that keeps the list within [MAX_GAP_ENTRIES]; each round joins two gaps. *)
Fixpoint coalesce (fuel : nat) (t : PartTracker) (g : Shared) (reopened : Z) : Z * PartTracker * Shared :=
  match fuel with
  | O => (reopened, t, g)
  | S fuel =>
      if MAX_GAP_ENTRIES <? Z.of_nat (length (gaps t)) then
        match find_smallest_coalesce_candidate (gaps t) with
        | None => (reopened, t, g)
        | Some i =>
            match gaps t !! i, gaps t !! S i with
            | Some a, Some b =>
                if b.1 <=? a.2 then (reopened, t, g)
                else let '(t, g) := invalidate_range a.2 b.1 t g in coalesce fuel t g (reopened + (b.1 - a.2))
            | _, _ => (reopened, t, g)
            end
        end
      else (reopened, t, g)
  end.
Definition fill_range (start stop : Z) (t : PartTracker) (g : Shared) : Z * PartTracker * Shared :=
  if stop <=? start then (0, t, g)
  else
    let newly_filled := overlap_bytes start stop (gaps t) in
    let t := with_gaps t (cut_gaps start stop (gaps t)) in
    let t := if 0 <? newly_filled then bump_content_generation start stop t else t in
    let '(reopened, t, g) := coalesce (length (gaps t)) t g 0 in
    (Z.max 0 (newly_filled - reopened), t, g).
Definition mark_complete (idx : nat) (t : PartTracker) (g : Shared) : PartTracker * Shared :=
  let '(start, stop) := part_range t idx in
  let '(_, t, g) := fill_range start stop t g in (t, g).
Definition fillable_subranges (t : PartTracker) (start stop : Z) : list range := fillable start stop (gaps t).

(** ** Verification *)
Definition set_part_verified (idx : nat) (t : PartTracker) (g : Shared) : PartTracker * Shared :=
  if decide (idx < length (part_verified t))%nat
  then (with_verified t (<[idx := true]> (part_verified t)) (file_hash_verified t), usc_clear_part (met_path t) (file_hash t) idx g)
  else (t, g).
Definition mark_file_hash_verified (t : PartTracker) (g : Shared) : PartTracker * Shared :=
  (with_verified t (const true <$> part_verified t) true, usc_clear_all (met_path t) (file_hash t) g).
Definition is_range_safe_to_serve (t : PartTracker) (start stop : Z) : bool :=
  if (stop <=? start) || (file_size t <? stop) || bool_decide (part_count t = 0%nat) then false
  else
    let first := Z.to_nat (start / PARTSIZE) in
    let last := Nat.min (Z.to_nat ((stop - 1) / PARTSIZE)) (part_count t - 1) in
    forallb (λ p, is_part_complete t p && is_part_verified t p) (seq first (S last - first)).

(** ** Progress *)
Definition all_complete (t : PartTracker) : bool := bool_decide (gaps t = []).
Definition in_progress_flags (t : PartTracker) : list bool := (λ c, 0 <? c) <$> in_progress_claims t.
Definition in_progress_part_count (t : PartTracker) : nat := count_if (λ c, 0 <? c) (in_progress_claims t).
Definition all_complete_and_settled (t : PartTracker) : bool := all_complete t && bool_decide (in_progress_part_count t = 0%nat).
Definition completed_count (t : PartTracker) : nat := count_if (is_part_complete t) (seq 0 (part_count t)).
Definition remaining_count (t : PartTracker) : nat := part_count t - completed_count t.
Definition sum_of {A} (f : A → Z) (l : list A) : Z := foldr (λ x n, f x + n) 0 l.
Definition completed_bytes (t : PartTracker) : Z := Z.max 0 (file_size t - sum_of (λ g : range, g.2 - g.1) (gaps t)).
Definition remaining_gap_bytes (t : PartTracker) : Z := sum_of (λ g : range, Z.max 0 (g.2 - g.1)) (gaps t).
Definition verified_bytes (t : PartTracker) : Z :=
  sum_of (λ i, let '(ps, pe) := part_range t i in Z.max 0 (pe - ps)) (retain (is_part_verified t) (seq 0 (part_count t))).
Definition progress_bytes (t : PartTracker) : Z :=
  let filled := completed_bytes t in
  if file_size t =? 0 then 0
  else if bool_decide (gaps t = []) && negb (forallb (λ v, v) (part_verified t))
  then Z.max (verified_bytes t) (Z.max 0 (file_size t - 1))
  else Z.min filled (file_size t).
(** [while gaps.get(gap_idx).is_some_and(|g| g.1 <= start) { gap_idx += 1 }], on the gaps from [gap_idx]. *)
Fixpoint skip_ended (start : Z) (gs : list range) : list range :=
  match gs with
  | g :: rest => if g.2 <=? start then skip_ended start rest else gs
  | [] => []
  end.
Fixpoint completed_walk (t : PartTracker) (parts : list nat) (gs : list range) : list bool :=
  match parts with
  | [] => []
  | p :: parts =>
      let '(start, stop) := part_range t p in
      let gs := skip_ended start gs in
      negb (match gs with g :: _ => g.1 <? stop | [] => false end) :: completed_walk t parts gs
  end.
Definition completed_parts (t : PartTracker) : list bool := completed_walk t (seq 0 (part_count t)) (gaps t).
Definition serveable_parts (t : PartTracker) : list bool := imap (λ p (c : bool), c && is_part_verified t p) (completed_parts t).
Definition part_gap_bytes_vec (t : PartTracker) : list Z :=
  foldl (λ acc (g : range),
    let '(gs, ge) := g in
    let hit p := bool_decide (Z.to_nat (gs / PARTSIZE) ≤ p ∧
                   p ≤ Nat.min (Z.to_nat (Z.max 0 (ge - 1) / PARTSIZE)) (part_count t - 1))%nat in
    imap (λ p (b : Z), if hit p then
                   let '(ps, pe) := part_range t p in
                   let os := Z.max gs ps in let oe := Z.min ge pe in
                   if os <? oe then b + (oe - os) else b
                 else b) acc)
    (replicate (part_count t) 0) (gaps t).

(** ** Claims, write reservations and outstanding requests *)
Definition claim_in_progress (idx : nat) (t : PartTracker) : PartTracker :=
  with_claims t (alter (λ c, Z.min 65535 (c + 1)) idx (in_progress_claims t)).
Definition release_in_progress (idx : nat) (t : PartTracker) : PartTracker :=
  with_claims t (alter (λ c, Z.max 0 (c - 1)) idx (in_progress_claims t)).

(** The parts of a candidate nobody has reserved; [blocked] is sorted. *)
Fixpoint carve (cursor stop : Z) (blocked : list range) : list range :=
  match blocked with
  | [] => if cursor <? stop then [(cursor, stop)] else []
  | (rs, re) :: rest =>
      if (re <=? cursor) || (stop <=? rs) then carve cursor stop rest
      else (if cursor <? rs then [(cursor, rs)] else []) ++ (if stop <=? re then [] else carve re stop rest)
  end.
(** The order of pairs. *)
Definition pair_le (a b : range) : bool := (a.1 <? b.1) || ((a.1 =? b.1) && (a.2 <=? b.2)).
Definition granted_subranges (start stop : Z) (t : PartTracker) : list range :=
  let blocked := stable_sort pair_le (retain (λ r : range, (r.1 <? stop) && (start <? r.2)) (write_reservations t)) in
  let granted := fillable_subranges t start stop ≫= λ c, carve c.1 c.2 blocked in
  take (MAX_WRITE_RESERVATIONS - length (write_reservations t)) granted.
Definition reserve_write_subranges (start stop : Z) (t : PartTracker) : list range * PartTracker :=
  match fillable_subranges t start stop with
  | [] => ([], t)
  | _ => let granted := granted_subranges start stop t in (granted, with_reservations t (write_reservations t ++ granted))
  end.
Definition release_write_reservation (start stop : Z) (t : PartTracker) : PartTracker :=
  match position (λ r : range, (r.1 =? start) && (r.2 =? stop)) (write_reservations t) with
  | Some pos => with_reservations t (swap_remove pos (write_reservations t))
  | None => t
  end.
Definition commit_write_reservation (start stop : Z) (t : PartTracker) (g : Shared) : Z * PartTracker * Shared :=
  fill_range start stop (release_write_reservation start stop t) g.

Definition publish_in_flight_requests (worker : nat) (ranges : list range) (now : Z) (t : PartTracker) : PartTracker :=
  match ranges with
  | [] => with_in_flight t (delete worker (in_flight_requests t))
  | _ => with_in_flight t (<[worker := (take MAX_IN_FLIGHT_PER_WORKER ranges, now)]> (in_flight_requests t))
  end.
Definition clear_in_flight_requests (worker : nat) (t : PartTracker) : PartTracker :=
  with_in_flight t (delete worker (in_flight_requests t)).
(** Sorted, so that the map's order does not show. *)
Definition requested_by_others (worker : nat) (now : Z) (t : PartTracker) : list range :=
  stable_sort pair_le
    (map_to_list (in_flight_requests t) ≫= λ x : nat * (list range * Z),
       if bool_decide (x.1 ≠ worker) && (Z.max 0 (now - x.2.2) <? IN_FLIGHT_TTL) then x.2.1 else []).

(** ** A part bitmap *)

(** One bit a part, the lowest bit of a byte first: [bytes[i / 8] |= 1 << (i % 8)]. *)
Definition set_bit (bitmap : bytes) (i : nat) : bytes := alter (λ b, Z.lor b (Z.shiftl 1 (Z.of_nat (i mod 8)))) (i / 8)%nat bitmap.
Definition pack_bitmap (bits : list bool) : bytes :=
  foldl set_bit (replicate ((length bits + 7) / 8) 0) (verified_indices bits).
Definition hex_digit (d : Z) : Z := if d <? 10 then 48 + d else 87 + d.
Definition pack_part_bitmap (bits : list bool) : bytes := pack_bitmap bits ≫= λ b, [hex_digit (b / 16); hex_digit (b mod 16)].
