(* ===== verification/PartInv.v ===== *)
(** * The tracker's invariant and what its operations do

    The gap list is sorted and separated, every per-part vector has one entry a
    part, and no byte is reserved twice; filling and opening a range are set
    operations on the missing bytes, and the queries answer from that set. *)
From S2P Require Import Prelude NodeId GapList PartTracker.
Local Open Scope Z_scope.

Record tracker_ok (t : PartTracker) : Prop := {
  k_size : 0 ≤ file_size t;
  k_count : part_count t = default 0%nat (tracked_part_count (file_size t));
  k_gaps : gaps_ok 0 (file_size t) (gaps t);
  k_claims : length (in_progress_claims t) = part_count t;
  k_verified : length (part_verified t) = part_count t;
  k_generations : length (part_content_generation t) = part_count t;
  k_claim_counts : Forall (λ c, 0 ≤ c ≤ 65535) (in_progress_claims t);
  k_nonempty : Forall (λ r : range, r.1 < r.2) (write_reservations t);
  k_exclusive : ∀ x, (count_if (inside x) (write_reservations t) ≤ 1)%nat;
  k_reservations : (length (write_reservations t) ≤ MAX_WRITE_RESERVATIONS)%nat;
}.
(** The byte is missing. *)
Definition lacks (t : PartTracker) (x : Z) : bool := missing (gaps t) x.
(** Verified parts are complete. *)
Definition verified_complete (t : PartTracker) : Prop := ∀ p, is_part_verified t p = true → is_part_complete t p = true.

(** Only the gaps, the flags and the generations moved. *)
Definition same_frame (t t' : PartTracker) : Prop :=
  file_size t' = file_size t ∧ part_count t' = part_count t ∧ in_progress_claims t' = in_progress_claims t ∧
  write_reservations t' = write_reservations t ∧ in_flight_requests t' = in_flight_requests t ∧ met_path t' = met_path t ∧
  file_hash t' = file_hash t ∧ file_name t' = file_name t ∧ part_hashes t' = part_hashes t ∧ transferred t' = transferred t.
Lemma same_frame_refl t : same_frame t t.
Proof. done. Qed.
Lemma same_frame_trans t1 t2 t3 : same_frame t1 t2 → same_frame t2 t3 → same_frame t1 t3.
Proof. unfold same_frame. intuition congruence. Qed.
Lemma frame_ok t t' :
  tracker_ok t → same_frame t t' → gaps_ok 0 (file_size t) (gaps t') → length (part_verified t') = length (part_verified t) →
  length (part_content_generation t') = length (part_content_generation t) → tracker_ok t'.
Proof.
  intros [K1 K2 K3 K4 K5 K6 K7 K8 K9 K10] (F1 & F2 & F3 & F4 & _) Hg Hv Hn. split; rewrite ?F1, ?F2, ?F3, ?F4, ?Hv, ?Hn; done.
Qed.

(** ** Parts and bytes *)
Lemma PARTSIZE_pos : 0 < PARTSIZE.
Proof. done. Qed.
Lemma div_ceil_bounds a b : 0 ≤ a → 0 < b → b * (div_ceil a b - 1) < a ∨ a = 0.
Proof.
  intros Ha Hb. unfold div_ceil. pose proof (Z.div_mod a b ltac:(lia)). pose proof (Z.mod_pos_bound a b Hb).
  destruct (Z.eqb_spec (a mod b) 0); [|left; nia]. destruct (Z.eq_dec a 0); [by right|left; nia].
Qed.
Lemma div_ceil_upper a b : 0 ≤ a → 0 < b → a ≤ b * div_ceil a b.
Proof.
  intros Ha Hb. unfold div_ceil. pose proof (Z.div_mod a b ltac:(lia)). pose proof (Z.mod_pos_bound a b Hb).
  destruct (Z.eqb_spec (a mod b) 0); nia.
Qed.
(** A part that is counted starts inside the file. *)
Lemma part_start t p : tracker_ok t → (p < part_count t)%nat → Z.of_nat p * PARTSIZE < file_size t.
Proof.
  intros Hok. rewrite (k_count t Hok). pose proof (k_size t Hok) as Hs. unfold tracked_part_count.
  destruct (Z.eqb_spec (file_size t) 0); [cbn; lia|]. destruct (_ <? _); [cbn; lia|]. cbn. intros Hp.
  destruct (div_ceil_bounds (file_size t) PARTSIZE Hs PARTSIZE_pos) as [Hb|]; [|done].
  set (d := div_ceil (file_size t) PARTSIZE) in *. pose proof PARTSIZE_pos. assert (Z.of_nat p ≤ d - 1) by lia. clearbody d. nia.
Qed.
Lemma part_range_ok t p : tracker_ok t → (p < part_count t)%nat → (part_range t p).1 < (part_range t p).2.
Proof. intros Hok Hp. pose proof (part_start t p Hok Hp). pose proof PARTSIZE_pos. cbn. lia. Qed.
(** Every byte of a file of a size that is tracked lies in a counted part. *)
Lemma part_of_byte t x :
  tracker_ok t → (0 < part_count t)%nat → 0 ≤ x < file_size t →
  let p := Z.to_nat (x / PARTSIZE) in (p < part_count t)%nat ∧ (part_range t p).1 ≤ x < (part_range t p).2.
Proof.
  intros Hok Hc Hx p. pose proof PARTSIZE_pos as Hps.
  assert (Z.of_nat p = x / PARTSIZE) as Hp by (unfold p; rewrite Z2Nat.id; [done|by apply Z.div_pos; lia]).
  pose proof (Z.div_mod x PARTSIZE ltac:(lia)). pose proof (Z.mod_pos_bound x PARTSIZE Hps). split; [|cbn; rewrite Hp; lia].
  rewrite (k_count t Hok) in Hc |- *. unfold tracked_part_count in *. destruct (Z.eqb_spec (file_size t) 0); [lia|].
  destruct (_ <? _); cbn in *; [lia|]. pose proof (div_ceil_upper (file_size t) PARTSIZE ltac:(lia) Hps) as Hup.
  set (d := div_ceil (file_size t) PARTSIZE) in *. assert (x / PARTSIZE < d); [|lia]. clearbody d p. nia.
Qed.

(** ** Completeness of a part *)
Lemma is_part_complete_spec t p :
  tracker_ok t → is_part_complete t p = true ↔
  (p < part_count t)%nat ∧ ∀ x, (part_range t p).1 ≤ x < (part_range t p).2 → lacks t x = false.
Proof.
  intros Hok. unfold is_part_complete. destruct (decide (part_count t ≤ p)%nat) as [Hp|Hp]; [split; [done|lia]|].
  pose proof (part_range_ok t p Hok ltac:(lia)) as Hr. destruct (part_range t p) as [start stop] eqn:E. cbn [fst snd] in *.
  assert (gap_overlaps_from t (first_gap_reaching t start) stop = true ↔ ∃ x, start ≤ x < stop ∧ missing (gaps t) x = true) as Hg.
  { unfold gap_overlaps_from, first_gap_reaching. apply (reaching_gap 0 (file_size t)); [apply (k_gaps t Hok)|done|].
    intros j gp Hj. rewrite <- Z.leb_le. apply (partition_point_spec (λ g : range, g.2 <=? start) (gaps t)); [|done]. by eapply gap_ends_prefix, k_gaps. }
  rewrite negb_true_iff. destruct (gap_overlaps_from _ _ _).
  - split; [done|]. intros [_ Hx]. destruct (proj1 Hg eq_refl) as (x & Hin & Hm). unfold lacks in Hx. by rewrite (Hx x Hin) in Hm.
  - split; [|done]. intros _. split; [lia|]. intros x Hin. unfold lacks. destruct (missing (gaps t) x) eqn:Em; [|done].
    assert (false = true) as F by (apply Hg; by exists x). done.
Qed.

(** ** The elementary moves *)
Lemma bump_frame start stop t :
  same_frame t (bump_content_generation start stop t) ∧ gaps (bump_content_generation start stop t) = gaps t ∧
  part_verified (bump_content_generation start stop t) = part_verified t ∧
  file_hash_verified (bump_content_generation start stop t) = file_hash_verified t ∧
  length (part_content_generation (bump_content_generation start stop t)) = length (part_content_generation t).
Proof.
  unfold bump_content_generation. destruct (stop <=? start); [done|]. destruct (part_content_generation t) as [|x l] eqn:E; [by rewrite E|].
  rewrite <- E. cbn [with_generations gaps part_verified part_content_generation file_hash_verified]. rewrite length_imap. done.
Qed.
Lemma add_gap_spec start stop t :
  tracker_ok t → 0 ≤ start →
  let t' := add_gap start stop t in
  tracker_ok t' ∧ same_frame t t' ∧ part_verified t' = part_verified t ∧
  (∀ x, lacks t' x = lacks t x || ((start <=? x) && (x <? Z.min stop (file_size t)))).
Proof.
  intros Hok Hs. unfold add_gap. cbv zeta. destruct (Z.leb_spec (Z.min stop (file_size t)) start) as [Hle|Hlt].
  - split; [done|]. split; [done|]. split; [done|]. intros x.
    assert ((start <=? x) && (x <? Z.min stop (file_size t)) = false) as -> by zcases. by rewrite orb_false_r.
  - set (e := Z.min stop (file_size t)) in *.
    destruct (bump_frame start e (with_gaps t (insert_gap start e (gaps t)))) as (Hf & Hg & Hv & _ & Hn).
    assert (same_frame t (bump_content_generation start e (with_gaps t (insert_gap start e (gaps t))))) as Hf' by exact Hf.
    split; [|split; [done|split; [by rewrite Hv|]]].
    + eapply frame_ok; [done|exact Hf'|rewrite Hg; cbn; apply insert_gap_ok; [apply (k_gaps t Hok)|lia..]|by rewrite Hv|by rewrite Hn].
    + intros x. unfold lacks. rewrite Hg. cbn [gaps with_gaps]. apply (insert_gap_missing 0 (file_size t)); [apply (k_gaps t Hok)|lia..].
Qed.
Lemma touches_byte start stop n p x :
  0 ≤ start → start ≤ x < stop → Z.of_nat p * PARTSIZE ≤ x < (Z.of_nat p + 1) * PARTSIZE → (p < n)%nat →
  touches start stop (n - 1) p = true.
Proof.
  intros Hs Hx Hp Hn. pose proof PARTSIZE_pos as Hps. apply bool_decide_eq_true.
  assert (start / PARTSIZE ≤ Z.of_nat p) by (apply Z.lt_succ_r, Z.div_lt_upper_bound; lia).
  assert (Z.of_nat p ≤ (stop - 1) / PARTSIZE) by (apply Z.div_le_lower_bound; lia).
  split; [|apply Nat.min_glb; [|lia]]; lia.
Qed.
Lemma part_range_bytes t p x : (part_range t p).1 ≤ x < (part_range t p).2 → Z.of_nat p * PARTSIZE ≤ x < (Z.of_nat p + 1) * PARTSIZE.
Proof. cbn. lia. Qed.
(** Fewer flags and no part reopened that kept its flag. *)
Lemma verified_complete_step t t' :
  tracker_ok t → tracker_ok t' → part_count t' = part_count t → file_size t' = file_size t →
  (∀ p, is_part_verified t' p = true → is_part_verified t p = true ∧
     ∀ x, (part_range t p).1 ≤ x < (part_range t p).2 → lacks t x = false → lacks t' x = false) →
  verified_complete t → verified_complete t'.
Proof.
  intros Hok Hok' Hc Hf H Hvc p Hp. destruct (H p Hp) as [Hv Hx]. specialize (Hvc p Hv).
  apply is_part_complete_spec in Hvc as [Hp1 Hp2]; [|done]. apply is_part_complete_spec; [done|].
  assert (part_range t' p = part_range t p) as -> by (unfold part_range; by rewrite Hf). rewrite Hc.
  split; [done|]. intros x Hin. by apply Hx, Hp2.
Qed.
Definition hits (start stop : Z) (t : PartTracker) (p : nat) : bool :=
  (start <? Z.min stop (file_size t)) && touches start (Z.min stop (file_size t)) (part_count t - 1) p.
Lemma invalidate_spec start stop t g t' g' :
  tracker_ok t → 0 ≤ start → invalidate_range start stop t g = (t', g') →
  tracker_ok t' ∧ same_frame t t' ∧ (∀ x, lacks t' x = lacks t x || ((start <=? x) && (x <? Z.min stop (file_size t)))) ∧
  (∀ p, is_part_verified t' p = is_part_verified t p && negb (hits start stop t p)) ∧
  gaps t' = gaps (add_gap start stop t) ∧ g' = withdraw (retain (hits start stop t) (verified_indices (part_verified t))) t g.
Proof.
  intros Hok Hs. unfold invalidate_range. set (e := Z.min stop (file_size t)).
  assert (add_gap start e t = add_gap start stop t) as Ha.
  { unfold add_gap, e. cbv zeta. by replace (Z.min (Z.min stop (file_size t)) (file_size t)) with (Z.min stop (file_size t)) by lia. }
  rewrite Ha. destruct (add_gap_spec start stop t Hok Hs) as (H1 & H2 & H3 & H4). cbv zeta in *. set (t1 := add_gap start stop t) in *.
  destruct H2 as (F1 & F2 & F3 & F4 & F5 & F6 & F7 & F8 & F9 & F10). rewrite H3. destruct (part_verified t) as [|v flags] eqn:Ev.
  - intros [= <- <-]. split; [done|]. split; [done|]. split; [exact H4|]. split; [|done]. intros p. unfold is_part_verified. by rewrite H3, Ev.
  - unfold hits. fold e. destruct (Z.leb_spec e start) as [Hle|Hlt]; intros [= <- <-].
    + rewrite (proj2 (Z.ltb_ge start e) Hle). cbn [andb]. split; [done|]. split; [done|]. split; [exact H4|]. split; [|split; [done|]].
      * intros p. unfold is_part_verified. by rewrite H3, Ev, andb_true_r.
      * assert (retain (λ _ : nat, false) (verified_indices (v :: flags)) = []) as ->; [|done].
        generalize (verified_indices (v :: flags)). intros l. unfold retain. induction l; done.
    + rewrite (proj2 (Z.ltb_lt start e) Hlt). cbn [andb]. rewrite F2. split; [|split; [done|split; [exact H4|split; [|split; [done|]]]]].
      * eapply frame_ok; [exact H1|done|apply (k_gaps _ H1)|rewrite H3; cbn; by rewrite length_imap|done].
      * intros p. unfold is_part_verified. rewrite Ev. cbn [with_verified part_verified].
        change (_ :: imap _ flags) with (imap (λ p (v : bool), if touches start e (part_count t - 1) p then false else v) (v :: flags)).
        rewrite list_lookup_imap.
        destruct ((v :: flags) !! p) as [b|] eqn:Eb; cbn; [|done]. destruct (touches _ _ _ p); [by rewrite andb_false_r|by rewrite andb_true_r].
      * unfold withdraw, record_unverified. by rewrite F6, F7.
Qed.
Lemma invalidate_verified_complete start stop t g t' g' :
  tracker_ok t → 0 ≤ start → invalidate_range start stop t g = (t', g') → verified_complete t → verified_complete t'.
Proof.
  intros Hok Hs Hi. destruct (invalidate_spec start stop t g t' g' Hok Hs Hi) as (H1 & (F1 & F2 & _) & H3 & H4 & _).
  apply verified_complete_step; [done..|]. intros p Hp. rewrite H4 in Hp. apply andb_true_iff in Hp as [Hv Hh].
  split; [done|]. intros x Hx Hl. rewrite H3, Hl. cbn. apply negb_true_iff in Hh.
  destruct ((start <=? x) && (x <? Z.min stop (file_size t))) eqn:E; [|done]. apply andb_true_iff in E as [E1%Z.leb_le E2%Z.ltb_lt].
  assert (p < part_count t)%nat as Hpc.
  { rewrite <- (k_verified t Hok). unfold is_part_verified in Hv. destruct (part_verified t !! p) eqn:Ep; [by eapply lookup_lt_Some|done]. }
  unfold hits in Hh. rewrite (touches_byte start _ (part_count t) p x), andb_true_r in Hh; [|done|lia|by apply (part_range_bytes t)|done].
  apply Z.ltb_ge in Hh. lia.
Qed.

(** ** Filling *)

(** Joining the two neighbours of the smallest run. *)
Lemma coalesce_round t g i a b t' g' :
  tracker_ok t → find_smallest_coalesce_candidate (gaps t) = Some i → gaps t !! i = Some a → gaps t !! S i = Some b →
  invalidate_range a.2 b.1 t g = (t', g') →
  a.2 < b.1 ∧ S (length (gaps t')) = length (gaps t) ∧ gap_bytes (gaps t') = gap_bytes (gaps t) + (b.1 - a.2).
Proof.
  intros Hok Hi Ha Hb Hinv. pose proof (k_gaps t Hok) as Hg.
  pose proof (gaps_ok_lookup _ _ _ i (S i) a b Hg ltac:(lia) Ha Hb) as Hlt.
  destruct (gaps_ok_bounds _ _ _ a Hg) as (A1 & A2 & A3); [by eapply list_elem_of_lookup_2|].
  destruct (gaps_ok_bounds _ _ _ b Hg) as (B1 & B2 & B3); [by eapply list_elem_of_lookup_2|].
  assert (0 ≤ a.2) as Hpos by lia. destruct (invalidate_spec _ _ _ _ _ _ Hok Hpos Hinv) as (_ & _ & _ & _ & Hgaps & _).
  assert (gaps t = take i (gaps t) ++ (a.1, a.2) :: (b.1, b.2) :: drop (S (S i)) (gaps t)) as Hsplit.
  { rewrite <- (take_drop i (gaps t)) at 1. f_equal. rewrite (drop_S _ a i Ha), (drop_S _ b (S i) Hb). by destruct a, b. }
  assert (gaps t' = take i (gaps t) ++ (a.1, b.2) :: drop (S (S i)) (gaps t)) as Hg'.
  { rewrite Hgaps. unfold add_gap. cbv zeta. rewrite (proj2 (Z.leb_gt _ _)) by lia.
    destruct (bump_frame a.2 (Z.min b.1 (file_size t)) (with_gaps t (insert_gap a.2 (Z.min b.1 (file_size t)) (gaps t)))) as (_ & -> & _).
    cbn [gaps with_gaps]. replace (Z.min b.1 (file_size t)) with b.1 by lia. rewrite (insert_gap_widen 0 (file_size t)); [|done|lia..].
    pose proof (widen_joint 0 (file_size t) (take i (gaps t)) a.1 a.2 b.1 b.2 (drop (S (S i)) (gaps t))) as Hw.
    rewrite <- Hsplit in Hw. by apply Hw. }
  split; [done|]. rewrite Hg'. pose proof (f_equal length Hsplit) as Hl. pose proof (f_equal gap_bytes Hsplit) as Hb'.
  rewrite !length_app in Hl |- *. rewrite !gap_bytes_app in Hb' |- *. rewrite !gap_bytes_cons in Hb'. rewrite gap_bytes_cons.
  cbn [length fst snd] in *. lia.
Qed.
Lemma coalesce_spec fuel t g r :
  tracker_ok t → (length (gaps t) ≤ fuel)%nat →
  let '(r', t', g') := coalesce fuel t g r in
  tracker_ok t' ∧ same_frame t t' ∧ Z.of_nat (length (gaps t')) ≤ MAX_GAP_ENTRIES ∧
  r ≤ r' ∧ gap_bytes (gaps t') = gap_bytes (gaps t) + (r' - r) ∧ (∀ x, lacks t x = true → lacks t' x = true) ∧
  (∀ p, is_part_verified t' p = true → is_part_verified t p = true) ∧ (verified_complete t → verified_complete t') ∧
  (Z.of_nat (length (gaps t)) ≤ MAX_GAP_ENTRIES → r' = r ∧ t' = t ∧ g' = g).
Proof.
  revert t g r. induction fuel as [|fuel IH]; intros t g r Hok Hf; cbn [coalesce].
  { repeat (split; [done||lia|]). split; [unfold MAX_GAP_ENTRIES; lia|]. split; [lia|]. split; [lia|]. done. }
  destruct (Z.ltb_spec MAX_GAP_ENTRIES (Z.of_nat (length (gaps t)))) as [Hbig|Hsmall].
  2:{ repeat (split; [done||lia|]). done. }
  destruct (coalesce_pair (gaps t)) as (i & a0 & a & b & b0 & Hi & Hsp & Hla); [unfold MAX_GAP_ENTRIES in Hbig; lia|]. rewrite Hi.
  assert (gaps t !! i = Some a) as Ha by (by rewrite Hsp, list_lookup_middle).
  assert (gaps t !! S i = Some b) as Hb.
  { rewrite Hsp. change (a :: b :: b0) with ([a] ++ b :: b0). rewrite app_assoc. apply list_lookup_middle. rewrite length_app. cbn. lia. }
  rewrite Ha, Hb. pose proof (gaps_ok_lookup _ _ _ i (S i) a b (k_gaps t Hok) ltac:(lia) Ha Hb) as Hlt.
  rewrite (proj2 (Z.leb_gt b.1 a.2)) by lia. destruct (invalidate_range a.2 b.1 t g) as [t1 g1] eqn:Hinv.
  assert (0 ≤ a.2) as Hpos.
  { destruct (gaps_ok_bounds _ _ _ a (k_gaps t Hok)) as (? & ? & ?); [by eapply list_elem_of_lookup_2|]. lia. }
  destruct (coalesce_round t g i a b t1 g1 Hok Hi Ha Hb Hinv) as (_ & Hlen & Hby).
  destruct (invalidate_spec _ _ _ _ _ _ Hok Hpos Hinv) as (H1 & H2 & H3 & H4 & _).
  pose proof (invalidate_verified_complete _ _ _ _ _ _ Hok Hpos Hinv) as Hvc.
  specialize (IH t1 g1 (r + (b.1 - a.2)) H1 ltac:(lia)). destruct (coalesce fuel t1 g1 _) as [[r' t'] g'].
  destruct IH as (I1 & I2 & I3 & I4 & I5 & I6 & I7 & I8 & _).
  split; [done|]. split; [by eapply same_frame_trans|]. split; [done|]. split; [lia|]. split; [lia|].
  split; [intros x Hx; apply I6; by rewrite H3, Hx|]. split; [|split; [by auto|lia]].
  intros p Hp. apply I7 in Hp. rewrite H4 in Hp. by apply andb_true_iff in Hp as [? _].
Qed.
(** [fill_range] as a set operation: what was missing outside the range still is,
    what the range covered is present unless the list had to be shortened. *)
Lemma fill_range_spec start stop t g n t' g' :
  tracker_ok t → fill_range start stop t g = (n, t', g') →
  tracker_ok t' ∧ same_frame t t' ∧ n = Z.max 0 (gap_bytes (gaps t) - gap_bytes (gaps t')) ∧
  (∀ x, lacks t x = true → (start <= x < stop → False) → lacks t' x = true) ∧
  (start < stop → Z.of_nat (length (gaps t')) ≤ MAX_GAP_ENTRIES) ∧
  (Z.of_nat (length (cut_gaps start stop (gaps t))) ≤ MAX_GAP_ENTRIES →
     (∀ x, lacks t' x = lacks t x && negb ((start <=? x) && (x <? stop))) ∧ part_verified t' = part_verified t ∧ g' = g) ∧
  (∀ p, is_part_verified t' p = true → is_part_verified t p = true) ∧ (verified_complete t → verified_complete t').
Proof.
  intros Hok. unfold fill_range. destruct (Z.leb_spec stop start) as [Hle|Hlt].
  - intros [= <- <- <-]. repeat (split; [done||lia|]). split; [|done]. intros _. split; [|done]. intros x.
    assert ((start <=? x) && (x <? stop) = false) as -> by zcases. by rewrite andb_true_r.
  - set (t1 := with_gaps t (cut_gaps start stop (gaps t))).
    set (t2 := if 0 <? overlap_bytes start stop (gaps t) then bump_content_generation start stop t1 else t1).
    assert (same_frame t t2 ∧ gaps t2 = cut_gaps start stop (gaps t) ∧ part_verified t2 = part_verified t ∧
      length (part_content_generation t2) = length (part_content_generation t)) as (F2 & G2 & V2 & N2).
    { destruct (bump_frame start stop t1) as (? & ? & ? & _ & ?). unfold t2. destruct (0 <? _); done. }
    assert (tracker_ok t2) as Hok2.
    { eapply frame_ok; [done|exact F2|rewrite G2; by apply cut_gaps_ok, k_gaps|by rewrite V2|done]. }
    assert (∀ x, lacks t2 x = lacks t x && negb ((start <=? x) && (x <? stop))) as L2.
    { intros x. unfold lacks. rewrite G2. by apply cut_gaps_missing. }
    pose proof (coalesce_spec (length (gaps t2)) t2 g 0 Hok2 ltac:(lia)) as Hc. destruct (coalesce _ t2 g 0) as [[r' t3] g3].
    destruct Hc as (C1 & C2 & C3 & C4 & C5 & C6 & C7 & C8 & C9). intros [= <- <- <-].
    split; [done|]. split; [by eapply same_frame_trans|]. split.
    { rewrite C5, G2, (cut_gaps_bytes start stop 0 (file_size t)) by (done || apply (k_gaps t Hok)). lia. }
    split; [intros x Hx Hout; apply C6; rewrite L2, Hx; cbn; apply negb_true_iff; zcases|]. split; [done|]. split.
    { rewrite <- G2. intros Hs. destruct (C9 Hs) as (_ & -> & ->). done. }
    split; [intros p Hp; apply C7 in Hp; unfold is_part_verified in *; by rewrite V2 in Hp|].
    intros Hvc. apply C8. destruct F2 as (S1 & S2 & _). eapply (verified_complete_step t); [done..| |done]. intros p Hp. split.
    + unfold is_part_verified in *. by rewrite V2 in Hp.
    + intros x _ Hx. rewrite L2, Hx. done.
Qed.
