(* ===== verification/PartWrite.v ===== *)
(** * Who may write which bytes

    [reserve_write_subranges] takes missing bytes out of circulation for one
    worker: they are nobody else's, and everything that could be granted is. *)
From S2P Require Import Prelude NodeId GapList PartTracker PartInv.
Local Open Scope Z_scope.

Lemma count_if_missing x l : missing l x = false ↔ count_if (inside x) l = 0%nat.
Proof.
  unfold missing, count_if, retain. induction l as [|r l IH]; [done|]. cbn [existsb]. rewrite filter_cons, orb_false_iff, IH.
  destruct (inside x r); cbn; [split; [by intros [? _]|done]|]. tauto.
Qed.

(** ** Sorted reservations *)

(** In order, not empty and not overlapping. *)
Fixpoint chain (lo : Z) (l : list range) : Prop :=
  match l with [] => True | (s, e) :: rest => lo ≤ s ∧ s < e ∧ chain e rest end.
Lemma chain_below lo l x : chain lo l → x < lo → missing l x = false.
Proof.
  revert lo. induction l as [|[s e] l IH]; intros lo; [done|]. intros (H1 & H2 & Hc) Hx. rewrite missing_cons.
  rewrite (IH e Hc) by lia. unfold inside. cbn. rewrite (proj2 (Z.leb_gt s x)) by lia. done.
Qed.
Lemma exclusive_chain l :
  StronglySorted (λ a b, pair_le a b = true) l → Forall (λ r : range, r.1 < r.2) l → (∀ x, (count_if (inside x) l ≤ 1)%nat) →
  ∀ lo, (∀ r, r ∈ l → lo ≤ r.1) → chain lo l.
Proof.
  induction l as [|[s e] l IH]; intros Hs Hn Hx lo Hlo; [done|].
  apply StronglySorted_cons in Hs as [Hle Hs]. apply Forall_cons in Hn as [Hn1 Hn2]. cbn in Hn1.
  split; [apply (Hlo (s, e)); left|]. split; [done|]. apply IH; [done|done|intros x; specialize (Hx x); rewrite count_if_cons in Hx; destruct (inside x (s, e)); lia|].
  intros [s' e'] Hr. cbn. rewrite Forall_forall in Hle. specialize (Hle _ Hr). unfold pair_le in Hle. cbn in Hle.
  assert (s ≤ s') as Hss. { apply orb_true_iff in Hle as [?%Z.ltb_lt|[?%Z.eqb_eq _]%andb_true_iff]; lia. }
  rewrite Forall_forall in Hn2. specialize (Hn2 _ Hr). cbn in Hn2.
  destruct (Z.le_gt_cases e s') as [|Hgt]; [done|exfalso]. specialize (Hx s'). rewrite count_if_cons in Hx.
  assert (inside s' (s, e) = true) as Hin by (apply inside_spec; cbn; lia). rewrite Hin in Hx.
  assert (count_if (inside s') l ≠ 0%nat) as Hne; [|lia]. intros E%count_if_missing.
  assert (missing l s' = true); [|congruence]. apply missing_spec. exists (s', e'). split; [done|]. cbn. lia.
Qed.
Lemma carve_count x cursor stop blocked lo :
  chain lo blocked →
  count_if (inside x) (carve cursor stop blocked) =
  if (cursor <=? x) && (x <? stop) && negb (missing blocked x) then 1%nat else 0%nat.
Proof.
  revert cursor lo. induction blocked as [|[rs re] rest IH]; intros cursor lo Hc; cbn [carve].
  - rewrite andb_true_r. destruct (Z.ltb_spec cursor stop).
    + rewrite count_if_cons. unfold inside. cbn. destruct ((cursor <=? x) && (x <? stop)); done.
    + assert ((cursor <=? x) && (x <? stop) = false) as -> by zcases. done.
  - destruct Hc as (H1 & H2 & Hc). rewrite missing_cons. destruct ((re <=? cursor) || (stop <=? rs)) eqn:Esk.
    + rewrite (IH cursor re Hc). apply orb_true_iff in Esk. rewrite !Z.leb_le in Esk.
      destruct ((cursor <=? x) && (x <? stop)) eqn:Ein; [|done]. apply andb_true_iff in Ein as [?%Z.leb_le ?%Z.ltb_lt].
      assert (inside x (rs, re) = false) as ->; [unfold inside; cbn; zcases|done].
    + apply orb_false_iff in Esk. rewrite !Z.leb_gt in Esk. rewrite count_if_app.
      assert (count_if (inside x) (if cursor <? rs then [(cursor, rs)] else []) = if (cursor <=? x) && (x <? rs) then 1%nat else 0%nat) as ->.
      { destruct (Z.ltb_spec cursor rs); [rewrite count_if_cons; unfold inside; cbn; by destruct (_ && _)|].
        assert ((cursor <=? x) && (x <? rs) = false) as -> by zcases. done. }
      assert (count_if (inside x) (if stop <=? re then [] else carve re stop rest) =
        if (re <=? x) && (x <? stop) && negb (missing rest x) then 1%nat else 0%nat) as ->.
      { destruct (Z.leb_spec stop re); [|by apply (IH re re)]. assert ((re <=? x) && (x <? stop) = false) as -> by zcases. done. }
      destruct (Z.ltb_spec x re) as [Hlt|Hge].
      * rewrite (chain_below re rest x Hc Hlt). unfold inside. cbn [fst snd orb]. zcases.
      * assert (inside x (rs, re) = false) as ->; [unfold inside; cbn; zcases|]. cbn [orb]. destruct (missing rest x); zcases.
Qed.

(** ** Candidates *)
Lemma omap_step {A B} (f : A → option B) x l : omap f (x :: l) = match f x with Some y => y :: omap f l | None => omap f l end.
Proof. done. Qed.
Lemma fillable_count x start stop lo hi gs :
  gaps_ok lo hi gs → count_if (inside x) (fillable start stop gs) = if (start <=? x) && (x <? stop) && missing gs x then 1%nat else 0%nat.
Proof.
  intros Hok. unfold fillable. destruct (Z.leb_spec stop start) as [Hle|Hlt].
  { assert ((start <=? x) && (x <? stop) = false) as -> by zcases. done. }
  revert lo Hok. induction gs as [|[s e] gs IH]; intros lo Hok; [by rewrite andb_false_r|]. destruct Hok as (H1 & H2 & H3 & Hr).
  rewrite missing_cons. specialize (IH _ Hr).
  assert (inside x (s, e) = true → missing gs x = false) as Hsep.
  { intros Hin%inside_spec. apply (missing_below (e + 1) hi); [done|cbn in Hin; lia]. }
  rewrite omap_step. destruct ((e <=? start) || (stop <=? s)) eqn:Esk.
  - rewrite IH. apply orb_true_iff in Esk. rewrite !Z.leb_le in Esk. destruct ((start <=? x) && (x <? stop)) eqn:Ein; [|done].
    apply andb_true_iff in Ein as [?%Z.leb_le ?%Z.ltb_lt]. assert (inside x (s, e) = false) as ->; [unfold inside; cbn; zcases|done].
  - apply orb_false_iff in Esk. rewrite !Z.leb_gt in Esk. rewrite (proj2 (Z.ltb_lt (Z.max s start) (Z.min e stop))) by lia.
    rewrite count_if_cons, IH. unfold inside in *. cbn [fst snd] in *. destruct (missing gs x).
    + destruct ((s <=? x) && (x <? e)) eqn:Ein; [by specialize (Hsep eq_refl)|]. cbn [orb]. revert Ein. zcases.
    + rewrite orb_false_r. zcases.
Qed.

Lemma carve_all_count x blocked lo l :
  chain lo blocked →
  count_if (inside x) (l ≫= λ c : range, carve c.1 c.2 blocked) = if missing blocked x then 0%nat else count_if (inside x) l.
Proof.
  intros Hc. induction l as [|c l IH]; [by destruct (missing blocked x)|].
  rewrite bind_cons, count_if_app, count_if_cons, IH, (carve_count x c.1 c.2 blocked lo Hc). change ((c.1 <=? x) && (x <? c.2)) with (inside x c).
  destruct (missing blocked x), (inside x c); done.
Qed.
Lemma carve_nonempty cursor stop blocked : Forall (λ r : range, r.1 < r.2) (carve cursor stop blocked).
Proof.
  revert cursor. induction blocked as [|[rs re] rest IH]; intros cursor; cbn [carve].
  - destruct (Z.ltb_spec cursor stop); repeat constructor; done.
  - destruct (_ || _); [done|]. apply Forall_app. split; [destruct (Z.ltb_spec cursor rs); repeat constructor; done|].
    destruct (stop <=? re); [constructor|done].
Qed.
Lemma count_if_take_le {A} (p : A → bool) n l : (count_if p (take n l) ≤ count_if p l)%nat.
Proof. apply count_if_submseteq, sublist_submseteq, sublist_take. Qed.
Lemma pair_le_total a b : pair_le a b = true ∨ pair_le b a = true.
Proof. unfold pair_le. rewrite !orb_true_iff, !andb_true_iff, !Z.ltb_lt, !Z.eqb_eq, !Z.leb_le. lia. Qed.
Lemma pair_le_trans a b c : pair_le a b = true → pair_le b c = true → pair_le a c = true.
Proof. unfold pair_le. rewrite !orb_true_iff, !andb_true_iff, !Z.ltb_lt, !Z.eqb_eq, !Z.leb_le. lia. Qed.
Lemma count_if_retain_le {A} (p q : A → bool) l : (count_if p (retain q l) ≤ count_if p l)%nat.
Proof. apply count_if_submseteq, sublist_submseteq, retain_sublist. Qed.

(** What a request for a range is granted: the bytes of it that are missing and that nobody has reserved, each once. *)
Definition grantable (t : PartTracker) (start stop x : Z) : bool :=
  (start <=? x) && (x <? stop) && lacks t x && negb (missing (write_reservations t) x).
Lemma granted_count t start stop x :
  tracker_ok t →
  let room := (MAX_WRITE_RESERVATIONS - length (write_reservations t))%nat in
  (count_if (inside x) (granted_subranges start stop t) ≤ if grantable t start stop x then 1 else 0)%nat ∧
  ((length (granted_subranges start stop t) < room)%nat →
    count_if (inside x) (granted_subranges start stop t) = if grantable t start stop x then 1%nat else 0%nat).
Proof.
  intros Hok room. unfold granted_subranges. fold room. set (near := retain _ (write_reservations t)).
  set (blocked := stable_sort pair_le near).
  assert (near ≡ₚ blocked) as Hp by (symmetry; apply stable_sort_perm).
  assert (∃ lo, chain lo blocked) as [lo Hchain].
  { assert (∀ l : list range, ∃ lo, ∀ r, r ∈ l → lo ≤ r.1) as Hlo.
    { induction l as [|r l (lo & IH)]; [exists 0; intros r Hr; by apply elem_of_nil in Hr|].
      exists (Z.min lo r.1). intros r' [->|Hr']%elem_of_cons; [lia|]. specialize (IH _ Hr'). lia. }
    destruct (Hlo blocked) as [lo Hl]. exists lo. apply exclusive_chain; [|..|done].
    - apply stable_sort_sorted; [apply pair_le_total|apply pair_le_trans].
    - rewrite <- Hp. eapply Forall_sublist; [apply retain_sublist|apply (k_nonempty t Hok)].
    - intros y. rewrite <- (count_if_proper _ _ _ Hp). etransitivity; [apply count_if_retain_le|apply (k_exclusive t Hok)]. }
  set (full := fillable_subranges t start stop ≫= _).
  assert (count_if (inside x) full = if grantable t start stop x then 1%nat else 0%nat) as Hfull.
  { unfold full. rewrite (carve_all_count x blocked lo) by done. unfold fillable_subranges.
    rewrite (fillable_count x start stop 0 (file_size t)) by apply (k_gaps t Hok). fold (lacks t x). unfold grantable.
    destruct ((start <=? x) && (x <? stop)) eqn:Ein; cbn [andb]; [|by destruct (missing blocked x)].
    assert (missing blocked x = missing (write_reservations t) x) as ->; [|by destruct (lacks t x), (missing _ x)].
    apply andb_true_iff in Ein as [?%Z.leb_le ?%Z.ltb_lt]. apply Bool.eq_iff_eq_true. rewrite !missing_spec.
    split; intros (r & Hr & Hx); exists r; (split; [|done]).
    - rewrite <- Hp in Hr. by apply elem_of_retain in Hr as [_ ?].
    - rewrite <- Hp. apply elem_of_retain. split; [|done]. rewrite andb_true_iff, !Z.ltb_lt. lia. }
  split; [rewrite <- Hfull; apply count_if_take_le|]. rewrite length_take. intros Hroom. by rewrite take_ge by lia.
Qed.
Lemma granted_nonempty start stop t : Forall (λ r : range, r.1 < r.2) (granted_subranges start stop t).
Proof.
  unfold granted_subranges. apply Forall_take, Forall_forall. intros r (c & Hr & _)%list_elem_of_bind.
  by eapply (Forall_forall (λ r : range, r.1 < r.2)); [apply carve_nonempty|].
Qed.
