(* ===== verification/PartSafety.v ===== *)
(** * The tracker over its whole life

    Every operation a download worker makes, in any order, and what holds in
    every state reached: the invariant, that a verified part is complete, and the
    theorems on filling, querying, writing and serving. *)
From S2P Require Import Prelude NodeId GapList PartTracker PartInv PartWrite.
Local Open Scope Z_scope.

Inductive part_op :=
  | OpFill (start stop : Z)
  | OpMarkComplete (idx : nat)
  | OpMarkIncomplete (idx : nat)
  | OpInvalidate (start stop : Z)
  | OpUnreadable (len : Z)
  | OpVerify (idx : nat)
  | OpFileVerified
  | OpClearHashes
  | OpApplyPending
  | OpReserve (start stop : Z)
  | OpReleaseWrite (start stop : Z)
  | OpCommit (start stop : Z)
  | OpClaim (idx : nat)
  | OpReleaseClaim (idx : nat)
  | OpPublish (worker : nat) (ranges : list range) (now : Z)
  | OpClearInFlight (worker : nat)
  | OpName (name : bytes)
  | OpHashes (hashes : list bytes)
  | OpTransferred (n : Z)
  | OpSetHash (hash : bytes)
  | OpDeleteMet.
Definition run_part_op (o : part_op) (t : PartTracker) (g : Shared) : PartTracker * Shared :=
  match o with
  | OpFill a b => let '(_, t, g) := fill_range a b t g in (t, g)
  | OpMarkComplete p => mark_complete p t g
  | OpMarkIncomplete p => mark_incomplete p t g
  | OpInvalidate a b => invalidate_range a b t g
  | OpUnreadable n => invalidate_unreadable n t g
  | OpVerify p => set_part_verified p t g
  | OpFileVerified => mark_file_hash_verified t g
  | OpClearHashes => clear_part_hashes_and_verified t g
  | OpApplyPending => (apply_pending_invalidations g t, g)
  | OpReserve a b => ((reserve_write_subranges a b t).2, g)
  | OpReleaseWrite a b => (release_write_reservation a b t, g)
  | OpCommit a b => let '(_, t, g) := commit_write_reservation a b t g in (t, g)
  | OpClaim p => (claim_in_progress p t, g)
  | OpReleaseClaim p => (release_in_progress p t, g)
  | OpPublish w rs now => (publish_in_flight_requests w rs now t, g)
  | OpClearInFlight w => (clear_in_flight_requests w t, g)
  | OpName n => (set_file_name n t, g)
  | OpHashes hs => (set_part_hashes hs t, g)
  | OpTransferred n => (count_transferred n t, g)
  | OpSetHash h => (set_file_hash h t, g)
  | OpDeleteMet => (t, delete_met_forget t g)
  end.
(** Offsets are unsigned; a part is verified once it is complete, and the file once all of it is. *)
Definition op_allowed (o : part_op) (t : PartTracker) : bool :=
  match o with
  | OpFill a _ | OpInvalidate a _ | OpUnreadable a | OpReserve a _ | OpReleaseWrite a _ | OpCommit a _ => 0 <=? a
  | OpVerify p => is_part_complete t p
  | OpFileVerified => all_complete t
  | _ => true
  end.
Inductive part_reach (size : Z) (path hash : bytes) : PartTracker → Shared → Prop :=
  | part_start_reach g : part_reach size path hash (blank_tracker size path hash) g
  | part_step_reach o t g t' g' :
      part_reach size path hash t g → op_allowed o t = true → run_part_op o t g = (t', g') → part_reach size path hash t' g'
  | part_others_reach t g g' : part_reach size path hash t g → part_reach size path hash t g'.

(** ** Each operation *)
Lemma blank_ok size path hash : 0 ≤ size → tracker_ok (blank_tracker size path hash) ∧ verified_complete (blank_tracker size path hash).
Proof.
  intros Hs. split.
  - split; cbn; rewrite ?length_replicate; try done; [|by apply Forall_replicate|intros x; unfold count_if; cbn; lia|unfold MAX_WRITE_RESERVATIONS; lia].
    unfold all_missing. destruct (Z.ltb_spec 0 size); [cbn; lia|done].
  - intros p. unfold is_part_verified. cbn. destruct (replicate _ false !! p) eqn:E; [|done]. by apply lookup_replicate in E as [-> _].
Qed.
(** The flags and the gaps did not move. *)
Lemma verified_same t t' :
  part_verified t' = part_verified t → gaps t' = gaps t → part_count t' = part_count t → file_size t' = file_size t →
  verified_complete t → verified_complete t'.
Proof.
  intros Hv Hg Hc Hf H p. specialize (H p). unfold is_part_verified, is_part_complete, first_gap_reaching, gap_overlaps_from, part_range in *.
  by rewrite Hv, Hg, Hc, Hf.
Qed.
Lemma mark_incomplete_spec p t g t' g' :
  tracker_ok t → mark_incomplete p t g = (t', g') →
  tracker_ok t' ∧ same_frame t t' ∧ (∀ x, lacks t' x = lacks t x || inside x (part_range t p)) ∧
  (∀ q, is_part_verified t' q = is_part_verified t q && negb (bool_decide (q = p))).
Proof.
  intros Hok. unfold mark_incomplete. destruct (part_range t p) as [start stop] eqn:Er.
  assert (0 ≤ start) as Hs by (injection Er as <- _; unfold PARTSIZE; lia).
  assert (stop ≤ file_size t) as Hst by (injection Er as _ <-; lia).
  destruct (add_gap_spec start stop t Hok Hs) as (H1 & H2 & H3 & H4). cbv zeta in *. set (t1 := add_gap start stop t) in *.
  assert (∀ x, lacks t1 x = lacks t x || inside x (start, stop)) as H4'.
  { intros x. rewrite H4. unfold inside. cbn. by replace (Z.min stop (file_size t)) with stop by lia. }
  destruct (part_verified t1 !! p) as [v|] eqn:Ev; intros [= <- <-].
  - split; [eapply frame_ok; [exact H1|done|apply (k_gaps _ H1)|cbn; by rewrite length_insert|done]|]. split; [exact H2|].
    split; [exact H4'|]. intros q. unfold is_part_verified. cbn [with_verified part_verified]. rewrite H3 in *.
    case_bool_decide as Hq; [subst; rewrite list_lookup_insert_eq by (by eapply lookup_lt_Some); by rewrite andb_false_r|].
    rewrite list_lookup_insert_ne by done. by rewrite andb_true_r.
  - split; [done|]. split; [done|]. split; [exact H4'|]. intros q. unfold is_part_verified. rewrite H3 in *.
    case_bool_decide as Hq; [subst; by rewrite Ev|]. by rewrite andb_true_r.
Qed.
Lemma mark_incomplete_complete p t g t' g' :
  tracker_ok t → mark_incomplete p t g = (t', g') → verified_complete t → verified_complete t'.
Proof.
  intros Hok Hm. destruct (mark_incomplete_spec p t g t' g' Hok Hm) as (H1 & (F1 & F2 & _) & H3 & H4).
  apply verified_complete_step; [done..|]. intros q Hq. rewrite H4 in Hq. apply andb_true_iff in Hq as [Hv Hne%negb_true_iff%bool_decide_eq_false].
  split; [done|]. intros x Hx Hl. rewrite H3, Hl. cbn [orb]. destruct (inside x (part_range t p)) eqn:E; [|done].
  apply inside_spec, part_range_bytes in E. apply part_range_bytes in Hx. pose proof PARTSIZE_pos. exfalso. apply Hne. nia.
Qed.
Lemma clear_hashes_ok t g t' g' :
  tracker_ok t → clear_part_hashes_and_verified t g = (t', g') → tracker_ok t' ∧ ∀ p, is_part_verified t' p = false.
Proof.
  intros [K1 K2 K3 K4 K5 K6 K7 K8 K9 K10] [= <- _]. split.
  - split; cbn; try done. by rewrite length_fmap.
  - intros p. unfold is_part_verified. cbn. rewrite list_lookup_fmap. by destruct (part_verified t !! p).
Qed.
Lemma foldl_clear (flags : list bool) parts p :
  foldl (λ v p, <[p := false]> v) flags parts !! p = (λ b, b && negb (bool_decide (p ∈ parts))) <$> flags !! p.
Proof.
  revert flags. induction parts as [|q parts IH]; intros flags; cbn [foldl].
  - rewrite bool_decide_eq_false_2 by apply not_elem_of_nil. destruct (flags !! p); cbn; [by rewrite andb_true_r|done].
  - rewrite IH. destruct (decide (p = q)) as [->|Hne].
    + rewrite (bool_decide_eq_true_2 (q ∈ q :: parts)) by left. destruct (flags !! q) as [b|] eqn:E.
      * rewrite list_lookup_insert_eq by (by eapply lookup_lt_Some). cbn. by rewrite andb_false_r.
      * rewrite list_insert_ge by (by apply lookup_ge_None). by rewrite E.
    + rewrite list_lookup_insert_ne by done. destruct (flags !! p); [|done]. cbn. f_equal. f_equal. f_equal.
      apply bool_decide_ext. rewrite elem_of_cons. naive_solver.
Qed.
Lemma length_foldl_clear (flags : list bool) parts : length (foldl (λ v p, <[p := false]> v) flags parts) = length flags.
Proof. revert flags. induction parts as [|q parts IH]; intros flags; cbn; [done|]. by rewrite IH, length_insert. Qed.
Lemma apply_pending_spec g t :
  let t' := apply_pending_invalidations g t in
  same_frame t t' ∧ gaps t' = gaps t ∧ length (part_verified t') = length (part_verified t) ∧
  part_content_generation t' = part_content_generation t ∧
  ∀ p, is_part_verified t' p = is_part_verified t p && negb (bool_decide (p ∈ usc_parts_for (met_path t) (file_hash t) g)).
Proof.
  unfold apply_pending_invalidations. cbv zeta. split; [done|]. split; [done|]. split; [apply length_foldl_clear|]. split; [done|].
  intros p. unfold is_part_verified. cbn. rewrite foldl_clear. by destruct (part_verified t !! p).
Qed.

(** Only the reservations moved. *)
Lemma reservations_ok t l :
  tracker_ok t → Forall (λ r : range, r.1 < r.2) l → (∀ x, (count_if (inside x) l ≤ 1)%nat) →
  (length l ≤ MAX_WRITE_RESERVATIONS)%nat → tracker_ok (with_reservations t l).
Proof. intros [K1 K2 K3 K4 K5 K6 K7 K8 K9 K10] ? ? ?. by split. Qed.
Lemma reserve_ok start stop t : tracker_ok t → tracker_ok (reserve_write_subranges start stop t).2.
Proof.
  intros Hok. unfold reserve_write_subranges. destruct (fillable_subranges t start stop); [done|]. cbn [snd].
  apply reservations_ok; [done|..].
  - apply Forall_app. split; [apply (k_nonempty t Hok)|apply granted_nonempty].
  - intros x. rewrite count_if_app. pose proof (proj1 (granted_count t start stop x Hok)) as Hg. cbv zeta in Hg.
    pose proof (k_exclusive t Hok x) as He. unfold grantable in Hg.
    destruct (missing (write_reservations t) x) eqn:Em; cbn [negb] in Hg; [rewrite andb_false_r in Hg; lia|].
    apply count_if_missing in Em. destruct (_ && _ && _ && _) in Hg; lia.
  - rewrite length_app. pose proof (k_reservations t Hok). unfold granted_subranges. rewrite length_take. lia.
Qed.
Lemma release_spec start stop t :
  tracker_ok t → tracker_ok (release_write_reservation start stop t) ∧
  gaps (release_write_reservation start stop t) = gaps t ∧ part_verified (release_write_reservation start stop t) = part_verified t ∧
  part_count (release_write_reservation start stop t) = part_count t ∧ file_size (release_write_reservation start stop t) = file_size t.
Proof.
  intros Hok. unfold release_write_reservation. destruct (position _ _) as [pos|] eqn:E; [|done]. split; [|done].
  apply position_lookup in E as (r & Hr & _). pose proof (swap_remove_perm _ _ _ Hr) as Hp.
  pose proof (sublist_delete (write_reservations t) pos) as Hsub. apply reservations_ok; [done|..].
  - rewrite Hp. eapply Forall_sublist; [exact Hsub|apply (k_nonempty t Hok)].
  - intros x. rewrite (count_if_proper _ _ _ Hp). etransitivity; [apply count_if_submseteq, sublist_submseteq, Hsub|apply (k_exclusive t Hok)].
  - rewrite Hp. etransitivity; [apply sublist_length, Hsub|apply (k_reservations t Hok)].
Qed.
Lemma alter_claims_ok f p t :
  tracker_ok t → (∀ c, 0 ≤ c ≤ 65535 → 0 ≤ f c ≤ 65535) → tracker_ok (with_claims t (alter f p (in_progress_claims t))).
Proof.
  intros [K1 K2 K3 K4 K5 K6 K7 K8 K9 K10] Hf. split; try done; cbn; [by rewrite length_alter|].
  apply Forall_alter; [done|]. intros c _. apply Hf.
Qed.
Lemma set_verified_ok p t g t' g' :
  tracker_ok t → set_part_verified p t g = (t', g') →
  tracker_ok t' ∧ same_frame t t' ∧ gaps t' = gaps t ∧
  ∀ q, is_part_verified t' q = is_part_verified t q || (bool_decide (q = p) && bool_decide (p < part_count t)%nat).
Proof.
  intros Hok. unfold set_part_verified. case_decide as Hp; intros [= <- <-].
  - split; [eapply frame_ok; [done|done|apply (k_gaps t Hok)|cbn; by rewrite length_insert|done]|]. split; [done|]. split; [done|].
    intros q. rewrite (bool_decide_eq_true_2 (p < _)%nat) by (by rewrite <- (k_verified t Hok)). rewrite andb_true_r.
    unfold is_part_verified. cbn. case_bool_decide as Hq; [subst; rewrite list_lookup_insert_eq by done; by rewrite orb_true_r|].
    by rewrite list_lookup_insert_ne, orb_false_r by done.
  - split; [done|]. split; [done|]. split; [done|]. intros q.
    rewrite (bool_decide_eq_false_2 (p < _)%nat) by (by rewrite <- (k_verified t Hok)). by rewrite andb_false_r, orb_false_r.
Qed.
Lemma all_complete_parts t p : tracker_ok t → all_complete t = true → (p < part_count t)%nat → is_part_complete t p = true.
Proof.
  intros Hok He%bool_decide_eq_true Hp. apply is_part_complete_spec; [done|]. split; [done|]. intros x _. unfold lacks. by rewrite He.
Qed.
Lemma unreadable_spec n t g t' g' :
  tracker_ok t → 0 ≤ n → invalidate_unreadable n t g = (t', g') →
  tracker_ok t' ∧ same_frame t t' ∧ (verified_complete t → verified_complete t').
Proof.
  intros Hok Hn. unfold invalidate_unreadable. destruct (_ <? _); [|by intros [= <- <-]].
  destruct (invalidate_range n (file_size t) t g) as [t1 g1] eqn:E. intros [= <- <-].
  destruct (invalidate_spec _ _ _ _ _ _ Hok Hn E) as (H1 & H2 & _). split; [|split; [done|]].
  - eapply frame_ok; [exact H1|done|apply (k_gaps _ H1)|done..].
  - intros Hvc. eapply (verified_same t1); [done..|]. by apply (invalidate_verified_complete n (file_size t) t g t1 g1).
Qed.

Definition sound (t : PartTracker) : Prop := tracker_ok t ∧ verified_complete t.
Lemma fill_sound a b t g n t' g' : fill_range a b t g = (n, t', g') → sound t → sound t'.
Proof. intros E [Hok Hvc]. destruct (fill_range_spec a b t g n t' g' Hok E) as (H1 & _ & _ & _ & _ & _ & _ & H2). split; [done|by apply H2]. Qed.
Lemma run_part_op_sound o t g t' g' : op_allowed o t = true → run_part_op o t g = (t', g') → sound t → sound t'.
Proof.
  intros Ha Hr Hs. destruct Hs as [Hok Hvc]. destruct o; cbn [op_allowed] in Ha; cbn [run_part_op] in Hr.
  - apply Z.leb_le in Ha. destruct (fill_range start stop t g) as [[n t1] g1] eqn:E. injection Hr as <- <-. by eapply fill_sound.
  - unfold mark_complete in Hr. destruct (part_range t idx) as [a b]. destruct (fill_range a b t g) as [[n t1] g1] eqn:E.
    injection Hr as <- <-. by eapply fill_sound.
  - split; [by eapply mark_incomplete_spec|by eapply mark_incomplete_complete].
  - apply Z.leb_le in Ha. split; [by eapply invalidate_spec|by eapply invalidate_verified_complete].
  - apply Z.leb_le in Ha. destruct (unreadable_spec _ _ _ _ _ Hok Ha Hr) as (? & _ & ?). split; [done|by auto].
  - destruct (set_verified_ok _ _ _ _ _ Hok Hr) as (H1 & (F1 & F2 & _) & H3 & H4). split; [done|]. intros q Hq.
    assert (is_part_complete t' q = is_part_complete t q) as ->.
    { unfold is_part_complete, first_gap_reaching, gap_overlaps_from, part_range. by rewrite F1, F2, H3. }
    rewrite H4 in Hq. apply orb_true_iff in Hq as [Hq|Hq]; [by apply Hvc|]. apply andb_true_iff in Hq as [->%bool_decide_eq_true _]. done.
  - injection Hr as <- <-. assert (tracker_ok (with_verified t (const true <$> part_verified t) true)) as Hok'.
    { eapply frame_ok; [done|done|apply (k_gaps t Hok)|cbn; by rewrite length_fmap|done]. }
    split; [done|]. intros q Hq. apply (all_complete_parts _ q Hok' Ha). unfold is_part_verified in Hq. cbn in *.
    destruct ((const true <$> part_verified t) !! q) eqn:E; [|done]. apply lookup_lt_Some in E. rewrite length_fmap in E. by rewrite <- (k_verified t Hok).
  - destruct (clear_hashes_ok _ _ _ _ Hok Hr) as [H1 H2]. split; [done|]. intros q Hq. by rewrite H2 in Hq.
  - injection Hr as <- <-. destruct (apply_pending_spec g t) as (F & H1 & H2 & H3 & H4). cbv zeta in *.
    assert (tracker_ok (apply_pending_invalidations g t)) as Hok' by (eapply frame_ok; [done|exact F|rewrite H1; apply (k_gaps t Hok)|done|by rewrite H3]).
    split; [done|]. destruct F as (F1 & F2 & _). eapply (verified_complete_step t); [done..| |done]. intros q Hq. rewrite H4 in Hq.
    apply andb_true_iff in Hq as [Hq _]. split; [done|]. intros x _ Hx. unfold lacks. by rewrite H1.
  - injection Hr as <- <-. split; [by apply reserve_ok|]. unfold reserve_write_subranges. destruct (fillable_subranges _ _ _); [done|]. by eapply verified_same.
  - injection Hr as <- <-. destruct (release_spec start stop t Hok) as (? & ? & ? & ? & ?). split; [done|by eapply (verified_same t)].
  - unfold commit_write_reservation in Hr. destruct (fill_range _ _ _ _) as [[n t1] g1] eqn:E. injection Hr as <- <-.
    destruct (release_spec start stop t Hok) as (? & ? & ? & ? & ?). eapply fill_sound; [exact E|]. split; [done|by eapply (verified_same t)].
  - injection Hr as <- <-. split; [apply alter_claims_ok; [done|lia]|by eapply verified_same].
  - injection Hr as <- <-. split; [apply alter_claims_ok; [done|lia]|by eapply verified_same].
  - injection Hr as <- <-. unfold publish_in_flight_requests. destruct ranges; (split; [by destruct Hok|by eapply verified_same]).
  - injection Hr as <- <-. split; [by destruct Hok|by eapply verified_same].
  - injection Hr as <- <-. split; [by destruct Hok|by eapply verified_same].
  - injection Hr as <- <-. split; [by destruct Hok|by eapply verified_same].
  - injection Hr as <- <-. split; [by destruct Hok|by eapply verified_same].
  - injection Hr as <- <-. split; [by destruct Hok|by eapply verified_same].
  - injection Hr as <- <-. done.
Qed.
Lemma run_part_op_size o t g t' g' : op_allowed o t = true → run_part_op o t g = (t', g') → tracker_ok t → file_size t' = file_size t.
Proof.
  intros Ha Hr Hok.
  assert (∀ a b n t1 g1, fill_range a b t g = (n, t1, g1) → file_size t1 = file_size t) as Hfill.
  { intros a b n t1 g1 E. by destruct (fill_range_spec a b t g n t1 g1 Hok E) as (_ & (? & _) & _). }
  destruct o; cbn [op_allowed] in Ha; cbn [run_part_op] in Hr.
  - destruct (fill_range start stop t g) as [[n t1] g1] eqn:E. injection Hr as <- <-. by eapply Hfill.
  - unfold mark_complete in Hr. destruct (part_range t idx) as [a b]. destruct (fill_range a b t g) as [[n t1] g1] eqn:E.
    injection Hr as <- <-. by eapply Hfill.
  - by destruct (mark_incomplete_spec _ _ _ _ _ Hok Hr) as (_ & (? & _) & _).
  - apply Z.leb_le in Ha. by destruct (invalidate_spec _ _ _ _ _ _ Hok Ha Hr) as (_ & (? & _) & _).
  - apply Z.leb_le in Ha. by destruct (unreadable_spec _ _ _ _ _ Hok Ha Hr) as (_ & (? & _) & _).
  - by destruct (set_verified_ok _ _ _ _ _ Hok Hr) as (_ & (? & _) & _).
  - by injection Hr as <- _.
  - by injection Hr as <- _.
  - by injection Hr as <- _.
  - injection Hr as <- _. unfold reserve_write_subranges. by destruct (fillable_subranges _ _ _).
  - injection Hr as <- _. by apply release_spec.
  - unfold commit_write_reservation in Hr. destruct (fill_range _ _ _ _) as [[n t1] g1] eqn:E. injection Hr as <- <-.
    destruct (release_spec start stop t Hok) as (Hk & _ & _ & _ & <-). by destruct (fill_range_spec _ _ _ _ _ _ _ Hk E) as (_ & (? & _) & _).
  - by injection Hr as <- _.
  - by injection Hr as <- _.
  - injection Hr as <- _. unfold publish_in_flight_requests. by destruct ranges.
  - by injection Hr as <- _.
  - by injection Hr as <- _.
  - by injection Hr as <- _.
  - by injection Hr as <- _.
  - by injection Hr as <- _.
  - by injection Hr as <- _.
Qed.
Lemma reach_sound size path hash t g : 0 ≤ size → part_reach size path hash t g → sound t ∧ file_size t = size.
Proof.
  intros Hs. induction 1 as [g|o t g t' g' _ [IH1 IH2] Ha Hr|t g g' _ IH]; [split; [by apply blank_ok|done]| |done].
  split; [by eapply run_part_op_sound|]. rewrite <- IH2. eapply run_part_op_size; [done..|apply IH1].
Qed.
