(* ===== verification/PartClaims.v ===== *)
(** * What a tracker's answers mean

    The theorems on reachable trackers: filling counts what it fills, the fast
    queries answer what a look at every byte would, reservations are exclusive,
    and a range is served only when all of it is verified. *)
From S2P Require Import Prelude NodeId GapList PartTracker PartInv PartWrite PartSafety.
Local Open Scope Z_scope.

(** The number of missing bytes in a range. *)
Definition missing_in (t : PartTracker) (a b : Z) : Z := Z.of_nat (count_if (lacks t) (seqZ a (b - a))).

(** C4: after any sequence of operations of any workers, who verify a part only when
    it is complete and the file only when all of it is ([op_allowed]), the gap list is sorted,
    disjoint, not touching and inside the file, every per-part vector has one
    entry a part, no byte is reserved for writing twice, and a part marked verified
    has no byte missing. *)
Theorem tracker_reachable_ok size path hash t g :
  0 ≤ size → part_reach size path hash t g → tracker_ok t ∧ verified_complete t.
Proof. intros Hs Hr. by apply (reach_sound size path hash t g Hs Hr). Qed.

Lemma gap_bytes_missing t : tracker_ok t → gap_bytes (gaps t) = missing_in t 0 (file_size t).
Proof. intros Hok. apply gap_bytes_count; [apply (k_gaps t Hok)|apply (k_size t Hok)]. Qed.

(** C29: recording received bytes.  Whatever range arrives, the answer is the net
    number of bytes that became present; no missing byte outside the range becomes
    present; the list ends within [MAX_GAP_ENTRIES]; and unless it had to be
    shortened, exactly the bytes of the range became present and no part lost its
    verified mark. *)
Theorem fill_range_exact size path hash t g start stop n t' g' :
  0 ≤ size → part_reach size path hash t g → fill_range start stop t g = (n, t', g') →
  n = Z.max 0 (missing_in t 0 size - missing_in t' 0 size) ∧
  (∀ x, lacks t x = true → (start ≤ x < stop → False) → lacks t' x = true) ∧
  (start < stop → Z.of_nat (length (gaps t')) ≤ MAX_GAP_ENTRIES) ∧
  (Z.of_nat (length (cut_gaps start stop (gaps t))) ≤ MAX_GAP_ENTRIES →
    (∀ x, lacks t' x = lacks t x && negb ((start <=? x) && (x <? stop))) ∧ part_verified t' = part_verified t ∧ g' = g) ∧
  (∀ p, is_part_verified t' p = true → is_part_verified t p = true ∧ is_part_complete t' p = true).
Proof.
  intros Hs Hr Hf. destruct (reach_sound size path hash t g Hs Hr) as [[Hok Hvc] Hsz].
  destruct (fill_range_spec start stop t g n t' g' Hok Hf) as (H1 & (F1 & _) & H3 & H4 & H5 & H6 & H7 & H8).
  split; [|split; [done|split; [done|split; [done|]]]].
  - rewrite H3, (gap_bytes_missing t Hok), (gap_bytes_missing t' H1), F1, Hsz. done.
  - intros p Hp. split; [by apply H7|by apply (H8 Hvc)].
Qed.

(** ** The fast queries *)
Lemma skip_ended_split start gs :
  ∃ pre, gs = pre ++ skip_ended start gs ∧ Forall (λ g : range, g.2 ≤ start) pre ∧
    (∀ g rest, skip_ended start gs = g :: rest → start < g.2).
Proof.
  induction gs as [|g gs (pre & E & Hpre & Hhd)]; [by exists []|]. cbn [skip_ended]. destruct (Z.leb_spec g.2 start).
  - exists (g :: pre). split; [cbn; by rewrite <- E|]. split; [by constructor|done].
  - exists []. split; [done|]. split; [constructor|]. intros g' rest [= <- <-]. lia.
Qed.
Lemma completed_walk_spec t n i pre gs :
  tracker_ok t → (i + n ≤ part_count t)%nat → gaps t = pre ++ gs → Forall (λ g : range, g.2 ≤ Z.of_nat i * PARTSIZE) pre →
  completed_walk t (seq i n) gs = is_part_complete t <$> seq i n.
Proof.
  revert i pre gs. induction n as [|n IH]; intros i pre gs Hok Hi Hsp Hpre; [done|]. cbn [seq completed_walk fmap list_fmap].
  pose proof (part_range_ok t i Hok ltac:(lia)) as Hpr. destruct (part_range t i) as [start stop] eqn:Er. cbn [fst snd] in Hpr.
  assert (start = Z.of_nat i * PARTSIZE) as Hst by (by injection Er). rewrite <- Hst in Hpre.
  destruct (skip_ended_split start gs) as (pre2 & E2 & Hpre2 & Hhd). set (gs' := skip_ended start gs) in *.
  assert (gaps t = (pre ++ pre2) ++ gs') as Hsp' by (rewrite Hsp, E2 at 1; by rewrite app_assoc).
  assert (Forall (λ g : range, g.2 ≤ start) (pre ++ pre2)) as Hall by (by apply Forall_app).
  f_equal.
  - assert (∀ j g, gaps t !! j = Some g → g.2 ≤ start ↔ (j < length (pre ++ pre2))%nat) as Hidx.
    { intros j g Hj. split.
      - intros Hle. destruct (decide (j < length (pre ++ pre2))%nat) as [|Hge]; [done|exfalso].
        rewrite Hsp' in Hj. rewrite lookup_app_r in Hj by lia. destruct gs' as [|h rest] eqn:Eg; [done|]. pose proof (Hhd h rest eq_refl) as Hh.
        destruct (j - length (pre ++ pre2))%nat as [|k] eqn:Ek; [cbn in Hj; injection Hj as ->; lia|].
        assert (gaps t !! length (pre ++ pre2) = Some h) as Hl by (by rewrite Hsp', list_lookup_middle).
        assert (gaps t !! j = Some g) as Hj' by (rewrite Hsp', lookup_app_r by lia; by rewrite Ek).
        assert (length (pre ++ pre2) < j)%nat as Hpj by lia. pose proof (gaps_ok_lookup _ _ _ _ _ _ _ (k_gaps t Hok) Hpj Hl Hj') as Hlt.
        destruct (gaps_ok_bounds _ _ _ g (k_gaps t Hok)) as (? & ? & ?); [by eapply list_elem_of_lookup_2|]. lia.
      - intros Hlt. rewrite Hsp', lookup_app_l in Hj by done. rewrite Forall_forall in Hall. apply Hall. by eapply list_elem_of_lookup_2. }
    pose proof (reaching_gap 0 (file_size t) start stop (gaps t) _ (k_gaps t Hok) Hpr Hidx) as Hreach.
    assert (gaps t !! length (pre ++ pre2) = head gs') as Ehd.
    { rewrite Hsp', lookup_app_r, Nat.sub_diag by lia. by destruct gs'. }
    rewrite Ehd in Hreach. apply Bool.eq_iff_eq_true. rewrite is_part_complete_spec by done. rewrite Er. cbn [fst snd]. rewrite negb_true_iff.
    split.
    + intros Hn. split; [lia|]. intros x Hx. destruct (lacks t x) eqn:El; [|done].
      assert (match head gs' with Some g => g.1 <? stop | None => false end = true) as Ht by (apply Hreach; by exists x).
      destruct gs'; cbn in Ht; congruence.
    + intros [_ Hx]. destruct gs' as [|h rest]; [done|]. cbn in Hreach. destruct (h.1 <? stop); [|done].
      destruct (proj1 Hreach eq_refl) as (x & Hin & Hm). specialize (Hx x Hin). unfold lacks in Hx. congruence.
  - apply (IH (S i) (pre ++ pre2)); [done|lia|done|]. eapply Forall_impl; [exact Hall|]. cbn. intros g Hg. rewrite Hst in Hg. unfold PARTSIZE in *. lia.
Qed.
Lemma completed_parts_spec t : tracker_ok t → completed_parts t = is_part_complete t <$> seq 0 (part_count t).
Proof. intros Hok. by apply (completed_walk_spec t (part_count t) 0 [] (gaps t)). Qed.
Lemma count_if_split {A} (p q : A → bool) l : count_if p l = (count_if (λ x, p x && q x) l + count_if (λ x, p x && negb (q x)) l)%nat.
Proof. induction l as [|x l IH]; [done|]. rewrite !count_if_cons. destruct (p x), (q x); cbn; lia. Qed.
Lemma overlap_bytes_count start stop hi gs :
  gaps_ok 0 hi gs → 0 ≤ start → start < stop → stop ≤ hi →
  overlap_bytes start stop gs = Z.of_nat (count_if (missing gs) (seqZ start (stop - start))).
Proof.
  intros Hok H1 H2 H3. set (inr := λ x, (start <=? x) && (x <? stop)).
  pose proof (cut_gaps_bytes start stop 0 hi gs H2 Hok) as Hb. pose proof (cut_gaps_ok start stop 0 hi gs H2 Hok) as Hok'.
  rewrite (gap_bytes_count 0 hi gs Hok ltac:(lia)), (gap_bytes_count 0 hi _ Hok' ltac:(lia)) in Hb.
  rewrite (count_if_ext (missing (cut_gaps start stop gs)) (λ x, missing gs x && negb (inr x))) in Hb
    by (intros x _; by apply cut_gaps_missing).
  rewrite (count_if_split (missing gs) inr) in Hb.
  assert (count_if (λ x, missing gs x && inr x) (seqZ 0 (hi - 0)) = count_if (missing gs) (seqZ start (stop - start))) as Hc; [|lia].
  replace (hi - 0) with (start + ((stop - start) + (hi - stop))) by lia. rewrite !seqZ_app by lia. rewrite !count_if_app.
  rewrite (count_if_seqZ_none _ 0 start), (count_if_seqZ_none _ _ (hi - stop)).
  - replace (0 + start) with start by lia. rewrite Nat.add_0_r. apply count_if_ext. intros x Hx%elem_of_seqZ.
    assert (inr x = true) as -> by (unfold inr; zcases). apply andb_true_r.
  - intros x Hx. assert (inr x = false) as -> by (unfold inr; zcases). apply andb_false_r.
  - intros x Hx. assert (inr x = false) as -> by (unfold inr; zcases). apply andb_false_r.
Qed.
Lemma part_gap_bytes_spec t p :
  tracker_ok t → (p < part_count t)%nat → part_gap_bytes_vec t !! p = Some (missing_in t (part_range t p).1 (part_range t p).2).
Proof.
  intros Hok Hp. pose proof (part_range_ok t p Hok Hp) as Hpr. unfold part_gap_bytes_vec. set (step := λ acc (g : range), _).
  destruct (part_range t p) as [ps pe] eqn:Er. cbn [fst snd] in *. assert (0 ≤ ps ∧ ps = Z.of_nat p * PARTSIZE ∧ pe = Z.min ((Z.of_nat p + 1) * PARTSIZE) (file_size t)) as (Hps & Eps & Epe).
  { injection Er as <- <-. split; [unfold PARTSIZE; lia|done]. }
  assert (∀ gs acc b, gaps_ok 0 (file_size t) gs → acc !! p = Some b → foldl step acc gs !! p = Some (b + overlap_bytes ps pe gs)) as Hgen.
  { assert (∀ lo gs acc b, 0 ≤ lo → gaps_ok lo (file_size t) gs → acc !! p = Some b → foldl step acc gs !! p = Some (b + overlap_bytes ps pe gs)) as Hgen; [|intros; by eapply (Hgen 0)].
    intros lo gs. revert lo. induction gs as [|[s e] gs IH]; intros lo acc b Hlo Hg Ha; [cbn; rewrite Ha; f_equal; lia|].
    destruct Hg as (G1 & G2 & G3 & Hg). cbn [foldl overlap_bytes foldr]. fold (overlap_bytes ps pe gs).
    rewrite (IH (e + 1) _ (b + overlap ps pe (s, e))); [f_equal; lia|lia|done|].
    unfold step. rewrite list_lookup_imap, Ha. cbn [fmap option_fmap option_map]. f_equal. rewrite Er. unfold overlap.
    pose proof PARTSIZE_pos as HP. case_bool_decide as Hhit.
    - destruct (Z.ltb_spec (Z.max s ps) (Z.min e pe)), (Z.leb_spec e ps), (Z.leb_spec pe s); cbn [orb]; lia.
    - assert ((e <=? ps) || (pe <=? s) = true) as ->; [|lia]. apply orb_true_iff. rewrite !Z.leb_le.
      destruct (Z.le_gt_cases e ps) as [|He]; [by left|]. right. destruct (Z.le_gt_cases pe s) as [|Hs]; [done|exfalso]. apply Hhit.
      assert (s / PARTSIZE ≤ Z.of_nat p) by (apply Z.lt_succ_r, Z.div_lt_upper_bound; lia).
      assert (Z.of_nat p ≤ Z.max 0 (e - 1) / PARTSIZE) by (apply Z.div_le_lower_bound; lia).
      split; [|apply Nat.min_glb]; lia. }
  rewrite (Hgen _ _ 0 (k_gaps t Hok)); [|by apply lookup_replicate_2]. f_equal. unfold missing_in.
  rewrite (overlap_bytes_count ps pe (file_size t)); [done|apply (k_gaps t Hok)|lia..].
Qed.
Lemma sum_gap_bytes gs : sum_of (λ g : range, g.2 - g.1) gs = gap_bytes gs.
Proof. done. Qed.

Lemma sum_positive_lengths lo hi gs : gaps_ok lo hi gs → sum_of (λ g : range, Z.max 0 (g.2 - g.1)) gs = gap_bytes gs.
Proof.
  revert lo. induction gs as [|[s e] gs IH]; intros lo; [done|]. intros (? & ? & ? & Hg). cbn [sum_of foldr].
  fold (sum_of (λ g : range, Z.max 0 (g.2 - g.1)) gs). rewrite (IH _ Hg), gap_bytes_cons. cbn [fst snd]. lia.
Qed.

(** The tracker's fast queries agree with a look at every byte.  A part is
    reported complete exactly when no byte of it is missing; the single pass of
    [completed_parts] answers as asking part by part; the bytes completed, the
    bytes remaining and the bytes missing of every part are those counts. *)
Theorem part_queries_agree size path hash t g :
  0 ≤ size → part_reach size path hash t g →
  (∀ p, is_part_complete t p = bool_decide (p < part_count t)%nat &&
     (missing_in t (part_range t p).1 (part_range t p).2 =? 0)) ∧
  completed_parts t = is_part_complete t <$> seq 0 (part_count t) ∧
  serveable_parts t = (λ p, is_part_complete t p && is_part_verified t p) <$> seq 0 (part_count t) ∧
  completed_bytes t = size - missing_in t 0 size ∧
  remaining_gap_bytes t = missing_in t 0 size ∧
  part_gap_bytes_vec t = (λ p, missing_in t (part_range t p).1 (part_range t p).2) <$> seq 0 (part_count t).
Proof.
  intros Hs Hr. destruct (reach_sound size path hash t g Hs Hr) as [[Hok _] Hsz].
  pose proof (gap_bytes_missing t Hok) as Hgb. rewrite Hsz in Hgb.
  pose proof (gap_bytes_le _ _ _ (k_gaps t Hok) (k_size t Hok)) as Hle. split; [|split; [by apply completed_parts_spec|split; [|split; [|split]]]].
  - intros p. apply Bool.eq_iff_eq_true. rewrite is_part_complete_spec, andb_true_iff, bool_decide_eq_true, Z.eqb_eq by done.
    apply and_iff_compat_l. unfold missing_in. split.
    + intros Hx. rewrite count_if_seqZ_none; [done|]. intros x Hin. apply Hx. lia.
    + intros Hc x Hx. destruct (lacks t x) eqn:E; [exfalso|done].
      assert (count_if (lacks t) (seqZ (part_range t p).1 ((part_range t p).2 - (part_range t p).1)) = 0%nat) as H0 by lia.
      unfold count_if in H0. apply length_zero_iff_nil in H0. assert (x ∈ []) as Hin; [|by apply elem_of_nil in Hin]. rewrite <- H0.
      apply elem_of_retain. split; [done|]. apply elem_of_seqZ. lia.
  - unfold serveable_parts. rewrite completed_parts_spec by done. rewrite imap_fmap. apply list_eq. intros i.
    rewrite list_lookup_imap, list_lookup_fmap. destruct (seq 0 (part_count t) !! i) eqn:E; [|done]. cbn.
    apply lookup_seq in E as [-> _]. done.
  - unfold completed_bytes. rewrite sum_gap_bytes, Hsz. lia.
  - unfold remaining_gap_bytes. by rewrite <- Hgb, (sum_positive_lengths _ _ _ (k_gaps t Hok)).
  - apply list_eq. intros i. rewrite list_lookup_fmap. destruct (decide (i < part_count t)%nat) as [Hi|Hi].
    + rewrite lookup_seq_lt by done. by apply part_gap_bytes_spec.
    + rewrite (lookup_ge_None_2 (seq 0 (part_count t))) by (rewrite length_seq; lia). apply lookup_ge_None.
      assert (length (part_gap_bytes_vec t) = part_count t) as ->; [|lia]. unfold part_gap_bytes_vec.
      apply (foldl_inv (λ acc, length acc = part_count t)); [apply length_replicate|]. intros acc [s e] _ Ha. by rewrite length_imap.
Qed.

(** No two workers write the same byte.  What [reserve_write_subranges] grants
    lies in the range asked for, was missing, was reserved by nobody, and is
    granted once; unless the table of reservations is full, every such byte is
    granted; and afterwards no byte is in two outstanding reservations. *)
Theorem reservations_exclusive size path hash t g start stop granted t' :
  0 ≤ size → part_reach size path hash t g → reserve_write_subranges start stop t = (granted, t') →
  (∀ x, missing granted x = true →
     start ≤ x < stop ∧ lacks t x = true ∧ missing (write_reservations t) x = false) ∧
  ((length (write_reservations t) + length granted < MAX_WRITE_RESERVATIONS)%nat →
     ∀ x, start ≤ x < stop → lacks t x = true → missing (write_reservations t) x = false → missing granted x = true) ∧
  (∀ x, (count_if (inside x) (write_reservations t') ≤ 1)%nat) ∧
  (∀ x, missing (write_reservations t') x = missing (write_reservations t) x || missing granted x).
Proof.
  intros Hs Hr Hv. destruct (reach_sound size path hash t g Hs Hr) as [[Hok _] _]. pose proof (reserve_ok start stop t Hok) as Hok'.
  rewrite Hv in Hok'. cbn [snd] in Hok'. unfold reserve_write_subranges in Hv.
  assert (granted = granted_subranges start stop t ∧ t' = with_reservations t (write_reservations t ++ granted)) as [Hg Ht].
  { destruct (fillable_subranges t start stop) as [|c cs] eqn:E.
    - injection Hv as <- <-. unfold granted_subranges. rewrite E. cbn. rewrite take_nil, app_nil_r. by destruct t.
    - by injection Hv as <- <-. }
  assert (∀ x, missing granted x = true → grantable t start stop x = true) as Hin.
  { intros x Hx. pose proof (proj1 (granted_count t start stop x Hok)) as Hc. cbv zeta in Hc. rewrite <- Hg in Hc.
    destruct (grantable t start stop x); [done|]. assert (missing granted x = false); [|congruence]. apply count_if_missing. lia. }
  split; [|split; [|split; [apply (k_exclusive t' Hok')|]]].
  - intros x Hx%Hin. unfold grantable in Hx. rewrite !andb_true_iff, Z.leb_le, Z.ltb_lt, negb_true_iff in Hx. tauto.
  - intros Hroom x Hx Hl Hm. pose proof (proj2 (granted_count t start stop x Hok)) as Hc. cbv zeta in Hc. rewrite <- Hg in Hc.
    specialize (Hc ltac:(lia)). assert (grantable t start stop x = true) as Hgt.
    { unfold grantable. rewrite !andb_true_iff, Z.leb_le, Z.ltb_lt, negb_true_iff. tauto. }
    rewrite Hgt in Hc. destruct (missing granted x) eqn:Em; [done|]. apply count_if_missing in Em. lia.
  - intros x. rewrite Ht. cbn. apply missing_app.
Qed.

(** What may be uploaded.  A range is reported safe to serve exactly when it is
    a non-empty range of the file and every byte of it is present and lies in a
    part that is marked verified. *)
Theorem served_bytes_verified size path hash t g start stop :
  0 ≤ size → part_reach size path hash t g → 0 ≤ start →
  is_range_safe_to_serve t start stop = true ↔
  start < stop ∧ stop ≤ size ∧ (0 < part_count t)%nat ∧
  ∀ x, start ≤ x < stop → lacks t x = false ∧ is_part_verified t (Z.to_nat (x / PARTSIZE)) = true.
Proof.
  intros Hs Hr Hst. destruct (reach_sound size path hash t g Hs Hr) as [[Hok Hvc] Hsz]. pose proof PARTSIZE_pos as HP.
  unfold is_range_safe_to_serve. rewrite Hsz. destruct (Z.leb_spec stop start); cbn [orb]; [split; [done|lia]|].
  destruct (Z.ltb_spec size stop); cbn [orb]; [split; [done|lia]|]. case_bool_decide as Hpc; [split; [done|lia]|].
  rewrite forallb_forall. set (last := Nat.min _ _). split.
  - intros Hall. split; [done|]. split; [done|]. split; [lia|]. intros x Hx.
    destruct (part_of_byte t x Hok ltac:(lia) ltac:(lia)) as [Hp Hxp]. set (p := Z.to_nat (x / PARTSIZE)) in *. cbv zeta in *.
    assert (start / PARTSIZE ≤ x / PARTSIZE) by (apply Z.div_le_mono; lia).
    assert (x / PARTSIZE ≤ (stop - 1) / PARTSIZE) by (apply Z.div_le_mono; lia).
    specialize (Hall p). rewrite andb_true_iff in Hall. destruct Hall as [Hc Hv]; [apply in_seq; unfold last, p in *; lia|].
    split; [|done]. apply is_part_complete_spec in Hc as [_ Hc]; [by apply Hc|done].
  - intros (_ & _ & _ & Hall) p Hp%in_seq. assert (is_part_verified t p = true) as Hv; [|by rewrite Hv, (Hvc p Hv)].
    assert (∃ x, start ≤ x < stop ∧ Z.to_nat (x / PARTSIZE) = p) as (x & Hx & <-); [|by apply Hall].
    assert (start / PARTSIZE ≤ Z.of_nat p) by (unfold last in Hp; lia). assert (Z.of_nat p ≤ (stop - 1) / PARTSIZE).
    { pose proof (Z.div_pos (stop - 1) PARTSIZE ltac:(lia) HP). unfold last in Hp. lia. }
    exists (Z.max start (Z.of_nat p * PARTSIZE)). pose proof (Z.mul_div_le (stop - 1) PARTSIZE HP). split; [nia|].
    pose proof (Z.mul_succ_div_gt start PARTSIZE HP). apply Nat2Z.inj. rewrite Z2Nat.id by (apply Z.div_pos; nia).
    symmetry. apply (Z.div_unique _ _ _ (Z.max start (Z.of_nat p * PARTSIZE) - Z.of_nat p * PARTSIZE)); [|lia]. left. nia.
Qed.

(** ** Examples *)
Definition sample_ops : list part_op :=
  [OpReserve 0 9728000; OpCommit 0 9728000; OpFill 9000000 10000000; OpVerify 0; OpClaim 2; OpFill 15000000 15000010].
Fixpoint run_part_ops (os : list part_op) (t : PartTracker) (g : Shared) : PartTracker * Shared :=
  match os with [] => (t, g) | o :: os => let '(t, g) := run_part_op o t g in run_part_ops os t g end.
Fixpoint ops_allowed (os : list part_op) (t : PartTracker) (g : Shared) : bool :=
  match os with [] => true | o :: os => op_allowed o t && let '(t, g) := run_part_op o t g in ops_allowed os t g end.
Lemma run_part_ops_reach size path hash os t g t' g' :
  part_reach size path hash t g → ops_allowed os t g = true → run_part_ops os t g = (t', g') → part_reach size path hash t' g'.
Proof.
  revert t g. induction os as [|o os IH]; intros t g Hr; cbn; [by intros _ [= <- <-]|]. intros [Ha Hos]%andb_true_iff.
  destruct (run_part_op o t g) as [t1 g1] eqn:E. intros Hrun. eapply IH; [|exact Hos|exact Hrun]. by eapply part_step_reach.
Qed.
Definition sample_state : PartTracker * Shared := run_part_ops sample_ops (blank_tracker 20000000 [1] [2]) Shared_init.
Lemma sample_reach : part_reach 20000000 [1] [2] sample_state.1 sample_state.2.
Proof.
  eapply (run_part_ops_reach _ _ _ sample_ops); [apply (part_start_reach 20000000 [1] [2] Shared_init)|by vm_compute|].
  unfold sample_state. by destruct (run_part_ops _ _ _).
Qed.
Lemma tracker_reachable_ok_witness : tracker_ok sample_state.1 ∧ verified_complete sample_state.1.
Proof. apply (tracker_reachable_ok 20000000 [1] [2] sample_state.1 sample_state.2); [lia|exact sample_reach]. Defined.
Lemma fill_range_exact_witness :
  gaps sample_state.1 = [(10000000, 15000000); (15000010, 20000000)] ∧
  ∀ x, lacks (fill_range 14000000 16000000 sample_state.1 sample_state.2).1.2 x =
       lacks sample_state.1 x && negb ((14000000 <=? x) && (x <? 16000000)).
Proof.
  split; [vm_compute; reflexivity|].
  destruct (fill_range 14000000 16000000 sample_state.1 sample_state.2) as [[n t'] g'] eqn:E.
  destruct (fill_range_exact 20000000 [1] [2] sample_state.1 sample_state.2 14000000 16000000 n t' g' ltac:(lia) sample_reach E) as (_ & _ & _ & H & _).
  apply H. vm_compute. discriminate.
Defined.
Lemma part_queries_agree_witness :
  completed_parts sample_state.1 = [true; false; false] ∧
  is_part_complete sample_state.1 <$> seq 0 (part_count sample_state.1) = [true; false; false].
Proof.
  split; [vm_compute; reflexivity|].
  destruct (part_queries_agree 20000000 [1] [2] sample_state.1 sample_state.2 ltac:(lia) sample_reach) as (_ & H & _).
  rewrite <- H. vm_compute. reflexivity.
Defined.
Lemma reservations_exclusive_witness :
  (reserve_write_subranges 14000000 16000000 sample_state.1).1 = [(14000000, 15000000); (15000010, 16000000)] ∧
  ∀ x, (count_if (inside x) (write_reservations (reserve_write_subranges 14000000 16000000 sample_state.1).2) ≤ 1)%nat.
Proof.
  split; [vm_compute; reflexivity|].
  destruct (reserve_write_subranges 14000000 16000000 sample_state.1) as [gr t'] eqn:E.
  apply (reservations_exclusive 20000000 [1] [2] sample_state.1 sample_state.2 14000000 16000000 gr t' ltac:(lia) sample_reach E).
Defined.
Lemma served_bytes_verified_witness :
  is_range_safe_to_serve sample_state.1 100 9000000 = true ∧
  ∀ x, 100 ≤ x < 9000000 → lacks sample_state.1 x = false ∧ is_part_verified sample_state.1 (Z.to_nat (x / PARTSIZE)) = true.
Proof.
  assert (is_range_safe_to_serve sample_state.1 100 9000000 = true) as E by (vm_compute; reflexivity). split; [exact E|].
  apply (served_bytes_verified 20000000 [1] [2] sample_state.1 sample_state.2 100 9000000 ltac:(lia) sample_reach ltac:(lia)). exact E.
Defined.
