(* ===== verification/PartVerify.v ===== *)
(** * Withdrawn parts are not served

    The download worker withdraws the verified mark of a part while an upload
    session serves from a copy it parsed earlier from a sidecar that may be older
    still.  [UNVERIFIED_SINCE_CLEAR] and [VERIFICATION_EPOCH] connect the two
    ([network/ed2k/part_tracker.rs]; the session is [refresh_part_tracker] and the
    serve loop of [network/ed2k/upload.rs]).  Here the protocol is a step relation
    with every read and write of the shared state a step of its own, the worker's
    operations are shown to be sequences of its steps, and a session whose stamp
    is current never holds a part the worker has withdrawn.  The end of a download,
    where [delete_met] forgets its records with the sidecar, is outside the
    protocol. *)
From S2P Require Import Prelude NodeId GapList PartTracker PartInv PartSafety.
Local Open Scope Z_scope.

(** ** The protocol *)

(** An upload session between its reads of the shared state. *)
Inductive session :=
  | NoCache
  | Stamped (stamp : Z)                         (* the epoch was read *)
  | Parsed (stamp : Z) (flags : list bool)      (* the sidecar was read *)
  | Cached (stamp : Z) (flags : list bool)
  | Refreshing (stamp : Z) (flags : list bool). (* the epoch moved; the new one was read *)
(** What the worker, the disk and one session share.  [bumping] is the moment
    between recording withdrawn parts and moving the epoch; [saved] are the flag
    vectors ever put in a snapshot, any of which may be what the disk holds. *)
Record protocol := mkProtocol {
  verified : list bool;
  shared : Shared;
  bumping : bool;
  saved : list (list bool);
  sess : session;
}.
Definition marked (flags : list bool) (p : nat) : Prop := flags !! p = Some true.
Definition overlay (upath hash : bytes) (g : Shared) (flags : list bool) : list bool :=
  foldl (λ v p, <[p := false]> v) flags (usc_parts_for upath hash g).

Section protocol.
Context (path hash : bytes).

(** The worker's side: one part verified, all verified, parts withdrawn, the epoch moved. *)
Inductive worker_step : list bool * Shared * bool → list bool * Shared * bool → Prop :=
  | w_verify v g p : (p < length v)%nat → worker_step (v, g, false) (<[p := true]> v, usc_clear_part path hash p g, false)
  | w_file_verified v g : worker_step (v, g, false) (const true <$> v, usc_clear_all path hash g, false)
  | w_withdraw v g cleared : cleared ≠ [] →
      worker_step (v, g, false) (foldl (λ v p, <[p := false]> v) v cleared, usc_record path hash cleared g, true)
  | w_bump v g : worker_step (v, g, true) (v, bump_verification_epoch g, false).

(** The session's side, for a copy reached under [upath]. *)
Inductive session_step (g : Shared) (disk : list (list bool)) : session → session → Prop :=
  | s_stamp s : session_step g disk s (Stamped (epoch g))
  | s_parse e fl fl' : fl ∈ disk → (∀ p, marked fl' p → marked fl p) → session_step g disk (Stamped e) (Parsed e fl')
  | s_parse_empty e n : session_step g disk (Stamped e) (Parsed e (replicate n false))
  | s_overlay upath e fl : session_step g disk (Parsed e fl) (Cached e (overlay upath hash g fl))
  | s_notice e fl : e ≠ epoch g → session_step g disk (Cached e fl) (Refreshing (epoch g) fl)
  | s_refresh upath e fl : session_step g disk (Refreshing e fl) (Cached e (overlay upath hash g fl))
  | s_drop s : session_step g disk s NoCache.

Inductive proto_step : protocol → protocol → Prop :=
  | p_worker v g b v' g' b' sv s :
      worker_step (v, g, b) (v', g', b') → (epoch g < 18446744073709551615) →
      proto_step (mkProtocol v g b sv s) (mkProtocol v' g' b' sv s)
  | p_snapshot v g b sv s : proto_step (mkProtocol v g b sv s) (mkProtocol v g b (v :: sv) s)
  | p_session v g b sv s s' : session_step g sv s s' → proto_step (mkProtocol v g b sv s) (mkProtocol v g b sv s')
  | p_others v g b sv s g' :                    (* other files' trackers *)
      by_hash g' !! hash = by_hash g !! hash → epoch g ≤ epoch g' → proto_step (mkProtocol v g b sv s) (mkProtocol v g' b sv s).
(** The process starts with nothing withdrawn and the flags the sidecar gave. *)
Definition proto_init (flags : list bool) (g : Shared) : protocol := mkProtocol flags g false [flags] NoCache.

(** ** The invariant *)
Definition pending (g : Shared) (p : nat) : Prop := p ∈ default ∅ (by_hash g !! hash).
Definition covered (v : list bool) (g : Shared) (flags : list bool) : Prop := ∀ p, marked flags p → (p < length v)%nat ∧ (marked v p ∨ pending g p).
Definition session_ok (v : list bool) (g : Shared) (b : bool) (s : session) : Prop :=
  match s with
  | NoCache => True
  | Stamped e => e ≤ epoch g
  | Parsed e fl | Refreshing e fl => e ≤ epoch g ∧ covered v g fl
  | Cached e fl => e ≤ epoch g ∧ covered v g fl ∧ (e = epoch g → b = false → ∀ p, marked fl p → marked v p)
  end.
Record proto_ok (s : protocol) : Prop := {
  q_epoch : 0 ≤ epoch (shared s);
  q_saved : ∀ fl, fl ∈ saved s → covered (verified s) (shared s) fl;
  q_sess : session_ok (verified s) (shared s) (bumping s) (sess s);
}.

Lemma holds_overlay upath g fl p :
  hash ≠ ZERO_HASH → marked (overlay upath hash g fl) p → marked fl p ∧ ¬ pending g p.
Proof.
  intros Hh. unfold marked, overlay. rewrite foldl_clear. destruct (fl !! p) as [b|]; [|done]. cbn. intros [= H].
  apply andb_true_iff in H as [-> Hn%negb_true_iff%bool_decide_eq_false]. split; [done|]. intros Hp. apply Hn.
  unfold usc_parts_for. apply elem_of_app. right. rewrite decide_False by done. by apply elem_of_elements.
Qed.
Lemma lookup_drop_at k p m q : q ∈ default ∅ (drop_at k p m !! k) ↔ q ∈ default ∅ (m !! k) ∧ q ≠ p.
Proof.
  unfold drop_at. destruct (m !! k) as [s|] eqn:E; [|rewrite E; cbn; set_solver]. case_decide as Hs.
  - rewrite lookup_delete_eq. cbn. set_solver.
  - rewrite lookup_insert_eq. cbn. set_solver.
Qed.
Lemma marked_clear v cleared p : marked (foldl (λ v p, <[p := false]> v) v cleared) p ↔ marked v p ∧ p ∉ cleared.
Proof.
  unfold marked. rewrite foldl_clear. destruct (v !! p) as [b|]; cbn; [|naive_solver]. case_bool_decide; destruct b; naive_solver.
Qed.
(** A worker's step keeps whatever was covered covered. *)
Lemma worker_covered v g b v' g' b' fl :
  hash ≠ ZERO_HASH → worker_step (v, g, b) (v', g', b') → covered v g fl → covered v' g' fl.
Proof.
  intros Hh Hw Hc p Hp. destruct (Hc p Hp) as [Hlt Hc']. inversion Hw; subst; unfold pending in *; cbn [by_hash usc_clear_part usc_clear_all].
  - rewrite length_insert, lookup_drop_at. split; [done|]. unfold marked in *.
    destruct (decide (p = p0)) as [->|Hne]; [left; by rewrite list_lookup_insert_eq|]. rewrite list_lookup_insert_ne by done. tauto.
  - rewrite length_fmap. split; [done|]. left. unfold marked. rewrite list_lookup_fmap.
    destruct (lookup_lt_is_Some_2 v p Hlt) as [x ->]. done.
  - rewrite length_foldl_clear. split; [done|]. rewrite marked_clear. destruct cleared as [|c cleared]; [done|]. unfold usc_record.
    cbn [by_hash]. rewrite decide_False by done. unfold extend_at. rewrite lookup_insert_eq. cbn [default from_option].
    destruct (decide (p ∈ c :: cleared)); [right; set_solver|]. set_solver.
  - by split.
Qed.
Lemma worker_epoch v g b v' g' b' :
  worker_step (v, g, b) (v', g', b') → 0 ≤ epoch g < 18446744073709551615 →
  epoch g ≤ epoch g' ∧ (b = true → epoch g < epoch g') ∧ (b = false → b' = false → ∀ p, marked v p → marked v' p).
Proof.
  intros Hw He. inversion Hw; subst; cbn.
  - split; [done|]. split; [done|]. intros _ _ q. unfold marked. destruct (decide (q = p)) as [->|]; [by rewrite list_lookup_insert_eq|].
    by rewrite list_lookup_insert_ne.
  - split; [done|]. split; [done|]. intros _ _ q. unfold marked. rewrite list_lookup_fmap. by intros ->.
  - destruct cleared; cbn; done.
  - unfold u64_wrapping_inc. rewrite Z.mod_small by lia. split; [lia|]. split; [lia|done].
Qed.
Lemma proto_step_ok s s' : hash ≠ ZERO_HASH → proto_step s s' → proto_ok s → proto_ok s'.
Proof.
  intros Hh Hst [Q1 Q2 Q3]. inversion Hst as [v g b v' g' b' sv ss Hw He|v g b sv ss|v g b sv ss ss' Hs|v g b sv ss g' Hg He]; subst; cbn in *.
  - destruct (worker_epoch _ _ _ _ _ _ Hw ltac:(lia)) as (E1 & E2 & E3). split; cbn; [lia|intros fl Hfl; by eapply worker_covered, Q2|].
    destruct ss as [|e|e fl|e fl|e fl]; cbn in *; [done|lia|..].
    + destruct Q3 as [? ?]. split; [lia|by eapply worker_covered].
    + destruct Q3 as (? & ? & Hc). split; [lia|]. split; [by eapply worker_covered|]. intros -> -> p Hp.
      destruct b; [specialize (E2 eq_refl); lia|]. apply (E3 eq_refl eq_refl), Hc; [lia|done|done].
    + destruct Q3 as [? ?]. split; [lia|by eapply worker_covered].
  - split; cbn; [done| |done]. intros fl [->|Hfl]%elem_of_cons; [|by apply Q2]. intros p Hp. split; [|by left]. by eapply lookup_lt_Some.
  - split; cbn; [done|done|].
    assert (∀ upath e fl, e ≤ epoch g → covered v g fl → session_ok v g b (Cached e (overlay upath hash g fl))) as Hov.
    { intros upath e fl Hle Hc. assert (∀ p, marked (overlay upath hash g fl) p → (p < length v)%nat ∧ marked v p) as H.
      { intros p [Hp Hn]%holds_overlay; [|done]. destruct (Hc p Hp) as [? [?|?]]; done. }
      split; [done|]. split; [intros p Hp; destruct (H p Hp); split; [done|by left]|]. intros _ _ p Hp. by apply H. }
    inversion Hs; subst; cbn in *.
    + lia.
    + split; [done|]. intros p Hp. by apply (Q2 fl); [|auto].
    + split; [done|]. intros p Hp. unfold marked in Hp. by apply lookup_replicate in Hp as [? _].
    + apply Hov; tauto.
    + split; [lia|tauto].
    + apply Hov; tauto.
    + done.
  - assert (∀ fl, covered v g fl → covered v g' fl) as Hc by (intros fl H p Hp; unfold pending; rewrite Hg; by apply H).
    split; cbn; [lia|intros fl Hfl; by apply Hc, Q2|]. destruct ss as [|e|e fl|e fl|e fl]; cbn in *; [done|lia|..].
    + split; [lia|apply Hc, Q3].
    + destruct Q3 as (? & ? & H3). split; [lia|]. split; [by apply Hc|]. intros Ee. apply H3. lia.
    + split; [lia|apply Hc, Q3].
Qed.
Lemma proto_reach_ok flags g s : hash ≠ ZERO_HASH → 0 ≤ epoch g → rtc proto_step (proto_init flags g) s → proto_ok s.
Proof.
  intros Hh Hg Hr. assert (∀ a b, rtc proto_step a b → proto_ok a → proto_ok b) as Hstar.
  { induction 1 as [|a b c Hab _ IH]; [done|]. intros Ha. by apply IH, (proto_step_ok a). }
  apply (Hstar _ _ Hr). split; cbn; [done| |done]. intros fl ->%list_elem_of_singleton p Hp. split; [by eapply lookup_lt_Some|by left].
Qed.

(** C16: an upload session never serves a part the download has withdrawn.  However
    the worker's verifications and withdrawals, saves of any earlier state,
    re-reads of the sidecar, refreshes of the cached copy and other downloads
    interleave, a session whose stamp is the current epoch marked a part verified
    only if the worker does, outside the moment between recording a withdrawal and
    moving the epoch. *)
Theorem withdrawn_parts_not_served flags g s e fl p :
  hash ≠ ZERO_HASH → 0 ≤ epoch g → rtc proto_step (proto_init flags g) s →
  sess s = Cached e fl → e = epoch (shared s) → bumping s = false → marked fl p → marked (verified s) p.
Proof.
  intros Hh Hg Hr Hs He Hb Hp. destruct (proto_reach_ok flags g s Hh Hg Hr) as [_ _ Q3]. rewrite Hs in Q3.
  by apply (proj2 (proj2 Q3) He Hb).
Qed.
End protocol.

(** ** The tracker's operations are the worker's steps *)
Lemma flags_eq (l k : list bool) : length l = length k → (∀ p, default false (l !! p) = default false (k !! p)) → l = k.
Proof.
  intros Hlen H. apply list_eq_same_length with (length k); [done|done|]. intros i x y _ Hx Hy. specialize (H i). rewrite Hx, Hy in H. done.
Qed.
Lemma elem_of_verified_indices flags p : p ∈ verified_indices flags ↔ flags !! p = Some true.
Proof.
  unfold verified_indices. rewrite list_elem_of_omap. split.
  - intros ([q b] & Hin & Hq). apply elem_of_lookup_imap in Hin as (i & b' & [= -> ->] & Hi). cbn in Hq. destruct b'; [|done]. by injection Hq as ->.
  - intros Hp. exists (p, true). split; [|done]. apply elem_of_lookup_imap. by exists p, true.
Qed.
Notation moves t := (rtc (worker_step (met_path t) (file_hash t))).
Lemma withdraw_moves t v g cleared :
  moves t (v, g, false) (foldl (λ v p, <[p := false]> v) v cleared, withdraw cleared t g, false).
Proof.
  destruct cleared as [|c cleared]; [done|]. eapply rtc_l; [by apply (w_withdraw _ _ v g (c :: cleared))|]. eapply rtc_l; [apply w_bump|]. done.
Qed.
(** Two trackers of one file, one behind the other. *)
Lemma moves_frame t t' a b : same_frame t t' → moves t' a b → moves t a b.
Proof. intros (_ & _ & _ & _ & _ & F6 & F7 & _). by rewrite F6, F7. Qed.
Lemma invalidate_moves start stop t g t' g' :
  tracker_ok t → 0 ≤ start → invalidate_range start stop t g = (t', g') → moves t (part_verified t, g, false) (part_verified t', g', false).
Proof.
  intros Hok Hs Hi. destruct (invalidate_spec _ _ _ _ _ _ Hok Hs Hi) as (H1 & (_ & F2 & _) & _ & H4 & _ & ->).
  set (cleared := retain _ _). assert (part_verified t' = foldl (λ v p, <[p := false]> v) (part_verified t) cleared) as ->; [|apply withdraw_moves].
  apply flags_eq; [rewrite length_foldl_clear, (k_verified t Hok), (k_verified t' H1); done|]. intros p. specialize (H4 p).
  unfold is_part_verified in H4. rewrite H4, foldl_clear. destruct (part_verified t !! p) as [b|] eqn:E; [|done]. cbn. destruct b; [|done]. cbn.
  f_equal. assert (p ∈ cleared ↔ hits start stop t p = true) as Hc.
  { unfold cleared. rewrite elem_of_retain, elem_of_verified_indices. rewrite E. tauto. }
  destruct (hits start stop t p); [by rewrite bool_decide_eq_true_2 by (by apply Hc)|]. rewrite bool_decide_eq_false_2; [done|]. intros ?%Hc. done.
Qed.
Lemma coalesce_moves fuel t g r r' t' g' :
  tracker_ok t → coalesce fuel t g r = (r', t', g') → moves t (part_verified t, g, false) (part_verified t', g', false).
Proof.
  revert t g r. induction fuel as [|fuel IH]; intros t g r Hok; cbn [coalesce]; [by intros [= <- <- <-]|].
  destruct (_ <? _); [|by intros [= <- <- <-]]. destruct (find_smallest_coalesce_candidate _) as [i|]; [|by intros [= <- <- <-]].
  destruct (gaps t !! i) as [a|] eqn:Ea; [|by intros [= <- <- <-]]. destruct (gaps t !! S i) as [b|]; [|by intros [= <- <- <-]].
  destruct (_ <=? _); [by intros [= <- <- <-]|]. destruct (invalidate_range a.2 b.1 t g) as [t1 g1] eqn:Ei. intros Hc.
  assert (0 ≤ a.2) as Hpos.
  { destruct (gaps_ok_bounds _ _ _ a (k_gaps t Hok)) as (? & ? & ?); [by eapply list_elem_of_lookup_2|]. lia. }
  destruct (invalidate_spec _ _ _ _ _ _ Hok Hpos Ei) as (H1 & F & _).
  etransitivity; [by eapply invalidate_moves|]. eapply moves_frame; [exact F|]. by eapply IH.
Qed.
Lemma fill_moves start stop t g n t' g' :
  tracker_ok t → fill_range start stop t g = (n, t', g') → moves t (part_verified t, g, false) (part_verified t', g', false).
Proof.
  intros Hok. unfold fill_range. destruct (Z.leb_spec stop start); [by intros [= <- <- <-]|].
  set (t1 := with_gaps t _). set (t2 := if 0 <? _ then _ else t1).
  destruct (bump_frame start stop t1) as (F & G & V & _ & N).
  assert (same_frame t t2 ∧ gaps t2 = gaps t1 ∧ part_verified t2 = part_verified t ∧
    length (part_content_generation t2) = length (part_content_generation t)) as (F2 & G2 & V2 & N2) by (unfold t2; destruct (0 <? _); done).
  assert (tracker_ok t2) as Hok2.
  { eapply frame_ok; [exact Hok|exact F2|rewrite G2; cbn; by apply cut_gaps_ok, k_gaps|by rewrite V2|done]. }
  destruct (coalesce _ t2 g 0) as [[r' t3] g3] eqn:Ec. intros [= <- <- <-]. rewrite <- V2. eapply moves_frame; [exact F2|]. by eapply coalesce_moves.
Qed.

(** [clear_all] leaves nothing of the file, and other files alone. *)
Lemma forgotten path hash g :
  usc_parts_for path hash (usc_clear_all path hash g) = [] ∧
  ∀ h, h ≠ hash → by_hash (usc_clear_all path hash g) !! h = by_hash g !! h.
Proof.
  unfold usc_parts_for, usc_clear_all. cbn. rewrite !lookup_delete_eq. split; [by case_decide|].
  intros h Hh. by rewrite lookup_delete_ne.
Qed.


(** ** Examples *)
Definition after_withdrawal : Shared := bump_verification_epoch (usc_record [1] [2] [0%nat] Shared_init).
Definition sample_end : protocol :=
  mkProtocol [false; true] after_withdrawal false [[true; true]] (Cached 1 (overlay [7] [2] after_withdrawal [true; true])).
Lemma sample_run : rtc (proto_step [1] [2]) (proto_init [true; true] Shared_init) sample_end.
Proof.
  eapply rtc_l; [apply p_session, s_stamp|].
  eapply rtc_l; [apply p_session, (s_parse _ _ _ _ [true; true] [true; true]); [left|done]|].
  eapply rtc_l; [apply p_session, (s_overlay _ _ _ [7])|].
  eapply rtc_l; [apply p_worker; [by apply (w_withdraw _ _ _ _ [0%nat])|done]|].
  eapply rtc_l; [apply p_worker; [apply w_bump|done]|].
  eapply rtc_l; [apply p_session, s_notice; vm_compute; discriminate|].
  eapply rtc_l; [apply p_session, (s_refresh _ _ _ [7])|]. replace sample_end with (mkProtocol [false; true] after_withdrawal false [[true; true]]
    (Cached (epoch after_withdrawal) (overlay [7] [2] after_withdrawal (overlay [7] [2] Shared_init [true; true])))) by (vm_compute; reflexivity).
  apply rtc_refl.
Qed.
Lemma withdrawn_parts_not_served_witness :
  sess sample_end = Cached 1 [false; true] ∧ marked (verified sample_end) 1.
Proof.
  split; [vm_compute; reflexivity|].
  apply (withdrawn_parts_not_served [1] [2] [true; true] Shared_init sample_end 1 [false; true] 1);
    [discriminate|vm_compute; discriminate|exact sample_run|vm_compute; reflexivity|vm_compute; reflexivity|reflexivity|reflexivity].
Defined.
Definition verified_sample : PartTracker * Shared :=
  run_part_op (OpVerify 0) (run_part_op (OpFill 0 9728000) (blank_tracker 20000000 [1] [2]) Shared_init).1 Shared_init.
Lemma verified_sample_reach : part_reach 20000000 [1] [2] verified_sample.1 verified_sample.2.
Proof.
  eapply (part_step_reach _ _ _ (OpVerify 0) (run_part_op (OpFill 0 9728000) (blank_tracker 20000000 [1] [2]) Shared_init).1 Shared_init);
    [|vm_compute; reflexivity|apply surjective_pairing].
  eapply part_others_reach, (part_step_reach _ _ _ (OpFill 0 9728000) (blank_tracker 20000000 [1] [2]) Shared_init);
    [apply part_start_reach|vm_compute; reflexivity|apply surjective_pairing].
Qed.
