(* ===== verification/PartMet.v ===== *)
(** * The [.part.met] sidecar

    The eMule-format writer and reader of [network/ed2k/part_tracker.rs]: the
    header, the tags, and what a tracker takes from a sidecar.  A [Cursor] over
    the file is the bytes still ahead of it; a failed read leaves the tracker as
    the fields read so far made it, as the source does. *)
From S2P Require Import Prelude NodeId Addr Contact Record Wire MapOrder GapList PartTracker.
Local Open Scope Z_scope.

(** ** Errors and readers *)
Inductive MetError :=
  | MetEof | MetTooSmall | MetUnknownFormat | MetSplitFormat | MetTruncatedHashes | MetNameTooLong
  | MetStringBoundary | MetBlobBoundary | MetBitSetOverflow | MetBsobOverflow | MetUnknownType
  | MetLegacySize | MetLegacyCount | MetLegacyTruncated | MetTooManyHashes | MetGapTooLarge | MetBlobTooLarge
  | MetNoSize | MetNoName | MetUnreadable.
Inductive met (A : Type) := MOk (x : A) | MErr (e : MetError).
Arguments MOk {A} x.
Arguments MErr {A} e.
#[export] Instance met_bind : MBind met := λ A B f m, match m with MOk x => f x | MErr e => MErr e end.
#[export] Instance met_ret : MRet met := @MOk.
Definition rd (A : Type) : Type := bytes → met (A * bytes).
#[export] Instance rd_bind : MBind rd := λ A B f m d, match m d with MOk (x, d) => f x d | MErr e => MErr e end.
#[export] Instance rd_ret : MRet rd := λ A x d, MOk (x, d).
Definition rd_fail {A} (e : MetError) : rd A := λ _, MErr e.
(** [read_exact] of [n] bytes. *)
Definition rd_exact (n : nat) : rd bytes := λ d, if decide (n ≤ length d)%nat then MOk (take n d, drop n d) else MErr MetEof.
(** The bytes left. *)
Definition rd_left : rd Z := λ d, MOk (Z.of_nat (length d), d).
Definition rd_uint (n : nat) : rd Z := l ← rd_exact n; mret (le_value l).
(** Skips [n] bytes if the file has them. *)
Definition rd_skip (n : Z) (e : MetError) : rd unit :=
  left ← rd_left; if left <? n then rd_fail e else (_ ← rd_exact (Z.to_nat n); mret tt).

(** ** Formats and tags *)
Definition OLD_PART_MET_MAGIC : Z := 1347241300.
Definition PARTFILE_VERSION : Z := 224.
Definition PARTFILE_SPLITTED_VERSION : Z := 225.
Definition PARTFILE_VERSION_LARGEFILE : Z := 226.
Definition FT_FILENAME : Z := 1.
Definition FT_FILESIZE : Z := 2.
Definition FT_GAPSTART : Z := 9.
Definition FT_GAPEND : Z := 10.
Definition FT_TRANSFERRED : Z := 8.
Definition FT_STATUS : Z := 20.
Definition FT_EMBER_VERIFIED_BITMAP : Z := 235.
Definition FT_EMBER_GAP_FORMAT : Z := 236.
Definition GAP_FORMAT_EXCLUSIVE_END : Z := 1.
Definition TAGTYPE_UINT32 : Z := 3.
Definition TAGTYPE_UINT64 : Z := 11.
Definition TAGTYPE_STRING : Z := 2.
Definition TAGTYPE_BLOB : Z := 7.
Definition MAX_TAG_COUNT : Z := 100000.

(** The offset of the file hash, and whether a hashset follows it. *)
Definition part_met_hash_layout (data : bytes) (version : Z) : met (nat * bool) :=
  if version =? PARTFILE_SPLITTED_VERSION then MErr MetSplitFormat
  else
    let edonkey_new_old := (version =? PARTFILE_VERSION)
      && bool_decide (slice 24 28 data = Some [0; 0; 2; 1])
      && match slice 1 5 data with Some word => negb (bool_decide (word = [0; 0; 0; 0])) | None => false end in
    MOk (if edonkey_new_old then (6%nat, false) else (5%nat, true)).

(** ** Strings *)

(** [String::from_utf8_lossy]: each maximal part of an invalid sequence becomes U+FFFD. *)
Definition FFFD : bytes := [239; 191; 189].
Definition second_of_three (b0 b1 : Z) : bool :=
  (224 <=? b0) && (b0 <=? 239) &&
  (if b0 =? 224 then (160 <=? b1) && (b1 <=? 191) else if b0 =? 237 then (128 <=? b1) && (b1 <=? 159) else utf8_cont b1).
Definition second_of_four (b0 b1 : Z) : bool :=
  (240 <=? b0) && (b0 <=? 244) &&
  (if b0 =? 240 then (144 <=? b1) && (b1 <=? 191) else if b0 =? 244 then (128 <=? b1) && (b1 <=? 143) else utf8_cont b1).
Fixpoint from_utf8_lossy (l : bytes) : bytes :=
  match l with
  | [] => []
  | b0 :: l1 =>
      if b0 <? 128 then b0 :: from_utf8_lossy l1
      else match l1 with
      | [] => FFFD
      | b1 :: l2 =>
          if (194 <=? b0) && (b0 <=? 223) && utf8_cont b1 then b0 :: b1 :: from_utf8_lossy l2
          else if second_of_three b0 b1 then
            match l2 with
            | [] => FFFD
            | b2 :: l3 => if utf8_cont b2 then b0 :: b1 :: b2 :: from_utf8_lossy l3 else FFFD ++ from_utf8_lossy l2
            end
          else if second_of_four b0 b1 then
            match l2 with
            | [] => FFFD
            | b2 :: l3 =>
                if utf8_cont b2 then
                  match l3 with
                  | [] => FFFD
                  | b3 :: l4 => if utf8_cont b3 then b0 :: b1 :: b2 :: b3 :: from_utf8_lossy l4 else FFFD ++ from_utf8_lossy l3
                  end
                else FFFD ++ from_utf8_lossy l2
            end
          else FFFD ++ from_utf8_lossy l1
      end
  end.
Definition UTF8_BOM : bytes := [239; 187; 191].
Definition decode_met_string (l : bytes) : bytes :=
  from_utf8_lossy (if decide (take 3 l = UTF8_BOM) then drop 3 l else l).
(** [str.parse::<usize>()] on the text of a tag name; a byte that is not an ASCII
    digit ends it, and so does the replacement of an invalid sequence. *)
Fixpoint parse_digits (l : bytes) (acc : Z) : option Z :=
  match l with
  | [] => Some acc
  | b :: l =>
      if (48 <=? b) && (b <=? 57) then
        let v := acc * 10 + (b - 48) in if usize_max <? v then None else parse_digits l v
      else None
  end.
Definition parse_usize (l : bytes) : option Z :=
  match l with
  | [] => None
  | b :: rest => if b =? 43 then (match rest with [] => None | _ => parse_digits rest 0 end) else parse_digits l 0
  end.
(** [usize::to_string]. *)
Fixpoint uint_bytes (u : Decimal.uint) : bytes :=
  match u with
  | Decimal.Nil => []
  | Decimal.D0 u => 48 :: uint_bytes u | Decimal.D1 u => 49 :: uint_bytes u
  | Decimal.D2 u => 50 :: uint_bytes u | Decimal.D3 u => 51 :: uint_bytes u
  | Decimal.D4 u => 52 :: uint_bytes u | Decimal.D5 u => 53 :: uint_bytes u
  | Decimal.D6 u => 54 :: uint_bytes u | Decimal.D7 u => 55 :: uint_bytes u
  | Decimal.D8 u => 56 :: uint_bytes u | Decimal.D9 u => 57 :: uint_bytes u
  end.
Definition to_string (n : nat) : bytes := uint_bytes (Nat.to_uint n).

(** ** Reading a tag *)
Inductive MetTag :=
  | MetFileSize (v : Z)
  | MetFileName (name : bytes)
  | MetGapStart (idx v : Z)
  | MetGapEnd (idx v : Z)
  | MetVerifiedBitmap (bitmap : bytes)
  | MetGapFormat (v : Z)
  | MetTransferred (v : Z)
  | MetStatus (v : Z)
  | MetUnknown.
Definition numeric_tag (name : bytes) (value : Z) : MetTag :=
  match name with
  | [id] =>
      if id =? FT_FILESIZE then MetFileSize value
      else if id =? FT_EMBER_GAP_FORMAT then MetGapFormat value
      else if id =? FT_TRANSFERRED then MetTransferred value
      else if id =? FT_STATUS then MetStatus value
      else MetUnknown
  | id :: index =>
      if (id =? FT_GAPSTART) || (id =? FT_GAPEND) then
        match parse_usize index with
        | Some idx => if id =? FT_GAPSTART then MetGapStart idx value else MetGapEnd idx value
        | None => MetUnknown
        end
      else MetUnknown
  | [] => MetUnknown
  end.
Definition rd_name (raw_type : Z) : rd (Z * bytes) :=
  if Z.testbit raw_type 7 then
    id ← rd_uint 1; mret (Z.land raw_type 127, [id])
  else
    n ← rd_uint 2;
    if 4096 <? n then rd_fail MetNameTooLong
    else name ← rd_exact (Z.to_nat n); mret (raw_type, name).
Definition rd_value (tag_type : Z) (name : bytes) : rd MetTag :=
  let number n := v ← rd_uint n; mret (numeric_tag name v) in
  if tag_type =? TAGTYPE_UINT32 then number 4%nat
  else if tag_type =? TAGTYPE_UINT64 then number 8%nat
  else if tag_type =? 9 then number 1%nat
  else if tag_type =? TAGTYPE_STRING then
    slen ← rd_uint 2; left ← rd_left;
    if left <? slen then rd_fail MetStringBoundary
    else s ← rd_exact (Z.to_nat slen); mret (if decide (name = [FT_FILENAME]) then MetFileName (decode_met_string s) else MetUnknown)
  else if tag_type =? 1 then _ ← rd_exact 16; mret MetUnknown
  else if tag_type =? TAGTYPE_BLOB then
    blen ← rd_uint 4; left ← rd_left;
    if left <? blen then rd_fail MetBlobBoundary
    else s ← rd_exact (Z.to_nat blen);
         mret (if bool_decide (name = [FT_EMBER_VERIFIED_BITMAP]) && (blen <=? 1000000) then MetVerifiedBitmap s else MetUnknown)
  else if tag_type =? 4 then _ ← rd_uint 4; mret MetUnknown
  else if tag_type =? 5 then number 1%nat
  else if tag_type =? 6 then count ← rd_uint 2; _ ← rd_skip ((count + 7) / 8) MetBitSetOverflow; mret MetUnknown
  else if tag_type =? 8 then number 2%nat
  else if tag_type =? 10 then blen ← rd_uint 1; _ ← rd_skip blen MetBsobOverflow; mret MetUnknown
  else rd_fail MetUnknownType.
Definition read_emule_tag : rd MetTag :=
  raw_type ← rd_uint 1; '(tag_type, name) ← rd_name raw_type; rd_value tag_type name.

(** ** Reading a sidecar *)
Record TagAcc := mkAcc {
  gap_starts : gmap Z Z;
  gap_ends : gmap Z Z;
  gap_end_is_exclusive : bool;
  file_size_from_tags : option Z;
  verified_bitmap_bytes : option bytes;
  tags_parsed : Z;
  name_from_tags : option bytes;
  transferred_from_tags : option Z;
}.
Definition TagAcc_init : TagAcc := mkAcc ∅ ∅ false None None 0 None None.
Definition take_tag (tag : MetTag) (a : TagAcc) : TagAcc :=
  let '(mkAcc st en ex fs bm n nm tr) := a in
  let n := n + 1 in
  match tag with
  | MetFileSize v => mkAcc st en ex (Some v) bm n nm tr
  | MetFileName name => mkAcc st en ex fs bm n (match nm with Some _ => nm | None => Some name end) tr
  | MetGapStart idx v => mkAcc (<[idx := v]> st) en ex fs bm n nm tr
  | MetGapEnd idx v => mkAcc st (<[idx := v]> en) ex fs bm n nm tr
  | MetVerifiedBitmap b => mkAcc st en ex fs (Some b) n nm tr
  | MetGapFormat v => mkAcc st en (GAP_FORMAT_EXCLUSIVE_END <=? v) fs bm n nm tr
  | MetTransferred v => mkAcc st en ex fs bm n nm (Some v)
  | MetStatus _ | MetUnknown => mkAcc st en ex fs bm n nm tr
  end.
(** The loop over the tags: it stops at the end of the file and at a tag it cannot read. *)
Fixpoint read_tags (count : nat) (d : bytes) (a : TagAcc) : TagAcc :=
  match count with
  | O => a
  | S count =>
      match d with
      | [] => a
      | _ => match read_emule_tag d with MOk (tag, d) => read_tags count d (take_tag tag a) | MErr _ => a end
      end
  end.
Definition ed2k_part_count_for_size (size : Z) : Z := if size =? 0 then 0 else div_ceil size PARTSIZE.
Definition ed2k_known_met_part_hash_count (size : Z) : Z :=
  if size <? PARTSIZE then 0 else div_ceil size PARTSIZE + (if size mod PARTSIZE =? 0 then 1 else 0).
Fixpoint rd_hashes (n : nat) : rd (list bytes) :=
  match n with
  | O => mret []
  | S n => h ← rd_exact 16; hs ← rd_hashes n; mret (h :: hs)
  end.
(** The overlapping gaps of a sorted list made one. *)
Fixpoint merge_sorted (l : list range) (merged : list range) : list range :=
  match l with
  | [] => merged
  | (s, e) :: l =>
      merge_sorted l
        (match last merged with
         | Some (ls, le) => if s <=? le then removelast merged ++ [(ls, Z.max le e)] else merged ++ [(s, e)]
         | None => merged ++ [(s, e)]
         end)
  end.
(** [reset_to_incomplete]. *)
Definition reset_to_incomplete (t : PartTracker) : PartTracker := with_gaps t (all_missing (file_size t)).

Section load.
Context `{Ord : MapOrder}.
Definition paired_gaps (a : TagAcc) (size : Z) : list range :=
  omap (λ kv : Z * Z,
    let '(idx, start) := kv in
    let stop := Z.min size (match gap_ends a !! idx with
      | Some raw => if gap_end_is_exclusive a then raw else Z.min usize_max (raw + 1)
      | None => size
      end) in
    if start <? stop then Some (start, stop) else None) (map_iter (gap_starts a)).
Definition restore_verified_bits (bitmap : bytes) (t : PartTracker) : PartTracker :=
  with_verified t
    ((λ i, Z.testbit (default 0 (bitmap !! (i / 8)%nat)) (Z.of_nat (i mod 8)) && is_part_complete t i) <$> seq 0 (part_count t))
    (file_hash_verified t).
(** The checks on the tags and the gap list they give. *)
Definition adopt_tags (raw_tag_count : Z) (a : TagAcc) (t : PartTracker) (g : Shared) : PartTracker * Shared :=
  let size := file_size t in
  let tag_count := Z.min raw_tag_count MAX_TAG_COUNT in
  if match file_size_from_tags a with Some s => negb (s =? size) && (0 <? size) | None => false end
  then clear_part_hashes_and_verified (with_gaps t [(0, size)]) g
  else if ((tags_parsed a <? tag_count) || (MAX_TAG_COUNT <? raw_tag_count)) && (0 <? size) then (with_gaps t [(0, size)], g)
  else if (0 <? size) && existsb (λ kv : Z * Z, bool_decide (gap_starts a !! kv.1 = None)) (map_iter (gap_ends a))
  then (with_gaps t [(0, size)], g)
  else if bool_decide (gap_starts a = ∅) && (0 <? size) then (with_gaps t [], g)
  else
    let t := with_gaps t (merge_sorted (stable_sort range_le (paired_gaps a size)) []) in
    (match verified_bitmap_bytes a with Some bitmap => restore_verified_bits bitmap t | None => t end, g).
Definition load_emule_format (data : bytes) (version : Z) (t : PartTracker) (g : Shared) : option MetError * PartTracker * Shared :=
  match part_met_hash_layout data version with
  | MErr e => (Some e, t, g)
  | MOk (hash_at, has_hashset) =>
      match (_ ← rd_uint 4; rd_exact 16) (drop (hash_at - 4) data) with
      | MErr e => (Some e, t, g)
      | MOk (hash, d) =>
          if bool_decide (file_hash t ≠ ZERO_HASH) && bool_decide (hash ≠ ZERO_HASH) && bool_decide (hash ≠ file_hash t)
          then (None, reset_to_incomplete t, g)
          else
            let t := if decide (file_hash t = ZERO_HASH) then set_file_hash hash t else t in
            match (if has_hashset then rd_uint 2 else mret 0) d with
            | MErr e => (Some e, t, g)
            | MOk (count, d) =>
                if negb (count =? 0) && negb (count =? ed2k_part_count_for_size (file_size t))
                   && negb (count =? ed2k_known_met_part_hash_count (file_size t))
                then (None, reset_to_incomplete t, g)
                else if Z.of_nat (length d) <? count * 16 then (Some MetTruncatedHashes, t, g)
                else match rd_hashes (Z.to_nat count) d with
                | MErr e => (Some e, t, g)
                | MOk (hashes, d) =>
                    let t := set_part_hashes (take (Z.to_nat (ed2k_part_count_for_size (file_size t))) hashes) t in
                    match rd_uint 4 d with
                    | MErr e => (Some e, t, g)
                    | MOk (raw_tag_count, d) =>
                        let a := read_tags (Z.to_nat (Z.min raw_tag_count MAX_TAG_COUNT)) d TagAcc_init in
                        let t := with_identity t (file_hash t) (default (file_name t) (name_from_tags a)) (part_hashes t)
                                   (default (transferred t) (transferred_from_tags a)) in
                        let '(t, g) := adopt_tags raw_tag_count a t g in (None, t, g)
                    end
                end
            end
      end
  end.
(** The old bitmap format.  The migrated file it writes back is the encoder's business. *)
Definition load_legacy (data : bytes) (t : PartTracker) (g : Shared) : option MetError * PartTracker * Shared :=
  match rd_uint 8 (drop 4 data) with
  | MErr e => (Some e, t, g)
  | MOk (stored_size, d) =>
      if negb (stored_size =? file_size t) then (Some MetLegacySize, t, g)
      else match rd_uint 4 d with
      | MErr e => (Some e, t, g)
      | MOk (stored_count, d) =>
          if negb (stored_count =? Z.of_nat (part_count t)) then (Some MetLegacyCount, t, g)
          else if Z.of_nat (length d) <? Z.of_nat ((part_count t + 7) / 8) then (Some MetLegacyTruncated, t, g)
          else
            let parts := retain (λ i, Z.testbit (default 0 (d !! (i / 8)%nat)) (Z.of_nat (i mod 8))) (seq 0 (part_count t)) in
            let '(t, g) := foldl (λ tg i, mark_complete i tg.1 tg.2) (with_gaps t [(0, file_size t)], g) parts in
            (None, t, g)
      end
  end.
(** [file]: the bytes of the sidecar, if it could be read. *)
Definition load_inner (file : option bytes) (t : PartTracker) (g : Shared) : option MetError * PartTracker * Shared :=
  match file with
  | None => (Some MetUnreadable, t, g)
  | Some data =>
      if Z.of_nat (length data) <? 4 then (Some MetTooSmall, t, g)
      else
        let version := default 0 (data !! 0%nat) in
        if (version =? PARTFILE_VERSION) || (version =? PARTFILE_VERSION_LARGEFILE) || (version =? PARTFILE_SPLITTED_VERSION)
        then load_emule_format data version t g
        else if le_value (take 4 data) =? OLD_PART_MET_MAGIC then load_legacy data t g
        else (Some MetUnknownFormat, t, g)
  end.
(** [part_len]: the length of the data file, if there is one. *)
Definition load (file : option bytes) (part_len : option Z) (t : PartTracker) (g : Shared) : PartTracker * Shared :=
  let '(err, t, g) := load_inner file t g in
  let t := match err with Some _ => reset_to_incomplete t | None => t end in
  let t := with_in_flight (with_reservations (with_claims t (replicate (part_count t) 0)) []) ∅ in
  let '(t, g) := match part_len with Some n => invalidate_unreadable n t g | None => (t, g) end in
  (apply_pending_invalidations g t, g).
Definition new_with_identity (size : Z) (path hash : bytes) (file : option bytes) (part_len : option Z) (g : Shared)
    : PartTracker * Shared :=
  let t := blank_tracker size path hash in
  match tracked_part_count size with Some _ => load file part_len t g | None => (t, g) end.
End load.

(** ** Summaries *)
Record PartMetSummary := mkSummary { sum_hash : bytes; sum_name : bytes; sum_size : Z; sum_paused : bool }.
Fixpoint summary_tags (count : nat) (d name : bytes) (size : option Z) (paused : bool) : met (bytes * option Z * bool) :=
  match count with
  | O => MOk (name, size, paused)
  | S count =>
      match d with
      | [] => MOk (name, size, paused)
      | _ =>
          '(tag, d) ← read_emule_tag d;
          match tag with
          | MetFileName n => summary_tags count d (if decide (name = []) then n else name) size paused
          | MetFileSize v => summary_tags count d name (Some v) paused
          | MetStatus v => summary_tags count d name size (negb (v =? 0))
          | _ => summary_tags count d name size paused
          end
      end
  end.
Definition summarize_part_met (data : bytes) : met PartMetSummary :=
  match data with
  | [] => MErr MetTooSmall
  | version :: _ =>
      if negb ((version =? PARTFILE_VERSION) || (version =? PARTFILE_VERSION_LARGEFILE)) then MErr MetUnknownFormat
      else
        '(hash_at, has_hashset) ← part_met_hash_layout data version;
        '(hash, d) ← rd_exact 16 (drop hash_at data);
        '(count, d) ← (if (has_hashset : bool) then rd_uint 2 else (mret 0 : rd Z)) d;
        if Z.of_nat (length d) <? count * 16 then MErr MetTruncatedHashes
        else
          '(tag_count, d) ← rd_uint 4 (drop (Z.to_nat (count * 16)) d);
          '(name, size, paused) ← summary_tags (Z.to_nat (Z.min tag_count MAX_TAG_COUNT)) d [] None false;
          match size with
          | None => MErr MetNoSize
          | Some size => if bool_decide (hash = ZERO_HASH) || bool_decide (name = []) then MErr MetNoName
                         else MOk (mkSummary hash name size paused)
          end
  end.

(** ** Writing a sidecar *)
Definition write_uint32_tag (id v : Z) : bytes := [TAGTYPE_UINT32] ++ le_bytes 2 1 ++ [id] ++ le_bytes 4 v.
Definition write_uint64_tag (id v : Z) : bytes := [TAGTYPE_UINT64] ++ le_bytes 2 1 ++ [id] ++ le_bytes 8 v.
(** [while end > 0 && !value.is_char_boundary(end) { end -= 1 }]. *)
Fixpoint char_boundary (l : bytes) (stop : nat) : nat :=
  match stop with
  | O => O
  | S n => match l !! stop with Some b => if utf8_cont b then char_boundary l n else stop | None => stop end
  end.
Definition clamp_name (name : bytes) : bytes :=
  if Z.of_nat (length name) <=? 65535 then name else take (char_boundary name (Z.to_nat 65535)) name.
Definition write_string_tag (id : Z) (v : bytes) : bytes :=
  let v := clamp_name v in [TAGTYPE_STRING] ++ le_bytes 2 1 ++ [id] ++ le_bytes 2 (Z.of_nat (length v)) ++ v.
Definition write_blob_tag (id : Z) (v : bytes) : met bytes :=
  if 4294967295 <? Z.of_nat (length v) then MErr MetBlobTooLarge
  else MOk ([TAGTYPE_BLOB] ++ le_bytes 2 1 ++ [id] ++ le_bytes 4 (Z.of_nat (length v)) ++ v).
Definition write_gap_tag (gap_type : Z) (index : nat) (v : Z) (use_large : bool) : met bytes :=
  let name := gap_type :: to_string index in
  let head := [if use_large then TAGTYPE_UINT64 else TAGTYPE_UINT32] ++ le_bytes 2 (Z.of_nat (length name)) ++ name in
  if use_large then MOk (head ++ le_bytes 8 v)
  else if 4294967295 <? v then MErr MetGapTooLarge
  else MOk (head ++ le_bytes 4 v).
(** Two tags a gap, from index [i]. *)
Fixpoint write_gaps (i : nat) (gs : list range) (use_large : bool) : met bytes :=
  match gs with
  | [] => MOk []
  | (s, e) :: gs =>
      a ← write_gap_tag FT_GAPSTART i s use_large;
      b ← write_gap_tag FT_GAPEND i e use_large;
      rest ← write_gaps (S i) gs use_large;
      MOk (a ++ b ++ rest)
  end.

Section save.
(** [Md4::digest([])]. *)
Context (md4_empty : bytes).
Definition ed2k_known_met_hashset (hashes : list bytes) (size : Z) : list bytes :=
  if (PARTSIZE <=? size) && (size mod PARTSIZE =? 0) && (Z.of_nat (length hashes) =? size / PARTSIZE)
  then hashes ++ [md4_empty] else hashes.
(** The bytes [save_emule_format] and [SaveSnapshot::write_to_disk] write at [date]. *)
Definition encode_part_met (date : Z) (t : PartTracker) : met bytes :=
  let use_large := 4294967295 <? file_size t in
  let hashes := ed2k_known_met_hashset (part_hashes t) (file_size t) in
  if 65535 <? Z.of_nat (length hashes) then MErr MetTooManyHashes
  else
    let number id v := if use_large then write_uint64_tag id v else write_uint32_tag id v in
    let name := match file_name t with [] => [] | n => write_string_tag FT_FILENAME n end in
    gap_tags ← write_gaps 0 (gaps t) use_large;
    bitmap ← (if existsb (λ v : bool, v) (part_verified t)
              then write_blob_tag FT_EMBER_VERIFIED_BITMAP (pack_bitmap (part_verified t)) else MOk []);
    let tag_count := (match file_name t with [] => 0 | _ => 1 end) + 2 + 2 * Z.of_nat (length (gaps t)) + 1
                     + (if existsb (λ v : bool, v) (part_verified t) then 1 else 0) in
    MOk ([if use_large then PARTFILE_VERSION_LARGEFILE else PARTFILE_VERSION] ++ le_bytes 4 (Z.min 4294967295 date) ++ file_hash t
         ++ le_bytes 2 (Z.of_nat (length hashes)) ++ concat hashes ++ le_bytes 4 tag_count ++ name
         ++ number FT_FILESIZE (file_size t) ++ number FT_TRANSFERRED (transferred t) ++ gap_tags
         ++ write_uint32_tag FT_EMBER_GAP_FORMAT GAP_FORMAT_EXCLUSIVE_END ++ bitmap).
End save.
