(* ===== verification/PartMetLoad.v ===== *)
(** * Loading a sidecar fails closed

    Whatever bytes a [.part.met] holds, a tracker loaded from it satisfies the
    invariant and has no part verified that is not complete; a sidecar that is
    refused, or is another file's, leaves everything missing. *)
From S2P Require Import Prelude NodeId Addr Contact Record Wire Crypto Messages WireFacts MapOrder GapList PartTracker PartInv PartSafety PartMet.
Local Open Scope Z_scope.

(** ** Readers over octets *)

(** On octets, what [m] returns satisfies [Q] and what is left are octets. *)
Definition rd_post {A} (m : rd A) (Q : A → Prop) : Prop := ∀ d x d', Forall is_byte d → m d = MOk (x, d') → Forall is_byte d' ∧ Q x.
Lemma rd_post_ret {A} (x : A) (Q : A → Prop) : Q x → rd_post (mret x) Q.
Proof. intros HQ d y d' Hd [= <- <-]. done. Qed.
Lemma rd_post_fail {A} e (Q : A → Prop) : rd_post (rd_fail e) Q.
Proof. done. Qed.
Lemma rd_post_bind {A B} (m : rd A) (f : A → rd B) (P : A → Prop) (Q : B → Prop) :
  rd_post m P → (∀ x, P x → rd_post (f x) Q) → rd_post (m ≫= f) Q.
Proof.
  intros Hm Hf d y d' Hd. unfold mbind, rd_bind. destruct (m d) as [[x d1]|e] eqn:E; [|done]. intros Hy.
  destruct (Hm d x d1 Hd E) as [Hd1 Hx]. by apply (Hf x Hx d1).
Qed.
Lemma rd_post_exact n : rd_post (rd_exact n) (λ l, length l = n ∧ Forall is_byte l).
Proof.
  intros d x d' Hd. unfold rd_exact. case_decide; [|done]. intros [= <- <-]. split; [by apply Forall_drop|].
  split; [rewrite length_take; lia|by apply Forall_take].
Qed.
Lemma rd_post_uint n : rd_post (rd_uint n) (λ v, 0 ≤ v).
Proof.
  unfold rd_uint. eapply rd_post_bind; [apply rd_post_exact|]. intros l [_ Hl]. apply rd_post_ret. by apply le_value_range.
Qed.
Lemma rd_post_left : rd_post rd_left (λ _, True).
Proof. intros d x d' Hd [= <- <-]. done. Qed.
Lemma rd_post_weaken {A} (m : rd A) (P Q : A → Prop) : rd_post m P → (∀ x, P x → Q x) → rd_post m Q.
Proof. intros Hm HPQ d x d' Hd E. destruct (Hm d x d' Hd E). auto. Qed.
Lemma rd_post_skip n e : rd_post (rd_skip n e) (λ _, True).
Proof.
  unfold rd_skip. eapply rd_post_bind; [apply rd_post_left|]. intros l _. destruct (_ <? _); [apply rd_post_fail|].
  eapply rd_post_bind; [apply rd_post_exact|]. intros ? _. by apply rd_post_ret.
Qed.
Create HintDb met_post.
#[export] Hint Resolve rd_post_exact rd_post_uint rd_post_left rd_post_skip rd_post_fail : met_post.

(** The starts of gaps are offsets. *)
Definition tag_ok (tag : MetTag) : Prop := match tag with MetGapStart _ v => 0 ≤ v | _ => True end.
Lemma numeric_tag_ok name v : 0 ≤ v → tag_ok (numeric_tag name v).
Proof.
  intros Hv. unfold numeric_tag. destruct name as [|id [|b rest]]; [done|repeat (destruct (_ =? _); [done|]); done|].
  destruct (_ || _); [|done]. destruct (parse_usize _); [|done]. by destruct (_ =? _).
Qed.
Lemma read_emule_tag_post : rd_post read_emule_tag tag_ok.
Proof.
  unfold read_emule_tag. eapply rd_post_bind; [apply rd_post_uint|]. intros raw _.
  apply (rd_post_bind _ _ (λ _, True)).
  { unfold rd_name. destruct (Z.testbit raw 7).
    - eapply rd_post_bind; [apply rd_post_uint|]. intros ? _. by apply rd_post_ret.
    - eapply rd_post_bind; [apply rd_post_uint|]. intros ? _. destruct (_ <? _); [apply rd_post_fail|].
      eapply rd_post_bind; [apply rd_post_exact|]. intros ? _. by apply rd_post_ret. }
  intros [ty name] _. unfold rd_value.
  assert (∀ n, rd_post (v ← rd_uint n; mret (numeric_tag name v)) tag_ok) as Hnum.
  { intros n. eapply rd_post_bind; [apply rd_post_uint|]. intros v Hv. by apply rd_post_ret, numeric_tag_ok. }
  repeat (destruct (_ =? _); [try apply Hnum; repeat (eapply rd_post_bind; [eauto with met_post|]; intros ? _);
    try destruct (_ <? _); try apply rd_post_fail; repeat (eapply rd_post_bind; [eauto with met_post|]; intros ? _);
    apply rd_post_ret; repeat case_match; done|]).
  apply rd_post_fail.
Qed.
Lemma read_tags_starts count d a :
  Forall is_byte d → map_Forall (λ _ v, 0 ≤ v) (gap_starts a) → map_Forall (λ _ v, 0 ≤ v) (gap_starts (read_tags count d a)).
Proof.
  revert d a. induction count as [|count IH]; intros d a Hd Ha; cbn [read_tags]; [done|]. destruct d as [|b d]; [done|].
  destruct (read_emule_tag (b :: d)) as [[tag d']|e] eqn:E; [|done]. destruct (read_emule_tag_post _ _ _ Hd E) as [Hd' Ht].
  apply IH; [done|]. destruct a, tag; cbn in *; try done. by apply map_Forall_insert_2.
Qed.

(** ** The gap list of the tags *)
Lemma paired_gaps_bounds `{MapOrder} a size :
  map_Forall (λ _ v, 0 ≤ v) (gap_starts a) → Forall (λ r : range, 0 ≤ r.1 ∧ r.1 < r.2 ∧ r.2 ≤ size) (paired_gaps a size).
Proof.
  intros Ha. apply Forall_forall. intros [s e] ([idx start] & Hin%elem_of_map_iter & Hr)%list_elem_of_omap.
  specialize (Ha idx start Hin). cbn in Ha. cbv zeta in Hr. set (stop := Z.min size _) in Hr. assert (stop ≤ size) as Hle by lia.
  clearbody stop. destruct (Z.ltb_spec start stop); [|done]. injection Hr as <- <-. cbn. lia.
Qed.
(** One pass merges a sorted list into a separated one. *)
Lemma last_gap_bounds lo hi m s e : gaps_ok lo hi (m ++ [(s, e)]) → lo ≤ s ∧ s < e ∧ e ≤ hi.
Proof. intros Hok. apply (gaps_ok_bounds _ _ _ (s, e)) in Hok as (? & ? & ?); [done|]. apply elem_of_app. right. left. Qed.
Lemma gaps_ok_snoc lo hi m s e s' e' :
  gaps_ok lo hi (m ++ [(s, e)]) → e < s' → s' < e' → e' ≤ hi → gaps_ok lo hi ((m ++ [(s, e)]) ++ [(s', e')]).
Proof.
  revert lo. induction m as [|[a b] m IH]; intros lo; cbn; [intros (? & ? & ? & _) ? ? ?; repeat split; lia|].
  intros (? & ? & ? & Hm) ? ? ?. repeat split; try done. by apply IH.
Qed.
Lemma gaps_ok_stretch lo hi m s e e' : gaps_ok lo hi (m ++ [(s, e)]) → e ≤ e' → e' ≤ hi → gaps_ok lo hi (m ++ [(s, e')]).
Proof.
  revert lo. induction m as [|[a b] m IH]; intros lo; cbn; [intros (? & ? & ? & _) ? ?; repeat split; lia|].
  intros (? & ? & ? & Hm) ? ?. repeat split; try done. by apply IH.
Qed.
Lemma merge_sorted_ok size l merged :
  StronglySorted (λ a b, range_le a b = true) l → Forall (λ r : range, 0 ≤ r.1 ∧ r.1 < r.2 ∧ r.2 ≤ size) l →
  gaps_ok 0 size merged → gaps_ok 0 size (merge_sorted l merged).
Proof.
  revert merged. induction l as [|[s e] l IH]; intros merged Hs Hb Hm; [done|]. cbn [merge_sorted].
  apply StronglySorted_cons in Hs as [Hle Hs]. apply Forall_cons in Hb as [(B1 & B2 & B3) Hb]. cbn in *. apply IH; [done|done|].
  destruct merged as [|r m] using rev_ind; [cbn; by repeat split|]. clear IHm. rewrite last_snoc. destruct r as [ls le].
  destruct (Z.leb_spec s le).
  - rewrite removelast_last. destruct (last_gap_bounds _ _ _ _ _ Hm) as (? & ? & ?). eapply gaps_ok_stretch; [done|lia..].
  - by apply gaps_ok_snoc.
Qed.

(** ** A tracker being loaded *)

(** The invariant, and nothing verified yet. *)
Definition fresh (t : PartTracker) : Prop := tracker_ok t ∧ ∀ p, is_part_verified t p = false.
Lemma fresh_sound t : fresh t → sound t.
Proof. intros [Hok Hv]. split; [done|]. intros p Hp. by rewrite Hv in Hp. Qed.
Lemma fresh_gaps t gs : fresh t → gaps_ok 0 (file_size t) gs → fresh (with_gaps t gs).
Proof. intros [[K1 K2 K3 K4 K5 K6 K7 K8 K9 K10] Hv] Hg. split; [by split|done]. Qed.
Lemma fresh_identity t hash name hashes n : fresh t → fresh (with_identity t hash name hashes n).
Proof. intros [[K1 K2 K3 K4 K5 K6 K7 K8 K9 K10] Hv]. split; [by split|done]. Qed.
Lemma blank_fresh size path hash : 0 ≤ size → fresh (blank_tracker size path hash).
Proof.
  intros Hs. destruct (blank_ok size path hash Hs) as [Hok _]. split; [done|]. intros p. unfold is_part_verified. cbn.
  destruct (replicate _ false !! p) eqn:E; [|done]. by apply lookup_replicate in E as [-> _].
Qed.
Lemma all_missing_ok size : 0 ≤ size → gaps_ok 0 size (all_missing size).
Proof. intros Hs. unfold all_missing. destruct (Z.ltb_spec 0 size); [cbn; lia|done]. Qed.
Lemma reset_fresh t : fresh t → fresh (reset_to_incomplete t).
Proof. intros Hf. apply fresh_gaps; [done|]. apply all_missing_ok, k_size, Hf. Qed.
Lemma whole_gap size : 0 < size → gaps_ok 0 size [(0, size)].
Proof. intros. cbn. lia. Qed.

(** What a load may have done so far. *)
Definition loading (t t' : PartTracker) : Prop :=
  file_size t' = file_size t ∧ met_path t' = met_path t ∧ (file_hash t ≠ ZERO_HASH → file_hash t' = file_hash t).
Lemma restore_sound bitmap t : fresh t → sound (restore_verified_bits bitmap t).
Proof.
  intros [Hok _]. assert (tracker_ok (restore_verified_bits bitmap t)) as Hok'.
  { eapply frame_ok; [exact Hok|done|apply (k_gaps t Hok)|cbn; by rewrite length_fmap, length_seq, (k_verified t Hok)|done]. }
  split; [done|]. intros p Hp. unfold is_part_verified, restore_verified_bits in Hp. cbn in Hp. rewrite list_lookup_fmap in Hp.
  destruct (seq 0 (part_count t) !! p) eqn:E; [|done]. cbn in Hp. apply lookup_seq in E as [-> _]. by apply andb_true_iff in Hp as [_ ?].
Qed.
Lemma clear_hashes_fresh t g : fresh t → fresh (clear_part_hashes_and_verified t g).1.
Proof.
  intros [Hok _]. destruct (clear_part_hashes_and_verified t g) as [t' g'] eqn:E. by destruct (clear_hashes_ok _ _ _ _ Hok E).
Qed.

Section load.
Context `{Ord : MapOrder}.
Lemma adopt_tags_sound raw a t g t' g' :
  fresh t → map_Forall (λ _ v, 0 ≤ v) (gap_starts a) → adopt_tags raw a t g = (t', g') → sound t' ∧ loading t t'.
Proof.
  intros Hf Ha. unfold adopt_tags. cbv zeta. destruct (match file_size_from_tags a with Some _ => _ | None => _ end) eqn:E1.
  { intros Hc. assert (0 < file_size t) as Hs. { destruct (file_size_from_tags a); [|done]. apply andb_true_iff in E1 as [_ ?%Z.ltb_lt]. done. }
    pose proof (clear_hashes_fresh (with_gaps t [(0, file_size t)]) g) as Hcf. rewrite Hc in Hcf.
    split; [by apply fresh_sound, Hcf, fresh_gaps, whole_gap|]. by injection Hc as <- _. }
  destruct (((_ <? _) || (_ <? raw)) && (0 <? file_size t)) eqn:E2.
  { intros [= <- <-]. apply andb_true_iff in E2 as [_ Hs%Z.ltb_lt]. split; [by apply fresh_sound, fresh_gaps, whole_gap|done]. }
  destruct ((0 <? file_size t) && existsb _ _) eqn:E3.
  { intros [= <- <-]. apply andb_true_iff in E3 as [Hs%Z.ltb_lt _]. split; [by apply fresh_sound, fresh_gaps, whole_gap|done]. }
  destruct (bool_decide _ && (0 <? file_size t)).
  { intros [= <- <-]. split; [by apply fresh_sound, fresh_gaps|done]. }
  set (gs := merge_sorted _ []). intros [= <- <-].
  assert (fresh (with_gaps t gs)) as Hf'.
  { apply fresh_gaps; [done|]. apply merge_sorted_ok; [|rewrite stable_sort_perm; by apply paired_gaps_bounds|done].
    apply stable_sort_sorted; intros *; unfold range_le; rewrite !Z.leb_le; lia. }
  destruct (verified_bitmap_bytes a); [by split; [apply restore_sound|]|by split; [apply fresh_sound|]].
Qed.
Lemma load_emule_sound data version t g err t' g' :
  Forall is_byte data → fresh t → load_emule_format data version t g = (err, t', g') →
  sound t' ∧ loading t t' ∧ (is_Some err → fresh t').
Proof.
  intros Hd Hf. unfold load_emule_format.
  assert (∀ e, sound t ∧ loading t t ∧ (is_Some (Some e : option MetError) → fresh t)) as Hid by (intros; split; [by apply fresh_sound|done]).
  destruct (part_met_hash_layout data version) as [[hash_at has_hashset]|e]; [|intros [= <- <- <-]; apply (Hid e)].
  destruct ((_ ← rd_uint 4; rd_exact 16) (drop (hash_at - 4) data)) as [[hash d]|e] eqn:Er; [|intros [= <- <- <-]; apply (Hid e)].
  assert (Forall is_byte d) as Hd1.
  { eapply (rd_post_bind (rd_uint 4) (λ _, rd_exact 16)) in Er; [apply Er|apply rd_post_uint|intros ? _; apply rd_post_exact|by apply Forall_drop]. }
  destruct (bool_decide _ && bool_decide _ && bool_decide _).
  { intros [= <- <- <-]. split; [by apply fresh_sound, reset_fresh|]. split; [done|]. by intros [? ?]. }
  set (t1 := if decide (file_hash t = ZERO_HASH) then _ else t).
  assert (fresh t1 ∧ loading t t1) as [Hf1 Hl1].
  { unfold t1. case_decide; [|done]. split; [by apply fresh_identity|]. by repeat split. }
  clearbody t1. destruct ((if has_hashset then rd_uint 2 else mret 0) d) as [[count d2]|e] eqn:Ec.
  2:{ intros [= <- <- <-]. split; [by apply fresh_sound|]. by split. }
  assert (Forall is_byte d2) as Hd2.
  { destruct has_hashset; [by eapply (rd_post_uint 2)|by injection Ec as _ <-]. }
  destruct (negb _ && _ && _).
  { intros [= <- <- <-]. split; [by apply fresh_sound, reset_fresh|]. split; [done|]. by intros [? ?]. }
  destruct (_ <? count * 16); [intros [= <- <- <-]; split; [by apply fresh_sound|]; by split|].
  destruct (rd_hashes (Z.to_nat count) d2) as [[hashes d3]|e] eqn:Eh; [|intros [= <- <- <-]; split; [by apply fresh_sound|]; by split].
  assert (Forall is_byte d3) as Hd3.
  { assert (∀ n, rd_post (rd_hashes n) (λ _, True)) as Hp; [|by eapply Hp].
    induction n as [|n IH]; cbn; [by apply rd_post_ret|]. eapply rd_post_bind; [apply rd_post_exact|]. intros ? _.
    eapply rd_post_bind; [apply IH|]. intros ? _. by apply rd_post_ret. }
  set (t2 := set_part_hashes _ t1). assert (fresh t2) as Hf2 by (by apply fresh_identity).
  destruct (rd_uint 4 d3) as [[raw d4]|e] eqn:Et; [|intros [= <- <- <-]; split; [by apply fresh_sound|]; by split].
  assert (Forall is_byte d4) as Hd4 by (by eapply (rd_post_uint 4)). cbv zeta. set (a := read_tags _ d4 _). set (t3 := with_identity t2 _ _ _ _).
  destruct (adopt_tags raw a t3 g) as [t4 g4] eqn:Ea. intros [= <- <- <-].
  destruct (adopt_tags_sound raw a t3 g t4 g4) as [Hs Hl]; [by apply fresh_identity|apply read_tags_starts; [done|apply map_Forall_empty]|done|].
  split; [done|]. split; [|by intros [? ?]]. destruct Hl1 as (A1 & A2 & A3), Hl as (B1 & B2 & B3). cbn in *.
  split; [congruence|]. split; [congruence|]. intros Hz. rewrite B3; [by apply A3|]. by rewrite (A3 Hz).
Qed.
Lemma load_legacy_sound data t g err t' g' :
  fresh t → 0 < file_size t → load_legacy data t g = (err, t', g') → sound t' ∧ loading t t' ∧ (is_Some err → fresh t').
Proof.
  intros Hf Hs. unfold load_legacy.
  assert (∀ e, sound t ∧ loading t t ∧ (is_Some (Some e : option MetError) → fresh t)) as Hid by (intros; split; [by apply fresh_sound|done]).
  destruct (rd_uint 8 (drop 4 data)) as [[size d]|e]; [|intros [= <- <- <-]; apply (Hid e)].
  destruct (negb _); [intros [= <- <- <-]; apply (Hid MetLegacySize)|].
  destruct (rd_uint 4 d) as [[count d2]|e]; [|intros [= <- <- <-]; apply (Hid e)].
  destruct (negb _); [intros [= <- <- <-]; apply (Hid MetLegacyCount)|].
  destruct (_ <? _); [intros [= <- <- <-]; apply (Hid MetLegacyTruncated)|].
  set (parts := retain _ _). destruct (foldl _ _ parts) as [t1 g1] eqn:Ef. intros [= <- <- <-].
  assert (sound (t1, g1).1 ∧ loading t (t1, g1).1) as [H1 H2]; [|split; [done|]; split; [done|]; by intros [? ?]].
  rewrite <- Ef. apply (foldl_inv (λ tg : PartTracker * Shared, sound tg.1 ∧ loading t tg.1)).
  - cbn. split; [by apply fresh_sound, fresh_gaps, whole_gap|done].
  - intros [t2 g2] i _ [Hs2 (L1 & L2 & L3)]. cbn [fst snd] in *. unfold mark_complete. destruct (part_range t2 i) as [a b].
    destruct (fill_range a b t2 g2) as [[n t3] g3] eqn:E. cbn [fst snd]. split; [exact (fill_sound _ _ _ _ _ _ _ E Hs2)|].
    destruct (fill_range_spec _ _ _ _ _ _ _ (proj1 Hs2) E) as (_ & (F1 & _ & _ & _ & _ & F6 & F7 & _) & _).
    split; [congruence|]. split; [congruence|]. intros Hz. rewrite F7. by apply L3.
Qed.
Definition octets (file : option bytes) : Prop := match file with Some d => Forall is_byte d | None => True end.
Lemma load_inner_sound file t g err t' g' :
  octets file → fresh t → 0 < file_size t → load_inner file t g = (err, t', g') →
  sound t' ∧ loading t t' ∧ (is_Some err → fresh t').
Proof.
  intros Hd Hf Hs. unfold load_inner.
  assert (∀ e, sound t ∧ loading t t ∧ (is_Some (Some e : option MetError) → fresh t)) as Hid by (intros; split; [by apply fresh_sound|done]).
  destruct file as [data|]; [|intros [= <- <- <-]; apply (Hid MetUnreadable)].
  destruct (_ <? 4); [intros [= <- <- <-]; apply (Hid MetTooSmall)|]. cbv zeta.
  destruct (_ || _ || _); [by apply load_emule_sound|]. destruct (_ =? OLD_PART_MET_MAGIC); [by apply load_legacy_sound|].
  intros [= <- <- <-]. apply (Hid MetUnknownFormat).
Qed.
(** Nobody is downloading yet. *)
Definition idle (t : PartTracker) : PartTracker := with_in_flight (with_reservations (with_claims t (replicate (part_count t) 0)) []) ∅.
Lemma idle_sound t : sound t → sound (idle t).
Proof.
  intros [[K1 K2 K3 K4 K5 K6 K7 K8 K9 K10] Hv]. split; [|by eapply verified_same]. split; try done; cbn.
  - apply length_replicate.
  - by apply Forall_replicate.
  - intros x. unfold count_if. cbn. lia.
  - unfold MAX_WRITE_RESERVATIONS. lia.
Qed.
Lemma unreadable_lacks n t g t' g' x :
  tracker_ok t → 0 ≤ n → invalidate_unreadable n t g = (t', g') →
  lacks t' x = lacks t x || ((n <=? x) && (x <? file_size t)).
Proof.
  intros Hok Hn. unfold invalidate_unreadable. destruct (Z.ltb_spec n (file_size t)).
  - destruct (invalidate_range n (file_size t) t g) as [t1 g1] eqn:E. intros [= <- <-].
    destruct (invalidate_spec _ _ _ _ _ _ Hok Hn E) as (_ & _ & Hl & _).
    change (lacks t1 x = lacks t x || ((n <=? x) && (x <? file_size t))). rewrite Hl. by replace (Z.min (file_size t) (file_size t)) with (file_size t) by lia.
  - intros [= <- <-]. assert ((n <=? x) && (x <? file_size t) = false) as -> by zcases. by rewrite orb_false_r.
Qed.
(** The last steps of a load keep what is missing missing. *)
Lemma load_spec file part_len t g t' g' :
  octets file → (∀ n, part_len = Some n → 0 ≤ n) → fresh t → 0 < file_size t → load file part_len t g = (t', g') →
  sound t' ∧ loading t t' ∧ (∀ p, is_part_verified t' p = true → p ∉ usc_parts_for (met_path t') (file_hash t') g') ∧
  (∀ n, part_len = Some n → ∀ x, n ≤ x < file_size t → lacks t' x = true) ∧
  (∀ x, let '(err, t1, _) := load_inner file t g in
        lacks t' x = lacks (match err with Some _ => reset_to_incomplete t1 | None => t1 end) x ||
                     match part_len with Some n => (n <=? x) && (x <? file_size t) | None => false end).
Proof.
  intros Hd Hn Hf Hs. unfold load. destruct (load_inner file t g) as [[err t1] g1] eqn:E.
  destruct (load_inner_sound _ _ _ _ _ _ Hd Hf Hs E) as (H1 & (L1 & L2 & L3) & H3).
  set (t2 := match err with Some _ => reset_to_incomplete t1 | None => t1 end).
  assert (sound t2 ∧ file_size t2 = file_size t ∧ met_path t2 = met_path t ∧ file_hash t2 = file_hash t1) as (H4 & E1 & E2 & E3).
  { unfold t2. destruct err as [e|]; [|by rewrite L1, L2]. split; [by apply fresh_sound, reset_fresh, H3|]. by rewrite <- L1, <- L2. }
  clearbody t2. fold (idle t2). pose proof (idle_sound t2 H4) as H5.
  assert (∀ x, lacks (idle t2) x = lacks t2 x) as Hi by done.
  destruct (match part_len with Some n => _ | None => _ end) as [t3 g3] eqn:Eu. intros [= <- <-].
  assert (sound t3 ∧ file_size t3 = file_size t ∧ met_path t3 = met_path t ∧ file_hash t3 = file_hash t1 ∧
    (∀ x, lacks t3 x = lacks t2 x || match part_len with Some n => (n <=? x) && (x <? file_size t) | None => false end)) as (H6 & F1 & F2 & F3 & F4).
  { destruct part_len as [n|].
    - specialize (Hn n eq_refl). destruct (unreadable_spec _ _ _ _ _ (proj1 H5) Hn Eu) as (U1 & (U2 & _ & _ & _ & _ & U3 & U4 & _) & U5).
      split; [split; [done|apply U5, H5]|]. split; [by rewrite U2|]. split; [by rewrite U3|]. split; [by rewrite U4|].
      intros x. rewrite (unreadable_lacks n _ _ _ _ x (proj1 H5) Hn Eu), Hi. cbn. by rewrite E1.
    - injection Eu as <- <-. split; [done|]. split; [done|]. split; [done|]. split; [done|]. intros x. by rewrite orb_false_r. }
  destruct (apply_pending_spec g3 t3) as (_ & A2 & _ & _ & A5). cbv zeta in *.
  split; [by apply (run_part_op_sound OpApplyPending t3 g3 _ g3)|]. split.
  { split; [done|]. split; [done|]. intros Hz. change (file_hash (apply_pending_invalidations g3 t3)) with (file_hash t3). rewrite F3. by apply L3. }
  split; [|split].
  - intros p Hp. rewrite A5 in Hp. by apply andb_true_iff in Hp as [_ Hp%negb_true_iff%bool_decide_eq_false].
  - intros n Hn' x Hx. unfold lacks. rewrite A2. rewrite (F4 x : missing (gaps t3) x = _), Hn'. apply orb_true_iff. right. apply andb_true_iff. rewrite Z.leb_le, Z.ltb_lt. lia.
  - intros x. unfold lacks at 1. rewrite A2. apply F4.
Qed.

(** The sidecar carries the hash of a file. *)
Definition names_file (data hash : bytes) : Prop :=
  ∃ version at_ hs, data !! 0%nat = Some version ∧ (version = PARTFILE_VERSION ∨ version = PARTFILE_VERSION_LARGEFILE) ∧
    part_met_hash_layout data version = MOk (at_, hs) ∧ slice at_ (at_ + 16) data = Some hash.
Lemma rd_header data at_ h :
  (4 ≤ at_)%nat → slice at_ (at_ + 16) data = Some h → (_ ← rd_uint 4; rd_exact 16) (drop (at_ - 4) data) = MOk (h, drop (at_ + 16) data).
Proof.
  intros Hat (_ & Hlen & ->)%slice_eq. unfold mbind, rd_bind, rd_uint, mbind, rd_bind, rd_exact, mret, rd_ret.
  rewrite (decide_True (P := (4 ≤ length (drop (at_ - 4) data))%nat)) by (rewrite length_drop; lia). rewrite drop_drop.
  replace (at_ - 4 + 4)%nat with at_ by lia. rewrite decide_True by (rewrite length_drop; lia). rewrite drop_drop.
  by replace (at_ + 16 - at_)%nat with 16%nat by lia.
Qed.
Lemma foreign_reset data h t g :
  names_file data h → h ≠ ZERO_HASH → file_hash t ≠ ZERO_HASH → h ≠ file_hash t →
  load_inner (Some data) t g = (None, reset_to_incomplete t, g).
Proof.
  intros (version & at_ & hs & Hv & Hver & Hlay & Hh) Hz Ht Hne. unfold load_inner.
  assert (at_ = 5 ∨ at_ = 6)%nat as Hat.
  { unfold part_met_hash_layout in Hlay. destruct (_ =? _); [done|]. injection Hlay as Hl. destruct (_ && _ && _); injection Hl as <- _; lia. }
  pose proof Hh as Hsl. apply slice_eq in Hsl as (_ & Hlen & Hsl). rewrite (proj2 (Z.ltb_ge _ 4)) by lia. rewrite Hv. change (default 0 (Some version)) with version. cbv zeta.
  assert ((version =? PARTFILE_VERSION) || (version =? PARTFILE_VERSION_LARGEFILE) || (version =? PARTFILE_SPLITTED_VERSION) = true) as ->
    by (destruct Hver as [->| ->]; done).
  unfold load_emule_format. rewrite Hlay, (rd_header data at_ h) by (done || lia).
  by rewrite !bool_decide_eq_true_2 by done.
Qed.
(** ** What the tags say *)

(** The header of a sidecar in eMule's format that can be of the file [hash]: the number of part
    hashes it declares and the bytes after that number. *)
Definition met_header (data hash : bytes) (count : Z) (rest : bytes) : Prop :=
  ∃ version at_ hs h, data !! 0%nat = Some version ∧ (version = PARTFILE_VERSION ∨ version = PARTFILE_VERSION_LARGEFILE) ∧
    part_met_hash_layout data version = MOk (at_, hs) ∧ slice at_ (at_ + 16) data = Some h ∧ (hash = ZERO_HASH ∨ h = ZERO_HASH ∨ h = hash) ∧
    (if hs then rd_uint 2 else mret 0) (drop (at_ + 16) data) = MOk (count, rest).
(** The hash counts a file of this size may declare. *)
Definition count_fits (size count : Z) : Prop := count = 0 ∨ count = ed2k_part_count_for_size size ∨ count = ed2k_known_met_part_hash_count size.
(** A sidecar that is whole up to its tags: [raw] tags declared, of which [a] was read. *)
Definition met_tags (data hash : bytes) (size raw : Z) (a : TagAcc) : Prop :=
  ∃ count rest hashes d d', met_header data hash count rest ∧ count_fits size count ∧ rd_hashes (Z.to_nat count) rest = MOk (hashes, d) ∧
    rd_uint 4 d = MOk (raw, d') ∧ a = read_tags (Z.to_nat (Z.min raw MAX_TAG_COUNT)) d' TagAcc_init.
(** Tags that cannot be trusted for a file of [size] bytes: another size, fewer read than
    declared, more declared than are read, or a gap end without its start. *)
Definition tags_unusable (size raw : Z) (a : TagAcc) : Prop :=
  (∃ s, file_size_from_tags a = Some s ∧ s ≠ size) ∨ tags_parsed a < Z.min raw MAX_TAG_COUNT ∨ MAX_TAG_COUNT < raw ∨
  (∃ i e, gap_ends a !! i = Some e ∧ gap_starts a !! i = None).
(** The byte [x] lies in a gap of the tags; one without an end reaches to the end of the file. *)
Definition in_tag_gap (size : Z) (a : TagAcc) (x : Z) : Prop :=
  ∃ i s, gap_starts a !! i = Some s ∧ s ≤ x ∧
    x < match gap_ends a !! i with Some e => if gap_end_is_exclusive a then e else Z.min usize_max (e + 1) | None => size end.
Lemma paired_gaps_missing a size x : 0 ≤ x < size → missing (paired_gaps a size) x = true ↔ in_tag_gap size a x.
Proof.
  intros Hx. rewrite missing_spec. unfold in_tag_gap. split.
  - intros ([s e] & ([i s'] & Hin%elem_of_map_iter & Hr)%list_elem_of_omap & Hg). exists i, s'. cbv zeta in Hr. set (stop := Z.min size _) in Hr.
    destruct (Z.ltb_spec s' stop); [|done]. injection Hr as <- <-. cbn in Hg. split; [done|]. unfold stop in Hg. lia.
  - intros (i & s & Hs & Hle & Hlt). eexists (s, _). split; [|cbn; split; [exact Hle|]].
    + apply list_elem_of_omap. exists (i, s). split; [by apply elem_of_map_iter|]. cbv zeta. rewrite (proj2 (Z.ltb_lt _ _)); [reflexivity|]. lia.
    + lia.
Qed.
Lemma merge_sorted_missing l merged x :
  StronglySorted (λ a b, range_le a b = true) l → (∀ ls le, last merged = Some (ls, le) → Forall (λ r : range, ls ≤ r.1) l) →
  missing (merge_sorted l merged) x = missing merged x || missing l x.
Proof.
  revert merged. induction l as [|[s e] l IH]; intros merged Hs Hm; cbn [merge_sorted]; [cbn; by rewrite orb_false_r|].
  apply StronglySorted_cons in Hs as [Hle Hs]. assert (Forall (λ r : range, s ≤ r.1) l) as Hsl by (eapply Forall_impl; [exact Hle|]; intros r Hr; unfold range_le in Hr; apply Z.leb_le in Hr; exact Hr).
  rewrite missing_cons, orb_assoc. destruct merged as [|[ls le] m _] using rev_ind.
  - cbn [last]. rewrite IH; [cbn; by rewrite orb_false_r|done|]. intros ls le [= <- <-]. done.
  - rewrite last_snoc. specialize (Hm ls le (last_snoc _ _)). apply Forall_cons in Hm as [Hls Hm]. cbn in Hls. destruct (Z.leb_spec s le).
    + rewrite removelast_last, IH; [|done|intros ls' le'; rewrite last_snoc; intros [= <- <-]; done]. f_equal. rewrite !missing_app, <- orb_assoc. f_equal. cbn. rewrite !orb_false_r. unfold inside. cbn. zcases.
    + rewrite IH; [|done|intros ls' le'; rewrite last_snoc; intros [= <- <-]; done]. f_equal. rewrite (missing_app (m ++ [(ls, le)])). f_equal. apply orb_false_r.
Qed.
(** What adopting tags leaves missing. *)
Lemma adopt_tags_lacks raw a t g x :
  0 < file_size t → 0 ≤ x < file_size t → lacks (adopt_tags raw a t g).1 x = true ↔ tags_unusable (file_size t) raw a ∨ in_tag_gap (file_size t) a x.
Proof.
  intros Hs Hx. assert (missing [(0, file_size t)] x = true) as Hall by (apply missing_spec; exists (0, file_size t); split; [left|done]).
  unfold adopt_tags. cbv zeta. rewrite (proj2 (Z.ltb_lt 0 (file_size t)) Hs), !andb_true_r. cbn [andb].
  destruct (match file_size_from_tags a with Some _ => _ | None => _ end) eqn:E1.
  { split; [intros _|by intros _; exact Hall]. left. left. destruct (file_size_from_tags a) as [n|]; [|done]. exists n. split; [done|]. by apply andb_true_iff in E1 as [?%negb_true_iff%Z.eqb_neq _]. }
  destruct ((_ <? _) || (_ <? raw)) eqn:E2.
  { split; [intros _|by intros _; exact Hall]. left. right. apply orb_true_iff in E2 as [?%Z.ltb_lt|?%Z.ltb_lt]; [by left|right; by left]. }
  destruct (existsb _ _) eqn:E3.
  { split; [intros _|by intros _; exact Hall]. left. right. right. right. apply existsb_exists in E3 as ([i e] & Hin & Hb%bool_decide_eq_true). apply list_elem_of_In, elem_of_map_iter in Hin. by exists i, e. }
  assert (tags_unusable (file_size t) raw a → False) as Hok.
  { apply orb_false_iff in E2 as [?%Z.ltb_ge ?%Z.ltb_ge]. intros [(n & Hn & Hne)|[?|[?|(i & e & Hi & Hno)]]]; [|lia|lia|].
    - rewrite Hn, andb_true_r in E1. by apply negb_false_iff, Z.eqb_eq in E1.
    - apply not_true_iff_false in E3. apply E3, existsb_exists. exists (i, e). split; [by apply list_elem_of_In, elem_of_map_iter|by apply bool_decide_eq_true]. }
  case_bool_decide as E4.
  { split; [done|]. intros [?|(i & s & Hi & _)]; [by destruct Hok|]. rewrite E4, lookup_empty in Hi. done. }
  transitivity (missing (merge_sorted (stable_sort range_le (paired_gaps a (file_size t))) []) x = true); [by destruct (verified_bitmap_bytes a)|].
  rewrite merge_sorted_missing; [|apply stable_sort_sorted; intros *; unfold range_le; rewrite !Z.leb_le; lia|done]. cbn [missing existsb orb]. fold (missing (stable_sort range_le (paired_gaps a (file_size t))) x).
  assert (missing (stable_sort range_le (paired_gaps a (file_size t))) x = true ↔ missing (paired_gaps a (file_size t)) x = true) as -> by (rewrite !missing_spec; by setoid_rewrite stable_sort_perm).
  rewrite paired_gaps_missing by done. split; [by right|intros [?|?]; [by destruct Hok|done]].
Qed.
Lemma fits_test size count : count_fits size count → negb (count =? 0) && negb (count =? ed2k_part_count_for_size size) && negb (count =? ed2k_known_met_part_hash_count size) = false.
Proof. unfold count_fits. destruct (Z.eqb_spec count 0), (Z.eqb_spec count (ed2k_part_count_for_size size)), (Z.eqb_spec count (ed2k_known_met_part_hash_count size)); cbn; naive_solver. Qed.
Lemma unfit_test size count : (count_fits size count → False) → negb (count =? 0) && negb (count =? ed2k_part_count_for_size size) && negb (count =? ed2k_known_met_part_hash_count size) = true.
Proof. unfold count_fits. destruct (Z.eqb_spec count 0), (Z.eqb_spec count (ed2k_part_count_for_size size)), (Z.eqb_spec count (ed2k_known_met_part_hash_count size)); cbn; naive_solver. Qed.
Lemma rd_hashes_length count d hashes d' : rd_hashes (Z.to_nat count) d = MOk (hashes, d') → Z.of_nat (length d) <? count * 16 = false.
Proof.
  intros H. apply Z.ltb_ge. destruct (Z.leb_spec count 0); [lia|]. assert (∀ n d hashes d', rd_hashes n d = MOk (hashes, d') → (16 * n ≤ length d)%nat) as Hlen; [|specialize (Hlen _ _ _ _ H); lia].
  clear. induction n as [|n IH]; intros d hashes d'; cbn [rd_hashes]; [lia|]. unfold mbind, rd_bind, rd_exact. case_decide as Hd; [|done]. destruct (rd_hashes n (drop 16 d)) as [[hs d2]|e] eqn:E; [|done]. apply IH in E. rewrite length_drop in E. lia.
Qed.
Lemma header_load data size path hash count rest g :
  met_header data hash count rest → ∃ h, (hash ≠ ZERO_HASH → h = hash) ∧
    load_inner (Some data) (blank_tracker size path hash) g =
    (let t := with_identity (blank_tracker size path hash) h [] [] 0 in
     if negb (count =? 0) && negb (count =? ed2k_part_count_for_size size) && negb (count =? ed2k_known_met_part_hash_count size)
     then (None, reset_to_incomplete t, g)
     else if Z.of_nat (length rest) <? count * 16 then (Some MetTruncatedHashes, t, g)
     else match rd_hashes (Z.to_nat count) rest with
          | MErr e => (Some e, t, g)
          | MOk (hashes, d) =>
              let t := set_part_hashes (take (Z.to_nat (ed2k_part_count_for_size size)) hashes) t in
              match rd_uint 4 d with
              | MErr e => (Some e, t, g)
              | MOk (raw, d) =>
                  let a := read_tags (Z.to_nat (Z.min raw MAX_TAG_COUNT)) d TagAcc_init in
                  let t := with_identity t (file_hash t) (default (file_name t) (name_from_tags a)) (part_hashes t) (default (transferred t) (transferred_from_tags a)) in
                  let '(t, g) := adopt_tags raw a t g in (None, t, g)
              end
          end).
Proof.
  intros (version & at_ & hs & h & Hv & Hver & Hlay & Hh & Hid & Hc). unfold load_inner.
  assert (at_ = 5 ∨ at_ = 6)%nat as Hat by (unfold part_met_hash_layout in Hlay; destruct (_ =? _); [done|]; injection Hlay as Hl; destruct (_ && _ && _); injection Hl as <- _; lia).
  pose proof Hh as Hsl. apply slice_eq in Hsl as (_ & Hlen & Hsl). rewrite (proj2 (Z.ltb_ge _ 4)) by lia. rewrite Hv. change (default 0 (Some version)) with version. cbv zeta.
  assert ((version =? PARTFILE_VERSION) || (version =? PARTFILE_VERSION_LARGEFILE) || (version =? PARTFILE_SPLITTED_VERSION) = true) as -> by (destruct Hver as [->| ->]; done).
  unfold load_emule_format. rewrite Hlay, (rd_header data at_ h) by (done || lia).
  assert (bool_decide (file_hash (blank_tracker size path hash) ≠ ZERO_HASH) && bool_decide (h ≠ ZERO_HASH) && bool_decide (h ≠ file_hash (blank_tracker size path hash)) = false) as ->.
  { cbn [blank_tracker file_hash]. apply not_true_iff_false. intros [[?%bool_decide_eq_true ?%bool_decide_eq_true]%andb_true_iff ?%bool_decide_eq_true]%andb_true_iff. naive_solver. }
  exists (if decide (hash = ZERO_HASH) then h else hash). split; [intros ?; by rewrite decide_False|].
  assert ((if decide (file_hash (blank_tracker size path hash) = ZERO_HASH) then set_file_hash h (blank_tracker size path hash) else blank_tracker size path hash) =
    with_identity (blank_tracker size path hash) (if decide (hash = ZERO_HASH) then h else hash) [] [] 0) as -> by (cbn [blank_tracker file_hash]; by case_decide).
  rewrite Hc. reflexivity.
Qed.

(** ** The bitmap of the old format *)
Definition legacy_bits (data : bytes) (size : Z) (bits : bytes) : Prop :=
  ∃ rest, take 4 data = le_bytes 4 OLD_PART_MET_MAGIC ∧ rd_uint 8 (drop 4 data) = MOk (size, rest) ∧
    rd_uint 4 rest = MOk (Z.of_nat (default 0%nat (tracked_part_count size)), bits) ∧ Z.of_nat ((default 0%nat (tracked_part_count size) + 7) / 8) ≤ Z.of_nat (length bits).
Lemma legacy_load data size path hash bits g :
  legacy_bits data size bits → load_inner (Some data) (blank_tracker size path hash) g = load_legacy data (blank_tracker size path hash) g.
Proof.
  intros (rest & Hm & H8 & _). unfold load_inner. assert (4 ≤ length data)%nat as Hlen by (apply (f_equal length) in Hm; rewrite length_take, length_le_bytes in Hm; lia).
  rewrite (proj2 (Z.ltb_ge _ 4)) by lia. assert (data !! 0%nat = Some 84) as -> by (transitivity (take 4 data !! 0%nat); [symmetry; apply lookup_take_lt; lia|by rewrite Hm]). rewrite Hm. reflexivity.
Qed.
(** Marking other parts leaves the bytes of a part missing. *)
Lemma legacy_parts_lack parts t g p x :
  tracker_ok t → p ∉ parts → Z.of_nat p * PARTSIZE ≤ x < (Z.of_nat p + 1) * PARTSIZE → lacks t x = true →
  lacks (foldl (λ tg i, mark_complete i tg.1 tg.2) (t, g) parts).1 x = true.
Proof.
  intros Hok Hp Hx. revert t g Hok. induction parts as [|q parts IH]; intros t g Hok Hl; cbn [foldl]; [done|]. apply not_elem_of_cons in Hp as [Hpq Hp]. cbn [fst snd].
  unfold mark_complete at 2. destruct (part_range t q) as [a b] eqn:Er. destruct (fill_range a b t g) as [[n t1] g1] eqn:Ef. destruct (fill_range_spec _ _ _ _ _ _ _ Hok Ef) as (H1 & _ & _ & H4 & _). apply IH; [done|done|].
  apply H4; [done|]. intros Hin. pose proof (part_range_bytes t q x) as Hb. rewrite Er in Hb. specialize (Hb Hin). pose proof PARTSIZE_pos. assert (p = q) by nia. done.
Qed.
Lemma legacy_lacks data size path hash bits g p x :
  0 < size → legacy_bits data size bits →
  Z.testbit (default 0 (bits !! (p / 8)%nat)) (Z.of_nat (p mod 8)) = false → Z.of_nat p * PARTSIZE ≤ x < (Z.of_nat p + 1) * PARTSIZE → 0 ≤ x < size →
  (load_inner (Some data) (blank_tracker size path hash) g).1.1 = None → lacks (load_inner (Some data) (blank_tracker size path hash) g).1.2 x = true.
Proof.
  intros Hs Hleg Hbit Hp Hx. rewrite (legacy_load data size path hash bits g Hleg). destruct Hleg as (rest & _ & H8 & H4 & Hlen). unfold load_legacy. rewrite H8. cbn [blank_tracker file_size]. rewrite Z.eqb_refl. cbn [negb]. rewrite H4.
  cbn [blank_tracker part_count]. rewrite Z.eqb_refl. cbn [negb]. rewrite (proj2 (Z.ltb_ge _ _)) by exact Hlen. set (parts := retain _ _). set (t0 := with_gaps _ _).
  assert (p ∉ parts) as Hnot by (intros [Hb _]%elem_of_retain; congruence).
  pose proof (legacy_parts_lack parts t0 g p x) as H. destruct (foldl _ (t0, g) parts) as [t1 g1]. cbn [fst snd] in *. intros _. apply H; [|done|done|].
  - destruct (fresh_gaps (blank_tracker size path hash) [(0, size)]) as [? _]; [apply blank_fresh; lia|by apply whole_gap|done].
  - apply missing_spec. exists (0, size). split; [left|done].
Qed.
End load.

(** ** Examples *)

(** A sidecar that declares a tag and ends, and one whose only gap is [100, 200). *)
Definition met_start : bytes := [224; 0; 0; 0; 1] ++ replicate 16 2 ++ [0; 0].
Definition cut_short : bytes := met_start ++ [1; 0; 0; 0].
Definition one_gap : bytes := met_start ++ [3; 0; 0; 0] ++ write_uint32_tag FT_EMBER_GAP_FORMAT GAP_FORMAT_EXCLUSIVE_END
  ++ [3; 2; 0; FT_GAPSTART; 48; 100; 0; 0; 0] ++ [3; 2; 0; FT_GAPEND; 48; 200; 0; 0; 0].
(** A legacy sidecar of an empty file leaves a gap of no bytes, which nothing can
    fill: the file is never complete. *)
Lemma legacy_empty_file_never_complete :
  let '(t', g') := new_with_identity 0 [1] [2] (Some ([84; 69; 77; 80] ++ replicate 12 0)) None Shared_init in
  gaps t' = [(0, 0)] ∧ all_complete t' = false ∧
  ∀ start stop, 0 ≤ start → all_complete (fill_range start stop t' g').1.2 = false.
Proof.
  destruct (new_with_identity 0 [1] [2] _ None Shared_init) as [t' g'] eqn:E. vm_compute in E. injection E as <- <-.
  split; [done|]. split; [done|]. intros start stop Hs. unfold fill_range. destruct (Z.leb_spec stop start); [done|].
  assert (0 <=? start = true) as Hc by (by apply Z.leb_le).
  unfold cut_gaps, cut_gap, overlap_bytes, overlap. cbn [gaps mbind list_bind foldr]. rewrite Hc. cbn [orb app].
  cbn -[Z.leb]. done.
Qed.
