(* ===== verification/PartMetRoundtrip.v ===== *)
(** * What a tracker saves it loads again

    The readers run symbolically on what the writers wrote: the header, each kind
    of tag, the list of gaps, and the verified bitmap. *)
From Stdlib Require Import DecimalNat.
From S2P Require Import Prelude NodeId Addr Contact Record Wire Crypto Messages WireFacts Utf8 MapOrder GapList PartTracker PartInv PartSafety PartClaims PartVerify PartMet PartMetLoad.
Local Open Scope Z_scope.

(** ** Readers on a concatenation *)
Lemma rd_exact_app n l r : length l = n → rd_exact n (l ++ r) = MOk (l, r).
Proof.
  intros Hn. unfold rd_exact. rewrite decide_True by (rewrite length_app; lia). by rewrite take_app_length', drop_app_length'.
Qed.
Lemma rd_uint_app n v r : 0 ≤ v < 256 ^ Z.of_nat n → rd_uint n (le_bytes n v ++ r) = MOk (v, r).
Proof.
  intros Hv. unfold rd_uint, mbind, rd_bind. rewrite rd_exact_app by apply length_le_bytes. unfold mret, rd_ret. by rewrite le_value_le_bytes.
Qed.
Lemma rd_uint_one b r : rd_uint 1 (b :: r) = MOk (b, r).
Proof. unfold rd_uint, mbind, rd_bind. change (b :: r) with ([b] ++ r). rewrite (rd_exact_app 1 [b] r) by done.
  unfold mret, rd_ret. cbn. do 2 f_equal. lia. Qed.
Lemma rd_left_run d : rd_left d = MOk (Z.of_nat (length d), d).
Proof. done. Qed.
Lemma rd_bind_run {A B} (m : rd A) (f : A → rd B) d x d' : m d = MOk (x, d') → (m ≫= f) d = f x d'.
Proof. intros H. unfold mbind, rd_bind. by rewrite H. Qed.

(** ** Decimal indices *)
Lemma parse_digit b l acc :
  48 ≤ b ≤ 57 → acc * 10 + (b - 48) ≤ usize_max → parse_digits (b :: l) acc = parse_digits l (acc * 10 + (b - 48)).
Proof.
  intros Hb Hv. cbn [parse_digits]. rewrite (proj2 (Z.leb_le 48 b)), (proj2 (Z.leb_le b 57)) by lia. cbn [andb].
  by rewrite (proj2 (Z.ltb_ge _ _)) by lia.
Qed.
Lemma of_uint_acc_ge u acc : (acc ≤ Nat.of_uint_acc u acc)%nat.
Proof. revert acc. induction u as [|u IH|u IH|u IH|u IH|u IH|u IH|u IH|u IH|u IH|u IH]; intros acc; cbn [Nat.of_uint_acc]; [done|..];
  (etransitivity; [|apply IH]; rewrite Nat.tail_mul_spec; lia). Qed.
Lemma parse_uint_bytes u acc :
  Z.of_nat (Nat.of_uint_acc u acc) ≤ usize_max → parse_digits (uint_bytes u) (Z.of_nat acc) = Some (Z.of_nat (Nat.of_uint_acc u acc)).
Proof.
  revert acc. induction u as [|u IH|u IH|u IH|u IH|u IH|u IH|u IH|u IH|u IH|u IH]; intros acc; [done|..]; cbn [Nat.of_uint_acc uint_bytes]; intros Hm;
    (rewrite parse_digit; [|lia|]);
    first [ match goal with |- context [Nat.of_uint_acc u ?n] =>
              rewrite <- (IH n Hm); f_equal; rewrite Nat.tail_mul_spec; lia end
          | match goal with H : Z.of_nat (Nat.of_uint_acc u ?n) ≤ _ |- _ =>
              pose proof (of_uint_acc_ge u n); rewrite Nat.tail_mul_spec in *; lia end ].
Qed.
Lemma uint_bytes_head u : uint_bytes u = [] ∨ ∃ b l, uint_bytes u = b :: l ∧ 48 ≤ b ≤ 57.
Proof. destruct u; cbn; [by left|right; do 2 eexists; split; [done|lia]..]. Qed.
Lemma to_string_nonempty n : to_string n ≠ [].
Proof.
  unfold to_string. intros E. assert (Nat.to_uint n = Decimal.Nil) as En by (destruct (Nat.to_uint n); [done|done..]).
  pose proof (Unsigned.of_to n) as H. rewrite En in H. cbn in H. subst n. done.
Qed.
Lemma parse_to_string n : Z.of_nat n ≤ usize_max → parse_usize (to_string n) = Some (Z.of_nat n).
Proof.
  intros Hn. pose proof (to_string_nonempty n) as Hne. unfold to_string in *.
  pose proof (parse_uint_bytes (Nat.to_uint n) 0) as Hp. change (Nat.of_uint_acc (Nat.to_uint n) 0) with (Nat.of_uint (Nat.to_uint n)) in Hp.
  rewrite (Unsigned.of_to n) in Hp. specialize (Hp Hn). destruct (uint_bytes_head (Nat.to_uint n)) as [E|(b & l & E & Hb)]; [done|].
  rewrite E in *. unfold parse_usize. rewrite (proj2 (Z.eqb_neq b 43)) by lia. done.
Qed.
(** ** Names *)
Lemma lossy_valid l : utf8_valid l = true → from_utf8_lossy l = l.
Proof.
  remember (length l) as n eqn:En. revert l En. induction (lt_wf n) as [n _ IH]. intros l ->.
  assert (∀ k, (length k < length l)%nat → utf8_valid k = true → from_utf8_lossy k = k) as Hk by (intros k Hlt; by eapply IH).
  clear IH. destruct l as [|b0 l1]; [done|]. cbn [utf8_valid from_utf8_lossy]. destruct (Z.ltb_spec b0 128).
  { intros [_ H1]%andb_true_iff. f_equal. apply Hk; [cbn; lia|done]. }
  destruct l1 as [|b1 l2]; [done|]. destruct ((194 <=? b0) && (b0 <=? 223)) eqn:E2; cbn [andb].
  { intros [-> H2]%andb_true_iff. do 2 f_equal. apply Hk; [cbn; lia|done]. }
  destruct l2 as [|b2 l3]; [done|]. unfold second_of_three. destruct ((224 <=? b0) && (b0 <=? 239)) eqn:E3; cbn [andb].
  { intros [[-> ->]%andb_true_iff H3]%andb_true_iff. do 3 f_equal. apply Hk; [cbn; lia|done]. }
  destruct l3 as [|b3 l4]; [done|]. unfold second_of_four.
  intros [[[[-> ->]%andb_true_iff ->]%andb_true_iff ->]%andb_true_iff H4]%andb_true_iff. do 4 f_equal. apply Hk; [cbn; lia|done].
Qed.
Lemma decode_name name : utf8_valid name = true → take 3 name ≠ UTF8_BOM → decode_met_string name = name.
Proof. intros Hv Hb. unfold decode_met_string. rewrite decide_False by done. by apply lossy_valid. Qed.

(** ** Tags *)
Lemma rd_name_short ty id r : 0 ≤ ty < 128 → rd_name ty (le_bytes 2 1 ++ [id] ++ r) = MOk ((ty, [id]), r).
Proof.
  intros Hty. unfold rd_name. assert (Z.testbit ty 7 = false) as ->.
  { rewrite Z.testbit_false by lia. change (2 ^ 7) with 128. rewrite Z.div_small by lia. done. }
  erewrite rd_bind_run by (apply rd_uint_app; cbn; lia). change (4096 <? 1) with false. cbn iota.
  erewrite rd_bind_run by (by apply (rd_exact_app (Z.to_nat 1) [id])). done.
Qed.
Lemma read_uint32 id v r : 0 ≤ v < 4294967296 → read_emule_tag (write_uint32_tag id v ++ r) = MOk (numeric_tag [id] v, r).
Proof.
  intros Hv. unfold read_emule_tag, write_uint32_tag. rewrite <- !app_assoc. erewrite rd_bind_run by apply rd_uint_one.
  erewrite rd_bind_run by (apply rd_name_short; done). unfold rd_value. cbn [Z.eqb TAGTYPE_UINT32 Pos.eqb].
  erewrite rd_bind_run by (apply rd_uint_app; done). done.
Qed.
Lemma read_uint64 id v r : 0 ≤ v < 18446744073709551616 → read_emule_tag (write_uint64_tag id v ++ r) = MOk (numeric_tag [id] v, r).
Proof.
  intros Hv. unfold read_emule_tag, write_uint64_tag. rewrite <- !app_assoc. erewrite rd_bind_run by apply rd_uint_one.
  erewrite rd_bind_run by (apply rd_name_short; done). unfold rd_value. cbn [Z.eqb TAGTYPE_UINT32 TAGTYPE_UINT64 Pos.eqb].
  erewrite rd_bind_run by (apply rd_uint_app; done). done.
Qed.
Lemma read_string name r :
  Z.of_nat (length name) ≤ 65535 → read_emule_tag (write_string_tag FT_FILENAME name ++ r) = MOk (MetFileName (decode_met_string name), r).
Proof.
  intros Hn. unfold read_emule_tag, write_string_tag, clamp_name. rewrite (proj2 (Z.leb_le _ _)) by done. cbv zeta. rewrite <- !app_assoc.
  erewrite rd_bind_run by apply rd_uint_one. erewrite rd_bind_run by (apply rd_name_short; done).
  unfold rd_value. cbn [Z.eqb TAGTYPE_UINT32 TAGTYPE_UINT64 TAGTYPE_STRING Pos.eqb].
  erewrite rd_bind_run by (apply rd_uint_app; cbn; lia). erewrite rd_bind_run by apply rd_left_run.
  rewrite (proj2 (Z.ltb_ge _ _)) by (rewrite length_app; lia).
  erewrite rd_bind_run by (apply rd_exact_app; lia). by rewrite decide_True.
Qed.
Lemma read_bitmap bitmap tag r :
  Z.of_nat (length bitmap) ≤ 1000000 → write_blob_tag FT_EMBER_VERIFIED_BITMAP bitmap = MOk tag →
  read_emule_tag (tag ++ r) = MOk (MetVerifiedBitmap bitmap, r).
Proof.
  intros Hn. unfold write_blob_tag. rewrite (proj2 (Z.ltb_ge _ _)) by lia. set (b := _ ++ _). intros Hb. assert (tag = b) as -> by congruence.
  unfold b. unfold read_emule_tag. rewrite <- !app_assoc.
  erewrite rd_bind_run by apply rd_uint_one. erewrite rd_bind_run by (apply rd_name_short; done).
  unfold rd_value. cbn [Z.eqb TAGTYPE_UINT32 TAGTYPE_UINT64 TAGTYPE_STRING TAGTYPE_BLOB Pos.eqb].
  erewrite rd_bind_run by (apply rd_uint_app; cbn; lia). erewrite rd_bind_run by apply rd_left_run.
  rewrite (proj2 (Z.ltb_ge _ _)) by (rewrite length_app; lia).
  erewrite rd_bind_run by (apply rd_exact_app; lia). rewrite (proj2 (Z.leb_le _ _)) by done. done.
Qed.
Definition gap_tag_of (gap_type : Z) (index : nat) (v : Z) : MetTag :=
  if gap_type =? FT_GAPSTART then MetGapStart (Z.of_nat index) v else MetGapEnd (Z.of_nat index) v.
Lemma numeric_gap gap_type index v :
  gap_type = FT_GAPSTART ∨ gap_type = FT_GAPEND → Z.of_nat index ≤ usize_max →
  numeric_tag (gap_type :: to_string index) v = gap_tag_of gap_type index v.
Proof.
  intros Ht Hi. pose proof (to_string_nonempty index) as Hne. pose proof (parse_to_string index Hi) as Hp. unfold numeric_tag.
  destruct (to_string index) as [|b l] eqn:E; [done|]. rewrite Hp. unfold gap_tag_of. by destruct Ht as [->| ->].
Qed.
Lemma of_uint_acc_pow u acc : (acc * 10 ^ length (uint_bytes u) ≤ Nat.of_uint_acc u acc)%nat.
Proof.
  revert acc. induction u as [|u IH|u IH|u IH|u IH|u IH|u IH|u IH|u IH|u IH|u IH]; intros acc; cbn [Nat.of_uint_acc uint_bytes length]; [cbn; lia|..];
    rewrite Nat.pow_succ_r'; match goal with |- (_ ≤ Nat.of_uint_acc u ?n)%nat => specialize (IH n) end; rewrite Nat.tail_mul_spec in *;
    (etransitivity; [|exact IH]); rewrite Nat.mul_assoc; apply Nat.mul_le_mono_r; lia.
Qed.
Lemma length_to_string index : Z.of_nat index ≤ 1000000 → (length (to_string index) ≤ 8)%nat.
Proof.
  intros Hi. unfold to_string. pose proof (Unsigned.of_to index) as Hof. pose proof (Unsigned.to_of (Nat.to_uint index)) as Hto. rewrite Hof in Hto.
  assert (∀ u d, (1 ≤ d)%nat → index = Nat.of_uint_acc u d → (S (length (uint_bytes u)) ≤ 8)%nat) as Hlead.
  { intros u d Hd He. pose proof (of_uint_acc_pow u d) as Hp. rewrite <- He in Hp.
    destruct (decide (8 ≤ length (uint_bytes u))%nat) as [Hl|]; [exfalso|lia].
    pose proof (Nat.pow_le_mono_r 10 8 (length (uint_bytes u)) ltac:(lia) Hl) as Hpow.
    assert (Z.of_nat (10 ^ 8) ≤ Z.of_nat index) as Hz by nia. rewrite Nat2Z.inj_pow in Hz. lia. }
  destruct (Nat.to_uint index) as [|u|u|u|u|u|u|u|u|u|u] eqn:E; cbn [uint_bytes length]; [lia| |symmetry in Hof; unfold Nat.of_uint in Hof; cbn [Nat.of_uint_acc] in Hof; by eapply Hlead; [|exact Hof]; cbn; lia..].
  unfold Decimal.unorm in Hto. cbn [Decimal.nzhead] in Hto. destruct (Decimal.nzhead u) eqn:En; try done.
  - injection Hto as ->. cbn. lia.
  - exfalso. clear -En. induction u as [|u IH| | | | | | | | |]; cbn in En; [done|by apply IH|done..].
Qed.
Lemma rd_name_long ty name r :
  0 ≤ ty < 128 → (length name ≤ 4096)%nat → rd_name ty (le_bytes 2 (Z.of_nat (length name)) ++ name ++ r) = MOk ((ty, name), r).
Proof.
  intros Hty Hn. unfold rd_name. assert (Z.testbit ty 7 = false) as ->.
  { rewrite Z.testbit_false by lia. change (2 ^ 7) with 128. rewrite Z.div_small by lia. done. }
  erewrite rd_bind_run by (apply rd_uint_app; change (256 ^ Z.of_nat 2) with 65536; lia). rewrite (proj2 (Z.ltb_ge _ _)) by lia.
  erewrite rd_bind_run by (apply rd_exact_app; lia). done.
Qed.
(** What fits the tags of a file of that size. *)
Definition offset_fits (use_large : bool) (v : Z) : Prop := 0 ≤ v < (if use_large then 18446744073709551616 else 4294967296).
Lemma read_gap gap_type index v large tag r :
  gap_type = FT_GAPSTART ∨ gap_type = FT_GAPEND → Z.of_nat index ≤ 1000000 → offset_fits large v →
  write_gap_tag gap_type index v large = MOk tag → read_emule_tag (tag ++ r) = MOk (gap_tag_of gap_type index v, r).
Proof.
  intros Ht Hi Hv. pose proof (length_to_string index Hi) as Hl. unfold write_gap_tag. set (name := gap_type :: to_string index).
  assert (length name ≤ 4096)%nat as Hn by (cbn; lia). assert (numeric_tag name v = gap_tag_of gap_type index v) as Hnum.
  { apply numeric_gap; [done|]. unfold usize_max. lia. }
  clearbody name. cbv zeta. unfold offset_fits in Hv. destruct large.
  - set (b := _ ++ _). intros Hb. assert (tag = b) as -> by congruence. unfold b. unfold read_emule_tag. rewrite <- !app_assoc.
    erewrite rd_bind_run by apply rd_uint_one. erewrite rd_bind_run by (apply rd_name_long; done).
    unfold rd_value. cbn [Z.eqb TAGTYPE_UINT32 TAGTYPE_UINT64 Pos.eqb]. erewrite rd_bind_run by (apply rd_uint_app; done). by rewrite Hnum.
  - rewrite (proj2 (Z.ltb_ge _ _)) by lia. set (b := _ ++ _). intros Hb. assert (tag = b) as -> by congruence. unfold b.
    unfold read_emule_tag. rewrite <- !app_assoc. erewrite rd_bind_run by apply rd_uint_one. erewrite rd_bind_run by (apply rd_name_long; done).
    unfold rd_value. cbn [Z.eqb TAGTYPE_UINT32 Pos.eqb]. erewrite rd_bind_run by (apply rd_uint_app; done). by rewrite Hnum.
Qed.
Lemma write_gap_some gap_type index v large : offset_fits large v → ∃ tag, write_gap_tag gap_type index v large = MOk tag ∧ tag ≠ [].
Proof.
  intros Hv. unfold write_gap_tag, offset_fits in *. cbv zeta. destruct large; [by eexists|]. rewrite (proj2 (Z.ltb_ge _ _)) by lia. by eexists.
Qed.

(** ** The tags of a sidecar, in order *)

(** The loop reads one tag after another. *)
Lemma read_tags_one count tag d d' a :
  d ≠ [] → read_emule_tag d = MOk (tag, d') → read_tags (S count) d a = read_tags count d' (take_tag tag a).
Proof. intros Hd Hr. cbn [read_tags]. destruct d as [|b d]; [done|]. by rewrite Hr. Qed.
Fixpoint take_gaps (i : nat) (gs : list range) (a : TagAcc) : TagAcc :=
  match gs with
  | [] => a
  | (s, e) :: gs => take_gaps (S i) gs (take_tag (MetGapEnd (Z.of_nat i) e) (take_tag (MetGapStart (Z.of_nat i) s) a))
  end.
Lemma write_gaps_run i gs large count r a :
  Forall (λ g : range, offset_fits large g.1 ∧ offset_fits large g.2) gs → Z.of_nat (i + length gs) ≤ 1000000 →
  ∃ b, write_gaps i gs large = MOk b ∧ read_tags (2 * length gs + count) (b ++ r) a = read_tags count r (take_gaps i gs a).
Proof.
  revert i a. induction gs as [|[s e] gs IH]; intros i a Hf Hi; [by exists []|]. apply Forall_cons in Hf as [[Hs He] Hf]. cbn [fst snd] in *.
  cbn [write_gaps length] in *. destruct (write_gap_some FT_GAPSTART i s large Hs) as (ta & Ea & Na).
  destruct (write_gap_some FT_GAPEND i e large He) as (tb & Eb & Nb).
  destruct (IH (S i) (take_tag (MetGapEnd (Z.of_nat i) e) (take_tag (MetGapStart (Z.of_nat i) s) a)) Hf) as (b & Ew & Er); [lia|].
  rewrite Ea, Eb. unfold mbind, met_bind. rewrite Ew. exists (ta ++ tb ++ b). split; [done|]. rewrite <- !app_assoc.
  replace (2 * S (length gs) + count)%nat with (S (S (2 * length gs + count))) by lia.
  erewrite read_tags_one; [|by destruct ta|apply (read_gap FT_GAPSTART i s large); [by left|lia|done|done]].
  erewrite read_tags_one; [|by destruct tb|apply (read_gap FT_GAPEND i e large); [by right|lia|done|done]].
  exact Er.
Qed.
(** The maps the gap tags build. *)
Fixpoint indexed (f : range → Z) (i : nat) (gs : list range) : list (Z * Z) :=
  match gs with [] => [] | g :: gs => (Z.of_nat i, f g) :: indexed f (S i) gs end.
Lemma indexed_key f i gs k : k ∈ (indexed f i gs).*1 → Z.of_nat i ≤ k.
Proof.
  revert i. induction gs as [|g gs IH]; intros i; cbn; [by intros ?%elem_of_nil|]. intros [->|Hk]%elem_of_cons; [lia|]. apply IH in Hk. lia.
Qed.
Lemma indexed_nodup f i gs : NoDup (indexed f i gs).*1.
Proof. revert i. induction gs as [|g gs IH]; intros i; cbn; constructor; [|apply IH]. intros Hk%indexed_key. lia. Qed.
Lemma take_gaps_acc i gs a :
  let a' := take_gaps i gs a in
  gap_starts a' = list_to_map (indexed fst i gs) ∪ gap_starts a ∧ gap_ends a' = list_to_map (indexed snd i gs) ∪ gap_ends a ∧
  gap_end_is_exclusive a' = gap_end_is_exclusive a ∧ file_size_from_tags a' = file_size_from_tags a ∧
  verified_bitmap_bytes a' = verified_bitmap_bytes a ∧ tags_parsed a' = tags_parsed a + 2 * Z.of_nat (length gs) ∧
  name_from_tags a' = name_from_tags a ∧ transferred_from_tags a' = transferred_from_tags a.
Proof.
  revert i a. induction gs as [|[s e] gs IH]; intros i a; cbn [take_gaps indexed list_to_map foldr].
  { rewrite !(left_id_L ∅ (∪)). repeat split; try done. cbn. lia. }
  specialize (IH (S i) (take_tag (MetGapEnd (Z.of_nat i) e) (take_tag (MetGapStart (Z.of_nat i) s) a))). cbv zeta in IH.
  destruct IH as (I1 & I2 & I3 & I4 & I5 & I6 & I7 & I8). destruct a as [st en ex fs bm n nm tr]. cbn [take_tag gap_starts gap_ends gap_end_is_exclusive
    file_size_from_tags verified_bitmap_bytes tags_parsed name_from_tags transferred_from_tags length] in *.
  assert (∀ f, (list_to_map (indexed f (S i) gs) : gmap Z Z) !! Z.of_nat i = None) as Hnone.
  { intros f. apply not_elem_of_list_to_map_1. intros Hk%indexed_key. lia. }
  rewrite I1, I2, I3, I4, I5, I6, I7, I8. cbn [fst snd]. rewrite <- !insert_union_r by apply Hnone. rewrite !insert_union_l.
  repeat split; try done. lia.
Qed.

(** ** The gap list comes back *)
Lemma paired_gaps_same `{MapOrder} a size gs :
  gaps_ok 0 size gs → gap_starts a = list_to_map (indexed fst 0 gs) → gap_ends a = list_to_map (indexed snd 0 gs) →
  gap_end_is_exclusive a = true → paired_gaps a size ≡ₚ gs.
Proof.
  intros Hok Es Ee Ex. unfold paired_gaps. rewrite map_iter_perm, Es, map_to_list_to_map by apply indexed_nodup.
  set (f := λ kv : Z * Z, _).
  assert (∀ lo i gs', gaps_ok lo size gs' → (∀ j g, gs' !! j = Some g → gap_ends a !! Z.of_nat (i + j) = Some g.2) → omap f (indexed fst i gs') = gs') as Hrec.
  { intros lo i gs'. revert lo i. induction gs' as [|[s e] gs' IH]; intros lo i Hg Hend; [done|]. destruct Hg as (G1 & G2 & G3 & G4).
    cbn [indexed fst]. cbn [omap list_omap]. pose proof (Hend 0%nat (s, e) eq_refl) as He. rewrite Nat.add_0_r in He.
    assert (f (Z.of_nat i, s) = Some (s, e)) as ->.
    { unfold f. rewrite He, Ex. cbn [snd]. rewrite Z.min_r by lia. by rewrite (proj2 (Z.ltb_lt s e)) by lia. }
    f_equal. apply (IH _ (S i) G4). intros j g Hj. replace (S i + j)%nat with (i + S j)%nat by lia. by apply Hend. }
  rewrite (Hrec 0 0%nat gs Hok); [done|]. intros j g Hj. rewrite Ee. cbn [plus]. clear -Hj.
  assert (∀ i gs' j, gs' !! j = Some g → (list_to_map (indexed snd i gs') : gmap Z Z) !! Z.of_nat (i + j) = Some g.2) as Hl; [|by apply (Hl 0%nat)].
  intros i gs'. revert i. induction gs' as [|g' gs' IH]; intros i j' Hj'; [done|]. cbn [indexed list_to_map foldr]. destruct j' as [|j'].
  - injection Hj' as ->. rewrite Nat.add_0_r. apply lookup_insert_eq.
  - cbn in Hj'. cbn [fst snd]. rewrite lookup_insert_ne by lia. replace (i + S j')%nat with (S i + j')%nat by lia. by apply IH.
Qed.
Lemma merge_sorted_id lo hi merged l : gaps_ok lo hi (merged ++ l) → merge_sorted l merged = merged ++ l.
Proof.
  revert merged. induction l as [|[s e] l IH]; intros merged Hok; [cbn; by rewrite app_nil_r|]. cbn [merge_sorted].
  assert (match last merged with Some (ls, le) => if s <=? le then removelast merged ++ [(ls, Z.max le e)] else merged ++ [(s, e)] | None => merged ++ [(s, e)] end
    = merged ++ [(s, e)]) as ->.
  { destruct merged as [|[ls le] m] using rev_ind; [done|]. rewrite last_snoc.
    assert (le < s) as Hlt; [|by rewrite (proj2 (Z.leb_gt s le))].
    eapply (gaps_ok_lookup _ _ _ (length m) (S (length m)) (ls, le) (s, e) Hok); [lia|rewrite <- app_assoc; by apply list_lookup_middle|].
    apply list_lookup_middle. rewrite length_app. cbn. lia. }
  rewrite IH by (by rewrite <- app_assoc). by rewrite <- app_assoc.
Qed.
(** ** The bitmap comes back *)
Lemma set_bit_test bm i j :
  (j / 8 < length bm)%nat →
  Z.testbit (default 0 (set_bit bm j !! (i / 8)%nat)) (Z.of_nat (i mod 8)) =
  Z.testbit (default 0 (bm !! (i / 8)%nat)) (Z.of_nat (i mod 8)) || bool_decide (i = j).
Proof.
  intros Hj. unfold set_bit. pose proof (Nat.div_mod_eq i 8) as Ei. pose proof (Nat.div_mod_eq j 8) as Ej.
  pose proof (Nat.mod_upper_bound i 8 ltac:(lia)) as Bi. pose proof (Nat.mod_upper_bound j 8 ltac:(lia)) as Bj.
  set (qi := (i / 8)%nat) in *. set (ri := (i mod 8)%nat) in *. set (qj := (j / 8)%nat) in *. set (rj := (j mod 8)%nat) in *. clearbody qi ri qj rj.
  destruct (decide (qi = qj)) as [->|Hne].
  - rewrite list_lookup_alter_eq. destruct (lookup_lt_is_Some_2 bm qj Hj) as [b Hb]. rewrite Hb. change (default 0 ((λ b0, Z.lor b0 (Z.shiftl 1 (Z.of_nat rj))) <$> Some b)) with (Z.lor b (Z.shiftl 1 (Z.of_nat rj))).
    change (default 0 (Some b)) with b. rewrite Z.lor_spec, Z.shiftl_1_l, Z.pow2_bits_eqb by lia. f_equal. apply Bool.eq_iff_eq_true. rewrite Z.eqb_eq, bool_decide_eq_true. lia.
  - rewrite list_lookup_alter_ne by done. rewrite (bool_decide_eq_false_2 (i = j)) by lia. by rewrite orb_false_r.
Qed.
Lemma set_bits_test idxs bm i :
  Forall (λ j, (j / 8 < length bm)%nat) idxs →
  Z.testbit (default 0 (foldl set_bit bm idxs !! (i / 8)%nat)) (Z.of_nat (i mod 8)) =
  Z.testbit (default 0 (bm !! (i / 8)%nat)) (Z.of_nat (i mod 8)) || bool_decide (i ∈ idxs).
Proof.
  revert bm. induction idxs as [|j idxs IH]; intros bm Hall; cbn [foldl].
  - rewrite (bool_decide_eq_false_2 (i ∈ [])) by apply not_elem_of_nil. by rewrite orb_false_r.
  - apply Forall_cons in Hall as [Hj Hall]. rewrite IH; [|unfold set_bit; by rewrite length_alter]. rewrite set_bit_test by done.
    rewrite <- orb_assoc. f_equal. apply Bool.eq_iff_eq_true. rewrite orb_true_iff, !bool_decide_eq_true, elem_of_cons. done.
Qed.
Lemma pack_bitmap_test flags i :
  Z.testbit (default 0 (pack_bitmap flags !! (i / 8)%nat)) (Z.of_nat (i mod 8)) = default false (flags !! i).
Proof.
  unfold pack_bitmap. rewrite set_bits_test.
  - assert (Z.testbit (default 0 (replicate ((length flags + 7) / 8) 0 !! (i / 8)%nat)) (Z.of_nat (i mod 8)) = false) as ->.
    { destruct (replicate _ 0 !! _) eqn:E; [apply lookup_replicate in E as [-> _]|]; apply Z.testbit_0_l. }
    cbn [orb]. destruct (flags !! i) as [b|] eqn:E.
    + destruct b; [apply bool_decide_eq_true_2; by apply elem_of_verified_indices|].
      apply bool_decide_eq_false_2. rewrite elem_of_verified_indices. congruence.
    + apply bool_decide_eq_false_2. rewrite elem_of_verified_indices. congruence.
  - apply Forall_forall. intros j Hj%elem_of_verified_indices%lookup_lt_Some. rewrite length_replicate.
    pose proof (Nat.div_mod_eq j 8). pose proof (Nat.mod_upper_bound j 8 ltac:(lia)).
    pose proof (Nat.div_mod_eq (length flags + 7) 8). pose proof (Nat.mod_upper_bound (length flags + 7) 8 ltac:(lia)). lia.
Qed.
Lemma length_pack_bitmap flags : length (pack_bitmap flags) = ((length flags + 7) / 8)%nat.
Proof.
  unfold pack_bitmap. generalize (verified_indices flags). intros idxs. rewrite <- (length_replicate ((length flags + 7) / 8)%nat 0) at 2.
  generalize (replicate ((length flags + 7) / 8) 0). induction idxs as [|j idxs IH]; intros bm; cbn; [done|]. rewrite IH. apply length_alter.
Qed.
Lemma restore_same t flags :
  tracker_ok t → length flags = part_count t → (∀ p, default false (flags !! p) = true → is_part_complete t p = true) →
  part_verified (restore_verified_bits (pack_bitmap flags) t) = flags.
Proof.
  intros Hok Hl Hc. unfold restore_verified_bits. cbn [part_verified with_verified].
  apply flags_eq; [by rewrite length_fmap, length_seq|]. intros p. rewrite list_lookup_fmap.
  destruct (decide (p < part_count t)%nat) as [Hp|Hp].
  - rewrite lookup_seq_lt by done. cbn [fmap option_fmap option_map default from_option Nat.add].
    rewrite pack_bitmap_test. specialize (Hc p). destruct (default false (flags !! p)); [|done]. by rewrite Hc.
  - rewrite !lookup_ge_None_2 by (rewrite ?length_seq; lia). done.
Qed.

(** ** The hashes come back *)
Lemma rd_hashes_concat hs r : Forall (λ h : bytes, length h = 16%nat) hs → rd_hashes (length hs) (concat hs ++ r) = MOk (hs, r).
Proof.
  induction hs as [|h hs IH]; intros Hf; [done|]. apply Forall_cons in Hf as [Hh Hf]. cbn [length rd_hashes concat]. rewrite <- app_assoc.
  erewrite rd_bind_run by (by apply rd_exact_app). erewrite rd_bind_run by (by apply IH). done.
Qed.
Lemma length_concat_hashes (hs : list bytes) : Forall (λ h : bytes, length h = 16%nat) hs → length (concat hs) = (16 * length hs)%nat.
Proof. induction 1 as [|h hs Hh _ IH]; [done|]. cbn [concat length]. rewrite length_app, Hh, IH. lia. Qed.
Definition whole_hashset (size : Z) (hs : list bytes) : Prop :=
  (hs = [] ∨ Z.of_nat (length hs) = ed2k_part_count_for_size size) ∧ Forall (λ h : bytes, length h = 16%nat) hs.
Section roundtrip.
Context `{MapOrder} (md4_empty : bytes) (md4_length : length md4_empty = 16%nat).
Lemma part_count_size size : 0 < size → 1 ≤ ed2k_part_count_for_size size ∧ (ed2k_part_count_for_size size - 1) * PARTSIZE < size.
Proof.
  intros Hs. unfold ed2k_part_count_for_size. rewrite (proj2 (Z.eqb_neq size 0)) by lia. pose proof PARTSIZE_pos.
  pose proof (div_ceil_upper size PARTSIZE ltac:(lia) PARTSIZE_pos). destruct (div_ceil_bounds size PARTSIZE ltac:(lia) PARTSIZE_pos); [|lia].
  split; nia.
Qed.
(** The set written keeps the hashes in front, and the loader accepts its length. *)
Lemma hashset_back size hs :
  0 < size → whole_hashset size hs →
  let out := ed2k_known_met_hashset md4_empty hs size in
  let n := Z.of_nat (length out) in
  Forall (λ h : bytes, length h = 16%nat) out ∧ take (Z.to_nat (ed2k_part_count_for_size size)) out = hs ∧
  negb (n =? 0) && negb (n =? ed2k_part_count_for_size size) && negb (n =? ed2k_known_met_part_hash_count size) = false ∧
  n ≤ size / PARTSIZE + 1 ∧ (hs = [] → out = []) ∧ (∀ h hs', hs = h :: hs' → ∃ out', out = h :: out').
Proof.
  intros Hs [Hn Hf]. unfold ed2k_known_met_hashset. destruct (part_count_size size Hs) as [Hc Hc'].
  destruct ((PARTSIZE <=? size) && (size mod PARTSIZE =? 0) && (Z.of_nat (length hs) =? size / PARTSIZE)) eqn:E; cbv zeta.
  - apply andb_true_iff in E as [[Ea%Z.leb_le Eb%Z.eqb_eq]%andb_true_iff Ec%Z.eqb_eq].
    assert (1 ≤ size / PARTSIZE) as Hq by (apply Z.div_le_lower_bound; [apply PARTSIZE_pos|lia]).
    destruct Hn as [->|Hn]; [cbn in Ec; lia|]. rewrite length_app. cbn [length].
    assert (ed2k_part_count_for_size size = size / PARTSIZE) as Hd.
    { unfold ed2k_part_count_for_size. rewrite (proj2 (Z.eqb_neq size 0)) by lia. unfold div_ceil. rewrite Eb. cbn [Z.eqb]. lia. }
    assert (ed2k_known_met_part_hash_count size = size / PARTSIZE + 1) as Hk.
    { unfold ed2k_known_met_part_hash_count. rewrite (proj2 (Z.ltb_ge _ _)) by done. unfold div_ceil. rewrite Eb. cbn [Z.eqb]. lia. }
    split; [apply Forall_app; split; [done|by constructor]|]. split; [apply take_app_length'; lia|].
    split; [rewrite Hk, Nat2Z.inj_add, Ec; change (Z.of_nat 1) with 1; rewrite Z.eqb_refl; cbn [negb]; by rewrite andb_false_r|].
    split; [lia|]. split; [intros ->; cbn in Ec; lia|]. intros h hs' ->. by eexists.
  - split; [done|]. split; [destruct Hn as [->|Hn]; [apply take_nil|apply take_ge; lia]|].
    split; [destruct Hn as [->|Hn]; [done|]; rewrite (proj2 (Z.eqb_eq _ _) Hn); cbn [negb andb]; by rewrite andb_false_r|].
    split.
    + destruct Hn as [->|Hn]; [cbn [length]; pose proof (Z.div_pos size PARTSIZE ltac:(lia) PARTSIZE_pos); lia|]. rewrite Hn.
      unfold ed2k_part_count_for_size. rewrite (proj2 (Z.eqb_neq size 0)) by lia. unfold div_ceil. destruct (_ =? 0); lia.
    + split; [done|]. intros h hs' ->. by eexists.
Qed.

(** ** The tags come back *)
Lemma read_number large id v r :
  offset_fits large v → read_emule_tag ((if large then write_uint64_tag id v else write_uint32_tag id v) ++ r) = MOk (numeric_tag [id] v, r).
Proof. intros Hv. destruct large; [by apply read_uint64|by apply read_uint32]. Qed.
Definition named (t : PartTracker) (a : TagAcc) : TagAcc := match file_name t with [] => a | n => take_tag (MetFileName n) a end.
Definition flagged (t : PartTracker) (a : TagAcc) : TagAcc :=
  if existsb (λ v : bool, v) (part_verified t) then take_tag (MetVerifiedBitmap (pack_bitmap (part_verified t))) a else a.
Definition saved_tags (t : PartTracker) : TagAcc :=
  flagged t (take_tag (MetGapFormat GAP_FORMAT_EXCLUSIVE_END)
    (take_gaps 0 (gaps t) (take_tag (MetTransferred (transferred t)) (take_tag (MetFileSize (file_size t)) (named t TagAcc_init))))).
Definition name_tags (t : PartTracker) : nat := match file_name t with [] => 0%nat | _ => 1%nat end.
Definition flag_tags (t : PartTracker) : nat := if existsb (λ v : bool, v) (part_verified t) then 1%nat else 0%nat.
Lemma read_named t count r a :
  utf8_valid (file_name t) = true → take 3 (file_name t) ≠ UTF8_BOM → Z.of_nat (length (file_name t)) ≤ 65535 →
  read_tags (name_tags t + count) ((match file_name t with [] => [] | n => write_string_tag FT_FILENAME n end) ++ r) a
  = read_tags count r (named t a).
Proof.
  intros Hv Hb Hl. unfold named, name_tags. destruct (file_name t) as [|x n]; [done|]. cbn [Nat.add].
  erewrite read_tags_one; [|done|by apply read_string]. by rewrite decode_name.
Qed.
Lemma read_flagged t a :
  Z.of_nat (length (part_verified t)) ≤ 1000000 →
  ∃ b, (if existsb (λ v : bool, v) (part_verified t) then write_blob_tag FT_EMBER_VERIFIED_BITMAP (pack_bitmap (part_verified t)) else MOk []) = MOk b
       ∧ read_tags (flag_tags t) b a = flagged t a.
Proof.
  intros Hl. unfold flagged, flag_tags. destruct (existsb _ _); [|by exists []].
  assert (Z.of_nat (length (pack_bitmap (part_verified t))) ≤ 1000000) as Hp.
  { rewrite length_pack_bitmap. pose proof (Nat.Div0.div_le_upper_bound (length (part_verified t) + 7) 8 (length (part_verified t) + 7) ltac:(lia)).
    pose proof (Nat.div_mod_eq (length (part_verified t) + 7) 8). lia. }
  destruct (write_blob_tag FT_EMBER_VERIFIED_BITMAP (pack_bitmap (part_verified t))) as [b|] eqn:E.
  - exists b. split; [done|]. pose proof (read_bitmap _ b [] Hp E) as Hr. rewrite app_nil_r in Hr. erewrite read_tags_one; [done| |exact Hr].
    intros ->. unfold write_blob_tag in E. by destruct (_ <? _).
  - exfalso. unfold write_blob_tag in E. rewrite (proj2 (Z.ltb_ge _ _)) in E by lia. done.
Qed.

(** ** The whole sidecar *)
Record saveable (date : Z) (t : PartTracker) : Prop := {
  sv_sound : sound t;
  sv_size : 0 < file_size t ≤ ED2K_MAX_FILE_SIZE_BYTES;
  sv_hash : length (file_hash t) = 16%nat ∧ file_hash t ≠ ZERO_HASH;
  sv_name : utf8_valid (file_name t) = true ∧ take 3 (file_name t) ≠ UTF8_BOM ∧ Z.of_nat (length (file_name t)) ≤ 65535;
  sv_hashes : whole_hashset (file_size t) (part_hashes t);
  sv_layout : ∀ h hs, part_hashes t = h :: hs → slice 1 5 h ≠ Some [0; 0; 2; 1];
  sv_transferred : offset_fits (4294967295 <? file_size t) (transferred t);
  sv_tags : 2 * Z.of_nat (length (gaps t)) + 5 ≤ MAX_TAG_COUNT;
  sv_date : 0 ≤ date;
}.
(** A sidecar this program writes is not taken for another client's layout. *)
Lemma layout_own version date hash out n tc r :
  version = PARTFILE_VERSION ∨ version = PARTFILE_VERSION_LARGEFILE → length hash = 16%nat → 0 ≤ tc < 16777216 →
  Forall (λ h : bytes, length h = 16%nat) out → (∀ h hs, out = h :: hs → slice 1 5 h ≠ Some [0; 0; 2; 1]) →
  part_met_hash_layout ([version] ++ le_bytes 4 date ++ hash ++ le_bytes 2 n ++ concat out ++ le_bytes 4 tc ++ r) version = MOk (5%nat, true).
Proof.
  intros Hv Hh Htc Ho Hl. unfold part_met_hash_layout. assert (version =? PARTFILE_SPLITTED_VERSION = false) as -> by (by destruct Hv as [->| ->]).
  rewrite bool_decide_eq_false_2; [by rewrite andb_false_r|].
  replace ([version] ++ le_bytes 4 date ++ hash ++ le_bytes 2 n ++ concat out ++ le_bytes 4 tc ++ r)
    with (([version] ++ le_bytes 4 date ++ hash ++ le_bytes 2 n) ++ (concat out ++ le_bytes 4 tc ++ r)) by (by rewrite <- !app_assoc).
  assert (length ([version] ++ le_bytes 4 date ++ hash ++ le_bytes 2 n) = 23%nat) as Hpre by (rewrite !length_app, !length_le_bytes, Hh; done).
  rewrite slice_skip by lia. rewrite Hpre. change (24 - 23)%nat with 1%nat. change (28 - 23)%nat with 5%nat.
  destruct out as [|h out].
  - intros (_ & _ & E)%slice_eq. apply (f_equal (.!! 2%nat)) in E. cbn [concat app] in E. rewrite lookup_take_lt, lookup_drop in E by lia.
    rewrite lookup_app_l in E by (rewrite length_le_bytes; lia). cbn in E. injection E as E. rewrite !Z.div_div in E by lia.
    change (256 * (256 * 256)) with 16777216 in E. rewrite Z.div_small in E by lia. done.
  - apply Forall_cons in Ho as [Hh16 _]. intros (_ & _ & E)%slice_eq. apply (Hl h out eq_refl). apply slice_eq. split; [lia|]. split; [lia|].
    rewrite E. cbn [concat]. rewrite <- !app_assoc. rewrite drop_app_le by lia. rewrite take_app_le; [done|]. rewrite length_drop. lia.
Qed.
Lemma saved_fields t :
  let a := saved_tags t in
  gap_starts a = list_to_map (indexed fst 0 (gaps t)) ∧ gap_ends a = list_to_map (indexed snd 0 (gaps t)) ∧
  gap_end_is_exclusive a = true ∧ file_size_from_tags a = Some (file_size t) ∧
  verified_bitmap_bytes a = (if existsb (λ v : bool, v) (part_verified t) then Some (pack_bitmap (part_verified t)) else None) ∧
  tags_parsed a = Z.of_nat (name_tags t + (2 + (2 * length (gaps t) + (1 + flag_tags t)))) ∧
  default [] (name_from_tags a) = file_name t ∧ transferred_from_tags a = Some (transferred t).
Proof.
  unfold saved_tags. set (a0 := take_tag (MetTransferred _) _). pose proof (take_gaps_acc 0 (gaps t) a0) as Hg. cbv zeta in Hg.
  destruct Hg as (G1 & G2 & G3 & G4 & G5 & G6 & G7 & G8). set (a1 := take_gaps 0 (gaps t) a0) in *.
  assert (gap_starts a0 = ∅ ∧ gap_ends a0 = ∅ ∧ file_size_from_tags a0 = Some (file_size t) ∧ verified_bitmap_bytes a0 = None ∧
          tags_parsed a0 = Z.of_nat (name_tags t + 2) ∧ default [] (name_from_tags a0) = file_name t ∧ transferred_from_tags a0 = Some (transferred t))
    as (B1 & B2 & B3 & B4 & B5 & B6 & B7).
  { unfold a0, named, name_tags. destruct (file_name t); done. }
  rewrite B1 in G1. rewrite B2 in G2. rewrite B3 in G4. rewrite B4 in G5. rewrite B5 in G6. rewrite B7 in G8.
  rewrite (right_id_L ∅ (∪)) in G1, G2. clearbody a1. destruct a1 as [st en ex fs bm n nm tr]. cbn [gap_starts gap_ends gap_end_is_exclusive
    file_size_from_tags verified_bitmap_bytes tags_parsed name_from_tags transferred_from_tags] in *. cbv zeta.
  unfold flagged, flag_tags. destruct (existsb _ _); cbn [take_tag gap_starts gap_ends gap_end_is_exclusive
    file_size_from_tags verified_bitmap_bytes tags_parsed name_from_tags transferred_from_tags];
    (split; [done|]; split; [done|]; split; [done|]; split; [done|]; split; [done|]; split; [lia|]; split; [by rewrite G7|done]).
Qed.
(** What the loader makes of those tags. *)
Lemma sorted_pairs t a :
  gaps_ok 0 (file_size t) (gaps t) → gap_starts a = list_to_map (indexed fst 0 (gaps t)) → gap_ends a = list_to_map (indexed snd 0 (gaps t)) →
  gap_end_is_exclusive a = true → merge_sorted (stable_sort range_le (paired_gaps a (file_size t))) [] = gaps t.
Proof.
  intros Hok Es Ee Ex. pose proof (paired_gaps_same a _ _ Hok Es Ee Ex) as Hp.
  rewrite (sort_gaps _ _ _ _ Hok (symmetry Hp)).
  by eapply (merge_sorted_id 0 (file_size t) []).
Qed.
Lemma indexed_keys f f' i gs : (indexed f i gs).*1 = (indexed f' i gs).*1.
Proof. revert i. induction gs as [|g gs IH]; intros i; cbn; [done|]. f_equal. apply IH. Qed.
Lemma adopt_saved raw t u g :
  sound t → tracker_ok u → 0 < file_size t → file_size u = file_size t → part_count u = part_count t →
  part_verified u = replicate (part_count t) false → raw = tags_parsed (saved_tags t) → raw ≤ MAX_TAG_COUNT →
  adopt_tags raw (saved_tags t) u g =
    (with_verified (with_gaps u (gaps t)) (if decide (gaps t = []) then replicate (part_count t) false else part_verified t) (file_hash_verified u), g).
Proof.
  intros [Hok Hvc] Hu Hs Esz Ept Efl -> Hraw. destruct (saved_fields t) as (F1 & F2 & F3 & F4 & F5 & F6 & _). unfold adopt_tags. rewrite F4, Esz, Z.eqb_refl.
  cbn [negb andb]. rewrite Z.min_l by done. rewrite Z.ltb_irrefl, (proj2 (Z.ltb_ge _ _) Hraw). cbn [orb andb]. rewrite (proj2 (Z.ltb_lt _ _) Hs).
  cbn [andb]. cbv zeta.
  assert (existsb (λ kv : Z * Z, bool_decide (gap_starts (saved_tags t) !! kv.1 = None)) (map_iter (gap_ends (saved_tags t))) = false) as ->.
  { apply not_true_is_false. intros ([k v] & Hin%list_elem_of_In & Hk%bool_decide_eq_true)%existsb_exists. cbn in Hk. rewrite map_iter_perm in Hin.
    apply elem_of_map_to_list in Hin. rewrite F2 in Hin. rewrite F1 in Hk. apply elem_of_list_to_map_2 in Hin.
    apply (list_elem_of_fmap_2' fst _ _ k) in Hin; [|done]. rewrite (indexed_keys snd fst) in Hin. by apply not_elem_of_list_to_map_2 in Hk. }
  assert (with_verified (with_gaps u (gaps t)) (replicate (part_count t) false) (file_hash_verified u) = with_gaps u (gaps t)) as Hid
    by (destruct u; cbn in *; by rewrite Efl).
  destruct (decide (gaps t = [])) as [E|E].
  { rewrite (bool_decide_eq_true_2 (gap_starts _ = ∅)) by (by rewrite F1, E). by rewrite Hid, E. }
  rewrite bool_decide_eq_false_2.
  2: { rewrite F1. destruct (gaps t) as [|gp gs]; [done|]. cbn [indexed list_to_map foldr]. apply insert_non_empty. }
  rewrite sorted_pairs; [|apply (k_gaps t Hok)|done..]. cbn [andb]. rewrite F5. f_equal. destruct (existsb (λ v : bool, v) (part_verified t)) eqn:Ev.
  - assert (tracker_ok (with_gaps u (gaps t))) as Hu'.
    { eapply frame_ok; [exact Hu|done|rewrite Esz; apply (k_gaps t Hok)|done..]. }
    pose proof (restore_same (with_gaps u (gaps t)) (part_verified t) Hu') as Hr. unfold restore_verified_bits in *.
    cbn [part_verified with_verified] in Hr. rewrite Hr; [done|by rewrite (k_verified t Hok)|]. intros p Hp. rewrite <- (Hvc p).
    + unfold is_part_complete, part_range, first_gap_reaching, gap_overlaps_from. cbn [with_gaps gaps file_size part_count]. by rewrite Esz, Ept.
    + unfold is_part_verified. by destruct (part_verified t !! p).
  - rewrite <- Hid at 1. f_equal. apply flags_eq; [by rewrite length_replicate, (k_verified t Hok)|]. intros p.
    destruct (part_verified t !! p) as [b|] eqn:Eb; [destruct b|].
    + exfalso. apply not_true_iff_false in Ev. apply Ev, existsb_exists. exists true. split; [|done]. by eapply list_elem_of_In, list_elem_of_lookup_2.
    + destruct (replicate (part_count t) false !! p) as [b'|] eqn:Er; [by apply lookup_replicate in Er as [-> _]|done].
    + destruct (replicate (part_count t) false !! p) as [b'|] eqn:Er; [by apply lookup_replicate in Er as [-> _]|done].
Qed.
Lemma max_size_fits : ED2K_MAX_FILE_SIZE_BYTES < 18446744073709551616.
Proof. done. Qed.
Lemma size_fits size : 0 < size ≤ ED2K_MAX_FILE_SIZE_BYTES → ∀ x, 0 ≤ x ≤ size → offset_fits (4294967295 <? size) x.
Proof. intros Hs x Hx. pose proof max_size_fits. unfold offset_fits. destruct (Z.ltb_spec 4294967295 size); lia. Qed.
Lemma max_size_parts : ED2K_MAX_FILE_SIZE_BYTES < PARTSIZE * 65535.
Proof. done. Qed.
Lemma gap_offsets date t :
  saveable date t → Forall (λ g : range, offset_fits (4294967295 <? file_size t) g.1 ∧ offset_fits (4294967295 <? file_size t) g.2) (gaps t).
Proof.
  intros Hsv. destruct (sv_sound _ _ Hsv) as [Hok _]. pose proof (sv_size _ _ Hsv) as Hs. apply Forall_forall. intros g Hg.
  destruct (gaps_ok_bounds _ _ _ g (k_gaps t Hok) Hg) as (? & ? & ?). split; apply size_fits; (done || lia).
Qed.
Lemma parts_bound t : tracker_ok t → 0 < file_size t ≤ ED2K_MAX_FILE_SIZE_BYTES →
  Z.of_nat (part_count t) = ed2k_part_count_for_size (file_size t) ∧ ed2k_part_count_for_size (file_size t) ≤ 65535.
Proof.
  intros Hok Hs. destruct (part_count_size (file_size t)) as [Hc Hc']; [lia|]. rewrite (k_count t Hok). unfold tracked_part_count. unfold ed2k_part_count_for_size in *.
  rewrite (proj2 (Z.eqb_neq (file_size t) 0)) in * by lia. rewrite (proj2 (Z.ltb_ge _ _)) by lia. pose proof max_size_parts. pose proof PARTSIZE_pos.
  set (d := div_ceil (file_size t) PARTSIZE) in *. assert (d ≤ 65535) by nia. split; [apply Z2Nat.id; lia|done].
Qed.
(** The bytes written, and the tags read back from them. *)
Lemma encode_saved date t :
  saveable date t →
  ∃ tags, encode_part_met md4_empty date t =
    MOk ([if 4294967295 <? file_size t then PARTFILE_VERSION_LARGEFILE else PARTFILE_VERSION] ++ le_bytes 4 (Z.min 4294967295 date) ++ file_hash t
      ++ le_bytes 2 (Z.of_nat (length (ed2k_known_met_hashset md4_empty (part_hashes t) (file_size t))))
      ++ concat (ed2k_known_met_hashset md4_empty (part_hashes t) (file_size t)) ++ le_bytes 4 (tags_parsed (saved_tags t)) ++ tags) ∧
    read_tags (Z.to_nat (tags_parsed (saved_tags t))) tags TagAcc_init = saved_tags t.
Proof.
  intros Hsv. destruct (sv_sound _ _ Hsv) as [Hok _]. pose proof (sv_size _ _ Hsv) as Hs. destruct (parts_bound t Hok Hs) as [Hp Hp'].
  destruct (hashset_back (file_size t) (part_hashes t)) as (_ & _ & _ & Hn & _); [lia|apply (sv_hashes _ _ Hsv)|]. cbv zeta in Hn.
  destruct (saved_fields t) as (_ & _ & _ & _ & _ & F6 & _). destruct (sv_name _ _ Hsv) as (N1 & N2 & N3). pose proof (sv_tags _ _ Hsv) as Htg.
  assert (file_size t / PARTSIZE < 65535) as Hq.
  { apply Z.div_lt_upper_bound; [apply PARTSIZE_pos|]. pose proof max_size_parts. lia. }
  unfold encode_part_met. rewrite (proj2 (Z.ltb_ge 65535 _)) by lia. set (large := 4294967295 <? file_size t) in *.
  destruct (read_flagged t (take_tag (MetGapFormat GAP_FORMAT_EXCLUSIVE_END) (take_gaps 0 (gaps t)
    (take_tag (MetTransferred (transferred t)) (take_tag (MetFileSize (file_size t)) (named t TagAcc_init)))))) as (bm & Ebm & Rbm);
    [rewrite (k_verified t Hok); lia|].
  destruct (write_gaps_run 0 (gaps t) large (1 + flag_tags t) (write_uint32_tag FT_EMBER_GAP_FORMAT GAP_FORMAT_EXCLUSIVE_END ++ bm)
    (take_tag (MetTransferred (transferred t)) (take_tag (MetFileSize (file_size t)) (named t TagAcc_init)))) as (gb & Egb & Rgb);
    [by eapply gap_offsets|unfold MAX_TAG_COUNT in *; lia|].
  rewrite Egb. unfold mbind, met_bind. rewrite Ebm. eexists. split.
  - assert (match file_name t with [] => 0 | _ => 1 end + 2 + 2 * Z.of_nat (length (gaps t)) + 1
      + (if existsb (λ v : bool, v) (part_verified t) then 1 else 0) = tags_parsed (saved_tags t)) as ->; [|reflexivity].
    rewrite F6. unfold name_tags, flag_tags. destruct (file_name t), (existsb _ _); lia.
  - rewrite F6, Nat2Z.id. rewrite read_named by done. cbn [Nat.add].
    assert (offset_fits large (file_size t)) as Hsz by (apply size_fits; lia).
    erewrite read_tags_one; [|by destruct large|by apply read_number]. erewrite read_tags_one; [|by destruct large|apply read_number, (sv_transferred _ _ Hsv)].
    change (numeric_tag [FT_FILESIZE] (file_size t)) with (MetFileSize (file_size t)).
    change (numeric_tag [FT_TRANSFERRED] (transferred t)) with (MetTransferred (transferred t)).
    change (S (flag_tags t)) with (1 + flag_tags t)%nat. rewrite Rgb. change (1 + flag_tags t)%nat with (S (flag_tags t)).
    erewrite read_tags_one; [|done|by apply read_uint32]. exact Rbm.
Qed.
Lemma load_saved date t path hash g :
  saveable date t → hash = ZERO_HASH ∨ hash = file_hash t →
  ∃ data, encode_part_met md4_empty date t = MOk data ∧
    load_inner (Some data) (blank_tracker (file_size t) path hash) g =
      (None, with_verified (with_gaps (with_identity (blank_tracker (file_size t) path hash) (file_hash t) (file_name t) (part_hashes t) (transferred t)) (gaps t))
               (if decide (gaps t = []) then replicate (part_count t) false else part_verified t) false, g).
Proof.
  intros Hsv Hhash. destruct (encode_saved date t Hsv) as (tags & -> & Hr). eexists. split; [reflexivity|].
  destruct (sv_sound _ _ Hsv) as [Hok Hvc]. pose proof (sv_size _ _ Hsv) as Hs. destruct (sv_hash _ _ Hsv) as [Hh Hz].
  destruct (hashset_back (file_size t) (part_hashes t)) as (O1 & O2 & O3 & O4 & O5 & O6); [lia|apply (sv_hashes _ _ Hsv)|].
  destruct (saved_fields t) as (_ & _ & _ & _ & _ & F6 & F7 & F8).
  set (out := ed2k_known_met_hashset md4_empty (part_hashes t) (file_size t)) in *. set (version := if _ <? _ then _ else _).
  set (tc := tags_parsed (saved_tags t)) in *. pose proof (sv_tags _ _ Hsv) as Htg.
  assert (0 ≤ tc ≤ MAX_TAG_COUNT) as Htc by (rewrite F6; unfold name_tags, flag_tags; destruct (file_name t), (existsb _ _); lia).
  assert (version = PARTFILE_VERSION ∨ version = PARTFILE_VERSION_LARGEFILE) as Hv by (unfold version; destruct (_ <? _); tauto).
  assert (MAX_TAG_COUNT < 16777216) as Hmax by done.
  assert (file_size t / PARTSIZE < 65535) as Hq.
  { apply Z.div_lt_upper_bound; [apply PARTSIZE_pos|]. pose proof max_size_parts. lia. }
  pose proof (layout_own version (Z.min 4294967295 date) (file_hash t) out (Z.of_nat (length out)) tc tags Hv Hh ltac:(lia) O1) as Hlay.
  set (data := [version] ++ _) in *.
  unfold load_inner. rewrite (proj2 (Z.ltb_ge (Z.of_nat (length data)) 4)) by (unfold data; rewrite !length_app, Hh; cbn [length]; lia).
  change (default 0 (data !! 0%nat)) with version. cbv zeta.
  assert ((version =? PARTFILE_VERSION) || (version =? PARTFILE_VERSION_LARGEFILE) || (version =? PARTFILE_SPLITTED_VERSION) = true) as ->
    by (by destruct Hv as [->| ->]).
  unfold load_emule_format. rewrite Hlay; clear Hlay.
  2: { intros h hs Ho. pose proof (sv_layout _ _ Hsv) as Hl. destruct (part_hashes t) as [|h' hs'] eqn:Ep; [by rewrite O5 in Ho|].
    destruct (O6 h' hs' eq_refl) as [out' Eo]. rewrite Eo in Ho. injection Ho as -> ->. by eapply Hl. }
  change (drop (5 - 4) data) with (le_bytes 4 (Z.min 4294967295 date) ++ file_hash t ++ le_bytes 2 (Z.of_nat (length out)) ++ concat out ++ le_bytes 4 tc ++ tags).
  pose proof (sv_date _ _ Hsv) as Hd. erewrite rd_bind_run by (apply rd_uint_app; change (256 ^ Z.of_nat 4) with 4294967296; lia).
  rewrite rd_exact_app by done.
  assert (file_hash (blank_tracker (file_size t) path hash) = hash) as -> by done.
  assert (bool_decide (hash ≠ ZERO_HASH) && bool_decide (file_hash t ≠ ZERO_HASH) && bool_decide (file_hash t ≠ hash) = false) as ->.
  { destruct Hhash as [->| ->]; [done|]. rewrite (bool_decide_eq_false_2 (file_hash t ≠ file_hash t)) by (intros HH; by apply HH). by rewrite !andb_false_r. }
  set (u := if decide (hash = ZERO_HASH) then _ else _).
  assert (u = with_identity (blank_tracker (file_size t) path hash) (file_hash t) [] [] 0) as Eu.
  { unfold u. destruct Hhash as [->| ->]; case_decide; done. }
  clearbody u. subst u. rewrite rd_uint_app by (change (256 ^ Z.of_nat 2) with 65536; lia).
  change (file_size (with_identity (blank_tracker (file_size t) path hash) (file_hash t) [] [] 0)) with (file_size t). cbv zeta in O3. rewrite O3.
  rewrite (proj2 (Z.ltb_ge _ _)) by (rewrite length_app, (length_concat_hashes out O1); lia). rewrite Nat2Z.id, rd_hashes_concat by done. rewrite O2.
  rewrite rd_uint_app by (change (256 ^ Z.of_nat 4) with 4294967296; lia). rewrite Z.min_l by lia. rewrite Hr.
  set (w := with_identity _ _ _ _ _).
  assert (w = with_identity (blank_tracker (file_size t) path hash) (file_hash t) (file_name t) (part_hashes t) (transferred t)) as ->.
  { unfold w. rewrite F8. cbn [set_part_hashes with_identity file_name]. by rewrite F7. }
  destruct (blank_ok (file_size t) path hash) as [Hb _]; [lia|].
  assert (part_count (blank_tracker (file_size t) path hash) = part_count t) as Hpc by (by rewrite (k_count t Hok)).
  rewrite (adopt_saved tc t); [done|done| |lia|done|done| |done|lia].
  - by destruct Hb as [K1 K2 K3 K4 K5 K6 K7 K8 K9 K10]; split.
  - cbn. by rewrite (k_count t Hok).
Qed.
Lemma apply_none g t : usc_parts_for (met_path t) (file_hash t) g = [] → apply_pending_invalidations g t = t.
Proof. intros Hw. unfold apply_pending_invalidations. rewrite Hw. destruct t. cbn. by rewrite andb_true_r. Qed.
(** From the bytes to the tracker [new_with_identity] returns. *)
Lemma reload_saved t path hash n g data :
  load_inner (Some data) (blank_tracker (file_size t) path hash) g =
    (None, with_verified (with_gaps (with_identity (blank_tracker (file_size t) path hash) (file_hash t) (file_name t) (part_hashes t) (transferred t)) (gaps t))
             (if decide (gaps t = []) then replicate (part_count t) false else part_verified t) false, g) →
  0 < file_size t ≤ ED2K_MAX_FILE_SIZE_BYTES → file_size t ≤ n → usc_parts_for path (file_hash t) g = [] →
  ∃ t', new_with_identity (file_size t) path hash (Some data) (Some n) g = (t', g) ∧
    file_size t' = file_size t ∧ gaps t' = gaps t ∧ file_hash t' = file_hash t ∧ file_name t' = file_name t ∧
    part_hashes t' = part_hashes t ∧ transferred t' = transferred t ∧
    (gaps t ≠ [] → part_verified t' = part_verified t) ∧ (gaps t = [] → ∀ p, is_part_verified t' p = false).
Proof.
  clear md4_empty md4_length. intros Hl Hs Hn Hw. eexists. unfold new_with_identity, tracked_part_count. rewrite (proj2 (Z.eqb_neq (file_size t) 0)) by lia.
  rewrite (proj2 (Z.ltb_ge _ _)) by lia. unfold load. rewrite Hl. cbv zeta. set (u := with_in_flight _ _).
  assert (file_size u = file_size t) as Eu by done. unfold invalidate_unreadable. rewrite Eu, (proj2 (Z.ltb_ge _ _)) by lia.
  rewrite (apply_none g u) by exact Hw. split; [reflexivity|].
  assert (part_verified u = if decide (gaps t = []) then replicate (part_count t) false else part_verified t) as Ev by done.
  do 6 (split; [done|]). split; [intros Hg; transitivity (part_verified u); [done|rewrite Ev; by rewrite decide_False]|].
  intros Hg p. transitivity (is_part_verified u p); [done|]. unfold is_part_verified. rewrite Ev, decide_True by done.
  destruct (replicate (part_count t) false !! p) eqn:E; [|done]. by apply lookup_replicate in E as [-> _].
Qed.
(** C23: what a saveable tracker saves it loads again.  Saving succeeds, and reading
    the bytes back, next to a data file of full length and with no withdrawn part,
    gives the same gaps, hash, name, part hashes and byte count, and the same
    verified parts; only a file with no gap left comes back with nothing verified,
    since the loader wants a complete file hashed again.  Saveable ([saveable]) is a
    sound tracker of a file of at least one byte and at most the largest size, with
    a 16-byte hash that is not zero, a name in UTF-8 of at most 65535 bytes and
    without a byte-order mark, no part hash or all of them, gaps within the tag
    limit, and a date not before the epoch; whose byte count fits the width its tag
    has (32 bits for a file below 4 GiB, so not one that transferred more); and
    whose first part hash does not spell the marker of another client's layout,
    for which the loader does misread it ([own_sidecar_misread]). *)
Theorem met_roundtrip date t path hash n g :
  saveable date t → hash = ZERO_HASH ∨ hash = file_hash t → file_size t ≤ n → usc_parts_for path (file_hash t) g = [] →
  ∃ data t', encode_part_met md4_empty date t = MOk data ∧
    new_with_identity (file_size t) path hash (Some data) (Some n) g = (t', g) ∧
    file_size t' = file_size t ∧ gaps t' = gaps t ∧ file_hash t' = file_hash t ∧ file_name t' = file_name t ∧
    part_hashes t' = part_hashes t ∧ transferred t' = transferred t ∧
    (gaps t ≠ [] → part_verified t' = part_verified t) ∧ (gaps t = [] → ∀ p, is_part_verified t' p = false).
Proof.
  intros Hsv Hhash Hn Hw. destruct (load_saved date t path hash g Hsv Hhash) as (data & He & Hl).
  destruct (reload_saved t path hash n g data Hl (sv_size _ _ Hsv) Hn Hw) as (t' & Ht). by exists data, t'.
Qed.
End roundtrip.

(** ** Examples *)
Definition saved_ops : list part_op :=
  [OpName [97; 46; 105; 115; 111]; OpHashes [replicate 16 5; replicate 16 6; replicate 16 7]; OpTransferred 9728000; OpFill 0 9728000;
   OpFill 15000000 15000010; OpVerify 0].
Definition saved_state : PartTracker * Shared := run_part_ops saved_ops (blank_tracker 20000000 [1] (replicate 16 9)) Shared_init.
Lemma saved_reach : part_reach 20000000 [1] (replicate 16 9) saved_state.1 saved_state.2.
Proof.
  eapply (run_part_ops_reach _ _ _ saved_ops); [apply (part_start_reach 20000000 [1] (replicate 16 9) Shared_init)|by vm_compute|].
  unfold saved_state. by destruct (run_part_ops _ _ _).
Qed.
Lemma saved_saveable : saveable 1700000000 saved_state.1.
Proof.
  assert (part_hashes saved_state.1 = [replicate 16 5; replicate 16 6; replicate 16 7]) as Eh by (vm_compute; reflexivity).
  assert (file_size saved_state.1 = 20000000 ∧ file_hash saved_state.1 = replicate 16 9 ∧ file_name saved_state.1 = [97; 46; 105; 115; 111] ∧
    transferred saved_state.1 = 9728000 ∧ gaps saved_state.1 = [(9728000, 15000000); (15000010, 20000000)]) as (E1 & E2 & E3 & E4 & E5)
    by (vm_compute; done).
  split; rewrite ?E1, ?E2, ?E3, ?E4, ?E5, ?Eh.
  - by apply (reach_sound 20000000 [1] (replicate 16 9) saved_state.1 saved_state.2); [|apply saved_reach].
  - unfold ED2K_MAX_FILE_SIZE_BYTES, ED2K_MAX_WIRE_PARTS, PARTSIZE. lia.
  - done.
  - split; [vm_compute; reflexivity|]. split; [discriminate|cbn; lia].
  - split; [right; vm_compute; reflexivity|]. by repeat constructor.
  - intros h hs [= <- <-]. vm_compute. discriminate.
  - unfold offset_fits. cbn. lia.
  - unfold MAX_TAG_COUNT. cbn. lia.
  - lia.
Qed.
Lemma met_roundtrip_witness :
  ∃ data t', encode_part_met (replicate 16 1) 1700000000 saved_state.1 = MOk data ∧
    new_with_identity (file_size saved_state.1) [1] ZERO_HASH (Some data) (Some 20000000) Shared_init = (t', Shared_init) ∧
    gaps t' = [(9728000, 15000000); (15000010, 20000000)] ∧ part_verified t' = [true; false; false].
Proof.
  destruct (met_roundtrip (replicate 16 1) eq_refl 1700000000 saved_state.1 [1] ZERO_HASH 20000000 Shared_init saved_saveable ltac:(by left)
    ltac:(vm_compute; discriminate) ltac:(vm_compute; reflexivity)) as (data & t' & H1 & H2 & _ & H3 & _ & _ & _ & _ & H4 & _).
  exists data, t'. split; [exact H1|]. split; [exact H2|]. rewrite H3, H4 by (vm_compute; discriminate). split; vm_compute; reflexivity.
Defined.
(** A file whose first part hash holds the bytes of another client's layout mark is
    read at the wrong offset: the sidecar seems to name another file, and the whole
    progress is dropped. *)
Lemma own_sidecar_misread :
  let t := (run_part_ops [OpName [97]; OpHashes [[3; 0; 0; 2; 1] ++ replicate 11 4]; OpFill 0 900] (blank_tracker 1000 [1] (replicate 16 9)) Shared_init).1 in
  gaps t = [(900, 1000)] ∧
  match encode_part_met (replicate 16 1) 1700000000 t with
  | MOk data => gaps (new_with_identity 1000 [1] (replicate 16 9) (Some data) (Some 1000) Shared_init).1 = [(0, 1000)]
  | MErr _ => False
  end.
Proof. vm_compute. done. Qed.
