(* ===== verification/PartSave.v ===== *)
(** * Saving and deleting a sidecar

    Snapshots of a tracker are written by tasks that cannot be stopped, while the
    download may be completed or cancelled and its sidecar removed
    ([network/ed2k/part_tracker.rs]: [SaveSnapshot], [save_snapshot_async],
    [delete_met], [suppress_met_saves], [SuppressedMetSaves], the guards of
    [SAVE_PATH_GUARDS]).  A run is a sequence of events, each one atomic access to
    what the tasks share: the tombstones, the guard of the path, the generation and
    the file itself. *)
From S2P Require Import Prelude NodeId Record PartTracker PartMet.
Local Open Scope Z_scope.

(** ** Tombstones *)
Definition MAX_SUPPRESSED_MET_SAVES : Z := 4096.
Record SuppressedMetSaves := mkSuppressed { paths : gset bytes; order : list bytes }.
Definition SuppressedMetSaves_default : SuppressedMetSaves := mkSuppressed ∅ [].
Fixpoint evict_oldest (order : list bytes) (paths : gset bytes) : SuppressedMetSaves :=
  match order with
  | [] => mkSuppressed paths []
  | evicted :: rest =>
      if MAX_SUPPRESSED_MET_SAVES <? Z.of_nat (length order) then evict_oldest rest (paths ∖ {[evicted]}) else mkSuppressed paths order
  end.
Definition suppressed_insert (path : bytes) (s : SuppressedMetSaves) : SuppressedMetSaves :=
  if decide (path ∈ paths s) then s else evict_oldest (order s ++ [path]) ({[path]} ∪ paths s).
Definition suppressed_contains (path : bytes) (s : SuppressedMetSaves) : bool := bool_decide (path ∈ paths s).

(** ** Tasks *)
Record SaveSnapshot := mkSnapshot { snap_tracker : PartTracker; snap_generation : Z }.
Inductive outcome := Wrote | Bailed | IoFailed.
(** [save_snapshot_async], between its accesses; [g] is the guard it cloned. *)
Inductive writer_stage :=
  | Queued
  | GuardTaken (g : nat)
  | Holding (g : nat)
  | Unsuppressed (g : nat)        (* past the first check of the tombstones *)
  | UpToDate (g : nat)            (* past the check of the generation *)
  | Writing (g : nat)             (* past the check in [write_to_disk] *)
  | Leaving (g : nat) (o : outcome)
  | Ended (o : outcome).
Inductive remover := DeleteMet | Suppress.
(** [delete_met], and [suppress_met_saves] followed by the removal of the file. *)
Inductive remover_stage :=
  | Started
  | Bumped                        (* [delete_met]: the generation moved *)
  | Tombstoned
  | Cleared                       (* [delete_met]: the withdrawn parts forgotten *)
  | HasGuard (g : nat)
  | HoldsGuard (g : nat)
  | Removed (g : nat)             (* [delete_met]: the file removed, the guard still held *)
  | Released
  | Evicted
  | Finished.
Inductive thread := Wr (i : nat) | Re (j : nat).
#[export] Instance thread_eq_dec : EqDecision thread.
Proof. solve_decision. Defined.

(** One path.  [written_by] is the generation of the snapshot the file was last
    written from, which no code reads. *)
Record save_state := mkSave {
  save_generation : Z;
  last_met_snapshot : option Z;
  withdrawn : Shared;
  sidecar : option bytes;
  written_by : Z;
  tombs : SuppressedMetSaves;
  path_guard : option nat;
  next_guard : nat;
  owner : gmap nat thread;
  writers : list (SaveSnapshot * writer_stage);
  removers : list (remover * remover_stage);
}.
Definition save_init (g : Shared) (tombs : SuppressedMetSaves) (file : option bytes) : save_state :=
  mkSave 0 None g file 0 tombs None 0 ∅ [] [].
Definition with_generation s v := mkSave v (last_met_snapshot s) (withdrawn s) (sidecar s) (written_by s) (tombs s) (path_guard s) (next_guard s) (owner s) (writers s) (removers s).
Definition with_last s v := mkSave (save_generation s) v (withdrawn s) (sidecar s) (written_by s) (tombs s) (path_guard s) (next_guard s) (owner s) (writers s) (removers s).
Definition with_withdrawn s v := mkSave (save_generation s) (last_met_snapshot s) v (sidecar s) (written_by s) (tombs s) (path_guard s) (next_guard s) (owner s) (writers s) (removers s).
Definition with_sidecar s v by_ := mkSave (save_generation s) (last_met_snapshot s) (withdrawn s) v by_ (tombs s) (path_guard s) (next_guard s) (owner s) (writers s) (removers s).
Definition with_tombs s v := mkSave (save_generation s) (last_met_snapshot s) (withdrawn s) (sidecar s) (written_by s) v (path_guard s) (next_guard s) (owner s) (writers s) (removers s).
Definition with_guard s v n := mkSave (save_generation s) (last_met_snapshot s) (withdrawn s) (sidecar s) (written_by s) (tombs s) v n (owner s) (writers s) (removers s).
Definition with_owner s v := mkSave (save_generation s) (last_met_snapshot s) (withdrawn s) (sidecar s) (written_by s) (tombs s) (path_guard s) (next_guard s) v (writers s) (removers s).
Definition with_writers s v := mkSave (save_generation s) (last_met_snapshot s) (withdrawn s) (sidecar s) (written_by s) (tombs s) (path_guard s) (next_guard s) (owner s) v (removers s).
Definition with_removers s v := mkSave (save_generation s) (last_met_snapshot s) (withdrawn s) (sidecar s) (written_by s) (tombs s) (path_guard s) (next_guard s) (owner s) (writers s) v.

(** [save_path_guard]: the guard of the path, made on first use. *)
Definition save_path_guard (s : save_state) : nat * save_state :=
  match path_guard s with Some g => (g, s) | None => (next_guard s, with_guard s (Some (next_guard s)) (S (next_guard s))) end.
Definition evict_save_path_guard (s : save_state) : save_state := with_guard s None (next_guard s).
(** [Mutex::lock] waits while the guard has an owner. *)
Definition lock (g : nat) (th : thread) (s : save_state) : option save_state :=
  match owner s !! g with Some _ => None | None => Some (with_owner s (<[g := th]> (owner s))) end.
Definition unlock (g : nat) (s : save_state) : save_state := with_owner s (delete g (owner s)).

Section tasks.
Context (md4_empty path : bytes) (tracked_hash : bytes).

(** [build_save_snapshot]: [fetch_add] wraps and the sequence number saturates.  The
    task is spawned with it. *)
Definition build_save_snapshot (t : PartTracker) (s : save_state) : save_state :=
  let generation := Z.min 18446744073709551615 (save_generation s + 1) in
  with_writers (with_generation s (u64_wrapping_inc (save_generation s))) (writers s ++ [(mkSnapshot t generation, Queued)]).
Definition snapshot_for_save (now : Z) (t : PartTracker) (s : save_state) : save_state := build_save_snapshot t (with_last s (Some now)).
Definition periodic_snapshot_for_save (now interval : Z) (t : PartTracker) (s : save_state) : save_state :=
  if match last_met_snapshot s with Some at_ => Z.max 0 (now - at_) <? interval | None => false end then s
  else build_save_snapshot t (with_last s (Some now)).
Definition set_writer (i : nat) (sn : SaveSnapshot) (st : writer_stage) (s : save_state) : save_state :=
  with_writers s (<[i := (sn, st)]> (writers s)).
(** The next access of a writer; [date] and [io] are the clock and the file system. *)
Definition writer_step (i : nat) (date : Z) (io : bool) (sn : SaveSnapshot) (st : writer_stage) (s : save_state) : option save_state :=
  let go st s := Some (set_writer i sn st s) in
  match st with
  | Queued => let '(g, s) := save_path_guard s in go (GuardTaken g) s
  | GuardTaken g => match lock g (Wr i) s with Some s => go (Holding g) s | None => None end
  | Holding g => go (if suppressed_contains path (tombs s) then Leaving g Bailed else Unsuppressed g) s
  | Unsuppressed g => go (if save_generation s =? snap_generation sn then UpToDate g else Leaving g Bailed) s
  | UpToDate g => go (if suppressed_contains path (tombs s) then Leaving g Bailed else Writing g) s
  | Writing g =>
      match encode_part_met md4_empty date (snap_tracker sn) with
      | MOk data => if io then go (Leaving g Wrote) (with_sidecar s (Some data) (snap_generation sn)) else go (Leaving g IoFailed) s
      | MErr _ => go (Leaving g IoFailed) s
      end
  | Leaving g o => go (Ended o) (unlock g s)
  | Ended _ => None
  end.
Definition set_remover (j : nat) (k : remover) (st : remover_stage) (s : save_state) : save_state :=
  with_removers s (<[j := (k, st)]> (removers s)).
Definition drop_sidecar (io : bool) (s : save_state) : save_state := if io then with_sidecar s None (written_by s) else s.
Definition remover_step (j : nat) (io : bool) (k : remover) (st : remover_stage) (s : save_state) : option save_state :=
  let go st s := Some (set_remover j k st s) in
  match k, st with
  | DeleteMet, Started => go Bumped (with_generation s (u64_wrapping_inc (save_generation s)))
  | DeleteMet, Bumped | Suppress, Started => go Tombstoned (with_tombs s (suppressed_insert path (tombs s)))
  | DeleteMet, Tombstoned => go Cleared (with_withdrawn s (usc_clear_all path tracked_hash (withdrawn s)))
  | DeleteMet, Cleared | Suppress, Tombstoned => let '(g, s) := save_path_guard s in go (HasGuard g) s
  | _, HasGuard g => match lock g (Re j) s with Some s => go (HoldsGuard g) s | None => None end
  | DeleteMet, HoldsGuard g => go (Removed g) (drop_sidecar io s)
  | _, Removed g | Suppress, HoldsGuard g => go Released (unlock g s)
  | _, Released => go Evicted (evict_save_path_guard s)
  | Suppress, Evicted => go Finished (drop_sidecar io s)
  | _, _ => None
  end.

Inductive save_event :=
  | ESnapshot (now : Z) (t : PartTracker)
  | EPeriodic (now interval : Z) (t : PartTracker)
  | EWriter (i : nat) (date : Z) (io : bool)
  | ERemove (k : remover)
  | ERemover (j : nat) (io : bool)
  | EMark (p : bytes).            (* [mark_met_saves_suppressed], for this path or another *)
Definition save_step (e : save_event) (s : save_state) : option save_state :=
  match e with
  | ESnapshot now t => Some (snapshot_for_save now t s)
  | EPeriodic now interval t => Some (periodic_snapshot_for_save now interval t s)
  | EWriter i date io => match writers s !! i with Some (sn, st) => writer_step i date io sn st s | None => None end
  | ERemove k => Some (with_removers s (removers s ++ [(k, Started)]))
  | ERemover j io => match removers s !! j with Some (k, st) => remover_step j io k st s | None => None end
  | EMark p => Some (with_tombs s (suppressed_insert p (tombs s)))
  end.
End tasks.
