(* ===== verification/PartSaveSafety.v ===== *)
(** * A removed sidecar stays removed, and the newest snapshot wins

    The invariant of the saving tasks: the owner of a guard is the task that holds
    it; until a remover has held the guard every task has cloned the same one; from
    then on no writer is past its checks; and generations reach the file in order. *)
From S2P Require Import Prelude NodeId Addr Contact Record Wire MapOrder GapList PartTracker PartInv PartSafety PartClaims PartMet PartMetLoad PartMetRoundtrip PartSave.
Local Open Scope Z_scope.

(** ** The stages *)
Definition holds_w (st : writer_stage) : option nat :=
  match st with Holding g | Unsuppressed g | UpToDate g | Writing g | Leaving g _ => Some g | _ => None end.
Definition guard_w (st : writer_stage) : option nat := match st with GuardTaken g => Some g | _ => holds_w st end.
Definition passed (st : writer_stage) : bool := match st with Unsuppressed _ | UpToDate _ | Writing _ => true | _ => false end.
Definition newest (st : writer_stage) : bool := match st with UpToDate _ | Writing _ => true | _ => false end.
Definition outcome_of (st : writer_stage) : option outcome := match st with Leaving _ o | Ended o => Some o | _ => None end.
Definition holds_r (st : remover_stage) : option nat := match st with HoldsGuard g | Removed g => Some g | _ => None end.
Definition guard_r (st : remover_stage) : option nat := match st with HasGuard g => Some g | _ => holds_r st end.
Definition past_mark (st : remover_stage) : bool := match st with Started | Bumped => false | _ => true end.
Definition entered (st : remover_stage) : bool :=
  match st with HoldsGuard _ | Removed _ | Released | Evicted | Finished => true | _ => false end.
(** Some remover has held the guard of the path. *)
Definition settled_by (rs : list (remover * remover_stage)) : bool := existsb (λ r, entered r.2) rs.

(** ** Tombstones *)
Definition tombs_wf (s : SuppressedMetSaves) : Prop :=
  NoDup (order s) ∧ (∀ p, p ∈ paths s ↔ p ∈ order s) ∧ Z.of_nat (length (order s)) ≤ MAX_SUPPRESSED_MET_SAVES.
Lemma evict_oldest_spec (l : list bytes) (ps : gset bytes) :
  NoDup l → (∀ p, p ∈ ps ↔ p ∈ l) →
  evict_oldest l ps = mkSuppressed (list_to_set (drop (length l - Z.to_nat MAX_SUPPRESSED_MET_SAVES) l)) (drop (length l - Z.to_nat MAX_SUPPRESSED_MET_SAVES) l).
Proof.
  revert ps. induction l as [|x l IH]; intros ps Hnd Hps; cbn [evict_oldest].
  { cbn. f_equal. apply set_eq. intros p. rewrite Hps. set_solver. }
  apply NoDup_cons in Hnd as [Hx Hnd]. unfold MAX_SUPPRESSED_MET_SAVES in *. destruct (Z.ltb_spec 4096 (Z.of_nat (length (x :: l)))) as [Hlt|Hge].
  - rewrite (IH (ps ∖ {[x]})); [|done|].
    + cbn [length] in *. replace (S (length l) - Z.to_nat 4096)%nat with (S (length l - Z.to_nat 4096)) by lia. done.
    + intros p. rewrite elem_of_difference, Hps, elem_of_cons, elem_of_singleton. split; [tauto|]. intros Hp. split; [by right|]. by intros ->.
  - replace (length (x :: l) - Z.to_nat 4096)%nat with 0%nat by lia. cbn [drop]. f_equal. apply set_eq. intros p. by rewrite Hps, elem_of_list_to_set.
Qed.
Lemma suppressed_insert_spec p s :
  tombs_wf s → tombs_wf (suppressed_insert p s) ∧ p ∈ paths (suppressed_insert p s) ∧
  (p ∉ paths s → order (suppressed_insert p s) = drop (S (length (order s)) - Z.to_nat MAX_SUPPRESSED_MET_SAVES) (order s ++ [p])).
Proof.
  intros (Hnd & Hps & Hlen). unfold suppressed_insert. case_decide as Hin; [done|].
  assert (p ∉ order s) as Hno by (by rewrite <- Hps). assert (NoDup (order s ++ [p])) as Hnd'.
  { apply NoDup_app. split; [done|]. split; [|apply NoDup_singleton]. intros y Hy ->%list_elem_of_singleton. done. }
  rewrite evict_oldest_spec; [|done|intros q; rewrite elem_of_union, elem_of_singleton, Hps, elem_of_app, list_elem_of_singleton; tauto].
  rewrite length_app. cbn [length paths order]. replace (length (order s) + 1)%nat with (S (length (order s))) by lia.
  set (n := (S (length (order s)) - Z.to_nat MAX_SUPPRESSED_MET_SAVES)%nat). assert (n ≤ length (order s))%nat as Hn by (unfold n, MAX_SUPPRESSED_MET_SAVES; lia).
  split; [split; [|split]|split; [|done]].
  - apply (sublist_NoDup _ (order s ++ [p])); [done|]. apply sublist_drop.
  - intros q. cbn. by rewrite elem_of_list_to_set.
  - cbn. rewrite length_drop, length_app. cbn. unfold n, MAX_SUPPRESSED_MET_SAVES in *. lia.
  - rewrite elem_of_list_to_set. rewrite drop_app_le by done. apply elem_of_app. right. left.
Qed.

(** A tombstone outlives the next 4095 of other paths. *)
Lemma tombstone_survives p s qs pre suf :
  tombs_wf s → order s = pre ++ p :: suf → Z.of_nat (length suf + length qs) < MAX_SUPPRESSED_MET_SAVES →
  p ∈ paths (foldl (λ s q, suppressed_insert q s) s qs).
Proof.
  revert s pre suf. induction qs as [|q qs IH]; intros s pre suf Hwf Ho Hlen; cbn [foldl].
  { destruct Hwf as (_ & Hps & _). rewrite Hps, Ho. apply elem_of_app. right. left. }
  destruct (suppressed_insert_spec q s Hwf) as (Hwf' & _ & Hins). destruct (decide (q ∈ paths s)) as [Hin|Hout].
  - unfold suppressed_insert. rewrite decide_True by done. eapply IH; [done|exact Ho|cbn in Hlen; lia].
  - specialize (Hins Hout). rewrite Ho, length_app in Hins. cbn [length] in *. unfold MAX_SUPPRESSED_MET_SAVES in *.
    rewrite <- app_assoc, drop_app_le in Hins by lia. eapply (IH _ _ (suf ++ [q])); [done|exact Hins|rewrite length_app; cbn; lia].
Qed.

Section invariant.
Context (md4_empty path tracked_hash : bytes).
Notation step := (save_step md4_empty path tracked_hash).

Definition done_ok (by_ current gen : Z) (st : writer_stage) : Prop :=
  match outcome_of st with Some Wrote => gen ≤ by_ | Some Bailed => gen < current | _ => True end.
Record writer_ok (s : save_state) (i : nat) (sn : SaveSnapshot) (st : writer_stage) : Prop := {
  w_own : ∀ g, holds_w st = Some g → owner s !! g = Some (Wr i);
  w_quiet : settled_by (removers s) = true → passed st = false;
  w_guard : settled_by (removers s) = false → ∀ g, guard_w st = Some g → path_guard s = Some g;
  w_gen : 1 ≤ snap_generation sn ≤ save_generation s;
  w_newest : newest st = true → written_by s ≤ snap_generation sn;
  w_done : path ∉ paths (tombs s) → done_ok (written_by s) (save_generation s) (snap_generation sn) st;
}.
Record remover_ok (s : save_state) (j : nat) (st : remover_stage) : Prop := {
  r_own : ∀ g, holds_r st = Some g → owner s !! g = Some (Re j);
  r_guard : settled_by (removers s) = false → ∀ g, guard_r st = Some g → path_guard s = Some g;
  r_marked : past_mark st = true → path ∈ paths (tombs s);
}.
Definition owns (s : save_state) (g : nat) (th : thread) : Prop :=
  match th with
  | Wr i => ∃ sn st, writers s !! i = Some (sn, st) ∧ holds_w st = Some g
  | Re j => ∃ k st, removers s !! j = Some (k, st) ∧ holds_r st = Some g
  end.
Record save_ok (s : save_state) : Prop := {
  s_writers : ∀ i sn st, writers s !! i = Some (sn, st) → writer_ok s i sn st;
  s_removers : ∀ j k st, removers s !! j = Some (k, st) → remover_ok s j st;
  s_owners : ∀ g th, owner s !! g = Some th → owns s g th;
  s_tombs : tombs_wf (tombs s);
  s_by : 0 ≤ written_by s ≤ save_generation s;
  s_apart : ∀ i i' sn sn' st st', writers s !! i = Some (sn, st) → writers s !! i' = Some (sn', st') →
    snap_generation sn = snap_generation sn' → i = i';
  s_content : path ∉ paths (tombs s) → 0 < written_by s → ∃ i sn st date data,
    writers s !! i = Some (sn, st) ∧ snap_generation sn = written_by s ∧ 0 ≤ date ∧ encode_part_met md4_empty date (snap_tracker sn) = MOk data ∧ sidecar s = Some data;
}.
(** A run in which the tombstone of the path, once set, is not pushed out by those of
    other paths, the generation does not wrap and the clock is past 1970. *)
Inductive save_reach (start : save_state) : save_state → Prop :=
  | save_here : save_reach start start
  | save_next e s s' :
      save_reach start s → step e s = Some s' → (path ∈ paths (tombs s) → path ∈ paths (tombs s')) →
      save_generation s < 18446744073709551615 → (∀ i date io, e = EWriter i date io → 0 ≤ date) → save_reach start s'.

Lemma init_ok g tombs file : tombs_wf tombs → save_ok (save_init g tombs file).
Proof. intros Hw. split; cbn; try done; try lia. Qed.
Lemma settled_snoc rs r : settled_by (rs ++ [r]) = settled_by rs || entered r.2.
Proof. unfold settled_by. rewrite existsb_app. cbn. by rewrite orb_false_r. Qed.
Lemma settled_insert rs j r r' :
  rs !! j = Some r → entered r.2 = entered r'.2 → settled_by (<[j := r']> rs) = settled_by rs.
Proof.
  intros Hj He. unfold settled_by. revert j Hj. induction rs as [|x rs IH]; intros j Hj; [done|]. destruct j as [|j]; cbn in *.
  - injection Hj as ->. by rewrite He.
  - f_equal. apply (IH j Hj).
Qed.
Lemma settled_enter rs j r' : (j < length rs)%nat → entered r'.2 = true → settled_by (<[j := r']> rs) = true.
Proof.
  intros Hj He. apply existsb_exists. exists r'. split; [|done]. apply list_elem_of_In, (list_elem_of_lookup_2 _ j). by apply list_lookup_insert_eq.
Qed.

(** ** One task moves *)
Lemma writer_ok_view s s' i sn st :
  owner s' = owner s → removers s' = removers s → path_guard s' = path_guard s → save_generation s' = save_generation s →
  written_by s' = written_by s → tombs s' = tombs s → writer_ok s i sn st → writer_ok s' i sn st.
Proof. intros E1 E2 E3 E4 E5 E6 [W1 W2 W3 W4 W5 W6]. split; rewrite ?E1, ?E2, ?E3, ?E4, ?E5, ?E6; done. Qed.
Lemma remover_ok_view s s' j st :
  owner s' = owner s → settled_by (removers s') = settled_by (removers s) → path_guard s' = path_guard s → tombs s' = tombs s →
  remover_ok s j st → remover_ok s' j st.
Proof. intros E1 E2 E3 E4 [R1 R2 R3]. split; rewrite ?E1, ?E2, ?E3, ?E4; done. Qed.
(** [s1] is [s] with what writer [i] changes of the shared state. *)
Lemma set_writer_ok s s1 i sn st st' :
  save_ok s → writers s !! i = Some (sn, st) → writers s1 = writers s → removers s1 = removers s →
  (∀ i' sn' st0, i' ≠ i → writers s !! i' = Some (sn', st0) → writer_ok s i' sn' st0 → writer_ok s1 i' sn' st0) →
  (∀ j st0, remover_ok s j st0 → remover_ok s1 j st0) → writer_ok s1 i sn st' →
  (∀ g th, owner s1 !! g = Some th → th = Wr i ∧ holds_w st' = Some g ∨ th ≠ Wr i ∧ owner s !! g = Some th) →
  tombs s1 = tombs s → 0 ≤ written_by s1 ≤ save_generation s1 →
  (path ∉ paths (tombs s1) → 0 < written_by s1 → ∃ i' sn' st0 date data, writers s !! i' = Some (sn', st0) ∧
     snap_generation sn' = written_by s1 ∧ 0 ≤ date ∧ encode_part_met md4_empty date (snap_tracker sn') = MOk data ∧ sidecar s1 = Some data) →
  save_ok (set_writer i sn st' s1).
Proof.
  intros Hok Hi Ew Er Hw Hr Hnew Hown Et Hby Hc. assert (i < length (writers s))%nat as Hlt by (by eapply lookup_lt_Some).
  assert (∀ i' sn' st0, writers (set_writer i sn st' s1) !! i' = Some (sn', st0) →
    i' = i ∧ sn' = sn ∧ st0 = st' ∨ i' ≠ i ∧ writers s !! i' = Some (sn', st0)) as Hl.
  { intros i' sn' st0. unfold set_writer. cbn. rewrite Ew, list_lookup_insert_Some. naive_solver. }
  assert (∀ i' sn' st0, writers s !! i' = Some (sn', st0) → ∃ st1, writers (set_writer i sn st' s1) !! i' = Some (sn', st1) ∧ (i' ≠ i → st1 = st0)) as Hk.
  { intros i' sn' st0 H0. unfold set_writer. cbn. rewrite Ew. destruct (decide (i' = i)) as [->|Hne].
    - rewrite list_lookup_insert_eq by done. rewrite Hi in H0. injection H0 as <- <-. by exists st'.
    - rewrite list_lookup_insert_ne by done. eauto. }
  split.
  - intros i' sn' st0 [(-> & -> & ->)|[Hne H0]]%Hl; [by eapply writer_ok_view; [..|exact Hnew]|].
    eapply writer_ok_view; [..|eapply (Hw i' sn' st0 Hne H0), (s_writers _ Hok), H0]; done.
  - intros j k st0. unfold set_writer. cbn. rewrite Er. intros Hj. eapply remover_ok_view; [..|eapply Hr, (s_removers _ Hok), Hj]; done.
  - intros g th [[-> Hh]|[Hne Ho]]%Hown.
    + exists sn, st'. split; [|done]. unfold set_writer. cbn. rewrite Ew. by apply list_lookup_insert_eq.
    + apply (s_owners _ Hok) in Ho. destruct th as [i'|j]; cbn in *; [|by rewrite Er]. destruct Ho as (sn' & st0 & H0 & Hh).
      destruct (Hk _ _ _ H0) as (st1 & H1 & He). exists sn', st1. split; [done|]. rewrite He; [done|congruence].
  - unfold set_writer. cbn. rewrite Et. apply (s_tombs _ Hok).
  - done.
  - intros i1 i2 sn1 sn2 st1 st2 H1 H2. apply Hl in H1, H2.
    assert (∀ i' sn' st0, i' = i ∧ sn' = sn ∧ st0 = st' ∨ i' ≠ i ∧ writers s !! i' = Some (sn', st0) → ∃ st1, writers s !! i' = Some (sn', st1)) as Hb by naive_solver.
    destruct (Hb _ _ _ H1) as [? K1], (Hb _ _ _ H2) as [? K2]. by eapply (s_apart _ Hok).
  - intros Hp Hpos. destruct (Hc Hp Hpos) as (i' & sn' & st0 & date & data & H0 & C1 & C2 & C3 & C4). destruct (Hk _ _ _ H0) as (st1 & H1 & _).
    by exists i', sn', st1, date, data.
Qed.

(** ** What a writer does *)
Lemma take_guard_ok s i sn st g s1 :
  save_ok s → writers s !! i = Some (sn, st) → st = Queued → save_path_guard s = (g, s1) → save_ok (set_writer i sn (GuardTaken g) s1).
Proof.
  intros Hok Hi -> Hg. pose proof (s_writers _ Hok _ _ _ Hi) as [W1 W2 W3 W4 W5 W6]. unfold save_path_guard in Hg.
  destruct (path_guard s) as [g0|] eqn:E; injection Hg as <- <-.
  - eapply (set_writer_ok s s); try done.
    + split; cbn; try done. intros _ ? [= <-]. done.
    + intros g th Ho. right. split; [|done]. intros ->. destruct (s_owners _ Hok _ _ Ho) as (? & ? & H1 & H2). rewrite Hi in H1. injection H1 as <- <-. done.
    + apply (s_by _ Hok).
    + apply (s_content _ Hok).
  - set (s1 := with_guard s _ _). eapply (set_writer_ok s s1); try done.
    + intros i' sn' st0 _ H0 [V1 V2 V3 V4 V5 V6]. split; try done. intros Hs g Hgw. specialize (V3 Hs g Hgw). congruence.
    + intros j st0 [R1 R2 R3]. split; try done. intros Hs g Hgr. specialize (R2 Hs g Hgr). congruence.
    + intros g th Ho. right. split; [|done]. intros ->. destruct (s_owners _ Hok _ _ Ho) as (? & ? & H1 & H2). rewrite Hi in H1. injection H1 as <- <-. done.
    + apply (s_by _ Hok).
    + apply (s_content _ Hok).
Qed.
(** Moves between stages that hold the guard. *)
Lemma stage_ok s i sn st st' g :
  save_ok s → writers s !! i = Some (sn, st) → holds_w st = Some g → holds_w st' = Some g →
  (passed st' = true → passed st = true ∨ path ∉ paths (tombs s)) → (newest st' = true → written_by s ≤ snap_generation sn) →
  (path ∉ paths (tombs s) → done_ok (written_by s) (save_generation s) (snap_generation sn) st') → save_ok (set_writer i sn st' s).
Proof.
  intros Hok Hi Hh Hh' Hp Hn Hd. pose proof (s_writers _ Hok _ _ _ Hi) as [W1 W2 W3 W4 W5 W6].
  eapply (set_writer_ok s s); try done.
  - split; try done.
    + intros g' Hg'. apply W1. congruence.
    + intros Hs. specialize (W2 Hs). destruct (passed st') eqn:E; [|done]. destruct (Hp eq_refl) as [F|F]; [congruence|].
      apply existsb_exists in Hs as ([k st0] & [j Hj]%list_elem_of_In%list_elem_of_lookup_1 & He).
      destruct F. apply (r_marked _ _ _ (s_removers _ Hok _ _ _ Hj)). by destruct st0.
    + intros Hs g' Hg'. apply (W3 Hs). assert (guard_w st = Some g) by (by destruct st). assert (guard_w st' = Some g) by (by destruct st'). congruence.
  - intros g' th Ho. destruct (decide (th = Wr i)) as [->|Hne]; [left|by right]. split; [done|].
    destruct (s_owners _ Hok _ _ Ho) as (? & ? & H1 & H2). rewrite Hi in H1. injection H1 as <- <-. congruence.
  - apply (s_by _ Hok).
  - apply (s_content _ Hok).
Qed.
Lemma lock_ok s i sn g s1 :
  save_ok s → writers s !! i = Some (sn, GuardTaken g) → lock g (Wr i) s = Some s1 → save_ok (set_writer i sn (Holding g) s1).
Proof.
  intros Hok Hi Hl. unfold lock in Hl. destruct (owner s !! g) eqn:Eo; [done|]. injection Hl as <-. set (s1 := with_owner s _).
  pose proof (s_writers _ Hok _ _ _ Hi) as [W1 W2 W3 W4 W5 W6]. eapply (set_writer_ok s s1); try done.
  - intros i' sn' st0 Hne H0 [V1 V2 V3 V4 V5 V6]. split; try done. intros g' Hg'. cbn. rewrite lookup_insert_ne; [by apply V1|].
    intros ->. by rewrite (V1 _ Hg') in Eo.
  - intros j st0 [R1 R2 R3]. split; try done. intros g' Hg'. cbn. rewrite lookup_insert_ne; [by apply R1|]. intros ->. by rewrite (R1 _ Hg') in Eo.
  - split; try done. intros g' [= <-]. cbn. apply lookup_insert_eq.
  - intros g' th. cbn. rewrite lookup_insert_Some. intros [[<- <-]|[Hne Ho]]; [by left|right]. split; [|done]. intros ->.
    destruct (s_owners _ Hok _ _ Ho) as (? & ? & H1 & H2). rewrite Hi in H1. injection H1 as <- <-. done.
  - apply (s_by _ Hok).
  - apply (s_content _ Hok).
Qed.
Lemma unlock_ok s i sn g o :
  save_ok s → writers s !! i = Some (sn, Leaving g o) → save_ok (set_writer i sn (Ended o) (unlock g s)).
Proof.
  intros Hok Hi. pose proof (s_writers _ Hok _ _ _ Hi) as [W1 W2 W3 W4 W5 W6]. pose proof (W1 g eq_refl) as Hg.
  eapply (set_writer_ok s (unlock g s)); try done.
  - intros i' sn' st0 Hne H0 [V1 V2 V3 V4 V5 V6]. split; try done. intros g' Hg'. cbn. rewrite lookup_delete_ne; [by apply V1|].
    intros ->. rewrite (V1 _ Hg') in Hg. congruence.
  - intros j st0 [R1 R2 R3]. split; try done. intros g' Hg'. cbn. rewrite lookup_delete_ne; [by apply R1|]. intros ->. rewrite (R1 _ Hg') in Hg. congruence.
  - intros g' th. cbn. rewrite lookup_delete_Some. intros [Hne Ho]. right. split; [|done]. intros ->.
    destruct (s_owners _ Hok _ _ Ho) as (? & ? & H1 & H2). rewrite Hi in H1. injection H1 as <- <-. cbn in H2. congruence.
  - apply (s_by _ Hok).
  - apply (s_content _ Hok).
Qed.
Lemma write_ok s i sn g date data :
  save_ok s → 0 ≤ date → writers s !! i = Some (sn, Writing g) → encode_part_met md4_empty date (snap_tracker sn) = MOk data →
  save_ok (set_writer i sn (Leaving g Wrote) (with_sidecar s (Some data) (snap_generation sn))).
Proof.
  intros Hok Hd Hi He. pose proof (s_writers _ Hok _ _ _ Hi) as [W1 W2 W3 W4 W5 W6]. pose proof (s_by _ Hok) as Hb. specialize (W5 eq_refl).
  assert (settled_by (removers s) = false) as Hs by (destruct (settled_by (removers s)); [by specialize (W2 eq_refl)|done]).
  eapply (set_writer_ok s (with_sidecar s (Some data) (snap_generation sn))); try done.
  - intros i' sn' st0 Hne H0 [V1 V2 V3 V4 V5 V6]. split; try done.
    + intros Hn. assert (∃ g', holds_w st0 = Some g') as [g' Hg'] by (destruct st0; naive_solver).
      assert (g' = g) as -> by (assert (guard_w st0 = Some g') as Hgw by (by destruct st0); specialize (V3 Hs _ Hgw); specialize (W3 Hs g eq_refl); congruence).
      specialize (V1 _ Hg'). specialize (W1 g eq_refl). congruence.
    + intros Hp. specialize (V6 Hp). unfold done_ok in *. cbn. destruct (outcome_of st0) as [[]|]; try done. lia.
  - intros j st0 HR. by eapply remover_ok_view; [..|exact HR].
  - split; [intros g' Hg'; by apply W1|done|intros Hs' g' Hg'; by apply W3|done|done|]. intros _. cbn. lia.
  - intros g' th Ho. cbn in Ho. destruct (decide (th = Wr i)) as [->|Hne]; [left|by right]. split; [done|].
    destruct (s_owners _ Hok _ _ Ho) as (? & ? & H1 & H2). rewrite Hi in H1. injection H1 as <- <-. done.
  - cbn. lia.
  - intros _ _. by exists i, sn, (Writing g), date, data.
Qed.
Lemma writer_step_ok i date io sn st s s' :
  save_ok s → 0 ≤ date → writers s !! i = Some (sn, st) → writer_step md4_empty path i date io sn st s = Some s' → save_ok s'.
Proof.
  intros Hok Hd Hi Hst. pose proof (s_writers _ Hok _ _ _ Hi) as [W1 W2 W3 W4 W5 W6]. unfold writer_step in Hst.
  assert (∀ st' g, holds_w st = Some g → holds_w st' = Some g → passed st' = false → newest st' = false →
    (path ∉ paths (tombs s) → done_ok (written_by s) (save_generation s) (snap_generation sn) st') → save_ok (set_writer i sn st' s)) as Hleave.
  { intros st' g H1 H2 H3 H4 H5. eapply (stage_ok s i sn st st' g); [done..| | |done]; congruence. }
  unfold suppressed_contains in Hst. destruct st as [|g|g|g|g|g|g o|o]; [..|done].
  - destruct (save_path_guard s) as [g s1] eqn:E. injection Hst as <-. by eapply take_guard_ok.
  - destruct (lock g (Wr i) s) as [s1|] eqn:E; [|done]. injection Hst as <-. by eapply lock_ok.
  - injection Hst as <-. case_bool_decide as Ht; [by apply (Hleave _ g)|].
    eapply (stage_ok s i sn (Holding g) _ g); [done..|by right|done|done].
  - injection Hst as <-. destruct (Z.eqb_spec (save_generation s) (snap_generation sn)) as [Eg|Eg].
    + eapply (stage_ok s i sn (Unsuppressed g) _ g); [done..|by left| |done]. intros _. rewrite <- Eg. apply (s_by _ Hok).
    + apply (Hleave _ g); try done. intros _. cbn. lia.
  - injection Hst as <-. case_bool_decide as Ht; [by apply (Hleave _ g)|].
    eapply (stage_ok s i sn (UpToDate g) _ g); [done..|by left|done|done].
  - destruct (encode_part_met md4_empty date (snap_tracker sn)) as [data|e] eqn:E; [destruct io|]; injection Hst as <-;
      [by eapply write_ok|by apply (Hleave _ g)..].
  - injection Hst as <-. by apply unlock_ok.
Qed.

(** ** What a remover does *)
Lemma settled_keep rs j k st st' :
  rs !! j = Some (k, st) → (entered st = true → entered st' = true) → settled_by rs = true → settled_by (<[j := (k, st')]> rs) = true.
Proof.
  intros Hj He Hs. destruct (entered st') eqn:E; [by eapply settled_enter; [eapply lookup_lt_Some|]|].
  rewrite (settled_insert rs j (k, st) (k, st')); [done|done|]. cbn. destruct (entered st); [by specialize (He eq_refl); congruence|done].
Qed.
(** [s1] is [s] with what remover [j] changes of the shared state. *)
Lemma set_remover_ok s s1 j k st st' :
  save_ok s → removers s !! j = Some (k, st) → writers s1 = writers s → removers s1 = removers s → (entered st = true → entered st' = true) →
  let s' := set_remover j k st' s1 in
  (∀ i sn st0, writers s !! i = Some (sn, st0) → writer_ok s i sn st0 → writer_ok s' i sn st0) →
  (∀ j' k' st0, j' ≠ j → removers s !! j' = Some (k', st0) → remover_ok s j' st0 → remover_ok s' j' st0) → remover_ok s' j st' →
  (∀ g th, owner s1 !! g = Some th → th = Re j ∧ holds_r st' = Some g ∨ th ≠ Re j ∧ owner s !! g = Some th) →
  tombs_wf (tombs s1) → 0 ≤ written_by s1 ≤ save_generation s1 →
  (path ∉ paths (tombs s1) → path ∉ paths (tombs s) ∧ written_by s1 = written_by s ∧ sidecar s1 = sidecar s) → save_ok s'.
Proof.
  intros Hok Hj Ew Er Hent s' Hw Hr Hnew Hown Ht Hby Hc. assert (j < length (removers s))%nat as Hlt by (by eapply lookup_lt_Some).
  assert (writers s' = writers s) as Ews by exact Ew.
  assert (removers s' = <[j := (k, st')]> (removers s)) as Ers by (unfold s', set_remover; cbn; by rewrite Er). split.
  - intros i sn st0. rewrite Ews. intros Hi. apply Hw; [done|]. by apply (s_writers _ Hok).
  - intros j' k' st0 Hl. rewrite Ers, list_lookup_insert_Some in Hl. destruct Hl as [(<- & [= <- <-] & _)|[Hne H0]]; [done|].
    eapply Hr; [done|done|]. by eapply (s_removers _ Hok).
  - intros g th [[-> Hh]|[Hne Ho]]%Hown.
    + exists k, st'. split; [|done]. rewrite Ers. by apply list_lookup_insert_eq.
    + apply (s_owners _ Hok) in Ho. destruct th as [i|j']; [cbn in *; by rewrite Ew|]. destruct Ho as (k0 & st0 & H0 & Hh0). exists k0, st0. split; [|done].
      rewrite Ers, list_lookup_insert_ne; [done|congruence].
  - done.
  - done.
  - rewrite Ews. apply (s_apart _ Hok).
  - intros Hp Hpos. destruct (Hc Hp) as (Hp' & E1 & E2). cbn in Hpos. rewrite E1 in Hpos. rewrite Ews. cbn. rewrite E1, E2. by apply (s_content _ Hok).
Qed.
(** A remover that does not take or leave the guard, and does not touch what others read. *)
Lemma quiet_move s j k st st' s1 :
  save_ok s → removers s !! j = Some (k, st) → entered st' = entered st → holds_r st' = holds_r st →
  writers s1 = writers s → removers s1 = removers s → owner s1 = owner s → save_generation s ≤ save_generation s1 → written_by s1 = written_by s →
  (path ∈ paths (tombs s) → path ∈ paths (tombs s1)) → tombs_wf (tombs s1) →
  (settled_by (removers s) = false → path_guard s1 = path_guard s ∨ path_guard s = None) →
  (settled_by (removers s) = false → ∀ g, guard_r st' = Some g → path_guard s1 = Some g) →
  (past_mark st' = true → path ∈ paths (tombs s1)) → (path ∉ paths (tombs s1) → sidecar s1 = sidecar s) → save_ok (set_remover j k st' s1).
Proof.
  intros Hok Hj He Hh Ew Er Eo Hg Eb Hkeep Hwf Hgu Hgr Hpm Hsc. pose proof (s_removers _ Hok _ _ _ Hj) as [R1 R2 R3]. pose proof (s_by _ Hok) as Hby.
  assert (settled_by (removers (set_remover j k st' s1)) = settled_by (removers s)) as Es.
  { unfold set_remover. cbn. rewrite Er. by eapply settled_insert. }
  eapply (set_remover_ok s s1); try done.
  - congruence.
  - intros i sn st0 H0 [V1 V2 V3 V4 V5 V6]. split; cbn [set_remover with_removers owner path_guard save_generation written_by tombs]; rewrite ?Es, ?Eo, ?Eb; try done.
    + intros Hs g Hgw. specialize (V3 Hs g Hgw). destruct (Hgu Hs); congruence.
    + lia.
    + intros Hp. assert (path ∉ paths (tombs s)) as Hp' by tauto. specialize (V6 Hp'). unfold done_ok in *. destruct (outcome_of st0) as [[]|]; try done. lia.
  - intros j' k' st0 Hne H0 [V1 V2 V3]. split; cbn [set_remover with_removers owner path_guard tombs]; rewrite ?Es, ?Eo; try done; [|tauto].
    intros Hs g Hgw. specialize (V2 Hs g Hgw). destruct (Hgu Hs); congruence.
  - split; cbn [set_remover with_removers owner path_guard tombs]; rewrite ?Es, ?Eo; try done. intros g Hg'. apply R1. congruence.
  - intros g th Ho. rewrite Eo in Ho. destruct (decide (th = Re j)) as [->|Hne]; [left|by right]. split; [done|].
    destruct (s_owners _ Hok _ _ Ho) as (? & ? & H1 & H2). rewrite Hj in H1. injection H1 as <- <-. congruence.
  - lia.
  - intros Hp. split; [tauto|]. split; [done|]. by apply Hsc.
Qed.
Lemma settled_at rs j k st : rs !! j = Some (k, st) → entered st = true → settled_by rs = true.
Proof. intros Hj He. apply existsb_exists. exists (k, st). split; [|done]. by eapply list_elem_of_In, list_elem_of_lookup_2. Qed.
Lemma remover_lock_ok s j k g s1 :
  save_ok s → removers s !! j = Some (k, HasGuard g) → lock g (Re j) s = Some s1 → save_ok (set_remover j k (HoldsGuard g) s1).
Proof.
  intros Hok Hj Hl. unfold lock in Hl. destruct (owner s !! g) eqn:Eo; [done|]. injection Hl as <-. set (s1 := with_owner s _).
  pose proof (s_removers _ Hok _ _ _ Hj) as [R1 R2 R3].
  assert (settled_by (removers (set_remover j k (HoldsGuard g) s1)) = true) as Es by (by apply settled_enter; [eapply lookup_lt_Some|]).
  eapply (set_remover_ok s s1); try done.
  - intros i sn st0 H0 [V1 V2 V3 V4 V5 V6]. split; try done.
    + intros g' Hg'. cbn. rewrite lookup_insert_ne; [by apply V1|]. intros ->. by rewrite (V1 _ Hg') in Eo.
    + intros _. destruct (settled_by (removers s)) eqn:Hs; [by apply V2|]. destruct (passed st0) eqn:Ep; [|done]. exfalso.
      assert (∃ g', holds_w st0 = Some g') as [g' Hg'] by (destruct st0; naive_solver). assert (guard_w st0 = Some g') as Hgw by (by destruct st0).
      specialize (V3 eq_refl _ Hgw). specialize (R2 eq_refl g eq_refl). assert (g' = g) as -> by congruence. by rewrite (V1 _ Hg') in Eo.
    + by rewrite Es.
  - intros j' k' st0 Hne H0 [V1 V2 V3]. split; [|by rewrite Es|done]. intros g' Hg'. cbn. rewrite lookup_insert_ne; [by apply V1|].
    intros ->. by rewrite (V1 _ Hg') in Eo.
  - split; [intros g' [= <-]; cbn; apply lookup_insert_eq|by rewrite Es|done].
  - intros g' th. cbn. rewrite lookup_insert_Some. intros [[<- <-]|[Hne Ho]]; [by left|right]. split; [|done]. intros ->.
    destruct (s_owners _ Hok _ _ Ho) as (? & ? & H1 & H2). rewrite Hj in H1. injection H1 as <- <-. done.
  - apply (s_tombs _ Hok).
  - apply (s_by _ Hok).
Qed.
Lemma remover_unlock_ok s j k st g :
  save_ok s → removers s !! j = Some (k, st) → holds_r st = Some g → save_ok (set_remover j k Released (unlock g s)).
Proof.
  intros Hok Hj Hh. pose proof (s_removers _ Hok _ _ _ Hj) as [R1 R2 R3]. pose proof (R1 g Hh) as Hg.
  assert (settled_by (removers (set_remover j k Released (unlock g s))) = true) as Es by (by apply settled_enter; [eapply lookup_lt_Some|]).
  assert (settled_by (removers s) = true) as Es0 by (eapply settled_at; [exact Hj|by destruct st]).
  assert (path ∈ paths (tombs s)) as Hp by (apply R3; by destruct st).
  eapply (set_remover_ok s (unlock g s)); try done.
  - intros i sn st0 H0 [V1 V2 V3 V4 V5 V6]. split; try done; [|by intros _; apply V2|by rewrite Es].
    intros g' Hg'. cbn. rewrite lookup_delete_ne; [by apply V1|]. intros ->. rewrite (V1 _ Hg') in Hg. congruence.
  - intros j' k' st0 Hne H0 [V1 V2 V3]. split; [|by rewrite Es|done]. intros g' Hg'. cbn. rewrite lookup_delete_ne; [by apply V1|].
    intros ->. rewrite (V1 _ Hg') in Hg. congruence.
  - intros g' th. cbn. rewrite lookup_delete_Some. intros [Hne Ho]. right. split; [|done]. intros ->.
    destruct (s_owners _ Hok _ _ Ho) as (? & ? & H1 & H2). rewrite Hj in H1. injection H1 as <- <-. congruence.
  - apply (s_tombs _ Hok).
  - apply (s_by _ Hok).
Qed.
Lemma wrapping_inc x : 0 ≤ x < 18446744073709551615 → u64_wrapping_inc x = x + 1.
Proof. intros Hx. unfold u64_wrapping_inc. apply Z.mod_small. lia. Qed.
Lemma remover_step_ok j io k st s s' :
  save_ok s → save_generation s < 18446744073709551615 → removers s !! j = Some (k, st) →
  remover_step path tracked_hash j io k st s = Some s' → save_ok s'.
Proof.
  intros Hok Hmax Hj Hst. pose proof (s_removers _ Hok _ _ _ Hj) as [R1 R2 R3]. pose proof (s_by _ Hok) as Hby. pose proof (s_tombs _ Hok) as Hwf.
  destruct (suppressed_insert_spec path (tombs s) Hwf) as (Hwf' & Hin & _). unfold remover_step in Hst.
  assert (∀ g s1 st', save_path_guard s = (g, s1) → entered st = false → holds_r st = None → past_mark st = true → st' = HasGuard g →
    save_ok (set_remover j k st' s1)) as Hguard.
  { intros g s1 st' Hg He Hh Hp ->. unfold save_path_guard in Hg. destruct (path_guard s) as [g0|] eqn:E; injection Hg as <- <-.
    - eapply (quiet_move s j k st); try done; [by left|by intros _ ? [= <-]|by intros _; apply R3].
    - eapply (quiet_move s j k st); try done; [by right|by intros _; apply R3]. }
  assert (∀ st', entered st = true → entered st' = true → holds_r st' = holds_r st → past_mark st = true → save_ok (set_remover j k st' (drop_sidecar io s))) as Hdrop.
  { intros st' H1 H2 H3 H4. pose proof (settled_at _ _ _ _ Hj H1) as Hs. specialize (R3 H4).
    eapply (quiet_move s j k st); try done; unfold drop_sidecar; destruct io; cbn; try done; try congruence; try (by left). }
  destruct k, st as [| | | |g|g|g| | |]; try done; try (destruct (lock g (Re j) s) as [s1|] eqn:E; [|done]; injection Hst as <-; by eapply remover_lock_ok);
    try (destruct (save_path_guard s) as [g s1] eqn:E; injection Hst as <-; by eapply Hguard); injection Hst as <-;
    try (by eapply remover_unlock_ok); try (by apply Hdrop).
  - eapply (quiet_move s j DeleteMet Started); try done; [cbn; rewrite wrapping_inc; lia|by left].
  - eapply (quiet_move s j DeleteMet Bumped); try done; by left.
  - eapply (quiet_move s j DeleteMet Tombstoned); try done; by left.
  - pose proof (settled_at _ _ _ _ Hj eq_refl) as Hs. eapply (quiet_move s j DeleteMet Released); try done; congruence.
  - eapply (quiet_move s j Suppress Started); try done; by left.
  - pose proof (settled_at _ _ _ _ Hj eq_refl) as Hs. eapply (quiet_move s j Suppress Released); try done; congruence.
Qed.

(** ** The invariant holds *)
Lemma snapshot_ok t s last_ :
  save_ok s → save_generation s < 18446744073709551615 → save_ok (build_save_snapshot t (with_last s last_)).
Proof.
  intros Hok Hmax. pose proof (s_by _ Hok) as Hby. unfold build_save_snapshot. cbn [with_last save_generation writers].
  rewrite wrapping_inc, Z.min_r by lia. set (s' := with_writers _ _).
  assert (∀ i sn st, writers s' !! i = Some (sn, st) → writers s !! i = Some (sn, st) ∨ i = length (writers s) ∧ sn = mkSnapshot t (save_generation s + 1) ∧ st = Queued) as Hl.
  { intros i sn st. unfold s'. cbn. rewrite lookup_app_Some. intros [H0|[H0 H1]]; [by left|right]. apply list_lookup_singleton_Some in H1 as [Hi [= <- <-]].
    split; [lia|done]. }
  split.
  - intros i sn st [H0|(-> & -> & ->)]%Hl; [|split; cbn; try done; lia]. destruct (s_writers _ Hok _ _ _ H0) as [V1 V2 V3 V4 V5 V6]. split; try done; cbn; [lia|].
    intros Hp. specialize (V6 Hp). unfold done_ok in *. destruct (outcome_of st) as [[]|]; try done. lia.
  - intros j k st H0. eapply remover_ok_view; [..|by eapply (s_removers _ Hok)]; done.
  - intros g th Ho. pose proof (s_owners _ Hok _ _ Ho) as H0. destruct th as [i|j]; [|done]. destruct H0 as (sn & st & H0 & H1). exists sn, st. split; [|done].
    unfold s'. cbn. by apply lookup_app_l_Some.
  - apply (s_tombs _ Hok).
  - cbn. lia.
  - intros i i' sn sn' st st' [H0|(-> & -> & ->)]%Hl [H1|(-> & -> & ->)]%Hl; [by eapply (s_apart _ Hok)| | |done].
    + cbn. pose proof (w_gen _ _ _ _ (s_writers _ Hok _ _ _ H0)). lia.
    + cbn. pose proof (w_gen _ _ _ _ (s_writers _ Hok _ _ _ H1)). lia.
  - intros Hp Hpos. destruct (s_content _ Hok Hp Hpos) as (i & sn & st & date & data & H0 & H1). exists i, sn, st, date, data. split; [|done].
    unfold s'. cbn. by apply lookup_app_l_Some.
Qed.
Lemma tombs_ok s v :
  save_ok s → tombs_wf v → (path ∈ paths (tombs s) → path ∈ paths v) → save_ok (with_tombs s v).
Proof.
  intros Hok Hwf Hk. split.
  - intros i sn st H0. destruct (s_writers _ Hok _ _ _ H0) as [V1 V2 V3 V4 V5 V6]. split; try done. cbn. tauto.
  - intros j k st H0. destruct (s_removers _ Hok _ _ _ H0) as [R1 R2 R3]. split; try done. cbn. tauto.
  - apply (s_owners _ Hok).
  - done.
  - apply (s_by _ Hok).
  - apply (s_apart _ Hok).
  - cbn. intros Hp. apply (s_content _ Hok). tauto.
Qed.
Lemma start_remover_ok s k : save_ok s → save_ok (with_removers s (removers s ++ [(k, Started)])).
Proof.
  intros Hok. assert (settled_by (removers s ++ [(k, Started)]) = settled_by (removers s)) as Es by (rewrite settled_snoc; apply orb_false_r). split.
  - intros i sn st H0. destruct (s_writers _ Hok _ _ _ H0) as [V1 V2 V3 V4 V5 V6]. split; cbn [with_removers owner removers path_guard save_generation written_by tombs]; rewrite ?Es; done.
  - intros j k' st. cbn. rewrite lookup_app_Some. intros [H0|[_ H1]].
    + destruct (s_removers _ Hok _ _ _ H0) as [R1 R2 R3]. split; cbn [with_removers owner removers path_guard tombs]; rewrite ?Es; done.
    + apply list_lookup_singleton_Some in H1 as [_ [= <- <-]]. by split.
  - intros g th Ho. pose proof (s_owners _ Hok _ _ Ho) as H0. destruct th as [i|j]; [done|]. destruct H0 as (k' & st & H0 & H1). exists k', st. split; [|done].
    cbn. by apply lookup_app_l_Some.
  - apply (s_tombs _ Hok).
  - apply (s_by _ Hok).
  - apply (s_apart _ Hok).
  - apply (s_content _ Hok).
Qed.
Lemma save_step_ok e s s' :
  save_ok s → step e s = Some s' → (path ∈ paths (tombs s) → path ∈ paths (tombs s')) → save_generation s < 18446744073709551615 →
  (∀ i date io, e = EWriter i date io → 0 ≤ date) → save_ok s'.
Proof.
  intros Hok Hst Hk Hmax Hd. destruct e as [now t|now interval t|i date io|k|j io|p]; cbn in Hst.
  - injection Hst as <-. by apply snapshot_ok.
  - injection Hst as <-. unfold periodic_snapshot_for_save. destruct (last_met_snapshot s) as [a|]; [destruct (_ <? interval); [done|]|]; by apply snapshot_ok.
  - destruct (writers s !! i) as [[sn st]|] eqn:E; [|done]. by eapply writer_step_ok; [|eapply Hd| |].
  - injection Hst as <-. by apply start_remover_ok.
  - destruct (removers s !! j) as [[k st]|] eqn:E; [|done]. by eapply remover_step_ok.
  - injection Hst as <-. apply tombs_ok; [done| |done]. by apply suppressed_insert_spec, (s_tombs _ Hok).
Qed.
Lemma save_reach_ok s s' : save_ok s → save_reach s s' → save_ok s'.
Proof. intros Hok Hr. induction Hr; [done|]. by eapply save_step_ok. Qed.

(** ** What follows *)
Lemma save_reach_trans s1 s2 s3 : save_reach s1 s2 → save_reach s2 s3 → save_reach s1 s3.
Proof. intros H1 H2. induction H2; [done|]. by eapply save_next. Qed.
(** Past its checks a writer changes the file; nobody else writes it. *)
Lemma sidecar_step e s s' :
  save_ok s → step e s = Some s' → settled_by (removers s) = true →
  (sidecar s' = sidecar s ∨ sidecar s' = None) ∧ settled_by (removers s') = true.
Proof.
  intros Hok Hst Hs. destruct e as [now t|now interval t|i date io|k|j io|p]; cbn in Hst.
  - injection Hst as <-. split; [by left|done].
  - injection Hst as <-. unfold periodic_snapshot_for_save. destruct (last_met_snapshot s) as [a|]; [destruct (_ <? interval)|]; split; (done || by left).
  - destruct (writers s !! i) as [[sn st]|] eqn:E; [|done]. pose proof (w_quiet _ _ _ _ (s_writers _ Hok _ _ _ E) Hs) as Hp. unfold writer_step in Hst.
    destruct st as [|g|g|g|g|g|g o|o]; try done.
    + unfold save_path_guard in Hst. destruct (path_guard s); injection Hst as <-; (split; [by left|done]).
    + unfold lock in Hst. destruct (owner s !! g); [done|]. injection Hst as <-. split; [by left|done].
    + injection Hst as <-. split; [by left|done].
    + injection Hst as <-. split; [by left|done].
  - injection Hst as <-. split; [by left|]. cbn [with_removers removers]. by rewrite settled_snoc, Hs.
  - destruct (removers s !! j) as [[k st]|] eqn:E; [|done]. unfold remover_step, save_path_guard, lock in Hst.
    destruct k, st as [| | | |g|g|g| | |]; try done; try (destruct (path_guard s)); try (destruct (owner s !! g); [done|]); injection Hst as <-;
      (split; [unfold drop_sidecar; try destruct io; first [by left|by right]|];
       cbn [set_remover with_removers removers]; unfold drop_sidecar; try destruct io;
       (eapply settled_keep; [exact E|done|exact Hs])).
  - injection Hst as <-. split; [by left|done].
Qed.
(** C24: a removed sidecar stays removed.  However the tasks are interleaved, once a
    [delete_met] or a [suppress_met_saves] has held the guard of the path, no task
    that was queued, waiting or running writes the file again: it stays as it is or
    is removed, and once it is gone it does not come back.  The path's tombstone is
    assumed not to be pushed out by the next 4096 removals. *)
Theorem removed_sidecar_stays_removed g tb file s s' j k st :
  tombs_wf tb → save_reach (save_init g tb file) s → removers s !! j = Some (k, st) → entered st = true → save_reach s s' →
  (sidecar s' = sidecar s ∨ sidecar s' = None) ∧ (sidecar s = None → sidecar s' = None) ∧ path ∈ paths (tombs s').
Proof.
  intros Hwf Hr Hj He Hr'. pose proof (save_reach_ok _ _ (init_ok g tb file Hwf) Hr) as Hok.
  assert (path ∈ paths (tombs s)) as Hp by (apply (r_marked _ _ _ (s_removers _ Hok _ _ _ Hj)); by destruct st).
  pose proof (settled_at _ _ _ _ Hj He) as Hs. clear Hr Hj He.
  assert ((sidecar s' = sidecar s ∨ sidecar s' = None) ∧ settled_by (removers s') = true ∧ path ∈ paths (tombs s')) as (H1 & _ & H2).
  { induction Hr' as [|e s1 s2 Hr1 IH Hst Hk Hmax Hd]; [by split; [left|]|]. destruct IH as (I1 & I2 & I3).
    destruct (sidecar_step e s1 s2) as [J1 J2]; [by eapply save_reach_ok|done..|]. split; [|by auto].
    destruct J1 as [->| ->]; [done|by right]. }
  split; [done|]. split; [|done]. intros Hn. destruct H1; congruence.
Qed.
(** With no remover, the generations count the snapshots. *)
Definition gens_counted (s : save_state) : Prop :=
  save_generation s = Z.of_nat (length (writers s)) ∧
  ∀ i sn st, writers s !! i = Some (sn, st) → snap_generation sn = Z.of_nat i + 1.
Lemma gens_frame s s' i sn st' :
  gens_counted s → save_generation s' = save_generation s → writers s' = writers s → (∃ st, writers s !! i = Some (sn, st)) → gens_counted (set_writer i sn st' s').
Proof.
  intros [C1 C2] E1 E2 [st Hi]. split; cbn [set_writer with_writers writers save_generation]; rewrite E2; [by rewrite E1, length_insert|].
  intros i' sn' st0. rewrite list_lookup_insert_Some. intros [(-> & [= -> _] & _)|[_ H0]]; by eapply C2.
Qed.
Lemma gens_snapshot t s last_ : gens_counted s → save_generation s < 18446744073709551615 → gens_counted (build_save_snapshot t (with_last s last_)).
Proof.
  intros [C1 C2] Hmax. split; cbn [build_save_snapshot with_writers with_generation with_last save_generation writers].
  - rewrite wrapping_inc by lia. rewrite length_app. cbn. lia.
  - intros i sn st. rewrite lookup_app_Some. intros [H0|[H0 H1]]; [by eapply C2|]. apply list_lookup_singleton_Some in H1 as [Hi [= <- _]]. cbn. lia.
Qed.
Lemma gens_reach g tb file s : save_reach (save_init g tb file) s → removers s = [] → gens_counted s.
Proof.
  induction 1 as [|e s s' Hr IH Hst Hk Hmax Hd]; [done|]. destruct e as [now t|now interval t|i date io|k|j io|p]; cbn in Hst.
  - injection Hst as <-. intros Hn. by apply gens_snapshot; [apply IH|].
  - injection Hst as <-. unfold periodic_snapshot_for_save. destruct (last_met_snapshot s) as [a|]; [destruct (_ <? interval); [done|]|];
      (intros Hn; by apply gens_snapshot; [apply IH|]).
  - destruct (writers s !! i) as [[sn st]|] eqn:E; [|done]. unfold writer_step, save_path_guard, lock in Hst. intros Hn.
    assert (removers s = [] → gens_counted s') as Hc; [|apply Hc].
    { intros Hn0. specialize (IH Hn0). destruct st as [|g0|g0|g0|g0|g0|g0 o|o]; try done; try (destruct (path_guard s)); try (destruct (owner s !! g0); [done|]);
        try (destruct (encode_part_met md4_empty date (snap_tracker sn)); [destruct io|]); injection Hst as <-; by eapply gens_frame; [|..|eexists]. }
    destruct st as [|g0|g0|g0|g0|g0|g0 o|o]; try done; try (destruct (path_guard s)); try (destruct (owner s !! g0); [done|]);
      try (destruct (encode_part_met md4_empty date (snap_tracker sn)); [destruct io|]); injection Hst as <-; exact Hn.
  - injection Hst as <-. cbn. intros Hn. by apply app_nil in Hn as [_ ?].
  - intros Hn. exfalso. destruct (removers s !! j) as [[k st]|] eqn:E; [|done].
    assert (length (removers s') = length (removers s)) as Hlen.
    { unfold remover_step, save_path_guard, lock, drop_sidecar in Hst. destruct k, st as [| | | |g0|g0|g0| | |]; try done; try (destruct (path_guard s));
        try (destruct (owner s !! g0); [done|]); try (destruct io); injection Hst as <-; cbn; by rewrite length_insert. }
    rewrite Hn in Hlen. apply lookup_lt_Some in E. cbn in Hlen. lia.
  - injection Hst as <-. intros Hn. destruct (IH Hn). by split.
Qed.
Definition ended (st : writer_stage) : bool := match st with Ended Wrote | Ended Bailed => true | _ => false end.
(** Once every writer is done and none failed, the file holds the last snapshot taken. *)
Lemma newest_snapshot g tb file s sn st :
  tombs_wf tb → save_reach (save_init g tb file) s → removers s = [] → path ∉ paths (tombs s) →
  Forall (λ w, ended w.2 = true) (writers s) → last (writers s) = Some (sn, st) →
  ∃ date data, 0 ≤ date ∧ encode_part_met md4_empty date (snap_tracker sn) = MOk data ∧ sidecar s = Some data.
Proof.
  intros Hwf Hr Hn Hp Hall Hlast. pose proof (save_reach_ok _ _ (init_ok g tb file Hwf) Hr) as Hok. destruct (gens_reach _ _ _ _ Hr Hn) as [C1 C2].
  rewrite last_lookup in Hlast. pose proof (C2 _ _ _ Hlast) as Hgen. pose proof (lookup_lt_Some _ _ _ Hlast) as Hlt.
  assert (snap_generation sn = save_generation s) as Hg by lia. destruct (s_writers _ Hok _ _ _ Hlast) as [W1 W2 W3 W4 W5 W6]. pose proof (s_by _ Hok) as Hb.
  assert (written_by s = save_generation s) as Hw.
  { specialize (W6 Hp). rewrite Forall_lookup in Hall. specialize (Hall _ _ Hlast). cbn in Hall. destruct st as [| | | | | | |[]]; try done; cbn in W6; lia. }
  destruct (s_content _ Hok Hp) as (i & sn' & st' & date & data & H0 & H1 & H2 & H3 & H4); [lia|].
  assert (i = pred (length (writers s))) as -> by (pose proof (C2 _ _ _ H0); lia). rewrite Hlast in H0. injection H0 as <- <-. eauto.
Qed.
Lemma saveable_date t d d' : saveable d t → 0 ≤ d' → saveable d' t.
Proof. intros [S1 S2 S3 S4 S5 S6 S7 S8 S9] Hd. by split. Qed.
(** The newest snapshot is what a restart finds.  Many workers of one file take
    snapshots and write them in any order; once every task has ended without a
    write error and nothing removed the file, loading it gives back the gaps, the
    hash, the name, the part hashes and the byte count of the last snapshot taken. *)
Theorem newest_snapshot_reloads `{MapOrder} g tb file s sn st hash n g' :
  length md4_empty = 16%nat → tombs_wf tb → save_reach (save_init g tb file) s → removers s = [] → path ∉ paths (tombs s) →
  Forall (λ w, ended w.2 = true) (writers s) → last (writers s) = Some (sn, st) → saveable 0 (snap_tracker sn) →
  hash = ZERO_HASH ∨ hash = file_hash (snap_tracker sn) → file_size (snap_tracker sn) ≤ n → usc_parts_for path (file_hash (snap_tracker sn)) g' = [] →
  ∃ t', new_with_identity (file_size (snap_tracker sn)) path hash (sidecar s) (Some n) g' = (t', g') ∧
    gaps t' = gaps (snap_tracker sn) ∧ file_hash t' = file_hash (snap_tracker sn) ∧ file_name t' = file_name (snap_tracker sn) ∧
    part_hashes t' = part_hashes (snap_tracker sn) ∧ transferred t' = transferred (snap_tracker sn).
Proof.
  intros Hmd Hwf Hr Hn Hp Hall Hlast Hsv Hh Hsz Hw. destruct (newest_snapshot _ _ _ _ _ _ Hwf Hr Hn Hp Hall Hlast) as (date & data & Hd & He & ->).
  destruct (load_saved md4_empty Hmd date (snap_tracker sn) path hash g' (saveable_date _ _ _ Hsv Hd) Hh) as (data' & He' & Hl).
  assert (data' = data) as -> by congruence. destruct (reload_saved _ path hash n g' data Hl) as (t' & H1 & H2); [apply (sv_size _ _ Hsv)|done|done|].
  exists t'. split; [done|]. tauto.
Qed.
(** ** Progress *)
Definition busy_w (st : writer_stage) : bool := match st with Ended _ => false | _ => true end.
Definition busy_r (k : remover) (st : remover_stage) : bool :=
  match k, st with DeleteMet, Evicted | _, Finished | Suppress, Cleared | Suppress, Bumped => false | _, _ => true end.
Lemma writer_moves i date io sn st s :
  busy_w st = true → (∀ g, st = GuardTaken g → owner s !! g = None) → is_Some (writer_step md4_empty path i date io sn st s).
Proof.
  intros Hb Hfree. unfold writer_step, save_path_guard, lock. destruct st as [|g|g|g|g|g|g o|o]; try done; try (by eexists).
  - destruct (path_guard s); by eexists.
  - rewrite (Hfree g eq_refl). by eexists.
  - destruct (encode_part_met _ _ _); [destruct io|]; by eexists.
Qed.
Lemma remover_moves j io k st s :
  busy_r k st = true → (∀ g, st = HasGuard g → owner s !! g = None) → is_Some (remover_step path tracked_hash j io k st s).
Proof.
  intros Hb Hfree. unfold remover_step, save_path_guard, lock. destruct k, st as [| | | |g|g|g| | |]; try done; try (by eexists);
    try (destruct (path_guard s); by eexists); rewrite (Hfree g eq_refl); by eexists.
Qed.
(** Saving and removing never deadlock: while a task is unfinished, some task can
    take its next step, whoever holds the guards. *)
Theorem save_tasks_progress g tb file s :
  tombs_wf tb → save_reach (save_init g tb file) s →
  (∃ i sn st, writers s !! i = Some (sn, st) ∧ busy_w st = true) ∨ (∃ j k st, removers s !! j = Some (k, st) ∧ busy_r k st = true) →
  ∃ e s', (match e with EWriter _ _ _ | ERemover _ _ => True | _ => False end) ∧ step e s = Some s'.
Proof.
  intros Hwf Hr. pose proof (save_reach_ok _ _ (init_ok g tb file Hwf) Hr) as Hok.
  assert (∀ gd th, owner s !! gd = Some th → ∃ e s', (match e with EWriter _ _ _ | ERemover _ _ => True | _ => False end) ∧ step e s = Some s') as Hheld.
  { intros gd [i|j] Ho; apply (s_owners _ Hok) in Ho as (x & st & Hl & Hh).
    - destruct (writer_moves i 0 true x st s) as [s' Hs]; [by destruct st|by intros ? ->|]. exists (EWriter i 0 true), s'. cbn. by rewrite Hl.
    - destruct (remover_moves j true x st s) as [s' Hs]; [|by intros ? ->|exists (ERemover j true), s'; cbn; by rewrite Hl].
      by destruct st, x. }
  intros [(i & sn & st & Hi & Hb)|(j & k & st & Hj & Hb)].
  - destruct (match st with GuardTaken g0 => owner s !! g0 | _ => None end) as [th|] eqn:E.
    { destruct st; try done. by eapply Hheld. }
    destruct (writer_moves i 0 true sn st s Hb) as [s' Hs]; [by intros g0 ->|]. exists (EWriter i 0 true), s'. cbn. by rewrite Hi.
  - destruct (match st with HasGuard g0 => owner s !! g0 | _ => None end) as [th|] eqn:E.
    { destruct st; try done. by eapply Hheld. }
    destruct (remover_moves j true k st s Hb) as [s' Hs]; [by intros g0 ->|]. exists (ERemover j true), s'. cbn. by rewrite Hj.
Qed.
End invariant.

(** ** Examples *)
Fixpoint run_save (md4 path hash : bytes) (es : list save_event) (s : save_state) : option save_state :=
  match es with
  | [] => Some s
  | e :: es =>
      s' ← save_step md4 path hash e s;
      if bool_decide (path ∈ paths (tombs s) → path ∈ paths (tombs s')) && (save_generation s <? 18446744073709551615)
         && (match e with EWriter _ date _ => 0 <=? date | _ => true end)
      then run_save md4 path hash es s' else None
  end.
Lemma run_save_reach md4 path hash es start s s' :
  save_reach md4 path hash start s → run_save md4 path hash es s = Some s' → save_reach md4 path hash start s'.
Proof.
  revert s. induction es as [|e es IH]; intros s Hr; cbn [run_save]; [by intros [= <-]|].
  destruct (save_step md4 path hash e s) as [s1|] eqn:E; [|done]. cbn [mbind option_bind].
  destruct (bool_decide _ && _ && _) eqn:Ec; [|done]. apply andb_true_iff in Ec as [[Ek%bool_decide_eq_true Eg%Z.ltb_lt]%andb_true_iff Ed].
  apply IH. eapply save_next; [done|exact E|done|done|]. intros i date io ->. by apply Z.leb_le.
Qed.
Definition ws (i n : nat) : list save_event := replicate n (EWriter i 1700000000 true).
Definition rs (j n : nat) : list save_event := replicate n (ERemover j true).
(** A writer is past its checks when the file is completed; it writes, and the file is
    removed after it.  A second snapshot, still queued, finds the tombstone. *)
Definition racing : list save_event :=
  [ESnapshot 10 saved_state.1] ++ ws 0 5 ++ [ERemove DeleteMet; ESnapshot 11 saved_state.1] ++ rs 0 4 ++ ws 0 2 ++ rs 0 1.
Definition sample_save : save_state := save_init Shared_init SuppressedMetSaves_default None.
Lemma default_wf : tombs_wf SuppressedMetSaves_default.
Proof. split; [constructor|]. split; [intros p; cbn; set_solver|]. unfold MAX_SUPPRESSED_MET_SAVES. cbn. lia. Qed.
Definition at_guard : save_state := default sample_save (run_save (replicate 16 1) [1] (replicate 16 9) racing sample_save).
Definition at_end : save_state := default sample_save (run_save (replicate 16 1) [1] (replicate 16 9) (rs 0 1 ++ ws 1 1 ++ rs 0 2 ++ ws 1 3) at_guard).
Lemma racing_runs :
  run_save (replicate 16 1) [1] (replicate 16 9) racing sample_save = Some at_guard ∧
  run_save (replicate 16 1) [1] (replicate 16 9) (rs 0 1 ++ ws 1 1 ++ rs 0 2 ++ ws 1 3) at_guard = Some at_end.
Proof. split; vm_compute; reflexivity. Qed.
Lemma removed_sidecar_stays_removed_witness :
  bool_decide (is_Some (sidecar at_guard)) = true ∧ snd <$> writers at_end = [Ended Wrote; Ended Bailed] ∧
  (sidecar at_end = sidecar at_guard ∨ sidecar at_end = None) ∧ sidecar at_end = None.
Proof.
  split; [vm_compute; reflexivity|]. split; [vm_compute; reflexivity|]. destruct racing_runs as [R1 R2].
  assert (removers at_guard !! 0%nat = Some (DeleteMet, HoldsGuard 0)) as Hj by (vm_compute; reflexivity).
  destruct (removed_sidecar_stays_removed (replicate 16 1) [1] (replicate 16 9) Shared_init SuppressedMetSaves_default None at_guard at_end 0 DeleteMet (HoldsGuard 0)
    default_wf (run_save_reach _ _ _ _ _ _ _ (save_here _ _ _ _) R1) Hj eq_refl (run_save_reach _ _ _ _ _ _ _ (save_here _ _ _ _) R2)) as (H1 & _ & _).
  split; [exact H1|]. vm_compute. reflexivity.
Defined.
Lemma save_tasks_progress_witness :
  ∃ e s', (match e with EWriter _ _ _ | ERemover _ _ => True | _ => False end) ∧ save_step (replicate 16 1) [1] (replicate 16 9) e at_guard = Some s'.
Proof.
  apply (save_tasks_progress (replicate 16 1) [1] (replicate 16 9) Shared_init SuppressedMetSaves_default None at_guard default_wf).
  - eapply run_save_reach; [apply save_here|exact (proj1 racing_runs)].
  - left. destruct (writers at_guard !! 1%nat) as [[sn st]|] eqn:E; [|vm_compute in E; discriminate]. exists 1%nat, sn, st. split; [exact E|].
    assert (snd <$> writers at_guard !! 1%nat = Some Queued) as Eq by (vm_compute; reflexivity). rewrite E in Eq. injection Eq as ->. reflexivity.
Defined.
(** Two snapshots whose tasks run in the other order. *)
Definition overtaking : list save_event := [ESnapshot 10 saved_state.1; ESnapshot 11 saved_state.1] ++ ws 1 7 ++ ws 0 5.
Definition overtaken : save_state := default sample_save (run_save (replicate 16 1) [1] (replicate 16 9) overtaking sample_save).
Lemma newest_snapshot_reloads_witness :
  snd <$> writers overtaken = [Ended Bailed; Ended Wrote] ∧
  ∃ t', new_with_identity 20000000 [1] (replicate 16 9) (sidecar overtaken) (Some 20000000) Shared_init = (t', Shared_init) ∧
    gaps t' = [(9728000, 15000000); (15000010, 20000000)].
Proof.
  split; [vm_compute; reflexivity|].
  assert (run_save (replicate 16 1) [1] (replicate 16 9) overtaking sample_save = Some overtaken) as Hr by (vm_compute; reflexivity).
  assert (last (writers overtaken) = Some (mkSnapshot saved_state.1 2, Ended Wrote)) as Hl by (vm_compute; reflexivity).
  destruct (newest_snapshot_reloads (replicate 16 1) [1] (replicate 16 9) Shared_init SuppressedMetSaves_default None overtaken
    (mkSnapshot saved_state.1 2) (Ended Wrote) (replicate 16 9) 20000000 Shared_init eq_refl default_wf (run_save_reach _ _ _ _ _ _ _ (save_here _ _ _ _) Hr)
    ltac:(vm_compute; reflexivity) ltac:(apply (bool_decide_unpack _); vm_compute; exact I)
    ltac:(apply (bool_decide_unpack _); vm_compute; exact I) Hl (saveable_date _ _ 0 saved_saveable ltac:(lia)) ltac:(right; vm_compute; reflexivity)
    ltac:(vm_compute; discriminate) ltac:(vm_compute; reflexivity)) as (t' & H1 & H2 & _).
  exists t'. split; [exact H1|]. rewrite H2. vm_compute. reflexivity.
Defined.
