(* ===== verification/Blackbox.v ===== *)
(** * Who sent the corrupt bytes

    [CorruptionBlackBox] of [network/ed2k/corruption_blackbox.rs]: which address
    sent which range of a file, what becomes of it when a part verifies or fails,
    how a long list is compacted, and who is banned. *)
From S2P Require Import Prelude NodeId Addr MapOrder GapList PartTracker RoutingQuery.
Local Open Scope Z_scope.

Definition EMBLOCKSIZE : Z := 184320.
Definition MIN_BYTES_FOR_BAN_DECISION : Z := 3 * EMBLOCKSIZE.
Definition MAX_TRACKED_FILES : nat := 512.
Definition MAX_BLOCKS_PER_FILE : Z := 4096.
Definition COMPACT_TARGET_BLOCKS : Z := 3072.

(** [corrupt as f64 / total as f64 >= BAN_CORRUPTION_RATIO], the ratio being 0.32.  Of
    the rounding only this is used: a half, or more, is not rounded below 0.32. *)
Class BanRatio := {
  share_ge : Z → Z → bool;
  share_half : ∀ c t, 0 < t → t ≤ 2 * c → share_ge c t = true;
}.
#[export] Instance BanRatio_exact : BanRatio.
Proof. refine {| share_ge c t := 32 * t <=? 100 * c |}. intros c t Ht Hc. apply Z.leb_le. lia. Defined.

Record RecordedBlock := mkBlock {
  b_start : Z; b_end : Z; b_ip : Ipv4Addr;
  b_verified : bool; b_corrupt : bool; b_aggregate : bool;
}.
Definition block_len (b : RecordedBlock) : Z := Z.max 0 (b_end b - b_start b).
Definition is_live_range (b : RecordedBlock) : bool := negb (b_verified b) && negb (b_corrupt b) && negb (b_aggregate b).
Definition live_over (start stop : Z) (b : RecordedBlock) : bool := is_live_range b && (b_start b <? stop) && (start <? b_end b).
Definition live_block (start stop : Z) (ip : Ipv4Addr) : RecordedBlock := mkBlock start stop ip false false false.

(** ** Compaction *)
Notation bytes_by_ip := (gmap Ipv4Addr Z).
Definition add_bytes (ip : Ipv4Addr) (n : Z) (m : bytes_by_ip) : bytes_by_ip := <[ip := default 0 (m !! ip) + n]> m.
(** Phase 1: verified blocks and earlier aggregates become totals. *)
Definition fold_verified (acc : bytes_by_ip * bytes_by_ip * list RecordedBlock) (b : RecordedBlock) :=
  let '(clean, corrupt, kept) := acc in
  if b_aggregate b || (b_verified b && negb (b_corrupt b)) then
    if b_corrupt b then (clean, add_bytes (b_ip b) (block_len b) corrupt, kept)
    else (add_bytes (b_ip b) (block_len b) clean, corrupt, kept)
  else (clean, corrupt, kept ++ [b]).
(** Phase 2: neighbours of one address inside one part become one block. *)
Definition joins (prev b : RecordedBlock) : bool :=
  bool_decide (b_ip prev = b_ip b) && (b_end prev =? b_start b) && eqb (b_verified prev) (b_verified b) && eqb (b_corrupt prev) (b_corrupt b)
  && negb (b_aggregate prev) && negb (b_aggregate b) && (b_start prev / PARTSIZE =? Z.max 0 (b_end b - 1) / PARTSIZE).
Definition extend_block (prev b : RecordedBlock) : RecordedBlock :=
  mkBlock (b_start prev) (b_end b) (b_ip prev) (b_verified prev) (b_corrupt prev) (b_aggregate prev).
Definition join_step (merged : list RecordedBlock) (b : RecordedBlock) : list RecordedBlock :=
  match last merged with
  | Some prev => if joins prev b then removelast merged ++ [extend_block prev b] else merged ++ [b]
  | None => merged ++ [b]
  end.
(** Phase 3: one pass that folds the oldest blocks while the list is too long. *)
Definition fold_oldest (target : Z) (takes_corrupt : bool) (acc : Z * bytes_by_ip * bytes_by_ip * list RecordedBlock) (b : RecordedBlock) :=
  let '(projected, clean, corrupt, survivors) := acc in
  if (target <? projected) && (takes_corrupt || negb (b_corrupt b)) then
    let totals := if b_corrupt b then corrupt else clean in
    let projected := if bool_decide (is_Some (totals !! b_ip b)) then projected - 1 else projected in
    if b_corrupt b then (projected, clean, add_bytes (b_ip b) (block_len b) corrupt, survivors)
    else (projected, add_bytes (b_ip b) (block_len b) clean, corrupt, survivors)
  else (projected, clean, corrupt, survivors ++ [b]).
Definition fold_pass (target : Z) (takes_corrupt : bool) (acc : Z * bytes_by_ip * bytes_by_ip * list RecordedBlock) :=
  let '(projected, clean, corrupt, kept) := acc in
  foldl (fold_oldest target takes_corrupt) (projected, clean, corrupt, []) kept.
Definition phase3 (target : Z) (acc : Z * bytes_by_ip * bytes_by_ip * list RecordedBlock) :=
  if target <? acc.1.1.1 then
    let acc := fold_pass target false acc in
    if acc.1.1.1 <=? target then acc else fold_pass target true acc
  else acc.

Section blackbox.
Context `{Ord : MapOrder, Uns : UnstableSlice}.
Definition aggregate_block (corrupt : bool) (kv : Ipv4Addr * Z) : RecordedBlock :=
  mkBlock 0 kv.2 kv.1 (negb corrupt) corrupt true.
Definition longer_first (a b : RecordedBlock) : bool := block_len b <=? block_len a.
(** Phase 4: the totals become blocks, the smallest left out when there are too many. *)
Definition aggregates (target : Z) (clean corrupt : bytes_by_ip) (kept : list RecordedBlock) : list RecordedBlock :=
  let all := (aggregate_block false <$> retain (λ kv : Ipv4Addr * Z, 0 <? kv.2) (map_iter clean))
             ++ (aggregate_block true <$> retain (λ kv : Ipv4Addr * Z, 0 <? kv.2) (map_iter corrupt)) in
  if target <? Z.of_nat (length kept + length all)
  then take (Z.to_nat (target - Z.of_nat (length kept))) (sort_unstable longer_first all) else all.
Definition compact (target : Z) (blocks : list RecordedBlock) : list RecordedBlock :=
  let '(clean, corrupt, kept) := foldl fold_verified (∅, ∅, []) blocks in
  let kept := if target <? Z.of_nat (length kept + size clean + size corrupt) then foldl join_step [] kept else kept in
  let '(_, clean, corrupt, kept) := phase3 target (Z.of_nat (length kept + size clean + size corrupt), clean, corrupt, kept) in
  kept ++ aggregates target clean corrupt kept.
Definition enforce_block_cap (blocks : list RecordedBlock) : list RecordedBlock :=
  if MAX_BLOCKS_PER_FILE <? Z.of_nat (length blocks) then compact COMPACT_TARGET_BLOCKS blocks else blocks.

(** ** The box *)
Record CorruptionBlackBox := mkBox { records : gmap bytes (list RecordedBlock); insertion_order : list bytes }.
Definition CorruptionBlackBox_new : CorruptionBlackBox := mkBox ∅ [].
(** What is left of a block around [start, stop). *)
Definition fragments (start stop : Z) (b : RecordedBlock) : list RecordedBlock * list RecordedBlock :=
  let overlap_start := Z.max (b_start b) start in
  let overlap_end := Z.min (b_end b) stop in
  (if b_start b <? overlap_start then [live_block (b_start b) overlap_start (b_ip b)] else [],
   if overlap_end <? b_end b then [live_block overlap_end (b_end b) (b_ip b)] else []).
Definition overwrite (start stop : Z) (b : RecordedBlock) : list RecordedBlock :=
  if negb (is_live_range b) then [b]
  else if Z.min (b_end b) stop <=? Z.max (b_start b) start then [b]
  else let '(before, after) := fragments start stop b in before ++ after.
Definition record_block (start stop : Z) (ip : Ipv4Addr) (blocks : list RecordedBlock) : list RecordedBlock :=
  enforce_block_cap
    ((if negb (existsb (live_over start stop) blocks) then blocks else blocks ≫= overwrite start stop) ++ [live_block start stop ip]).
Definition record_data (file_hash : bytes) (start stop : Z) (ip : Ipv4Addr) (box : CorruptionBlackBox) : CorruptionBlackBox :=
  if stop <=? start then box
  else
    let box :=
      if decide (is_Some (records box !! file_hash)) then box
      else
        let order := insertion_order box ++ [file_hash] in
        if decide (MAX_TRACKED_FILES < length order)%nat then
          match order with
          | oldest :: order => mkBox (delete oldest (records box)) order
          | [] => mkBox (records box) order
          end
        else mkBox (records box) order in
    mkBox (<[file_hash := record_block start stop ip (default [] (records box !! file_hash))]> (records box)) (insertion_order box).
Definition verify_block (start stop : Z) (b : RecordedBlock) : list RecordedBlock :=
  if negb (is_live_range b) || (stop <=? b_start b) || (b_end b <=? start) then [b]
  else
    let '(before, after) := fragments start stop b in
    before ++ [mkBlock (Z.max (b_start b) start) (Z.min (b_end b) stop) (b_ip b) true false false] ++ after.
Definition verified_part (file_hash : bytes) (start stop : Z) (box : CorruptionBlackBox) : CorruptionBlackBox :=
  match records box !! file_hash with
  | Some blocks => mkBox (<[file_hash := enforce_block_cap (blocks ≫= verify_block start stop)]> (records box)) (insertion_order box)
  | None => box
  end.
Definition corrupted_part_contributors (file_hash : bytes) (start stop : Z) (box : CorruptionBlackBox) : gset Ipv4Addr :=
  list_to_set (b_ip <$> retain (live_over start stop) (default [] (records box !! file_hash))).
(** The loop over the sorted ranges. *)
Fixpoint covers (ranges : list range) (covered_to stop : Z) : bool :=
  match ranges with
  | [] => stop <=? covered_to
  | (s, e) :: ranges => if covered_to <? s then false else covers ranges (Z.max covered_to e) stop
  end.
Definition part_fully_attributed (file_hash : bytes) (start stop : Z) (box : CorruptionBlackBox) : bool :=
  if stop <=? start then false
  else match records box !! file_hash with
  | None => false
  | Some blocks =>
      covers (sort_unstable pair_le ((λ b, (Z.max (b_start b) start, Z.min (b_end b) stop)) <$> retain (live_over start stop) blocks)) start stop
  end.
Definition blame_block (start stop : Z) (b : RecordedBlock) : RecordedBlock :=
  if negb (b_verified b) && negb (b_aggregate b) && (b_start b <? stop) && (start <? b_end b)
  then mkBlock (b_start b) (b_end b) (b_ip b) (b_verified b) true (b_aggregate b) else b.
Definition sum_by_ip (blocks : list RecordedBlock) : bytes_by_ip := foldl (λ m b, add_bytes (b_ip b) (block_len b) m) ∅ blocks.
Section verdict.
Context `{Ratio : BanRatio}.
Definition ban_list (blocks : list RecordedBlock) : list Ipv4Addr :=
  let ip_total := sum_by_ip blocks in
  omap (λ kv : Ipv4Addr * Z,
    let '(ip, corrupt_bytes) := kv in
    if corrupt_bytes <? EMBLOCKSIZE then None
    else
      let total := default 1 (ip_total !! ip) in
      if total <? MIN_BYTES_FOR_BAN_DECISION then None
      else if share_ge corrupt_bytes total then Some ip else None)
    (map_iter (sum_by_ip (retain b_corrupt blocks))).
Definition corrupted_part (file_hash : bytes) (start stop : Z) (box : CorruptionBlackBox) : list Ipv4Addr * CorruptionBlackBox :=
  if bool_decide (size (corrupted_part_contributors file_hash start stop box) ≠ 1%nat) || negb (part_fully_attributed file_hash start stop box)
  then ([], box)
  else match records box !! file_hash with
  | Some blocks =>
      let blocks := blame_block start stop <$> blocks in
      (ban_list blocks, mkBox (<[file_hash := blocks]> (records box)) (insertion_order box))
  | None => ([], box)
  end.
End verdict.
Definition remove_file (file_hash : bytes) (box : CorruptionBlackBox) : CorruptionBlackBox :=
  mkBox (delete file_hash (records box)) (retain (λ h, negb (bool_decide (h = file_hash))) (insertion_order box)).
End blackbox.
