(* ===== verification/BlackboxFacts.v ===== *)
(** * What compaction keeps

    The four phases of [compact]: the list is within its target, each block that
    still names a range names bytes its address sent, and the totals of an address
    are the same except that the smallest may be dropped, which never turns an
    address into one that is banned. *)
From S2P Require Import Prelude NodeId Addr MapOrder GapList PartTracker RoutingQuery Blackbox.
Local Open Scope Z_scope.

(** ** Totals *)
Definition counts_for (ip : Ipv4Addr) (only_corrupt : bool) (b : RecordedBlock) : bool :=
  bool_decide (b_ip b = ip) && (negb only_corrupt || b_corrupt b).
Definition weight (ip : Ipv4Addr) (oc : bool) (blocks : list RecordedBlock) : Z :=
  foldr (λ b n, (if counts_for ip oc b then block_len b else 0) + n) 0 blocks.
Definition map_weight (ip : Ipv4Addr) (oc : bool) (clean corrupt : bytes_by_ip) : Z :=
  (if oc then 0 else default 0 (clean !! ip)) + default 0 (corrupt !! ip).
Lemma weight_cons ip oc b l : weight ip oc (b :: l) = (if counts_for ip oc b then block_len b else 0) + weight ip oc l.
Proof. done. Qed.
Lemma weight_app ip oc l k : weight ip oc (l ++ k) = weight ip oc l + weight ip oc k.
Proof. induction l as [|b l IH]; [done|]. cbn [app]. rewrite !weight_cons, IH. lia. Qed.
Lemma weight_one ip oc b : weight ip oc [b] = if counts_for ip oc b then block_len b else 0.
Proof. cbn. lia. Qed.
Lemma weight_perm ip oc l k : l ≡ₚ k → weight ip oc l = weight ip oc k.
Proof. induction 1; rewrite ?weight_cons; lia. Qed.
Lemma block_len_nonneg b : 0 ≤ block_len b.
Proof. unfold block_len. lia. Qed.
Lemma weight_nonneg ip oc l : 0 ≤ weight ip oc l.
Proof. induction l as [|b l IH]; [done|]. rewrite weight_cons. pose proof (block_len_nonneg b). destruct (counts_for ip oc b); lia. Qed.
Lemma weight_corrupt_le ip l : weight ip true l ≤ weight ip false l.
Proof.
  induction l as [|b l IH]; [done|]. rewrite !weight_cons. pose proof (block_len_nonneg b). unfold counts_for. cbn [negb orb].
  destruct (bool_decide (b_ip b = ip)), (b_corrupt b); cbn [andb]; lia.
Qed.
Lemma add_bytes_lookup ip ip' n m : default 0 (add_bytes ip' n m !! ip) = default 0 (m !! ip) + (if bool_decide (ip' = ip) then n else 0).
Proof.
  unfold add_bytes. case_bool_decide as E.
  - subst. rewrite lookup_insert_eq. done.
  - rewrite lookup_insert_ne by done. lia.
Qed.
Lemma add_bytes_size ip n m : size (add_bytes ip n m) = (size m + (if bool_decide (is_Some (m !! ip)) then 0 else 1))%nat.
Proof.
  unfold add_bytes. rewrite map_size_insert. destruct (m !! ip) as [v|] eqn:E.
  - rewrite bool_decide_eq_true_2 by done. unfold id. lia.
  - rewrite bool_decide_eq_false_2 by (by intros []). lia.
Qed.

(** ** The phases *)

(** What every phase keeps of a block: it is a range, it names only bytes [P] gives to
    its address, and it is corrupt only if [Q] holds of the address. *)
Definition fair (P : Z → Ipv4Addr → Prop) (Q : Ipv4Addr → Prop) (b : RecordedBlock) : Prop :=
  b_start b ≤ b_end b ∧ (is_live_range b = true → b_start b < b_end b ∧ ∀ x, b_start b ≤ x < b_end b → P x (b_ip b)) ∧ (b_corrupt b = true → Q (b_ip b)).
Section phases.
Context (P : Z → Ipv4Addr → Prop) (Q : Ipv4Addr → Prop).
Definition acc_ok (clean corrupt : bytes_by_ip) (kept : list RecordedBlock) : Prop :=
  Forall (fair P Q) kept ∧ Forall (λ b, b_aggregate b = false) kept ∧ (∀ ip v, corrupt !! ip = Some v → Q ip ∧ 0 ≤ v) ∧ (∀ ip v, clean !! ip = Some v → 0 ≤ v).
Lemma add_bytes_all (R : Ipv4Addr → Z → Prop) ip n (m : bytes_by_ip) :
  (∀ ip' v, m !! ip' = Some v → R ip' v) → R ip (default 0 (m !! ip) + n) → ∀ ip' v, add_bytes ip n m !! ip' = Some v → R ip' v.
Proof. intros Hm Hn ip' v. unfold add_bytes. rewrite lookup_insert_Some. intros [[<- <-]|[_ H]]; [done|by apply Hm]. Qed.
Lemma add_clean ip n (m : bytes_by_ip) : 0 ≤ n → (∀ ip v, m !! ip = Some v → 0 ≤ v) → ∀ ip' v, add_bytes ip n m !! ip' = Some v → 0 ≤ v.
Proof.
  intros Hn Hm. apply (add_bytes_all (λ _ v, 0 ≤ v)); [done|]. destruct (m !! ip) eqn:E; cbn; [specialize (Hm _ _ E)|]; lia.
Qed.
Lemma add_corrupt ip n (m : bytes_by_ip) :
  0 ≤ n → Q ip → (∀ ip v, m !! ip = Some v → Q ip ∧ 0 ≤ v) → ∀ ip' v, add_bytes ip n m !! ip' = Some v → Q ip' ∧ 0 ≤ v.
Proof.
  intros Hn Hq Hm. apply (add_bytes_all (λ ip v, Q ip ∧ 0 ≤ v)); [done|]. split; [done|]. destruct (m !! ip) eqn:E; cbn; [apply Hm in E|]; lia.
Qed.
Lemma fold_verified_spec blocks clean corrupt kept :
  Forall (fair P Q) blocks → acc_ok clean corrupt kept →
  let '(clean', corrupt', kept') := foldl fold_verified (clean, corrupt, kept) blocks in
  acc_ok clean' corrupt' kept' ∧
  (∀ ip oc, weight ip oc kept' + map_weight ip oc clean' corrupt' = weight ip oc kept + map_weight ip oc clean corrupt + weight ip oc blocks).
Proof.
  revert clean corrupt kept. induction blocks as [|b blocks IH]; intros clean corrupt kept Hb Hok; cbn [foldl]; [split; [done|]; intros; cbn; lia|].
  apply Forall_cons in Hb as [Hb0 Hb]. destruct Hok as (K1 & K2 & K3 & K4). pose proof (block_len_nonneg b) as Hn. unfold fold_verified at 2.
  destruct (b_aggregate b || (b_verified b && negb (b_corrupt b))) eqn:Ea; [destruct (b_corrupt b) eqn:Ec|].
  - specialize (IH clean (add_bytes (b_ip b) (block_len b) corrupt) kept Hb). destruct (foldl _ _ _) as [[c1 c2] k'].
    destruct IH as [I1 I2]; [split; [done|]; split; [done|]; split; [by apply add_corrupt; [|apply Hb0|]|done]|].
    split; [done|]. intros ip oc. rewrite I2, weight_cons. unfold map_weight, counts_for. rewrite add_bytes_lookup, Ec, orb_true_r, andb_true_r. lia.
  - specialize (IH (add_bytes (b_ip b) (block_len b) clean) corrupt kept Hb). destruct (foldl _ _ _) as [[c1 c2] k'].
    destruct IH as [I1 I2]; [split; [done|]; split; [done|]; split; [done|by apply add_clean]|].
    split; [done|]. intros ip oc. rewrite I2, weight_cons. unfold map_weight, counts_for. rewrite add_bytes_lookup, Ec, orb_false_r. destruct oc; cbn [negb]; rewrite ?andb_false_r, ?andb_true_r; lia.
  - apply orb_false_iff in Ea as [Ea _]. specialize (IH clean corrupt (kept ++ [b]) Hb). destruct (foldl _ _ _) as [[c1 c2] k'].
    destruct IH as [I1 I2]; [split; [apply Forall_app; by split; [|constructor]|split; [apply Forall_app; by split; [|constructor]|done]]|].
    split; [done|]. intros ip oc. rewrite I2, weight_app, weight_one, weight_cons. lia.
Qed.
Lemma joins_spec prev b :
  joins prev b = true →
  b_ip prev = b_ip b ∧ b_end prev = b_start b ∧ b_verified prev = b_verified b ∧ b_corrupt prev = b_corrupt b ∧ b_aggregate prev = false ∧ b_aggregate b = false.
Proof.
  unfold joins. rewrite !andb_true_iff, !negb_true_iff, Z.eqb_eq, bool_decide_eq_true. intros [[[[[[H1 H2] H3] H4] H5] H6] _].
  apply eqb_prop in H3, H4. done.
Qed.
Lemma extend_fair prev b : joins prev b = true → fair P Q prev → fair P Q b → fair P Q (extend_block prev b).
Proof.
  intros (E1 & E2 & E3 & E4 & E5 & E6)%joins_spec (A1 & A2 & A3) (B1 & B2 & B3). unfold fair, extend_block. cbn [b_start b_end b_ip b_corrupt].
  split; [lia|]. split; [|done]. unfold is_live_range in *. cbn [b_verified b_corrupt b_aggregate]. intros Hl. destruct (A2 Hl) as [A4 A5].
  split; [lia|]. intros x Hx. destruct (Z.ltb_spec x (b_end prev)); [apply A5; lia|]. rewrite E1. apply B2; [|lia].
  by rewrite <- E3, <- E4, E6, <- E5.
Qed.
Lemma extend_weight ip oc prev b :
  joins prev b = true → fair P Q prev → fair P Q b → weight ip oc [extend_block prev b] = weight ip oc [prev] + weight ip oc [b].
Proof.
  intros (E1 & E2 & E3 & E4 & E5 & E6)%joins_spec (A1 & _) (B1 & _). rewrite !weight_one. unfold counts_for, extend_block, block_len. cbn [b_ip b_corrupt b_start b_end].
  rewrite <- E1, <- E4. destruct (_ && _); lia.
Qed.
Lemma join_spec kept merged :
  Forall (fair P Q) kept → Forall (λ b, b_aggregate b = false) kept → Forall (fair P Q) merged → Forall (λ b, b_aggregate b = false) merged →
  let out := foldl join_step merged kept in
  Forall (fair P Q) out ∧ Forall (λ b, b_aggregate b = false) out ∧ (∀ ip oc, weight ip oc out = weight ip oc merged + weight ip oc kept).
Proof.
  revert merged. induction kept as [|b kept IH]; intros merged Hk Hka Hm Hma; cbn [foldl]; [split; [done|]; split; [done|]; intros; cbn; lia|].
  apply Forall_cons in Hk as [Hb Hk]. apply Forall_cons in Hka as [Hba Hka].
  assert (Forall (fair P Q) (join_step merged b) ∧ Forall (λ b, b_aggregate b = false) (join_step merged b) ∧
          ∀ ip oc, weight ip oc (join_step merged b) = weight ip oc merged + weight ip oc [b]) as (J1 & J2 & J3).
  { unfold join_step. destruct merged as [|prev m _] using rev_ind; [cbn; split; [by constructor|split; [by constructor|intros; lia]]|].
    rewrite last_snoc, removelast_last. apply Forall_app in Hm as [Hm Hp], Hma as [Hma Hpa]. rewrite Forall_singleton in Hp, Hpa.
    destruct (joins prev b) eqn:Ej.
    - split; [apply Forall_app; split; [done|]; apply Forall_singleton; by apply extend_fair|].
      split; [apply Forall_app; split; [done|]; constructor; [exact Hpa|constructor]|].
      intros ip oc. rewrite !weight_app, (extend_weight ip oc prev b) by done. lia.
    - split; [apply Forall_app; split; [apply Forall_app; split; [done|by apply Forall_singleton]|by apply Forall_singleton]|].
      split; [apply Forall_app; split; [apply Forall_app; split; [done|by apply Forall_singleton]|by apply Forall_singleton]|].
      intros ip oc. by rewrite weight_app. }
  destruct (IH (join_step merged b) Hk Hka J1 J2) as (I1 & I2 & I3). split; [done|]. split; [done|]. intros ip oc. rewrite I3, J3.
  change (b :: kept) with ([b] ++ kept). rewrite weight_app. lia.
Qed.
(** One pass of the third phase. *)
Definition projected_ok (acc : Z * bytes_by_ip * bytes_by_ip * list RecordedBlock) (rest : nat) : Prop :=
  let '(projected, clean, corrupt, survivors) := acc in
  projected = Z.of_nat (rest + length survivors + size clean + size corrupt) ∧ acc_ok clean corrupt survivors.
Definition acc_weight ip oc (acc : Z * bytes_by_ip * bytes_by_ip * list RecordedBlock) : Z :=
  let '(_, clean, corrupt, survivors) := acc in weight ip oc survivors + map_weight ip oc clean corrupt.
Lemma fold_oldest_step target tc b acc rest :
  fair P Q b → b_aggregate b = false → projected_ok acc (S rest) →
  let acc' := fold_oldest target tc acc b in
  projected_ok acc' rest ∧ (∀ ip oc, acc_weight ip oc acc' = acc_weight ip oc acc + weight ip oc [b]) ∧ acc'.1.1.1 ≤ acc.1.1.1 ∧
  (tc = true → target < acc'.1.1.1 → acc'.2 = acc.2).
Proof.
  intros Hf Ha. destruct acc as [[[projected clean] corrupt] survivors]. intros (Hp & K1 & K2 & K3 & K4). pose proof (block_len_nonneg b) as Hn. unfold fold_oldest.
  destruct ((target <? projected) && (tc || negb (b_corrupt b))) eqn:E; [destruct (b_corrupt b) eqn:Ec|].
  - cbv zeta. split; [split; [|split; [done|split; [done|split; [by apply add_corrupt; [|apply Hf|]|done]]]]|split; [|split; [|done]]].
    + rewrite add_bytes_size. case_bool_decide; lia.
    + intros ip oc. unfold acc_weight, map_weight. rewrite weight_one, add_bytes_lookup. unfold counts_for. rewrite Ec, orb_true_r, andb_true_r. lia.
    + cbn. case_bool_decide; lia.
  - cbv zeta. split; [split; [|split; [done|split; [done|split; [done|by apply add_clean]]]]|split; [|split; [|done]]].
    + rewrite add_bytes_size. case_bool_decide; lia.
    + intros ip oc. unfold acc_weight, map_weight. rewrite weight_one, add_bytes_lookup. unfold counts_for. rewrite Ec, orb_false_r.
      destruct oc; cbn [negb]; rewrite ?andb_false_r, ?andb_true_r; lia.
    + cbn. case_bool_decide; lia.
  - cbv zeta. split; [split; [|split; [|split; [|done]]]|split; [|split; [done|]]].
    + rewrite length_app. cbn. lia.
    + apply Forall_app. split; [done|by apply Forall_singleton].
    + apply Forall_app. split; [done|by apply Forall_singleton].
    + intros ip oc. unfold acc_weight. rewrite weight_app. lia.
    + cbn. intros -> Hlt. cbn in E. rewrite andb_true_r in E. apply Z.ltb_ge in E. lia.
Qed.
Lemma fold_oldest_spec target tc kept acc :
  Forall (fair P Q) kept → Forall (λ b, b_aggregate b = false) kept → projected_ok acc (length kept) →
  let acc' := foldl (fold_oldest target tc) acc kept in
  projected_ok acc' 0 ∧ (∀ ip oc, acc_weight ip oc acc' = acc_weight ip oc acc + weight ip oc kept) ∧ acc'.1.1.1 ≤ acc.1.1.1 ∧
  (tc = true → target < acc'.1.1.1 → acc'.2 = acc.2).
Proof.
  revert acc. induction kept as [|b kept IH]; intros acc Hf Ha Hp; cbn [foldl]; [split; [done|]; split; [intros; cbn; lia|done]|].
  apply Forall_cons in Hf as [Hb Hf], Ha as [Hba Ha]. destruct (fold_oldest_step target tc b acc (length kept) Hb Hba Hp) as (S1 & S2 & S3 & S4).
  destruct (IH _ Hf Ha S1) as (I1 & I2 & I3 & I4). split; [done|]. split; [|split; [lia|]].
  - intros ip oc. rewrite I2, S2. change (b :: kept) with ([b] ++ kept). rewrite weight_app. lia.
  - intros Htc Hlt. rewrite I4, S4 by (done || lia). done.
Qed.
Lemma phase3_spec target projected clean corrupt kept :
  acc_ok clean corrupt kept → projected = Z.of_nat (length kept + size clean + size corrupt) →
  let '(projected', clean', corrupt', kept') := phase3 target (projected, clean, corrupt, kept) in
  acc_ok clean' corrupt' kept' ∧ projected' = Z.of_nat (length kept' + size clean' + size corrupt') ∧ (projected' ≤ target ∨ kept' = []) ∧
  (∀ ip oc, weight ip oc kept' + map_weight ip oc clean' corrupt' = weight ip oc kept + map_weight ip oc clean corrupt).
Proof.
  intros Hok Hp. unfold phase3. cbn [fst snd]. destruct (Z.ltb_spec target projected) as [Hlt|Hle]; [|split; [done|]; split; [done|]; split; [by left|done]].
  assert (∀ tc projected clean corrupt kept, acc_ok clean corrupt kept → projected = Z.of_nat (length kept + size clean + size corrupt) →
    let '(projected', clean', corrupt', kept') := fold_pass target tc (projected, clean, corrupt, kept) in
    acc_ok clean' corrupt' kept' ∧ projected' = Z.of_nat (length kept' + size clean' + size corrupt') ∧ (tc = true → target < projected' → kept' = []) ∧
    (∀ ip oc, weight ip oc kept' + map_weight ip oc clean' corrupt' = weight ip oc kept + map_weight ip oc clean corrupt)) as Hpass.
  { clear. intros tc projected clean corrupt kept (K1 & K2 & K3 & K4) Hp. unfold fold_pass.
    destruct (fold_oldest_spec target tc kept (projected, clean, corrupt, []) K1 K2) as (S1 & S2 & S3 & S4).
    { split; [cbn; lia|]. split; [constructor|]. split; [constructor|done]. }
    destruct (foldl (fold_oldest target tc) (projected, clean, corrupt, []) kept) as [[[p' c1] c2] k']. destruct S1 as [S1 S1'].
    split; [done|]. split; [lia|]. split; [done|]. intros ip oc. specialize (S2 ip oc). cbn in S2. lia. }
  pose proof (Hpass false _ _ _ _ Hok Hp) as H1. destruct (fold_pass target false (projected, clean, corrupt, kept)) as [[[p1 c1] d1] k1].
  destruct H1 as (A1 & A2 & _ & A3). cbn [fst snd]. destruct (Z.leb_spec p1 target); [split; [done|]; split; [done|]; split; [by left|done]|].
  pose proof (Hpass true _ _ _ _ A1 A2) as H2. destruct (fold_pass target true (p1, c1, d1, k1)) as [[[p2 c2] d2] k2]. destruct H2 as (B1 & B2 & B3 & B4).
  split; [done|]. split; [done|]. split; [|intros ip oc; by rewrite B4, A3].
  destruct (Z.leb_spec p2 target); [by left|right; by apply B3].
Qed.

(** ** The aggregates *)
Context `{Ord : MapOrder, Uns : UnstableSlice}.
Notation positive := (λ kv : Ipv4Addr * Z, 0 <? kv.2).
Lemma agg_list_weight ip oc c (l : list (Ipv4Addr * Z)) :
  NoDup l.*1 → weight ip oc (aggregate_block c <$> retain positive l) =
    if negb oc || c then Z.max 0 (default 0 ((list_to_map l : bytes_by_ip) !! ip)) else 0.
Proof.
  induction l as [|[k v] l IH]; intros Hnd; [cbn; destruct (negb oc || c); done|]. apply NoDup_cons in Hnd as [Hk Hnd]. specialize (IH Hnd).
  cbn [fst] in Hk. rewrite retain_cons. cbn [snd].
  assert (weight ip oc (aggregate_block c <$> (if 0 <? v then (k, v) :: retain positive l else retain positive l)) =
          (if bool_decide (k = ip) && (negb oc || c) then Z.max 0 v else 0) + weight ip oc (aggregate_block c <$> retain positive l)) as ->.
  { destruct (Z.ltb_spec 0 v).
    - rewrite fmap_cons, weight_cons. unfold counts_for, aggregate_block, block_len. cbn [b_ip b_corrupt b_start b_end fst snd]. destruct (_ && _); lia.
    - destruct (_ && _); lia. }
  rewrite IH. cbn [list_to_map foldr fst snd]. destruct (negb oc || c); [|rewrite andb_false_r; lia]. rewrite andb_true_r. case_bool_decide as E.
  - subst k. rewrite lookup_insert_eq. rewrite not_elem_of_list_to_map_1 by done. cbn. lia.
  - rewrite lookup_insert_ne by done. done.
Qed.
Lemma agg_map_weight ip oc c (m : bytes_by_ip) :
  (∀ ip v, m !! ip = Some v → 0 ≤ v) → weight ip oc (aggregate_block c <$> retain positive (map_iter m)) = if negb oc || c then default 0 (m !! ip) else 0.
Proof.
  intros Hm. rewrite agg_list_weight by apply NoDup_fst_map_iter.
  rewrite <- (list_to_map_flip m (map_iter m)) by (symmetry; apply map_iter_perm).
  destruct (m !! ip) as [z|] eqn:E; [|done]. specialize (Hm _ _ E). change (default 0 (Some z)) with z. by rewrite Z.max_r by lia.
Qed.
Definition all_aggregates (clean corrupt : bytes_by_ip) : list RecordedBlock :=
  (aggregate_block false <$> retain positive (map_iter clean)) ++ (aggregate_block true <$> retain positive (map_iter corrupt)).
Lemma all_weight ip oc clean corrupt kept : acc_ok clean corrupt kept → weight ip oc (all_aggregates clean corrupt) = map_weight ip oc clean corrupt.
Proof.
  intros (_ & _ & K3 & K4). unfold all_aggregates. rewrite weight_app, !agg_map_weight; [|intros ? ? H; destruct (K3 _ _ H); lia|exact K4].
  unfold map_weight. rewrite orb_true_r, orb_false_r. by destruct oc.
Qed.
Lemma all_length clean corrupt : (length (all_aggregates clean corrupt) ≤ size clean + size corrupt)%nat.
Proof.
  unfold all_aggregates. rewrite length_app, !length_fmap. pose proof (length_retain positive (map_iter clean)). pose proof (length_retain positive (map_iter corrupt)).
  rewrite !length_map_iter in *. lia.
Qed.
Lemma elem_of_all b clean corrupt :
  b ∈ all_aggregates clean corrupt → ∃ c v, b = aggregate_block c (b_ip b, v) ∧ 0 < v ∧ (if (c : bool) then corrupt else clean) !! b_ip b = Some v.
Proof.
  unfold all_aggregates. rewrite elem_of_app, !list_elem_of_fmap. intros [([k v] & -> & [Hp%Z.ltb_lt Hin]%elem_of_retain)|([k v] & -> & [Hp%Z.ltb_lt Hin]%elem_of_retain)];
    apply elem_of_map_iter in Hin; [exists false, v|exists true, v]; done.
Qed.
Lemma all_fair clean corrupt kept : acc_ok clean corrupt kept → Forall (fair P Q) (all_aggregates clean corrupt).
Proof.
  intros (_ & _ & K3 & _). apply Forall_forall. intros b (c & v & -> & Hv & Hl)%elem_of_all. split; [cbn; lia|].
  split; [unfold is_live_range, aggregate_block; cbn; by rewrite andb_false_r|]. cbn [aggregate_block b_corrupt b_ip]. intros ->. by destruct (K3 _ _ Hl).
Qed.
Lemma all_nodup clean corrupt : NoDup (all_aggregates clean corrupt).
Proof.
  assert (∀ c m, NoDup (aggregate_block c <$> retain positive (map_iter m))) as Hnd.
  { intros c m. apply NoDup_fmap_2_strong.
    - intros [k v] [k' v'] _ _ E. injection E. intros -> ->. done.
    - apply (sublist_NoDup _ (map_iter m)); [|apply retain_sublist]. apply (NoDup_fmap_1 fst), NoDup_fst_map_iter. }
  apply NoDup_app. split; [apply Hnd|]. split; [|apply Hnd]. intros b (x & -> & _)%list_elem_of_fmap (y & Ey & _)%list_elem_of_fmap. done.
Qed.

(** ** The list after compaction *)

(** Either everything is there, or only the longest aggregates are. *)
Lemma compact_shape target blocks :
  0 ≤ target → Forall (fair P Q) blocks →
  ∃ clean corrupt kept, acc_ok clean corrupt kept ∧
    (∀ ip oc, weight ip oc kept + map_weight ip oc clean corrupt = weight ip oc blocks) ∧
    (Z.of_nat (length (compact target blocks)) ≤ target ∧
     (compact target blocks = kept ++ all_aggregates clean corrupt ∨
      kept = [] ∧ compact target blocks = take (Z.to_nat target) (sort_unstable longer_first (all_aggregates clean corrupt)))).
Proof.
  intros Ht Hb. unfold compact. pose proof (fold_verified_spec blocks ∅ ∅ [] Hb) as H1.
  destruct (foldl fold_verified (∅, ∅, []) blocks) as [[c1 d1] k1]. destruct H1 as [A1 A2].
  { split; [constructor|]. split; [constructor|]. split; intros ip v H; by rewrite lookup_empty in H. }
  set (k1' := if target <? Z.of_nat (length k1 + size c1 + size d1) then foldl join_step [] k1 else k1).
  assert (acc_ok c1 d1 k1' ∧ ∀ ip oc, weight ip oc k1' = weight ip oc k1) as [A1' A3].
  { unfold k1'. destruct (_ <? _); [|done]. destruct A1 as (K1 & K2 & K3 & K4).
    destruct (join_spec k1 [] K1 K2) as (J1 & J2 & J3); [constructor..|]. split; [done|]. intros ip oc. by rewrite J3. }
  pose proof (phase3_spec target _ c1 d1 k1' A1' eq_refl) as H3.
  destruct (phase3 target (Z.of_nat (length k1' + size c1 + size d1), c1, d1, k1')) as [[[p2 c2] d2] k2]. destruct H3 as (B1 & B2 & B3 & B4).
  exists c2, d2, k2. split; [done|]. split; [intros ip oc; rewrite B4, A3, A2; cbn; unfold map_weight; rewrite !lookup_empty; cbn; destruct oc; lia|].
  unfold aggregates. fold (all_aggregates c2 d2). pose proof (all_length c2 d2) as Hl.
  destruct (Z.ltb_spec target (Z.of_nat (length k2 + length (all_aggregates c2 d2)))) as [Hlt|Hle].
  - assert (k2 = []) as -> by (destruct B3; [lia|done]). cbn [length app] in *. rewrite Z.sub_0_r. split; [|right; done]. rewrite length_take. lia.
  - split; [rewrite length_app; lia|]. by left.
Qed.
Lemma compact_fair target blocks : 0 ≤ target → Forall (fair P Q) blocks → Forall (fair P Q) (compact target blocks).
Proof.
  intros Ht Hb. destruct (compact_shape target blocks Ht Hb) as (c & d & k & Hok & _ & _ & [->|[_ ->]]).
  - apply Forall_app. split; [apply Hok|by eapply all_fair].
  - apply Forall_take. rewrite sort_unstable_perm. by eapply all_fair.
Qed.
End phases.

(** ** Bans *)
Section bans.
Context `{Ord : MapOrder, Uns : UnstableSlice, Ratio : BanRatio}.
Definition bannable (blocks : list RecordedBlock) (ip : Ipv4Addr) : Prop :=
  EMBLOCKSIZE ≤ weight ip true blocks ∧ MIN_BYTES_FOR_BAN_DECISION ≤ weight ip false blocks ∧ share_ge (weight ip true blocks) (weight ip false blocks) = true.
Lemma sum_by_ip_weight blocks m ip :
  default 0 (foldl (λ m b, add_bytes (b_ip b) (block_len b) m) m blocks !! ip) = default 0 (m !! ip) + weight ip false blocks.
Proof.
  revert m. induction blocks as [|b blocks IH]; intros m; cbn [foldl]; [cbn; lia|]. rewrite IH, add_bytes_lookup, weight_cons. unfold counts_for. cbn [negb orb].
  rewrite andb_true_r. lia.
Qed.
Lemma weight_retain ip blocks : weight ip false (retain b_corrupt blocks) = weight ip true blocks.
Proof.
  induction blocks as [|b blocks IH]; [done|]. rewrite retain_cons, weight_cons, <- IH. unfold counts_for. cbn [negb orb].
  destruct (b_corrupt b) eqn:E; [rewrite weight_cons; unfold counts_for; cbn [negb orb]; by rewrite andb_true_r|rewrite andb_false_r; lia].
Qed.
Lemma elem_of_ban_list ip blocks : ip ∈ ban_list blocks ↔ bannable blocks ip.
Proof.
  assert (∀ i, default 0 (sum_by_ip blocks !! i) = weight i false blocks) as Ht by (intros i; unfold sum_by_ip; by rewrite sum_by_ip_weight).
  assert (∀ i, default 0 (sum_by_ip (retain b_corrupt blocks) !! i) = weight i true blocks) as Hc
    by (intros i; unfold sum_by_ip; by rewrite sum_by_ip_weight, weight_retain).
  unfold ban_list. cbv zeta. rewrite list_elem_of_omap. unfold bannable. split.
  - intros ([i v] & Hin%elem_of_map_iter & Hv). specialize (Hc i). rewrite Hin in Hc. change (default 0 (Some v)) with v in Hc. subst v.
    destruct (Z.ltb_spec (weight i true blocks) EMBLOCKSIZE); [done|]. pose proof (weight_corrupt_le i blocks) as Hle.
    assert (default 1 (sum_by_ip blocks !! i) = weight i false blocks) as E.
    { specialize (Ht i). destruct (sum_by_ip blocks !! i); [done|]. cbn in Ht. unfold EMBLOCKSIZE in *. lia. }
    rewrite E in Hv. destruct (Z.ltb_spec (weight i false blocks) MIN_BYTES_FOR_BAN_DECISION); [done|]. destruct (share_ge _ _) eqn:Es; [|done].
    injection Hv as ->. done.
  - intros (H1 & H2 & H3). pose proof (weight_corrupt_le ip blocks) as Hle. exists (ip, weight ip true blocks). split.
    + apply elem_of_map_iter. specialize (Hc ip). destruct (sum_by_ip (retain b_corrupt blocks) !! ip) as [v|]; [by f_equal|].
      cbn in Hc. unfold EMBLOCKSIZE in *. lia.
    + rewrite (proj2 (Z.ltb_ge _ _)) by lia. assert (default 1 (sum_by_ip blocks !! ip) = weight ip false blocks) as ->.
      { specialize (Ht ip). destruct (sum_by_ip blocks !! ip); [done|]. cbn in Ht. unfold EMBLOCKSIZE in *. lia. }
      by rewrite (proj2 (Z.ltb_ge _ _)), H3 by lia.
Qed.
End bans.
