(* ===== verification/BlackboxBlame.v ===== *)
(** * Only the sender of a bad byte is banned

    Every reachable box is within its limits; the ranges it still attributes belong
    to the address that sent those bytes last; a part is blamed only on an address
    that sent all of it; and compaction, whatever it drops, invents no ban. *)
From S2P Require Import Prelude NodeId Addr MapOrder GapList PartTracker PartInv PartWrite RoutingQuery Blackbox BlackboxFacts.
Local Open Scope Z_scope.

Section blame.
Context `{Ord : MapOrder, Uns : UnstableSlice, Ratio : BanRatio}.
Lemma longer_first_total x y : longer_first x y = true ∨ longer_first y x = true.
Proof. unfold longer_first. rewrite !Z.leb_le. lia. Qed.
Lemma longer_first_trans x y z : longer_first x y = true → longer_first y z = true → longer_first x z = true.
Proof. unfold longer_first. rewrite !Z.leb_le. lia. Qed.
Lemma weight_pos ip oc l : 0 < weight ip oc l → ∃ b, b ∈ l ∧ counts_for ip oc b = true ∧ 0 < block_len b.
Proof.
  induction l as [|b l IH]; [cbn; lia|]. rewrite weight_cons. intros H. destruct (decide (0 < weight ip oc l)) as [Hl|Hl].
  - destruct (IH Hl) as (b' & Hin & H'). exists b'. split; [by right|done].
  - exists b. split; [left|]. pose proof (weight_nonneg ip oc l). destruct (counts_for ip oc b); [split; [done|lia]|lia].
Qed.
Lemma compact_bans target blocks ip :
  0 ≤ target → Forall (fair (λ _ _, True) (λ _, True)) blocks → bannable (compact target blocks) ip → bannable blocks ip.
Proof.
  intros Ht Hb. destruct (compact_shape _ _ target blocks Ht Hb) as (clean & corrupt & kept & Hok & Hw & _ & [E|[-> E]]).
  - unfold bannable. rewrite E, !weight_app, !(all_weight _ _ _ _ _ _ _ Hok), !Hw. done.
  - set (all := all_aggregates clean corrupt) in *. set (s := sort_unstable longer_first all) in *. rewrite E.
    assert (∀ oc, weight ip oc blocks = weight ip oc (take (Z.to_nat target) s) + weight ip oc (drop (Z.to_nat target) s)) as Hsum.
    { intros oc. rewrite <- weight_app, take_drop. rewrite (weight_perm ip oc s all) by apply sort_unstable_perm.
      unfold all. rewrite (all_weight _ _ _ _ _ _ _ Hok). rewrite <- Hw. cbn. lia. }
    intros (B1 & B2 & B3). pose proof (weight_nonneg ip true (drop (Z.to_nat target) s)) as Hn1. pose proof (weight_nonneg ip false (drop (Z.to_nat target) s)) as Hn2.
    pose proof (weight_corrupt_le ip (drop (Z.to_nat target) s)) as Hn3.
    destruct (decide (0 < weight ip false (drop (Z.to_nat target) s))) as [Hpos|Hz].
    2: { unfold bannable. rewrite !Hsum. assert (weight ip false (drop (Z.to_nat target) s) = 0) as -> by lia.
         assert (weight ip true (drop (Z.to_nat target) s) = 0) as -> by lia. by rewrite !Z.add_0_r. }
    destruct (weight_pos ip true (take (Z.to_nat target) s)) as (x & Hx & Cx & _); [unfold EMBLOCKSIZE in *; lia|].
    destruct (weight_pos _ _ _ Hpos) as (y & Hy & Cy & Ly).
    assert (longer_first x y = true) as Hxy.
    { apply (StronglySorted_app_1_elem_of (λ a b, longer_first a b = true) (take (Z.to_nat target) s) (drop (Z.to_nat target) s) x y); [|done..].
      rewrite take_drop. apply sort_unstable_sorted; [apply longer_first_total|apply longer_first_trans]. }
    apply Z.leb_le in Hxy. assert (x ≠ y) as Hne.
    { intros ->. assert (NoDup (take (Z.to_nat target) s ++ drop (Z.to_nat target) s)) as Hnd.
      { rewrite take_drop. unfold s. rewrite sort_unstable_perm. apply all_nodup. }
      apply NoDup_app in Hnd as (_ & Hd & _). by apply (Hd y). }
    assert (∀ z, z ∈ s → z ∈ all) as Hs by (intros z Hz; unfold s in Hz; by rewrite sort_unstable_perm in Hz).
    destruct (elem_of_all _ _ _ (Hs x (subseteq_take _ _ _ Hx))) as (cx & vx & Ex & Hvx & Hlx).
    destruct (elem_of_all _ _ _ (Hs y (subseteq_drop _ _ _ Hy))) as (cy & vy & Ey & Hvy & Hly).
    unfold counts_for in Cx, Cy. apply andb_true_iff in Cx as [Ix%bool_decide_eq_true Cx], Cy as [Iy%bool_decide_eq_true _]. cbn [negb orb] in Cx.
    rewrite Ix in Ex, Hlx. rewrite Iy in Ey, Hly. rewrite Ex in Cx. cbn in Cx. subst cx. destruct cy; [exfalso; apply Hne; rewrite Ex, Ey; congruence|].
    assert (weight ip true blocks = vx) as W1 by (rewrite <- (Hw ip true); unfold map_weight; rewrite Hlx; cbn; lia).
    assert (weight ip false blocks = vy + vx) as W2 by (rewrite <- (Hw ip false); unfold map_weight; rewrite Hlx, Hly; cbn; lia).
    rewrite Ex, Ey in Hxy. unfold block_len, aggregate_block in Hxy. cbn in Hxy.
    split; [rewrite Hsum; lia|]. split; [rewrite Hsum; lia|]. rewrite W1, W2. apply share_half; lia.
Qed.

(** ** A run of the box *)
Inductive box_event :=
  | EReceived (h : bytes) (start stop : Z) (ip : Ipv4Addr)
  | EVerified (h : bytes) (start stop : Z)
  | EFailed (h : bytes) (start stop : Z)
  | EForgotten (h : bytes).
Definition run_box (e : box_event) (box : CorruptionBlackBox) : CorruptionBlackBox :=
  match e with
  | EReceived h s e ip => record_data h s e ip box
  | EVerified h s e => verified_part h s e box
  | EFailed h s e => (corrupted_part h s e box).2
  | EForgotten h => remove_file h box
  end.
(** The log has the newest event first.  Parts that verify are not empty. *)
Inductive box_reach : list box_event → CorruptionBlackBox → Prop :=
  | box_start : box_reach [] CorruptionBlackBox_new
  | box_next e log box : box_reach log box → (∀ h start stop, e = EVerified h start stop → start < stop) → box_reach (e :: log) (run_box e box).
(** Who sent a byte last. *)
Fixpoint last_sender (log : list box_event) (h : bytes) (x : Z) : option Ipv4Addr :=
  match log with
  | [] => None
  | EReceived h' start stop ip :: log => if bool_decide (h' = h) && (start <=? x) && (x <? stop) then Some ip else last_sender log h x
  | _ :: log => last_sender log h x
  end.
(** A part failed all of whose bytes the address had sent. *)
Definition sole_sender (log : list box_event) (h : bytes) (ip : Ipv4Addr) : Prop :=
  ∃ later earlier s e, log = later ++ EFailed h s e :: earlier ∧ s < e ∧ ∀ x, s ≤ x < e → last_sender earlier h x = Some ip.
Definition attributed (log : list box_event) (h : bytes) : RecordedBlock → Prop :=
  fair (λ x ip, last_sender log h x = Some ip) (sole_sender log h).
Record box_ok (log : list box_event) (box : CorruptionBlackBox) : Prop := {
  o_order : NoDup (insertion_order box) ∧ (∀ h, h ∈ insertion_order box ↔ is_Some (records box !! h)) ∧ (length (insertion_order box) ≤ MAX_TRACKED_FILES)%nat;
  o_blocks : ∀ h blocks, records box !! h = Some blocks → Z.of_nat (length blocks) ≤ MAX_BLOCKS_PER_FILE ∧ Forall (attributed log h) blocks;
}.

(** ** The operations on one list *)
Lemma fair_mono (P P' : Z → Ipv4Addr → Prop) (Q Q' : Ipv4Addr → Prop) b :
  (∀ x ip, is_live_range b = true → b_start b ≤ x < b_end b → P x ip → P' x ip) → (∀ ip, Q ip → Q' ip) → fair P Q b → fair P' Q' b.
Proof.
  intros HP HQ (F1 & F2 & F3). split; [done|]. split; [|auto]. intros Hl. destruct (F2 Hl) as [F4 F5]. split; [done|]. intros x Hx. apply HP; auto.
Qed.
Lemma enforce_ok P Q blocks :
  Forall (fair P Q) blocks → Z.of_nat (length (enforce_block_cap blocks)) ≤ MAX_BLOCKS_PER_FILE ∧ Forall (fair P Q) (enforce_block_cap blocks).
Proof.
  intros Hb. unfold enforce_block_cap. destruct (Z.ltb_spec MAX_BLOCKS_PER_FILE (Z.of_nat (length blocks))) as [H|H]; [|done].
  split; [|by apply compact_fair]. destruct (compact_shape P Q COMPACT_TARGET_BLOCKS blocks) as (? & ? & ? & _ & _ & Hl & _); [done..|].
  unfold COMPACT_TARGET_BLOCKS, MAX_BLOCKS_PER_FILE in *. lia.
Qed.
Lemma live_fair (P : Z → Ipv4Addr → Prop) Q start stop ip : start < stop → (∀ x, start ≤ x < stop → P x ip) → fair P Q (live_block start stop ip).
Proof. intros Hs HP. split; [cbn; lia|]. split; [done|done]. Qed.
Lemma fragments_fair (P : Z → Ipv4Addr → Prop) Q start stop b before after :
  start < stop → fair P Q b → live_over start stop b = true → fragments start stop b = (before, after) →
  Forall (fair (λ x ip, P x ip ∧ ¬ (start ≤ x < stop)) Q) before ∧ Forall (fair (λ x ip, P x ip ∧ ¬ (start ≤ x < stop)) Q) after.
Proof.
  intros Hs (F1 & F2 & F3) [[Hl H1%Z.ltb_lt]%andb_true_iff H2%Z.ltb_lt]%andb_true_iff [= <- <-]. destruct (F2 Hl) as [F4 F5]. split.
  - destruct (Z.ltb_spec (b_start b) (Z.max (b_start b) start)); [|done]. apply Forall_singleton, live_fair; [done|]. intros x Hx. split; [apply F5; lia|lia].
  - destruct (Z.ltb_spec (Z.min (b_end b) stop) (b_end b)); [|done]. apply Forall_singleton, live_fair; [done|]. intros x Hx. split; [apply F5; lia|lia].
Qed.
Lemma live_over_min start stop b :
  start < stop → is_live_range b = true → b_start b < b_end b → live_over start stop b = negb (Z.min (b_end b) stop <=? Z.max (b_start b) start).
Proof.
  intros Hs Hl Hb. unfold live_over. rewrite Hl. cbn [andb]. destruct (Z.leb_spec (Z.min (b_end b) stop) (Z.max (b_start b) start)); cbn [negb].
  - destruct (Z.ltb_spec (b_start b) stop), (Z.ltb_spec start (b_end b)); try done; lia.
  - destruct (Z.ltb_spec (b_start b) stop), (Z.ltb_spec start (b_end b)); try done; lia.
Qed.
Lemma overwrite_fair (P P' : Z → Ipv4Addr → Prop) Q start stop b :
  start < stop → (∀ x ip, ¬ (start ≤ x < stop) → P x ip → P' x ip) → fair P Q b → Forall (fair P' Q) (overwrite start stop b).
Proof.
  intros Hs HP Hf. unfold overwrite. destruct (is_live_range b) eqn:El; cbn [negb].
  2: { apply Forall_singleton. apply (fair_mono P P' Q Q b); [|auto|exact Hf]. intros x ip Hl. congruence. }
  assert (b_start b < b_end b) as Hlt by (by apply Hf). pose proof (live_over_min start stop b Hs El Hlt) as Ho.
  destruct (Z.leb_spec (Z.min (b_end b) stop) (Z.max (b_start b) start)); cbn [negb] in Ho.
  - apply Forall_singleton. apply (fair_mono P P' Q Q b); [|auto|exact Hf]. intros x ip _ Hx. apply HP. lia.
  - destruct (fragments start stop b) as [before after] eqn:E. destruct (fragments_fair P Q start stop b before after Hs Hf Ho E) as [G1 G2].
    apply Forall_app. split; (eapply Forall_impl; [done|]); intros b' Hb'; (eapply (fair_mono _ P' Q Q b'); [|auto|exact Hb']); intros x ip _ _ [Hp Hx]; auto.
Qed.
Lemma record_block_ok (P P' : Z → Ipv4Addr → Prop) Q start stop ip blocks :
  start < stop → (∀ x i, ¬ (start ≤ x < stop) → P x i → P' x i) → (∀ x, start ≤ x < stop → P' x ip) → Forall (fair P Q) blocks →
  Z.of_nat (length (record_block start stop ip blocks)) ≤ MAX_BLOCKS_PER_FILE ∧ Forall (fair P' Q) (record_block start stop ip blocks).
Proof.
  intros Hs Hout Hin Hb. apply enforce_ok. apply Forall_app. split; [|apply Forall_singleton; by apply live_fair].
  destruct (existsb (live_over start stop) blocks) eqn:E; cbn [negb].
  - apply Forall_bind. eapply Forall_impl; [exact Hb|]. intros b Hf. by eapply overwrite_fair.
  - rewrite Forall_forall in Hb |- *. intros b Hin'. specialize (Hb b Hin'). apply (fair_mono P P' Q Q b); [|auto|exact Hb]. intros x i Hl Hx. apply Hout.
    assert (live_over start stop b = false) as Ho. { apply not_true_is_false. intros Ht. apply not_true_iff_false in E. apply E, existsb_exists. exists b. split; [by apply list_elem_of_In|done]. }
    unfold live_over in Ho. rewrite Hl in Ho. cbn [andb] in Ho. apply andb_false_iff in Ho as [?%Z.ltb_ge|?%Z.ltb_ge]; lia.
Qed.
Lemma verify_block_fair P Q start stop b : start < stop → fair P Q b → Forall (fair P Q) (verify_block start stop b).
Proof.
  intros Hs Hf. unfold verify_block. destruct (negb (is_live_range b) || (stop <=? b_start b) || (b_end b <=? start)) eqn:E; [by apply Forall_singleton|].
  apply orb_false_iff in E as [[El%negb_false_iff E1%Z.leb_gt]%orb_false_iff E2%Z.leb_gt].
  destruct (fragments start stop b) as [before after] eqn:Ef. destruct (fragments_fair P Q start stop b before after Hs Hf) as [G1 G2]; [|done|].
  { unfold live_over. rewrite El. by rewrite (proj2 (Z.ltb_lt _ _)), (proj2 (Z.ltb_lt _ _)). }
  assert (∀ l, Forall (fair (λ x ip, P x ip ∧ ¬ (start ≤ x < stop)) Q) l → Forall (fair P Q) l) as Hweak.
  { intros l Hl. eapply Forall_impl; [exact Hl|]. intros b' Hb'. eapply (fair_mono _ P Q Q b'); [|auto|exact Hb']. by intros x ip _ _ [? _]. }
  apply Forall_app. split; [by apply Hweak|]. apply Forall_app. split; [|by apply Hweak]. apply Forall_singleton.
  destruct Hf as (F1 & F2 & _). destruct (F2 El) as [F3 _]. split; [cbn; lia|]. by split.
Qed.

(** ** Coverage *)
Lemma covers_sound ranges c stop : covers ranges c stop = true → ∀ x, c ≤ x < stop → ∃ r : range, r ∈ ranges ∧ r.1 ≤ x < r.2.
Proof.
  revert c. induction ranges as [|[s e] ranges IH]; intros c; cbn [covers]; [intros ?%Z.leb_le x Hx; lia|].
  destruct (Z.ltb_spec c s); [done|]. intros Hc x Hx. destruct (Z.ltb_spec x e).
  - exists (s, e). split; [left|cbn; lia].
  - destruct (IH _ Hc x) as (r & Hr & Hrx); [lia|]. exists r. split; [by right|done].
Qed.
Lemma covers_complete ranges c stop :
  StronglySorted (λ a b, pair_le a b = true) ranges → Forall (λ r : range, r.1 < stop) ranges →
  (∀ x, c ≤ x < stop → ∃ r : range, r ∈ ranges ∧ r.1 ≤ x < r.2) → covers ranges c stop = true.
Proof.
  revert c. induction ranges as [|[s e] ranges IH]; intros c Hs Hlt Hcov; cbn [covers].
  { apply Z.leb_le. destruct (Z.leb_spec stop c); [done|]. destruct (Hcov c) as (r & Hr & _); [lia|]. by apply elem_of_nil in Hr. }
  apply StronglySorted_inv in Hs as [Hs Hall]. apply Forall_cons in Hlt as [Hlt0 Hlt]. cbn in Hlt0.
  destruct (Z.ltb_spec c s) as [Hgap|Hle].
  - exfalso. destruct (Hcov c) as (r & [->|Hr]%elem_of_cons & Hrx); [lia|cbn in Hrx; lia|].
    rewrite Forall_forall in Hall. specialize (Hall r Hr). unfold pair_le in Hall. cbn in Hall.
    apply orb_true_iff in Hall as [?%Z.ltb_lt|[?%Z.eqb_eq _]%andb_true_iff]; lia.
  - apply IH; [done|done|]. intros x Hx. destruct (Hcov x) as (r & [->|Hr]%elem_of_cons & Hrx); [lia|cbn in Hrx; lia|]. by exists r.
Qed.
(** [part_fully_attributed] answers whether each byte lies in a block still attributed. *)
Lemma fully_attributed_spec h start stop box :
  part_fully_attributed h start stop box = true ↔
  start < stop ∧ ∀ x, start ≤ x < stop → ∃ b, b ∈ default [] (records box !! h) ∧ is_live_range b = true ∧ b_start b ≤ x < b_end b.
Proof.
  unfold part_fully_attributed. destruct (Z.leb_spec stop start); [split; [done|lia]|].
  destruct (records box !! h) as [blocks|] eqn:E; cbn [default from_option].
  2: { split; [done|]. intros [_ Hx]. destruct (Hx start) as (b & Hb & _); [lia|]. by apply elem_of_nil in Hb. }
  unfold id. set (f := λ b : RecordedBlock, (Z.max (b_start b) start, Z.min (b_end b) stop)).
  assert (∀ x, start ≤ x < stop → (∃ r : range, r ∈ sort_unstable pair_le (f <$> retain (live_over start stop) blocks) ∧ r.1 ≤ x < r.2) ↔
    ∃ b, b ∈ blocks ∧ is_live_range b = true ∧ b_start b ≤ x < b_end b) as Hiff.
  { intros x Hx. split.
    - intros (r & Hr & Hrx). rewrite sort_unstable_perm in Hr. apply list_elem_of_fmap in Hr as (b & -> & [Hl Hb]%elem_of_retain).
      apply andb_true_iff in Hl as [[Hl _]%andb_true_iff _]. cbn in Hrx. exists b. split; [done|]. split; [done|lia].
    - intros (b & Hb & Hl & Hbx). exists (f b). split; [|cbn; lia]. rewrite sort_unstable_perm. apply list_elem_of_fmap. exists b. split; [done|].
      apply elem_of_retain. split; [|done]. unfold live_over. rewrite Hl, (proj2 (Z.ltb_lt _ _)), (proj2 (Z.ltb_lt _ _)) by lia. done. }
  split.
  - intros Hc. split; [done|]. intros x Hx. apply Hiff; [done|]. by eapply covers_sound.
  - intros [_ Hx]. apply covers_complete.
    + apply sort_unstable_sorted; [apply pair_le_total|apply pair_le_trans].
    + rewrite sort_unstable_perm. apply Forall_fmap, Forall_forall. intros b [Hl _]%elem_of_retain. apply andb_true_iff in Hl as [[_ ?%Z.ltb_lt]%andb_true_iff _]. cbn. lia.
    + intros x Hx'. apply Hiff; [done|]. by apply Hx.
Qed.
Lemma elem_of_contributors h start stop box ip :
  ip ∈ corrupted_part_contributors h start stop box ↔ ∃ b, b ∈ default [] (records box !! h) ∧ live_over start stop b = true ∧ b_ip b = ip.
Proof.
  unfold corrupted_part_contributors. rewrite elem_of_list_to_set, list_elem_of_fmap. split.
  - intros (b & -> & [Hl Hb]%elem_of_retain). by exists b.
  - intros (b & Hb & Hl & <-). exists b. split; [done|]. by apply elem_of_retain.
Qed.
(** When a part is blamed, the one contributor sent every byte of it last. *)
Lemma blamed_sole_sender log box h start stop :
  box_ok log box → bool_decide (size (corrupted_part_contributors h start stop box) ≠ 1%nat) || negb (part_fully_attributed h start stop box) = false →
  start < stop ∧ ∃ ip, (∀ x, start ≤ x < stop → last_sender log h x = Some ip) ∧
    ∀ b, b ∈ default [] (records box !! h) → live_over start stop b = true → b_ip b = ip.
Proof.
  intros Hok [H1%bool_decide_eq_false H2%negb_false_iff]%orb_false_iff. apply fully_attributed_spec in H2 as [Hs Hc]. split; [done|].
  assert (size (corrupted_part_contributors h start stop box) = 1%nat) as H1' by (destruct (decide (size (corrupted_part_contributors h start stop box) = 1%nat)); done).
  apply size_1_elem_of in H1' as [ip Hip]. exists ip.
  assert (∀ b, b ∈ default [] (records box !! h) → live_over start stop b = true → b_ip b = ip) as Hall.
  { intros b Hb Hl. assert (b_ip b ∈ corrupted_part_contributors h start stop box) as Hin by (apply elem_of_contributors; by exists b). set_solver. }
  split; [|done]. intros x Hx. destruct (Hc x Hx) as (b & Hb & Hl & Hbx). rewrite <- (Hall b Hb).
  - destruct (records box !! h) as [blocks|] eqn:E; [|by apply elem_of_nil in Hb]. destruct (o_blocks _ _ Hok h blocks E) as [_ Hf].
    rewrite Forall_forall in Hf. destruct (Hf b Hb) as (_ & F2 & _). by apply F2.
  - unfold live_over. rewrite Hl, (proj2 (Z.ltb_lt _ _)), (proj2 (Z.ltb_lt _ _)) by lia. done.
Qed.

(** ** Every reachable box *)
Lemma sole_sender_later e log h ip : sole_sender log h ip → sole_sender (e :: log) h ip.
Proof. intros (l1 & l2 & s & t & -> & H). by exists (e :: l1), l2, s, t. Qed.
Lemma attributed_later e log h b :
  (∀ x ip, is_live_range b = true → b_start b ≤ x < b_end b → last_sender log h x = Some ip → last_sender (e :: log) h x = Some ip) →
  attributed log h b → attributed (e :: log) h b.
Proof. intros H. apply fair_mono; [exact H|]. intros ip. apply sole_sender_later. Qed.
Lemma attributed_same e log h blocks :
  (∀ x, last_sender (e :: log) h x = last_sender log h x) → Forall (attributed log h) blocks → Forall (attributed (e :: log) h) blocks.
Proof. intros He Hb. eapply Forall_impl; [exact Hb|]. intros b. apply attributed_later. intros x ip _ _ <-. by rewrite He. Qed.
Lemma put_blocks_ok log log' box h blocks :
  is_Some (records box !! h) → box_ok log box → (∀ h' blocks', h' ≠ h → Forall (attributed log h') blocks' → Forall (attributed log' h') blocks') →
  Z.of_nat (length blocks) ≤ MAX_BLOCKS_PER_FILE → Forall (attributed log' h) blocks →
  box_ok log' (mkBox (<[h := blocks]> (records box)) (insertion_order box)).
Proof.
  intros Hsome [[O1 [O2 O3]] O4] Hother Hlen Hf. split; cbn.
  - split; [done|]. split; [|done]. intros h'. rewrite O2. destruct (decide (h' = h)) as [->|Hne]; [by rewrite lookup_insert_eq|by rewrite lookup_insert_ne].
  - intros h' blocks'. rewrite lookup_insert_Some. intros [[<- <-]|[Hne H']]; [done|]. destruct (O4 h' blocks' H') as [? ?]. split; [done|]. by apply Hother.
Qed.
(** The room made for a file that is new. *)
Definition admit_file (h : bytes) (box : CorruptionBlackBox) : CorruptionBlackBox :=
  if decide (is_Some (records box !! h)) then box
  else
    let order := insertion_order box ++ [h] in
    if decide (MAX_TRACKED_FILES < length order)%nat then
      match order with oldest :: order => mkBox (delete oldest (records box)) order | [] => mkBox (records box) order end
    else mkBox (records box) order.
Lemma admit_file_ok log box h :
  box_ok log box → let box' := admit_file h box in
  box_ok log (mkBox (<[h := default [] (records box' !! h)]> (records box')) (insertion_order box')) ∧
  default [] (records box' !! h) = default [] (records box !! h).
Proof.
  intros [(O1 & O2 & O3) O4]. unfold admit_file. case_decide as Hd.
  { split; [|done]. destruct Hd as [blocks Hb]. rewrite Hb. cbn [default from_option]. unfold id. rewrite insert_id by done. by split. }
  assert (records box !! h = None) as Hn by (destruct (records box !! h); [by destruct Hd|done]). assert (h ∉ insertion_order box) as Hno by (rewrite O2, Hn; by intros []).
  assert (NoDup (insertion_order box ++ [h])) as Hnd.
  { apply NoDup_app. split; [done|]. split; [by intros x Hx ->%list_elem_of_singleton|apply NoDup_singleton]. }
  cbv zeta. case_decide as Hc.
  - destruct (insertion_order box) as [|o order] eqn:Eo; [cbn in Hc; unfold MAX_TRACKED_FILES in Hc; lia|]. cbn [app].
    assert (o ≠ h) as Hoh by (intros ->; apply Hno; left). apply NoDup_cons in Hnd as [Ho Hnd].
    cbn [records insertion_order]. rewrite lookup_delete_ne, Hn by done. split; [|done]. split; cbn.
    + split; [done|]. split; [|rewrite length_app; cbn in *; lia]. intros h'. rewrite elem_of_app, list_elem_of_singleton.
      destruct (decide (h' = h)) as [->|Hne]; [rewrite lookup_insert_eq; naive_solver|]. rewrite lookup_insert_ne by done.
      destruct (decide (h' = o)) as [->|Hne'].
      * rewrite lookup_delete_eq. split; [|by intros []]. intros [Hin|?]; [|done]. destruct Ho. apply elem_of_app. by left.
      * rewrite lookup_delete_ne by done. rewrite <- O2, elem_of_cons. naive_solver.
    + intros h' blocks'. rewrite lookup_insert_Some. intros [[<- <-]|[Hne H']]; [split; [done|constructor]|].
      apply lookup_delete_Some in H' as [_ H']. by apply O4.
  - cbn [records insertion_order]. rewrite Hn. split; [|done]. split; cbn.
    + split; [done|]. split; [|lia]. intros h'. rewrite elem_of_app, list_elem_of_singleton, O2.
      destruct (decide (h' = h)) as [->|Hne]; [rewrite lookup_insert_eq; naive_solver|rewrite lookup_insert_ne by done; naive_solver].
    + intros h' blocks'. rewrite lookup_insert_Some. intros [[<- <-]|[Hne H']]; [split; [done|constructor]|by apply O4].
Qed.
Lemma record_data_ok log box h start stop ip : box_ok log box → box_ok (EReceived h start stop ip :: log) (record_data h start stop ip box).
Proof.
  intros Hok. unfold record_data. destruct (Z.leb_spec stop start) as [Hle|Hlt].
  - destruct Hok as [O1 O2]. split; [done|]. intros h' blocks Hb. destruct (O2 h' blocks Hb) as [? Hf]. split; [done|]. apply attributed_same; [|done].
    intros x. cbn. destruct (bool_decide (h = h')); [|done]. cbn [andb]. destruct (Z.leb_spec start x), (Z.ltb_spec x stop); try done. lia.
  - fold (admit_file h box). destruct (admit_file_ok log box h Hok) as [Ha Hd]. set (box' := admit_file h box) in *. cbv zeta in *.
    set (box2 := mkBox (<[h := default [] (records box' !! h)]> (records box')) (insertion_order box')) in *.
    replace (<[h := record_block start stop ip (default [] (records box' !! h))]> (records box'))
      with (<[h := record_block start stop ip (default [] (records box' !! h))]> (records box2)) by (unfold box2; cbn; by rewrite insert_insert_eq).
    change (insertion_order box') with (insertion_order box2).
    assert (records box2 !! h = Some (default [] (records box' !! h))) as Eb by (unfold box2; cbn; apply lookup_insert_eq).
    destruct (o_blocks _ _ Ha h _ Eb) as [_ Hf]. clearbody box2.
    destruct (record_block_ok (λ x i, last_sender log h x = Some i) (λ x i, last_sender (EReceived h start stop ip :: log) h x = Some i)
      (sole_sender (EReceived h start stop ip :: log) h) start stop ip (default [] (records box' !! h)) Hlt) as [R1 R2].
    + intros x i Hx Hl. cbn. rewrite bool_decide_eq_true_2 by done. cbn [andb]. destruct (Z.leb_spec start x), (Z.ltb_spec x stop); cbn [andb]; try done. lia.
    + intros x Hx. cbn. rewrite bool_decide_eq_true_2, (proj2 (Z.leb_le _ _)), (proj2 (Z.ltb_lt _ _)) by (done || lia). done.
    + eapply Forall_impl; [exact Hf|]. intros b. apply fair_mono; [done|]. intros i. apply sole_sender_later.
    + apply (put_blocks_ok log); [by eexists|done| |done|done]. intros h' blocks' Hne. apply attributed_same. intros x. cbn. by rewrite bool_decide_eq_false_2.
Qed.
Lemma corrupted_part_ok log box h start stop : box_ok log box → box_ok (EFailed h start stop :: log) (corrupted_part h start stop box).2.
Proof.
  intros Hok. assert (box_ok (EFailed h start stop :: log) box) as Hsame.
  { destruct Hok as [O1 O2]. split; [done|]. intros h' blocks Hb. destruct (O2 h' blocks Hb) as [? Hf]. split; [done|]. by apply attributed_same. }
  unfold corrupted_part. destruct (bool_decide _ || _) eqn:E; [done|]. destruct (blamed_sole_sender log box h start stop Hok E) as (Hs & ip & Hx & Hip).
  destruct (records box !! h) as [blocks|] eqn:Eb; [|done]. cbn [snd]. cbn [default from_option] in Hip. unfold id in Hip.
  destruct (o_blocks _ _ Hsame h blocks Eb) as [Hlen Hf].
  assert (sole_sender (EFailed h start stop :: log) h ip) as Hsole by (by exists [], log, start, stop).
  apply (put_blocks_ok (EFailed h start stop :: log)); [by eexists|done|done|by rewrite length_fmap|].
  apply Forall_fmap. rewrite Forall_forall in Hf |- *. intros b Hb. specialize (Hf b Hb). cbn. unfold blame_block.
  destruct (negb (b_verified b) && negb (b_aggregate b) && (b_start b <? stop) && (start <? b_end b)) eqn:Ebl; [|done].
  destruct Hf as (F1 & F2 & F3). split; [done|]. split; [unfold is_live_range; cbn; by rewrite andb_false_r|]. cbn [b_corrupt b_ip]. intros _.
  destruct (b_corrupt b) eqn:Ec; [by apply F3|]. rewrite (Hip b Hb); [done|]. unfold live_over, is_live_range. rewrite Ec. cbn [negb].
  apply andb_true_iff in Ebl as [[[-> ->]%andb_true_iff ->]%andb_true_iff ->]. done.
Qed.
Lemma box_reach_ok log box : box_reach log box → box_ok log box.
Proof.
  induction 1 as [|e log box Hr IH Hev].
  - split; cbn; [split; [constructor|]; split; [|unfold MAX_TRACKED_FILES; lia]|]; intros h; rewrite lookup_empty; [|done]. split; [by intros ?%elem_of_nil|by intros []].
  - destruct e as [h s t ip|h s t|h s t|h]; cbn [run_box].
    + by apply record_data_ok.
    + unfold verified_part. destruct (records box !! h) as [blocks|] eqn:E.
      * destruct (o_blocks _ _ IH h blocks E) as [_ Hf]. destruct (enforce_ok (λ x ip, last_sender (EVerified h s t :: log) h x = Some ip)
          (sole_sender (EVerified h s t :: log) h) (blocks ≫= verify_block s t)) as [H1 H2].
        { apply Forall_bind. eapply Forall_impl; [by apply (attributed_same (EVerified h s t))|]. intros b Hb. apply verify_block_fair; [by eapply Hev|done]. }
        apply (put_blocks_ok log); [by eexists|done| |done|done]. intros h' blocks' _. by apply attributed_same.
      * destruct IH as [O1 O2]. split; [done|]. intros h' blocks' Hb. destruct (O2 _ _ Hb). split; [done|]. by apply attributed_same.
    + by apply corrupted_part_ok.
    + destruct IH as [(O1 & O2 & O3) O4]. split; cbn.
      * split; [by eapply sublist_NoDup; [|apply retain_sublist]|]. split; [|pose proof (length_retain (λ h0, negb (bool_decide (h0 = h))) (insertion_order box)); lia].
        intros h'. rewrite elem_of_retain, O2, negb_true_iff, bool_decide_eq_false. destruct (decide (h' = h)) as [->|Hne].
        -- rewrite lookup_delete_eq. split; [tauto|by intros []].
        -- rewrite lookup_delete_ne by done. tauto.
      * intros h' blocks' [_ Hb]%lookup_delete_Some. destruct (O4 _ _ Hb). split; [done|]. by apply attributed_same.
Qed.

(** ** Claims *)

(** C26: an honest peer is never banned for corruption.  Take any run, and any notion of
    honesty for which a part that failed its hash holds a byte that no honest peer
    was the last to send: an address the box bans is not honest, however data
    arrived, verified, failed, was compacted or evicted before. *)
Theorem honest_peer_never_banned (honest : Ipv4Addr → Prop) log box h start stop ip :
  box_reach log box →
  (∀ later earlier h' s e, EFailed h start stop :: log = later ++ EFailed h' s e :: earlier → s < e →
     ∃ x, s ≤ x < e ∧ ∀ i, last_sender earlier h' x = Some i → ¬ honest i) →
  ip ∈ (corrupted_part h start stop box).1 → ¬ honest ip.
Proof.
  intros Hr Hbad Hban Hhon. pose proof (box_reach_ok _ _ Hr) as Hok. pose proof (corrupted_part_ok log box h start stop Hok) as Hok'.
  assert (∃ blocks, records (corrupted_part h start stop box).2 !! h = Some blocks ∧ (corrupted_part h start stop box).1 = ban_list blocks) as (blocks & Hb & Eb).
  { unfold corrupted_part in *. destruct (bool_decide _ || _); [by apply elem_of_nil in Hban|]. destruct (records box !! h) as [blocks|]; [|by apply elem_of_nil in Hban].
    eexists. cbn. by rewrite lookup_insert_eq. }
  rewrite Eb in Hban. apply elem_of_ban_list in Hban as (B1 & _). destruct (o_blocks _ _ Hok' h blocks Hb) as [_ Hf].
  destruct (weight_pos ip true blocks) as (b & Hin & Hc & _); [unfold EMBLOCKSIZE in B1; lia|].
  unfold counts_for in Hc. apply andb_true_iff in Hc as [Hip%bool_decide_eq_true Hc]. cbn [negb orb] in Hc. rewrite Forall_forall in Hf.
  destruct (Hf b Hin) as (_ & _ & F). destruct (F Hc) as (later & earlier & s & e & El & Hse & Hx). rewrite Hip in Hx.
  destruct (Hbad later earlier h s e El Hse) as (x & Hxr & Hno). by apply (Hno ip); [apply Hx|].
Qed.
(** Compaction invents no ban.  Folding, merging and dropping entries of a long
    block list only loses evidence: an address that the compacted list bans, the
    full list bans too; the list is within its target and the blocks that still
    name a range say the same of it. *)
Theorem compaction_invents_no_ban (P : Z → Ipv4Addr → Prop) (Q : Ipv4Addr → Prop) target blocks :
  0 ≤ target → Forall (fair P Q) blocks →
  Z.of_nat (length (compact target blocks)) ≤ target ∧ Forall (fair P Q) (compact target blocks) ∧
  ∀ ip, ip ∈ ban_list (compact target blocks) → ip ∈ ban_list blocks.
Proof.
  intros Ht Hb. split; [by destruct (compact_shape P Q target blocks Ht Hb) as (? & ? & ? & _ & _ & ? & _)|]. split; [by apply compact_fair|].
  intros ip. rewrite !elem_of_ban_list. apply compact_bans; [done|]. eapply Forall_impl; [exact Hb|]. intros b. by apply fair_mono.
Qed.
(** The box is bounded and its attribution exact.  In every reachable box at most 512
    files and 4096 blocks a file are kept; an address is named as a contributor of
    a range exactly when a live block of it is in the range, and then it sent those
    bytes last; a range counts as fully attributed exactly when each byte is. *)
Theorem blackbox_attribution log box h start stop :
  box_reach log box →
  (size (records box) ≤ MAX_TRACKED_FILES)%nat ∧ (∀ h' blocks, records box !! h' = Some blocks → Z.of_nat (length blocks) ≤ MAX_BLOCKS_PER_FILE) ∧
  (∀ ip, ip ∈ corrupted_part_contributors h start stop box → start < stop → ∃ x, start ≤ x < stop ∧ last_sender log h x = Some ip) ∧
  (part_fully_attributed h start stop box = true → ∀ x, start ≤ x < stop → ∃ ip, ip ∈ corrupted_part_contributors h start stop box ∧ last_sender log h x = Some ip).
Proof.
  intros Hr. pose proof (box_reach_ok _ _ Hr) as [(O1 & O2 & O3) O4].
  assert (∀ b x, b ∈ default [] (records box !! h) → is_live_range b = true → b_start b ≤ x < b_end b → last_sender log h x = Some (b_ip b)) as Hlive.
  { intros b x Hb Hl Hx. destruct (records box !! h) as [blocks|] eqn:E; [|by apply elem_of_nil in Hb]. destruct (O4 h blocks E) as [_ Hf].
    rewrite Forall_forall in Hf. destruct (Hf b Hb) as (_ & F & _). by apply F. }
  split; [|split; [|split]].
  - etransitivity; [|exact O3]. rewrite <- size_dom. rewrite <- (size_list_to_set (C := gset bytes) (insertion_order box)) by done.
    apply subseteq_size. intros h'. by rewrite elem_of_dom, elem_of_list_to_set, O2.
  - intros h' blocks Hb. by apply (O4 h').
  - intros ip (b & Hb & Hl & <-)%elem_of_contributors Hs. apply andb_true_iff in Hl as [[Hl H1%Z.ltb_lt]%andb_true_iff H2%Z.ltb_lt].
    exists (Z.max start (b_start b)). split; [lia|]. apply Hlive; [done|done|].
    assert (b_start b < b_end b); [|lia]. destruct (records box !! h) as [blocks|] eqn:E; [|by apply elem_of_nil in Hb]. destruct (O4 h blocks E) as [_ Hf].
    rewrite Forall_forall in Hf. destruct (Hf b Hb) as (_ & F & _). by apply F.
  - intros [Hs Hc]%fully_attributed_spec x Hx. destruct (Hc x Hx) as (b & Hb & Hl & Hbx). exists (b_ip b). split; [|by apply Hlive].
    apply elem_of_contributors. exists b. split; [done|]. split; [|done]. unfold live_over. rewrite Hl, (proj2 (Z.ltb_lt _ _)), (proj2 (Z.ltb_lt _ _)) by lia. done.
Qed.
End blame.

(** ** Examples *)
Definition liar : Ipv4Addr := mkV4 192 0 2 7.
Definition friend : Ipv4Addr := mkV4 198 51 100 9.
(** One peer sends a whole part, which fails; another sent the next one. *)
Definition bad_log : list box_event :=
  [EReceived [1] 9728000 19456000 friend; EReceived [1] 184320 9728000 liar; EReceived [1] 0 184320 liar].
Definition bad_box : CorruptionBlackBox := foldr run_box CorruptionBlackBox_new bad_log.
Lemma bad_reach : box_reach bad_log bad_box.
Proof. unfold bad_box, bad_log. cbn [foldr]. repeat (apply box_next; [|by intros]). apply box_start. Qed.
Lemma honest_peer_never_banned_witness :
  (corrupted_part [1] 0 9728000 bad_box).1 = [liar] ∧ liar ≠ friend.
Proof.
  assert ((corrupted_part [1] 0 9728000 bad_box).1 = [liar]) as E by (vm_compute; reflexivity). split; [exact E|].
  apply (honest_peer_never_banned (λ i, i = friend) bad_log bad_box [1] 0 9728000 liar bad_reach); [|rewrite E; left].
  intros later earlier h' s e Hl Hse. unfold bad_log in Hl.
  destruct later as [|e1 [|e2 [|e3 [|e4 later]]]]; try discriminate Hl.
  - injection Hl as <- <- <- <-. exists 0. split; [lia|]. intros i Hi. vm_compute in Hi. injection Hi as <-. discriminate.
  - cbn [app] in Hl. injection Hl as _ _ _ _ Hl. by destruct later.
Defined.
Lemma compaction_invents_no_ban_witness :
  length (compact 1 [live_block 0 5 liar; live_block 5 9 liar; live_block 20 22 friend]) = 1%nat ∧
  ∀ ip, ip ∈ ban_list (compact 1 [live_block 0 5 liar; live_block 5 9 liar; live_block 20 22 friend]) →
    ip ∈ ban_list [live_block 0 5 liar; live_block 5 9 liar; live_block 20 22 friend].
Proof.
  split; [vm_compute; reflexivity|].
  apply (compaction_invents_no_ban (λ _ _, True) (λ _, True) 1 [live_block 0 5 liar; live_block 5 9 liar; live_block 20 22 friend] ltac:(lia)).
  constructor; [by apply live_fair|]. constructor; [by apply live_fair|]. constructor; [by apply live_fair|constructor].
Defined.
Lemma blackbox_attribution_witness :
  part_fully_attributed [1] 0 9728000 bad_box = true ∧
  ∀ x, 0 ≤ x < 9728000 → ∃ ip, ip ∈ corrupted_part_contributors [1] 0 9728000 bad_box ∧ last_sender bad_log [1] x = Some ip.
Proof.
  assert (part_fully_attributed [1] 0 9728000 bad_box = true) as E by (vm_compute; reflexivity). split; [exact E|].
  destruct (blackbox_attribution bad_log bad_box [1] 0 9728000 bad_reach) as (_ & _ & _ & H). exact (H E).
Defined.
