(* ===== verification/Reputation.v ===== *)
(** * Reputation of peers

    [ReputationManager] of [network/ember/reputation.rs]: scores and strikes of user
    hashes and of addresses, bans with their expiry, decay, eviction from the full
    tables, and what is made of the saved file.  The clock is an argument, in
    seconds; the JSON text itself is not modelled, its content is. *)
From S2P Require Import Prelude NodeId Addr MapOrder RoutingQuery.
Local Open Scope Z_scope.

Definition MAX_REPUTATION : Z := 1000.
Definition MIN_REPUTATION : Z := -1000.
Definition DEFAULT_REPUTATION : Z := 0.
Definition DECAY_INTERVAL : Z := 3600.
Definition BAN_THRESHOLD : Z := -200.
Definition IP_BAN_THRESHOLD : Z := -400.
Definition BAN_DURATION : Z := 86400.
Definition MAX_TRACKED_PEERS : nat := Z.to_nat 10000.
Definition MAX_TRACKED_IPS : nat := Z.to_nat 10000.
Definition PEERS_EVICT_TARGET : nat := (MAX_TRACKED_PEERS * 9 / 10)%nat.
Definition IPS_EVICT_TARGET : nat := (MAX_TRACKED_IPS * 9 / 10)%nat.

Inductive ReputationEvent := SuccessfulChunk | FailedChunk | CorruptData | Timeout | SuccessfulHandshake | ProtocolViolation.
Definition score_delta (e : ReputationEvent) : Z :=
  match e with
  | SuccessfulChunk => 1
  | FailedChunk => -5
  | CorruptData => -50
  | Timeout => -2
  | SuccessfulHandshake => 3
  | ProtocolViolation => -20
  end.
Definition penalty_delta (e : ReputationEvent) : Z :=
  match e with CorruptData | ProtocolViolation => score_delta e | _ => 0 end.

(** ** One record *)

(** The fields [PeerReputation] and [IpReputation] share. *)
Record Standing := mkStanding { score : Z; penalty : Z; last_interaction : Z; banned_until : option Z }.
Record PeerReputation := mkPeer { node_id : bytes; standing : Standing; successful_transfers : Z; failed_transfers : Z; first_seen : Z }.
Record IpReputation := mkIp { ip_octets : bytes; ip_standing : Standing }.
Definition Standing_new (now : Z) : Standing := mkStanding DEFAULT_REPUTATION 0 now None.
Definition PeerReputation_new (id : bytes) (now : Z) : PeerReputation := mkPeer id (Standing_new now) 0 0 now.
Definition IpReputation_new (ip : bytes) (now : Z) : IpReputation := mkIp ip (Standing_new now).
Definition is_banned (now : Z) (s : Standing) : bool := match banned_until s with Some until => now <? until | None => false end.
Definition apply_to (threshold : Z) (e : ReputationEvent) (now : Z) (s : Standing) : Standing :=
  let delta := score_delta e in
  let sc := clamp MIN_REPUTATION MAX_REPUTATION (score s + delta) in
  let pen := Z.max MIN_REPUTATION (penalty s + penalty_delta e) in
  let banworthy := (sc <=? threshold) || (pen <=? threshold) in
  mkStanding sc pen now
    (if (delta <? 0) && banworthy && negb (is_banned now s) then Some (now + BAN_DURATION) else banned_until s).
Definition apply_event (e : ReputationEvent) (now : Z) (p : PeerReputation) : PeerReputation :=
  mkPeer (node_id p) (apply_to BAN_THRESHOLD e now (standing p))
    (match e with SuccessfulChunk => successful_transfers p + 1 | _ => successful_transfers p end)
    (match e with FailedChunk | CorruptData => failed_transfers p + 1 | _ => failed_transfers p end) (first_seen p).
Definition ip_apply_event (e : ReputationEvent) (now : Z) (p : IpReputation) : IpReputation :=
  mkIp (ip_octets p) (apply_to IP_BAN_THRESHOLD e now (ip_standing p)).

(** [(value as f64 * 0.95.powi(n)).trunc() as i32]: the factor is between 0 and 1, so the
    product lies between 0 and the value. *)
Class DecayScale := {
  decay_scale : Z → Z → Z;
  decay_scale_pos : ∀ v n, 0 < n → 0 ≤ v ≤ MAX_REPUTATION → 0 ≤ decay_scale v n ≤ v;
  decay_scale_neg : ∀ v n, 0 < n → MIN_REPUTATION ≤ v ≤ 0 → v ≤ decay_scale v n ≤ 0;
}.
#[export] Instance DecayScale_exact : DecayScale.
Proof.
  refine {| decay_scale v n := Z.quot (v * 95 ^ n) (100 ^ n) |}.
  - intros v n Hn Hv. assert (0 < 95 ^ n ≤ 100 ^ n) as [H1 H2] by (split; [apply Z.pow_pos_nonneg; lia|apply Z.pow_le_mono_l; lia]).
    split; [apply Z.quot_pos; nia|]. apply Z.quot_le_upper_bound; nia.
  - intros v n Hn Hv. assert (0 < 95 ^ n ≤ 100 ^ n) as [H1 H2] by (split; [apply Z.pow_pos_nonneg; lia|apply Z.pow_le_mono_l; lia]).
    assert (0 ≤ Z.quot (- v * 95 ^ n) (100 ^ n) ≤ - v) as Hq by (split; [apply Z.quot_pos; nia|apply Z.quot_le_upper_bound; nia]).
    replace (v * 95 ^ n) with (- (- v * 95 ^ n)) by ring. rewrite Z.quot_opp_l by lia. lia.
Defined.
Section manager.
Context `{Ord : MapOrder, Uns : UnstableSlice, Dec : DecayScale}.
Definition decayed (value intervals : Z) : Z :=
  if (intervals =? 0) || (value =? 0) then value
  else
    let scaled := decay_scale value (Z.min intervals 10000) in
    clamp MIN_REPUTATION MAX_REPUTATION (if scaled =? value then value - Z.sgn value else scaled).
Definition apply_decay (intervals : Z) (s : Standing) : Standing :=
  mkStanding (decayed (score s) intervals) (decayed (penalty s) intervals) (last_interaction s) (banned_until s).
Definition on_peer (f : Standing → Standing) (p : PeerReputation) : PeerReputation :=
  mkPeer (node_id p) (f (standing p)) (successful_transfers p) (failed_transfers p) (first_seen p).
Definition on_ip (f : Standing → Standing) (p : IpReputation) : IpReputation := mkIp (ip_octets p) (f (ip_standing p)).

(** ** The manager *)
Record ReputationManager := mkManager {
  peers : gmap bytes PeerReputation;
  ips : gmap bytes IpReputation;
  last_decay : Z;
  generation : Z;
}.
Definition ReputationManager_new (now : Z) : ReputationManager := mkManager ∅ ∅ now 0.
Definition touch (m : ReputationManager) : ReputationManager :=
  mkManager (peers m) (ips m) (last_decay m) (Z.min 18446744073709551615 (generation m + 1)).
Definition put_peers (m : ReputationManager) v := mkManager v (ips m) (last_decay m) (generation m).
Definition put_ips (m : ReputationManager) v := mkManager (peers m) v (last_decay m) (generation m).
(** [smallest_by_key]. *)
Definition key_le {A} (key : A → list Z) (a b : A) : bool := bytes_le (key a) (key b).
Definition smallest_by_key {A} (key : A → list Z) (count : nat) (items : list A) : list A :=
  match count with
  | O => []
  | S n => if decide (count < length items)%nat then take count (select_nth (key_le key) n items) else items
  end.
(** The keys, as lists compared from the left: [bool]s and integers, then the id. *)
Definition worth (s : Standing) : Z := Z.min (score s) (penalty s).
Definition ip_key (now : Z) (kv : bytes * IpReputation) : list Z :=
  let s := ip_standing kv.2 in
  [Z.b2z (is_banned now s); Z.b2z (worth s <? 0); Z.abs (worth s); last_interaction s] ++ kv.1.
Definition peer_key (kv : bytes * PeerReputation) : list Z :=
  let s := standing kv.2 in [Z.b2z (worth s <? 0); Z.abs (worth s); last_interaction s] ++ kv.1.
Definition banned_key (kv : bytes * PeerReputation) : list Z := default 0 (banned_until (standing kv.2)) :: kv.1.
Definition delete_all {V} (victims : list (bytes * V)) (m : gmap bytes V) : gmap bytes V := foldl (λ m kv, delete kv.1 m) m victims.
Definition evict_stale_ips (now : Z) (m : ReputationManager) : ReputationManager :=
  if decide (size (ips m) ≤ MAX_TRACKED_IPS)%nat then m
  else put_ips m (delete_all (smallest_by_key (ip_key now) (size (ips m) - IPS_EVICT_TARGET) (map_iter (ips m))) (ips m)).
Definition evict_stale (now : Z) (m : ReputationManager) : ReputationManager :=
  if decide (size (peers m) ≤ MAX_TRACKED_PEERS)%nat then m
  else
    let to_remove := (size (peers m) - PEERS_EVICT_TARGET)%nat in
    let entries := map_iter (peers m) in
    let non_banned := smallest_by_key peer_key to_remove (retain (λ kv : bytes * PeerReputation, negb (is_banned now (standing kv.2))) entries) in
    let ps := delete_all non_banned (peers m) in
    let removed := length non_banned in
    put_peers m
      (if decide (removed < to_remove)%nat
       then delete_all (smallest_by_key banned_key (to_remove - removed) (retain (λ kv : bytes * PeerReputation, is_banned now (standing kv.2)) entries)) ps
       else ps).
Definition record_event (id : bytes) (e : ReputationEvent) (now : Z) (m : ReputationManager) : bool * ReputationManager :=
  let entry := default (PeerReputation_new id now) (peers m !! id) in
  let entry' := apply_event e now entry in
  let m := put_peers m (<[id := entry']> (peers m)) in
  let m := if decide (MAX_TRACKED_PEERS < size (peers m))%nat then evict_stale now m else m in
  (negb (is_banned now (standing entry)) && is_banned now (standing entry'), touch m).
(** The clock is read once by [record_event] and again for the address. *)
Definition record_event_with_ip (id ip : bytes) (e : ReputationEvent) (now_node now : Z) (m : ReputationManager) : bool * bool * ReputationManager :=
  let '(node_banned, m) := record_event id e now_node m in
  let entry := default (IpReputation_new ip now) (ips m !! ip) in
  let entry' := ip_apply_event e now entry in
  let m := put_ips m (<[ip := entry']> (ips m)) in
  let m := if decide (MAX_TRACKED_IPS < size (ips m))%nat then evict_stale_ips now m else m in
  (node_banned, negb (is_banned now (ip_standing entry)) && is_banned now (ip_standing entry'), m).
Definition peer_score (id : bytes) (m : ReputationManager) : Z :=
  match peers m !! id with Some p => score (standing p) | None => DEFAULT_REPUTATION end.
Definition peer_is_banned (id : bytes) (now : Z) (m : ReputationManager) : bool :=
  match peers m !! id with Some p => is_banned now (standing p) | None => false end.
Definition banned_count (now : Z) (m : ReputationManager) : nat :=
  count_if (λ kv : bytes * PeerReputation, is_banned now (standing kv.2)) (map_iter (peers m)).
Definition unban (threshold : Z) (s : Standing) : Standing :=
  mkStanding (if score s <=? threshold then threshold + 1 else score s) (Z.max (penalty s) (threshold + 1)) (last_interaction s) None.
Definition clear_ban (id : bytes) (m : ReputationManager) : bool * ReputationManager :=
  match peers m !! id with
  | Some p => (true, touch (put_peers m (<[id := on_peer (unban BAN_THRESHOLD) p]> (peers m))))
  | None => (false, m)
  end.
Definition clear_ip_ban (ip : bytes) (m : ReputationManager) : bool * ReputationManager :=
  match ips m !! ip with
  | Some p => (true, touch (put_ips m (<[ip := on_ip (unban IP_BAN_THRESHOLD) p]> (ips m))))
  | None => (false, m)
  end.
Definition mirror_node_ban_to_ip (ip : bytes) (now : Z) (m : ReputationManager) : ReputationManager :=
  let entry := default (IpReputation_new ip now) (ips m !! ip) in
  let entry' := on_ip (λ s, mkStanding (score s) (penalty s) now (Some (now + BAN_DURATION))) entry in
  let m := put_ips m (<[ip := entry']> (ips m)) in
  touch (if decide (MAX_TRACKED_IPS < size (ips m))%nat then evict_stale_ips now m else m).
Definition currently_banned_ips (now : Z) (m : ReputationManager) : list bytes :=
  (retain (λ kv : bytes * IpReputation, is_banned now (ip_standing kv.2)) (map_iter (ips m))).*1.
Definition apply_manual_ban (id : bytes) (now : Z) (m : ReputationManager) : ReputationManager :=
  let entry := default (PeerReputation_new id now) (peers m !! id) in
  let entry' := on_peer (λ s, mkStanding (Z.min (score s) BAN_THRESHOLD) (penalty s) now (Some (now + BAN_DURATION))) entry in
  touch (put_peers m (<[id := entry']> (peers m))).
(** [lift_expired_bans]: Rust's [/] truncates. *)
Definition lapsed (now : Z) (s : Standing) : bool := match banned_until s with Some until => until <=? now | None => false end.
Definition lift (threshold now : Z) (s : Standing) : Standing :=
  if lapsed now s
  then mkStanding (Z.max (Z.quot (score s) 2) (threshold + 1)) (Z.max (Z.quot (penalty s) 2) (threshold + 1)) (last_interaction s) None
  else s.
Definition lift_expired_bans (now : Z) (m : ReputationManager) : ReputationManager :=
  let lifted := (count_if (λ kv : bytes * PeerReputation, lapsed now (standing kv.2)) (map_iter (peers m))
                 + count_if (λ kv : bytes * IpReputation, lapsed now (ip_standing kv.2)) (map_iter (ips m)))%nat in
  let m := mkManager (on_peer (lift BAN_THRESHOLD now) <$> peers m) (on_ip (lift IP_BAN_THRESHOLD now) <$> ips m) (last_decay m) (generation m) in
  if decide (0 < lifted)%nat then touch m else m.
Definition decay_intervals (elapsed : Z) : Z := (elapsed / DECAY_INTERVAL) mod 4294967296.
Definition maybe_decay (now : Z) (m : ReputationManager) : ReputationManager :=
  let intervals := decay_intervals (Z.max 0 (now - last_decay m)) in
  if intervals =? 0 then m
  else touch (mkManager (on_peer (apply_decay intervals) <$> peers m) (on_ip (apply_decay intervals) <$> ips m)
                (Z.min 18446744073709551615 (last_decay m + intervals * DECAY_INTERVAL)) (generation m)).

(** ** The saved file *)
Record PersistedReputation := mkPersisted { saved_decay : option Z; saved_peers : list PeerReputation; saved_ips : list IpReputation }.
Definition save (m : ReputationManager) : PersistedReputation :=
  mkPersisted (Some (last_decay m)) (map_iter (peers m)).*2 (map_iter (ips m)).*2.
Definition normalise (max_ban : Z) (s : Standing) : Standing :=
  mkStanding (clamp MIN_REPUTATION MAX_REPUTATION (score s)) (clamp MIN_REPUTATION 0 (penalty s)) (last_interaction s)
    ((λ until, if max_ban <? until then max_ban else until) <$> banned_until s).
(** [load_checked] on a file that could be read and parsed; [saved_decay] is missing from
    the oldest format. *)
Definition load_checked (file : PersistedReputation) (now : Z) : ReputationManager :=
  let max_ban := Z.min 18446744073709551615 (now + (BAN_DURATION + 3600)) in
  let ps := foldl (λ m p, <[node_id p := on_peer (normalise max_ban) p]> m) ∅ (saved_peers file) in
  let addrs := foldl (λ m p, <[ip_octets p := on_ip (normalise max_ban) p]> m) ∅ (saved_ips file) in
  let newest := foldl Z.max 0 ((λ p, last_interaction (standing p)) <$> saved_peers file) in
  let newest := foldl Z.max newest ((λ p, last_interaction (ip_standing p)) <$> saved_ips file) in
  let last_decay := match saved_decay file with Some d => if d <=? now then d else Z.min newest now | None => Z.min newest now end in
  let intervals := decay_intervals (Z.max 0 (now - last_decay)) in
  let m := if 0 <? intervals
           then mkManager (on_peer (apply_decay intervals) <$> ps) (on_ip (apply_decay intervals) <$> addrs) now 0
           else mkManager ps addrs now 0 in
  let m := if decide (MAX_TRACKED_PEERS < size (peers m))%nat then evict_stale now m else m in
  if decide (MAX_TRACKED_IPS < size (ips m))%nat then evict_stale_ips now m else m.
End manager.
