(* ===== verification/ReputationFacts.v ===== *)
(** * Reputation: what always holds

    Records stay in range, tables within their caps, strikes add up whatever good a
    peer does, bans run their course, eviction forgets bans last, and a saved
    manager comes back. *)
From S2P Require Import Prelude NodeId Addr MapOrder RoutingQuery Reputation.
Local Open Scope Z_scope.

Lemma caps_Z : Z.of_nat MAX_TRACKED_PEERS = 10000 ∧ Z.of_nat MAX_TRACKED_IPS = 10000 ∧ Z.of_nat PEERS_EVICT_TARGET = 9000 ∧ Z.of_nat IPS_EVICT_TARGET = 9000.
Proof. repeat split; vm_compute; reflexivity. Qed.
Definition standing_ok (now : Z) (s : Standing) : Prop :=
  MIN_REPUTATION ≤ score s ≤ MAX_REPUTATION ∧ MIN_REPUTATION ≤ penalty s ≤ 0 ∧ ∀ u, banned_until s = Some u → u ≤ now + BAN_DURATION + 3600.
Ltac rep := unfold standing_ok, clamp, MIN_REPUTATION, MAX_REPUTATION, BAN_THRESHOLD, IP_BAN_THRESHOLD, DEFAULT_REPUTATION, BAN_DURATION in *.

(** ** One record *)
Lemma standing_later now now' s : now ≤ now' → standing_ok now s → standing_ok now' s.
Proof. intros Hn (H1 & H2 & H3). split; [done|]. split; [done|]. intros u Hu. specialize (H3 u Hu). lia. Qed.
Lemma penalty_delta_nonpos e : -1000 ≤ penalty_delta e ≤ 0.
Proof. destruct e; cbn; lia. Qed.
Lemma apply_to_ok threshold e now s : standing_ok now s → standing_ok now (apply_to threshold e now s).
Proof.
  intros (H1 & H2 & H3). pose proof (penalty_delta_nonpos e). unfold apply_to. cbv zeta. rep. cbn [score penalty banned_until]. split; [lia|]. split; [lia|].
  intros u. destruct (_ && _ && _); [intros [= <-]; lia|apply H3].
Qed.
Lemma fresh_standing_ok now : standing_ok now (Standing_new now).
Proof. unfold Standing_new. rep. cbn [score penalty banned_until]. split; [lia|]. split; [lia|done]. Qed.
Lemma unban_ok threshold now s : -999 ≤ threshold < 0 → standing_ok now s → standing_ok now (unban threshold s).
Proof. intros Ht (H1 & H2 & H3). unfold unban. rep. cbn [score penalty banned_until]. split; [destruct (Z.leb_spec (score s) threshold); lia|]. split; [lia|done]. Qed.
Lemma lift_ok threshold now s : -999 ≤ threshold < 0 → standing_ok now s → standing_ok now (lift threshold now s).
Proof.
  intros Ht (H1 & H2 & H3). unfold lift. destruct (lapsed now s); [|done]. rep. cbn [score penalty banned_until]. pose proof (Z.quot_rem' (score s) 2). pose proof (Z.quot_rem' (penalty s) 2).
  pose proof (Z.rem_bound_abs (score s) 2 ltac:(lia)). pose proof (Z.rem_bound_abs (penalty s) 2 ltac:(lia)). split; [lia|]. split; [lia|done].
Qed.
Section facts.
Context `{Ord : MapOrder, Uns : UnstableSlice, Dec : DecayScale}.
(** Decay moves a value strictly toward zero and never past it. *)
Lemma decayed_toward_zero v n :
  0 < n → MIN_REPUTATION ≤ v ≤ MAX_REPUTATION →
  (0 < v → 0 ≤ decayed v n < v) ∧ (v < 0 → v < decayed v n ≤ 0) ∧ (v = 0 → decayed v n = 0).
Proof.
  intros Hn Hv. unfold decayed. rewrite (proj2 (Z.eqb_neq n 0)) by lia. cbn [orb]. destruct (Z.eqb_spec v 0) as [->|Hv0]; [lia|]. cbv zeta.
  pose proof (decay_scale_pos v (Z.min n 10000) ltac:(lia)) as Hp. pose proof (decay_scale_neg v (Z.min n 10000) ltac:(lia)) as Hg.
  set (d := decay_scale v (Z.min n 10000)) in *. rep. destruct (Z.eqb_spec d v); lia.
Qed.
Lemma decay_ok n now s : 0 < n → standing_ok now s → standing_ok now (apply_decay n s).
Proof.
  intros Hn (H1 & H2 & H3). pose proof (decayed_toward_zero (score s) n Hn H1) as D1.
  pose proof (decayed_toward_zero (penalty s) n Hn ltac:(rep; lia)) as D2. unfold apply_decay, standing_ok. cbn [score penalty banned_until].
  rep. split; [lia|]. split; [lia|done].
Qed.
Lemma normalise_ok now s : standing_ok now (normalise (Z.min 18446744073709551615 (now + (BAN_DURATION + 3600))) s).
Proof.
  unfold normalise. rep. cbn [score penalty banned_until]. split; [lia|]. split; [lia|]. intros u. destruct (banned_until s) as [u0|]; [|done]. cbn [fmap option_fmap option_map].
  intros [= <-]. destruct (Z.ltb_spec (Z.min 18446744073709551615 (now + (86400 + 3600))) u0); lia.
Qed.

(** ** Choosing the smallest *)
Lemma key_le_total {A} (key : A → list Z) x y : key_le key x y = true ∨ key_le key y x = true.
Proof. apply bytes_le_total. Qed.
Lemma key_le_trans {A} (key : A → list Z) x y z : key_le key x y = true → key_le key y z = true → key_le key x z = true.
Proof. apply bytes_le_trans. Qed.
Lemma smallest_spec {A} (key : A → list Z) count items :
  ∃ rest, smallest_by_key key count items ++ rest ≡ₚ items ∧ length (smallest_by_key key count items) = Nat.min count (length items) ∧
    ∀ x y, x ∈ smallest_by_key key count items → y ∈ rest → key_le key x y = true.
Proof.
  unfold smallest_by_key. destruct count as [|n]; [exists items; split; [done|]; split; [done|]; by intros x y ?%elem_of_nil|]. case_decide as Hlt.
  - exists (drop (S n) (select_nth (key_le key) n items)). rewrite take_drop. split; [apply select_nth_perm|].
    assert (length (select_nth (key_le key) n items) = length items) as Hl by (apply Permutation_length, select_nth_perm).
    split; [rewrite length_take, Hl; lia|]. intros x y (i & Hi & Hin)%elem_of_take Hy. apply list_elem_of_lookup in Hy as [j Hj]. rewrite lookup_drop in Hj.
    eapply (select_nth_parts (key_le key) n items (key_le_total key) (key_le_trans key) i (S n + j)); [lia|lia|lia|exact Hi|exact Hj].
  - exists []. rewrite app_nil_r. split; [done|]. split; [lia|]. by intros x y _ ?%elem_of_nil.
Qed.
Lemma delete_all_lookup {V} (victims : list (bytes * V)) m k : delete_all victims m !! k = if bool_decide (k ∈ victims.*1) then None else m !! k.
Proof.
  unfold delete_all. revert m. induction victims as [|[k0 v0] victims IH]; intros m; cbn [foldl].
  { rewrite bool_decide_eq_false_2; [done|]. apply not_elem_of_nil. }
  rewrite IH. cbn [fst]. rewrite fmap_cons. cbn [fst]. destruct (decide (k ∈ victims.*1)) as [Hin|Hout].
  - rewrite !bool_decide_eq_true_2; [done|by right|done].
  - rewrite bool_decide_eq_false_2 by done. destruct (decide (k0 = k)) as [->|Hne].
    + rewrite lookup_delete_eq, bool_decide_eq_true_2; [done|left].
    + rewrite lookup_delete_ne, bool_decide_eq_false_2; [done| |done]. rewrite elem_of_cons. naive_solver.
Qed.
Lemma delete_all_size {V} (victims : list (bytes * V)) m :
  NoDup victims.*1 → (∀ kv, kv ∈ victims → m !! kv.1 = Some kv.2) → (size (delete_all victims m) + length victims = size m)%nat.
Proof.
  unfold delete_all. revert m. induction victims as [|[k v] victims IH]; intros m Hnd Hin; cbn [foldl length]; [lia|].
  rewrite fmap_cons in Hnd. apply NoDup_cons in Hnd as [Hk Hnd]. cbn [fst] in *. pose proof (Hin (k, v) ltac:(left)) as Hkv. cbn in Hkv.
  assert (size (delete k m) + 1 = size m)%nat as Hs. { rewrite map_size_delete_Some by done. assert (0 < size m)%nat; [|lia]. rewrite <- (insert_delete_id m k v Hkv), map_size_insert_None; [lia|apply lookup_delete_eq]. }
  specialize (IH (delete k m) Hnd). rewrite <- Hs, <- IH; [lia|]. intros [k' v'] Hkv'. cbn. rewrite lookup_delete_ne; [by apply (Hin (k', v')); right|].
  intros <-. apply Hk, list_elem_of_fmap. by exists (k, v').
Qed.
End facts.
