(* ===== verification/ReputationInv.v ===== *)
(** * Reputation: eviction and the invariant

    What the two eviction passes keep, histories of a manager, and the invariant every
    operation preserves. *)
From S2P Require Import Prelude NodeId Addr MapOrder RoutingQuery Reputation ReputationFacts.
Local Open Scope Z_scope.
Local Opaque MAX_TRACKED_PEERS MAX_TRACKED_IPS PEERS_EVICT_TARGET IPS_EVICT_TARGET.

Section claims.
Context `{Ord : MapOrder, Uns : UnstableSlice, Dec : DecayScale}.

(** ** Eviction *)
Lemma retained_nodup {V} (p : bytes * V → bool) (m : gmap bytes V) : NoDup (retain p (map_iter m)).*1.
Proof. apply (sublist_NoDup _ (map_iter m).*1); [apply NoDup_fst_map_iter|]. by apply fmap_sublist, retain_sublist. Qed.
(** What is chosen of a part of the table is in the table, under distinct ids; all of the
    part is chosen when as many are wanted. *)
Lemma chosen_spec {V} (key : bytes * V → list Z) (count : nat) (p : bytes * V → bool) (m : gmap bytes V) :
  let out := smallest_by_key key count (retain p (map_iter m)) in
  NoDup out.*1 ∧ (∀ kv, kv ∈ out → m !! kv.1 = Some kv.2 ∧ p kv = true) ∧ length out = Nat.min count (count_if p (map_iter m)) ∧
  (∀ x k v, x ∈ out → m !! k = Some v → p (k, v) = true → k ∉ out.*1 → key_le key x (k, v) = true) ∧
  ((count_if p (map_iter m) ≤ count)%nat → ∀ k v, m !! k = Some v → p (k, v) = true → k ∈ out.*1).
Proof.
  intros out. destruct (smallest_spec key count (retain p (map_iter m))) as (rest & Hp & Hl & Hle). fold out in Hp, Hl, Hle.
  assert (∀ kv, kv ∈ out ++ rest ↔ kv ∈ retain p (map_iter m)) as Hiff by (intros kv; by rewrite Hp).
  assert (∀ k v, m !! k = Some v → p (k, v) = true → (k, v) ∈ out ++ rest) as Hback.
  { intros k v Hk Hpv. apply Hiff, elem_of_retain. split; [done|]. by apply elem_of_map_iter. }
  split; [|split; [|split; [exact Hl|split]]].
  - assert (NoDup (out ++ rest).*1) as Hnd by (rewrite Hp; apply retained_nodup). rewrite fmap_app in Hnd. by apply NoDup_app in Hnd as [? _].
  - intros [k v] Hin. assert ((k, v) ∈ retain p (map_iter m)) as Hr by (apply Hiff, elem_of_app; by left). apply elem_of_retain in Hr as [Hpv Hr].
    by apply elem_of_map_iter in Hr.
  - intros x k v Hx Hk Hpv Hno. apply Hle; [done|]. destruct (proj1 (elem_of_app _ _ _) (Hback k v Hk Hpv)) as [Hin|Hin]; [|done].
    destruct Hno. apply list_elem_of_fmap. by exists (k, v).
  - intros Hall k v Hk Hpv. assert (rest = []) as Hrest.
    { apply Permutation_length in Hp. rewrite length_app in Hp. unfold count_if in Hall. apply length_zero_iff_nil. lia. }
    specialize (Hback k v Hk Hpv). rewrite Hrest, app_nil_r in Hback. apply list_elem_of_fmap. by exists (k, v).
Qed.
(** Removing one list of entries, and a second one when the first was too short. *)
Lemma two_phase_lookup {V} (n : nat) (o1 o2 : list (bytes * V)) m id :
  let m' := if decide (length o1 < n)%nat then delete_all o2 (delete_all o1 m) else delete_all o1 m in
  (∀ p, m' !! id = Some p → m !! id = Some p ∧ id ∉ o1.*1 ∧ ((length o1 < n)%nat → id ∉ o2.*1)) ∧
  (∀ p, m !! id = Some p → m' !! id = None → id ∈ o1.*1 ∨ (length o1 < n)%nat ∧ id ∈ o2.*1).
Proof.
  cbv zeta. destruct (decide (length o1 < n)%nat) as [Hlt|Hge]; rewrite !delete_all_lookup; repeat case_bool_decide;
    (split; intros p Hp; [try discriminate; auto with lia|intros E; try (by left); try (by right); congruence]).
Qed.
Lemma retain_true {A} (l : list A) : retain (λ _, true) l = l.
Proof. apply retain_all, Forall_forall. done. Qed.
Lemma count_split {A} (p : A → bool) l : (count_if p l + count_if (λ x, negb (p x)) l = length l)%nat.
Proof. induction l as [|x l IH]; [done|]. rewrite !count_if_cons. cbn [length]. destruct (p x); cbn [negb]; lia. Qed.
(** The peers left, and who they are. *)
Lemma evict_stale_spec now m :
  (MAX_TRACKED_PEERS < size (peers m))%nat →
  let m' := evict_stale now m in
  size (peers m') = PEERS_EVICT_TARGET ∧ ips m' = ips m ∧ last_decay m' = last_decay m ∧ generation m' = generation m ∧
  (∀ id p, peers m' !! id = Some p → peers m !! id = Some p) ∧
  (∀ id p id' p', peers m !! id = Some p → peers m' !! id = None → peers m' !! id' = Some p' →
     (is_banned now (standing p) = true → is_banned now (standing p') = true) ∧
     (is_banned now (standing p) = is_banned now (standing p') →
      if is_banned now (standing p) then key_le banned_key (id, p) (id', p') = true else key_le peer_key (id, p) (id', p') = true)).
Proof.
  intros Hbig. unfold evict_stale. rewrite decide_False by lia. cbv zeta. set (banned := λ kv : bytes * PeerReputation, is_banned now (standing kv.2)).
  change (λ kv : bytes * PeerReputation, negb (is_banned now (standing kv.2))) with (λ kv, negb (banned kv)).
  destruct caps_Z as (Z1 & _ & Z3 & _). assert (∃ n, n = size (peers m) - PEERS_EVICT_TARGET)%nat as [n Hn] by eauto. rewrite <- Hn.
  destruct (chosen_spec peer_key n (λ kv, negb (banned kv)) (peers m)) as (A1 & A2 & A3 & A4 & A5). set (o1 := smallest_by_key peer_key n _) in *. clearbody o1.
  destruct (chosen_spec banned_key (n - length o1) banned (peers m)) as (B1 & B2 & B3 & B4 & _). set (o2 := smallest_by_key banned_key _ _) in *. clearbody o2.
  pose proof (count_split banned (map_iter (peers m))) as Hcs. rewrite length_map_iter in Hcs.
  assert (size (delete_all o1 (peers m)) + length o1 = size (peers m))%nat as S1 by (apply delete_all_size; [done|]; intros kv Hkv; by apply A2).
  assert (∀ k, k ∈ o2.*1 → k ∉ o1.*1) as Hdis.
  { intros k ([k1 v1] & -> & H1)%list_elem_of_fmap ([k2 v2] & E & H2)%list_elem_of_fmap. cbn in E. subst k2. apply B2 in H1 as [E1 F1]. apply A2 in H2 as [E2 F2]. cbn in E1, E2.
    rewrite E1 in E2. injection E2 as <-. rewrite F1 in F2. done. }
  assert (size (delete_all o2 (delete_all o1 (peers m))) + length o2 = size (delete_all o1 (peers m)))%nat as S2.
  { apply delete_all_size; [done|]. intros kv Hkv. rewrite delete_all_lookup, bool_decide_eq_false_2; [by apply B2|]. apply Hdis, list_elem_of_fmap. exists kv. split; [reflexivity|exact Hkv]. }
  pose proof (two_phase_lookup n o1 o2 (peers m)) as Hph. cbv zeta in Hph.
  cbn [put_peers peers ips last_decay generation]. split; [|split; [done|split; [done|split; [done|split]]]].
  - destruct (decide (length o1 < n)%nat); lia.
  - intros id p Hp. by apply (Hph id) in Hp as [? _].
  - intros id p id' p' Hp Hnone Hp'. destruct (proj1 (Hph id') p' Hp') as (K1 & K2 & K3). destruct (proj2 (Hph id) p Hp Hnone) as [H1|[Hlt H2]].
    + apply list_elem_of_fmap in H1 as ([k v] & -> & Hin). destruct (A2 _ Hin) as [E1 F1]. cbn in E1, Hp. rewrite E1 in Hp. injection Hp as ->.
      unfold banned in F1. cbn in F1. apply negb_true_iff in F1. rewrite F1. split; [done|]. intros Eq. apply (A4 _ _ _ Hin K1); [|done]. unfold banned. cbn. by rewrite <- Eq.
    + apply list_elem_of_fmap in H2 as ([k v] & -> & Hin). destruct (B2 _ Hin) as [E1 F1]. cbn in E1, Hp. rewrite E1 in Hp. injection Hp as ->.
      unfold banned in F1. cbn in F1. rewrite F1.
      assert (is_banned now (standing p') = true) as Fp'.
      { destruct (is_banned now (standing p')) eqn:E; [done|]. destruct K2. apply (A5 ltac:(lia) _ _ K1). unfold banned. cbn. by rewrite E. }
      split; [done|]. intros _. apply (B4 _ _ _ Hin K1); [done|]. by apply K3.
Qed.
(** The same for addresses. *)
Lemma evict_stale_ips_spec now m :
  (MAX_TRACKED_IPS < size (ips m))%nat →
  let m' := evict_stale_ips now m in
  size (ips m') = IPS_EVICT_TARGET ∧ (∀ ip p, ips m' !! ip = Some p → ips m !! ip = Some p) ∧
  (∀ ip p ip' p', ips m !! ip = Some p → ips m' !! ip = None → ips m' !! ip' = Some p' → key_le (ip_key now) (ip, p) (ip', p') = true).
Proof.
  intros Hbig. unfold evict_stale_ips. rewrite decide_False by lia. cbv zeta.
  assert (∃ n, n = size (ips m) - IPS_EVICT_TARGET)%nat as [n Hn] by eauto. rewrite <- Hn.
  pose proof (chosen_spec (ip_key now) n (λ _, true) (ips m)) as Hch. rewrite retain_true in Hch. cbv zeta in Hch. destruct Hch as (A1 & A2 & A3 & A4 & _).
  set (o := smallest_by_key _ _ _) in *. clearbody o. unfold count_if in A3. rewrite retain_true, length_map_iter in A3. cbn [put_ips ips].
  assert (size (delete_all o (ips m)) + length o = size (ips m))%nat as S1 by (apply delete_all_size; [done|]; intros kv Hkv; by apply A2).
  split; [pose proof caps_Z; lia|]. clear Hn A3 S1 Hbig. split; [intros ip p; rewrite delete_all_lookup; by case_bool_decide|]. intros ip p ip' p' Hp Hnone Hp'. rewrite delete_all_lookup in Hnone, Hp'.
  case_bool_decide as H2; [discriminate|]. case_bool_decide as H1; [|rewrite Hp in Hnone; discriminate]. apply list_elem_of_fmap in H1 as ([k v] & -> & Hin).
  destruct (A2 _ Hin) as [E1 _]. cbn in E1, Hp. rewrite E1 in Hp. injection Hp as ->. by apply (A4 _ _ _ Hin Hp').
Qed.
(** Eviction that is called for only when needed: what it leaves. *)
Lemma evict_peers_if now m :
  let m' := if decide (MAX_TRACKED_PEERS < size (peers m))%nat then evict_stale now m else m in
  (size (peers m') ≤ MAX_TRACKED_PEERS)%nat ∧ ips m' = ips m ∧ last_decay m' = last_decay m ∧ generation m' = generation m ∧
  (∀ id p, peers m' !! id = Some p → peers m !! id = Some p) ∧ ((size (peers m) ≤ MAX_TRACKED_PEERS)%nat → m' = m).
Proof.
  destruct caps_Z as (Z1 & _ & Z3 & _). cbv zeta. destruct (decide (MAX_TRACKED_PEERS < size (peers m))%nat) as [Hd|Hd].
  - destruct (evict_stale_spec now m Hd) as (H1 & H2 & H3 & H4 & H5 & _). split; [lia|]. split; [exact H2|]. split; [exact H3|]. split; [exact H4|]. split; [exact H5|lia].
  - split; [lia|]. split; [reflexivity|]. split; [reflexivity|]. split; [reflexivity|]. split; auto.
Qed.
Lemma evict_ips_if now m :
  let m' := if decide (MAX_TRACKED_IPS < size (ips m))%nat then evict_stale_ips now m else m in
  (size (ips m') ≤ MAX_TRACKED_IPS)%nat ∧ peers m' = peers m ∧ last_decay m' = last_decay m ∧ generation m' = generation m ∧
  (∀ ip p, ips m' !! ip = Some p → ips m !! ip = Some p).
Proof.
  destruct caps_Z as (_ & Z2 & _ & Z4). cbv zeta. destruct (decide (MAX_TRACKED_IPS < size (ips m))%nat) as [Hd|Hd].
  - destruct (evict_stale_ips_spec now m Hd) as (H1 & H2 & _). split; [lia|]. unfold evict_stale_ips in *. rewrite decide_False in * by lia.
    split; [reflexivity|]. split; [reflexivity|]. split; [reflexivity|exact H2].
  - split; [lia|]. split; [reflexivity|]. split; [reflexivity|]. split; [reflexivity|auto].
Qed.

(** ** Histories *)

(** [lag] is what the clock moves between the two readings of [record_event_with_ip]. *)
Inductive rep_op :=
  | RecordEvent (id : bytes) (e : ReputationEvent)
  | RecordWithIp (id ip : bytes) (e : ReputationEvent) (lag : nat)
  | ClearBan (id : bytes)
  | ClearIpBan (ip : bytes)
  | MirrorBan (ip : bytes)
  | ManualBan (id : bytes)
  | LiftExpired
  | MaybeDecay.
Definition rep_step (now : Z) (op : rep_op) (m : ReputationManager) : ReputationManager :=
  match op with
  | RecordEvent id e => (record_event id e now m).2
  | RecordWithIp id ip e lag => (record_event_with_ip id ip e now (now + Z.of_nat lag) m).2
  | ClearBan id => (clear_ban id m).2
  | ClearIpBan ip => (clear_ip_ban ip m).2
  | MirrorBan ip => mirror_node_ban_to_ip ip now m
  | ManualBan id => apply_manual_ban id now m
  | LiftExpired => lift_expired_bans now m
  | MaybeDecay => maybe_decay now m
  end.
(** The manual bans since an event was last recorded. *)
Definition manual_bans (op : rep_op) (k : nat) : nat :=
  match op with RecordEvent _ _ | RecordWithIp _ _ _ _ => 0%nat | ManualBan _ => S k | _ => k end.
(** The clock's last reading in an operation that starts at [now]. *)
Definition op_clock (now : Z) (op : rep_op) : Z :=
  match op with RecordWithIp _ _ _ lag => now + Z.of_nat lag | _ => now end.
Inductive rep_reach : Z → nat → ReputationManager → Prop :=
  | reach_new now : rep_reach now 0 (ReputationManager_new now)
  | reach_load file now : rep_reach now 0 (load_checked file now)
  | reach_step now now' k op m : now ≤ now' → rep_reach now k m → rep_reach (op_clock now' op) (manual_bans op k) (rep_step now' op m).

(** ** The invariant *)
Definition peers_ok (now : Z) (t : gmap bytes PeerReputation) : Prop := ∀ id p, t !! id = Some p → node_id p = id ∧ standing_ok now (standing p).
Definition ips_ok (now : Z) (t : gmap bytes IpReputation) : Prop := ∀ ip p, t !! ip = Some p → ip_octets p = ip ∧ standing_ok now (ip_standing p).
Definition rep_ok (now : Z) (k : nat) (m : ReputationManager) : Prop :=
  peers_ok now (peers m) ∧ ips_ok now (ips m) ∧ last_decay m ≤ now ∧ (size (peers m) ≤ MAX_TRACKED_PEERS + k)%nat ∧ (size (ips m) ≤ MAX_TRACKED_IPS)%nat.

Lemma peers_insert_ok now t id p : node_id p = id → standing_ok now (standing p) → peers_ok now t → peers_ok now (<[id := p]> t).
Proof. intros H1 H2 Ht id' p'. rewrite lookup_insert_Some. intros [[<- <-]|[_ H]]; [by split|by apply Ht]. Qed.
Lemma ips_insert_ok now t ip p : ip_octets p = ip → standing_ok now (ip_standing p) → ips_ok now t → ips_ok now (<[ip := p]> t).
Proof. intros H1 H2 Ht ip' p'. rewrite lookup_insert_Some. intros [[<- <-]|[_ H]]; [by split|by apply Ht]. Qed.
Lemma peers_fmap_ok now f t : (∀ s, standing_ok now s → standing_ok now (f s)) → peers_ok now t → peers_ok now (on_peer f <$> t).
Proof. intros Hf Ht id p. rewrite lookup_fmap_Some. intros (p0 & <- & Hp). destruct (Ht id p0 Hp) as [H1 H2]. split; [done|by apply Hf]. Qed.
Lemma ips_fmap_ok now f t : (∀ s, standing_ok now s → standing_ok now (f s)) → ips_ok now t → ips_ok now (on_ip f <$> t).
Proof. intros Hf Ht id p. rewrite lookup_fmap_Some. intros (p0 & <- & Hp). destruct (Ht id p0 Hp) as [H1 H2]. split; [done|by apply Hf]. Qed.
Lemma peers_sub_ok now t t' : (∀ id p, t' !! id = Some p → t !! id = Some p) → peers_ok now t → peers_ok now t'.
Proof. intros Hs Ht id p Hp. by apply Ht, Hs. Qed.
Lemma ips_sub_ok now t t' : (∀ id p, t' !! id = Some p → t !! id = Some p) → ips_ok now t → ips_ok now t'.
Proof. intros Hs Ht id p Hp. by apply Ht, Hs. Qed.
Lemma peer_entry_ok now t id : peers_ok now t → node_id (default (PeerReputation_new id now) (t !! id)) = id ∧ standing_ok now (standing (default (PeerReputation_new id now) (t !! id))).
Proof. intros Ht. destruct (t !! id) as [p|] eqn:E; [by apply Ht|]. split; [done|apply fresh_standing_ok]. Qed.
Lemma ip_entry_ok now t ip : ips_ok now t → ip_octets (default (IpReputation_new ip now) (t !! ip)) = ip ∧ standing_ok now (ip_standing (default (IpReputation_new ip now) (t !! ip))).
Proof. intros Ht. destruct (t !! ip) as [p|] eqn:E; [by apply Ht|]. split; [done|apply fresh_standing_ok]. Qed.
Lemma rep_later now now' k m : now ≤ now' → rep_ok now k m → rep_ok now' k m.
Proof.
  intros Hn (H1 & H2 & H3 & H4). split; [|split; [|split; [lia|done]]]; intros i p Hp; [destruct (H1 i p Hp)|destruct (H2 i p Hp)]; (split; [done|]); by apply (standing_later now).
Qed.
Lemma insert_size_le {V} (t : gmap bytes V) i v : (size (<[i := v]> t) ≤ S (size t))%nat.
Proof. destruct (t !! i) as [w|] eqn:E; [rewrite map_size_insert_Some by eauto; lia|rewrite map_size_insert_None by done; lia]. Qed.
Lemma insert_size_hit {V} (t : gmap bytes V) i v w : t !! i = Some w → size (<[i := v]> t) = size t.
Proof. intros H. apply map_size_insert_Some. eauto. Qed.
Lemma banned_ok now s : standing_ok now s → standing_ok now (mkStanding (score s) (penalty s) now (Some (now + BAN_DURATION))).
Proof. intros (H1 & H2 & H3). rep. cbn [score penalty banned_until]. split; [lia|]. split; [lia|]. intros u [= <-]. lia. Qed.
Lemma manual_ok now s : standing_ok now s → standing_ok now (mkStanding (Z.min (score s) BAN_THRESHOLD) (penalty s) now (Some (now + BAN_DURATION))).
Proof. intros (H1 & H2 & H3). rep. cbn [score penalty banned_until]. split; [lia|]. split; [lia|]. intros u [= <-]. lia. Qed.

(** ** Each operation *)
Lemma record_event_ok now k id e m : rep_ok now k m → rep_ok now 0 (record_event id e now m).2.
Proof.
  intros (H1 & H2 & H3 & H4 & H5). unfold record_event. cbv zeta. cbn [snd]. destruct (peer_entry_ok now (peers m) id H1) as [E1 E2]. set (entry := default _ _) in *. clearbody entry.
  set (m1 := put_peers m _). assert (peers_ok now (peers m1)) as Hp1 by (apply peers_insert_ok; [done|by apply apply_to_ok|done]).
  destruct (evict_peers_if now m1) as (S1 & S2 & S3 & _ & S5 & _). cbv zeta in *. set (m2 := if decide _ then _ else _) in *. clearbody m2.
  unfold rep_ok, touch. cbn [peers ips last_decay]. split; [by apply (peers_sub_ok now (peers m1))|]. rewrite S2, S3. split; [exact H2|]. split; [exact H3|]. split; [lia|exact H5].
Qed.
Lemma put_ip_ok now k m ip p : rep_ok now k m → ip_octets p = ip → standing_ok now (ip_standing p) →
  let m1 := put_ips m (<[ip := p]> (ips m)) in rep_ok now k (if decide (MAX_TRACKED_IPS < size (ips m1))%nat then evict_stale_ips now m1 else m1).
Proof.
  intros (H1 & H2 & H3 & H4 & H5) E1 E2 m1. assert (ips_ok now (ips m1)) as Hp1 by (by apply ips_insert_ok).
  destruct (evict_ips_if now m1) as (S1 & S2 & S3 & _ & S5). cbv zeta in *. set (m2 := if decide _ then _ else _) in *. clearbody m2. unfold rep_ok. rewrite S2, S3.
  split; [exact H1|]. split; [by apply (ips_sub_ok now (ips m1))|]. split; [exact H3|]. split; [exact H4|exact S1].
Qed.
Lemma record_event_with_ip_ok now0 now k id ip e m :
  now0 ≤ now → rep_ok now0 k m → rep_ok now 0 (record_event_with_ip id ip e now0 now m).2.
Proof.
  intros Hn H. apply (record_event_ok now0 k id e), (rep_later _ now) in H; [|done].
  unfold record_event_with_ip. destruct (record_event id e now0 m) as [nb m1]. cbv zeta. cbn [snd] in *.
  destruct (ip_entry_ok now (ips m1) ip ltac:(apply H)) as [E1 E2]. apply put_ip_ok; [exact H|exact E1|by apply apply_to_ok].
Qed.
Lemma rep_step_ok now k op m : rep_ok now k m → rep_ok (op_clock now op) (manual_bans op k) (rep_step now op m).
Proof.
  intros H. pose proof H as (H1 & H2 & H3 & H4 & H5). destruct op as [id e|id ip e lag|id|ip|ip|id| |]; cbn [rep_step manual_bans op_clock].
  - by apply (record_event_ok now k).
  - apply (record_event_with_ip_ok now _ k); [lia|done].
  - unfold clear_ban. destruct (peers m !! id) as [p|] eqn:E; [|exact H]. destruct (H1 id p E) as [E1 E2]. cbn [snd]. unfold rep_ok, touch, put_peers. cbn [peers ips last_decay].
    rewrite (insert_size_hit _ _ _ _ E). split; [|done]. apply peers_insert_ok; [done|by apply unban_ok|done].
  - unfold clear_ip_ban. destruct (ips m !! ip) as [p|] eqn:E; [|exact H]. destruct (H2 ip p E) as [E1 E2]. cbn [snd]. unfold rep_ok, touch, put_ips. cbn [peers ips last_decay].
    rewrite (insert_size_hit _ _ _ _ E). split; [done|]. split; [|done]. apply ips_insert_ok; [done|by apply unban_ok|done].
  - unfold mirror_node_ban_to_ip. cbv zeta. destruct (ip_entry_ok now (ips m) ip H2) as [E1 E2]. unfold rep_ok, touch. cbn [peers ips last_decay].
    apply put_ip_ok; [exact H|exact E1|by apply banned_ok].
  - unfold apply_manual_ban. cbv zeta. destruct (peer_entry_ok now (peers m) id H1) as [E1 E2]. unfold rep_ok, touch, put_peers. cbn [peers ips last_decay].
    split; [apply peers_insert_ok; [exact E1|by apply manual_ok|exact H1]|]. split; [exact H2|]. split; [exact H3|]. split; [|exact H5].
    match goal with |- (size (<[_ := ?v]> _) ≤ _)%nat => pose proof (insert_size_le (peers m) id v) end. lia.
  - unfold lift_expired_bans. cbv zeta. match goal with |- rep_ok _ _ (if _ then touch ?x else ?x) => assert (rep_ok now k x) as Hx; [|by case_decide] end.
    unfold rep_ok. cbn [peers ips last_decay]. rewrite !map_size_fmap. split; [apply peers_fmap_ok; [intros s; by apply lift_ok|exact H1]|].
    split; [apply ips_fmap_ok; [intros s; by apply lift_ok|exact H2]|done].
  - unfold maybe_decay. cbv zeta. destruct (Z.eqb_spec (decay_intervals (Z.max 0 (now - last_decay m))) 0) as [_|Hne]; [exact H|].
    assert (0 < decay_intervals (Z.max 0 (now - last_decay m)) ∧ decay_intervals (Z.max 0 (now - last_decay m)) * DECAY_INTERVAL ≤ Z.max 0 (now - last_decay m)) as [Hi Hle].
    { unfold decay_intervals, DECAY_INTERVAL in *. set (el := Z.max 0 (now - last_decay m)) in *. assert (0 ≤ el / 3600) by (apply Z.div_pos; lia).
      pose proof (Z.mod_le (el / 3600) 4294967296 ltac:(lia) ltac:(lia)). pose proof (Z.mod_pos_bound (el / 3600) 4294967296 ltac:(lia)). pose proof (Z.mul_div_le el 3600 ltac:(lia)). lia. }
    set (n := decay_intervals _) in *. clearbody n. unfold rep_ok, touch. cbn [peers ips last_decay]. rewrite !map_size_fmap.
    split; [apply peers_fmap_ok; [intros s; by apply decay_ok|exact H1]|]. split; [apply ips_fmap_ok; [intros s; by apply decay_ok|exact H2]|]. split; [lia|done].
Qed.
End claims.
