(* ===== verification/ReputationSafety.v ===== *)
(** * Reputation: the claims

    Records stay in range and tables within their caps on every history, eviction
    forgets bans last, goodwill does not offset strikes, a ban runs its course, the
    change counter misses nothing, and a restart is the decay that was due. *)
From S2P Require Import Prelude NodeId Addr MapOrder RoutingQuery Reputation ReputationFacts ReputationInv.
Local Open Scope Z_scope.
Local Opaque MAX_TRACKED_PEERS MAX_TRACKED_IPS PEERS_EVICT_TARGET IPS_EVICT_TARGET.

Section claims.
Context `{Ord : MapOrder, Uns : UnstableSlice, Dec : DecayScale}.

(** ** Loading *)
Lemma load_peers_ok now (l : list PeerReputation) t :
  peers_ok now t → peers_ok now (foldl (λ m p, <[node_id p := on_peer (normalise (Z.min 18446744073709551615 (now + (BAN_DURATION + 3600)))) p]> m) t l).
Proof. revert t. induction l as [|p l IH]; intros t Ht; [done|]. cbn [foldl]. apply IH, peers_insert_ok; [done|apply normalise_ok|done]. Qed.
Lemma load_ips_ok now (l : list IpReputation) t :
  ips_ok now t → ips_ok now (foldl (λ m p, <[ip_octets p := on_ip (normalise (Z.min 18446744073709551615 (now + (BAN_DURATION + 3600)))) p]> m) t l).
Proof. revert t. induction l as [|p l IH]; intros t Ht; [done|]. cbn [foldl]. apply IH, ips_insert_ok; [done|apply normalise_ok|done]. Qed.
Lemma cap_tables_ok now m : peers_ok now (peers m) → ips_ok now (ips m) → last_decay m ≤ now →
  let m1 := if decide (MAX_TRACKED_PEERS < size (peers m))%nat then evict_stale now m else m in
  rep_ok now 0 (if decide (MAX_TRACKED_IPS < size (ips m1))%nat then evict_stale_ips now m1 else m1).
Proof.
  intros H1 H2 H3. destruct (evict_peers_if now m) as (S1 & S2 & S3 & _ & S5 & _). cbv zeta in *. set (m1 := if decide _ then _ else _) in *. clearbody m1.
  destruct (evict_ips_if now m1) as (T1 & T2 & T3 & _ & T5). cbv zeta in *. set (m2 := if decide _ then _ else _) in *. clearbody m2.
  unfold rep_ok. rewrite T2, T3, S3. split; [by apply (peers_sub_ok now (peers m))|]. split; [apply (ips_sub_ok now (ips m1)); [done|]; by rewrite S2|].
  split; [exact H3|]. split; [lia|exact T1].
Qed.
Lemma load_ok file now : rep_ok now 0 (load_checked file now).
Proof.
  unfold load_checked. cbv zeta. set (ps := foldl _ ∅ (saved_peers file)). set (addrs := foldl _ ∅ (saved_ips file)).
  assert (peers_ok now ps) as H1 by (apply load_peers_ok; by intros ? ?). assert (ips_ok now addrs) as H2 by (apply load_ips_ok; by intros ? ?). clearbody ps addrs.
  set (n := decay_intervals _). clearbody n. apply cap_tables_ok.
  - destruct (Z.ltb_spec 0 n); cbn [peers]; [apply peers_fmap_ok; [|done]; intros s; by apply decay_ok|done].
  - destruct (Z.ltb_spec 0 n); cbn [ips]; [apply ips_fmap_ok; [|done]; intros s; by apply decay_ok|done].
  - destruct (Z.ltb_spec 0 n); cbn [last_decay]; lia.
Qed.
Lemma reach_rep_ok now k m : rep_reach now k m → rep_ok now k m.
Proof.
  induction 1 as [now|file now|now now' k op m Hn _ IH].
  - unfold ReputationManager_new, rep_ok. cbn [peers ips last_decay]. rewrite !map_size_empty. split; [done|]. split; [done|]. lia.
  - apply load_ok.
  - by apply rep_step_ok, (rep_later now).
Qed.
(** C37: a manager that starts empty or from any file whatever, through any operations while
    the clock does not run backwards, keeps every record under its own id, its score
    within ±1000, its strikes in [-1000, 0] and no ban that ends later than a day and
    an hour from now; it holds at most 10000 addresses, and at most 10000 peers but
    for those banned by hand since an event was last recorded. *)
Theorem reputation_reachable_ok now k m : rep_reach now k m → rep_ok now k m.
Proof. apply reach_rep_ok. Qed.

(** ** Bans under table pressure *)
Lemma count_banned (now : Z) (t : gmap bytes PeerReputation) :
  count_if (λ kv : bytes * PeerReputation, is_banned now (standing kv.2)) (map_iter t) = size (filter (λ kv : bytes * PeerReputation, is_banned now (standing kv.2) = true) t).
Proof.
  rewrite map_filter_alt. rewrite map_size_list_to_map.
  - unfold count_if, retain. by rewrite map_iter_perm.
  - apply (sublist_NoDup _ (map_to_list t).*1); [apply NoDup_fst_map_to_list|]. by apply fmap_sublist, sublist_filter.
Qed.
Lemma evicted_is_free now m id p :
  (banned_count now m ≤ PEERS_EVICT_TARGET)%nat → peers m !! id = Some p → peers (evict_stale now m) !! id = None →
  is_banned now (standing p) = false ∧
  ∀ id' p', peers (evict_stale now m) !! id' = Some p' → is_banned now (standing p') = false → key_le peer_key (id, p) (id', p') = true.
Proof.
  intros Hb Hp Hgone. destruct (decide (MAX_TRACKED_PEERS < size (peers m))%nat) as [Hbig|Hsmall].
  2: { unfold evict_stale in Hgone. rewrite decide_True in Hgone by lia. rewrite Hp in Hgone. discriminate. }
  destruct (evict_stale_spec now m Hbig) as (S1 & _ & _ & _ & S5 & S6). set (m' := evict_stale now m) in *. clearbody m'.
  assert (is_banned now (standing p) = false) as Hf.
  { apply not_true_iff_false. intros Ht. unfold banned_count in Hb. rewrite count_banned in Hb.
    assert (<[id := p]> (peers m') ⊆ filter (λ kv : bytes * PeerReputation, is_banned now (standing kv.2) = true) (peers m)) as Hsub.
    { apply map_subseteq_spec. intros i q Hq. apply map_lookup_filter_Some. apply lookup_insert_Some in Hq as [[<- <-]|[_ Hq]]; [exact (conj Hp Ht)|].
      split; [by apply S5|]. by apply (S6 id p i q Hp Hgone Hq). }
    apply map_subseteq_size in Hsub. rewrite map_size_insert_None in Hsub by done. lia. }
  split; [done|]. intros id' p' Hp' Hf'. destruct (S6 id p id' p' Hp Hgone Hp') as [_ Hk]. rewrite Hf, Hf' in Hk. by apply Hk.
Qed.
Lemma evict_stale_kept now m id p : peers (evict_stale now m) !! id = Some p → peers m !! id = Some p.
Proof.
  destruct (decide (MAX_TRACKED_PEERS < size (peers m))%nat) as [Hbig|Hsmall]; [by apply (evict_stale_spec now m Hbig)|].
  unfold evict_stale. by rewrite decide_True by lia.
Qed.
(** While no more than 9000 of the peers tracked are banned, an eviction pass forgets none
    of them; nothing it keeps is altered; and a peer it does forget had less to its name,
    for good or ill, than any unbanned one it keeps. *)
Theorem eviction_spares_bans now m :
  (banned_count now m ≤ PEERS_EVICT_TARGET)%nat →
  (∀ id p, peers m !! id = Some p → is_banned now (standing p) = true → peers (evict_stale now m) !! id = Some p) ∧
  (∀ id p, peers (evict_stale now m) !! id = Some p → peers m !! id = Some p) ∧
  (∀ id p id' p', peers m !! id = Some p → peers (evict_stale now m) !! id = None → peers (evict_stale now m) !! id' = Some p' →
     is_banned now (standing p') = false → key_le peer_key (id, p) (id', p') = true).
Proof.
  intros Hb. split; [|split].
  - intros id p Hp Hban. destruct (peers (evict_stale now m) !! id) as [q|] eqn:E; [rewrite <- E; apply evict_stale_kept in E as Eq; congruence|].
    destruct (evicted_is_free now m id p Hb Hp E) as [Hf _]. congruence.
  - apply evict_stale_kept.
  - intros id p id' p' Hp Hgone. by apply (evicted_is_free now m id p Hb Hp Hgone).
Qed.

(** ** Strikes *)
Definition record_all (h : list (Z * bytes * ReputationEvent)) (m : ReputationManager) : ReputationManager :=
  foldl (λ m x, (record_event x.1.2 x.2 x.1.1 m).2) m h.
Definition standing_of (id : bytes) (now : Z) (m : ReputationManager) : Standing := standing (default (PeerReputation_new id now) (peers m !! id)).
Definition strikes (id : bytes) (h : list (Z * bytes * ReputationEvent)) : Z :=
  foldr (λ x acc, (if decide (x.1.2 = id) then penalty_delta x.2 else 0) + acc) 0 h.
Lemma record_event_room id e now m :
  (size (peers m) < MAX_TRACKED_PEERS)%nat → peers (record_event id e now m).2 = <[id := apply_event e now (default (PeerReputation_new id now) (peers m !! id))]> (peers m).
Proof.
  intros Hs. unfold record_event. cbv zeta. cbn [snd]. rewrite decide_False; [done|].
  cbn [put_peers peers]. match goal with |- context [size (<[id := ?v]> _)] => pose proof (insert_size_le (peers m) id v) end. lia.
Qed.
Lemma record_event_grows id e now m : (size (peers m) < MAX_TRACKED_PEERS)%nat → (size (peers (record_event id e now m).2) ≤ S (size (peers m)))%nat.
Proof. intros Hs. rewrite record_event_room by done. apply insert_size_le. Qed.
Lemma record_all_strikes id h m t0 :
  (size (peers m) + length h ≤ MAX_TRACKED_PEERS)%nat →
  (size (peers (record_all h m)) ≤ size (peers m) + length h)%nat ∧
  ∀ t, penalty (standing_of id t (record_all h m)) ≤ Z.max MIN_REPUTATION (penalty (standing_of id t0 m) + strikes id h).
Proof.
  revert m t0. induction h as [|[[now i] e] h IH]; intros m t0 Hs; unfold record_all, strikes; cbn [foldl foldr length] in *.
  { split; [lia|]. intros t. unfold standing_of. destruct (peers m !! id); cbn [from_option Datatypes.id standing PeerReputation_new Standing_new penalty]; rep; lia. }
  fold (strikes id h). cbn [fst snd]. fold (record_all h (record_event i e now m).2). pose proof (record_event_grows i e now m ltac:(lia)) as Hg.
  specialize (IH (record_event i e now m).2 t0 ltac:(lia)) as [IH1 IH2]. split; [lia|]. intros t. specialize (IH2 t).
  assert (penalty (standing_of id t0 (record_event i e now m).2) ≤ Z.max MIN_REPUTATION (penalty (standing_of id t0 m) + (if decide (i = id) then penalty_delta e else 0))) as Hone.
  { unfold standing_of at 1. rewrite record_event_room by lia. destruct (decide (i = id)) as [->|Hne].
    - rewrite lookup_insert_eq. cbn [from_option Datatypes.id standing apply_event apply_to penalty]. unfold standing_of. destruct (peers m !! id); cbn [from_option Datatypes.id standing PeerReputation_new Standing_new penalty]; lia.
    - rewrite lookup_insert_ne by done. unfold standing_of. lia. }
  assert (strikes id h ≤ 0). { clear. induction h as [|x h IH]; [done|]. unfold strikes. cbn [foldr]. fold (strikes id h). pose proof (penalty_delta_nonpos x.2). destruct (decide _); lia. }
  lia.
Qed.
Lemma strikes_app id h h' : strikes id (h ++ h') = strikes id h + strikes id h'.
Proof. induction h as [|x h IH]; [done|]. unfold strikes in *. cbn [app foldr]. rewrite IH. lia. Qed.
Lemma apply_to_bans threshold e now s :
  score_delta e < 0 → Z.max MIN_REPUTATION (penalty s + penalty_delta e) ≤ threshold → is_banned now (apply_to threshold e now s) = true.
Proof.
  intros Hd Hp. unfold apply_to, is_banned at 1. cbv zeta. cbn [banned_until]. rewrite (proj2 (Z.ltb_lt _ _) Hd), (proj2 (Z.leb_le _ _) Hp), orb_true_r. cbn [andb].
  destruct (is_banned now s) eqn:E; cbn [negb]; [exact E|]. apply Z.ltb_lt. unfold BAN_DURATION. lia.
Qed.
(** Proven misbehaviour adds up whatever else a peer does: once the corruption and protocol
    strikes recorded against an id come to 200, the next event that counts against it,
    that strike included, finds it banned, however many good events lie between, and
    whatever is recorded of others in the meantime. *)
Theorem goodwill_never_offsets_strikes m h now id e :
  (size (peers m) + S (length h) ≤ MAX_TRACKED_PEERS)%nat → score_delta e < 0 →
  penalty (standing_of id now m) + strikes id (h ++ [(now, id, e)]) ≤ BAN_THRESHOLD →
  peer_is_banned id now (record_all (h ++ [(now, id, e)]) m) = true.
Proof.
  intros Hs Hd Hp. unfold record_all. rewrite foldl_app. cbn [foldl fst snd]. fold (record_all h m).
  destruct (record_all_strikes id h m now ltac:(lia)) as [H1 H2]. specialize (H2 now). unfold peer_is_banned. rewrite record_event_room by lia. rewrite lookup_insert_eq.
  fold (standing_of id now (record_all h m)). cbn [apply_event standing]. fold (standing_of id now (record_all h m)). apply apply_to_bans; [done|].
  rewrite strikes_app in Hp. unfold strikes at 2 in Hp. cbn [foldr fst snd] in Hp. rewrite decide_True in Hp by done. pose proof (penalty_delta_nonpos e). rep. lia.
Qed.

(** ** The course of a ban *)
Definition touches_ban (id : bytes) (op : rep_op) : bool := match op with ClearBan i | ManualBan i => bool_decide (i = id) | _ => false end.
Definition rep_run (ops : list (Z * rep_op)) (m : ReputationManager) : ReputationManager := foldl (λ m x, rep_step x.1 x.2 m) m ops.
Lemma apply_to_keeps threshold e now s u : banned_until s = Some u → now < u → banned_until (apply_to threshold e now s) = Some u.
Proof. intros Hu Hn. unfold apply_to, is_banned. cbv zeta. cbn [banned_until]. rewrite Hu, (proj2 (Z.ltb_lt _ _) Hn), andb_false_r. done. Qed.
Definition held_until (id : bytes) (u : Z) (t : gmap bytes PeerReputation) : Prop := ∃ p, t !! id = Some p ∧ banned_until (standing p) = Some u.
Lemma held_insert id u i p t : (i = id → banned_until (standing p) = Some u) → held_until id u t → held_until id u (<[i := p]> t).
Proof. intros Hi (q & Hq & Hu). destruct (decide (i = id)) as [->|Hne]; [exists p; rewrite lookup_insert_eq; auto|]. exists q. by rewrite lookup_insert_ne. Qed.
Lemma held_record id u i e now m : (size (peers m) < MAX_TRACKED_PEERS)%nat → now < u → held_until id u (peers m) → held_until id u (peers (record_event i e now m).2).
Proof.
  intros Hs Hn H. rewrite record_event_room by done. apply held_insert; [|done]. intros ->. destruct H as (q & Hq & Hu). rewrite Hq. cbn [from_option Datatypes.id apply_event standing]. by apply apply_to_keeps.
Qed.
Lemma held_step id u now op m :
  (size (peers m) < MAX_TRACKED_PEERS)%nat → now < u → touches_ban id op = false → held_until id u (peers m) →
  held_until id u (peers (rep_step now op m)) ∧ (size (peers (rep_step now op m)) ≤ S (size (peers m)))%nat.
Proof.
  intros Hs Hn Ht H. destruct op as [i e|i ip e lag|i|ip|ip|i| |]; cbn [rep_step touches_ban] in *.
  - split; [by apply held_record|by apply record_event_grows].
  - unfold record_event_with_ip. pose proof (held_record id u i e now m Hs Hn H) as Hh. pose proof (record_event_grows i e now m Hs) as Hg. destruct (record_event i e now m) as [nb m1].
    cbv zeta. cbn [snd] in *. set (m2 := put_ips m1 _). destruct (evict_ips_if (now + Z.of_nat lag) m2) as (_ & -> & _). by split.
  - unfold clear_ban. destruct (peers m !! i) as [p|] eqn:E; [|cbn [snd]; split; [done|lia]]. cbn [snd touch put_peers peers]. rewrite (insert_size_hit _ _ _ _ E). split; [|lia].
    apply held_insert; [|done]. intros ->. by rewrite bool_decide_eq_true_2 in Ht.
  - unfold clear_ip_ban. destruct (ips m !! ip); split; (done || cbn; lia).
  - unfold mirror_node_ban_to_ip. cbv zeta. set (m1 := put_ips m _). destruct (evict_ips_if now m1) as (_ & Hp & _). cbn [touch peers]. rewrite Hp. split; [done|cbn; lia].
  - unfold apply_manual_ban. cbv zeta. cbn [touch put_peers peers]. split; [|apply insert_size_le]. apply held_insert; [|done]. intros ->. by rewrite bool_decide_eq_true_2 in Ht.
  - assert (peers (lift_expired_bans now m) = on_peer (lift BAN_THRESHOLD now) <$> peers m) as -> by (unfold lift_expired_bans; cbv zeta; by case_decide).
    rewrite map_size_fmap. split; [|lia]. destruct H as (p & Hp & Hu). exists (on_peer (lift BAN_THRESHOLD now) p). rewrite lookup_fmap, Hp. split; [done|]. cbn [on_peer standing].
    unfold lift, lapsed. rewrite Hu. by rewrite (proj2 (Z.leb_gt _ _) Hn).
  - unfold maybe_decay. cbv zeta. destruct (_ =? 0); [by split; [|lia]|]. cbn [touch peers]. rewrite map_size_fmap. split; [|lia].
    destruct H as (p & Hp & Hu). eexists. rewrite lookup_fmap, Hp. by split.
Qed.
(** A ban runs its course: while it runs, no event, tick, or ban of another peer ends it
    early or makes it longer, short of the user's own action on that peer; once its
    time has come, the next sweep lifts it and leaves the peer above the level that
    would have it banned. *)
Theorem bans_run_their_course m id u ops :
  (size (peers m) + length ops ≤ MAX_TRACKED_PEERS)%nat → held_until id u (peers m) →
  Forall (λ x : Z * rep_op, x.1 < u ∧ touches_ban id x.2 = false) ops →
  (∀ t, peer_is_banned id t (rep_run ops m) = (t <? u)) ∧
  ∀ t, u ≤ t → ∃ p, peers (lift_expired_bans t (rep_run ops m)) !! id = Some p ∧
    banned_until (standing p) = None ∧ BAN_THRESHOLD < score (standing p) ∧ BAN_THRESHOLD < penalty (standing p).
Proof.
  intros Hs H Hops. assert (held_until id u (peers (rep_run ops m))) as (p & Hp & Hu).
  { revert m Hs H. induction Hops as [|[now op] ops [Hn Ht] _ IH]; intros m Hs H; [done|]. cbn [fst snd length] in *. unfold rep_run. cbn [foldl fst snd].
    destruct (held_step id u now op m ltac:(lia) Hn Ht H) as [H1 H2]. apply IH; [lia|done]. }
  split; [intros t; unfold peer_is_banned, is_banned; by rewrite Hp, Hu|]. intros t Ht.
  assert (peers (lift_expired_bans t (rep_run ops m)) = on_peer (lift BAN_THRESHOLD t) <$> peers (rep_run ops m)) as -> by (unfold lift_expired_bans; cbv zeta; by case_decide).
  rewrite lookup_fmap, Hp. eexists. split; [done|]. cbn [on_peer standing]. unfold lift, lapsed. rewrite Hu, (proj2 (Z.leb_le _ _) Ht). cbn [banned_until score penalty]. split; [done|]. lia.
Qed.

(** ** What is written to disk *)
Lemma lift_none threshold now s : lapsed now s = false → lift threshold now s = s.
Proof. intros H. unfold lift. by rewrite H. Qed.
Lemma on_peer_id f p : f (standing p) = standing p → on_peer f p = p.
Proof. intros H. destruct p as [i s a b c]. unfold on_peer. cbn [node_id standing successful_transfers failed_transfers first_seen] in *. by rewrite H. Qed.
Lemma on_ip_id f p : f (ip_standing p) = ip_standing p → on_ip f p = p.
Proof. intros H. destruct p as [i s]. unfold on_ip. cbn [ip_octets ip_standing] in *. by rewrite H. Qed.
Lemma fmap_same {V} (f : V → V) (t : gmap bytes V) : (∀ i v, t !! i = Some v → f v = v) → f <$> t = t.
Proof. intros H. apply map_eq. intros i. rewrite lookup_fmap. destruct (t !! i) as [v|] eqn:E; [|done]. cbn. f_equal. by apply (H i). Qed.
Lemma none_counted {V} (q : bytes * V → bool) (t : gmap bytes V) : count_if q (map_iter t) = 0%nat → ∀ i v, t !! i = Some v → q (i, v) = false.
Proof.
  intros H i v Hv. apply not_true_iff_false. intros Hq. assert ((i, v) ∈ retain q (map_iter t)) as Hin by (apply elem_of_retain; split; [done|]; by apply elem_of_map_iter).
  apply length_zero_iff_nil in H. rewrite H in Hin. by apply elem_of_nil in Hin.
Qed.
(** The counter that decides whether there is anything to save misses nothing: an operation
    either moves it by one or leaves the manager as it was. *)
Theorem every_change_is_counted now op m :
  generation m < 18446744073709551615 → generation (rep_step now op m) = generation m + 1 ∨ rep_step now op m = m.
Proof.
  intros Hg. destruct op as [i e|i ip e lag|i|ip|ip|i| |]; cbn [rep_step].
  - left. unfold record_event. cbv zeta. cbn [snd touch generation]. set (m1 := put_peers m _). destruct (evict_peers_if now m1) as (_ & _ & _ & -> & _). cbn [m1 put_peers generation]. lia.
  - left. assert (generation (record_event i e now m).2 = generation m + 1) as Hr.
    { unfold record_event. cbv zeta. cbn [snd touch generation]. set (m1 := put_peers m _). destruct (evict_peers_if now m1) as (_ & _ & _ & -> & _). cbn [m1 put_peers generation]. lia. }
    unfold record_event_with_ip. destruct (record_event i e now m) as [nb m1]. cbv zeta. cbn [snd] in *. set (m2 := put_ips m1 _). destruct (evict_ips_if (now + Z.of_nat lag) m2) as (_ & _ & _ & -> & _). exact Hr.
  - unfold clear_ban. destruct (peers m !! i); [left; cbn [snd touch put_peers generation]; lia|by right].
  - unfold clear_ip_ban. destruct (ips m !! ip); [left; cbn [snd touch put_ips generation]; lia|by right].
  - left. unfold mirror_node_ban_to_ip. cbv zeta. set (m1 := put_ips m _). destruct (evict_ips_if now m1) as (_ & _ & _ & Hgen & _). cbn [touch generation]. rewrite Hgen. cbn [m1 put_ips generation]. lia.
  - left. unfold apply_manual_ban. cbv zeta. cbn [touch put_peers generation]. lia.
  - unfold lift_expired_bans. cbv zeta. case_decide as Hd; [left; cbn [touch generation]; lia|right].
    rewrite fmap_same, fmap_same; [by destruct m| |]; intros i p Hp; [apply on_ip_id|apply on_peer_id]; apply lift_none.
    + apply (none_counted (λ kv : bytes * IpReputation, lapsed now (ip_standing kv.2)) (ips m) ltac:(lia) i p Hp).
    + apply (none_counted (λ kv : bytes * PeerReputation, lapsed now (standing kv.2)) (peers m) ltac:(lia) i p Hp).
  - unfold maybe_decay. cbv zeta. destruct (_ =? 0); [by right|left]. cbn [touch generation]. lia.
Qed.
Lemma reload_rows {V} (key : V → bytes) (f : V → V) (l : list (bytes * V)) (acc : gmap bytes V) :
  NoDup l.*1 → (∀ kv, kv ∈ l → key kv.2 = kv.1 ∧ f kv.2 = kv.2) → foldl (λ m p, <[key p := f p]> m) acc l.*2 = list_to_map l ∪ acc.
Proof.
  revert acc. induction l as [|[k v] l IH]; intros acc Hnd Hl; [cbn; symmetry; apply (left_id_L ∅ (∪))|]. rewrite fmap_cons in Hnd. apply NoDup_cons in Hnd as [Hk Hnd].
  destruct (Hl (k, v) ltac:(left)) as [E1 E2]. cbn in E1, E2, Hk. rewrite fmap_cons. cbn [foldl snd]. rewrite E1, E2, IH; [|done|intros kv Hkv; apply Hl; by right].
  rewrite list_to_map_cons, <- insert_union_l, insert_union_r; [done|]. by apply not_elem_of_list_to_map_1.
Qed.
Lemma reload_table {V} (key : V → bytes) (f : V → V) (t : gmap bytes V) :
  (∀ k v, t !! k = Some v → key v = k ∧ f v = v) → foldl (λ m p, <[key p := f p]> m) ∅ (map_iter t).*2 = t.
Proof.
  intros H. rewrite reload_rows; [|apply NoDup_fst_map_iter|intros [k v] Hin; apply elem_of_map_iter in Hin; by apply (H k v)].
  rewrite (right_id_L ∅ (∪)), (list_to_map_proper (map_iter t) (map_to_list t)); [apply list_to_map_to_list|apply NoDup_fst_map_iter|apply map_iter_perm].
Qed.
Lemma normalise_id max_ban now s : standing_ok now s → now + BAN_DURATION + 3600 ≤ max_ban → normalise max_ban s = s.
Proof.
  intros (H1 & H2 & H3) Hm. destruct s as [sc pen last ban]. unfold normalise. cbn [score penalty last_interaction banned_until] in *. f_equal; [rep; lia..|].
  destruct ban as [u|]; [|done]. specialize (H3 u eq_refl). cbn. f_equal. rep. destruct (Z.ltb_spec max_ban u); lia.
Qed.
Lemma cap_tables_id now m : (size (peers m) ≤ MAX_TRACKED_PEERS)%nat → (size (ips m) ≤ MAX_TRACKED_IPS)%nat →
  (let m1 := if decide (MAX_TRACKED_PEERS < size (peers m))%nat then evict_stale now m else m in
   if decide (MAX_TRACKED_IPS < size (ips m1))%nat then evict_stale_ips now m1 else m1) = m.
Proof. intros H1 H2. cbv zeta. destruct (decide (MAX_TRACKED_PEERS < size (peers m))%nat); [lia|]. by rewrite decide_False by lia. Qed.
(** A restart changes nothing but what time would have: saving a manager no older than its
    file and loading it again gives every record that a decay tick would have left,
    with its scores, strikes and bans, and the change counter at rest. *)
Theorem restart_is_due_decay t now m :
  rep_reach t 0 m → t ≤ now → now + BAN_DURATION + 3600 ≤ 18446744073709551615 →
  peers (load_checked (save m) now) = peers (maybe_decay now m) ∧ ips (load_checked (save m) now) = ips (maybe_decay now m) ∧
  last_decay (load_checked (save m) now) = now ∧ generation (load_checked (save m) now) = 0.
Proof.
  intros Hr Ht Hmax. destruct (reach_rep_ok t 0 m Hr) as (H1 & H2 & H3 & H4 & H5).
  unfold load_checked, save. cbv zeta. cbn [saved_peers saved_ips saved_decay]. rewrite (proj2 (Z.leb_le (last_decay m) now)) by lia.
  rewrite (reload_table node_id), (reload_table ip_octets).
  2: { intros k p Hp. destruct (H2 k p Hp) as [E1 E2]. split; [done|]. apply on_ip_id, (normalise_id _ t); [done|]. lia. }
  2: { intros k p Hp. destruct (H1 k p Hp) as [E1 E2]. split; [done|]. apply on_peer_id, (normalise_id _ t); [done|]. lia. }
  unfold maybe_decay. cbv zeta. set (n := decay_intervals _).
  assert (0 ≤ n) as Hn by (apply Z.mod_pos_bound; lia). clearbody n.
  destruct (Z.ltb_spec 0 n) as [Hp|Hz]; [rewrite (proj2 (Z.eqb_neq n 0)) by lia|replace (n =? 0) with true by (symmetry; apply Z.eqb_eq; lia)].
  - rewrite (cap_tables_id now (mkManager _ _ now 0)); [done|cbn [peers]; rewrite map_size_fmap; lia|cbn [ips]; rewrite map_size_fmap; lia].
  - rewrite (cap_tables_id now (mkManager _ _ now 0)); [done|cbn [peers]; lia|cbn [ips]; lia].
Qed.
End claims.

(** ** Witnesses *)
Definition bad_peer : bytes := replicate 16 7.
Definition day0 : Z := 1700000000.
Definition some_strikes : list (Z * bytes * ReputationEvent) :=
  [(day0, bad_peer, CorruptData); (day0 + 1, bad_peer, SuccessfulChunk); (day0 + 2, bad_peer, CorruptData); (day0 + 3, [], Timeout); (day0 + 4, bad_peer, CorruptData)].
Lemma room_for n : (n ≤ 10)%nat → (n ≤ MAX_TRACKED_PEERS)%nat.
Proof. intros. pose proof caps_Z. lia. Qed.
Lemma reputation_reachable_ok_witness :
  rep_ok (day0 + 1) 1 (rep_step (day0 + 1) (ManualBan bad_peer) (rep_step day0 (RecordWithIp bad_peer [1; 2; 3; 4] CorruptData 0) (ReputationManager_new day0))).
Proof.
  apply (reputation_reachable_ok (day0 + 1) 1). apply (reach_step day0 (day0 + 1) 0 (ManualBan bad_peer)); [lia|].
  apply (reach_step day0 day0 0 (RecordWithIp bad_peer [1; 2; 3; 4] CorruptData 0)); [lia|apply reach_new].
Defined.
Lemma goodwill_never_offsets_strikes_witness :
  peer_is_banned bad_peer (day0 + 9) (record_all (some_strikes ++ [(day0 + 9, bad_peer, CorruptData)]) (ReputationManager_new day0)) = true.
Proof. apply goodwill_never_offsets_strikes; [apply room_for; vm_compute; lia|reflexivity|vm_compute; discriminate]. Defined.
Lemma bans_run_their_course_witness :
  ∀ t, peer_is_banned bad_peer t (rep_run [(day0 + 5, RecordEvent bad_peer CorruptData); (day0 + 4000, MaybeDecay); (day0 + 4001, LiftExpired)] (apply_manual_ban bad_peer day0 (ReputationManager_new day0)))
       = (t <? day0 + BAN_DURATION).
Proof.
  refine (proj1 (bans_run_their_course (apply_manual_ban bad_peer day0 (ReputationManager_new day0)) bad_peer (day0 + BAN_DURATION)
    [(day0 + 5, RecordEvent bad_peer CorruptData); (day0 + 4000, MaybeDecay); (day0 + 4001, LiftExpired)] _ _ _)).
  - apply room_for. vm_compute. lia.
  - eexists. split; reflexivity.
  - repeat constructor.
Defined.
Lemma every_change_is_counted_witness : generation (rep_step day0 (ManualBan bad_peer) (ReputationManager_new day0)) = 1.
Proof.
  destruct (every_change_is_counted day0 (ManualBan bad_peer) (ReputationManager_new day0)) as [H|H]; [reflexivity|exact H|].
  apply (f_equal generation) in H. vm_compute in H. discriminate H.
Defined.
Lemma restart_is_due_decay_witness :
  let m := rep_step day0 (RecordEvent bad_peer CorruptData) (ReputationManager_new day0) in
  peers (load_checked (save m) (day0 + 7200)) = peers (maybe_decay (day0 + 7200) m).
Proof.
  intros m. refine (proj1 (restart_is_due_decay day0 (day0 + 7200) m _ _ _)); [|lia|vm_compute; discriminate].
  apply (reach_step day0 day0 0 (RecordEvent bad_peer CorruptData)); [lia|apply reach_new].
Defined.
Lemma eviction_spares_bans_witness :
  peers (evict_stale day0 (apply_manual_ban bad_peer day0 (ReputationManager_new day0))) !! bad_peer = peers (apply_manual_ban bad_peer day0 (ReputationManager_new day0)) !! bad_peer.
Proof.
  destruct (eviction_spares_bans day0 (apply_manual_ban bad_peer day0 (ReputationManager_new day0))) as [H _]; [pose proof caps_Z; assert (banned_count day0 (apply_manual_ban bad_peer day0 (ReputationManager_new day0)) = 1%nat) as -> by (vm_compute; reflexivity); lia|].
  erewrite H; [reflexivity|reflexivity|vm_compute; reflexivity].
Defined.
