(* ===== verification/RateBucket.v ===== *)
(** * Rate buckets of the rendezvous server

    [RateBucket] of [rendezvous-server/src/main.rs] with the keys it is charged under
    and the two-tier admissions built on it.  The age index is a [BTreeSet]; [Instant]s
    are integers. *)
From S2P Require Import Prelude NodeId Addr MapOrder.
Local Open Scope Z_scope.

(** ** Keys *)
Definition canonical_ip (ip : IpAddr) : IpAddr :=
  match ip with
  | V6 v6 => match segments v6 with
             | [0; 0; 0; 0; 0; 65535; ab; cd] => V4 (mkV4 (ab / 256) (ab mod 256) (cd / 256) (cd mod 256))
             | _ => V6 v6
             end
  | V4 v4 => V4 v4
  end.
(** Masking a prefix of whole 16-bit segments. *)
Definition keep_segments (n : nat) (v6 : Ipv6Addr) : Ipv6Addr := mkV6 (take n (segments v6) ++ replicate (length (segments v6) - n) 0).
Definition client_network (ip : IpAddr) : IpAddr :=
  match canonical_ip ip with V4 v4 => V4 (mkV4 (o0 v4) (o1 v4) (o2 v4) 0) | V6 v6 => V6 (keep_segments 4 v6) end.
Definition rate_key (ip : IpAddr) : IpAddr := match canonical_ip ip with V4 v4 => V4 v4 | V6 v6 => client_network (V6 v6) end.
Definition quota_network (ip : IpAddr) : IpAddr := match client_network ip with V6 v6 => V6 (keep_segments 3 v6) | V4 v4 => V4 v4 end.

(** ** The bucket *)
Definition RATE_WINDOW : Z := 60.
Definition MAX_RATE_ENTRIES : nat := Z.to_nat 200000.
Record RateEntry := mkRate { re_count : Z; window_start : Z }.
Record RateBucket := mkBucket { rate_entries : gmap IpAddr RateEntry; by_age : gset (Z * IpAddr) }.
Definition RateBucket_default : RateBucket := mkBucket ∅ ∅.
(** [Ord] of [(Instant, IpAddr)]. *)
Definition ip_ord (ip : IpAddr) : list Z := match ip with V4 a => [4; o0 a; o1 a; o2 a; o3 a] | V6 a => 6 :: segments a end.
Definition age_le (a b : Z * IpAddr) : bool := bytes_le (a.1 :: ip_ord a.2) (b.1 :: ip_ord b.2).
Definition first (s : gset (Z * IpAddr)) : option (Z * IpAddr) := least age_le (elements s).
Definition duration_since (now t : Z) : Z := Z.max 0 (now - t).
Fixpoint evict_rates (fuel : nat) (max_entries : nat) (b : RateBucket) : RateBucket :=
  match fuel with
  | O => b
  | S fuel =>
      if decide (Nat.max max_entries 1 ≤ size (rate_entries b))%nat then
        match first (by_age b) with
        | Some (t, oldest) => evict_rates fuel max_entries (mkBucket (delete oldest (rate_entries b)) (by_age b ∖ {[(t, oldest)]}))
        | None => b
        end
      else b
  end.
Definition charge_rate (key : IpAddr) (max_requests window now : Z) (max_entries : nat) (b : RateBucket) : bool * RateBucket :=
  match rate_entries b !! key with
  | Some e =>
      if window <=? duration_since now (window_start e)
      then (true, mkBucket (<[key := mkRate 1 now]> (rate_entries b)) ({[(now, key)]} ∪ (by_age b ∖ {[(window_start e, key)]})))
      else (re_count e + 1 <=? max_requests, mkBucket (<[key := mkRate (re_count e + 1) (window_start e)]> (rate_entries b)) (by_age b))
  | None =>
      let b := evict_rates (size (by_age b)) max_entries b in
      (1 <=? max_requests, mkBucket (<[key := mkRate 1 now]> (rate_entries b)) ({[(now, key)]} ∪ by_age b))
  end.
Definition exhausted (key : IpAddr) (max_requests window now : Z) (b : RateBucket) : bool :=
  match rate_entries b !! key with
  | Some e => (duration_since now (window_start e) <? window) && (max_requests <=? re_count e)
  | None => false
  end.
Fixpoint prune_rates (fuel : nat) (now retain_for : Z) (b : RateBucket) : RateBucket :=
  match fuel with
  | O => b
  | S fuel =>
      match first (by_age b) with
      | Some (started, key) =>
          if duration_since now started <? retain_for then b
          else prune_rates fuel now retain_for (mkBucket (delete key (rate_entries b)) (by_age b ∖ {[(started, key)]}))
      | None => b
      end
  end.
Definition prune_bucket (now retain_for : Z) (b : RateBucket) : RateBucket := prune_rates (size (by_age b)) now retain_for b.

(** ** Two tiers *)
Definition MAX_CHANNEL_CREATES_PER_HOUR : Z := 6.
Definition MAX_CHANNEL_CREATES_PER_NETWORK_PER_HOUR : Z := 24.
Definition CHANNEL_CREATE_WINDOW : Z := 3600.
Definition MAX_MAILBOX_REQUESTS_PER_MINUTE : Z := 120.
Definition MAX_MAILBOX_PUTS_PER_NETWORK_PER_MINUTE : Z := 600.
(** Both admissions: peek at both buckets, then charge both. *)
Definition admit_two (address_key network_key : IpAddr) (max_address max_network window now : Z) (per_address per_network : RateBucket) : bool * RateBucket * RateBucket :=
  if exhausted address_key max_address window now per_address || exhausted network_key max_network window now per_network
  then (false, per_address, per_network)
  else
    let '(address_ok, a) := charge_rate address_key max_address window now MAX_RATE_ENTRIES per_address in
    let '(network_ok, n) := charge_rate network_key max_network window now MAX_RATE_ENTRIES per_network in
    (address_ok && network_ok, a, n).
Definition admit_deposit (ip : IpAddr) (now : Z) (per_address per_network : RateBucket) : bool * RateBucket * RateBucket :=
  admit_two (rate_key ip) (quota_network ip) MAX_MAILBOX_REQUESTS_PER_MINUTE MAX_MAILBOX_PUTS_PER_NETWORK_PER_MINUTE RATE_WINDOW now per_address per_network.
Definition admit_channel_create (ip : IpAddr) (now : Z) (per_address per_network : RateBucket) : bool * RateBucket * RateBucket :=
  admit_two (rate_key ip) (rate_key (client_network ip)) MAX_CHANNEL_CREATES_PER_HOUR MAX_CHANNEL_CREATES_PER_NETWORK_PER_HOUR CHANNEL_CREATE_WINDOW now per_address per_network.
(** The budget for signing keys nobody has seen, which only IPv6 sites are held to, and
    only when the table is filling up. *)
Definition MAX_NEW_KEYS_PER_V6_SITE_PER_HOUR : Z := 1024.
Definition NEW_KEY_WINDOW : Z := 3600.
Definition new_key_budget_ok (ip : IpAddr) (under_pressure : bool) (now : Z) (b : RateBucket) : bool * RateBucket :=
  match canonical_ip ip with
  | V4 _ => (true, b)
  | V6 v6 => if under_pressure then charge_rate (V6 (keep_segments 3 v6)) MAX_NEW_KEYS_PER_V6_SITE_PER_HOUR NEW_KEY_WINDOW now MAX_RATE_ENTRIES b else (true, b)
  end.

Local Opaque MAX_RATE_ENTRIES.
(** ** What holds *)

(** The index has exactly one entry for each window. *)
Definition bucket_ok (b : RateBucket) : Prop := ∀ t k, (t, k) ∈ by_age b ↔ ∃ e, rate_entries b !! k = Some e ∧ window_start e = t.
Lemma age_le_total a b : age_le a b = true ∨ age_le b a = true.
Proof. apply bytes_le_total. Qed.
Lemma age_le_trans a b c : age_le a b = true → age_le b c = true → age_le a c = true.
Proof. apply bytes_le_trans. Qed.
Lemma age_le_start a b : age_le a b = true → a.1 ≤ b.1.
Proof.
  unfold age_le, bytes_le. cbn [bytes_cmp]. destruct (Z.compare_spec a.1 b.1); [lia..|done].
Qed.
(** [BTreeSet::first]: the least element, if there is any. *)
Lemma first_spec s : match first s with Some x => x ∈ s ∧ ∀ y, y ∈ s → age_le x y = true | None => s = ∅ end.
Proof. apply least_spec; [apply age_le_total|apply age_le_trans]. Qed.
Lemma bucket_drop b t k e : bucket_ok b → rate_entries b !! k = Some e → window_start e = t →
  bucket_ok (mkBucket (delete k (rate_entries b)) (by_age b ∖ {[(t, k)]})).
Proof.
  intros Hb He Ht t' k'. cbn [by_age rate_entries]. rewrite elem_of_difference, elem_of_singleton, (Hb t' k'). split.
  - intros [(e' & He' & Ht') Hne]. exists e'. split; [|done]. rewrite lookup_delete_ne; [done|]. intros <-. rewrite He in He'. injection He' as <-. apply Hne. congruence.
  - intros (e' & [Hne He']%lookup_delete_Some & Ht'). split; [by exists e'|]. intros [= -> ->]. done.
Qed.
Lemma bucket_restart b k e now : bucket_ok b → rate_entries b !! k = Some e →
  bucket_ok (mkBucket (<[k := mkRate 1 now]> (rate_entries b)) ({[(now, k)]} ∪ (by_age b ∖ {[(window_start e, k)]}))).
Proof.
  intros Hb He t' k'. cbn [by_age rate_entries]. rewrite elem_of_union, elem_of_difference, !elem_of_singleton, (Hb t' k'). split.
  - intros [[= -> ->]|[(e' & He' & Ht') Hne]]; [exists (mkRate 1 now); by rewrite lookup_insert_eq|]. exists e'. split; [|done].
    rewrite lookup_insert_ne; [done|]. intros <-. rewrite He in He'. injection He' as <-. apply Hne. congruence.
  - intros (e' & [[<- <-]|[Hne He']]%lookup_insert_Some & Ht'); [left; cbn in Ht'; congruence|]. right. split; [by exists e'|]. intros [= -> ->]. done.
Qed.
Lemma bucket_count b k e c : bucket_ok b → rate_entries b !! k = Some e → bucket_ok (mkBucket (<[k := mkRate c (window_start e)]> (rate_entries b)) (by_age b)).
Proof.
  intros Hb He t' k'. cbn [by_age rate_entries]. rewrite (Hb t' k'). destruct (decide (k = k')) as [<-|Hne].
  - rewrite lookup_insert_eq, He. split; [intros (e' & [= <-] & <-); by eexists|intros (e' & [= <-] & <-); by exists e].
  - by rewrite lookup_insert_ne.
Qed.
Lemma bucket_add b k now : bucket_ok b → rate_entries b !! k = None →
  bucket_ok (mkBucket (<[k := mkRate 1 now]> (rate_entries b)) ({[(now, k)]} ∪ by_age b)).
Proof.
  intros Hb He t' k'. cbn [by_age rate_entries]. rewrite elem_of_union, elem_of_singleton, (Hb t' k'). split.
  - intros [[= -> ->]|(e' & He' & Ht')]; [exists (mkRate 1 now); by rewrite lookup_insert_eq|]. exists e'. split; [|done]. rewrite lookup_insert_ne; [done|]. intros <-. congruence.
  - intros (e' & [[<- <-]|[Hne He']]%lookup_insert_Some & Ht'); [left; cbn in Ht'; congruence|]. right. by exists e'.
Qed.
Lemma evict_rates_spec fuel n b :
  bucket_ok b → (size (by_age b) ≤ fuel)%nat →
  let b' := evict_rates fuel n b in
  bucket_ok b' ∧ (size (rate_entries b') < Nat.max n 1)%nat ∧ (∀ k e, rate_entries b' !! k = Some e → rate_entries b !! k = Some e) ∧
  (∀ k e k' e', rate_entries b !! k = Some e → rate_entries b' !! k = None → rate_entries b' !! k' = Some e' → window_start e ≤ window_start e') ∧
  ((size (rate_entries b) < Nat.max n 1)%nat → b' = b).
Proof.
  revert b. induction fuel as [|fuel IH]; intros b Hb Hf; cbv zeta; cbn [evict_rates].
  - assert (rate_entries b = ∅) as E.
    { apply map_empty. intros k. apply eq_None_not_Some. intros [e He]. assert ((window_start e, k) ∈ by_age b) as Hin by (apply Hb; by exists e).
      assert (by_age b ≡ ∅) as Hemp by (apply size_empty_iff; lia). set_solver. }
    split; [done|]. rewrite E, map_size_empty. split; [lia|]. split; [done|]. split; [by intros k e k' e' H; rewrite lookup_empty in H|done].
  - destruct (decide (Nat.max n 1 ≤ size (rate_entries b))%nat) as [Hbig|Hsmall].
    2: { split; [done|]. split; [lia|]. split; [done|]. split; [by intros k e k' e' H1 H2; rewrite H1 in H2|done]. }
    pose proof (first_spec (by_age b)) as Hfirst. destruct (first (by_age b)) as [[t oldest]|].
    + destruct Hfirst as [Hin Hmin]. destruct (proj1 (Hb t oldest) Hin) as (e0 & He0 & Ht0).
      assert (size (by_age b ∖ {[(t, oldest)]}) < size (by_age b))%nat as Hsz by (apply subset_size; set_solver).
      set (b1 := mkBucket _ _). destruct (IH b1 (bucket_drop b t oldest e0 Hb He0 Ht0) ltac:(cbn; lia)) as (I1 & I2 & I3 & I4 & _). cbv zeta in *.
      set (b' := evict_rates fuel n b1) in *. clearbody b'. split; [done|]. split; [done|]. split; [|split; [|lia]].
      * intros k e Hk. apply I3 in Hk. cbn [b1 rate_entries] in Hk. by apply lookup_delete_Some in Hk as [_ ?].
      * intros k e k' e' Hk Hnone Hk'. destruct (decide (k = oldest)) as [->|Hne].
        { rewrite He0 in Hk. injection Hk as <-. apply I3 in Hk'. cbn [b1 rate_entries] in Hk'. apply lookup_delete_Some in Hk' as [_ Hk'].
          assert ((window_start e', k') ∈ by_age b) as Hin' by (apply Hb; by exists e'). apply Hmin, age_le_start in Hin'. cbn in Hin'. lia. }
        apply (I4 k e k' e'); [cbn; by rewrite lookup_delete_ne|done..].
    + assert (rate_entries b = ∅) as E.
      { apply map_empty. intros k. apply eq_None_not_Some. intros [e He]. assert ((window_start e, k) ∈ by_age b) as Hin by (apply Hb; by exists e). set_solver. }
      rewrite E, map_size_empty in Hbig. lia.
Qed.
Lemma entries_insert_size {V} (m : gmap IpAddr V) k v : (size (<[k := v]> m) ≤ S (size m))%nat ∧ (is_Some (m !! k) → size (<[k := v]> m) = size m).
Proof.
  split; [destruct (m !! k) as [w|] eqn:E; [rewrite map_size_insert_Some by eauto; lia|rewrite map_size_insert_None by done; lia]|].
  intros H. by apply map_size_insert_Some.
Qed.
Lemma charge_rate_ok key mx window now n b :
  bucket_ok b → (size (rate_entries b) ≤ Nat.max n 1)%nat →
  bucket_ok (charge_rate key mx window now n b).2 ∧ (size (rate_entries (charge_rate key mx window now n b).2) ≤ Nat.max n 1)%nat.
Proof.
  intros Hb Hs. unfold charge_rate. destruct (rate_entries b !! key) as [e|] eqn:E.
  - destruct (window <=? _); cbn [snd rate_entries].
    + split; [by apply bucket_restart|]. rewrite (proj2 (entries_insert_size _ _ _)); [done|by eexists].
    + split; [by apply bucket_count|]. rewrite (proj2 (entries_insert_size _ _ _)); [done|by eexists].
  - cbv zeta. destruct (evict_rates_spec (size (by_age b)) n b Hb ltac:(lia)) as (H1 & H2 & H3 & _). cbv zeta in *. set (b' := evict_rates _ _ _) in *. clearbody b'.
    assert (rate_entries b' !! key = None) as E' by (apply eq_None_not_Some; intros [e He]; apply H3 in He; congruence).
    cbn [snd rate_entries]. split; [by apply bucket_add|]. pose proof (proj1 (entries_insert_size (rate_entries b') key (mkRate 1 now))). lia.
Qed.
Lemma prune_rates_ok fuel now keep b : bucket_ok b → bucket_ok (prune_rates fuel now keep b) ∧ (size (rate_entries (prune_rates fuel now keep b)) ≤ size (rate_entries b))%nat.
Proof.
  revert b. induction fuel as [|fuel IH]; intros b Hb; cbn [prune_rates]; [done|]. pose proof (first_spec (by_age b)) as Hf. destruct (first (by_age b)) as [[t k]|]; [|done].
  destruct (_ <? keep); [done|]. destruct (proj1 (Hb t k) (proj1 Hf)) as (e & He & Ht). destruct (IH _ (bucket_drop b t k e Hb He Ht)) as [H1 H2]. split; [done|].
  etransitivity; [exact H2|]. cbn [rate_entries]. apply map_subseteq_size, delete_subseteq.
Qed.
(** Pruning leaves exactly the windows that are young enough. *)
Lemma prune_exact fuel now keep b k e :
  bucket_ok b → (size (by_age b) ≤ fuel)%nat → 0 < keep → (∀ k e, rate_entries b !! k = Some e → window_start e ≤ now) →
  rate_entries (prune_rates fuel now keep b) !! k = Some e ↔ rate_entries b !! k = Some e ∧ now - window_start e < keep.
Proof.
  revert b. induction fuel as [|fuel IH]; intros b Hb Hf Hk Hpast; cbn [prune_rates]; pose proof (first_spec (by_age b)) as Hfirst.
  - split; [|by intros [? _]]. intros He. assert ((window_start e, k) ∈ by_age b) as Hin by (apply Hb; by exists e).
    assert (by_age b ≡ ∅) as Hemp by (apply size_empty_iff; lia). set_solver.
  - destruct (first (by_age b)) as [[t oldest]|].
    2: { split; [|by intros [? _]]. intros He. assert ((window_start e, k) ∈ by_age b) as Hin by (apply Hb; by exists e). set_solver. }
    destruct Hfirst as [Hin Hmin]. destruct (proj1 (Hb t oldest) Hin) as (e0 & He0 & Ht0). pose proof (Hpast _ _ He0) as Hp0. unfold duration_since.
    destruct (Z.ltb_spec (Z.max 0 (now - t)) keep) as [Hy|Ho].
    + split; [|by intros [? _]]. intros He. split; [done|]. assert ((window_start e, k) ∈ by_age b) as Hin' by (apply Hb; by exists e). apply Hmin, age_le_start in Hin'. cbn in Hin'. lia.
    + assert (size (by_age b ∖ {[(t, oldest)]}) < size (by_age b))%nat as Hsz by (apply subset_size; set_solver).
      rewrite (IH _ (bucket_drop b t oldest e0 Hb He0 Ht0)); [|cbn; lia|done|cbn; intros k' e' [_ ?]%lookup_delete_Some; eauto]. cbn [rate_entries]. split.
      * intros [[_ ?]%lookup_delete_Some ?]. done.
      * intros [He Hlt]. split; [|done]. apply lookup_delete_Some. split; [|done]. intros <-. rewrite He0 in He. injection He as <-. lia.
Qed.

(** Peeking at a bucket tells what charging it would answer. *)
Lemma exhausted_agrees key mx window now n b : 1 ≤ mx → (charge_rate key mx window now n b).1 = negb (exhausted key mx window now b).
Proof.
  intros Hm. unfold charge_rate, exhausted. destruct (rate_entries b !! key) as [e|]; [|cbn; by rewrite (proj2 (Z.leb_le _ _) Hm)].
  destruct (Z.leb_spec window (duration_since now (window_start e))) as [H|H].
  - by rewrite (proj2 (Z.ltb_ge _ _) H).
  - rewrite (proj2 (Z.ltb_lt _ _) H). cbn [fst andb]. destruct (Z.leb_spec (re_count e + 1) mx), (Z.leb_spec mx (re_count e)); (done || lia).
Qed.
(** [b'] is [b] with one request charged under [key]: the running window counts one more, a
    new or lapsed one starts at one; nothing else is added or changed, and entries of
    other keys go only to make room for a new key in a full bucket.  The index and the size
    limit are kept. *)
Definition charged_once (key : IpAddr) (mx window now : Z) (b b' : RateBucket) : Prop :=
  (∃ e, rate_entries b' !! key = Some e ∧ re_count e ≤ mx ∧
    e = match rate_entries b !! key with
        | Some old => if decide (duration_since now (window_start old) < window) then mkRate (re_count old + 1) (window_start old) else mkRate 1 now
        | None => mkRate 1 now
        end) ∧
  (∀ k e, k ≠ key → rate_entries b' !! k = Some e → rate_entries b !! k = Some e) ∧
  (is_Some (rate_entries b !! key) ∨ (size (rate_entries b) < MAX_RATE_ENTRIES)%nat → ∀ k, k ≠ key → rate_entries b' !! k = rate_entries b !! k) ∧
  (bucket_ok b → (size (rate_entries b) ≤ MAX_RATE_ENTRIES)%nat → bucket_ok b' ∧ (size (rate_entries b') ≤ MAX_RATE_ENTRIES)%nat).
Lemma evict_rates_sub fuel n b : rate_entries (evict_rates fuel n b) ⊆ rate_entries b.
Proof.
  revert b. induction fuel as [|fuel IH]; intros b; cbn [evict_rates]; [done|]. case_decide; [|done]. destruct (first (by_age b)) as [[t k]|]; [|done].
  etransitivity; [apply IH|]. apply delete_subseteq.
Qed.
Lemma evict_rates_room fuel n b : (size (rate_entries b) < n)%nat → evict_rates fuel n b = b.
Proof. intros H. destruct fuel; cbn [evict_rates]; [done|]. by rewrite decide_False by lia. Qed.
Lemma rate_caps_Z : Z.of_nat MAX_RATE_ENTRIES = 200000.
Proof. vm_compute. reflexivity. Qed.
Lemma charge_charges key mx window now b : exhausted key mx window now b = false → 1 ≤ mx →
  charged_once key mx window now b (charge_rate key mx window now MAX_RATE_ENTRIES b).2.
Proof.
  intros He Hm. split; [|split; [|split]].
  - unfold charge_rate, exhausted in *. destruct (rate_entries b !! key) as [e|]; [|cbn [snd rate_entries]; rewrite lookup_insert_eq; by eexists].
    destruct (Z.leb_spec window (duration_since now (window_start e))) as [H|H]; cbn [snd rate_entries]; rewrite lookup_insert_eq; eexists; (split; [done|]).
    + rewrite decide_False by lia. done.
    + rewrite decide_True by done. rewrite (proj2 (Z.ltb_lt _ _) H) in He. cbn in He. apply Z.leb_gt in He. cbn. split; [lia|done].
  - intros k e Hne. unfold charge_rate. destruct (rate_entries b !! key); [destruct (_ <=? _)|]; cbn [snd rate_entries]; rewrite lookup_insert_ne by done; [done..|].
    intros Hk. exact (lookup_weaken _ _ _ _ Hk (evict_rates_sub _ _ _)).
  - intros Hroom k Hne. unfold charge_rate. destruct (rate_entries b !! key) eqn:E; [destruct (_ <=? _)|]; cbn [snd rate_entries]; rewrite lookup_insert_ne by done; [done..|].
    destruct Hroom as [[? ?]|?]; [done|]. by rewrite evict_rates_room.
  - intros Hb Hs. pose proof rate_caps_Z. destruct (charge_rate_ok key mx window now MAX_RATE_ENTRIES b Hb ltac:(lia)) as [? ?]. split; [done|lia].
Qed.
(** What an admission held to two budgets, under these keys and limits, has done. *)
Definition all_or_nothing (ka kn : IpAddr) (ma mn window now : Z) (a n : RateBucket) (result : bool * RateBucket * RateBucket) : Prop :=
  let '(ok, a', n') := result in
  if ok
  then exhausted ka ma window now a = false ∧ exhausted kn mn window now n = false ∧ charged_once ka ma window now a a' ∧ charged_once kn mn window now n n'
  else a' = a ∧ n' = n ∧ (exhausted ka ma window now a = true ∨ exhausted kn mn window now n = true).
Lemma admit_two_spec ka kn ma mn window now a n : 1 ≤ ma → 1 ≤ mn → all_or_nothing ka kn ma mn window now a n (admit_two ka kn ma mn window now a n).
Proof.
  intros Ha Hn. unfold all_or_nothing, admit_two. destruct (exhausted ka ma window now a) eqn:E1; [cbn; auto|]. destruct (exhausted kn mn window now n) eqn:E2; [cbn; auto|]. cbn [orb].
  pose proof (exhausted_agrees ka ma window now MAX_RATE_ENTRIES a Ha) as A1. pose proof (exhausted_agrees kn mn window now MAX_RATE_ENTRIES n Hn) as A2.
  pose proof (charge_charges ka ma window now a E1 Ha) as C1. pose proof (charge_charges kn mn window now n E2 Hn) as C2.
  destruct (charge_rate ka _ _ _ _ _) as [oa a'], (charge_rate kn _ _ _ _ _) as [on n']. cbn in *. rewrite E1 in A1. rewrite E2 in A2. cbn in A1, A2. subst oa on. cbn. auto 10.
Qed.
(** C35: a request held to a budget of its address and one of its network is charged to both or to
    neither.  Refused, which happens only when one of the two is spent, both buckets
    are as they were.  Admitted, the entry of its key in each bucket counts exactly one
    more than its running window did (one, from now, when there was none or it had lapsed)
    and is within the limit; no other entry is added or changed, and none is lost unless
    the key is new and the bucket full; the age index stays exact and the bucket within its
    size. *)
Theorem admission_all_or_nothing ip now a n :
  all_or_nothing (rate_key ip) (quota_network ip) MAX_MAILBOX_REQUESTS_PER_MINUTE MAX_MAILBOX_PUTS_PER_NETWORK_PER_MINUTE RATE_WINDOW now a n (admit_deposit ip now a n) ∧
  all_or_nothing (rate_key ip) (rate_key (client_network ip)) MAX_CHANNEL_CREATES_PER_HOUR MAX_CHANNEL_CREATES_PER_NETWORK_PER_HOUR CHANNEL_CREATE_WINDOW now a n (admit_channel_create ip now a n).
Proof. split; apply admit_two_spec; discriminate. Qed.

(** ** Histories of one bucket *)
Inductive rate_reach : RateBucket → Prop :=
  | rate_new : rate_reach RateBucket_default
  | rate_charged key mx window now b : rate_reach b → rate_reach (charge_rate key mx window now MAX_RATE_ENTRIES b).2
  | rate_pruned now keep b : rate_reach b → rate_reach (prune_bucket now keep b).
Lemma default_bucket_ok n : bucket_ok RateBucket_default ∧ (size (rate_entries RateBucket_default) ≤ n)%nat.
Proof.
  split; [|cbn [rate_entries RateBucket_default]; rewrite map_size_empty; lia]. intros t k. cbn [by_age rate_entries RateBucket_default].
  split; [set_solver|]. intros (e & He & _). by rewrite lookup_empty in He.
Qed.
(** However a rate bucket was charged and swept, its age index lists exactly its windows by
    the time they began, it holds no more than 200000 of them, and making room for a
    new key costs only windows no younger than those that stay. *)
Theorem rate_bucket_bounded b key mx window now :
  rate_reach b →
  bucket_ok b ∧ Z.of_nat (size (rate_entries b)) ≤ 200000 ∧
  ∀ k e k' e', rate_entries b !! k = Some e → rate_entries (charge_rate key mx window now MAX_RATE_ENTRIES b).2 !! k = None →
    rate_entries (charge_rate key mx window now MAX_RATE_ENTRIES b).2 !! k' = Some e' → k' ≠ key → window_start e ≤ window_start e'.
Proof.
  intros Hr. assert (bucket_ok b ∧ (size (rate_entries b) ≤ Nat.max MAX_RATE_ENTRIES 1)%nat) as [Hb Hs].
  { induction Hr as [|key' mx' window' now' b _ [H1 H2]|now' keep b _ [H1 H2]].
    - apply default_bucket_ok.
    - by apply charge_rate_ok.
    - destruct (prune_rates_ok (size (by_age b)) now' keep b H1) as [P1 P2]. split; [exact P1|]. unfold prune_bucket. lia. }
  split; [exact Hb|]. split; [pose proof rate_caps_Z; lia|]. unfold charge_rate. destruct (rate_entries b !! key) as [e0|] eqn:E.
  - intros k e k' e' Hk. destruct (_ <=? _); cbn [snd rate_entries]; intros Hn; apply lookup_insert_None in Hn as [Hn _]; rewrite Hk in Hn; discriminate.
  - cbv zeta. destruct (evict_rates_spec (size (by_age b)) MAX_RATE_ENTRIES b Hb ltac:(lia)) as (_ & _ & _ & H4 & _). cbv zeta in *. cbn [snd rate_entries].
    intros k e k' e' Hk [Hn _]%lookup_insert_None Hk' Hne. rewrite lookup_insert_ne in Hk' by done. by apply (H4 k e k' e').
Qed.
Lemma rate_bucket_bounded_witness :
  let ip := V4 (mkV4 9 8 7 6) in Z.of_nat (size (rate_entries (charge_rate ip 3 60 100 MAX_RATE_ENTRIES RateBucket_default).2)) ≤ 200000.
Proof.
  intros ip. refine (proj1 (proj2 (rate_bucket_bounded (charge_rate ip 3 60 100 MAX_RATE_ENTRIES RateBucket_default).2 ip 3 60 200 _))).
  apply rate_charged, rate_new.
Defined.
