(* ===== verification/ReplayGuard.v ===== *)
(** * The replay guard of the rendezvous server

    [ReplayGuard] of [rendezvous-server/src/main.rs]: which signed requests have been
    seen.  Each key has a floor and, per scope, the requests at the scope's newest
    timestamp; what lapses is dropped, and the newest timestamp ever dropped is
    remembered, because the clock may step back.  Timestamps are [i64]. *)
From S2P Require Import Prelude NodeId Addr MapOrder.
Local Open Scope Z_scope.

Definition MAX_TIMESTAMP_SKEW_SECS : Z := 300.
Definition MAX_REPLAY_KEYS : Z := 100000.
Definition MAX_REPLAY_MARKS : Z := 200000.
Definition MAX_REPLAY_MARKS_PER_KEY : Z := 64.
Inductive ReplayAdmission := Accepted | Repeat | Replay | Stale | Full.
#[export] Instance ReplayAdmission_eq : EqDecision ReplayAdmission.
Proof. solve_decision. Defined.
Inductive ReplayMode := OneTime | IdempotentRepeat.
Definition fresh_at (ts now : Z) : bool := Z.abs (now - ts) <=? MAX_TIMESTAMP_SKEW_SECS.
Definition lapsed_at (ts now : Z) : bool := ts <? i64_saturating_sub now MAX_TIMESTAMP_SKEW_SECS.
Record ReplayNow := mkReplayNow { lapse : Z; wall : Z }.
Definition prune_clock (now : ReplayNow) : Z := Z.min (lapse now) (wall now).
Record ReplayMark := mkMark { scope : Z; mark_ts : Z; digest : Z }.
Record KeyReplayState := mkKeyState { floor : Z; horizon : Z; key_marks : list ReplayMark }.
Record ReplayGuard := mkGuard {
  keys : gmap bytes KeyReplayState;
  by_horizon : gset (Z * bytes);
  marks : Z;
  max_keys : Z;
  max_marks : Z;
  max_marks_per_key : Z;
  dropped_through : Z;
}.
Definition with_limits (mk mm mpk : Z) : ReplayGuard := mkGuard ∅ ∅ 0 (Z.max mk 1) (Z.max mm 1) (Z.max mpk 1) i64_min.
Definition ReplayGuard_default : ReplayGuard := with_limits MAX_REPLAY_KEYS MAX_REPLAY_MARKS MAX_REPLAY_MARKS_PER_KEY.
Definition guard_fresh (ts : Z) (now : ReplayNow) (g : ReplayGuard) : bool := fresh_at ts (wall now) && (dropped_through g <? ts).
Definition knows (key : bytes) (g : ReplayGuard) : bool := bool_decide (is_Some (keys g !! key)).
Definition half_full (g : ReplayGuard) : bool := (max_keys g <=? Z.of_nat (size (keys g)) * 2) || (max_marks g <=? marks g * 2).
Definition set_keys (g : ReplayGuard) (ks : gmap bytes KeyReplayState) (h : gset (Z * bytes)) (m d : Z) : ReplayGuard :=
  mkGuard ks h m (max_keys g) (max_marks g) (max_marks_per_key g) d.

(** ** Eviction *)

(** [Ord] of [(i64, [u8; 32])]. *)
Definition horizon_le (a b : Z * bytes) : bool := bytes_le (a.1 :: a.2) (b.1 :: b.2).
Definition first_horizon (s : gset (Z * bytes)) : option (Z * bytes) := least horizon_le (elements s).
Definition mark_count (st : KeyReplayState) : Z := Z.of_nat (length (key_marks st)).
Fixpoint prune_loop (fuel : nat) (clock : Z) (g : ReplayGuard) : ReplayGuard :=
  match fuel with
  | O => g
  | S fuel =>
      match first_horizon (by_horizon g) with
      | None => g
      | Some (h, key) =>
          if negb (lapsed_at h clock) then g
          else
            let left := by_horizon g ∖ {[(h, key)]} in
            prune_loop fuel clock
              match keys g !! key with
              | Some st => set_keys g (delete key (keys g)) left (marks g - mark_count st) (Z.max (dropped_through g) h)
              | None => set_keys g (keys g) left (marks g) (dropped_through g)
              end
      end
  end.
Definition prune_guard (now : ReplayNow) (g : ReplayGuard) : ReplayGuard := prune_loop (size (by_horizon g)) (prune_clock now) g.
Definition check_floor (key : bytes) (ts : Z) (now : ReplayNow) (g : ReplayGuard) : ReplayAdmission :=
  if negb (fresh_at ts (wall now)) then Stale
  else match keys g !! key with Some st => if ts <? floor st then Replay else Accepted | None => Accepted end.
(** [state_mut]: the key's state, made when there is room for it. *)
Definition state_mut (key : bytes) (now : ReplayNow) (g : ReplayGuard) : option KeyReplayState * ReplayGuard :=
  match keys g !! key with
  | Some st => (Some st, g)
  | None =>
      let g := prune_guard now g in
      if (Z.of_nat (size (keys g)) <? max_keys g) && (marks g <? max_marks g)
      then let st := mkKeyState i64_min i64_min [] in (Some st, set_keys g (<[key := st]> (keys g)) (by_horizon g) (marks g) (dropped_through g))
      else (None, g)
  end.
Definition max_ts (l : list ReplayMark) : option Z := foldr (λ m best, Some (match best with Some b => Z.max (mark_ts m) b | None => mark_ts m end)) None l.
Definition min_ts (l : list ReplayMark) : option Z := foldr (λ m best, Some (match best with Some b => Z.min (mark_ts m) b | None => mark_ts m end)) None l.
(** [reindex], after the state of [key] became [st]. *)
Definition reindex (key : bytes) (st : KeyReplayState) (old_horizon : Z) (m d : Z) (g : ReplayGuard) : ReplayGuard :=
  let h := Z.max (Z.max (horizon st) (default i64_min (max_ts (key_marks st)))) (i64_saturating_sub (floor st) 1) in
  let index := if negb (h =? old_horizon) || negb (bool_decide ((old_horizon, key) ∈ by_horizon g))
               then {[(h, key)]} ∪ (by_horizon g ∖ {[(old_horizon, key)]}) else by_horizon g in
  set_keys g (<[key := mkKeyState (floor st) h (key_marks st)]> (keys g)) index m d.
Definition raise_floor_of (new_floor : Z) (st : KeyReplayState) : KeyReplayState * Z :=
  let fl := Z.max (floor st) new_floor in
  let kept := retain (λ m, fl <=? mark_ts m) (key_marks st) in
  (mkKeyState fl (horizon st) kept, mark_count st - Z.of_nat (length kept)).

(** ** Admission *)
Definition in_scope (sc : Z) (m : ReplayMark) : bool := scope m =? sc.
Definition push_mark (m : ReplayMark) (st : KeyReplayState) : KeyReplayState := mkKeyState (floor st) (horizon st) (key_marks st ++ [m]).
(** The end of ['decide], once the request is neither old nor seen: room for its mark.
    [None] is the panic of [expect]. *)
Definition take_mark (m : ReplayMark) (pool_full : bool) (mpk released : Z) (st : KeyReplayState) : option (ReplayAdmission * KeyReplayState * Z) :=
  let pool_full := pool_full && (released =? 0) in
  if (mpk <=? mark_count st) || (pool_full && negb (bool_decide (key_marks st = []))) then
    match min_ts (key_marks st) with
    | None => None
    | Some oldest =>
        let '(st, n) := raise_floor_of (i64_saturating_add oldest 1) st in
        if mark_ts m <? floor st then Some (Replay, st, released + n) else Some (Accepted, push_mark m st, released + n)
    end
  else if pool_full then Some (Full, st, released)
  else Some (Accepted, push_mark m st, released).
Definition decide_mark (m : ReplayMark) (mode : ReplayMode) (pool_full : bool) (mpk released : Z) (st : KeyReplayState) : option (ReplayAdmission * KeyReplayState * Z) :=
  if mark_ts m <? floor st then Some (Replay, st, released)
  else
    let mine := retain (in_scope (scope m)) (key_marks st) in
    match max_ts mine with
    | None => take_mark m pool_full mpk released st
    | Some newest =>
        if mark_ts m <? newest then Some (Replay, st, released)
        else if mark_ts m =? newest then
          if (match mode with IdempotentRepeat => true | OneTime => false end) && (match last mine with Some x => digest x =? digest m | None => false end) then Some (Repeat, st, released)
          else if existsb (λ x, digest x =? digest m) mine then Some (Replay, st, released)
          else take_mark m pool_full mpk released st
        else
          let others := retain (λ x, negb (in_scope (scope m) x)) (key_marks st) in
          take_mark m pool_full mpk (released + (mark_count st - Z.of_nat (length others))) (mkKeyState (floor st) (horizon st) others)
    end.
Definition admit_request (key : bytes) (m : ReplayMark) (mode : ReplayMode) (now : ReplayNow) (g : ReplayGuard) : option ReplayAdmission * ReplayGuard :=
  if negb (guard_fresh (mark_ts m) now g) then (Some Stale, g)
  else
    let g := prune_guard now g in
    let pool_full := max_marks g <=? marks g in
    match state_mut key now g with
    | (None, g) => (Some Full, g)
    | (Some st, g) =>
        let clock := prune_clock now in
        let dropped := max_ts (retain (λ x, lapsed_at (mark_ts x) clock) (key_marks st)) in
        let live := retain (λ x, negb (lapsed_at (mark_ts x) clock)) (key_marks st) in
        let st0 := mkKeyState (floor st) (horizon st) live in
        match decide_mark m mode pool_full (max_marks_per_key g) (mark_count st - Z.of_nat (length live)) st0 with
        | None => (None, g)
        | Some (outcome, st', released) =>
            let total := marks g - released + (match outcome with Accepted => 1 | _ => 0 end) in
            let d := match dropped with Some x => Z.max (dropped_through g) x | None => dropped_through g end in
            (Some outcome, reindex key st' (horizon st) total d g)
        end
    end.
Definition raise_floor (key : bytes) (ts : Z) (now : ReplayNow) (g : ReplayGuard) : ReplayAdmission * ReplayGuard :=
  if negb (guard_fresh ts now g) then (Stale, g)
  else
    let g := prune_guard now g in
    match state_mut key now g with
    | (None, g) => (Full, g)
    | (Some st, g) =>
        if ts <? floor st then (Replay, g)
        else
          let '(st', n) := raise_floor_of (i64_saturating_add ts 1) st in
          (Accepted, reindex key st' (horizon st) (marks g - n) (dropped_through g) g)
    end.

(** ** One key *)

(** What a key's state refuses on its own: a request below the floor, older than one seen in
    its scope, or seen. *)
Definition cov (st : KeyReplayState) (m : ReplayMark) : Prop :=
  mark_ts m < floor st ∨ ∃ x, x ∈ key_marks st ∧ scope x = scope m ∧ (mark_ts m < mark_ts x ∨ mark_ts x = mark_ts m ∧ digest x = digest m).
Lemma max_ts_spec l : match max_ts l with Some n => (∃ x, x ∈ l ∧ mark_ts x = n) ∧ ∀ x, x ∈ l → mark_ts x ≤ n | None => l = [] end.
Proof.
  induction l as [|m l IH]; [done|]. cbn [max_ts foldr]. fold (max_ts l). destruct (max_ts l) as [n|].
  - destruct IH as [(x & Hx & <-) Hall]. split; [|intros y [->|Hy]%elem_of_cons; [lia|specialize (Hall y Hy); lia]].
    destruct (Z.max_spec (mark_ts m) (mark_ts x)) as [[_ ->]|[_ ->]]; [exists x; split; [by right|done]|exists m; split; [left|done]].
  - subst l. split; [exists m; split; [left|done]|]. intros y [->|Hy]%elem_of_cons; [lia|by apply elem_of_nil in Hy].
Qed.
Lemma min_ts_spec l : match min_ts l with Some n => (∃ x, x ∈ l ∧ mark_ts x = n) ∧ ∀ x, x ∈ l → n ≤ mark_ts x | None => l = [] end.
Proof.
  induction l as [|m l IH]; [done|]. cbn [min_ts foldr]. fold (min_ts l). destruct (min_ts l) as [n|].
  - destruct IH as [(x & Hx & <-) Hall]. split; [|intros y [->|Hy]%elem_of_cons; [lia|specialize (Hall y Hy); lia]].
    destruct (Z.min_spec (mark_ts m) (mark_ts x)) as [[_ ->]|[_ ->]]; [exists m; split; [left|done]|exists x; split; [by right|done]].
  - subst l. split; [exists m; split; [left|done]|]. intros y [->|Hy]%elem_of_cons; [lia|by apply elem_of_nil in Hy].
Qed.
(** No timestamp at the very end of time, where one more would saturate. *)
Definition sane (ts : Z) : Prop := i64_min ≤ ts < i64_max.
Lemma sane_next ts : sane ts → i64_saturating_add ts 1 = ts + 1.
Proof. unfold sane, i64_saturating_add, clamp, i64_min, i64_max. lia. Qed.
Lemma retain_le {A} (p : A → bool) l : (length (retain p l) ≤ length l)%nat.
Proof. apply sublist_length, retain_sublist. Qed.
Lemma raise_floor_of_spec fl st :
  let '(st', n) := raise_floor_of fl st in
  floor st' = Z.max (floor st) fl ∧ horizon st' = horizon st ∧ mark_count st' = mark_count st - n ∧ 0 ≤ n ∧ (∀ x, x ∈ key_marks st' ↔ x ∈ key_marks st ∧ floor st' ≤ mark_ts x) ∧ (∀ m, cov st m → cov st' m) ∧
  ((∃ x, x ∈ key_marks st ∧ mark_ts x < fl) → 0 < n).
Proof.
  unfold raise_floor_of. cbv zeta. set (f := Z.max (floor st) fl). set (kept := retain _ _). assert (∀ x, x ∈ kept ↔ x ∈ key_marks st ∧ f ≤ mark_ts x) as Hk by (intros x; unfold kept; rewrite elem_of_retain, Z.leb_le; tauto).
  split; [done|]. split; [done|]. unfold mark_count. cbn [key_marks]. split; [lia|]. split; [pose proof (retain_le (λ m, f <=? mark_ts m) (key_marks st)); fold kept in H; lia|]. split; [done|].
  split; [intros m [H|(x & Hx & Hs & H)]; [left; cbn; lia|]; destruct (Z.leb_spec f (mark_ts x)) as [Hf|Hf]; [right; exists x; split; [by apply Hk|done]|left; cbn; lia]|].
  intros (x & Hx & Hlt). assert (length kept < length (key_marks st))%nat; [|lia]. apply (length_filter_lt _ _ x); [done|]. intros Hf%Z.leb_le. unfold f in Hf. lia.
Qed.
(** What deciding on a mark does to the key: a request it accepts was not covered, covers
    it from then on, and fits. *)
Record decided (m : ReplayMark) (pool_full : bool) (mpk rel : Z) (st : KeyReplayState) (out : ReplayAdmission) (st' : KeyReplayState) (rel' : Z) : Prop := mkDecided {
  dc_floor : floor st ≤ floor st';
  dc_horizon : horizon st' = horizon st;
  dc_kept : ∀ x, cov st x → cov st' x;
  dc_marks : ∀ x, x ∈ key_marks st' → floor st' ≤ mark_ts x ∧ (x ∈ key_marks st ∨ out = Accepted ∧ x = m);
  dc_seen : out = Accepted → cov st' m;
  dc_count : rel' = rel + mark_count st + (match out with Accepted => 1 | _ => 0 end) - mark_count st';
  dc_rel : rel ≤ rel';
  dc_cap : mark_count st' ≤ Z.max mpk (mark_count st);
  dc_pool : out = Accepted → pool_full = true → 0 < rel';
  dc_top : floor st' = floor st ∨ ∃ x, x ∈ key_marks st ∧ floor st' ≤ mark_ts x + 1;
}.
Section one_key.
Context (m : ReplayMark) (pool_full : bool) (mpk : Z) (Hmpk : 1 ≤ mpk).
Lemma take_mark_spec rel st :
  0 ≤ rel → floor st ≤ mark_ts m → (∀ x, x ∈ key_marks st → floor st ≤ mark_ts x ∧ sane (mark_ts x)) → mark_count st ≤ mpk →
  ∃ out st' rel', take_mark m pool_full mpk rel st = Some (out, st', rel') ∧ (out = Accepted ∨ out = Replay ∧ mark_ts m < floor st' ∨ out = Full ∧ rel = 0) ∧ decided m pool_full mpk rel st out st' rel'.
Proof.
  intros Hrel Hfl Hst Hcap. unfold take_mark. cbv zeta. assert (cov (push_mark m st) m) as Hself by (right; exists m; split; [cbn; apply elem_of_app; right; by apply list_elem_of_singleton|split; [done|by right]]).
  assert (∀ x, cov st x → cov (push_mark m st) x) as Hpush by (intros x [?|(y & Hy & ?)]; [by left|right; exists y; split; [cbn; apply elem_of_app; by left|done]]).
  assert (∀ s, mark_count (push_mark m s) = mark_count s + 1) as Hcnt by (intros s; unfold mark_count; cbn; rewrite length_app; cbn; lia).
  destruct ((mpk <=? mark_count st) || (pool_full && (rel =? 0) && negb (bool_decide (key_marks st = [])))) eqn:E.
  - pose proof (min_ts_spec (key_marks st)) as Hmin. destruct (min_ts (key_marks st)) as [oldest|].
    2: { exfalso. apply orb_true_iff in E as [E%Z.leb_le|[_ E%negb_true_iff]%andb_true_iff]; [unfold mark_count in E; rewrite Hmin in E; cbn in E; lia|by rewrite bool_decide_eq_true_2 in E]. }
    destruct Hmin as [(x0 & Hx0 & Eo) Hall]. rewrite sane_next by (rewrite <- Eo; by apply Hst). pose proof (raise_floor_of_spec (oldest + 1) st) as Hr. destruct (raise_floor_of (oldest + 1) st) as [s1 n].
    destruct Hr as (R1 & R2 & R3 & R4 & R5 & R6 & R7). assert (0 < n) as Hn by (apply R7; exists x0; split; [done|lia]).
    destruct (Z.ltb_spec (mark_ts m) (floor s1)) as [Hlt|Hge]; eexists _, _, _; (split; [done|]); (split; [auto|]); split; rewrite ?Hcnt; cbn [push_mark floor horizon key_marks]; try done; try lia.
    + intros x Hx. apply R5 in Hx as [? ?]. split; [done|by left].
    + right. exists x0. split; [done|]. destruct (Hst x0 Hx0). lia.
    + intros x Hx. apply R6 in Hx as [?|(y & Hy & ?)]; [by left|right; exists y; split; [cbn; apply elem_of_app; by left|done]].
    + intros x [Hx|Hx%list_elem_of_singleton]%elem_of_app; [apply R5 in Hx as [? ?]; split; [done|by left]|subst x; split; [done|right; by split]].
    + intros _. right. exists m. split; [cbn; apply elem_of_app; right; by apply list_elem_of_singleton|split; [done|by right]].
    + right. exists x0. split; [done|]. cbn. destruct (Hst x0 Hx0). lia.
  - apply orb_false_iff in E as [E1%Z.leb_gt E2]. destruct (pool_full && (rel =? 0)) eqn:Ep; eexists _, _, _; (split; [done|]); (split; [first [by left|right; right; split; [done|by apply andb_true_iff in Ep as [_ ?%Z.eqb_eq]]]|]); split; rewrite ?Hcnt; cbn [push_mark floor horizon key_marks]; try done; try lia; try (by left).
    + intros x Hx. split; [by apply Hst|by left].
    + intros x [Hx|Hx%list_elem_of_singleton]%elem_of_app; [split; [by apply Hst|by left]|subst x; split; [done|right; by split]].
    + intros _ Hp. rewrite Hp in Ep. cbn in Ep. apply Z.eqb_neq in Ep. lia.
Qed.
Lemma decided_same out st rel : (∀ x, x ∈ key_marks st → floor st ≤ mark_ts x) → out ≠ Accepted → decided m pool_full mpk rel st out st rel.
Proof. intros Hst Ho. split; try done; [intros x Hx; split; [by apply Hst|by left]|destruct out; (done || lia)|lia|by left]. Qed.
Lemma decide_mark_spec mode rel st :
  0 ≤ rel → (∀ x, x ∈ key_marks st → floor st ≤ mark_ts x ∧ sane (mark_ts x)) → mark_count st ≤ mpk →
  ∃ out st' rel', decide_mark m mode pool_full mpk rel st = Some (out, st', rel') ∧ decided m pool_full mpk rel st out st' rel' ∧
    (out = Accepted → ∀ x, scope x = scope m → mark_ts m < mark_ts x ∨ mark_ts m = mark_ts x ∧ digest m = digest x → ¬ cov st x).
Proof.
  intros Hrel Hst Hcap. unfold decide_mark. assert (∀ out, out ≠ Accepted → ∃ o st' rel', Some (out, st, rel) = Some (o, st', rel') ∧ decided m pool_full mpk rel st o st' rel' ∧
    (o = Accepted → ∀ x, scope x = scope m → mark_ts m < mark_ts x ∨ mark_ts m = mark_ts x ∧ digest m = digest x → ¬ cov st x)) as Hno.
  { intros out Ho. exists out, st, rel. split; [done|]. split; [|done]. apply decided_same; [intros x Hx; by apply Hst|done]. }
  destruct (Z.ltb_spec (mark_ts m) (floor st)) as [Hlow|Hfl]; [by apply Hno|]. cbv zeta. set (mine := retain (in_scope (scope m)) (key_marks st)).
  assert (∀ x, x ∈ mine ↔ x ∈ key_marks st ∧ scope x = scope m) as Hmine by (intros x; unfold mine, in_scope; rewrite elem_of_retain, Z.eqb_eq; tauto).
  assert ((∀ y, y ∈ mine → mark_ts y ≤ mark_ts m) → (∀ y, y ∈ mine → mark_ts y = mark_ts m → digest y ≠ digest m) → ∀ x, scope x = scope m → mark_ts m < mark_ts x ∨ mark_ts m = mark_ts x ∧ digest m = digest x → ¬ cov st x) as Hnew.
  { intros H1 H2 x Hs Hx [Hc|(y & Hy & Hsy & Hc)]; [lia|]. assert (y ∈ mine) as Hym by (apply Hmine; split; [done|congruence]). specialize (H1 y Hym). specialize (H2 y Hym). destruct Hc as [?|[E1 E2]], Hx as [?|[E3 E4]]; lia. }
  pose proof (max_ts_spec mine) as Hmax. destruct (max_ts mine) as [newest|].
  - destruct Hmax as [(y0 & Hy0 & E0) Hall]. destruct (Z.ltb_spec (mark_ts m) newest) as [?|Hge]; [by apply Hno|]. destruct (Z.eqb_spec (mark_ts m) newest) as [Eq|Ne].
    + destruct (_ && _); [by apply Hno|]. destruct (existsb _ mine) eqn:Ex; [by apply Hno|].
      destruct (take_mark_spec rel st Hrel Hfl Hst Hcap) as (out & st' & rel' & -> & _ & Hd). exists out, st', rel'. split; [done|]. split; [done|]. intros _. apply Hnew; [intros y Hy; specialize (Hall y Hy); lia|].
      intros y Hy _ Hdg. apply not_true_iff_false in Ex. apply Ex, existsb_exists. exists y. split; [by apply list_elem_of_In|by apply Z.eqb_eq].
    + set (others := retain _ (key_marks st)). set (st1 := mkKeyState (floor st) (horizon st) others).
      assert (∀ x, x ∈ others ↔ x ∈ key_marks st ∧ scope x ≠ scope m) as Hoth by (intros x; unfold others, in_scope; rewrite elem_of_retain, negb_true_iff, Z.eqb_neq; tauto).
      assert (length others < length (key_marks st))%nat as Hlen by (apply (length_filter_lt _ _ y0); [by apply Hmine|]; apply Hmine in Hy0 as [_ Hs0]; unfold in_scope; rewrite Hs0, Z.eqb_refl; done).
      assert (mark_count st1 = Z.of_nat (length others)) as Hc1 by done. assert (mark_count st = Z.of_nat (length (key_marks st))) as Hc by done.
      destruct (take_mark_spec (rel + (mark_count st - Z.of_nat (length others))) st1) as (out & st' & rel' & -> & Ho & [D1 D2 D3 D4 D5 D6 D7 D8 D9 D10]); [lia|done|intros x [Hx _]%Hoth; by apply Hst|lia|].
      exists out, st', rel'. split; [done|]. split; [|intros _; apply Hnew; [intros y Hy; specialize (Hall y Hy); lia|intros y Hy ?; specialize (Hall y Hy); lia]].
      split; [done|done| | |done|lia|lia|lia|done|].
      * intros x [Hx|(y & Hy & Hs & Hx)]; [apply D3; by left|]. destruct (decide (scope y = scope m)) as [Es|Es]; [|apply D3; right; exists y; split; [by apply Hoth|done]].
        assert (mark_ts x < mark_ts m) as Hlt by (specialize (Hall y ltac:(by apply Hmine)); lia). destruct Ho as [->|[[-> ?]|[-> ?]]]; [|left; lia|lia].
        destruct (D5 eq_refl) as [?|(z & Hz & Hsz & ?)]; [left; lia|]. right. exists z. split; [done|]. split; [congruence|]. left. lia.
      * intros x Hx. destruct (D4 x Hx) as [? [Hin|?]]; (split; [done|]); [left; by apply Hoth|by right].
      * destruct D10 as [?|(x & [Hx _]%Hoth & ?)]; [by left|right; by exists x].
  - destruct (take_mark_spec rel st Hrel Hfl Hst Hcap) as (out & st' & rel' & -> & _ & Hd). exists out, st', rel'. split; [done|]. split; [done|]. intros _. apply Hnew; intros y Hy; rewrite Hmax in Hy; by apply elem_of_nil in Hy.
Qed.
End one_key.

(** ** The guard *)
Definition total_marks (ks : gmap bytes KeyReplayState) : Z := map_fold (λ _ st n, mark_count st + n) 0 ks.
Definition count_of (o : option KeyReplayState) : Z := match o with Some st => mark_count st | None => 0 end.
Lemma total_insert k st ks : total_marks (<[k := st]> ks) = total_marks ks - count_of (ks !! k) + mark_count st.
Proof.
  assert (∀ ks', ks' !! k = None → total_marks (<[k := st]> ks') = mark_count st + total_marks ks') as Hn by (intros ks' E; unfold total_marks; rewrite map_fold_insert_L; [done|intros; lia|done]).
  destruct (ks !! k) as [old|] eqn:E; cbn [count_of]; [|rewrite Hn by done; lia].
  rewrite <- insert_delete_eq, Hn by apply lookup_delete_eq. unfold total_marks at 2. rewrite (map_fold_delete_L _ _ k old ks) by (done || (intros; lia)). fold (total_marks (delete k ks)). lia.
Qed.
Lemma total_delete k st ks : ks !! k = Some st → total_marks (delete k ks) = total_marks ks - mark_count st.
Proof. intros E. unfold total_marks at 2. rewrite (map_fold_delete_L _ _ k st ks) by (done || (intros; lia)). fold (total_marks (delete k ks)). lia. Qed.
Lemma total_nonneg ks k : count_of (ks !! k) ≤ total_marks ks.
Proof.
  assert (∀ ks', 0 ≤ total_marks ks') as H0. { intros ks'. unfold total_marks. apply (map_fold_weak_ind (λ n _, 0 ≤ n)); [lia|]. intros i x m0 n _ Hn. unfold mark_count. lia. }
  destruct (ks !! k) as [st|] eqn:E; cbn; [|apply H0]. pose proof (total_delete k st ks E). specialize (H0 (delete k ks)). lia.
Qed.
Record key_ok (mpk : Z) (st : KeyReplayState) : Prop := mkKeyOk {
  ko_floor : i64_min ≤ floor st ≤ i64_max;
  ko_horizon : floor st - 1 ≤ horizon st ∧ i64_min ≤ horizon st;
  ko_marks : ∀ x, x ∈ key_marks st → floor st ≤ mark_ts x ≤ horizon st ∧ sane (mark_ts x);
  ko_count : mark_count st ≤ mpk;
}.
Definition limits_ok (g : ReplayGuard) : Prop := 1 ≤ max_keys g ∧ 1 ≤ max_marks g ∧ 1 ≤ max_marks_per_key g.
Definition same_limits (g g' : ReplayGuard) : Prop := max_keys g' = max_keys g ∧ max_marks g' = max_marks g ∧ max_marks_per_key g' = max_marks_per_key g.
Record guard_ok (g : ReplayGuard) : Prop := mkGuardOk {
  go_index : ∀ h k, (h, k) ∈ by_horizon g ↔ ∃ st, keys g !! k = Some st ∧ horizon st = h;
  go_total : marks g = total_marks (keys g);
  go_keys : ∀ k st, keys g !! k = Some st → key_ok (max_marks_per_key g) st;
  go_sizes : Z.of_nat (size (keys g)) ≤ max_keys g ∧ marks g ≤ max_marks g;
  go_limits : limits_ok g;
}.
(** A request the guard refuses to accept again. *)
Definition covered (g : ReplayGuard) (k : bytes) (m : ReplayMark) : Prop :=
  mark_ts m ≤ dropped_through g ∨ ∃ st, keys g !! k = Some st ∧ cov st m.
Lemma cov_horizon mpk st m : key_ok mpk st → cov st m → mark_ts m ≤ horizon st.
Proof. intros [_ [H1 _] H2 _] [?|(x & Hx & _ & ?)]; [lia|]. destruct (H2 x Hx) as [? _]. lia. Qed.
Lemma horizon_le_total a b : horizon_le a b = true ∨ horizon_le b a = true.
Proof. apply bytes_le_total. Qed.
Lemma first_horizon_spec s : match first_horizon s with Some x => x ∈ s ∧ ∀ y, y ∈ s → x.1 ≤ y.1 | None => s = ∅ end.
Proof.
  pose proof (least_spec horizon_le horizon_le_total (λ a b c, bytes_le_trans _ _ _) s) as H. unfold first_horizon. destruct (least horizon_le (elements s)) as [x|]; [|done]. destruct H as [H1 H2].
  split; [done|]. intros y Hy. specialize (H2 y Hy). unfold horizon_le, bytes_le in H2. cbn [bytes_cmp] in H2. destruct (Z.compare_spec x.1 y.1); [lia..|done].
Qed.
(** What a sweep at [clock] leaves. *)
Record swept (clock : Z) (g g' : ReplayGuard) : Prop := mkSwept {
  sw_ok : guard_ok g';
  sw_limits : same_limits g g';
  sw_covered : ∀ k m, covered g k m → covered g' k m;
  sw_dropped : dropped_through g ≤ dropped_through g' ∧ (dropped_through g' = dropped_through g ∨ lapsed_at (dropped_through g') clock = true);
  sw_keys : ∀ k st, keys g' !! k = Some st ↔ keys g !! k = Some st ∧ lapsed_at (horizon st) clock = false;
}.
Lemma evict_ok g h k st : guard_ok g → keys g !! k = Some st → horizon st = h →
  let g1 := set_keys g (delete k (keys g)) (by_horizon g ∖ {[(h, k)]}) (marks g - mark_count st) (Z.max (dropped_through g) h) in
  guard_ok g1 ∧ ∀ k' m, covered g k' m → covered g1 k' m.
Proof.
  intros [H1 H2 H3 [H4 H5] H6] E Eh. cbv zeta. split.
  - split; cbn [set_keys keys by_horizon marks max_keys max_marks max_marks_per_key]; [|by rewrite H2, (total_delete k st)|intros k' st' [_ ?]%lookup_delete_Some; by apply (H3 k')| |exact H6].
    + intros h' k'. rewrite elem_of_difference, elem_of_singleton, H1. split.
      * intros [(st' & Hs & Hh) Hne]. exists st'. rewrite lookup_delete_ne; [done|]. intros <-. apply Hne. congruence.
      * intros (st' & [Hne Hs]%lookup_delete_Some & Hh). split; [by exists st'|]. congruence.
    + split; [|unfold mark_count; lia]. assert (size (delete k (keys g)) ≤ size (keys g))%nat by (apply map_subseteq_size, delete_subseteq). lia.
  - intros k' m [Hm|(st' & Hs & Hm)]; [left; cbn; lia|]. destruct (decide (k = k')) as [<-|Hne].
    + left. cbn. assert (st' = st) as -> by congruence. pose proof (cov_horizon _ _ _ (H3 k st E) Hm). lia.
    + right. exists st'. cbn. by rewrite lookup_delete_ne.
Qed.
Lemma prune_loop_spec fuel clock g : guard_ok g → (size (by_horizon g) ≤ fuel)%nat → swept clock g (prune_loop fuel clock g).
Proof.
  revert g. induction fuel as [|fuel IH]; intros g Hok Hf; cbn [prune_loop]; pose proof (first_horizon_spec (by_horizon g)) as Hfirst.
  all: assert (∀ b : bool, (b = false → ∀ k st, keys g !! k = Some st → lapsed_at (horizon st) clock = false) → b = false → swept clock g g) as Hstop
    by (intros b Hb E; split; [done|done|done|split; [done|by left]|]; intros k st; split; [intros Hs; split; [done|by apply (Hb E k)]|by intros [? _]]).
  - apply (Hstop false); [|done]. intros _ k st Hs. exfalso. assert ((horizon st, k) ∈ by_horizon g) as Hin by (apply (go_index _ Hok); by exists st). assert (by_horizon g ≡ ∅) by (apply size_empty_iff; lia). set_solver.
  - destruct (first_horizon (by_horizon g)) as [[h k]|].
    2: { apply (Hstop false); [|done]. intros _ k st Hs. exfalso. assert ((horizon st, k) ∈ by_horizon g) as Hin by (apply (go_index _ Hok); by exists st). set_solver. }
    destruct Hfirst as [Hin Hmin]. destruct (lapsed_at h clock) eqn:El; cbn [negb].
    2: { apply (Hstop false); [|done]. intros _ k' st' Hs. assert ((horizon st', k') ∈ by_horizon g) as Hin' by (apply (go_index _ Hok); by exists st'). apply Hmin in Hin'. cbn in Hin'. unfold lapsed_at in *. apply Z.ltb_ge in El. apply Z.ltb_ge. lia. }
    destruct (proj1 (go_index _ Hok h k) Hin) as (st & Hs & Hh). rewrite Hs. destruct (evict_ok g h k st Hok Hs Hh) as [Hok1 Hcov]. cbv zeta in *. set (g1 := set_keys _ _ _ _ _) in *.
    assert (size (by_horizon g ∖ {[(h, k)]}) < size (by_horizon g))%nat as Hsz by (apply subset_size; set_solver).
    destruct (IH g1 Hok1 ltac:(cbn; lia)) as [A1 A2 A3 A4 A5]. split; [done|done|auto| |].
    + destruct A4 as [A4 A6]. cbn [g1 set_keys dropped_through] in A4, A6. split; [lia|]. destruct A6 as [A6|A6]; [|by right]. rewrite A6. destruct (Z.max_spec (dropped_through g) h) as [[_ ->]|[_ ->]]; [by right|by left].
    + intros k' st'. rewrite A5. cbn [g1 set_keys keys]. rewrite lookup_delete_Some. split; [tauto|]. intros [Hs' Hl]. split; [|done]. split; [|done]. intros <-. congruence.
Qed.
Lemma prune_guard_spec now g : guard_ok g → swept (prune_clock now) g (prune_guard now g).
Proof. intros Hok. by apply prune_loop_spec. Qed.
(** What admitting keeps of the guard it finds. *)
Record carried (clock : Z) (g g' : ReplayGuard) : Prop := mkCarried {
  cr_ok : guard_ok g';
  cr_limits : same_limits g g';
  cr_covered : ∀ k m, covered g k m → covered g' k m;
  cr_dropped : dropped_through g ≤ dropped_through g';
  cr_keys : ∀ k st, keys g !! k = Some st → lapsed_at (horizon st) clock = false → keys g' !! k = Some st;
}.
Lemma swept_carried clock g g' : swept clock g g' → carried clock g g'.
Proof. intros [A1 A2 A3 [A4 _] A5]. split; [done..|]. intros k st ? ?. by apply A5. Qed.
Lemma carried_refl clock g : guard_ok g → carried clock g g.
Proof. intros H. by split. Qed.
Lemma carried_trans clock g1 g2 g3 : carried clock g1 g2 → carried clock g2 g3 → carried clock g1 g3.
Proof. intros [A1 (? & ? & ?) A3 A4 A5] [B1 (? & ? & ?) B3 B4 B5]. split; [done|repeat split; congruence|auto|lia|auto]. Qed.
Definition blank_state : KeyReplayState := mkKeyState i64_min i64_min [].
(** The state [state_mut] hands out, and the guard it is in. *)
Definition prepared (g1 : ReplayGuard) (k : bytes) (st : KeyReplayState) (g2 : ReplayGuard) : Prop :=
  keys g1 !! k = Some st ∧ g2 = g1 ∨
  keys g1 !! k = None ∧ st = blank_state ∧ g2 = set_keys g1 (<[k := st]> (keys g1)) (by_horizon g1) (marks g1) (dropped_through g1) ∧
    Z.of_nat (size (keys g1)) < max_keys g1 ∧ marks g1 < max_marks g1.
Lemma state_mut_spec k now g : guard_ok g →
  match state_mut k now g with
  | (None, g1) => carried (prune_clock now) g g1
  | (Some st, g2) => ∃ g1, carried (prune_clock now) g g1 ∧ prepared g1 k st g2 ∧ (g1 = g ∨ marks g1 < max_marks g1)
  end.
Proof.
  intros Hok. unfold state_mut. destruct (keys g !! k) as [st|] eqn:E; [exists g; split; [by apply carried_refl|]; split; [by left|by left]|].
  pose proof (prune_guard_spec now g Hok) as Hs. cbv zeta. set (g1 := prune_guard now g) in *. destruct ((_ <? _) && (_ <? _)) eqn:El; [|by apply swept_carried].
  apply andb_true_iff in El as [?%Z.ltb_lt ?%Z.ltb_lt]. exists g1. split; [by apply swept_carried|]. split; [|by right]. right. split; [|done].
  destruct (keys g1 !! k) as [x|] eqn:Ex; [|done]. apply (sw_keys _ _ _ Hs) in Ex as [? _]. congruence.
Qed.
Lemma prepared_key g1 k st g2 : guard_ok g1 → prepared g1 k st g2 → key_ok (max_marks_per_key g1) st ∧ marks g2 = marks g1 ∧ dropped_through g2 = dropped_through g1 ∧ same_limits g1 g2.
Proof.
  intros Hok [[Hs ->]|(_ & -> & -> & _)]; [split; [by apply (go_keys _ Hok k)|done]|]. split; [|done]. destruct (go_limits _ Hok) as (_ & _ & ?).
  split; cbn; [unfold i64_min, i64_max; lia|lia|by intros x ?%elem_of_nil|unfold mark_count; cbn; lia].
Qed.
Section settle.
Context (g1 g2 : ReplayGuard) (k : bytes) (st st' : KeyReplayState) (total d : Z).
Context (Hok : guard_ok g1) (Hp : prepared g1 k st g2) (Hh : horizon st' = horizon st) (Hf : i64_min ≤ floor st' ≤ i64_max)
  (Hm : ∀ x, x ∈ key_marks st' → floor st' ≤ mark_ts x ∧ sane (mark_ts x)) (Hc : mark_count st' ≤ max_marks_per_key g1)
  (Ht : total = marks g1 - mark_count st + mark_count st') (Hmax : total ≤ max_marks g1) (Hd : dropped_through g1 ≤ d) (Hcov : ∀ x, cov st x → mark_ts x ≤ d ∨ cov st' x).
Let h := Z.max (Z.max (horizon st') (default i64_min (max_ts (key_marks st')))) (i64_saturating_sub (floor st') 1).
Lemma settle_key : key_ok (max_marks_per_key g1) (mkKeyState (floor st') h (key_marks st')).
Proof.
  destruct (prepared_key g1 k st g2 Hok Hp) as [[_ [K1 K2] _ _] _]. pose proof (max_ts_spec (key_marks st')) as Hx.
  assert (floor st' - 1 ≤ i64_saturating_sub (floor st') 1) as Hsub by (unfold i64_saturating_sub, clamp; lia).
  split; cbn [floor horizon key_marks]; [done|unfold h; lia| |done]. intros x Hin. destruct (Hm x Hin) as [? ?]. split; [|done]. split; [done|]. unfold h.
  destruct (max_ts (key_marks st')) as [n|]; [|rewrite Hx in Hin; by apply elem_of_nil in Hin]. destruct Hx as [_ Hall]. specialize (Hall x Hin). cbn [from_option Datatypes.id]. lia.
Qed.
Lemma settle_size : Z.of_nat (size (<[k := mkKeyState (floor st') h (key_marks st')]> (keys g2))) ≤ max_keys g1 ∧ total_marks (<[k := mkKeyState (floor st') h (key_marks st')]> (keys g2)) = total.
Proof.
  rewrite total_insert. destruct (go_sizes _ Hok) as [S1 _]. pose proof (go_total _ Hok) as Htot. assert (mark_count blank_state = 0) as H0 by reflexivity.
  change (mark_count (mkKeyState (floor st') h (key_marks st'))) with (mark_count st'). destruct Hp as [[Hs ->]|(Hn & Est & -> & S2 & _)].
  - rewrite map_size_insert_Some by by eexists. rewrite Hs. cbn [count_of]. split; [done|lia].
  - cbn [set_keys keys]. rewrite insert_insert_eq, lookup_insert_eq, map_size_insert_None, total_insert, Hn by done. cbn [count_of]. rewrite Est in *. split; lia.
Qed.
Lemma settle_spec :
  let g' := reindex k st' (horizon st) total d g2 in
  guard_ok g' ∧ same_limits g1 g' ∧ dropped_through g' = d ∧ (∀ k' x, covered g1 k' x → covered g' k' x) ∧ (∀ x, cov st' x → covered g' k x).
Proof.
  assert (by_horizon g2 = by_horizon g1 ∧ max_keys g2 = max_keys g1 ∧ max_marks g2 = max_marks g1 ∧ max_marks_per_key g2 = max_marks_per_key g1 ∧ (∀ k', k' ≠ k → keys g2 !! k' = keys g1 !! k')) as (E1 & E2 & E3 & E4 & E5).
  { destruct Hp as [[_ ->]|(_ & _ & -> & _)]; [done|]. repeat split. intros k' Hne. cbn. by rewrite lookup_insert_ne. }
  assert (∀ h', (h', k) ∈ by_horizon g1 → h' = horizon st) as Hone.
  { intros h' (s & Hs & <-)%(go_index _ Hok). destruct Hp as [[Hs' _]|[Hn _]]; congruence. }
  cbv zeta. unfold reindex. fold h.
  set (index := if negb (h =? horizon st) || negb (bool_decide ((horizon st, k) ∈ by_horizon g2)) then {[(h, k)]} ∪ (by_horizon g2 ∖ {[(horizon st, k)]}) else by_horizon g2).
  assert (∀ h' k', (h', k') ∈ index ↔ (k' = k ∧ h' = h) ∨ (k' ≠ k ∧ (h', k') ∈ by_horizon g1)) as Hidx.
  { intros h' k'. unfold index. rewrite E1. destruct (negb (h =? horizon st) || negb (bool_decide ((horizon st, k) ∈ by_horizon g1))) eqn:Ei.
    - rewrite elem_of_union, elem_of_difference, !elem_of_singleton. split.
      + intros [[= -> ->]|[Hin Hne]]; [by left|]. right. split; [|done]. intros ->. apply Hne. by rewrite (Hone h' Hin).
      + intros [[-> ->]|[Hne Hin]]; [by left|]. right. split; [done|]. congruence.
    - apply orb_false_iff in Ei as [Eh%negb_false_iff%Z.eqb_eq Ein%negb_false_iff%bool_decide_eq_true]. split.
      + intros Hin. destruct (decide (k' = k)) as [->|Hne]; [left; split; [done|]; rewrite (Hone h' Hin); lia|by right].
      + intros [[-> ->]|[_ ?]]; [by rewrite Eh|done]. }
  destruct settle_size as [S1 S2]. split; [|split; [done|split; [done|split]]].
  - split; cbn [set_keys keys by_horizon marks max_keys max_marks max_marks_per_key]; rewrite ?E2, ?E3, ?E4; [|done| |done|unfold limits_ok; cbn [set_keys max_keys max_marks max_marks_per_key]; rewrite E2, E3, E4; exact (go_limits _ Hok)].
    + intros h' k'. rewrite Hidx. destruct (decide (k = k')) as [<-|Hne].
      * rewrite lookup_insert_eq. split; [intros [[_ ->]|[? _]]; [by eexists|done]|intros (s & [= <-] & <-); by left].
      * rewrite lookup_insert_ne, E5 by done. rewrite (go_index _ Hok). split; [intros [[-> _]|[_ ?]]; done|intros ?; right; by split].
    + intros k' s [[<- <-]|[Hne Hs]]%lookup_insert_Some; [apply settle_key|]. rewrite E5 in Hs by done. by apply (go_keys _ Hok k').
  - intros k' x [Hx|(s & Hs & Hx)]; [left; cbn; lia|]. destruct (decide (k = k')) as [<-|Hne]; [|right; exists s; cbn; by rewrite lookup_insert_ne, E5].
    destruct Hp as [[Hs' _]|[Hn _]]; [|congruence]. assert (s = st) as -> by congruence. destruct (Hcov x Hx) as [?|?]; [by left|right]. eexists. cbn. rewrite lookup_insert_eq. by split.
  - intros x Hx. right. eexists. cbn. rewrite lookup_insert_eq. by split.
Qed.
End settle.

(** ** Admitting *)
Lemma fresh_not_lapsed ts t now : fresh_at ts (wall now) = true → ts ≤ t → i64_min ≤ t → lapsed_at t (prune_clock now) = false.
Proof. unfold fresh_at, lapsed_at, prune_clock, i64_saturating_sub, clamp, MAX_TIMESTAMP_SKEW_SECS. intros H%Z.leb_le H1 H2. apply Z.ltb_ge. lia. Qed.
(** The marks of a key without those that lapsed. *)
Definition unlapsed (clock : Z) (st : KeyReplayState) : KeyReplayState := mkKeyState (floor st) (horizon st) (retain (λ x, negb (lapsed_at (mark_ts x) clock)) (key_marks st)).
Lemma elem_of_unlapsed clock st x : x ∈ key_marks (unlapsed clock st) ↔ x ∈ key_marks st ∧ lapsed_at (mark_ts x) clock = false.
Proof. cbn. rewrite elem_of_retain, negb_true_iff. tauto. Qed.
Lemma unlapsed_cov clock st x d :
  cov st x → (∀ n, max_ts (retain (λ x, lapsed_at (mark_ts x) clock) (key_marks st)) = Some n → n ≤ d) → mark_ts x ≤ d ∨ cov (unlapsed clock st) x.
Proof.
  intros [Hx|(y & Hy & Hs & Hx)] Hd; [right; by left|]. destruct (lapsed_at (mark_ts y) clock) eqn:El; [left|right; right; exists y; split; [by apply elem_of_unlapsed|done]].
  pose proof (max_ts_spec (retain (λ x, lapsed_at (mark_ts x) clock) (key_marks st))) as Hm. assert (y ∈ retain (λ x, lapsed_at (mark_ts x) clock) (key_marks st)) as Hin by by apply elem_of_retain.
  destruct (max_ts _) as [n|]; [destruct Hm as [_ Hall]; specialize (Hall y Hin); specialize (Hd n eq_refl); lia|rewrite Hm in Hin; by apply elem_of_nil in Hin].
Qed.
(** What every operation keeps: the invariant, the limits, and what is refused. *)
Definition guarded (g g' : ReplayGuard) : Prop := guard_ok g' ∧ same_limits g g' ∧ (∀ k m, covered g k m → covered g' k m) ∧ dropped_through g ≤ dropped_through g'.
Lemma guarded_refl g : guard_ok g → guarded g g.
Proof. intros H. split; [done|]. split; [done|]. by split. Qed.
Lemma carried_guarded clock g g1 : carried clock g g1 → guarded g g1.
Proof. by intros []. Qed.
Lemma guarded_trans g1 g2 g3 : guarded g1 g2 → guarded g2 g3 → guarded g1 g3.
Proof. intros (A1 & (? & ? & ?) & A3 & ?) (B1 & (? & ? & ?) & B3 & ?). split; [done|]. split; [repeat split; congruence|]. split; [auto|lia]. Qed.
Lemma admit_spec k m mode now g : guard_ok g → sane (mark_ts m) →
  ∃ out g', admit_request k m mode now g = (Some out, g') ∧ guarded g g' ∧
    (out = Accepted → covered g' k m ∧ ∀ x, scope x = scope m → mark_ts m < mark_ts x ∨ mark_ts m = mark_ts x ∧ digest m = digest x → ¬ covered g k x).
Proof.
  intros Hok Hsane. unfold admit_request. destruct (guard_fresh (mark_ts m) now g) eqn:Ef; cbn [negb]; [|exists Stale, g; split; [done|]; split; [by apply guarded_refl|done]].
  apply andb_true_iff in Ef as [Ef Ed%Z.ltb_lt]. cbv zeta. pose proof (swept_carried _ _ _ (prune_guard_spec now g Hok)) as Ha. set (ga := prune_guard now g) in *. clearbody ga.
  pose proof (state_mut_spec k now ga (cr_ok _ _ _ Ha)) as Hs. destruct (state_mut k now ga) as [[st|] g2].
  2: { exists Full, g2. split; [done|]. split; [|done]. by eapply carried_guarded, carried_trans. }
  destruct Hs as (g1 & Hb & Hp & Hpool). pose proof (carried_trans _ _ _ _ Ha Hb) as Hab. destruct (prepared_key g1 k st g2 (cr_ok _ _ _ Hb) Hp) as ([K1 K2 K3 K4] & P1 & P2 & (P3 & P4 & P5)).
  set (clock := prune_clock now) in *. fold (unlapsed clock st). set (st0 := unlapsed clock st). set (pf := max_marks ga <=? marks ga). set (rel := mark_count st - _).
  assert (mark_count st0 = mark_count st - rel) as Hc0 by (unfold rel, st0, mark_count; cbn; lia). assert (0 ≤ rel) as Hrel by (unfold rel, mark_count; pose proof (retain_le (λ x, negb (lapsed_at (mark_ts x) clock)) (key_marks st)); lia).
  destruct (go_limits _ (cr_ok _ _ _ Hb)) as (L1 & L2 & L3). rewrite P5.
  destruct (decide_mark_spec m pf (max_marks_per_key g1) L3 mode rel st0) as (out & st' & rel' & -> & [D1 D2 D3 D4 D5 D6 D7 D8 D9 D10] & Hnew); [done|intros x [Hx _]%elem_of_unlapsed; destruct (K3 x Hx) as [[? ?] ?]; done|lia|].
  set (total := marks g2 - rel' + _). set (dropped := max_ts _). set (d := match dropped with Some x => _ | None => _ end).
  assert (dropped_through g1 ≤ d ∧ ∀ n, dropped = Some n → n ≤ d) as [Hd1 Hd2] by (unfold d; rewrite P2; destruct dropped; split; [lia|intros n [= <-]; lia|lia|done]).
  assert (settle_goal : guarded g1 (reindex k st' (horizon st) total d g2) ∧ ∀ x, cov st' x → covered (reindex k st' (horizon st) total d g2) k x).
  { destruct (settle_spec g1 g2 k st st' total d) as (S1 & S2 & S3 & S4 & S5); [by destruct Hb|done|done|..].
    - cbn in D1. split; [lia|]. destruct D10 as [->|(x & [Hx _]%elem_of_unlapsed & ?)]; [cbn; lia|]. destruct (K3 x Hx) as [_ [_ ?]]. lia.
    - intros x Hx. destruct (D4 x Hx) as [? [[Hin _]%elem_of_unlapsed|[_ ->]]]; (split; [done|]); [by apply K3|done].
    - lia.
    - unfold total. lia.
    - unfold total. rewrite P1. destruct (go_sizes _ (cr_ok _ _ _ Hb)) as [_ ?]. destruct (decide (out = Accepted)) as [->|Hne]; [|destruct out; (done || lia)].
      destruct pf eqn:Epf; [specialize (D9 eq_refl eq_refl); lia|]. apply Z.leb_gt in Epf. destruct Hpool as [->|?]; lia.
    - done.
    - intros x Hx. destruct (unlapsed_cov clock st x d Hx Hd2) as [?|?]; [by left|right; by apply D3].
    - split; [|done]. split; [done|]. split; [done|]. split; [done|lia]. }
  destruct settle_goal as [Hg Hcov]. eexists out, _. split; [reflexivity|]. split; [eapply guarded_trans; [by eapply carried_guarded|exact Hg]|].
  intros ->. split; [by apply Hcov, D5|]. intros x Hsx Hx Hcx. apply (Hnew eq_refl x Hsx Hx). destruct Hcx as [?|(sg & Hsg & Hcx)]; [lia|].
  assert (i64_min ≤ mark_ts x) as Hmin by (destruct Hsane; lia). pose proof (cov_horizon _ _ _ (go_keys _ Hok k sg Hsg) Hcx) as Hhz.
  assert (keys g1 !! k = Some sg) as Hsg1 by (apply (cr_keys _ _ _ Hab); [done|]; apply (fresh_not_lapsed (mark_ts m)); [done|lia|lia]).
  assert (sg = st) as -> by (destruct Hp as [[? _]|[? _]]; congruence). destruct Hcx as [?|(y & Hy & Hsy & Hxy)]; [by left|right]. exists y. split; [|done]. apply elem_of_unlapsed. split; [done|].
  apply (fresh_not_lapsed (mark_ts m)); [done|lia|lia].
Qed.
Lemma raise_floor_spec k ts now g : guard_ok g → sane ts →
  let '(out, g') := raise_floor k ts now g in guarded g g' ∧
    (out = Accepted → (∀ m, mark_ts m ≤ ts → covered g' k m) ∧ dropped_through g < ts ∧ ∀ st, keys g !! k = Some st → floor st ≤ ts).
Proof.
  intros Hok Hsane. unfold raise_floor. destruct (guard_fresh ts now g) eqn:Ef; cbn [negb]; [|split; [by apply guarded_refl|done]]. cbv zeta.
  apply andb_true_iff in Ef as [Ef Ed%Z.ltb_lt].
  pose proof (swept_carried _ _ _ (prune_guard_spec now g Hok)) as Ha. set (ga := prune_guard now g) in *. clearbody ga. pose proof (state_mut_spec k now ga (cr_ok _ _ _ Ha)) as Hs. destruct (state_mut k now ga) as [[st|] g2].
  2: { split; [|done]. by eapply carried_guarded, carried_trans. }
  destruct Hs as (g1 & Hb & Hp & _). pose proof (carried_trans _ _ _ _ Ha Hb) as Hcr. pose proof (carried_guarded _ _ _ Hcr) as Hab. destruct (prepared_key g1 k st g2 (cr_ok _ _ _ Hb) Hp) as ([K1 K2 K3 K4] & P1 & P2 & (P3 & P4 & P5)).
  destruct (Z.ltb_spec ts (floor st)) as [Hlow|Hge].
  - split; [|done]. destruct Hp as [[_ ->]|(_ & -> & _)]; [done|]. cbn in Hlow. destruct Hsane. lia.
  - rewrite sane_next by done. pose proof (raise_floor_of_spec (ts + 1) st) as Hr. destruct (raise_floor_of (ts + 1) st) as [st' n]. destruct Hr as (R1 & R2 & R3 & R4 & R5 & R6 & _).
    destruct (settle_spec g1 g2 k st st' (marks g2 - n) (dropped_through g2)) as (S1 & S2 & S3 & S4 & S5); [by destruct Hb|done|done|..].
    + destruct Hsane. lia.
    + intros x Hx. apply R5 in Hx as [Hx ?]. split; [done|by apply K3].
    + lia.
    + lia.
    + destruct (go_sizes _ (cr_ok _ _ _ Hb)). lia.
    + lia.
    + intros x Hx. right. by apply R6.
    + split; [eapply guarded_trans; [exact Hab|]; split; [done|]; split; [done|]; split; [done|lia]|]. intros _. split; [intros m Hm; apply S5; left; lia|]. split; [done|].
      intros sg Hsg. destruct (Z.leb_spec (floor sg) ts) as [?|Hlt]; [done|exfalso].
      assert (keys g1 !! k = Some sg) as Hsg1; [|destruct Hp as [[? _]|[? _]]; [|congruence]; assert (sg = st) as -> by congruence; lia].
      pose proof (cov_horizon _ _ (mkMark 0 ts 0) (go_keys _ Hok k sg Hsg) (or_introl Hlt)) as Hhz. cbn in Hhz.
      apply (cr_keys _ _ _ Hcr); [done|]. apply (fresh_not_lapsed ts); [done|lia|destruct Hsane; lia].
Qed.

(** ** Histories *)

(** A guard in use, with the requests it accepted and the floors it raised; the clocks of
    each call are arbitrary. *)
Inductive guard_reach : list (bytes * ReplayMark) → list (bytes * Z) → ReplayGuard → Prop :=
  | guard_new mk mm mpk : guard_reach [] [] (with_limits mk mm mpk)
  | guard_admitted k m mode now seen floors g : sane (mark_ts m) → guard_reach seen floors g →
      guard_reach (if decide ((admit_request k m mode now g).1 = Some Accepted) then (k, m) :: seen else seen) floors (admit_request k m mode now g).2
  | guard_raised k ts now seen floors g : sane ts → guard_reach seen floors g →
      guard_reach seen (if decide ((raise_floor k ts now g).1 = Accepted) then (k, ts) :: floors else floors) (raise_floor k ts now g).2
  | guard_pruned now seen floors g : guard_reach seen floors g → guard_reach seen floors (prune_guard now g).
Lemma new_guard_ok mk mm mpk : guard_ok (with_limits mk mm mpk).
Proof.
  split; cbn [with_limits keys by_horizon marks max_keys max_marks max_marks_per_key].
  - intros h k. split; [set_solver|]. intros (st & Hs & _). by rewrite lookup_empty in Hs.
  - reflexivity.
  - intros k st Hs. by rewrite lookup_empty in Hs.
  - rewrite map_size_empty. lia.
  - unfold limits_ok. cbn. lia.
Qed.
Lemma guard_reach_ok seen floors g : guard_reach seen floors g →
  guard_ok g ∧ (∀ k m, (k, m) ∈ seen → covered g k m) ∧ (∀ k t m, (k, t) ∈ floors → mark_ts m ≤ t → covered g k m).
Proof.
  assert (∀ g g' (seen : list (bytes * ReplayMark)) (floors : list (bytes * Z)), guarded g g' → (∀ k m, (k, m) ∈ seen → covered g k m) → (∀ k t m, (k, t) ∈ floors → mark_ts m ≤ t → covered g k m) →
    guard_ok g' ∧ (∀ k m, (k, m) ∈ seen → covered g' k m) ∧ (∀ k t m, (k, t) ∈ floors → mark_ts m ≤ t → covered g' k m)) as Hstep.
  { intros g0 g' seen0 floors0 (A1 & _ & A3 & _) B1 B2. split; [done|]. split; [intros k m ?; by apply A3, B1|intros k t m ? ?; by apply A3, (B2 k t)]. }
  induction 1 as [mk mm mpk|k m mode now seen floors g Hs _ (IH1 & IH2 & IH3)|k ts now seen floors g Hs _ (IH1 & IH2 & IH3)|now seen floors g _ (IH1 & IH2 & IH3)].
  - split; [apply new_guard_ok|]. split; [by intros k m ?%elem_of_nil|by intros k t m ?%elem_of_nil].
  - destruct (admit_spec k m mode now g IH1 Hs) as (out & g' & -> & Hg & Hacc). cbn [fst snd]. destruct (Hstep g g' seen floors Hg IH2 IH3) as (B1 & B2 & B3). split; [done|]. split; [|done].
    case_decide as E; [|done]. injection E as ->. intros k' m' [[= -> ->]|Hin]%elem_of_cons; [by apply Hacc|by apply B2].
  - pose proof (raise_floor_spec k ts now g IH1 Hs) as Hr. destruct (raise_floor k ts now g) as [out g']. cbn [fst snd]. destruct Hr as [Hg Hacc]. destruct (Hstep g g' seen floors Hg IH2 IH3) as (B1 & B2 & B3). split; [done|]. split; [done|].
    case_decide as E; [|done]. intros k' t m' [[= -> ->]|Hin]%elem_of_cons Hle; [by apply Hacc|by apply (B3 k' t)].
  - by apply (Hstep g), IH3; [eapply carried_guarded, swept_carried, prune_guard_spec|..].
Qed.
(** What a raised floor leaves: the key's floor is above it, or the key's state was evicted
    and the watermark of dropped timestamps is at or above it. *)
Lemma floors_hold seen floors g k t : guard_reach seen floors g → (k, t) ∈ floors →
  t ≤ dropped_through g ∨ ∃ st, keys g !! k = Some st ∧ t < floor st.
Proof.
  intros (Hok & _ & Hfl)%guard_reach_ok Hin.
  destruct (Hfl k t (mkMark (fresh (scope <$> default [] (key_marks <$> keys g !! k))) t 0) Hin (Z.le_refl t)) as [?|(st & Hst & [?|(x & Hx & Hsc & _)])]; [by left|right; by exists st|].
  exfalso. cbn in Hsc. apply (infinite_is_fresh (scope <$> default [] (key_marks <$> keys g !! k))). rewrite <- Hsc, Hst. cbn. apply list_elem_of_fmap. by exists x.
Qed.
(** C7: on every guard in use and whatever the clocks of the call: admitting a request always
    answers (the [expect] of the code cannot fail); a request the guard once accepted is not
    accepted again, nor an older one of the same key and scope, nor any of a key at or below
    a floor raised for it; a floor at or below one raised for the key is not raised again
    (a replayed unregister); and the stateless check lets such a request through only
    once the key's state was evicted, when the watermark of dropped timestamps has passed
    it. *)
Theorem replays_refused seen floors g k now : guard_reach seen floors g →
  (∀ m mode, sane (mark_ts m) → ∃ out, (admit_request k m mode now g).1 = Some out ∧
    ((∃ x, (k, x) ∈ seen ∧ scope x = scope m ∧ (mark_ts m < mark_ts x ∨ mark_ts m = mark_ts x ∧ digest m = digest x)) ∨ (∃ t, (k, t) ∈ floors ∧ mark_ts m ≤ t) → out ≠ Accepted)) ∧
  (∀ ts t, sane ts → (k, t) ∈ floors → ts ≤ t → (raise_floor k ts now g).1 ≠ Accepted) ∧
  (∀ ts t, (k, t) ∈ floors → ts ≤ t → check_floor k ts now g = Accepted → ts ≤ dropped_through g).
Proof.
  intros Hr. pose proof Hr as (Hok & Hseen & Hfl)%guard_reach_ok. split; [|split].
  - intros m mode Hs. destruct (admit_spec k m mode now g Hok Hs) as (out & g' & -> & _ & Hacc). exists out. split; [done|]. intros Hwhy ->. destruct (Hacc eq_refl) as [_ Hno].
    destruct Hwhy as [(x & Hx & Hsc & Hle)|(t & Ht & Hle)]; [by apply (Hno x Hsc Hle), Hseen|].
    apply (Hno (mkMark (scope m) t (digest m)) eq_refl); cbn [mark_ts digest]; [destruct (decide (mark_ts m = t)); [by right|left; lia]|]. by apply (Hfl k t).
  - intros ts t Hs Hin Hle. pose proof (raise_floor_spec k ts now g Hok Hs) as Hspec. destruct (raise_floor k ts now g) as [out g']. intros Hacc. destruct Hspec as [_ Hspec]. destruct (Hspec Hacc) as (_ & Hd & Hst).
    destruct (floors_hold _ _ _ _ _ Hr Hin) as [?|(st & Hk & ?)]; [lia|]. specialize (Hst st Hk). lia.
  - intros ts t Hin Hle. unfold check_floor. destruct (negb _); [done|]. destruct (floors_hold _ _ _ _ _ Hr Hin) as [?|(st & -> & ?)]; [lia|]. by rewrite (proj2 (Z.ltb_lt _ _)) by lia.
Qed.
(** The replay guard stays within its limits: keys, marks over all and marks a key; its count
    of marks is exact, its eviction order lists exactly the keys by their horizons, and
    an eviction pass takes exactly the keys whose horizon has left the window. *)
Theorem replay_guard_bounded seen floors g now : guard_reach seen floors g →
  Z.of_nat (size (keys g)) ≤ max_keys g ∧ marks g = total_marks (keys g) ∧ marks g ≤ max_marks g ∧ (∀ k st, keys g !! k = Some st → mark_count st ≤ max_marks_per_key g) ∧
  (∀ h k, (h, k) ∈ by_horizon g ↔ ∃ st, keys g !! k = Some st ∧ horizon st = h) ∧
  (∀ k st, keys (prune_guard now g) !! k = Some st ↔ keys g !! k = Some st ∧ lapsed_at (horizon st) (prune_clock now) = false).
Proof.
  intros (Hok & _)%guard_reach_ok. pose proof Hok as [H1 H2 H3 [H4 H5] _]. split; [done|]. split; [done|]. split; [done|]. split; [intros k st Hs; by apply (H3 k)|]. split; [done|].
  apply (sw_keys _ _ _ (prune_guard_spec now g Hok)).
Qed.

(** ** A concrete guard *)
Definition request_1 : ReplayMark := mkMark 7 1000 42.
Definition one_accepted : ReplayGuard := (admit_request [1] request_1 OneTime (mkReplayNow 1000 1000) ReplayGuard_default).2.
Lemma one_accepted_reach : guard_reach [([1], request_1)] [] one_accepted.
Proof. exact (guard_admitted [1] request_1 OneTime (mkReplayNow 1000 1000) [] [] ReplayGuard_default ltac:(unfold sane, i64_min, i64_max; cbn; lia) (guard_new MAX_REPLAY_KEYS MAX_REPLAY_MARKS MAX_REPLAY_MARKS_PER_KEY)). Qed.
Definition one_unregistered : ReplayGuard := (raise_floor [1] 1010 (mkReplayNow 1010 1010) one_accepted).2.
Lemma one_unregistered_reach : guard_reach [([1], request_1)] [([1], 1010)] one_unregistered.
Proof. exact (guard_raised [1] 1010 (mkReplayNow 1010 1010) [([1], request_1)] [] one_accepted ltac:(unfold sane, i64_min, i64_max; cbn; lia) one_accepted_reach). Qed.
Lemma replays_refused_witness :
  (∃ out, (admit_request [1] request_1 OneTime (mkReplayNow 900 900) one_unregistered).1 = Some out ∧ out ≠ Accepted) ∧
  (∃ out, (admit_request [1] (mkMark 7 1011 42) OneTime (mkReplayNow 1011 1011) one_unregistered).1 = Some out) ∧
  (raise_floor [1] 1010 (mkReplayNow 1010 1010) one_unregistered).1 ≠ Accepted.
Proof.
  destruct (replays_refused [([1], request_1)] [([1], 1010)] one_unregistered [1] (mkReplayNow 900 900) one_unregistered_reach) as (H1 & _ & _).
  destruct (replays_refused [([1], request_1)] [([1], 1010)] one_unregistered [1] (mkReplayNow 1011 1011) one_unregistered_reach) as (H2 & _ & _).
  destruct (replays_refused [([1], request_1)] [([1], 1010)] one_unregistered [1] (mkReplayNow 1010 1010) one_unregistered_reach) as (_ & H3 & _). split; [|split].
  - destruct (H1 request_1 OneTime) as (out & E & Hno); [unfold sane, i64_min, i64_max; cbn; lia|]. exists out. split; [exact E|]. apply Hno.
    left. exists request_1. split; [left|]. split; [reflexivity|right; split; reflexivity].
  - destruct (H2 (mkMark 7 1011 42) OneTime) as (out & E & _); [unfold sane, i64_min, i64_max; cbn; lia|]. exists out. exact E.
  - apply (H3 1010 1010); [unfold sane, i64_min, i64_max; lia|left|lia].
Defined.
Lemma replay_guard_bounded_witness : keys one_accepted !! [1] = Some (mkKeyState i64_min 1000 [request_1]) ∧ marks one_accepted = total_marks (keys one_accepted).
Proof. split; [vm_compute; reflexivity|]. refine (proj1 (proj2 (replay_guard_bounded [([1], request_1)] [] one_accepted (mkReplayNow 0 0) one_accepted_reach))). Defined.
