(* ===== verification/Mailbox.v ===== *)
(** * Chat mailboxes of the rendezvous server

    [ChatMailboxStore] of [rendezvous-server/src/chat_mailbox.rs]: sealed entries left in
    boxes, with caps per box, per depositor's network and over all, room made by dropping
    the oldest entries of the network that holds the most, and the bookkeeping of bytes
    and of deposit order that this takes. *)
From S2P Require Import Prelude NodeId Addr MapOrder RateBucket.
Local Open Scope Z_scope.

Definition BLOB_SIZES : list Z := [512; 1024; 2048; 4608].
Definition ITEM_TTL : Z := 7 * 24 * 60 * 60.
Definition MAX_ITEMS_PER_BOX : Z := 64.
Definition MAX_BYTES_PER_BOX : Z := 256 * 1024.
Definition MAX_TOTAL_BYTES : Z := 64 * 1024 * 1024.
Definition MAX_BYTES_PER_NETWORK : Z := 4 * 1024 * 1024.
Definition MAX_ITEMS_PER_FETCH : nat := 32.

Notation BoxId := bytes.
Notation ItemId := bytes.
Record Item := mkItem { item_id : ItemId; blob : bytes; expires_at : Z; network : IpAddr }.
Inductive PutError := BadSize | BoxFull | StoreFull | NetworkFull.
Definition blob_len (it : Item) : Z := Z.of_nat (length (blob it)).

(** The two maps [release_item] changes. *)
Record Books := mkBooks { network_bytes : gmap IpAddr Z; network_order : gmap IpAddr (list (BoxId * ItemId)) }.
Record ChatMailboxStore := mkStore { boxes : gmap BoxId (list Item); total_bytes : Z; books : Books }.
Definition ChatMailboxStore_default : ChatMailboxStore := mkStore ∅ 0 (mkBooks ∅ ∅).
Definition put_order (n : IpAddr) (q : list (BoxId * ItemId)) (b : Books) : Books := mkBooks (network_bytes b) (<[n := q]> (network_order b)).
Definition release_item (it : Item) (b : Books) : Books :=
  match network_bytes b !! network it with
  | Some n =>
      let n := Z.max 0 (n - blob_len it) in
      if n =? 0 then mkBooks (delete (network it) (network_bytes b)) (delete (network it) (network_order b))
      else mkBooks (<[network it := n]> (network_bytes b)) (network_order b)
  | None => b
  end.
(** A box goes with its last entry. *)
Definition set_box (m : BoxId) (items : list Item) (bs : gmap BoxId (list Item)) : gmap BoxId (list Item) :=
  match items with [] => delete m bs | _ => <[m := items]> bs end.
Definition has_item_id (id : ItemId) (it : Item) : bool := bool_decide (item_id it = id).
Definition sum_len (items : list Item) : Z := foldr (λ it n, blob_len it + n) 0 items.

(** ** Making room *)

(** [evict_oldest_of], from the order still to be looked at. *)
Fixpoint evict_walk (n : IpAddr) (q : list (BoxId * ItemId)) (s : ChatMailboxStore) : bool * ChatMailboxStore :=
  match q with
  | [] => (false, mkStore (boxes s) (total_bytes s) (put_order n [] (books s)))
  | (m, id) :: q =>
      match boxes s !! m with
      | None => evict_walk n q s
      | Some items =>
          match position (has_item_id id) items with
          | None => evict_walk n q s
          | Some at_ =>
              match items !! at_ with
              | None => evict_walk n q s
              | Some it => (true, mkStore (set_box m (delete at_ items) (boxes s)) (total_bytes s - blob_len it) (release_item it (put_order n q (books s))))
              end
          end
      end
  end.
Definition evict_oldest_of (n : IpAddr) (s : ChatMailboxStore) : bool * ChatMailboxStore :=
  match network_order (books s) !! n with Some q => evict_walk n q s | None => (false, s) end.
(** The [while] of [make_room]: every round frees at least a byte of the excess. *)
Fixpoint room_loop (fuel : nat) (victim : IpAddr) (needed : Z) (s : ChatMailboxStore) : bool * ChatMailboxStore :=
  if MAX_TOTAL_BYTES <? total_bytes s + needed then
    match fuel with
    | O => (false, s)
    | S fuel => let '(ok, s) := evict_oldest_of victim s in if ok then room_loop fuel victim needed s else (false, s)
    end
  else (true, s).
(** [max_by_key]: the last of the greatest. *)
Definition heaviest (l : list (IpAddr * Z)) : option (IpAddr * Z) :=
  foldl (λ best kv, match best with Some b => if b.2 <=? kv.2 then Some kv else Some b | None => Some kv end) None l.

Section store.
Context `{Ord : MapOrder}.
Definition make_room (depositor : IpAddr) (needed : Z) (s : ChatMailboxStore) : bool * ChatMailboxStore :=
  let over := Z.max 0 (total_bytes s + needed - MAX_TOTAL_BYTES) in
  if over =? 0 then (true, s)
  else
    let charged := default 0 (network_bytes (books s) !! depositor) in
    match heaviest (map_iter (network_bytes (books s))) with
    | None => (false, s)
    | Some (victim, held) =>
        let largest := default 0 (last BLOB_SIZES) in
        if bool_decide (victim = depositor) || (held <=? charged + needed + over + largest) then (false, s)
        else room_loop (Z.to_nat over) victim needed s
    end.
Definition put (m : BoxId) (id : ItemId) (b : bytes) (n : IpAddr) (now : Z) (s : ChatMailboxStore) : option PutError * ChatMailboxStore :=
  let len := Z.of_nat (length b) in
  if negb (bool_decide (len ∈ BLOB_SIZES)) then (Some BadSize, s)
  else
    let charged := default 0 (network_bytes (books s) !! n) in
    if MAX_BYTES_PER_NETWORK <? charged + len then (Some NetworkFull, s)
    else if match boxes s !! m with
            | Some items => (MAX_ITEMS_PER_BOX <=? Z.of_nat (length items)) || (MAX_BYTES_PER_BOX <? sum_len items + len)
            | None => false
            end then (Some BoxFull, s)
    else
      let '(ok, s) := make_room n len s in
      if negb ok then (Some StoreFull, s)
      else
        let bk := books s in
        (None, mkStore (<[m := default [] (boxes s !! m) ++ [mkItem id b (now + ITEM_TTL) n]]> (boxes s)) (total_bytes s + len)
          (mkBooks (<[n := default 0 (network_bytes bk !! n) + len]> (network_bytes bk)) (<[n := default [] (network_order bk !! n) ++ [(m, id)]]> (network_order bk)))).

(** ** Collecting *)
Fixpoint fetch_items (m : BoxId) (items : list Item) (now : Z) (limit : nat) (out : list (BoxId * ItemId * bytes)) : list (BoxId * ItemId * bytes) * bool :=
  match items with
  | [] => (out, false)
  | it :: items =>
      if negb (now <? expires_at it) then fetch_items m items now limit out
      else if decide (limit ≤ length out)%nat then (out, true)
      else fetch_items m items now limit (out ++ [(m, item_id it, blob it)])
  end.
Fixpoint fetch_boxes (bs : list BoxId) (now : Z) (limit : nat) (s : ChatMailboxStore) (out : list (BoxId * ItemId * bytes)) : list (BoxId * ItemId * bytes) * bool :=
  match bs with
  | [] => (out, false)
  | m :: bs =>
      match boxes s !! m with
      | None => fetch_boxes bs now limit s out
      | Some items => let '(out, more) := fetch_items m items now limit out in if more : bool then (out, true) else fetch_boxes bs now limit s out
      end
  end.
Definition fetch (bs : list BoxId) (now : Z) (limit : nat) (s : ChatMailboxStore) : list (BoxId * ItemId * bytes) * bool := fetch_boxes bs now limit s [].
(** [VecDeque::retain] with [release_item] for each entry that goes: what stays, how many bytes
    and entries went, and the books. *)
Fixpoint sift (keep : Item → bool) (items : list Item) (b : Books) : list Item * Z * nat * Books :=
  match items with
  | [] => ([], 0, 0%nat, b)
  | it :: items =>
      if keep it then let '(kept, freed, removed, b) := sift keep items b in (it :: kept, freed, removed, b)
      else let '(kept, freed, removed, b) := sift keep items (release_item it b) in (kept, blob_len it + freed, S removed, b)
  end.
Definition delete_items (m : BoxId) (ids : list ItemId) (s : ChatMailboxStore) : nat * ChatMailboxStore :=
  match boxes s !! m with
  | None => (0%nat, s)
  | Some items =>
      let '(kept, freed, removed, b) := sift (λ it, negb (bool_decide (item_id it ∈ ids))) items (books s) in
      (removed, mkStore (set_box m kept (boxes s)) (total_bytes s - freed) b)
  end.
(** The outer [retain] of [prune_expired], box by box. *)
Definition sift_box (keep : Item → bool) (acc : gmap BoxId (list Item) * Z * nat * Books) (kv : BoxId * list Item) : gmap BoxId (list Item) * Z * nat * Books :=
  let '(bs, freed, removed, b) := acc in
  let '(kept, f, r, b) := sift keep kv.2 b in
  (set_box kv.1 kept bs, freed + f, (removed + r)%nat, b).
Definition is_held (bs : gmap BoxId (list Item)) (k : BoxId * ItemId) : bool :=
  match bs !! k.1 with Some items => existsb (has_item_id k.2) items | None => false end.
Definition prune_expired (now : Z) (s : ChatMailboxStore) : nat * ChatMailboxStore :=
  let '(bs, freed, removed, b) := foldl (sift_box (λ it, now <? expires_at it)) (boxes s, 0, 0%nat, books s) (map_iter (boxes s)) in
  let order := omap (λ q : list (BoxId * ItemId), match retain (is_held bs) q with [] => None | q => Some q end) (network_order b) in
  (removed, mkStore bs (total_bytes s - freed) (mkBooks (network_bytes b) order)).
Definition item_count (s : ChatMailboxStore) : nat := sum_list ((λ kv, length kv.2) <$> map_iter (boxes s)).
End store.
