(* ===== verification/MailboxFacts.v ===== *)
(** * Chat mailboxes: sums and books

    Byte sums over the boxes, what [release_item] and [sift] do to the books, and the
    invariant of the store. *)
From S2P Require Import Prelude NodeId Addr MapOrder RateBucket Mailbox.
Local Open Scope Z_scope.

(** ** Sums *)
Definition wsum (w : Item → Z) (items : list Item) : Z := foldr (λ it n, w it + n) 0 items.
Definition boxes_sum (w : Item → Z) (l : list (BoxId * list Item)) : Z := foldr (λ kv n, wsum w kv.2 + n) 0 l.
Definition held (w : Item → Z) (bs : gmap BoxId (list Item)) : Z := boxes_sum w (map_to_list bs).
Definition w_net (n : IpAddr) (it : Item) : Z := if bool_decide (network it = n) then blob_len it else 0.

Lemma sum_len_wsum items : sum_len items = wsum blob_len items.
Proof. done. Qed.
Lemma wsum_app w l k : wsum w (l ++ k) = wsum w l + wsum w k.
Proof. induction l as [|x l IH]; [done|]. cbn [app wsum foldr]. fold (wsum w (l ++ k)) (wsum w l). lia. Qed.
Lemma wsum_delete w l i x : l !! i = Some x → wsum w (delete i l) = wsum w l - w x.
Proof.
  revert i. induction l as [|y l IH]; intros [|i] H; [done|done|injection H as ->; cbn; lia|]. cbn in H. cbn [delete list_delete wsum foldr].
  specialize (IH i H). unfold wsum in IH. unfold wsum, delete in *. cbn [foldr]. lia.
Qed.
Lemma wsum_split w (p : Item → bool) l : wsum w l = wsum w (retain p l) + wsum w (retain (λ x, negb (p x)) l).
Proof. induction l as [|x l IH]; [done|]. rewrite !retain_cons. cbn [wsum foldr]. fold (wsum w l). destruct (p x); cbn [negb wsum foldr]; unfold wsum in *; lia. Qed.
Lemma boxes_sum_perm w l k : l ≡ₚ k → boxes_sum w l = boxes_sum w k.
Proof. induction 1; cbn [boxes_sum foldr] in *; unfold boxes_sum in *; lia. Qed.
Lemma held_insert_new w bs m l : bs !! m = None → held w (<[m := l]> bs) = wsum w l + held w bs.
Proof. intros H. unfold held. rewrite (boxes_sum_perm w _ _ (map_to_list_insert bs m l H)). done. Qed.
Lemma held_delete w bs m : held w (delete m bs) = held w bs - wsum w (default [] (bs !! m)).
Proof.
  destruct (bs !! m) as [l|] eqn:E; cbn [default from_option].
  - pose proof (held_insert_new w (delete m bs) m l (lookup_delete_eq bs m)) as H. rewrite (insert_delete_id bs m l E) in H. unfold Datatypes.id. lia.
  - rewrite delete_id by done. cbn. lia.
Qed.
Lemma held_box_insert w bs m l : held w (<[m := l]> bs) = held w bs - wsum w (default [] (bs !! m)) + wsum w l.
Proof. rewrite <- insert_delete_eq, held_insert_new, held_delete by apply lookup_delete_eq. lia. Qed.
Lemma held_set_box w bs m l : held w (set_box m l bs) = held w bs - wsum w (default [] (bs !! m)) + wsum w l.
Proof. destruct l as [|x l]; cbn [set_box]; [rewrite held_delete; cbn; lia|apply held_box_insert]. Qed.
Lemma set_box_lookup m l bs m' : set_box m l bs !! m' = if decide (m = m') then (match l with [] => None | _ => Some l end) else bs !! m'.
Proof. destruct l; cbn [set_box]; case_decide as E; subst; rewrite ?lookup_delete_eq, ?lookup_insert_eq, ?lookup_delete_ne, ?lookup_insert_ne by done; done. Qed.
Lemma wsum_nonneg w l : (∀ it, it ∈ l → 0 ≤ w it) → 0 ≤ wsum w l.
Proof. induction l as [|x l IH]; intros H; [done|]. cbn [wsum foldr]. fold (wsum w l). assert (0 ≤ w x) by (apply H; left). assert (0 ≤ wsum w l) by (apply IH; intros; apply H; by right). lia. Qed.
Lemma wsum_elem w l x : (∀ it, it ∈ l → 0 ≤ w it) → x ∈ l → w x ≤ wsum w l.
Proof.
  induction l as [|y l IH]; intros H Hx; [by apply elem_of_nil in Hx|]. cbn [wsum foldr]. fold (wsum w l). assert (0 ≤ w y) by (apply H; left).
  assert (0 ≤ wsum w l) by (apply wsum_nonneg; intros; apply H; by right). apply elem_of_cons in Hx as [->|Hx]; [lia|]. assert (w x ≤ wsum w l) by (apply IH; [intros; apply H; by right|done]). lia.
Qed.
Lemma held_nonneg w bs : (∀ m l it, bs !! m = Some l → it ∈ l → 0 ≤ w it) → 0 ≤ held w bs.
Proof.
  intros H. unfold held. assert (∀ kv, kv ∈ map_to_list bs → bs !! kv.1 = Some kv.2) as Hin by (intros [k v] Hkv; by apply elem_of_map_to_list in Hkv).
  induction (map_to_list bs) as [|kv l IH]; [done|]. cbn [boxes_sum foldr]. fold (boxes_sum w l). assert (0 ≤ boxes_sum w l) by (apply IH; intros; apply Hin; by right).
  assert (0 ≤ wsum w kv.2) by (apply wsum_nonneg; intros it Hit; apply (H kv.1 kv.2); [apply Hin; left|done]). lia.
Qed.
Lemma held_box w bs m l : (∀ m l it, bs !! m = Some l → it ∈ l → 0 ≤ w it) → bs !! m = Some l → wsum w l ≤ held w bs.
Proof.
  intros H Hm. assert (0 ≤ held w (delete m bs)) as Hd by (apply held_nonneg; intros m' l' it [_ ?]%lookup_delete_Some; eauto).
  rewrite held_delete, Hm in Hd. cbn [from_option Datatypes.id] in Hd. lia.
Qed.
Lemma held_sum_le w v bs : (∀ m l it, bs !! m = Some l → it ∈ l → w it ≤ v it) → held w bs ≤ held v bs.
Proof.
  intros H. assert (0 ≤ held (λ it, v it - w it) bs) as Hd by (apply held_nonneg; intros m l it H1 H2; specialize (H m l it H1 H2); lia).
  assert (held (λ it, v it - w it) bs = held v bs - held w bs); [|lia]. unfold held. clear. induction (map_to_list bs) as [|kv l IH]; [done|].
  cbn [boxes_sum foldr]. fold (boxes_sum (λ it, v it - w it) l) (boxes_sum v l) (boxes_sum w l). rewrite IH.
  assert (wsum (λ it, v it - w it) kv.2 = wsum v kv.2 - wsum w kv.2); [|lia]. induction kv.2 as [|x k IHk]; [done|]. cbn [wsum foldr]. unfold wsum in *. lia.
Qed.

(** ** The books *)

(** The bytes charged to each network, zero being no entry. *)
Definition bytes_are (b : Books) (h : IpAddr → Z) : Prop := ∀ n, network_bytes b !! n = if h n =? 0 then None else Some (h n).
Lemma bytes_are_ext b h h' : (∀ n, h n = h' n) → bytes_are b h → bytes_are b h'.
Proof. intros E H n. rewrite H, E. done. Qed.
Lemma bytes_default b h n : bytes_are b h → default 0 (network_bytes b !! n) = h n.
Proof. intros H. rewrite H. destruct (Z.eqb_spec (h n) 0); [done|]. done. Qed.
(** What is left of the order when the bytes go from [h] to [h']. *)
Definition order_left (h h' : IpAddr → Z) (b b' : Books) : Prop :=
  ∀ n, network_order b' !! n = if (h' n =? 0) && negb (h n =? 0) then None else network_order b !! n.
Lemma release_books_spec it b h :
  bytes_are b h → 0 < blob_len it ≤ h (network it) →
  bytes_are (release_item it b) (λ n, h n - w_net n it) ∧ order_left h (λ n, h n - w_net n it) b (release_item it b).
Proof.
  intros Hb Hl. unfold release_item. rewrite Hb, (proj2 (Z.eqb_neq (h (network it)) 0)) by lia. cbv zeta. rewrite Z.max_r by lia.
  assert (w_net (network it) it = blob_len it) as Hself by (unfold w_net; by rewrite bool_decide_eq_true_2).
  assert (∀ n, network it ≠ n → w_net n it = 0) as Hother by (intros n Hn; unfold w_net; by rewrite bool_decide_eq_false_2).
  destruct (Z.eqb_spec (h (network it) - blob_len it) 0) as [Hz|Hz]; split; intros n; cbn [network_bytes network_order]; destruct (decide (network it = n)) as [<-|Hn].
  - rewrite lookup_delete_eq, Hself, Hz. done.
  - rewrite lookup_delete_ne, Hb, Hother by done. by rewrite Z.sub_0_r.
  - rewrite lookup_delete_eq, Hself, Hz, (proj2 (Z.eqb_neq (h (network it)) 0)) by lia. done.
  - rewrite lookup_delete_ne, Hother, Z.sub_0_r by done. by destruct (h n =? 0).
  - rewrite lookup_insert_eq, Hself, (proj2 (Z.eqb_neq _ 0)) by done. done.
  - rewrite lookup_insert_ne, Hb, Hother by done. by rewrite Z.sub_0_r.
  - rewrite Hself, (proj2 (Z.eqb_neq _ 0)) by done. done.
  - rewrite Hother, Z.sub_0_r by done. by destruct (h n =? 0).
Qed.
Lemma order_left_trans h1 h2 h3 b1 b2 b3 :
  (∀ n, 0 ≤ h3 n ≤ h2 n ∧ h2 n ≤ h1 n) → order_left h1 h2 b1 b2 → order_left h2 h3 b2 b3 → order_left h1 h3 b1 b3.
Proof.
  intros Hm H1 H2 n. rewrite H2, H1. specialize (Hm n). destruct (Z.eqb_spec (h3 n) 0), (Z.eqb_spec (h2 n) 0), (Z.eqb_spec (h1 n) 0); cbn; (done || lia).
Qed.
Lemma sift_spec keep items b h :
  bytes_are b h → Forall (λ it, 0 < blob_len it) items → (∀ n, wsum (w_net n) (retain (λ x, negb (keep x)) items) ≤ h n) →
  ∃ b', sift keep items b = (retain keep items, wsum blob_len (retain (λ x, negb (keep x)) items), count_if (λ x, negb (keep x)) items, b') ∧
    bytes_are b' (λ n, h n - wsum (w_net n) (retain (λ x, negb (keep x)) items)) ∧
    order_left h (λ n, h n - wsum (w_net n) (retain (λ x, negb (keep x)) items)) b b'.
Proof.
  revert b h. induction items as [|it items IH]; intros b h Hb Hpos Hle; cbn [sift].
  - exists b. split; [done|]. split; [eapply bytes_are_ext; [|exact Hb]; intros n; cbn; lia|]. intros n. cbn. rewrite Z.sub_0_r. by destruct (h n =? 0).
  - apply Forall_cons in Hpos as [Hp Hpos]. rewrite !retain_cons. unfold count_if. rewrite retain_cons. specialize (IH) as IH0. destruct (keep it) eqn:E; cbn [negb].
    + rewrite retain_cons, E in Hle. cbn [negb] in Hle. destruct (IH b h Hb Hpos Hle) as (b' & Hs & H1 & H2). exists b'. by rewrite Hs.
    + rewrite retain_cons, E in Hle. cbn [negb] in Hle.
      assert (∀ n, 0 ≤ wsum (w_net n) (retain (λ x, negb (keep x)) items)) as Hnn.
      { intros n. apply wsum_nonneg. intros x [_ Hx]%elem_of_retain. rewrite Forall_forall in Hpos. specialize (Hpos x Hx). unfold w_net. case_bool_decide; lia. }
      assert (∀ n, wsum (w_net n) (it :: retain (λ x, negb (keep x)) items) = w_net n it + wsum (w_net n) (retain (λ x, negb (keep x)) items)) as Hc by done.
      assert (w_net (network it) it = blob_len it) as Hself by (unfold w_net; by rewrite bool_decide_eq_true_2).
      destruct (release_books_spec it b h Hb) as [R1 R2]. { specialize (Hle (network it)). specialize (Hnn (network it)). rewrite Hc, Hself in Hle. lia. }
      destruct (IH (release_item it b) _ R1 Hpos) as (b' & Hs & H1 & H2). { intros n. specialize (Hle n). rewrite Hc in Hle. lia. }
      exists b'. rewrite Hs. split; [done|]. split; [eapply bytes_are_ext; [|exact H1]; intros n; rewrite Hc; lia|].
      assert (order_left h (λ n, h n - w_net n it - wsum (w_net n) (retain (λ x, negb (keep x)) items)) b b') as H3.
      { eapply order_left_trans; [|exact R2|exact H2]. intros n. cbv beta. specialize (Hle n). specialize (Hnn n). rewrite Hc in Hle. assert (0 ≤ w_net n it) by (unfold w_net; case_bool_decide; lia). lia. }
      intros n. rewrite H3. cbv beta. rewrite Hc. by replace (h n - w_net n it - wsum (w_net n) (retain (λ x, negb (keep x)) items)) with (h n - (w_net n it + wsum (w_net n) (retain (λ x, negb (keep x)) items))) by lia.
Qed.

(** * The invariant *)
Definition box_ok (items : list Item) : Prop :=
  items ≠ [] ∧ Z.of_nat (length items) ≤ MAX_ITEMS_PER_BOX ∧ sum_len items ≤ MAX_BYTES_PER_BOX ∧ NoDup (item_id <$> items) ∧
  Forall (λ it, blob_len it ∈ BLOB_SIZES) items.
Definition net_held (bs : gmap BoxId (list Item)) (n : IpAddr) : Z := held (w_net n) bs.
Record order_ok (bs : gmap BoxId (list Item)) (no : gmap IpAddr (list (BoxId * ItemId))) : Prop := mkOrderOk {
  order_complete : ∀ m items it, bs !! m = Some items → it ∈ items → ∃ q, no !! network it = Some q ∧ (m, item_id it) ∈ q;
  order_owned : ∀ n q m id items it, no !! n = Some q → (m, id) ∈ q → bs !! m = Some items → it ∈ items → item_id it = id → network it = n;
  order_nodup : ∀ n q, no !! n = Some q → NoDup q;
}.
(** [used] are the boxes and ids of every deposit so far. *)
Record mb_ok (used : gset (BoxId * ItemId)) (s : ChatMailboxStore) : Prop := mkOk {
  ok_boxes : ∀ m items, boxes s !! m = Some items → box_ok items;
  ok_total : total_bytes s = held blob_len (boxes s);
  ok_cap : total_bytes s ≤ MAX_TOTAL_BYTES;
  ok_bytes : bytes_are (books s) (net_held (boxes s));
  ok_net : ∀ n, net_held (boxes s) n ≤ MAX_BYTES_PER_NETWORK;
  ok_order : order_ok (boxes s) (network_order (books s));
  ok_used : ∀ n q k, network_order (books s) !! n = Some q → k ∈ q → k ∈ used;
}.

(** ** Sizes *)
Lemma blob_sizes l : l ∈ BLOB_SIZES → 512 ≤ l ≤ 4608.
Proof. unfold BLOB_SIZES. rewrite !elem_of_cons, elem_of_nil. lia. Qed.
Lemma ok_len used s m items it : mb_ok used s → boxes s !! m = Some items → it ∈ items → 512 ≤ blob_len it ≤ 4608.
Proof. intros H Hm Hit. apply blob_sizes. destruct (ok_boxes _ _ H m items Hm) as (_ & _ & _ & _ & Hf). rewrite Forall_forall in Hf. by apply Hf. Qed.
Lemma w_net_bounds n it : 0 < blob_len it → 0 ≤ w_net n it ≤ blob_len it.
Proof. unfold w_net. case_bool_decide; lia. Qed.
Lemma net_nonneg used s n : mb_ok used s → ∀ m items it, boxes s !! m = Some items → it ∈ items → 0 ≤ w_net n it.
Proof. intros H m items it Hm Hit. pose proof (ok_len _ _ _ _ _ H Hm Hit). apply w_net_bounds. lia. Qed.
Lemma net_held_nonneg used s n : mb_ok used s → 0 ≤ net_held (boxes s) n.
Proof. intros H. apply held_nonneg. by apply (net_nonneg used). Qed.
Lemma held_item_net used s m items it : mb_ok used s → boxes s !! m = Some items → it ∈ items → 512 ≤ net_held (boxes s) (network it).
Proof.
  intros H Hm Hit. pose proof (ok_len _ _ _ _ _ H Hm Hit) as Hl.
  pose proof (held_box (w_net (network it)) (boxes s) m items (net_nonneg used s (network it) H) Hm) as Hb.
  pose proof (wsum_elem (w_net (network it)) items it) as He. assert (w_net (network it) it = blob_len it) as Hw by (unfold w_net; by rewrite bool_decide_eq_true_2).
  assert (w_net (network it) it ≤ wsum (w_net (network it)) items) by (apply He; [intros it' Hit'; by apply (net_nonneg used s _ H m items)|done]). unfold net_held. lia.
Qed.
Lemma net_has_item bs n : 0 < net_held bs n → ∃ m items it, bs !! m = Some items ∧ it ∈ items ∧ network it = n.
Proof.
  unfold net_held, held. intros H. assert (∀ kv, kv ∈ map_to_list bs → bs !! kv.1 = Some kv.2) as Hin by (intros [k v] Hkv; by apply elem_of_map_to_list in Hkv).
  induction (map_to_list bs) as [|[m items] l IH]; cbn [boxes_sum foldr] in H; [lia|]. fold (boxes_sum (w_net n) l) in H. cbn [snd] in H.
  destruct (Z.ltb_spec 0 (boxes_sum (w_net n) l)) as [Hl|Hl]; [apply IH; [done|]; intros; apply Hin; by right|].
  assert (0 < wsum (w_net n) items) as Hi by lia. assert (∃ it, it ∈ items ∧ network it = n) as (it & Hit & Hn).
  { clear -Hi. induction items as [|x items IH]; cbn [wsum foldr] in Hi; [lia|]. fold (wsum (w_net n) items) in Hi. destruct (decide (network x = n)); [exists x; split; [left|done]|].
    destruct IH as (it & ? & ?); [unfold w_net in Hi at 1; rewrite bool_decide_eq_false_2 in Hi by done; lia|]. exists it. split; [by right|done]. }
  exists m, items, it. split; [apply (Hin (m, items)); left|done].
Qed.
Lemma is_held_true bs m id : is_held bs (m, id) = true ↔ ∃ items it, bs !! m = Some items ∧ it ∈ items ∧ item_id it = id.
Proof.
  unfold is_held. cbn [fst snd]. destruct (bs !! m) as [items|]; [|split; [done|intros (? & ? & ? & _); done]]. rewrite existsb_exists. unfold has_item_id. split.
  - intros (it & Hit & Hid%bool_decide_eq_true). exists items, it. split; [done|]. split; [by apply list_elem_of_In|done].
  - intros (items' & it & [= <-] & Hit & Hid). exists it. split; [by apply list_elem_of_In|]. by apply bool_decide_eq_true.
Qed.

Lemma wsum_cons w x l : wsum w (x :: l) = w x + wsum w l.
Proof. done. Qed.
(** ** Shrinking *)
Lemma box_sub_ok items items' : items' ≠ [] → items' `sublist_of` items → box_ok items → box_ok items'.
Proof.
  intros Hne Hs (_ & H1 & H2 & H3 & H4). split; [done|]. assert (Forall (λ it, blob_len it ∈ BLOB_SIZES) items') as Hf by (rewrite Forall_forall in *; intros x Hx; apply H4; by eapply elem_of_sublist).
  split; [apply sublist_length in Hs; lia|]. split; [|split; [eapply sublist_NoDup; [exact H3|by apply fmap_sublist]|done]].
  etransitivity; [|exact H2]. rewrite (sum_len_wsum items), (sum_len_wsum items'). clear -Hs H4. induction Hs as [|x l k Hs IH|x l k Hs IH]; [done|..]; apply Forall_cons in H4 as [Hx H4]; specialize (IH H4);
    apply blob_sizes in Hx; rewrite ?wsum_cons; lia.
Qed.
Lemma shrink_ok used s bs' b b' :
  mb_ok used s →
  (∀ m items', bs' !! m = Some items' → items' ≠ [] ∧ ∃ items, boxes s !! m = Some items ∧ items' `sublist_of` items) →
  held blob_len bs' ≤ held blob_len (boxes s) → (∀ n, net_held bs' n ≤ net_held (boxes s) n) →
  bytes_are b' (net_held bs') → order_left (net_held (boxes s)) (net_held bs') b b' →
  (∀ n q', network_order b !! n = Some q' → ∃ q, network_order (books s) !! n = Some q ∧ q' `sublist_of` q) →
  (∀ m items it, bs' !! m = Some items → it ∈ items → ∃ q, network_order b !! network it = Some q ∧ (m, item_id it) ∈ q) →
  mb_ok used (mkStore bs' (held blob_len bs') b').
Proof.
  intros H Hsub Ht Hn Hby Hleft Hord Hall.
  assert (∀ n q', network_order b' !! n = Some q' → ∃ q, network_order (books s) !! n = Some q ∧ q' `sublist_of` q) as Hord'.
  { intros n q'. rewrite Hleft. destruct (_ && _); [done|]. apply Hord. }
  assert (∀ m items' it, bs' !! m = Some items' → it ∈ items' → ∃ items, boxes s !! m = Some items ∧ it ∈ items) as Hback.
  { intros m items' it Hm Hit. destruct (Hsub m items' Hm) as (_ & items & Hi & Hs). exists items. split; [done|]. by eapply elem_of_sublist. }
  split; cbn [boxes total_bytes books].
  - intros m items' Hm. destruct (Hsub m items' Hm) as (Hne & items & Hi & Hs). by apply (box_sub_ok items items' Hne Hs), (ok_boxes _ _ H m).
  - done.
  - pose proof (ok_cap _ _ H). rewrite (ok_total _ _ H) in *. lia.
  - exact Hby.
  - intros n. pose proof (ok_net _ _ H n). specialize (Hn n). lia.
  - destruct (ok_order _ _ H) as [O1 O2 O3]. split.
    + intros m items it Hm Hit. destruct (Hall m items it Hm Hit) as (q & Hq & Hin). exists q. split; [|done]. rewrite Hleft.
      assert (net_held bs' (network it) =? 0 = false) as ->; [|done]. apply Z.eqb_neq. intros Hz.
      assert (∀ m l x, bs' !! m = Some l → x ∈ l → 0 ≤ w_net (network it) x) as Hnn by (intros m' l x Hm' Hx; destruct (Hback m' l x Hm' Hx) as (l0 & ? & ?); by eapply (net_nonneg used s)).
      pose proof (held_box (w_net (network it)) bs' m items Hnn Hm) as Hb. pose proof (wsum_elem (w_net (network it)) items it ltac:(intros; eapply Hnn; eauto) Hit) as He.
      destruct (Hback m items it Hm Hit) as (l0 & Hl0 & Hx). pose proof (ok_len _ _ _ _ _ H Hl0 Hx). unfold net_held in Hz. unfold w_net in He at 1. rewrite bool_decide_eq_true_2 in He by done. lia.
    + intros n q m id items it Hq Hk Hm Hit Hid. destruct (Hord' n q Hq) as (q0 & Hq0 & Hs). destruct (Hback m items it Hm Hit) as (l0 & Hl0 & Hx).
      apply (O2 n q0 m id l0 it); [done|by eapply elem_of_sublist|done..].
    + intros n q Hq. destruct (Hord' n q Hq) as (q0 & Hq0 & Hs). eapply sublist_NoDup; [by eapply O3|done].
  - intros n q k Hq Hk. destruct (Hord' n q Hq) as (q0 & Hq0 & Hs). eapply (ok_used _ _ H); [done|by eapply elem_of_sublist].
Qed.
(** Forgetting the order of entries that are gone. *)
Lemma trim_ok used s b' :
  mb_ok used s → network_bytes b' = network_bytes (books s) →
  (∀ n q', network_order b' !! n = Some q' → ∃ q, network_order (books s) !! n = Some q ∧ q' `sublist_of` q) →
  (∀ n q k, network_order (books s) !! n = Some q → k ∈ q → is_held (boxes s) k = true → ∃ q', network_order b' !! n = Some q' ∧ k ∈ q') →
  mb_ok used (mkStore (boxes s) (total_bytes s) b').
Proof.
  intros H Hby Hord Hall. destruct (ok_order _ _ H) as [O1 O2 O3]. split; cbn [boxes total_bytes books]; try (by apply H).
  - intros n. rewrite Hby. apply (ok_bytes _ _ H).
  - split.
    + intros m items it Hm Hit. destruct (O1 m items it Hm Hit) as (q & Hq & Hin). apply (Hall _ q); [done..|]. apply is_held_true. by exists items, it.
    + intros n q m id items it Hq Hk. destruct (Hord n q Hq) as (q0 & Hq0 & Hs). intros Hm Hit Hid. apply (O2 n q0 m id items it); [done|by eapply elem_of_sublist|done..].
    + intros n q Hq. destruct (Hord n q Hq) as (q0 & Hq0 & Hs). eapply sublist_NoDup; [by eapply O3|done].
  - intros n q k Hq Hk. destruct (Hord n q Hq) as (q0 & Hq0 & Hs). eapply (ok_used _ _ H); [done|by eapply elem_of_sublist].
Qed.
