(* ===== verification/MailboxEvict.v ===== *)
(** * Chat mailboxes: making room

    What dropping a network's oldest entry does, and that the room made for a deposit is
    made completely or not at all. *)
From S2P Require Import Prelude NodeId Addr MapOrder RateBucket Mailbox MailboxFacts.
Local Open Scope Z_scope.

(** The entries of a network that are still held, oldest first. *)
Definition live_order (n : IpAddr) (s : ChatMailboxStore) : list (BoxId * ItemId) :=
  retain (is_held (boxes s)) (default [] (network_order (books s) !! n)).
Definition holds (s : ChatMailboxStore) (m : BoxId) (it : Item) : Prop := ∃ items, boxes s !! m = Some items ∧ it ∈ items.

Lemma evict_walk_order n q bs t b q0 : evict_walk n q (mkStore bs t (put_order n q0 b)) = evict_walk n q (mkStore bs t b).
Proof.
  assert (∀ q', put_order n q' (put_order n q0 b) = put_order n q' b) as Hp by (intros q'; unfold put_order; cbn; by rewrite insert_insert_eq).
  induction q as [|[m id] q IH]; cbn [evict_walk boxes total_bytes books]; [by rewrite Hp|]. destruct (bs !! m) as [items|]; [|exact IH].
  destruct (position _ items) as [i|]; [|exact IH]. destruct (items !! i) as [it|]; [by rewrite Hp|exact IH].
Qed.

(** ** One entry taken out *)
Section take_out.
Context (used : gset (BoxId * ItemId)) (s : ChatMailboxStore) (n : IpAddr) (m : BoxId) (q : list (BoxId * ItemId)) (items : list Item) (i : nat) (it : Item).
Hypothesis (Hok : mb_ok used s) (Hq : network_order (books s) !! n = Some ((m, item_id it) :: q)).
Hypothesis (Hm : boxes s !! m = Some items) (Hi : items !! i = Some it).
Let bs' := set_box m (delete i items) (boxes s).
Let s' := mkStore bs' (total_bytes s - blob_len it) (release_item it (put_order n q (books s))).

Lemma taken_in : it ∈ items.
Proof. by eapply list_elem_of_lookup_2. Qed.
Lemma taken_network : network it = n.
Proof. destruct (ok_order _ _ Hok) as [_ O2 _]. eapply (O2 n _ m (item_id it) items it Hq); [left|done|apply taken_in|done]. Qed.
Lemma taken_held w : held w bs' = held w (boxes s) - w it.
Proof. unfold bs'. rewrite held_set_box, Hm. cbn [from_option Datatypes.id]. rewrite (wsum_delete w items i it Hi). lia. Qed.
Lemma taken_net k : net_held bs' k = net_held (boxes s) k - w_net k it.
Proof. apply taken_held. Qed.
Lemma taken_perm : items ≡ₚ it :: delete i items.
Proof. by apply delete_Permutation. Qed.
Lemma taken_other_id x : x ∈ delete i items → item_id x ≠ item_id it.
Proof.
  intros Hx E. destruct (ok_boxes _ _ Hok m items Hm) as (_ & _ & _ & Hnd & _). rewrite taken_perm, fmap_cons in Hnd. apply NoDup_cons in Hnd as [Hnot _].
  apply Hnot. rewrite <- E. by apply list_elem_of_fmap_2.
Qed.
Lemma taken_lookup m' items' : bs' !! m' = Some items' → items' ≠ [] ∧ ∃ l, boxes s !! m' = Some l ∧ items' `sublist_of` l.
Proof.
  unfold bs'. rewrite set_box_lookup. case_decide as E; [subst m'|].
  - destruct (delete i items) as [|x l] eqn:Ed; [done|]. intros [= <-]. split; [done|]. exists items. split; [done|]. rewrite <- Ed. apply sublist_delete.
  - intros H. split; [by destruct (ok_boxes _ _ Hok m' items' H)|]. by exists items'.
Qed.
Lemma taken_keeps m' x : (m', item_id x) ≠ (m, item_id it) → (∃ l, boxes s !! m' = Some l ∧ x ∈ l) → ∃ l, bs' !! m' = Some l ∧ x ∈ l.
Proof.
  intros Hne (l & Hl & Hx). unfold bs'. rewrite set_box_lookup. case_decide as E; [subst m'|by exists l].
  assert (x ∈ delete i items) as Hin. { rewrite Hm in Hl. injection Hl as <-. rewrite taken_perm in Hx. apply elem_of_cons in Hx as [->|Hx]; [done|exact Hx]. }
  destruct (delete i items) as [|y l'] eqn:Ed; [by apply elem_of_nil in Hin|]. by eexists.
Qed.
Lemma taken_back m' x : (∃ l, bs' !! m' = Some l ∧ x ∈ l) → (∃ l, boxes s !! m' = Some l ∧ x ∈ l) ∧ (m', item_id x) ≠ (m, item_id it).
Proof.
  intros (l & Hl & Hx). destruct (taken_lookup m' l Hl) as (_ & l0 & Hl0 & Hs). split; [exists l0; split; [done|by eapply elem_of_sublist]|].
  intros [= -> E]. unfold bs' in Hl. rewrite set_box_lookup, decide_True in Hl by done. destruct (delete i items) as [|y l'] eqn:Ed; [done|]. injection Hl as <-.
  apply (taken_other_id x); [by rewrite Ed|exact E].
Qed.
Lemma taken_is_held k : k ≠ (m, item_id it) → is_held bs' k = is_held (boxes s) k.
Proof.
  destruct k as [m' id]. intros Hne. apply eq_true_iff_eq. rewrite !is_held_true. split.
  - intros (l & x & Hl & Hx & Hid). destruct (taken_back m' x ltac:(by exists l)) as [(l0 & ? & ?) _]. by exists l0, x.
  - intros (l & x & Hl & Hx & <-). destruct (taken_keeps m' x Hne ltac:(by exists l)) as (l0 & ? & ?). by exists l0, x.
Qed.
Lemma taken_fits : 0 < blob_len it ≤ net_held (boxes s) (network it).
Proof.
  pose proof (ok_len _ _ _ _ _ Hok Hm taken_in). split; [lia|].
  pose proof (held_box (w_net (network it)) (boxes s) m items (net_nonneg used s (network it) Hok) Hm) as Hb.
  pose proof (wsum_elem (w_net (network it)) items it ltac:(intros; by eapply (net_nonneg used s)) taken_in) as He. unfold w_net in He at 1. rewrite bool_decide_eq_true_2 in He by done. unfold net_held. lia.
Qed.
Lemma taken_books : bytes_are (release_item it (put_order n q (books s))) (net_held bs') ∧ order_left (net_held (boxes s)) (net_held bs') (put_order n q (books s)) (release_item it (put_order n q (books s))).
Proof.
  destruct (release_books_spec it (put_order n q (books s)) (net_held (boxes s))) as [R1 R2]; [apply (ok_bytes _ _ Hok)|apply taken_fits|]. split.
  - eapply bytes_are_ext; [|exact R1]. intros k. symmetry. apply taken_net.
  - intros k. rewrite R2. by rewrite taken_net.
Qed.
Lemma taken_ok : mb_ok used s'.
Proof.
  unfold s'. rewrite (ok_total _ _ Hok), <- taken_held. destruct taken_books as [B1 B2]. pose proof taken_fits as Hf.
  apply (shrink_ok used s bs' (put_order n q (books s))); [done|apply taken_lookup| | |done|done| |].
  - rewrite taken_held. lia.
  - intros k. rewrite taken_net. pose proof (w_net_bounds k it ltac:(lia)). lia.
  - intros k q'. cbn [put_order network_order]. destruct (decide (n = k)) as [<-|Hne]; [rewrite lookup_insert_eq; intros [= <-]; eexists; split; [exact Hq|by apply sublist_cons]|].
    rewrite lookup_insert_ne by done. intros H. by exists q'.
  - intros m' l x Hl Hx. destruct (taken_back m' x ltac:(by exists l)) as [(l0 & Hl0 & Hx0) Hne]. destruct (ok_order _ _ Hok) as [O1 _ _]. destruct (O1 m' l0 x Hl0 Hx0) as (q0 & Hq0 & Hin).
    cbn [put_order network_order]. destruct (decide (n = network x)) as [E|E]; [|exists q0; by rewrite lookup_insert_ne].
    exists q. rewrite <- E, lookup_insert_eq. split; [done|]. rewrite <- E, Hq in Hq0. injection Hq0 as <-. by apply elem_of_cons in Hin as [?|?].
Qed.
(** The entry was its network's oldest; every other stays. *)
Lemma taken_live : live_order n s = (m, item_id it) :: live_order n s'.
Proof.
  destruct (ok_order _ _ Hok) as [_ O2 O3]. pose proof (O3 n _ Hq) as Hnd. apply NoDup_cons in Hnd as [Hnot Hnd].
  unfold live_order at 1. rewrite Hq. cbn [from_option Datatypes.id]. rewrite retain_cons.
  assert (is_held (boxes s) (m, item_id it) = true) as -> by (apply is_held_true; exists items, it; split; [done|split; [apply taken_in|done]]). f_equal.
  transitivity (retain (is_held bs') q). { apply retain_ext. intros k Hk. symmetry. apply taken_is_held. intros ->. done. }
  unfold live_order, s'. cbn [boxes books]. destruct taken_books as [_ B2]. rewrite B2. cbn [put_order network_order]. rewrite lookup_insert_eq.
  destruct (Z.eqb_spec (net_held bs' n) 0) as [Hz|Hz]; cbn [andb]; [|done]. destruct (net_held (boxes s) n =? 0); cbn [negb]; [done|].
  apply retain_none, Forall_forall. intros [m' id'] Hk. apply not_true_iff_false. intros (l & x & Hl & Hx & Hid)%is_held_true.
  destruct (taken_back m' x ltac:(by exists l)) as [(l0 & Hl0 & Hx0) _]. assert (network x = n) as Hn by (eapply (O2 n _ m' id' l0 x Hq); [by right|done..]).
  pose proof (held_item_net used s' m' l x taken_ok Hl Hx) as Hge. rewrite Hn in Hge. cbn [boxes s'] in Hge. lia.
Qed.
Lemma taken_live_other k : k ≠ n → live_order k s' = live_order k s.
Proof.
  intros Hne. unfold live_order, s'. cbn [boxes books]. destruct taken_books as [_ B2]. rewrite B2. cbn [put_order network_order]. rewrite lookup_insert_ne by done.
  rewrite taken_net. assert (w_net k it = 0) as -> by (unfold w_net; rewrite taken_network; by rewrite bool_decide_eq_false_2). rewrite Z.sub_0_r. destruct (ok_order _ _ Hok) as [_ O2 _].
  assert (∀ b, (b && negb b) = false) as Hb by (by intros []). rewrite Hb. destruct (network_order (books s) !! k) as [qk|] eqn:Ek; [|done]. cbn [from_option Datatypes.id].
  apply retain_ext. intros x Hx. apply taken_is_held. intros ->. apply Hne. rewrite <- taken_network. symmetry. eapply (O2 k qk m (item_id it) items it Ek Hx); [done|apply taken_in|done].
Qed.
End take_out.

(** ** A network's oldest entry *)
Record evicted (used : gset (BoxId * ItemId)) (n : IpAddr) (count : nat) (s s' : ChatMailboxStore) : Prop := mkEvicted {
  ev_ok : mb_ok used s';
  ev_sub : ∀ m l', boxes s' !! m = Some l' → ∃ l, boxes s !! m = Some l ∧ l' `sublist_of` l;
  ev_kept : ∀ m it, network it ≠ n → holds s m it → holds s' m it;
  ev_oldest : live_order n s' = drop count (live_order n s);
  ev_others : ∀ k, k ≠ n → live_order k s' = live_order k s ∧ net_held (boxes s') k = net_held (boxes s) k;
  ev_total : total_bytes s - total_bytes s' = net_held (boxes s) n - net_held (boxes s') n;
  ev_less : total_bytes s' ≤ total_bytes s;
}.
Lemma evicted_refl used n s : mb_ok used s → evicted used n 0 s s.
Proof. intros H. split; try done; [intros m l' Hl; by exists l'|lia]. Qed.
Lemma evicted_trans used n c c' s s' s'' : evicted used n c s s' → evicted used n c' s' s'' → evicted used n (c + c') s s''.
Proof.
  intros [A1 A2 A3 A4 A5 A6 A7] [B1 B2 B3 B4 B5 B6 B7]. split; [done|..].
  - intros m l'' H. destruct (B2 m l'' H) as (l' & Hl' & ?). destruct (A2 m l' Hl') as (l & ? & ?). exists l. split; [done|]. by etransitivity.
  - intros m it Hn H. by apply B3, A3.
  - rewrite B4, A4, drop_drop. done.
  - intros k Hk. destruct (A5 k Hk) as [H1 H2], (B5 k Hk) as [H3 H4]. split; congruence.
  - lia.
  - lia.
Qed.
Lemma evict_walk_spec used n q s :
  mb_ok used s → network_order (books s) !! n = Some q → 0 < net_held (boxes s) n →
  ∃ s' freed, evict_walk n q s = (true, s') ∧ evicted used n 1 s s' ∧ net_held (boxes s') n = net_held (boxes s) n - freed ∧ 512 ≤ freed ≤ 4608.
Proof.
  revert s. induction q as [|[m id] q IH]; intros s Hok Hq Hpos.
  { destruct (net_has_item _ _ Hpos) as (m & items & it & Hm & Hit & Hn). destruct (ok_order _ _ Hok) as [O1 _ _]. destruct (O1 m items it Hm Hit) as (q & Hq' & Hin).
    rewrite Hn, Hq in Hq'. injection Hq' as <-. by apply elem_of_nil in Hin. }
  destruct (is_held (boxes s) (m, id)) eqn:Eh.
  - cbn [evict_walk]. apply is_held_true in Eh as (items & x & Hm & Hx & Hid). rewrite Hm. destruct (position (has_item_id id) items) as [i|] eqn:Ep.
    2: { pose proof (proj1 (Forall_forall _ _) (proj1 (position_None _ _) Ep) x Hx) as Hf. cbn beta in Hf. unfold has_item_id in Hf. apply bool_decide_eq_false in Hf. done. }
    apply position_lookup in Ep as (it & Hi & Hid'). apply bool_decide_eq_true in Hid'. subst id. rewrite <- Hid' in Hq. rewrite Hi. eexists _, (blob_len it). split; [reflexivity|].
    pose proof (taken_network used s n m q items i it Hok Hq Hm Hi) as Hnet. pose proof (ok_len used s m items it Hok Hm ltac:(by eapply list_elem_of_lookup_2)) as Hlen.
    assert (net_held (set_box m (delete i items) (boxes s)) n = net_held (boxes s) n - blob_len it) as Hh by (rewrite (taken_net s m items i it Hm Hi); unfold w_net; by rewrite bool_decide_eq_true_2).
    split; [|split; [exact Hh|lia]]. split.
    + by apply (taken_ok used s n m q items i it).
    + intros m' l' Hl'. cbn [boxes] in Hl'. by eapply taken_lookup in Hl' as [_ ?].
    + intros m' y Hn Hy. cbn. unfold holds. cbn [boxes]. eapply taken_keeps; [eassumption..| |exact Hy]. intros [= -> E]. destruct Hy as (l & Hl & Hyl). rewrite Hm in Hl. injection Hl as <-.
      apply Hn. destruct (ok_order _ _ Hok) as [_ O2 _]. apply (O2 n _ m (item_id it) items y Hq); [left|done..].
    + by rewrite (taken_live used s n m q items i it Hok Hq Hm Hi).
    + intros k Hk. split; [by apply (taken_live_other used)|]. cbn [boxes]. rewrite (taken_net s m items i it Hm Hi). unfold w_net. rewrite bool_decide_eq_false_2 by congruence. lia.
    + cbn [boxes total_bytes]. lia.
    + cbn [total_bytes]. lia.
  - set (s1 := mkStore (boxes s) (total_bytes s) (put_order n q (books s))).
    assert (mb_ok used s1) as Hok1.
    { apply trim_ok; [done|done|..].
      - intros k q'. cbn [put_order network_order]. destruct (decide (n = k)) as [<-|Hne]; [rewrite lookup_insert_eq; intros [= <-]; eexists; split; [exact Hq|by apply sublist_cons]|].
        rewrite lookup_insert_ne by done. intros H. by exists q'.
      - intros k q0 y Hq0 Hy Hh. cbn [put_order network_order]. destruct (decide (n = k)) as [<-|Hne]; [|exists q0; by rewrite lookup_insert_ne].
        rewrite lookup_insert_eq. exists q. split; [done|]. rewrite Hq in Hq0. injection Hq0 as <-. apply elem_of_cons in Hy as [->|Hy]; [congruence|done]. }
    destruct (IH s1 Hok1) as (s' & freed & He & Hev & Hf); [cbn; by rewrite lookup_insert_eq|done|]. exists s', freed. split; [|split; [|exact Hf]].
    + transitivity (evict_walk n q s); [|destruct s as [bs t b]; unfold s1 in He; cbn [boxes total_bytes books] in He; by rewrite evict_walk_order in He].
      cbn [evict_walk]. destruct (boxes s !! m) as [items|] eqn:Em; [|done]. destruct (position (has_item_id id) items) as [i|] eqn:Ep; [|done].
      apply position_lookup in Ep as (it & Hi & Hid%bool_decide_eq_true). exfalso. apply not_true_iff_false in Eh. apply Eh, is_held_true. exists items, it. split; [done|]. split; [by eapply list_elem_of_lookup_2|done].
    + destruct Hev as [E1 E2 E3 E4 E5 E6 E7]. split; [done|exact E2|exact E3| |intros k Hk; destruct (E5 k Hk) as [H1 H2]; split; [|exact H2]|exact E6|exact E7].
      * rewrite E4. unfold live_order. cbn [s1 boxes books put_order network_order]. rewrite lookup_insert_eq, Hq. cbn [from_option Datatypes.id]. by rewrite retain_cons, Eh.
      * rewrite H1. unfold live_order. cbn [s1 boxes books put_order network_order]. by rewrite lookup_insert_ne.
Qed.
Lemma evict_items_spec used n s :
  mb_ok used s → 0 < net_held (boxes s) n →
  ∃ s' freed, evict_oldest_of n s = (true, s') ∧ evicted used n 1 s s' ∧ net_held (boxes s') n = net_held (boxes s) n - freed ∧ 512 ≤ freed ≤ 4608.
Proof.
  intros Hok Hpos. unfold evict_oldest_of. destruct (network_order (books s) !! n) as [q|] eqn:Eq; [by apply evict_walk_spec|].
  destruct (net_has_item _ _ Hpos) as (m & items & it & Hm & Hit & Hn). destruct (ok_order _ _ Hok) as [O1 _ _]. destruct (O1 m items it Hm Hit) as (q & Hq & _). congruence.
Qed.
(** ** The loop *)
Lemma room_loop_spec used n needed fuel s :
  mb_ok used s → total_bytes s + needed - MAX_TOTAL_BYTES ≤ Z.of_nat fuel → Z.max 0 (total_bytes s + needed - MAX_TOTAL_BYTES) < net_held (boxes s) n →
  ∃ s' c, room_loop fuel n needed s = (true, s') ∧ evicted used n c s s' ∧ total_bytes s' + needed ≤ MAX_TOTAL_BYTES ∧
    net_held (boxes s) n - Z.max 0 (total_bytes s + needed - MAX_TOTAL_BYTES) - 4608 < net_held (boxes s') n.
Proof.
  revert s. induction fuel as [|fuel IH]; intros s Hok Hf Hn; cbn [room_loop].
  - rewrite (proj2 (Z.ltb_ge _ _)) by lia. exists s, 0%nat. split; [done|]. split; [by apply evicted_refl|]. lia.
  - destruct (Z.ltb_spec MAX_TOTAL_BYTES (total_bytes s + needed)) as [Hlt|Hge].
    2: { exists s, 0%nat. split; [done|]. split; [by apply evicted_refl|]. lia. }
    destruct (evict_items_spec used n s Hok ltac:(lia)) as (s1 & freed & He & Hev & Hfr & Hb). rewrite He. pose proof (ev_total _ _ _ _ _ Hev) as Ht.
    destruct (Z.ltb_spec (total_bytes s1 + needed) MAX_TOTAL_BYTES) as [Hd|Hd].
    + exists s1, 1%nat. split; [|split; [done|lia]]. destruct fuel; cbn [room_loop]; by rewrite (proj2 (Z.ltb_ge _ _)) by lia.
    + destruct (IH s1) as (s' & c & Hr & Hev' & Hroom & Hleft); [apply Hev|lia|lia|]. exists s', (1 + c)%nat. split; [exact Hr|]. split; [by eapply evicted_trans|]. lia.
Qed.
