(* ===== verification/MailboxSafety.v ===== *)
(** * Chat mailboxes: the claims

    Caps and books on every history, what a deposit does to the entries of others, and
    that collecting, deleting and sweeping concern exactly the entries they name. *)
From S2P Require Import Prelude NodeId Addr MapOrder RateBucket Mailbox MailboxFacts MailboxEvict.
Local Open Scope Z_scope.

Section claims.
Context `{Ord : MapOrder}.

(** ** Depositing *)
Lemma heaviest_fold (l : list (IpAddr * Z)) b0 :
  ∃ b, foldl (λ best kv, match best with Some b => if b.2 <=? kv.2 then Some kv else Some b | None => Some kv end) (Some b0) l = Some b ∧
    (b = b0 ∨ b ∈ l) ∧ b0.2 ≤ b.2 ∧ ∀ kv, kv ∈ l → kv.2 ≤ b.2.
Proof.
  revert b0. induction l as [|x l IH]; intros b0; cbn [foldl]; [exists b0; split; [done|]; split; [by left|]; split; [lia|by intros kv ?%elem_of_nil]|].
  destruct (Z.leb_spec b0.2 x.2) as [H|H]; [destruct (IH x) as (b & Hb & Hin & Hle & Hall)|destruct (IH b0) as (b & Hb & Hin & Hle & Hall)]; exists b;
    (split; [exact Hb|]); (split; [destruct Hin as [->|Hin]; rewrite ?elem_of_cons; auto|]); (split; [lia|]); intros kv [->|Hkv]%elem_of_cons; try (by apply Hall); lia.
Qed.
Lemma heaviest_spec l : match heaviest l with Some b => b ∈ l ∧ ∀ kv, kv ∈ l → kv.2 ≤ b.2 | None => l = [] end.
Proof.
  unfold heaviest. destruct l as [|x l]; [done|]. cbn [foldl]. destruct (heaviest_fold l x) as (b & -> & Hin & Hle & Hall). split; [destruct Hin; rewrite elem_of_cons; auto|].
  intros kv [->|Hkv]%elem_of_cons; [done|by apply Hall].
Qed.
Lemma largest_is : default 0 (last BLOB_SIZES) = 4608.
Proof. done. Qed.
(** Room is made in full, at the cost of one heavier network, or nothing goes. *)
Lemma make_room_spec used dep needed s :
  mb_ok used s → 0 ≤ needed →
  match make_room dep needed s with
  | (true, s') => ∃ victim c, evicted used victim c s s' ∧ total_bytes s' + needed ≤ MAX_TOTAL_BYTES ∧
      ((c = 0%nat ∧ s' = s) ∨
       (victim ≠ dep ∧ (∀ k, net_held (boxes s) k ≤ net_held (boxes s) victim) ∧ net_held (boxes s) dep + needed < net_held (boxes s') victim))
  | (false, s') => s' = s
  end.
Proof.
  intros Hok Hn. unfold make_room. cbv zeta. destruct (Z.eqb_spec (Z.max 0 (total_bytes s + needed - MAX_TOTAL_BYTES)) 0) as [Hz|Hz].
  { exists dep, 0%nat. split; [by apply evicted_refl|]. split; [lia|by left]. }
  pose proof (heaviest_spec (map_iter (network_bytes (books s)))) as Hh. destruct (heaviest _) as [[victim h]|]; [|done]. destruct Hh as [Hin Hmax]. rewrite largest_is.
  apply elem_of_map_iter in Hin. assert (h = net_held (boxes s) victim) as -> by (rewrite (ok_bytes _ _ Hok) in Hin; destruct (_ =? 0); [discriminate|by injection Hin]).
  rewrite (bytes_default _ _ dep (ok_bytes _ _ Hok)). destruct (decide (victim = dep)) as [->|Hne]; [by rewrite bool_decide_eq_true_2|]. rewrite bool_decide_eq_false_2 by done. cbn [orb].
  destruct (Z.leb_spec (net_held (boxes s) victim) (net_held (boxes s) dep + needed + Z.max 0 (total_bytes s + needed - MAX_TOTAL_BYTES) + 4608)) as [Hle|Hgt]; [done|].
  pose proof (net_held_nonneg used s dep Hok) as Hd.
  destruct (room_loop_spec used victim needed (Z.to_nat (Z.max 0 (total_bytes s + needed - MAX_TOTAL_BYTES))) s Hok ltac:(lia) ltac:(lia)) as (s' & c & -> & Hev & Hroom & Hleft).
  exists victim, c. split; [done|]. split; [done|]. right. split; [done|]. split; [|lia]. intros k. destruct (Z.eqb_spec (net_held (boxes s) k) 0) as [Hk|Hk]; [pose proof (net_held_nonneg used s victim Hok); lia|].
  apply (Hmax (k, net_held (boxes s) k)), elem_of_map_iter. rewrite (ok_bytes _ _ Hok). by rewrite (proj2 (Z.eqb_neq _ _) Hk).
Qed.
Lemma mb_mono used used' s : used ⊆ used' → mb_ok used s → mb_ok used' s.
Proof. intros Hs [H1 H2 H3 H4 H5 H6 H7]. split; try done. intros n q k Hq Hk. apply Hs. by apply (H7 n q). Qed.
Definition deposited (m : BoxId) (id : ItemId) (b : bytes) (n : IpAddr) (now : Z) (s : ChatMailboxStore) : ChatMailboxStore :=
  mkStore (<[m := default [] (boxes s !! m) ++ [mkItem id b (now + ITEM_TTL) n]]> (boxes s)) (total_bytes s + Z.of_nat (length b))
    (mkBooks (<[n := default 0 (network_bytes (books s) !! n) + Z.of_nat (length b)]> (network_bytes (books s)))
             (<[n := default [] (network_order (books s) !! n) ++ [(m, id)]]> (network_order (books s)))).
Lemma deposit_ok used m id b n now s :
  let len := Z.of_nat (length b) in
  mb_ok used s → (m, id) ∉ used → len ∈ BLOB_SIZES → total_bytes s + len ≤ MAX_TOTAL_BYTES → net_held (boxes s) n + len ≤ MAX_BYTES_PER_NETWORK →
  Z.of_nat (length (default [] (boxes s !! m))) < MAX_ITEMS_PER_BOX → sum_len (default [] (boxes s !! m)) + len ≤ MAX_BYTES_PER_BOX →
  mb_ok ({[(m, id)]} ∪ used) (deposited m id b n now s).
Proof.
  intros len Hok Hfresh Hlen Htot Hnet Hcount Hsum. set (items := default [] (boxes s !! m)) in *. set (it := mkItem id b (now + ITEM_TTL) n).
  assert (blob_len it = len) as Hl by done. pose proof (blob_sizes _ Hlen) as Hb. destruct (ok_order _ _ Hok) as [O1 O2 O3].
  assert (∀ w, held w (<[m := items ++ [it]]> (boxes s)) = held w (boxes s) + w it) as Hh by (intros w; rewrite held_box_insert, wsum_app; fold items; cbn [wsum foldr]; lia).
  assert (∀ k, net_held (<[m := items ++ [it]]> (boxes s)) k = net_held (boxes s) k + w_net k it) as Hnh by (intros k; apply Hh).
  assert (∀ m' l, boxes s !! m' = Some l → ∀ x, x ∈ l → (m', item_id x) ∈ used) as Hused by (intros m' l Hl' x Hx; destruct (O1 m' l x Hl' Hx) as (q & Hq & Hin); by apply (ok_used _ _ Hok (network x) q (m', item_id x))).
  assert (∀ x, x ∈ items → boxes s !! m = Some items) as Hitems by (intros x Hx; unfold items in *; destruct (boxes s !! m); [done|by apply elem_of_nil in Hx]).
  split; cbn [deposited boxes total_bytes books network_bytes network_order]; fold items it len.
  - intros m' l [[<- <-]|[Hne Hl']]%lookup_insert_Some; [|by apply (ok_boxes _ _ Hok m')].
    split; [by intros []%app_eq_nil|]. split; [rewrite length_app; cbn; lia|]. split; [rewrite !sum_len_wsum, wsum_app in *; cbn [wsum foldr]; rewrite Hl; lia|].
    assert (NoDup (item_id <$> items) ∧ Forall (λ x, blob_len x ∈ BLOB_SIZES) items) as [Hnd Hf].
    { unfold items in *. destruct (boxes s !! m) as [l|] eqn:E; [by destruct (ok_boxes _ _ Hok m l E) as (_ & _ & _ & ? & ?)|by split; constructor]. }
    split; [|apply Forall_app; split; [done|constructor; [rewrite Hl; exact Hlen|constructor]]]. rewrite fmap_app. apply NoDup_app. split; [done|]. split; [|apply NoDup_singleton].
    intros i (x & -> & Hx)%list_elem_of_fmap Hin%list_elem_of_singleton. apply Hfresh. cbn in Hin. rewrite <- Hin. by apply (Hused m items (Hitems x Hx)).
  - rewrite (ok_total _ _ Hok), Hh, Hl. lia.
  - done.
  - intros k. cbn [network_bytes]. rewrite Hnh, (bytes_default _ _ n (ok_bytes _ _ Hok)). unfold w_net. cbn [network it]. pose proof (net_held_nonneg used s k Hok). destruct (decide (n = k)) as [<-|Hne].
    + rewrite lookup_insert_eq, bool_decide_eq_true_2 by done. rewrite (proj2 (Z.eqb_neq _ 0)); [by rewrite Hl|rewrite Hl; lia].
    + rewrite lookup_insert_ne, bool_decide_eq_false_2, Z.add_0_r by done. apply (ok_bytes _ _ Hok).
  - intros k. rewrite Hnh. pose proof (ok_net _ _ Hok k). unfold w_net. cbn [network it]. case_bool_decide as E; [subst k|]; lia.
  - split.
    + intros m' l x [[<- <-]|[Hne Hl']]%lookup_insert_Some Hx.
      * apply elem_of_app in Hx as [Hx| ->%list_elem_of_singleton].
        -- destruct (O1 m items x (Hitems x Hx) Hx) as (q & Hq & Hin). destruct (decide (n = network x)) as [E|E].
           ++ rewrite <- E, lookup_insert_eq. eexists. split; [done|]. rewrite <- E in Hq. rewrite Hq. apply elem_of_app. by left.
           ++ rewrite lookup_insert_ne by done. by exists q.
        -- cbn [network it item_id]. rewrite lookup_insert_eq. eexists. split; [done|]. apply elem_of_app. right. left.
      * destruct (O1 m' l x Hl' Hx) as (q & Hq & Hin). destruct (decide (n = network x)) as [E|E].
        -- rewrite <- E, lookup_insert_eq. eexists. split; [done|]. rewrite <- E in Hq. rewrite Hq. apply elem_of_app. by left.
        -- rewrite lookup_insert_ne by done. by exists q.
    + intros k q m' id' l x Hq Hin Hl' Hx Hid. assert (x = it ∧ m' = m ∨ boxes s !! m' = Some (default [] (boxes s !! m')) ∧ x ∈ default [] (boxes s !! m')) as Hcase.
      { apply lookup_insert_Some in Hl' as [[<- <-]|[Hne Hl']]; [|right; rewrite Hl'; by cbn]. apply elem_of_app in Hx as [Hx| ->%list_elem_of_singleton]; [right; split; [by apply (Hitems x)|done]|by left]. }
      assert ((m', id') ∈ used ∨ (m', id') = (m, id) ∧ k = n) as Hk.
      { apply lookup_insert_Some in Hq as [[<- <-]|[Hne Hq]]; [|left; by apply (ok_used _ _ Hok k q)]. apply elem_of_app in Hin as [Hin|Hin%list_elem_of_singleton]; [left|by right].
        destruct (network_order (books s) !! n) as [q0|] eqn:E; [by apply (ok_used _ _ Hok n q0)|by apply elem_of_nil in Hin]. }
      destruct Hcase as [[-> ->]|[Hb' Hx']].
      * cbn [item_id it] in Hid. subst id'. destruct Hk as [Hk|[_ ->]]; [done|done].
      * destruct Hk as [Hk|[[= -> ->] _]]; [|exfalso; apply Hfresh; rewrite <- Hid; by apply (Hused m _ Hb')].
        apply lookup_insert_Some in Hq as [[<- <-]|[Hne Hq]]; [|by apply (O2 k q m' id' _ x Hq Hin Hb')].
        apply elem_of_app in Hin as [Hin|Hin%list_elem_of_singleton].
        -- destruct (network_order (books s) !! n) as [q0|] eqn:E; [by apply (O2 n q0 m' id' _ x E Hin Hb')|by apply elem_of_nil in Hin].
        -- injection Hin as -> ->. done.
    + intros k q [[<- <-]|[Hne Hq]]%lookup_insert_Some; [|by apply (O3 k)]. apply NoDup_app.
      destruct (network_order (books s) !! n) as [q0|] eqn:E; cbn [from_option Datatypes.id]; [|split; [constructor|split; [by intros ? ?%elem_of_nil|apply NoDup_singleton]]].
      split; [by apply (O3 n)|]. split; [|apply NoDup_singleton]. intros x Hx ->%list_elem_of_singleton. by apply Hfresh, (ok_used _ _ Hok n q0).
  - intros k q x Hq Hx. apply elem_of_union. apply lookup_insert_Some in Hq as [[<- <-]|[Hne Hq]]; [|right; by apply (ok_used _ _ Hok k q)].
    apply elem_of_app in Hx as [Hx| ->%list_elem_of_singleton]; [right|left; by apply elem_of_singleton]. destruct (network_order (books s) !! n) as [q0|] eqn:E; [by apply (ok_used _ _ Hok n q0)|by apply elem_of_nil in Hx].
Qed.
Lemma wsum_sublist w l l' : (∀ it, it ∈ l → 0 ≤ w it) → l' `sublist_of` l → wsum w l' ≤ wsum w l.
Proof.
  intros H Hs. induction Hs as [|x l l' Hs IH|x l l' Hs IH]; [done|..]; rewrite ?wsum_cons; (assert (0 ≤ w x) by (apply H; left)); (assert (wsum w l ≤ wsum w l') by (apply IH; intros; apply H; by right)); lia.
Qed.
Lemma net_shrinks used n c s s' : evicted used n c s s' → ∀ k, net_held (boxes s') k ≤ net_held (boxes s) k.
Proof. intros Hev k. destruct (decide (k = n)) as [->|Hne]; [pose proof (ev_total _ _ _ _ _ Hev); pose proof (ev_less _ _ _ _ _ Hev); lia|]. destruct (ev_others _ _ _ _ _ Hev k Hne). lia. Qed.
Lemma deposited_net m id b n now s k :
  net_held (boxes (deposited m id b n now s)) k = net_held (boxes s) k + (if decide (n = k) then Z.of_nat (length b) else 0).
Proof.
  unfold net_held, deposited. cbn [boxes]. rewrite held_box_insert, wsum_app. cbn [wsum foldr]. fold (wsum (w_net k) (default [] (boxes s !! m))).
  assert (w_net k (mkItem id b (now + ITEM_TTL) n) = if decide (n = k) then Z.of_nat (length b) else 0) as ->; [|lia].
  unfold w_net. cbn [network]. unfold blob_len. cbn [blob]. case_decide; [by rewrite bool_decide_eq_true_2|by rewrite bool_decide_eq_false_2].
Qed.
(** What [put] does, on every branch. *)
Lemma put_spec used m id b n now s :
  mb_ok used s → (m, id) ∉ used →
  match put m id b n now s with
  | (Some e, s') => s' = s
  | (None, s') =>
      mb_ok ({[(m, id)]} ∪ used) s' ∧
      ∃ victim c s1, evicted used victim c s s1 ∧ s' = deposited m id b n now s1 ∧
        ((c = 0%nat ∧ s1 = s) ∨
         (victim ≠ n ∧ (∀ k, net_held (boxes s) k ≤ net_held (boxes s) victim) ∧ net_held (boxes s') n < net_held (boxes s') victim))
  end.
Proof.
  intros Hok Hfresh. unfold put. cbv zeta. destruct (decide (Z.of_nat (length b) ∈ BLOB_SIZES)) as [Hlen|Hlen]; [|by rewrite bool_decide_eq_false_2].
  rewrite bool_decide_eq_true_2 by done. cbn [negb]. pose proof (blob_sizes _ Hlen) as Hb. rewrite (bytes_default _ _ n (ok_bytes _ _ Hok)).
  destruct (Z.ltb_spec MAX_BYTES_PER_NETWORK (net_held (boxes s) n + Z.of_nat (length b))) as [|Hnet]; [done|].
  destruct (match boxes s !! m with Some items => _ | None => false end) eqn:Hbox; [done|].
  assert (Z.of_nat (length (default [] (boxes s !! m))) < MAX_ITEMS_PER_BOX ∧ sum_len (default [] (boxes s !! m)) + Z.of_nat (length b) ≤ MAX_BYTES_PER_BOX) as [Hc Hs].
  { destruct (boxes s !! m); [apply orb_false_iff in Hbox as [?%Z.leb_gt ?%Z.ltb_ge]; by split|]. cbn. unfold MAX_ITEMS_PER_BOX, MAX_BYTES_PER_BOX. lia. }
  pose proof (make_room_spec used n (Z.of_nat (length b)) s Hok ltac:(lia)) as Hroom. destruct (make_room n (Z.of_nat (length b)) s) as [[] s1]; cbn [negb]; [|exact Hroom].
  destruct Hroom as (victim & c & Hev & Htot & Hwhy). fold (deposited m id b n now s1).
  pose proof (net_shrinks used victim c s s1 Hev) as Hsh.
  assert (Z.of_nat (length (default [] (boxes s1 !! m))) < MAX_ITEMS_PER_BOX ∧ sum_len (default [] (boxes s1 !! m)) + Z.of_nat (length b) ≤ MAX_BYTES_PER_BOX) as [Hc1 Hs1].
  { destruct (boxes s1 !! m) as [l'|] eqn:E; cbn [from_option Datatypes.id]; [|unfold MAX_ITEMS_PER_BOX, MAX_BYTES_PER_BOX; cbn; lia].
    destruct (ev_sub _ _ _ _ _ Hev m l' E) as (l & Hl & Hsub). rewrite Hl in Hc, Hs. cbn [from_option Datatypes.id] in Hc, Hs. pose proof (sublist_length _ _ Hsub).
    pose proof (wsum_sublist blob_len l l' ltac:(intros x Hx; pose proof (ok_len used s m l x Hok Hl Hx); lia) Hsub). rewrite !sum_len_wsum in *. lia. }
  split; [apply deposit_ok; [apply Hev|done|done|done|specialize (Hsh n); lia|done|done]|]. exists victim, c, s1. split; [done|]. split; [done|]. destruct Hwhy as [?|(Hne & Hmax & Hlt)]; [by left|right].
  split; [done|]. split; [done|]. rewrite !deposited_net, decide_True, decide_False by done. specialize (Hsh n). lia.
Qed.

(** ** Taking entries out *)
Definition sifted (keep : Item → bool) (items : list Item) : option (list Item) := match retain keep items with [] => None | l => Some l end.
Lemma set_sifted keep m items bs m' : set_box m (retain keep items) bs !! m' = if decide (m = m') then sifted keep items else bs !! m'.
Proof. rewrite set_box_lookup. unfold sifted. by destruct (retain keep items). Qed.
Lemma sift_box_spec keep bs b m items :
  bytes_are b (net_held bs) → (∀ m l it, bs !! m = Some l → it ∈ l → 0 < blob_len it) → bs !! m = Some items →
  ∃ b', sift keep items b = (retain keep items, held blob_len bs - held blob_len (set_box m (retain keep items) bs), count_if (λ x, negb (keep x)) items, b') ∧
    bytes_are b' (net_held (set_box m (retain keep items) bs)) ∧ order_left (net_held bs) (net_held (set_box m (retain keep items) bs)) b b' ∧
    (∀ n, 0 ≤ net_held (set_box m (retain keep items) bs) n ≤ net_held bs n) ∧ held blob_len (set_box m (retain keep items) bs) ≤ held blob_len bs.
Proof.
  intros Hb Hpos Hm. assert (Forall (λ it, 0 < blob_len it) items) as Hf by (apply Forall_forall; intros it; by apply (Hpos m)).
  assert (∀ w, held w (set_box m (retain keep items) bs) = held w bs - wsum w (retain (λ x, negb (keep x)) items)) as Hh.
  { intros w. rewrite held_set_box, Hm. cbn [from_option Datatypes.id]. rewrite (wsum_split w keep items). lia. }
  assert (∀ n, 0 ≤ wsum (w_net n) (retain (λ x, negb (keep x)) items) ≤ net_held bs n) as Hle.
  { intros n. assert (∀ m l it, bs !! m = Some l → it ∈ l → 0 ≤ w_net n it) as Hnn by (intros m' l it Hl Hit; pose proof (Hpos m' l it Hl Hit); by apply w_net_bounds).
    split; [apply wsum_nonneg; intros it [_ Hit]%elem_of_retain; by apply (Hnn m items)|]. etransitivity; [|by apply (held_box (w_net n) bs m items)].
    apply wsum_sublist; [intros; by apply (Hnn m items)|apply retain_sublist]. }
  destruct (sift_spec keep items b (net_held bs) Hb Hf) as (b' & Hs & H1 & H2); [intros n; apply Hle|]. exists b'. rewrite Hs.
  split; [by replace (held blob_len bs - held blob_len (set_box m (retain keep items) bs)) with (wsum blob_len (retain (λ x, negb (keep x)) items)) by (rewrite Hh; lia)|]. split; [eapply bytes_are_ext; [|exact H1]; intros n; unfold net_held; by rewrite Hh|]. split; [intros n; rewrite H2; unfold net_held; by rewrite Hh|].
  split; [intros n; unfold net_held in *; rewrite Hh; specialize (Hle n); lia|].
  rewrite Hh. assert (0 ≤ wsum blob_len (retain (λ x, negb (keep x)) items)); [|lia]. apply wsum_nonneg. intros it [_ Hit]%elem_of_retain. pose proof (Hpos m items it Hm Hit). lia.
Qed.
Lemma sift_boxes_spec keep l bs freed removed b :
  NoDup l.*1 → (∀ kv, kv ∈ l → bs !! kv.1 = Some kv.2) → bytes_are b (net_held bs) → (∀ m l it, bs !! m = Some l → it ∈ l → 0 < blob_len it) →
  ∃ bs' b', foldl (sift_box keep) (bs, freed, removed, b) l = (bs', freed + (held blob_len bs - held blob_len bs'), (removed + sum_list ((λ kv, count_if (λ x, negb (keep x)) kv.2) <$> l))%nat, b') ∧
    bytes_are b' (net_held bs') ∧ order_left (net_held bs) (net_held bs') b b' ∧
    (∀ n, 0 ≤ net_held bs' n ≤ net_held bs n) ∧ held blob_len bs' ≤ held blob_len bs ∧
    ∀ m, bs' !! m = if decide (m ∈ l.*1) then bs !! m ≫= sifted keep else bs !! m.
Proof.
  revert bs freed removed b. induction l as [|[m items] l IH]; intros bs freed removed b Hnd Hin Hb Hpos; cbn [foldl].
  - exists bs, b. split; [cbn; by rewrite Z.sub_diag, Z.add_0_r, Nat.add_0_r|]. split; [done|]. split; [intros n; by destruct (net_held bs n =? 0)|].
    split; [intros n; split; [|lia]; apply held_nonneg; intros m l it Hl Hit; pose proof (Hpos m l it Hl Hit); by apply w_net_bounds|]. split; [done|]. intros m. rewrite decide_False; [done|apply not_elem_of_nil].
  - rewrite fmap_cons in Hnd. apply NoDup_cons in Hnd as [Hm Hnd]. cbn [fst] in Hm. pose proof (Hin (m, items) ltac:(left)) as Hmi. cbn in Hmi.
    destruct (sift_box_spec keep bs b m items Hb Hpos Hmi) as (b1 & Hs & B1 & B2 & B3 & B4). set (bs1 := set_box m (retain keep items) bs) in *.
    unfold sift_box at 2. cbn [fst snd]. rewrite Hs. fold bs1.
    destruct (IH bs1 (freed + (held blob_len bs - held blob_len bs1)) (removed + count_if (λ x, negb (keep x)) items)%nat b1 Hnd) as (bs' & b' & Hf & C1 & C2 & C3 & C4 & C5).
    + intros [m' l'] Hkv. cbn. unfold bs1. rewrite set_sifted, decide_False; [by apply (Hin (m', l')); right|]. intros <-. apply Hm. by apply (list_elem_of_fmap_2 fst _ (m, l')).
    + done.
    + intros m' l' it. unfold bs1. rewrite set_sifted. case_decide as E; [|by apply Hpos]. unfold sifted. destruct (retain keep items) as [|y k] eqn:Er; [done|]. intros [= <-] Hit.
      apply (Hpos m items it Hmi). rewrite <- Er in Hit. by apply elem_of_retain in Hit as [_ ?].
    + exists bs', b'. rewrite Hf. split; [rewrite fmap_cons; cbn [sum_list_with Datatypes.id snd]; rewrite Nat.add_assoc; by replace (freed + (held blob_len bs - held blob_len bs1) + (held blob_len bs1 - held blob_len bs')) with (freed + (held blob_len bs - held blob_len bs')) by lia|]. split; [done|].
      split; [eapply order_left_trans; [|exact B2|exact C2]; intros n; specialize (B3 n); specialize (C3 n); lia|]. split; [intros n; specialize (B3 n); specialize (C3 n); lia|]. split; [lia|].
      intros m'. rewrite C5, fmap_cons. cbn [fst]. unfold bs1. destruct (decide (m = m')) as [<-|Hne].
      * rewrite (decide_False (P := m ∈ l.*1)) by done. rewrite set_sifted, decide_True by done. rewrite decide_True by left. by rewrite Hmi.
      * rewrite set_sifted, (decide_False (P := m = m')) by done. destruct (decide (m' ∈ l.*1)) as [Hl|Hl]; [by rewrite decide_True by (by right)|].
        rewrite decide_False; [done|]. rewrite elem_of_cons. naive_solver.
Qed.
Lemma ok_pos used s : mb_ok used s → ∀ m l it, boxes s !! m = Some l → it ∈ l → 0 < blob_len it.
Proof. intros H m l it Hl Hit. pose proof (ok_len used s m l it H Hl Hit). lia. Qed.
Lemma sifted_sub keep items l : sifted keep items = Some l → l ≠ [] ∧ l `sublist_of` items.
Proof. unfold sifted. destruct (retain keep items) as [|x k] eqn:E; [done|]. intros [= <-]. split; [done|]. rewrite <- E. apply retain_sublist. Qed.
Lemma order_all used s m l it : mb_ok used s → boxes s !! m = Some l → it ∈ l → ∃ q, network_order (books s) !! network it = Some q ∧ (m, item_id it) ∈ q.
Proof. intros H Hl Hit. destruct (ok_order _ _ H) as [O1 _ _]. by apply (O1 m l). Qed.
Lemma delete_spec used m ids s :
  mb_ok used s →
  mb_ok used (delete_items m ids s).2 ∧
  boxes (delete_items m ids s).2 = match boxes s !! m with Some items => set_box m (retain (λ it, negb (bool_decide (item_id it ∈ ids))) items) (boxes s) | None => boxes s end ∧
  (delete_items m ids s).1 = count_if (λ it, bool_decide (item_id it ∈ ids)) (default [] (boxes s !! m)).
Proof.
  intros Hok. unfold delete_items. destruct (boxes s !! m) as [items|] eqn:Hm; [|done]. set (keep := λ it, negb (bool_decide (item_id it ∈ ids))).
  destruct (sift_box_spec keep (boxes s) (books s) m items (ok_bytes _ _ Hok) (ok_pos used s Hok) Hm) as (b' & Hs & B1 & B2 & B3 & B4). rewrite Hs. cbn [fst snd boxes].
  split; [|split; [done|]]. 2: { cbn [from_option Datatypes.id]. unfold count_if. f_equal. apply retain_ext. intros x _. unfold keep. apply negb_involutive. }
  replace (total_bytes s - (held blob_len (boxes s) - held blob_len (set_box m (retain keep items) (boxes s)))) with (held blob_len (set_box m (retain keep items) (boxes s))) by (rewrite (ok_total _ _ Hok); lia).
  apply (shrink_ok used s _ (books s)); [done| |done|intros n; apply B3|done|done|intros n q' Hq; by exists q'|].
  - intros m' l. rewrite set_sifted. case_decide as E; [subst m'; intros [? ?]%sifted_sub; split; [done|by exists items]|].
    intros Hl. split; [by destruct (ok_boxes _ _ Hok m' l Hl)|by exists l].
  - intros m' l it. rewrite set_sifted. case_decide as E; [subst m'; intros [_ Hsub]%sifted_sub Hit; apply (order_all used s m items); [done|done|by eapply elem_of_sublist]|apply (order_all used s); done].
Qed.
Lemma prune_spec used now s :
  mb_ok used s →
  mb_ok used (prune_expired now s).2 ∧ boxes (prune_expired now s).2 = omap (sifted (λ it, now <? expires_at it)) (boxes s) ∧
  (prune_expired now s).1 = sum_list ((λ kv, count_if (λ it, negb (now <? expires_at it)) kv.2) <$> map_iter (boxes s)).
Proof.
  intros Hok. unfold prune_expired. set (keep := λ it, now <? expires_at it).
  destruct (sift_boxes_spec keep (map_iter (boxes s)) (boxes s) 0 0 (books s) (NoDup_fst_map_iter (boxes s)) ltac:(intros [k v] Hkv; by apply elem_of_map_iter in Hkv) (ok_bytes _ _ Hok) (ok_pos used s Hok))
    as (bs' & b' & Hf & B1 & B2 & B3 & B4 & B5). rewrite Hf. cbn [fst snd boxes].
  assert (∀ m, bs' !! m = boxes s !! m ≫= sifted keep) as Hlk.
  { intros m. rewrite B5. case_decide as E; [done|]. destruct (boxes s !! m) as [items|] eqn:Em; [|done]. destruct E. apply elem_of_map_iter in Em. by apply (list_elem_of_fmap_2 fst _ (m, items)). }
  split; [|split; [apply map_eq; intros m; by rewrite lookup_omap, Hlk|reflexivity]].
  replace (total_bytes s - (0 + (held blob_len (boxes s) - held blob_len bs'))) with (held blob_len bs') by (rewrite (ok_total _ _ Hok); lia).
  assert (mb_ok used (mkStore bs' (held blob_len bs') b')) as Hok'.
  { apply (shrink_ok used s bs' (books s)); [done| |done|intros n; apply B3|done|done|intros n q' Hq; by exists q'|].
    - intros m l. rewrite Hlk. destruct (boxes s !! m) as [items|]; [|done]. cbn. intros [? ?]%sifted_sub. split; [done|by exists items].
    - intros m l it. rewrite Hlk. destruct (boxes s !! m) as [items|] eqn:Em; [|done]. cbn. intros [_ Hsub]%sifted_sub Hit. apply (order_all used s m items); [done|done|by eapply elem_of_sublist]. }
  apply (trim_ok used _ (mkBooks (network_bytes b') _) Hok'); [done|..]; cbn [boxes books network_order].
  - intros n q'. rewrite lookup_omap. destruct (network_order b' !! n) as [q|]; [|done]. cbn. destruct (retain (is_held bs') q) as [|x k] eqn:E; [done|]. intros [= <-]. exists q. split; [done|]. rewrite <- E. apply retain_sublist.
  - intros n q k Hq Hk Hh. rewrite lookup_omap, Hq. cbn. assert (k ∈ retain (is_held bs') q) as Hin by (by apply elem_of_retain).
    destruct (retain (is_held bs') q) as [|x l]; [by apply elem_of_nil in Hin|]. by eexists.
Qed.

(** ** Histories *)

(** Ids are drawn at random, 128 bits each: no deposit repeats the box and id of another. *)
Inductive mb_reach : gset (BoxId * ItemId) → ChatMailboxStore → Prop :=
  | mb_new : mb_reach ∅ ChatMailboxStore_default
  | mb_put used m id b n now s : (m, id) ∉ used → mb_reach used s → mb_reach ({[(m, id)]} ∪ used) (put m id b n now s).2
  | mb_delete used m ids s : mb_reach used s → mb_reach used (delete_items m ids s).2
  | mb_prune used now s : mb_reach used s → mb_reach used (prune_expired now s).2.
Lemma default_store_ok : mb_ok ∅ ChatMailboxStore_default.
Proof.
  split; cbn [ChatMailboxStore_default boxes total_bytes books network_bytes network_order]; try done.
Qed.
Lemma reach_mb_ok used s : mb_reach used s → mb_ok used s.
Proof.
  induction 1 as [|used m id b n now s Hf _ IH|used m ids s _ IH|used now s _ IH].
  - apply default_store_ok.
  - pose proof (put_spec used m id b n now s IH Hf) as Hp. destruct (put m id b n now s) as [[e|] s']; cbn [snd]; [subst s'; eapply mb_mono; [|exact IH]; set_solver|apply Hp].
  - by apply delete_spec.
  - by apply prune_spec.
Qed.

(** *** In the order they were left

    [log] is the history's accepted deposits, oldest first, each with its network. *)
Notation deposit_log := (list (IpAddr * (BoxId * ItemId))).
Inductive mb_logged : gset (BoxId * ItemId) → deposit_log → ChatMailboxStore → Prop :=
  | logged_new : mb_logged ∅ [] ChatMailboxStore_default
  | logged_put used log m id b n now s : (m, id) ∉ used → mb_logged used log s →
      mb_logged ({[(m, id)]} ∪ used) (match (put m id b n now s).1 with None => log ++ [(n, (m, id))] | Some _ => log end) (put m id b n now s).2
  | logged_delete used log m ids s : mb_logged used log s → mb_logged used log (delete_items m ids s).2
  | logged_prune used log now s : mb_logged used log s → mb_logged used log (prune_expired now s).2.
(** A network's deposits. *)
Definition left_by (n : IpAddr) (log : deposit_log) : list (BoxId * ItemId) := snd <$> retain (λ e, bool_decide (e.1 = n)) log.
(** The held entries of each network's order are its held deposits in the order they were
    left, and each box holds a part of the deposits in that order. *)
Record follows (used : gset (BoxId * ItemId)) (log : deposit_log) (s : ChatMailboxStore) : Prop := mkFollows {
  fo_used : ∀ e, e ∈ log → e.2 ∈ used;
  fo_order : ∀ n, live_order n s = retain (is_held (boxes s)) (left_by n log);
  fo_boxes : ∀ m, (λ it, (network it, (m, item_id it))) <$> default [] (boxes s !! m) `sublist_of` log;
}.
Lemma logged_reach used log s : mb_logged used log s → mb_reach used s.
Proof. induction 1; by constructor. Qed.
Lemma reach_logged used s : mb_reach used s → ∃ log, mb_logged used log s.
Proof. induction 1 as [|used m id b n now s Hf _ [log IH]|used m ids s _ [log IH]|used now s _ [log IH]]; eexists; by econstructor. Qed.
Lemma retain_exact {A} (p : A → bool) (l k : list A) : NoDup k → l `sublist_of` k → (∀ x, x ∈ k → p x = true ↔ x ∈ l) → retain p k = l.
Proof.
  intros Hnd Hs. revert Hnd. induction Hs as [|x l k Hs IH|x l k Hs IH]; intros Hnd Hp; [done|..]; apply NoDup_cons in Hnd as [Hx Hnd]; rewrite retain_cons.
  - rewrite (proj2 (Hp x ltac:(left))) by left. f_equal. apply IH; [done|]. intros y Hy. rewrite (Hp y) by by right. rewrite elem_of_cons. split; [|by right]. intros [->|?]; done.
  - destruct (p x) eqn:E; [destruct Hx; eapply elem_of_sublist; [|exact Hs]; by apply Hp; [left|]|]. apply IH; [done|]. intros y Hy. apply Hp. by right.
Qed.
Lemma retain_sublist_weaker {A} (p q : A → bool) l : (∀ x, p x = true → q x = true) → retain p l `sublist_of` retain q l.
Proof.
  intros H. induction l as [|x l IH]; [done|]. rewrite !retain_cons. destruct (p x) eqn:Ep; [rewrite (H x) by done; by constructor|]. destruct (q x); [by constructor|done].
Qed.
Lemma retain_of_sublist {A} (p : A → bool) l k : l `sublist_of` k → retain p l `sublist_of` retain p k.
Proof. induction 1 as [|x l k Hs IH|x l k Hs IH]; [done|..]; rewrite !retain_cons; destruct (p x); by try constructor. Qed.
Lemma live_order_nodup used s n : mb_ok used s → NoDup (live_order n s).
Proof.
  intros Hok. unfold live_order. eapply sublist_NoDup; [|apply retain_sublist]. destruct (ok_order _ _ Hok) as [_ _ O3]. destruct (network_order (books s) !! n) as [q|] eqn:E; [by apply (O3 n)|constructor].
Qed.
(** Taking entries out of the boxes and nothing new into the orders. *)
Lemma follows_shrink used log s s' :
  mb_ok used s → mb_ok used s' → (∀ m l', boxes s' !! m = Some l' → ∃ l, boxes s !! m = Some l ∧ l' `sublist_of` l) →
  (∀ n, live_order n s' `sublist_of` live_order n s) → follows used log s → follows used log s'.
Proof.
  intros Hok Hok' Hsub Hlive [F1 F2 F3]. split; [done|..].
  - assert (∀ k, is_held (boxes s') k = true → is_held (boxes s) k = true) as Hh.
    { intros [m id] (items & it & Hm & Hit & Hid)%is_held_true. destruct (Hsub m items Hm) as (l & Hl & Hs). apply is_held_true. exists l, it. split; [done|]. split; [by eapply elem_of_sublist|done]. }
    intros n. assert (retain (is_held (boxes s')) (left_by n log) = retain (is_held (boxes s')) (live_order n s)) as ->.
    { rewrite F2. unfold retain. rewrite list_filter_filter_l; [done|]. intros x. apply Hh. }
    symmetry. apply retain_exact; [by apply (live_order_nodup used)|done|]. intros [m id] Hin. unfold live_order in Hin at 1. apply elem_of_retain in Hin as [_ Hin]. split.
    + intros Hk. apply elem_of_retain. split; [done|]. apply is_held_true in Hk as (items & it & Hm & Hit & Hid). destruct (Hsub m items Hm) as (l & Hl & Hs).
      assert (network it = n) as Hn.
      { destruct (ok_order _ _ Hok) as [_ O2 _]. destruct (network_order (books s) !! n) as [q|] eqn:E; [|by apply elem_of_nil in Hin]. apply (O2 n q m id l it E Hin Hl); [by eapply elem_of_sublist|done]. }
      destruct (ok_order _ _ Hok') as [O1 _ _]. destruct (O1 m items it Hm Hit) as (q & Hq & Hqi). rewrite Hn in Hq. rewrite Hq. cbn. by rewrite <- Hid.
    + intros [? _]%elem_of_retain. done.
  - intros m. etransitivity; [|apply (F3 m)]. apply fmap_sublist. destruct (boxes s' !! m) as [l'|] eqn:E; [|apply sublist_nil_l]. destruct (Hsub m l' E) as (l & -> & ?). done.
Qed.
Lemma order_sub_live s s' n :
  (∀ m l', boxes s' !! m = Some l' → ∃ l, boxes s !! m = Some l ∧ l' `sublist_of` l) →
  default [] (network_order (books s') !! n) `sublist_of` default [] (network_order (books s) !! n) → live_order n s' `sublist_of` live_order n s.
Proof.
  intros Hsub Ho. unfold live_order. etransitivity; [apply retain_of_sublist, Ho|]. apply retain_sublist_weaker. intros [m id] (items & it & Hm & Hit & Hid)%is_held_true.
  destruct (Hsub m items Hm) as (l & Hl & Hs). apply is_held_true. exists l, it. split; [done|]. split; [by eapply elem_of_sublist|done].
Qed.
(** Releasing an entry forgets orders, and adds to none. *)
Lemma sift_orders keep items b : network_order (sift keep items b).2 ⊆ network_order b.
Proof.
  assert (∀ it b, network_order (release_item it b) ⊆ network_order b) as Hr.
  { intros it b0. unfold release_item. destruct (network_bytes b0 !! network it); [|done]. cbv zeta. destruct (_ =? 0); [apply delete_subseteq|done]. }
  revert b. induction items as [|it items IH]; intros b; cbn [sift]; [done|]. destruct (keep it).
  - specialize (IH b). by destruct (sift keep items b) as [[[? ?] ?] ?].
  - specialize (IH (release_item it b)). destruct (sift keep items (release_item it b)) as [[[? ?] ?] ?]. cbn in *. etransitivity; [exact IH|apply Hr].
Qed.
Lemma sift_box_orders keep l acc : network_order (foldl (sift_box keep) acc l).2 ⊆ network_order acc.2.
Proof.
  revert acc. induction l as [|kv l IH]; intros acc; cbn [foldl]; [done|]. etransitivity; [apply IH|]. destruct acc as [[[bs freed] removed] b]. unfold sift_box.
  pose proof (sift_orders keep kv.2 b) as H. by destruct (sift keep kv.2 b) as [[[? ?] ?] ?].
Qed.
Lemma order_default_sub (a b : gmap IpAddr (list (BoxId * ItemId))) n : a ⊆ b → default [] (a !! n) `sublist_of` default [] (b !! n).
Proof. intros Hs. destruct (a !! n) as [q|] eqn:E; [|apply sublist_nil_l]. by rewrite (lookup_weaken _ _ _ _ E Hs). Qed.
Lemma delete_follows used log m ids s : mb_ok used s → follows used log s → follows used log (delete_items m ids s).2.
Proof.
  intros Hok Hf. destruct (delete_spec used m ids s Hok) as (Hok' & Hb & _).
  assert (∀ m' l', boxes (delete_items m ids s).2 !! m' = Some l' → ∃ l, boxes s !! m' = Some l ∧ l' `sublist_of` l) as Hsub.
  { rewrite Hb. intros m' l'. destruct (boxes s !! m) as [items|] eqn:Em; [|intros H; by exists l']. rewrite set_sifted. case_decide as E; [subst m'; intros [_ ?]%sifted_sub; by exists items|intros H; by exists l']. }
  apply (follows_shrink used log s); [done..| |done]. intros n. apply order_sub_live; [done|]. apply order_default_sub. unfold delete_items. destruct (boxes s !! m) as [items|]; [|done].
  pose proof (sift_orders (λ it, negb (bool_decide (item_id it ∈ ids))) items (books s)) as H. by destruct (sift _ items (books s)) as [[[? ?] ?] ?].
Qed.
Lemma prune_follows used log now s : mb_ok used s → follows used log s → follows used log (prune_expired now s).2.
Proof.
  intros Hok Hf. destruct (prune_spec used now s Hok) as (Hok' & Hb & _).
  assert (∀ m' l', boxes (prune_expired now s).2 !! m' = Some l' → ∃ l, boxes s !! m' = Some l ∧ l' `sublist_of` l) as Hsub.
  { rewrite Hb. intros m' l'. rewrite lookup_omap. destruct (boxes s !! m') as [items|]; [|done]. cbn. intros [_ ?]%sifted_sub. by exists items. }
  apply (follows_shrink used log s); [done..| |done]. intros n. apply order_sub_live; [done|]. unfold prune_expired.
  pose proof (sift_box_orders (λ it, now <? expires_at it) (map_iter (boxes s)) (boxes s, 0, 0%nat, books s)) as H. destruct (foldl _ _ _) as [[[bs freed] removed] b]. cbn [snd books network_order] in *.
  rewrite lookup_omap. etransitivity; [|by apply order_default_sub]. destruct (network_order b !! n) as [q|]; [|done]. cbn. destruct (retain (is_held bs) q) as [|x k] eqn:E; [apply sublist_nil_l|]. cbn. rewrite <- E. apply retain_sublist.
Qed.
Lemma evict_follows used log n c s s' : mb_ok used s → evicted used n c s s' → follows used log s → follows used log s'.
Proof.
  intros Hok Hev. apply follows_shrink; [done|apply Hev|apply Hev|]. intros k. destruct (decide (k = n)) as [->|Hne].
  - rewrite (ev_oldest _ _ _ _ _ Hev). apply sublist_drop.
  - by rewrite (proj1 (ev_others _ _ _ _ _ Hev k Hne)).
Qed.
Lemma deposit_follows used log m id b n now s :
  mb_ok used s → (m, id) ∉ used → follows used log s → follows ({[(m, id)]} ∪ used) (log ++ [(n, (m, id))]) (deposited m id b n now s).
Proof.
  intros Hok Hf [F1 F2 F3]. split.
  - intros e [He| ->%list_elem_of_singleton]%elem_of_app; [apply elem_of_union; right; by apply F1|cbn; set_solver].
  - assert (∀ k, k ∈ used → is_held (boxes (deposited m id b n now s)) k = is_held (boxes s) k) as Hsame.
    { intros [m' id'] Hk. unfold is_held. cbn [deposited boxes fst snd]. destruct (decide (m = m')) as [<-|Hne]; [|by rewrite lookup_insert_ne]. rewrite lookup_insert_eq, existsb_app. cbn.
      unfold has_item_id at 2. cbn. rewrite bool_decide_eq_false_2 by (intros ->; done). rewrite !orb_false_r. by destruct (boxes s !! m). }
    assert (∀ l, (∀ k, k ∈ l → k ∈ used) → retain (is_held (boxes (deposited m id b n now s))) l = retain (is_held (boxes s)) l) as Hret by (intros l Hl; apply retain_ext; intros x Hx; by apply Hsame, Hl).
    assert (∀ k q, network_order (books s) !! k = Some q → ∀ x, x ∈ q → x ∈ used) as Hq by (intros k q Hkq x Hx; by apply (ok_used _ _ Hok k q)).
    assert (is_held (boxes (deposited m id b n now s)) (m, id) = true) as Hnew.
    { apply is_held_true. cbn [deposited boxes]. rewrite lookup_insert_eq. eexists _, _. split; [done|]. split; [apply elem_of_app; right; by apply list_elem_of_singleton|done]. }
    assert (∀ k, retain (is_held (boxes (deposited m id b n now s))) (left_by k log) = live_order k s) as Hold.
    { intros k. rewrite F2. apply Hret. intros x Hx. unfold left_by in Hx. apply list_elem_of_fmap in Hx as (e & -> & [_ He]%elem_of_retain). by apply F1. }
    intros k. unfold left_by. unfold retain at 2. rewrite filter_app. fold (retain (λ e : IpAddr * (BoxId * ItemId), bool_decide (e.1 = k)) log). rewrite fmap_app. unfold retain at 1. rewrite filter_app. fold (left_by k log).
    fold (retain (is_held (boxes (deposited m id b n now s))) (left_by k log)). rewrite Hold. unfold live_order at 1. cbn [deposited books network_order]. fold (deposited m id b n now s). destruct (decide (n = k)) as [<-|Hne].
    + rewrite lookup_insert_eq. cbn [from_option Datatypes.id]. unfold retain at 1. rewrite filter_app. rewrite (filter_cons_True _ (n, (m, id)) []) by (cbn; by apply bool_decide_eq_true). cbn [filter list_filter fmap list_fmap snd].
      f_equal. change (retain (is_held (boxes (deposited m id b n now s))) (default [] (network_order (books s) !! n)) = live_order n s). apply Hret. destruct (network_order (books s) !! n) as [q|] eqn:E; [by apply (Hq n)|by intros k ?%elem_of_nil].
    + rewrite lookup_insert_ne by done. rewrite (filter_cons_False _ (n, (m, id)) []) by (cbn; by rewrite bool_decide_eq_false_2). cbn [filter list_filter fmap list_fmap]. rewrite app_nil_r.
      apply Hret. destruct (network_order (books s) !! k) as [q|] eqn:E; [by apply (Hq k)|by intros x ?%elem_of_nil].
  - intros m'. cbn [deposited boxes]. destruct (decide (m = m')) as [<-|Hne].
    + rewrite lookup_insert_eq. cbn [from_option Datatypes.id]. rewrite fmap_app. by apply sublist_app; [apply F3|].
    + rewrite lookup_insert_ne by done. apply sublist_inserts_r, F3.
Qed.
Lemma logged_follows used log s : mb_logged used log s → follows used log s.
Proof.
  induction 1 as [|used log m id b n now s Hf Hl IH|used log m ids s Hl IH|used log now s Hl IH].
  - split; [by intros e ?%elem_of_nil|done|]. intros m. apply sublist_nil_l.
  - pose proof (reach_mb_ok _ _ (logged_reach _ _ _ Hl)) as Hok. pose proof (put_spec used m id b n now s Hok Hf) as Hp. destruct (put m id b n now s) as [[e|] s']; cbn [fst snd].
    + subst s'. destruct IH as [F1 F2 F3]. split; [|done..]. intros x Hx. apply elem_of_union. right. by apply F1.
    + destruct Hp as (_ & victim & c & s1 & Hev & -> & _). apply deposit_follows; [apply Hev|done|]. by eapply evict_follows.
  - apply delete_follows; [by apply reach_mb_ok, (logged_reach used log)|done].
  - apply prune_follows; [by apply reach_mb_ok, (logged_reach used log)|done].
Qed.
(** C14: after any deposits, collections and sweeps no box has more than 64 entries or 256 KiB, no
    network more than 4 MiB and the store no more than 64 MiB; the byte counts kept are
    exactly what the boxes hold, in all and for each network.  The deposit order kept for
    a network, less the entries already gone that wait there for the sweep, is exactly its
    held entries in the order they were left; and each box lists its entries in that order,
    under the networks that left them. *)
Theorem mailbox_reachable_ok used log s : mb_logged used log s →
  mb_ok used s ∧
  (∀ n, live_order n s = retain (is_held (boxes s)) (left_by n log)) ∧
  (∀ m, (λ it, (network it, (m, item_id it))) <$> default [] (boxes s !! m) `sublist_of` log).
Proof. intros H. split; [by apply reach_mb_ok, (logged_reach used log)|]. by destruct (logged_follows used log s H). Qed.
(** C15: a deposit that is refused changes nothing, whatever the reason.  One that is accepted
    costs no one an entry, or costs only the network that holds the most, oldest
    entries first, which even then is left with more than the depositor has. *)
Theorem deposit_outcome used m id b n now s :
  mb_reach used s → (m, id) ∉ used →
  match put m id b n now s with
  | (Some e, s') => s' = s
  | (None, s') =>
      ∃ victim c s1, evicted used victim c s s1 ∧ s' = deposited m id b n now s1 ∧
        ((c = 0%nat ∧ s1 = s) ∨
         (victim ≠ n ∧ (∀ k, net_held (boxes s) k ≤ net_held (boxes s) victim) ∧ net_held (boxes s') n < net_held (boxes s') victim))
  end.
Proof. intros Hr Hf. pose proof (put_spec used m id b n now s (reach_mb_ok used s Hr) Hf) as H. destruct (put m id b n now s) as [[e|] s']; [done|apply H]. Qed.

(** ** Collecting *)
Definition live_of (m : BoxId) (now : Z) (s : ChatMailboxStore) : list (BoxId * ItemId * bytes) :=
  (λ it, (m, item_id it, blob it)) <$> retain (λ it, now <? expires_at it) (default [] (boxes s !! m)).
Definition live_in (bs : list BoxId) (now : Z) (s : ChatMailboxStore) : list (BoxId * ItemId * bytes) := concat ((λ m, live_of m now s) <$> bs).
Lemma fetch_items_spec m items now limit out :
  (length out ≤ limit)%nat →
  let l := out ++ ((λ it, (m, item_id it, blob it)) <$> retain (λ it, now <? expires_at it) items) in
  fetch_items m items now limit out = (take limit l, bool_decide (limit < length l)%nat).
Proof.
  revert out. induction items as [|it items IH]; intros out Ho; cbv zeta; cbn [fetch_items].
  - cbn. rewrite app_nil_r, take_ge, bool_decide_eq_false_2 by lia. done.
  - rewrite retain_cons. destruct (now <? expires_at it); cbn [negb]; [|by apply IH]. rewrite fmap_cons. destruct (decide (limit ≤ length out)%nat) as [Hl|Hl].
    + rewrite take_app_le, take_ge, bool_decide_eq_true_2 by (rewrite ?length_app; cbn; lia). done.
    + rewrite IH by (rewrite length_app; cbn; lia). by rewrite <- app_assoc.
Qed.
Lemma fetch_boxes_spec bs now limit s out :
  (length out ≤ limit)%nat → fetch_boxes bs now limit s out = (take limit (out ++ live_in bs now s), bool_decide (limit < length (out ++ live_in bs now s))%nat).
Proof.
  revert out. induction bs as [|m bs IH]; intros out Ho; cbn [fetch_boxes].
  - unfold live_in. cbn. rewrite app_nil_r, take_ge, bool_decide_eq_false_2 by lia. done.
  - unfold live_in. rewrite fmap_cons. cbn [concat]. fold (live_in bs now s). unfold live_of. destruct (boxes s !! m) as [items|]; [|by apply IH]. cbn [from_option Datatypes.id].
    rewrite fetch_items_spec by done. cbv zeta. set (l := (λ it, (m, item_id it, blob it)) <$> _). rewrite app_assoc. case_bool_decide as Hb.
    + rewrite bool_decide_eq_true_2 by (rewrite length_app; lia). by rewrite (take_app_le (out ++ l)) by lia.
    + rewrite (take_ge (out ++ l)) by lia. by apply IH; lia.
Qed.
(** A collection returns the live entries of the boxes asked for, box by box and oldest first,
    up to its limit, and says there is more exactly when an entry was left out. *)
Theorem fetch_exact bs now limit s :
  fetch bs now limit s = (take limit (live_in bs now s), bool_decide (limit < length (live_in bs now s))%nat).
Proof. apply (fetch_boxes_spec bs now limit s []). cbn. lia. Qed.
(** Deleting removes exactly the named entries of the one box, and a sweep exactly the entries
    past their week, in any box; nothing else is lost or altered. *)
Theorem removal_exact used m ids now s :
  mb_reach used s →
  (∀ m' it, holds (delete_items m ids s).2 m' it ↔ holds s m' it ∧ ¬ (m' = m ∧ item_id it ∈ ids)) ∧
  (∀ m' it, holds (prune_expired now s).2 m' it ↔ holds s m' it ∧ now < expires_at it).
Proof.
  intros Hr. pose proof (reach_mb_ok used s Hr) as Hok. destruct (delete_spec used m ids s Hok) as (_ & Hd & _). destruct (prune_spec used now s Hok) as (_ & Hp & _).
  split; intros m' it; unfold holds; [rewrite Hd|rewrite Hp].
  - destruct (boxes s !! m) as [items|] eqn:Em.
    + setoid_rewrite set_sifted. destruct (decide (m = m')) as [<-|Hne].
      * split.
        -- intros (l & Hl & Hit). unfold sifted in Hl. destruct (retain _ items) as [|y k] eqn:E; [done|]. injection Hl as <-. rewrite <- E in Hit.
           apply elem_of_retain in Hit as [Hk Hit]. apply negb_true_iff, bool_decide_eq_false in Hk. split; [by exists items|]. by intros [_ ?].
        -- intros [(l & Hl & Hit) Hno]. rewrite Em in Hl. injection Hl as <-. assert (it ∈ retain (λ it, negb (bool_decide (item_id it ∈ ids))) items) as Hin.
           { apply elem_of_retain. split; [|done]. apply negb_true_iff, bool_decide_eq_false. naive_solver. }
           unfold sifted. destruct (retain _ items) as [|y k]; [by apply elem_of_nil in Hin|]. by eexists.
      * split; [intros (l & ? & ?); split; [by exists l|naive_solver]|intros [(l & ? & ?) _]; by exists l].
    + split; [|by intros [? _]]. intros (l & Hl & Hit). split; [by exists l|]. intros [-> _]. congruence.
  - setoid_rewrite lookup_omap. destruct (boxes s !! m') as [items|]; cbn; [|split; [by intros (? & ? & _)|by intros [(? & ? & _) _]]]. unfold sifted. split.
    + intros (l & Hl & Hit). destruct (retain _ items) as [|y k] eqn:E; [done|]. injection Hl as <-. rewrite <- E in Hit. apply elem_of_retain in Hit as [Hk%Z.ltb_lt Hit]. split; [by exists items|done].
    + intros [(l & [= <-] & Hit) Hlt]. assert (it ∈ retain (λ it, now <? expires_at it) items) as Hin by (apply elem_of_retain; split; [by apply Z.ltb_lt|done]).
      destruct (retain _ items) as [|y k]; [by apply elem_of_nil in Hin|]. by eexists.
Qed.
(** ** From deposit to collection *)

(** What can happen to the store while the entry [it] waits in box [m]: anything but its
    deletion, a sweep after its week, and a deposit that has to make room at the cost
    of the network that left it. *)
Inductive waits (m : BoxId) (it : Item) : gset (BoxId * ItemId) → ChatMailboxStore → gset (BoxId * ItemId) → ChatMailboxStore → Prop :=
  | waits_here used s : waits m it used s used s
  | waits_put used s used' s' m' id b n now : waits m it used s used' s' → (m', id) ∉ used' →
      total_bytes s' + Z.of_nat (length b) ≤ MAX_TOTAL_BYTES ∨ n = network it ∨ (∃ k, net_held (boxes s') (network it) < net_held (boxes s') k) →
      waits m it used s ({[(m', id)]} ∪ used') (put m' id b n now s').2
  | waits_delete used s used' s' m' ids : waits m it used s used' s' → ¬ (m' = m ∧ item_id it ∈ ids) → waits m it used s used' (delete_items m' ids s').2
  | waits_prune used s used' s' now : waits m it used s used' s' → now < expires_at it → waits m it used s used' (prune_expired now s').2.
Lemma put_no_eviction m id b n now s s' : put m id b n now s = (None, s') → total_bytes s + Z.of_nat (length b) ≤ MAX_TOTAL_BYTES → s' = deposited m id b n now s.
Proof.
  intros Hp Hroom. unfold put in Hp. cbv zeta in Hp. destruct (negb _); [done|]. destruct (_ <? _); [done|]. destruct (match boxes s !! m with Some items => _ | None => false end); [done|].
  unfold make_room in Hp. cbv zeta in Hp. rewrite Z.max_l in Hp by lia. cbn in Hp. by injection Hp as <-.
Qed.
Lemma deposited_holds m' id b n now s m it : holds s m it → holds (deposited m' id b n now s) m it.
Proof.
  intros (items & Hm & Hit). unfold holds, deposited. cbn [boxes]. destruct (decide (m' = m)) as [->|Hne]; [|rewrite lookup_insert_ne by done; by exists items].
  rewrite lookup_insert_eq, Hm. eexists. split; [done|]. apply elem_of_app. by left.
Qed.
Lemma waits_holds m it used s used' s' : waits m it used s used' s' → mb_reach used s → holds s m it → mb_reach used' s' ∧ holds s' m it.
Proof.
  induction 1 as [used s|used s used' s' m' id b n now _ IH Hf Hwhy|used s used' s' m' ids _ IH Hno|used s used' s' now _ IH Hnow]; intros Hr Hh; [done|..]; destruct (IH Hr Hh) as [Hr' Hh'].
  - split; [by apply mb_put|]. pose proof (put_spec used' m' id b n now s' (reach_mb_ok _ _ Hr') Hf) as Hp. destruct (put m' id b n now s') as [[e|] s2] eqn:Ep; cbn [snd]; [by subst|].
    destruct Hwhy as [Hroom|Hwhy]; [rewrite (put_no_eviction _ _ _ _ _ _ _ Ep Hroom); by apply deposited_holds|]. destruct Hp as (_ & victim & c & s1 & Hev & -> & Hc). apply deposited_holds.
    destruct Hc as [[_ ->]|(Hv & Hmax & _)]; [done|]. apply (ev_kept _ _ _ _ _ Hev); [|done]. intros E. destruct Hwhy as [->|[k Hk]]; [congruence|]. specialize (Hmax k). rewrite <- E in Hmax. lia.
  - split; [by apply mb_delete|]. apply (proj1 (removal_exact used' m' ids 0 s' Hr')). split; [done|]. intros [-> ?]. by apply Hno.
  - split; [by apply mb_prune|]. apply (proj2 (removal_exact used' m [] now s' Hr')). by split.
Qed.
(** A collector's round: fetch a page, delete what it held, and again while the server says
    there is more. *)
Definition page_ids (m : BoxId) (page : list (BoxId * ItemId * bytes)) : list ItemId := (λ e, e.1.2) <$> retain (λ e, bool_decide (e.1.1 = m)) page.
Definition clear_page (bs : list BoxId) (page : list (BoxId * ItemId * bytes)) (s : ChatMailboxStore) : ChatMailboxStore :=
  foldl (λ s m, (delete_items m (page_ids m page) s).2) s bs.
Fixpoint collect_pages (pages : nat) (bs : list BoxId) (now : Z) (s : ChatMailboxStore) : list (BoxId * ItemId * bytes) * ChatMailboxStore :=
  match pages with
  | O => ([], s)
  | S pages =>
      let '(page, more) := fetch bs now MAX_ITEMS_PER_FETCH s in
      let s := clear_page bs page s in
      if more : bool then let '(rest, s) := collect_pages pages bs now s in (page ++ rest, s) else (page, s)
  end.
Lemma elem_of_page_ids m id page : id ∈ page_ids m page ↔ (m, id) ∈ fst <$> page.
Proof.
  unfold page_ids. rewrite !list_elem_of_fmap. split.
  - intros (e & -> & [E%bool_decide_eq_true He]%elem_of_retain). exists e. split; [|done]. rewrite <- E. by destruct e as [[? ?] ?].
  - intros ([[m' id'] b] & [= -> ->] & He). eexists. split; [|apply elem_of_retain; split; [|exact He]]; [done|]. by apply bool_decide_eq_true.
Qed.
Lemma clear_page_spec used bs page s : mb_ok used s → NoDup bs → mb_ok used (clear_page bs page s) ∧
  ∀ m, m ∈ bs → default [] (boxes (clear_page bs page s) !! m) = retain (λ it, negb (bool_decide (item_id it ∈ page_ids m page))) (default [] (boxes s !! m)).
Proof.
  intros Hok Hnd. enough (mb_ok used (clear_page bs page s) ∧ ∀ m, default [] (boxes (clear_page bs page s) !! m) =
    if decide (m ∈ bs) then retain (λ it, negb (bool_decide (item_id it ∈ page_ids m page))) (default [] (boxes s !! m)) else default [] (boxes s !! m)) as [H1 H2] by (split; [done|]; intros m Hm; by rewrite H2, decide_True).
  unfold clear_page. revert s Hok. induction bs as [|m0 bs IH]; intros s Hok; cbn [foldl].
  - split; [done|]. intros m. by rewrite decide_False by apply not_elem_of_nil.
  - apply NoDup_cons in Hnd as [Hm0 Hnd]. destruct (delete_spec used m0 (page_ids m0 page) s Hok) as (Hok' & Hb & _). destruct (IH Hnd _ Hok') as [I1 I2]. split; [done|]. intros m. rewrite I2. clear I2.
    assert (default [] (boxes (delete_items m0 (page_ids m0 page) s).2 !! m) = if decide (m = m0) then retain (λ it, negb (bool_decide (item_id it ∈ page_ids m page))) (default [] (boxes s !! m)) else default [] (boxes s !! m)) as ->.
    { rewrite Hb. case_decide as E; [subst m|]; destruct (boxes s !! m0) as [items|] eqn:E0; rewrite ?E0; rewrite ?set_box_lookup; [rewrite decide_True by done; cbn [from_option Datatypes.id]; by destruct (retain _ items)|done|rewrite decide_False by congruence; done|done]. }
    destruct (decide (m = m0)) as [->|Hne]; [rewrite decide_False by done; by rewrite decide_True by left|].
    destruct (decide (m ∈ bs)) as [?|Hn]; [by rewrite decide_True by by right|]. rewrite decide_False; [done|]. by intros [?|?]%elem_of_cons.
Qed.
Lemma elem_of_live_in bs now s e : e ∈ live_in bs now s ↔ ∃ m, m ∈ bs ∧ e ∈ live_of m now s.
Proof.
  unfold live_in. induction bs as [|m bs IH]; [split; [by intros ?%elem_of_nil|by intros (? & ?%elem_of_nil & _)]|]. rewrite fmap_cons. cbn [concat]. rewrite elem_of_app, IH. setoid_rewrite elem_of_cons. naive_solver.
Qed.
Lemma live_of_box m now s e : e ∈ live_of m now s → e.1.1 = m.
Proof. unfold live_of. by intros (it & -> & _)%list_elem_of_fmap. Qed.
(** No entry is listed twice. *)
Lemma live_in_nodup used bs now s : mb_ok used s → NoDup bs → NoDup (fst <$> live_in bs now s).
Proof.
  intros Hok. induction bs as [|m bs IH]; intros Hnd; [constructor|]. apply NoDup_cons in Hnd as [Hm Hnd]. unfold live_in. rewrite fmap_cons. cbn [concat]. rewrite fmap_app. apply NoDup_app. split; [|split; [|by apply IH]].
  - unfold live_of. rewrite <- list_fmap_compose. apply (NoDup_fmap_1 snd). rewrite <- list_fmap_compose. destruct (boxes s !! m) as [items|] eqn:E; [|constructor]. cbn [from_option Datatypes.id].
    destruct (ok_boxes _ _ Hok m items E) as (_ & _ & _ & Hi & _). eapply sublist_NoDup; [exact Hi|]. apply (fmap_sublist item_id), retain_sublist.
  - intros k (e & -> & He%live_of_box)%list_elem_of_fmap (e' & E & He')%list_elem_of_fmap. apply (elem_of_live_in bs) in He' as (m' & Hm' & Hl%live_of_box). congruence.
Qed.
Lemma retain_comm {A} (p q : A → bool) l : retain p (retain q l) = retain q (retain p l).
Proof. induction l as [|x l IH]; [done|]. rewrite !retain_cons. destruct (p x) eqn:Ep, (q x) eqn:Eq; rewrite ?retain_cons, ?Ep, ?Eq, ?IH; done. Qed.
(** After a page is cleared the rest of the list is what is left to collect. *)
Lemma live_after_clear used bs now page s : mb_ok used s → NoDup bs →
  live_in bs now (clear_page bs page s) = retain (λ e, negb (bool_decide (e.1 ∈ fst <$> page))) (live_in bs now s).
Proof.
  intros Hok Hnd. destruct (clear_page_spec used bs page s Hok Hnd) as [_ Hc]. set (s' := clear_page bs page s) in *. clearbody s'. clear Hnd. unfold live_in. induction bs as [|m bs IH]; [done|]. rewrite !fmap_cons. cbn [concat]. unfold retain at 1. rewrite filter_app. f_equal.
  - unfold live_of. rewrite Hc by left. fold (retain (λ e : BoxId * ItemId * bytes, negb (bool_decide (e.1 ∈ fst <$> page))) ((λ it, (m, item_id it, blob it)) <$> retain (λ it, now <? expires_at it) (default [] (boxes s !! m)))).
    rewrite retain_fmap. f_equal. rewrite retain_comm. apply retain_ext. intros it _. cbn. f_equal. apply bool_decide_ext. by rewrite elem_of_page_ids.
  - apply IH. intros m' Hm'. apply Hc. by right.
Qed.
Lemma collect_pages_spec used pages bs now s : mb_ok used s → NoDup bs → (collect_pages pages bs now s).1 = take (pages * MAX_ITEMS_PER_FETCH) (live_in bs now s).
Proof.
  intros Hok Hnd. revert s Hok. induction pages as [|pages IH]; intros s Hok; cbn [collect_pages]; [done|]. unfold fetch. rewrite fetch_boxes_spec by (cbn; lia). cbn [app]. set (L := live_in bs now s).
  assert (live_in bs now (clear_page bs (take MAX_ITEMS_PER_FETCH L) s) = drop MAX_ITEMS_PER_FETCH L) as Hrest.
  { rewrite (live_after_clear used) by done. fold L. pose proof (live_in_nodup used bs now s Hok Hnd) as HL. fold L in HL. apply retain_exact; [by eapply NoDup_fmap_1|apply sublist_drop|].
    rewrite <- (take_drop MAX_ITEMS_PER_FETCH L), fmap_app in HL. apply NoDup_app in HL as (_ & Hdis & _). intros e He. rewrite negb_true_iff, bool_decide_eq_false. split.
    - intros Hn. rewrite <- (take_drop MAX_ITEMS_PER_FETCH L), elem_of_app in He. destruct He as [He|He]; [|done]. destruct Hn. apply list_elem_of_fmap. by exists e.
    - intros Hd Ht. apply (Hdis e.1 Ht). apply list_elem_of_fmap. by exists e. }
  destruct (clear_page_spec used bs (take MAX_ITEMS_PER_FETCH L) s Hok Hnd) as [Hok' _]. specialize (IH _ Hok'). rewrite Hrest in IH. rewrite Nat.mul_succ_l, Nat.add_comm, <- take_take_drop, <- IH.
  case_bool_decide as Hm; [by destruct (collect_pages pages bs now _)|]. cbn [fst]. rewrite IH, (drop_ge L), take_nil, app_nil_r by lia. done.
Qed.
(** C28: a message left in a box is collected from it.  After an accepted deposit, and whatever
    happens to the store in its week short of deleting it or making room at the cost of
    its network, it is among the live entries of the box as it was left.  Fetching pages of
    [MAX_ITEMS_PER_FETCH], deleting what each held and asking again while there is more
    goes through the live entries of the boxes asked for in order and leaves none out: as
    many pages as they fill return it, and from its own box two pages always do. *)
Theorem deposit_is_collected used m id b n now s s' used'' s'' t bs pages :
  mb_reach used s → (m, id) ∉ used → put m id b n now s = (None, s') →
  waits m (mkItem id b (now + ITEM_TTL) n) ({[(m, id)]} ∪ used) s' used'' s'' → t < now + ITEM_TTL → m ∈ bs → NoDup bs →
  (m, id, b) ∈ live_of m t s'' ∧
  (collect_pages pages bs t s'').1 = take (pages * MAX_ITEMS_PER_FETCH) (live_in bs t s'') ∧
  ((length (live_in bs t s'') ≤ pages * MAX_ITEMS_PER_FETCH)%nat → (m, id, b) ∈ (collect_pages pages bs t s'').1) ∧
  (m, id, b) ∈ (collect_pages 2 [m] t s'').1.
Proof.
  intros Hr Hf Hp Hw Ht Hm Hnd. assert (mb_reach ({[(m, id)]} ∪ used) s') as Hr' by (pose proof (mb_put used m id b n now s Hf Hr) as H; by rewrite Hp in H).
  assert (holds s' m (mkItem id b (now + ITEM_TTL) n)) as Hh.
  { pose proof (put_spec used m id b n now s (reach_mb_ok _ _ Hr) Hf) as H. rewrite Hp in H. destruct H as (_ & victim & c & s1 & _ & -> & _).
    unfold holds, deposited. cbn [boxes]. rewrite lookup_insert_eq. eexists. split; [done|]. apply elem_of_app. right. by apply list_elem_of_singleton. }
  destruct (waits_holds _ _ _ _ _ _ Hw Hr' Hh) as [Hr'' (items & Hb & Hit)]. pose proof (reach_mb_ok _ _ Hr'') as Hok.
  assert ((m, id, b) ∈ live_of m t s'') as Hlive by (unfold live_of; rewrite Hb; apply list_elem_of_fmap; eexists; split; [|apply elem_of_retain; split; [|exact Hit]]; [done|]; by apply Z.ltb_lt).
  split; [done|]. split; [by apply (collect_pages_spec used'')|]. split; rewrite (collect_pages_spec used'') by (done || apply NoDup_singleton).
  - intros Hlen. rewrite take_ge by done. apply elem_of_live_in. by exists m.
  - rewrite take_ge; [apply elem_of_live_in; exists m; split; [by apply list_elem_of_singleton|done]|]. unfold live_in. cbn [fmap list_fmap concat]. rewrite app_nil_r. unfold live_of. rewrite Hb, length_fmap. cbn [from_option Datatypes.id].
    destruct (ok_boxes _ _ Hok m items Hb) as (_ & Hc & _). pose proof (sublist_length _ _ (retain_sublist (λ it, t <? expires_at it) items)). unfold MAX_ITEMS_PER_BOX in Hc. change (2 * MAX_ITEMS_PER_FETCH)%nat with 64%nat. lia.
Qed.
End claims.

(** ** Witnesses *)
Definition a_box : BoxId := replicate 32 1.
Definition a_net : IpAddr := V4 (mkV4 9 9 9 0).
Definition a_blob : bytes := replicate 512 7.
Definition one_left : ChatMailboxStore := (put a_box [1] a_blob a_net 100 ChatMailboxStore_default).2.
Lemma one_left_reach : mb_reach {[(a_box, [1])]} one_left.
Proof. rewrite <- (right_id_L ∅ (∪) {[(a_box, [1])]}). apply mb_put; [apply not_elem_of_empty|apply mb_new]. Qed.
Definition two_left : ChatMailboxStore := (put a_box [2] a_blob a_net 101 one_left).2.
Lemma two_left_logged : mb_logged ({[(a_box, [2])]} ∪ ({[(a_box, [1])]} ∪ ∅)) [(a_net, (a_box, [1])); (a_net, (a_box, [2]))] two_left.
Proof.
  assert (mb_logged ({[(a_box, [1])]} ∪ ∅) [(a_net, (a_box, [1]))] one_left) as H1 by exact (logged_put ∅ [] a_box [1] a_blob a_net 100 ChatMailboxStore_default ltac:(apply not_elem_of_empty) logged_new).
  assert ((a_box, [2]) ∉ ({[(a_box, [1])]} ∪ ∅ : gset (BoxId * ItemId))) as Hf by (intros [E%elem_of_singleton|E]%elem_of_union; [discriminate|by apply not_elem_of_empty in E]).
  exact (logged_put _ [(a_net, (a_box, [1]))] a_box [2] a_blob a_net 101 one_left Hf H1).
Qed.
Lemma mailbox_reachable_ok_witness : total_bytes two_left = held blob_len (boxes two_left) ∧ live_order a_net two_left = [(a_box, [1]); (a_box, [2])].
Proof.
  destruct (mailbox_reachable_ok _ _ _ two_left_logged) as (H1 & H2 & _). split; [exact (ok_total _ _ H1)|]. rewrite (H2 a_net). vm_compute. reflexivity.
Defined.
Lemma deposit_outcome_witness :
  ∃ victim c s1, evicted {[(a_box, [1])]} victim c one_left s1 ∧ (put a_box [2] a_blob a_net 101 one_left).2 = deposited a_box [2] a_blob a_net 101 s1.
Proof.
  assert ((a_box, [2]) ∉ ({[(a_box, [1])]} : gset (BoxId * ItemId))) as Hf by (intros E%elem_of_singleton; discriminate).
  pose proof (deposit_outcome {[(a_box, [1])]} a_box [2] a_blob a_net 101 one_left one_left_reach Hf) as Ho.
  assert ((put a_box [2] a_blob a_net 101 one_left).1 = None) as E by (vm_compute; reflexivity). destruct (put a_box [2] a_blob a_net 101 one_left) as [[e|] s']; [discriminate E|].
  destruct Ho as (victim & c & s1 & H1 & H2 & _). exists victim, c, s1. split; [exact H1|exact H2].
Defined.
Definition later_left : ChatMailboxStore := (prune_expired 300 (delete_items a_box [[1]] (put a_box [3] a_blob a_net 200 two_left).2).2).2.
Lemma deposit_is_collected_witness : (a_box, [2], a_blob) ∈ (collect_pages 2 [a_box] 500 later_left).1 ∧ (collect_pages 2 [a_box] 500 later_left).1 = [(a_box, [2], a_blob); (a_box, [3], a_blob)].
Proof.
  split; [|vm_compute; reflexivity].
  assert (∀ a b : ItemId, a ≠ b → (a_box, a) ∉ ({[(a_box, b)]} : gset (BoxId * ItemId))) as Hne by (intros a b Hab [= E]%elem_of_singleton; contradiction).
  assert ((a_box, [3]) ∉ ({[(a_box, [2])]} ∪ {[(a_box, [1])]} : gset (BoxId * ItemId))) as H3 by (apply not_elem_of_union; split; apply Hne; discriminate).
  apply (deposit_is_collected {[(a_box, [1])]} a_box [2] a_blob a_net 101 one_left two_left ({[(a_box, [3])]} ∪ ({[(a_box, [2])]} ∪ {[(a_box, [1])]})) later_left 500 [a_box] 2 one_left_reach);
    [apply Hne; discriminate|vm_compute; reflexivity| |reflexivity|left|apply NoDup_singleton].
  apply waits_prune; [|reflexivity]. apply waits_delete; [|intros [_ E%list_elem_of_singleton]; discriminate E]. apply waits_put; [apply waits_here|exact H3|right; left; reflexivity].
Defined.
Lemma removal_exact_witness : holds (prune_expired 100 one_left).2 a_box (mkItem [1] a_blob (100 + ITEM_TTL) a_net).
Proof.
  apply (proj2 (removal_exact {[(a_box, [1])]} a_box [] 100 one_left one_left_reach)). split; [|vm_compute; reflexivity].
  exists [mkItem [1] a_blob (100 + ITEM_TTL) a_net]. split; [vm_compute; reflexivity|left].
Defined.
