(* ===== verification/Registry.v ===== *)
(** * The channel registry of the rendezvous server

    [ChannelRegistry] of [rendezvous-server/src/registry.rs]: who holds a username or a
    room name, the indexes over them, renames, handovers, nominations, tombstones, the
    release of abandoned names, and what a registry starts with.  Strings are lists of
    code points. *)
From S2P Require Import Prelude NodeId Addr MapOrder RoutingQuery.
Local Open Scope Z_scope.

Notation str := (list Z).

(** ** Text *)

(** What the registry takes from Unicode tables and other crates: [str::to_lowercase],
    the confusable skeleton of UTS 39, hexadecimal, and BLAKE3. *)
Class RegistryText := {
  to_lowercase : str → str;
  skeleton : str → str;
  hex_decode : str → option bytes;
  hex_encode : bytes → str;
  blake3_hash : bytes → bytes;
}.
Definition USERNAME_MAX : Z := 12.
Definition CHANNEL_NAME_MAX : Z := 64.
Definition USERNAME_MIN : Z := 2.
Definition ascii_lower (c : Z) : Z := if (65 <=? c) && (c <=? 90) then c + 32 else c.
Definition to_ascii_lowercase (s : str) : str := ascii_lower <$> s.
Definition eq_ignore_ascii_case (a b : str) : bool := bool_decide (to_ascii_lowercase a = to_ascii_lowercase b).
Definition char_len (c : Z) : Z := if c <? 128 then 1 else if c <? 2048 then 2 else if c <? 65536 then 3 else 4.
(** [str::len], in bytes of UTF-8. *)
Definition str_len (s : str) : Z := foldr (λ c n, char_len c + n) 0 s.
Definition is_control (c : Z) : bool := (c <? 32) || ((127 <=? c) && (c <=? 159)).
Definition is_whitespace (c : Z) : bool :=
  ((9 <=? c) && (c <=? 13)) || (c =? 32) || (c =? 133) || (c =? 160) || (c =? 5760) || ((8192 <=? c) && (c <=? 8202)) || (c =? 8232) || (c =? 8233) || (c =? 8239) || (c =? 8287) || (c =? 12288).
Definition is_bidi_or_zero_width (c : Z) : bool :=
  ((8203 <=? c) && (c <=? 8207)) || ((8234 <=? c) && (c <=? 8238)) || ((8294 <=? c) && (c <=? 8297)) || (c =? 65279) || (c =? 1564) || (c =? 8232) || (c =? 8233).
Fixpoint skip_whitespace (s : str) : str := match s with c :: s' => if is_whitespace c then skip_whitespace s' else s | [] => [] end.
Definition trim (s : str) : str := reverse (skip_whitespace (reverse (skip_whitespace s))).
Definition strip_invisible (raw : str) : str := trim (retain (λ c, negb (is_control c) && negb (c =? 0) && negb (is_bidi_or_zero_width c)) raw).
Definition is_ascii_alphanumeric (c : Z) : bool := ((48 <=? c) && (c <=? 57)) || ((65 <=? c) && (c <=? 90)) || ((97 <=? c) && (c <=? 122)).
Definition ANONYMOUS : str := [97; 110; 111; 110; 121; 109; 111; 117; 115].
Section text.
Context `{Txt : RegistryText}.
Definition normalize_username (raw : str) : option str :=
  let cleaned := strip_invisible raw in
  if (str_len cleaned <? USERNAME_MIN) || (USERNAME_MAX <? str_len cleaned) then None
  else if negb (forallb is_ascii_alphanumeric cleaned) then None
  else if eq_ignore_ascii_case cleaned ANONYMOUS then None
  else Some (to_lowercase cleaned).
Definition normalize_channel_name (raw : str) : option str :=
  let cleaned := strip_invisible raw in
  if bool_decide (cleaned = []) || (CHANNEL_NAME_MAX <? str_len cleaned) then None
  else if eq_ignore_ascii_case cleaned ANONYMOUS then None
  else Some (to_lowercase cleaned).
Definition confusable_key (name : str) : str := skeleton (to_lowercase name).
Definition channel_id_of_key (pubkey_hex : str) : option str :=
  match hex_decode pubkey_hex with
  | Some pubkey => if bool_decide (length pubkey = 32%nat) then Some (hex_encode (take 16 (blake3_hash pubkey))) else None
  | None => None
  end.
Definition decoded_len (s : str) : Z := match hex_decode s with Some b => Z.of_nat (length b) | None => 0 end.
Definition valid_user_key (pk : str) : bool := (str_len pk =? 64) && (decoded_len pk =? 32).
Definition valid_channel (id pk : str) : bool := (str_len id =? 32) && (str_len pk =? 64) && (decoded_len id =? 16) && (decoded_len pk =? 32).
End text.

(** ** Limits *)
Definition CHANNEL_DIRECTORY_STALE_SECS : Z := 7 * 24 * 60 * 60.
Definition NAME_RELEASE_SECS : Z := 365 * 24 * 60 * 60.
Definition NOMINEE_GRACE_SECS : Z := 30 * 24 * 60 * 60.
Definition RETIRED_NAME_HOLD_SECS : Z := 30 * 24 * 60 * 60.
Definition RENAME_INTERVAL_SECS : Z := 24 * 60 * 60.
Definition MAX_RETIRED_NAMES : nat := 3.
Definition USERNAME_IDLE_SECS : Z := 365 * 24 * 60 * 60.
Definition CLAIM_AFTER_DAYS_MIN : Z := 7.
Definition CLAIM_AFTER_DAYS_MAX : Z := 365.
Definition MAX_USERNAMES : Z := 100000.
Definition MAX_CHANNEL_NAMES : Z := 100000.
Definition MAX_DELETED : Z := 100000.
Definition i64_saturating_mul (a b : Z) : Z := clamp i64_min i64_max (a * b).

(** ** Records *)
Record ChannelNameRecord := mkName {
  channel_id : str;
  pubkey : str;
  private : bool;
  is_deleted_name : bool;
  display : str;
  refreshed_at : Z;
  nominee : str;
  claim_after_days : Z;
  created_at : Z;
  handed_over_from : str;
  retired_at : Z;
  renamed_at : Z;
  inheritor : str;
}.
Definition has_nominee (r : ChannelNameRecord) : bool := (0 <? claim_after_days r) && negb (bool_decide (nominee r = [])).
Definition is_current (r : ChannelNameRecord) : bool := negb (is_deleted_name r) && (retired_at r =? 0).
Definition release_after_secs (r : ChannelNameRecord) : Z :=
  if negb (has_nominee r) then NAME_RELEASE_SECS
  else Z.max NAME_RELEASE_SECS (i64_saturating_add (i64_saturating_mul (claim_after_days r) 86400) NOMINEE_GRACE_SECS).
Definition abandoned (now : Z) (r : ChannelNameRecord) : bool :=
  if is_deleted_name r then false
  else if 0 <? retired_at r then RETIRED_NAME_HOLD_SECS <? i64_saturating_sub now (retired_at r)
  else release_after_secs r <? i64_saturating_sub now (if 0 <? refreshed_at r then refreshed_at r else now).
Definition with_refreshed (t : Z) (r : ChannelNameRecord) : ChannelNameRecord :=
  mkName (channel_id r) (pubkey r) (private r) (is_deleted_name r) (display r) t (nominee r) (claim_after_days r) (created_at r) (handed_over_from r) (retired_at r) (renamed_at r) (inheritor r).
Definition with_shown (p : bool) (d : str) (t : Z) (r : ChannelNameRecord) : ChannelNameRecord :=
  mkName (channel_id r) (pubkey r) p (is_deleted_name r) d t (nominee r) (claim_after_days r) (created_at r) (handed_over_from r) (retired_at r) (renamed_at r) (inheritor r).
Definition with_nominee (n : str) (days : Z) (r : ChannelNameRecord) : ChannelNameRecord :=
  mkName (channel_id r) (pubkey r) (private r) (is_deleted_name r) (display r) (refreshed_at r) n days (created_at r) (handed_over_from r) (retired_at r) (renamed_at r) (inheritor r).
Definition with_retired (t : Z) (r : ChannelNameRecord) : ChannelNameRecord :=
  mkName (channel_id r) (pubkey r) (private r) (is_deleted_name r) (display r) (refreshed_at r) (nominee r) (claim_after_days r) (created_at r) (handed_over_from r) t (renamed_at r) (inheritor r).
Definition with_deleted (r : ChannelNameRecord) : ChannelNameRecord :=
  mkName (channel_id r) (pubkey r) (private r) true (display r) (refreshed_at r) (nominee r) (claim_after_days r) (created_at r) (handed_over_from r) (retired_at r) (renamed_at r) (inheritor r).
Definition handed_over (id pk from by_ : str) (t : Z) (r : ChannelNameRecord) : ChannelNameRecord :=
  mkName id pk (private r) (is_deleted_name r) (display r) t [] 0 (created_at r) from (retired_at r) (renamed_at r) by_.

Inductive RegistryError := InvalidName | Taken | Forbidden | Full | ReadOnly | RenameTooSoon.

(** What is written to disk. *)
Record RegistryFile := mkFile { f_usernames : gmap str str; f_names : gmap str ChannelNameRecord; f_deleted : gset str; f_activity : gmap str Z }.
Definition RegistryFile_default : RegistryFile := mkFile ∅ ∅ ∅ ∅.
Record ChannelRegistry := mkRegistry {
  has_path : bool;
  usernames : gmap str str;
  by_pubkey : gmap str str;
  names : gmap str ChannelNameRecord;
  deleted : gset str;
  username_activity : gmap str Z;
  by_channel : gmap str (list str);
  by_skeleton : gmap str (list str);
  dirty : bool;
  generation : Z;
  durable_generation : Z;
  read_only : bool;
  closed : bool;
}.
Definition on_users (r : ChannelRegistry) (u b : gmap str str) (a : gmap str Z) : ChannelRegistry :=
  mkRegistry (has_path r) u b (names r) (deleted r) a (by_channel r) (by_skeleton r) (dirty r) (generation r) (durable_generation r) (read_only r) (closed r).
Definition on_names (r : ChannelRegistry) (n : gmap str ChannelNameRecord) (c s : gmap str (list str)) : ChannelRegistry :=
  mkRegistry (has_path r) (usernames r) (by_pubkey r) n (deleted r) (username_activity r) c s (dirty r) (generation r) (durable_generation r) (read_only r) (closed r).
Definition put_name (r : ChannelRegistry) (name : str) (rec : ChannelNameRecord) : ChannelRegistry := on_names r (<[name := rec]> (names r)) (by_channel r) (by_skeleton r).
Definition on_deleted (r : ChannelRegistry) (d : gset str) : ChannelRegistry :=
  mkRegistry (has_path r) (usernames r) (by_pubkey r) (names r) d (username_activity r) (by_channel r) (by_skeleton r) (dirty r) (generation r) (durable_generation r) (read_only r) (closed r).
Definition touch (r : ChannelRegistry) : ChannelRegistry :=
  mkRegistry (has_path r) (usernames r) (by_pubkey r) (names r) (deleted r) (username_activity r) (by_channel r) (by_skeleton r)
    (if negb (read_only r) && has_path r then true else dirty r) ((generation r + 1) mod 18446744073709551616) (durable_generation r) (read_only r) (closed r).
Definition touch_durable (r : ChannelRegistry) : ChannelRegistry :=
  let r := touch r in
  mkRegistry (has_path r) (usernames r) (by_pubkey r) (names r) (deleted r) (username_activity r) (by_channel r) (by_skeleton r) (dirty r) (generation r)
    (if negb (read_only r) && has_path r then generation r else durable_generation r) (read_only r) (closed r).
Definition close_for_shutdown (r : ChannelRegistry) : ChannelRegistry :=
  mkRegistry (has_path r) (usernames r) (by_pubkey r) (names r) (deleted r) (username_activity r) (by_channel r) (by_skeleton r) (dirty r) (generation r) (durable_generation r) (read_only r) true.
Definition writable (r : ChannelRegistry) : bool := negb (read_only r || closed r).

(** ** Indexes *)
Definition push_name (key name : str) (m : gmap str (list str)) : gmap str (list str) := <[key := default [] (m !! key) ++ [name]]> m.
Definition detach_name (key name : str) (m : gmap str (list str)) : gmap str (list str) :=
  match m !! key with
  | Some l => match retain (λ x, negb (bool_decide (x = name))) l with [] => delete key m | l => <[key := l]> m end
  | None => m
  end.
Section registry.
Context `{Txt : RegistryText, Ord : MapOrder, Uns : UnstableSlice}.
Definition insert_name (name : str) (rec : ChannelNameRecord) (r : ChannelRegistry) : ChannelRegistry :=
  on_names r (<[name := rec]> (names r)) (push_name (to_ascii_lowercase (channel_id rec)) name (by_channel r)) (push_name (confusable_key name) name (by_skeleton r)).
Definition remove_name (name : str) (r : ChannelRegistry) : ChannelRegistry :=
  match names r !! name with
  | Some rec => on_names r (delete name (names r)) (detach_name (to_ascii_lowercase (channel_id rec)) name (by_channel r)) (detach_name (confusable_key name) name (by_skeleton r))
  | None => r
  end.
Definition from_parts (path : bool) (f : RegistryFile) (ro : bool) : ChannelRegistry :=
  let by_pk := foldl (λ m kv, <[to_ascii_lowercase kv.2 := kv.1]> m) ∅ (map_iter (f_usernames f)) in
  foldl (λ r kv, insert_name kv.1 kv.2 r) (mkRegistry path (f_usernames f) by_pk ∅ (f_deleted f) (f_activity f) ∅ ∅ false 0 0 ro false) (map_iter (f_names f)).
Definition in_memory : ChannelRegistry := from_parts false RegistryFile_default false.
Definition names_of_channel (id : str) (r : ChannelRegistry) : list str := default [] (by_channel r !! id).
Definition lookalikes (key : str) (r : ChannelRegistry) : list str := default [] (by_skeleton r !! key).
Definition current_name (r : ChannelRegistry) (name : str) : bool := match names r !! name with Some rec => is_current rec | None => false end.
Definition live_name_of_channel (id : str) (r : ChannelRegistry) : option str :=
  match retain (current_name r) (names_of_channel id r) with name :: _ => Some name | [] => None end.
Definition reap_one (now : Z) (acc : bool * ChannelRegistry) (name : str) : bool * ChannelRegistry :=
  match names acc.2 !! name with
  | Some rec => if abandoned now rec then (true, remove_name name acc.2) else acc
  | None => acc
  end.
Definition reap_abandoned_names (candidates : list str) (now : Z) (r : ChannelRegistry) : bool * ChannelRegistry := foldl (reap_one now) (false, r) candidates.
Definition username_idle (pk : str) (now : Z) (r : ChannelRegistry) : bool :=
  USERNAME_IDLE_SECS <? i64_saturating_sub now (default now (username_activity r !! pk)).
Definition release_username (name : str) (r : ChannelRegistry) : bool * ChannelRegistry :=
  match usernames r !! name with
  | Some pk => (true, on_users r (delete name (usernames r)) (delete pk (by_pubkey r)) (delete pk (username_activity r)))
  | None => (false, r)
  end.
Definition needs_timestamp (rec : ChannelNameRecord) : bool := negb (is_deleted_name rec || (0 <? refreshed_at rec)).
Definition grandfather_legacy_timestamps (now : Z) (r : ChannelRegistry) : bool * ChannelRegistry :=
  let named := existsb (λ kv, needs_timestamp kv.2) (map_iter (names r)) in
  let r := on_names r ((λ rec, if needs_timestamp rec then with_refreshed now rec else rec) <$> names r) (by_channel r) (by_skeleton r) in
  let '(used, act) := foldl (λ acc kv, if bool_decide (is_Some (acc.2 !! kv.2)) then acc else (true, <[kv.2 := now]> acc.2)) (false, username_activity r) (map_iter (usernames r)) in
  (named || used, on_users r (usernames r) (by_pubkey r) act).
Definition reap_stale (now : Z) (r : ChannelRegistry) : bool * ChannelRegistry :=
  if read_only r || closed r then (false, r)
  else
    let '(c1, r) := grandfather_legacy_timestamps now r in
    let idle := (retain (λ kv, username_idle kv.2 now r) (map_iter (usernames r))).*1 in
    let '(c2, r) := foldl (λ acc name, let '(c, r) := release_username name acc.2 in (acc.1 || c, r)) (c1, r) idle in
    let gone := (retain (λ kv, abandoned now kv.2) (map_iter (names r))).*1 in
    let '(c3, r) := reap_abandoned_names gone now r in
    (c2 || c3, if c2 || c3 then touch r else r).

(** ** Usernames *)
Definition claim_username_at (pubkey_hex name : str) (now : Z) (r : ChannelRegistry) : option RegistryError * ChannelRegistry :=
  if negb (writable r) then (Some ReadOnly, r)
  else match normalize_username name with
  | None => (Some InvalidName, r)
  | Some normalized =>
      let pk := to_ascii_lowercase pubkey_hex in
      if negb (valid_user_key pk) then (Some InvalidName, r)
      else
        let r := match usernames r !! normalized with
                 | Some owner => if username_idle owner now r then (let '(c, r) := release_username normalized r in if c then touch r else r) else r
                 | None => r
                 end in
        match usernames r !! normalized with
        | Some owner =>
            if eq_ignore_ascii_case owner pk then (None, touch (on_users r (usernames r) (by_pubkey r) (<[pk := now]> (username_activity r))))
            else (Some Taken, r)
        | None =>
            let r := match by_pubkey r !! pk with
                     | Some old => touch (on_users r (delete old (usernames r)) (delete pk (by_pubkey r)) (username_activity r))
                     | None => r
                     end in
            let r := if MAX_USERNAMES <=? Z.of_nat (size (usernames r)) then (reap_stale now r).2 else r in
            if MAX_USERNAMES <=? Z.of_nat (size (usernames r)) then (Some Full, r)
            else (None, touch_durable (on_users r (<[normalized := pk]> (usernames r)) (<[pk := normalized]> (by_pubkey r)) (<[pk := now]> (username_activity r))))
        end
  end.
Definition holds_username (pubkey_hex name : str) (r : ChannelRegistry) : bool :=
  match normalize_username name with
  | Some normalized => match usernames r !! normalized with Some owner => eq_ignore_ascii_case owner pubkey_hex | None => false end
  | None => false
  end.

(** ** Room names *)
Definition has_channel (id : str) (r : ChannelRegistry) : bool := bool_decide (is_Some (live_name_of_channel (to_ascii_lowercase id) r)).
(** A record of another room among names that look like the one asked for. *)
Definition other_room (id : str) (r : ChannelRegistry) (existing : str) : bool :=
  match names r !! existing with Some rec => negb (eq_ignore_ascii_case (channel_id rec) id) | None => false end.
Definition owned_by (id pk : str) (rec : ChannelNameRecord) : bool := eq_ignore_ascii_case (channel_id rec) id && eq_ignore_ascii_case (pubkey rec) pk.
Definition reap_candidates (normalized id : str) (now : Z) (r : ChannelRegistry) : ChannelRegistry :=
  let '(changed, r) := reap_abandoned_names (normalized :: names_of_channel id r ++ lookalikes (confusable_key normalized) r) now r in
  if changed then touch r else r.
Definition new_name_record (id pk : str) (p : bool) (d : str) (now : Z) : ChannelNameRecord := mkName id pk p false d now [] 0 now [] 0 0 [].
(** The room's live name, when it is another than the one asked for. *)
Definition held_other (normalized id : str) (r : ChannelRegistry) : option str :=
  match live_name_of_channel id r with Some existing => if bool_decide (existing = normalized) then None else Some existing | None => None end.
Definition claim_exact (normalized d id pk : str) (p : bool) (now : Z) (r : ChannelRegistry) : option RegistryError * ChannelRegistry :=
  if negb (bool_decide (is_Some (names r !! normalized))) && existsb (other_room id r) (lookalikes (confusable_key normalized) r) then (Some Taken, r)
  else match names r !! normalized with
  | Some rec =>
      if is_deleted_name rec || negb (retired_at rec =? 0) || negb (owned_by id pk rec) then (Some Taken, r)
      else
        let changed := negb (bool_decide (private rec = p)) || negb (bool_decide (display rec = d)) in
        let r := put_name r normalized (with_shown p d now rec) in
        (None, if changed then touch_durable r else touch r)
  | None =>
      let r := if MAX_CHANNEL_NAMES <=? Z.of_nat (size (names r)) then (reap_stale now r).2 else r in
      if MAX_CHANNEL_NAMES <=? Z.of_nat (size (names r)) then (Some Full, r)
      else (None, touch_durable (insert_name normalized (new_name_record id pk p d now) r))
  end.
Definition claim_channel_name_at (channel pubkey_hex name : str) (p : bool) (now : Z) (r : ChannelRegistry) : option RegistryError * ChannelRegistry :=
  if negb (writable r) then (Some ReadOnly, r)
  else match normalize_channel_name name with
  | None => (Some InvalidName, r)
  | Some normalized =>
      let id := to_ascii_lowercase channel in
      let pk := to_ascii_lowercase pubkey_hex in
      if negb (valid_channel id pk) then (Some InvalidName, r)
      else if bool_decide (id ∈ deleted r) then (Some Taken, r)
      else
        let r := reap_candidates normalized id now r in
        match held_other normalized id r with
        | Some existing =>
            (Some Taken, match names r !! existing with
                         | Some rec => if eq_ignore_ascii_case (pubkey rec) pk then touch (put_name r existing (with_refreshed now rec)) else r
                         | None => r
                         end)
        | None => claim_exact normalized (strip_invisible name) id pk p now r
        end
  end.
Definition apply_rename (from to d : str) (p : bool) (now : Z) (r : ChannelRegistry) : ChannelRegistry :=
  match names r !! from with
  | None => r
  | Some old =>
      let r := put_name r from (with_retired now old) in
      let renamed := mkName (channel_id old) (pubkey old) p false d now (nominee old) (claim_after_days old) (created_at old) (handed_over_from old) 0 now (inheritor old) in
      match names r !! to with Some _ => put_name r to renamed | None => insert_name to renamed r end
  end.
Definition retired_le (a b : Z * str) : bool := bytes_le (a.1 :: a.2) (b.1 :: b.2).
Definition retired_names (id : str) (r : ChannelRegistry) : list (Z * str) :=
  omap (λ name, match names r !! name with Some rec => if negb (is_deleted_name rec) && (0 <? retired_at rec) then Some (retired_at rec, name) else None | None => None end) (names_of_channel id r).
Definition release_surplus_retired_names (id : str) (r : ChannelRegistry) : ChannelRegistry :=
  let retired := retired_names id r in
  if decide (length retired ≤ MAX_RETIRED_NAMES)%nat then r
  else foldl (λ r x, remove_name x.2 r) r (take (length retired - MAX_RETIRED_NAMES) (stable_sort retired_le retired)).
Definition rename_channel_name_at (channel pubkey_hex name : str) (p : bool) (now : Z) (r : ChannelRegistry) : option RegistryError * ChannelRegistry :=
  if negb (writable r) then (Some ReadOnly, r)
  else match normalize_channel_name name with
  | None => (Some InvalidName, r)
  | Some normalized =>
      let id := to_ascii_lowercase channel in
      let pk := to_ascii_lowercase pubkey_hex in
      if negb (valid_channel id pk) then (Some InvalidName, r)
      else if bool_decide (id ∈ deleted r) then (Some Taken, r)
      else
        let r := reap_candidates normalized id now r in
        match held_other normalized id r with
        | None => claim_channel_name_at channel pubkey_hex name p now r
        | Some from =>
            match names r !! from with
            | None => (Some InvalidName, r)
            | Some current =>
                if negb (eq_ignore_ascii_case (pubkey current) pk) then (Some Forbidden, r)
                else if (0 <? renamed_at current) && (i64_saturating_sub now (renamed_at current) <? RENAME_INTERVAL_SECS) then (Some RenameTooSoon, r)
                else if negb (bool_decide (is_Some (names r !! normalized))) && existsb (other_room id r) (lookalikes (confusable_key normalized) r) then (Some Taken, r)
                else
                  let go (r : ChannelRegistry) := (None, touch_durable (release_surplus_retired_names id (apply_rename from normalized (strip_invisible name) p now r))) in
                  match names r !! normalized with
                  | Some rec => if is_deleted_name rec || (retired_at rec =? 0) || negb (owned_by id pk rec) then (Some Taken, r) else go r
                  | None =>
                      if MAX_CHANNEL_NAMES <=? Z.of_nat (size (names r)) then
                        let r := (reap_stale now r).2 in
                        if MAX_CHANNEL_NAMES <=? Z.of_nat (size (names r)) then (Some Full, r) else go r
                      else go r
                  end
            end
        end
  end.
(** ** Nomination, handover, deletion *)
Definition set_channel_nominee (channel pubkey_hex nominee_hex : str) (days : Z) (r : ChannelRegistry) : option RegistryError * ChannelRegistry :=
  if negb (writable r) then (Some ReadOnly, r)
  else
    let id := to_ascii_lowercase channel in
    let pk := to_ascii_lowercase pubkey_hex in
    let nom := to_ascii_lowercase nominee_hex in
    let clearing := bool_decide (nom = []) || (days =? 0) in
    if negb clearing && (negb (str_len nom =? 64) || bool_decide (hex_decode nom = None) || negb ((CLAIM_AFTER_DAYS_MIN <=? days) && (days <=? CLAIM_AFTER_DAYS_MAX))) then (Some InvalidName, r)
    else match live_name_of_channel id r with
    | None => (Some InvalidName, r)
    | Some name =>
        match names r !! name with
        | None => (Some InvalidName, r)
        | Some rec =>
            if negb (eq_ignore_ascii_case (pubkey rec) pk) then (Some Forbidden, r)
            else
              let '(nom, days) := if clearing then ([], 0) else (nom, days) in
              if bool_decide (nominee rec = nom) && (claim_after_days rec =? days) then (None, r)
              else (None, touch_durable (put_name r name (with_nominee nom days rec)))
        end
    end.
Definition nominee_may_take (signer : str) (now : Z) (rec : ChannelNameRecord) : bool :=
  has_nominee rec && eq_ignore_ascii_case (nominee rec) signer && (i64_saturating_mul (claim_after_days rec) 86400 <=? i64_saturating_sub now (refreshed_at rec)).
Definition handover_channel_name (old_channel new_channel new_pubkey_hex signer_hex : str) (now : Z) (r : ChannelRegistry) : option RegistryError * ChannelRegistry :=
  if negb (writable r) then (Some ReadOnly, r)
  else
    let old_id := to_ascii_lowercase old_channel in
    let new_id := to_ascii_lowercase new_channel in
    let new_pk := to_ascii_lowercase new_pubkey_hex in
    let signer := to_ascii_lowercase signer_hex in
    if negb (valid_channel new_id new_pk) then (Some InvalidName, r)
    else if bool_decide (new_id = old_id) then (Some InvalidName, r)
    else if bool_decide (old_id ∈ deleted r) || bool_decide (new_id ∈ deleted r) then (Some Taken, r)
    else match live_name_of_channel new_id r with
    | Some held =>
        match names r !! held with
        | None => (Some Taken, r)
        | Some rec =>
            if negb (eq_ignore_ascii_case (pubkey rec) new_pk && eq_ignore_ascii_case (handed_over_from rec) old_id) then (Some Taken, r)
            else if bool_decide (channel_id_of_key signer = Some new_id) || (negb (bool_decide (inheritor rec = [])) && bool_decide (inheritor rec = signer))
            then (None, touch (put_name r held (with_refreshed now rec)))
            else (None, r)
        end
    | None =>
        match live_name_of_channel old_id r with
        | None => (Some InvalidName, r)
        | Some name =>
            match names r !! name with
            | None => (Some InvalidName, r)
            | Some rec =>
                let by_owner := eq_ignore_ascii_case (pubkey rec) signer in
                let by_nominee := nominee_may_take signer now rec in
                if negb by_owner && negb by_nominee then (Some Forbidden, r)
                else
                  let previous := to_ascii_lowercase (channel_id rec) in
                  (None, touch_durable (on_names r (<[name := handed_over new_id new_pk previous (if by_nominee then signer else []) now rec]> (names r))
                                          (push_name new_id name (detach_name previous name (by_channel r))) (by_skeleton r)))
            end
        end
    end.
Definition delete_channel (channel pubkey_hex : str) (r : ChannelRegistry) : option RegistryError * ChannelRegistry :=
  if negb (writable r) then (Some ReadOnly, r)
  else
    let id := to_ascii_lowercase channel in
    let pk := to_ascii_lowercase pubkey_hex in
    let held := names_of_channel id r in
    if existsb (λ name, match names r !! name with Some rec => negb (eq_ignore_ascii_case (pubkey rec) pk) | None => false end) held then (Some Forbidden, r)
    else
      let '(found, r) := foldl (λ acc name, match names acc.2 !! name with Some rec => (true, put_name acc.2 name (with_deleted rec)) | None => acc end) (false, r) held in
      if negb found && bool_decide (id ∈ deleted r) then (None, r)
      else if negb found && (MAX_DELETED <=? Z.of_nat (size (deleted r))) then (Some Full, r)
      else (None, touch_durable (on_deleted r ({[id]} ∪ deleted r))).
Definition is_deleted (channel : str) (r : ChannelRegistry) : bool :=
  let id := to_ascii_lowercase channel in
  bool_decide (id ∈ deleted r) || existsb (λ name, match names r !! name with Some rec => is_deleted_name rec | None => false end) (names_of_channel id r).
End registry.
