(* ===== verification/RegistryInv.v ===== *)
(** * The channel registry: indexes, invariant and reaping *)
From S2P Require Import Prelude NodeId Addr MapOrder RoutingQuery Registry.
Local Open Scope Z_scope.

(** ** Indexes *)

(** An index lists, under its key, exactly the names whose record has that key. *)
Definition index_ok (m : gmap str (list str)) (key : str → ChannelNameRecord → str) (ns : gmap str ChannelNameRecord) : Prop :=
  (∀ k l, m !! k = Some l → NoDup l ∧ l ≠ []) ∧
  ∀ k name, name ∈ default [] (m !! k) ↔ ∃ rec, ns !! name = Some rec ∧ key name rec = k.
Lemma index_nodup m key ns k : index_ok m key ns → NoDup (default [] (m !! k)).
Proof. intros [H _]. destruct (m !! k) as [l|] eqn:E; [by apply (H k l)|constructor]. Qed.
Lemma index_insert m key ns name rec :
  index_ok m key ns → ns !! name = None → index_ok (push_name (key name rec) name m) key (<[name := rec]> ns).
Proof.
  intros Hi Hn. pose proof Hi as [H1 H2]. unfold push_name. split.
  - intros k l [[<- <-]|[_ Hl]]%lookup_insert_Some; [|by apply (H1 k)]. split; [|by destruct (default [] (m !! key name rec))].
    apply NoDup_app. split; [by eapply index_nodup|]. split; [|apply NoDup_singleton]. intros x Hx ->%list_elem_of_singleton. apply H2 in Hx as (r & Hr & _). congruence.
  - intros k x. destruct (decide (key name rec = k)) as [E|E].
    + subst k. rewrite lookup_insert_eq. cbn [from_option Datatypes.id]. rewrite elem_of_app, H2, list_elem_of_singleton. split.
      * intros [(r & Hr & Hk)| ->]; [exists r; rewrite lookup_insert_ne; [done|]; intros <-; congruence|exists rec; by rewrite lookup_insert_eq].
      * intros (r & [[<- <-]|[Hne Hr]]%lookup_insert_Some & Hk); [by right|left; by exists r].
    + rewrite lookup_insert_ne, H2 by done. split.
      * intros (r & Hr & Hk). exists r. rewrite lookup_insert_ne; [done|]. intros <-. congruence.
      * intros (r & [[<- <-]|[Hne Hr]]%lookup_insert_Some & Hk); [done|by exists r].
Qed.
Lemma detach_lookup key name m k :
  default [] (detach_name key name m !! k) = if decide (key = k) then retain (λ x, negb (bool_decide (x = name))) (default [] (m !! k)) else default [] (m !! k).
Proof.
  unfold detach_name. case_decide as E; [subst k|].
  - destruct (m !! key) as [l|] eqn:El; [|by rewrite El]. cbn [from_option Datatypes.id]. destruct (retain _ l) as [|x k]; [by rewrite lookup_delete_eq|by rewrite lookup_insert_eq].
  - destruct (m !! key) as [l|]; [|done]. destruct (retain _ l) as [|x k']; [by rewrite lookup_delete_ne|by rewrite lookup_insert_ne].
Qed.
Lemma index_delete m key ns name rec :
  index_ok m key ns → ns !! name = Some rec → index_ok (detach_name (key name rec) name m) key (delete name ns).
Proof.
  intros Hi Hn. pose proof Hi as [H1 H2]. split.
  - intros k l Hl. unfold detach_name in Hl. destruct (m !! key name rec) as [l0|] eqn:E; [|by apply (H1 k)]. destruct (retain _ l0) as [|x k0] eqn:Er.
    + apply lookup_delete_Some in Hl as [_ Hl]. by apply (H1 k).
    + apply lookup_insert_Some in Hl as [[<- <-]|[_ Hl]]; [|by apply (H1 k)]. split; [|done]. rewrite <- Er. eapply sublist_NoDup; [by apply (H1 (key name rec))|apply retain_sublist].
  - intros k x. rewrite detach_lookup. case_decide as E.
    + rewrite elem_of_retain, H2. split.
      * intros [Hne (r & Hr & Hk)]. apply negb_true_iff, bool_decide_eq_false in Hne. exists r. by rewrite lookup_delete_ne.
      * intros (r & [Hne Hr]%lookup_delete_Some & Hk). split; [|by exists r]. by apply negb_true_iff, bool_decide_eq_false.
    + rewrite H2. split.
      * intros (r & Hr & Hk). exists r. rewrite lookup_delete_ne; [done|]. intros <-. congruence.
      * intros (r & [Hne Hr]%lookup_delete_Some & Hk). by exists r.
Qed.
Lemma index_same m key ns name rec rec' :
  index_ok m key ns → ns !! name = Some rec → key name rec' = key name rec → index_ok m key (<[name := rec']> ns).
Proof.
  intros [H1 H2] Hn Hk. split; [done|]. intros k x. rewrite H2. destruct (decide (name = x)) as [<-|Hne].
  - rewrite lookup_insert_eq. split; [intros (r & Hr & ?); exists rec'; split; [done|]; congruence|intros (r & [= <-] & ?); exists rec; split; [done|]; congruence].
  - by rewrite lookup_insert_ne.
Qed.
Lemma index_fmap m key ns f : (∀ name rec, key name (f rec) = key name rec) → index_ok m key ns → index_ok m key (f <$> ns).
Proof.
  intros Hf [H1 H2]. split; [done|]. intros k x. rewrite H2. rewrite lookup_fmap. destruct (ns !! x) as [rec|]; cbn; [|by split; intros (? & ? & _)].
  split; intros (r & [= <-] & <-); eexists; (split; [done|]); by rewrite Hf.
Qed.
Lemma index_move m key ns name rec rec' :
  index_ok m key ns → ns !! name = Some rec → index_ok (push_name (key name rec') name (detach_name (key name rec) name m)) key (<[name := rec']> ns).
Proof. intros Hi Hn. rewrite <- (insert_delete_eq ns name rec'). apply index_insert; [by apply index_delete|apply lookup_delete_eq]. Qed.

(** ** The invariant *)
Definition room_of (rec : ChannelNameRecord) : str := to_ascii_lowercase (channel_id rec).
Section inv.
Context `{Txt : RegistryText, Ord : MapOrder, Uns : UnstableSlice}.
Definition channel_key (_ : str) (rec : ChannelNameRecord) : str := room_of rec.
Definition skeleton_key (name : str) (_ : ChannelNameRecord) : str := confusable_key name.
(** A room's names left behind by renames and still reserved. *)
Definition is_retired (rec : ChannelNameRecord) : bool := negb (is_deleted_name rec) && (0 <? retired_at rec).
Record names_ok (ns : gmap str ChannelNameRecord) (gone : gset str) : Prop := mkNamesOk {
  one_current : ∀ n1 n2 r1 r2, ns !! n1 = Some r1 → ns !! n2 = Some r2 → is_current r1 = true → is_current r2 = true → room_of r1 = room_of r2 → n1 = n2;
  deleted_iff : ∀ n r, ns !! n = Some r → is_deleted_name r = true ↔ room_of r ∈ gone;
  times_ok : ∀ n r, ns !! n = Some r → 0 ≤ retired_at r ∧ 0 < refreshed_at r;
}.
Definition users_ok (us bp : gmap str str) (act : gmap str Z) : Prop :=
  (∀ n pk, us !! n = Some pk ↔ bp !! pk = Some n) ∧ (∀ n pk, us !! n = Some pk → to_ascii_lowercase pk = pk ∧ is_Some (act !! pk)).
Record reg_ok (r : ChannelRegistry) : Prop := mkRegOk {
  ok_channel : index_ok (by_channel r) channel_key (names r);
  ok_skeleton : index_ok (by_skeleton r) skeleton_key (names r);
  ok_names : names_ok (names r) (deleted r);
  ok_users : users_ok (usernames r) (by_pubkey r) (username_activity r);
}.
(** What an operation leaves alone. *)
Definition same_users (r r' : ChannelRegistry) : Prop := usernames r' = usernames r ∧ by_pubkey r' = by_pubkey r ∧ username_activity r' = username_activity r.
Definition same_names (r r' : ChannelRegistry) : Prop := names r' = names r ∧ by_channel r' = by_channel r ∧ by_skeleton r' = by_skeleton r ∧ deleted r' = deleted r.
Lemma reg_ok_ext r r' : same_users r r' → same_names r r' → reg_ok r → reg_ok r'.
Proof. intros (U1 & U2 & U3) (N1 & N2 & N3 & N4) [H1 H2 H3 H4]. split; rewrite ?U1, ?U2, ?U3, ?N1, ?N2, ?N3, ?N4; done. Qed.
Lemma touch_ok r : reg_ok (touch r) ↔ reg_ok r.
Proof. split; apply reg_ok_ext; repeat split. Qed.
Lemma touch_durable_ok r : reg_ok (touch_durable r) ↔ reg_ok r.
Proof. split; apply reg_ok_ext; repeat split. Qed.
Lemma lower_lower s : to_ascii_lowercase (to_ascii_lowercase s) = to_ascii_lowercase s.
Proof.
  unfold to_ascii_lowercase. rewrite <- list_fmap_compose. apply list_fmap_ext. intros _ c _. unfold compose, ascii_lower.
  destruct (Z.leb_spec 65 c), (Z.leb_spec c 90); cbn [andb]; try (destruct (Z.leb_spec 65 (c + 32)), (Z.leb_spec (c + 32) 90); cbn [andb]; lia);
    destruct (Z.leb_spec 65 c), (Z.leb_spec c 90); cbn [andb]; lia.
Qed.
Lemma eq_ignore_true a b : eq_ignore_ascii_case a b = true ↔ to_ascii_lowercase a = to_ascii_lowercase b.
Proof. apply bool_decide_eq_true. Qed.

(** ** One record changed *)
Lemma names_put ns gone name old new :
  names_ok ns gone → ns !! name = Some old → room_of new = room_of old → is_deleted_name new = is_deleted_name old → (is_current new = true → is_current old = true) →
  0 ≤ retired_at new → 0 < refreshed_at new → names_ok (<[name := new]> ns) gone.
Proof.
  intros [H1 H2 H3] Hn Hroom Hdel Hcur Hret Href. split.
  - intros n1 n2 r1 r2 E1 E2 C1 C2 Er. apply lookup_insert_Some in E1 as [[<- <-]|[Hne1 E1]], E2 as [[<- <-]|[Hne2 E2]]; [done|..].
    + apply (H1 name n2 old r2); [done..|by apply Hcur|done|congruence].
    + apply (H1 n1 name r1 old); [done..|by apply Hcur|congruence].
    + by apply (H1 n1 n2 r1 r2).
  - intros n r [[<- <-]|[_ E]]%lookup_insert_Some; [rewrite Hdel, Hroom; by apply (H2 name)|by apply (H2 n)].
  - intros n r [[<- <-]|[_ E]]%lookup_insert_Some; [done|by apply (H3 n)].
Qed.
Lemma names_sub ns ns' gone : (∀ n r, ns' !! n = Some r → ns !! n = Some r) → names_ok ns gone → names_ok ns' gone.
Proof.
  intros Hs [H1 H2 H3]. split; [|intros n r Hr; by apply (H2 n), Hs|intros n r Hr; by apply (H3 n), Hs].
  intros n1 n2 r1 r2 E1 E2. apply Hs in E1, E2. by apply (H1 n1 n2 r1 r2).
Qed.
Lemma names_new ns gone name new :
  names_ok ns gone → room_of new ∉ gone → is_deleted_name new = false → 0 ≤ retired_at new → 0 < refreshed_at new →
  (∀ n r, ns !! n = Some r → is_current r = true → room_of r = room_of new → n = name) → names_ok (<[name := new]> ns) gone.
Proof.
  intros [H1 H2 H3] Hgone Hdel Hret Href Hno. split.
  - intros n1 n2 r1 r2 E1 E2 C1 C2 Er. apply lookup_insert_Some in E1 as [[<- <-]|[Hne1 E1]], E2 as [[<- <-]|[Hne2 E2]]; [done|..].
    + symmetry. by apply (Hno n2 r2).
    + by apply (Hno n1 r1).
    + by apply (H1 n1 n2 r1 r2).
  - intros n r [[<- <-]|[_ E]]%lookup_insert_Some; [by rewrite Hdel|by apply (H2 n)].
  - intros n r [[<- <-]|[_ E]]%lookup_insert_Some; [done|by apply (H3 n)].
Qed.
Lemma remove_name_ok name r : reg_ok r → reg_ok (remove_name name r).
Proof.
  intros [H1 H2 H3 H4]. unfold remove_name. destruct (names r !! name) as [rec|] eqn:E; [|by split].
  split; cbn [on_names by_channel by_skeleton names deleted usernames by_pubkey username_activity]; [|..|done].
  - by apply (index_delete _ channel_key).
  - by apply (index_delete _ skeleton_key _ _ rec).
  - eapply names_sub; [|exact H3]. intros n r0 [_ ?]%lookup_delete_Some. done.
Qed.
Lemma put_name_ok name old new r :
  reg_ok r → names r !! name = Some old → room_of new = room_of old → is_deleted_name new = is_deleted_name old → (is_current new = true → is_current old = true) →
  0 ≤ retired_at new → 0 < refreshed_at new → reg_ok (put_name r name new).
Proof.
  intros [H1 H2 H3 H4] E Hr Hd Hc Ht Hf. split; cbn [put_name on_names by_channel by_skeleton names deleted usernames by_pubkey username_activity]; [..|done].
  - by apply (index_same _ _ _ _ old).
  - by apply (index_same _ _ _ _ old).
  - by apply (names_put _ _ _ old).
Qed.
Lemma insert_name_ok name new r :
  reg_ok r → names r !! name = None → room_of new ∉ deleted r → is_deleted_name new = false → 0 ≤ retired_at new → 0 < refreshed_at new →
  (∀ n rec, names r !! n = Some rec → is_current rec = true → room_of rec = room_of new → n = name) → reg_ok (insert_name name new r).
Proof.
  intros [H1 H2 H3 H4] E Hg Hd Ht Hf Hno. split; cbn [insert_name on_names by_channel by_skeleton names deleted usernames by_pubkey username_activity]; [..|done].
  - by apply (index_insert _ channel_key).
  - by apply (index_insert _ skeleton_key _ _ new).
  - by apply names_new.
Qed.
(** The live name of a room, found through the index. *)
Lemma live_name_spec id r :
  reg_ok r →
  match live_name_of_channel id r with
  | Some name => ∃ rec, names r !! name = Some rec ∧ is_current rec = true ∧ room_of rec = id
  | None => ∀ n rec, names r !! n = Some rec → is_current rec = true → room_of rec ≠ id
  end.
Proof.
  intros [[_ Hc] _ _ _]. unfold live_name_of_channel, names_of_channel.
  assert (∀ x, x ∈ retain (current_name r) (default [] (by_channel r !! id)) ↔ ∃ rec, names r !! x = Some rec ∧ is_current rec = true ∧ room_of rec = id) as Hx.
  { intros x. rewrite elem_of_retain, Hc. unfold current_name, channel_key. split; [intros [Hcur (rec & Hr & Hk)]; rewrite Hr in Hcur; by exists rec|intros (rec & Hr & Hcur & Hk); rewrite Hr; split; [done|by exists rec]]. }
  destruct (retain _ _) as [|name l].
  - intros n rec Hr Hcur Hk. assert (n ∈ []) as Hn by (apply Hx; by exists rec). by apply elem_of_nil in Hn.
  - apply Hx. left.
Qed.
End inv.

(** * Reaping

    What reaping takes away. *)
Section ops.
Context `{Txt : RegistryText, Ord : MapOrder, Uns : UnstableSlice}.
Definition same_mode (r r' : ChannelRegistry) : Prop := read_only r' = read_only r ∧ closed r' = closed r ∧ has_path r' = has_path r.

(** ** Reaping *)

(** Names only go, and only abandoned ones. *)
Record reaped (now : Z) (r r' : ChannelRegistry) : Prop := mkReaped {
  rp_gone : deleted r' = deleted r;
  rp_sub : ∀ n rec, names r' !! n = Some rec → names r !! n = Some rec;
  rp_only : ∀ n rec, names r !! n = Some rec → names r' !! n = None → abandoned now rec = true;
}.
Definition reaped_users (now : Z) (r r' : ChannelRegistry) : Prop :=
  (∀ n pk, usernames r' !! n = Some pk → usernames r !! n = Some pk) ∧
  (∀ n pk, usernames r !! n = Some pk → usernames r' !! n = None → username_idle pk now r = true).
Lemma reaped_refl now r : reaped now r r.
Proof. split; [done|done|]. intros n rec H1 H2. congruence. Qed.
Lemma reaped_trans now r1 r2 r3 : reaped now r1 r2 → reaped now r2 r3 → reaped now r1 r3.
Proof.
  intros [A1 A2 A3] [B1 B2 B3]. split; [congruence|auto|]. intros n rec H Hn. destruct (names r2 !! n) as [rec'|] eqn:E; [|by apply (A3 n)].
  pose proof (A2 n rec' E). assert (rec' = rec) as -> by congruence. by apply (B3 n).
Qed.
Lemma reaped_kept now r r' n rec : reaped now r r' → names r !! n = Some rec → abandoned now rec = false → names r' !! n = Some rec.
Proof. intros [A1 A2 A3] H Ha. destruct (names r' !! n) as [rec'|] eqn:E; [pose proof (A2 n rec' E); congruence|]. rewrite (A3 n rec H E) in Ha. done. Qed.
Lemma remove_name_reaped now name rec r : names r !! name = Some rec → abandoned now rec = true → reaped now r (remove_name name r).
Proof.
  intros H Ha. unfold remove_name. rewrite H. split; cbn [on_names deleted names]; [done|by intros n r0 [_ ?]%lookup_delete_Some|].
  intros n r0 Hr [<-|Hn]%lookup_delete_None; congruence.
Qed.
Lemma remove_name_same name r : same_users r (remove_name name r) ∧ same_mode r (remove_name name r).
Proof. unfold remove_name. destruct (names r !! name); repeat split. Qed.
Lemma reap_one_spec now c r name :
  reg_ok r → let acc := reap_one now (c, r) name in
  reg_ok acc.2 ∧ reaped now r acc.2 ∧ same_users r acc.2 ∧ same_mode r acc.2 ∧ (∀ rec, names acc.2 !! name = Some rec → abandoned now rec = false).
Proof.
  intros Hok. unfold reap_one. cbn [snd fst]. destruct (names r !! name) as [rec|] eqn:E; [destruct (abandoned now rec) eqn:Ha|]; cbn [snd].
  - split; [by apply remove_name_ok|]. split; [by eapply remove_name_reaped|]. destruct (remove_name_same name r). split; [done|]. split; [done|].
    intros rec' Hr. unfold remove_name in Hr. rewrite E in Hr. cbn in Hr. by rewrite lookup_delete_eq in Hr.
  - split; [done|]. split; [apply reaped_refl|]. split; [done|]. split; [done|]. congruence.
  - split; [done|]. split; [apply reaped_refl|]. split; [done|]. split; [done|]. congruence.
Qed.
Lemma same_users_trans r1 r2 r3 : same_users r1 r2 → same_users r2 r3 → same_users r1 r3.
Proof. intros (? & ? & ?) (? & ? & ?). repeat split; congruence. Qed.
Lemma same_mode_trans r1 r2 r3 : same_mode r1 r2 → same_mode r2 r3 → same_mode r1 r3.
Proof. intros (? & ? & ?) (? & ? & ?). repeat split; congruence. Qed.
Lemma reap_fold_spec now cands c r :
  reg_ok r → let acc := foldl (reap_one now) (c, r) cands in
  reg_ok acc.2 ∧ reaped now r acc.2 ∧ same_users r acc.2 ∧ same_mode r acc.2 ∧ (∀ name rec, name ∈ cands → names acc.2 !! name = Some rec → abandoned now rec = false).
Proof.
  revert c r. induction cands as [|x cands IH]; intros c r Hok; cbn [foldl].
  - split; [done|]. split; [apply reaped_refl|]. split; [done|]. split; [done|]. by intros name rec ?%elem_of_nil.
  - destruct (reap_one_spec now c r x Hok) as (A1 & A2 & A3 & A4 & A5). destruct (reap_one now (c, r) x) as [c1 r1]. cbn [snd] in *.
    destruct (IH c1 r1 A1) as (B1 & B2 & B3 & B4 & B5). cbv zeta in *. set (acc := foldl _ _ _) in *. clearbody acc.
    split; [done|]. split; [by eapply reaped_trans|]. split; [by eapply same_users_trans|]. split; [by eapply same_mode_trans|].
    intros name rec [->|Hin]%elem_of_cons Hr; [apply A5; by apply (rp_sub _ _ _ B2)|by apply (B5 name)].
Qed.
Lemma reap_names_spec cands now r :
  reg_ok r → let r' := (reap_abandoned_names cands now r).2 in
  reg_ok r' ∧ reaped now r r' ∧ same_users r r' ∧ same_mode r r' ∧ (∀ name rec, name ∈ cands → names r' !! name = Some rec → abandoned now rec = false).
Proof. apply reap_fold_spec. Qed.
(** With every record dated, there is nothing left to date. *)
Lemma on_names_id r : on_names r (names r) (by_channel r) (by_skeleton r) = r.
Proof. by destruct r. Qed.
Lemma on_users_id r : on_users r (usernames r) (by_pubkey r) (username_activity r) = r.
Proof. by destruct r. Qed.
Lemma grandfather_id now r : reg_ok r → grandfather_legacy_timestamps now r = (false, r).
Proof.
  intros [_ _ [_ _ Ht] [_ Hu]]. unfold grandfather_legacy_timestamps. cbv zeta.
  assert (∀ n rec, names r !! n = Some rec → needs_timestamp rec = false) as Hn.
  { intros n rec H. destruct (Ht n rec H). unfold needs_timestamp. rewrite (proj2 (Z.ltb_lt _ _)) by lia. by rewrite orb_true_r. }
  assert ((λ rec, if needs_timestamp rec then with_refreshed now rec else rec) <$> names r = names r) as ->.
  { apply map_eq. intros n. rewrite lookup_fmap. destruct (names r !! n) as [rec|] eqn:E; [|done]. cbn. by rewrite (Hn n rec E). }
  rewrite on_names_id. assert (existsb (λ kv, needs_timestamp kv.2) (map_iter (names r)) = false) as ->.
  { apply not_true_iff_false. intros ([n rec] & Hin%list_elem_of_In%elem_of_map_iter & Hne)%existsb_exists. cbn in Hne. rewrite (Hn n rec Hin) in Hne. done. }
  assert (∀ l, (∀ kv, kv ∈ l → is_Some (username_activity r !! kv.2)) →
    foldl (λ acc (kv : str * str), if bool_decide (is_Some (acc.2 !! kv.2)) then acc else (true, <[kv.2 := now]> acc.2)) (false, username_activity r) l = (false, username_activity r)) as Hf.
  { intros l. induction l as [|kv l IH]; intros Hl; [done|]. cbn [foldl snd]. rewrite bool_decide_eq_true_2 by (apply Hl; left). apply IH. intros kv' ?. apply Hl. by right. }
  rewrite Hf by (intros [n pk] Hin%elem_of_map_iter; by apply (Hu n)). by rewrite on_users_id.
Qed.
Lemma release_username_spec name r :
  reg_ok r → let r' := (release_username name r).2 in
  reg_ok r' ∧ usernames r' = delete name (usernames r) ∧ same_names r r' ∧ same_mode r r' ∧
  (∀ pk, usernames r !! name ≠ Some pk → username_activity r' !! pk = username_activity r !! pk).
Proof.
  intros [H1 H2 H3 [Hb Hu]]. unfold release_username. destruct (usernames r !! name) as [pk|] eqn:E; cbn [snd].
  2: { split; [by split|]. split; [by rewrite delete_id|]. by split. }
  split; [|split; [done|split; [done|split; [done|]]]]; cbn [on_users username_activity]; [|intros pk' Hne; rewrite lookup_delete_ne; [done|congruence]].
  split; cbn [on_users by_channel by_skeleton names deleted usernames by_pubkey username_activity]; [done..|]. split.
  - intros n pk'. rewrite !lookup_delete_Some, Hb. split.
    + intros [Hne Hn]. split; [|done]. intros <-. apply Hb in E. congruence.
    + intros [Hne Hn]. split; [|done]. intros <-. apply Hb in Hn. congruence.
  - intros n pk' [Hne Hn]%lookup_delete_Some. destruct (Hu n pk' Hn) as [Hl Ha]. split; [done|]. rewrite lookup_delete_ne; [done|]. intros <-. apply Hb in Hn, E. congruence.
Qed.
Lemma release_fold_spec idle c r :
  reg_ok r → let acc := foldl (λ acc name, let '(c, r) := release_username name acc.2 in (acc.1 || c, r)) (c, r) idle in
  reg_ok acc.2 ∧ same_names r acc.2 ∧ same_mode r acc.2 ∧ ∀ n, usernames acc.2 !! n = if decide (n ∈ idle) then None else usernames r !! n.
Proof.
  revert c r. induction idle as [|x idle IH]; intros c r Hok; cbn [foldl].
  - split; [done|]. split; [done|]. split; [done|]. intros n. rewrite decide_False; [done|apply not_elem_of_nil].
  - destruct (release_username_spec x r Hok) as (A1 & A2 & A3 & A4 & _). cbv zeta in *. cbn [fst snd]. destruct (release_username x r) as [c1 r1]. cbn [snd] in *.
    destruct (IH (c || c1) r1 A1) as (B1 & B2 & B3 & B4). cbv zeta in *. set (acc := foldl _ _ _) in *. clearbody acc.
    destruct A3 as (? & ? & ? & ?), B2 as (? & ? & ? & ?). split; [done|]. split; [repeat split; congruence|]. split; [by eapply same_mode_trans|].
    intros n. rewrite B4, A2. destruct (decide (n ∈ idle)) as [Hin|Hout]; [by rewrite decide_True by (by right)|]. destruct (decide (n = x)) as [->|Hne].
    + rewrite lookup_delete_eq. by rewrite decide_True by left.
    + rewrite lookup_delete_ne, decide_False by (rewrite ?elem_of_cons; naive_solver). done.
Qed.
Lemma reap_stale_spec now r :
  reg_ok r → let r' := (reap_stale now r).2 in reg_ok r' ∧ reaped now r r' ∧ reaped_users now r r' ∧ same_mode r r'.
Proof.
  intros Hok. unfold reap_stale. destruct (read_only r || closed r) eqn:Ew; cbn [snd].
  { split; [done|]. split; [apply reaped_refl|]. split; [split; [done|]; intros n pk H1 H2; congruence|done]. }
  rewrite grandfather_id by done. set (idle := (retain _ (map_iter (usernames r))).*1).
  destruct (release_fold_spec idle false r Hok) as (A1 & A2 & A3 & A4). cbv zeta in *. destruct (foldl _ (false, r) idle) as [c2 r2]. cbn [snd] in *.
  set (gone := (retain _ (map_iter (names r2))).*1). destruct (reap_names_spec gone now r2 A1) as (B1 & B2 & B3 & B4 & _). cbv zeta in *. destruct (reap_abandoned_names gone now r2) as [c3 r3]. cbn [snd] in *.
  assert (∀ b : bool, reg_ok (if b then touch r3 else r3) ∧ reaped now r (if b then touch r3 else r3) ∧ reaped_users now r (if b then touch r3 else r3) ∧ same_mode r (if b then touch r3 else r3)) as Hb; [|apply Hb].
  assert (reaped now r r3 ∧ reaped_users now r r3 ∧ same_mode r r3) as (C1 & C2 & C3).
  { destruct A2 as (N1 & N2 & N3 & N4), B3 as (U1 & U2 & U3). split; [destruct B2 as [D1 D2 D3]; split; rewrite <- ?N1, <- ?N4; done|]. split; [|by eapply same_mode_trans].
    split; intros n pk; rewrite U1, A4; case_decide as Hin; try done; [|congruence].
    intros Hn _. apply list_elem_of_fmap in Hin as ([n' pk'] & -> & [Hi Hin]%elem_of_retain). cbn in *. apply elem_of_map_iter in Hin. cbn in Hn. congruence. }
  intros []; [rewrite touch_ok|]; (split; [done|]); (split; [destruct C1; split; done|]); (split; [destruct C2; split; done|done]).
Qed.
End ops.
