(* ===== verification/RegistrySteps.v ===== *)
(** * The channel registry: what each write may do

    The writes as steps, and what becomes of a name record in one: nothing, unless it was
    abandoned, its owner asked, or it was handed over with authority. *)
From S2P Require Import Prelude NodeId Addr MapOrder RoutingQuery Registry RegistryInv.
Local Open Scope Z_scope.

Inductive reg_op :=
  | ClaimUsername (pk name : str)
  | ClaimName (channel pk name : str) (p : bool)
  | Rename (channel pk name : str) (p : bool)
  | Nominate (channel pk nominee : str) (days : Z)
  | Handover (old new new_pk signer : str)
  | DeleteChannel (channel pk : str)
  | Reap
  | Shutdown.
(** The room an operation is signed for, and the key that signs it. *)
Definition acts_for (op : reg_op) : option (str * str) :=
  match op with
  | ClaimName c pk _ _ | Rename c pk _ _ | Nominate c pk _ _ | DeleteChannel c pk => Some (c, pk)
  | _ => None
  end.
Definition owner_acts (op : reg_op) (rec : ChannelNameRecord) : Prop :=
  ∃ c pk, acts_for op = Some (c, pk) ∧ room_of rec = to_ascii_lowercase c ∧ to_ascii_lowercase (pubkey rec) = to_ascii_lowercase pk.

Section steps.
Context `{Txt : RegistryText, Ord : MapOrder, Uns : UnstableSlice}.
Definition reg_step (now : Z) (op : reg_op) (r : ChannelRegistry) : option RegistryError * ChannelRegistry :=
  match op with
  | ClaimUsername pk name => claim_username_at pk name now r
  | ClaimName c pk name p => claim_channel_name_at c pk name p now r
  | Rename c pk name p => rename_channel_name_at c pk name p now r
  | Nominate c pk n days => set_channel_nominee c pk n days r
  | Handover old new pk signer => handover_channel_name old new pk signer now r
  | DeleteChannel c pk => delete_channel c pk r
  | Reap => (None, (reap_stale now r).2)
  | Shutdown => (None, close_for_shutdown r)
  end.
(** What may become of the record of a name. *)
Inductive change (now : Z) (op : reg_op) (rec : ChannelNameRecord) : option ChannelNameRecord → Prop :=
  | change_none : change now op rec (Some rec)
  | change_abandoned res : abandoned now rec = true → change now op rec res
  | change_owner res : is_deleted_name rec = false → owner_acts op rec →
      (∀ rec', res = Some rec' → room_of rec' = room_of rec ∧ to_ascii_lowercase (pubkey rec') = to_ascii_lowercase (pubkey rec)) → change now op rec res
  | change_surplus c pk name p : op = Rename c pk name p → is_retired rec = true → room_of rec = to_ascii_lowercase c → change now op rec None
  | change_handover old new pk signer by_ : op = Handover old new pk signer → is_current rec = true → room_of rec = to_ascii_lowercase old →
      to_ascii_lowercase (pubkey rec) = to_ascii_lowercase signer ∨ nominee_may_take (to_ascii_lowercase signer) now rec = true →
      change now op rec (Some (handed_over (to_ascii_lowercase new) (to_ascii_lowercase pk) (room_of rec) by_ now rec))
  | change_retry old new pk signer : op = Handover old new pk signer → is_current rec = true → room_of rec = to_ascii_lowercase new →
      channel_id_of_key (to_ascii_lowercase signer) = Some (to_ascii_lowercase new) ∨ inheritor rec = to_ascii_lowercase signer →
      change now op rec (Some (with_refreshed now rec)).
(** A rename signed with the key of the room's current name lets go of a record of the room,
    which keeps as many retired names as it may, none of them retired earlier. *)
Definition let_go (op : reg_op) (r r' : ChannelRegistry) (rec : ChannelNameRecord) : Prop :=
  ∃ c pk name p, op = Rename c pk name p ∧ room_of rec = to_ascii_lowercase c ∧
    (∃ n0 cur, names r !! n0 = Some cur ∧ is_current cur = true ∧ room_of cur = to_ascii_lowercase c ∧ to_ascii_lowercase (pubkey cur) = to_ascii_lowercase pk) ∧
    ∃ kept, NoDup kept ∧ length kept = MAX_RETIRED_NAMES ∧ ∀ x, x ∈ kept → ∃ rx, names r' !! x = Some rx ∧ is_retired rx = true ∧ room_of rx = room_of rec ∧ retired_at rec ≤ retired_at rx.
Record good (now : Z) (op : reg_op) (r r' : ChannelRegistry) : Prop := mkGood {
  good_ok : reg_ok r';
  good_change : ∀ n rec, names r !! n = Some rec → change now op rec (names r' !! n);
  good_deleted : deleted r ⊆ deleted r';
  good_lost : ∀ n rec, names r !! n = Some rec → names r' !! n = None → abandoned now rec = true ∨ let_go op r r' rec;
}.
Lemma good_refl now op r : reg_ok r → good now op r r.
Proof. intros H. split; [done| |done|congruence]. intros n rec ->. constructor. Qed.
Lemma good_after now op r r1 r' : reaped now r r1 → good now op r1 r' → good now op r r'.
Proof.
  intros Hr [H1 H2 H3 H4]. split; [done| |by rewrite <- (rp_gone _ _ _ Hr)|]; intros n rec Hn; destruct (names r1 !! n) as [rec1|] eqn:E.
  - pose proof (rp_sub _ _ _ Hr n rec1 E) as E'. rewrite Hn in E'. injection E' as <-. by apply H2.
  - apply change_abandoned. by apply (rp_only _ _ _ Hr n).
  - pose proof (rp_sub _ _ _ Hr n rec1 E) as E'. rewrite Hn in E'. injection E' as <-. intros Hl. destruct (H4 n rec E Hl) as [?|(c & pk & name & p & A1 & A2 & (n0 & cur & A3 & A4) & A5)]; [by left|right].
    exists c, pk, name, p. split; [done|]. split; [done|]. split; [|done]. exists n0, cur. split; [by apply (rp_sub _ _ _ Hr)|done].
  - intros _. left. by apply (rp_only _ _ _ Hr n).
Qed.
Lemma good_ext now op r r' r'' : same_users r' r'' → same_names r' r'' → good now op r r' → good now op r r''.
Proof. intros Hu Hn [H1 H2 H3 H4]. split; [by eapply reg_ok_ext|..]; destruct Hn as (E1 & _ & _ & E2); [rewrite E1|rewrite E2|unfold let_go; rewrite E1]; done. Qed.
Lemma good_touch now op r r' : good now op r r' → good now op r (touch r').
Proof. apply good_ext; repeat split. Qed.
Lemma good_touch_durable now op r r' : good now op r r' → good now op r (touch_durable r').
Proof. apply good_ext; repeat split. Qed.
(** One record rewritten for its owner. *)
Lemma good_put now op name old new r :
  reg_ok r → names r !! name = Some old → room_of new = room_of old → is_deleted_name new = is_deleted_name old → (is_current new = true → is_current old = true) →
  0 ≤ retired_at new → 0 < refreshed_at new → change now op old (Some new) → good now op r (put_name r name new).
Proof.
  intros Hok Hn H1 H2 H3 H4 H5 Hc. split; [by apply (put_name_ok name old)| |done|]; intros n rec Hr; cbn [put_name on_names names]; [|by intros [Hn' _]%lookup_insert_None; congruence].
  destruct (decide (name = n)) as [<-|Hne]; [rewrite lookup_insert_eq; by assert (rec = old) as -> by congruence|rewrite lookup_insert_ne, Hr by done; constructor].
Qed.
Lemma good_insert now op name new r : reg_ok (insert_name name new r) → names r !! name = None → good now op r (insert_name name new r).
Proof.
  intros Hok Hn. split; [done| |done|]; intros n rec Hr; cbn [insert_name on_names names]; [|by intros [Hn' _]%lookup_insert_None; congruence]. rewrite lookup_insert_ne, Hr by congruence. constructor.
Qed.
Lemma reap_candidates_spec normalized id now r :
  reg_ok r → let r' := reap_candidates normalized id now r in
  reg_ok r' ∧ reaped now r r' ∧ same_users r r' ∧ same_mode r r' ∧
  (∀ name rec, (name = normalized ∨ room_of rec = id ∨ confusable_key name = confusable_key normalized) → names r' !! name = Some rec → abandoned now rec = false).
Proof.
  intros Hok. unfold reap_candidates. set (cands := normalized :: _). destruct (reap_names_spec cands now r Hok) as (A1 & A2 & A3 & A4 & A5). cbv zeta in *.
  destruct (reap_abandoned_names cands now r) as [c r1]. cbn [snd] in *.
  assert (∀ name rec, (name = normalized ∨ room_of rec = id ∨ confusable_key name = confusable_key normalized) → names r1 !! name = Some rec → abandoned now rec = false) as H5.
  { intros name rec Hwhy Hn. apply (A5 name); [|done]. pose proof (rp_sub _ _ _ A2 name rec Hn) as Hn0. unfold cands. rewrite elem_of_cons, elem_of_app.
    destruct Hok as [[_ Hc] [_ Hs] _ _]. destruct Hwhy as [->|[Hi|Hk]]; [by left|right; left; apply Hc; by exists rec|right; right; apply Hs; exists rec; by split]. }
  destruct c; [|split; [exact A1|]; split; [exact A2|]; split; [exact A3|]; split; [exact A4|exact H5]]. split; [by rewrite touch_ok|]. split; [destruct A2; by split|]. split; [done|]. split; [done|]. exact H5.
Qed.
Lemma held_other_spec normalized id r :
  reg_ok r →
  match held_other normalized id r with
  | Some n => n ≠ normalized ∧ ∃ rec, names r !! n = Some rec ∧ is_current rec = true ∧ room_of rec = id
  | None => ∀ n rec, names r !! n = Some rec → is_current rec = true → room_of rec = id → n = normalized
  end.
Proof.
  intros Hok. unfold held_other. pose proof (live_name_spec id r Hok) as Hl. destruct (live_name_of_channel id r) as [e|].
  - case_bool_decide as E; [subst e|by split]. destruct Hl as (rec0 & Hr0 & Hc0 & Hi0). intros n rec Hn Hc Hi. destruct (ok_names _ Hok) as [H1 _ _]. apply (H1 n normalized rec rec0); congruence.
  - intros n rec Hn Hc Hi. by destruct (Hl n rec Hn Hc).
Qed.

(** ** Claims *)
Lemma claim_exact_good now op normalized d id pk p r :
  0 < now → reg_ok r → id ∉ deleted r → to_ascii_lowercase id = id → (∀ rec, room_of rec = id → to_ascii_lowercase (pubkey rec) = to_ascii_lowercase pk → owner_acts op rec) →
  (∀ n rec, names r !! n = Some rec → is_current rec = true → room_of rec = id → n = normalized) →
  good now op r (claim_exact normalized d id pk p now r).2.
Proof.
  intros Hnow Hok Hid Hlow Hown Hone. unfold claim_exact. destruct (_ && existsb _ _); [by apply good_refl|]. destruct (names r !! normalized) as [rec|] eqn:E.
  - destruct (is_deleted_name rec || negb (retired_at rec =? 0) || negb (owned_by id pk rec)) eqn:Eg; cbn [snd]; [by apply good_refl|].
    apply orb_false_iff in Eg as [[Hd Hr%negb_false_iff]%orb_false_iff Ho%negb_false_iff]. apply andb_true_iff in Ho as [Hi%eq_ignore_true Hk%eq_ignore_true].
    assert (good now op r (put_name r normalized (with_shown p d now rec))) as Hg.
    { destruct (ok_names _ Hok) as [_ _ Ht]. destruct (Ht normalized rec E). apply (good_put now op normalized rec); try done. apply change_owner; [done|apply Hown; [unfold room_of; congruence|done]|]. intros rec' [= <-]. done. }
    destruct (_ || _); [by apply good_touch_durable|by apply good_touch].
  - assert (∃ r1, (if MAX_CHANNEL_NAMES <=? Z.of_nat (size (names r)) then (reap_stale now r).2 else r) = r1 ∧ reg_ok r1 ∧ reaped now r r1) as (r1 & -> & Hok1 & Hr1).
    { destruct (_ <=? _); [destruct (reap_stale_spec now r Hok) as (? & ? & _); by eexists|eexists; split; [done|]; split; [done|apply reaped_refl]]. }
    cbv zeta. destruct (_ <=? _); cbn [snd]; [apply (good_after now op r r1); [done|by apply good_refl]|]. apply good_touch_durable, (good_after now op r r1); [done|].
    assert (names r1 !! normalized = None) as E1 by (destruct (names r1 !! normalized) as [x|] eqn:Ex; [apply (rp_sub _ _ _ Hr1) in Ex; congruence|done]).
    apply good_insert; [|done]. apply insert_name_ok; try done.
    + change (room_of (new_name_record id pk p d now)) with (to_ascii_lowercase id). by rewrite (rp_gone _ _ _ Hr1), Hlow.
    + intros n rec Hn Hc Hi. apply (rp_sub _ _ _ Hr1) in Hn. apply (Hone n rec); [done|done|]. rewrite Hi. exact Hlow.
Qed.
Lemma claim_name_good now c pk name p r op :
  0 < now → reg_ok r → (∀ rec, room_of rec = to_ascii_lowercase c → to_ascii_lowercase (pubkey rec) = to_ascii_lowercase pk → owner_acts op rec) →
  good now op r (claim_channel_name_at c pk name p now r).2.
Proof.
  intros Hnow Hok Hown. unfold claim_channel_name_at. destruct (negb (writable r)); [by apply good_refl|]. destruct (normalize_channel_name name) as [normalized|]; [|by apply good_refl].
  cbv zeta. destruct (negb _); [by apply good_refl|]. case_bool_decide as Hdel; [by apply good_refl|].
  destruct (reap_candidates_spec normalized (to_ascii_lowercase c) now r Hok) as (A1 & A2 & _ & _ & _). cbv zeta in *. set (r1 := reap_candidates _ _ _ _) in *. clearbody r1.
  apply (good_after now op r r1 _ A2). pose proof (held_other_spec normalized (to_ascii_lowercase c) r1 A1) as Hh. destruct (held_other _ _ r1) as [existing|]; cbn [snd].
  - destruct Hh as (_ & rec & Hn & Hc & Hi). rewrite Hn. destruct (eq_ignore_ascii_case (pubkey rec) (to_ascii_lowercase pk)) eqn:Ek; [|by apply good_refl]. apply eq_ignore_true in Ek. rewrite lower_lower in Ek.
    destruct (ok_names _ A1) as [_ _ Ht]. destruct (Ht existing rec Hn). apply good_touch, (good_put now op existing rec); try done.
    apply change_owner; [by apply andb_true_iff in Hc as [?%negb_true_iff _]|by apply Hown|]. intros rec' [= <-]. done.
  - apply claim_exact_good; [done|done|by rewrite (rp_gone _ _ _ A2)|apply lower_lower| |done]. intros rec Hi Hk. rewrite lower_lower in Hk. by apply Hown.
Qed.

(** ** Renames *)
Lemma put_current_ok name old new r :
  reg_ok r → names r !! name = Some old → room_of new = room_of old → room_of new ∉ deleted r → is_deleted_name new = false → 0 ≤ retired_at new → 0 < refreshed_at new →
  (∀ n rec, names r !! n = Some rec → is_current rec = true → room_of rec = room_of new → n = name) → reg_ok (put_name r name new).
Proof.
  intros [H1 H2 H3 H4] E Hr Hg Hd Ht Hf Hno. split; cbn [put_name on_names by_channel by_skeleton names deleted usernames by_pubkey username_activity]; [..|done].
  - by apply (index_same _ _ _ _ old).
  - by apply (index_same _ _ _ _ old).
  - by apply names_new.
Qed.
Lemma apply_rename_spec from to d p now old r :
  0 < now → reg_ok r → from ≠ to → names r !! from = Some old → is_current old = true →
  (∀ x, names r !! to = Some x → room_of x = room_of old) →
  let r' := apply_rename from to d p now r in
  reg_ok r' ∧ deleted r' = deleted r ∧ (∀ n, n ≠ from → n ≠ to → names r' !! n = names r !! n) ∧ names r' !! from = Some (with_retired now old) ∧
  ∃ new, names r' !! to = Some new ∧ is_current new = true ∧ room_of new = room_of old ∧ pubkey new = pubkey old.
Proof.
  intros Hnow Hok Hne Hf Hc Hto. unfold apply_rename. rewrite Hf. cbv zeta. set (r1 := put_name r from (with_retired now old)). set (new := mkName _ _ _ _ _ _ _ _ _ _ _ _ _).
  pose proof Hc as [Hd%negb_true_iff Hrt%Z.eqb_eq]%andb_true_iff. destruct (ok_names _ Hok) as [O1 O2 O3]. destruct (O3 from old Hf) as [_ Href].
  assert (room_of old ∉ deleted r) as Hgone by (intros Hin; apply (O2 from old Hf) in Hin; congruence).
  assert (is_current (with_retired now old) = false) as Hnc by (unfold is_current; cbn [with_retired is_deleted_name retired_at]; rewrite (proj2 (Z.eqb_neq now 0)) by lia; apply andb_false_r).
  assert (reg_ok r1) as Hok1 by (apply (put_name_ok from old); [done|done|done|done|rewrite Hnc; done|cbn; lia|done]).
  assert (∀ n rec, names r1 !! n = Some rec → is_current rec = true → room_of rec = room_of new → n = to) as Hno.
  { intros n rec Hn Hcur Hroom. exfalso. cbn [r1 put_name on_names names] in Hn. apply lookup_insert_Some in Hn as [[<- <-]|[Hne' Hn]]; [congruence|]. apply Hne'. by apply (O1 from n old rec). }
  assert (names r1 !! to = names r !! to) as Hlk by (cbn [r1 put_name on_names names]; by rewrite lookup_insert_ne).
  destruct (names r1 !! to) as [x|] eqn:Ex.
  - assert (reg_ok (put_name r1 to new)) as Hok2. { apply (put_current_ok to x); [done|done|symmetry; apply Hto; congruence|done|done|done|done|done]. }
    split; [done|]. split; [done|]. split; [intros n H1 H2; cbn; by rewrite !lookup_insert_ne|]. split; [cbn; by rewrite lookup_insert_ne, lookup_insert_eq|]. exists new. cbn [put_name on_names names]. rewrite lookup_insert_eq. done.
  - assert (reg_ok (insert_name to new r1)) as Hok2 by (apply insert_name_ok; done).
    split; [done|]. split; [done|]. split; [intros n H1 H2; cbn; by rewrite !lookup_insert_ne|]. split; [cbn; by rewrite lookup_insert_ne, lookup_insert_eq|]. exists new. cbn [insert_name on_names names]. rewrite lookup_insert_eq. done.
Qed.
Lemma remove_fold_spec (l : list (Z * str)) r :
  reg_ok r → let r' := foldl (λ r x, remove_name x.2 r) r l in
  reg_ok r' ∧ deleted r' = deleted r ∧ ∀ n, names r' !! n = if decide (n ∈ l.*2) then None else names r !! n.
Proof.
  revert r. induction l as [|[t x] l IH]; intros r Hok; cbn [foldl]; [split; [done|]; split; [done|]; intros n; rewrite decide_False; [done|apply not_elem_of_nil]|].
  destruct (IH (remove_name x r) (remove_name_ok x r Hok)) as (A1 & A2 & A3). cbv zeta in *. cbn [snd]. split; [done|].
  assert (deleted (remove_name x r) = deleted r ∧ names (remove_name x r) = delete x (names r)) as [D1 D2].
  { unfold remove_name. destruct (names r !! x) eqn:E; [done|]. split; [done|]. by rewrite delete_id. }
  split; [congruence|]. intros n. rewrite A3, D2, fmap_cons. cbn [snd]. destruct (decide (n ∈ l.*2)) as [Hin|Hout]; [by rewrite decide_True by (by right)|]. destruct (decide (n = x)) as [->|Hne].
  - rewrite lookup_delete_eq. by rewrite decide_True by left.
  - rewrite lookup_delete_ne, decide_False by (rewrite ?elem_of_cons; naive_solver). done.
Qed.
Lemma retired_names_spec id r t n : reg_ok r → (t, n) ∈ retired_names id r ↔ ∃ rec, names r !! n = Some rec ∧ is_retired rec = true ∧ room_of rec = id ∧ retired_at rec = t.
Proof.
  intros [[_ Hc] _ _ _]. unfold retired_names, names_of_channel. rewrite list_elem_of_omap. split.
  - intros (x & Hx & Ho). apply Hc in Hx as (rec & Hr & Hk). rewrite Hr in Ho. destruct (negb (is_deleted_name rec) && (0 <? retired_at rec)) eqn:E; [|done]. injection Ho as <- <-. by exists rec.
  - intros (rec & Hr & Hret & Hroom & <-). exists n. split; [apply Hc; by exists rec|]. rewrite Hr. unfold is_retired in Hret. by rewrite Hret.
Qed.
Lemma retired_names_nodup id r : reg_ok r → NoDup (retired_names id r).*2.
Proof.
  intros [Hc _ _ _]. pose proof (index_nodup _ _ _ id Hc) as Hnd. unfold retired_names, names_of_channel. induction (default [] (by_channel r !! id)) as [|x l IH]; [constructor|]. apply NoDup_cons in Hnd as [Hx Hnd]. cbn [omap list_omap].
  assert (∀ y, y ∈ (omap (λ name, match names r !! name with Some rec => if negb (is_deleted_name rec) && (0 <? retired_at rec) then Some (retired_at rec, name) else None | None => None end) l).*2 → y ∈ l) as Hsub.
  { intros y ([t z] & -> & Hz)%list_elem_of_fmap. apply list_elem_of_omap in Hz as (w & Hw & Ho). destruct (names r !! w); [|done]. destruct (_ && _); [|done]. by injection Ho as _ <-. }
  destruct (names r !! x); [|by apply IH]. destruct (_ && _); [|by apply IH]. rewrite fmap_cons. apply NoDup_cons. split; [|by apply IH]. cbn [snd]. intros Hin. apply Hx, Hsub, Hin.
Qed.
Lemma retired_le_at a b : retired_le a b = true → a.1 ≤ b.1.
Proof. unfold retired_le, bytes_le. cbn [bytes_cmp]. destruct (Z.compare_spec a.1 b.1); [lia..|done]. Qed.
Lemma surplus_spec id r :
  reg_ok r → let r' := release_surplus_retired_names id r in
  reg_ok r' ∧ deleted r' = deleted r ∧ (∀ n, names r' !! n = names r !! n ∨ names r' !! n = None ∧ ∃ rec, names r !! n = Some rec ∧ is_retired rec = true ∧ room_of rec = id ∧
    ∃ kept, NoDup kept ∧ length kept = MAX_RETIRED_NAMES ∧ ∀ x, x ∈ kept → ∃ rx, names r' !! x = Some rx ∧ is_retired rx = true ∧ room_of rx = id ∧ retired_at rec ≤ retired_at rx).
Proof.
  intros Hok. unfold release_surplus_retired_names. cbv zeta. destruct (decide _) as [Hle|Hgt]; [split; [done|]; split; [done|]; intros k; by left|].
  set (l := retired_names id r) in *. set (cut := (length l - MAX_RETIRED_NAMES)%nat). set (srt := stable_sort retired_le l). assert (srt ≡ₚ l) as Hp by apply stable_sort_perm.
  destruct (remove_fold_spec (take cut srt) r Hok) as (A1 & A2 & A3). cbv zeta in *.
  split; [done|]. split; [done|]. intros k. rewrite A3. case_decide as Hin; [right|by left]. split; [done|].
  apply list_elem_of_fmap in Hin as ([t x] & -> & Hin). cbn [snd].
  assert ((t, x) ∈ l) as Hl by (rewrite <- Hp; eapply elem_of_sublist; [exact Hin|apply sublist_take]). apply (retired_names_spec id r t x Hok) in Hl as (rec & Hr & Hret & Hroom & Ht). exists rec. split; [done|]. split; [done|]. split; [done|].
  assert (NoDup (srt.*2)) as Hnd by (rewrite Hp; by apply retired_names_nodup). rewrite <- (take_drop cut srt), fmap_app in Hnd. apply NoDup_app in Hnd as (_ & Hdis & Hnd2).
  exists ((drop cut srt).*2). split; [done|]. split; [rewrite length_fmap, length_drop, Hp; unfold cut; lia|]. intros y ([ty z] & -> & Hy)%list_elem_of_fmap. cbn [snd].
  assert ((ty, z) ∈ l) as Hl by (rewrite <- Hp; eapply elem_of_sublist; [exact Hy|apply sublist_drop]). apply (retired_names_spec id r ty z Hok) in Hl as (rz & Hrz & Hretz & Hroomz & Htz). exists rz.
  rewrite A3, decide_False by (intros H'; apply (Hdis z H'); by apply (list_elem_of_fmap_2 snd _ (ty, z))). split; [done|]. split; [done|]. split; [done|]. rewrite Ht, Htz.
  apply (retired_le_at (t, x) (ty, z)). apply (StronglySorted_app_1_elem_of (λ a b, retired_le a b = true) (take cut srt) (drop cut srt)); [|done..]. rewrite take_drop.
  apply stable_sort_sorted; unfold retired_le; [intros a b; apply bytes_le_total|intros a b c; apply bytes_le_trans].
Qed.
Lemma rename_go_good now c pk name p from normalized old r :
  let op := Rename c pk name p in let id := to_ascii_lowercase c in
  0 < now → reg_ok r → from ≠ normalized → names r !! from = Some old → is_current old = true → room_of old = id → to_ascii_lowercase (pubkey old) = to_ascii_lowercase pk →
  (∀ x, names r !! normalized = Some x → is_deleted_name x = false ∧ room_of x = id ∧ to_ascii_lowercase (pubkey x) = to_ascii_lowercase pk) →
  good now op r (touch_durable (release_surplus_retired_names id (apply_rename from normalized (strip_invisible name) p now r))).
Proof.
  intros op id Hnow Hok Hne Hf Hc Hroom Hkey Hto. destruct (apply_rename_spec from normalized (strip_invisible name) p now old r Hnow Hok Hne Hf Hc) as (A1 & A2 & A3 & A4 & (new & A5 & A6 & A7 & A8)).
  { intros x Hx. destruct (Hto x Hx) as (_ & -> & _). done. }
  cbv zeta in *. set (r1 := apply_rename _ _ _ _ _ _) in *. clearbody r1. destruct (surplus_spec id r1 A1) as (B1 & B2 & B3). cbv zeta in *. set (r2 := release_surplus_retired_names _ _) in *. clearbody r2.
  assert (∀ rec, room_of rec = id → to_ascii_lowercase (pubkey rec) = to_ascii_lowercase pk → owner_acts op rec) as Hown by (intros rec ? ?; by exists c, pk).
  apply good_touch_durable. split; [done| |by rewrite B2, A2|].
  2: { intros n rec Hn Hlost. right. destruct (B3 n) as [E|[_ (x & Hx & Hret & Hrm & Hkept)]].
    - exfalso. rewrite E in Hlost. destruct (decide (n = from)) as [->|Hnf]; [congruence|]. destruct (decide (n = normalized)) as [->|Hnn]; [congruence|]. rewrite (A3 n Hnf Hnn) in Hlost. congruence.
    - assert (room_of rec = id ∧ retired_at rec ≤ retired_at x) as [Hrr Hle].
      { destruct (decide (n = from)) as [->|Hnf]; [assert (rec = old) as -> by congruence; split; [done|]; rewrite A4 in Hx; injection Hx as <-; cbn; apply andb_true_iff in Hc as [_ Hz%Z.eqb_eq]; lia|].
        destruct (decide (n = normalized)) as [->|Hnn]; [exfalso; rewrite A5 in Hx; injection Hx as <-; unfold is_current in A6; unfold is_retired in Hret; apply andb_true_iff in A6 as [_ Hz%Z.eqb_eq], Hret as [_ Hz'%Z.ltb_lt]; lia|].
        rewrite (A3 n Hnf Hnn), Hn in Hx. injection Hx as <-. by split. }
      exists c, pk, name, p. split; [done|]. split; [done|]. split; [exists from, old; done|]. destruct Hkept as (kept & K1 & K2 & K3). exists kept. split; [done|]. split; [done|]. intros y Hy.
      destruct (K3 y Hy) as (rx & R1 & R2 & R3 & R4). exists rx. split; [done|]. split; [done|]. split; [congruence|lia]. }
  intros n rec Hn. destruct (decide (n = from)) as [->|Hnf]; [|destruct (decide (n = normalized)) as [->|Hnn]].
  - assert (rec = old) as -> by congruence. apply change_owner; [by apply andb_true_iff in Hc as [?%negb_true_iff _]|by apply Hown|].
    intros rec' Hr'. destruct (B3 from) as [E|[E _]]; rewrite E in Hr'; [|done]. rewrite A4 in Hr'. injection Hr' as <-. done.
  - destruct (Hto rec Hn) as (Hd & Hr & Hk). apply change_owner; [done|by apply Hown|]. intros rec' Hr'. destruct (B3 normalized) as [E|[E _]]; rewrite E in Hr'; [|done]. rewrite A5 in Hr'. injection Hr' as <-.
    split; [congruence|]. rewrite A8. congruence.
  - destruct (B3 n) as [E|[E (x & Hx & Hret & Hrm & _)]].
    + rewrite E, (A3 n Hnf Hnn), Hn. constructor.
    + rewrite E. rewrite (A3 n Hnf Hnn), Hn in Hx. injection Hx as <-. by eapply change_surplus.
Qed.
Lemma rename_good now c pk name p r : 0 < now → reg_ok r → good now (Rename c pk name p) r (rename_channel_name_at c pk name p now r).2.
Proof.
  intros Hnow Hok. set (op := Rename c pk name p). unfold rename_channel_name_at. destruct (negb (writable r)); [by apply good_refl|]. destruct (normalize_channel_name name) as [normalized|]; [|by apply good_refl].
  cbv zeta. destruct (negb _); [by apply good_refl|]. case_bool_decide as Hdel; [by apply good_refl|].
  destruct (reap_candidates_spec normalized (to_ascii_lowercase c) now r Hok) as (A1 & A2 & _ & _ & A5). cbv zeta in *. set (r1 := reap_candidates _ _ _ _) in *. clearbody r1.
  apply (good_after now op r r1 _ A2). pose proof (held_other_spec normalized (to_ascii_lowercase c) r1 A1) as Hh. destruct (held_other _ _ r1) as [from|].
  2: { apply claim_name_good; [done|done|]. intros rec ? ?. by exists c, pk. }
  destruct Hh as (Hne & old & Hf & Hc & Hi). rewrite Hf. destruct (negb (eq_ignore_ascii_case (pubkey old) (to_ascii_lowercase pk))) eqn:Ek; [by apply good_refl|].
  apply negb_false_iff, eq_ignore_true in Ek. rewrite lower_lower in Ek. destruct (_ && _); [by apply good_refl|]. destruct (_ && _); [by apply good_refl|].
  destruct (names r1 !! normalized) as [x|] eqn:Ex.
  - destruct (is_deleted_name x || (retired_at x =? 0) || negb (owned_by (to_ascii_lowercase c) (to_ascii_lowercase pk) x)) eqn:Eg; [by apply good_refl|].
    apply orb_false_iff in Eg as [[Hd _]%orb_false_iff Ho%negb_false_iff]. apply andb_true_iff in Ho as [Hi'%eq_ignore_true Hk'%eq_ignore_true]. rewrite lower_lower in Hi', Hk'.
    apply (rename_go_good now c pk name p from normalized old); try done. intros y Hy. assert (y = x) as -> by congruence. done.
  - destruct (_ <=? _).
    + destruct (reap_stale_spec now r1 A1) as (B1 & B2 & _). cbv zeta in *. set (r2 := (reap_stale now r1).2) in *. clearbody r2. apply (good_after now op r1 r2 _ B2). destruct (_ <=? _); [by apply good_refl|].
      assert (abandoned now old = false → names r2 !! from = Some old) as Hkeep by (intros Ha; by eapply reaped_kept). destruct (names r2 !! from) as [y|] eqn:Ey.
      * assert (y = old) as -> by (apply (rp_sub _ _ _ B2) in Ey; congruence). apply (rename_go_good now c pk name p from normalized old); try done.
        intros y Hy. apply (rp_sub _ _ _ B2) in Hy. congruence.
      * exfalso. discriminate Hkeep. by apply (A5 from); [right; left|].
    + apply (rename_go_good now c pk name p from normalized old); try done. congruence.
Qed.
End steps.

(** * Nominations, handovers and deletions *)
Section moves.
Context `{Txt : RegistryText, Ord : MapOrder, Uns : UnstableSlice}.
Lemma current_parts rec : is_current rec = true → is_deleted_name rec = false ∧ retired_at rec = 0.
Proof. unfold is_current. intros [?%negb_true_iff ?%Z.eqb_eq]%andb_true_iff. done. Qed.

(** ** Nomination *)
Lemma nominate_good now c pk n days r : reg_ok r → good now (Nominate c pk n days) r (set_channel_nominee c pk n days r).2.
Proof.
  intros Hok. unfold set_channel_nominee. destruct (negb (writable r)); [by apply good_refl|]. cbv zeta. destruct (negb _ && _); [by apply good_refl|].
  pose proof (live_name_spec (to_ascii_lowercase c) r Hok) as Hl. destruct (live_name_of_channel _ r) as [name|]; [|by apply good_refl].
  destruct Hl as (rec & Hn & Hc & Hi). rewrite Hn. destruct (negb _) eqn:Ek; [by apply good_refl|]. apply negb_false_iff, eq_ignore_true in Ek. rewrite lower_lower in Ek.
  set (choice := if bool_decide (to_ascii_lowercase n = []) || (days =? 0) then ([], 0) else (to_ascii_lowercase n, days)). destruct choice as [nom d]. destruct (_ && _); [by apply good_refl|]. cbn [snd].
  destruct (ok_names _ Hok) as [_ _ Ht]. destruct (Ht name rec Hn). apply good_touch_durable, (good_put now _ name rec); try done.
  apply change_owner; [by apply current_parts|by exists c, pk|]. intros rec' [= <-]. done.
Qed.

(** ** Handover *)
Lemma move_name_ok name old new r :
  reg_ok r → names r !! name = Some old → room_of new ∉ deleted r → is_deleted_name new = false → 0 ≤ retired_at new → 0 < refreshed_at new →
  (∀ n rec, names r !! n = Some rec → is_current rec = true → room_of rec = room_of new → n = name) →
  reg_ok (on_names r (<[name := new]> (names r)) (push_name (room_of new) name (detach_name (room_of old) name (by_channel r))) (by_skeleton r)).
Proof.
  intros [H1 H2 H3 H4] E Hg Hd Ht Hf Hno. split; cbn [on_names by_channel by_skeleton names deleted usernames by_pubkey username_activity]; [..|done].
  - by apply (index_move _ channel_key _ _ old).
  - by apply (index_same _ _ _ _ old).
  - by apply names_new.
Qed.
Lemma handover_good now old new pk signer r : 0 < now → reg_ok r → good now (Handover old new pk signer) r (handover_channel_name old new pk signer now r).2.
Proof.
  intros Hnow Hok. unfold handover_channel_name. destruct (negb (writable r)); [by apply good_refl|]. cbv zeta. destruct (negb (valid_channel _ _)); [by apply good_refl|].
  destruct (bool_decide (_ = _)); [by apply good_refl|]. destruct (bool_decide _ || _) eqn:Eg; [by apply good_refl|]. apply orb_false_iff in Eg as [_ Eg%bool_decide_eq_false].
  pose proof (live_name_spec (to_ascii_lowercase new) r Hok) as Hl. destruct (live_name_of_channel (to_ascii_lowercase new) r) as [held|].
  - destruct Hl as (rec & Hn & Hc & Hi). rewrite Hn. destruct (negb _); [by apply good_refl|]. destruct (_ || _) eqn:Ew; [|by apply good_refl].
    destruct (ok_names _ Hok) as [_ _ Ht]. destruct (Ht held rec Hn). apply good_touch, (good_put now _ held rec); try done. eapply change_retry; [done..|].
    apply orb_true_iff in Ew as [?%bool_decide_eq_true|[_ ?%bool_decide_eq_true]%andb_true_iff]; [by left|by right].
  - pose proof (live_name_spec (to_ascii_lowercase old) r Hok) as Ho. destruct (live_name_of_channel (to_ascii_lowercase old) r) as [name|]; [|by apply good_refl].
    destruct Ho as (rec & Hn & Hc & Hi). rewrite Hn. destruct (_ && _) eqn:Ea; [by apply good_refl|]. cbn [snd]. destruct (current_parts rec Hc) as [Hd Hr].
    set (by_ := if nominee_may_take _ _ _ then _ else _). set (rec' := handed_over _ _ _ _ _ _). apply good_touch_durable.
    assert (room_of rec' = to_ascii_lowercase new) as Hroom by apply lower_lower. split; [|intros n x Hx|done|intros n x Hx; cbn [on_names names]; intros [Hlost _]%lookup_insert_None; congruence].
    + rewrite <- Hroom. apply (move_name_ok name rec rec'); [done|done|by rewrite Hroom|done|cbn; lia|done|]. intros n x Hx Hcx Hix. rewrite Hroom in Hix. by destruct (Hl n x Hx Hcx).
    + cbn [touch_durable touch on_names names]. destruct (decide (name = n)) as [<-|Hne]; [|rewrite lookup_insert_ne, Hx by done; constructor].
      rewrite lookup_insert_eq. assert (x = rec) as -> by congruence. eapply change_handover; [done..|]. apply andb_false_iff in Ea as [Ea%negb_false_iff|Ea%negb_false_iff]; [left|by right].
      apply eq_ignore_true in Ea. by rewrite lower_lower in Ea.
Qed.

(** ** Deletion *)
Definition mark_one (acc : bool * ChannelRegistry) (name : str) : bool * ChannelRegistry :=
  match names acc.2 !! name with Some rec => (true, put_name acc.2 name (with_deleted rec)) | None => acc end.
Lemma mark_spec l b r :
  let acc := foldl mark_one (b, r) l in
  (∀ n, names acc.2 !! n = if decide (n ∈ l) then with_deleted <$> (names r !! n) else names r !! n) ∧
  by_channel acc.2 = by_channel r ∧ by_skeleton acc.2 = by_skeleton r ∧ deleted acc.2 = deleted r ∧ same_users r acc.2 ∧ (acc.1 = false → ∀ n, n ∈ l → names r !! n = None).
Proof.
  revert b r. induction l as [|x l IH]; intros b r; cbn [foldl].
  - split; [intros n; rewrite decide_False; [done|apply not_elem_of_nil]|]. do 4 (split; [done|]). intros _ n Hn. by apply elem_of_nil in Hn.
  - destruct (names r !! x) as [rec|] eqn:E.
    + assert (mark_one (b, r) x = (true, put_name r x (with_deleted rec))) as -> by (unfold mark_one; cbn [snd]; by rewrite E). destruct (IH true (put_name r x (with_deleted rec))) as (A1 & A2 & A3 & A4 & A5 & A6). cbv zeta in *.
      assert (∀ k b', (foldl mark_one (true, b') k).1 = true) as Ht by (induction k as [|y k IHk]; intros b'; [done|]; cbn [foldl]; assert (∃ b2, mark_one (true, b') y = (true, b2)) as [b2 ->] by (unfold mark_one; cbn [snd]; destruct (names b' !! y); by eexists); apply IHk).
      split; [|do 4 (split; [done|]); by rewrite Ht]. intros n. rewrite A1. cbn [put_name on_names names]. destruct (decide (x = n)) as [<-|Hne].
      * rewrite lookup_insert_eq, E, (decide_True (P := x ∈ x :: l)) by left. by destruct (decide (x ∈ l)).
      * rewrite lookup_insert_ne by done. destruct (decide (n ∈ l)); [by rewrite decide_True by (by right)|]. rewrite decide_False; [done|]. rewrite elem_of_cons. naive_solver.
    + assert (mark_one (b, r) x = (b, r)) as -> by (unfold mark_one; cbn [snd]; by rewrite E). destruct (IH b r) as (A1 & A2 & A3 & A4 & A5 & A6). cbv zeta in *. split; [|do 4 (split; [done|]); intros Hb n [->|Hn]%elem_of_cons; [done|by apply A6]].
      intros n. rewrite A1. destruct (decide (n ∈ l)); [by rewrite decide_True by (by right)|]. destruct (decide (n = x)) as [->|Hne]; [rewrite E; by destruct (decide _)|].
      rewrite decide_False; [done|]. rewrite elem_of_cons. naive_solver.
Qed.
Lemma index_pointwise m key ns ns' : (∀ n k, (∃ rec, ns' !! n = Some rec ∧ key n rec = k) ↔ ∃ rec, ns !! n = Some rec ∧ key n rec = k) → index_ok m key ns → index_ok m key ns'.
Proof. intros H [H1 H2]. split; [done|]. intros k n. by rewrite H2, H. Qed.
Lemma deleted_ok id (l : list str) r r' :
  reg_ok r → (∀ n, n ∈ l ↔ ∃ rec, names r !! n = Some rec ∧ room_of rec = id) →
  (∀ n, names r' !! n = if decide (n ∈ l) then with_deleted <$> (names r !! n) else names r !! n) →
  by_channel r' = by_channel r → by_skeleton r' = by_skeleton r → same_users r r' → deleted r' = {[id]} ∪ deleted r → reg_ok r'.
Proof.
  intros [H1 H2 [O1 O2 O3] H4] Hl Hn Hc Hs (U1 & U2 & U3) Hd.
  assert (∀ n rec', names r' !! n = Some rec' → ∃ rec, names r !! n = Some rec ∧ room_of rec' = room_of rec ∧ retired_at rec' = retired_at rec ∧ refreshed_at rec' = refreshed_at rec ∧
    is_deleted_name rec' = bool_decide (room_of rec = id) || is_deleted_name rec) as Hback.
  { intros n rec'. rewrite Hn. case_decide as Hin.
    - apply Hl in Hin as (rec & Hr & Hi). rewrite Hr. intros [= <-]. exists rec. by rewrite bool_decide_eq_true_2.
    - intros Hr. exists rec'. repeat split; [done|]. rewrite bool_decide_eq_false_2; [done|]. intros Hi. apply Hin, Hl. by exists rec'. }
  assert (∀ key : str → ChannelNameRecord → str, (∀ n rec, key n (with_deleted rec) = key n rec) →
    ∀ n k, (∃ rec, names r' !! n = Some rec ∧ key n rec = k) ↔ ∃ rec, names r !! n = Some rec ∧ key n rec = k) as Hkey.
  { intros key Hk n k. rewrite Hn. case_decide; [|done]. destruct (names r !! n) as [rec|]; cbn; [|by split; intros (? & ? & _)].
    split; intros (x & [= <-] & <-); eexists; (split; [done|]); by rewrite Hk. }
  split; [rewrite Hc|rewrite Hs| |by rewrite U1, U2, U3].
  - by apply (index_pointwise _ _ (names r)); [apply Hkey|].
  - by apply (index_pointwise _ _ (names r)); [apply Hkey|].
  - split; rewrite ?Hd.
    + intros n1 n2 r1 r2 E1 E2 [C1 C1']%current_parts [C2 C2']%current_parts Er. destruct (Hback _ _ E1) as (x1 & F1 & G1 & I1 & _ & J1), (Hback _ _ E2) as (x2 & F2 & G2 & I2 & _ & J2).
      rewrite J1 in C1. rewrite J2 in C2. apply orb_false_iff in C1 as [_ C1], C2 as [_ C2].
      apply (O1 n1 n2 x1 x2); [done|done|..]; [unfold is_current; rewrite C1, <- I1, C1'; done|unfold is_current; rewrite C2, <- I2, C2'; done|congruence].
    + intros n rec' E. destruct (Hback _ _ E) as (x & F & G & _ & _ & J). rewrite J, G, orb_true_iff, bool_decide_eq_true, (O2 n x F). set_solver.
    + intros n rec' E. destruct (Hback _ _ E) as (x & F & _ & I1 & I2 & _). rewrite I1, I2. by apply (O3 n).
Qed.
Lemma delete_good now c pk r : reg_ok r → good now (DeleteChannel c pk) r (delete_channel c pk r).2.
Proof.
  intros Hok. unfold delete_channel. destruct (negb (writable r)); [by apply good_refl|]. cbv zeta. set (id := to_ascii_lowercase c). set (held := names_of_channel id r).
  destruct (existsb _ held) eqn:Ex; [by apply good_refl|]. fold mark_one.
  assert (∀ n, n ∈ held ↔ ∃ rec, names r !! n = Some rec ∧ room_of rec = id) as Hl by (intros n; apply Hok).
  destruct (mark_spec held false r) as (A1 & A2 & A3 & A4 & A5 & A6). cbv zeta in *. change (λ acc name, _) with mark_one. destruct (foldl mark_one (false, r) held) as [found r'] eqn:Ef. cbn [fst snd] in *.
  assert (found = false → r' = r) as Hsame.
  { intros ->. destruct held as [|n held']; [by injection Ef|]. destruct (proj1 (Hl n)) as (rec & Hr & _); [left|]. rewrite (A6 eq_refl n) in Hr by left. done. }
  assert (good now (DeleteChannel c pk) r (touch_durable (on_deleted r' ({[id]} ∪ deleted r')))) as Hgo.
  2: { destruct found; [exact Hgo|]. rewrite (Hsame eq_refl) in *. cbn [negb andb]. destruct (bool_decide _); [by apply good_refl|]. destruct (_ <=? _); [by apply good_refl|exact Hgo]. }
  apply good_touch_durable. split.
  - by apply (deleted_ok id held r); [| | |..]; cbn; rewrite ?A4.
  - intros n rec Hn. cbn [on_deleted names]. rewrite A1, Hn. case_decide as Hin; [|constructor]. cbn. destruct (is_deleted_name rec) eqn:Ed.
    { assert (with_deleted rec = rec) as -> by (destruct rec; cbn in *; by subst). constructor. }
    apply change_owner; [done| |by intros rec' [= <-]]. exists c, pk. split; [done|]. pose proof (proj1 (Hl n) Hin) as (x & Hx & Hi). assert (x = rec) as -> by congruence. split; [done|].
    apply not_true_iff_false in Ex. destruct (eq_ignore_ascii_case (pubkey rec) (to_ascii_lowercase pk)) eqn:Ek; [apply eq_ignore_true in Ek; by rewrite lower_lower in Ek|].
    destruct Ex. apply existsb_exists. exists n. split; [by apply list_elem_of_In|]. by rewrite Hn, Ek.
  - cbn [on_deleted deleted]. rewrite A4. set_solver.
  - intros n rec Hn. cbn [on_deleted names]. rewrite A1, Hn. by case_decide.
Qed.
End moves.

(** * Usernames *)
Section users.
Context `{Txt : RegistryText, Ord : MapOrder, Uns : UnstableSlice}.
(** Everyone else's username survives, with its date, unless it was idle. *)
Definition others_kept (now : Z) (pk : str) (r r' : ChannelRegistry) : Prop :=
  ∀ n pk', usernames r !! n = Some pk' → pk' ≠ pk → username_idle pk' now r = true ∨ usernames r' !! n = Some pk' ∧ username_activity r' !! pk' = username_activity r !! pk'.
Lemma others_refl now pk r : others_kept now pk r r.
Proof. intros n pk' H _. by right. Qed.
Lemma others_trans now pk r1 r2 r3 : others_kept now pk r1 r2 → others_kept now pk r2 r3 → others_kept now pk r1 r3.
Proof.
  intros A B n pk' H Hne. destruct (A n pk' H Hne) as [?|[H2 Ha]]; [by left|]. destruct (B n pk' H2 Hne) as [Hi|[H3 Hb]]; [left|right; split; [done|congruence]].
  unfold username_idle in *. by rewrite Ha in Hi.
Qed.
Lemma same_names_reaped now r r' : same_names r r' → reaped now r r'.
Proof. intros (E1 & _ & _ & E2). split; rewrite ?E1; [done|done|]. intros n rec ? ?. congruence. Qed.
(** What a claim does first: the name is freed if its holder went idle. *)
Definition free_idle (normalized : str) (now : Z) (r : ChannelRegistry) : ChannelRegistry :=
  match usernames r !! normalized with
  | Some owner => if username_idle owner now r then (let '(c, r) := release_username normalized r in if c then touch r else r) else r
  | None => r
  end.
Lemma free_idle_spec normalized now pk r :
  reg_ok r → let r1 := free_idle normalized now r in
  reg_ok r1 ∧ same_names r r1 ∧ others_kept now pk r r1 ∧ (∀ owner, usernames r1 !! normalized = Some owner → usernames r !! normalized = Some owner ∧ username_idle owner now r = false).
Proof.
  intros Hok. unfold free_idle. destruct (usernames r !! normalized) as [owner|] eqn:E; [destruct (username_idle owner now r) eqn:Ei|].
  2,3: cbv zeta; (split; [done|]); (split; [done|]); (split; [apply others_refl|]); intros o Ho; naive_solver.
  destruct (release_username_spec normalized r Hok) as (A1 & A2 & A3 & A4 & A5). cbv zeta in *. destruct (release_username normalized r) as [c r1]. cbn [snd] in *.
  assert (∀ b : bool, usernames (if b then touch r1 else r1) = usernames r1 ∧ username_activity (if b then touch r1 else r1) = username_activity r1 ∧
    same_names r (if b then touch r1 else r1) ∧ reg_ok (if b then touch r1 else r1)) as Hb by (intros []; [rewrite touch_ok|]; done).
  destruct (Hb c) as (B1 & B2 & B3 & B4). split; [done|]. split; [done|]. rewrite B1, A2. split; [|intros o; by rewrite lookup_delete_eq].
  intros n pk' Hn Hne. destruct (decide (n = normalized)) as [->|Hn']; [left; congruence|]. right. rewrite B1, B2, A2, lookup_delete_ne by done. split; [done|]. apply A5. intros E'.
  destruct (ok_users _ Hok) as [Hbij _]. apply Hbij in Hn, E'. congruence.
Qed.
(** A key with a username gives it up for the new one. *)
Definition leave_old_name (pk : str) (r : ChannelRegistry) : ChannelRegistry :=
  match by_pubkey r !! pk with
  | Some old => touch (on_users r (delete old (usernames r)) (delete pk (by_pubkey r)) (username_activity r))
  | None => r
  end.
Lemma leave_old_name_spec pk now r :
  reg_ok r → let r2 := leave_old_name pk r in reg_ok r2 ∧ same_names r r2 ∧ others_kept now pk r r2 ∧ (∀ n, usernames r2 !! n ≠ Some pk) ∧ (∀ n, usernames r !! n = None → usernames r2 !! n = None).
Proof.
  intros Hok. pose proof Hok as [H1 H2 H3 [Hb Hu]]. unfold leave_old_name. destruct (by_pubkey r !! pk) as [old|] eqn:E; cbv zeta.
  2: { split; [done|]. split; [done|]. split; [apply others_refl|]. split; [intros n Hn; apply Hb in Hn; congruence|done]. }
  assert (users_ok (delete old (usernames r)) (delete pk (by_pubkey r)) (username_activity r)) as Hus.
  { split; [|intros n pk' [_ Hn]%lookup_delete_Some; by apply (Hu n)]. intros n pk'. rewrite !lookup_delete_Some, Hb. pose proof (proj2 (Hb _ _) E) as E'. split; intros [Hne Hn]; (split; [|done]); intros <-; [congruence|]. apply Hb in Hn. congruence. }
  split; [rewrite touch_ok; by split|]. split; [done|]. cbn [touch on_users usernames]. split; [|split].
  - intros n pk' Hn Hne. right. cbn [touch on_users usernames username_activity]. rewrite lookup_delete_ne; [done|]. intros <-. apply Hb in E. congruence.
  - intros n [Hne Hn]%lookup_delete_Some. apply Hb in Hn. congruence.
  - intros n Hn. rewrite lookup_delete_None. by right.
Qed.
Definition granted (normalized pk : str) (now : Z) (r : ChannelRegistry) : ChannelRegistry :=
  on_users r (<[normalized := pk]> (usernames r)) (<[pk := normalized]> (by_pubkey r)) (<[pk := now]> (username_activity r)).
Lemma granted_ok normalized pk now r :
  reg_ok r → to_ascii_lowercase pk = pk → usernames r !! normalized = None → (∀ n, usernames r !! n ≠ Some pk) → reg_ok (granted normalized pk now r).
Proof.
  intros [H1 H2 H3 [Hb Hu]] Hl Hn Hp. split; cbn [granted on_users by_channel by_skeleton names deleted usernames by_pubkey username_activity]; [done..|]. split.
  - intros n pk'. rewrite !lookup_insert_Some, Hb. split; intros [[<- <-]|[Hne E]]; [by left| |by left|]; right; (split; [|done]).
    + intros <-. apply Hb in E. by destruct (Hp n).
    + intros <-. apply Hb in E. congruence.
  - intros n pk' [[<- <-]|[Hne E]]%lookup_insert_Some; [split; [done|]; rewrite lookup_insert_eq; by eexists|]. destruct (Hu n pk' E) as [? ?]. split; [done|].
    destruct (decide (pk = pk')) as [<-|]; [by destruct (Hp n)|by rewrite lookup_insert_ne].
Qed.
(** A claim is answered by the state it finds, and costs nobody else a username that is
    still in use. *)
Record username_claimed (pk name : str) (now : Z) (r : ChannelRegistry) (e : option RegistryError) (r' : ChannelRegistry) : Prop := mkClaimed {
  uc_ok : reg_ok r';
  uc_names : reaped now r r';
  uc_others : ∀ n pk', usernames r !! n = Some pk' → pk' ≠ pk → username_idle pk' now r = true ∨ usernames r' !! n = Some pk';
  uc_granted : e = None → ∃ normalized, normalize_username name = Some normalized ∧ usernames r' !! normalized = Some pk ∧ by_pubkey r' !! pk = Some normalized;
  uc_taken : e = Some Taken → ∃ normalized owner, normalize_username name = Some normalized ∧ usernames r !! normalized = Some owner ∧ owner ≠ pk ∧ username_idle owner now r = false;
}.
Lemma others_weak now pk r r' n pk' : others_kept now pk r r' → usernames r !! n = Some pk' → pk' ≠ pk → username_idle pk' now r = true ∨ usernames r' !! n = Some pk'.
Proof. intros H Hn Hne. destruct (H n pk' Hn Hne) as [?|[? _]]; [by left|by right]. Qed.
Lemma claimed_refused pk name now r e r' : e ≠ None → e ≠ Some Taken → reg_ok r' → reaped now r r' → others_kept now pk r r' → username_claimed pk name now r e r'.
Proof. intros H1 H2 H3 H4 H5. split; [done|done|intros n pk' ? ?; by apply (others_weak now pk r)|done|done]. Qed.
Lemma grant_spec normalized pk name now r r2 :
  reg_ok r → reg_ok r2 → same_names r r2 → others_kept now pk r r2 → to_ascii_lowercase pk = pk → normalize_username name = Some normalized → usernames r2 !! normalized = None → (∀ n, usernames r2 !! n ≠ Some pk) →
  let r3 := if MAX_USERNAMES <=? Z.of_nat (size (usernames r2)) then (reap_stale now r2).2 else r2 in
  username_claimed pk name now r (if MAX_USERNAMES <=? Z.of_nat (size (usernames r3)) then Some Full else None)
    (if MAX_USERNAMES <=? Z.of_nat (size (usernames r3)) then r3 else touch_durable (granted normalized pk now r3)).
Proof.
  intros Hok Hok2 Hn Ho Hl Hz H1 H2. cbv zeta. set (r3 := if _ <=? _ then _ else r2).
  assert (reg_ok r3 ∧ reaped now r2 r3 ∧ reaped_users now r2 r3) as (A1 & A2 & [A3 A4]).
  { unfold r3. destruct (_ <=? _); [destruct (reap_stale_spec now r2 Hok2) as (? & ? & ? & _); done|]. split; [done|]. split; [apply reaped_refl|]. split; [done|]. intros n pk' ? ?. congruence. }
  assert (reaped now r r3) as A5 by (eapply reaped_trans; [by apply same_names_reaped|done]). clearbody r3.
  assert (∀ n pk', usernames r !! n = Some pk' → pk' ≠ pk → username_idle pk' now r = true ∨ usernames r3 !! n = Some pk') as A6.
  { intros n pk' E Hne. destruct (Ho n pk' E Hne) as [?|[E2 Ha]]; [by left|]. destruct (usernames r3 !! n) as [x|] eqn:Ex; [right; apply A3 in Ex; congruence|left].
    apply A4 in E2; [|done]. unfold username_idle in *. by rewrite Ha in E2. }
  destruct (_ <=? _); [by split|]. assert (usernames r3 !! normalized = None) as A7 by (destruct (usernames r3 !! normalized) eqn:Ex; [apply A3 in Ex; congruence|done]).
  split; [|destruct A5; by split| |intros _|done].
  - rewrite touch_durable_ok. apply granted_ok; [done|done|done|]. intros n Hc. by apply A3, H2 in Hc.
  - intros n pk' E Hne. destruct (A6 n pk' E Hne) as [?|E3]; [by left|right]. cbn. rewrite lookup_insert_ne; [done|]. intros <-. congruence.
  - exists normalized. cbn. by rewrite !lookup_insert_eq.
Qed.
Lemma claim_username_spec pubkey_hex name now r :
  reg_ok r → let pk := to_ascii_lowercase pubkey_hex in let res := claim_username_at pubkey_hex name now r in username_claimed pk name now r res.1 res.2.
Proof.
  intros Hok. cbv zeta. set (pk := to_ascii_lowercase pubkey_hex). assert (to_ascii_lowercase pk = pk) as Hl by apply lower_lower.
  assert (∀ e, e ≠ None → e ≠ Some Taken → username_claimed pk name now r e r) as Hno by (intros e ? ?; apply claimed_refused; [done|done|done|apply reaped_refl|apply others_refl]).
  unfold claim_username_at. fold pk. destruct (negb (writable r)); [by apply Hno|]. destruct (normalize_username name) as [normalized|] eqn:Ez; [|by apply Hno]. destruct (negb (valid_user_key pk)); [by apply Hno|].
  cbv zeta. fold (free_idle normalized now r). destruct (free_idle_spec normalized now pk r Hok) as (A1 & A2 & A3 & A4). cbv zeta in *. set (r1 := free_idle _ _ _) in *. clearbody r1.
  destruct (usernames r1 !! normalized) as [owner|] eqn:E1.
  - destruct (A4 owner eq_refl) as [E0 Hidle]. destruct (proj2 (ok_users _ A1) normalized owner E1) as [Hlo _]. destruct (eq_ignore_ascii_case owner pk) eqn:Eo; cbn [fst snd].
    + apply eq_ignore_true in Eo. rewrite Hlo, Hl in Eo. subst owner. split; [|destruct (same_names_reaped now r r1 A2); by split|intros n pk' E Hne; exact (others_weak now pk r r1 n pk' A3 E Hne)| |done].
      * rewrite touch_ok. destruct A1 as [B1 B2 B3 [Hb Hu]]. split; cbn [on_users by_channel by_skeleton names deleted usernames by_pubkey username_activity]; [done..|]. split; [done|].
        intros n pk' E. destruct (Hu n pk' E). split; [done|]. destruct (decide (pk = pk')) as [<-|]; [rewrite lookup_insert_eq; by eexists|by rewrite lookup_insert_ne].
      * intros _. exists normalized. cbn. split; [done|]. split; [done|]. by apply (proj1 (ok_users _ A1)).
    + split; [done|by apply same_names_reaped|intros n pk' ? ?; by apply (others_weak now pk r)|done|]. intros _. exists normalized, owner. split; [done|]. split; [done|]. split; [|done].
      intros ->. apply not_true_iff_false in Eo. by apply Eo, eq_ignore_true.
  - fold (leave_old_name pk r1). destruct (leave_old_name_spec pk now r1 A1) as (B1 & B2 & B3 & B4 & B5). cbv zeta in *. set (r2 := leave_old_name pk r1) in *. clearbody r2.
    assert (same_names r r2) as C1. { destruct A2 as (? & ? & ? & ?), B2 as (? & ? & ? & ?). repeat split; congruence. }
    pose proof (grant_spec normalized pk name now r r2 Hok B1 C1 (others_trans _ _ _ _ _ A3 B3) Hl Ez (B5 _ E1) B4) as Hg. cbv zeta in Hg.
    set (r3 := if MAX_USERNAMES <=? Z.of_nat (size (usernames r2)) then (reap_stale now r2).2 else r2) in *. by destruct (MAX_USERNAMES <=? Z.of_nat (size (usernames r3))).
Qed.
End users.
