(* ===== verification/RegistrySafety.v ===== *)
(** * The channel registry: what holds of every reachable registry *)
From S2P Require Import Prelude NodeId Addr MapOrder RoutingQuery Registry RegistryInv RegistrySteps.
Local Open Scope Z_scope.

Section safety.
Context `{Txt : RegistryText, Ord : MapOrder, Uns : UnstableSlice}.
(** What a snapshot writes, and what a start makes of it. *)
Definition snapshot (r : ChannelRegistry) : RegistryFile := mkFile (usernames r) (names r) (deleted r) (username_activity r).
Definition load_registry (now : Z) (f : RegistryFile) (ro : bool) : ChannelRegistry :=
  let '(changed, r) := grandfather_legacy_timestamps now (from_parts true f ro) in if changed then touch r else r.

(** ** Rebuilding the indexes *)
Definition unnamed (r r' : ChannelRegistry) : Prop := same_users r r' ∧ deleted r' = deleted r ∧ same_mode r r' ∧ generation r' = generation r ∧ dirty r' = dirty r ∧ durable_generation r' = durable_generation r.
Lemma insert_all_spec (l : list (str * ChannelNameRecord)) r :
  NoDup l.*1 → (∀ n rec, (n, rec) ∈ l → names r !! n = None) → index_ok (by_channel r) channel_key (names r) → index_ok (by_skeleton r) skeleton_key (names r) →
  let r' := foldl (λ r kv, insert_name kv.1 kv.2 r) r l in
  index_ok (by_channel r') channel_key (names r') ∧ index_ok (by_skeleton r') skeleton_key (names r') ∧ unnamed r r' ∧ ∀ n rec, names r' !! n = Some rec ↔ names r !! n = Some rec ∨ (n, rec) ∈ l.
Proof.
  revert r. induction l as [|[n0 rec0] l IH]; intros r Hnd Hfresh H1 H2; cbn [foldl fst snd].
  - split; [done|]. split; [done|]. split; [done|]. intros n rec. rewrite elem_of_nil. tauto.
  - apply NoDup_cons in Hnd as [Hnot Hnd]. assert (names r !! n0 = None) as E0 by (apply (Hfresh n0 rec0); left).
    destruct (IH (insert_name n0 rec0 r)) as (A1 & A2 & A3 & A4); [done| |by apply (index_insert _ channel_key)|by apply (index_insert _ skeleton_key _ _ rec0)|].
    + intros n rec Hin. cbn. rewrite lookup_insert_ne; [apply (Hfresh n rec); by right|]. intros <-. apply Hnot. by apply (list_elem_of_fmap_2 fst l (n0, rec)).
    + cbv zeta in *. split; [done|]. split; [done|]. split; [done|]. intros n rec. rewrite A4, elem_of_cons. cbn [insert_name on_names names]. rewrite lookup_insert_Some. split.
      * intros [[[<- <-]|[_ ?]]|?]; [right; by left|by left|right; by right].
      * intros [Hn|[[= -> ->]|?]]; [left; right; split; [intros <-; congruence|done]|left; by left|by right].
Qed.
Lemma by_pubkey_spec (l : list (str * str)) (m : gmap str str) :
  (∀ n pk, (n, pk) ∈ l → to_ascii_lowercase pk = pk) → (∀ n1 n2 pk, (n1, pk) ∈ l → (n2, pk) ∈ l → n1 = n2) →
  ∀ n pk, foldl (λ m kv, <[to_ascii_lowercase kv.2 := kv.1]> m) m l !! pk = Some n ↔ (n, pk) ∈ l ∨ (∀ n', (n', pk) ∉ l) ∧ m !! pk = Some n.
Proof.
  revert m. induction l as [|[n0 pk0] l IH]; intros m Hl Hinj n pk; cbn [foldl fst snd].
  - rewrite elem_of_nil. split; [intros Hm; right; split; [intros n' []%elem_of_nil|done]|intros [[]|[_ ?]]; done].
  - rewrite IH; [|intros n' pk' ?; apply (Hl n'); by right|intros n1 n2 pk' ? ?; apply (Hinj n1 n2 pk'); by right]. rewrite (Hl n0 pk0) by left. rewrite lookup_insert_Some, elem_of_cons. split.
    + intros [Hin|[Hno [[-> ->]|[Hne Hm]]]]; [left; by right|left; by left|]. right. split; [|done]. intros n' [[= _ ->]|Hin]%elem_of_cons; [done|by apply (Hno n')].
    + intros [[[= -> ->]|Hin]|[Hno Hm]]; [|by left|].
      * destruct (decide ((n0, pk0) ∈ l)) as [Hin|Hout]; [by left|]. right. split; [|by left]. intros n' Hin. assert (n' = n0) as -> by (apply (Hinj n' n0 pk0); [by right|left]). done.
      * right. split; [intros n' Hin; apply (Hno n'); by right|]. right. split; [|done]. intros ->. apply (Hno n0). left.
Qed.
Lemma load_snapshot r now : reg_ok r → let r' := load_registry now (snapshot r) false in reg_ok r' ∧ snapshot r' = snapshot r ∧ writable r' = true ∧ has_path r' = true ∧ dirty r' = false ∧ generation r' = 0 ∧ durable_generation r' = 0.
Proof.
  intros [H1 H2 H3 [Hb Hu]]. unfold load_registry. set (r0 := from_parts true (snapshot r) false).
  assert (reg_ok r0 ∧ snapshot r0 = snapshot r ∧ writable r0 = true ∧ has_path r0 = true ∧ dirty r0 = false ∧ generation r0 = 0 ∧ durable_generation r0 = 0) as (A1 & A).
  { unfold r0, from_parts. cbn [snapshot f_usernames f_names f_deleted f_activity]. cbv zeta.
    set (bp := foldl _ ∅ (map_iter (usernames r))). set (start := mkRegistry _ _ _ _ _ _ _ _ _ _ _ _ _). assert (index_ok ∅ channel_key ∅ ∧ index_ok ∅ skeleton_key ∅) as [I1 I2].
    { split; (split; [done|]); intros k n; rewrite lookup_empty; cbn; rewrite elem_of_nil; (split; [done|]); intros (rec & Hr & _); by rewrite lookup_empty in Hr. }
    destruct (insert_all_spec (map_iter (names r)) start) as (B1 & B2 & (B3 & B4 & B5 & B6 & B7 & B8) & B9); [apply NoDup_fst_map_iter|done|done|done|]. cbv zeta in *. set (r' := foldl _ start _) in *. clearbody r'.
    assert (names r' = names r) as En.
    { apply map_eq. intros n. apply option_eq. intros rec. rewrite B9, elem_of_map_iter. cbn. rewrite lookup_empty. split; [by intros [|]|by right]. }
    destruct B3 as (U1 & U2 & U3), B5 as (M1 & M2 & M3). cbn in U1, U2, U3, B4, M1, M2, M3, B6, B7, B8. split; [|unfold snapshot, writable; by rewrite En, U1, U3, B4, M1, M2, M3, B6, B7, B8].
    split; [done|done|by rewrite En, B4|]. rewrite U1, U2, U3. split; [|done]. intros n pk. unfold bp. rewrite by_pubkey_spec; [..|].
    - rewrite elem_of_map_iter. split; [by left|intros [?|[_ Hm]]; [done|by rewrite lookup_empty in Hm]].
    - intros n' pk' Hin%elem_of_map_iter. by apply (Hu n').
    - intros n1 n2 pk' I3%elem_of_map_iter I4%elem_of_map_iter. apply Hb in I3, I4. congruence. }
  clearbody r0. rewrite grandfather_id by done. done.
Qed.
(** ** Every write *)
Lemma good_reaped now op r r' : reg_ok r' → reaped now r r' → good now op r r'.
Proof. intros H1 H2. apply (good_after now op r r'); [done|by apply good_refl]. Qed.
Lemma step_good now op r : 0 < now → reg_ok r → good now op r (reg_step now op r).2.
Proof.
  intros Hnow Hok. destruct op as [pk name|c pk name p|c pk name p|c pk n days|old new pk signer|c pk| |]; cbn [reg_step].
  - destruct (claim_username_spec pk name now r Hok) as [A1 A2 _ _ _]. by apply good_reaped.
  - apply claim_name_good; [done|done|]. intros rec ? ?. by exists c, pk.
  - by apply rename_good.
  - by apply nominate_good.
  - by apply handover_good.
  - by apply delete_good.
  - destruct (reap_stale_spec now r Hok) as (A1 & A2 & _). by apply good_reaped.
  - apply (good_ext now _ r r); [done|done|by apply good_refl].
Qed.
Lemma empty_ok : reg_ok in_memory ∧ ∀ now ro, reg_ok (load_registry now RegistryFile_default ro).
Proof.
  assert (∀ path ro, reg_ok (from_parts path RegistryFile_default ro)) as H.
  { intros path ro. unfold from_parts, RegistryFile_default. cbn [f_usernames f_names f_deleted f_activity].
    assert (∀ V (m : gmap str V), m = ∅ → map_iter m = []) as He by (intros V m ->; apply length_zero_iff_nil; by rewrite length_map_iter, map_size_empty). rewrite !He by done. cbn [foldl].
    assert (∀ key, index_ok ∅ key ∅) as Hi by (intros key; split; [done|]; intros k n; rewrite lookup_empty; cbn; rewrite elem_of_nil; (split; [done|]); intros (rec & Hr & _); by rewrite lookup_empty in Hr).
    split; cbn; [apply Hi|apply Hi|by split|]. split; [intros n pk; by rewrite !lookup_empty|intros n pk Hn; by rewrite lookup_empty in Hn]. }
  split; [apply H|]. intros now ro. unfold load_registry. rewrite grandfather_id by apply H. apply H.
Qed.

(** A registry in use: started empty, from its own snapshot, or after a write. *)
Inductive reg_reach : ChannelRegistry → Prop :=
  | reach_memory : reg_reach in_memory
  | reach_empty now ro : reg_reach (load_registry now RegistryFile_default ro)
  | reach_restart now r : reg_reach r → reg_reach (load_registry now (snapshot r) false)
  | reach_step now op r : 0 < now → reg_reach r → reg_reach (reg_step now op r).2.
Lemma registry_reach_ok r : reg_reach r → reg_ok r.
Proof. induction 1 as [|now ro|now r _ IH|now op r Hnow _ IH]; [apply empty_ok|apply empty_ok|by apply load_snapshot|by apply step_good]. Qed.

(** C5: a registry started empty or from its own snapshot, after any sequence of claims,
    renames, nominations, handovers, deletions, sweeps and restarts, has exact indexes
    (by room and by lookalike key), at most one current name per room, marks a name
    deleted exactly when its room is tombstoned, keeps usernames and keys in bijection,
    and its snapshot rebuilds the same registry. *)
Theorem registry_reachable_ok r : reg_reach r →
  (∀ id n, n ∈ names_of_channel id r ↔ ∃ rec, names r !! n = Some rec ∧ room_of rec = id) ∧
  (∀ key n, n ∈ lookalikes key r ↔ is_Some (names r !! n) ∧ confusable_key n = key) ∧
  (∀ n1 n2 r1 r2, names r !! n1 = Some r1 → names r !! n2 = Some r2 → is_current r1 = true → is_current r2 = true → room_of r1 = room_of r2 → n1 = n2) ∧
  (∀ n rec, names r !! n = Some rec → is_deleted_name rec = true ↔ room_of rec ∈ deleted r) ∧
  (∀ n pk, usernames r !! n = Some pk ↔ by_pubkey r !! pk = Some n) ∧
  (∀ now, snapshot (load_registry now (snapshot r) false) = snapshot r).
Proof.
  intros Hok%registry_reach_ok. pose proof Hok as [[_ H1] [_ H2] [H3 H4 _] [H5 _]]. split; [|split; [|split; [|split; [|split]]]]; [done| |done|done|done|].
  - intros key n. unfold lookalikes. rewrite H2. unfold skeleton_key. split; [intros (rec & -> & <-); by split; [eexists|]|intros [[rec Hr] <-]; by exists rec].
  - intros now. by destruct (load_snapshot r now Hok) as (_ & ? & _).
Qed.
Inductive reg_later : ChannelRegistry → ChannelRegistry → Prop :=
  | later_refl r : reg_later r r
  | later_step now op r r' : 0 < now → reg_later r r' → reg_later r (reg_step now op r').2
  | later_restart now r r' : reg_later r r' → reg_later r (load_registry now (snapshot r') false).
Lemma snapshot_parts r r' : snapshot r = snapshot r' → names r = names r' ∧ deleted r = deleted r'.
Proof. unfold snapshot. by intros [= _ ? ? _]. Qed.
Lemma later_gone r r' : reg_ok r → reg_later r r' →
  reg_ok r' ∧ deleted r ⊆ deleted r' ∧ ∀ n rec, names r !! n = Some rec → is_deleted_name rec = true → names r' !! n = Some rec.
Proof.
  intros Hok. induction 1 as [r|now op r r' Hnow _ IH|now r r' _ IH]; [done|..]; destruct (IH Hok) as (A1 & A2 & A3).
  - destruct (step_good now op r' Hnow A1) as [B1 B2 B3 _]. split; [done|]. split; [set_solver|]. intros n rec Hn Hd. pose proof (B2 n rec (A3 n rec Hn Hd)) as Hc.
    remember (names (reg_step now op r').2 !! n) as res eqn:Eres. clear Eres.
    destruct Hc as [|res Ha|res Hd' Ho Hk|c pk name p _ Hret _|? ? ? ? ? _ Hcur _ _|? ? ? ? _ Hcur _ _]; [done|unfold abandoned in Ha; by rewrite Hd in Ha|congruence|unfold is_retired in Hret; by rewrite Hd in Hret|..];
      by destruct (current_parts rec Hcur) as [? _]; congruence.
  - destruct (load_snapshot r' now A1) as (B1 & B2 & _). cbv zeta in *. destruct (snapshot_parts _ _ B2) as [-> ->]. done.
Qed.
(** ** Who holds a name *)
Definition same_holder (rec rec' : ChannelNameRecord) : Prop := room_of rec' = room_of rec ∧ to_ascii_lowercase (pubkey rec') = to_ascii_lowercase (pubkey rec).
Lemma reg_later_trans r1 r2 r3 : reg_later r1 r2 → reg_later r2 r3 → reg_later r1 r3.
Proof. intros H12. induction 1; [done|by apply later_step; [|auto]|by apply later_restart; auto]. Qed.
(** The write of [op] at [now] takes the name [n] from its holder [rec]: an abandoned name is
    free for anyone; the room's current name is handed over, signed by the owner's key or
    by the nominee after the announced silence; or the owner's own rename lets go of one
    of the oldest retired names the room may no longer keep. *)
Inductive lets_go_of (n : str) (rec : ChannelNameRecord) (now : Z) (op : reg_op) (r : ChannelRegistry) : Prop :=
  | gone_abandoned : abandoned now rec = true → lets_go_of n rec now op r
  | gone_handed old new pk signer rec' : op = Handover old new pk signer → is_current rec = true → room_of rec = to_ascii_lowercase old →
      to_ascii_lowercase (pubkey rec) = to_ascii_lowercase signer ∨ nominee_may_take (to_ascii_lowercase signer) now rec = true →
      names (reg_step now op r).2 !! n = Some rec' → room_of rec' = to_ascii_lowercase new → lets_go_of n rec now op r
  | gone_surplus : names (reg_step now op r).2 !! n = None → let_go op r (reg_step now op r).2 rec → lets_go_of n rec now op r.
Lemma holder_step now op r n rec : 0 < now → reg_ok r → names r !! n = Some rec →
  lets_go_of n rec now op r ∨ ∃ rec', names (reg_step now op r).2 !! n = Some rec' ∧ same_holder rec rec'.
Proof.
  intros Hnow Hok Hn. destruct (step_good now op r Hnow Hok) as [_ Hc _ Hlost]. specialize (Hc n rec Hn). specialize (Hlost n rec Hn). destruct (names (reg_step now op r).2 !! n) as [rec'|] eqn:E.
  2: { left. destruct (Hlost eq_refl) as [?|?]; [by apply gone_abandoned|by apply gone_surplus]. }
  remember (Some rec') as res eqn:Eres. destruct Hc as [|res Ha|res Hd Ho Hk|c pk name p|old new pk signer by_ E1 E2 E3 E4|old new pk signer E1 E2 E3 E4].
  - right. exists rec. done.
  - left. by apply gone_abandoned.
  - right. exists rec'. split; [done|]. by apply Hk.
  - done.
  - left. eapply gone_handed; [done..|exact E|]. injection Eres as <-. apply lower_lower.
  - right. exists (with_refreshed now rec). done.
Qed.
(** C13: deletion is for good: from then on, whatever is written and however often the
    server restarts, the room stays tombstoned, every name it held stays on record as
    deleted and unchanged, and no claim or rename for the room succeeds. *)
Theorem tombstones_are_forever r r' c : reg_reach r → reg_later r r' → to_ascii_lowercase c ∈ deleted r →
  is_deleted c r' = true ∧ (∀ n rec, names r !! n = Some rec → room_of rec = to_ascii_lowercase c → is_deleted_name rec = true ∧ names r' !! n = Some rec) ∧
  has_channel c r' = false ∧
  (∀ pk name p now, (claim_channel_name_at c pk name p now r').1 ≠ None ∧ (rename_channel_name_at c pk name p now r').1 ≠ None).
Proof.
  intros Hok%registry_reach_ok Hl Hd. destruct (later_gone r r' Hok Hl) as (A1 & A2 & A3). assert (to_ascii_lowercase c ∈ deleted r') as Hd' by set_solver. split; [|split; [|split]].
  - unfold is_deleted. by rewrite bool_decide_eq_true_2.
  - intros n rec Hn Hi. assert (is_deleted_name rec = true) as Hx by (apply (deleted_iff _ _ (ok_names _ Hok) n rec Hn); congruence). split; [done|by apply A3].
  - unfold has_channel. apply bool_decide_eq_false. pose proof (live_name_spec (to_ascii_lowercase c) r' A1) as Hlive. destruct (live_name_of_channel _ r') as [n|]; [|by intros []].
    destruct Hlive as (rec & Hn & Hc & Hi). destruct (current_parts rec Hc) as [Hx _]. assert (is_deleted_name rec = true) as Hy by (apply (deleted_iff _ _ (ok_names _ A1) n rec Hn); congruence). congruence.
  - intros pk name p now. unfold claim_channel_name_at, rename_channel_name_at. destruct (negb (writable r')); [done|]. destruct (normalize_channel_name name); [|done]. cbv zeta.
    destruct (negb (valid_channel _ _)); [done|]. by rewrite bool_decide_eq_true_2.
Qed.
End safety.
