(* ===== verification/RegistryClaims.v ===== *)
(** * The channel registry: what a claim is answered

    Room names and lookalikes, usernames, and concrete registries. *)
From S2P Require Import Prelude NodeId Addr MapOrder RoutingQuery Registry RegistryInv RegistrySteps RegistrySafety.
Local Open Scope Z_scope.

Section claims.
Context `{Txt : RegistryText, Ord : MapOrder, Uns : UnstableSlice}.
(** The name is the room's, current, and under its key. *)
Definition holds_name (r : ChannelRegistry) (n id pk : str) : Prop :=
  ∃ rec, names r !! n = Some rec ∧ is_current rec = true ∧ room_of rec = id ∧ to_ascii_lowercase (pubkey rec) = to_ascii_lowercase pk.
Definition no_lookalike (now : Z) (r : ChannelRegistry) (n id : str) : Prop :=
  ∀ m rec, names r !! m = Some rec → confusable_key m = confusable_key n → room_of rec = id ∨ abandoned now rec = true.
Lemma no_lookalike_reaped now r r1 n id : reaped now r r1 → no_lookalike now r1 n id → no_lookalike now r n id.
Proof.
  intros Hr H m rec Hm Hk. destruct (names r1 !! m) as [rec1|] eqn:E; [|right; by apply (rp_only _ _ _ Hr m)].
  pose proof (rp_sub _ _ _ Hr m rec1 E). assert (rec1 = rec) as -> by congruence. by apply (H m).
Qed.
Lemma claim_exact_grants normalized d id pk p now r r' :
  reg_ok r → to_ascii_lowercase id = id → claim_exact normalized d id pk p now r = (None, r') →
  holds_name r' normalized id pk ∧ (holds_name r normalized id pk ∨ names r !! normalized = None ∧ no_lookalike now r normalized id).
Proof.
  intros Hok Hlow. unfold claim_exact. destruct (names r !! normalized) as [rec|] eqn:E.
  - rewrite bool_decide_eq_true_2 by by eexists. cbn [negb andb]. destruct (is_deleted_name rec || negb (retired_at rec =? 0) || negb (owned_by id pk rec)) eqn:Eg; [done|]. intros [= <-].
    apply orb_false_iff in Eg as [[Hd Hr%negb_false_iff]%orb_false_iff Ho%negb_false_iff]. apply andb_true_iff in Ho as [Hi%eq_ignore_true Hk%eq_ignore_true].
    assert (∀ b : bool, names (if b then touch_durable (put_name r normalized (with_shown p d now rec)) else touch (put_name r normalized (with_shown p d now rec))) !! normalized = Some (with_shown p d now rec)) as Hb
      by (intros []; cbn; by rewrite lookup_insert_eq).
    assert (is_current rec = true ∧ room_of rec = id ∧ to_ascii_lowercase (pubkey rec) = to_ascii_lowercase pk) as Hrec by (unfold is_current, room_of; rewrite Hd, Hr; repeat split; congruence).
    split; [eexists; split; [apply Hb|exact Hrec]|]. left. by exists rec.
  - rewrite bool_decide_eq_false_2 by (by intros []). cbn [negb andb]. destruct (existsb _ _) eqn:Ex; [done|]. cbv zeta. destruct (_ <=? _); [done|]. intros [= <-]. split.
    + exists (new_name_record id pk p d now). cbn [touch_durable touch insert_name on_names names]. rewrite lookup_insert_eq. split; [done|]. split; [done|]. by split.
    + right. split; [done|]. intros m rec Hm Hk. left. destruct (eq_ignore_ascii_case (channel_id rec) id) eqn:Ei; [apply eq_ignore_true in Ei; unfold room_of; congruence|].
      apply not_true_iff_false in Ex. destruct Ex. apply existsb_exists. exists m. split; [|unfold other_room; by rewrite Hm, Ei]. apply list_elem_of_In. apply (ok_skeleton _ Hok). by exists rec.
Qed.
Lemma reaped_holds now r r1 n id pk : reaped now r r1 → holds_name r1 n id pk → holds_name r n id pk.
Proof. intros Hr (rec & Hn & H). exists rec. split; [by apply (rp_sub _ _ _ Hr)|done]. Qed.

(** C27: a granted claim leaves the name current, with the room and key that asked; and it
    was granted only to the room already holding the name, or when no other room holds,
    live, retired or deleted, any name that looks like it, abandoned ones aside. *)
Theorem granted_names_have_no_lookalike c pk name p now r r' : reg_reach r → claim_channel_name_at c pk name p now r = (None, r') →
  ∃ normalized, normalize_channel_name name = Some normalized ∧ holds_name r' normalized (to_ascii_lowercase c) pk ∧
    (holds_name r normalized (to_ascii_lowercase c) pk ∨ no_lookalike now r normalized (to_ascii_lowercase c)).
Proof.
  intros Hok%registry_reach_ok. unfold claim_channel_name_at. destruct (negb (writable r)); [done|]. destruct (normalize_channel_name name) as [normalized|]; [|done]. cbv zeta. destruct (negb _); [done|]. case_bool_decide; [done|].
  destruct (reap_candidates_spec normalized (to_ascii_lowercase c) now r Hok) as (A1 & A2 & _). cbv zeta in *. set (r1 := reap_candidates _ _ _ _) in *. clearbody r1. destruct (held_other _ _ r1); [done|].
  intros Hc. apply claim_exact_grants in Hc as [H1 H2]; [|done|apply lower_lower]. exists normalized. split; [done|].
  assert (∀ x, holds_name x normalized (to_ascii_lowercase c) (to_ascii_lowercase pk) → holds_name x normalized (to_ascii_lowercase c) pk) as Hp by (intros x (rec & ? & ? & ? & E); rewrite lower_lower in E; by exists rec).
  split; [by apply Hp|]. destruct H2 as [H2|[_ H2]]; [left; by apply Hp, (reaped_holds now r r1)|right; by apply (no_lookalike_reaped now r r1)].
Qed.
(** A granted username belongs to the key that asked, and to it alone; a claim, granted
    or refused, takes no username from another key that is still in use, and [Taken] is
    answered only when the name belongs to such a key. *)
Theorem username_claims_spare_the_active pubkey_hex name now r : reg_reach r →
  let pk := to_ascii_lowercase pubkey_hex in let '(e, r') := claim_username_at pubkey_hex name now r in
  (∀ n pk', usernames r !! n = Some pk' → pk' ≠ pk → username_idle pk' now r = true ∨ usernames r' !! n = Some pk') ∧
  (e = None → holds_username pubkey_hex name r' = true ∧ ∀ n, usernames r' !! n = Some pk → normalize_username name = Some n) ∧
  (e = Some Taken → ∃ n owner, normalize_username name = Some n ∧ usernames r !! n = Some owner ∧ owner ≠ pk ∧ username_idle owner now r = false).
Proof.
  intros Hok%registry_reach_ok. cbv zeta. pose proof (claim_username_spec pubkey_hex name now r Hok) as Hs. cbv zeta in Hs. destruct (claim_username_at pubkey_hex name now r) as [e r']. destruct Hs as [H1 H2 H3 H4 H5]. cbn [fst snd] in *.
  split; [done|]. split; [|done]. intros He. destruct (H4 He) as (n & Hz & Hu & Hb). split.
  - unfold holds_username. rewrite Hz, Hu. apply eq_ignore_true, lower_lower.
  - intros m Hm. rewrite Hz. apply (proj1 (ok_users _ H1)) in Hm. congruence.
Qed.
End claims.

(** ** Concrete registries *)

(** ASCII text: lower case, a skeleton that reads a zero as the letter it looks like, and
    hexadecimal; BLAKE3 replaced by the bytes themselves. *)
Definition hex_value (c : Z) : option Z :=
  if (48 <=? c) && (c <=? 57) then Some (c - 48) else if (97 <=? c) && (c <=? 102) then Some (c - 87) else if (65 <=? c) && (c <=? 70) then Some (c - 55) else None.
Fixpoint ascii_unhex (s : str) : option bytes :=
  match s with
  | [] => Some []
  | a :: b :: s => match hex_value a, hex_value b, ascii_unhex s with Some x, Some y, Some l => Some (16 * x + y :: l) | _, _, _ => None end
  | [_] => None
  end.
Definition digit_hex (d : Z) : Z := if d <? 10 then 48 + d else 87 + d.
#[local] Instance AsciiText : RegistryText :=
  {| to_lowercase := to_ascii_lowercase; skeleton := λ s, (λ c, if c =? 48 then 111 else c) <$> s; hex_decode := ascii_unhex;
     hex_encode := λ l, l ≫= (λ x, [digit_hex (x / 16); digit_hex (x mod 16)]); blake3_hash := λ l, l |}.
Definition room_a : str := replicate 32 97.
Definition room_b : str := replicate 32 98.
Definition key_a : str := replicate 64 97.
Definition key_b : str := replicate 64 98.
(** "room", a lookalike of it, and another name. *)
Definition name_room : str := [114; 111; 111; 109].
Definition name_r0om : str := [114; 48; 111; 109].
Definition name_zzz : str := [122; 122; 122].
Fixpoint reg_run (now : Z) (ops : list reg_op) (r : ChannelRegistry) : ChannelRegistry :=
  match ops with [] => r | op :: ops => reg_run now ops (reg_step now op r).2 end.
Lemma run_reach now ops r : 0 < now → reg_reach r → reg_reach (reg_run now ops r).
Proof. intros Hnow. revert r. induction ops as [|op ops IH]; intros r Hr; [done|]. apply IH. by apply reach_step. Qed.
Lemma run_later now ops r0 r : 0 < now → reg_later r0 r → reg_later r0 (reg_run now ops r).
Proof. intros Hnow. revert r. induction ops as [|op ops IH]; intros r Hr; [done|]. apply IH. by apply later_step. Qed.
(** After a handover the names a room left behind stay with the room it was, so its old
    owner can take one back: two rooms then hold current names that look alike. *)
Example retired_name_escapes_handover :
  let r := reg_run 1000 [ClaimName room_a key_a name_room false; Rename room_a key_a name_r0om false; Handover room_a room_b key_b key_a;
                         ClaimName room_a key_a name_zzz false; Rename room_a key_a name_room false] in_memory in
  holds_name r name_room room_a key_a ∧ holds_name r name_r0om room_b key_b ∧ confusable_key name_room = confusable_key name_r0om ∧
  (claim_channel_name_at room_a key_a name_room false 1000 (reg_run 1000 [ClaimName room_b key_b name_r0om false] in_memory)).1 = Some Taken.
Proof. vm_compute. split; [eexists; repeat split|]. split; [eexists; repeat split|]. done. Qed.
Example successor_cannot_rename_back :
  (rename_channel_name_at room_b key_b name_room false 90000
     (reg_run 1000 [ClaimName room_a key_a name_room false; Rename room_a key_a name_r0om false; Handover room_a room_b key_b key_a] in_memory)).1 = Some Taken.
Proof. vm_compute. done. Qed.

Definition one_room : ChannelRegistry := reg_run 1000 [ClaimUsername key_a name_zzz; ClaimName room_a key_a name_room false] in_memory.
Lemma one_room_reach : reg_reach one_room.
Proof. apply run_reach; [lia|apply reach_memory]. Qed.
Definition room_record : ChannelNameRecord := new_name_record room_a key_a false name_room 1000.
Lemma registry_reachable_ok_witness : names one_room !! name_room = Some room_record ∧ lookalikes name_room one_room = [name_room] ∧ ∀ now, snapshot (load_registry now (snapshot one_room) false) = snapshot one_room.
Proof.
  split; [vm_compute; reflexivity|]. split; [vm_compute; reflexivity|].
  refine (proj2 (proj2 (proj2 (proj2 (proj2 (registry_reachable_ok one_room _)))))). apply one_room_reach.
Defined.
(** A retired name beyond the three a room keeps goes to another room. *)
Example surplus_name_moves_on :
  let day := 86400 in let r1 := reg_run 1000 [ClaimName room_a key_a name_room false] in_memory in
  let renamed t c r := reg_run t [Rename room_a key_a [c; c] false] r in
  let r4 := renamed (1000 + 4 * day) 107 (renamed (1000 + 3 * day) 106 (renamed (1000 + 2 * day) 105 (renamed (1000 + day) 104 r1))) in
  names r4 !! name_room = None ∧ holds_name (reg_run (1000 + 4 * day) [ClaimName room_b key_b name_room false] r4) name_room room_b key_b.
Proof. vm_compute. split; [done|eexists; repeat split]. Qed.
Lemma tombstones_are_forever_witness :
  let gone := reg_run 2000 [DeleteChannel room_a key_a] one_room in let r' := reg_run 3000 [ClaimName room_b key_b name_zzz false; Reap] gone in
  is_deleted room_a gone = true ∧ is_deleted room_a r' = true.
Proof.
  intros gone r'. split; [vm_compute; reflexivity|]. refine (proj1 (tombstones_are_forever gone r' room_a _ _ _)).
  - apply run_reach; [lia|apply one_room_reach].
  - apply run_later; [lia|apply later_refl].
  - apply (bool_decide_unpack _). vm_compute. exact I.
Defined.
Lemma granted_names_have_no_lookalike_witness :
  let res := claim_channel_name_at room_b key_b name_zzz false 2000 one_room in
  res.1 = None ∧ ∃ normalized, normalize_channel_name name_zzz = Some normalized ∧ holds_name res.2 normalized (to_ascii_lowercase room_b) key_b ∧
    (holds_name one_room normalized (to_ascii_lowercase room_b) key_b ∨ no_lookalike 2000 one_room normalized (to_ascii_lowercase room_b)).
Proof.
  intros res. assert (res.1 = None) as E by (vm_compute; reflexivity). split; [exact E|].
  refine (granted_names_have_no_lookalike room_b key_b name_zzz false 2000 one_room res.2 _ _); [apply one_room_reach|]. rewrite (surjective_pairing (claim_channel_name_at _ _ _ _ _ _)). fold res. rewrite E. reflexivity.
Defined.
Lemma username_claims_spare_the_active_witness :
  (claim_username_at key_b name_zzz 2000 one_room).1 = Some Taken ∧ ∃ n owner, normalize_username name_zzz = Some n ∧ usernames one_room !! n = Some owner ∧ owner ≠ key_b ∧ username_idle owner 2000 one_room = false.
Proof.
  assert ((claim_username_at key_b name_zzz 2000 one_room).1 = Some Taken) as E by (vm_compute; reflexivity). split; [exact E|].
  pose proof (username_claims_spare_the_active key_b name_zzz 2000 one_room one_room_reach) as H. cbv zeta in H. destruct (claim_username_at key_b name_zzz 2000 one_room) as [e r']. cbn [fst] in E. subst e.
  exact (proj2 (proj2 H) eq_refl).
Defined.
