(* ===== verification/RegistryCount.v ===== *)
(** * The channel registry: every change is counted

    A write either leaves the registry as it was or moves its generation, marks it dirty,
    and, when it tombstones a room, makes the new generation one to wait for. *)
From S2P Require Import Prelude NodeId Addr MapOrder RoutingQuery Registry RegistryInv RegistrySteps RegistrySafety.
Local Open Scope Z_scope.

Definition u64_bound : Z := 18446744073709551616.
(** The counters and flags around the data. *)
Definition inner (r r' : ChannelRegistry) : Prop :=
  has_path r' = has_path r ∧ read_only r' = read_only r ∧ generation r' = generation r ∧ durable_generation r' = durable_generation r ∧ dirty r' = dirty r.
(** A registry with a file behind it, its generation moved by at most [k]. *)
Record advanced (k : Z) (r r' : ChannelRegistry) : Prop := mkAdvanced {
  ad_path : has_path r' = true;
  ad_mode : read_only r' = false;
  ad_gen : generation r ≤ generation r' ≤ generation r + k;
  ad_same : generation r' = generation r → snapshot r' = snapshot r ∧ dirty r' = dirty r;
  ad_dirty : generation r' ≠ generation r → dirty r' = true;
}.
(** Nothing anybody waits for, and no tombstone. *)
Definition soft (k : Z) (r r' : ChannelRegistry) : Prop := advanced k r r' ∧ durable_generation r' = durable_generation r ∧ deleted r' = deleted r.
Definition moved (k : Z) (r r' : ChannelRegistry) : Prop :=
  advanced k r r' ∧ (durable_generation r' = durable_generation r ∧ deleted r' = deleted r ∨ durable_generation r' = generation r').

Section count.
Context `{Txt : RegistryText, Ord : MapOrder, Uns : UnstableSlice}.
Definition filed (r : ChannelRegistry) : Prop := has_path r = true ∧ read_only r = false.
Lemma advanced_refl r : filed r → advanced 0 r r.
Proof. intros [? ?]. split; [done|done|lia|done|done]. Qed.
Lemma soft_refl r : filed r → soft 0 r r.
Proof. intros H. split; [by apply advanced_refl|done]. Qed.
Lemma advanced_filed k r r' : advanced k r r' → filed r'.
Proof. by intros []. Qed.
Lemma advanced_trans k1 k2 r1 r2 r3 : advanced k1 r1 r2 → advanced k2 r2 r3 → advanced (k1 + k2) r1 r3.
Proof.
  intros [A1 A2 A3 A4 A5] [B1 B2 B3 B4 B5]. split; [done|done|lia|..].
  - intros E. destruct A4 as [? ?]; [lia|]. destruct B4 as [? ?]; [lia|]. split; congruence.
  - intros E. destruct (decide (generation r3 = generation r2)) as [E'|E']; [|by apply B5]. destruct (B4 E') as [_ ->]. apply A5. lia.
Qed.
Lemma advanced_le k1 k2 r r' : k1 ≤ k2 → advanced k1 r r' → advanced k2 r r'.
Proof. intros Hk [A1 A2 A3 A4 A5]. split; [done|done|lia|done|done]. Qed.
Lemma soft_trans k1 k2 r1 r2 r3 : soft k1 r1 r2 → soft k2 r2 r3 → soft (k1 + k2) r1 r3.
Proof. intros (A & ? & ?) (B & ? & ?). split; [by eapply advanced_trans|split; congruence]. Qed.
Lemma soft_moved k1 k2 r1 r2 r3 : soft k1 r1 r2 → moved k2 r2 r3 → moved (k1 + k2) r1 r3.
Proof. intros (A & ? & ?) (B & Hd). split; [by eapply advanced_trans|]. destruct Hd as [[? ?]|?]; [left; split; congruence|by right]. Qed.
Lemma soft_is_moved k r r' : soft k r r' → moved k r r'.
Proof. intros (A & ? & ?). split; [done|by left]. Qed.
Lemma moved_le k1 k2 r r' : k1 ≤ k2 → moved k1 r r' → moved k2 r r'.
Proof. intros Hk [A Hd]. split; [by eapply advanced_le|done]. Qed.
Lemma moved_refl k r : 0 ≤ k → filed r → moved k r r.
Proof. intros Hk H. apply (moved_le 0); [done|]. by apply soft_is_moved, soft_refl. Qed.

(** ** Touching *)
Lemma touch_gen r : 0 ≤ generation r → generation r + 1 < u64_bound → generation (touch r) = generation r + 1.
Proof. intros H1 H2. cbn [touch generation]. apply Z.mod_small. unfold u64_bound in H2. lia. Qed.
Lemma touch_soft r r0 : filed r → inner r r0 → deleted r0 = deleted r → 0 ≤ generation r → generation r + 1 < u64_bound → soft 1 r (touch r0).
Proof.
  intros [H1 H2] (I1 & I2 & I3 & I4 & I5) Hd G1 G2. pose proof (touch_gen r0 ltac:(lia) ltac:(lia)) as Hg.
  split; [|split; [exact I4|exact Hd]]. split; [by cbn; rewrite I1|by cbn; rewrite I2|lia|lia|]. intros _. cbn [touch dirty]. by rewrite I1, I2, H1, H2.
Qed.
Lemma touch_durable_moved r r0 : filed r → inner r r0 → 0 ≤ generation r → generation r + 1 < u64_bound → moved 1 r (touch_durable r0).
Proof.
  intros [H1 H2] (I1 & I2 & I3 & I4 & I5) G1 G2. pose proof (touch_gen r0 ltac:(lia) ltac:(lia)) as Hg.
  assert (generation (touch_durable r0) = generation r0 + 1) as Hg' by exact Hg.
  split; [split; [by cbn; rewrite I1|by cbn; rewrite I2|lia|lia|]|right]; [intros _; cbn [touch_durable touch dirty]; by rewrite I1, I2, H1, H2|].
  unfold touch_durable. cbv zeta. cbn [durable_generation generation read_only has_path touch]. by rewrite I1, I2, H1, H2.
Qed.
Lemma inner_trans r1 r2 r3 : inner r1 r2 → inner r2 r3 → inner r1 r3.
Proof. intros (? & ? & ? & ? & ?) (? & ? & ? & ? & ?). repeat split; congruence. Qed.
Lemma remove_name_inner n r : inner r (remove_name n r) ∧ deleted (remove_name n r) = deleted r.
Proof. unfold remove_name. destruct (names r !! n); repeat split. Qed.
(** A change reported by a flag, touched when it is set. *)
Lemma flagged_soft (c : bool) r r0 :
  filed r → inner r r0 → deleted r0 = deleted r → (c = false → r0 = r) → 0 ≤ generation r → generation r + 1 < u64_bound → soft 1 r (if c then touch r0 else r0).
Proof.
  intros Hf Hi Hd Hc G1 G2. destruct c; [by apply touch_soft|]. rewrite (Hc eq_refl). destruct (soft_refl r Hf) as (A & ?). split; [|done]. by apply (advanced_le 0).
Qed.
Lemma reap_fold_flag now cands c r :
  let acc := foldl (reap_one now) (c, r) cands in inner r acc.2 ∧ deleted acc.2 = deleted r ∧ (acc.1 = false → acc.2 = r) ∧ (c = true → acc.1 = true).
Proof.
  revert c r. induction cands as [|x cands IH]; intros c r; cbn [foldl]; [by repeat split|].
  assert (∃ c1 r1, reap_one now (c, r) x = (c1, r1) ∧ inner r r1 ∧ deleted r1 = deleted r ∧ (c1 = false → r1 = r) ∧ (c = true → c1 = true)) as (c1 & r1 & -> & A1 & A2 & A3 & A4).
  { unfold reap_one. cbn [fst snd]. destruct (names r !! x) as [rec|]; [destruct (abandoned now rec)|]; eexists _, _; (split; [done|]); [|by repeat split..].
    destruct (remove_name_inner x r). done. }
  destruct (IH c1 r1) as (B1 & B2 & B3 & B4). cbv zeta in *. split; [by eapply inner_trans|]. split; [congruence|]. split; [|auto].
  intros E. destruct c1; [rewrite (B4 eq_refl) in E; done|]. rewrite (B3 E). by apply A3.
Qed.
Lemma reap_candidates_soft normalized id now r : filed r → 0 ≤ generation r → generation r + 1 < u64_bound → soft 1 r (reap_candidates normalized id now r).
Proof.
  intros Hf G1 G2. unfold reap_candidates, reap_abandoned_names. set (cands := normalized :: _). destruct (reap_fold_flag now cands false r) as (A1 & A2 & A3 & _). cbv zeta in *.
  destruct (foldl (reap_one now) (false, r) cands) as [c r1]. by apply flagged_soft.
Qed.
Lemma release_fold_flag idle c r :
  let acc := foldl (λ acc name, let '(c, r) := release_username name acc.2 in (acc.1 || c, r)) (c, r) idle in inner r acc.2 ∧ deleted acc.2 = deleted r ∧ (acc.1 = false → acc.2 = r) ∧ (c = true → acc.1 = true).
Proof.
  revert c r. induction idle as [|x idle IH]; intros c r; cbn [foldl]; [by repeat split|]. cbn [fst snd].
  assert (∃ c1 r1, release_username x r = (c1, r1) ∧ inner r r1 ∧ deleted r1 = deleted r ∧ (c1 = false → r1 = r)) as (c1 & r1 & -> & A1 & A2 & A3).
  { unfold release_username. destruct (usernames r !! x); eexists _, _; (split; [done|]); by repeat split. }
  destruct (IH (c || c1) r1) as (B1 & B2 & B3 & B4). cbv zeta in *. split; [by eapply inner_trans|]. split; [congruence|]. split; [|intros ->; by apply B4].
  intros E. destruct c1; [rewrite B4 in E by apply orb_true_r; done|]. rewrite (B3 E). by apply A3.
Qed.
Lemma reap_stale_soft now r : reg_ok r → filed r → 0 ≤ generation r → generation r + 1 < u64_bound → soft 1 r (reap_stale now r).2.
Proof.
  intros Hok Hf G1 G2. unfold reap_stale. destruct (read_only r || closed r); cbn [snd]; [destruct (soft_refl r Hf) as (A & ?); split; [by apply (advanced_le 0)|done]|].
  rewrite grandfather_id by done. set (idle := (retain _ (map_iter (usernames r))).*1). destruct (release_fold_flag idle false r) as (A1 & A2 & A3 & _). cbv zeta in *.
  destruct (foldl _ (false, r) idle) as [c2 r2]. cbn [fst snd] in *. set (gone := (retain _ (map_iter (names r2))).*1). destruct (reap_fold_flag now gone false r2) as (B1 & B2 & B3 & _). cbv zeta in *.
  unfold reap_abandoned_names. destruct (foldl (reap_one now) (false, r2) gone) as [c3 r3]. cbn [fst snd] in *.
  apply flagged_soft; [done|by eapply inner_trans|congruence| |done|done]. intros [E2 E3]%orb_false_iff. rewrite (B3 E3). by apply A3.
Qed.

(** ** Each write *)
Lemma free_idle_soft normalized now r : filed r → 0 ≤ generation r → generation r + 1 < u64_bound → soft 1 r (free_idle normalized now r).
Proof.
  intros Hf G1 G2. assert (soft 1 r r) as Hid by (destruct (soft_refl r Hf) as (A & ?); split; [by apply (advanced_le 0)|done]).
  unfold free_idle. destruct (usernames r !! normalized) as [owner|] eqn:E; [|done]. destruct (username_idle owner now r); [|done]. unfold release_username. rewrite E. by apply touch_soft.
Qed.
Lemma leave_old_name_soft pk r : filed r → 0 ≤ generation r → generation r + 1 < u64_bound → soft 1 r (leave_old_name pk r).
Proof.
  intros Hf G1 G2. unfold leave_old_name. destruct (by_pubkey r !! pk); [by apply touch_soft|]. destruct (soft_refl r Hf) as (A & ?). split; [by apply (advanced_le 0)|done].
Qed.
Lemma soft_bounds k r r' : soft k r r' → filed r' ∧ generation r ≤ generation r' ≤ generation r + k.
Proof. intros ([] & _). done. Qed.
(** The table full, the sweep runs first. *)
Lemma make_room_soft (full : bool) now r : reg_ok r → filed r → 0 ≤ generation r → generation r + 1 < u64_bound → soft 1 r (if full then (reap_stale now r).2 else r).
Proof. intros Hok Hf G1 G2. destruct full; [by apply reap_stale_soft|]. destruct (soft_refl r Hf) as (A & ?). split; [by apply (advanced_le 0)|done]. Qed.
Lemma claim_username_moved pk name now r : reg_ok r → filed r → 0 ≤ generation r → generation r + 4 < u64_bound → moved 4 r (claim_username_at pk name now r).2.
Proof.
  intros Hok Hf G1 G2. unfold claim_username_at. destruct (negb (writable r)); [by apply moved_refl|]. destruct (normalize_username name) as [normalized|]; [|by apply moved_refl]. cbv zeta. set (p := to_ascii_lowercase pk).
  destruct (negb (valid_user_key p)); [by apply moved_refl|]. fold (free_idle normalized now r). pose proof (free_idle_soft normalized now r Hf ltac:(lia) ltac:(lia)) as S1.
  destruct (free_idle_spec normalized now p r Hok) as (A1 & _). cbv zeta in *. set (r1 := free_idle _ _ _) in *. clearbody r1. destruct (soft_bounds _ _ _ S1) as [F1 B1]. change 4 with (1 + 3).
  apply (soft_moved _ _ _ r1 _ S1). destruct (usernames r1 !! normalized) as [owner|].
  - destruct (eq_ignore_ascii_case owner p); [|by apply moved_refl]. apply (moved_le 1); [lia|]. apply soft_is_moved, touch_soft; [done|done|done|lia|lia].
  - fold (leave_old_name p r1). pose proof (leave_old_name_soft p r1 F1 ltac:(lia) ltac:(lia)) as S2. destruct (leave_old_name_spec p now r1 A1) as (A2 & _). cbv zeta in *. set (r2 := leave_old_name _ _) in *. clearbody r2.
    destruct (soft_bounds _ _ _ S2) as [F2 B2]. change 3 with (1 + 2). apply (soft_moved _ _ _ r2 _ S2).
    pose proof (make_room_soft (MAX_USERNAMES <=? Z.of_nat (size (usernames r2))) now r2 A2 F2 ltac:(lia) ltac:(lia)) as S3. set (r3 := if _ <=? _ then _ else r2) in *. clearbody r3.
    destruct (soft_bounds _ _ _ S3) as [F3 B3]. change 2 with (1 + 1). apply (soft_moved _ _ _ r3 _ S3). destruct (_ <=? _); [by apply moved_refl|]. apply touch_durable_moved; [done|done|lia|lia].
Qed.
Lemma claim_exact_moved normalized d id pk p now r : reg_ok r → filed r → 0 ≤ generation r → generation r + 2 < u64_bound → moved 2 r (claim_exact normalized d id pk p now r).2.
Proof.
  intros Hok Hf G1 G2. unfold claim_exact. destruct (_ && existsb _ _); [by apply moved_refl|]. destruct (names r !! normalized) as [rec|].
  - destruct (_ || _); [by apply moved_refl|]. cbn [snd]. apply (moved_le 1); [lia|]. destruct (_ || _); [apply touch_durable_moved; [done|done|lia|lia]|]. apply soft_is_moved, touch_soft; [done|done|done|lia|lia].
  - cbv zeta. pose proof (make_room_soft (MAX_CHANNEL_NAMES <=? Z.of_nat (size (names r))) now r Hok Hf ltac:(lia) ltac:(lia)) as S1. set (r1 := if _ <=? _ then _ else r) in *. clearbody r1.
    destruct (soft_bounds _ _ _ S1) as [F1 B1]. change 2 with (1 + 1). apply (soft_moved _ _ _ r1 _ S1). destruct (_ <=? _); [by apply moved_refl|]. apply touch_durable_moved; [done|done|lia|lia].
Qed.
Lemma claim_name_moved c pk name p now r : reg_ok r → filed r → 0 ≤ generation r → generation r + 3 < u64_bound → moved 3 r (claim_channel_name_at c pk name p now r).2.
Proof.
  intros Hok Hf G1 G2. unfold claim_channel_name_at. destruct (negb (writable r)); [by apply moved_refl|]. destruct (normalize_channel_name name) as [normalized|]; [|by apply moved_refl]. cbv zeta.
  destruct (negb _); [by apply moved_refl|]. destruct (bool_decide _); [by apply moved_refl|]. set (id := to_ascii_lowercase c).
  pose proof (reap_candidates_soft normalized id now r Hf ltac:(lia) ltac:(lia)) as S1. destruct (reap_candidates_spec normalized id now r Hok) as (A1 & _). cbv zeta in *. set (r1 := reap_candidates _ _ _ _) in *. clearbody r1.
  destruct (soft_bounds _ _ _ S1) as [F1 B1]. change 3 with (1 + 2). apply (soft_moved _ _ _ r1 _ S1). destruct (held_other _ _ r1) as [existing|]; [|apply claim_exact_moved; [done|done|lia|lia]].
  cbn [snd]. destruct (names r1 !! existing) as [rec|]; [|by apply moved_refl]. destruct (eq_ignore_ascii_case _ _); [|by apply moved_refl]. apply (moved_le 1); [lia|]. apply soft_is_moved, touch_soft; [done|done|done|lia|lia].
Qed.
Lemma remove_all_inner (l : list (Z * str)) r : inner r (foldl (λ r x, remove_name x.2 r) r l).
Proof. revert r. induction l as [|x l IH]; intros r; [done|]. cbn [foldl]. eapply inner_trans; [apply remove_name_inner|apply IH]. Qed.
Lemma rename_inner from to d p now id r : inner r (release_surplus_retired_names id (apply_rename from to d p now r)).
Proof.
  eapply inner_trans; [|unfold release_surplus_retired_names; cbv zeta; destruct (decide _); [by repeat split|apply remove_all_inner]].
  unfold apply_rename. destruct (names r !! from); [|done]. cbv zeta. by destruct (names _ !! to).
Qed.
Lemma rename_moved c pk name p now r : reg_ok r → filed r → 0 ≤ generation r → generation r + 4 < u64_bound → moved 4 r (rename_channel_name_at c pk name p now r).2.
Proof.
  intros Hok Hf G1 G2. unfold rename_channel_name_at. destruct (negb (writable r)); [by apply moved_refl|]. destruct (normalize_channel_name name) as [normalized|]; [|by apply moved_refl]. cbv zeta.
  destruct (negb _); [by apply moved_refl|]. destruct (bool_decide _); [by apply moved_refl|]. set (id := to_ascii_lowercase c).
  pose proof (reap_candidates_soft normalized id now r Hf ltac:(lia) ltac:(lia)) as S1. destruct (reap_candidates_spec normalized id now r Hok) as (A1 & _). cbv zeta in *. set (r1 := reap_candidates _ _ _ _) in *. clearbody r1.
  destruct (soft_bounds _ _ _ S1) as [F1 B1]. change 4 with (1 + 3). apply (soft_moved _ _ _ r1 _ S1). destruct (held_other _ _ r1) as [from|]; [|apply claim_name_moved; [done|done|lia|lia]].
  destruct (names r1 !! from) as [current|]; [|by apply moved_refl]. destruct (negb _); [by apply moved_refl|]. destruct (_ && _); [by apply moved_refl|]. destruct (_ && _); [by apply moved_refl|].
  assert (∀ r2, filed r2 → 0 ≤ generation r2 → generation r2 + 1 < u64_bound → moved 1 r2 (touch_durable (release_surplus_retired_names id (apply_rename from normalized (strip_invisible name) p now r2)))) as Hgo
    by (intros r2 F2 ? ?; apply touch_durable_moved; [done|apply rename_inner|done|done]).
  destruct (names r1 !! normalized) as [rec|].
  - destruct (_ || _); [by apply moved_refl|]. cbn [snd]. apply (moved_le 1); [lia|]. apply Hgo; [done|lia|lia].
  - destruct (_ <=? _); [|cbn [snd]; apply (moved_le 1); [lia|]; apply Hgo; [done|lia|lia]].
    pose proof (reap_stale_soft now r1 A1 F1 ltac:(lia) ltac:(lia)) as S2. set (r2 := (reap_stale now r1).2) in *. clearbody r2. destruct (soft_bounds _ _ _ S2) as [F2 B2]. change 3 with (1 + 2).
    apply (soft_moved _ _ _ r2 _ S2). destruct (_ <=? _); [by apply moved_refl|]. cbn [snd]. apply (moved_le 1); [lia|]. apply Hgo; [done|lia|lia].
Qed.
Lemma mark_inner l b r : inner r (foldl mark_one (b, r) l).2.
Proof.
  revert b r. induction l as [|x l IH]; intros b r; [done|]. cbn [foldl]. unfold mark_one at 2. cbn [snd]. destruct (names r !! x); [|apply IH]. eapply inner_trans; [|apply IH]. by repeat split.
Qed.
Lemma delete_moved c pk r : reg_ok r → filed r → 0 ≤ generation r → generation r + 1 < u64_bound → moved 1 r (delete_channel c pk r).2.
Proof.
  intros Hok Hf G1 G2. unfold delete_channel. destruct (negb (writable r)); [by apply moved_refl|]. cbv zeta. destruct (existsb _ _); [by apply moved_refl|].
  change (λ acc name, _) with mark_one. set (held := names_of_channel _ r). pose proof (mark_inner held false r) as Hi. destruct (mark_spec held false r) as (_ & _ & _ & _ & _ & A6). cbv zeta in *.
  destruct (foldl mark_one (false, r) held) as [found r'] eqn:Ef. cbn [fst snd] in *.
  assert (found = false → r' = r) as Hsame.
  { intros ->. destruct held as [|n held'] eqn:Eh; [by injection Ef|]. destruct (proj1 (proj2 (ok_channel _ Hok) (to_ascii_lowercase c) n)) as (rec & Hr & _); [fold (names_of_channel (to_ascii_lowercase c) r); fold held; rewrite Eh; left|].
    rewrite (A6 eq_refl n) in Hr by left. done. }
  assert (moved 1 r (touch_durable (on_deleted r' ({[to_ascii_lowercase c]} ∪ deleted r')))) as Hgo by (apply touch_durable_moved; done).
  destruct found; [exact Hgo|]. rewrite (Hsame eq_refl) in *. cbn [negb andb]. destruct (bool_decide _); [by apply moved_refl|]. destruct (_ <=? _); [by apply moved_refl|exact Hgo].
Qed.
Lemma nominate_moved c pk n days r : filed r → 0 ≤ generation r → generation r + 1 < u64_bound → moved 1 r (set_channel_nominee c pk n days r).2.
Proof.
  intros Hf G1 G2. unfold set_channel_nominee. destruct (negb (writable r)); [by apply moved_refl|]. cbv zeta. destruct (negb _ && _); [by apply moved_refl|]. destruct (live_name_of_channel _ r) as [name|]; [|by apply moved_refl].
  destruct (names r !! name) as [rec|]; [|by apply moved_refl]. destruct (negb _); [by apply moved_refl|].
  set (choice := if bool_decide (to_ascii_lowercase n = []) || (days =? 0) then ([], 0) else (to_ascii_lowercase n, days)). destruct choice as [nom d]. destruct (_ && _); [by apply moved_refl|]. by apply touch_durable_moved.
Qed.
Lemma handover_moved old new pk signer now r : filed r → 0 ≤ generation r → generation r + 1 < u64_bound → moved 1 r (handover_channel_name old new pk signer now r).2.
Proof.
  intros Hf G1 G2. unfold handover_channel_name. destruct (negb (writable r)); [by apply moved_refl|]. cbv zeta. destruct (negb (valid_channel _ _)); [by apply moved_refl|]. destruct (bool_decide (_ = _)); [by apply moved_refl|].
  destruct (_ || _); [by apply moved_refl|]. destruct (live_name_of_channel (to_ascii_lowercase new) r) as [held|].
  - destruct (names r !! held) as [rec|]; [|by apply moved_refl]. destruct (negb _); [by apply moved_refl|]. destruct (_ || _); [|by apply moved_refl]. by apply soft_is_moved, touch_soft.
  - destruct (live_name_of_channel (to_ascii_lowercase old) r) as [name|]; [|by apply moved_refl]. destruct (names r !! name) as [rec|]; [|by apply moved_refl]. destruct (_ && _); [by apply moved_refl|]. by apply touch_durable_moved.
Qed.
Lemma step_moved now op r : reg_ok r → filed r → 0 ≤ generation r → generation r + 4 < u64_bound → moved 4 r (reg_step now op r).2.
Proof.
  intros Hok Hf G1 G2. destruct op as [pk name|c pk name p|c pk name p|c pk n days|old new pk signer|c pk| |]; cbn [reg_step snd].
  - by apply claim_username_moved.
  - apply (moved_le 3); [lia|]. apply claim_name_moved; [done|done|lia|lia].
  - by apply rename_moved.
  - apply (moved_le 1); [lia|]. apply nominate_moved; [done|lia|lia].
  - apply (moved_le 1); [lia|]. apply handover_moved; [done|lia|lia].
  - apply (moved_le 1); [lia|]. apply delete_moved; [done|done|lia|lia].
  - apply (moved_le 1); [lia|]. apply soft_is_moved, reap_stale_soft; [done|done|lia|lia].
  - split; [|by left]. destruct Hf. split; [done|done|cbn; lia|done|done].
Qed.
End count.
