(* ===== verification/RegistryDisk.v ===== *)
(** * The channel registry on disk

    [load_registry_file], [atomic_write] and [write_registry] of
    [rendezvous-server/src/registry.rs], with the snapshots taken for them.  A file is
    absent or holds a document; each call of the file system is given its outcome, and a
    write is the list of the disks it passes through, any of which a crash may leave. *)
From S2P Require Import Prelude NodeId Addr MapOrder RoutingQuery Registry RegistrySafety.
Local Open Scope Z_scope.

(** What the registry takes from [serde_json]. *)
Class RegistryJson := {
  doc : Type;
  to_vec : RegistryFile → option doc;
  from_slice : doc → option RegistryFile;
  json_roundtrip : ∀ f d, to_vec f = Some d → from_slice d = Some f;
}.
Section disk.
Context `{Json : RegistryJson}.
Record Disk := mkDisk { tmp_file : option doc; dest_file : option doc; backup_file : option doc }.
(** The results of [read_registry_file]: [Ok(None)], [Ok(Some(file))], [Err]. *)
Inductive reading := Absent | Parsed (f : RegistryFile) | Unreadable.
Definition read_registry_file (readable : bool) (file : option doc) : reading :=
  match file with
  | None => Absent
  | Some d => if readable then match from_slice d with Some f => Parsed f | None => Unreadable end else Unreadable
  end.
(** How the file system answers a load; a failed copy leaves [copy_torn]. *)
Record LoadIo := mkLoadIo { dest_readable : bool; backup_readable : bool; removes : bool; renames : bool; copies : bool; copy_torn : option doc }.
Definition load_registry_file (io : LoadIo) (d : Disk) : RegistryFile * bool * Disk :=
  match read_registry_file (dest_readable io) (dest_file d) with
  | Parsed f => (f, false, if removes io then mkDisk (tmp_file d) (dest_file d) None else d)
  | Absent =>
      match read_registry_file (backup_readable io) (backup_file d) with
      | Absent => (RegistryFile_default, false, d)
      | Parsed f => (f, false, if renames io then mkDisk (tmp_file d) (backup_file d) None else d)
      | Unreadable => (RegistryFile_default, true, d)
      end
  | Unreadable =>
      match read_registry_file (backup_readable io) (backup_file d) with
      | Parsed f => (f, false, mkDisk (tmp_file d) (if copies io then backup_file d else copy_torn io) (backup_file d))
      | Absent | Unreadable => (RegistryFile_default, true, d)
      end
  end.
(** How the file system answers a write; an unfinished temporary file holds [torn]. *)
Record WriteIo := mkWriteIo { written_out : bool; torn : option doc; clears : bool; parks : bool; replaces : bool; restores : bool; cleans : bool }.
Definition atomic_write (windows : bool) (io : WriteIo) (bytes : doc) (d : Disk) : bool * list Disk :=
  let d1 := mkDisk (torn io) (dest_file d) (backup_file d) in
  if negb (written_out io) then (false, [d; d1])
  else
    let d2 := mkDisk (Some bytes) (dest_file d) (backup_file d) in
    if negb windows then (if replaces io then (true, [d; d1; d2; mkDisk None (Some bytes) (backup_file d)]) else (false, [d; d1; d2]))
    else match dest_file d with
    | Some _ =>
        let d3 := if clears io then mkDisk (Some bytes) (dest_file d) None else d2 in
        if negb (parks io) then (false, [d; d1; d2; d3])
        else
          let d4 := mkDisk (Some bytes) None (dest_file d) in
          if replaces io then
            let d5 := mkDisk None (Some bytes) (dest_file d) in
            (true, [d; d1; d2; d3; d4; d5; if cleans io then mkDisk None (Some bytes) None else d5])
          else (false, [d; d1; d2; d3; d4; if restores io then mkDisk (Some bytes) (dest_file d) None else d4])
    | None => if replaces io then (true, [d; d1; d2; mkDisk None (Some bytes) (backup_file d)]) else (false, [d; d1; d2])
    end.
Definition final (d : Disk) (run : bool * list Disk) : Disk := default d (last run.2).
(** The gate drops a snapshot older than the one on disk; returns the outcome, the gate,
    and the disks. *)
Definition write_registry (windows : bool) (io : WriteIo) (ticket : Z) (bytes : doc) (gate : Z) (d : Disk) : bool * Z * Disk :=
  if ticket <=? gate then (true, gate, d)
  else let run := atomic_write windows io bytes d in if run.1 then (true, ticket, final d run) else (false, gate, final d run).
Record PersistJob := mkJob { job_ticket : Z; job_generation : Z; job_bytes : doc }.
Definition with_dirty (b : bool) (r : ChannelRegistry) : ChannelRegistry :=
  mkRegistry (has_path r) (usernames r) (by_pubkey r) (names r) (deleted r) (username_activity r) (by_channel r) (by_skeleton r) b (generation r) (durable_generation r) (read_only r) (closed r).
Definition take_persist_job (next : Z) (r : ChannelRegistry) : option PersistJob * Z * ChannelRegistry :=
  if read_only r || negb (has_path r) || negb (dirty r) then (None, next, r)
  else match to_vec (snapshot r) with
       | None => (None, next, with_dirty true r)
       | Some bytes => (Some (mkJob (next + 1) (generation r) bytes), next + 1, with_dirty false r)
       end.

(** ** Crashes *)

(** The registry on disk is [f]: at its place, or in the backup while its place is empty;
    with neither there is none yet. *)
Inductive stored (d : Disk) (f : RegistryFile) : Prop :=
  | stored_dest x : dest_file d = Some x → from_slice x = Some f → stored d f
  | stored_backup x : dest_file d = None → backup_file d = Some x → from_slice x = Some f → stored d f
  | stored_none : dest_file d = None → backup_file d = None → f = RegistryFile_default → stored d f.
(** A load whose reads succeed finds it, writable, and leaves it stored. *)
Lemma load_stored io d f : dest_readable io = true → backup_readable io = true → stored d f →
  let '(g, ro, d') := load_registry_file io d in g = f ∧ ro = false ∧ stored d' f.
Proof.
  intros H1 H2 [x E F|x E B F|E B ->]; unfold load_registry_file; rewrite H1, H2, E; cbn [read_registry_file].
  - rewrite F. split; [done|]. split; [done|]. destruct (removes io); by eapply stored_dest.
  - rewrite B. cbn [read_registry_file]. rewrite F. split; [done|]. split; [done|]. destruct (renames io); [by eapply stored_dest|by eapply stored_backup].
  - rewrite B. cbn [read_registry_file]. split; [done|]. split; [done|]. by apply stored_none.
Qed.
Lemma stored_tmp t d f : stored d f → stored (mkDisk t (dest_file d) (backup_file d)) f.
Proof. intros [x E F|x E B F|E B F]; [by eapply stored_dest|by eapply stored_backup|by apply stored_none]. Qed.
(** Each disk of a list, one at a time. *)
Ltac each_disk H := apply H; repeat (apply Forall_cons_2; [solve [eauto]|]); apply Forall_nil_2.
Lemma atomic_write_stored windows io bytes d f g : stored d f → from_slice bytes = Some g →
  let run := atomic_write windows io bytes d in
  (∀ d', d' ∈ run.2 → stored d' f ∨ stored d' g) ∧ stored (final d run) (if run.1 then g else f).
Proof.
  intros Hd Hg. assert (∀ t, stored (mkDisk t (dest_file d) (backup_file d)) f) as Hf by (intros t; by apply stored_tmp).
  assert (∀ t b, stored (mkDisk t (Some bytes) b) g) as Hn by (intros t b; by eapply stored_dest). unfold atomic_write. cbv zeta.
  assert (∀ l, Forall (λ d', stored d' f ∨ stored d' g) l ↔ ∀ d', d' ∈ l → stored d' f ∨ stored d' g) as Hl by (intros l; by rewrite Forall_forall).
  destruct (written_out io); cbn [negb]; [|split; [each_disk Hl|apply Hf]].
  destruct windows; cbn [negb].
  2: { destruct (replaces io); (split; [each_disk Hl|]); [apply Hn|apply Hf]. }
  destruct (dest_file d) as [x|] eqn:E; [|destruct (replaces io); (split; [each_disk Hl|]); [apply Hn|apply Hf]].
  assert (from_slice x = Some f) as Fx by (destruct Hd; congruence). assert (∀ t b, stored (mkDisk t (Some x) b) f) as Hx by (intros t b; by eapply stored_dest).
  assert (∀ t, stored (mkDisk t None (Some x)) f) as Hb by (intros t; by eapply stored_backup).
  destruct (clears io), (parks io), (replaces io), (cleans io), (restores io); cbn [negb]; (split; [each_disk Hl|]); cbn [final last from_option Datatypes.id fst snd]; eauto.
Qed.
End disk.
