(* ===== verification/RegistryPersist.v ===== *)
(** * The channel registry: writes in flight

    Snapshots are taken under the registry's lock and written by tasks that finish in any
    order; a handler answers once the generation it waits for has been published
    ([write_persist_job], [flush_channels_registry], [acknowledge_registry_write] of
    [rendezvous-server/src/main.rs]).  What an answer promises holds through a crash at
    any moment. *)
From S2P Require Import Prelude NodeId Addr MapOrder RoutingQuery Registry RegistryInv RegistrySteps RegistrySafety RegistryCount RegistryDisk.
Local Open Scope Z_scope.

Section persist.
Context `{Txt : RegistryText, Ord : MapOrder, Uns : UnstableSlice, Json : RegistryJson}.
Record Server := mkServer {
  registry : ChannelRegistry;
  next_ticket : Z;
  gate_written : Z;
  jobs : list PersistJob;
  landed : list Z;
  persisted : Z;
  on_disk : Disk;
}.
Inductive srv_event :=
  | EvWrite (now : Z) (op : reg_op)
  | EvFlush
  | EvJob (i : nat) (io : WriteIo)
  | EvPublish (i : nat).
(** A job writes its snapshot; a failure marks the registry dirty again. *)
Definition run_job (windows : bool) (io : WriteIo) (i : nat) (s : Server) : Server :=
  match jobs s !! i with
  | None => s
  | Some j =>
      let '(ok, gate, d) := write_registry windows io (job_ticket j) (job_bytes j) (gate_written s) (on_disk s) in
      mkServer (if ok then registry s else with_dirty true (registry s)) (next_ticket s) gate (delete i (jobs s)) (if ok then job_generation j :: landed s else landed s) (persisted s) d
  end.
Definition srv_step (windows : bool) (ev : srv_event) (s : Server) : Server :=
  match ev with
  | EvWrite now op => mkServer (reg_step now op (registry s)).2 (next_ticket s) (gate_written s) (jobs s) (landed s) (persisted s) (on_disk s)
  | EvFlush =>
      let '(job, next, r) := take_persist_job (next_ticket s) (registry s) in
      mkServer r next (gate_written s) (match job with Some j => jobs s ++ [j] | None => jobs s end) (landed s) (persisted s) (on_disk s)
  | EvJob i io => run_job windows io i s
  | EvPublish i =>
      match landed s !! i with
      | Some g => mkServer (registry s) (next_ticket s) (gate_written s) (jobs s) (delete i (landed s)) (Z.max (persisted s) g) (on_disk s)
      | None => s
      end
  end.
(** The answer to a write: at once, or when its generation has been published. *)
Definition acknowledged (s : Server) (durable : Z) : bool := durable <=? persisted s.
(** A server over its registry as read from disk, and the registries it has been through,
    the first first. *)
Definition srv_start (r : ChannelRegistry) (d : Disk) : Server := mkServer r 0 0 [] [] 0 d.
Inductive srv_reach (windows : bool) : list ChannelRegistry → Server → Prop :=
  | srv_begin now r d : reg_reach r → stored d (snapshot r) → srv_reach windows [load_registry now (snapshot r) false] (srv_start (load_registry now (snapshot r) false) d)
  | srv_write now op log s : 0 < now → generation (registry s) + 4 < u64_bound → srv_reach windows log s →
      srv_reach windows (log ++ [(reg_step now op (registry s)).2]) (srv_step windows (EvWrite now op) s)
  | srv_flush log s : next_ticket s + 1 < u64_bound → srv_reach windows log s → srv_reach windows log (srv_step windows EvFlush s)
  | srv_job i io log s : srv_reach windows log s → srv_reach windows log (srv_step windows (EvJob i io) s)
  | srv_publish i log s : srv_reach windows log s → srv_reach windows log (srv_step windows (EvPublish i) s).
(** The disk as it is, or as a job about to write would leave it when cut short. *)
Inductive crash_disk (windows : bool) (s : Server) : Disk → Prop :=
  | crash_idle : crash_disk windows s (on_disk s)
  | crash_job j io d : j ∈ jobs s → gate_written s < job_ticket j → d ∈ (atomic_write windows io (job_bytes j) (on_disk s)).2 → crash_disk windows s d.

(** ** The invariant *)
Definition looks_like (r r' : ChannelRegistry) : Prop := snapshot r' = snapshot r ∧ generation r' = generation r ∧ durable_generation r' = durable_generation r.
Record log_ok (log : list ChannelRegistry) : Prop := mkLogOk {
  lg_ok : ∀ k r, log !! k = Some r → reg_ok r ∧ filed r ∧ 0 ≤ generation r;
  lg_order : ∀ k l r r', log !! k = Some r → log !! l = Some r' → (k ≤ l)%nat → generation r ≤ generation r' ∧ (generation r = generation r' → snapshot r = snapshot r') ∧ deleted r ⊆ deleted r';
  lg_durable : ∀ k r, log !! k = Some r → ∃ i ri, (i ≤ k)%nat ∧ log !! i = Some ri ∧ generation ri = durable_generation r ∧ deleted ri = deleted r;
}.
Definition in_log (log : list ChannelRegistry) (g : Z) (f : RegistryFile) : Prop := ∃ k r, log !! k = Some r ∧ generation r = g ∧ snapshot r = f.
Record srv_ok (log : list ChannelRegistry) (s : Server) : Prop := mkSrvOk {
  sv_log : log_ok log;
  sv_last : ∃ r, last log = Some r ∧ looks_like r (registry s) ∧ reg_ok (registry s) ∧ filed (registry s);
  sv_jobs : ∀ j, j ∈ jobs s → 0 < job_ticket j ≤ next_ticket s ∧ job_generation j ≤ generation (registry s) ∧ ∃ f, from_slice (job_bytes j) = Some f ∧ in_log log (job_generation j) f;
  sv_order : ∀ j j', j ∈ jobs s → j' ∈ jobs s → job_ticket j ≤ job_ticket j' → job_generation j ≤ job_generation j';
  sv_disk : ∃ g f, stored (on_disk s) f ∧ in_log log g f ∧ g ≤ generation (registry s) ∧ persisted s ≤ g ∧ (∀ x, x ∈ landed s → x ≤ g) ∧
    (∀ j, j ∈ jobs s → job_ticket j ≤ gate_written s → job_generation j ≤ g) ∧ (∀ j, j ∈ jobs s → gate_written s < job_ticket j → g ≤ job_generation j) ∧
    (dirty (registry s) = false → g = generation (registry s) ∨ ∃ j, j ∈ jobs s ∧ gate_written s < job_ticket j ∧ job_generation j = generation (registry s));
  sv_gate : 0 ≤ gate_written s ≤ next_ticket s;
}.
Lemma snapshot_deleted r r' : snapshot r = snapshot r' → deleted r = deleted r'.
Proof. intros H. by apply snapshot_parts in H as [_ ?]. Qed.
Lemma last_index {A} (l : list A) x : last l = Some x → ∃ k, l !! k = Some x ∧ length l = S k.
Proof. intros H. rewrite last_lookup in H. destruct l as [|y l]; [done|]. exists (pred (length (y :: l))). by split. Qed.
Lemma log_snoc log r r0 r' : log_ok log → last log = Some r → looks_like r r0 → moved 4 r0 r' → reg_ok r' → deleted r0 ⊆ deleted r' → log_ok (log ++ [r']).
Proof.
  intros [H1 H2 H3] (n & Hn & Hlen)%last_index (L1 & L2 & L3) [[A1 A2 A3 A4 _] Hd] Hok Hsub. pose proof (snapshot_deleted _ _ L1) as L4. destruct (H1 n r Hn) as (_ & _ & G0).
  assert (∀ k x, (log ++ [r']) !! k = Some x → log !! k = Some x ∨ k = length log ∧ x = r') as Hsplit.
  { intros k x [?|[Hk [Hz Hx]%list_lookup_singleton_Some]]%lookup_app_Some; [by left|right]. split; [lia|done]. }
  assert (∀ k x, log !! k = Some x → generation x ≤ generation r' ∧ (generation x = generation r' → snapshot x = snapshot r') ∧ deleted x ⊆ deleted r') as Hlast.
  { intros k x Hk. pose proof (lookup_lt_Some _ _ _ Hk). destruct (H2 k n x r Hk Hn ltac:(lia)) as (B1 & B2 & B3). split; [lia|]. split; [|set_solver].
    intros E. destruct (A4 ltac:(lia)) as [-> _]. rewrite L1. apply B2. lia. }
  split.
  - intros k x [Hk|[_ ->]]%Hsplit; [by apply (H1 k)|]. split; [done|]. split; [done|lia].
  - intros k l x y [Hk|[-> ->]]%Hsplit [Hl|[-> ->]]%Hsplit Hle; [by apply (H2 k l)|by apply (Hlast k)|apply lookup_lt_Some in Hl; lia|done].
  - intros k x [Hk|[-> ->]]%Hsplit.
    + destruct (H3 k x Hk) as (i & ri & ? & ? & ?). exists i, ri. split; [done|]. split; [by apply lookup_app_l_Some|done].
    + destruct Hd as [[D1 D2]|D1]; [|exists (length log), r'; split; [done|]; split; [by rewrite lookup_app_r, Nat.sub_diag by lia|done]].
      destruct (H3 n r Hn) as (i & ri & Hi & Hri & E1 & E2). exists i, ri. split; [lia|]. split; [by apply lookup_app_l_Some|]. split; [congruence|]. rewrite E2, D2. by symmetry.
Qed.
Lemma in_log_snoc log r' g f : in_log log g f → in_log (log ++ [r']) g f.
Proof. intros (k & r & Hk & H). exists k, r. split; [by apply lookup_app_l_Some|done]. Qed.
Lemma begin_ok now r d : reg_reach r → stored d (snapshot r) → srv_ok [load_registry now (snapshot r) false] (srv_start (load_registry now (snapshot r) false) d).
Proof.
  intros Hr%registry_reach_ok Hd. destruct (load_snapshot r now Hr) as (A1 & A2 & A3 & A4 & A5 & A6 & A7). cbv zeta in *.
  assert (filed (load_registry now (snapshot r) false)) as Hf by (split; [done|]; unfold writable in A3; by apply negb_true_iff, orb_false_iff in A3 as [? _]). set (r0 := load_registry now (snapshot r) false) in *. clearbody r0.
  assert (∀ k x, [r0] !! k = Some x → k = 0%nat ∧ x = r0) as H0 by (intros k x [? ?]%list_lookup_singleton_Some; by split).
  split; cbn [srv_start registry jobs on_disk persisted landed gate_written next_ticket].
  - split; [intros k x [-> ->]%H0; split; [done|]; split; [done|lia]|by intros k l x y [-> ->]%H0 [-> ->]%H0|]. intros k x [-> ->]%H0. exists 0%nat, r0. split; [done|]. split; [done|]. split; [lia|done].
  - exists r0. by split.
  - by intros j ?%elem_of_nil.
  - by intros j j' ?%elem_of_nil.
  - exists 0, (snapshot r). split; [done|]. split; [exists 0%nat, r0; by repeat split|]. split; [lia|]. split; [lia|]. split; [by intros x ?%elem_of_nil|]. split; [by intros j ?%elem_of_nil|]. split; [by intros j ?%elem_of_nil|]. intros _. left. lia.
  - lia.
Qed.
Lemma srv_write_ok windows now op log s : 0 < now → generation (registry s) + 4 < u64_bound → srv_ok log s → srv_ok (log ++ [(reg_step now op (registry s)).2]) (srv_step windows (EvWrite now op) s).
Proof.
  intros Hnow Hg [H1 (r & Hr & Hlk & Hok & Hf) H3 H4 (g & f & D1 & D2 & D3 & D4 & D5 & D6 & D7 & D8) H6]. cbn [srv_step].
  assert (0 ≤ generation (registry s)) as G0. { destruct (last_index _ _ Hr) as (n & Hn & _). destruct (lg_ok _ H1 n r Hn) as (_ & _ & ?), Hlk as (_ & -> & _). done. }
  destruct (step_good now op (registry s) Hnow Hok) as [B1 _ B3 _]. pose proof (step_moved now op (registry s) Hok Hf G0 Hg) as Hm. set (r' := (reg_step now op (registry s)).2) in *. clearbody r'. pose proof Hm as [[M1 M2 M3 M4 M5] _].
  split; cbn [registry jobs on_disk persisted landed gate_written next_ticket]; [by apply (log_snoc log r (registry s))| | |done| |done].
  - exists r'. split; [apply last_snoc|]. split; [done|]. split; [done|]. by split.
  - intros j Hj. destruct (H3 j Hj) as (? & ? & f' & ? & ?). split; [done|]. split; [lia|]. exists f'. split; [done|by apply in_log_snoc].
  - exists g, f. split; [done|]. split; [by apply in_log_snoc|]. split; [lia|]. split; [done|]. split; [done|]. split; [done|]. split; [done|]. intros E.
    destruct (decide (generation r' = generation (registry s))) as [Eg|Eg]; [|rewrite (M5 Eg) in E; done]. rewrite Eg. apply D8. destruct (M4 Eg) as [_ Ed]. congruence.
Qed.
Lemma flush_ok windows log s : srv_ok log s → srv_ok log (srv_step windows EvFlush s).
Proof.
  intros Hs. pose proof Hs as [H1 (r & Hr & Hlk & Hok & Hf) H3 H4 (g & f & D1 & D2 & D3 & D4 & D5 & D6 & D7 & D8) H6]. cbn [srv_step]. unfold take_persist_job.
  assert (∀ b, looks_like r (with_dirty b (registry s)) ∧ reg_ok (with_dirty b (registry s)) ∧ filed (with_dirty b (registry s))) as Hw.
  { intros b. split; [exact Hlk|]. split; [|exact Hf]. by apply (reg_ok_ext (registry s)). }
  destruct (read_only (registry s) || negb (has_path (registry s)) || negb (dirty (registry s))); [by destruct s|]. destruct (to_vec (snapshot (registry s))) as [bytes|] eqn:Eb.
  2: { split; cbn [registry jobs on_disk persisted landed gate_written next_ticket]; [done|exists r; by split|done|done| |done]. exists g, f. do 7 (split; [done|]). done. }
  set (j0 := mkJob _ _ _). assert (∀ j, j ∈ jobs s ++ [j0] → j ∈ jobs s ∨ j = j0) as Hin by (intros j; rewrite elem_of_app, list_elem_of_singleton; done).
  assert (∀ j, j ∈ jobs s → job_ticket j < job_ticket j0 ∧ job_generation j ≤ job_generation j0) as Hold by (intros j Hj; destruct (H3 j Hj) as (? & ? & _); cbn; lia).
  split; cbn [registry jobs on_disk persisted landed gate_written next_ticket]; [done|exists r; by split|..].
  - intros j [Hj| ->]%Hin; [destruct (H3 j Hj) as (? & ? & ?); split; [lia|done]|]. split; [cbn; lia|]. split; [cbn; lia|]. exists (snapshot (registry s)). split; [by apply json_roundtrip|].
    destruct (last_index _ _ Hr) as (n & Hn & _). exists n, r. split; [done|]. destruct Hlk as (? & ? & _). done.
  - intros j j' [Hj| ->]%Hin [Hj'| ->]%Hin Ht; [by apply H4|by apply Hold| |done]. destruct (Hold j' Hj'). lia.
  - exists g, f. do 5 (split; [done|]). split; [|split].
    + intros j [Hj| ->]%Hin Ht; [by apply D6|]. cbn in Ht. lia.
    + intros j [Hj| ->]%Hin Ht; [by apply D7|]. done.
    + intros _. right. exists j0. split; [rewrite elem_of_app; right; by apply list_elem_of_singleton|]. split; [cbn; lia|done].
  - lia.
Qed.
Lemma publish_ok windows i log s : srv_ok log s → srv_ok log (srv_step windows (EvPublish i) s).
Proof.
  intros Hs. cbn [srv_step]. destruct (landed s !! i) as [x|] eqn:E; [|done]. destruct Hs as [H1 H2 H3 H4 (g & f & D1 & D2 & D3 & D4 & D5 & D6 & D7 & D8) H6].
  split; cbn [registry jobs on_disk persisted landed gate_written next_ticket]; [done..| |done]. exists g, f. do 3 (split; [done|]). pose proof (D5 x (list_elem_of_lookup_2 _ _ _ E)). split; [lia|].
  split; [|done]. intros y Hy. apply D5. rewrite (delete_Permutation _ _ _ E). by right.
Qed.
Lemma job_ok windows i io log s : srv_ok log s → srv_ok log (srv_step windows (EvJob i io) s).
Proof.
  intros Hs. cbn [srv_step]. unfold run_job. destruct (jobs s !! i) as [j|] eqn:E; [|done]. destruct Hs as [H1 H2 H3 H4 (g & f & D1 & D2 & D3 & D4 & D5 & D6 & D7 & D8) H6].
  assert (∀ x, x ∈ jobs s ↔ x = j ∨ x ∈ delete i (jobs s)) as Hin by (intros x; rewrite (delete_Permutation _ _ _ E) at 1; apply elem_of_cons).
  assert (∀ x, x ∈ delete i (jobs s) → x ∈ jobs s) as Hsub by (intros x Hx; apply Hin; by right). assert (j ∈ jobs s) as Hj by (apply Hin; by left).
  destruct (H3 j Hj) as (Ht & Hgj & fj & Hfj & Hlj). unfold write_registry. destruct (Z.leb_spec (job_ticket j) (gate_written s)) as [Hle|Hgt].
  - split; cbn [registry jobs on_disk persisted landed gate_written next_ticket]; [done|done|intros x Hx; by apply H3, Hsub|intros x y Hx Hy; by apply H4; apply Hsub| |done].
    exists g, f. do 4 (split; [done|]). split; [intros x [->|Hx]%elem_of_cons; [by apply D6|by apply D5]|]. split; [intros x Hx; by apply D6, Hsub|]. split; [intros x Hx; by apply D7, Hsub|].
    intros Hd. destruct (D8 Hd) as [?|(x & Hx & Hxt & Hxg)]; [by left|right]. exists x. apply Hin in Hx as [->|Hx]; [lia|done].
  - destruct (atomic_write_stored windows io (job_bytes j) (on_disk s) f fj D1 Hfj) as [_ Hfin]. cbv zeta in *. set (run := atomic_write _ _ _ _) in *. destruct run.1.
    + split; cbn [registry jobs on_disk persisted landed gate_written next_ticket]; [done|done|intros x Hx; by apply H3, Hsub|intros x y Hx Hy; by apply H4; apply Hsub| |lia].
      pose proof (D7 j Hj Hgt) as Hup. exists (job_generation j), fj. split; [done|]. split; [done|]. split; [done|]. split; [lia|].
      split; [intros x [->|Hx]%elem_of_cons; [lia|]; specialize (D5 x Hx); lia|]. split; [intros x Hx ?; by apply H4; [apply Hsub|..]|]. split; [intros x Hx ?; apply H4; [done|by apply Hsub|lia]|].
      intros Hd. destruct (D8 Hd) as [?|(x & Hx & Hxt & Hxg)]; [left; lia|]. pose proof Hx as [->|Hx']%Hin; [left; lia|]. destruct (Z.leb_spec (job_ticket x) (job_ticket j)) as [Hc|Hc]; [left|right; by exists x].
      pose proof (H4 x j Hx Hj Hc). lia.
    + destruct H2 as (r & Hr & Hlk & Hok & Hf).
      split; cbn [registry jobs on_disk persisted landed gate_written next_ticket]; [done| |intros x Hx; by apply H3, Hsub|intros x y Hx Hy; by apply H4; apply Hsub| |done].
      * exists r. split; [done|]. split; [exact Hlk|]. split; [by apply (reg_ok_ext (registry s))|exact Hf].
      * exists g, f. do 5 (split; [done|]). split; [intros x Hx; by apply D6, Hsub|]. split; [intros x Hx; by apply D7, Hsub|done].
Qed.
Lemma srv_reach_ok windows log s : srv_reach windows log s → srv_ok log s.
Proof. induction 1 as [now r d|now op log s|log s|i io log s|i log s]; [by apply begin_ok|by apply srv_write_ok|by apply flush_ok|by apply job_ok|by apply publish_ok]. Qed.

(** ** What an answer promises *)
Lemma crash_content windows log s d : srv_ok log s → crash_disk windows s d → ∃ g f, stored d f ∧ in_log log g f ∧ persisted s ≤ g.
Proof.
  intros [_ _ H3 _ (g & f & D1 & D2 & D3 & D4 & D5 & D6 & D7 & _) _] [|j io d' Hj Ht Hd]; [by exists g, f|]. destruct (H3 j Hj) as (_ & _ & fj & Hfj & Hlj).
  destruct (atomic_write_stored windows io (job_bytes j) (on_disk s) f fj D1 Hfj) as [Hp _]. cbv zeta in Hp. destruct (Hp d' Hd); [by exists g, f|]. exists (job_generation j), fj. split; [done|]. split; [done|]. specialize (D7 j Hj Ht). lia.
Qed.
(** The last state that somebody waited for is on disk, or a later one. *)
Lemma durable_on_disk log g f k r : log_ok log → in_log log g f → durable_generation r ≤ g → log !! k = Some r →
  ∃ i ri m rm, (i ≤ k)%nat ∧ log !! i = Some ri ∧ generation ri = durable_generation r ∧ log !! m = Some rm ∧ f = snapshot rm ∧ ((i ≤ m)%nat ∨ snapshot rm = snapshot ri) ∧ deleted r ⊆ deleted rm.
Proof.
  intros [H1 H2 H3] (m & rm & Hm & Hg & Hf) Hle Hk. destruct (H3 k r Hk) as (i & ri & Hik & Hri & Ei & Edel). exists i, ri, m, rm. split; [done|]. split; [done|]. split; [done|]. split; [done|]. split; [done|].
  destruct (decide (i ≤ m)%nat) as [Him|Him]; [destruct (H2 i m ri rm Hri Hm Him) as (_ & _ & Hs); split; [by left|by rewrite <- Edel]|].
  destruct (H2 m i rm ri Hm Hri ltac:(lia)) as (Hge & Hsame & _). pose proof (Hsame ltac:(lia)) as Hs. split; [by right|]. rewrite (snapshot_deleted _ _ Hs), Edel. done.
Qed.
(** C6: once a write has been answered, that is, the generation it waits for has been
    published, a crash at any moment, in the middle of another write too, leaves a disk from
    which the next start, its reads succeeding, gets a writable registry: the state of the
    last durable change up to that write, or a later one; every room tombstoned by then is
    still tombstoned. *)
Theorem acknowledged_writes_survive windows log s k r d io now :
  srv_reach windows log s → log !! k = Some r → acknowledged s (durable_generation r) = true → crash_disk windows s d → dest_readable io = true → backup_readable io = true →
  let '(f, ro, d') := load_registry_file io d in
  ro = false ∧ stored d' f ∧
  (∃ i ri m rm, (i ≤ k)%nat ∧ log !! i = Some ri ∧ generation ri = durable_generation r ∧ log !! m = Some rm ∧ f = snapshot rm ∧ ((i ≤ m)%nat ∨ snapshot rm = snapshot ri)) ∧
  ∀ c, to_ascii_lowercase c ∈ deleted r → is_deleted c (load_registry now f false) = true.
Proof.
  intros Hs%srv_reach_ok Hk Hack%Z.leb_le Hd H1 H2. destruct (crash_content windows log s d Hs Hd) as (g & f & A1 & A2 & A3). pose proof (load_stored io d f H1 H2 A1) as Hl.
  destruct (load_registry_file io d) as [[f' ro] d']. destruct Hl as (-> & -> & Hst). split; [done|]. split; [done|].
  destruct (durable_on_disk log g f k r (sv_log _ _ Hs) A2 ltac:(lia) Hk) as (i & ri & m & rm & B1 & B2 & B3 & B4 & -> & B6 & B7). split; [by exists i, ri, m, rm|].
  intros c Hc. destruct (load_snapshot rm now) as (_ & C2 & _); [by apply (lg_ok _ (sv_log _ _ Hs) m)|]. cbv zeta in C2. unfold is_deleted. apply orb_true_iff. left. apply bool_decide_eq_true.
  rewrite (snapshot_deleted _ _ C2). set_solver.
Qed.
(** Snapshots written by many tasks, in any order and with failures: when the registry is
    not dirty and no write is in flight, what is on disk is the registry. *)
Theorem clean_registry_is_on_disk windows log s io :
  srv_reach windows log s → dirty (registry s) = false → jobs s = [] → dest_readable io = true → backup_readable io = true →
  let '(f, ro, _) := load_registry_file io (on_disk s) in f = snapshot (registry s) ∧ ro = false.
Proof.
  intros Hs%srv_reach_ok Hd Hj H1 H2. destruct Hs as [Hlog (r & Hr & (L1 & L2 & _) & _) _ _ (g & f & D1 & (m & rm & Hm & Hg & Hf) & _ & _ & _ & _ & _ & D8) _].
  pose proof (load_stored io (on_disk s) f H1 H2 D1) as Hl. destruct (load_registry_file io (on_disk s)) as [[f' ro] d']. destruct Hl as (-> & -> & _). split; [|done].
  destruct (D8 Hd) as [Eg|(j & Hin & _)]; [|rewrite Hj in Hin; by apply elem_of_nil in Hin]. destruct (last_index _ _ Hr) as (n & Hn & Hlen). pose proof (lookup_lt_Some _ _ _ Hm).
  destruct (lg_order _ Hlog m n rm r Hm Hn ltac:(lia)) as (_ & Hsame & _). rewrite L1, <- Hf. apply Hsame. lia.
Qed.
End persist.

(** ** Concrete disks *)

(** A document is a file or garbage. *)
#[local] Instance PlainJson : RegistryJson.
Proof. refine {| doc := option RegistryFile; to_vec := λ f, Some (Some f); from_slice := λ d, d |}. by intros f d [= <-]. Defined.
#[local] Instance PlainText : RegistryText :=
  {| to_lowercase := to_ascii_lowercase; skeleton := λ s, s; hex_decode := λ s, Some (replicate (length s / 2) 0); hex_encode := λ l, l; blake3_hash := λ l, l |}.
Definition smooth : WriteIo := mkWriteIo true None true true true true true.
Definition readable : LoadIo := mkLoadIo true true true true true None.
Definition fresh : ChannelRegistry := load_registry 1 (snapshot in_memory) false.
Definition gone_room : str := replicate 32 97.
Definition after_delete : ChannelRegistry := (reg_step 10 (DeleteChannel gone_room []) fresh).2.
Definition served : Server :=
  srv_step true (EvPublish 0) (srv_step true (EvJob 0 smooth) (srv_step true EvFlush (srv_step true (EvWrite 10 (DeleteChannel gone_room [])) (srv_start fresh (mkDisk None None None))))).
Lemma served_reach : srv_reach true [fresh; after_delete] served.
Proof.
  apply srv_publish, srv_job, srv_flush; [vm_compute; reflexivity|]. apply (srv_write true 10 (DeleteChannel gone_room []) [fresh] (srv_start fresh (mkDisk None None None))); [lia|vm_compute; reflexivity|].
  apply srv_begin; [apply reach_memory|]. apply stored_none; [done|done|]. vm_compute. reflexivity.
Qed.
Lemma acknowledged_writes_survive_witness :
  acknowledged served (durable_generation after_delete) = true ∧ let '(f, ro, _) := load_registry_file readable (on_disk served) in ro = false ∧ is_deleted gone_room (load_registry 20 f false) = true.
Proof.
  split; [vm_compute; reflexivity|].
  assert (let '(f, ro, d') := load_registry_file readable (on_disk served) in ro = false ∧ stored d' f ∧
    (∃ i ri m rm, (i ≤ 1)%nat ∧ [fresh; after_delete] !! i = Some ri ∧ generation ri = durable_generation after_delete ∧ [fresh; after_delete] !! m = Some rm ∧ f = snapshot rm ∧ ((i ≤ m)%nat ∨ snapshot rm = snapshot ri)) ∧
    ∀ c, to_ascii_lowercase c ∈ deleted after_delete → is_deleted c (load_registry 20 f false) = true) as H.
  { refine (acknowledged_writes_survive true [fresh; after_delete] served 1 after_delete (on_disk served) readable 20 served_reach eq_refl _ (crash_idle true served) eq_refl eq_refl). vm_compute. reflexivity. }
  destruct (load_registry_file readable (on_disk served)) as [[f ro] d']. destruct H as (H1 & _ & _ & H4). split; [exact H1|]. apply H4. apply (bool_decide_unpack _). vm_compute. exact I.
Defined.
Lemma clean_registry_is_on_disk_witness :
  let '(f, ro, _) := load_registry_file readable (on_disk served) in f = snapshot (registry served) ∧ ro = false.
Proof. refine (clean_registry_is_on_disk true [fresh; after_delete] served readable served_reach _ _ eq_refl eq_refl); vm_compute; reflexivity. Defined.
(** A bad file and a good backup: when the copy that should repair the file fails, the next
    write on Windows removes the backup before it parks the bad file, and if the last rename
    fails too neither holds the registry. *)
Example failed_repair_loses_backup :
  let good := snapshot after_delete in let d := mkDisk None (Some None) (Some (Some good)) in
  let '(f, ro, d1) := load_registry_file (mkLoadIo true true true true false (Some None)) d in
  f = good ∧ ro = false ∧
  let run := atomic_write true (mkWriteIo true None true true false true true) (Some good) d1 in
  run.1 = false ∧ load_registry_file readable (final d1 run) = (RegistryFile_default, true, final d1 run).
Proof. vm_compute. repeat split. Qed.
