(* ===== verification/RegistryDirectory.v ===== *)
(** * The public directory of the channel registry

    [ranked_directory] and [directory_page_at] of [rendezvous-server/src/registry.rs]: the
    listed rooms by seniority, and the pages a client follows by cursor.  The ranking is
    the one the page is cut from; the cache that holds it and the text form of a cursor
    are left out. *)
From S2P Require Import Prelude NodeId Addr MapOrder RoutingQuery GapList Registry RegistryInv RegistrySteps RegistrySafety.
Local Open Scope Z_scope.

Definition MAX_DIRECTORY_LISTINGS : nat := Z.to_nat 5000.
Local Opaque MAX_DIRECTORY_LISTINGS.
Record DirectoryListing := mkListing { l_channel : str; l_pubkey : str; l_name : str }.
Record DirectoryCursor := mkCursor { cur_created : Z; cur_channel : str }.
Notation ranked := (DirectoryCursor * DirectoryListing)%type.
Definition cursor_le (a b : DirectoryCursor) : bool := bytes_le (cur_created a :: cur_channel a) (cur_created b :: cur_channel b).
Definition seniority_le (a b : ranked) : bool := cursor_le a.1 b.1.
Definition listed (now : Z) (r : ChannelRegistry) (rec : ChannelNameRecord) : bool :=
  negb (private rec) && is_current rec && negb (bool_decide (channel_id rec ∈ deleted r)) && (i64_saturating_sub now (refreshed_at rec) <=? CHANNEL_DIRECTORY_STALE_SECS).
Definition ranked_entry (kv : str * ChannelNameRecord) : ranked :=
  (mkCursor (Z.max (created_at kv.2) 0) (to_ascii_lowercase (channel_id kv.2)),
   mkListing (channel_id kv.2) (pubkey kv.2) (if bool_decide (display kv.2 = []) then kv.1 else display kv.2)).
(** A page after [cursor], and the cursor of the next. *)
Definition directory_page (entries : list ranked) (cursor : option DirectoryCursor) (limit : nat) : list DirectoryListing * option DirectoryCursor :=
  let start := match cursor with Some c => partition_point (λ e : ranked, cursor_le e.1 c) entries | None => 0%nat end in
  let stop := Nat.min (start + Nat.max limit 1) (length entries) in
  let page := take (stop - Nat.min start stop) (drop (Nat.min start stop) entries) in
  (page.*2, if decide (stop < length entries)%nat then fst <$> last page else None).
(** What a client collects that follows the cursors. *)
Fixpoint follow (fuel : nat) (entries : list ranked) (cursor : option DirectoryCursor) (limit : nat) : list DirectoryListing :=
  let '(page, next) := directory_page entries cursor limit in
  match next, fuel with Some c, S fuel => page ++ follow fuel entries (Some c) limit | _, _ => page end.
Section directory.
Context `{Txt : RegistryText, Ord : MapOrder, Uns : UnstableSlice}.
Definition ranked_directory (now : Z) (r : ChannelRegistry) : list ranked :=
  let out := ranked_entry <$> retain (λ kv, listed now r kv.2) (map_iter (names r)) in
  let out := if decide (MAX_DIRECTORY_LISTINGS < length out)%nat then take MAX_DIRECTORY_LISTINGS (select_nth seniority_le (MAX_DIRECTORY_LISTINGS - 1) out) else out in
  sort_unstable seniority_le out.

(** ** Pages *)
Definition ranking (entries : list ranked) : Prop := StronglySorted (λ a b, seniority_le a b = true) entries ∧ NoDup entries.*1.
Lemma cursor_le_antisym a b : cursor_le a b = true → cursor_le b a = true → a = b.
Proof. intros H1 H2. pose proof (bytes_le_antisym _ _ H1 H2) as E. injection E as ? ?. destruct a, b. cbn in *. congruence. Qed.
Lemma seniority_le_total a b : seniority_le a b = true ∨ seniority_le b a = true.
Proof. apply bytes_le_total. Qed.
Lemma seniority_le_trans a b c : seniority_le a b = true → seniority_le b c = true → seniority_le a c = true.
Proof. apply bytes_le_trans. Qed.
Lemma ranking_order entries i j x y : ranking entries → (i < j)%nat → entries !! i = Some x → entries !! j = Some y → seniority_le x y = true ∧ seniority_le y x = false.
Proof.
  intros [Hs Hnd] Hij Hx Hy. assert (seniority_le x y = true) as Hle.
  { apply (StronglySorted_app_1_elem_of (λ a b, seniority_le a b = true) (take j entries) (drop j entries) x y); [by rewrite take_drop|..]; apply list_elem_of_lookup; [exists i; by rewrite lookup_take_lt|exists 0%nat; by rewrite lookup_drop, Nat.add_0_r]. }
  split; [done|]. apply not_true_iff_false. intros Hge. assert (x.1 = y.1) as E by by apply cursor_le_antisym. assert (i = j) as ->; [|lia].
  apply (NoDup_lookup entries.*1 i j x.1 Hnd); rewrite list_lookup_fmap; [by rewrite Hx|rewrite Hy; cbn; congruence].
Qed.
Lemma cursor_position entries j e y : ranking entries → entries !! j = Some e → entries !! S j = Some y → partition_point (λ x : ranked, cursor_le x.1 e.1) entries = S j.
Proof.
  intros Hr He Hy. assert (prefix_true (λ x : ranked, cursor_le x.1 e.1) entries) as Hp.
  { intros a b x z Hab Hx Hz Hle. destruct (ranking_order entries a b x z Hr Hab Hx Hz) as [? _]. by apply (seniority_le_trans x z e). }
  pose proof (proj1 (partition_point_spec _ _ _ _ Hp He)) as H1. destruct (seniority_le_total e e) as [Hee|Hee]; specialize (H1 Hee);
    (destruct (ranking_order entries j (S j) e y Hr ltac:(lia) He Hy) as [_ Hno]; pose proof (proj2 (partition_point_spec _ _ _ _ Hp Hy)) as H2;
     destruct (decide (S j < partition_point (λ x : ranked, cursor_le x.1 e.1) entries)%nat) as [Hlt|Hge]; [specialize (H2 Hlt); unfold seniority_le in Hno; congruence|lia]).
Qed.
(** From position [start] on, the pages that follow are the rest of the ranking. *)
Lemma follow_from fuel entries limit start cursor :
  ranking entries → (length entries - start ≤ fuel)%nat → (start ≤ length entries)%nat →
  (match cursor with Some c => partition_point (λ e : ranked, cursor_le e.1 c) entries | None => 0%nat end = start) →
  follow fuel entries cursor limit = (drop start entries).*2.
Proof.
  revert start cursor. induction fuel as [|fuel IH]; intros start cursor Hr Hf Hs Hc; cbn [follow]; unfold directory_page; rewrite Hc; cbv zeta.
  - assert (start = length entries) as -> by lia. rewrite decide_False by lia. rewrite drop_all. rewrite Nat.min_r by lia. by rewrite Nat.min_id, Nat.sub_diag.
  - set (stop := Nat.min (start + Nat.max limit 1) (length entries)). assert (start ≤ stop)%nat as Hle by lia. rewrite (Nat.min_l start stop Hle). set (page := take (stop - start) (drop start entries)).
    assert ((drop start entries).*2 = page.*2 ++ (drop stop entries).*2) as Hsplit by (rewrite <- fmap_app; unfold page; rewrite <- (take_drop (stop - start) (drop start entries)) at 1; rewrite drop_drop; do 3 f_equal; lia).
    destruct (decide (stop < length entries)%nat) as [Hlt|Hge].
    2: { rewrite Hsplit, (drop_ge entries stop) by lia. cbn. by rewrite app_nil_r. }
    assert (start < stop)%nat as Hlt' by lia. destruct (lookup_lt_is_Some_2 entries (stop - 1) ltac:(lia)) as [e He]. destruct (lookup_lt_is_Some_2 entries stop Hlt) as [y Hy].
    assert (last page = Some e) as Hlast.
    { rewrite last_lookup. unfold page. rewrite length_take, length_drop. rewrite lookup_take_lt by lia. rewrite lookup_drop, <- He. f_equal. lia. }
    rewrite Hlast. cbn [fmap option_fmap option_map]. rewrite Hsplit. f_equal. apply IH; [done|lia|lia|]. rewrite (cursor_position entries (stop - 1) e y Hr He); [lia|]. rewrite <- Hy. f_equal. lia.
Qed.

(** ** The ranking *)
Lemma entries_distinct now r : reg_ok r → NoDup (ranked_entry <$> retain (λ kv, listed now r kv.2) (map_iter (names r))).*1.
Proof.
  intros Hok. set (l := retain _ _). assert (NoDup l.*1) as Hnd by (eapply sublist_NoDup; [apply (NoDup_fst_map_iter (names r))|apply fmap_sublist, retain_sublist]).
  assert (∀ kv, kv ∈ l → names r !! kv.1 = Some kv.2 ∧ is_current kv.2 = true) as Hl.
  { intros [n rec] [H1 H2%elem_of_map_iter]%elem_of_retain. split; [done|]. unfold listed in H1. apply andb_true_iff in H1 as [[[_ H1]%andb_true_iff _]%andb_true_iff _]. done. }
  clearbody l. induction l as [|kv l IH]; [constructor|]. cbn [fmap list_fmap] in *. apply NoDup_cons in Hnd as [Hnot Hnd]. apply NoDup_cons. split; [|apply IH; [done|]; intros x Hx; apply Hl; by right].
  intros (e & Ee & (kv' & -> & Hin)%list_elem_of_fmap)%list_elem_of_fmap. destruct (Hl kv) as [A1 A2]; [left|]. destruct (Hl kv') as [B1 B2]; [by right|].
  assert (kv.1 = kv'.1) as E. { apply (one_current _ _ (ok_names _ Hok) kv.1 kv'.1 kv.2 kv'.2); [done..|]. unfold ranked_entry in Ee. cbn in Ee. by injection Ee. }
  apply Hnot. rewrite E. by apply (list_elem_of_fmap_2 fst).
Qed.
(** Cutting a list to its least [n] after selecting the [n]-th. *)
Lemma take_select_spec n (l : list ranked) : (n < length l)%nat → (0 < n)%nat →
  let l' := take n (select_nth seniority_le (n - 1) l) in
  length l' = n ∧ l' ⊆+ l ∧ ∀ x, x ∈ l → x ∈ l' ∨ ∀ y, y ∈ l' → seniority_le y x = true.
Proof.
  intros Hn H0. cbv zeta. pose proof (select_nth_perm seniority_le (n - 1) l) as Hp. set (s := select_nth _ _ _) in *. pose proof (Permutation_length Hp) as Hlen.
  split; [rewrite length_take; lia|]. split; [rewrite <- Hp; apply sublist_submseteq, sublist_take|]. intros x Hx. rewrite <- Hp, <- (take_drop n s), elem_of_app in Hx. destruct Hx as [Hx|Hx]; [by left|right].
  intros y Hy. apply list_elem_of_lookup in Hx as [j Hj], Hy as [i Hi]. rewrite lookup_drop in Hj. pose proof (lookup_lt_Some _ _ _ Hi) as Hlt. rewrite length_take in Hlt. rewrite lookup_take_lt in Hi by lia.
  apply (select_nth_parts seniority_le (n - 1) l seniority_le_total seniority_le_trans i (n + j) y x); [lia|lia|lia|done|done].
Qed.
(** C40: the pages a client gets by following the cursors are, together, the directory: every
    listing of the ranking once, in order of seniority, whatever the page size.  The
    ranking holds the listed rooms, at most 5000, and leaves one out only when it is full
    of rooms that are no younger. *)
Theorem directory_pages_cover now limit r : reg_reach r →
  let entries := ranked_directory now r in
  follow (length entries) entries None limit = entries.*2 ∧ ranking entries ∧ Z.of_nat (length entries) ≤ 5000 ∧
  (∀ e, e ∈ entries → ∃ name rec, names r !! name = Some rec ∧ listed now r rec = true ∧ e = ranked_entry (name, rec)) ∧
  (∀ name rec, names r !! name = Some rec → listed now r rec = true → ranked_entry (name, rec) ∈ entries ∨
    Z.of_nat (length entries) = 5000 ∧ ∀ e, e ∈ entries → seniority_le e (ranked_entry (name, rec)) = true).
Proof.
  intros Hok%registry_reach_ok. cbv zeta. unfold ranked_directory. cbv zeta. pose proof (entries_distinct now r Hok) as Hnd. set (all := ranked_entry <$> _) in *.
  assert (∀ e, e ∈ all ↔ ∃ name rec, names r !! name = Some rec ∧ listed now r rec = true ∧ e = ranked_entry (name, rec)) as Hall.
  { intros e. unfold all. rewrite list_elem_of_fmap. split; [intros ([n rec] & -> & [H1 H2%elem_of_map_iter]%elem_of_retain); by exists n, rec|].
    intros (n & rec & H1 & H2 & ->). exists (n, rec). split; [done|]. apply elem_of_retain. split; [done|by apply elem_of_map_iter]. }
  clearbody all. assert (Z.of_nat MAX_DIRECTORY_LISTINGS = 5000) as Hmax by reflexivity.
  set (cut := if decide _ then _ else all). assert ((length cut ≤ MAX_DIRECTORY_LISTINGS)%nat ∧ cut ⊆+ all ∧ ∀ x, x ∈ all → x ∈ cut ∨ length cut = MAX_DIRECTORY_LISTINGS ∧ ∀ y, y ∈ cut → seniority_le y x = true) as (C1 & C2 & C3).
  { unfold cut. destruct (decide _) as [Hlt|Hge]; [|split; [lia|]; split; [done|]; intros x Hx; by left].
    destruct (take_select_spec MAX_DIRECTORY_LISTINGS all Hlt ltac:(lia)) as (T1 & T2 & T3). cbv zeta in *. split; [lia|]. split; [done|]. intros x Hx. destruct (T3 x Hx); [by left|right; by split]. }
  clearbody cut. pose proof (sort_unstable_perm seniority_le cut) as Hp. pose proof (sort_unstable_sorted seniority_le cut seniority_le_total seniority_le_trans) as Hs. set (entries := sort_unstable seniority_le cut) in *. clearbody entries.
  assert (ranking entries) as Hr by (split; [done|]; rewrite Hp; destruct (submseteq_Permutation _ _ C2) as [rest Hrest]; rewrite Hrest, fmap_app in Hnd; by apply NoDup_app in Hnd as [? _]).
  split; [by apply (follow_from _ _ _ 0); [|lia|lia|]|]. split; [done|]. pose proof (Permutation_length Hp) as Hlen. split; [lia|]. split.
  - intros e He. apply Hall. rewrite Hp in He. by eapply elem_of_submseteq.
  - intros n rec H1 H2. destruct (C3 (ranked_entry (n, rec))) as [Hin|[Hfull Hle]]; [apply Hall; by exists n, rec|left; by rewrite Hp|right]. split; [lia|]. intros e He. apply Hle. by rewrite <- Hp.
Qed.
End directory.

(** ** A concrete directory *)
#[local] Instance ListText : RegistryText :=
  {| to_lowercase := to_ascii_lowercase; skeleton := λ s, s; hex_decode := λ s, Some (replicate (length s / 2) 0); hex_encode := λ l, l; blake3_hash := λ l, l |}.
Definition two_rooms : ChannelRegistry :=
  (reg_step 2000 (ClaimName (replicate 32 98) (replicate 64 98) [122; 122] false) (reg_step 1000 (ClaimName (replicate 32 97) (replicate 64 97) [114; 111] false) in_memory).2).2.
Lemma directory_pages_cover_witness : length (ranked_directory 2000 two_rooms) = 2%nat ∧
  follow (length (ranked_directory 2000 two_rooms)) (ranked_directory 2000 two_rooms) None 1 = (ranked_directory 2000 two_rooms).*2.
Proof. split; [vm_compute; reflexivity|]. refine (proj1 (directory_pages_cover 2000 1 two_rooms _)). apply reach_step; [lia|]. apply reach_step; [lia|]. apply reach_memory. Defined.
